(* ===== verification/_CoqProject ===== *)
-Q . S2P
Prelude.v
Bytes.v
LockTypes.v
LockWire.v
LockCommand.v
LockSequencer.v
LockHistory.v
LockDesync.v
LockSnapshotWire.v
LockAssembler.v
LockMatch.v
LockMatchInv.v
LockMatchFit.v
GoStr.v
GoJson.v
Parse.v
ChunkSync.v
ChunkSyncInv.v
FrameCodec.v
FrameReceiver.v
SyncHistory.v
SyncJournal.v
SyncHistoryInv.v
SyncRun.v
SyncRestart.v
SagaRecord.v
SagaKeys.v
SagaTransition.v
SagaRecordInv.v
SagaTransitionInv.v
SagaLayout.v
SagaWheel.v
SagaWire.v
SagaPartition.v
SagaStateInv.v
SagaStep.v
SagaRound.v
SagaRun.v
SagaIssue.v
SagaSafety.v
SagaReplay.v
SagaRestart.v
SagaDelivery.v
NestJob.v
NestQueue.v
NestRun.v
NestDemo.v
NestOrder.v
NestQueueInv.v
NestSim.v
NestBatch.v
NestInv.v
NestStep.v
NestSpec.v
NestWake.v
NestCost.v
NestDrain.v
NestBound.v
NestHandBack.v
VsEnvelope.v
VsRedis.v
VsInv.v
VsStep.v
VsTurns.v
VsSafe.v
VsMemory.v
VsAlone.v
VsOutcome.v
MmTypes.v
MmGrouping.v
MmStore.v
MmInv.v
MmRun.v
MmSafe.v
MailBox.v
MailService.v
MailInv.v
MailClaim.v
MailOnce.v
MailPage.v
