(* ===== verification/Prelude.v ===== *)
(** * roost-core: verification of the framework's deterministic cores

    roost-core is a Go framework for game servers.  This development models
    subsystems that decide, deterministically, what happens to players'
    messages and matches, to replicated state and to multi-step transactions:

    - LOCKSTEP (src/framework/sync/lockstep): a server cuts numbered frames
      from the inputs of the seats, broadcasts them redundantly over
      datagrams, and lets late or lossy clients catch up by pages of history
      or by a state snapshot.
    - CHUNK SYNC (src/framework/sync/chunksync): a cursor turns snapshots of
      objects into full frames and deltas, a replica applies them.
    - FRAMES (src/framework/sync/frame): the frames of entity synchronization
      and the receiver that lets them reach the application.
    - STREAMS (src/framework/sync/syncstream): the history of ordered packets
      per observer and stream, with acknowledgement, replay, recovery by full
      snapshots, and its write-ahead journal.
    - SAGA (src/framework/saga): a coordinator runs step-by-step transactions
      with compensation; each partition of the sagas is one serial loop that
      reads inputs from a log, decides rounds, publishes events to the log
      and only then installs the new states.
    - NEST DISPATCH (src/framework/nest): the queue that serializes the
      messages of each entity over three pools of workers, with batches of
      targets that claim their entities a few at a time.
    - VERSIONED STORE (src/infra/storage/versionstore): values with versions
      under Redis keys, changed by compare-and-set scripts whose replies may
      be lost; each value keeps the tokens of its latest writes, from which
      a call finds out what became of its own.
    - MATCHMAKING (src/service/match): subjects queue in partitions of a
      logical queue, grouping policies choose among the waiting, and a commit
      turns a group, on one partition or several, into a match.
    - MAIL (src/service/mail): one versioned mailbox per player with read and
      claim states, attachments claimed in three phases under one token, and
      broadcasts stored once that each mailbox pulls behind a watermark.

    ** Files and the code they model

    Shared: Prelude (integers at width, results, lists, tactics), Bytes
    (varints, big-endian integers, FNV-1a, SHA-256), GoStr and GoJson (what
    the code uses of strings, strconv, time, sort and encoding/json).

    Lockstep, one file per Go file: LockTypes (shared types), LockWire
    (wire.go), LockCommand (command.go), LockSequencer (sequencer.go),
    LockHistory (history.go), LockDesync (desync.go), LockSnapshotWire
    (snapshot_wire.go), LockAssembler (assembler.go), LockMatch (match.go and
    snapshot.go).  LockMatchInv and LockMatchFit hold the invariants of the
    match.  A [Match] calls the sequencer, history, encoder and detector as
    the Go struct does; sends and snapshot fetches run on goroutines in the
    code, so whether they have finished and how they went is the environment
    [TickEnv] of a tick.

    Chunk sync: Parse (readers of byte streams, with their round trips and
    soundness), ChunkSync (stream.go and fields.go), ChunkSyncInv (its
    invariants and theorems).

    Frames: FrameCodec (frame_limits.go and codec.go), FrameReceiver
    (receiver.go), which calls the decoder.

    Streams: SyncHistory (syncstream.go, lifecycle_journal.go; the journal is
    the class [HistoryJournal]), SyncJournal (file_journal.go, its instance),
    SyncHistoryInv (chains, and when a snapshot represents a history), SyncRun
    (operations commit at most one mutation; import and export), SyncRestart
    (runs with failing writes, imports and restarts).

    Saga: SagaRecord (record.go), SagaKeys and SagaTransition (transition.go),
    SagaLayout (log_layout.go), SagaWheel (wheel.go), SagaWire (log_wire.go),
    SagaPartition (partition.go, with the parts of engine.go and query.go it
    calls).  SagaRecordInv and SagaTransitionInv: the record invariant and its
    preservation; SagaStateInv: the invariant of a saga's whole
    state, which accounts for every effect; SagaStep: the relation of
    what one round may do to one saga; SagaRound: every
    handler is at most one such step, and the invariant of a round; SagaRun:
    sequences of rounds; SagaSafety: the theorems on runs; SagaReplay
    (partition_replay.go): restarting a partition and purging its log;
    SagaIssue: what steps preserve, runs preserve, and which attempts of
    commands were issued; SagaDelivery: the theorems on the commands and
    results of runs.
    SagaSafety and SagaRestart also hold a concrete engine and saga, for
    the witnesses.

    Nest dispatch: NestJob (targets and pools of a message: msg.go,
    dispatch_queue.go, framework/entity), NestQueue (dispatch_queue.go,
    try_batch.go and await.go, one function per critical section of the
    queue's lock; jobs live in a heap, pointers are numbers), NestRun (the
    loops of the workers and of batches as the step relations [work_step] and
    [sys_step]).  NestOrder: the specification, a list of pending jobs of
    which one executes when no earlier one shares an id.  NestQueueInv,
    NestSim, NestBatch, NestInv, NestStep: the invariant that the edges and
    tails of the queue represent that list, and that every step keeps it;
    NestSpec: the refinement.  NestWake: sleeping and woken workers;
    NestCost and NestDrain: a measure every step of a worker lowers, and that
    a stopped queue drains; NestBound: the capacity of a lane; NestHandBack:
    the calls of [handBack], at most one per target; NestDemo: a run for the
    witnesses.

    Versioned store: VsEnvelope (write_token.go: envelopes, tokens, [judge]),
    VsRedis (redis_store.go, update_all.go, the scripts of
    infra/storage/redis/cas.go: the turns of a call, and the step relation of
    any number of calls over one Redis).  VsInv: the invariant, built on the
    chains of writes, and that what [judge] concludes is so; VsStep, VsTurns,
    VsSafe: every step keeps the invariant.  VsMemory
    (memory_store.go): the memory store, and landed commands as its calls;
    VsAlone: the turns a call has left, and undisturbed calls; VsOutcome: the
    theorems on runs.

    Matchmaking: MmTypes (types.go and the keys of redis_store.go, with their
    injectivity and hash slots), MmGrouping (grouping.go), MmStore
    (queue_store.go and store.go, one [..Mutate] per closure that the
    versioned store runs).  MmInv: well-formed queue states, expiry and
    retention as what they leave, and that mutations keep states well formed;
    MmRun: operations on one store as a step relation, and the invariant that
    every one of them keeps; MmSafe: the theorems.

    Mail: MailBox (types.go, mailbox.go, broadcast.go: one function of the
    mailbox or of the ledger per operation), MailService (service.go, one
    [..Mutate] per closure that the versioned store runs).  MailInv:
    well-formed mailboxes, what each operation does to them and to every
    other mail in them, and the ledger.  MailClaim: runs of many service
    instances, each with its own clock, as sequences of store accesses
    ([mailExec]); MailOnce: broadcasts; MailPage: a client that lists page by
    page through [ListMail] while the mailbox changes ([browse]).

    ** What the theorems show

    - Wire formats: round trips, soundness of the decoders on arbitrary
      input, bounds of sizes (LockWire, LockCommand, LockSnapshotWire).
    - Sequencer: refinement of a log of accepted inputs, idempotent
      retransmission, bounded memory, commuting seats (LockSequencer).
    - Client: in-order release, healing by redundancy, no skip over
      snapshots and resumptions, also where frame numbers wrap (LockAssembler).
    - Match: one receiver per session, packets within the datagram budget.
    - Desync: the ruling, its independence of map order, stable majorities.
    - Chunk sync: a replica that applies the committed frames holds exactly
      the snapshots; arbitrary frames keep it well-formed.
    - Frames: the decoder accepts exactly the encoder's outputs; a delta
      reaches the application only on the frame it continues.
    - Streams: a restart restores the history through any write failures;
      sequences are not reused within a stay in an epoch; a replay takes a
      client to the present.  Runs contain rotations to any epoch and imports;
      names of streams are UTF-8, which the journal's JSON needs to keep them.
    - Saga: identities parse back; the layout routes; the wheel refines a bag
      of timers; whatever the inputs, every state held and event published is
      valid; every effect of a saga is still owed a compensation or was
      compensated, never both; a restart from snapshot and log rebuilds the
      held states, and purging the log does not change what it rebuilds;
      command ids are never reused, a result is applied once, the late
      success of an abandoned step is never lost; the retry schedule.
    - Nest dispatch: the queue refines first-in-first-out order per entity,
      no two executions share an entity, no wake-up is lost, the workers
      terminate and drain a stopped queue, lanes stay within their capacity,
      a target of a batch is handed back at most once.
    - Versioned store: whatever replies are lost, resent and resumed, the
      store is a memory store called in the order the scripts ran, a command
      lands at most once, what a call returns is what became of its commands,
      calls return, and every undisturbed call ends within its turns with the
      memory store's contents and result, the codec's errors included.
    - Matchmaking: a ticket goes into one match, queue states stay well
      formed, a repeated commit answers its match, a chosen group is
      accepted, retention does not depend on map order, keys are injective.
    - Mail: while no clock has reached a mail's expiry a player has one claim
      token for it and one commit takes effect; counts and bounds of mailboxes
      are exact under any clocks; a broadcast is merged at most once and a
      pull misses none; a listing followed to its end shows every mail that
      stayed readable once, newest first.

    ** Bounds and fuel

    Integers are [Z] with their Go width written out ([u32], [i64], ...).
    Loops over lists are structural.  Fuel is used where a loop is bounded by
    data: the varint decoder (its input), chunk sending (the bytes of an
    image), draining the assembler (its buffer), SHA-256 padding, the backoff
    doubling (64, see [backoff_loop_end]), event chunks (the events of the
    round), pruning (the code's own batch), preparing a group of a batch (the
    size of a group).  The theorems on runs of the versioned store hold while
    fewer than 2^64 - 3 writes and expiries happened, as versions are uint64.

    ** Not modelled

    Metrics, logs and error texts; goroutine scheduling, contexts and timers;
    clients of NATS, Redis and Mongo; encoding/json of the saga's messages (the
    parameter [Json]; of the journal of streams, what it keeps, [jsonText]); random lifecycles (an input of [start]).  What a
    handler of nest does, whether the engine is fenced and whether a time
    slice is over are free choices of the steps of NestRun.  The reasons of
    hand-backs are those before [normalizeAdmissionError].  In the versioned
    store a drawn token (64 random bits) is new, the codec is a parameter, and
    the sorted-set index beside the values is left out.  Matchmaking runs on
    the memory store, which the versioned store refines; its clock is any
    number and every operation draws a new id.  Mail runs on the
    memory store likewise; a reservation in a run is the part after its check
    of the address, which only removes steps, and sending is its two effects,
    storing an envelope and delivering it.  The other
    subsystems are listed with their reasons in the manifest.

    ** Not reached

    The handlers' side of nest (rollback, remote writes), the admission gate
    and the writing of snapshots of sagas, and the gameplay libraries. *)

From stdpp Require Export base tactics numbers list list_numbers option gmap sorting.
From Stdlib Require Export ZArith Lia.

#[global] Open Scope Z_scope.

(** ** Go scalars *)

(** [wrapN z] is the value of [z] after conversion to an N-bit unsigned
    integer, [sign32]/[sign64] the conversion to a two's complement one. *)
Definition u8 (z : Z) : Z := z mod 2^8.
Definition u16 (z : Z) : Z := z mod 2^16.
Definition u32 (z : Z) : Z := z mod 2^32.
Definition u64 (z : Z) : Z := z mod 2^64.
Definition i32 (z : Z) : Z := (z + 2^31) mod 2^32 - 2^31.
Definition i64 (z : Z) : Z := (z + 2^63) mod 2^64 - 2^63.

Definition is_u8 (z : Z) : Prop := 0 ≤ z < 2^8.
Definition is_u16 (z : Z) : Prop := 0 ≤ z < 2^16.
Definition is_u32 (z : Z) : Prop := 0 ≤ z < 2^32.
Definition is_u64 (z : Z) : Prop := 0 ≤ z < 2^64.
Definition is_i32 (z : Z) : Prop := -2^31 ≤ z < 2^31.
Definition is_i64 (z : Z) : Prop := -2^63 ≤ z < 2^63.

#[export] Instance is_u8_dec z : Decision (is_u8 z).
Proof. unfold is_u8. apply _. Defined.
#[export] Instance is_u16_dec z : Decision (is_u16 z).
Proof. unfold is_u16. apply _. Defined.
#[export] Instance is_u32_dec z : Decision (is_u32 z).
Proof. unfold is_u32. apply _. Defined.
#[export] Instance is_u64_dec z : Decision (is_u64 z).
Proof. unfold is_u64. apply _. Defined.
#[export] Instance is_i32_dec z : Decision (is_i32 z).
Proof. unfold is_i32. apply _. Defined.
#[export] Instance is_i64_dec z : Decision (is_i64 z).
Proof. unfold is_i64. apply _. Defined.

Definition MaxUint32 : Z := 2^32 - 1.
Definition MaxUint64 : Z := 2^64 - 1.

Create HintDb go_int.
Create Rewrite HintDb go_int.

Ltac unfold_int :=
  unfold is_u8, is_u16, is_u32, is_u64, is_i32, is_i64, MaxUint32, MaxUint64 in *.

Lemma u8_small z : is_u8 z → u8 z = z.
Proof. intros H. apply Z.mod_small, H. Qed.
Lemma u16_small z : is_u16 z → u16 z = z.
Proof. intros H. apply Z.mod_small, H. Qed.
Lemma u32_small z : is_u32 z → u32 z = z.
Proof. intros H. apply Z.mod_small, H. Qed.
Lemma u64_small z : is_u64 z → u64 z = z.
Proof. intros H. apply Z.mod_small, H. Qed.
Lemma u32_range z : is_u32 (u32 z).
Proof. apply Z.mod_pos_bound. lia. Qed.
Lemma u64_range z : is_u64 (u64 z).
Proof. apply Z.mod_pos_bound. lia. Qed.
Lemma i32_small z : is_i32 z → i32 z = z.
Proof. unfold is_i32, i32. intros H. rewrite Z.mod_small by lia. lia. Qed.
Lemma i64_small z : is_i64 z → i64 z = z.
Proof. unfold is_i64, i64. intros H. rewrite Z.mod_small by lia. lia. Qed.
Lemma i32_u32 z : i32 (u32 z) = i32 z.
Proof.
  unfold i32, u32. f_equal. rewrite Zplus_mod_idemp_l. done.
Qed.
Lemma i32_range z : is_i32 (i32 z).
Proof.
  unfold is_i32, i32. pose proof (Z.mod_pos_bound (z + 2^31) (2^32)). lia.
Qed.

#[export] Hint Resolve u32_range u64_range i32_range : go_int.
#[export] Hint Rewrite u8_small u16_small u32_small u64_small i32_small i64_small
  using (solve [assumption | unfold_int; lia]) : go_int.

Create Rewrite HintDb go_len.

(** ** Byte strings

    A Go [[]byte] and a Go [string] are both a list of byte values. *)
Abbreviation bytes := (list Z).

(** [len(s)] *)
Definition zlen {A} (l : list A) : Z := Z.of_nat (length l).

Lemma zlen_nonneg {A} (l : list A) : 0 ≤ zlen l.
Proof. unfold zlen. lia. Qed.
Lemma zlen_nil {A} : zlen (@nil A) = 0.
Proof. done. Qed.
Lemma zlen_cons {A} (x : A) l : zlen (x :: l) = 1 + zlen l.
Proof. unfold zlen. simpl. lia. Qed.
Lemma zlen_app {A} (l k : list A) : zlen (l ++ k) = zlen l + zlen k.
Proof. unfold zlen. rewrite length_app. lia. Qed.
Lemma zlen_zero_nil {A} (l : list A) : zlen l = 0 → l = [].
Proof. destruct l; [done|]. rewrite zlen_cons. pose proof (zlen_nonneg l). lia. Qed.
#[export] Hint Resolve zlen_nonneg : go_int.
Lemma to_nat_zlen {A} (l : list A) : Z.to_nat (zlen l) = length l.
Proof. apply Nat2Z.id. Qed.
Lemma zlen_replicate {A} n (x : A) : zlen (replicate n x) = Z.of_nat n.
Proof. unfold zlen. by rewrite length_replicate. Qed.
Lemma zlen_map {A B} (f : A → B) l : zlen (map f l) = zlen l.
Proof. unfold zlen. by rewrite length_map. Qed.
#[export] Hint Rewrite @zlen_nil @zlen_cons @zlen_app @zlen_replicate @zlen_map : go_len.

(** [l[:n]] and [l[n:]] for [0 <= n]. *)
Definition ztake {A} (n : Z) (l : list A) : list A := take (Z.to_nat n) l.
Definition zdrop {A} (n : Z) (l : list A) : list A := drop (Z.to_nat n) l.

Lemma ztake_app_zlen {A} (l k : list A) : ztake (zlen l) (l ++ k) = l.
Proof. unfold ztake, zlen. rewrite Nat2Z.id. apply take_app_length. Qed.
Lemma zdrop_app_zlen {A} (l k : list A) : zdrop (zlen l) (l ++ k) = k.
Proof. unfold zdrop, zlen. rewrite Nat2Z.id. apply drop_app_length. Qed.
Lemma ztake_app_exact {A} n (l k : list A) : zlen l = n → ztake n (l ++ k) = l.
Proof. intros <-. apply ztake_app_zlen. Qed.
Lemma zdrop_app_exact {A} n (l k : list A) : zlen l = n → zdrop n (l ++ k) = k.
Proof. intros <-. apply zdrop_app_zlen. Qed.
Lemma ztake_all {A} n (s : list A) : zlen s ≤ n → ztake n s = s.
Proof. intros H. unfold ztake. apply take_ge. unfold zlen in H. lia. Qed.
Lemma zdrop_all {A} n (s : list A) : zlen s ≤ n → zdrop n s = [].
Proof. intros H. unfold zdrop. apply drop_ge. unfold zlen in H. lia. Qed.
Lemma zlen_ztake {A} n (l : list A) : 0 ≤ n ≤ zlen l → zlen (ztake n l) = n.
Proof. unfold zlen, ztake. rewrite length_take. lia. Qed.
Lemma zlen_zdrop {A} n (l : list A) : 0 ≤ n ≤ zlen l → zlen (zdrop n l) = zlen l - n.
Proof. unfold zlen, zdrop. rewrite length_drop. lia. Qed.
Lemma ztake_zdrop {A} n (l : list A) : ztake n l ++ zdrop n l = l.
Proof. apply take_drop. Qed.

(** ** Filters *)

Lemma filter_all {A} (P : A → Prop) `{∀ x, Decision (P x)} l : Forall P l → filter P l = l.
Proof. induction 1; [done|]. rewrite filter_cons_True by done. by f_equal. Qed.
Lemma filter_none {A} (P : A → Prop) `{∀ x, Decision (P x)} l :
  Forall (λ x, ¬ P x) l → filter P l = [].
Proof. induction 1; [done|]. by rewrite filter_cons_False. Qed.

Lemma filter_ext_in {A} (P Q : A → Prop) `{∀ x, Decision (P x), ∀ x, Decision (Q x)} (l : list A) :
  (∀ x, x ∈ l → P x ↔ Q x) → filter P l = filter Q l.
Proof.
  induction l as [|x l IH]; intros H'; [done|]. rewrite !filter_cons.
  rewrite IH by (intros y Hy; apply H'; by right). destruct (H' x) as [H1 H2]; [by left|].
  repeat case_decide; naive_solver.
Qed.

Lemma seqZ_snoc m n : 0 ≤ n → seqZ m (n + 1) = seqZ m n ++ [m + n].
Proof.
  intros Hn. rewrite <- (Z2Nat.id n) by done.
  replace (Z.of_nat (Z.to_nat n) + 1) with (Z.of_nat (S (Z.to_nat n))) by lia. apply seqZ_S.
Qed.

Lemma elem_of_snoc {A} (x y : A) l : x ∈ l ++ [y] ↔ x ∈ l ∨ x = y.
Proof. by rewrite elem_of_app, list_elem_of_singleton. Qed.

(** ** Results: Go's [(value, error)] *)

Inductive result (E A : Type) : Type :=
| Ok (a : A)
| Err (e : E).
Arguments Ok {E A} a.
Arguments Err {E A} e.

#[export] Instance result_ret {E} : MRet (result E) := fun _ a => Ok a.
#[export] Instance result_bind {E} : MBind (result E) := fun _ _ f r =>
  match r with Ok a => f a | Err e => Err e end.
#[export] Instance result_fmap {E} : FMap (result E) := fun _ _ f r =>
  match r with Ok a => Ok (f a) | Err e => Err e end.
#[export] Instance result_eq_dec {E A} `{EqDecision E, EqDecision A} :
  EqDecision (result E A).
Proof. solve_decision. Defined.

(** [if cond { return err }] *)
Definition guard_err {E} (bad : bool) (e : E) : result E unit :=
  if bad then Err e else Ok tt.

Lemma bind_ok_inv {E A B} (r : result E A) (f : A → result E B) b :
  r ≫= f = Ok b → ∃ a, r = Ok a ∧ f a = Ok b.
Proof. destruct r; [by eauto | done]. Qed.

(** Run one step of a chain [x ← m; k] whose first action succeeds. *)
Lemma bind_ok_eq {E A B} (m : result E A) a (k : A → result E B) r :
  m = Ok a → k a = r → m ≫= k = r.
Proof. by intros -> <-. Qed.
Lemma bind_err_eq {E A B} (m : result E A) e (k : A → result E B) :
  m = Err e → m ≫= k = Err e.
Proof. by intros ->. Qed.
Lemma guard_err_pass {E} bad (e : E) : bad = false → guard_err bad e = Ok tt.
Proof. by intros ->. Qed.
Lemma guard_err_fail {E} bad (e : E) : bad = true → guard_err bad e = Err e.
Proof. by intros ->. Qed.

Lemma bind_err_inv {E A B} (r : result E A) (f : A → result E B) e :
  r ≫= f = Err e → r = Err e ∨ ∃ a, r = Ok a ∧ f a = Err e.
Proof. destruct r; naive_solver. Qed.
Lemma guard_err_err {E} bad (e e' : E) : guard_err bad e = Err e' → e' = e.
Proof. destruct bad; naive_solver. Qed.

Lemma guard_err_ok {E} bad (e : E) u : guard_err bad e = Ok u ↔ bad = false.
Proof. destruct bad, u; naive_solver. Qed.

(** ** Automation *)

Create Rewrite HintDb go_bool.
#[export] Hint Rewrite Z.ltb_lt Z.ltb_ge Z.leb_le Z.leb_gt Z.eqb_eq Z.eqb_neq
  Z.gtb_ltb Z.geb_leb
  andb_true_iff andb_false_iff orb_true_iff orb_false_iff negb_true_iff negb_false_iff
  bool_decide_eq_true bool_decide_eq_false : go_bool.

(** Turn boolean tests of the code into propositions, everywhere. *)
Ltac to_prop := autorewrite with go_bool in *.

(** Forward execution: one action with the given tactic, one passing guard. *)
Ltac run_ok tac := eapply bind_ok_eq; [solve [tac] | cbn beta iota].
Ltac run_guard tac :=
  eapply bind_ok_eq; [apply guard_err_pass; to_prop; solve [tac] | cbn beta iota].

(** [lia] with the lengths of concatenations computed and known to be
    non-negative. *)
Ltac zlen_facts :=
  repeat match goal with
  | |- context [zlen ?l] =>
      lazymatch goal with H : 0 ≤ zlen l |- _ => fail | _ => pose proof (zlen_nonneg l) end
  | _ : context [zlen ?l] |- _ =>
      lazymatch goal with H : 0 ≤ zlen l |- _ => fail | _ => pose proof (zlen_nonneg l) end
  end.
Ltac zlia := autorewrite with go_len in *; zlen_facts; unfold_int; lia.

(** Prove a decidable, closed proposition by evaluating its decision. *)
Ltac by_compute :=
  lazymatch goal with |- ?P => apply (bool_decide_eq_true_1 P); vm_compute; reflexivity end.

(** Take apart a chain of [x ← r; k] that returned [Ok]. *)
Ltac inv_ok :=
  repeat match goal with
  | H : _ ≫= _ = Ok _ |- _ =>
      let a := fresh "a" in let E := fresh "E" in
      apply bind_ok_inv in H; destruct H as (a & E & H);
      lazymatch type of a with
      | unit => destruct a
      | (_ * _)%type => destruct a
      | _ => idtac
      end; cbn beta iota in H
  | H : guard_err _ _ = Ok _ |- _ => apply guard_err_ok in H
  | H : Ok _ = Ok _ |- _ => injection H as H; subst
  | H : Err _ = Ok _ |- _ => discriminate H
  | H : Ok _ = Err _ |- _ => discriminate H
  | H : (if ?b then Err _ else _) = Ok _ |- _ =>
      let E := fresh "Hg" in destruct b eqn:E; [discriminate H|]
  | H : (let '(_, _) := ?p in _) = Ok _ |- _ => destruct p
  end.
