(* ===== verification/Bytes.v ===== *)
(** * Byte-level encodings of the Go standard library

    The parts of [encoding/binary], [hash/fnv], [crypto/sha256] and
    [encoding/hex] that the modelled packages call: big-endian integers,
    unsigned varints, FNV-1a, SHA-256 and hexadecimal text.  They are
    executable; the lemmas are the round trips and bounds the codecs of the
    repository are built on. *)

From S2P Require Import Prelude.

(** ** Bit-level helpers *)

Lemma lor_mod_pow2 a b n :
  0 ≤ n → Z.lor (a mod 2^n) (b mod 2^n) = Z.lor a b mod 2^n.
Proof. intros. rewrite <- !Z.land_ones by lia. by rewrite Z.land_lor_distr_l. Qed.

Lemma lor_u64 a b : is_u64 a → is_u64 b → is_u64 (Z.lor a b).
Proof.
  intros Ha Hb. rewrite <- (u64_small a Ha), <- (u64_small b Hb).
  unfold u64. rewrite lor_mod_pow2 by lia. apply u64_range.
Qed.

Lemma testbit_above x s n : 0 ≤ x < 2^s → 0 ≤ s ≤ n → Z.testbit x n = false.
Proof.
  intros Hx Hn. destruct (decide (x = 0)) as [->|]; [apply Z.bits_0|].
  apply Z.bits_above_log2; [lia|]. apply Z.log2_lt_pow2; [lia|].
  apply Z.lt_le_trans with (2^s); [lia|]. apply Z.pow_le_mono_r; lia.
Qed.

(** [x | b<<s] is a sum when [x] only has bits below [s]. *)
Lemma lor_shiftl_add x b s :
  0 ≤ s → 0 ≤ x < 2^s → Z.lor x (Z.shiftl b s) = x + b * 2^s.
Proof.
  intros Hs Hx. rewrite <- Z.shiftl_mul_pow2 by lia.
  assert (Hbit : ∀ n, 0 ≤ n → Z.testbit x n = false ∨ Z.testbit (Z.shiftl b s) n = false).
  { intros n Hn. destruct (decide (n < s)).
    - right. rewrite Z.shiftl_spec by lia. apply Z.testbit_neg_r. lia.
    - left. apply (testbit_above x s); lia. }
  rewrite Z.add_nocarry_lxor; apply Z.bits_inj'; intros n Hn.
  - rewrite Z.lor_spec, Z.lxor_spec. destruct (Hbit n Hn) as [-> | ->].
    + by rewrite orb_false_l, xorb_false_l.
    + by rewrite orb_false_r, xorb_false_r.
  - rewrite Z.land_spec, Z.bits_0. destruct (Hbit n Hn) as [-> | ->]; [done|apply andb_false_r].
Qed.

(** A property of all byte values is decided by testing the 256 of them. *)
Lemma byte_forall (P : Z → bool) :
  forallb P (seqZ 0 256) = true → ∀ b, is_u8 b → P b = true.
Proof.
  intros H b Hb. rewrite forallb_forall in H. apply H.
  apply list_elem_of_In, elem_of_seqZ. unfold_int. lia.
Qed.

(** ** Unsigned varints ([binary.AppendUvarint], [binary.Uvarint]) *)

Definition MaxVarintLen64 : Z := 10.

(** The loop of [AppendUvarint]; nine continuation bytes are enough for a
    64-bit value ([read_uvarint_app] would not hold otherwise). *)
Fixpoint put_uvarint (fuel : nat) (x : Z) : bytes :=
  match fuel with
  | O => [u8 x]
  | S f => if 0x80 <=? x then Z.lor (u8 x) 0x80 :: put_uvarint f (Z.shiftr x 7)
           else [u8 x]
  end.

Definition uvarint (x : Z) : bytes := put_uvarint 9 x.
Definition AppendUvarint (buf : bytes) (x : Z) : bytes := buf ++ uvarint x.

(** The loop of [binary.Uvarint]: index [i], shift [s], value so far [x].
    A non-positive count reports overflow or a truncated buffer. *)
Fixpoint uvarint_loop (i s x : Z) (buf : bytes) : Z * Z :=
  match buf with
  | [] => (0, 0)
  | b :: buf' =>
      if i =? MaxVarintLen64 then (0, - (i + 1))
      else if b <? 0x80 then
        if (i =? MaxVarintLen64 - 1) && (1 <? b) then (0, - (i + 1))
        else (Z.lor x (u64 (Z.shiftl b s)), i + 1)
      else uvarint_loop (i + 1) (s + 7)
             (Z.lor x (u64 (Z.shiftl (Z.land b 0x7f) s))) buf'
  end.

Definition Uvarint (buf : bytes) : Z * Z := uvarint_loop 0 0 0 buf.

(** The value and the rest of the buffer, when the read count is positive. *)
Definition read_uvarint (buf : bytes) : option (Z * bytes) :=
  let '(v, n) := Uvarint buf in
  if n <=? 0 then None else Some (v, zdrop n buf).

Lemma cont_byte y : is_u8 y →
  128 ≤ Z.lor y 0x80 < 256 ∧ Z.land (Z.lor y 0x80) 0x7f = y mod 128.
Proof.
  intros Hy.
  assert (H : ((128 <=? Z.lor y 0x80) && (Z.lor y 0x80 <? 256) &&
    (Z.land (Z.lor y 0x80) 0x7f =? y mod 128)) = true).
  { revert y Hy. apply byte_forall. vm_compute. reflexivity. }
  to_prop. lia.
Qed.

Lemma mod256_mod128 x : (x mod 2^8) mod 128 = x mod 128.
Proof. change (2^8) with 256. Z.div_mod_to_equations. lia. Qed.

Lemma put_uvarint_loop fuel : ∀ i x0 x rest,
  i + Z.of_nat fuel = 9 → 0 ≤ i → 0 ≤ x0 < 2^(7 * i) → 0 ≤ x →
  x0 + x * 2^(7 * i) < 2^64 →
  uvarint_loop i (7 * i) x0 (put_uvarint fuel x ++ rest) =
    (x0 + x * 2^(7 * i), i + zlen (put_uvarint fuel x)).
Proof.
  induction fuel as [|fuel IH]; intros i x0 x rest Hi Hi0 Hx0 Hx Hlt.
  - assert (i = 9) as -> by lia. change (7 * 9) with 63 in *.
    assert (x < 2) by lia. cbn [put_uvarint app uvarint_loop].
    rewrite u8_small by (unfold_int; lia).
    destruct (x <? 0x80) eqn:E; to_prop; [|lia].
    replace (1 <? x) with false by (symmetry; to_prop; lia).
    change (9 =? MaxVarintLen64) with false. cbn [andb]. rewrite andb_false_r.
    rewrite u64_small by (unfold_int; rewrite Z.shiftl_mul_pow2 by lia; lia).
    by rewrite lor_shiftl_add by lia.
  - pose proof (Z.pow_pos_nonneg 2 (7 * i)) as Hpow.
    cbn [put_uvarint]. destruct (0x80 <=? x) eqn:Ex; to_prop.
    + assert (Hu8 : is_u8 (u8 x)) by (apply Z.mod_pos_bound; lia).
      destruct (cont_byte (u8 x) Hu8) as [Hb Hland].
      cbn [app uvarint_loop].
      destruct (i =? MaxVarintLen64) eqn:E1; to_prop; [unfold MaxVarintLen64 in *; lia|].
      destruct (Z.lor (u8 x) 0x80 <? 0x80) eqn:E2; to_prop; [lia|].
      rewrite Hland. unfold u8. rewrite mod256_mod128.
      assert (Hm : 0 ≤ x mod 128 < 128) by (apply Z.mod_pos_bound; lia).
      assert (Hpow7 : 2 ^ (7 * (i + 1)) = 128 * 2 ^ (7 * i)).
      { replace (7 * (i + 1)) with (7 + 7 * i) by lia. rewrite Z.pow_add_r by lia. done. }
      assert (Hdiv : x = 128 * (x / 128) + x mod 128) by (apply Z.div_mod; lia).
      rewrite u64_small by (unfold_int; rewrite Z.shiftl_mul_pow2 by lia; nia).
      rewrite lor_shiftl_add by lia.
      replace (7 * i + 7) with (7 * (i + 1)) by lia.
      rewrite Z.shiftr_div_pow2 by lia. change (2^7) with 128.
      rewrite IH; [|lia|lia| |apply Z.div_pos; lia|].
      * rewrite Hpow7, zlen_cons. f_equal; nia.
      * rewrite Hpow7. nia.
      * rewrite Hpow7. nia.
    + cbn [app uvarint_loop]. rewrite u8_small by (unfold_int; lia).
      destruct (i =? MaxVarintLen64) eqn:E1; to_prop; [unfold MaxVarintLen64 in *; lia|].
      destruct (x <? 0x80) eqn:E2; to_prop; [|lia].
      assert (((i =? MaxVarintLen64 - 1) && (1 <? x)) = false) as ->.
      { unfold MaxVarintLen64. to_prop. left. lia. }
      rewrite u64_small by (unfold_int; rewrite Z.shiftl_mul_pow2 by lia; nia).
      by rewrite lor_shiftl_add by lia.
Qed.

Lemma zlen_uvarint_pos x : 1 ≤ zlen (uvarint x).
Proof. unfold uvarint. cbn [put_uvarint]. destruct (0x80 <=? x); zlia. Qed.

Lemma zlen_put_uvarint_le fuel : ∀ k x,
  1 ≤ k → 0 ≤ x < 2^(7 * k) → zlen (put_uvarint fuel x) ≤ k.
Proof.
  induction fuel as [|fuel IH]; intros k x Hk Hx; cbn [put_uvarint]; [zlia|].
  destruct (Z.leb_spec 128 x); [|zlia]. rewrite zlen_cons.
  assert (k ≠ 1) by (intros ->; change (2^(7*1)) with 128 in Hx; lia).
  specialize (IH (k - 1) (Z.shiftr x 7)). rewrite Z.shiftr_div_pow2 in * by lia.
  assert (2^(7*k) = 2^7 * 2^(7*(k-1))) as E by (rewrite <- Z.pow_add_r by lia; f_equal; lia).
  assert (0 ≤ x / 2^7 < 2^(7*(k-1))).
  { split; [apply Z.div_pos; lia|]. apply Z.div_lt_upper_bound; lia. }
  lia.
Qed.

(** A uint32 takes at most five bytes, as [binary.MaxVarintLen32] says. *)
Lemma zlen_uvarint_le k x : 1 ≤ k → 0 ≤ x < 2^(7 * k) → zlen (uvarint x) ≤ k.
Proof. apply zlen_put_uvarint_le. Qed.

(** Round trip of the varint codec, with whatever follows it in the buffer. *)
Lemma read_uvarint_app x rest :
  is_u64 x → read_uvarint (uvarint x ++ rest) = Some (x, rest).
Proof.
  intros Hx. unfold read_uvarint, Uvarint, uvarint.
  pose proof (put_uvarint_loop 9 0 0 x rest) as Hloop.
  change (7 * 0) with 0 in Hloop. change (2^0) with 1 in Hloop.
  rewrite Hloop by (unfold_int; lia).
  pose proof (zlen_uvarint_pos x) as Hpos. unfold uvarint in Hpos.
  destruct (0 + zlen (put_uvarint 9 x) <=? 0) eqn:E; to_prop; [lia|].
  rewrite !Z.add_0_l, Z.mul_1_r, zdrop_app_zlen. done.
Qed.

Lemma uvarint_loop_spec buf : ∀ i s x v n,
  is_u64 x → 0 ≤ i → uvarint_loop i s x buf = (v, n) → 0 < n →
  is_u64 v ∧ i < n ≤ i + zlen buf.
Proof.
  induction buf as [|b buf IH]; intros i s x v n Hx Hi Hgo Hn; cbn [uvarint_loop] in Hgo.
  { injection Hgo as <- <-. lia. }
  rewrite zlen_cons. pose proof (zlen_nonneg buf).
  destruct (i =? MaxVarintLen64); [injection Hgo as <- <-; lia|].
  destruct (b <? 0x80).
  - destruct (_ && _); injection Hgo as <- <-; [lia|].
    split; [|lia]. apply lor_u64; auto with go_int.
  - apply IH in Hgo as [Hv Hr]; [split; [done|lia]| |lia|done].
    apply lor_u64; auto with go_int.
Qed.

(** What a successful read returns: a 64-bit value and a strictly shorter,
    final part of the buffer. *)
Lemma read_uvarint_spec buf v rest :
  read_uvarint buf = Some (v, rest) →
  is_u64 v ∧ (∃ p, buf = p ++ rest) ∧ zlen rest < zlen buf.
Proof.
  unfold read_uvarint. destruct (Uvarint buf) as [v' n] eqn:E. unfold Uvarint in E.
  destruct (n <=? 0) eqn:En; [done|]. to_prop. intros [= <- <-].
  apply uvarint_loop_spec in E as [Hv Hn]; [|unfold_int; lia|lia|lia].
  split; [done|]. split.
  - exists (ztake n buf). by rewrite ztake_zdrop.
  - rewrite zlen_zdrop by lia. lia.
Qed.

(** ** Big-endian integers ([binary.BigEndian]) *)

Fixpoint be_put (n : nat) (x : Z) : bytes :=
  match n with
  | O => []
  | S m => u8 (Z.shiftr x (8 * Z.of_nat m)) :: be_put m x
  end.

Definition be_val (l : bytes) : Z := fold_left (λ acc b, acc * 256 + b) l 0.

(** Read [n] bytes as a big-endian integer: [None] is a short buffer. *)
Definition be_read (n : nat) (buf : bytes) : option (Z * bytes) :=
  if Nat.ltb (length buf) n then None
  else Some (be_val (take n buf), drop n buf).

Definition PutUint16 := be_put 2.
Definition PutUint32 := be_put 4.
Definition PutUint64 := be_put 8.

Lemma length_be_put n x : length (be_put n x) = n.
Proof. induction n; simpl; congruence. Qed.

Lemma zlen_be_put n x : zlen (be_put n x) = Z.of_nat n.
Proof. unfold zlen. by rewrite length_be_put. Qed.
#[export] Hint Rewrite zlen_be_put : go_len.

Lemma be_val_acc n : ∀ x acc,
  fold_left (λ acc b, acc * 256 + b) (be_put n x) acc
    = acc * 2^(8 * Z.of_nat n) + x mod 2^(8 * Z.of_nat n).
Proof.
  induction n as [|n IH]; intros x acc; cbn [be_put fold_left].
  { change (8 * Z.of_nat 0) with 0. change (2^0) with 1. rewrite Z.mod_1_r. lia. }
  rewrite IH. replace (8 * Z.of_nat (S n)) with (8 * Z.of_nat n + 8) by lia.
  rewrite Z.pow_add_r by lia. unfold u8. rewrite Z.shiftr_div_pow2 by lia.
  assert (0 < 2^(8 * Z.of_nat n)) by (apply Z.pow_pos_nonneg; lia).
  rewrite Z.rem_mul_r by lia. change (2^8) with 256. lia.
Qed.

Lemma be_read_app n x rest :
  0 ≤ x < 2^(8 * Z.of_nat n) → be_read n (be_put n x ++ rest) = Some (x, rest).
Proof.
  intros Hx. unfold be_read. rewrite length_app, length_be_put.
  case_match eqn:E; [apply Nat.ltb_lt in E; lia|].
  rewrite take_app_length', drop_app_length' by (by rewrite length_be_put).
  unfold be_val. rewrite be_val_acc, Z.mod_small by lia. done.
Qed.

Lemma be_read_16 x rest : is_u16 x → be_read 2 (PutUint16 x ++ rest) = Some (x, rest).
Proof. intros. by apply be_read_app. Qed.
Lemma be_read_32 x rest : is_u32 x → be_read 4 (PutUint32 x ++ rest) = Some (x, rest).
Proof. intros. by apply be_read_app. Qed.
Lemma be_read_64 x rest : is_u64 x → be_read 8 (PutUint64 x ++ rest) = Some (x, rest).
Proof. intros. by apply be_read_app. Qed.

Lemma be_read_suffix n buf v rest :
  be_read n buf = Some (v, rest) → zlen buf = Z.of_nat n + zlen rest.
Proof.
  unfold be_read. case_match eqn:E; [done|]. apply Nat.ltb_ge in E. intros [= <- <-].
  unfold zlen. rewrite length_drop. lia.
Qed.

(** ** FNV-1a ([hash/fnv.New32a]) *)

Definition fnv32a_step (h b : Z) : Z := u32 (Z.lxor h b * 16777619).
Definition fnv32a (l : bytes) : Z := fold_left fnv32a_step l 2166136261.

Lemma fnv32a_range l : is_u32 (fnv32a l).
Proof.
  unfold fnv32a. assert (H : is_u32 2166136261) by (unfold_int; lia). revert H.
  generalize 2166136261. induction l as [|b l IH]; intros h Hh; [done|].
  apply IH, u32_range.
Qed.

(** ** SHA-256 ([crypto/sha256.Sum256]) *)

Module Sha256.

(** The primes below 312, by trial division. *)
Definition primes : list Z :=
  filter (λ p, forallb (λ d, negb (p mod d =? 0)) (seqZ 2 (p - 2)) = true) (seqZ 2 310).

(** The integer cube root, bit by bit from bit [n]. *)
Fixpoint cube_root (n : nat) (x acc : Z) : Z :=
  let next := acc + 2^(Z.of_nat n) in
  let acc := if next * next * next <=? x then next else acc in
  match n with O => acc | S n' => cube_root n' x acc end.

(** The first 32 fractional bits of the cube roots of the primes. *)
Definition K : list Z := Eval vm_compute in map (λ p, u32 (cube_root 40 (p * 2^96) 0)) primes.

Record regs : Type := Regs { ra : Z; rb : Z; rc : Z; rd : Z; re : Z; rf : Z; rg : Z; rh : Z }.

Definition H0 : regs :=
  Eval vm_compute in
  let root p := u32 (Z.sqrt (p * 2^64)) in
  Regs (root 2) (root 3) (root 5) (root 7) (root 11) (root 13) (root 17) (root 19).

Definition rotr (x n : Z) : Z := u32 (Z.lor (Z.shiftr x n) (Z.shiftl x (32 - n))).
Definition xor3 (x y z : Z) : Z := Z.lxor x (Z.lxor y z).

(** [pad]: a one bit, zeros up to 56 modulo 64, the length in bits. *)
Definition pad (msg : bytes) : bytes :=
  let n := zlen msg in
  msg ++ [0x80] ++ replicate (Z.to_nat ((55 - n) mod 64)) 0 ++ be_put 8 (u64 (8 * n)).

(** Message schedule, most recent word first. *)
Fixpoint schedule (fuel : nat) (w : list Z) : list Z :=
  match fuel with
  | O => w
  | S f =>
      let w15 := nth 14 w 0 in
      let w2 := nth 1 w 0 in
      let s0 := xor3 (rotr w15 7) (rotr w15 18) (Z.shiftr w15 3) in
      let s1 := xor3 (rotr w2 17) (rotr w2 19) (Z.shiftr w2 10) in
      schedule f (u32 (nth 15 w 0 + s0 + nth 6 w 0 + s1) :: w)
  end.

Fixpoint words (l : bytes) : list Z :=
  match l with
  | a :: b :: c :: d :: l' => be_val [a; b; c; d] :: words l'
  | _ => []
  end.

Definition round (r : regs) (kw : Z * Z) : regs :=
  let '(k, w) := kw in
  let s1 := xor3 (rotr (re r) 6) (rotr (re r) 11) (rotr (re r) 25) in
  let ch := Z.lxor (Z.land (re r) (rf r)) (Z.land (2^32 - 1 - re r) (rg r)) in
  let t1 := u32 (rh r + s1 + ch + k + w) in
  let s0 := xor3 (rotr (ra r) 2) (rotr (ra r) 13) (rotr (ra r) 22) in
  let maj := xor3 (Z.land (ra r) (rb r)) (Z.land (ra r) (rc r)) (Z.land (rb r) (rc r)) in
  Regs (u32 (t1 + u32 (s0 + maj))) (ra r) (rb r) (rc r) (u32 (rd r + t1)) (re r) (rf r) (rg r).

Definition block (h : regs) (chunk : bytes) : regs :=
  let r := fold_left round (combine K (rev (schedule 48 (rev (words chunk))))) h in
  Regs (u32 (ra h + ra r)) (u32 (rb h + rb r)) (u32 (rc h + rc r)) (u32 (rd h + rd r))
       (u32 (re h + re r)) (u32 (rf h + rf r)) (u32 (rg h + rg r)) (u32 (rh h + rh r)).

Fixpoint blocks (fuel : nat) (h : regs) (msg : bytes) : regs :=
  match fuel with
  | O => h
  | S f => match msg with
           | [] => h
           | _ => blocks f (block h (take 64 msg)) (drop 64 msg)
           end
  end.

(** [sha256.Sum256]; one step of fuel per 64-byte block. *)
Definition Sum256 (msg : bytes) : bytes :=
  let p := pad msg in
  let h := blocks (Nat.div (length p) 64) H0 p in
  PutUint32 (ra h) ++ PutUint32 (rb h) ++ PutUint32 (rc h) ++ PutUint32 (rd h) ++
  PutUint32 (re h) ++ PutUint32 (rf h) ++ PutUint32 (rg h) ++ PutUint32 (rh h).

Lemma zlen_Sum256 msg : zlen (Sum256 msg) = 32.
Proof. unfold Sum256, PutUint32, zlen. rewrite !length_app, !length_be_put. done. Qed.

(** The standard test vectors for "" and "abc". *)
Example sum_empty : take 4 (Sum256 []) = [0xe3; 0xb0; 0xc4; 0x42].
Proof. vm_compute. reflexivity. Qed.
Example sum_abc : Sum256 [97; 98; 99] =
  [0xba; 0x78; 0x16; 0xbf; 0x8f; 0x01; 0xcf; 0xea; 0x41; 0x41; 0x40; 0xde; 0x5d; 0xae; 0x22; 0x23;
   0xb0; 0x03; 0x61; 0xa3; 0x96; 0x17; 0x7a; 0x9c; 0xb4; 0x10; 0xff; 0x61; 0xf2; 0x00; 0x15; 0xad].
Proof. vm_compute. reflexivity. Qed.

(** The padded message is a whole number of blocks, so [Sum256]'s fuel
    consumes all of it. *)
Lemma pad_blocks msg : zlen (pad msg) mod 64 = 0.
Proof.
  unfold pad. autorewrite with go_len. rewrite Z2Nat.id by (apply Z.mod_pos_bound; lia).
  pose proof (Z.div_mod (55 - zlen msg) 64) as Hd.
  replace (zlen msg + (1 + 0 + ((55 - zlen msg) mod 64 + Z.of_nat 8)))
    with ((1 - (55 - zlen msg) / 64) * 64) by lia.
  apply Z_mod_mult.
Qed.

End Sha256.

(** ** Hexadecimal text ([encoding/hex.EncodeToString]) *)

Definition hex_digit (d : Z) : Z := if d <? 10 then 48 + d else 87 + d.
Definition hex_encode (l : bytes) : bytes :=
  l ≫= λ b, [hex_digit (Z.shiftr b 4); hex_digit (Z.land b 15)].

Lemma zlen_hex_encode l : zlen (hex_encode l) = 2 * zlen l.
Proof.
  unfold hex_encode. induction l as [|b l IH]; [done|].
  cbn [mbind list_bind]. rewrite zlen_app, IH, !zlen_cons, zlen_nil. lia.
Qed.

(** The codecs are never unfolded by simplification. *)
#[global] Arguments uvarint : simpl never.
#[global] Arguments Uvarint : simpl never.
#[global] Arguments read_uvarint : simpl never.
#[global] Arguments be_put : simpl never.
#[global] Arguments be_read : simpl never.
#[global] Arguments fnv32a : simpl never.
#[global] Arguments Sha256.Sum256 : simpl never.
