(* ===== verification/LockTypes.v ===== *)
(** * Lockstep: shared types

    Seats, frames, limits and errors of package [framework/sync/lockstep]
    (sequencer.go, wire.go, snapshot.go), and the varint reader its decoders
    share. *)

From S2P Require Import Prelude Bytes.

(** Sentinel errors; the text and the wrapping of the messages are not
    modelled, [errors.Is] is equality of sentinels. *)
Inductive LockErr : Type :=
| ErrPlayerUnknown | ErrFrameTooEarly | ErrConfigInvalid | ErrPayloadTooBig
| ErrFrameCorrupt | ErrHistoryUnknown
| ErrSnapshotUnsupported | ErrSnapshotNotApplied | ErrSnapshotCorrupt
| ErrMatchConfigInvalid | ErrMatchClosed | ErrPlayerDetached | ErrSessionInUse
| ErrCatchupUnavailable | ErrCatchupFuture | ErrHashFrameInvalid
| ErrSnapshotUnavailable | ErrSnapshotTooLarge | ErrSnapshotInvalid | ErrSnapshotNotConfigured
| ErrProviderPanic | ErrDeadlineExceeded | ErrLink
| CatchupUnservable (reason from start : Z).

#[export] Instance LockErr_eq_dec : EqDecision LockErr.
Proof. solve_decision. Defined.

(** [PlayerID] is an int32, [FrameID] a uint32; both are kept as [Z]. *)
Abbreviation PlayerID := Z (only parsing).
Abbreviation FrameID := Z (only parsing).

Record Input : Type := mkInput { iPlayer : PlayerID; iPayload : bytes }.
Record Frame : Type := mkFrame { fID : FrameID; fInputs : list Input }.

#[export] Instance Input_eq_dec : EqDecision Input.
Proof. solve_decision. Defined.
#[export] Instance Frame_eq_dec : EqDecision Frame.
Proof. solve_decision. Defined.
#[export] Instance Frame_inhabited : Inhabited Frame := populate (mkFrame 0 []).

Definition MaxInputPayloadBytes : Z := 1024.
Definition MaxSubmitWindow : Z := 64.
Definition ReplayHorizon : Z := MaxSubmitWindow.
Definition replayWindowSize : Z := ReplayHorizon + MaxSubmitWindow + 1.
Definition MaxBroadcastFrames : Z := 64.
Definition MaxFrameInputs : Z := 256.
Definition DefaultMaxSnapshotBytes : Z := 4 * 2^20.
Definition MaxSnapshotBytes : Z := 64 * 2^20.

(** [readUvarint]: a non-positive read count is a corrupt frame. *)
Definition readUvarint (data : bytes) : result LockErr (Z * bytes) :=
  match read_uvarint data with
  | Some vr => Ok vr
  | None => Err ErrFrameCorrupt
  end.

#[global] Arguments readUvarint : simpl never.

Lemma readUvarint_app x rest :
  is_u64 x → readUvarint (uvarint x ++ rest) = Ok (x, rest).
Proof. intros. unfold readUvarint. by rewrite read_uvarint_app. Qed.

Lemma readUvarint_ok data v rest :
  readUvarint data = Ok (v, rest) →
  is_u64 v ∧ (∃ p, data = p ++ rest) ∧ zlen rest < zlen data.
Proof.
  unfold readUvarint. destruct (read_uvarint data) as [[v' r']|] eqn:E; [|done].
  intros [= -> ->]. by apply read_uvarint_spec.
Qed.

Lemma readUvarint_err data e : readUvarint data = Err e → e = ErrFrameCorrupt.
Proof. unfold readUvarint. case_match; naive_solver. Qed.

(** ** Well-formed inputs and frames

    The bounds the wire format can carry: an int32 seat, a payload within
    [MaxInputPayloadBytes], a non-zero uint32 id, at most [MaxFrameInputs]
    inputs. *)
Definition input_wf (i : Input) : Prop :=
  is_i32 (iPlayer i) ∧ zlen (iPayload i) ≤ MaxInputPayloadBytes.

Definition frame_wf (f : Frame) : Prop :=
  0 < fID f ≤ MaxUint32 ∧ zlen (fInputs f) ≤ MaxFrameInputs ∧ Forall input_wf (fInputs f).

(** Frame ids strictly increase, starting above [last]. *)
Fixpoint increasing_from (last : Z) (fs : list Frame) : Prop :=
  match fs with
  | [] => True
  | f :: fs' => last < fID f ∧ increasing_from (fID f) fs'
  end.

#[export] Instance input_wf_dec i : Decision (input_wf i).
Proof. unfold input_wf. apply _. Defined.
#[export] Instance frame_wf_dec f : Decision (frame_wf f).
Proof. unfold frame_wf. apply _. Defined.
#[export] Instance increasing_from_dec last fs : Decision (increasing_from last fs).
Proof. revert last. induction fs; intros last; cbn; apply _. Defined.

Definition packet_wf (fs : list Frame) : Prop :=
  zlen fs ≤ MaxBroadcastFrames ∧ Forall frame_wf fs ∧ increasing_from 0 fs.

#[export] Instance packet_wf_dec fs : Decision (packet_wf fs).
Proof. unfold packet_wf. apply _. Defined.
