(* ===== verification/LockWire.v ===== *)
(** * Lockstep wire format (wire.go)

    C7 broadcast packets (redundant frames, oldest first), the fixed-ring
    redundancy encoder and the C9 recovery-failure notice.  Theorems: both
    codecs round-trip, a decoded packet is within the format's bounds and its
    frame ids strictly increase, and the encoder's packet is the encoding of
    the last [depth] frames pushed. *)

From S2P Require Import Prelude Bytes LockTypes.

Definition wireMagic : Z := 0xC7.
Definition wireVersion : Z := 1.
Definition noticeMagic : Z := 0xC9.
Definition noticeVersion : Z := 2.

(** ** Broadcast packets *)

Definition encodeInput (i : Input) : bytes :=
  uvarint (u32 (iPlayer i)) ++ uvarint (zlen (iPayload i)) ++ iPayload i.

Definition encodeFrame (f : Frame) : bytes :=
  uvarint (fID f) ++ uvarint (zlen (fInputs f)) ++ concat (map encodeInput (fInputs f)).

(** [EncodeBroadcast]. *)
Definition EncodeBroadcast (frames : list Frame) : bytes :=
  [wireMagic; wireVersion] ++ uvarint (zlen frames) ++ concat (map encodeFrame frames).

(** The loop over one frame's inputs. *)
Fixpoint decodeInputs (n : nat) (rest : bytes) : result LockErr (list Input * bytes) :=
  match n with
  | O => Ok ([], rest)
  | S n' =>
      '(player, rest) ← readUvarint rest;
      _ ← guard_err (MaxUint32 <? player) ErrFrameCorrupt;
      '(payloadLen, rest) ← readUvarint rest;
      _ ← guard_err ((MaxInputPayloadBytes <? payloadLen) || (zlen rest <? payloadLen)) ErrFrameCorrupt;
      '(inputs, rest') ← decodeInputs n' (zdrop payloadLen rest);
      Ok (mkInput (i32 (u32 player)) (ztake payloadLen rest) :: inputs, rest')
  end.

(** The loop over frames; [lastID] is the id of the previous frame. *)
Fixpoint decodeFrames (n : nat) (lastID : Z) (rest : bytes) : result LockErr (list Frame * bytes) :=
  match n with
  | O => Ok ([], rest)
  | S n' =>
      '(id, rest) ← readUvarint rest;
      _ ← guard_err ((id =? 0) || (MaxUint32 <? id)) ErrFrameCorrupt;
      _ ← guard_err (id <=? lastID) ErrFrameCorrupt;
      '(inputCount, rest) ← readUvarint rest;
      _ ← guard_err ((MaxFrameInputs <? inputCount) || (zlen rest <? inputCount)) ErrFrameCorrupt;
      '(inputs, rest) ← decodeInputs (Z.to_nat inputCount) rest;
      '(frames, rest) ← decodeFrames n' id rest;
      Ok (mkFrame id inputs :: frames, rest)
  end.

(** [DecodeBroadcast]. *)
Definition DecodeBroadcast (packet : bytes) : result LockErr (list Frame) :=
  _ ← guard_err (negb ((3 <=? zlen packet) && (packet !!! 0%nat =? wireMagic)
                       && (packet !!! 1%nat =? wireVersion))) ErrFrameCorrupt;
  '(frameCount, rest) ← readUvarint (zdrop 2 packet);
  _ ← guard_err (MaxBroadcastFrames <? frameCount) ErrFrameCorrupt;
  '(frames, rest) ← decodeFrames (Z.to_nat frameCount) 0 rest;
  _ ← guard_err (negb (zlen rest =? 0)) ErrFrameCorrupt;
  Ok frames.

Lemma zlen_encodeInput i : 2 ≤ zlen (encodeInput i).
Proof.
  unfold encodeInput. pose proof (zlen_uvarint_pos (u32 (iPlayer i))).
  pose proof (zlen_uvarint_pos (zlen (iPayload i))). zlia.
Qed.

Lemma zlen_encodeInputs ins : zlen ins ≤ zlen (concat (map encodeInput ins)).
Proof.
  induction ins as [|i ins IH]; [done|]. cbn [map concat].
  pose proof (zlen_encodeInput i). zlia.
Qed.

Lemma decodeInputs_app ins rest :
  Forall input_wf ins →
  decodeInputs (length ins) (concat (map encodeInput ins) ++ rest) = Ok (ins, rest).
Proof.
  induction 1 as [|i ins [Hp Hl] Hins IH]; [done|].
  cbn [length map concat decodeInputs]. unfold encodeInput at 1. rewrite <- !app_assoc.
  pose proof (u32_range (iPlayer i)). unfold MaxInputPayloadBytes in *.
  run_ok ltac:(apply readUvarint_app; unfold_int; lia).
  run_guard ltac:(unfold_int; lia).
  run_ok ltac:(apply readUvarint_app; zlia).
  run_guard ltac:(unfold MaxInputPayloadBytes; zlia).
  rewrite zdrop_app_zlen. run_ok ltac:(exact IH).
  rewrite ztake_app_zlen, u32_small, i32_u32, i32_small by done. by destruct i.
Qed.

Lemma decodeFrames_app fs : ∀ last rest,
  Forall frame_wf fs → increasing_from last fs →
  decodeFrames (length fs) last (concat (map encodeFrame fs) ++ rest) = Ok (fs, rest).
Proof.
  induction fs as [|f fs IH]; intros last rest Hwf Hinc; [done|].
  apply Forall_cons in Hwf as [(Hid & Hn & Hi) Hwf]. destruct Hinc as [Hlast Hinc].
  cbn [length map concat decodeFrames]. unfold encodeFrame at 1. rewrite <- !app_assoc.
  unfold MaxFrameInputs in Hn. pose proof (zlen_encodeInputs (fInputs f)).
  run_ok ltac:(apply readUvarint_app; unfold_int; lia).
  run_guard ltac:(lia).
  run_guard ltac:(lia).
  run_ok ltac:(apply readUvarint_app; zlia).
  run_guard ltac:(unfold MaxFrameInputs; zlia).
  rewrite to_nat_zlen. run_ok ltac:(by apply decodeInputs_app).
  run_ok ltac:(by apply IH). by destruct f.
Qed.

(** ** Properties of the broadcast codec *)

Lemma decode_broadcast_encode fs extra :
  packet_wf fs →
  DecodeBroadcast (EncodeBroadcast fs ++ extra) =
    if zlen extra =? 0 then Ok fs else Err ErrFrameCorrupt.
Proof.
  intros (Hn & Hwf & Hinc). unfold DecodeBroadcast, EncodeBroadcast. rewrite <- !app_assoc.
  unfold MaxBroadcastFrames in Hn. pose proof (zlen_uvarint_pos (zlen fs)).
  run_guard ltac:(split; [split; [zlia|done]|done]).
  cbn [zdrop Z.to_nat Pos.to_nat app].
  run_ok ltac:(apply readUvarint_app; zlia).
  run_guard ltac:(unfold MaxBroadcastFrames; lia).
  rewrite to_nat_zlen. run_ok ltac:(by apply decodeFrames_app).
  destruct (zlen extra =? 0); [done|]. by apply bind_err_eq.
Qed.

(** Round trip of the broadcast packet: every list of frames within the
    format's bounds, with increasing ids, decodes from its own encoding. *)
Theorem broadcast_roundtrip fs :
  packet_wf fs → DecodeBroadcast (EncodeBroadcast fs) = Ok fs.
Proof.
  intros Hwf. rewrite <- (app_nil_r (EncodeBroadcast fs)).
  by rewrite decode_broadcast_encode.
Qed.

Definition sample_frames : list Frame :=
  [mkFrame 7 [mkInput 0 [1; 2; 3]; mkInput 300 []]; mkFrame 9 []].

Lemma sample_frames_wf : packet_wf sample_frames.
Proof. by_compute. Qed.

Example broadcast_roundtrip_witness :
  DecodeBroadcast (EncodeBroadcast sample_frames) = Ok sample_frames.
Proof. apply (broadcast_roundtrip sample_frames). exact sample_frames_wf. Defined.

Lemma decodeInputs_sound n : ∀ rest ins rest',
  decodeInputs n rest = Ok (ins, rest') → length ins = n ∧ Forall input_wf ins.
Proof.
  induction n as [|n IH]; intros rest ins rest' H; cbn [decodeInputs] in H; [by inv_ok|].
  inv_ok. apply IH in E3 as [Hlen Hwf]. apply readUvarint_ok in E1 as (Hv & _ & _).
  to_prop. split; [cbn; congruence|]. constructor; [|done].
  split; cbn; [apply i32_range|]. unfold_int. rewrite zlen_ztake; lia.
Qed.

Lemma decodeFrames_sound n : ∀ last rest fs rest',
  0 ≤ last → decodeFrames n last rest = Ok (fs, rest') →
  length fs = n ∧ Forall frame_wf fs ∧ increasing_from last fs.
Proof.
  induction n as [|n IH]; intros last rest fs rest' Hlast H; cbn [decodeFrames] in H.
  { by inv_ok. }
  inv_ok. to_prop. apply readUvarint_ok in E as (Hid & _ & _).
  apply readUvarint_ok in E2 as (Hc & _ & _).
  apply decodeInputs_sound in E4 as [Hl Hi].
  apply IH in E5 as (Hlen & Hwf & Hinc); [|lia].
  split; [cbn; congruence|]. split; [constructor; [|done]|cbn; split; [lia|done]].
  split; cbn; [lia|]. split; [unfold zlen; rewrite Hl; unfold_int; lia|done].
Qed.

(** C39. A decoded packet never exceeds the format's bounds and carries
    strictly increasing, non-zero frame ids: a corrupt packet cannot become an
    oversized or reordered frame list. *)
Theorem decode_broadcast_sound packet fs :
  DecodeBroadcast packet = Ok fs → packet_wf fs.
Proof.
  unfold DecodeBroadcast. intros H. inv_ok. to_prop.
  apply readUvarint_ok in E0 as (Hc & _ & _).
  apply decodeFrames_sound in E2 as (Hlen & Hwf & Hinc); [|lia].
  split; [|done]. unfold zlen. rewrite Hlen. unfold_int. lia.
Qed.

Example decode_broadcast_sound_witness :
  packet_wf [mkFrame 5 [mkInput 2 [9]]].
Proof.
  apply (decode_broadcast_sound [0xC7; 1; 1; 5; 1; 2; 1; 9]). vm_compute. reflexivity.
Defined.

Lemma decodeInputs_err n : ∀ rest e, decodeInputs n rest = Err e → e = ErrFrameCorrupt.
Proof.
  induction n as [|n IH]; intros rest e H; cbn [decodeInputs] in H; [done|].
  repeat (apply bind_err_inv in H as [H|([] & _ & H)];
    [first [by apply readUvarint_err in H | by apply guard_err_err in H | by apply IH in H]|];
    cbn beta iota in H); done.
Qed.

(** ** The redundancy encoder *)

(** [ordered] is scratch space of [Push] and not part of the state. *)
Record RedundantEncoder : Type := mkEncoder { ring : list Frame; count : nat; next : nat }.

Definition NormalizeRedundancyDepth (depth : Z) : Z :=
  if depth <=? 0 then 3
  else if MaxBroadcastFrames <? depth then MaxBroadcastFrames
  else depth.

Definition NewRedundantEncoder (depth : Z) : RedundantEncoder :=
  let depth := NormalizeRedundancyDepth depth in
  mkEncoder (replicate (Z.to_nat depth) (mkFrame 0 [])) 0 0.

Definition Push (e : RedundantEncoder) (frame : Frame) : RedundantEncoder * bytes :=
  let ring' := <[next e := frame]> (ring e) in
  let n := length (ring e) in
  let next' := ((next e + 1) mod n)%nat in
  let count' := if Nat.ltb (count e) n then (count e + 1)%nat else count e in
  let start := ((next' + n - count') mod n)%nat in
  let ordered := map (λ i, ring' !!! ((start + i) mod n)%nat) (seq 0 count') in
  (mkEncoder ring' count' next', EncodeBroadcast ordered).

(** Push a whole list of frames; the packets in order. *)
Fixpoint PushAll (e : RedundantEncoder) (frames : list Frame) : RedundantEncoder * list bytes :=
  match frames with
  | [] => (e, [])
  | f :: frames' =>
      let '(e1, p) := Push e f in
      let '(e2, ps) := PushAll e1 frames' in (e2, p :: ps)
  end.

(** Abstraction: the ring holds the last [min (length pushed) depth] frames,
    frame number [k] (from 0) in cell [k mod depth]. *)
Definition encoder_holds (e : RedundantEncoder) (pushed : list Frame) : Prop :=
  let n := length (ring e) in
  (0 < n)%nat ∧ count e = Nat.min (length pushed) n ∧ next e = (length pushed mod n)%nat ∧
  ∀ k f, pushed !! k = Some f → (length pushed ≤ k + n)%nat →
    ring e !! (k mod n)%nat = Some f.

Definition lastn {A} (n : nat) (l : list A) : list A := drop (length l - n) l.

Lemma new_encoder_depth depth :
  length (ring (NewRedundantEncoder depth)) = Z.to_nat (NormalizeRedundancyDepth depth).
Proof. apply length_replicate. Qed.

Lemma normalize_depth_range depth : 1 ≤ NormalizeRedundancyDepth depth ≤ MaxBroadcastFrames.
Proof.
  unfold NormalizeRedundancyDepth, MaxBroadcastFrames.
  destruct (depth <=? 0) eqn:E1; [lia|]. destruct (64 <? depth) eqn:E2; to_prop; lia.
Qed.

Lemma new_encoder_holds depth : encoder_holds (NewRedundantEncoder depth) [].
Proof.
  pose proof (normalize_depth_range depth). unfold encoder_holds.
  rewrite new_encoder_depth. cbn [NewRedundantEncoder count next length].
  split; [lia|]. split; [lia|]. split; [|done]. by rewrite Nat.Div0.mod_0_l.
Qed.

(** Two frame numbers within one ring length of each other share a cell only
    when they are equal. *)
Lemma mod_cell_inj n j k : (j ≤ k < j + n → j mod n = k mod n → j = k)%nat.
Proof.
  intros Hjk Hmod. pose proof (Nat.div_mod_eq j n). pose proof (Nat.div_mod_eq k n).
  assert (n * (k / n) = n * (j / n) + (k - j))%nat by lia.
  assert (k / n = j / n)%nat as Hd; [|rewrite Hd in *; lia].
  assert (j / n ≤ k / n)%nat by (apply Nat.Div0.div_le_mono; lia).
  nia.
Qed.

Lemma push_state_holds e pushed f :
  encoder_holds e pushed → encoder_holds (fst (Push e f)) (pushed ++ [f]).
Proof.
  intros (Hn & Hc & Hnx & Hcell). unfold encoder_holds, Push. cbn [fst ring count next].
  rewrite length_insert, length_app. cbn [length].
  split; [done|]. split.
  { destruct (Nat.ltb_spec (count e) (length (ring e))); lia. }
  split; [rewrite Hnx, Nat.Div0.add_mod_idemp_l; done|].
  intros k f' Hk Hrange. rewrite Hnx.
  assert (k < length pushed + 1)%nat.
  { apply lookup_lt_Some in Hk. rewrite length_app in Hk. cbn in Hk. lia. }
  destruct (decide (k = length pushed)) as [->|Hne].
  - rewrite list_lookup_insert_eq by (apply Nat.mod_upper_bound; lia).
    rewrite lookup_app_r, Nat.sub_diag in Hk by lia. done.
  - rewrite list_lookup_insert_ne.
    2:{ intros Heq. symmetry in Heq. apply mod_cell_inj in Heq; lia. }
    rewrite lookup_app_l in Hk by lia. apply Hcell; [done|lia].
Qed.

Lemma lookup_lastn {A} n (l : list A) i : lastn n l !! i = l !! (length l - n + i)%nat.
Proof. apply lookup_drop. Qed.

Lemma length_lastn {A} n (l : list A) : length (lastn n l) = Nat.min (length l) n.
Proof. unfold lastn. rewrite length_drop. lia. Qed.

(** The view the encoder rebuilds on every push is the last [n] frames. *)
Lemma push_view e pushed :
  encoder_holds e pushed →
  let n := length (ring e) in
  map (λ i, ring e !!! ((((next e + n - count e) mod n) + i) mod n)%nat) (seq 0 (count e))
    = lastn n pushed.
Proof.
  intros (Hn & Hc & Hnx & Hcell) n. subst n. apply list_eq_same_length with (length (lastn (length (ring e)) pushed)).
  { done. }
  { rewrite length_map, length_seq, length_lastn. done. }
  intros i x y Hi Hx Hy. rewrite length_lastn in Hi.
  rewrite lookup_lastn in Hy. rewrite list_lookup_fmap in Hx.
  rewrite lookup_seq_lt in Hx by lia. cbn in Hx. injection Hx as <-.
  apply list_lookup_total_correct. rewrite <- (Hcell _ _ Hy) by lia. f_equal.
  rewrite Nat.Div0.add_mod_idemp_l, Hnx, Hc.
  set (n := length (ring e)) in *. set (m := length pushed) in *.
  pose proof (Nat.div_mod_eq m n). pose proof (Nat.mod_upper_bound m n ltac:(lia)).
  destruct (decide (m < n)%nat).
  - rewrite Nat.min_l by lia. rewrite (Nat.mod_small m n) by lia.
    replace (m + n - m + i)%nat with (i + 1 * n)%nat by lia.
    rewrite Nat.Div0.mod_add. f_equal. lia.
  - rewrite Nat.min_r by lia.
    replace (m mod n + n - n + i)%nat with (m mod n + i)%nat by lia.
    rewrite Nat.Div0.add_mod_idemp_l.
    replace (m + i)%nat with ((m - n + i) + 1 * n)%nat by lia.
    apply Nat.Div0.mod_add.
Qed.

Lemma push_packet e pushed f :
  encoder_holds e pushed →
  snd (Push e f) = EncodeBroadcast (lastn (length (ring e)) (pushed ++ [f])).
Proof.
  intros He. pose proof (push_view _ _ (push_state_holds _ _ f He)) as Hv.
  unfold Push in *. cbn [fst snd ring count next] in *. rewrite length_insert in Hv.
  by rewrite Hv.
Qed.

Lemma push_depth e f : length (ring (fst (Push e f))) = length (ring e).
Proof. unfold Push. cbn. apply length_insert. Qed.

Lemma PushAll_spec fs : ∀ e pushed,
  encoder_holds e pushed →
  encoder_holds (fst (PushAll e fs)) (pushed ++ fs) ∧
  snd (PushAll e fs) =
    imap (λ i _, EncodeBroadcast (lastn (length (ring e)) (pushed ++ take (S i) fs))) fs.
Proof.
  induction fs as [|f fs IH]; intros e pushed He.
  { cbn. by rewrite app_nil_r. }
  cbn [PushAll]. pose proof (push_packet _ _ f He) as Hp.
  pose proof (push_depth e f) as Hd.
  apply push_state_holds with (f := f) in He.
  destruct (Push e f) as [e1 p]. cbn [fst snd] in *.
  destruct (IH _ _ He) as [He2 Hps]. destruct (PushAll e1 fs) as [e2 ps]. cbn [fst snd] in *.
  rewrite <- app_assoc in He2. split; [done|].
  rewrite imap_cons. f_equal; [done|]. rewrite Hps, Hd.
  apply imap_ext. intros i x _. cbn. by rewrite <- app_assoc.
Qed.

(** The redundancy ring refines "the last [depth] frames": whatever frames
    were pushed before, the packet of push number [i] is the broadcast encoding
    of the last [depth] frames pushed so far, oldest first, with [depth] the
    normalised configuration. *)
Theorem redundant_encoder_refines depth fs i p :
  snd (PushAll (NewRedundantEncoder depth) fs) !! i = Some p →
  p = EncodeBroadcast (lastn (Z.to_nat (NormalizeRedundancyDepth depth)) (take (S i) fs)).
Proof.
  destruct (PushAll_spec fs _ _ (new_encoder_holds depth)) as [_ ->].
  rewrite list_lookup_imap, new_encoder_depth.
  intros (x & _ & ->)%fmap_Some_1. rewrite app_nil_l. reflexivity.
Qed.

Example redundant_encoder_refines_witness :
  EncodeBroadcast [mkFrame 2 []; mkFrame 3 []] =
  EncodeBroadcast (lastn 2 [mkFrame 1 []; mkFrame 2 []; mkFrame 3 []]).
Proof.
  apply (redundant_encoder_refines 2 [mkFrame 1 []; mkFrame 2 []; mkFrame 3 []; mkFrame 4 []] 2).
  vm_compute. reflexivity.
Defined.

(** ** The recovery-failure notice *)

Definition RecoveryHistoryTrimmed : Z := 1.
Definition RecoverySnapshotUnavailable : Z := 2.
Definition RecoverySnapshotTooLarge : Z := 3.
Definition RecoveryExpired : Z := 4.

(** [CatchupUnservableError.reason]: the zero reason reads as history_trimmed. *)
Definition unservable_reason (Reason : Z) : Z :=
  if Reason =? 0 then RecoveryHistoryTrimmed else Reason.

Definition EncodeRecoveryFailure (reason from start : Z) : bytes :=
  AppendUvarint (AppendUvarint (AppendUvarint [noticeMagic; noticeVersion] reason) from) start.

Definition EncodeCatchupUnservable (from start : Z) : bytes :=
  EncodeRecoveryFailure RecoveryHistoryTrimmed from start.

Definition IsCatchupNotice (packet : bytes) : bool :=
  (0 <? zlen packet) && (packet !!! 0%nat =? noticeMagic).

(** [DecodeCatchupUnservable]; the decoded notice is (reason, from, start). *)
Definition DecodeCatchupUnservable (packet : bytes) : result LockErr (Z * Z * Z) :=
  _ ← guard_err ((zlen packet <? 5) || negb (packet !!! 0%nat =? noticeMagic)
                 || negb (packet !!! 1%nat =? noticeVersion)) ErrFrameCorrupt;
  '(reason, rest) ← readUvarint (zdrop 2 packet);
  '(from, rest) ← readUvarint rest;
  '(start, rest) ← readUvarint rest;
  _ ← guard_err (negb (zlen rest =? 0) || (reason <? RecoveryHistoryTrimmed)
                 || (RecoveryExpired <? reason) || (from =? 0) || (MaxUint32 <? from)
                 || (MaxUint32 <? start)
                 || ((reason =? RecoveryHistoryTrimmed) && (start <=? from))) ErrFrameCorrupt;
  Ok (reason, from, start).

(** A notice the server can mean. *)
Definition notice_wf (n : Z * Z * Z) : Prop :=
  let '(reason, from, start) := n in
  RecoveryHistoryTrimmed ≤ reason ≤ RecoveryExpired ∧ 0 < from ≤ MaxUint32 ∧
  0 ≤ start ≤ MaxUint32 ∧ (reason = RecoveryHistoryTrimmed → from < start).

(** The failure notice round-trips exactly on the notices the server can
    mean, and nothing else is ever decoded: a known reason, a non-zero 32-bit
    first missing frame, and [from < start] for a trimmed history. *)
Theorem notice_roundtrip reason from start :
  is_u64 reason → is_u64 from → is_u64 start →
  (DecodeCatchupUnservable (EncodeRecoveryFailure reason from start) = Ok (reason, from, start)
     ↔ notice_wf (reason, from, start)) ∧
  ∀ packet n, DecodeCatchupUnservable packet = Ok n → notice_wf n.
Proof.
  intros Hr Hf Hs.
  assert (∀ packet n, DecodeCatchupUnservable packet = Ok n → notice_wf n) as Hsound.
  { intros packet n H. unfold DecodeCatchupUnservable in H. inv_ok. to_prop.
    apply readUvarint_ok in E1 as (? & _), E2 as (? & _).
    unfold notice_wf. unfold_int. unfold RecoveryHistoryTrimmed, RecoveryExpired in *. lia. }
  split; [|done]. split; [apply Hsound|]. intros Hwf.
  unfold EncodeRecoveryFailure, DecodeCatchupUnservable, AppendUvarint, notice_wf,
    RecoveryHistoryTrimmed, RecoveryExpired in *.
  pose proof (zlen_uvarint_pos reason). pose proof (zlen_uvarint_pos from).
  pose proof (zlen_uvarint_pos start). rewrite <- !app_assoc.
  run_guard ltac:(split; [split; [zlia|done]|done]).
  cbn [zdrop Z.to_nat Pos.to_nat app].
  run_ok ltac:(by apply readUvarint_app).
  run_ok ltac:(by apply readUvarint_app).
  eapply bind_ok_eq.
  { rewrite <- (app_nil_r (uvarint start)). by apply readUvarint_app. }
  cbn beta iota. eapply bind_ok_eq; [|done]. apply guard_err_pass. to_prop.
  change (zlen (@nil Z)) with 0. unfold_int. lia.
Qed.

Example notice_roundtrip_witness :
  DecodeCatchupUnservable (EncodeRecoveryFailure 1 5 9) = Ok (1, 5, 9).
Proof. apply (notice_roundtrip 1 5 9); by_compute. Defined.

#[global] Arguments EncodeBroadcast : simpl never.
#[global] Arguments DecodeBroadcast : simpl never.
#[global] Arguments Push : simpl never.
