(* ===== verification/LockCommand.v ===== *)
(** * Lockstep client commands (command.go)

    The C8 command codec: validation, encoding and strict decoding.  Both
    return Go's [(value, error)]; [DecodeCommand] also returns the partially
    filled command next to an error, which is kept. *)

From S2P Require Import Prelude Bytes LockTypes.

Definition OpInput : Z := 1.
Definition OpHash : Z := 2.
Definition OpCatchup : Z := 3.

Record Command : Type := mkCommand {
  cOperation : Z; cFrame : FrameID; cPayload : bytes; cHash : Z }.

#[export] Instance Command_eq_dec : EqDecision Command.
Proof. solve_decision. Defined.

(** [Command.Validate]: [None] is Go's nil error. *)
Definition Validate (c : Command) : option LockErr :=
  if cFrame c =? 0 then Some ErrFrameCorrupt
  else if cOperation c =? OpInput then
    if MaxInputPayloadBytes <? zlen (cPayload c) then Some ErrPayloadTooBig
    else if negb (cHash c =? 0) then Some ErrFrameCorrupt else None
  else if cOperation c =? OpHash then
    if negb (zlen (cPayload c) =? 0) then Some ErrFrameCorrupt else None
  else if cOperation c =? OpCatchup then
    if negb (zlen (cPayload c) =? 0) || negb (cHash c =? 0) then Some ErrFrameCorrupt else None
  else Some ErrFrameCorrupt.

Definition EncodeCommand (c : Command) : result LockErr bytes :=
  match Validate c with
  | Some e => Err e
  | None =>
      let out := AppendUvarint [0xC8; 1; cOperation c] (cFrame c) in
      Ok (if cOperation c =? OpInput then AppendUvarint out (zlen (cPayload c)) ++ cPayload c
          else if cOperation c =? OpHash then AppendUvarint out (cHash c)
          else out)
  end.

(** The part of [DecodeCommand] after the frame: the switch and the trailing
    bytes check. *)
Definition decodeCommandBody (c : Command) (rest : bytes) : Command * option LockErr :=
  let finish (c : Command) (rest : bytes) :=
    if negb (zlen rest =? 0) then (c, Some ErrFrameCorrupt) else (c, Validate c) in
  if cOperation c =? OpInput then
    match readUvarint rest with
    | Err e => (c, Some e)
    | Ok (size, rest) =>
        if (MaxInputPayloadBytes <? size) || (zlen rest <? size) then (c, Some ErrFrameCorrupt)
        else finish (mkCommand (cOperation c) (cFrame c) (ztake size rest) (cHash c)) (zdrop size rest)
    end
  else if cOperation c =? OpHash then
    match readUvarint rest with
    | Err e => (c, Some e)
    | Ok (hash, rest) => finish (mkCommand (cOperation c) (cFrame c) (cPayload c) hash) rest
    end
  else if cOperation c =? OpCatchup then finish c rest
  else (c, Some ErrFrameCorrupt).

Definition DecodeCommand (data : bytes) : Command * option LockErr :=
  let c := mkCommand 0 0 [] 0 in
  if (zlen data <? 4) || negb (data !!! 0%nat =? 0xC8) || negb (data !!! 1%nat =? 1)
  then (c, Some ErrFrameCorrupt)
  else
    let c := mkCommand (data !!! 2%nat) 0 [] 0 in
    match readUvarint (zdrop 3 data) with
    | Err e => (c, Some e)
    | Ok (frame, rest) =>
        if (frame =? 0) || (MaxUint32 <? frame) then (c, Some ErrFrameCorrupt)
        else decodeCommandBody (mkCommand (cOperation c) frame [] 0) rest
    end.

(** The Go types of the fields. *)
Definition command_typed (c : Command) : Prop :=
  is_u8 (cOperation c) ∧ is_u32 (cFrame c) ∧ is_u64 (cHash c).

#[export] Instance command_typed_dec c : Decision (command_typed c).
Proof. unfold command_typed. apply _. Defined.

(** What the three kinds of command may carry. *)
Definition command_wf (c : Command) : Prop :=
  0 < cFrame c ∧
  ((cOperation c = OpInput ∧ zlen (cPayload c) ≤ MaxInputPayloadBytes ∧ cHash c = 0) ∨
   (cOperation c = OpHash ∧ cPayload c = []) ∨
   (cOperation c = OpCatchup ∧ cPayload c = [] ∧ cHash c = 0)).

Lemma Validate_wf c : command_typed c → Validate c = None ↔ command_wf c.
Proof.
  intros (_ & Hf & _). destruct c as [op fr pl h]. unfold Validate, command_wf in *. cbn in *.
  assert (zlen pl = 0 ↔ pl = []) as Hnil by (split; [apply zlen_zero_nil | by intros ->]).
  rewrite <- Hnil. unfold OpInput, OpHash, OpCatchup, MaxInputPayloadBytes, is_u32 in *.
  repeat case_match; to_prop; split; intros; try done; try lia.
Qed.

(** The end of a decode: nothing left, and the command valid. *)
Lemma readUvarint_exact x : is_u64 x → readUvarint (uvarint x) = Ok (x, []).
Proof. intros H. rewrite <- (app_nil_r (uvarint x)) at 1. by apply readUvarint_app. Qed.

Lemma decodeCommandBody_encode c :
  command_typed c → command_wf c →
  decodeCommandBody (mkCommand (cOperation c) (cFrame c) [] 0)
    (if cOperation c =? OpInput then uvarint (zlen (cPayload c)) ++ cPayload c
     else if cOperation c =? OpHash then uvarint (cHash c) else []) = (c, None).
Proof.
  intros Ht Hwf. assert (Validate c = None) as Hv by by apply Validate_wf.
  destruct Ht as (_ & _ & Hh), Hwf as (_ & Hwf). destruct c as [op fr pl h]. cbn in *.
  unfold decodeCommandBody. cbn [cOperation cFrame cPayload cHash].
  destruct Hwf as [(-> & Hl & ->)|[(-> & ->)|(-> & -> & ->)]].
  - unfold MaxInputPayloadBytes in Hl. rewrite Z.eqb_refl.
    rewrite readUvarint_app by zlia.
    destruct ((MaxInputPayloadBytes <? zlen pl) || (zlen pl <? zlen pl)) eqn:E.
    { unfold MaxInputPayloadBytes in *. to_prop. lia. }
    pose proof (ztake_app_zlen pl []) as Ht. pose proof (zdrop_app_zlen pl []) as Hd.
    rewrite app_nil_r in Ht, Hd. rewrite Ht, Hd. cbn. by rewrite ?Hv.
  - change (OpHash =? OpInput) with false. rewrite Z.eqb_refl.
    rewrite readUvarint_exact by done. cbn beta iota zeta. rewrite Hv. done.
  - change (OpCatchup =? OpInput) with false. change (OpCatchup =? OpHash) with false.
    rewrite Z.eqb_refl. cbn beta iota zeta. by rewrite Hv.
Qed.

Lemma DecodeCommand_header op rest :
  1 ≤ zlen rest →
  DecodeCommand (0xC8 :: 1 :: op :: rest) =
    match readUvarint rest with
    | Err e => (mkCommand op 0 [] 0, Some e)
    | Ok (frame, rest) =>
        if (frame =? 0) || (MaxUint32 <? frame) then (mkCommand op 0 [] 0, Some ErrFrameCorrupt)
        else decodeCommandBody (mkCommand op frame [] 0) rest
    end.
Proof.
  intros H. unfold DecodeCommand.
  assert ((zlen (0xC8 :: 1 :: op :: rest) <? 4) = false) as -> by (apply Z.ltb_ge; zlia).
  reflexivity.
Qed.

(** Round trip of client commands: on commands of the Go types, encoding
    succeeds exactly on well-formed commands, fails with the error of
    [Validate] otherwise, and what it produces decodes to the same command. *)
Theorem command_roundtrip c :
  command_typed c →
  match EncodeCommand c with
  | Ok packet => command_wf c ∧ DecodeCommand packet = (c, None)
  | Err e => ¬ command_wf c ∧ Validate c = Some e
  end.
Proof.
  intros Ht. pose proof (Validate_wf c Ht) as Hv. unfold EncodeCommand.
  destruct (Validate c) as [e|] eqn:E.
  { split; [|done]. intros ?. naive_solver. }
  assert (command_wf c) as Hwf by by apply Hv.
  split; [done|]. pose proof (decodeCommandBody_encode c Ht Hwf) as Hbody.
  destruct Ht as (Hop & Hf & Hh), Hwf as (Hf0 & _).
  set (tail := (if cOperation c =? OpInput then _ else _) : bytes) in Hbody.
  assert ((if cOperation c =? OpInput
           then AppendUvarint (AppendUvarint [0xC8; 1; cOperation c] (cFrame c)) (zlen (cPayload c)) ++ cPayload c
           else if cOperation c =? OpHash
             then AppendUvarint (AppendUvarint [0xC8; 1; cOperation c] (cFrame c)) (cHash c)
             else AppendUvarint [0xC8; 1; cOperation c] (cFrame c))
          = [0xC8; 1; cOperation c] ++ uvarint (cFrame c) ++ tail) as ->.
  { unfold tail, AppendUvarint. repeat case_match; by rewrite <- ?app_assoc, ?app_nil_r. }
  cbn [app]. rewrite DecodeCommand_header.
  2:{ pose proof (zlen_uvarint_pos (cFrame c)). zlia. }
  rewrite readUvarint_app by zlia.
  destruct ((cFrame c =? 0) || (MaxUint32 <? cFrame c)) eqn:E2; [|done].
  to_prop. unfold_int. lia.
Qed.

Definition sample_command : Command := mkCommand OpInput 300 [1; 2; 3] 0.

Example command_roundtrip_witness :
  match EncodeCommand sample_command with
  | Ok packet => command_wf sample_command ∧ DecodeCommand packet = (sample_command, None)
  | Err e => ¬ command_wf sample_command ∧ Validate sample_command = Some e
  end.
Proof. apply (command_roundtrip sample_command). by_compute. Defined.
