(* ===== verification/LockSequencer.v ===== *)
(** * The input sequencer (sequencer.go)

    The server-side core of lockstep: per-frame pending inputs, late folding,
    and the per-seat replay rings that make retransmissions idempotent.

    The concrete state is the code's: a seat set, [next], the pending maps and
    the rings of [replayWindowSize] slots indexed modulo their size.  The
    specification is an unbounded log of accepted submissions.  The refinement
    theorem says the bounded rings and maps answer exactly like the log; the
    theorems on retransmission, precedence and cut frames follow. *)

From S2P Require Import Prelude Bytes LockTypes.

Record replaySlot : Type := mkSlot { sOriginal : FrameID; sTarget : FrameID }.
Record pendingInput : Type := mkPending { pPayload : bytes; pFolded : bool }.

Record SequencerConfig : Type := mkSeqConfig {
  scPlayers : list PlayerID; scSubmitWindow : Z; scMaxInputBytes : Z }.

Record Sequencer : Type := mkSequencer {
  sqPlayers : gset Z;
  sqWindow : Z;
  sqMaxInput : Z;
  sqNext : FrameID;
  sqPending : gmap Z (gmap Z pendingInput);
  sqAccepted : gmap Z (list replaySlot) }.

(** ** Operations *)

(** The loop of [NewSequencer] over the configured seats. *)
Fixpoint seatLoop (seats : list PlayerID) (players : gset Z) : result LockErr (gset Z) :=
  match seats with
  | [] => Ok players
  | player :: seats' =>
      if player <? 0 then Err ErrConfigInvalid
      else if bool_decide (player ∈ players) then Err ErrConfigInvalid
      else seatLoop seats' ({[player]} ∪ players)
  end.

Definition NewSequencer (config : SequencerConfig) : result LockErr Sequencer :=
  _ ← guard_err (zlen (scPlayers config) =? 0) ErrConfigInvalid;
  let window := if scSubmitWindow config =? 0 then 2 else scSubmitWindow config in
  _ ← guard_err (MaxSubmitWindow <? window) ErrConfigInvalid;
  let maxInput := if scMaxInputBytes config =? 0 then MaxInputPayloadBytes else scMaxInputBytes config in
  _ ← guard_err ((maxInput <? 0) || (MaxInputPayloadBytes <? maxInput)) ErrConfigInvalid;
  _ ← guard_err (MaxFrameInputs <? zlen (scPlayers config)) ErrConfigInvalid;
  players ← seatLoop (scPlayers config) ∅;
  Ok (mkSequencer players window maxInput 1 ∅ ∅).

Definition MaxInputBytes (s : Sequencer) : Z := sqMaxInput s.
Definition NextFrame (s : Sequencer) : FrameID := sqNext s.
Definition KnownPlayer (s : Sequencer) (player : PlayerID) : bool :=
  bool_decide (player ∈ sqPlayers s).

Definition replayFloor (s : Sequencer) : FrameID :=
  if sqNext s <=? ReplayHorizon then 0 else sqNext s - ReplayHorizon.

Definition replaySlotIndex (original : FrameID) : nat :=
  Z.to_nat (original mod replayWindowSize).

Definition emptySlot : replaySlot := mkSlot 0 0.

#[export] Instance replaySlot_inhabited : Inhabited replaySlot := populate emptySlot.

(** The seat's ring, allocated on first use. *)
Definition ringOf (s : Sequencer) (player : PlayerID) : list replaySlot :=
  default (replicate (Z.to_nat replayWindowSize) emptySlot) (sqAccepted s !! player).

Definition setAccepted (s : Sequencer) (player : PlayerID) (ring : list replaySlot) : Sequencer :=
  mkSequencer (sqPlayers s) (sqWindow s) (sqMaxInput s) (sqNext s) (sqPending s)
    (<[player := ring]> (sqAccepted s)).

(** [slot]: a pointer into the ring; reading it also allocates the ring. *)
Definition slot (s : Sequencer) (player : PlayerID) (original : FrameID) : Sequencer * replaySlot :=
  (setAccepted s player (ringOf s player), ringOf s player !!! replaySlotIndex original).

Definition remember (s : Sequencer) (player : PlayerID) (original target : FrameID)
    (inHorizon : bool) : Sequencer :=
  if negb inHorizon then s
  else setAccepted s player
         (<[replaySlotIndex original := mkSlot original target]> (ringOf s player)).

Definition setPending (s : Sequencer) (pending : gmap Z (gmap Z pendingInput)) : Sequencer :=
  mkSequencer (sqPlayers s) (sqWindow s) (sqMaxInput s) (sqNext s) pending (sqAccepted s).

(** The part of [SubmitInput] after the replay check: store the input unless
    the frame already holds one that wins. *)
Definition storeInput (s : Sequencer) (player : PlayerID) (original frame : FrameID)
    (payload : bytes) (folded remembered : bool) : Sequencer :=
  let inputs := default ∅ (sqPending s !! frame) in
  let s := setPending s (<[frame := inputs]> (sqPending s)) in
  let keep := match inputs !! player with
              | Some existing => negb (pFolded existing) || folded
              | None => false
              end in
  if keep then remember s player original frame remembered
  else
    let inputs := <[player := mkPending payload folded]> inputs in
    remember (setPending s (<[frame := inputs]> (sqPending s))) player original frame remembered.

Definition SubmitInput (s : Sequencer) (player : PlayerID) (frame : FrameID) (payload : bytes)
    : Sequencer * result LockErr FrameID :=
  if negb (KnownPlayer s player) then (s, Err ErrPlayerUnknown)
  else if sqMaxInput s <? zlen payload then (s, Err ErrPayloadTooBig)
  else
    let original := frame in
    let folded := frame <? sqNext s in
    let frame := if folded then sqNext s else frame in
    if u32 (sqNext s + sqWindow s) <? frame then (s, Err ErrFrameTooEarly)
    else
      let remembered := replayFloor s <=? original in
      let '(s, known) := if remembered then slot s player original else (s, emptySlot) in
      if negb (sTarget known =? 0) && (sOriginal known =? original) && remembered
      then (s, Ok (sTarget known))
      else (storeInput s player original frame payload folded remembered, Ok frame).

(** [Advance]; [None] is the panic on an exhausted frame id space. *)
Definition Advance (s : Sequencer) : option (Sequencer * Frame) :=
  if sqNext s =? MaxUint32 then None
  else
    let inputs := default ∅ (sqPending s !! sqNext s) in
    let cut :=
      if decide (inputs = ∅) then (sqPending s, [])
      else
        let players := merge_sort Z.le (map fst (map_to_list inputs)) in
        (delete (sqNext s) (sqPending s),
         map (λ player, mkInput player (default [] (pPayload <$> inputs !! player))) players) in
    Some (mkSequencer (sqPlayers s) (sqWindow s) (sqMaxInput s) (u32 (sqNext s + 1)) (fst cut)
            (sqAccepted s),
          mkFrame (sqNext s) (snd cut)).

(** ** Specification: an unbounded log of accepted submissions *)

Record Sub : Type := mkSub {
  subPlayer : PlayerID; subOriginal : FrameID; subTarget : FrameID;
  subPayload : bytes; subFolded : bool }.

Record Log : Type := mkLog {
  lgPlayers : gset Z; lgWindow : Z; lgMaxInput : Z; lgNext : FrameID; lgSubs : list Sub }.

(** The submission of a seat that a frame executes: the first one that
    targeted the frame explicitly, else the first one folded into it. *)
Definition winner (subs : list Sub) (t : FrameID) (p : PlayerID) : option Sub :=
  let mine := filter (λ e, subTarget e = t ∧ subPlayer e = p) subs in
  match filter (λ e, subFolded e = false) mine with
  | e :: _ => Some e
  | [] => head mine
  end.

(** The remembered submission of an original frame id. *)
Definition findSub (subs : list Sub) (p : PlayerID) (f : FrameID) : option Sub :=
  head (filter (λ e, subPlayer e = p ∧ subOriginal e = f) subs).

Definition specFloor (next : FrameID) : FrameID := Z.max 0 (next - ReplayHorizon).

Definition specSubmit (a : Log) (player : PlayerID) (frame : FrameID) (payload : bytes)
    : Log * result LockErr FrameID :=
  if decide (player ∉ lgPlayers a) then (a, Err ErrPlayerUnknown)
  else if decide (lgMaxInput a < zlen payload) then (a, Err ErrPayloadTooBig)
  else
    let target := Z.max frame (lgNext a) in
    if decide (lgNext a + lgWindow a < target) then (a, Err ErrFrameTooEarly)
    else
      let first := if decide (specFloor (lgNext a) ≤ frame) then findSub (lgSubs a) player frame
                   else None in
      match first with
      | Some e => (a, Ok (subTarget e))
      | None =>
          (mkLog (lgPlayers a) (lgWindow a) (lgMaxInput a) (lgNext a)
             (lgSubs a ++ [mkSub player frame target payload (frame <? lgNext a)]),
           Ok target)
      end.

Definition specFrame (a : Log) : Frame :=
  mkFrame (lgNext a)
    (omap (λ p, (λ e, mkInput p (subPayload e)) <$> winner (lgSubs a) (lgNext a) p)
       (merge_sort Z.le (elements (lgPlayers a)))).

Definition specAdvance (a : Log) : Log * Frame :=
  (mkLog (lgPlayers a) (lgWindow a) (lgMaxInput a) (lgNext a + 1) (lgSubs a), specFrame a).

(** ** Runs of both machines *)

Inductive SeqOp : Type :=
| OSubmit (player : PlayerID) (frame : FrameID) (payload : bytes)
| OAdvance.

Inductive SeqOut : Type :=
| RSubmit (r : result LockErr FrameID)
| RFrame (f : Frame)
| RPanic.

Definition step (s : Sequencer) (op : SeqOp) : Sequencer * SeqOut :=
  match op with
  | OSubmit p f pl => let '(s', r) := SubmitInput s p f pl in (s', RSubmit r)
  | OAdvance => match Advance s with
                | Some (s', f) => (s', RFrame f)
                | None => (s, RPanic)
                end
  end.

Definition specStep (a : Log) (op : SeqOp) : Log * SeqOut :=
  match op with
  | OSubmit p f pl => let '(a', r) := specSubmit a p f pl in (a', RSubmit r)
  | OAdvance => let '(a', f) := specAdvance a in (a', RFrame f)
  end.

Fixpoint run (s : Sequencer) (ops : list SeqOp) : Sequencer * list SeqOut :=
  match ops with
  | [] => (s, [])
  | op :: ops' => let '(s1, o) := step s op in let '(s2, os) := run s1 ops' in (s2, o :: os)
  end.

Fixpoint specRun (a : Log) (ops : list SeqOp) : Log * list SeqOut :=
  match ops with
  | [] => (a, [])
  | op :: ops' => let '(a1, o) := specStep a op in let '(a2, os) := specRun a1 ops' in (a2, o :: os)
  end.

(** Frame ids of submissions are uint32. *)
Definition op_typed (op : SeqOp) : Prop :=
  match op with OSubmit _ f _ => is_u32 f | OAdvance => True end.

#[export] Instance op_typed_dec op : Decision (op_typed op).
Proof. destruct op; cbn; apply _. Defined.

(** The first log of a configuration. *)
Definition specInit (s : Sequencer) : Log :=
  mkLog (sqPlayers s) (sqWindow s) (sqMaxInput s) (sqNext s) [].

(** ** The simulation *)

Definition ringFind (s : Sequencer) (p : PlayerID) (f : FrameID) : option FrameID :=
  let sl := ringOf s p !!! replaySlotIndex f in
  if negb (sTarget sl =? 0) && (sOriginal sl =? f) then Some (sTarget sl) else None.

Definition pendingAt (s : Sequencer) (t : FrameID) (p : PlayerID) : option pendingInput :=
  sqPending s !! t ≫= (.!! p).

Definition toPending (e : Sub) : pendingInput := mkPending (subPayload e) (subFolded e).

Definition sub_ok (a : Log) (e : Sub) : Prop :=
  subPlayer e ∈ lgPlayers a ∧ 0 ≤ subOriginal e ≤ lgNext a + lgWindow a ∧
  1 ≤ subTarget e ∧ zlen (subPayload e) ≤ lgMaxInput a.

Record sim (s : Sequencer) (a : Log) : Prop := mkSim {
  sim_players : lgPlayers a = sqPlayers s;
  sim_window : lgWindow a = sqWindow s;
  sim_maxInput : lgMaxInput a = sqMaxInput s;
  sim_next : lgNext a = sqNext s;
  sim_next_pos : 1 ≤ sqNext s;
  sim_window_range : 1 ≤ sqWindow s ≤ MaxSubmitWindow;
  sim_pending : ∀ t p, sqNext s ≤ t → pendingAt s t p = toPending <$> winner (lgSubs a) t p;
  sim_keys : ∀ t m, sqPending s !! t = Some m → sqNext s ≤ t ≤ sqNext s + sqWindow s ∧ m ≠ ∅;
  sim_rings : ∀ p ring, sqAccepted s !! p = Some ring →
    p ∈ sqPlayers s ∧ length ring = Z.to_nat replayWindowSize;
  sim_find : ∀ p f, 0 ≤ f → replayFloor s ≤ f → ringFind s p f = subTarget <$> findSub (lgSubs a) p f;
  sim_log : Forall (sub_ok a) (lgSubs a) }.

Lemma replayFloor_spec s a : sim s a → replayFloor s = specFloor (lgNext a).
Proof.
  intros H. unfold replayFloor, specFloor. rewrite (sim_next _ _ H).
  pose proof (sim_next_pos _ _ H). unfold ReplayHorizon, MaxSubmitWindow.
  destruct (sqNext s <=? 64) eqn:E; to_prop; lia.
Qed.

Lemma ringOf_length s p a : sim s a → length (ringOf s p) = Z.to_nat replayWindowSize.
Proof.
  intros H. unfold ringOf. destruct (sqAccepted s !! p) eqn:E; cbn [default].
  - by apply (sim_rings _ _ H) in E as [_ ?].
  - apply length_replicate.
Qed.

Lemma replaySlotIndex_lt f : (replaySlotIndex f < Z.to_nat replayWindowSize)%nat.
Proof.
  unfold replaySlotIndex. change replayWindowSize with 129.
  pose proof (Z.mod_pos_bound f 129 ltac:(lia)). lia.
Qed.

(** Two originals that can both be legal never share a slot. *)
Lemma replaySlotIndex_inj f g :
  replaySlotIndex f = replaySlotIndex g → Z.abs (f - g) < replayWindowSize → f = g.
Proof.
  unfold replaySlotIndex. change replayWindowSize with 129.
  pose proof (Z.mod_pos_bound f 129 ltac:(lia)). pose proof (Z.mod_pos_bound g 129 ltac:(lia)).
  intros Heq Habs.
  pose proof (Z.div_mod f 129 ltac:(lia)). pose proof (Z.div_mod g 129 ltac:(lia)). lia.
Qed.

Lemma ringOf_setAccepted s p ring q :
  ringOf (setAccepted s p ring) q = if decide (q = p) then ring else ringOf s q.
Proof.
  unfold ringOf, setAccepted. cbn. destruct (decide (q = p)) as [->|].
  - by rewrite lookup_insert_eq.
  - by rewrite lookup_insert_ne.
Qed.

Lemma ringFind_remember s a p f t q g :
  sim s a → t ≠ 0 →
  ringFind (remember s p f t true) q g =
    if decide (q = p ∧ replaySlotIndex g = replaySlotIndex f)
    then (if decide (g = f) then Some t else None) else ringFind s q g.
Proof.
  intros H Ht. unfold ringFind, remember. cbn [negb]. rewrite ringOf_setAccepted.
  destruct (decide (q = p)) as [->|].
  2:{ rewrite decide_False by naive_solver. done. }
  destruct (decide (replaySlotIndex g = replaySlotIndex f)) as [Hi|Hi].
  - rewrite decide_True by done. rewrite Hi, list_lookup_total_insert_eq.
    2:{ rewrite (ringOf_length _ _ _ H). apply replaySlotIndex_lt. }
    cbn. rewrite (proj2 (Z.eqb_neq t 0)) by done. cbn.
    destruct (Z.eqb_spec f g), (decide (g = f)); congruence.
  - rewrite decide_False by naive_solver. rewrite list_lookup_total_insert_ne by done. done.
Qed.

(** Only the rings matter for identities, only the maps for the frames. *)
Lemma ringFind_accepted s s' p f :
  sqAccepted s' = sqAccepted s → ringFind s' p f = ringFind s p f.
Proof. intros H. unfold ringFind, ringOf. by rewrite H. Qed.

Lemma ringOf_alloc s p q : ringOf (setAccepted s p (ringOf s p)) q = ringOf s q.
Proof. rewrite ringOf_setAccepted. by destruct (decide (q = p)) as [->|]. Qed.

(** ** The log side *)

Lemma findSub_app subs e p f :
  findSub (subs ++ [e]) p f =
    match findSub subs p f with
    | Some x => Some x
    | None => if decide (subPlayer e = p ∧ subOriginal e = f) then Some e else None
    end.
Proof.
  unfold findSub. rewrite filter_app, head_app, filter_cons, filter_nil.
  destruct (head (filter _ subs)); [done|]. by case_decide.
Qed.

Lemma winner_app subs e t p :
  winner (subs ++ [e]) t p =
    if decide (subTarget e = t ∧ subPlayer e = p) then
      match winner subs t p with
      | Some x => if subFolded x && negb (subFolded e) then Some e else Some x
      | None => Some e
      end
    else winner subs t p.
Proof.
  unfold winner. rewrite filter_app, filter_cons, filter_nil.
  destruct (decide (subTarget e = t ∧ subPlayer e = p)); [|by rewrite app_nil_r].
  rewrite filter_app, filter_cons, filter_nil, head_app.
  set (mine := filter (λ e, subTarget e = t ∧ subPlayer e = p) subs).
  destruct (filter (λ e, subFolded e = false) mine) as [|x l] eqn:E.
  - assert (∀ x, head mine = Some x → subFolded x = true) as Hall.
    { intros x Hx. destruct mine as [|y mine]; [done|]. injection Hx as ->.
      rewrite filter_cons in E. case_decide; [done|]. by apply not_false_is_true. }
    destruct (subFolded e) eqn:Ee; cbn [app decide decide_rel].
    + rewrite decide_False by done. cbn. destruct (head mine) as [y|] eqn:Eh; [|done].
      by rewrite andb_false_r.
    + rewrite decide_True by done. cbn. destruct (head mine) as [y|]; [|done].
      by rewrite (Hall y eq_refl).
  - cbn. assert (subFolded x = false) as Hx.
    { assert (x ∈ filter (λ e, subFolded e = false) mine) as Hin by (rewrite E; left).
      by apply list_elem_of_filter in Hin as [? _]. }
    by rewrite Hx.
Qed.

Lemma findSub_ok a p f e :
  Forall (sub_ok a) (lgSubs a) → findSub (lgSubs a) p f = Some e →
  sub_ok a e ∧ subPlayer e = p ∧ subOriginal e = f.
Proof.
  intros Hl He. unfold findSub in He. apply head_Some_elem_of in He.
  apply list_elem_of_filter in He as [Hpf Hin]. by rewrite Forall_forall in Hl; auto.
Qed.

Lemma winner_ok a t p e :
  Forall (sub_ok a) (lgSubs a) → winner (lgSubs a) t p = Some e →
  sub_ok a e ∧ subTarget e = t ∧ subPlayer e = p.
Proof.
  intros Hl He. rewrite Forall_forall in Hl. unfold winner in He.
  assert (e ∈ filter (λ e, subTarget e = t ∧ subPlayer e = p) (lgSubs a)) as Hin.
  { case_match eqn:E; [by apply head_Some_elem_of in He|]. injection He as ->.
    assert (e ∈ e :: l) as Hin by left. rewrite <- E in Hin.
    by apply list_elem_of_filter in Hin as [_ ?]. }
  apply list_elem_of_filter in Hin as [? Hin]. auto.
Qed.

(** ** Simulation of the operations *)

(** Changing nothing but the allocation of a known seat's ring. *)
Lemma sim_alloc s a p :
  sim s a → p ∈ sqPlayers s → sim (setAccepted s p (ringOf s p)) a.
Proof.
  intros H Hp. pose proof (ringOf_length s p a H) as Hlen. destruct H. constructor; try done.
  - intros q ring. cbn. rewrite lookup_insert_Some. intros [[<- <-]|[_ ?]]; eauto.
  - intros q f Hf Hfl. rewrite <- sim_find0 by done. unfold ringFind. by rewrite ringOf_alloc.
Qed.

(** The inputs of the target frame after [storeInput]. *)
Definition storedInputs (s : Sequencer) (p : PlayerID) (t : FrameID) (pl : bytes) (folded : bool)
    : gmap Z pendingInput :=
  let inputs := default ∅ (sqPending s !! t) in
  match inputs !! p with
  | Some existing => if negb (pFolded existing) || folded then inputs
                     else <[p := mkPending pl folded]> inputs
  | None => <[p := mkPending pl folded]> inputs
  end.

Lemma storeInput_eq s p f t pl folded rem :
  storeInput s p f t pl folded rem =
    remember (setPending s (<[t := storedInputs s p t pl folded]> (sqPending s))) p f t rem.
Proof.
  unfold storeInput, storedInputs. cbn zeta.
  destruct (default ∅ (sqPending s !! t) !! p) as [x|]; [destruct (negb (pFolded x) || folded)|];
    cbn [sqPending setPending]; rewrite ?insert_insert_eq; done.
Qed.

Lemma pendingAt_remember s p f t r t' p' :
  pendingAt (remember s p f t r) t' p' = pendingAt s t' p'.
Proof. by destruct r. Qed.

Lemma pendingAt_default s t p : default ∅ (sqPending s !! t) !! p = pendingAt s t p.
Proof. unfold pendingAt. by destruct (sqPending s !! t). Qed.

(** Storing an input touches the pending map of its frame only. *)
Lemma storeInput_pending s a p f t pl folded rem t' p' :
  sim s a → sqNext s ≤ t' →
  pendingAt (storeInput s p f t pl folded rem) t' p' =
    toPending <$> winner (lgSubs a ++ [mkSub p f t pl folded]) t' p'.
Proof.
  intros H Ht'. rewrite winner_app. cbn [subTarget subPlayer subFolded].
  pose proof (sim_pending _ _ H t' p' Ht') as Hp.
  rewrite storeInput_eq, pendingAt_remember. unfold pendingAt at 1, storedInputs. cbn [sqPending setPending].
  pose proof (pendingAt_default s t) as Hdef.
  destruct (decide (t = t')) as [<-|Hne].
  2:{ rewrite lookup_insert_ne, decide_False by naive_solver. exact Hp. }
  rewrite lookup_insert_eq. cbn [mbind option_bind]. rewrite (Hdef p).
  destruct (decide (p = p')) as [<-|Hne].
  - rewrite decide_True, Hp by done. destruct (winner (lgSubs a) t p) as [e|]; cbn.
    + destruct (subFolded e), folded; cbn; rewrite ?lookup_insert_eq, ?Hdef, ?Hp; done.
    + by rewrite lookup_insert_eq.
  - rewrite decide_False by naive_solver. rewrite <- Hp, <- Hdef.
    repeat case_match; by rewrite ?lookup_insert_ne.
Qed.

Lemma storedInputs_nonempty s a p t pl folded : sim s a → storedInputs s p t pl folded ≠ ∅.
Proof.
  intros H. unfold storedInputs. destruct (default ∅ (sqPending s !! t) !! p) eqn:E.
  - case_match; [|apply insert_non_empty]. intros Hn. by rewrite Hn, lookup_empty in E.
  - apply insert_non_empty.
Qed.

Definition addSub (a : Log) (e : Sub) : Log :=
  mkLog (lgPlayers a) (lgWindow a) (lgMaxInput a) (lgNext a) (lgSubs a ++ [e]).

Lemma replayFloor_next s s' : sqNext s' = sqNext s → replayFloor s' = replayFloor s.
Proof. intros H. unfold replayFloor. by rewrite H. Qed.

Lemma remember_config s p f t r :
  let s' := remember s p f t r in
  sqPlayers s' = sqPlayers s ∧ sqWindow s' = sqWindow s ∧ sqMaxInput s' = sqMaxInput s ∧
  sqNext s' = sqNext s ∧ sqPending s' = sqPending s.
Proof. by destruct r. Qed.

(** The ring after storing: the stored identity is found, and no identity
    inside the horizon is lost. *)
Lemma storeInput_find s a p f t pl folded q g :
  sim s a → p ∈ sqPlayers s → 1 ≤ t → 0 ≤ f ≤ sqNext s + sqWindow s →
  (replayFloor s ≤ f → findSub (lgSubs a) p f = None) →
  0 ≤ g → replayFloor s ≤ g →
  ringFind (storeInput s p f t pl folded (replayFloor s <=? f)) q g =
    subTarget <$> findSub (lgSubs a ++ [mkSub p f t pl folded]) q g.
Proof.
  intros H Hp Ht Hf Hnone Hg Hgf. rewrite storeInput_eq, findSub_app. cbn [subPlayer subOriginal].
  rewrite (ringFind_accepted (remember s p f t (replayFloor s <=? f))) by (by destruct (replayFloor s <=? f)).
  destruct (replayFloor s <=? f) eqn:E; to_prop.
  - rewrite (ringFind_remember s a) by (done || lia).
    rewrite (sim_find _ _ H q g Hg Hgf).
    destruct (decide (q = p ∧ replaySlotIndex g = replaySlotIndex f)) as [[-> Hi]|Hne].
    + case_decide as Hgf'; [subst g; rewrite Hnone, decide_True by done; done|].
      rewrite decide_False by naive_solver.
      destruct (findSub (lgSubs a) p g) as [x|] eqn:Ex; [|done]. exfalso.
      apply (findSub_ok a) in Ex as ((_ & Hx & _) & _ & Hxo); [|apply H].
      rewrite (sim_next _ _ H), (sim_window _ _ H) in Hx.
      apply Hgf', replaySlotIndex_inj; [done|].
      pose proof (replayFloor_spec _ _ H) as Hfl. rewrite (sim_next _ _ H) in Hfl.
      pose proof (sim_window_range _ _ H).
      unfold specFloor, replayWindowSize, ReplayHorizon, MaxSubmitWindow in *. lia.
    + rewrite decide_False; [by destruct (findSub (lgSubs a) q g)|].
      intros [<- <-]. by apply Hne.
  - unfold remember. cbn [negb]. rewrite (sim_find _ _ H) by done.
    rewrite (decide_False (P := _ ∧ _)) by (intros [_ ?]; lia).
    by destruct (findSub (lgSubs a) q g).
Qed.

Lemma sim_store s a p f pl :
  sim s a → p ∈ sqPlayers s → zlen pl ≤ sqMaxInput s → 0 ≤ f →
  Z.max f (sqNext s) ≤ sqNext s + sqWindow s →
  (replayFloor s ≤ f → findSub (lgSubs a) p f = None) →
  sim (storeInput s p f (Z.max f (sqNext s)) pl (f <? sqNext s) (replayFloor s <=? f))
      (addSub a (mkSub p f (Z.max f (sqNext s)) pl (f <? sqNext s))).
Proof.
  intros H Hp Hpl Hf Ht Hnone. set (t := Z.max f (sqNext s)) in *.
  pose proof (sim_next_pos _ _ H). pose proof (sim_window_range _ _ H).
  pose proof (storeInput_pending s a p f t pl (f <? sqNext s) (replayFloor s <=? f)) as Hpend.
  pose proof (storeInput_find s a p f t pl (f <? sqNext s)) as Hfind.
  pose proof (storedInputs_nonempty s a p t pl (f <? sqNext s) H) as Hne.
  pose proof (ringOf_length s p a H) as Hlen.
  rewrite storeInput_eq in *. set (s1 := setPending s _) in *.
  pose proof (remember_config s1 p f t (replayFloor s <=? f)) as (E1 & E2 & E3 & E4 & E5).
  constructor; rewrite ?E1, ?E2, ?E3, ?E4, ?E5; try (by apply H); try done.
  - intros t' p' Ht'. by apply Hpend.
  - intros t' m. cbn. rewrite lookup_insert_Some. intros [[<- <-]|[_ Hm]].
    + split; [lia|done].
    + by apply (sim_keys _ _ H).
  - intros q ring. unfold remember. destruct (replayFloor s <=? f); cbn; [|apply (sim_rings _ _ H)].
    rewrite lookup_insert_Some. intros [[<- <-]|[_ ?]].
    + rewrite length_insert. by split.
    + by apply (sim_rings _ _ H).
  - intros q g Hg Hfl. rewrite (replayFloor_next s) in Hfl by exact E4.
    apply Hfind; (done || lia).
  - apply Forall_app. split; [apply H|]. apply Forall_singleton. unfold sub_ok. cbn.
    rewrite (sim_players _ _ H), (sim_maxInput _ _ H), (sim_next _ _ H), (sim_window _ _ H).
    repeat split; (done || lia).
Qed.

(** ** Simulation of [SubmitInput] and [Advance] *)

Lemma ringFind_some s p f t :
  ringFind s p f = Some t ↔
  let sl := ringOf s p !!! replaySlotIndex f in sTarget sl ≠ 0 ∧ sOriginal sl = f ∧ sTarget sl = t.
Proof.
  unfold ringFind. cbn zeta. set (sl := ringOf s p !!! replaySlotIndex f).
  destruct (Z.eqb_spec (sTarget sl) 0), (Z.eqb_spec (sOriginal sl) f); cbn; naive_solver.
Qed.

(** The replay check of [SubmitInput], as a lookup in the log. *)
Lemma submit_cases s a p f pl :
  sim s a → is_u32 f → sqNext s + sqWindow s ≤ MaxUint32 →
  (∃ e, specSubmit a p f pl = (a, Err e) ∧ SubmitInput s p f pl = (s, Err e)) ∨
  p ∈ sqPlayers s ∧ zlen pl ≤ sqMaxInput s ∧ Z.max f (sqNext s) ≤ sqNext s + sqWindow s ∧
  ((∃ t, specSubmit a p f pl = (a, Ok t) ∧
         SubmitInput s p f pl = (setAccepted s p (ringOf s p), Ok t)) ∨
   (replayFloor s ≤ f → findSub (lgSubs a) p f = None) ∧
   specSubmit a p f pl =
     (addSub a (mkSub p f (Z.max f (sqNext s)) pl (f <? sqNext s)), Ok (Z.max f (sqNext s))) ∧
   ∃ s1, (s1 = s ∨ s1 = setAccepted s p (ringOf s p)) ∧
     SubmitInput s p f pl =
       (storeInput s1 p f (Z.max f (sqNext s)) pl (f <? sqNext s) (replayFloor s <=? f),
        Ok (Z.max f (sqNext s)))).
Proof.
  intros H Hf Hw. pose proof (sim_next_pos _ _ H). pose proof (sim_window_range _ _ H).
  pose proof (replayFloor_spec _ _ H) as Hfl. pose proof (sim_find _ _ H p f) as Hfind.
  unfold specSubmit, SubmitInput, KnownPlayer, MaxUint32, MaxSubmitWindow, is_u32 in *.
  rewrite (sim_players _ _ H), (sim_maxInput _ _ H), (sim_next _ _ H), (sim_window _ _ H) in *.
  rewrite u32_small by (unfold_int; lia).
  assert ((if f <? sqNext s then sqNext s else f) = Z.max f (sqNext s)) as ->.
  { destruct (Z.ltb_spec f (sqNext s)); lia. }
  destruct (bool_decide_reflect (p ∈ sqPlayers s)) as [Hp|Hp]; cbn [negb].
  2:{ left. eexists. by rewrite decide_True by done. }
  rewrite decide_False by tauto. destruct (Z.ltb_spec (sqMaxInput s) (zlen pl)).
  { left. eexists. by rewrite decide_True by done. }
  rewrite decide_False by lia.
  destruct (Z.ltb_spec (sqNext s + sqWindow s) (Z.max f (sqNext s))).
  { left. eexists. by rewrite decide_True by done. }
  rewrite decide_False by lia. right. do 3 (split; [done || lia|]).
  rewrite <- Hfl. destruct (Z.leb_spec (replayFloor s) f) as [Hr|Hr].
  - rewrite decide_True by done. cbn [slot]. specialize (Hfind ltac:(lia) Hr).
    unfold ringFind in Hfind.
    rewrite andb_true_r. unfold slot. destruct (negb _ && _).
    + left. destruct (findSub (lgSubs a) p f) as [e|]; [|done]. injection Hfind as ->. eauto.
    + right. destruct (findSub (lgSubs a) p f) as [e|]; [done|]. split; [done|].
      split; [|by eauto]. unfold addSub.
      by rewrite (sim_players _ _ H), (sim_maxInput _ _ H), (sim_next _ _ H), (sim_window _ _ H).
  - right. split; [lia|]. rewrite decide_False by lia. cbn. split; [|by eauto]. unfold addSub.
    by rewrite (sim_players _ _ H), (sim_maxInput _ _ H), (sim_next _ _ H), (sim_window _ _ H).
Qed.

Lemma sim_submit s a p f pl :
  sim s a → is_u32 f → sqNext s + sqWindow s ≤ MaxUint32 →
  sim (fst (SubmitInput s p f pl)) (fst (specSubmit a p f pl)) ∧
  snd (SubmitInput s p f pl) = snd (specSubmit a p f pl).
Proof.
  intros H Hf Hw. destruct (submit_cases s a p f pl H Hf Hw)
    as [(e & -> & ->)|(Hp & Hpl & Ht & [(t & -> & ->)|(Hnone & -> & s1 & Hs1 & ->)])];
    cbn [fst snd].
  - done.
  - split; [by apply sim_alloc|done].
  - split; [|done]. destruct Hf.
    destruct Hs1 as [->| ->]; [by apply sim_store|].
    apply (sim_store (setAccepted s p (ringOf s p))); try done. by apply sim_alloc.
Qed.

(** Two sorted lists of seats with the same members are equal. *)
Lemma sorted_seats_unique (l k : list Z) :
  StronglySorted Z.le l → StronglySorted Z.le k → NoDup l → NoDup k →
  (∀ x, x ∈ l ↔ x ∈ k) → l = k.
Proof.
  intros Hl Hk Nl Nk Hin. apply (StronglySorted_unique Z.le); try done.
  by apply NoDup_Permutation.
Qed.

Lemma merge_sort_seats l : StronglySorted Z.le (merge_sort Z.le l).
Proof. apply StronglySorted_merge_sort; apply _. Qed.

Lemma StronglySorted_filter {A} (R : A → A → Prop) (P : A → Prop) `{∀ x, Decision (P x)} l :
  StronglySorted R l → StronglySorted R (filter P l).
Proof.
  induction 1 as [|x l Hl IH Hx]; [constructor|]. rewrite filter_cons. case_decide; [|done].
  constructor; [done|]. rewrite Forall_forall in *. intros y Hy.
  apply list_elem_of_filter in Hy as [_ Hy]. auto.
Qed.

Lemma omap_as_map {A B} (f : A → option B) (g : A → B) l :
  (∀ x y, f x = Some y → y = g x) →
  omap f l = map g (filter (λ x, is_Some (f x)) l).
Proof.
  intros Hfg. induction l as [|x l IH]; [done|]. rewrite filter_cons. cbn.
  destruct (f x) as [y|] eqn:E.
  - rewrite decide_True by done. cbn. by rewrite IH, (Hfg x y E).
  - rewrite decide_False; [done|]. intros [? ?]. done.
Qed.

(** The cut frame of the code is the specified one. *)
Lemma cut_frame s a :
  sim s a →
  let inputs := default ∅ (sqPending s !! sqNext s) in
  map (λ p, mkInput p (default [] (pPayload <$> inputs !! p)))
      (merge_sort Z.le (map fst (map_to_list inputs)))
  = fInputs (specFrame a).
Proof.
  intros H inputs. pose proof (sim_pending _ _ H (sqNext s)) as Hp.
  unfold specFrame. cbn [fInputs]. rewrite (sim_next _ _ H).
  assert (∀ p, inputs !! p = toPending <$> winner (lgSubs a) (sqNext s) p) as Hin.
  { intros p. unfold inputs. rewrite pendingAt_default. by apply Hp. }
  set (g := λ p, mkInput p (default [] (pPayload <$> inputs !! p))).
  rewrite (omap_as_map _ g).
  2:{ intros p i. unfold g. rewrite Hin. destruct (winner (lgSubs a) (sqNext s) p); cbn; [|done].
      by intros [= <-]. }
  f_equal. apply sorted_seats_unique.
  - apply merge_sort_seats.
  - apply StronglySorted_filter, merge_sort_seats.
  - rewrite merge_sort_Permutation. apply NoDup_fst_map_to_list.
  - apply NoDup_filter. rewrite merge_sort_Permutation. apply NoDup_elements.
  - intros p. rewrite list_elem_of_filter, !merge_sort_Permutation, elem_of_elements, fmap_is_Some.
    rewrite list_elem_of_fmap. split.
    + intros ((p' & i) & -> & Hi). apply elem_of_map_to_list in Hi. rewrite Hin in Hi.
      cbn. destruct (winner _ _ _) as [e|] eqn:E; [|done]. split; [done|].
      apply (winner_ok a) in E as ((? & _) & _ & <-); [done|apply H].
    + intros [[e He] _]. exists (p, toPending e). split; [done|].
      apply elem_of_map_to_list. by rewrite Hin, He.
Qed.

Lemma sim_advance s a :
  sim s a → sqNext s < MaxUint32 →
  ∃ s', Advance s = Some (s', specFrame a) ∧ sim s' (fst (specAdvance a)) ∧
        sqNext s' = sqNext s + 1 ∧ sqWindow s' = sqWindow s.
Proof.
  intros H Hn. pose proof (sim_next_pos _ _ H). pose proof (sim_window_range _ _ H) as Hw.
  pose proof (cut_frame s a H) as Hcut. cbn zeta in Hcut. unfold Advance.
  destruct (Z.eqb_spec (sqNext s) MaxUint32); [lia|].
  set (inputs := default ∅ (sqPending s !! sqNext s)) in *.
  set (pend := if decide (inputs = ∅) then sqPending s else delete (sqNext s) (sqPending s)).
  assert (∀ t, pend !! t = if decide (t = sqNext s) then None else sqPending s !! t) as Hpend.
  { intros t. unfold pend, inputs. destruct (decide (t = sqNext s)) as [->|].
    - destruct (sqPending s !! sqNext s) as [m|] eqn:E; cbn.
      + pose proof (sim_keys _ _ H _ _ E) as [_ Hm]. rewrite decide_False by done.
        apply lookup_delete_eq.
      + by rewrite decide_True.
    - case_decide; [done|]. by rewrite lookup_delete_ne. }
  eexists. split.
  { unfold specFrame. rewrite (sim_next _ _ H). f_equal. f_equal.
    unfold specFrame in Hcut. cbn in Hcut. rewrite (sim_next _ _ H) in Hcut.
    rewrite <- Hcut. f_equal.
    destruct (decide (inputs = ∅)) as [->|]; [|done]. reflexivity. }
  rewrite u32_small by (unfold_int; lia).
  split; [|by split]. replace (fst _) with pend by (unfold pend; by case_decide).
  constructor; cbn; try apply H; try lia.
  - by rewrite (sim_next _ _ H).
  - intros t p Ht. rewrite <- (sim_pending _ _ H) by lia. unfold pendingAt. cbn.
    by rewrite Hpend, decide_False by lia.
  - intros t m. rewrite Hpend. case_decide; [done|]. intros Hm.
    apply (sim_keys _ _ H) in Hm as [? ?]. split; [lia|done].
  - intros p f Hf Hfl. rewrite <- (sim_find _ _ H); [done|done|].
    revert Hfl. unfold replayFloor. cbn. unfold ReplayHorizon, MaxSubmitWindow.
    destruct (sqNext s <=? 64) eqn:E1, (sqNext s + 1 <=? 64) eqn:E2; to_prop; lia.
  - eapply Forall_impl; [apply H|]. intros e (? & ? & ? & ?). unfold sub_ok. cbn.
    rewrite (sim_next _ _ H), (sim_window _ _ H) in *. repeat split; (done || lia).
Qed.

(** ** Configuration *)

Definition config_wf (c : SequencerConfig) : Prop :=
  scPlayers c ≠ [] ∧ zlen (scPlayers c) ≤ MaxFrameInputs ∧ NoDup (scPlayers c) ∧
  Forall (λ p, 0 ≤ p) (scPlayers c) ∧
  scSubmitWindow c ≤ MaxSubmitWindow ∧ 0 ≤ scMaxInputBytes c ≤ MaxInputPayloadBytes.

#[export] Instance config_wf_dec c : Decision (config_wf c).
Proof. unfold config_wf. apply _. Defined.

Lemma seatLoop_spec seats : ∀ players,
  (∀ out, seatLoop seats players = Ok out →
     out = list_to_set seats ∪ players ∧ NoDup seats ∧ Forall (λ p, 0 ≤ p) seats ∧
     ∀ p, p ∈ seats → p ∉ players) ∧
  (NoDup seats → Forall (λ p, 0 ≤ p) seats → (∀ p, p ∈ seats → p ∉ players) →
     ∃ out, seatLoop seats players = Ok out).
Proof.
  induction seats as [|x seats IH]; intros players; cbn [seatLoop].
  { split; [|by eauto]. intros out [= <-]. split; [set_solver|]. repeat constructor. set_solver. }
  destruct (IH ({[x]} ∪ players)) as [Hsound Hcomplete]. split.
  - intros out. destruct (Z.ltb_spec x 0); [done|]. case_bool_decide; [done|].
    intros (-> & Hn & Hf & Hd)%Hsound. split; [cbn; set_solver|].
    split; [constructor; [|done]|split; [by constructor|set_solver]].
    intros Hin. apply Hd in Hin. set_solver.
  - intros [Hx Hn]%NoDup_cons [Hx0 Hf]%Forall_cons Hd.
    destruct (Z.ltb_spec x 0); [lia|]. rewrite bool_decide_eq_false_2 by set_solver.
    apply Hcomplete; [done|done|]. intros p Hp. pose proof (Hd p ltac:(set_solver)). set_solver.
Qed.

(** A sequencer is built exactly for the configurations the wire format
    can carry: a non-empty duplicate-free seat set of non-negative ids within
    the frame limit, a submit window and payload bound within their maxima
    (zero selects the defaults); every other configuration is
    [ErrConfigInvalid]. *)
Theorem new_sequencer_spec c :
  is_u32 (scSubmitWindow c) →
  match NewSequencer c with
  | Ok s => config_wf c ∧ sqPlayers s = list_to_set (scPlayers c) ∧ sqNext s = 1 ∧
            1 ≤ sqWindow s ≤ MaxSubmitWindow ∧ 0 < sqMaxInput s ≤ MaxInputPayloadBytes ∧
            sqPending s = ∅ ∧ sqAccepted s = ∅
  | Err e => ¬ config_wf c ∧ e = ErrConfigInvalid
  end.
Proof.
  intros Hw. unfold NewSequencer, config_wf.
  destruct (seatLoop_spec (scPlayers c) ∅) as [Hsound Hcomplete].
  assert (zlen (scPlayers c) = 0 ↔ scPlayers c = []) as Hnil.
  { split; [apply zlen_zero_nil | by intros ->]. }
  set (window := if scSubmitWindow c =? 0 then 2 else scSubmitWindow c).
  set (maxInput := if scMaxInputBytes c =? 0 then MaxInputPayloadBytes else scMaxInputBytes c).
  assert (1 ≤ window ∧ (window ≤ MaxSubmitWindow ↔ scSubmitWindow c ≤ MaxSubmitWindow)) as [Hw1 Hw2].
  { unfold window, MaxSubmitWindow, is_u32 in *. case_match; to_prop; lia. }
  assert ((0 ≤ maxInput ≤ MaxInputPayloadBytes ↔ 0 ≤ scMaxInputBytes c ≤ MaxInputPayloadBytes) ∧ maxInput ≠ 0) as [Hm Hm0].
  { unfold maxInput, MaxInputPayloadBytes. case_match; to_prop; lia. }
  cbn [mbind result_bind]. unfold guard_err.
  destruct (Z.eqb_spec (zlen (scPlayers c)) 0); [naive_solver|]. cbn.
  destruct (Z.ltb_spec MaxSubmitWindow window); cbn; [split; [lia|done]|].
  destruct ((maxInput <? 0) || (MaxInputPayloadBytes <? maxInput)) eqn:E; cbn.
  { to_prop. split; [lia|done]. }
  destruct (Z.ltb_spec MaxFrameInputs (zlen (scPlayers c))); cbn; [split; [lia|done]|].
  destruct (seatLoop (scPlayers c) ∅) as [players|e] eqn:Es; cbn.
  - destruct (Hsound players eq_refl) as (-> & Hn & Hf & _). to_prop.
    rewrite union_empty_r_L. split_and!; try done; try lia; naive_solver.
  - split.
    + intros (_ & _ & Hn & Hf & _). destruct (Hcomplete Hn Hf) as [? ?]; [set_solver|done].
    + clear -Es. revert Es. generalize (∅ : gset Z). induction (scPlayers c) as [|x l IH]; intros X; cbn; [done|].
      repeat case_match; try congruence. apply IH.
Qed.

Definition sample_config : SequencerConfig := mkSeqConfig [5; 3; 8] 0 16.
Definition sample_seq : Sequencer := mkSequencer (list_to_set [5; 3; 8]) 2 16 1 ∅ ∅.

Example new_sequencer_spec_witness :
  match NewSequencer sample_config with
  | Ok s => config_wf sample_config ∧ sqPlayers s = list_to_set [5; 3; 8] ∧ sqNext s = 1 ∧
            1 ≤ sqWindow s ≤ MaxSubmitWindow ∧ 0 < sqMaxInput s ≤ MaxInputPayloadBytes ∧
            sqPending s = ∅ ∧ sqAccepted s = ∅
  | Err e => ¬ config_wf sample_config ∧ e = ErrConfigInvalid
  end.
Proof. apply (new_sequencer_spec sample_config). by_compute. Defined.

(** ** Runs *)

Lemma new_sequencer_sim c s :
  is_u32 (scSubmitWindow c) → NewSequencer c = Ok s →
  sim s (specInit s) ∧ sqNext s = 1 ∧ sqPlayers s = list_to_set (scPlayers c) ∧
  sqMaxInput s ≤ MaxInputPayloadBytes.
Proof.
  intros Hw H. unfold NewSequencer in H. inv_ok.
  destruct (seatLoop_spec (scPlayers c) ∅) as [Hsound _]. apply Hsound in E3 as (-> & _).
  to_prop. cbn [sqNext sqPlayers sqMaxInput]. rewrite union_empty_r_L.
  split; [|by split_and!; [..|lia]]. constructor; cbn; try done.
  - unfold MaxSubmitWindow, is_u32 in *. destruct (Z.eqb_spec (scSubmitWindow c) 0); lia.
  - intros p f _ _. unfold ringFind, ringOf. cbn. rewrite lookup_empty. cbn [default].
    rewrite lookup_total_replicate_2 by apply replaySlotIndex_lt. done.
Qed.

(** Fewer than 2^32 steps from here leave the uint32 id space intact. *)
Definition id_room (s : Sequencer) (steps : nat) : Prop :=
  sqNext s + Z.of_nat steps + sqWindow s ≤ MaxUint32.

Lemma id_room_S s n : id_room s (S n) → id_room s n.
Proof. unfold id_room. lia. Qed.

Lemma storeInput_config s p o f pl fo r :
  let s' := storeInput s p o f pl fo r in
  sqNext s' = sqNext s ∧ sqWindow s' = sqWindow s.
Proof.
  unfold storeInput. destruct (default ∅ (sqPending s !! f) !! p) as [x|];
    [destruct (negb (pFolded x) || fo)|]; by destruct r.
Qed.

Lemma submit_next s p f pl :
  sqNext (fst (SubmitInput s p f pl)) = sqNext s ∧ sqWindow (fst (SubmitInput s p f pl)) = sqWindow s.
Proof.
  unfold SubmitInput. destruct (negb (KnownPlayer s p)); [done|].
  destruct (sqMaxInput s <? zlen pl); [done|]. destruct (f <? sqNext s);
    (destruct (_ <? _); [done|]); destruct (replayFloor s <=? f); cbn [slot];
    (destruct (_ && _); [done|]); cbn [fst];
    match goal with |- context [storeInput ?s1 ?p ?o ?f ?pl ?fo ?r] =>
      exact (storeInput_config s1 p o f pl fo r) end.
Qed.

Lemma sim_step s a op n :
  sim s a → op_typed op → id_room s (S n) →
  sim (fst (step s op)) (fst (specStep a op)) ∧ snd (step s op) = snd (specStep a op) ∧
  id_room (fst (step s op)) n.
Proof.
  intros H Hop Hr. pose proof (sim_next_pos _ _ H). pose proof (sim_window_range _ _ H).
  unfold id_room in *. destruct op as [p f pl|]; cbn [step specStep].
  - pose proof (sim_submit s a p f pl H Hop ltac:(lia)) as [Hs Ho].
    pose proof (submit_next s p f pl) as [E1 E2].
    destruct (SubmitInput s p f pl), (specSubmit a p f pl). cbn [fst snd] in *. subst.
    rewrite E1, E2. split; [done|]. split; [done|lia].
  - destruct (sim_advance s a H ltac:(lia)) as (s' & -> & Hs & E1 & E2). cbn [fst snd].
    rewrite E1, E2. split; [done|]. split; [done|lia].
Qed.

Lemma sim_run ops : ∀ s a n,
  sim s a → Forall op_typed ops → id_room s (length ops + n) →
  sim (fst (run s ops)) (fst (specRun a ops)) ∧ snd (run s ops) = snd (specRun a ops) ∧
  id_room (fst (run s ops)) n.
Proof.
  induction ops as [|op ops IH]; intros s a n H Hops Hr; [done|].
  apply Forall_cons in Hops as [Hop Hops]. cbn [length Nat.add] in Hr.
  destruct (sim_step s a op _ H Hop Hr) as (Hs & Ho & Hr').
  cbn [run specRun]. destruct (step s op) as [s1 o1], (specStep a op) as [a1 o1'].
  cbn [fst snd] in *. destruct (IH s1 a1 n Hs Hops Hr') as (Hs2 & Ho2 & Hr2).
  destruct (run s1 ops), (specRun a1 ops). cbn [fst snd] in *. by subst.
Qed.

(** C29. Refinement: over any sequence of submissions and cuts, the sequencer
    with its 129-slot rings and per-frame maps answers every submission and
    cuts every frame exactly as the unbounded log of accepted submissions
    does, until the uint32 frame space comes within the submit window of its
    end. *)
Theorem sequencer_refines_log c s ops :
  is_u32 (scSubmitWindow c) → NewSequencer c = Ok s →
  Forall op_typed ops → zlen ops ≤ MaxUint32 - 1 - MaxSubmitWindow →
  snd (run s ops) = snd (specRun (specInit s) ops).
Proof.
  intros Hw Hs Hops Hn. destruct (new_sequencer_sim c s Hw Hs) as (Hsim & H1 & _).
  apply (sim_run ops s (specInit s) 0 Hsim Hops).
  pose proof (sim_window_range _ _ Hsim). unfold id_room, zlen in *. rewrite H1. lia.
Qed.

(** Seat 3 sends frame 1, a retransmission, a late packet that folds into
    frame 2, the real input of frame 2, and the retransmission of frame 1
    again; seat 9 is unknown and frame 40 too early. *)
Definition sample_ops : list SeqOp :=
  [OSubmit 3 1 [10]; OSubmit 3 1 [99]; OSubmit 5 1 [7]; OSubmit 9 1 []; OSubmit 3 40 []; OAdvance;
   OSubmit 8 1 [1]; OSubmit 8 2 [2]; OSubmit 3 1 [10]; OAdvance].

Example sequencer_refines_log_witness :
  snd (run sample_seq sample_ops) = snd (specRun (specInit sample_seq) sample_ops).
Proof.
  apply (sequencer_refines_log sample_config); [by_compute|reflexivity|by_compute|by_compute].
Defined.

Example sample_run :
  snd (run sample_seq sample_ops) =
  [RSubmit (Ok 1); RSubmit (Ok 1); RSubmit (Ok 1); RSubmit (Err ErrPlayerUnknown);
   RSubmit (Err ErrFrameTooEarly); RFrame (mkFrame 1 [mkInput 3 [10]; mkInput 5 [7]]);
   RSubmit (Ok 2); RSubmit (Ok 2); RSubmit (Ok 1); RFrame (mkFrame 2 [mkInput 8 [2]])].
Proof. vm_compute. reflexivity. Qed.

(** ** Retransmissions *)

Lemma ringFind_allocated s p f t :
  ringFind s p f = Some t → setAccepted s p (ringOf s p) = s.
Proof.
  unfold ringFind, ringOf, setAccepted. destruct (sqAccepted s !! p) as [ring|] eqn:E; cbn [default].
  - rewrite insert_id by done. by destruct s.
  - rewrite lookup_total_replicate_2 by apply replaySlotIndex_lt. done.
Qed.

Lemma submit_known s p f pl t :
  p ∈ sqPlayers s → zlen pl ≤ sqMaxInput s → 0 ≤ sqWindow s →
  Z.max f (sqNext s) ≤ sqNext s + sqWindow s → 0 ≤ sqNext s → sqNext s + sqWindow s ≤ MaxUint32 →
  replayFloor s ≤ f → ringFind s p f = Some t → SubmitInput s p f pl = (s, Ok t).
Proof.
  intros Hp Hpl Hw Hf Hn0 Hn Hfl Hr. unfold SubmitInput, KnownPlayer.
  rewrite bool_decide_eq_true_2 by done. cbn [negb].
  destruct (Z.ltb_spec (sqMaxInput s) (zlen pl)); [lia|].
  rewrite u32_small by (unfold_int; lia).
  destruct (Z.ltb_spec (sqNext s + sqWindow s) (if f <? sqNext s then sqNext s else f)).
  { destruct (Z.ltb_spec f (sqNext s)); lia. }
  rewrite (proj2 (Z.leb_le _ _) Hfl). cbn [slot]. unfold slot. rewrite andb_true_r.
  pose proof (ringFind_allocated _ _ _ _ Hr) as Ha. unfold ringFind in Hr.
  destruct (_ && _); [|done]. injection Hr as ->. by rewrite Ha.
Qed.

Lemma specSubmit_extends a p f pl :
  (∃ l, lgSubs (fst (specSubmit a p f pl)) = lgSubs a ++ l) ∧
  lgNext (fst (specSubmit a p f pl)) = lgNext a.
Proof.
  assert (∃ l, lgSubs a = lgSubs a ++ l) by (exists []; by rewrite app_nil_r).
  unfold specSubmit. do 3 (case_decide; [done|]).
  destruct (if decide (specFloor (lgNext a) ≤ f) then _ else _); [done|].
  cbn. eauto.
Qed.

Lemma specStep_extends a op :
  (∃ l, lgSubs (fst (specStep a op)) = lgSubs a ++ l) ∧ lgNext a ≤ lgNext (fst (specStep a op)).
Proof.
  destruct op as [p f pl|]; cbn.
  - pose proof (specSubmit_extends a p f pl) as [? E]. destruct (specSubmit a p f pl).
    cbn in *. rewrite E. split; [done|lia].
  - split; [exists []; by rewrite app_nil_r|lia].
Qed.

Lemma specRun_extends ops : ∀ a,
  (∃ l, lgSubs (fst (specRun a ops)) = lgSubs a ++ l) ∧ lgNext a ≤ lgNext (fst (specRun a ops)).
Proof.
  induction ops as [|op ops IH]; intros a; cbn.
  { split; [(exists []; by rewrite app_nil_r)|lia]. }
  pose proof (specStep_extends a op) as [[l Hl] ?].
  destruct (specStep a op) as [a1 o]. cbn [fst] in *. destruct (IH a1) as [[l' Hl'] ?].
  destruct (specRun a1 ops). cbn [fst] in *.
  split; [exists (l ++ l'); by rewrite Hl', Hl, app_assoc|lia].
Qed.

Lemma findSub_extends subs l p f e :
  findSub subs p f = Some e → findSub (subs ++ l) p f = Some e.
Proof.
  unfold findSub. rewrite filter_app, head_app. by intros ->.
Qed.

Lemma specFloor_mono n m : n ≤ m → specFloor n ≤ specFloor m.
Proof. unfold specFloor. lia. Qed.

(** An accepted identity inside the horizon is in the log. *)
Lemma specSubmit_logged a p f pl a' t :
  specSubmit a p f pl = (a', Ok t) → specFloor (lgNext a) ≤ f →
  ∃ e, findSub (lgSubs a') p f = Some e ∧ subTarget e = t.
Proof.
  unfold specSubmit. intros H Hf. repeat case_decide; try done.
  destruct (findSub (lgSubs a) p f) as [e|] eqn:E; injection H as <- <-; [by eauto|].
  cbn. rewrite findSub_app, E. cbn. rewrite decide_True by done. by eexists.
Qed.

(** C30. Exactly once inside the replay horizon: after an input of a seat was
    accepted into frame [t] and whatever else was submitted and cut since, a
    retransmission of the same original frame id - with any payload - answers
    [t] and changes nothing, as long as the id is not older than the horizon.
    No input is ever executed in a second frame because its datagram was
    repeated. *)
Theorem retransmission_idempotent c s ops1 s1 p f pl s2 t ops2 s3 pl' :
  is_u32 (scSubmitWindow c) → NewSequencer c = Ok s →
  Forall op_typed (ops1 ++ OSubmit p f pl :: ops2) →
  zlen (ops1 ++ ops2) ≤ MaxUint32 - 2 - MaxSubmitWindow →
  fst (run s ops1) = s1 → SubmitInput s1 p f pl = (s2, Ok t) → fst (run s2 ops2) = s3 →
  replayFloor s3 ≤ f → zlen pl' ≤ sqMaxInput s3 →
  SubmitInput s3 p f pl' = (s3, Ok t).
Proof.
  intros Hcw Hs Hops Hn <- Hsub <- Hfl Hpl.
  destruct (new_sequencer_sim c s Hcw Hs) as (Hsim & H1 & _).
  apply Forall_app in Hops as [Hops1 [Hop Hops2]%Forall_cons].
  destruct (sim_run ops1 s _ (S (length ops2)) Hsim Hops1) as (Hs1 & _ & Hr1).
  { pose proof (sim_window_range _ _ Hsim). unfold id_room. rewrite H1.
    unfold zlen in Hn. rewrite length_app in Hn. lia. }
  set (s1 := fst (run s ops1)) in *. set (a1 := fst (specRun (specInit s) ops1)) in *.
  destruct (sim_step s1 a1 _ _ Hs1 Hop Hr1) as (Hs2 & Ho & Hr2).
  cbn [step specStep] in *. rewrite Hsub in *.
  destruct (specSubmit a1 p f pl) as [a2 r] eqn:Ea. cbn [fst snd] in *. injection Ho as <-.
  destruct (sim_run ops2 s2 a2 0 Hs2 Hops2) as (Hs3 & _ & Hr3); [by rewrite Nat.add_0_r|].
  destruct (specRun_extends ops2 a2) as [[l Hl] Hmono].
  set (s3 := fst (run s2 ops2)) in *. set (a3 := fst (specRun a2 ops2)) in *.
  assert (lgNext a1 ≤ lgNext a2) as Hmono1.
  { pose proof (specSubmit_extends a1 p f pl) as [_ Hm]. rewrite Ea in Hm. cbn in Hm. lia. }
  rewrite (replayFloor_spec _ _ Hs3) in Hfl.
  destruct (specSubmit_logged _ _ _ _ _ _ Ea) as (e & He & <-).
  { pose proof (specFloor_mono (lgNext a1) (lgNext a3)). lia. }
  apply findSub_extends with (l := l) in He. rewrite <- Hl in He.
  destruct (findSub_ok a3 p f e (sim_log _ _ Hs3) He) as ((Hp & Hof & _) & <- & <-).
  rewrite (sim_players _ _ Hs3) in Hp. rewrite (sim_next _ _ Hs3), (sim_window _ _ Hs3) in Hof.
  pose proof (sim_window_range _ _ Hs3). pose proof (sim_next_pos _ _ Hs3).
  unfold id_room in Hr3. rewrite <- (replayFloor_spec _ _ Hs3) in Hfl.
  apply submit_known; try done; try lia.
  rewrite (sim_find _ _ Hs3) by (done || lia). by rewrite He.
Qed.

Definition sample_seq1 : Sequencer := fst (run sample_seq [OSubmit 3 1 [10]]).

Example retransmission_idempotent_witness :
  let s3 := fst (run sample_seq1 [OSubmit 5 1 [7]; OAdvance; OSubmit 3 2 [4]; OAdvance]) in
  SubmitInput s3 3 1 [66] = (s3, Ok 1).
Proof.
  apply (retransmission_idempotent sample_config sample_seq [] sample_seq 3 1 [10] sample_seq1 1
           [OSubmit 5 1 [7]; OAdvance; OSubmit 3 2 [4]; OAdvance]); try by_compute; reflexivity.
Defined.

(** ** The cut frames *)

Definition framesOf (outs : list SeqOut) : list Frame :=
  omap (λ o, match o with RFrame f => Some f | _ => None end) outs.

(** The seats a configuration may hold on the wire. *)
Definition seats_ok (players : gset Z) (maxInput : Z) : Prop :=
  (∀ p, p ∈ players → is_i32 p) ∧ Z.of_nat (size players) ≤ MaxFrameInputs ∧
  maxInput ≤ MaxInputPayloadBytes.

Lemma specFrame_players a :
  map iPlayer (fInputs (specFrame a)) =
    filter (λ p, is_Some (winner (lgSubs a) (lgNext a) p)) (merge_sort Z.le (elements (lgPlayers a))).
Proof.
  unfold specFrame. cbn [fInputs]. induction (merge_sort Z.le _) as [|p l IH]; [done|].
  rewrite filter_cons. cbn. destruct (winner _ _ p); cbn.
  - rewrite decide_True by done. by rewrite IH.
  - rewrite decide_False; [done|]. intros [? ?]. done.
Qed.

Lemma StronglySorted_le_lt l : StronglySorted Z.le l → NoDup l → StronglySorted Z.lt l.
Proof.
  induction 1 as [|x l Hl IH Hx]; intros Hn; [constructor|]. apply NoDup_cons in Hn as [Hni Hn].
  constructor; [auto|]. rewrite Forall_forall in *. intros y Hy. specialize (Hx y Hy).
  assert (x ≠ y) by congruence. lia.
Qed.

Lemma specFrame_ok a :
  Forall (sub_ok a) (lgSubs a) → seats_ok (lgPlayers a) (lgMaxInput a) →
  1 ≤ lgNext a ≤ MaxUint32 →
  frame_wf (specFrame a) ∧ StronglySorted Z.lt (map iPlayer (fInputs (specFrame a))).
Proof.
  intros Hlog (Hi & Hsz & Hmax) Hn.
  assert (NoDup (merge_sort Z.le (elements (lgPlayers a)))) as Hnd.
  { rewrite merge_sort_Permutation. apply NoDup_elements. }
  split.
  - split; [cbn; lia|]. split.
    + rewrite <- (zlen_map iPlayer), specFrame_players. unfold zlen.
      pose proof (length_filter (λ p, is_Some (winner (lgSubs a) (lgNext a) p)) (merge_sort Z.le (elements (lgPlayers a)))).
      rewrite merge_sort_Permutation in H at 2.
      change (length (elements (lgPlayers a))) with (size (lgPlayers a)) in H. lia.
    + rewrite Forall_forall. unfold specFrame. cbn. intros i. rewrite list_elem_of_omap.
      intros (p & Hp & (e & He & ->)%fmap_Some).
      apply (winner_ok a) in He as ((_ & _ & _ & ?) & _ & _); [|done].
      rewrite merge_sort_Permutation, elem_of_elements in Hp.
      split; cbn; [by apply Hi|lia].
  - rewrite specFrame_players. apply StronglySorted_le_lt.
    + apply StronglySorted_filter, merge_sort_seats.
    + by apply NoDup_filter.
Qed.

Lemma specSubmit_config a p f pl :
  lgPlayers (fst (specSubmit a p f pl)) = lgPlayers a ∧
  lgMaxInput (fst (specSubmit a p f pl)) = lgMaxInput a.
Proof.
  unfold specSubmit. do 3 (case_decide; [done|]).
  by destruct (if decide (specFloor (lgNext a) ≤ f) then _ else _).
Qed.

Lemma run_frames ops : ∀ s a n,
  sim s a → Forall op_typed ops → id_room s (length ops + n) → seats_ok (lgPlayers a) (lgMaxInput a) →
  let fs := framesOf (snd (run s ops)) in
  map fID fs = seqZ (sqNext s) (zlen fs) ∧ Forall frame_wf fs ∧
  Forall (λ f, StronglySorted Z.lt (map iPlayer (fInputs f))) fs.
Proof.
  induction ops as [|op ops IH]; intros s a n H Hops Hr Hok.
  { cbn. split; [done|]. by split. }
  apply Forall_cons in Hops as [Hop Hops]. cbn [length Nat.add] in Hr.
  destruct (sim_step s a op _ H Hop Hr) as (Hs & _ & Hr').
  pose proof (sim_next_pos _ _ H). pose proof (sim_window_range _ _ H).
  destruct op as [p f pl|]; cbn [run step specStep] in *.
  - pose proof (submit_next s p f pl) as [E _]. pose proof (specSubmit_config a p f pl) as [E1 E2].
    destruct (SubmitInput s p f pl) as [s1 r], (specSubmit a p f pl) as [a1 r']. cbn [fst snd] in *.
    rewrite <- E1, <- E2 in Hok. specialize (IH s1 a1 n Hs Hops Hr' Hok). rewrite E in IH.
    destruct (run s1 ops). exact IH.
  - destruct (sim_advance s a H) as (s1 & E & _ & Hn1 & _); [unfold id_room in Hr; lia|].
    rewrite E in *. cbn [fst snd] in *. specialize (IH s1 _ n Hs Hops Hr' Hok).
    destruct (run s1 ops) as [s2 os]. cbn [framesOf omap list_omap snd] in *.
    destruct IH as (IH1 & IH2 & IH3). fold (framesOf os) in *.
    destruct (specFrame_ok a) as [Hwf Hsort]; [by apply H|done| |].
    { rewrite (sim_next _ _ H). unfold id_room in Hr. lia. }
    split; [|by split; constructor].
    cbn [map]. rewrite IH1, zlen_cons, Hn1.
    rewrite (seqZ_cons (sqNext s)) by (pose proof (zlen_nonneg (framesOf os)); lia).
    f_equal; [apply (sim_next _ _ H)|]. f_equal; lia.
Qed.

(** C40. Every run cuts the frames 1, 2, 3, ... in order, each within the wire
    format's bounds and with its inputs strictly ordered by seat: what the
    sequencer emits, the broadcast codec carries. *)
Theorem cut_frames_wellformed c s ops :
  is_u32 (scSubmitWindow c) → Forall is_i32 (scPlayers c) → NewSequencer c = Ok s →
  Forall op_typed ops → zlen ops ≤ MaxUint32 - 1 - MaxSubmitWindow →
  let fs := framesOf (snd (run s ops)) in
  map fID fs = seqZ 1 (zlen fs) ∧ Forall frame_wf fs ∧
  Forall (λ f, StronglySorted Z.lt (map iPlayer (fInputs f))) fs.
Proof.
  intros Hw Hp Hs Hops Hn. destruct (new_sequencer_sim c s Hw Hs) as (Hsim & H1 & Hpl & Hmax).
  rewrite <- H1. apply (run_frames ops s (specInit s) 0 Hsim Hops).
  - pose proof (sim_window_range _ _ Hsim). unfold id_room, zlen in *. rewrite H1. lia.
  - cbn. rewrite Hpl. split; [|split; [|done]].
    + intros p Hin. rewrite elem_of_list_to_set in Hin. by eapply Forall_forall in Hp.
    + unfold NewSequencer in Hs. inv_ok. to_prop.
      destruct (seatLoop_spec (scPlayers c) ∅) as [Hsound _]. apply Hsound in E3 as (_ & Hnd & _).
      by rewrite (size_list_to_set (C:=gset Z)).
Qed.

Example cut_frames_wellformed_witness :
  let fs := framesOf (snd (run sample_seq sample_ops)) in
  map fID fs = seqZ 1 (zlen fs) ∧ Forall frame_wf fs ∧
  Forall (λ f, StronglySorted Z.lt (map iPlayer (fInputs f))) fs.
Proof.
  apply (cut_frames_wellformed sample_config); [by_compute|by_compute|reflexivity|by_compute|by_compute].
Defined.

(** Bounded memory: whatever clients submit between cuts, inputs are held
    only for the frames of the submit window and only for seats of the match,
    and a seat's replay memory is one ring of fixed size. *)
Theorem sequencer_memory_bounded c s ops :
  is_u32 (scSubmitWindow c) → NewSequencer c = Ok s →
  Forall op_typed ops → zlen ops ≤ MaxUint32 - 1 - MaxSubmitWindow →
  let s' := fst (run s ops) in
  (∀ t inputs, sqPending s' !! t = Some inputs →
     sqNext s' ≤ t ≤ sqNext s' + sqWindow s' ∧ dom inputs ⊆ sqPlayers s') ∧
  (∀ p ring, sqAccepted s' !! p = Some ring →
     p ∈ sqPlayers s' ∧ zlen ring = replayWindowSize).
Proof.
  intros Hw Hs Hops Hn. destruct (new_sequencer_sim c s Hw Hs) as (Hsim & H1 & _).
  destruct (sim_run ops s (specInit s) 0 Hsim Hops) as (H & _ & _).
  { pose proof (sim_window_range _ _ Hsim). unfold id_room, zlen in *. rewrite H1. lia. }
  intros s'. subst s'. split.
  - intros t inputs Ht. pose proof (sim_keys _ _ H _ _ Ht) as [Hr _]. split; [done|].
    intros p [i Hi]%elem_of_dom.
    pose proof (sim_pending _ _ H t p ltac:(lia)) as Hp. unfold pendingAt in Hp.
    rewrite Ht in Hp. cbn in Hp. rewrite Hi in Hp. symmetry in Hp.
    apply fmap_Some in Hp as (e & He & _). apply (winner_ok _ _ _ _ (sim_log _ _ H)) in He as ((Hin & _) & _ & <-).
    by rewrite (sim_players _ _ H) in Hin.
  - intros p ring Hp. apply (sim_rings _ _ H) in Hp as [? Hl]. split; [done|].
    unfold zlen. by rewrite Hl.
Qed.

Example sequencer_memory_bounded_witness :
  let s' := fst (run sample_seq sample_ops) in
  (∀ t inputs, sqPending s' !! t = Some inputs →
     sqNext s' ≤ t ≤ sqNext s' + sqWindow s' ∧ dom inputs ⊆ sqPlayers s') ∧
  (∀ p ring, sqAccepted s' !! p = Some ring →
     p ∈ sqPlayers s' ∧ zlen ring = replayWindowSize).
Proof. apply (sequencer_memory_bounded sample_config); [by_compute|reflexivity|by_compute|by_compute]. Defined.

(** ** Delivery order between seats

    Logs that agree on every seat's own submissions are indistinguishable. *)
Definition seatSubs (subs : list Sub) (p : PlayerID) : list Sub :=
  filter (λ e, subPlayer e = p) subs.

#[export] Instance Log_equiv : Equiv Log := λ a b,
  lgPlayers a = lgPlayers b ∧ lgWindow a = lgWindow b ∧ lgMaxInput a = lgMaxInput b ∧
  lgNext a = lgNext b ∧ ∀ p, seatSubs (lgSubs a) p = seatSubs (lgSubs b) p.

#[export] Instance Log_equivalence : Equivalence (≡@{Log}).
Proof.
  split.
  - by intros a.
  - intros a b (? & ? & ? & ? & ?). done.
  - intros a b c (? & ? & ? & ? & Hab) (? & ? & ? & ? & Hbc).
    do 4 (split; [congruence|]). intros p. by rewrite Hab.
Qed.

Lemma findSub_seat subs p f :
  findSub subs p f = head (filter (λ e, subOriginal e = f) (seatSubs subs p)).
Proof.
  unfold findSub, seatSubs. rewrite list_filter_filter. f_equal.
  apply list_filter_iff. naive_solver.
Qed.

Lemma winner_seat subs t p :
  winner subs t p = winner (seatSubs subs p) t p.
Proof.
  unfold winner, seatSubs.
  assert (filter (λ e, subTarget e = t ∧ subPlayer e = p) (filter (λ e, subPlayer e = p) subs)
          = filter (λ e, subTarget e = t ∧ subPlayer e = p) subs) as ->; [|done].
  rewrite list_filter_filter. apply list_filter_iff. naive_solver.
Qed.

Lemma seatSubs_app l k p : seatSubs (l ++ k) p = seatSubs l p ++ seatSubs k p.
Proof. apply filter_app. Qed.

Lemma specSubmit_equiv a b p f pl :
  a ≡ b → fst (specSubmit a p f pl) ≡ fst (specSubmit b p f pl) ∧
          snd (specSubmit a p f pl) = snd (specSubmit b p f pl).
Proof.
  intros H. pose proof H as (E1 & E2 & E3 & E4 & E5). unfold specSubmit.
  rewrite !findSub_seat, <- E1, <- E2, <- E3, <- E4, <- E5.
  do 3 (case_decide; [done|]).
  destruct (if decide _ then _ else _); [done|]. split; [|done].
  do 4 (split; [done|]). intros q. cbn [fst lgSubs]. by rewrite !seatSubs_app, E5.
Qed.

#[export] Instance specFrame_proper : Proper ((≡) ==> (=)) specFrame.
Proof.
  intros a b (E1 & _ & _ & E4 & E5). unfold specFrame. rewrite E1, E4. f_equal.
  induction (merge_sort Z.le (elements (lgPlayers b))) as [|p l IH]; [done|]. cbn.
  by rewrite (winner_seat (lgSubs a)), (winner_seat (lgSubs b)), E5, IH.
Qed.

Lemma specStep_equiv a b op :
  a ≡ b → fst (specStep a op) ≡ fst (specStep b op) ∧ snd (specStep a op) = snd (specStep b op).
Proof.
  intros H. destruct op as [p f pl|]; cbn.
  - pose proof (specSubmit_equiv a b p f pl H) as [? ?].
    destruct (specSubmit a p f pl), (specSubmit b p f pl). cbn in *. by subst.
  - split; [|by rewrite H]. destruct H as (? & ? & ? & E & ?). do 3 (split; [done|]).
    split; [|done]. cbn. by rewrite E.
Qed.

Lemma specRun_equiv ops : ∀ a b, a ≡ b → snd (specRun a ops) = snd (specRun b ops).
Proof.
  induction ops as [|op ops IH]; intros a b H; [done|]. cbn.
  pose proof (specStep_equiv a b op H) as [Hs Ho].
  destruct (specStep a op) as [a1 o1], (specStep b op) as [b1 o2]. cbn in *. subst.
  specialize (IH a1 b1 Hs). destruct (specRun a1 ops), (specRun b1 ops). cbn in *. by subst.
Qed.

(** A submission depends on, and changes, its own seat's part of the log. *)
Lemma specSubmit_local a b p f pl :
  lgPlayers a = lgPlayers b → lgWindow a = lgWindow b → lgMaxInput a = lgMaxInput b →
  lgNext a = lgNext b → seatSubs (lgSubs a) p = seatSubs (lgSubs b) p →
  ∃ l, lgSubs (fst (specSubmit a p f pl)) = lgSubs a ++ l ∧
       lgSubs (fst (specSubmit b p f pl)) = lgSubs b ++ l ∧
       (∀ q, q ≠ p → seatSubs l q = []) ∧
       snd (specSubmit a p f pl) = snd (specSubmit b p f pl).
Proof.
  intros E1 E2 E3 E4 E5. unfold specSubmit. rewrite !findSub_seat, <- E1, <- E2, <- E3, <- E4, <- E5.
  assert (∃ l : list Sub, lgSubs a = lgSubs a ++ l ∧ lgSubs b = lgSubs b ++ l ∧
    (∀ q, q ≠ p → seatSubs l q = [])) as (l & Hl).
  { exists []. by rewrite !app_nil_r. }
  do 3 (case_decide; [exists l; naive_solver|]).
  destruct (if decide _ then _ else _); [exists l; naive_solver|].
  eexists. cbn. split; [done|]. split; [done|]. split; [|done].
  intros q Hq. unfold seatSubs. rewrite filter_cons. cbn. by rewrite decide_False.
Qed.

Lemma specSubmit_swap a p1 f1 pl1 p2 f2 pl2 :
  p1 ≠ p2 →
  let a1 := fst (specSubmit a p1 f1 pl1) in let a2 := fst (specSubmit a p2 f2 pl2) in
  fst (specSubmit a1 p2 f2 pl2) ≡ fst (specSubmit a2 p1 f1 pl1) ∧
  snd (specSubmit a1 p2 f2 pl2) = snd (specSubmit a p2 f2 pl2) ∧
  snd (specSubmit a2 p1 f1 pl1) = snd (specSubmit a p1 f1 pl1).
Proof.
  intros Hne a1 a2.
  assert (∀ x p f pl, lgPlayers (fst (specSubmit x p f pl)) = lgPlayers x ∧
    lgMaxInput (fst (specSubmit x p f pl)) = lgMaxInput x ∧
    lgWindow (fst (specSubmit x p f pl)) = lgWindow x ∧
    lgNext (fst (specSubmit x p f pl)) = lgNext x) as Hc.
  { intros x p f pl. unfold specSubmit. do 3 (case_decide; [done|]).
    by destruct (if decide _ then _ else _). }
  pose proof (Hc a p1 f1 pl1) as (A1 & A2 & A3 & A4). pose proof (Hc a p2 f2 pl2) as (B1 & B2 & B3 & B4).
  pose proof (Hc a1 p2 f2 pl2) as (C1 & C2 & C3 & C4). pose proof (Hc a2 p1 f1 pl1) as (D1 & D2 & D3 & D4).
  destruct (specSubmit_local a a p1 f1 pl1) as (l1 & Hl1 & _ & Hq1 & _); try done.
  destruct (specSubmit_local a a p2 f2 pl2) as (l2 & Hl2 & _ & Hq2 & _); try done.
  fold a1 in Hl1, A1, A2, A3, A4. fold a2 in Hl2, B1, B2, B3, B4.
  assert (seatSubs (lgSubs a1) p2 = seatSubs (lgSubs a) p2) as S1.
  { rewrite Hl1, seatSubs_app, Hq1, app_nil_r; done. }
  assert (seatSubs (lgSubs a2) p1 = seatSubs (lgSubs a) p1) as S2.
  { rewrite Hl2, seatSubs_app, Hq2, app_nil_r; done. }
  destruct (specSubmit_local a1 a p2 f2 pl2) as (l2' & Hl2a & Hl2b & Hq2' & R2); try done.
  destruct (specSubmit_local a2 a p1 f1 pl1) as (l1' & Hl1a & Hl1b & Hq1' & R1); try done.
  split; [|done].
  assert (l2' = l2) as -> by (apply (app_inv_head (lgSubs a)); by rewrite <- Hl2, <- Hl2b).
  assert (l1' = l1) as -> by (apply (app_inv_head (lgSubs a)); by rewrite <- Hl1, <- Hl1b).
  split; [congruence|]. split; [congruence|]. split; [congruence|]. split; [congruence|].
  intros q. rewrite Hl2a, Hl1a, Hl1, Hl2, !seatSubs_app, <- !app_assoc. f_equal.
  destruct (decide (q = p1)) as [->|]; [rewrite (Hq2 p1), app_nil_r; done|].
  by rewrite (Hq1 q), app_nil_r.
Qed.

(** Arrival order between seats is irrelevant: swapping two adjacent
    submissions of different seats, anywhere in a run, swaps their two answers
    and changes no later answer and no later frame. *)
Theorem seats_commute c s ops1 p1 f1 pl1 p2 f2 pl2 ops2 outs o1 o2 outs' :
  is_u32 (scSubmitWindow c) → NewSequencer c = Ok s → p1 ≠ p2 →
  let opsA := ops1 ++ OSubmit p1 f1 pl1 :: OSubmit p2 f2 pl2 :: ops2 in
  let opsB := ops1 ++ OSubmit p2 f2 pl2 :: OSubmit p1 f1 pl1 :: ops2 in
  Forall op_typed opsA → zlen opsA ≤ MaxUint32 - 1 - MaxSubmitWindow →
  length outs = length ops1 →
  snd (run s opsA) = outs ++ o1 :: o2 :: outs' →
  snd (run s opsB) = outs ++ o2 :: o1 :: outs'.
Proof.
  intros Hw Hs Hne opsA opsB Hops Hn Hlen.
  destruct (new_sequencer_sim c s Hw Hs) as (Hsim & H1 & _).
  assert (Forall op_typed opsB ∧ zlen opsB = zlen opsA) as [HopsB HnB].
  { unfold opsA, opsB in *. rewrite !Forall_app, !Forall_cons in *. split; [tauto|zlia]. }
  assert (id_room s (length opsA + 0) ∧ id_room s (length opsB + 0)) as [RA RB].
  { pose proof (sim_window_range _ _ Hsim). unfold id_room, zlen in *. rewrite H1. lia. }
  destruct (sim_run opsA s _ 0 Hsim Hops RA) as (_ & -> & _).
  destruct (sim_run opsB s _ 0 Hsim HopsB RB) as (_ & -> & _).
  unfold opsA, opsB. generalize (specInit s). clear -Hne Hlen. revert outs Hlen.
  induction ops1 as [|op ops1 IH]; intros [|o outs] Hlen a; try done.
  - cbn [app specRun specStep].
    pose proof (specSubmit_swap a p1 f1 pl1 p2 f2 pl2 Hne) as (He & R2 & R1).
    destruct (specSubmit a p1 f1 pl1) as [a1 r1], (specSubmit a p2 f2 pl2) as [a2 r2].
    cbn [fst snd] in *.
    destruct (specSubmit a1 p2 f2 pl2) as [b1 r2'], (specSubmit a2 p1 f1 pl1) as [b2 r1'].
    cbn [fst snd] in *. subst. pose proof (specRun_equiv ops2 _ _ He) as Hr.
    destruct (specRun b1 ops2), (specRun b2 ops2). cbn in *. subst. by intros [= <- <- <-].
  - cbn [app specRun]. destruct (specStep a op) as [a1 o1']. specialize (IH outs ltac:(by injection Hlen) a1).
    destruct (specRun a1 _), (specRun a1 _). cbn in *. intros [= <- E]. by rewrite IH.
Qed.

Example seats_commute_witness :
  snd (run sample_seq ([OSubmit 5 1 [1]] ++ OSubmit 8 2 [2] :: OSubmit 3 1 [3] :: [OAdvance; OAdvance])) =
  [RSubmit (Ok 1)] ++ RSubmit (Ok 2) :: RSubmit (Ok 1) ::
  [RFrame (mkFrame 1 [mkInput 3 [3]; mkInput 5 [1]]); RFrame (mkFrame 2 [mkInput 8 [2]])].
Proof.
  apply (seats_commute sample_config sample_seq [OSubmit 5 1 [1]] 3 1 [3] 8 2 [2] [OAdvance; OAdvance]);
    [by_compute|reflexivity|lia|by_compute|by_compute|reflexivity|vm_compute; reflexivity].
Defined.
