(* ===== verification/LockHistory.v ===== *)
(** * The frame history (history.go)

    A contiguous run of retained frames.  The slice capacity, which decides
    when a trimmed history is copied into a smaller array, is part of the
    state; the growth policy of Go's [append] belongs to the runtime and is a
    parameter, of which only the documented guarantee (the new capacity is
    enough) is used. *)

From S2P Require Import Prelude Bytes LockTypes.

Record History : Type := mkHistory {
  hFirst : FrameID;
  hFrames : list Frame;
  hCap : Z;                (* cap(h.frames) *)
  hRetained : Z }.         (* retainedCapacity *)

Section History.
(** Capacity after [append] on a slice of the given capacity that now needs
    the given length, when it has to grow. *)
Variable grow : Z → Z → Z.
Hypothesis grow_enough : ∀ cap need, need ≤ grow cap need.

Definition NewHistory : History := mkHistory 0 [] 0 0.

(** [Append]; [None] is the panic on an out-of-sequence frame. *)
Definition Append (h : History) (frame : Frame) : option History :=
  let n := zlen (hFrames h) in
  let bad := negb (n =? 0) && negb (fID frame =? u32 (hFirst h + u32 n)) in
  if bad then None
  else
    let first := if n =? 0 then fID frame else hFirst h in
    let grows := n =? hCap h in
    let cap := if grows then grow (hCap h) (n + 1) else hCap h in
    Some (mkHistory first (hFrames h ++ [frame]) cap (if grows then cap else hRetained h)).

Definition Latest (h : History) : FrameID :=
  if zlen (hFrames h) =? 0 then 0 else u32 (hFirst h + u32 (zlen (hFrames h)) - 1).

Definition Len (h : History) : Z := zlen (hFrames h).

Definition FirstID (h : History) : FrameID :=
  if zlen (hFrames h) =? 0 then 0 else hFirst h.

Definition start (h : History) : FrameID := Z.max (hFirst h) 1.

Definition TrimBefore (h : History) (keep : FrameID) : History :=
  if (zlen (hFrames h) =? 0) || (keep <=? hFirst h) then h
  else
    let offset := Z.min (u32 (keep - hFirst h)) (zlen (hFrames h)) in
    let remaining := zdrop offset (hFrames h) in
    let first := u32 (hFirst h + u32 offset) in
    if zlen remaining =? 0 then mkHistory first [] 0 0
    else if Z.max 256 (2 * zlen remaining) <? hRetained h then
      let cap := grow 0 (zlen remaining) in mkHistory first remaining cap cap
    else mkHistory first remaining (hCap h - offset) (hRetained h).

Definition ReadRange (h : History) (from : FrameID) (limit : Z) : list Frame :=
  if (zlen (hFrames h) =? 0) || (limit <=? 0) then []
  else
    let from := if from <? hFirst h then hFirst h else from in
    let offset := u32 (from - hFirst h) in
    if zlen (hFrames h) <=? offset then []
    else
      let end_ := offset + Z.min limit (zlen (hFrames h) - offset) in
      ztake (end_ - offset) (zdrop offset (hFrames h)).

Definition Replay (h : History) : list Frame := hFrames h.

(** ** The abstraction: frame [first + i] sits at index [i], and the ids and
    the next id are uint32. *)
Definition hist_ok (h : History) : Prop :=
  0 ≤ hFirst h ∧ hFirst h + zlen (hFrames h) ≤ MaxUint32 ∧
  (∀ i f, hFrames h !! i = Some f → fID f = hFirst h + Z.of_nat i) ∧
  zlen (hFrames h) ≤ hCap h ≤ hRetained h.

(** The retained frames with id at least [k]. *)
Definition framesFrom (fs : list Frame) (k : Z) : list Frame := filter (λ f, k ≤ fID f) fs.

Lemma framesFrom_drop fs : ∀ first k,
  (∀ i f, fs !! i = Some f → fID f = first + Z.of_nat i) → first ≤ k →
  framesFrom fs k = drop (Z.to_nat (k - first)) fs.
Proof.
  induction fs as [|f fs IH]; intros first k Hid Hk; [by rewrite drop_nil|].
  assert (fID f = first) as Hf by (rewrite (Hid 0%nat f eq_refl); lia).
  assert (∀ i g, fs !! i = Some g → fID g = (first + 1) + Z.of_nat i) as Hid'.
  { intros i g Hg. rewrite (Hid (S i) g Hg). lia. }
  unfold framesFrom in *. destruct (decide (first < k)).
  - rewrite filter_cons_False by lia. rewrite (IH (first + 1) k Hid') by lia.
    by replace (Z.to_nat (k - first)) with (S (Z.to_nat (k - (first + 1)))) by lia.
  - replace k with first by lia. rewrite Z.sub_diag. apply filter_all.
    apply Forall_lookup_2. intros i g Hg. rewrite (Hid i g Hg). lia.
Qed.

Lemma framesFrom_below fs first k :
  (∀ i f, fs !! i = Some f → fID f = first + Z.of_nat i) → k ≤ first → framesFrom fs k = fs.
Proof.
  intros Hid Hk. apply filter_all, Forall_lookup_2. intros i f Hf. rewrite (Hid i f Hf). lia.
Qed.

Lemma NewHistory_ok : hist_ok NewHistory.
Proof. unfold hist_ok. cbn [hFirst hFrames hCap hRetained]. split_and!; try done. Qed.

(** The frame before the next one, 0 for a history that was never appended to. *)
Lemma append_spec h f :
  hist_ok h → 0 ≤ fID f < MaxUint32 →
  match Append h f with
  | Some h' => hist_ok h' ∧ hFrames h' = hFrames h ++ [f] ∧
               hFirst h' = (if zlen (hFrames h) =? 0 then fID f else hFirst h) ∧
               (hFrames h ≠ [] → fID f = hFirst h + zlen (hFrames h))
  | None => hFrames h ≠ [] ∧ fID f ≠ hFirst h + zlen (hFrames h)
  end.
Proof.
  intros (H0 & Hmax & Hid & Hcap) Hf. unfold Append.
  pose proof (zlen_nonneg (hFrames h)). pose proof (grow_enough (hCap h) (zlen (hFrames h) + 1)).
  assert (u32 (hFirst h + u32 (zlen (hFrames h))) = hFirst h + zlen (hFrames h)) as ->.
  { rewrite (u32_small (zlen _)) by (unfold_int; lia). apply u32_small. unfold_int. lia. }
  assert (zlen (hFrames h) = 0 ↔ hFrames h = []) as Hnil
    by (split; [apply zlen_zero_nil | by intros ->]).
  destruct (Z.eqb_spec (zlen (hFrames h)) 0) as [Hz|Hz]; cbn [negb andb].
  - split; [|by split_and!; naive_solver].
    pose proof (proj1 Hnil Hz) as Hn. rewrite Hz in *. rewrite Hn. cbn [app].
    unfold hist_ok. cbn [hFirst hFrames hCap hRetained]. change (zlen [f]) with 1.
    split_and!; try lia.
    + intros [|i] g Hg; [injection Hg as <-; lia|done].
    + destruct (Z.eqb_spec 0 (hCap h)); lia.
    + destruct (Z.eqb_spec 0 (hCap h)); lia.
  - destruct (Z.eqb_spec (fID f) (hFirst h + zlen (hFrames h))) as [E|E]; cbn [negb].
    2:{ split; [naive_solver|done]. }
    split; [|done]. unfold hist_ok. cbn [hFirst hFrames hCap hRetained]. rewrite zlen_app. change (zlen [f]) with 1.
    split_and!; try lia.
    + intros i g. rewrite lookup_app_Some. intros [Hg|[Hi Hg]]; [by apply Hid|].
      assert (i - length (hFrames h) = 0)%nat as Hi0.
      { apply lookup_lt_Some in Hg. cbn in Hg. lia. }
      rewrite Hi0 in Hg. injection Hg as <-. rewrite E. unfold zlen. lia.
    + destruct (Z.eqb_spec (zlen (hFrames h)) (hCap h)); lia.
    + destruct (Z.eqb_spec (zlen (hFrames h)) (hCap h)); lia.
Qed.

Lemma trim_spec h keep :
  hist_ok h → is_u32 keep →
  let h' := TrimBefore h keep in
  hist_ok h' ∧ hFrames h' = framesFrom (hFrames h) keep ∧
  hFirst h' + zlen (hFrames h') = hFirst h + zlen (hFrames h) ∧
  (hFrames h ≠ [] → hFirst h' = Z.max (hFirst h) (Z.min keep (hFirst h + zlen (hFrames h)))) ∧
  (hFrames h = [] → hFirst h' = hFirst h) ∧
  (h' = h ∨ hRetained h' ≤ Z.max 256 (2 * zlen (hFrames h')) ∨
   hRetained h' = grow 0 (zlen (hFrames h'))).
Proof.
  intros Hok Hk. pose proof Hok as (H0 & Hmax & Hid & Hcap).
  pose proof (zlen_nonneg (hFrames h)).
  assert (zlen (hFrames h) = 0 ↔ hFrames h = []) as Hnil
    by (split; [apply zlen_zero_nil | by intros ->]).
  intros h'. subst h'. unfold TrimBefore.
  destruct ((zlen (hFrames h) =? 0) || (keep <=? hFirst h)) eqn:Hg.
  { to_prop. split; [done|]. split; [|split_and!; [done| |done|by left]].
    - destruct Hg as [Hg|Hg]; [apply Hnil in Hg; by rewrite Hg|].
      symmetry. by apply (framesFrom_below _ (hFirst h)).
    - intros Hne. destruct Hg as [Hg|Hg]; [tauto|lia]. }
  to_prop. destruct Hg as [Hg1 Hg2]. rewrite (u32_small (keep - hFirst h)) by (unfold_int; lia).
  set (offset := Z.min (keep - hFirst h) (zlen (hFrames h))).
  assert (u32 (hFirst h + u32 offset) = hFirst h + offset) as ->.
  { rewrite (u32_small offset) by (unfold_int; lia). apply u32_small. unfold_int. lia. }
  assert (zdrop offset (hFrames h) = framesFrom (hFrames h) keep) as Hrem.
  { rewrite (framesFrom_drop _ (hFirst h)) by (done || lia). unfold zdrop, offset.
    destruct (Z.min_spec (keep - hFirst h) (zlen (hFrames h))) as [[_ ->]|[? ->]]; [done|].
    rewrite !drop_ge; [done|unfold zlen in *; lia|unfold zlen in *; lia]. }
  assert (zlen (zdrop offset (hFrames h)) = zlen (hFrames h) - offset) as Hlen
    by (apply zlen_zdrop; lia).
  assert (∀ i f, zdrop offset (hFrames h) !! i = Some f → fID f = (hFirst h + offset) + Z.of_nat i) as Hid'.
  { intros i f. unfold zdrop. rewrite lookup_drop. intros Hf. rewrite (Hid _ _ Hf). lia. }
  assert (∀ first cap ret, first = hFirst h + offset →
    zlen (zdrop offset (hFrames h)) ≤ cap ≤ ret →
    hist_ok (mkHistory first (zdrop offset (hFrames h)) cap ret)) as Hmk.
  { intros first cap ret -> Hc. unfold hist_ok. cbn [hFirst hFrames hCap hRetained]. split_and!; (done || lia). }
  pose proof (grow_enough 0 (zlen (zdrop offset (hFrames h)))).
  destruct (Z.eqb_spec (zlen (zdrop offset (hFrames h))) 0) as [Hz|Hz];
    [|destruct (Z.ltb_spec (Z.max 256 (2 * zlen (zdrop offset (hFrames h)))) (hRetained h))];
    cbn [hFrames hFirst hRetained].
  - pose proof (zlen_zero_nil _ Hz) as Hn. rewrite Hn in *.
    split; [apply Hmk; [done|change (zlen []) with 0; lia]|]. split; [done|].
    change (zlen (@nil Frame)) with 0 in *.
    split_and!; [lia|lia|tauto|right; left; lia].
  - split; [apply Hmk; [done|lia]|]. split_and!; [done|lia|lia|tauto|by right; right].
  - split; [apply Hmk; [done|lia]|]. split_and!; [done|lia|lia|tauto|right; left; lia].
Qed.

Lemma read_spec h from limit :
  hist_ok h → is_u32 from →
  ReadRange h from limit = take (Z.to_nat limit) (framesFrom (hFrames h) from).
Proof.
  intros (H0 & Hmax & Hid & _) Hf. unfold ReadRange. pose proof (zlen_nonneg (hFrames h)).
  destruct (Z.eqb_spec (zlen (hFrames h)) 0) as [Hz|Hz]; cbn [orb].
  { apply zlen_zero_nil in Hz. unfold framesFrom. by rewrite Hz, filter_nil, take_nil. }
  destruct (Z.leb_spec limit 0).
  { by replace (Z.to_nat limit) with 0%nat by lia. }
  set (from' := if from <? hFirst h then hFirst h else from).
  assert (from' = Z.max from (hFirst h)) as Hfrom.
  { unfold from'. destruct (Z.ltb_spec from (hFirst h)); lia. }
  rewrite (u32_small (from' - hFirst h)) by (unfold_int; lia).
  assert (framesFrom (hFrames h) from = drop (Z.to_nat (from' - hFirst h)) (hFrames h)) as ->.
  { destruct (Z.le_gt_cases (hFirst h) from).
    - rewrite (framesFrom_drop _ (hFirst h)) by done. f_equal. lia.
    - rewrite (framesFrom_below _ (hFirst h)) by (done || lia).
      by replace (Z.to_nat (from' - hFirst h)) with 0%nat by lia. }
  destruct (Z.leb_spec (zlen (hFrames h)) (from' - hFirst h)).
  { rewrite drop_ge, take_nil by (unfold zlen in *; lia). done. }
  unfold ztake, zdrop.
  destruct (Z.min_spec limit (zlen (hFrames h) - (from' - hFirst h))) as [[? ->]|[? ->]].
  - f_equal. lia.
  - rewrite !take_ge; [done|rewrite length_drop; unfold zlen in *; lia..].
Qed.

(** ** Runs *)
Inductive HistOp : Type := HAppend (f : Frame) | HTrim (keep : FrameID).

Definition histStep (h : History) (op : HistOp) : option History :=
  match op with HAppend f => Append h f | HTrim keep => Some (TrimBefore h keep) end.

Fixpoint histRun (h : History) (ops : list HistOp) : option History :=
  match ops with
  | [] => Some h
  | op :: ops' => match histStep h op with Some h' => histRun h' ops' | None => None end
  end.

Definition histop_typed (op : HistOp) : Prop :=
  match op with HAppend f => 0 ≤ fID f < MaxUint32 | HTrim keep => is_u32 keep end.

Lemma histStep_ok h op h' : hist_ok h → histop_typed op → histStep h op = Some h' → hist_ok h'.
Proof.
  intros Hok Hop. destruct op as [f|keep]; cbn.
  - intros E. pose proof (append_spec h f Hok Hop) as H. rewrite E in H. tauto.
  - intros [= <-]. by apply trim_spec.
Qed.

Lemma histRun_ok ops : ∀ h h',
  hist_ok h → Forall histop_typed ops → histRun h ops = Some h' → hist_ok h'.
Proof.
  induction ops as [|op ops IH]; intros h h' Hok Hops; cbn; [by intros [= <-]|].
  apply Forall_cons in Hops as [Hop Hops]. destruct (histStep h op) eqn:E; [|done].
  intros ?. eapply IH; [|done|done]. by eapply histStep_ok.
Qed.

Lemma framesFrom_twice fs k1 k2 : framesFrom (framesFrom fs k1) k2 = framesFrom fs (Z.max k1 k2).
Proof. unfold framesFrom. rewrite list_filter_filter. apply list_filter_iff. intros f. lia. Qed.

(** Catch-up reads are exact: after any appends and trims, a further
    trim at [keep] followed by [ReadRange from limit] returns, in order and
    without a gap, the first [limit] frames ever retained whose id is at
    least both [keep] and [from]; trimming never moves the end of the
    history nor the servable start backwards. *)
Theorem history_read_after_trim ops h keep from limit :
  Forall histop_typed ops → histRun NewHistory ops = Some h →
  is_u32 keep → is_u32 from →
  let h' := TrimBefore h keep in
  ReadRange h' from limit = take (Z.to_nat limit) (framesFrom (hFrames h) (Z.max keep from)) ∧
  (∀ i f, hFrames h' !! i = Some f → fID f = hFirst h' + Z.of_nat i) ∧
  hFirst h' + Len h' = hFirst h + Len h ∧ start h ≤ start h'.
Proof.
  intros Hops Hr Hk Hf h'. pose proof (histRun_ok ops _ _ NewHistory_ok Hops Hr) as Hok.
  destruct (trim_spec h keep Hok Hk) as (Hok' & Hfr & Hend & Hfirst & Hnil & _). fold h' in Hok', Hfr, Hend, Hfirst, Hnil.
  split; [by rewrite read_spec, Hfr, framesFrom_twice|]. split; [apply Hok'|]. split; [done|].
  unfold start. destruct (decide (hFrames h = [])) as [Hn|Hn]; [rewrite Hnil by done; lia|].
  rewrite Hfirst by done. lia.
Qed.

(** The history only ever grows at its end: [Append] panics exactly on
    a frame that is not the successor of the newest retained one (an empty
    history takes any frame), and otherwise stores the frame as the newest
    one; the retained capacity never exceeds what a copy of twice the
    retained frames would need after a trim. *)
Theorem history_append_trim_capacity ops h f keep :
  Forall histop_typed ops → histRun NewHistory ops = Some h →
  0 ≤ fID f < MaxUint32 → is_u32 keep →
  (Append h f = None ↔ Len h ≠ 0 ∧ fID f ≠ hFirst h + Len h) ∧
  (∀ h', Append h f = Some h' →
     hFrames h' = hFrames h ++ [f] ∧ Latest h' = fID f ∧ Len h' = Len h + 1) ∧
  (let h' := TrimBefore h keep in
   h' = h ∨ hRetained h' ≤ Z.max 256 (2 * Len h') ∨ hRetained h' = grow 0 (Len h')).
Proof.
  intros Hops Hr Hf Hk. pose proof (histRun_ok ops _ _ NewHistory_ok Hops Hr) as Hok.
  pose proof (append_spec h f Hok Hf) as Ha. unfold Len.
  assert (zlen (hFrames h) = 0 ↔ hFrames h = []) as Hnil
    by (split; [apply zlen_zero_nil | by intros ->]).
  split; [|split; [|by apply trim_spec]].
  - destruct (Append h f) as [h'|]; [|naive_solver]. split; [done|].
    destruct Ha as (_ & _ & _ & Hid). intros [? ?]. exfalso. naive_solver.
  - intros h' E. rewrite E in Ha. destruct Ha as ((_ & Hmax & _) & Hfr & Hfst & Hid).
    split; [done|]. rewrite Hfr, zlen_app in Hmax. change (zlen [f]) with 1 in Hmax.
    unfold Latest. rewrite Hfr, zlen_app. change (zlen [f]) with 1.
    pose proof (zlen_nonneg (hFrames h)). split; [|done].
    destruct (Z.eqb_spec (zlen (hFrames h) + 1) 0); [lia|].
    assert (0 ≤ hFirst h') by (rewrite Hfst; destruct Hok; case_match; lia).
    rewrite (u32_small (_ + 1)) by (unfold_int; lia). rewrite u32_small by (unfold_int; lia).
    rewrite Hfst. destruct (Z.eqb_spec (zlen (hFrames h)) 0) as [Hz|Hz].
    + lia.
    + rewrite Hid by naive_solver. lia.
Qed.
End History.

(** Doubling, as a concrete growth policy. *)
Definition double_grow (cap need : Z) : Z := Z.max (2 * cap) need.

Lemma double_grow_enough cap need : need ≤ double_grow cap need.
Proof. unfold double_grow. lia. Qed.

Definition sample_history : History :=
  mkHistory 2 [mkFrame 2 []; mkFrame 3 []; mkFrame 4 []] 3 4.

Definition sample_hist_ops : list HistOp :=
  [HAppend (mkFrame 1 []); HAppend (mkFrame 2 []); HAppend (mkFrame 3 []); HAppend (mkFrame 4 []); HTrim 2].

#[export] Instance histop_typed_dec op : Decision (histop_typed op).
Proof. destruct op; cbn; apply _. Defined.

Example history_read_after_trim_witness :
  let h' := TrimBefore double_grow sample_history 3 in
  ReadRange h' 1 5 = take 5 (framesFrom (hFrames sample_history) 3) ∧
  (∀ i f, hFrames h' !! i = Some f → fID f = hFirst h' + Z.of_nat i) ∧
  hFirst h' + Len h' = hFirst sample_history + Len sample_history ∧ start sample_history ≤ start h'.
Proof.
  apply (history_read_after_trim double_grow double_grow_enough sample_hist_ops sample_history 3 1 5);
    [by_compute|reflexivity|by_compute|by_compute].
Defined.

Example history_append_trim_capacity_witness :
  (Append double_grow sample_history (mkFrame 9 []) = None ↔
     Len sample_history ≠ 0 ∧ 9 ≠ hFirst sample_history + Len sample_history) ∧
  (∀ h', Append double_grow sample_history (mkFrame 9 []) = Some h' →
     hFrames h' = hFrames sample_history ++ [mkFrame 9 []] ∧ Latest h' = 9 ∧ Len h' = Len sample_history + 1) ∧
  (let h' := TrimBefore double_grow sample_history 4 in
   h' = sample_history ∨ hRetained h' ≤ Z.max 256 (2 * Len h') ∨ hRetained h' = double_grow 0 (Len h')).
Proof.
  apply (history_append_trim_capacity double_grow double_grow_enough sample_hist_ops sample_history (mkFrame 9 []) 4);
    [by_compute|reflexivity|by_compute|by_compute].
Defined.
