(* ===== verification/LockDesync.v ===== *)
(** * Desync detection (desync.go)

    Majority voting on client-reported hashes.  Go iterates its maps in an
    unspecified order: each loop is a function of the visited list, the code
    runs it on some order of the map's entries, and the verdict is proved
    independent of that order. *)

From S2P Require Import Prelude Bytes LockTypes.

Record DesyncVerdict : Type := mkVerdict {
  vFrame : FrameID; vMajority : Z; vOutliers : list PlayerID; vNoMajority : bool }.

#[export] Instance DesyncVerdict_eq_dec : EqDecision DesyncVerdict.
Proof. solve_decision. Defined.

Record DesyncDetector : Type := mkDetector {
  quorum : Z;
  seats : Z;
  reports : gmap Z (gmap Z Z);   (* frame -> player -> hash *)
  trimmedBefore : FrameID }.

Definition NewDesyncDetector (quorum : Z) : DesyncDetector :=
  mkDetector (if quorum <=? 0 then 2 else quorum) 0 ∅ 0.

(** [counts[hash]++], the absent count being 0. *)
Definition bump (counts : gmap Z Z) (hash : Z) : gmap Z Z :=
  <[hash := default 0 (counts !! hash) + 1]> counts.

(** The counting loop of [Report] over the visited entries: the counts and the
    best count seen. *)
Fixpoint bestLoop (visited : list (Z * Z)) (counts : gmap Z Z) (best : Z) : gmap Z Z * Z :=
  match visited with
  | [] => (counts, best)
  | (_, h) :: visited' =>
      let counts := bump counts h in
      let c := default 0 (counts !! h) in
      bestLoop visited' counts (if best <? c then c else best)
  end.

(** The counting loop of [judge]. *)
Definition countLoop (visited : list (Z * Z)) : gmap Z Z :=
  fold_left (λ counts e, bump counts e.2) visited ∅.

(** The majority loop of [judge] over (hash, count) entries. *)
Fixpoint majorityLoop (visited : list (Z * Z)) (majority majorityCount : Z) : Z * Z :=
  match visited with
  | [] => (majority, majorityCount)
  | (hash, count) :: visited' =>
      if (majorityCount <? count) || ((count =? majorityCount) && (hash <? majority))
      then majorityLoop visited' hash count
      else majorityLoop visited' majority majorityCount
  end.

Definition outlierLoop (visited : list (Z * Z)) (majority : Z) : list PlayerID :=
  map fst (filter (λ e, e.2 ≠ majority) visited).

Definition Trim (d : DesyncDetector) (before : FrameID) : DesyncDetector :=
  mkDetector (quorum d) (seats d)
    (filter (λ e, ¬ e.1 < before) (reports d))
    (if trimmedBefore d <? before then before else trimmedBefore d).

Section Visit.
(** The order in which loop number [n] ranges over a map. *)
Variable visit : nat → gmap Z Z → list (Z * Z).

Definition judge (frame : FrameID) (rs : gmap Z Z) : DesyncVerdict :=
  let counts := countLoop (visit 0 rs) in
  let '(majority, _) := majorityLoop (visit 1 counts) 0 0 in
  mkVerdict frame majority (merge_sort Z.le (outlierLoop (visit 2 rs) majority)) false.

Definition noMajority (frame : FrameID) (rs : gmap Z Z) : DesyncVerdict :=
  mkVerdict frame 0 (merge_sort Z.le (map fst (visit 3 rs))) true.

(** [Report]; the verdict is [None] when Go returns [false]. *)
Definition Report (d : DesyncDetector) (player : PlayerID) (frame : FrameID) (hash : Z)
    : DesyncDetector * option DesyncVerdict :=
  if frame <? trimmedBefore d then (d, None)
  else
    let rs := default ∅ (reports d !! frame) in
    let rs := match rs !! player with Some _ => rs | None => <[player := hash]> rs end in
    let d' := mkDetector (quorum d) (seats d) (<[frame := rs]> (reports d)) (trimmedBefore d) in
    let '(counts, best) := bestLoop (visit 4 rs) ∅ 0 in
    if best <? quorum d then
      if (0 <? seats d) && (seats d <=? Z.of_nat (size rs)) && (1 <? Z.of_nat (size counts))
      then (d', Some (noMajority frame rs))
      else (d', None)
    else (d', Some (judge frame rs)).
End Visit.

(** ** The reference: how many players reported a hash *)

Definition votes (rs : gmap Z Z) (h : Z) : Z :=
  zlen (filter (λ e, e.2 = h) (map_to_list rs)).

(** The reference ruling on a set of reports, stated without loops. *)
Definition is_majority (rs : gmap Z Z) (m : Z) : Prop :=
  0 < votes rs m ∧ ∀ h, votes rs h ≤ votes rs m ∧ (votes rs h = votes rs m → m ≤ h).

Lemma countLoop_lookup visited h :
  default 0 (countLoop visited !! h) = zlen (filter (λ e, e.2 = h) visited) ∧
  (h ∈ dom (countLoop visited) ↔ ∃ p, (p, h) ∈ visited).
Proof.
  unfold countLoop. induction visited as [|[p x] l IH] using rev_ind.
  { cbn. rewrite dom_empty_L, lookup_empty. split; [done|]. set_solver. }
  rewrite fold_left_app, filter_app, zlen_app. cbn [fold_left snd]. unfold bump in *.
  destruct IH as [IH1 IH2]. rewrite filter_cons, filter_nil. cbn [snd]. split.
  - destruct (decide (x = h)) as [->|].
    + rewrite lookup_insert_eq. cbn [default]. rewrite IH1. done.
    + rewrite lookup_insert_ne, IH1 by done. change (zlen (@nil (Z*Z))) with 0. lia.
  - rewrite dom_insert_L, elem_of_union, elem_of_singleton, IH2. setoid_rewrite elem_of_app.
    setoid_rewrite list_elem_of_singleton. naive_solver.
Qed.

Lemma bestLoop_counts visited : ∀ counts best,
  fst (bestLoop visited counts best) = fold_left (λ counts e, bump counts e.2) visited counts.
Proof.
  induction visited as [|[p h] l IH]; intros counts best; [done|]. cbn. by rewrite IH.
Qed.

(** The best count seen is the largest count. *)
Lemma bestLoop_best visited : ∀ pre best,
  (∀ h, zlen (filter (λ e, e.2 = h) pre) ≤ best) →
  (best = 0 ∨ ∃ h, zlen (filter (λ e, e.2 = h) pre) = best) →
  let b := snd (bestLoop visited (countLoop pre) best) in
  (∀ h, zlen (filter (λ e, e.2 = h) (pre ++ visited)) ≤ b) ∧
  (b = 0 ∨ ∃ h, zlen (filter (λ e, e.2 = h) (pre ++ visited)) = b).
Proof.
  induction visited as [|[p x] l IH]; intros pre best Hle Hex.
  { by rewrite app_nil_r. }
  cbn [bestLoop]. assert (bump (countLoop pre) x = countLoop (pre ++ [(p, x)])) as ->.
  { unfold countLoop. by rewrite fold_left_app. }
  replace (pre ++ (p, x) :: l) with ((pre ++ [(p, x)]) ++ l) by by rewrite <- app_assoc.
  rewrite (proj1 (countLoop_lookup _ x)).
  assert (∀ h, zlen (filter (λ e, e.2 = h) (pre ++ [(p, x)])) =
               zlen (filter (λ e, e.2 = h) pre) + (if decide (x = h) then 1 else 0)) as Hc.
  { intros h. rewrite filter_app, zlen_app, filter_cons, filter_nil. cbn [snd]. by case_decide. }
  apply IH.
  - intros h. pose proof (Hle h). pose proof (Hle x). rewrite !Hc, (decide_True (P := x = x)) by done.
    destruct (Z.ltb_spec best (zlen (filter (λ e, e.2 = x) pre) + 1));
      destruct (decide (x = h)) as [->|]; lia.
  - destruct (Z.ltb_spec best (zlen (filter (λ e, e.2 = x) (pre ++ [(p, x)])))); [right; by exists x|].
    destruct Hex as [?|[h Hh]]; [by left|]. right. exists h.
    rewrite Hc in *. rewrite decide_True in H by done. case_decide; [subst; lia|lia].
Qed.

Lemma votes_perm rs l h : l ≡ₚ map_to_list rs → zlen (filter (λ e, e.2 = h) l) = votes rs h.
Proof. intros H. unfold votes, zlen. by rewrite H. Qed.

Lemma votes_pos rs h : 0 < votes rs h ↔ ∃ p, rs !! p = Some h.
Proof.
  unfold votes. split.
  - intros H. destruct (filter (λ e, e.2 = h) (map_to_list rs)) as [|[p x] l] eqn:E; [done|].
    assert ((p, x) ∈ filter (λ e, e.2 = h) (map_to_list rs)) as Hin by (rewrite E; left).
    apply list_elem_of_filter in Hin as [<- Hin]. apply elem_of_map_to_list in Hin. by exists p.
  - intros [p Hp]. assert ((p, h) ∈ filter (λ e, e.2 = h) (map_to_list rs)) as Hin.
    { apply list_elem_of_filter. split; [done|]. by apply elem_of_map_to_list. }
    apply list_elem_of_In in Hin. destruct (filter _ _); [done|]. zlia.
Qed.

Lemma votes_disjoint rs h k : h ≠ k → votes rs h + votes rs k ≤ Z.of_nat (size rs).
Proof.
  intros Hne. unfold votes. rewrite <- length_map_to_list.
  change (Z.of_nat (length (map_to_list rs))) with (zlen (map_to_list rs)).
  induction (map_to_list rs) as [|[p x] l IH]; [done|].
  rewrite !filter_cons, zlen_cons. cbn [snd]. destruct (decide (x = h)), (decide (x = k)); subst; zlia.
Qed.

Lemma votes_mono rs rs' h : rs ⊆ rs' → votes rs h ≤ votes rs' h.
Proof.
  intros Hsub. unfold votes, zlen. apply inj_le. apply submseteq_length, NoDup_submseteq.
  - apply NoDup_filter, NoDup_map_to_list.
  - intros [p x]. rewrite !list_elem_of_filter, !elem_of_map_to_list.
    intros [? Hp]. split; [done|]. by eapply lookup_weaken.
Qed.

Lemma is_majority_unique rs m m' : is_majority rs m → is_majority rs m' → m = m'.
Proof.
  intros [_ H] [_ H']. pose proof (H m'). pose proof (H' m). lia.
Qed.

Lemma majorityLoop_spec visited : ∀ m c,
  let '(m', c') := majorityLoop visited m c in
  ((m', c') = (m, c) ∨ (m', c') ∈ visited) ∧ (c < c' ∨ c = c' ∧ m' ≤ m) ∧
  (∀ h n, (h, n) ∈ visited → n ≤ c' ∧ (n = c' → m' ≤ h)).
Proof.
  induction visited as [|[h n] l IH]; intros m c; cbn [majorityLoop].
  { split; [by left|]. split; [right; lia|]. intros h n Hin. by apply not_elem_of_nil in Hin. }
  destruct ((c <? n) || ((n =? c) && (h <? m))) eqn:E; to_prop;
    [specialize (IH h n)|specialize (IH m c)];
    destruct (majorityLoop l _ _) as [m' c'], IH as (Hin & Hc & Hall).
  - split; [right; destruct Hin as [->|?]; [left|by right]|]. split; [lia|].
    intros h' n' [[= -> ->]|?]%elem_of_cons; [lia|auto].
  - split; [destruct Hin as [->|?]; [by left|right; by right]|]. split; [done|].
    intros h' n' [[= -> ->]|?]%elem_of_cons; [lia|auto].
Qed.

Section Ruling.
Context (visit : nat → gmap Z Z → list (Z * Z)).
Context (visit_perm : ∀ n m, visit n m ≡ₚ map_to_list m).

(** The ruling loops compute the reference majority. *)
Lemma judge_majority frame rs :
  rs ≠ ∅ →
  let v := judge visit frame rs in
  is_majority rs (vMajority v) ∧ vFrame v = frame ∧ vNoMajority v = false ∧
  vOutliers v = merge_sort Z.le (outlierLoop (visit 2 rs) (vMajority v)).
Proof.
  intros Hne. unfold judge. set (counts := countLoop (visit 0 rs)).
  assert (∀ h, default 0 (counts !! h) = votes rs h) as Hc.
  { intros h. unfold counts. rewrite (proj1 (countLoop_lookup _ h)). by apply votes_perm. }
  assert (∀ h, h ∈ dom counts ↔ 0 < votes rs h) as Hd.
  { intros h. unfold counts. rewrite (proj2 (countLoop_lookup _ h)), votes_pos.
    setoid_rewrite visit_perm. by setoid_rewrite elem_of_map_to_list. }
  assert (∀ h n, (h, n) ∈ visit 1 counts ↔ n = votes rs h ∧ 0 < n) as Hv.
  { intros h n. rewrite visit_perm, elem_of_map_to_list. split.
    - intros Hn. specialize (Hc h). rewrite Hn in Hc. cbn in Hc. subst n. split; [done|].
      apply Hd, elem_of_dom. by eexists.
    - intros [-> Hp]. apply Hd, elem_of_dom in Hp as [n Hn]. specialize (Hc h).
      rewrite Hn in *. cbn in Hc. by subst. }
  pose proof (majorityLoop_spec (visit 1 counts) 0 0) as H.
  destruct (majorityLoop (visit 1 counts) 0 0) as [m c]. destruct H as (Hin & Hc0 & Hall).
  split; [|done]. cbn [vMajority].
  assert (0 < c) as Hpos.
  { apply map_choose in Hne as (p & h & Hp).
    assert (0 < votes rs h) as Hh by (apply votes_pos; eauto).
    destruct (Hall h (votes rs h)) as [? _]; [by apply Hv|lia]. }
  destruct Hin as [[= -> ->]|[Hmc _]%Hv]; [lia|]. subst c.
  split; [done|]. intros h. destruct (Z.le_gt_cases (votes rs h) 0).
  - split; lia.
  - apply Hall. by apply Hv.
Qed.

Lemma outlierLoop_elem rs m p :
  p ∈ merge_sort Z.le (outlierLoop (visit 2 rs) m) ↔ ∃ h, rs !! p = Some h ∧ h ≠ m.
Proof.
  rewrite merge_sort_Permutation. unfold outlierLoop. rewrite list_elem_of_fmap. split.
  - intros ([q h] & -> & [Hne Hin]%list_elem_of_filter). rewrite visit_perm in Hin.
    apply elem_of_map_to_list in Hin. by exists h.
  - intros (h & Hp & Hne). exists (p, h). split; [done|]. apply list_elem_of_filter.
    split; [done|]. rewrite visit_perm. by apply elem_of_map_to_list.
Qed.

Lemma bestLoop_spec rs :
  let '(counts, best) := bestLoop (visit 4 rs) ∅ 0 in
  (∀ h, votes rs h ≤ best) ∧ (best = 0 ∨ ∃ h, votes rs h = best) ∧
  (∀ h, h ∈ dom counts ↔ 0 < votes rs h).
Proof.
  pose proof (bestLoop_counts (visit 4 rs) ∅ 0) as Hc.
  pose proof (bestLoop_best (visit 4 rs) [] 0) as Hb. cbn [app] in Hb.
  change (countLoop []) with (∅ : gmap Z Z) in Hb. change (filter _ []) with (@nil (Z*Z)) in Hb.
  destruct (bestLoop (visit 4 rs) ∅ 0) as [counts best]. cbn [fst snd] in *.
  destruct Hb as [Hle Hex]; [intros; done|by left|].
  split; [|split].
  - intros h. rewrite <- (votes_perm rs (visit 4 rs)) by done. apply Hle.
  - destruct Hex as [?|[h Hh]]; [by left|]. right. exists h. by rewrite <- (votes_perm rs (visit 4 rs)).
  - intros h. change (fold_left _ (visit 4 rs) ∅) with (countLoop (visit 4 rs)) in Hc. rewrite Hc.
    rewrite (proj2 (countLoop_lookup _ h)), votes_pos.
    setoid_rewrite visit_perm. by setoid_rewrite elem_of_map_to_list.
Qed.
End Ruling.

(** The reports of the frame after a report: the first one of a player wins. *)
Definition firstReport (rs : gmap Z Z) (player : PlayerID) (hash : Z) : gmap Z Z :=
  match rs !! player with Some _ => rs | None => <[player := hash]> rs end.

Lemma firstReport_nonempty rs p h : firstReport rs p h ≠ ∅.
Proof.
  unfold firstReport. destruct (rs !! p) eqn:E; [|apply insert_non_empty].
  intros ->. by rewrite lookup_empty in E.
Qed.

Lemma firstReport_mono rs p h : rs ⊆ firstReport rs p h.
Proof.
  unfold firstReport. destruct (rs !! p) eqn:E; [done|]. by apply insert_subseteq.
Qed.

Definition two_hashes (rs : gmap Z Z) : Prop :=
  ∃ h k, h ≠ k ∧ 0 < votes rs h ∧ 0 < votes rs k.

Lemma size_two (counts : gmap Z Z) rs :
  (∀ h, h ∈ dom counts ↔ 0 < votes rs h) → (1 < Z.of_nat (size counts) ↔ two_hashes rs).
Proof.
  intros Hd. rewrite <- size_dom. unfold two_hashes. setoid_rewrite <- Hd. split.
  - intros Hs. destruct (size_pos_elem_of (dom counts)) as [h Hh]; [lia|].
    destruct (size_pos_elem_of (dom counts ∖ {[h]})) as [k Hk].
    { pose proof (size_difference (dom counts) {[h]} ltac:(set_solver)) as E.
      rewrite size_singleton in E. lia. }
    exists h, k. set_solver.
  - intros (h & k & Hne & Hh & Hk).
    assert (({[h; k]} : gset Z) ⊆ dom counts) as Hsub by set_solver.
    apply subseteq_size in Hsub. rewrite size_union, !size_singleton in Hsub by set_solver. lia.
Qed.

Section Report.
Context (visit : nat → gmap Z Z → list (Z * Z)).
Context (visit_perm : ∀ n m, visit n m ≡ₚ map_to_list m).

Lemma Report_trimmed d p f h : f < trimmedBefore d → Report visit d p f h = (d, None).
Proof. intros H. unfold Report. by rewrite (proj2 (Z.ltb_lt _ _) H). Qed.

(** [Report] on a live frame, by cases on the reference counts. *)
Lemma Report_cases d p f h :
  trimmedBefore d ≤ f →
  let rs := firstReport (default ∅ (reports d !! f)) p h in
  let d' := mkDetector (quorum d) (seats d) (<[f := rs]> (reports d)) (trimmedBefore d) in
  (Report visit d p f h = (d', Some (judge visit f rs)) ∧
     (quorum d ≤ 0 ∨ ∃ x, quorum d ≤ votes rs x)) ∨
  ((∀ x, votes rs x < quorum d) ∧
   ((Report visit d p f h = (d', Some (noMajority visit f rs)) ∧
       0 < seats d ≤ Z.of_nat (size rs) ∧ two_hashes rs) ∨
    (Report visit d p f h = (d', None) ∧
       ¬ (0 < seats d ≤ Z.of_nat (size rs) ∧ two_hashes rs)))).
Proof.
  intros Ht rs d'. unfold Report. rewrite (proj2 (Z.ltb_ge _ _) Ht).
  change (match default ∅ (reports d !! f) !! p with Some _ => _ | None => _ end) with rs.
  fold d'. pose proof (bestLoop_spec visit visit_perm rs) as Hb.
  destruct (bestLoop (visit 4 rs) ∅ 0) as [counts best]. destruct Hb as (Hle & Hex & Hd).
  pose proof (size_two counts rs Hd) as Htwo.
  destruct (Z.ltb_spec best (quorum d)).
  - right. split; [intros x; pose proof (Hle x); lia|].
    destruct ((0 <? seats d) && (seats d <=? Z.of_nat (size rs)) && (1 <? Z.of_nat (size counts))) eqn:E;
      to_prop; [left|right]; (split; [done|]); rewrite <- Htwo; lia.
  - left. split; [done|]. destruct Hex as [->|[x <-]]; eauto.
Qed.

(** The ruling is the majority rule: on a live frame the first report of
    a player is recorded and later ones ignored; a verdict names the hash
    with the most votes (the smallest on a tie) exactly when some hash has
    quorum, with the dissenting players as outliers in ascending order; when
    every seat has reported different hashes without quorum every seat is an
    outlier; in every other case there is no verdict.  A trimmed frame is
    never ruled again. *)
Theorem report_ruling d p f h :
  0 < quorum d →
  let rs := firstReport (default ∅ (reports d !! f)) p h in
  let '(d', v) := Report visit d p f h in
  if decide (f < trimmedBefore d) then d' = d ∧ v = None
  else
    reports d' = <[f := rs]> (reports d) ∧
    match v with
    | Some v =>
        vFrame v = f ∧ StronglySorted Z.le (vOutliers v) ∧
        if vNoMajority v then
          (∀ x, votes rs x < quorum d) ∧ 0 < seats d ≤ Z.of_nat (size rs) ∧ two_hashes rs ∧
          vMajority v = 0 ∧ (∀ q, q ∈ vOutliers v ↔ q ∈ dom rs)
        else
          quorum d ≤ votes rs (vMajority v) ∧ is_majority rs (vMajority v) ∧
          (∀ q, q ∈ vOutliers v ↔ ∃ x, rs !! q = Some x ∧ x ≠ vMajority v)
    | None =>
        (∀ x, votes rs x < quorum d) ∧ ¬ (0 < seats d ≤ Z.of_nat (size rs) ∧ two_hashes rs)
    end.
Proof.
  intros Hq rs. case_decide as Ht; [by rewrite Report_trimmed|]. apply Z.nlt_ge in Ht.
  assert (∀ l, StronglySorted Z.le (merge_sort Z.le l)) as Hsort.
  { intros l. apply StronglySorted_merge_sort; apply _. }
  pose proof (Report_cases d p f h Ht) as H. cbn zeta in H. fold rs in H.
  destruct H as [(-> & Hx)|(Hno & [(-> & Hs & Htwo)|(-> & Hn)])]; (split; [done|]).
  - destruct (judge_majority visit visit_perm f rs (firstReport_nonempty _ _ _)) as (Hm & -> & -> & ->).
    split; [done|]. split; [done|]. split; [|split; [done|]].
    + destruct Hx as [?|[x Hx]]; [lia|]. destruct Hm as [_ Hm]. pose proof (Hm x). lia.
    + intros q. by apply outlierLoop_elem.
  - unfold noMajority. cbn [vFrame vOutliers vNoMajority vMajority].
    do 2 (split; [done || apply Hsort|]). do 4 (split; [done|]). intros q. rewrite merge_sort_Permutation, list_elem_of_fmap.
    setoid_rewrite visit_perm. rewrite elem_of_dom. split.
    + intros ([q' x] & -> & Hin%elem_of_map_to_list). by eexists.
    + intros [x Hx]. exists (q, x). split; [done|]. by apply elem_of_map_to_list.
  - done.
Qed.
End Report.

Lemma merge_sort_perm l k : l ≡ₚ k → merge_sort Z.le l = merge_sort Z.le k.
Proof.
  intros H. apply (StronglySorted_unique Z.le).
  - apply StronglySorted_merge_sort; apply _.
  - apply StronglySorted_merge_sort; apply _.
  - by rewrite !merge_sort_Permutation.
Qed.

Lemma judge_order v1 v2 f rs :
  (∀ n m, v1 n m ≡ₚ map_to_list m) → (∀ n m, v2 n m ≡ₚ map_to_list m) →
  rs ≠ ∅ → judge v1 f rs = judge v2 f rs.
Proof.
  intros H1 H2 Hne.
  destruct (judge_majority v1 H1 f rs Hne) as (M1 & F1 & N1 & O1).
  destruct (judge_majority v2 H2 f rs Hne) as (M2 & F2 & N2 & O2).
  pose proof (is_majority_unique _ _ _ M1 M2) as Em.
  destruct (judge v1 f rs), (judge v2 f rs). cbn in *. subst. f_equal.
  apply merge_sort_perm. unfold outlierLoop. by rewrite H1, H2.
Qed.

(** The ruling does not depend on Go's map iteration order: any two
    orders of visiting the maps, chosen independently for every loop, leave the
    same state and return the same verdict. *)
Theorem report_order_independent v1 v2 d p f h :
  (∀ n m, v1 n m ≡ₚ map_to_list m) → (∀ n m, v2 n m ≡ₚ map_to_list m) →
  Report v1 d p f h = Report v2 d p f h.
Proof.
  intros H1 H2. destruct (decide (f < trimmedBefore d)) as [Ht|Ht%Z.nlt_ge].
  { by rewrite !Report_trimmed. }
  unfold Report. rewrite (proj2 (Z.ltb_ge _ _) Ht).
  change (match default ∅ (reports d !! f) !! p with Some _ => _ | None => _ end)
    with (firstReport (default ∅ (reports d !! f)) p h).
  set (rs := firstReport _ p h).
  rewrite (judge_order v1 v2) by (done || apply firstReport_nonempty).
  assert (noMajority v1 f rs = noMajority v2 f rs) as ->.
  { unfold noMajority. f_equal. apply merge_sort_perm. by rewrite H1, H2. }
  pose proof (bestLoop_spec v1 H1 rs) as B1. pose proof (bestLoop_spec v2 H2 rs) as B2.
  destruct (bestLoop (v1 4%nat rs) ∅ 0) as [c1 b1], (bestLoop (v2 4%nat rs) ∅ 0) as [c2 b2].
  destruct B1 as (L1 & E1 & D1), B2 as (L2 & E2 & D2).
  assert (b1 = b2) as ->.
  { assert (∀ x, 0 ≤ votes rs x) as Hpos by (intros x; apply zlen_nonneg).
    destruct E1 as [->|[x <-]], E2 as [->|[y <-]]; [done|..].
    - specialize (L1 y). specialize (Hpos y). lia.
    - specialize (L2 x). specialize (Hpos x). lia.
    - specialize (L1 y). specialize (L2 x). lia. }
  assert (size c1 = size c2) as ->; [|done].
  rewrite <- !size_dom. f_equal. apply set_eq. intros x. by rewrite D1, D2.
Qed.

(** Two different orders of the same maps. *)
Definition visit_fwd (n : nat) (m : gmap Z Z) : list (Z * Z) := map_to_list m.
Definition visit_bwd (n : nat) (m : gmap Z Z) : list (Z * Z) := reverse (map_to_list m).

Lemma visit_fwd_perm n m : visit_fwd n m ≡ₚ map_to_list m.
Proof. done. Qed.
Lemma visit_bwd_perm n m : visit_bwd n m ≡ₚ map_to_list m.
Proof. apply reverse_Permutation. Qed.

Definition sample_detector : DesyncDetector :=
  mkDetector 2 3 {[ 7 := {[ 0 := 11; 1 := 12 ]} ]} 5.

Example report_order_independent_witness :
  Report visit_bwd sample_detector 2 7 11 = Report visit_fwd sample_detector 2 7 11.
Proof. apply report_order_independent; [apply visit_bwd_perm | apply visit_fwd_perm]. Defined.

Example report_ruling_witness :
  let rs := firstReport {[ 0 := 11; 1 := 12 ]} 2 11 in
  let '(d', v) := Report visit_bwd sample_detector 2 7 11 in
  if decide (7 < 5) then d' = sample_detector ∧ v = None
  else
    reports d' = <[7 := rs]> (reports sample_detector) ∧
    match v with
    | Some v =>
        vFrame v = 7 ∧ StronglySorted Z.le (vOutliers v) ∧
        if vNoMajority v then
          (∀ x, votes rs x < 2) ∧ 0 < 3 ≤ Z.of_nat (size rs) ∧ two_hashes rs ∧
          vMajority v = 0 ∧ (∀ q, q ∈ vOutliers v ↔ q ∈ dom rs)
        else
          2 ≤ votes rs (vMajority v) ∧ is_majority rs (vMajority v) ∧
          (∀ q, q ∈ vOutliers v ↔ ∃ x, rs !! q = Some x ∧ x ≠ vMajority v)
    | None => (∀ x, votes rs x < 2) ∧ ¬ (0 < 3 ≤ Z.of_nat (size rs) ∧ two_hashes rs)
    end.
Proof. apply (report_ruling visit_bwd visit_bwd_perm sample_detector 2 7 11). reflexivity. Defined.

(** ** Verdicts over time *)

Inductive DesyncOp : Type :=
| DReport (player : PlayerID) (frame : FrameID) (hash : Z)
| DTrim (before : FrameID).

Section Runs.
Context (visit : nat → gmap Z Z → list (Z * Z)).
Context (visit_perm : ∀ n m, visit n m ≡ₚ map_to_list m).

Definition desyncStep (d : DesyncDetector) (op : DesyncOp) : DesyncDetector :=
  match op with
  | DReport p f h => fst (Report visit d p f h)
  | DTrim before => Trim d before
  end.

Definition desyncRun (d : DesyncDetector) (ops : list DesyncOp) : DesyncDetector :=
  fold_left desyncStep ops d.

(** The reports kept for a frame. *)
Definition kept (d : DesyncDetector) (f : FrameID) : gmap Z Z := default ∅ (reports d !! f).

(** Only seats report, and every kept frame is above the tombstone. *)
Definition seated (players : gset Z) (d : DesyncDetector) : Prop :=
  ∀ f, dom (kept d f) ⊆ players.

Definition op_seated (players : gset Z) (op : DesyncOp) : Prop :=
  match op with DReport p _ _ => p ∈ players | DTrim _ => True end.

Lemma Report_state d p f h :
  fst (Report visit d p f h) =
    if f <? trimmedBefore d then d
    else mkDetector (quorum d) (seats d) (<[f := firstReport (kept d f) p h]> (reports d)) (trimmedBefore d).
Proof.
  destruct (Z.ltb_spec f (trimmedBefore d)) as [Ht|Ht]; [by rewrite Report_trimmed|].
  by destruct (Report_cases visit visit_perm d p f h Ht) as [(-> & _)|(_ & [(-> & _)|(-> & _)])].
Qed.

Lemma kept_step d op f :
  trimmedBefore (desyncStep d op) ≤ f → kept d f ⊆ kept (desyncStep d op) f.
Proof.
  destruct op as [p g h|before]; cbn [desyncStep].
  - rewrite Report_state. destruct (g <? trimmedBefore d); [done|]. intros _. unfold kept. cbn.
    destruct (decide (g = f)) as [->|].
    + rewrite lookup_insert_eq. cbn. apply firstReport_mono.
    + by rewrite lookup_insert_ne.
  - unfold kept, Trim. cbn. intros Hf. destruct (reports d !! f) as [rs|] eqn:E.
    + rewrite (map_lookup_filter_Some_2 _ (reports d) f rs); [done|done|]. cbn.
      destruct (Z.ltb_spec (trimmedBefore d) before); lia.
    + cbn. apply map_empty_subseteq.
Qed.

Lemma step_config d op :
  quorum (desyncStep d op) = quorum d ∧ seats (desyncStep d op) = seats d ∧
  trimmedBefore d ≤ trimmedBefore (desyncStep d op).
Proof.
  destruct op as [p g h|before]; cbn [desyncStep].
  - rewrite Report_state. by destruct (g <? trimmedBefore d).
  - cbn. split_and!; try done. destruct (Z.ltb_spec (trimmedBefore d) before); lia.
Qed.

Lemma seated_step players d op :
  seated players d → op_seated players op → seated players (desyncStep d op).
Proof.
  intros Hd Hop f. destruct op as [p g h|before]; cbn [desyncStep].
  - rewrite Report_state. destruct (g <? trimmedBefore d); [apply Hd|]. unfold kept. cbn.
    destruct (decide (g = f)) as [->|].
    + rewrite lookup_insert_eq. cbn. unfold firstReport. specialize (Hd f).
      fold (kept d f). destruct (kept d f !! p); [done|]. rewrite dom_insert. cbn in Hop. set_solver.
    + rewrite lookup_insert_ne by done. apply Hd.
  - unfold kept, Trim. cbn. destruct (filter _ (reports d) !! f) as [rs|] eqn:E.
    + apply map_lookup_filter_Some in E as [E _]. specialize (Hd f). unfold kept in Hd. by rewrite E in Hd.
    + cbn. rewrite dom_empty. set_solver.
Qed.

Lemma desyncRun_spec players ops : ∀ d,
  seated players d → Forall (op_seated players) ops →
  let d' := desyncRun d ops in
  seated players d' ∧ quorum d' = quorum d ∧ seats d' = seats d ∧
  trimmedBefore d ≤ trimmedBefore d' ∧
  (∀ f, trimmedBefore d' ≤ f → kept d f ⊆ kept d' f).
Proof.
  induction ops as [|op ops IH]; intros d Hs Hops; cbn; [done|].
  apply Forall_cons in Hops as [Hop Hops].
  pose proof (step_config d op) as (Eq & Es & Ht).
  destruct (IH (desyncStep d op)) as (H1 & H2 & H3 & H4 & H5); [by apply seated_step|done|].
  unfold desyncRun in *. cbn [fold_left] in *. split_and!; [done|congruence|congruence|lia|].
  intros f Hf. etrans; [apply kept_step|by apply H5]. lia.
Qed.

(** The hash a group of quorum size backs is the only possible majority. *)
Lemma quorum_majority (players : gset Z) rs rs' q m m' :
  Z.of_nat (size players) < 2 * q → rs ⊆ rs' → dom rs' ⊆ players →
  q ≤ votes rs m → is_majority rs' m' → m' = m.
Proof.
  intros Hq Hsub Hdom Hm [_ Hm']. destruct (decide (m' = m)) as [|Hne]; [done|exfalso].
  pose proof (votes_mono _ _ m Hsub). pose proof (votes_disjoint rs' m' m Hne).
  destruct (Hm' m) as [? _]. apply subseteq_size in Hdom. rewrite size_dom in Hdom. lia.
Qed.

(** A majority never flips: in a match whose quorum is more than half of
    the seats, once a verdict has named a majority for a frame, every later
    verdict for that frame - after any further reports and trims - names the
    same majority and keeps every player already singled out; a minority
    that reports first cannot frame an honest player. *)
Theorem majority_never_flips players d p f h d1 v1 ops p' h' d2 v2 :
  seated players d → 0 < quorum d → Z.of_nat (size players) < 2 * quorum d →
  p ∈ players → p' ∈ players → Forall (op_seated players) ops →
  Report visit d p f h = (d1, Some v1) → vNoMajority v1 = false →
  Report visit (desyncRun d1 ops) p' f h' = (d2, Some v2) →
  vNoMajority v2 = false ∧ vMajority v2 = vMajority v1 ∧
  (∀ q, q ∈ vOutliers v1 → q ∈ vOutliers v2).
Proof.
  intros Hs Hq Hsz Hp Hp' Hops HR1 Hno1 HR2.
  assert (seated players d1 ∧ quorum d1 = quorum d) as [Hs1 Hq1].
  { pose proof (seated_step players d (DReport p f h) Hs Hp) as H.
    pose proof (step_config d (DReport p f h)) as (? & _). cbn in *. rewrite HR1 in *. done. }
  destruct (desyncRun_spec players ops d1 Hs1 Hops) as (Hs2 & Hq2 & _ & Htm & Hkept).
  set (dm := desyncRun d1 ops) in *.
  assert (trimmedBefore dm ≤ f) as Hlive.
  { apply Z.nlt_ge. intros Hlt. rewrite Report_trimmed in HR2 by done. done. }
  assert (trimmedBefore d ≤ f) as Hlive1.
  { apply Z.nlt_ge. intros Hlt. rewrite Report_trimmed in HR1 by done. done. }
  pose proof (Report_cases visit visit_perm d p f h Hlive1) as H1. cbn zeta in H1.
  rewrite HR1 in H1. fold (kept d f) in H1. set (rs := firstReport (kept d f) p h) in *.
  destruct H1 as [([= -> ->] & Hx)|(_ & [([= -> ->] & _)|([=] & _)])]; [|done].
  pose proof (Report_cases visit visit_perm dm p' f h' Hlive) as H2. cbn zeta in H2.
  rewrite HR2 in H2. fold (kept dm f) in H2. set (rs' := firstReport (kept dm f) p' h') in *.
  assert (rs ⊆ rs') as Hsub.
  { etrans; [|apply firstReport_mono]. etrans; [|by apply Hkept]. unfold kept. cbn. by rewrite lookup_insert_eq. }
  assert (dom rs' ⊆ players) as Hdom.
  { unfold rs', firstReport. pose proof (Hs2 f). destruct (kept dm f !! p'); [done|]. rewrite dom_insert. set_solver. }
  destruct (judge_majority visit visit_perm f rs (firstReport_nonempty _ _ _)) as (M1 & _ & _ & O1).
  destruct (judge_majority visit visit_perm f rs' (firstReport_nonempty _ _ _)) as (M2 & _ & N2 & O2).
  assert (quorum d ≤ votes rs (vMajority (judge visit f rs))) as Hv.
  { destruct Hx as [?|[x Hx]]; [lia|]. destruct M1 as [_ M1]. pose proof (M1 x). lia. }
  destruct H2 as [([= -> ->] & _)|(Hlow & _)].
  2:{ pose proof (Hlow (vMajority (judge visit f rs))). pose proof (votes_mono _ _ (vMajority (judge visit f rs)) Hsub). cbn in *. lia. }
  assert (vMajority (judge visit f rs') = vMajority (judge visit f rs)) as Em by by eapply quorum_majority.
  split_and!; [done|done|]. intros q. rewrite O1, O2, Em, !outlierLoop_elem by done.
  intros (x & Hqx & Hne). exists x. split; [by eapply lookup_weaken|done].
Qed.
End Runs.

Example majority_never_flips_witness :
  let d := mkDetector 2 3 {[ 7 := {[ 0 := 11 ]} ]} 5 in
  let '(d1, v1) := Report visit_bwd d 1 7 11 in
  match v1, snd (Report visit_bwd (desyncRun visit_bwd d1 [DReport 0 7 99; DTrim 6]) 2 7 12) with
  | Some v1, Some v2 => vNoMajority v2 = false ∧ vMajority v2 = vMajority v1 ∧
                        (∀ q, q ∈ vOutliers v1 → q ∈ vOutliers v2)
  | _, _ => False
  end.
Proof.
  set (d := mkDetector 2 3 {[ 7 := {[ 0 := 11 ]} ]} 5).
  apply (majority_never_flips visit_bwd visit_bwd_perm {[ 0; 1; 2 ]} d 1 7 11
    (fst (Report visit_bwd d 1 7 11)) (mkVerdict 7 11 [] false) [DReport 0 7 99; DTrim 6] 2 12
    (fst (Report visit_bwd (desyncRun visit_bwd (fst (Report visit_bwd d 1 7 11)) [DReport 0 7 99; DTrim 6]) 2 7 12))
    (mkVerdict 7 11 [2] false)); try by_compute; try done; [|repeat constructor; set_solver].
  intros f. unfold kept. cbn. destruct (decide (7 = f)) as [<-|].
  - rewrite lookup_singleton_eq. set_solver.
  - rewrite lookup_singleton_ne by done. set_solver.
Defined.
