(* ===== verification/LockSnapshotWire.v ===== *)
(** * Snapshot chunks (snapshot_wire.go)

    The CA chunk codec and the client-side reassembly, which hands a snapshot
    out only after its SHA-256 digest was checked.  [DecodeSnapshotChunk]
    returns a half-filled chunk next to an error; no caller reads it and the
    model drops it. *)

From S2P Require Import Prelude Bytes LockTypes.

Definition snapshotMagic : Z := 0xCA.
Definition snapshotVersion : Z := 1.
Definition snapshotFlagStateHash : Z := 1.
Definition SnapshotDigestBytes : Z := 32.

Record SnapshotChunk : Type := mkChunk {
  scTransfer : Z; scOffset : Z; scFirst : bool;
  scFrame : FrameID; scTotal : Z; scStateHash : Z; scHasStateHash : bool; scDigest : bytes;
  scData : bytes }.

#[export] Instance SnapshotChunk_eq_dec : EqDecision SnapshotChunk.
Proof. solve_decision. Defined.

Record ReceivedSnapshot : Type := mkReceived {
  rsFrame : FrameID; rsData : bytes; rsStateHash : Z; rsHasStateHash : bool }.

#[export] Instance ReceivedSnapshot_eq_dec : EqDecision ReceivedSnapshot.
Proof. solve_decision. Defined.

Definition zeroDigest : bytes := replicate 32 0.
Definition zeroChunk : SnapshotChunk := mkChunk 0 0 false 0 0 0 false zeroDigest [].

Definition IsSnapshotChunk (packet : bytes) : bool :=
  (0 <? zlen packet) && (packet !!! 0%nat =? snapshotMagic).

Definition appendSnapshotChunk (out : bytes) (c : SnapshotChunk) : bytes :=
  let out := out ++ [snapshotMagic; snapshotVersion] in
  let out := AppendUvarint out (scTransfer c) in
  let out := AppendUvarint out (u64 (scOffset c)) in
  let out :=
    if scOffset c =? 0 then
      let out := AppendUvarint out (scFrame c) in
      let out := AppendUvarint out (u64 (scTotal c)) in
      let out := if scHasStateHash c
                 then AppendUvarint (out ++ [snapshotFlagStateHash]) (scStateHash c)
                 else out ++ [0] in
      out ++ scDigest c
    else out in
  out ++ scData c.

Definition EncodeSnapshotChunk (c : SnapshotChunk) : result LockErr bytes :=
  if scTransfer c =? 0 then Err ErrFrameCorrupt
  else if (scOffset c <? 0) || (zlen (scData c) =? 0) then Err ErrFrameCorrupt
  else if (scOffset c =? 0) && ((scTotal c <? zlen (scData c)) || (MaxSnapshotBytes <? scTotal c))
  then Err ErrFrameCorrupt
  else Ok (appendSnapshotChunk [] c).

Definition snapshotLimit (limit : Z) : Z :=
  if limit <=? 0 then DefaultMaxSnapshotBytes else Z.min limit MaxSnapshotBytes.

(** The header of a first chunk, up to the digest. *)
Definition decodeChunkHeader (maxTotal : Z) (transfer : Z) (rest : bytes)
    : result LockErr (SnapshotChunk * bytes) :=
  '(frame, rest) ← readUvarint rest;
  '(total, rest) ← readUvarint rest;
  _ ← guard_err ((MaxUint32 <? frame) || (total =? 0) || (maxTotal <? total) || (zlen rest <? 1))
        ErrFrameCorrupt;
  let flags := rest !!! 0%nat in
  let rest := zdrop 1 rest in
  _ ← guard_err (negb (Z.ldiff flags snapshotFlagStateHash =? 0)) ErrFrameCorrupt;
  '(hash, has, rest) ←
     (if negb (Z.land flags snapshotFlagStateHash =? 0) then
        '(hash, rest) ← readUvarint rest; Ok (hash, true, rest)
      else Ok (0, false, rest));
  _ ← guard_err (zlen rest <? SnapshotDigestBytes) ErrFrameCorrupt;
  let digest := ztake SnapshotDigestBytes rest in
  let rest := zdrop SnapshotDigestBytes rest in
  _ ← guard_err (total <? zlen rest) ErrFrameCorrupt;
  Ok (mkChunk transfer 0 true frame total hash has digest [], rest).

Definition setChunkData (c : SnapshotChunk) (data : bytes) : SnapshotChunk :=
  mkChunk (scTransfer c) (scOffset c) (scFirst c) (scFrame c) (scTotal c) (scStateHash c)
    (scHasStateHash c) (scDigest c) data.

Definition DecodeSnapshotChunk (packet : bytes) (maxTotal : Z) : result LockErr SnapshotChunk :=
  let maxTotal := snapshotLimit maxTotal in
  _ ← guard_err ((zlen packet <? 5) || negb (packet !!! 0%nat =? snapshotMagic)
                 || negb (packet !!! 1%nat =? snapshotVersion)) ErrFrameCorrupt;
  '(transfer, rest) ← readUvarint (zdrop 2 packet);
  '(offset, rest) ← readUvarint rest;
  _ ← guard_err ((transfer =? 0) || (maxTotal <=? offset)) ErrFrameCorrupt;
  '(c, rest) ← (if offset =? 0 then decodeChunkHeader maxTotal transfer rest
                else Ok (mkChunk transfer offset false 0 0 0 false zeroDigest [], rest));
  _ ← guard_err (zlen rest =? 0) ErrFrameCorrupt;
  Ok (setChunkData c rest).

(** ** The receiver *)

Record SnapshotReceiver : Type := mkReceiver {
  rvMaxBytes : Z; rvTransfer : Z; rvActive : bool; rvHeader : SnapshotChunk; rvData : bytes }.

Definition NewSnapshotReceiver (maxBytes : Z) : SnapshotReceiver :=
  mkReceiver (snapshotLimit maxBytes) 0 false zeroChunk [].

Definition Active (r : SnapshotReceiver) : bool := rvActive r.

Definition Received (r : SnapshotReceiver) : Z * Z :=
  if negb (rvActive r) then (0, 0) else (zlen (rvData r), scTotal (rvHeader r)).

Definition Reset (r : SnapshotReceiver) : SnapshotReceiver :=
  mkReceiver (rvMaxBytes r) 0 false zeroChunk [].

(** The tail of [Accept]: append the data, and on the last byte check the
    digest and hand the snapshot out. *)
Definition acceptData (r : SnapshotReceiver) (c : SnapshotChunk)
    : SnapshotReceiver * result LockErr (option ReceivedSnapshot) :=
  if scTotal (rvHeader r) <? zlen (rvData r) + zlen (scData c) then (Reset r, Err ErrFrameCorrupt)
  else
    let data := rvData r ++ scData c in
    if zlen data <? scTotal (rvHeader r) then
      (mkReceiver (rvMaxBytes r) (rvTransfer r) (rvActive r) (rvHeader r) data, Ok None)
    else
      let r' := mkReceiver (rvMaxBytes r) (rvTransfer r) false (rvHeader r) [] in
      if negb (bool_decide (Sha256.Sum256 data = scDigest (rvHeader r))) then (r', Err ErrSnapshotCorrupt)
      else (r', Ok (Some (mkReceived (scFrame (rvHeader r)) data (scStateHash (rvHeader r))
                            (scHasStateHash (rvHeader r))))).

Definition Accept (r : SnapshotReceiver) (packet : bytes)
    : SnapshotReceiver * result LockErr (option ReceivedSnapshot) :=
  match DecodeSnapshotChunk packet (rvMaxBytes r) with
  | Err e => (Reset r, Err e)
  | Ok c =>
      if negb (scTransfer c =? rvTransfer r) then
        if negb (scFirst c) then (Reset r, Err ErrFrameCorrupt)
        else acceptData (mkReceiver (rvMaxBytes r) (scTransfer c) true (setChunkData c []) []) c
      else
        let received := zlen (rvData r) in
        if negb (rvActive r) || (scOffset c <? received) then (r, Ok None)
        else if received <? scOffset c then (Reset r, Err ErrFrameCorrupt)
        else acceptData r c
  end.

(** ** Well-formed chunks *)

(** A chunk a server can send under the limit of the receiver: the First flag
    says whether it carries the header, a later chunk has no header fields. *)
Definition chunk_wf (limit : Z) (c : SnapshotChunk) : Prop :=
  0 < scTransfer c ∧ is_u64 (scTransfer c) ∧ 0 ≤ scOffset c < limit ∧ 0 < zlen (scData c) ∧
  if decide (scOffset c = 0) then
    scFirst c = true ∧ is_u32 (scFrame c) ∧ zlen (scData c) ≤ scTotal c ≤ limit ∧
    is_u64 (scStateHash c) ∧ (scHasStateHash c = false → scStateHash c = 0) ∧ zlen (scDigest c) = 32
  else
    scFirst c = false ∧ scFrame c = 0 ∧ scTotal c = 0 ∧ scStateHash c = 0 ∧
    scHasStateHash c = false ∧ scDigest c = zeroDigest.

#[export] Instance chunk_wf_dec limit c : Decision (chunk_wf limit c).
Proof. unfold chunk_wf. repeat apply and_dec; try apply _. case_decide; apply _. Defined.

Lemma snapshotLimit_range limit : 0 < snapshotLimit limit ≤ MaxSnapshotBytes.
Proof.
  unfold snapshotLimit, MaxSnapshotBytes, DefaultMaxSnapshotBytes.
  destruct (Z.leb_spec limit 0); lia.
Qed.

Lemma decodeChunkHeader_encode limit c rest :
  is_u32 (scFrame c) → zlen (scDigest c) = 32 → 0 < scTotal c ≤ limit → limit ≤ MaxSnapshotBytes →
  zlen rest ≤ scTotal c → is_u64 (scStateHash c) → (scHasStateHash c = false → scStateHash c = 0) →
  decodeChunkHeader limit (scTransfer c)
    (uvarint (scFrame c) ++ uvarint (scTotal c) ++
     (if scHasStateHash c then [snapshotFlagStateHash] ++ uvarint (scStateHash c) else [0]) ++
     scDigest c ++ rest) =
  Ok (mkChunk (scTransfer c) 0 true (scFrame c) (scTotal c) (scStateHash c) (scHasStateHash c) (scDigest c) [],
      rest).
Proof.
  intros Hf Hd Ht Hl Hr Hh Hno. unfold decodeChunkHeader, MaxSnapshotBytes in *.
  run_ok ltac:(apply readUvarint_app; unfold_int; lia).
  run_ok ltac:(apply readUvarint_app; unfold_int; lia).
  run_guard ltac:(destruct (scHasStateHash c); zlia).
  assert (∀ h has, ztake SnapshotDigestBytes (scDigest c ++ rest) = scDigest c ∧
    zdrop SnapshotDigestBytes (scDigest c ++ rest) = rest ∧ h = scStateHash c ∧ has = scHasStateHash c →
    (_ ← guard_err (zlen (scDigest c ++ rest) <? SnapshotDigestBytes) ErrFrameCorrupt;
     let digest := ztake SnapshotDigestBytes (scDigest c ++ rest) in
     let rest := zdrop SnapshotDigestBytes (scDigest c ++ rest) in
     _ ← guard_err (scTotal c <? zlen rest) ErrFrameCorrupt;
     Ok (mkChunk (scTransfer c) 0 true (scFrame c) (scTotal c) h has digest [], rest)) =
    Ok (mkChunk (scTransfer c) 0 true (scFrame c) (scTotal c) (scStateHash c) (scHasStateHash c) (scDigest c) [],
        rest)) as Htail.
  { intros h has (-> & -> & -> & ->). run_guard ltac:(unfold SnapshotDigestBytes; zlia).
    run_guard ltac:(lia). done. }
  assert (ztake SnapshotDigestBytes (scDigest c ++ rest) = scDigest c ∧
          zdrop SnapshotDigestBytes (scDigest c ++ rest) = rest) as [E1 E2].
  { change SnapshotDigestBytes with 32. rewrite <- Hd. by rewrite ztake_app_zlen, zdrop_app_zlen. }
  destruct (scHasStateHash c) eqn:Ehas; cbn [app zdrop Z.to_nat Pos.to_nat].
  - run_guard ltac:(done). eapply bind_ok_eq.
    { eapply bind_ok_eq; [by apply readUvarint_app|]. cbn beta iota. reflexivity. }
    cbn beta iota. by apply Htail.
  - run_guard ltac:(done). eapply bind_ok_eq; [reflexivity|]. cbn beta iota.
    apply Htail. split_and!; try done. by rewrite Hno.
Qed.

Lemma decode_append c maxTotal :
  chunk_wf (snapshotLimit maxTotal) c →
  DecodeSnapshotChunk (appendSnapshotChunk [] c) maxTotal = Ok c.
Proof.
  intros (Ht & Htu & Ho & Hd & Hfirst). pose proof (snapshotLimit_range maxTotal) as Hlim.
  unfold MaxSnapshotBytes in Hlim. unfold DecodeSnapshotChunk, appendSnapshotChunk, AppendUvarint.
  cbn zeta. set (limit := snapshotLimit maxTotal) in *.
  pose proof (zlen_uvarint_pos (scTransfer c)). pose proof (zlen_uvarint_pos (u64 (scOffset c))).
  assert (u64 (scOffset c) = scOffset c) as Hou by (apply u64_small; unfold_int; lia).
  destruct (Z.eqb_spec (scOffset c) 0) as [Hz|Hz].
  - rewrite decide_True in Hfirst by done.
    destruct Hfirst as (Hfst & Hfr & Htot & Hsh & Hnsh & Hdg).
    assert (u64 (scTotal c) = scTotal c) as Htot' by (apply u64_small; unfold_int; lia).
    pose proof (decodeChunkHeader_encode limit c (scData c)) as Hhdr.
    pose proof (zlen_uvarint_pos (scFrame c)).
    match goal with |- context [(if scHasStateHash c then ?x else ?y) ++ scDigest c] =>
      assert (((if scHasStateHash c then x else y) ++ scDigest c) ++ scData c =
        [snapshotMagic; snapshotVersion] ++ uvarint (scTransfer c) ++ uvarint (scOffset c) ++
        uvarint (scFrame c) ++ uvarint (scTotal c) ++
        (if scHasStateHash c then [snapshotFlagStateHash] ++ uvarint (scStateHash c) else [0]) ++
        scDigest c ++ scData c) as ->
    end.
    { rewrite Hou, Htot'. destruct (scHasStateHash c); by rewrite <- ?app_assoc. }
    rewrite Hz in *. run_guard ltac:(split; [split; [zlia|done]|done]).
    cbn [zdrop Z.to_nat Pos.to_nat app].
    run_ok ltac:(by apply readUvarint_app). run_ok ltac:(apply readUvarint_app; unfold_int; lia).
    run_guard ltac:(lia).
    run_ok ltac:(apply Hhdr; [done|done|lia|unfold MaxSnapshotBytes; lia|lia|done|done]).
    run_guard ltac:(lia). unfold setChunkData. cbn. destruct c. cbn in *. by subst.
  - rewrite decide_False in Hfirst by done. destruct Hfirst as (Hf & Hfr & Htot & Hsh & Hhs & Hdg).
    rewrite Hou, <- !app_assoc. cbn [app].
    rewrite Hou in *. run_guard ltac:(split; [split; [zlia|done]|done]).
    cbn [zdrop Z.to_nat Pos.to_nat app].
    run_ok ltac:(by apply readUvarint_app). run_ok ltac:(apply readUvarint_app; unfold_int; lia).
    run_guard ltac:(lia).
    rewrite (proj2 (Z.eqb_neq _ _) Hz). run_ok ltac:(reflexivity).
    run_guard ltac:(lia). unfold setChunkData. cbn. destruct c. cbn in *. by subst.
Qed.

Lemma decode_chunk_sound packet maxTotal c :
  DecodeSnapshotChunk packet maxTotal = Ok c →
  0 < scTransfer c ∧ 0 ≤ scOffset c < snapshotLimit maxTotal ∧ 0 < zlen (scData c) ∧
  scFirst c = (scOffset c =? 0) ∧
  (scFirst c = true → zlen (scData c) ≤ scTotal c ≤ snapshotLimit maxTotal ∧ is_u32 (scFrame c) ∧
                      zlen (scDigest c) = 32).
Proof.
  unfold DecodeSnapshotChunk. set (limit := snapshotLimit maxTotal). intros H. inv_ok. to_prop.
  apply readUvarint_ok in E0 as (Ht & _), E1 as (Ho & _).
  zlen_facts. destruct (Z.eqb_spec z0 0) as [Hz|Hz].
  - unfold decodeChunkHeader in E3. inv_ok. to_prop.
    apply readUvarint_ok in E0 as (? & _), E1 as (? & _).
    cbn. unfold SnapshotDigestBytes in *. rewrite zlen_ztake by zlia. unfold_int. split_and!; lia.
  - inv_ok. cbn. rewrite (proj2 (Z.eqb_neq _ _) Hz). unfold_int. split_and!; (done || lia).
Qed.

(** Round trip of snapshot chunks: every chunk a server can send within
    the receiver's limit is encoded without error and decodes to itself;
    conversely whatever decodes lies inside the limit, is non-empty, carries
    the header exactly at offset 0, and its data never exceeds the declared
    total. *)
Theorem snapshot_chunk_roundtrip c maxTotal :
  chunk_wf (snapshotLimit maxTotal) c →
  (∃ packet, EncodeSnapshotChunk c = Ok packet ∧ DecodeSnapshotChunk packet maxTotal = Ok c) ∧
  ∀ packet c', DecodeSnapshotChunk packet maxTotal = Ok c' →
    0 < scTransfer c' ∧ 0 ≤ scOffset c' < snapshotLimit maxTotal ∧ 0 < zlen (scData c') ∧
    scFirst c' = (scOffset c' =? 0) ∧
    (scFirst c' = true → zlen (scData c') ≤ scTotal c' ≤ snapshotLimit maxTotal ∧ is_u32 (scFrame c') ∧
                         zlen (scDigest c') = 32).
Proof.
  intros Hwf. split; [|intros packet c'; apply decode_chunk_sound].
  pose proof (decode_append c maxTotal Hwf) as Hdec.
  destruct Hwf as (Ht & Htu & Ho & Hd & Hfirst). pose proof (snapshotLimit_range maxTotal).
  exists (appendSnapshotChunk [] c). split; [|done]. unfold EncodeSnapshotChunk.
  destruct (Z.eqb_spec (scTransfer c) 0); [lia|].
  destruct (Z.ltb_spec (scOffset c) 0); [lia|]. destruct (Z.eqb_spec (zlen (scData c)) 0); [lia|].
  cbn [orb]. destruct (Z.eqb_spec (scOffset c) 0) as [Hz|]; [|done].
  rewrite decide_True in Hfirst by done. destruct Hfirst as (_ & _ & Htot & _).
  destruct (Z.ltb_spec (scTotal c) (zlen (scData c))); [lia|].
  destruct (Z.ltb_spec MaxSnapshotBytes (scTotal c)); [lia|]. done.
Qed.

Definition sample_chunk : SnapshotChunk :=
  mkChunk 3 0 true 17 5 99 true (Sha256.Sum256 [1; 2; 3; 4; 5]) [1; 2; 3].

Example snapshot_chunk_roundtrip_witness :
  ∃ packet, EncodeSnapshotChunk sample_chunk = Ok packet ∧ DecodeSnapshotChunk packet 10 = Ok sample_chunk.
Proof. apply (snapshot_chunk_roundtrip sample_chunk 10). by_compute. Defined.

(** ** Reassembly *)

(** The receiver between two packets: an active transfer holds a proper prefix
    of a snapshot within the limit; an inactive one holds no bytes. *)
Definition receiver_ok (r : SnapshotReceiver) : Prop :=
  snapshotLimit (rvMaxBytes r) = rvMaxBytes r ∧
  if rvActive r then 0 < zlen (rvData r) < scTotal (rvHeader r) ∧ scTotal (rvHeader r) ≤ rvMaxBytes r
  else rvData r = [].

Lemma snapshotLimit_idem limit : snapshotLimit (snapshotLimit limit) = snapshotLimit limit.
Proof.
  pose proof (snapshotLimit_range limit). unfold snapshotLimit at 1.
  destruct (Z.leb_spec (snapshotLimit limit) 0); lia.
Qed.

Lemma NewSnapshotReceiver_ok maxBytes : receiver_ok (NewSnapshotReceiver maxBytes).
Proof. split; [apply snapshotLimit_idem|done]. Qed.

Lemma Reset_ok r : snapshotLimit (rvMaxBytes r) = rvMaxBytes r → receiver_ok (Reset r).
Proof. by split. Qed.

(** What a delivered snapshot is. *)
Definition verified (r : SnapshotReceiver) (h : SnapshotChunk) (s : ReceivedSnapshot) : Prop :=
  Sha256.Sum256 (rsData s) = scDigest h ∧ zlen (rsData s) = scTotal h ∧ scTotal h ≤ rvMaxBytes r ∧
  rsFrame s = scFrame h ∧ rsStateHash s = scStateHash h ∧ rsHasStateHash s = scHasStateHash h.

Lemma acceptData_spec r c :
  snapshotLimit (rvMaxBytes r) = rvMaxBytes r → rvActive r = true → 0 < zlen (scData c) →
  scTotal (rvHeader r) ≤ rvMaxBytes r →
  let '(r', res) := acceptData r c in
  receiver_ok r' ∧ rvMaxBytes r' = rvMaxBytes r ∧
  match res with
  | Ok None => r' = mkReceiver (rvMaxBytes r) (rvTransfer r) true (rvHeader r) (rvData r ++ scData c)
  | Ok (Some s) => rsData s = rvData r ++ scData c ∧ verified r (rvHeader r) s ∧
                   r' = mkReceiver (rvMaxBytes r) (rvTransfer r) false (rvHeader r) []
  | Err e => e = ErrFrameCorrupt ∨ e = ErrSnapshotCorrupt
  end.
Proof.
  intros Hlim Ha Hd Ht. unfold acceptData. zlen_facts. rewrite zlen_app.
  destruct (Z.ltb_spec (scTotal (rvHeader r)) (zlen (rvData r) + zlen (scData c))).
  { split; [by apply Reset_ok|]. split; [done|by left]. }
  destruct (Z.ltb_spec (zlen (rvData r) + zlen (scData c)) (scTotal (rvHeader r))).
  { rewrite Ha. split; [|done]. split; [done|]. cbn. rewrite zlen_app. lia. }
  case_bool_decide as Hdig; cbn [negb].
  - split; [by split|]. split; [done|]. unfold verified. cbn. rewrite zlen_app.
    split_and!; (done || lia).
  - split; [by split|]. split; [done|by right].
Qed.

Lemma Accept_ok r packet : receiver_ok r → receiver_ok (fst (Accept r packet)) ∧
  rvMaxBytes (fst (Accept r packet)) = rvMaxBytes r.
Proof.
  intros Hok. pose proof Hok as [Hlim Hinv]. unfold Accept.
  destruct (DecodeSnapshotChunk packet (rvMaxBytes r)) as [c|e] eqn:E; [|by split; [apply Reset_ok|]].
  apply decode_chunk_sound in E as (_ & Ho & Hd & Hf & Hhdr).
  destruct (scTransfer c =? rvTransfer r); cbn [negb].
  - destruct (rvActive r) eqn:Ha; cbn [negb orb]; [|by split].
    destruct (scOffset c <? zlen (rvData r)); [by split|].
    destruct (zlen (rvData r) <? scOffset c); [by split; [apply Reset_ok|]|].
    pose proof (acceptData_spec r c Hlim Ha Hd ltac:(lia)) as H.
    destruct (acceptData r c). tauto.
  - destruct (scFirst c) eqn:Hfc; cbn [negb]; [|by split; [apply Reset_ok|]].
    set (r1 := mkReceiver _ _ _ _ _). rewrite Hlim in Hhdr.
    pose proof (acceptData_spec r1 c Hlim eq_refl Hd) as H. cbn in H.
    destruct (acceptData r1 c). cbn. destruct H as (? & ? & _); [by apply Hhdr|done].
Qed.

Fixpoint AcceptAll (r : SnapshotReceiver) (packets : list bytes)
    : SnapshotReceiver * list (result LockErr (option ReceivedSnapshot)) :=
  match packets with
  | [] => (r, [])
  | packet :: packets' =>
      let '(r1, out) := Accept r packet in
      let '(r2, outs) := AcceptAll r1 packets' in (r2, out :: outs)
  end.

Lemma AcceptAll_ok r packets :
  receiver_ok r → receiver_ok (fst (AcceptAll r packets)) ∧
  rvMaxBytes (fst (AcceptAll r packets)) = rvMaxBytes r.
Proof.
  revert r. induction packets as [|packet packets IH]; intros r Hok; [done|]. cbn.
  pose proof (Accept_ok r packet Hok) as [H1 H2]. destruct (Accept r packet) as [r1 out].
  cbn in *. specialize (IH r1 H1). destruct (AcceptAll r1 packets). cbn in *.
  destruct IH. split; [done|congruence].
Qed.

(** Safety of reassembly: after any packets whatsoever - corrupt, forged,
    reordered, from several transfers - a snapshot handed out has exactly the
    digest, the length and the frame its header declared, and the receiver
    never buffers more than its limit. *)
Theorem snapshot_receiver_safe maxBytes packets packet r r' s :
  fst (AcceptAll (NewSnapshotReceiver maxBytes) packets) = r →
  (zlen (rvData r) ≤ snapshotLimit maxBytes) ∧
  (Accept r packet = (r', Ok (Some s)) →
     zlen (rsData s) ≤ snapshotLimit maxBytes ∧ Sha256.Sum256 (rsData s) = scDigest (rvHeader r') ∧
     zlen (rsData s) = scTotal (rvHeader r') ∧ rsFrame s = scFrame (rvHeader r') ∧
     rsStateHash s = scStateHash (rvHeader r') ∧ Active r' = false).
Proof.
  intros <-. destruct (AcceptAll_ok (NewSnapshotReceiver maxBytes) packets (NewSnapshotReceiver_ok _)) as [[Hlim Hinv] Hmax].
  set (r := fst _) in *. cbn in Hmax. pose proof (snapshotLimit_range maxBytes).
  split.
  { destruct (rvActive r); [lia|]. rewrite Hinv, zlen_nil. lia. }
  unfold Accept. rewrite <- Hmax.
  destruct (DecodeSnapshotChunk packet (rvMaxBytes r)) as [c|e] eqn:E; [|done].
  apply decode_chunk_sound in E as (_ & Ho & Hd & Hf & Hhdr).
  destruct (scTransfer c =? rvTransfer r); cbn [negb].
  - destruct (rvActive r) eqn:Ha; cbn [negb orb]; [|done].
    destruct (scOffset c <? zlen (rvData r)); [done|]. destruct (zlen (rvData r) <? scOffset c); [done|].
    pose proof (acceptData_spec r c Hlim Ha Hd ltac:(lia)) as H'.
    destruct (acceptData r c) as [r2 res]. intros [= <- ->].
    destruct H' as (_ & _ & _ & (? & ? & ? & ? & ? & ?) & ->). cbn. split_and!; (done || lia).
  - destruct (scFirst c) eqn:Hfc; cbn [negb]; [|done].
    set (r1 := mkReceiver _ _ _ _ _). rewrite Hlim in Hhdr.
    pose proof (acceptData_spec r1 c Hlim eq_refl Hd) as H'. cbn [r1 rvHeader rvMaxBytes] in H'.
    destruct (acceptData r1 c) as [r2 res]. intros [= <- ->].
    destruct H' as (_ & _ & _ & (? & ? & ? & ? & ? & ?) & ->); [by apply Hhdr|].
    cbn in *. split_and!; (done || lia).
Qed.

Lemma sample_receiver_state :
  let r := NewSnapshotReceiver 10 in
  Accept (fst (Accept r (appendSnapshotChunk [] sample_chunk)))
    (appendSnapshotChunk [] (mkChunk 3 3 false 0 0 0 false zeroDigest [4; 5])) =
  (mkReceiver 10 3 false (setChunkData sample_chunk []) [],
   Ok (Some (mkReceived 17 [1; 2; 3; 4; 5] 99 true))).
Proof. vm_compute. reflexivity. Qed.

Example snapshot_receiver_safe_witness :
  let r := fst (AcceptAll (NewSnapshotReceiver 10) [appendSnapshotChunk [] sample_chunk]) in
  let r' := mkReceiver 10 3 false (setChunkData sample_chunk []) [] in
  zlen (rvData r) ≤ snapshotLimit 10 ∧
  (Accept r (appendSnapshotChunk [] (mkChunk 3 3 false 0 0 0 false zeroDigest [4; 5])) =
     (r', Ok (Some (mkReceived 17 [1; 2; 3; 4; 5] 99 true))) →
   zlen [1; 2; 3; 4; 5] ≤ snapshotLimit 10 ∧ Sha256.Sum256 [1; 2; 3; 4; 5] = scDigest (rvHeader r') ∧
   zlen [1; 2; 3; 4; 5] = scTotal (rvHeader r') ∧ 17 = scFrame (rvHeader r') ∧
   99 = scStateHash (rvHeader r') ∧ Active r' = false).
Proof.
  apply (snapshot_receiver_safe 10 [appendSnapshotChunk [] sample_chunk]). reflexivity.
Defined.

(** ** Delivery of a whole snapshot *)

Section Transfer.
(** A snapshot cut into non-empty parts, sent under transfer [t]. *)
Context (t frame hash : Z) (has : bool) (parts : list bytes).

Definition partsOffset (i : nat) : Z := zlen (concat (take i parts)).

Definition serverChunk (i : nat) : SnapshotChunk :=
  match i with
  | O => mkChunk t 0 true frame (zlen (concat parts)) hash has (Sha256.Sum256 (concat parts))
           (parts !!! 0%nat)
  | S _ => mkChunk t (partsOffset i) false 0 0 0 false zeroDigest (parts !!! i)
  end.

Definition serverPacket (i : nat) : bytes := appendSnapshotChunk [] (serverChunk i).

(** Delivery with retransmissions: each packet is the next one or repeats an
    earlier one; [delivery k l k'] advances from [k] to [k'] parts. *)
Inductive delivery : nat → list nat → nat → Prop :=
| dl_nil k : delivery k [] k
| dl_dup k i l k' : (i < k)%nat → delivery k l k' → delivery k (i :: l) k'
| dl_new k l k' : delivery (S k) l k' → delivery k (k :: l) k'.

Definition completeSnapshot : ReceivedSnapshot := mkReceived frame (concat parts) hash has.

Definition stateAfter (r : SnapshotReceiver) (k : nat) : SnapshotReceiver :=
  if decide (k = 0)%nat then r
  else if decide (k < length parts)%nat then
    mkReceiver (rvMaxBytes r) t true (setChunkData (serverChunk 0) []) (concat (take k parts))
  else mkReceiver (rvMaxBytes r) t false (setChunkData (serverChunk 0) []) [].

Definition transfer_wf (r : SnapshotReceiver) : Prop :=
  0 < t ∧ is_u64 t ∧ t ≠ rvTransfer r ∧ is_u32 frame ∧ is_u64 hash ∧ (has = false → hash = 0) ∧
  parts ≠ [] ∧ Forall (λ part, 0 < zlen part) parts ∧
  zlen (concat parts) ≤ rvMaxBytes r ∧ snapshotLimit (rvMaxBytes r) = rvMaxBytes r.

Context (r : SnapshotReceiver) (Hwf : transfer_wf r).

Lemma part_step i :
  (i < length parts)%nat →
  partsOffset (S i) = partsOffset i + zlen (parts !!! i) ∧ 0 < zlen (parts !!! i) ∧
  concat (take (S i) parts) = concat (take i parts) ++ parts !!! i.
Proof.
  intros Hi. destruct Hwf as (_ & _ & _ & _ & _ & _ & _ & Hne & _).
  destruct (lookup_lt_is_Some_2 parts i Hi) as [p Hp].
  rewrite (list_lookup_total_correct _ _ _ Hp).
  assert (concat (take (S i) parts) = concat (take i parts) ++ p) as E.
  { rewrite (take_S_r _ _ _ Hp), concat_app. cbn. by rewrite app_nil_r. }
  unfold partsOffset. rewrite E, zlen_app. split; [done|]. split; [|done].
  by eapply Forall_lookup_1 in Hne.
Qed.

Lemma partsOffset_mono i j : (i ≤ j)%nat → partsOffset i ≤ partsOffset j.
Proof.
  intros Hij. unfold partsOffset, zlen. apply inj_le.
  replace j with (i + (j - i))%nat by lia. rewrite <- take_take_drop, concat_app, length_app. lia.
Qed.

Lemma partsOffset_all i : (length parts ≤ i)%nat → partsOffset i = zlen (concat parts).
Proof. intros Hi. unfold partsOffset. by rewrite take_ge. Qed.

Lemma serverChunk_wf i : (i < length parts)%nat → chunk_wf (rvMaxBytes r) (serverChunk i).
Proof.
  intros Hi. pose proof (part_step i Hi) as (Ho & Hd & _).
  pose proof (partsOffset_mono (S i) (length parts) ltac:(lia)) as Hm.
  rewrite (partsOffset_all (length parts)) in Hm by done.
  destruct Hwf as (Ht & Htu & _ & Hf & Hh & Hn & _ & _ & Hmax & _).
  assert (0 ≤ partsOffset i) by apply zlen_nonneg.
  unfold chunk_wf. destruct i as [|i]; cbn [serverChunk scTransfer scOffset scData].
  - change (partsOffset 0) with 0 in *. rewrite decide_True by done. cbn.
    rewrite Sha256.zlen_Sum256. split_and!; (done || lia).
  - assert (partsOffset 1 ≤ partsOffset (S i)) by (apply partsOffset_mono; lia).
    destruct (part_step 0 ltac:(lia)) as (Ho0 & Hd0 & _). change (partsOffset 0) with 0 in Ho0.
    rewrite decide_False by lia. cbn [scFirst scFrame scTotal scStateHash scHasStateHash scDigest].
    split_and!; (done || lia).
Qed.

Lemma serverPacket_decode i m :
  (i < length parts)%nat → rvMaxBytes m = rvMaxBytes r →
  DecodeSnapshotChunk (serverPacket i) (rvMaxBytes m) = Ok (serverChunk i).
Proof.
  intros Hi ->. apply decode_append. destruct Hwf as (_ & _ & _ & _ & _ & _ & _ & _ & _ & ->).
  by apply serverChunk_wf.
Qed.

Lemma stateAfter_max k : rvMaxBytes (stateAfter r k) = rvMaxBytes r.
Proof. unfold stateAfter. by repeat case_decide. Qed.

(** The next part advances the state; the last one completes it. *)
Lemma accept_new k :
  (k < length parts)%nat →
  Accept (stateAfter r k) (serverPacket k) =
    (stateAfter r (S k), Ok (if decide (S k = length parts) then Some completeSnapshot else None)).
Proof.
  intros Hk. pose proof (part_step k Hk) as (Ho & Hd & Hc).
  pose proof (partsOffset_mono (S k) (length parts) ltac:(lia)) as Hm.
  rewrite (partsOffset_all (length parts)) in Hm by done.
  unfold Accept. rewrite (serverPacket_decode k _ Hk (stateAfter_max k)).
  set (r1 := mkReceiver (rvMaxBytes r) t true (setChunkData (serverChunk 0) []) (concat (take k parts))).
  assert (∀ c, scData c = parts !!! k →
    acceptData r1 c = (stateAfter r (S k), Ok (if decide (S k = length parts) then Some completeSnapshot else None))) as Hacc.
  { intros c Hcd. unfold acceptData, r1, stateAfter. cbn [rvHeader rvData rvMaxBytes rvTransfer rvActive].
    rewrite Hcd, <- Hc. change (scTotal (setChunkData (serverChunk 0) [])) with (zlen (concat parts)).
    change (zlen (concat (take k parts))) with (partsOffset k). rewrite <- Ho.
    change (zlen (concat (take (S k) parts))) with (partsOffset (S k)).
    rewrite (proj2 (Z.ltb_ge _ _) Hm). rewrite (decide_False (P := S k = 0%nat)) by done.
    destruct (decide (S k = length parts)) as [Hl|Hl].
    - rewrite partsOffset_all, Z.ltb_irrefl, decide_False, take_ge by lia.
      rewrite bool_decide_eq_true_2 by done. done.
    - destruct (part_step (S k) ltac:(lia)) as (Ho2 & Hd2 & _).
      pose proof (partsOffset_mono (S (S k)) (length parts) ltac:(lia)) as Hm2.
      rewrite (partsOffset_all (length parts)) in Hm2 by done.
      rewrite (proj2 (Z.ltb_lt _ _)), decide_True by lia. done. }
  destruct Hwf as (_ & _ & Hne & _). destruct k as [|k].
  - cbn [serverChunk scTransfer scFirst]. change (stateAfter r 0) with r.
    rewrite (proj2 (Z.eqb_neq _ _) Hne). cbn [negb]. apply Hacc. done.
  - assert (stateAfter r (S k) = r1) as ->.
    { unfold stateAfter. by rewrite decide_False, decide_True by lia. }
    cbn [serverChunk scTransfer scFirst scOffset r1 rvTransfer rvActive rvData].
    rewrite Z.eqb_refl. cbn [negb orb]. change (zlen (concat (take (S k) parts))) with (partsOffset (S k)).
    rewrite Z.ltb_irrefl. apply Hacc. done.
Qed.

(** A repeated part changes nothing, before and after completion. *)
Lemma accept_dup k i :
  (i < k)%nat → (k ≤ length parts)%nat → Accept (stateAfter r k) (serverPacket i) = (stateAfter r k, Ok None).
Proof.
  intros Hik Hk. unfold Accept. rewrite (serverPacket_decode i _ ltac:(lia) (stateAfter_max k)).
  unfold stateAfter. rewrite (decide_False (P := k = 0%nat)) by lia.
  assert (scTransfer (serverChunk i) = t) as -> by by destruct i.
  assert (scOffset (serverChunk i) = partsOffset i) as -> by by destruct i.
  destruct (part_step i ltac:(lia)) as (Ho & Hd & _).
  pose proof (partsOffset_mono (S i) k Hik).
  destruct (decide (k < length parts)%nat); cbn [rvTransfer rvActive rvData];
    rewrite Z.eqb_refl; cbn [negb orb]; [|done].
  change (zlen (concat (take k parts))) with (partsOffset k).
  by rewrite (proj2 (Z.ltb_lt _ _)) by lia.
Qed.

Lemma delivery_mono k l k' : delivery k l k' → (k ≤ k')%nat.
Proof. induction 1; lia. Qed.

Lemma deliver_run k l k' :
  delivery k l k' → (k' < length parts)%nat ∨ (k = k' ∧ k = length parts) →
  AcceptAll (stateAfter r k) (map serverPacket l) = (stateAfter r k', replicate (length l) (Ok None)).
Proof.
  induction 1 as [k|k i l k' Hi Hdel IH|k l k' Hdel IH]; intros Hb; [done| |];
    pose proof (delivery_mono _ _ _ Hdel); cbn [map AcceptAll length replicate].
  - rewrite accept_dup by lia. by rewrite IH.
  - rewrite accept_new, decide_False by lia. by rewrite IH by lia.
Qed.

Lemma AcceptAll_app r0 ps qs :
  AcceptAll r0 (ps ++ qs) =
    let '(r1, os) := AcceptAll r0 ps in let '(r2, os') := AcceptAll r1 qs in (r2, os ++ os').
Proof.
  revert r0. induction ps as [|p ps IH]; intros r0; cbn [AcceptAll app].
  { by destruct (AcceptAll r0 qs). }
  destruct (Accept r0 p) as [r1 o]. rewrite IH. destruct (AcceptAll r1 ps) as [r2 os].
  by destruct (AcceptAll r2 qs).
Qed.

(** A snapshot always arrives: over the reliable lane, whatever the
    sizes of the parts and however often parts already sent are repeated
    before and after, the receiver stays silent until the last part and then
    hands out exactly the snapshot, its frame and its state hash, once. *)
Theorem snapshot_delivered before after n :
  length parts = S n → delivery 0 before n → Forall (λ i, (i < length parts)%nat) after →
  snd (AcceptAll r (map serverPacket (before ++ n :: after))) =
    replicate (length before) (Ok None) ++ Ok (Some completeSnapshot) :: replicate (length after) (Ok None).
Proof.
  intros Hn Hdel Hafter. rewrite map_app, AcceptAll_app. cbn [map AcceptAll].
  pose proof (deliver_run 0 before n Hdel ltac:(lia)) as Hd.
  change (stateAfter r 0) with r in Hd. rewrite Hd.
  rewrite accept_new, decide_True by lia. rewrite (deliver_run (S n) after (S n)); [done| |lia].
  induction Hafter; constructor; [lia|done].
Qed.
End Transfer.

Definition sample_parts : list bytes := [[1; 2; 3]; [4]; [5; 6]].

Example snapshot_delivered_witness :
  snd (AcceptAll (NewSnapshotReceiver 100) (map (serverPacket 8 17 99 true sample_parts) ([0%nat; 0%nat; 1%nat] ++ 2%nat :: [0%nat; 2%nat]))) =
    replicate 3 (Ok None) ++ Ok (Some (completeSnapshot 17 99 true sample_parts)) :: replicate 2 (Ok None).
Proof.
  apply (snapshot_delivered 8 17 99 true sample_parts (NewSnapshotReceiver 100)).
  - split_and!; by_compute.
  - reflexivity.
  - apply dl_new, dl_dup, dl_new, dl_nil. lia.
  - repeat constructor.
Defined.
