(* ===== verification/LockAssembler.v ===== *)
(** * The client assembler (assembler.go)

    Deduplicates redundant frames, buffers a bounded number of frames behind a
    gap, releases frames strictly in order, and hands over between frames and
    snapshots.  Theorems: what is released is the longest contiguous prefix of
    what was received; the redundancy encoder heals any loss shorter than its
    depth end to end; a client never skips a frame across snapshots. *)

From S2P Require Import Prelude Bytes LockTypes LockWire LockSnapshotWire.

Record FrameAssembler : Type := mkAssembler {
  asNext : FrameID;
  asBuffer : gmap Z Frame;
  asMaxBuffer : Z;
  asDuplicates : Z;
  asHealed : Z;
  asSnapshots : SnapshotReceiver;
  asUnapplied : FrameID;
  asHasUnapplied : bool }.

Record Delivery : Type := mkDelivery { dlFrames : list Frame; dlSnapshot : option ReceivedSnapshot }.

Definition NewFrameAssemblerLimits (maxBuffer maxSnapshotBytes : Z) : FrameAssembler :=
  mkAssembler 1 ∅ (if maxBuffer <=? 0 then 256 else maxBuffer) 0 0
    (NewSnapshotReceiver maxSnapshotBytes) 0 false.

Definition NewFrameAssembler (maxBuffer : Z) : FrameAssembler := NewFrameAssemblerLimits maxBuffer 0.

Definition setFrames (a : FrameAssembler) (next : FrameID) (buffer : gmap Z Frame) (dup healed : Z)
    : FrameAssembler :=
  mkAssembler next buffer (asMaxBuffer a) dup healed (asSnapshots a) (asUnapplied a) (asHasUnapplied a).

(** The drain loop: release the contiguous run buffered behind [next]; every
    iteration deletes one buffered frame. *)
Fixpoint drain (fuel : nat) (next : FrameID) (buffer : gmap Z Frame) (released : list Frame)
    : FrameID * gmap Z Frame * list Frame :=
  match fuel with
  | O => (next, buffer, released)
  | S fuel' =>
      match buffer !! next with
      | None => (next, buffer, released)
      | Some buffered => drain fuel' (u32 (next + 1)) (delete next buffer) (released ++ [buffered])
      end
  end.

(** The loop of [IngestFrames]; Go returns the frames released so far next to
    the error. *)
Fixpoint ingestLoop (a : FrameAssembler) (frames released : list Frame)
    : FrameAssembler * list Frame * option LockErr :=
  match frames with
  | [] => (a, released, None)
  | frame :: frames' =>
      if fID frame <? asNext a then
        ingestLoop (setFrames a (asNext a) (asBuffer a) (u64 (asDuplicates a + 1)) (asHealed a)) frames' released
      else if fID frame =? asNext a then
        let '(next, buffer, released) :=
          drain (S (size (asBuffer a))) (u32 (asNext a + 1)) (asBuffer a) (released ++ [frame]) in
        ingestLoop (setFrames a next buffer (asDuplicates a) (asHealed a)) frames' released
      else match asBuffer a !! fID frame with
      | Some _ =>
          ingestLoop (setFrames a (asNext a) (asBuffer a) (u64 (asDuplicates a + 1)) (asHealed a)) frames' released
      | None =>
          if asMaxBuffer a <=? Z.of_nat (size (asBuffer a)) then (a, released, Some ErrHistoryUnknown)
          else ingestLoop (setFrames a (asNext a) (<[fID frame := frame]> (asBuffer a)) (asDuplicates a)
                             (u64 (asHealed a + 1))) frames' released
      end
  end.

Definition IngestFrames (a : FrameAssembler) (frames : list Frame)
    : FrameAssembler * list Frame * option LockErr :=
  if asHasUnapplied a then (a, [], Some ErrSnapshotNotApplied)
  else if Active (asSnapshots a) then
    (setFrames a (asNext a) (asBuffer a) (u64 (asDuplicates a + zlen frames)) (asHealed a), [], None)
  else ingestLoop a frames [].

Definition noticeErr (n : Z * Z * Z) : LockErr :=
  let '(reason, from, start) := n in CatchupUnservable reason from start.

Definition Ingest (a : FrameAssembler) (packet : bytes) : FrameAssembler * list Frame * option LockErr :=
  if IsSnapshotChunk packet then (a, [], Some ErrSnapshotUnsupported)
  else if IsCatchupNotice packet then
    match DecodeCatchupUnservable packet with
    | Err e => (a, [], Some e)
    | Ok notice => (a, [], Some (noticeErr notice))
    end
  else
    match DecodeBroadcast packet with
    | Err e => (a, [], Some e)
    | Ok frames => IngestFrames a frames
    end.

Definition noDelivery : Delivery := mkDelivery [] None.

Definition setSnapshots (a : FrameAssembler) (r : SnapshotReceiver) (unapplied : FrameID) (has : bool)
    : FrameAssembler :=
  mkAssembler (asNext a) (asBuffer a) (asMaxBuffer a) (asDuplicates a) (asHealed a) r unapplied has.

Definition Receive (a : FrameAssembler) (packet : bytes) : FrameAssembler * Delivery * option LockErr :=
  if asHasUnapplied a then (a, noDelivery, Some ErrSnapshotNotApplied)
  else if IsCatchupNotice packet then
    match DecodeCatchupUnservable packet with
    | Err e => (a, noDelivery, Some e)
    | Ok notice => (a, noDelivery, Some (noticeErr notice))
    end
  else if IsSnapshotChunk packet then
    let '(r, res) := Accept (asSnapshots a) packet in
    let a := setSnapshots a r (asUnapplied a) (asHasUnapplied a) in
    match res with
    | Err e => (a, noDelivery, Some e)
    | Ok None => (a, noDelivery, None)
    | Ok (Some snapshot) =>
        (setSnapshots a r (rsFrame snapshot) true, mkDelivery [] (Some snapshot), None)
    end
  else
    match DecodeBroadcast packet with
    | Err e => (a, noDelivery, Some e)
    | Ok frames =>
        let '(a', released, err) := IngestFrames a frames in (a', mkDelivery released None, err)
    end.

Definition ResumeAfterSnapshot (a : FrameAssembler) (frame : FrameID) : FrameAssembler :=
  mkAssembler (u32 (frame + 1)) ∅ (asMaxBuffer a) (asDuplicates a) (asHealed a) (asSnapshots a) 0 false.

Definition SnapshotInProgress (a : FrameAssembler) : bool := Active (asSnapshots a).
Definition Next (a : FrameAssembler) : FrameID := asNext a.
Definition Gap (a : FrameAssembler) : bool := 0 <? Z.of_nat (size (asBuffer a)).
Definition Duplicates (a : FrameAssembler) : Z := asDuplicates a.

(** ** The assembler releases the longest contiguous prefix *)

(** [rel] was released from frame [base] on and [got] are the frames ingested
    since. *)
Record asm_inv (base : FrameID) (a : FrameAssembler) (rel got : list Frame) : Prop := mkAsmInv {
  ai_base : 0 ≤ base;
  ai_next : base ≤ asNext a ≤ MaxUint32;
  ai_rel : map fID rel = seqZ base (asNext a - base);
  ai_rel_got : ∀ f, f ∈ rel → f ∈ got;
  ai_buf : ∀ i f, asBuffer a !! i = Some f → asNext a < i ∧ fID f = i ∧ f ∈ got;
  ai_got : ∀ f, f ∈ got → fID f < MaxUint32 }.

(** Every ingested frame was released or is buffered (as long as nothing was
    refused). *)
Definition asm_full (a : FrameAssembler) (got : list Frame) : Prop :=
  ∀ f, f ∈ got → fID f < asNext a ∨ is_Some (asBuffer a !! fID f).

Lemma drain_spec fuel : ∀ next (buffer : gmap Z Frame) (rel : list Frame) base (got : list Frame),
  (size buffer < fuel)%nat → base ≤ next ≤ MaxUint32 → 0 ≤ base →
  map fID rel = seqZ base (next - base) → (∀ f, f ∈ rel → f ∈ got) →
  (∀ i f, buffer !! i = Some f → next ≤ i ∧ fID f = i ∧ f ∈ got) →
  (∀ f, f ∈ got → fID f < MaxUint32) →
  let '(next', buffer', rel') := drain fuel next buffer rel in
  next ≤ next' ≤ MaxUint32 ∧ map fID rel' = seqZ base (next' - base) ∧ (∀ f, f ∈ rel' → f ∈ got) ∧
  (∀ i f, buffer' !! i = Some f → next' < i ∧ fID f = i ∧ f ∈ got) ∧
  (∀ i, is_Some (buffer !! i) → i < next' ∨ is_Some (buffer' !! i)) ∧
  (size buffer' ≤ size buffer)%nat ∧ (∃ l, rel' = rel ++ l).
Proof.
  induction fuel as [|fuel IH]; intros next buffer rel base got Hf Hn Hb Hrel Hin Hbuf Hgot; [lia|].
  cbn [drain]. destruct (buffer !! next) as [f|] eqn:E.
  - destruct (Hbuf _ _ E) as (_ & Hid & Hfg). pose proof (Hgot f Hfg).
    assert (size (delete next buffer) = size buffer - 1)%nat as Hsz.
    { rewrite map_size_delete, E. lia. }
    assert (size buffer ≠ 0)%nat as Hne.
    { intros H0. apply map_size_empty_inv in H0. by rewrite H0, lookup_empty in E. }
    rewrite (u32_small (next + 1)) by (unfold_int; lia).
    pose proof (IH (next + 1) (delete next buffer) (rel ++ [f]) base got) as H'.
    destruct (drain fuel (next + 1) (delete next buffer) (rel ++ [f])) as [[next' buffer'] rel'].
    destruct H' as (H1 & H2 & H3 & H4 & H5 & H6 & l & ->); try done; try lia.
    + rewrite map_app, Hrel. replace (next + 1 - base) with ((next - base) + 1) by lia.
      rewrite seqZ_snoc by lia. cbn [map]. do 2 f_equal. lia.
    + intros g [?| ->]%elem_of_snoc; auto.
    + intros i g. rewrite lookup_delete_Some. intros [? Hg]. destruct (Hbuf _ _ Hg). split; [lia|done].
    + split; [lia|]. split_and!; try done; try lia.
      * intros i Hi. destruct (decide (i = next)) as [->|]; [left; lia|]. apply H5. by rewrite lookup_delete_ne.
      * exists ([f] ++ l). by rewrite app_assoc.
  - split_and!; try done; try lia; [|by right|exists []; by rewrite app_nil_r].
    intros i g Hg. destruct (Hbuf _ _ Hg) as (? & ? & ?). split; [|done].
    assert (i ≠ next) by congruence. lia.
Qed.

(** One frame that was already released or buffered. *)
Lemma asm_skip base a rel got f dup healed :
  asm_inv base a rel got → fID f < MaxUint32 →
  (fID f < asNext a ∨ is_Some (asBuffer a !! fID f)) →
  let a' := setFrames a (asNext a) (asBuffer a) dup healed in
  asm_inv base a' rel (got ++ [f]) ∧ (asm_full a got → asm_full a' (got ++ [f])).
Proof.
  intros [Hb Hn Hrel Hrg Hbuf Hgot] Hf Hseen a'. split.
  - constructor; cbn; try done.
    + intros g Hg. rewrite elem_of_app. auto.
    + intros i g Hg. destruct (Hbuf i g Hg) as (? & ? & ?). rewrite elem_of_app. auto.
    + intros g [?| ->]%elem_of_snoc; auto.
  - intros Hfull g [?| ->]%elem_of_snoc; cbn; [by apply Hfull|done].
Qed.

(** One frame that has to wait behind a gap. *)
Lemma asm_insert base a rel got f dup healed :
  asm_inv base a rel got → fID f < MaxUint32 → asNext a < fID f →
  let a' := setFrames a (asNext a) (<[fID f := f]> (asBuffer a)) dup healed in
  asm_inv base a' rel (got ++ [f]) ∧ (asm_full a got → asm_full a' (got ++ [f])).
Proof.
  intros [Hb Hn Hrel Hrg Hbuf Hgot] Hf Hlt a'. split.
  - constructor; cbn; try done.
    + intros g Hg. rewrite elem_of_app. auto.
    + intros i g. rewrite lookup_insert_Some, elem_of_app, list_elem_of_singleton.
      intros [[<- <-]|[_ Hg]]; [split; [lia|auto]|]. destruct (Hbuf i g Hg) as (? & ? & ?). auto.
    + intros g [?| ->]%elem_of_snoc; auto.
  - intros Hfull g [Hg| ->]%elem_of_snoc; cbn.
    + destruct (Hfull g Hg) as [?|?]; [by left|]. right. destruct (decide (fID g = fID f)) as [->|].
      * by rewrite lookup_insert_eq.
      * by rewrite lookup_insert_ne.
    + right. by rewrite lookup_insert_eq.
Qed.

Lemma drain_prefix fuel : ∀ n b (pre rel : list Frame),
  drain fuel n b (pre ++ rel) = let '(n', b', rel') := drain fuel n b rel in (n', b', pre ++ rel').
Proof.
  induction fuel as [|fuel IHf]; intros n b pre rel; cbn; [done|].
  destruct (b !! n); [|done]. by rewrite <- app_assoc, IHf.
Qed.

(** The awaited frame, with the run buffered behind it. *)
Lemma asm_release base a rel0 rel got f :
  asm_inv base a (rel0 ++ rel) got → fID f < MaxUint32 → fID f = asNext a →
  let '(next, buffer, rel') := drain (S (size (asBuffer a))) (u32 (asNext a + 1)) (asBuffer a) (rel ++ [f]) in
  let a' := setFrames a next buffer (asDuplicates a) (asHealed a) in
  asNext a < next ∧ (size buffer ≤ size (asBuffer a))%nat ∧ (∃ l, rel' = (rel ++ [f]) ++ l) ∧
  asm_inv base a' (rel0 ++ rel') (got ++ [f]) ∧ (asm_full a got → asm_full a' (got ++ [f])).
Proof.
  intros [Hb Hn Hrel Hrg Hbuf Hgot] Hf Heq.
  assert (∀ g, g ∈ got ++ [f] → fID g < MaxUint32) as Hgot'.
  { intros g [?| ->]%elem_of_snoc; auto. }
  rewrite (u32_small (asNext a + 1)) by (unfold_int; lia).
  pose proof (drain_spec (S (size (asBuffer a))) (asNext a + 1) (asBuffer a) (rel0 ++ rel ++ [f]) base (got ++ [f])) as Hd.
  pose proof (drain_spec (S (size (asBuffer a))) (asNext a + 1) (asBuffer a) (rel ++ [f])) as Hd0.
  rewrite drain_prefix in Hd.
  assert (∀ g, g ∈ rel0 ++ rel ++ [f] → g ∈ got ++ [f]) as Hin.
  { intros g. rewrite app_assoc, !elem_of_app. intros [?|?]; [left; apply Hrg; by rewrite elem_of_app|auto]. }
  assert (∀ i g, asBuffer a !! i = Some g → asNext a + 1 ≤ i ∧ fID g = i ∧ g ∈ got ++ [f]) as Hbuf'.
  { intros i g Hg. destruct (Hbuf i g Hg) as (? & ? & ?). rewrite elem_of_app. split; [lia|auto]. }
  assert (map fID (rel0 ++ rel ++ [f]) = seqZ base (asNext a + 1 - base)) as Hrel'.
  { rewrite app_assoc, map_app, Hrel. replace (asNext a + 1 - base) with ((asNext a - base) + 1) by lia.
    rewrite seqZ_snoc by lia. cbn [map]. do 2 f_equal. lia. }
  destruct (drain (S (size (asBuffer a))) (asNext a + 1) (asBuffer a) (rel ++ [f])) as [[next' buffer'] rel'].
  destruct Hd as (H1 & H2 & H3 & H4 & H5 & H6 & l & Hl); try done; try lia.
  rewrite !app_assoc in Hl. rewrite <- !app_assoc in Hl. apply app_inv_head in Hl. subst rel'.
  split; [lia|]. split; [done|]. split; [exists l; by rewrite <- app_assoc|]. split.
  - constructor; cbn; try done. lia.
  - intros Ha g [Hg| ->]%elem_of_snoc; cbn; [|left; lia].
    destruct (Ha g Hg) as [?|?]; [left; lia|auto].
Qed.

Definition same_config (a a' : FrameAssembler) : Prop :=
  asMaxBuffer a' = asMaxBuffer a ∧ asSnapshots a' = asSnapshots a ∧
  asHasUnapplied a' = asHasUnapplied a ∧ asUnapplied a' = asUnapplied a.

(** What a run of the loop guarantees. *)
Definition loop_post (base : FrameID) (rel0 rel got frames : list Frame) (a : FrameAssembler)
    (out : FrameAssembler * list Frame * option LockErr) : Prop :=
  let '(a', rel', err) := out in
  (∃ l, rel' = rel ++ l) ∧ asm_inv base a' (rel0 ++ rel') (got ++ frames) ∧
  asNext a ≤ asNext a' ∧ same_config a a' ∧
  (Z.of_nat (size (asBuffer a)) ≤ asMaxBuffer a → Z.of_nat (size (asBuffer a')) ≤ asMaxBuffer a) ∧
  (err = None → asm_full a got → asm_full a' (got ++ frames)).

Lemma loop_post_step base rel0 rel l got f frames a a1 out :
  loop_post base rel0 (rel ++ l) (got ++ [f]) frames a1 out →
  asNext a ≤ asNext a1 → same_config a a1 →
  (Z.of_nat (size (asBuffer a)) ≤ asMaxBuffer a → Z.of_nat (size (asBuffer a1)) ≤ asMaxBuffer a) →
  (asm_full a got → asm_full a1 (got ++ [f])) →
  loop_post base rel0 rel got (f :: frames) a out.
Proof.
  destruct out as [[a' rel'] err].
  intros ([l' ->] & Hi & Hn & (C1 & C2 & C3 & C4) & Hs & Hf) Hn1 (D1 & D2 & D3 & D4) Hs1 Hf1.
  rewrite <- (app_assoc got) in Hi, Hf. cbn [app] in Hi, Hf.
  split; [exists (l ++ l'); by rewrite app_assoc|]. split; [done|]. split; [lia|].
  split; [split_and!; congruence|]. split; [intros; rewrite D1 in Hs; auto|auto].
Qed.

Lemma ingestLoop_inv base frames : ∀ a rel0 rel got,
  asm_inv base a (rel0 ++ rel) got → Forall (λ f, fID f < MaxUint32) frames →
  loop_post base rel0 rel got frames a (ingestLoop a frames rel).
Proof.
  induction frames as [|f frames IH]; intros a rel0 rel got Hinv Hfs.
  { unfold loop_post. cbn. rewrite !app_nil_r. split; [exists []; by rewrite app_nil_r|]. by split_and!. }
  apply Forall_cons in Hfs as [Hf Hfs].
  cbn [ingestLoop]. destruct (Z.ltb_spec (fID f) (asNext a)) as [Hlt|Hge].
  { destruct (asm_skip base a _ got f (u64 (asDuplicates a + 1)) (asHealed a) Hinv Hf (or_introl Hlt)) as [Hi Hfl].
    eapply (loop_post_step _ _ rel []); rewrite ?app_nil_r; [by apply IH|done..]. }
  destruct (Z.eqb_spec (fID f) (asNext a)) as [Heq|Hne].
  { pose proof (asm_release base a rel0 rel got f Hinv Hf Heq) as Hr.
    destruct (drain _ _ _ _) as [[next buffer] rel1]. destruct Hr as (Hn & Hs & [l ->] & Hi & Hfl).
    rewrite <- app_assoc in *. eapply (loop_post_step _ _ rel); [by apply IH|cbn; lia|done|cbn; lia|done]. }
  destruct (asBuffer a !! fID f) as [g|] eqn:E.
  { destruct (asm_skip base a _ got f (u64 (asDuplicates a + 1)) (asHealed a) Hinv Hf) as [Hi Hfl]; [right; by eexists|].
    eapply (loop_post_step _ _ rel []); rewrite ?app_nil_r; [by apply IH|done..]. }
  destruct (Z.leb_spec (asMaxBuffer a) (Z.of_nat (size (asBuffer a)))) as [Hfullb|Hroom].
  { destruct Hinv as [Hb Hn Hrel Hrg Hbuf Hgot]. split; [exists []; by rewrite app_nil_r|].
    split; [|by split_and!]. constructor; try done.
    - intros g Hg. rewrite elem_of_app. auto.
    - intros i g Hg. destruct (Hbuf i g Hg) as (? & ? & ?). rewrite elem_of_app. auto.
    - intros g [Hg|[->|Hg]%elem_of_cons]%elem_of_app; [by apply Hgot|done|].
      by eapply Forall_forall in Hfs. }
  destruct (asm_insert base a _ got f (asDuplicates a) (u64 (asHealed a + 1)) Hinv Hf) as [Hi Hfl]; [lia|].
  eapply (loop_post_step _ _ rel []); rewrite ?app_nil_r; [by apply IH|done|done| |done].
  intros _. cbn. rewrite map_size_insert, E. lia.
Qed.

(** ** Ingesting batches *)

Fixpoint ingestAll (a : FrameAssembler) (batches : list (list Frame))
    : FrameAssembler * list Frame * list (option LockErr) :=
  match batches with
  | [] => (a, [], [])
  | b :: batches' =>
      let '(a1, rel, err) := IngestFrames a b in
      let '(a2, rels, errs) := ingestAll a1 batches' in (a2, rel ++ rels, err :: errs)
  end.

(** No snapshot is being transferred or waiting to be applied. *)
Definition live (a : FrameAssembler) : Prop :=
  asHasUnapplied a = false ∧ Active (asSnapshots a) = false.

Lemma IngestFrames_live a frames : live a → IngestFrames a frames = ingestLoop a frames [].
Proof. intros [H1 H2]. unfold IngestFrames. by rewrite H1, H2. Qed.

Lemma same_config_live a a' : same_config a a' → live a → live a'.
Proof. unfold live. intros (_ & -> & -> & _). done. Qed.

Lemma ingestAll_inv base batches : ∀ a rel0 got,
  live a → asm_inv base a rel0 got → Forall (λ f, fID f < MaxUint32) (concat batches) →
  Z.of_nat (size (asBuffer a)) ≤ asMaxBuffer a →
  let '(a', rel, errs) := ingestAll a batches in
  asm_inv base a' (rel0 ++ rel) (got ++ concat batches) ∧ live a' ∧
  asMaxBuffer a' = asMaxBuffer a ∧ Z.of_nat (size (asBuffer a')) ≤ asMaxBuffer a ∧
  (Forall (λ e, e = None) errs → asm_full a got → asm_full a' (got ++ concat batches)).
Proof.
  induction batches as [|b batches IH]; intros a rel0 got Hlive Hinv Hfs Hsz; cbn.
  { rewrite !app_nil_r. done. }
  cbn in Hfs. apply Forall_app in Hfs as [Hb Hfs]. rewrite (IngestFrames_live a b Hlive).
  pose proof (ingestLoop_inv base b a rel0 [] got) as Hl. rewrite app_nil_r in Hl.
  specialize (Hl Hinv Hb). destruct (ingestLoop a b []) as [[a1 rel] err].
  destruct Hl as ([l ->] & Hi & Hn & Hc & Hs & Hfull). cbn [app] in *.
  pose proof (same_config_live _ _ Hc Hlive) as Hlive1. pose proof Hc as (Hmb & _).
  specialize (IH a1 (rel0 ++ l) (got ++ b) Hlive1 Hi Hfs). rewrite Hmb in IH. specialize (IH (Hs Hsz)).
  destruct (ingestAll a1 batches) as [[a2 rels] errs]. rewrite !app_assoc.
  destruct IH as (? & ? & ? & ? & Hf2). split_and!; try done; try congruence.
  intros [He Hes]%Forall_cons Hfa. auto.
Qed.

(** Frames are released strictly in order, and exactly when they can be:
    whatever duplicated, reordered or lost batches arrive, the released ids
    are 1, 2, 3, ..., every released frame was received, the out-of-order
    buffer keeps its bound, and - as long as no gap error was reported - what
    is released is the longest contiguous prefix of what was received. *)
Theorem assembler_releases_prefix maxBuffer batches a rel errs :
  Forall (λ f, fID f < MaxUint32) (concat batches) →
  ingestAll (NewFrameAssembler maxBuffer) batches = (a, rel, errs) →
  map fID rel = seqZ 1 (Next a - 1) ∧
  (∀ f, f ∈ rel → f ∈ concat batches) ∧
  Z.of_nat (size (asBuffer a)) ≤ asMaxBuffer a ∧
  (Forall (λ e, e = None) errs → ∀ i, 1 ≤ i →
     (i < Next a ↔ ∀ j, 1 ≤ j ≤ i → ∃ f, f ∈ concat batches ∧ fID f = j)).
Proof.
  intros Hfs HR.
  pose proof (ingestAll_inv 1 batches (NewFrameAssembler maxBuffer) [] []) as H.
  rewrite HR in H. destruct H as (Hinv & Hlive & Hmb & Hsz & Hfull).
  - done.
  - constructor; cbn; try done. intros ? Hf. by apply not_elem_of_nil in Hf.
  - done.
  - change (asBuffer (NewFrameAssembler maxBuffer)) with (∅ : gmap Z Frame). rewrite map_size_empty.
    cbn. destruct (Z.leb_spec maxBuffer 0); lia.
  - cbn [app] in *. destruct Hinv as [Hb Hn Hrel Hrg Hbuf Hgot]. rewrite <- Hmb in Hsz.
    split_and!; [done|done|done|]. intros Herr i Hi. unfold Next in *. split.
    + intros Hlt j Hj. assert (j ∈ map fID rel) as Hin by (rewrite Hrel; apply elem_of_seqZ; lia).
      apply list_elem_of_fmap in Hin as (f & -> & Hf). eauto.
    + intros Hall. apply Z.nle_gt. intros Hge.
      destruct (Hall (asNext a) ltac:(lia)) as (f & Hf & Hid).
      destruct (Hfull Herr) with f as [?|[g Hg]]; [|done|lia|].
      * intros ? ?%not_elem_of_nil. done.
      * apply Hbuf in Hg. lia.
Qed.

Example assembler_releases_prefix_witness :
  let batches := [[mkFrame 2 []; mkFrame 3 []]; [mkFrame 1 []; mkFrame 2 []]; [mkFrame 5 []]] in
  let a := fst (fst (ingestAll (NewFrameAssembler 4) batches)) in
  map fID [mkFrame 1 []; mkFrame 2 []; mkFrame 3 []] = seqZ 1 (Next a - 1) ∧
  (∀ f, f ∈ [mkFrame 1 []; mkFrame 2 []; mkFrame 3 []] → f ∈ concat batches) ∧
  Z.of_nat (size (asBuffer a)) ≤ asMaxBuffer a ∧
  (Forall (λ e, e = None) [None; None; @None LockErr] → ∀ i, 1 ≤ i →
     (i < Next a ↔ ∀ j, 1 ≤ j ≤ i → ∃ f, f ∈ concat batches ∧ fID f = j)).
Proof.
  intros batches a. apply (assembler_releases_prefix 4 batches a); [by_compute | reflexivity].
Defined.

(** ** End to end: redundancy heals loss *)

(** The broadcast packets of a match, by push number. *)
Definition broadcasts (depth : Z) (frames : list Frame) : list bytes :=
  snd (PushAll (NewRedundantEncoder depth) frames).

(** [covered d n idxs]: packets [idxs] (push numbers) arrive in this order when
    [n] frames are already covered; [None] when a packet arrives whose oldest
    frame leaves a gap, i.e. [d] consecutive packets were lost. *)
Fixpoint covered (d n : nat) (idxs : list nat) : option nat :=
  match idxs with
  | [] => Some n
  | i :: idxs' => if decide (i < n + d)%nat then covered d (Nat.max n (S i)) idxs' else None
  end.

Fixpoint ingestPackets (a : FrameAssembler) (packets : list bytes)
    : FrameAssembler * list Frame * list (option LockErr) :=
  match packets with
  | [] => (a, [], [])
  | p :: packets' =>
      let '(a1, rel, err) := Ingest a p in
      let '(a2, rels, errs) := ingestPackets a1 packets' in (a2, rel ++ rels, err :: errs)
  end.

(** Frames with consecutive ids, from [first]. *)
Definition numbered (first : Z) (fs : list Frame) : Prop :=
  ∀ i f, fs !! i = Some f → fID f = first + Z.of_nat i.

Lemma numbered_drop first fs n : numbered first fs → numbered (first + Z.of_nat n) (drop n fs).
Proof. intros H i f. rewrite lookup_drop. intros Hf. rewrite (H _ _ Hf). lia. Qed.

Lemma numbered_take first fs n : numbered first fs → numbered first (take n fs).
Proof. intros H i f [Hf _]%lookup_take_Some. by apply H. Qed.

Lemma numbered_tail first f fs : numbered first (f :: fs) → fID f = first ∧ numbered (first + 1) fs.
Proof.
  intros H. split; [rewrite (H 0%nat f eq_refl); lia|].
  intros i g Hg. rewrite (H (S i) g Hg). lia.
Qed.

Lemma numbered_increasing fs : ∀ first last, numbered first fs → last < first → increasing_from last fs.
Proof.
  induction fs as [|f fs IH]; intros first last H Hl; [done|].
  apply numbered_tail in H as [Hf H]. split; [lia|]. apply (IH (first + 1)); [done|lia].
Qed.

(** Consecutive frames against an empty buffer: the old ones are skipped, the
    new ones released. *)
Lemma ingest_numbered fs : ∀ a first rel,
  asBuffer a = ∅ → 1 ≤ first ≤ asNext a → numbered first fs → first + zlen fs ≤ MaxUint32 →
  let '(a', rel', err) := ingestLoop a fs rel in
  err = None ∧ asBuffer a' = ∅ ∧ asNext a' = Z.max (asNext a) (first + zlen fs) ∧ same_config a a' ∧
  rel' = rel ++ drop (Z.to_nat (asNext a - first)) fs.
Proof.
  induction fs as [|f fs IH]; intros a first rel Hb Hf Hnum Hmax; cbn [ingestLoop].
  { change (zlen (@nil Frame)) with 0 in *. rewrite drop_nil, app_nil_r.
    split_and!; try done. lia. }
  apply numbered_tail in Hnum as [Hid Hnum]. rewrite zlen_cons in *. pose proof (zlen_nonneg fs).
  destruct (Z.ltb_spec (fID f) (asNext a)) as [Hlt|Hge].
  - pose proof (IH (setFrames a (asNext a) (asBuffer a) (u64 (asDuplicates a + 1)) (asHealed a)) (first + 1) rel) as H'.
    destruct (ingestLoop _ fs rel) as [[a' rel'] err]. cbn in H'.
    destruct H' as (? & ? & Hn & ? & ->); try done; try lia. split_and!; try done; [lia|].
    replace (Z.to_nat (asNext a - first)) with (S (Z.to_nat (asNext a - (first + 1)))) by lia. done.
  - destruct (Z.eqb_spec (fID f) (asNext a)); [|lia]. rewrite Hb, map_size_empty. cbn [drain].
    rewrite lookup_empty. rewrite (u32_small (asNext a + 1)) by (unfold_int; lia).
    pose proof (IH (setFrames a (asNext a + 1) ∅ (asDuplicates a) (asHealed a)) (first + 1) (rel ++ [f])) as H'.
    destruct (ingestLoop _ fs (rel ++ [f])) as [[a' rel'] err]. cbn in H'.
    destruct H' as (? & ? & Hn & ? & ->); try done; try lia. split_and!; try done; [lia|].
    rewrite <- app_assoc. f_equal.
    replace (Z.to_nat (asNext a - first)) with 0%nat by lia.
    by replace (Z.to_nat (asNext a + 1 - (first + 1))) with 0%nat by lia.
Qed.

Lemma EncodeBroadcast_kind fs :
  IsSnapshotChunk (EncodeBroadcast fs) = false ∧ IsCatchupNotice (EncodeBroadcast fs) = false.
Proof.
  unfold IsSnapshotChunk, IsCatchupNotice, EncodeBroadcast. cbn [app].
  split; apply andb_false_iff; right; reflexivity.
Qed.

(** The packet of push [i] carries the last [d] frames up to frame [i]. *)
Lemma broadcasts_lookup depth frames i :
  (i < length frames)%nat →
  broadcasts depth frames !!! i =
    EncodeBroadcast (lastn (Z.to_nat (NormalizeRedundancyDepth depth)) (take (S i) frames)).
Proof.
  intros Hi. unfold broadcasts.
  destruct (PushAll_spec frames _ _ (new_encoder_holds depth)) as [_ ->].
  apply lookup_lt_is_Some_2 in Hi as [f Hf].
  apply list_lookup_total_correct. rewrite list_lookup_imap, Hf, new_encoder_depth.
  by rewrite app_nil_l.
Qed.

Lemma packet_of_wf frames d i :
  (0 < d)%nat → Z.of_nat d ≤ MaxBroadcastFrames → (i < length frames)%nat →
  numbered 1 frames → Forall frame_wf frames →
  let fs := lastn d (take (S i) frames) in
  packet_wf fs ∧ numbered (1 + Z.of_nat (S i - d)) fs ∧ length fs = Nat.min (S i) d.
Proof.
  intros Hd Hmax Hi Hnum Hwf fs.
  assert (length fs = Nat.min (S i) d) as Hlen.
  { unfold fs. rewrite length_lastn, length_take. lia. }
  assert (numbered (1 + Z.of_nat (S i - d)) fs) as Hn.
  { unfold fs, lastn. rewrite length_take. replace (S i `min` length frames - d)%nat with (S i - d)%nat by lia.
    by apply numbered_drop, numbered_take. }
  split_and!; try done. split_and!.
  - unfold zlen. rewrite Hlen. lia.
  - apply Forall_drop, Forall_take, Hwf.
  - eapply numbered_increasing; [done|lia].
Qed.

Lemma heal_run depth frames idxs : ∀ a n m,
  numbered 1 frames → Forall frame_wf frames → zlen frames < MaxUint32 →
  live a → asBuffer a = ∅ → asNext a = Z.of_nat n + 1 → (n ≤ length frames)%nat →
  Forall (λ i, (i < length frames)%nat) idxs →
  covered (Z.to_nat (NormalizeRedundancyDepth depth)) n idxs = Some m →
  let '(a', rel, errs) := ingestPackets a (map (λ i, broadcasts depth frames !!! i) idxs) in
  rel = drop n (take m frames) ∧ Forall (λ e, e = None) errs ∧ Next a' = Z.of_nat m + 1.
Proof.
  pose proof (normalize_depth_range depth) as Hd. set (d := Z.to_nat (NormalizeRedundancyDepth depth)) in *.
  induction idxs as [|i idxs IH]; intros a n m Hnum Hwf Hmax Hlive Hbuf Hnext Hn Hi Hcov.
  { cbn in *. injection Hcov as ->. rewrite drop_ge by (rewrite length_take; lia). done. }
  apply Forall_cons in Hi as [Hi His]. cbn [map ingestPackets covered] in *.
  case_decide as Hgap; [|done].
  destruct (packet_of_wf frames d i) as (Hpwf & Hpn & Hpl); try done; try lia.
  rewrite (broadcasts_lookup depth frames i Hi). fold d. set (fs := lastn d (take (S i) frames)) in *.
  unfold Ingest. destruct (EncodeBroadcast_kind fs) as [-> ->].
  pose proof (decode_broadcast_encode fs [] Hpwf) as Hdec. rewrite app_nil_r in Hdec.
  change (zlen (@nil Z) =? 0) with true in Hdec. cbv iota in Hdec. rewrite Hdec.
  rewrite (IngestFrames_live a fs Hlive).
  pose proof (ingest_numbered fs a (1 + Z.of_nat (S i - d)) [] Hbuf ltac:(lia) Hpn) as Hing.
  destruct (ingestLoop a fs []) as [[a1 rel] err].
  destruct Hing as (-> & Hb1 & Hn1 & Hc1 & ->); [unfold zlen in *; lia|].
  assert (asNext a1 = Z.of_nat (Nat.max n (S i)) + 1) as Hnext1 by (rewrite Hn1; unfold zlen; lia).
  specialize (IH a1 (Nat.max n (S i)) m Hnum Hwf Hmax (same_config_live _ _ Hc1 Hlive) Hb1 Hnext1 ltac:(lia) His Hcov).
  destruct (ingestPackets a1 _) as [[a2 rels] errs]. destruct IH as (-> & He & Hn2).
  split; [|split; [by constructor|done]]. cbn [app]. unfold fs, lastn.
  rewrite drop_drop, length_take.
  replace (S i `min` length frames - d + Z.to_nat (asNext a - (1 + Z.of_nat (S i - d))))%nat with n by lia.
  assert (Nat.max n (S i) ≤ m)%nat as Hmono.
  { clear -Hcov. revert Hcov. generalize (Nat.max n (S i)). induction idxs as [|j idxs IH]; intros k; cbn; [by intros [= ->]|].
    case_decide; [|done]. intros Hm%IH. lia. }
  destruct (Nat.max_spec n (S i)) as [[? E]|[? E]]; rewrite E in *.
  - rewrite <- (take_drop (S i) (take m frames)) at 2. rewrite take_take.
    replace (S i `min` m)%nat with (S i) by lia.
    rewrite drop_app_le by (rewrite length_take; lia). done.
  - rewrite drop_ge by (rewrite length_take; lia). done.
Qed.

(** Redundancy heals loss end to end: the frames of a match go through the
    redundancy encoder and the datagram codec; whatever packets are lost,
    repeated or overtaken, as long as fewer than [depth] packets in a row are
    missing when a newer one arrives, the assembler reports no error and
    releases exactly the frames up to the newest one received, each once and
    unchanged. *)
Theorem redundancy_heals depth frames idxs n maxBuffer :
  numbered 1 frames → Forall frame_wf frames → zlen frames < MaxUint32 →
  Forall (λ i, (i < length frames)%nat) idxs →
  covered (Z.to_nat (NormalizeRedundancyDepth depth)) 0 idxs = Some n →
  let '(a, rel, errs) :=
    ingestPackets (NewFrameAssembler maxBuffer) (map (λ i, broadcasts depth frames !!! i) idxs) in
  rel = take n frames ∧ Forall (λ e, e = None) errs ∧ Next a = Z.of_nat n + 1.
Proof.
  intros Hnum Hwf Hmax Hi Hcov.
  pose proof (heal_run depth frames idxs (NewFrameAssembler maxBuffer) 0 n) as H.
  destruct (ingestPackets _ _) as [[a rel] errs]. rewrite drop_0 in H.
  apply H; try done. lia.
Qed.

Definition sample_match : list Frame :=
  [mkFrame 1 [mkInput 0 [1]]; mkFrame 2 []; mkFrame 3 [mkInput 1 [2]]; mkFrame 4 []; mkFrame 5 []; mkFrame 6 []].

Lemma sample_match_numbered : numbered 1 sample_match.
Proof.
  intros i f Hf. do 6 (destruct i as [|i]; [by injection Hf as <-|]). done.
Qed.

Example redundancy_heals_witness :
  let '(a, rel, errs) :=
    ingestPackets (NewFrameAssembler 4) (map (λ i, broadcasts 3 sample_match !!! i) [2; 1; 5]%nat) in
  rel = take 6 sample_match ∧ Forall (λ e, e = None) errs ∧ Next a = Z.of_nat 6 + 1.
Proof.
  apply (redundancy_heals 3 sample_match [2; 1; 5]%nat 6 4);
    [apply sample_match_numbered | by_compute | by_compute | repeat constructor | reflexivity].
Defined.

(** ** A client across snapshots *)

(** What drives a client: packets from the route, and its own application of a
    delivered snapshot. *)
Inductive ClientEv : Type := CPacket (packet : bytes) | CApply.

(** [pos] is the last frame the simulation executed (or the frame of the
    snapshot it restored); the trace pairs it with each delivery. *)
Fixpoint clientRun (a : FrameAssembler) (pos : FrameID) (evs : list ClientEv)
    : FrameAssembler * list (FrameID * Delivery * option LockErr) :=
  match evs with
  | [] => (a, [])
  | CPacket p :: evs' =>
      let '(a1, d, err) := Receive a p in
      let pos1 := default pos (fID <$> last (dlFrames d)) in
      let '(a2, tr) := clientRun a1 pos1 evs' in (a2, (pos, d, err) :: tr)
  | CApply :: evs' =>
      if asHasUnapplied a
      then clientRun (ResumeAfterSnapshot a (asUnapplied a)) (asUnapplied a) evs'
      else clientRun a pos evs'
  end.

(** The client stands after frame [pos] and its buffer holds frames under
    their own ids.  After frame 2^32-1 the awaited id has wrapped to zero, which
    no decoded frame has. *)
Record client_inv (a : FrameAssembler) (pos : FrameID) : Prop := mkClientInv {
  ci_pos : 0 ≤ pos ≤ MaxUint32;
  ci_next : asNext a = u32 (pos + 1);
  ci_buffer : ∀ i f, asBuffer a !! i = Some f → fID f = i ∧ 0 < i ≤ MaxUint32;
  ci_header : is_u32 (scFrame (rvHeader (asSnapshots a)));
  ci_unapplied : is_u32 (asUnapplied a) }.

(** [l] are the frames right after [pos]. *)
Definition follows (pos : FrameID) (l : list Frame) : Prop :=
  map fID l = seqZ (pos + 1) (zlen l) ∧ pos + zlen l ≤ MaxUint32.

Lemma follows_nil pos : pos ≤ MaxUint32 → follows pos [].
Proof. intros H. split; [by rewrite seqZ_nil|]. change (zlen (@nil Frame)) with 0. lia. Qed.

Lemma follows_cons pos f l : fID f = pos + 1 → follows (pos + 1) l → follows pos (f :: l).
Proof.
  intros Hf [Hl Hb]. unfold follows. rewrite zlen_cons. zlen_facts. split; [|lia].
  rewrite seqZ_cons by lia. cbn. rewrite Hf, Hl. do 2 f_equal; lia.
Qed.

Lemma follows_app pos l1 l2 : follows pos l1 → follows (pos + zlen l1) l2 → follows pos (l1 ++ l2).
Proof.
  intros [H1 _] [H2 Hb]. unfold follows. rewrite zlen_app. zlen_facts. split; [|lia].
  rewrite map_app, H1, H2, seqZ_app by lia. do 2 f_equal. lia.
Qed.

(** The awaited frame, when it has a decoded frame's id. *)
Lemma awaited pos f : 0 ≤ pos ≤ MaxUint32 → 0 < fID f ≤ MaxUint32 → fID f = u32 (pos + 1) → fID f = pos + 1 ∧ pos + 1 ≤ MaxUint32.
Proof.
  intros Hp Hf E. destruct (decide (pos = MaxUint32)) as [->|Hne].
  - vm_compute (u32 (MaxUint32 + 1)) in E. lia.
  - rewrite u32_small in E by (unfold_int; lia). lia.
Qed.

Lemma drain_client fuel : ∀ pos (buffer : gmap Z Frame) rel,
  0 ≤ pos ≤ MaxUint32 → (∀ i f, buffer !! i = Some f → fID f = i ∧ 0 < i ≤ MaxUint32) →
  let '(next, buffer', rel') := drain fuel (u32 (pos + 1)) buffer rel in
  ∃ l, rel' = rel ++ l ∧ follows pos l ∧ next = u32 (pos + zlen l + 1) ∧
    (∀ i f, buffer' !! i = Some f → fID f = i ∧ 0 < i ≤ MaxUint32).
Proof.
  assert (∀ pos (buffer : gmap Z Frame) (rel : list Frame), 0 ≤ pos ≤ MaxUint32 → (∀ i f, buffer !! i = Some f → fID f = i ∧ 0 < i ≤ MaxUint32) →
    ∃ l, rel = rel ++ l ∧ follows pos l ∧ u32 (pos + 1) = u32 (pos + zlen l + 1) ∧
      (∀ i f, buffer !! i = Some f → fID f = i ∧ 0 < i ≤ MaxUint32)) as Hstop.
  { intros pos buffer rel Hp Hb. exists []. rewrite app_nil_r, zlen_nil, Z.add_0_r. split_and!; [done|apply follows_nil; lia|done|done]. }
  induction fuel as [|fuel IH]; intros pos buffer rel Hp Hb; cbn [drain]; [by apply Hstop|].
  destruct (buffer !! u32 (pos + 1)) as [f|] eqn:E; [|by apply Hstop].
  destruct (Hb _ _ E) as [Hid Hpos]. rewrite <- Hid in Hpos. destruct (awaited pos f Hp Hpos Hid) as [Hf Hle].
  rewrite <- Hid, Hf. specialize (IH (pos + 1) (delete (pos + 1) buffer) (rel ++ [f]) ltac:(lia)).
  destruct (drain fuel _ _ _) as [[next buffer'] rel']. destruct IH as (l & -> & Hl & -> & Hb').
  { intros i g [_ Hg]%lookup_delete_Some. by apply Hb. }
  exists (f :: l). rewrite zlen_cons, <- app_assoc. split_and!; [done|by apply follows_cons|f_equal; lia|done].
Qed.

Lemma ingestLoop_client frames : ∀ a pos rel,
  client_inv a pos → Forall (λ f, 0 < fID f ≤ MaxUint32) frames →
  let '(a', rel', err) := ingestLoop a frames rel in
  ∃ l, rel' = rel ++ l ∧ follows pos l ∧ client_inv a' (pos + zlen l) ∧ asHasUnapplied a' = asHasUnapplied a.
Proof.
  induction frames as [|f frames IH]; intros a pos rel Hinv Hfs; cbn [ingestLoop].
  { exists []. rewrite app_nil_r, zlen_nil, Z.add_0_r. destruct Hinv. split_and!; [done|apply follows_nil; lia|done|done]. }
  apply Forall_cons in Hfs as [Hf Hfs]. pose proof Hinv as [Hp Hn Hb Hh Hu].
  destruct (fID f <? asNext a); [apply (IH (setFrames a (asNext a) (asBuffer a) (u64 (asDuplicates a + 1)) (asHealed a)) pos rel); [by constructor|done]|]. destruct (Z.eqb_spec (fID f) (asNext a)) as [Heq|_].
  - rewrite Hn in Heq. destruct (awaited pos f Hp Hf Heq) as [Hid Hle].
    rewrite Hn, <- Heq, Hid. pose proof (drain_client (S (size (asBuffer a))) (pos + 1) (asBuffer a) (rel ++ [f]) ltac:(lia) Hb) as Hd.
    destruct (drain _ _ _ _) as [[next buffer] rel']. destruct Hd as (l & -> & Hl & -> & Hb').
    assert (follows pos (f :: l)) as Hfl by (by apply follows_cons).
    assert (client_inv (setFrames a (u32 (pos + 1 + zlen l + 1)) buffer (asDuplicates a) (asHealed a)) (pos + zlen (f :: l))) as Hinv1.
    { destruct Hfl as [_ Hle']. pose proof (zlen_nonneg (f :: l)). rewrite zlen_cons in *. constructor; cbn; try done; [lia|f_equal; lia]. }
    specialize (IH _ _ ((rel ++ [f]) ++ l) Hinv1 Hfs). destruct (ingestLoop _ _ _) as [[a' rel'] err]. destruct IH as (l' & -> & Hl' & Hinv' & Hhas).
    exists ((f :: l) ++ l'). split_and!; [by rewrite <- !app_assoc|by apply follows_app|by rewrite zlen_app, Z.add_assoc|done].
  - destruct (asBuffer a !! fID f); [apply (IH (setFrames a (asNext a) (asBuffer a) (u64 (asDuplicates a + 1)) (asHealed a)) pos rel); [by constructor|done]|]. destruct (_ <=? _).
    { exists []. rewrite app_nil_r, zlen_nil, Z.add_0_r. split_and!; [done|apply follows_nil; lia|done|done]. }
    apply (IH (setFrames a (asNext a) (<[fID f := f]> (asBuffer a)) (asDuplicates a) (u64 (asHealed a + 1))) pos rel); [|done].
    constructor; cbn; try done. intros i g [[<- <-]|[_ Hg]]%lookup_insert_Some; [done|by apply Hb].
Qed.

(** The ids a decoded packet carries. *)
Lemma decoded_ids packet fs : DecodeBroadcast packet = Ok fs → Forall (λ f, 0 < fID f ≤ MaxUint32) fs.
Proof.
  unfold DecodeBroadcast. intros H. inv_ok. to_prop. apply decodeFrames_sound in E2 as (_ & Hwf & _); [|lia].
  eapply Forall_impl; [exact Hwf|]. by intros f [? _].
Qed.

Lemma decode_chunk_frame p limit c : DecodeSnapshotChunk p limit = Ok c → is_u32 (scFrame c).
Proof.
  intros H. pose proof (decode_chunk_sound _ _ _ H) as (_ & _ & _ & Hf & Hhdr).
  destruct (scFirst c) eqn:E; [by destruct Hhdr as (_ & ? & _)|].
  revert H. unfold DecodeSnapshotChunk. intros H. inv_ok.
  destruct (Z.eqb_spec z0 0) as [->|]; [|by inv_ok].
  unfold decodeChunkHeader in E4. inv_ok. by cbn in E.
Qed.

(** The header a receiver holds, and the snapshot it hands out, come from a
    decoded chunk. *)
Lemma Accept_header r p : is_u32 (scFrame (rvHeader r)) →
  let '(r', res) := Accept r p in
  is_u32 (scFrame (rvHeader r')) ∧ match res with Ok (Some s) => is_u32 (rsFrame s) | _ => True end.
Proof.
  intros Hr. unfold Accept. destruct (DecodeSnapshotChunk p (rvMaxBytes r)) as [c|e] eqn:E; [|by split].
  apply decode_chunk_frame in E.
  assert (∀ r1, is_u32 (scFrame (rvHeader r1)) →
    let '(r', res) := acceptData r1 c in
    is_u32 (scFrame (rvHeader r')) ∧ match res with Ok (Some s) => is_u32 (rsFrame s) | _ => True end) as Hacc.
  { intros r1 H1. unfold acceptData. destruct (_ <? _); [done|]. destruct (_ <? _); [done|]. by destruct (negb _). }
  destruct (negb (scTransfer c =? rvTransfer r)).
  - destruct (negb (scFirst c)); [done|]. by apply Hacc.
  - destruct (_ || _); [done|]. destruct (_ <? _); [done|]. by apply Hacc.
Qed.

Lemma last_seqZ {A} (f : A → Z) l b n :
  map f l = seqZ b n → l ≠ [] → f <$> last l = Some (b + n - 1).
Proof.
  intros H Hne. rewrite <- fmap_last. change (f <$> l) with (map f l). rewrite H.
  destruct (decide (0 < n)) as [Hn|Hn].
  - replace n with ((n - 1) + 1) at 1 by lia. rewrite seqZ_snoc by lia.
    rewrite last_snoc. f_equal. lia.
  - rewrite seqZ_nil in H by lia. by destruct l.
Qed.

Lemma follows_last pos l : follows pos l → default pos (fID <$> last l) = pos + zlen l.
Proof.
  intros [Hl _]. destruct (decide (l = [])) as [->|Hne]; [by rewrite zlen_nil, Z.add_0_r|].
  rewrite (last_seqZ _ _ _ _ Hl Hne). cbn. lia.
Qed.

Lemma IngestFrames_client a pos fs :
  client_inv a pos → Forall (λ f, 0 < fID f ≤ MaxUint32) fs →
  let '(a', rel, err) := IngestFrames a fs in follows pos rel ∧ client_inv a' (pos + zlen rel).
Proof.
  intros Hinv Hfs. pose proof (ci_pos _ _ Hinv). unfold IngestFrames.
  destruct (asHasUnapplied a); [split; [apply follows_nil; lia|by rewrite zlen_nil, Z.add_0_r]|].
  destruct (Active (asSnapshots a)); [split; [apply follows_nil; lia|rewrite zlen_nil, Z.add_0_r; by destruct Hinv]|].
  pose proof (ingestLoop_client fs a pos [] Hinv Hfs) as H'. destruct (ingestLoop a fs []) as [[a' rel] err].
  by destruct H' as (l & -> & ? & ? & _).
Qed.

Lemma Receive_client a pos p :
  client_inv a pos →
  let '(a', d, err) := Receive a p in
  follows pos (dlFrames d) ∧ client_inv a' (pos + zlen (dlFrames d)) ∧ (dlSnapshot d ≠ None → dlFrames d = [] ∧ err = None).
Proof.
  intros Hinv. pose proof (ci_pos _ _ Hinv).
  assert (∀ a' s (err : option LockErr), client_inv a' pos → (s ≠ None → err = None) →
    follows pos (dlFrames (mkDelivery [] s)) ∧ client_inv a' (pos + zlen (dlFrames (mkDelivery [] s))) ∧
    (dlSnapshot (mkDelivery [] s) ≠ None → dlFrames (mkDelivery [] s) = [] ∧ err = None)) as Hnone.
  { intros a' s err Ha Hs. cbn [dlFrames dlSnapshot]. rewrite zlen_nil, Z.add_0_r. split_and!; [apply follows_nil; lia|done|auto]. }
  unfold Receive. destruct (asHasUnapplied a); [by apply Hnone|].
  destruct (IsCatchupNotice p); [destruct (DecodeCatchupUnservable p); by apply Hnone|].
  destruct (IsSnapshotChunk p).
  - destruct Hinv as [Hp Hn Hb Hh Hu]. pose proof (Accept_header (asSnapshots a) p Hh) as Ha.
    destruct (Accept (asSnapshots a) p) as [r res]. destruct Ha as [Hr Hs].
    destruct res as [[s|]|e]; by apply Hnone.
  - destruct (DecodeBroadcast p) as [fs|e] eqn:E; [|by apply Hnone].
    pose proof (IngestFrames_client a pos fs Hinv (decoded_ids p fs E)) as Hi.
    destruct (IngestFrames a fs) as [[a' rel] err]. destruct Hi. by split_and!.
Qed.

Lemma client_run_inv evs : ∀ a pos,
  client_inv a pos →
  Forall (λ '(pos, d, err), map fID (dlFrames d) = seqZ (pos + 1) (zlen (dlFrames d)) ∧
            (dlSnapshot d ≠ None → dlFrames d = [] ∧ err = None))
    (snd (clientRun a pos evs)).
Proof.
  induction evs as [|[p|] evs IH]; intros a pos Hinv; cbn [clientRun]; [constructor| |].
  - pose proof (Receive_client a pos p Hinv) as Hr. destruct (Receive a p) as [[a1 d] err]. destruct Hr as (Hf & Hinv1 & Hs).
    rewrite (follows_last _ _ Hf). specialize (IH _ _ Hinv1). destruct (clientRun a1 _ evs). constructor; [|done].
    split; [apply Hf|done].
  - destruct (asHasUnapplied a); [|by apply IH]. apply IH. destruct Hinv as [Hp Hn Hb Hh Hu].
    constructor; cbn; try done; unfold is_u32 in Hu; unfold_int; lia.
Qed.

(** C31. A client never skips or repeats a frame, across any number of
    snapshot recoveries: whatever packets arrive (broadcasts, catch-up pages,
    notices, chunks, garbage, ids up to 2^32-1) and whenever delivered
    snapshots are applied, every delivery of frames starts right after the
    simulation's position, is contiguous, and never comes together with a
    snapshot.  (After frame 2^32-1 the awaited id wraps to zero, and nothing is
    delivered until a snapshot is.) *)
Theorem client_never_skips maxBuffer maxSnapshot evs :
  Forall (λ '(pos, d, err), map fID (dlFrames d) = seqZ (pos + 1) (zlen (dlFrames d)) ∧
            (dlSnapshot d ≠ None → dlFrames d = [] ∧ err = None))
    (snd (clientRun (NewFrameAssemblerLimits maxBuffer maxSnapshot) 0 evs)).
Proof. apply client_run_inv. by constructor. Qed.

Definition sample_client_evs : list ClientEv :=
  [CPacket (EncodeBroadcast [mkFrame 1 []]);
   CPacket (appendSnapshotChunk [] sample_chunk);
   CPacket (EncodeBroadcast [mkFrame 2 []]);
   CPacket (appendSnapshotChunk [] (mkChunk 3 3 false 0 0 0 false zeroDigest [4; 5]));
   CPacket (EncodeBroadcast [mkFrame 2 []]);
   CApply;
   CPacket (EncodeBroadcast [mkFrame 18 []; mkFrame 19 []])].

Definition sample_trace : list (FrameID * Delivery * option LockErr) :=
  snd (clientRun (NewFrameAssemblerLimits 4 10) 0 sample_client_evs).

Example sample_trace_value :
  sample_trace =
  [(0, mkDelivery [mkFrame 1 []] None, None);
   (1, noDelivery, None); (1, noDelivery, None);
   (1, mkDelivery [] (Some (mkReceived 17 [1; 2; 3; 4; 5] 99 true)), None);
   (1, noDelivery, Some ErrSnapshotNotApplied);
   (17, mkDelivery [mkFrame 18 []; mkFrame 19 []] None, None)].
Proof. vm_compute. reflexivity. Qed.

(** Frame 2^32-1 is delivered; the frames after it are not, nor is it again. *)
Example last_frame_trace :
  snd (clientRun (NewFrameAssemblerLimits 4 10) 0
    [CPacket (appendSnapshotChunk [] (mkChunk 3 0 true (MaxUint32 - 1) 1 0 false (Sha256.Sum256 [7]) [7])); CApply;
     CPacket (EncodeBroadcast [mkFrame MaxUint32 []]); CPacket (EncodeBroadcast [mkFrame 1 []]); CPacket (EncodeBroadcast [mkFrame MaxUint32 []])]) =
  [(0, mkDelivery [] (Some (mkReceived (MaxUint32 - 1) [7] 0 false)), None);
   (MaxUint32 - 1, mkDelivery [mkFrame MaxUint32 []] None, None);
   (MaxUint32, noDelivery, None); (MaxUint32, noDelivery, None)].
Proof. vm_compute. reflexivity. Qed.

(** The property at a run that takes a snapshot. *)
Example client_never_skips_witness :
  Forall (λ '(pos, d, err), map fID (dlFrames d) = seqZ (pos + 1) (zlen (dlFrames d)) ∧
            (dlSnapshot d ≠ None → dlFrames d = [] ∧ err = None)) sample_trace.
Proof. apply (client_never_skips 4 10 sample_client_evs). Defined.
