(* ===== verification/LockMatch.v ===== *)
(** * The match (match.go, snapshot.go)

    One match's serial owner: sequencing, history, broadcast, catch-up paging
    and snapshot recovery.  The asynchronous parts are inputs: whether a send
    that runs on its own goroutine has finished when the owner looks at it, and
    how its calls to the reliable sender went ([link]); whether the snapshot
    provider has returned and what; the committed frame; which datagrams the
    sender refused.  Everything the owner computes from them is the code's.
    Metrics, log texts and timer durations are not part of the state. *)

From S2P Require Import Prelude Bytes LockTypes LockWire LockCommand LockSequencer LockHistory LockDesync.
From S2P Require Import LockSnapshotWire.

Abbreviation SessionID := Z (only parsing).

Definition ownerSpectator : PlayerID := -1.
Definition hashTrimStride : Z := MaxBroadcastFrames.
Definition DefaultHistoryRetainFrames : Z := 3600.
Definition MinHistoryRetainFrames : Z := ReplayHorizon.
Definition RetainFullHistory : Z := -1.
Definition DefaultMaxDatagramBytes : Z := 1200.
Definition DefaultSnapshotChunkBytes : Z := 16 * 2^10.
Definition DefaultSnapshotBytesPerTick : Z := 64 * 2^10.
Definition DefaultSnapshotUnpacedBytesPerTick : Z := 16 * 2^10.
Definition DefaultSnapshotFetchTimeout : Z := 2 * 10^9.
Definition MaxSnapshotChunkHeaderBytes : Z := 2 + 2 * 10 + 5 + 10 + 1 + 10 + SnapshotDigestBytes.

Inductive RecoveryMode : Type := RecoveryUnset | RecoveryCatchup | RecoverySnapshot | RecoveryAuto.
Inductive SnapshotReason : Type :=
| SnapshotOutOfWindow | SnapshotOverThreshold | SnapshotModeSnapshot | SnapshotHostForced.

#[export] Instance RecoveryMode_eq_dec : EqDecision RecoveryMode.
Proof. solve_decision. Defined.
#[export] Instance SnapshotReason_eq_dec : EqDecision SnapshotReason.
Proof. solve_decision. Defined.

(** ** Configuration *)

Record SnapshotConfig : Type := mkSnapshotConfig {
  sgProvider : bool;   (* Provider is non-nil *)
  sgAutoCatchupMaxFrames : Z; sgMaxBytes : Z; sgChunkBytes : Z; sgBytesPerTick : Z;
  sgUnpacedBytesPerTick : Z; sgFetchTimeout : Z; sgPinFrames : Z }.

(** What a sender declares: [None] when it does not implement the interface. *)
Record ReliableSender : Type := mkReliable { rlMaxBytes : option Z; rlPaces : option bool }.

Record MatchConfig : Type := mkMatchConfig {
  mcSequencer : SequencerConfig;
  mcRedundancyDepth : Z; mcMaxDatagramBytes : Z; mcHashQuorum : Z;
  mcCatchupBatchFrames : Z; mcHistoryRetainFrames : Z; mcCatchupMaxFailures : Z;
  mcDatagrams : option (option Z);   (* the sender, with its declared payload bound *)
  mcReliable : option ReliableSender;
  mcRecovery : RecoveryMode; mcSnapshots : SnapshotConfig;
  mcCommittedFrame : bool }.         (* CommittedFrame is non-nil *)

Record snapshotSettings : Type := mkSettings {
  ssAutoMax : Z; ssMaxBytes : Z; ssChunkBytes : Z; ssBudget : Z; ssPinFrames : Z }.

Definition cmpOr (a b : Z) : Z := if a =? 0 then b else a.

Definition historyRetention (configured : Z) : result LockErr Z :=
  if configured =? 0 then Ok DefaultHistoryRetainFrames
  else if configured =? RetainFullHistory then Ok 0
  else if configured <? MinHistoryRetainFrames then Err ErrMatchConfigInvalid
  else Ok configured.

(** [datagramBudget]; the sender's declared bound, 0 when it declares none. *)
Definition datagramBudget (configured : Z) (sender : option Z) : result LockErr Z :=
  let declared := default 0 sender in
  if configured <? 0 then Err ErrMatchConfigInvalid
  else if (configured =? 0) && (0 <? declared) then Ok declared
  else if configured =? 0 then Ok DefaultMaxDatagramBytes
  else if (0 <? declared) && (declared <? configured) then Err ErrMatchConfigInvalid
  else Ok configured.

Definition resolveRecovery (config : MatchConfig) (retain : Z)
    : result LockErr (RecoveryMode * option snapshotSettings) :=
  let snapshots := mcSnapshots config in
  let mode := if decide (mcRecovery config = RecoveryUnset)
              then (if sgProvider snapshots then RecoveryAuto else RecoveryCatchup)
              else mcRecovery config in
  if negb (sgProvider snapshots) then
    if decide (mode = RecoveryCatchup) then Ok (mode, None) else Err ErrMatchConfigInvalid
  else
    _ ← guard_err (bool_decide (mode ≠ RecoveryCatchup) && bool_decide (mcReliable config = None))
          ErrMatchConfigInvalid;
    _ ← guard_err ((sgAutoCatchupMaxFrames snapshots <? 0) || (sgMaxBytes snapshots <? 0)
                   || (sgChunkBytes snapshots <? 0) || (sgBytesPerTick snapshots <? 0)
                   || (sgUnpacedBytesPerTick snapshots <? 0) || (sgFetchTimeout snapshots <? 0)
                   || (sgPinFrames snapshots <? 0)) ErrMatchConfigInvalid;
    let maxBytes := cmpOr (sgMaxBytes snapshots) DefaultMaxSnapshotBytes in
    let chunkBytes := cmpOr (sgChunkBytes snapshots) DefaultSnapshotChunkBytes in
    let pinFrames := cmpOr (sgPinFrames snapshots) retain in
    _ ← guard_err (MaxSnapshotBytes <? maxBytes) ErrMatchConfigInvalid;
    _ ← guard_err (match mcReliable config ≫= rlMaxBytes with
                   | Some limit => (0 <? limit) && (limit <? chunkBytes + MaxSnapshotChunkHeaderBytes)
                   | None => false
                   end) ErrMatchConfigInvalid;
    let budget := match mcReliable config ≫= rlPaces with
                  | Some true => cmpOr (sgBytesPerTick snapshots) DefaultSnapshotBytesPerTick
                  | _ => cmpOr (sgUnpacedBytesPerTick snapshots) DefaultSnapshotUnpacedBytesPerTick
                  end in
    Ok (mode, Some (mkSettings (sgAutoCatchupMaxFrames snapshots) maxBytes chunkBytes budget pinFrames)).

(** ** State *)

Record SnapshotRequest : Type := mkRequest { rqMinFrame : FrameID; rqMaxFrame : FrameID; rqReason : SnapshotReason }.

Record Snapshot : Type := mkSnapshot { snFrame : FrameID; snData : bytes; snStateHash : Z; snHasStateHash : bool }.

Record snapshotImage : Type := mkImage { imSnapshot : Snapshot; imDigest : bytes }.

Record snapshotTransfer : Type := mkTransfer {
  stReason : SnapshotReason; stFallback : bool; stPin : FrameID; stImage : option snapshotImage;
  stTransfer : Z; stOffset : Z }.

(** What the goroutine of a send works on, captured at launch. *)
Inductive SendJob : Type :=
| JPayload (payload : bytes)
| JChunks (image : snapshotImage) (transfer offset : Z).

Record catchupSend : Type := mkSend {
  csStart : FrameID; csEnd : FrameID; csFrames : Z; csChunks : bool; csJob : SendJob }.

(** [unservable]: the failure (reason, from, start) being notified. *)
Record catchupState : Type := mkCatchup {
  ctNext : FrameID; ctFailures : Z; ctUnservable : option (Z * Z * Z);
  ctInflight : option catchupSend; ctSnapshot : option snapshotTransfer; ctRecovered : bool }.

(** The part of [Match] that [NewMatch] fixes. *)
Record matchSettings : Type := mkMatchSettings {
  msReliable : bool; msDepth : Z; msCatchupBatch : Z; msCatchupMax : Z; msRetain : Z;
  msRecovery : RecoveryMode; msSnapshots : option snapshotSettings; msCommitted : bool }.

Record Match : Type := mkMatch {
  mCfg : matchSettings;
  mSequencer : Sequencer; mHistory : History; mEncoder : RedundantEncoder; mDetector : DesyncDetector;
  mHashTrimmed : FrameID; mClosed : bool;
  mReceivers : option (list (PlayerID * SessionID));   (* broadcastReceivers, None is nil *)
  mSessions : gmap Z SessionID; mSpectators : gset Z; mOwners : gmap Z PlayerID;
  mCatchups : gmap Z catchupState; mRuled : gmap Z (gset Z);
  mFetch : option SnapshotRequest; mLastTransfer : Z }.

Definition setBinding (m : Match) (sessions : gmap Z Z) (spectators : gset Z) (owners : gmap Z Z) : Match :=
  mkMatch (mCfg m) (mSequencer m) (mHistory m) (mEncoder m) (mDetector m) (mHashTrimmed m) (mClosed m)
    None sessions spectators owners (mCatchups m) (mRuled m) (mFetch m) (mLastTransfer m).
Definition setReceivers (m : Match) (rs : option (list (Z * Z))) : Match :=
  mkMatch (mCfg m) (mSequencer m) (mHistory m) (mEncoder m) (mDetector m) (mHashTrimmed m) (mClosed m)
    rs (mSessions m) (mSpectators m) (mOwners m) (mCatchups m) (mRuled m) (mFetch m) (mLastTransfer m).
Definition setCatchups (m : Match) (cs : gmap Z catchupState) : Match :=
  mkMatch (mCfg m) (mSequencer m) (mHistory m) (mEncoder m) (mDetector m) (mHashTrimmed m) (mClosed m)
    (mReceivers m) (mSessions m) (mSpectators m) (mOwners m) cs (mRuled m) (mFetch m) (mLastTransfer m).
Definition setFetch (m : Match) (f : option SnapshotRequest) : Match :=
  mkMatch (mCfg m) (mSequencer m) (mHistory m) (mEncoder m) (mDetector m) (mHashTrimmed m) (mClosed m)
    (mReceivers m) (mSessions m) (mSpectators m) (mOwners m) (mCatchups m) (mRuled m) f (mLastTransfer m).
Definition setTransfer (m : Match) (t : Z) : Match :=
  mkMatch (mCfg m) (mSequencer m) (mHistory m) (mEncoder m) (mDetector m) (mHashTrimmed m) (mClosed m)
    (mReceivers m) (mSessions m) (mSpectators m) (mOwners m) (mCatchups m) (mRuled m) (mFetch m) t.
Definition setHistory (m : Match) (h : History) : Match :=
  mkMatch (mCfg m) (mSequencer m) h (mEncoder m) (mDetector m) (mHashTrimmed m) (mClosed m)
    (mReceivers m) (mSessions m) (mSpectators m) (mOwners m) (mCatchups m) (mRuled m) (mFetch m) (mLastTransfer m).
Definition setCut (m : Match) (s : Sequencer) (h : History) (e : RedundantEncoder) : Match :=
  mkMatch (mCfg m) s h e (mDetector m) (mHashTrimmed m) (mClosed m)
    (mReceivers m) (mSessions m) (mSpectators m) (mOwners m) (mCatchups m) (mRuled m) (mFetch m) (mLastTransfer m).
Definition setDetector (m : Match) (d : DesyncDetector) (ruled : gmap Z (gset Z)) (trimmed : FrameID) : Match :=
  mkMatch (mCfg m) (mSequencer m) (mHistory m) (mEncoder m) d trimmed (mClosed m)
    (mReceivers m) (mSessions m) (mSpectators m) (mOwners m) (mCatchups m) ruled (mFetch m) (mLastTransfer m).
Definition setCatchup (m : Match) (s : SessionID) (st : catchupState) : Match :=
  setCatchups m (<[s := st]> (mCatchups m)).
Definition delCatchup (m : Match) (s : SessionID) : Match := setCatchups m (delete s (mCatchups m)).

(** [NewMatch]. *)
Definition packetHeader : Z := 2 + 5.
Definition frameOverhead : Z := 5 + 5.
Definition inputOverhead : Z := 5 + 5.

Definition worstPacket (depth players maxInput : Z) : Z :=
  packetHeader + depth * (frameOverhead + players * (inputOverhead + maxInput)).

Definition NewMatch (config : MatchConfig) : result LockErr Match :=
  match mcDatagrams config with
  | None => Err ErrMatchConfigInvalid
  | Some sender =>
      sequencer ← NewSequencer (mcSequencer config);
      let depth := NormalizeRedundancyDepth (mcRedundancyDepth config) in
      maxDatagram ← datagramBudget (mcMaxDatagramBytes config) sender;
      let players := zlen (scPlayers (mcSequencer config)) in
      _ ← guard_err (maxDatagram <? worstPacket depth players (MaxInputBytes sequencer)) ErrMatchConfigInvalid;
      let batch := if mcCatchupBatchFrames config <=? 0 then 32 else mcCatchupBatchFrames config in
      _ ← guard_err (batch =? 1) ErrMatchConfigInvalid;
      let batch := if MaxBroadcastFrames <? batch then MaxBroadcastFrames else batch in
      retain ← historyRetention (mcHistoryRetainFrames config);
      let maxFailures := if mcCatchupMaxFailures config <=? 0 then 8 else mcCatchupMaxFailures config in
      let quorum := if mcHashQuorum config <=? 0 then players / 2 + 1 else mcHashQuorum config in
      '(recovery, snapshots) ← resolveRecovery config retain;
      let detector := NewDesyncDetector quorum in
      let detector := mkDetector (LockDesync.quorum detector) players (reports detector) (trimmedBefore detector) in
      Ok (mkMatch
            (mkMatchSettings (bool_decide (mcReliable config ≠ None)) depth batch maxFailures retain
               recovery snapshots (mcCommittedFrame config))
            sequencer NewHistory (NewRedundantEncoder depth) detector 0 false None
            ∅ ∅ ∅ ∅ ∅ None 0)
  end.

(** ** Sessions *)

(** [drop]: cancel and forget the send in flight. *)
Definition drop (st : catchupState) : catchupState :=
  mkCatchup (ctNext st) (ctFailures st) (ctUnservable st) None (ctSnapshot st) (ctRecovered st).

(** Does the session wait for the shared snapshot fetch? *)
Definition waiting (st : catchupState) : bool :=
  match ctSnapshot st with
  | Some t => match stImage t with None => true | Some _ => false end
  | None => false
  end.

Definition releaseIdleFetch (m : Match) : Match :=
  match mFetch m with
  | None => m
  | Some _ =>
      if bool_decide (map_Forall (λ _ st, waiting st = false) (mCatchups m)) then setFetch m None else m
  end.

(** [dropCatchup]; cancelling the context of the dropped send is not state. *)
Definition dropCatchup (m : Match) (session : SessionID) : Match :=
  match mCatchups m !! session with
  | None => m
  | Some _ => releaseIdleFetch (delCatchup m session)
  end.

Definition Attach (m : Match) (player : PlayerID) (session : SessionID) : Match * option LockErr :=
  if mClosed m then (m, Some ErrMatchClosed)
  else if negb (KnownPlayer (mSequencer m) player) then (m, Some ErrPlayerUnknown)
  else if match mOwners m !! session with Some owner => negb (owner =? player) | None => false end
  then (m, Some ErrSessionInUse)
  else
    let bind (m : Match) :=
      (setBinding m (<[player := session]> (mSessions m)) (mSpectators m) (<[session := player]> (mOwners m)),
       None) in
    match mSessions m !! player with
    | Some previous =>
        if previous =? session then (m, None)
        else
          let m := dropCatchup m previous in
          bind (mkMatch (mCfg m) (mSequencer m) (mHistory m) (mEncoder m) (mDetector m) (mHashTrimmed m) (mClosed m)
                  (mReceivers m) (mSessions m) (mSpectators m) (delete previous (mOwners m)) (mCatchups m)
                  (mRuled m) (mFetch m) (mLastTransfer m))
    | None => bind m
    end.

Definition Detach (m : Match) (player : PlayerID) : Match :=
  match mSessions m !! player with
  | None => m
  | Some session =>
      let m := dropCatchup m session in
      setBinding m (delete player (mSessions m)) (mSpectators m) (delete session (mOwners m))
  end.

Definition DetachSession (m : Match) (player : PlayerID) (session : SessionID) : Match * bool :=
  match mSessions m !! player with
  | Some current => if current =? session then (Detach m player, true) else (m, false)
  | None => (m, false)
  end.

Definition AttachSpectator (m : Match) (session : SessionID) : Match * option LockErr :=
  if mClosed m then (m, Some ErrMatchClosed)
  else if match mOwners m !! session with Some owner => negb (owner =? ownerSpectator) | None => false end
  then (m, Some ErrSessionInUse)
  else (setBinding m (mSessions m) ({[session]} ∪ mSpectators m) (<[session := ownerSpectator]> (mOwners m)), None).

Definition DetachSpectator (m : Match) (session : SessionID) : Match :=
  if bool_decide (session ∈ mSpectators m) then
    dropCatchup (setBinding m (mSessions m) (mSpectators m ∖ {[session]}) (delete session (mOwners m))) session
  else m.

Definition MatchNextFrame (m : Match) : FrameID := NextFrame (mSequencer m).

Definition MatchSubmitInput (m : Match) (player : PlayerID) (frame : FrameID) (payload : bytes)
    : Match * result LockErr FrameID :=
  if mClosed m then (m, Err ErrMatchClosed)
  else let '(s, r) := SubmitInput (mSequencer m) player frame payload in
       (setCut m s (mHistory m) (mEncoder m), r).

(** [broadcastOrder]: seats by player, then spectators by session; the list is
    cached until a binding changes. *)
Definition computeReceivers (m : Match) : list (PlayerID * SessionID) :=
  map (λ p, (p, default 0 (mSessions m !! p))) (merge_sort Z.le (map fst (map_to_list (mSessions m))))
  ++ map (λ s, (ownerSpectator, s)) (merge_sort Z.le (elements (mSpectators m))).

Definition broadcastOrder (m : Match) : Match * list (PlayerID * SessionID) :=
  match mReceivers m with
  | Some rs => (m, rs)
  | None => let rs := computeReceivers m in (setReceivers m (Some rs), rs)
  end.

Definition CatchingUp (m : Match) (player : PlayerID) : bool :=
  match mSessions m !! player with
  | None => false
  | Some session => bool_decide (is_Some (mCatchups m !! session))
  end.

Definition catchupSessions (m : Match) : list SessionID :=
  merge_sort Z.le (map fst (map_to_list (mCatchups m))).

(** ** Starting a recovery *)

(** [beginSnapshot] on a session's state. *)
Definition beginSnapshot (m : Match) (st : catchupState) (reason : SnapshotReason) (fallback : bool) : catchupState :=
  mkCatchup (ctNext st) (ctFailures st) (ctUnservable st) None
    (Some (mkTransfer reason fallback (start (mHistory m)) None 0 0)) false.

(** [failRecovery] on a session's state. *)
Definition failRecovery (m : Match) (st : catchupState) (reason : Z) : catchupState :=
  mkCatchup (ctNext st) (ctFailures st) (Some (reason, ctNext st, start (mHistory m))) None None false.

Definition unservableErr (u : Z * Z * Z) : LockErr :=
  let '(reason, from, start) := u in CatchupUnservable reason from start.

Definition routeRecovery (m : Match) (session : SessionID) (existing : option catchupState)
    (from start : FrameID) : Match * option LockErr :=
  let state := match existing with
               | None => Some (mkCatchup from 0 None None None false)
               | Some st => if ctNext st <=? from then None
                            else Some (mkCatchup from (ctFailures st) (ctUnservable st) (ctInflight st)
                                         (ctSnapshot st) (ctRecovered st))
               end in
  match state with
  | None => (m, None)
  | Some st =>
      let autoMax := default 0 (ssAutoMax <$> msSnapshots (mCfg m)) in
      let decision :=
        if decide (msRecovery (mCfg m) = RecoverySnapshot) then Some (SnapshotModeSnapshot, false)
        else if ctNext st <? start then Some (SnapshotOutOfWindow, false)
        else if (0 <? autoMax) && (autoMax <? Latest (mHistory m) + 1 - ctNext st)
        then Some (SnapshotOverThreshold, true)
        else None in
      let st := match decision with
                | Some (reason, fallback) => beginSnapshot m st reason fallback
                | None => st
                end in
      (setCatchup m session st, None)
  end.

Definition startCatchup (m : Match) (session : SessionID) (from : FrameID) : Match * option LockErr :=
  if mClosed m then (m, Some ErrMatchClosed)
  else if negb (msReliable (mCfg m)) then (m, Some ErrCatchupUnavailable)
  else if NextFrame (mSequencer m) <? from then (m, Some ErrCatchupFuture)
  else
    let from := Z.max from 1 in
    let existing := mCatchups m !! session in
    match existing ≫= ctUnservable with
    | Some u => (m, Some (unservableErr u))
    | None =>
        if match existing ≫= ctSnapshot with Some _ => true | None => false end then (m, None)
        else
          let start := start (mHistory m) in
          if decide (msRecovery (mCfg m) ≠ RecoveryCatchup) then routeRecovery m session existing from start
          else
            let st := match existing with
                      | Some st => mkCatchup (if from <? ctNext st then from else ctNext st) (ctFailures st)
                                     (ctUnservable st) (ctInflight st) (ctSnapshot st) (ctRecovered st)
                      | None => mkCatchup from 0 None None None false
                      end in
            (setCatchup m session st,
             if from <? start then Some (CatchupUnservable RecoveryHistoryTrimmed from start) else None)
    end.

Definition StartCatchup (m : Match) (player : PlayerID) (from : FrameID) : Match * option LockErr :=
  match mSessions m !! player with
  | None => (m, Some ErrPlayerDetached)
  | Some session => startCatchup m session from
  end.

Definition SpectatorCatchup (m : Match) (session : SessionID) (from : FrameID) : Match * option LockErr :=
  if bool_decide (session ∈ mSpectators m) then startCatchup m session from
  else (m, Some ErrPlayerDetached).

Definition startSnapshot (m : Match) (session : SessionID) : Match * option LockErr :=
  if mClosed m then (m, Some ErrMatchClosed)
  else match msSnapshots (mCfg m) with
  | None => (m, Some ErrSnapshotNotConfigured)
  | Some _ =>
      if negb (msReliable (mCfg m)) then (m, Some ErrCatchupUnavailable)
      else match mCatchups m !! session with
      | None =>
          (setCatchup m session
             (beginSnapshot m (mkCatchup (NextFrame (mSequencer m)) 0 None None None false) SnapshotHostForced false),
           None)
      | Some st =>
          match ctUnservable st, ctSnapshot st with
          | Some u, _ => (m, Some (unservableErr u))
          | None, Some _ => (m, None)
          | None, None => (setCatchup m session (beginSnapshot m st SnapshotHostForced false), None)
          end
      end
  end.

Definition StartSnapshot (m : Match) (player : PlayerID) : Match * option LockErr :=
  match mSessions m !! player with
  | None => (m, Some ErrPlayerDetached)
  | Some session => startSnapshot m session
  end.

Definition SpectatorSnapshot (m : Match) (session : SessionID) : Match * option LockErr :=
  if bool_decide (session ∈ mSpectators m) then startSnapshot m session else (m, Some ErrPlayerDetached).

(** ** Sending *)

(** [snapshotImage.chunk]. *)
Definition imageChunk (image : snapshotImage) (transfer offset end_ : Z) : bytes :=
  let s := imSnapshot image in
  let data := ztake (end_ - offset) (zdrop offset (snData s)) in
  appendSnapshotChunk []
    (if offset =? 0
     then mkChunk transfer offset false (snFrame s) (zlen (snData s)) (snStateHash s) (snHasStateHash s)
            (imDigest image) data
     else mkChunk transfer offset false 0 0 0 false zeroDigest data).

Record sendResult : Type := mkSendResult { srErr : bool; srWritten : Z }.

(** The loop of [launchChunks]; [link k] tells whether the [k]-th call to the
    reliable sender succeeds.  Returns the result and the payloads handed to
    the sender.  Each iteration writes at least one byte. *)
Fixpoint sendChunks (fuel : nat) (image : snapshotImage) (transfer offset chunkBytes budget written : Z)
    (link : nat → bool) (k : nat) : sendResult * list bytes :=
  match fuel with
  | O => (mkSendResult false written, [])
  | S fuel' =>
      let total := zlen (snData (imSnapshot image)) in
      if (offset <? total) && (written <? budget) then
        let end_ := Z.min (offset + chunkBytes) total in
        let payload := imageChunk image transfer offset end_ in
        if link k then
          let '(r, ps) := sendChunks fuel' image transfer end_ chunkBytes budget (written + (end_ - offset)) link (S k) in
          (r, payload :: ps)
        else (mkSendResult true written, [payload])
      else (mkSendResult false written, [])
  end.

Definition runJob (m : Match) (job : SendJob) (link : nat → bool) : sendResult * list bytes :=
  match job with
  | JPayload payload => (mkSendResult (negb (link 0%nat)) 0, [payload])
  | JChunks image transfer offset =>
      let ss := default (mkSettings 0 0 1 0 0) (msSnapshots (mCfg m)) in
      sendChunks (S (length (snData (imSnapshot image)))) image transfer offset
        (ssChunkBytes ss) (ssBudget ss) 0 link 0
  end.

(** What [Tick] reports: the joined errors, one constructor per site. *)
Inductive TickErr : Type :=
| TDatagram (owner : PlayerID) (session : SessionID)
| TNoticeLost (session : SessionID)
| TPage (session : SessionID)
| TAbandoned (session : SessionID) (failures : Z)
| TChunkAbandoned (session : SessionID) (failures offset : Z)
| TChunk (session : SessionID) (offset : Z)
| TUnservable (session : SessionID) (e : LockErr)
| TFetch (request : SnapshotRequest)
| TSnapshotFailed (session : SessionID) (e : LockErr) (failures : Z) (cause : LockErr)
| TSnapshotAttempt (session : SessionID) (failures : Z) (cause : LockErr).

Definition setNext (st : catchupState) (next failures : Z) : catchupState :=
  mkCatchup next failures (ctUnservable st) (ctInflight st) (ctSnapshot st) (ctRecovered st).

(** ** Settling sends *)

(** [settleChunks]. *)
Definition settleChunks (m : Match) (session : SessionID) (st : catchupState) (r : sendResult)
    : Match * option TickErr :=
  match ctSnapshot st with
  | None => (m, None)   (* a chunk send only exists in the snapshot phase *)
  | Some t =>
      let t := mkTransfer (stReason t) (stFallback t) (stPin t) (stImage t) (stTransfer t)
                 (stOffset t + srWritten r) in
      let failures := if 0 <? srWritten r then 0 else ctFailures st in
      if srErr r then
        let failures := failures + 1 in
        if msCatchupMax (mCfg m) <=? failures
        then (delCatchup m session, Some (TChunkAbandoned session failures (stOffset t)))
        else (setCatchup m session (mkCatchup (ctNext st) failures (ctUnservable st) (ctInflight st) (Some t) (ctRecovered st)),
              Some (TChunk session (stOffset t)))
      else
        let image := default (mkImage (mkSnapshot 0 [] 0 false) []) (stImage t) in
        if stOffset t <? zlen (snData (imSnapshot image))
        then (setCatchup m session (mkCatchup (ctNext st) failures (ctUnservable st) (ctInflight st) (Some t) (ctRecovered st)), None)
        else
          let next := u32 (snFrame (imSnapshot image) + 1) in
          if Latest (mHistory m) <? next then (delCatchup m session, None)
          else (setCatchup m session (mkCatchup next failures (ctUnservable st) (ctInflight st) None true), None)
  end.

(** [settleCatchup] with the result of the session's finished send. *)
Definition settleCatchup (m : Match) (session : SessionID) (st : catchupState) (send : catchupSend) (r : sendResult)
    : Match * option TickErr :=
  let st := drop st in
  match ctUnservable st with
  | Some _ => (delCatchup m session, if srErr r then Some (TNoticeLost session) else None)
  | None =>
      if csChunks send then settleChunks m session st r
      else if srErr r then
        let failures := ctFailures st + 1 in
        if msCatchupMax (mCfg m) <=? failures
        then (delCatchup m session, Some (TAbandoned session failures))
        else (setCatchup m session (setNext st (ctNext st) failures), Some (TPage session))
      else
        let next := if csStart send <=? ctNext st then csEnd send else ctNext st in
        if Latest (mHistory m) <? next then (delCatchup m session, None)
        else (setCatchup m session (setNext st next 0), None)
  end.

(** The environment of one Tick. *)
Record TickEnv : Type := mkTickEnv {
  evFinished : SessionID → option (nat → bool);  (* sends of earlier ticks that have finished *)
  evWaited : SessionID → option (nat → bool);    (* sends of this tick finished within the wait *)
  evDatagram : SessionID → bool;                 (* the datagram sender accepted the packet *)
  evCommitted : FrameID;                         (* CommittedFrame() *)
  evFetch : option (option (result LockErr Snapshot)); (* the provider returned; [Some None]: it panicked *)
  evDeadline : bool }.                           (* the fetch deadline has passed *)

(** What a Tick sends. *)
Record Sent : Type := mkSent {
  snDatagrams : list (SessionID * bytes);
  snReliable : list (SessionID * bytes) }.   (* payloads handed to the reliable sender *)

Definition noSent : Sent := mkSent [] [].
Definition sentApp (a b : Sent) : Sent := mkSent (snDatagrams a ++ snDatagrams b) (snReliable a ++ snReliable b).
Definition toSession (session : SessionID) (ps : list bytes) : Sent := mkSent [] (map (pair session) ps).

Definition optErr (e : option TickErr) : list TickErr := match e with Some e => [e] | None => [] end.

(** One session of [collectCatchups]. *)
Definition collectOne (m : Match) (env : TickEnv) (session : SessionID) : Match * list TickErr * Sent :=
  match mCatchups m !! session with
  | None => (m, [], noSent)
  | Some st =>
      let goLive (m : Match) :=
        match mCatchups m !! session with
        | Some st =>
            if bool_decide (ctInflight st = None ∧ ctSnapshot st = None)
               && (Latest (mHistory m) <? u32 (ctNext st + u32 (msDepth (mCfg m))))
            then delCatchup m session else m
        | None => m
        end in
      match ctInflight st with
      | Some send =>
          match evFinished env session with
          | None => (m, [], noSent)
          | Some link =>
              let '(r, payloads) := runJob m (csJob send) link in
              let '(m, err) := settleCatchup m session st send r in
              match err with
              | Some e => (m, [e], toSession session payloads)
              | None => (goLive m, [], toSession session payloads)
              end
          end
      | None =>
          if negb (msCommitted (mCfg m)) || bool_decide (is_Some (ctUnservable st)) then (m, [], noSent)
          else (goLive m, [], noSent)
      end
  end.

(** Run a step for each session of a list. *)
Fixpoint forSessions (f : Match → SessionID → Match * list TickErr * Sent) (m : Match) (sessions : list SessionID)
    : Match * list TickErr * Sent :=
  match sessions with
  | [] => (m, [], noSent)
  | s :: rest =>
      let '(m, es, out) := f m s in
      let '(m, es', out') := forSessions f m rest in (m, es ++ es', sentApp out out')
  end.

Definition collectCatchups (m : Match) (env : TickEnv) : Match * list TickErr * Sent :=
  forSessions (λ m s, collectOne m env s) m (catchupSessions m).

(** ** The shared snapshot fetch *)

Definition isWaiter (m : Match) (session : SessionID) : bool :=
  match mCatchups m !! session with Some st => waiting st | None => false end.

Definition snapshotWaiters (m : Match) : list SessionID :=
  filter (λ s, isWaiter m s = true) (catchupSessions m).

Definition launchFetch (m : Match) (head : FrameID) : Match :=
  match snapshotWaiters m with
  | [] => m
  | w :: _ =>
      let reason := default SnapshotOutOfWindow (stReason <$> (mCatchups m !! w ≫= ctSnapshot)) in
      setFetch m (Some (mkRequest (start (mHistory m) - 1) head reason))
  end.

(** [fetchSnapshot]: the validation done on the provider's goroutine. *)
Definition fetchSnapshot (request : SnapshotRequest) (maxBytes : Z) (provided : option (result LockErr Snapshot))
    : result LockErr snapshotImage :=
  match provided with
  | None => Err ErrProviderPanic
  | Some (Err e) => Err e
  | Some (Ok s) =>
      if maxBytes <? zlen (snData s) then Err ErrSnapshotTooLarge
      else if (zlen (snData s) =? 0) || (snFrame s <? rqMinFrame request) || (rqMaxFrame request <? snFrame s)
      then Err ErrSnapshotInvalid
      else Ok (mkImage s (Sha256.Sum256 (snData s)))
  end.

Definition snapshotAttemptFailed (m : Match) (session : SessionID) (st : catchupState) (cause : LockErr)
    : Match * list TickErr :=
  let failures := ctFailures st + 1 in
  let st := setNext st (ctNext st) failures in
  if msCatchupMax (mCfg m) <=? failures then
    let st := failRecovery m st RecoverySnapshotUnavailable in
    (setCatchup m session st,
     [TSnapshotFailed session (default ErrSnapshotUnavailable (unservableErr <$> ctUnservable st)) failures cause])
  else (setCatchup m session st, [TSnapshotAttempt session failures cause]).

(** One waiter of [applyFetch] when the fetch succeeded. *)
Definition applyImage (image : snapshotImage) (start : FrameID) (m : Match) (session : SessionID)
    : Match * list TickErr * Sent :=
  match mCatchups m !! session with
  | None => (m, [], noSent)
  | Some st =>
      if u32 (snFrame (imSnapshot image) + 1) <? start then
        let '(m, es) := snapshotAttemptFailed m session st ErrSnapshotInvalid in (m, es, noSent)
      else
        let id := u64 (mLastTransfer m + 1) in
        let m := setTransfer m id in
        let t := match ctSnapshot st with
                 | Some t => Some (mkTransfer (stReason t) (stFallback t) (stPin t) (Some image) id 0)
                 | None => None
                 end in
        (setCatchup m session (mkCatchup (ctNext st) 0 (ctUnservable st) (ctInflight st) t (ctRecovered st)), [], noSent)
  end.

(** One waiter of [applyFetch] when it failed. *)
Definition applyFailure (e : LockErr) (start : FrameID) (m : Match) (session : SessionID)
    : Match * list TickErr * Sent :=
  match mCatchups m !! session with
  | None => (m, [], noSent)
  | Some st =>
      if decide (e = ErrSnapshotTooLarge) then
        let st' := failRecovery m st RecoverySnapshotTooLarge in
        (setCatchup m session st',
         [TUnservable session (default ErrSnapshotTooLarge (unservableErr <$> ctUnservable st'))], noSent)
      else if match ctSnapshot st with Some t => stFallback t | None => false end && (start <=? ctNext st) then
        (setCatchup m session (mkCatchup (ctNext st) (ctFailures st) (ctUnservable st) (ctInflight st) None (ctRecovered st)),
         [], noSent)
      else let '(m, es) := snapshotAttemptFailed m session st e in (m, es, noSent)
  end.

Definition applyFetch (m : Match) (request : SnapshotRequest) (result : result LockErr snapshotImage)
    : Match * list TickErr :=
  let waiters := snapshotWaiters m in
  let start := start (mHistory m) in
  match result with
  | Ok image => let '(m, es, _) := forSessions (applyImage image start) m waiters in (m, es)
  | Err e =>
      let '(m, es, _) := forSessions (applyFailure e start) m waiters in
      (m, match es with [] => [] | _ => TFetch request :: es end)
  end.

(** [collectFetch]: [true] when a result was received in this Tick. *)
Definition collectFetch (m : Match) (request : SnapshotRequest) (env : TickEnv) : Match * bool * list TickErr :=
  let maxBytes := default 0 (ssMaxBytes <$> msSnapshots (mCfg m)) in
  match evFetch env with
  | Some provided =>
      let '(m, es) := applyFetch (setFetch m None) request (fetchSnapshot request maxBytes provided) in (m, true, es)
  | None =>
      if negb (evDeadline env) then (m, false, [])
      else let '(m, es) := applyFetch (setFetch m None) request (Err ErrDeadlineExceeded) in (m, true, es)
  end.

(** ** Pumping pages *)

Definition servableHead (m : Match) (env : TickEnv) : FrameID :=
  let head := Latest (mHistory m) in
  if msCommitted (mCfg m) then Z.min head (evCommitted env) else head.

Definition launch (m : Match) (session : SessionID) (st : catchupState) (send : catchupSend) : Match :=
  setCatchup m session (mkCatchup (ctNext st) (ctFailures st) (ctUnservable st) (Some send) (ctSnapshot st) (ctRecovered st)).

(** One session of the launch loop of [pumpCatchup]: the match, whether a send
    was launched, whether the session waits for a snapshot, and errors. *)
Definition pumpOne (m : Match) (head : FrameID) (session : SessionID) : Match * bool * bool * list TickErr :=
  match mCatchups m !! session with
  | None => (m, false, false, [])
  | Some st =>
      match ctInflight st with
      | Some _ => (m, false, false, [])
      | None =>
          match ctUnservable st with
          | Some (reason, from, start) =>
              (launch m session st
                 (mkSend (ctNext st) (ctNext st) 0 false
                    (JPayload (EncodeRecoveryFailure (unservable_reason reason) from start))), true, false, [])
          | None =>
              match ctSnapshot st with
              | Some t =>
                  match stImage t with
                  | None => (m, false, true, [])
                  | Some image =>
                      (launch m session st (mkSend 0 0 0 true (JChunks image (stTransfer t) (stOffset t))), true, false, [])
                  end
              | None =>
                  let start := start (mHistory m) in
                  if (ctNext st <? start) && bool_decide (msRecovery (mCfg m) ≠ RecoveryCatchup) then
                    (setCatchup m session (beginSnapshot m st SnapshotOutOfWindow false), false, true, [])
                  else if ctNext st <? start then
                    let u := (RecoveryHistoryTrimmed, ctNext st, start) in
                    let st := mkCatchup (ctNext st) (ctFailures st) (Some u) None None (ctRecovered st) in
                    (launch m session st
                       (mkSend (ctNext st) (ctNext st) 0 false (JPayload (EncodeCatchupUnservable (ctNext st) start))),
                     true, false, [TUnservable session (unservableErr u)])
                  else
                    let latest := Latest (mHistory m) in
                    let batch := msCatchupBatch (mCfg m) in
                    if (head <? latest) && (head <? ctNext st) && (ctNext st <=? latest) then (m, false, false, [])
                    else
                      let limit := if (head <? latest) && (ctNext st <=? head)
                                   then Z.min batch (u32 (head - ctNext st) + 1) else batch in
                      let page := ReadRange (mHistory m) (ctNext st) limit in
                      match last page with
                      | None => (delCatchup m session, false, false, [])
                      | Some f =>
                          (launch m session st
                             (mkSend (ctNext st) (u32 (fID f + 1)) (zlen page) false (JPayload (EncodeBroadcast page))),
                           true, false, [])
                      end
              end
          end
      end
  end.

Fixpoint pumpLoop (m : Match) (head : FrameID) (sessions : list SessionID)
    : Match * list SessionID * bool * list TickErr :=
  match sessions with
  | [] => (m, [], false, [])
  | s :: rest =>
      let '(m, launched, need, es) := pumpOne m head s in
      let '(m, ls, need', es') := pumpLoop m head rest in
      (m, (if launched then [s] else []) ++ ls, need || need', es ++ es')
  end.

(** The waiting loop of [pumpCatchup] over the sends launched in this Tick. *)
Definition waitOne (env : TickEnv) (m : Match) (session : SessionID) : Match * list TickErr * Sent :=
  match mCatchups m !! session with
  | None => (m, [], noSent)
  | Some st =>
      match ctInflight st, evWaited env session with
      | Some send, Some link =>
          let '(r, payloads) := runJob m (csJob send) link in
          let '(m, err) := settleCatchup m session st send r in (m, optErr err, toSession session payloads)
      | _, _ => (m, [], noSent)
      end
  end.

Definition pumpCatchup (m : Match) (env : TickEnv) : Match * list TickErr * Sent :=
  if bool_decide (mCatchups m = ∅) then (m, [], noSent)
  else
    let head := servableHead m env in
    let '(m, fetched, es0) := match mFetch m with
                              | Some request => collectFetch m request env
                              | None => (m, false, [])
                              end in
    let '(m, launched, needFetch, es1) := pumpLoop m head (catchupSessions m) in
    let m := if needFetch && bool_decide (mFetch m = None) && negb fetched then launchFetch m head
             else if negb needFetch then releaseIdleFetch m else m in
    let '(m, es2, out) := forSessions (waitOne env) m launched in
    (m, es0 ++ es1 ++ es2, out).

(** ** Retention *)

(** [recoveryPin]: the oldest frame a session in snapshot recovery needs. *)
Definition recoveryPin (st : catchupState) : option FrameID :=
  match ctUnservable st, ctSnapshot st with
  | Some _, _ => None
  | None, Some t =>
      match stImage t with
      | None => Some (stPin t)
      | Some image => Some (u32 (snFrame (imSnapshot image) + 1))
      end
  | None, None => if ctRecovered st then Some (ctNext st) else None
  end.

(** The loop of [pinnedTrim]. *)
Fixpoint pinLoop (m : Match) (keep floor trim : FrameID) (sessions : list SessionID)
    : Match * FrameID * list TickErr :=
  match sessions with
  | [] => (m, trim, [])
  | s :: rest =>
      match mCatchups m !! s ≫= recoveryPin with
      | None => pinLoop m keep floor trim rest
      | Some pin =>
          if keep <=? pin then pinLoop m keep floor trim rest
          else if pin <? floor then
            let st := failRecovery m (default (mkCatchup 0 0 None None None false) (mCatchups m !! s)) RecoveryExpired in
            let e := TUnservable s (default ErrSnapshotUnavailable (unservableErr <$> ctUnservable st)) in
            let '(m, trim, es) := pinLoop (setCatchup m s st) keep floor trim rest in (m, trim, e :: es)
          else pinLoop m keep floor (Z.min trim pin) rest
      end
  end.

Definition pinnedTrim (m : Match) (keep : FrameID) : Match * FrameID * list TickErr :=
  let pinFrames := default 0 (ssPinFrames <$> msSnapshots (mCfg m)) in
  let floor := if u32 pinFrames <? keep then u32 (keep - u32 pinFrames) else 1 in
  let '(m, trim, es) := pinLoop m keep floor keep (catchupSessions m) in
  (match es with [] => m | _ => releaseIdleFetch m end, trim, es).

Definition TrimHashReports (m : Match) (before : FrameID) : Match :=
  setDetector m (Trim (mDetector m) before) (filter (λ e, ¬ e.1 < before) (mRuled m)) (mHashTrimmed m).

Section Ticking.
(** Capacity growth of Go slices, and the map iteration orders of the
    desync detector. *)
Context (grow : Z → Z → Z) (visit : nat → gmap Z Z → list (Z * Z)).

Definition retainWindow (m : Match) (latest : FrameID) : Match * list TickErr :=
  let retain := u32 (msRetain (mCfg m)) in
  if (msRetain (mCfg m) =? 0) || (latest <=? retain) then (m, [])
  else
    let keep := u32 (u32 (latest - retain) + 1) in
    let '(m, trim, es) :=
      if negb (bool_decide (mCatchups m = ∅)) && bool_decide (is_Some (msSnapshots (mCfg m)))
      then pinnedTrim m keep else (m, keep, []) in
    let m := setHistory m (TrimBefore grow (mHistory m) trim) in
    let m := if hashTrimStride <=? u32 (keep - mHashTrimmed m) then
               let m := TrimHashReports m keep in setDetector m (mDetector m) (mRuled m) keep
             else m in
    (m, es).

(** The broadcast loop of [Tick]. *)
Fixpoint broadcastLoop (m : Match) (env : TickEnv) (packet : bytes) (receivers : list (PlayerID * SessionID))
    : list (SessionID * bytes) * list TickErr :=
  match receivers with
  | [] => ([], [])
  | (owner, session) :: rest =>
      let '(sent, es) := broadcastLoop m env packet rest in
      if bool_decide (is_Some (mCatchups m !! session)) then (sent, es)
      else ((session, packet) :: sent,
            (if evDatagram env session then [] else [TDatagram owner session]) ++ es)
  end.

(** [Tick]; [None] is the panic on an exhausted frame id space. *)
Definition Tick (m : Match) (env : TickEnv) : option (Match * result LockErr Frame * list TickErr * Sent) :=
  if mClosed m then Some (m, Err ErrMatchClosed, [], noSent)
  else
    match Advance (mSequencer m) with
    | None => None
    | Some (sequencer, frame) =>
        match Append grow (mHistory m) frame with
        | None => None
        | Some history =>
            let '(encoder, packet) := Push (mEncoder m) frame in
            let m := setCut m sequencer history encoder in
            let '(m, es1, out1) := collectCatchups m env in
            let '(m, receivers) := broadcastOrder m in
            let '(datagrams, es2) := broadcastLoop m env packet receivers in
            let '(m, es3, out3) := pumpCatchup m env in
            let '(m, es4) := retainWindow m (fID frame) in
            Some (m, Ok frame, es1 ++ es2 ++ es3 ++ es4,
                  sentApp out1 (sentApp (mkSent datagrams []) out3))
        end
    end.

(** [ReportHash]; the verdict handed to [OnDesync], if any. *)
Definition ReportHash (m : Match) (player : PlayerID) (frame : FrameID) (hash : Z)
    : Match * option LockErr * option DesyncVerdict :=
  if mClosed m then (m, Some ErrMatchClosed, None)
  else if negb (KnownPlayer (mSequencer m) player) then (m, Some ErrPlayerUnknown, None)
  else if (frame =? 0) || (Latest (mHistory m) <? frame) then (m, Some ErrHashFrameInvalid, None)
  else
    let '(detector, verdict) := Report visit (mDetector m) player frame hash in
    let m := setDetector m detector (mRuled m) (mHashTrimmed m) in
    match verdict with
    | None => (m, None, None)
    | Some v =>
        if zlen (vOutliers v) =? 0 then (m, None, None)
        else
          let surfaced := default ∅ (mRuled m !! frame) in
          let changed := negb (zlen (vOutliers v) =? Z.of_nat (size surfaced))
                         || existsb (λ q, negb (bool_decide (q ∈ surfaced))) (vOutliers v) in
          if negb changed then (m, None, None)
          else (setDetector m (mDetector m) (<[frame := list_to_set (vOutliers v)]> (mRuled m)) (mHashTrimmed m),
                None, Some v)
    end.

Definition TrimHistory (m : Match) (keep : FrameID) : Match :=
  setHistory m (TrimBefore grow (mHistory m) keep).

Definition Close (m : Match) : Match :=
  mkMatch (mCfg m) (mSequencer m) (mHistory m) (mEncoder m) (mDetector m) (mHashTrimmed m) true
    None ∅ ∅ ∅ ∅ ∅ None (mLastTransfer m).

(** [HandleCommand] (command.go). *)
Definition HandleCommand (m : Match) (session : SessionID) (c : Command)
    : Match * option LockErr * option DesyncVerdict :=
  if mClosed m then (m, Some ErrMatchClosed, None)
  else match Validate c with
  | Some e => (m, Some e, None)
  | None =>
      match mOwners m !! session with
      | None => (m, Some ErrPlayerDetached, None)
      | Some player =>
          if cOperation c =? OpCatchup then
            let '(m, e) := if player =? ownerSpectator then SpectatorCatchup m session (cFrame c)
                           else StartCatchup m player (cFrame c) in
            (m, e, None)
          else if player =? ownerSpectator then (m, Some ErrPlayerUnknown, None)
          else if cOperation c =? OpHash then ReportHash m player (cFrame c) (cHash c)
          else
            let '(m, r) := MatchSubmitInput m player (cFrame c) (cPayload c) in
            (m, match r with Ok _ => None | Err e => Some e end, None)
      end
  end.
End Ticking.
