(* ===== verification/LockMatchInv.v ===== *)
(** * Invariants of the match

    Every public operation as a step, the bindings between seats, sessions and
    spectators, and what a Tick may send to whom. *)

From S2P Require Import Prelude Bytes LockTypes LockWire LockCommand LockSequencer LockHistory LockDesync.
From S2P Require Import LockSnapshotWire LockMatch.

(** ** Steps that only touch recovery state of sessions that have one *)

Record recovery_step (m m' : Match) : Prop := mkRecoveryStep {
  rs_cfg : mCfg m' = mCfg m;
  rs_sequencer : mSequencer m' = mSequencer m;
  rs_history : mHistory m' = mHistory m;
  rs_encoder : mEncoder m' = mEncoder m;
  rs_closed : mClosed m' = mClosed m;
  rs_receivers : mReceivers m' = mReceivers m;
  rs_sessions : mSessions m' = mSessions m;
  rs_spectators : mSpectators m' = mSpectators m;
  rs_owners : mOwners m' = mOwners m;
  rs_catchups : dom (mCatchups m') ⊆ dom (mCatchups m) }.

#[export] Instance recovery_step_preorder : PreOrder recovery_step.
Proof.
  split.
  - intros m. by constructor.
  - intros a b c [] []. constructor; try congruence. set_solver.
Qed.

Lemma rstep_set m s st : is_Some (mCatchups m !! s) → recovery_step m (setCatchup m s st).
Proof. intros H%elem_of_dom. constructor; try done. cbn. rewrite dom_insert. set_solver. Qed.
Lemma rstep_del m s : recovery_step m (delCatchup m s).
Proof. constructor; try done. cbn. rewrite dom_delete. set_solver. Qed.
Lemma rstep_fetch m f : recovery_step m (setFetch m f).
Proof. by constructor. Qed.
Lemma rstep_transfer m t : recovery_step m (setTransfer m t).
Proof. by constructor. Qed.
Lemma rstep_release m : recovery_step m (releaseIdleFetch m).
Proof. unfold releaseIdleFetch. repeat case_match; apply rstep_fetch || reflexivity. Qed.
Lemma rstep_drop m s : recovery_step m (dropCatchup m s).
Proof.
  unfold dropCatchup. case_match; [|reflexivity]. etrans; [apply rstep_del|apply rstep_release].
Qed.

Create HintDb recovery.
#[export] Hint Resolve rstep_set rstep_del rstep_fetch rstep_transfer rstep_release rstep_drop : recovery.
#[export] Hint Extern 1 (recovery_step ?m ?m) => reflexivity : recovery.

Lemma settleCatchup_step m s st send r :
  is_Some (mCatchups m !! s) → recovery_step m (fst (settleCatchup m s st send r)).
Proof.
  intros H. unfold settleCatchup, settleChunks.
  repeat (case_match; cbn [fst]; auto with recovery).
Qed.

Lemma forSessions_step f sessions : ∀ m,
  (∀ m s, recovery_step m (fst (fst (f m s)))) → recovery_step m (fst (fst (forSessions f m sessions))).
Proof.
  induction sessions as [|s rest IH]; intros m Hf; cbn; [reflexivity|].
  pose proof (Hf m s) as H1. destruct (f m s) as [[m1 es] out].
  pose proof (IH m1 Hf) as H2. destruct (forSessions f m1 rest) as [[m2 es'] out']. cbn in *.
  by etrans.
Qed.

Lemma collectOne_step m env s : recovery_step m (fst (fst (collectOne m env s))).
Proof.
  unfold collectOne. destruct (mCatchups m !! s) as [st|] eqn:E; [|reflexivity].
  assert (∀ m1, recovery_step m1 (match mCatchups m1 !! s with
        | Some st => if bool_decide (ctInflight st = None ∧ ctSnapshot st = None)
                        && (Latest (mHistory m1) <? u32 (ctNext st + u32 (msDepth (mCfg m1))))
                     then delCatchup m1 s else m1
        | None => m1 end)) as Hlive.
  { intros m1. destruct (mCatchups m1 !! s); [|reflexivity]. destruct (_ && _); auto with recovery. }
  destruct (ctInflight st) as [send|].
  - destruct (evFinished env s) as [link|]; [|reflexivity].
    destruct (runJob m (csJob send) link) as [r payloads].
    pose proof (settleCatchup_step m s st send r ltac:(by eexists)) as Hs.
    destruct (settleCatchup m s st send r) as [m1 [e|]]; cbn in *; [done|]. etrans; [done|apply Hlive].
  - destruct (_ || _); cbn; [reflexivity|].
    destruct (_ && _); [apply rstep_del|reflexivity].
Qed.

Lemma snapshotAttemptFailed_step m s st e :
  is_Some (mCatchups m !! s) → recovery_step m (fst (snapshotAttemptFailed m s st e)).
Proof. intros H. unfold snapshotAttemptFailed. case_match; cbn; auto with recovery. Qed.

Lemma applyImage_step image st0 m s : recovery_step m (fst (fst (applyImage image st0 m s))).
Proof.
  unfold applyImage. destruct (mCatchups m !! s) as [st|] eqn:E; [|reflexivity].
  case_match.
  - pose proof (snapshotAttemptFailed_step m s st ErrSnapshotInvalid ltac:(by eexists)).
    by destruct (snapshotAttemptFailed m s st ErrSnapshotInvalid).
  - cbn. etrans; [apply rstep_transfer|]. apply rstep_set. cbn. by eexists.
Qed.

Lemma applyFailure_step e st0 m s : recovery_step m (fst (fst (applyFailure e st0 m s))).
Proof.
  unfold applyFailure. destruct (mCatchups m !! s) as [st|] eqn:E; [|reflexivity].
  case_decide; [apply rstep_set; by eexists|]. case_match; [apply rstep_set; by eexists|].
  pose proof (snapshotAttemptFailed_step m s st e ltac:(by eexists)).
  by destruct (snapshotAttemptFailed m s st e).
Qed.

Lemma applyFetch_step m rq res : recovery_step m (fst (applyFetch m rq res)).
Proof.
  unfold applyFetch. destruct res as [image|e].
  - pose proof (forSessions_step (applyImage image (start (mHistory m))) (snapshotWaiters m) m (applyImage_step _ _)) as H.
    by destruct (forSessions _ m _) as [[m1 es] out].
  - pose proof (forSessions_step (applyFailure e (start (mHistory m))) (snapshotWaiters m) m (applyFailure_step _ _)) as H.
    by destruct (forSessions _ m _) as [[m1 es] out].
Qed.

Lemma collectFetch_step m rq env : recovery_step m (fst (fst (collectFetch m rq env))).
Proof.
  assert (∀ res, recovery_step m (fst (applyFetch (setFetch m None) rq res))) as H.
  { intros res. etrans; [apply (rstep_fetch m None)|apply applyFetch_step]. }
  unfold collectFetch. destruct (evFetch env) as [provided|]; [|destruct (negb (evDeadline env)); [reflexivity|]].
  - specialize (H (fetchSnapshot rq (default 0 (ssMaxBytes <$> msSnapshots (mCfg m))) provided)).
    by destruct (applyFetch _ rq _).
  - specialize (H (Err ErrDeadlineExceeded)). by destruct (applyFetch _ rq _).
Qed.

Lemma pumpOne_step m head s : recovery_step m (fst (fst (fst (pumpOne m head s)))).
Proof.
  unfold pumpOne, launch. destruct (mCatchups m !! s) as [st|] eqn:E; [|reflexivity].
  assert (is_Some (mCatchups m !! s)) as Hs by by eexists.
  destruct (ctInflight st); [reflexivity|].
  destruct (ctUnservable st) as [[[reason from] start]|]; [by apply rstep_set|].
  destruct (ctSnapshot st) as [t|]; [destruct (stImage t); [by apply rstep_set|reflexivity]|].
  destruct (_ && bool_decide _); [by apply rstep_set|].
  destruct (_ <? _); [by apply rstep_set|].
  destruct (_ && _); [reflexivity|].
  destruct (last _); [by apply rstep_set|apply rstep_del].
Qed.

Lemma pumpLoop_step head sessions : ∀ m,
  recovery_step m (fst (fst (fst (pumpLoop m head sessions)))) ∧
  ∀ s, s ∈ snd (fst (fst (pumpLoop m head sessions))) → s ∈ sessions.
Proof.
  induction sessions as [|s rest IH]; intros m; cbn; [by split|].
  pose proof (pumpOne_step m head s) as H1. destruct (pumpOne m head s) as [[[m1 b1] n1] e1].
  specialize (IH m1). destruct (pumpLoop m1 head rest) as [[[m2 ls] n2] e2]. cbn in *.
  destruct IH as [H2 Hls]. split; [by etrans|].
  intros x [Hx|Hx]%elem_of_app; [destruct b1; set_solver|]. right. auto.
Qed.

Lemma waitOne_step env m s : recovery_step m (fst (fst (waitOne env m s))).
Proof.
  unfold waitOne. destruct (mCatchups m !! s) as [st|] eqn:E; [|reflexivity].
  destruct (ctInflight st) as [send|]; [|reflexivity]. destruct (evWaited env s) as [link|]; [|reflexivity].
  destruct (runJob m (csJob send) link) as [r payloads].
  pose proof (settleCatchup_step m s st send r ltac:(by eexists)) as Hs.
  by destruct (settleCatchup m s st send r).
Qed.

Lemma launchFetch_step m head : recovery_step m (launchFetch m head).
Proof. unfold launchFetch. case_match; auto with recovery. Qed.

Lemma pumpCatchup_step m env : recovery_step m (fst (fst (pumpCatchup m env))).
Proof.
  unfold pumpCatchup. case_bool_decide; [reflexivity|]. set (head := servableHead m env).
  assert (recovery_step m (fst (fst (match mFetch m with
            | Some request => collectFetch m request env | None => (m, false, []) end)))) as H0.
  { destruct (mFetch m); [apply collectFetch_step|reflexivity]. }
  destruct (match mFetch m with Some _ => _ | None => _ end) as [[m1 fetched] es0]. cbn in H0.
  pose proof (pumpLoop_step head (catchupSessions m1) m1) as [H1 _].
  destruct (pumpLoop m1 head (catchupSessions m1)) as [[[m2 launched] need] es1]. cbn in H1.
  set (m3 := if need && _ && _ then launchFetch m2 head else _).
  assert (recovery_step m2 m3) as H3.
  { unfold m3. destruct (need && _ && _); [apply launchFetch_step|]. destruct (negb need); auto with recovery. }
  pose proof (forSessions_step (waitOne env) launched m3 (waitOne_step env)) as H4.
  destruct (forSessions (waitOne env) m3 launched) as [[m4 es2] out]. cbn in *.
  etrans; [exact H0|]. etrans; [exact H1|]. by etrans.
Qed.

Lemma pinLoop_step keep floor sessions : ∀ m trim,
  recovery_step m (fst (fst (pinLoop m keep floor trim sessions))).
Proof.
  induction sessions as [|s rest IH]; intros m trim; cbn; [reflexivity|].
  destruct (mCatchups m !! s) as [st|] eqn:E; cbn; [|apply IH].
  destruct (recoveryPin st) as [pin|]; [|apply IH].
  destruct (keep <=? pin); [apply IH|]. destruct (pin <? floor); [|apply IH].
  set (st' := failRecovery m st RecoveryExpired).
  pose proof (IH (setCatchup m s st') trim) as H.
  destruct (pinLoop (setCatchup m s st') keep floor trim rest) as [[m1 t1] es]. cbn in *.
  etrans; [apply rstep_set; by eexists|done].
Qed.

Lemma pinnedTrim_step m keep : recovery_step m (fst (fst (pinnedTrim m keep))).
Proof.
  unfold pinnedTrim.
  pose proof (pinLoop_step keep (if u32 (default 0 (ssPinFrames <$> msSnapshots (mCfg m))) <? keep
     then u32 (keep - u32 (default 0 (ssPinFrames <$> msSnapshots (mCfg m)))) else 1) (catchupSessions m) m keep) as H.
  destruct (pinLoop _ _ _ _ _) as [[m1 trim] es]. cbn in *.
  destruct es; [done|]. etrans; [done|apply rstep_release].
Qed.

(** ** Bindings *)

Record bind_inv (m : Match) : Prop := mkBindInv {
  bi_players : ∀ p, p ∈ sqPlayers (mSequencer m) → 0 ≤ p;
  bi_seat : ∀ p s, mSessions m !! p = Some s → mOwners m !! s = Some p ∧ p ∈ sqPlayers (mSequencer m);
  bi_owner : ∀ s p, mOwners m !! s = Some p →
    (p = ownerSpectator ∧ s ∈ mSpectators m) ∨ mSessions m !! p = Some s;
  bi_spectator : ∀ s, s ∈ mSpectators m → mOwners m !! s = Some ownerSpectator;
  bi_catchup : dom (mCatchups m) ⊆ dom (mOwners m);
  bi_cache : ∀ rs, mReceivers m = Some rs → rs = computeReceivers m }.

Lemma seat_not_spectator m p s : bind_inv m → mSessions m !! p = Some s → p ≠ ownerSpectator.
Proof.
  intros H Hp. apply (bi_seat _ H) in Hp as [_ Hin]. apply (bi_players _ H) in Hin. unfold ownerSpectator. lia.
Qed.

Lemma recovery_step_bind m m' : recovery_step m m' → bind_inv m → bind_inv m'.
Proof.
  intros [H1 H2 H3 H4 H5 H6 H7 H8 H9 H10] [P S O Sp C R].
  constructor; rewrite ?H2, ?H7, ?H8, ?H9, ?H6; try done; [set_solver|].
  intros rs Hrs. unfold computeReceivers. rewrite H7, H8. by apply R.
Qed.

(** Steps that change neither bindings nor recoveries. *)
Lemma same_bindings m m' :
  bind_inv m → sqPlayers (mSequencer m') = sqPlayers (mSequencer m) → mSessions m' = mSessions m →
  mSpectators m' = mSpectators m → mOwners m' = mOwners m → mCatchups m' = mCatchups m →
  (mReceivers m' = mReceivers m ∨ mReceivers m' = Some (computeReceivers m)) → bind_inv m'.
Proof.
  intros [P S O Sp C R] E1 E2 E3 E4 E5 E6.
  constructor; rewrite ?E1, ?E2, ?E3, ?E4, ?E5; try done.
  intros rs Hrs. unfold computeReceivers. rewrite E2, E3.
  destruct E6 as [E6|E6]; rewrite E6 in Hrs; [by apply R|by injection Hrs as <-].
Qed.

(** Releasing a bound session. *)
Lemma unbind_seat m p s :
  bind_inv m → mSessions m !! p = Some s → mCatchups m !! s = None →
  bind_inv (setBinding m (delete p (mSessions m)) (mSpectators m) (delete s (mOwners m))).
Proof.
  intros H Hp Hc. pose proof (seat_not_spectator m p s H Hp) as Hns.
  pose proof (bi_seat _ H p s Hp) as [Hs _]. destruct H as [P S O Sp C R]. constructor; cbn; try done.
  - intros q t. rewrite lookup_delete_Some. intros [Hq Ht]. destruct (S q t Ht) as [Ho ?].
    rewrite lookup_delete_ne; [done|]. intros ->. congruence.
  - intros t q. rewrite lookup_delete_Some. intros [Ht Hq]. destruct (O t q Hq) as [?|Hs']; [by left|].
    right. rewrite lookup_delete_ne; [done|]. intros ->. congruence.
  - intros t Ht. rewrite lookup_delete_ne; [by apply Sp|]. intros ->. specialize (Sp _ Ht). congruence.
  - rewrite dom_delete. intros t Ht. apply not_elem_of_dom in Hc. set_solver.
Qed.

Lemma dropCatchup_none m s : mCatchups (dropCatchup m s) !! s = None.
Proof.
  unfold dropCatchup. destruct (mCatchups m !! s) eqn:E; [|done].
  unfold releaseIdleFetch. repeat case_match; cbn; apply lookup_delete_eq.
Qed.

Lemma Detach_bind m p : bind_inv m → bind_inv (Detach m p).
Proof.
  intros H. unfold Detach. destruct (mSessions m !! p) as [s|] eqn:E; [|done].
  pose proof (rstep_drop m s) as Hd. pose proof (recovery_step_bind _ _ Hd H) as H'.
  apply (unbind_seat (dropCatchup m s)); [done|by rewrite (rs_sessions _ _ Hd)|apply dropCatchup_none].
Qed.

Lemma bind_seat m p s :
  bind_inv m → p ∈ sqPlayers (mSequencer m) → mSessions m !! p = None →
  (∀ q, mOwners m !! s = Some q → q = p) →
  bind_inv (setBinding m (<[p := s]> (mSessions m)) (mSpectators m) (<[s := p]> (mOwners m))).
Proof.
  intros H Hp Hnone Hfree. destruct H as [P S O Sp C R].
  assert (mOwners m !! s = None) as Hs.
  { destruct (mOwners m !! s) as [q|] eqn:E; [|done]. pose proof (Hfree q eq_refl) as ->.
    destruct (O s p E) as [[-> _]|?]; [|congruence]. apply P in Hp. unfold ownerSpectator in Hp. lia. }
  constructor; cbn; try done.
  - intros q t. rewrite lookup_insert_Some. intros [[<- <-]|[Hq Ht]]; [by rewrite lookup_insert_eq|].
    destruct (S q t Ht) as [Ho ?]. rewrite lookup_insert_ne; [done|]. intros <-. congruence.
  - intros t q. rewrite lookup_insert_Some. intros [[<- <-]|[Ht Hq]]; [right; apply lookup_insert_eq|].
    destruct (O t q Hq) as [?|Hs']; [by left|]. right. rewrite lookup_insert_ne; [done|]. intros <-. congruence.
  - intros t Ht. rewrite lookup_insert_ne; [by apply Sp|]. intros <-. specialize (Sp _ Ht). congruence.
  - rewrite dom_insert. set_solver.
Qed.

Lemma Attach_bind m p s : bind_inv m → bind_inv (fst (Attach m p s)).
Proof.
  intros H. unfold Attach. destruct (mClosed m); [done|].
  destruct (KnownPlayer (mSequencer m) p) eqn:Hk; [|done]. cbn [negb].
  apply bool_decide_eq_true_1 in Hk.
  destruct (match mOwners m !! s with Some owner => negb (owner =? p) | None => false end) eqn:Ho; [done|].
  assert (∀ q, mOwners m !! s = Some q → q = p) as Hfree.
  { intros q Hq. rewrite Hq in Ho. by apply negb_false_iff, Z.eqb_eq in Ho. }
  destruct (mSessions m !! p) as [previous|] eqn:Ep; [|by apply bind_seat].
  destruct (Z.eqb_spec previous s) as [|Hne]; [done|]. cbn [fst].
  pose proof (Detach_bind m p H) as HD. unfold Detach in HD. rewrite Ep in HD.
  pose proof (rstep_drop m previous) as Hd. rewrite (rs_sessions _ _ Hd), (rs_spectators _ _ Hd), (rs_owners _ _ Hd) in *.
  pose proof (bind_seat _ p s HD) as HB. cbn in HB. rewrite (rs_sequencer _ _ Hd), insert_delete_eq in HB.
  apply HB; [done|apply lookup_delete_eq|]. intros q. rewrite lookup_delete_Some. intros [_ Hq]. auto.
Qed.

Lemma AttachSpectator_bind m s : bind_inv m → bind_inv (fst (AttachSpectator m s)).
Proof.
  intros H. unfold AttachSpectator. destruct (mClosed m); [done|].
  destruct (match mOwners m !! s with Some owner => _ | None => false end) eqn:Ho; [done|].
  pose proof (seat_not_spectator m) as Hns. pose proof H as [P S O Sp C R].
  assert (∀ q, mOwners m !! s = Some q → q = ownerSpectator) as Hfree.
  { intros q Hq. rewrite Hq in Ho. by apply negb_false_iff, Z.eqb_eq in Ho. }
  constructor; cbn; try done.
  - intros p t Ht. destruct (S p t Ht) as [Hp ?]. rewrite lookup_insert_ne; [done|].
    intros <-. apply (Hns p s H Ht). by apply Hfree.
  - intros t p. rewrite lookup_insert_Some. intros [[<- <-]|[Hne Hp]]; [left; set_solver|].
    destruct (O t p Hp) as [[? ?]|?]; [left; set_solver|by right].
  - intros t Ht. destruct (decide (t = s)) as [->|]; [apply lookup_insert_eq|].
    rewrite lookup_insert_ne by done. apply Sp. set_solver.
  - rewrite dom_insert. set_solver.
Qed.

Lemma DetachSpectator_bind m s : bind_inv m → bind_inv (DetachSpectator m s).
Proof.
  intros H. unfold DetachSpectator. case_bool_decide as Hs; [|done].
  pose proof (seat_not_spectator m) as Hns. pose proof H as [P S O Sp C R].
  assert (∀ p, mSessions m !! p ≠ Some s) as Hnseat.
  { intros p Hp. apply (Hns p s H Hp). destruct (S p s Hp) as [Ho _]. specialize (Sp s Hs). congruence. }
  set (m1 := setBinding _ _ _ _). pose proof (rstep_drop m1 s) as Hd. pose proof (dropCatchup_none m1 s) as Hc.
  destruct Hd as [H1 H2 H3 H4 H5 H6 H7 H8 H9 H10].
  constructor; rewrite ?H2, ?H6, ?H7, ?H8, ?H9; cbn; try done.
  - intros p t Ht. destruct (S p t Ht) as [Hp ?]. rewrite lookup_delete_ne; [done|]. intros <-. by apply (Hnseat p).
  - intros t p. rewrite lookup_delete_Some. intros [Hne Hp]. destruct (O t p Hp) as [[? ?]|?]; [left; set_solver|by right].
  - intros t Ht. rewrite lookup_delete_ne by set_solver. apply Sp. set_solver.
  - rewrite dom_delete. intros t Ht. assert (t ≠ s) by (intros ->; by apply not_elem_of_dom in Hc).
    specialize (H10 t Ht). cbn in H10. set_solver.
Qed.

(** A recovery is only ever opened for a bound session. *)
Lemma set_bound m s st :
  bind_inv m → is_Some (mOwners m !! s) → bind_inv (setCatchup m s st).
Proof.
  intros [P S O Sp C R] Hs%elem_of_dom. constructor; cbn; try done. rewrite dom_insert. set_solver.
Qed.

Lemma startCatchup_bind m s f :
  bind_inv m → is_Some (mOwners m !! s) → bind_inv (fst (startCatchup m s f)).
Proof.
  intros H Hs. unfold startCatchup, routeRecovery.
  repeat (case_match; cbn [fst]; try done); by apply set_bound.
Qed.

Lemma startSnapshot_bind m s :
  bind_inv m → is_Some (mOwners m !! s) → bind_inv (fst (startSnapshot m s)).
Proof.
  intros H Hs. unfold startSnapshot. repeat (case_match; cbn [fst]; try done); by apply set_bound.
Qed.

Lemma seat_bound m p s : bind_inv m → mSessions m !! p = Some s → is_Some (mOwners m !! s).
Proof. intros H Hp. apply (bi_seat _ H) in Hp as [-> _]. by eexists. Qed.

Lemma spectator_bound m s : bind_inv m → s ∈ mSpectators m → is_Some (mOwners m !! s).
Proof. intros H Hs. rewrite (bi_spectator _ H s Hs). by eexists. Qed.

Lemma StartCatchup_bind m p f : bind_inv m → bind_inv (fst (StartCatchup m p f)).
Proof.
  intros H. unfold StartCatchup. destruct (mSessions m !! p) eqn:E; [|done].
  apply startCatchup_bind; [done|by eapply seat_bound].
Qed.
Lemma SpectatorCatchup_bind m s f : bind_inv m → bind_inv (fst (SpectatorCatchup m s f)).
Proof.
  intros H. unfold SpectatorCatchup. case_bool_decide; [|done].
  apply startCatchup_bind; [done|by apply spectator_bound].
Qed.
Lemma StartSnapshot_bind m p : bind_inv m → bind_inv (fst (StartSnapshot m p)).
Proof.
  intros H. unfold StartSnapshot. destruct (mSessions m !! p) eqn:E; [|done].
  apply startSnapshot_bind; [done|by eapply seat_bound].
Qed.
Lemma SpectatorSnapshot_bind m s : bind_inv m → bind_inv (fst (SpectatorSnapshot m s)).
Proof.
  intros H. unfold SpectatorSnapshot. case_bool_decide; [|done].
  apply startSnapshot_bind; [done|by apply spectator_bound].
Qed.

Lemma SubmitInput_players s p f pl : sqPlayers (fst (SubmitInput s p f pl)) = sqPlayers s.
Proof.
  assert (∀ s1 f1 fo r, sqPlayers (storeInput s1 p f f1 pl fo r) = sqPlayers s1) as Hst.
  { intros. rewrite storeInput_eq. by destruct r. }
  unfold SubmitInput. destruct (negb _); [done|]. destruct (_ <? _); [done|].
  destruct (f <? sqNext s); (destruct (_ <? _); [done|]); destruct (replayFloor s <=? f);
    cbn [slot]; (destruct (_ && _); [done|]); cbn [fst]; by rewrite Hst.
Qed.

Lemma MatchSubmitInput_bind m p f pl : bind_inv m → bind_inv (fst (MatchSubmitInput m p f pl)).
Proof.
  intros H. unfold MatchSubmitInput. destruct (mClosed m); [done|].
  pose proof (SubmitInput_players (mSequencer m) p f pl). destruct (SubmitInput _ p f pl) as [s r].
  cbn in *. apply (same_bindings m); cbn; try done. by left.
Qed.

Section Ops.
Context (grow : Z → Z → Z) (visit : nat → gmap Z Z → list (Z * Z)).

(** Every public operation of the match. *)
Inductive MatchOp : Type :=
| MAttach (p : PlayerID) (s : SessionID) | MDetach (p : PlayerID) | MDetachSession (p : PlayerID) (s : SessionID)
| MAttachSpectator (s : SessionID) | MDetachSpectator (s : SessionID)
| MSubmit (p : PlayerID) (f : FrameID) (payload : bytes) | MReportHash (p : PlayerID) (f : FrameID) (hash : Z)
| MStartCatchup (p : PlayerID) (f : FrameID) | MSpectatorCatchup (s : SessionID) (f : FrameID)
| MStartSnapshot (p : PlayerID) | MSpectatorSnapshot (s : SessionID)
| MCommand (s : SessionID) (c : Command) | MTick (env : TickEnv)
| MTrimHistory (keep : FrameID) | MTrimHashReports (before : FrameID) | MClose.

Definition matchStep (m : Match) (op : MatchOp) : Match :=
  match op with
  | MAttach p s => fst (Attach m p s)
  | MDetach p => Detach m p
  | MDetachSession p s => fst (DetachSession m p s)
  | MAttachSpectator s => fst (AttachSpectator m s)
  | MDetachSpectator s => DetachSpectator m s
  | MSubmit p f payload => fst (MatchSubmitInput m p f payload)
  | MReportHash p f hash => fst (fst (ReportHash visit m p f hash))
  | MStartCatchup p f => fst (StartCatchup m p f)
  | MSpectatorCatchup s f => fst (SpectatorCatchup m s f)
  | MStartSnapshot p => fst (StartSnapshot m p)
  | MSpectatorSnapshot s => fst (SpectatorSnapshot m s)
  | MCommand s c => fst (fst (HandleCommand visit m s c))
  | MTick env => match Tick grow m env with Some (m', _, _, _) => m' | None => m end
  | MTrimHistory keep => TrimHistory grow m keep
  | MTrimHashReports before => TrimHashReports m before
  | MClose => Close m
  end.

Definition matchRun (m : Match) (ops : list MatchOp) : Match := fold_left matchStep ops m.

Lemma ReportHash_bind m p f h : bind_inv m → bind_inv (fst (fst (ReportHash visit m p f h))).
Proof.
  intros H. unfold ReportHash. repeat (case_match; cbn [fst]; try done);
    (apply (same_bindings m); cbn; try done; by left).
Qed.

Lemma HandleCommand_bind m s c : bind_inv m → bind_inv (fst (fst (HandleCommand visit m s c))).
Proof.
  intros H. unfold HandleCommand. destruct (mClosed m); [done|]. destruct (Validate c); [done|].
  destruct (mOwners m !! s) as [player|]; [|done]. destruct (cOperation c =? OpCatchup).
  - destruct (player =? ownerSpectator).
    + pose proof (SpectatorCatchup_bind m s (cFrame c) H). by destruct (SpectatorCatchup m s (cFrame c)).
    + pose proof (StartCatchup_bind m player (cFrame c) H). by destruct (StartCatchup m player (cFrame c)).
  - destruct (player =? ownerSpectator); [done|]. destruct (cOperation c =? OpHash); [by apply ReportHash_bind|].
    pose proof (MatchSubmitInput_bind m player (cFrame c) (cPayload c) H).
    by destruct (MatchSubmitInput m player (cFrame c) (cPayload c)).
Qed.

Lemma retainWindow_bind m latest : bind_inv m → bind_inv (fst (retainWindow grow m latest)).
Proof.
  intros H. unfold retainWindow. destruct (_ || _); [done|]. set (keep := u32 (u32 _ + 1)).
  assert (∀ m1 trim, bind_inv m1 →
    bind_inv (if hashTrimStride <=? u32 (keep - mHashTrimmed (setHistory m1 (TrimBefore grow (mHistory m1) trim)))
      then setDetector (TrimHashReports (setHistory m1 (TrimBefore grow (mHistory m1) trim)) keep)
             (mDetector (TrimHashReports (setHistory m1 (TrimBefore grow (mHistory m1) trim)) keep))
             (mRuled (TrimHashReports (setHistory m1 (TrimBefore grow (mHistory m1) trim)) keep)) keep
      else setHistory m1 (TrimBefore grow (mHistory m1) trim))) as Hend.
  { intros m1 trim H1. destruct (_ <=? _); (apply (same_bindings m1); cbn; try done; by left). }
  destruct (_ && _).
  - pose proof (pinnedTrim_step m keep) as Hp. destruct (pinnedTrim m keep) as [[m1 trim] es]. cbn in *.
    apply Hend. by eapply recovery_step_bind.
  - by apply Hend.
Qed.

Lemma Advance_players s s' f : Advance s = Some (s', f) → sqPlayers s' = sqPlayers s.
Proof. unfold Advance. destruct (_ =? _); [done|]. by intros [= <- _]. Qed.

Lemma broadcastOrder_bind m : bind_inv m →
  bind_inv (fst (broadcastOrder m)) ∧ snd (broadcastOrder m) = computeReceivers m ∧
  mCatchups (fst (broadcastOrder m)) = mCatchups m ∧ mOwners (fst (broadcastOrder m)) = mOwners m.
Proof.
  intros H. unfold broadcastOrder. destruct (mReceivers m) as [rs|] eqn:E; cbn.
  - split; [done|]. split; [|done]. by apply (bi_cache _ H).
  - split; [|done]. apply (same_bindings m); cbn; try done. by right.
Qed.

Lemma Tick_bind m env m' r es out :
  bind_inv m → Tick grow m env = Some (m', r, es, out) → bind_inv m'.
Proof.
  intros H. unfold Tick. destruct (mClosed m); [by intros [= <- _ _ _]|].
  destruct (Advance (mSequencer m)) as [[sequencer frame]|] eqn:Ea; [|done].
  destruct (Append grow (mHistory m) frame) as [history|]; [|done].
  destruct (Push (mEncoder m) frame) as [encoder packet].
  assert (bind_inv (setCut m sequencer history encoder)) as H0.
  { apply (same_bindings m); cbn; try done; [by eapply Advance_players|by left]. }
  set (m0 := setCut m sequencer history encoder) in *.
  pose proof (forSessions_step (λ m s, collectOne m env s) (catchupSessions m0) m0 (λ m s, collectOne_step m env s)) as H1.
  fold (collectCatchups m0 env) in H1. destruct (collectCatchups m0 env) as [[m1 es1] out1]. cbn [fst] in H1.
  pose proof (recovery_step_bind _ _ H1 H0) as Hb1.
  pose proof (broadcastOrder_bind m1 Hb1) as (Hb2 & _). destruct (broadcastOrder m1) as [m2 receivers]. cbn [fst] in *.
  destruct (broadcastLoop m2 env packet receivers) as [datagrams es2].
  pose proof (pumpCatchup_step m2 env) as H3. destruct (pumpCatchup m2 env) as [[m3 es3] out3]. cbn [fst] in *.
  pose proof (retainWindow_bind m3 (fID frame) (recovery_step_bind _ _ H3 Hb2)) as H4.
  destruct (retainWindow grow m3 (fID frame)) as [m4 es4]. by intros [= <- _ _ _].
Qed.

Lemma matchStep_bind m op : bind_inv m → bind_inv (matchStep m op).
Proof.
  intros H. destruct op; cbn [matchStep].
  - by apply Attach_bind.
  - by apply Detach_bind.
  - unfold DetachSession. destruct (mSessions m !! p); [|done]. destruct (_ =? s); [by apply Detach_bind|done].
  - by apply AttachSpectator_bind.
  - by apply DetachSpectator_bind.
  - by apply MatchSubmitInput_bind.
  - by apply ReportHash_bind.
  - by apply StartCatchup_bind.
  - by apply SpectatorCatchup_bind.
  - by apply StartSnapshot_bind.
  - by apply SpectatorSnapshot_bind.
  - by apply HandleCommand_bind.
  - destruct (Tick grow m env) as [[[[m' r] es] out]|] eqn:E; [by eapply Tick_bind|done].
  - apply (same_bindings m); try done. by left.
  - apply (same_bindings m); try done. by left.
  - destruct H as [P _ _ _ _ _]. constructor; cbn; try done; intros ? ?; set_solver.
Qed.

Lemma NewMatch_bind c m : NewMatch c = Ok m → bind_inv m.
Proof.
  unfold NewMatch. destruct (mcDatagrams c); [|done]. intros H. inv_ok.
  constructor; cbn; try done. 
  unfold NewSequencer in E. inv_ok.
  destruct (seatLoop_spec (scPlayers (mcSequencer c)) ∅) as [Hs _].
  match goal with E : seatLoop _ _ = Ok _ |- _ => apply Hs in E as (-> & _ & Hpos & _) end.
  intros p. cbn. rewrite union_empty_r_L, elem_of_list_to_set. intros Hp. by eapply Forall_forall in Hpos.
Qed.

Lemma matchRun_bind ops : ∀ m, bind_inv m → bind_inv (matchRun m ops).
Proof.
  induction ops as [|op ops IH]; intros m H; [done|]. cbn. apply IH. by apply matchStep_bind.
Qed.
End Ops.

(** ** Operations that leave the frame pipeline alone *)

Record quiet (m m' : Match) : Prop := mkQuiet {
  qt_cfg : mCfg m' = mCfg m;
  qt_sequencer : mSequencer m' = mSequencer m;
  qt_history : mHistory m' = mHistory m;
  qt_encoder : mEncoder m' = mEncoder m }.

#[export] Instance quiet_preorder : PreOrder quiet.
Proof. split; [by constructor|]. intros a b c [] []. constructor; congruence. Qed.

Lemma recovery_step_quiet m m' : recovery_step m m' → quiet m m'.
Proof. intros []. by constructor. Qed.

Lemma startCatchup_quiet m s f : quiet m (fst (startCatchup m s f)).
Proof. unfold startCatchup, routeRecovery. repeat (case_match; cbn [fst]; try done). Qed.

Lemma startSnapshot_quiet m s : quiet m (fst (startSnapshot m s)).
Proof. unfold startSnapshot. repeat (case_match; cbn [fst]; try done). Qed.

Lemma Detach_quiet m p : quiet m (Detach m p).
Proof.
  unfold Detach. destruct (mSessions m !! p) as [s|]; [|done].
  destruct (recovery_step_quiet _ _ (rstep_drop m s)). by constructor.
Qed.

Lemma StartCatchup_quiet m p f : quiet m (fst (StartCatchup m p f)).
Proof. unfold StartCatchup. destruct (mSessions m !! p); [apply startCatchup_quiet|done]. Qed.

Lemma SpectatorCatchup_quiet m s f : quiet m (fst (SpectatorCatchup m s f)).
Proof. unfold SpectatorCatchup. case_bool_decide; [apply startCatchup_quiet|done]. Qed.

Lemma ReportHash_quiet visit m p f h : quiet m (fst (fst (ReportHash visit m p f h))).
Proof. unfold ReportHash. repeat (case_match; cbn [fst]; try done). Qed.

(** Every operation is quiet, submits an input, ticks, or trims the history. *)
Lemma matchStep_cases grow visit m op :
  quiet m (matchStep grow visit m op) ∨
  (∃ p f payload, matchStep grow visit m op = fst (MatchSubmitInput m p f payload)) ∨
  (∃ env r es out, Tick grow m env = Some (matchStep grow visit m op, r, es, out)) ∨
  (∃ keep, matchStep grow visit m op = TrimHistory grow m keep).
Proof.
  destruct op; cbn [matchStep].
  - left. unfold Attach. destruct (mClosed m); [done|]. destruct (negb _); [done|].
    destruct (match mOwners m !! s with Some _ => _ | None => _ end); [done|].
    destruct (mSessions m !! p) as [previous|]; [|done]. destruct (previous =? s); [done|].
    destruct (recovery_step_quiet _ _ (rstep_drop m previous)). by constructor.
  - left. apply Detach_quiet.
  - left. unfold DetachSession. destruct (mSessions m !! p); [|done]. destruct (_ =? _); [apply Detach_quiet|done].
  - left. unfold AttachSpectator. destruct (mClosed m); [done|].
    by destruct (match mOwners m !! s with Some _ => _ | None => _ end).
  - left. unfold DetachSpectator. case_bool_decide; [|done].
    match goal with |- quiet _ (dropCatchup ?m1 s) => destruct (recovery_step_quiet _ _ (rstep_drop m1 s)) end.
    by constructor.
  - right. left. by exists p, f, payload.
  - left. apply ReportHash_quiet.
  - left. apply StartCatchup_quiet.
  - left. apply SpectatorCatchup_quiet.
  - left. unfold StartSnapshot. destruct (mSessions m !! p); [apply startSnapshot_quiet|done].
  - left. unfold SpectatorSnapshot. case_bool_decide; [apply startSnapshot_quiet|done].
  - unfold HandleCommand. destruct (mClosed m); [by left|]. destruct (Validate c); [by left|].
    destruct (mOwners m !! s) as [player|]; [|by left]. destruct (cOperation c =? OpCatchup).
    + left. destruct (player =? ownerSpectator).
      * pose proof (SpectatorCatchup_quiet m s (cFrame c)). by destruct (SpectatorCatchup m s _).
      * pose proof (StartCatchup_quiet m player (cFrame c)). by destruct (StartCatchup m player _).
    + destruct (player =? ownerSpectator); [by left|].
      destruct (cOperation c =? OpHash); [left; apply ReportHash_quiet|].
      right. left. exists player, (cFrame c), (cPayload c). by destruct (MatchSubmitInput m player _ _).
  - destruct (Tick grow m env) as [[[[m' r] es] out]|] eqn:E; [|by left].
    right. right. left. by exists env, r, es, out.
  - do 3 right. by exists keep.
  - by left.
  - by left.
Qed.

(** ** Who receives a broadcast *)

Lemma merge_sort_NoDup l : NoDup l → NoDup (merge_sort Z.le l).
Proof. by rewrite merge_sort_Permutation. Qed.

Lemma NoDup_map_inj_on {A B} (f : A → B) l :
  NoDup l → (∀ x y, x ∈ l → y ∈ l → f x = f y → x = y) → NoDup (map f l).
Proof.
  induction 1 as [|x l Hx Hl IH]; intros Hinj; [constructor|]. cbn. constructor.
  - intros (y & Hy & Hin)%list_elem_of_fmap. apply Hx. rewrite (Hinj x y); [done|left|by right|done].
  - apply IH. intros y z Hy Hz. apply Hinj; by right.
Qed.

Lemma computeReceivers_spec m :
  bind_inv m →
  NoDup (map snd (computeReceivers m)) ∧
  (∀ p s, (p, s) ∈ computeReceivers m → mOwners m !! s = Some p).
Proof.
  intros H. unfold computeReceivers.
  set (ps := merge_sort Z.le (map fst (map_to_list (mSessions m)))).
  assert (∀ p, p ∈ ps ↔ is_Some (mSessions m !! p)) as Hps.
  { intros p. unfold ps. rewrite merge_sort_Permutation, list_elem_of_fmap. split.
    - intros ([q s] & -> & Hin%elem_of_map_to_list). by eexists.
    - intros [s Hs]. exists (p, s). split; [done|]. by apply elem_of_map_to_list. }
  assert (∀ s, s ∈ merge_sort Z.le (elements (mSpectators m)) ↔ s ∈ mSpectators m) as Hss.
  { intros s. by rewrite merge_sort_Permutation, elem_of_elements. }
  assert (∀ p s, (p, s) ∈ map (λ p, (p, default 0 (mSessions m !! p))) ps → mSessions m !! p = Some s) as Hseat.
  { intros p s (q & [= -> ->] & [t Ht]%Hps)%list_elem_of_fmap. by rewrite Ht. }
  split.
  - rewrite map_app, !map_map. cbn. rewrite map_id. apply NoDup_app. split_and!.
    + apply NoDup_map_inj_on; [apply merge_sort_NoDup, NoDup_fst_map_to_list|].
      intros p q [s Hp]%Hps [t Hq]%Hps. rewrite Hp, Hq. cbn. intros <-.
      destruct (bi_seat _ H p s Hp) as [Hop _], (bi_seat _ H q s Hq) as [Hoq _]. congruence.
    + intros s (p & -> & [t Ht]%Hps)%list_elem_of_fmap Hin%Hss. rewrite Ht in Hin. cbn in Hin.
      apply (seat_not_spectator m p t H Ht). destruct (bi_seat _ H p t Ht) as [Ho _].
      rewrite (bi_spectator _ H t Hin) in Ho. by injection Ho.
    + apply merge_sort_NoDup, NoDup_elements.
  - intros p s [Hin|(t & [= -> ->] & Hin%Hss)%list_elem_of_fmap]%elem_of_app.
    + by apply (bi_seat _ H), Hseat.
    + by apply (bi_spectator _ H).
Qed.

Lemma broadcastLoop_spec m env packet rs :
  NoDup (map snd rs) →
  NoDup (map fst (fst (broadcastLoop m env packet rs))) ∧
  (∀ s pkt, (s, pkt) ∈ fst (broadcastLoop m env packet rs) →
     pkt = packet ∧ mCatchups m !! s = None ∧ ∃ p, (p, s) ∈ rs).
Proof.
  induction rs as [|[p s] rs IH]; cbn.
  { intros _. split; [constructor|]. by intros ? ? ?%not_elem_of_nil. }
  intros [Hni Hn]%NoDup_cons. destruct (IH Hn) as [IH1 IH2].
  destruct (broadcastLoop m env packet rs) as [sent es]. cbn in *.
  assert (∀ t pkt, (t, pkt) ∈ sent → pkt = packet ∧ mCatchups m !! t = None ∧ ∃ q, (q, t) ∈ (p, s) :: rs) as Hsent.
  { intros t pkt Ht. destruct (IH2 t pkt Ht) as (? & ? & q & ?). split_and!; try done. exists q. by right. }
  case_bool_decide as Hc; cbn; [by split|]. split.
  - constructor; [|done]. intros ([t pkt] & -> & Hin)%list_elem_of_fmap. cbn in Hni.
    destruct (IH2 t pkt Hin) as (_ & _ & q & Hq). apply Hni, list_elem_of_fmap. by exists (q, t).
  - intros t pkt [[= -> ->]|Hin]%elem_of_cons; [|by apply Hsent].
    split_and!; [done| |exists p; by left]. destruct (mCatchups m !! s); [|done]. exfalso. apply Hc. by eexists.
Qed.

(** Only the broadcast loop sends datagrams. *)
Lemma forSessions_no_datagrams f sessions : ∀ m,
  (∀ m s, snDatagrams (snd (f m s)) = []) → snDatagrams (snd (forSessions f m sessions)) = [].
Proof.
  induction sessions as [|s l IH]; intros m Hf; cbn; [done|]. specialize (Hf m s) as Hs.
  destruct (f m s) as [[m1 e1] o1]. specialize (IH m1 Hf).
  destruct (forSessions f m1 l) as [[m2 e2] o2]. cbn in *. by rewrite Hs, IH.
Qed.

Lemma collect_no_datagrams m env : snDatagrams (snd (collectCatchups m env)) = [].
Proof.
  apply forSessions_no_datagrams. intros m1 s. unfold collectOne. repeat (case_match; try done).
Qed.

Lemma pump_no_datagrams m env : snDatagrams (snd (pumpCatchup m env)) = [].
Proof.
  unfold pumpCatchup. case_bool_decide; [done|].
  destruct (match mFetch m with Some _ => _ | None => _ end) as [[m1 fetched] es0].
  destruct (pumpLoop m1 _ _) as [[[m2 launched] need] e1].
  set (m3 := if need && _ && _ then _ else _). clearbody m3.
  pose proof (forSessions_no_datagrams (waitOne env) launched m3) as Hw.
  destruct (forSessions (waitOne env) m3 launched) as [[m4 es2] out]. cbn in *. apply Hw.
  intros m5 s. unfold waitOne. repeat (case_match; try done).
Qed.

Section Props.
Context (grow : Z → Z → Z) (visit : nat → gmap Z Z → list (Z * Z)).

(** One receiver per session: after any sequence of operations a session
    serves at most one seat or the spectators, never both, and only bound
    sessions have a recovery; a Tick sends the frame's packet at most once to
    each session, only to bound ones, and never to one that is recovering. *)
Theorem one_receiver_per_session c m0 ops env m' f es out :
  NewMatch c = Ok m0 → let m := matchRun grow visit m0 ops in
  (∀ p q s, mSessions m !! p = Some s → mSessions m !! q = Some s → p = q) ∧
  (∀ p s, mSessions m !! p = Some s → s ∉ mSpectators m) ∧
  (∀ s, is_Some (mCatchups m !! s) → (∃ p, mSessions m !! p = Some s) ∨ s ∈ mSpectators m) ∧
  (Tick grow m env = Some (m', Ok f, es, out) →
   NoDup (map fst (snDatagrams out)) ∧
   ∀ s packet, (s, packet) ∈ snDatagrams out →
     packet = snd (Push (mEncoder m) f) ∧ ((∃ p, mSessions m !! p = Some s) ∨ s ∈ mSpectators m)).
Proof.
  intros Hnew m. assert (bind_inv m) as H by (apply matchRun_bind; by eapply NewMatch_bind).
  assert (∀ s, is_Some (mOwners m !! s) → (∃ p, mSessions m !! p = Some s) ∨ s ∈ mSpectators m) as Hbound.
  { intros s [p Hp]. destruct (bi_owner _ H s p Hp) as [[_ ?]|?]; [by right|left; by exists p]. }
  split_and!.
  - intros p q s Hp Hq. destruct (bi_seat _ H p s Hp) as [Hop _], (bi_seat _ H q s Hq) as [Hoq _]. congruence.
  - intros p s Hp Hs. apply (seat_not_spectator m p s H Hp). destruct (bi_seat _ H p s Hp) as [Ho _].
    rewrite (bi_spectator _ H s Hs) in Ho. by injection Ho.
  - intros s Hs%elem_of_dom. apply Hbound, elem_of_dom. by apply (bi_catchup _ H).
  - unfold Tick. destruct (mClosed m); [done|].
    destruct (Advance (mSequencer m)) as [[sequencer frame]|] eqn:Ea; [|done].
    destruct (Append grow (mHistory m) frame) as [history|]; [|done].
    destruct (Push (mEncoder m) frame) as [encoder packet] eqn:Epush.
    assert (bind_inv (setCut m sequencer history encoder)) as H0.
    { apply (same_bindings m); cbn; try done; [by eapply Advance_players|by left]. }
    set (n0 := setCut m sequencer history encoder) in *.
    pose proof (forSessions_step (λ m s, collectOne m env s) (catchupSessions n0) n0 (λ m s, collectOne_step m env s)) as H1.
    fold (collectCatchups n0 env) in H1. destruct (collectCatchups n0 env) as [[m1 es1] out1] eqn:Ec. cbn [fst] in H1.
    pose proof (recovery_step_bind _ _ H1 H0) as Hb1.
    pose proof (broadcastOrder_bind m1 Hb1) as (Hb2 & Hrs & Hcat & Hown). destruct (broadcastOrder m1) as [m2 receivers]. cbn [fst snd] in *.
    destruct (computeReceivers_spec m1 Hb1) as [Hnd Hrecv]. rewrite <- Hrs in Hnd, Hrecv.
    pose proof (broadcastLoop_spec m2 env packet receivers Hnd) as [Hd1 Hd2].
    destruct (broadcastLoop m2 env packet receivers) as [datagrams es2].
    pose proof (collect_no_datagrams n0 env) as Hnone1. rewrite Ec in Hnone1. cbn in Hnone1.
    pose proof (pump_no_datagrams m2 env) as Hnone3.
    destruct (pumpCatchup m2 env) as [[m3 es3] out3]. cbn in Hnone3.
    destruct (retainWindow grow m3 (fID frame)) as [m4 es4]. intros [= _ <- _ <-]. cbn.
    rewrite Hnone1, Hnone3, app_nil_r. cbn. split; [done|].
    intros s pkt Hin. destruct (Hd2 s pkt Hin) as (-> & _ & p & Hp). rewrite Epush. split; [done|].
    apply Hbound. specialize (Hrecv p s Hp). rewrite (rs_owners _ _ H1) in Hrecv. by eexists.
Qed.
End Props.

(** ** A concrete match *)

Definition sample_snapshots : SnapshotConfig := mkSnapshotConfig true 0 0 4 6 0 0 10.

Definition sample_match_config : MatchConfig :=
  mkMatchConfig (mkSeqConfig [0; 1; 2] 0 8) 2 0 0 4 64 2 (Some None) (Some (mkReliable None (Some true)))
    RecoveryUnset sample_snapshots false.

Definition okOr {E A} (d : A) (r : result E A) : A := match r with Ok a => a | Err _ => d end.

Definition emptyMatch : Match :=
  mkMatch (mkMatchSettings false 0 0 0 0 RecoveryCatchup None false) (mkSequencer ∅ 0 0 1 ∅ ∅) NewHistory
    (mkEncoder [] 0 0) (mkDetector 0 0 ∅ 0) 0 false None ∅ ∅ ∅ ∅ ∅ None 0.

Definition sample_match0 : Match := okOr emptyMatch (NewMatch sample_match_config).

(** Everything finishes at once and succeeds. *)
Definition quiet_env : TickEnv :=
  mkTickEnv (λ _, Some (λ _, true)) (λ _, Some (λ _, true)) (λ _, true) 0 None false.

Definition sample_match_ops : list MatchOp :=
  [MAttach 0 100; MAttach 1 101; MAttachSpectator 200; MTick quiet_env; MSubmit 0 2 [7]; MTick quiet_env;
   MAttach 1 102; MCommand 102 (mkCommand OpCatchup 1 [] 0); MCommand 200 (mkCommand OpInput 3 [1] 0)].

Definition tickFrame (r : option (Match * result LockErr Frame * list TickErr * Sent)) : Frame :=
  match r with Some (_, Ok f, _, _) => f | _ => mkFrame 0 [] end.
Definition tickSent (r : option (Match * result LockErr Frame * list TickErr * Sent)) : Sent :=
  match r with Some (_, _, _, s) => s | _ => noSent end.
Definition tickErrs (r : option (Match * result LockErr Frame * list TickErr * Sent)) : list TickErr :=
  match r with Some (_, _, es, _) => es | _ => [] end.
Definition tickMatch (r : option (Match * result LockErr Frame * list TickErr * Sent)) : Match :=
  match r with Some (m, _, _, _) => m | _ => emptyMatch end.

Definition sample_m : Match := matchRun double_grow visit_fwd sample_match0 sample_match_ops.

Definition one_receiver_statement (m : Match) (f : Frame) (out : Sent) : Prop :=
  NoDup (map fst (snDatagrams out)) ∧
  ∀ s packet, (s, packet) ∈ snDatagrams out →
    packet = snd (Push (mEncoder m) f) ∧ ((∃ p, mSessions m !! p = Some s) ∨ s ∈ mSpectators m).

Example one_receiver_per_session_witness :
  let t := Tick double_grow sample_m quiet_env in
  map fst (snDatagrams (tickSent t)) = [100; 200] ∧
  one_receiver_statement sample_m (tickFrame t) (tickSent t).
Proof.
  intros t. split; [vm_compute; reflexivity|].
  apply (one_receiver_per_session double_grow visit_fwd sample_match_config sample_match0 sample_match_ops quiet_env
           (tickMatch t) (tickFrame t) (tickErrs t) (tickSent t)); vm_compute; reflexivity.
Defined.
