(* ===== verification/LockMatchFit.v ===== *)
(** * Broadcast packets fit the datagram

    [NewMatch] refuses a configuration whose worst-case packet exceeds the
    datagram bound.  Here: whatever clients submit, no packet of a match it
    accepted ever exceeds the bound. *)

From S2P Require Import Prelude Bytes LockTypes LockWire LockCommand LockSequencer LockHistory LockDesync.
From S2P Require Import LockSnapshotWire LockMatch LockMatchInv.

(** A frame of at most [players] inputs of at most [maxInput] bytes. *)
Definition frame_fits (players maxInput : Z) (f : Frame) : Prop :=
  is_u32 (fID f) ∧ zlen (fInputs f) ≤ players ∧ Forall (λ i, zlen (iPayload i) ≤ maxInput) (fInputs f).

Lemma zlen_encodeInput_le i maxInput :
  zlen (iPayload i) ≤ maxInput → maxInput ≤ MaxInputPayloadBytes →
  zlen (encodeInput i) ≤ inputOverhead + maxInput.
Proof.
  intros Hp Hm. unfold encodeInput, inputOverhead, MaxInputPayloadBytes in *.
  pose proof (zlen_uvarint_le 5 (u32 (iPlayer i))). pose proof (zlen_uvarint_le 5 (zlen (iPayload i))).
  pose proof (u32_range (iPlayer i)). zlia.
Qed.

Lemma zlen_concat_le {A} (f : A → bytes) l bound :
  Forall (λ x, zlen (f x) ≤ bound) l → zlen (concat (map f l)) ≤ zlen l * bound.
Proof.
  induction 1 as [|x l Hx Hl IH]; [done|]. cbn [map concat]. rewrite zlen_app, zlen_cons. lia.
Qed.

Lemma zlen_encodeFrame_le f players maxInput :
  frame_fits players maxInput f → players ≤ MaxFrameInputs → 0 ≤ maxInput ≤ MaxInputPayloadBytes →
  zlen (encodeFrame f) ≤ frameOverhead + players * (inputOverhead + maxInput).
Proof.
  intros (Hid & Hn & Hi) Hp Hm. unfold encodeFrame, frameOverhead, MaxFrameInputs in *.
  pose proof (zlen_uvarint_le 5 (fID f)). pose proof (zlen_uvarint_le 5 (zlen (fInputs f))).
  assert (zlen (concat (map encodeInput (fInputs f))) ≤ zlen (fInputs f) * (inputOverhead + maxInput)) as Hc.
  { apply zlen_concat_le. eapply Forall_impl; [done|]. cbn. intros i ?. apply zlen_encodeInput_le; lia. }
  unfold inputOverhead in *. pose proof (zlen_nonneg (fInputs f)).
  assert (zlen (fInputs f) * (5 + 5 + maxInput) ≤ players * (5 + 5 + maxInput)) by nia. zlia.
Qed.

Lemma zlen_packet_le fs depth players maxInput :
  Forall (frame_fits players maxInput) fs → zlen fs ≤ depth → depth ≤ MaxBroadcastFrames →
  0 ≤ players ≤ MaxFrameInputs → 0 ≤ maxInput ≤ MaxInputPayloadBytes →
  zlen (EncodeBroadcast fs) ≤ worstPacket depth players maxInput.
Proof.
  intros Hf Hd Hdm Hp Hm. unfold EncodeBroadcast, worstPacket, packetHeader, MaxBroadcastFrames in *.
  pose proof (zlen_uvarint_le 5 (zlen fs)). pose proof (zlen_nonneg fs).
  assert (zlen (concat (map encodeFrame fs)) ≤ zlen fs * (frameOverhead + players * (inputOverhead + maxInput))) as Hc.
  { apply zlen_concat_le. eapply Forall_impl; [done|]. intros f ?. apply zlen_encodeFrame_le; (done || lia). }
  assert (0 ≤ frameOverhead + players * (inputOverhead + maxInput)) by (unfold frameOverhead, inputOverhead; nia).
  assert (zlen fs * (frameOverhead + players * (inputOverhead + maxInput)) ≤
          depth * (frameOverhead + players * (inputOverhead + maxInput))) by nia.
  zlia.
Qed.

(** ** What the sequencer holds *)

Record seq_fits (s : Sequencer) : Prop := mkSeqFits {
  sf_next : is_u32 (sqNext s);
  sf_pending : ∀ t inputs, sqPending s !! t = Some inputs →
    dom inputs ⊆ sqPlayers s ∧ map_Forall (λ _ i, zlen (pPayload i) ≤ sqMaxInput s) inputs }.

Lemma storeInput_fits s p o t pl fo r :
  seq_fits s → p ∈ sqPlayers s → zlen pl ≤ sqMaxInput s →
  seq_fits (storeInput s p o t pl fo r) ∧ sqPlayers (storeInput s p o t pl fo r) = sqPlayers s ∧
  sqMaxInput (storeInput s p o t pl fo r) = sqMaxInput s.
Proof.
  intros [Hn Hp] Hin Hpl. rewrite storeInput_eq.
  pose proof (remember_config (setPending s (<[t:=storedInputs s p t pl fo]> (sqPending s))) p o t r) as (E1 & E2 & E3 & E4 & E5).
  rewrite E1, E3. split; [|done]. constructor; rewrite ?E1, ?E3, ?E4, ?E5; [done|].
  assert (dom (default ∅ (sqPending s !! t)) ⊆ sqPlayers s ∧
          map_Forall (λ _ i, zlen (pPayload i) ≤ sqMaxInput s) (default ∅ (sqPending s !! t))) as [Hd Hf].
  { destruct (sqPending s !! t) eqn:E; cbn; [by apply (Hp t)|]. split; [set_solver|apply map_Forall_empty]. }
  intros u inputs. cbn. rewrite lookup_insert_Some. intros [[<- <-]|[_ Hu]]; [|by apply (Hp u)].
  assert (dom (<[p:=mkPending pl fo]> (default ∅ (sqPending s !! t))) ⊆ sqPlayers s ∧
          map_Forall (λ _ i, zlen (pPayload i) ≤ sqMaxInput s) (<[p:=mkPending pl fo]> (default ∅ (sqPending s !! t)))) as Hins.
  { split; [rewrite dom_insert; set_solver|]. by apply map_Forall_insert_2. }
  unfold storedInputs. repeat case_match; done.
Qed.

Lemma SubmitInput_fits s p f pl :
  seq_fits s → seq_fits (fst (SubmitInput s p f pl)) ∧
  sqPlayers (fst (SubmitInput s p f pl)) = sqPlayers s ∧ sqMaxInput (fst (SubmitInput s p f pl)) = sqMaxInput s.
Proof.
  intros H. unfold SubmitInput, KnownPlayer. case_bool_decide as Hp; [|done]. cbn [negb].
  destruct (Z.ltb_spec (sqMaxInput s) (zlen pl)); [done|].
  assert (∀ q ring, seq_fits (setAccepted s q ring)) as Ha by (intros; destruct H; by constructor).
  destruct (f <? sqNext s); (destruct (_ <? _); [done|]); destruct (replayFloor s <=? f); cbn [slot];
    (destruct (_ && _); [cbn [fst]; split; [first [done|apply Ha]|done]|]); cbn [fst];
    match goal with |- context [storeInput ?s1 ?p ?o ?t ?pl ?fo ?r] =>
      apply (storeInput_fits s1 p o t pl fo r); try done; first [exact H|apply Ha] end.
Qed.

Lemma Advance_fits s s' f :
  seq_fits s → Advance s = Some (s', f) →
  seq_fits s' ∧ sqPlayers s' = sqPlayers s ∧ sqMaxInput s' = sqMaxInput s ∧
  frame_fits (Z.of_nat (size (sqPlayers s))) (sqMaxInput s) f.
Proof.
  intros [Hn Hp]. unfold Advance. destruct (_ =? _); [done|]. intros [= <- <-].
  assert (dom (default ∅ (sqPending s !! sqNext s)) ⊆ sqPlayers s ∧
          map_Forall (λ _ i, zlen (pPayload i) ≤ sqMaxInput s) (default ∅ (sqPending s !! sqNext s))) as [Hd Hf].
  { destruct (sqPending s !! sqNext s) eqn:E; cbn; [by apply (Hp (sqNext s))|]. split; [set_solver|apply map_Forall_empty]. }
  set (inputs := default ∅ (sqPending s !! sqNext s)) in *.
  split_and!; try done.
  - constructor; cbn; [apply u32_range|]. intros t m Ht. apply (Hp t).
    destruct (decide (inputs = ∅)); cbn in Ht; [done|]. by apply lookup_delete_Some in Ht as [_ ?].
  - unfold frame_fits. cbn. destruct (decide (inputs = ∅)); cbn; [split_and!; [done|apply zlen_nonneg|constructor]|].
    split; [done|]. split.
    + rewrite zlen_map. unfold zlen. rewrite merge_sort_Permutation, length_map, length_map_to_list.
      apply subseteq_size in Hd. rewrite size_dom in Hd. lia.
    + rewrite Forall_map, Forall_forall. intros p Hpin. cbn.
      rewrite merge_sort_Permutation, list_elem_of_fmap in Hpin.
      destruct Hpin as ([q i] & -> & Hi%elem_of_map_to_list). cbn. rewrite Hi. by apply (Hf q).
Qed.

(** ** What the match holds *)

Record match_fits (players maxInput : Z) (m : Match) : Prop := mkMatchFits {
  mf_seq : seq_fits (mSequencer m);
  mf_players : Z.of_nat (size (sqPlayers (mSequencer m))) ≤ players;
  mf_maxInput : sqMaxInput (mSequencer m) = maxInput;
  mf_encoder : ∃ pushed, encoder_holds (mEncoder m) pushed ∧ Forall (frame_fits players maxInput) pushed;
  mf_depth : zlen (ring (mEncoder m)) = msDepth (mCfg m) }.

(** Operations that leave sequencer, encoder and settings alone. *)
Lemma match_fits_same players maxInput m m' :
  match_fits players maxInput m → mSequencer m' = mSequencer m → mEncoder m' = mEncoder m →
  mCfg m' = mCfg m → match_fits players maxInput m'.
Proof. intros [] E1 E2 E3. constructor; by rewrite ?E1, ?E2, ?E3. Qed.

Lemma recovery_step_fits players maxInput m m' :
  recovery_step m m' → match_fits players maxInput m → match_fits players maxInput m'.
Proof. intros [] H. by apply (match_fits_same _ _ m). Qed.

Lemma MatchSubmitInput_fits players maxInput m p f pl :
  match_fits players maxInput m → match_fits players maxInput (fst (MatchSubmitInput m p f pl)).
Proof.
  intros H. unfold MatchSubmitInput. destruct (mClosed m); [done|].
  pose proof (SubmitInput_fits (mSequencer m) p f pl (mf_seq _ _ _ H)) as (H1 & H2 & H3).
  destruct (SubmitInput _ p f pl) as [s r]. destruct H as [_ ? ? ? ?].
  constructor; cbn in *; congruence || by rewrite ?H2.
Qed.

Section Fit.
Context (grow : Z → Z → Z) (visit : nat → gmap Z Z → list (Z * Z)).

Lemma cut_fits players maxInput m s' f :
  match_fits players maxInput m → Advance (mSequencer m) = Some (s', f) →
  ∀ h, match_fits players maxInput (setCut m s' h (fst (Push (mEncoder m) f))) ∧
  ∃ pushed, Forall (frame_fits players maxInput) pushed ∧
    snd (Push (mEncoder m) f) = EncodeBroadcast (lastn (length (ring (mEncoder m))) pushed).
Proof.
  intros [Hs Hp Hm (pushed & He & Hf) Hd] Ha h.
  destruct (Advance_fits _ _ _ Hs Ha) as (H1 & H2 & H3 & Hfr).
  assert (Forall (frame_fits players maxInput) (pushed ++ [f])) as Hf'.
  { apply Forall_app. split; [done|]. apply Forall_singleton. destruct Hfr as (? & ? & ?).
    rewrite Hm in *. split_and!; (done || lia). }
  split.
  - constructor; cbn; [done|by rewrite H2|by rewrite H3|exists (pushed ++ [f])|].
    + split; [by apply push_state_holds|done].
    + unfold zlen in *. by rewrite push_depth.
  - exists (pushed ++ [f]). split; [done|]. by apply push_packet.
Qed.

Lemma tick_tail_fits players maxInput m env frame packet :
  match_fits players maxInput m →
  let '(m1, es1, out1) := collectCatchups m env in
  let '(m2, receivers) := broadcastOrder m1 in
  let '(m3, es3, out3) := pumpCatchup m2 env in
  match_fits players maxInput (fst (retainWindow grow m3 (fID frame))) ∧
  snDatagrams out1 = [] ∧ snDatagrams out3 = [] ∧
  ∀ s pkt, (s, pkt) ∈ fst (broadcastLoop m2 env packet receivers) → pkt = packet.
Proof.
  intros H. pose proof (forSessions_step (λ m s, collectOne m env s) (catchupSessions m) m (λ m s, collectOne_step m env s)) as H1.
  fold (collectCatchups m env) in H1. pose proof (collect_no_datagrams m env) as N1.
  destruct (collectCatchups m env) as [[m1 es1] out1]. cbn in H1, N1.
  assert (match_fits players maxInput (fst (broadcastOrder m1))) as H2.
  { apply (match_fits_same _ _ m1); [by eapply recovery_step_fits|..]; unfold broadcastOrder; by destruct (mReceivers m1). }
  destruct (broadcastOrder m1) as [m2 receivers]. cbn in H2.
  pose proof (pumpCatchup_step m2 env) as H3. pose proof (pump_no_datagrams m2 env) as N3.
  destruct (pumpCatchup m2 env) as [[m3 es3] out3]. cbn in H3, N3.
  split_and!; try done.
  - apply (match_fits_same _ _ m3); [by eapply recovery_step_fits|..]; unfold retainWindow;
      destruct (_ || _); try done; (destruct (_ && _);
        [pose proof (pinnedTrim_step m3 (u32 (u32 (fID frame - u32 (msRetain (mCfg m3))) + 1))) as [];
         destruct (pinnedTrim m3 _) as [[m4 trim] es]|]); cbn in *; by destruct (_ <=? _).
  - induction receivers as [|[p t] receivers IH]; cbn; [by intros ? ? ?%not_elem_of_nil|].
    destruct (broadcastLoop m2 env packet receivers) as [sent es]. cbn in *.
    case_bool_decide; cbn; [done|]. intros s pkt [[= -> ->]|Hin]%elem_of_cons; [done|by apply (IH s)].
Qed.

Lemma Tick_fits players maxInput m env m' r es out :
  match_fits players maxInput m → 0 ≤ players ≤ MaxFrameInputs → 0 ≤ maxInput ≤ MaxInputPayloadBytes →
  msDepth (mCfg m) ≤ MaxBroadcastFrames →
  Tick grow m env = Some (m', r, es, out) →
  match_fits players maxInput m' ∧
  ∀ s pkt, (s, pkt) ∈ snDatagrams out → zlen pkt ≤ worstPacket (msDepth (mCfg m)) players maxInput.
Proof.
  intros H Hp Hm Hd. unfold Tick. destruct (mClosed m).
  { intros [= <- _ _ <-]. split; [done|]. by intros ? ? ?%not_elem_of_nil. }
  destruct (Advance (mSequencer m)) as [[s' f]|] eqn:Ea; [|done].
  destruct (Append grow (mHistory m) f) as [h|]; [|done].
  destruct (cut_fits players maxInput m s' f H Ea h) as (H0 & pushed & Hf & Hpkt).
  destruct (Push (mEncoder m) f) as [encoder packet]. cbn [fst snd] in *.
  set (m0 := setCut m s' h encoder) in *.
  pose proof (tick_tail_fits players maxInput m0 env f packet H0) as Ht.
  destruct (collectCatchups m0 env) as [[m1 es1] out1]. destruct (broadcastOrder m1) as [m2 receivers].
  destruct (broadcastLoop m2 env packet receivers) as [datagrams es2].
  destruct (pumpCatchup m2 env) as [[m3 es3] out3]. destruct (retainWindow grow m3 (fID f)) as [m4 es4].
  destruct Ht as (H4 & N1 & N3 & Hb). intros [= <- _ _ <-]. split; [done|].
  cbn [snDatagrams sentApp]. rewrite N1, N3, app_nil_r. cbn [app].
  intros s pkt Hin. rewrite (Hb s pkt Hin), Hpkt. apply zlen_packet_le; try done.
  - by apply Forall_drop.
  - rewrite <- (mf_depth _ _ _ H). unfold zlen. rewrite length_lastn. lia.
Qed.

Lemma Tick_cfg m env m' r es out : Tick grow m env = Some (m', r, es, out) → mCfg m' = mCfg m.
Proof.
  unfold Tick. destruct (mClosed m); [by intros [= <- _ _ _]|].
  destruct (Advance (mSequencer m)) as [[s' f]|]; [|done].
  destruct (Append grow (mHistory m) f) as [h|]; [|done]. destruct (Push (mEncoder m) f) as [encoder packet].
  set (m0 := setCut m s' h encoder).
  pose proof (forSessions_step (λ m s, collectOne m env s) (catchupSessions m0) m0 (λ m s, collectOne_step m env s)) as H1.
  fold (collectCatchups m0 env) in H1. destruct (collectCatchups m0 env) as [[m1 es1] out1].
  assert (mCfg (fst (broadcastOrder m1)) = mCfg m1) as H2 by (unfold broadcastOrder; by destruct (mReceivers m1)).
  destruct (broadcastOrder m1) as [m2 receivers]. destruct (broadcastLoop m2 env packet receivers) as [datagrams es2].
  pose proof (pumpCatchup_step m2 env) as H3. destruct (pumpCatchup m2 env) as [[m3 es3] out3].
  assert (mCfg (fst (retainWindow grow m3 (fID f))) = mCfg m3) as H4.
  { unfold retainWindow. destruct (_ || _); [done|]. destruct (_ && _); [|cbn; by destruct (_ <=? _)].
    pose proof (pinnedTrim_step m3 (u32 (u32 (fID f - u32 (msRetain (mCfg m3))) + 1))) as [].
    destruct (pinnedTrim m3 _) as [[m4 trim] es']. cbn in *. by destruct (_ <=? _). }
  destruct (retainWindow grow m3 (fID f)) as [m4 es4]. intros [= <- _ _ _]. cbn [fst] in *.
  pose proof (rs_cfg _ _ H1). pose proof (rs_cfg _ _ H3). cbn in *. congruence.
Qed.

Lemma matchStep_fits players maxInput m op :
  0 ≤ players ≤ MaxFrameInputs → 0 ≤ maxInput ≤ MaxInputPayloadBytes → msDepth (mCfg m) ≤ MaxBroadcastFrames →
  match_fits players maxInput m →
  match_fits players maxInput (matchStep grow visit m op) ∧ mCfg (matchStep grow visit m op) = mCfg m.
Proof.
  intros Hp Hm Hd H.
  destruct (matchStep_cases grow visit m op) as [[]|[(p & f & pl & ->)|[(env & r & es & out & E)|[keep ->]]]].
  - split; [by apply (match_fits_same _ _ m)|done].
  - split; [by apply MatchSubmitInput_fits|]. unfold MatchSubmitInput. destruct (mClosed m); [done|].
    by destruct (SubmitInput _ p f pl).
  - split; [by apply (Tick_fits _ _ _ _ _ _ _ _ H Hp Hm Hd E)|by eapply Tick_cfg].
  - split; [by apply (match_fits_same _ _ m)|done].
Qed.

Lemma matchRun_fits players maxInput ops : ∀ m,
  0 ≤ players ≤ MaxFrameInputs → 0 ≤ maxInput ≤ MaxInputPayloadBytes → msDepth (mCfg m) ≤ MaxBroadcastFrames →
  match_fits players maxInput m →
  match_fits players maxInput (matchRun grow visit m ops) ∧ mCfg (matchRun grow visit m ops) = mCfg m.
Proof.
  induction ops as [|op ops IH]; intros m Hp Hm Hd H; [done|]. cbn.
  destruct (matchStep_fits players maxInput m op Hp Hm Hd H) as [H1 E].
  destruct (IH (matchStep grow visit m op) Hp Hm) as [H2 E2]; [by rewrite E|done|].
  split; [done|]. unfold matchRun in *. congruence.
Qed.

Lemma NewMatch_fits c m :
  is_u32 (scSubmitWindow (mcSequencer c)) → NewMatch c = Ok m →
  let players := zlen (scPlayers (mcSequencer c)) in
  let maxInput := sqMaxInput (mSequencer m) in
  match_fits players maxInput m ∧ 0 ≤ players ≤ MaxFrameInputs ∧ 0 ≤ maxInput ≤ MaxInputPayloadBytes ∧
  msDepth (mCfg m) ≤ MaxBroadcastFrames ∧
  ∃ sender budget, mcDatagrams c = Some sender ∧ datagramBudget (mcMaxDatagramBytes c) sender = Ok budget ∧
    worstPacket (msDepth (mCfg m)) players maxInput ≤ budget.
Proof.
  intros Hw. unfold NewMatch. destruct (mcDatagrams c) as [sender|]; [|done]. intros H. inv_ok.
  cbn [mSequencer mCfg mEncoder msDepth]. to_prop.
  pose proof (normalize_depth_range (mcRedundancyDepth c)) as Hdepth.
  unfold NewSequencer in E. inv_ok. to_prop. cbn [sqMaxInput sqPlayers MaxInputBytes] in *.
  destruct (seatLoop_spec (scPlayers (mcSequencer c)) ∅) as [Hs _].
  match goal with E : seatLoop _ _ = Ok _ |- _ => apply Hs in E as (-> & Hnd & _) end.
  rewrite union_empty_r_L in *. zlen_facts. split_and!; try lia; [|by eauto].
  constructor; cbn; try done.
  - by rewrite (size_list_to_set (C:=gset Z)).
  - exists []. split; [apply new_encoder_holds|constructor].
  - unfold zlen. rewrite length_replicate.
    assert (NormalizeRedundancyDepth (NormalizeRedundancyDepth (mcRedundancyDepth c)) = NormalizeRedundancyDepth (mcRedundancyDepth c)) as ->.
    { unfold NormalizeRedundancyDepth at 1. destruct (Z.leb_spec (NormalizeRedundancyDepth (mcRedundancyDepth c)) 0); [lia|].
      destruct (Z.ltb_spec MaxBroadcastFrames (NormalizeRedundancyDepth (mcRedundancyDepth c))); [lia|done]. }
    lia.
Qed.

(** Broadcasts always fit the transport: in a match [NewMatch] accepted,
    whatever the clients submit and however the match is operated, no packet
    of any Tick is longer than the datagram budget of its configuration. *)
Theorem packets_fit_datagram c m ops env m' r es out sender budget s packet :
  is_u32 (scSubmitWindow (mcSequencer c)) → NewMatch c = Ok m →
  mcDatagrams c = Some sender → datagramBudget (mcMaxDatagramBytes c) sender = Ok budget →
  Tick grow (matchRun grow visit m ops) env = Some (m', r, es, out) →
  (s, packet) ∈ snDatagrams out → zlen packet ≤ budget.
Proof.
  intros Hw Hnew Hsend Hbud Ht Hin.
  destruct (NewMatch_fits c m Hw Hnew) as (H & Hp & Hm & Hd & sender' & budget' & E1 & E2 & Hle).
  assert (sender' = sender) as -> by congruence. assert (budget' = budget) as -> by congruence.
  destruct (matchRun_fits _ _ ops m Hp Hm Hd H) as [H' Ecfg]. rewrite <- Ecfg in Hd, Hle.
  destruct (Tick_fits _ _ _ _ _ _ _ _ H' Hp Hm Hd Ht) as [_ Hout]. specialize (Hout s packet Hin). lia.
Qed.
End Fit.

Example packets_fit_datagram_witness :
  zlen (default [] (snd <$> head (snDatagrams (tickSent (Tick double_grow sample_m quiet_env))))) ≤ 1200.
Proof.
  pose (t := Tick double_grow sample_m quiet_env).
  apply (packets_fit_datagram double_grow visit_fwd sample_match_config sample_match0 sample_match_ops quiet_env
    (tickMatch t) (Ok (tickFrame t)) (tickErrs t) (tickSent t) None 1200 100);
    [by_compute|vm_compute; reflexivity|reflexivity|reflexivity|vm_compute; reflexivity|by_compute].
Defined.
