(* ===== verification/GoStr.v ===== *)
(** * Go strings

    The parts of [strings], [strconv] and [unicode/utf8] that the saga
    package calls, on byte strings: trimming, cutting, searching, decimal
    text.  A Go string is the list of its bytes; a source literal is written
    [str "text"]. *)

From Stdlib Require Import String Ascii.
From S2P Require Import Prelude Bytes.

(** ** Literals and searches *)

Definition str (s : String.string) : bytes :=
  map (λ a, Z.of_nat (nat_of_ascii a)) (String.list_ascii_of_string s).

(** The byte [':']. *)
Definition colon : Z := 58.
(** The byte ['.']. *)
Definition dot : Z := 46.

(** [strings.CutPrefix]: what follows the prefix. *)
Fixpoint CutPrefix (s prefix : bytes) {struct prefix} : option bytes :=
  match prefix, s with
  | [], _ => Some s
  | _ :: _, [] => None
  | p :: prefix', c :: s' => if p =? c then CutPrefix s' prefix' else None
  end.

Definition HasPrefix (s prefix : bytes) : bool :=
  match CutPrefix s prefix with Some _ => true | None => false end.

(** [strings.HasSuffix]. *)
Definition HasSuffix (s suffix : bytes) : bool := HasPrefix (rev s) (rev suffix).

(** [strings.Cut] at a one-byte separator. *)
Fixpoint CutByte (s : bytes) (sep : Z) : option (bytes * bytes) :=
  match s with
  | [] => None
  | c :: s' =>
      if c =? sep then Some ([], s')
      else match CutByte s' sep with Some (before, after) => Some (c :: before, after) | None => None end
  end.

(** [strings.Split] at a one-byte separator. *)
Fixpoint SplitByte (s : bytes) (sep : Z) : list bytes :=
  match s with
  | [] => [[]]
  | c :: s' =>
      if c =? sep then [] :: SplitByte s' sep
      else match SplitByte s' sep with
           | token :: tokens => (c :: token) :: tokens
           | [] => [[c]]
           end
  end.

(** [strings.ContainsAny] for ASCII characters, [strings.Contains]. *)
Definition ContainsAny (s chars : bytes) : bool := existsb (λ c, bool_decide (c ∈ chars)) s.

Fixpoint Contains (s sub : bytes) : bool :=
  HasPrefix s sub || match s with [] => false | _ :: s' => Contains s' sub end.

(** [strings.Compare] on strings is the order of the bytes. *)
Fixpoint str_lt (a b : bytes) : bool :=
  match a, b with
  | [], [] => false
  | [], _ => true
  | _, [] => false
  | x :: a', y :: b' => (x <? y) || ((x =? y) && str_lt a' b')
  end.

(** ** [strings.TrimSpace] *)

(** UTF-8 of the runes [unicode.IsSpace] accepts. *)
Definition space_runes : list bytes :=
  map (λ b, [b]) [9; 10; 11; 12; 13; 32] ++
  [[0xC2; 0x85]; [0xC2; 0xA0]; [0xE1; 0x9A; 0x80]] ++
  map (λ b, [0xE2; 0x80; b]) (seqZ 0x80 11 ++ [0xA8; 0xA9; 0xAF]) ++
  [[0xE2; 0x81; 0x9F]; [0xE3; 0x80; 0x80]].

Fixpoint cut_first (runes : list bytes) (s : bytes) : option bytes :=
  match runes with
  | [] => None
  | r :: runes' => match CutPrefix s r with Some s' => Some s' | None => cut_first runes' s end
  end.

(** Every round removes at least one byte, so [length s] rounds are enough. *)
Fixpoint trim_left (fuel : nat) (runes : list bytes) (s : bytes) : bytes :=
  match fuel with
  | O => s
  | S f => match cut_first runes s with Some s' => trim_left f runes s' | None => s end
  end.

Definition TrimSpace (s : bytes) : bytes :=
  let l := trim_left (length s) space_runes s in
  rev (trim_left (length l) (map (@rev Z) space_runes) (rev l)).

Example trim_ascii : TrimSpace (str "  a b	") = str "a b".
Proof. vm_compute. reflexivity. Qed.
(** U+3000 is a space, a lone continuation byte is not. *)
Example trim_unicode : TrimSpace [0xE3; 0x80; 0x80; 65; 0x80; 0xC2; 0xA0] = [65; 0x80].
Proof. vm_compute. reflexivity. Qed.

(** ** Decimal text *)

(** Twenty digits hold every 64-bit value. *)
Fixpoint dec_digits (fuel : nat) (n : Z) (acc : bytes) : bytes :=
  match fuel with
  | O => acc
  | S f =>
      let acc' := 48 + n mod 10 :: acc in
      if n / 10 =? 0 then acc' else dec_digits f (n / 10) acc'
  end.

(** [strconv.Itoa] and [%d]. *)
Definition Itoa (n : Z) : bytes :=
  if n <? 0 then 45 :: dec_digits 20 (- n) [] else dec_digits 20 n [].

Definition is_digit (c : Z) : bool := (48 <=? c) && (c <=? 57).
Definition digits_value (s : bytes) (acc : Z) : Z := fold_left (λ a c, a * 10 + (c - 48)) s acc.

(** A non-empty run of digits. *)
Definition parse_digits (s : bytes) : option Z :=
  match s with
  | [] => None
  | _ => if forallb is_digit s then Some (digits_value s 0) else None
  end.

(** [strconv.ParseUint(s, 10, bits)]; [None] is an error. *)
Definition ParseUint (s : bytes) (bits : Z) : option Z :=
  match parse_digits s with
  | Some v => if v <? 2^bits then Some v else None
  | None => None
  end.

(** [strconv.Atoi]: an optional sign, then digits within [int64]. *)
Definition Atoi (s : bytes) : option Z :=
  match s with
  | 45 :: digits =>
      match parse_digits digits with
      | Some v => if v <=? 2^63 then Some (- v) else None
      | None => None
      end
  | 43 :: digits =>
      match parse_digits digits with
      | Some v => if v <? 2^63 then Some v else None
      | None => None
      end
  | _ =>
      match parse_digits s with
      | Some v => if v <? 2^63 then Some v else None
      | None => None
      end
  end.

(** ** Facts *)

Lemma CutPrefix_app p s : CutPrefix (p ++ s) p = Some s.
Proof. induction p as [|c p IH]; [done|]. cbn. by rewrite Z.eqb_refl. Qed.

Lemma CutPrefix_some s p r : CutPrefix s p = Some r ↔ s = p ++ r.
Proof.
  split; [|intros ->; apply CutPrefix_app]. revert s r.
  induction p as [|c p IH]; intros s r; [by intros [= ->]|].
  destruct s as [|d s]; [done|]. cbn. destruct (Z.eqb_spec c d) as [->|]; [|done].
  intros H. f_equal. by apply IH.
Qed.

Lemma HasPrefix_spec s p : HasPrefix s p = true ↔ ∃ r, s = p ++ r.
Proof.
  unfold HasPrefix. destruct (CutPrefix s p) as [r|] eqn:E; split; try done.
  - intros _. exists r. by apply CutPrefix_some.
  - intros (r & Hr). by rewrite (proj2 (CutPrefix_some s p r) Hr) in E.
Qed.

Lemma HasPrefix_app p s : HasPrefix (p ++ s) p = true.
Proof. apply HasPrefix_spec. by exists s. Qed.

Lemma CutByte_app s sep rest : sep ∉ s → CutByte (s ++ sep :: rest) sep = Some (s, rest).
Proof.
  induction s as [|c s IH]; intros Hn; cbn; [by rewrite Z.eqb_refl|].
  apply not_elem_of_cons in Hn as [Hc Hn]. destruct (Z.eqb_spec c sep); [congruence|]. by rewrite IH.
Qed.

Lemma CutByte_none s sep : sep ∉ s → CutByte s sep = None.
Proof.
  induction s as [|c s IH]; intros Hn; cbn; [done|].
  apply not_elem_of_cons in Hn as [Hc Hn]. destruct (Z.eqb_spec c sep); [congruence|]. by rewrite IH.
Qed.

Lemma dec_digits_acc fuel : ∀ n acc, dec_digits fuel n acc = dec_digits fuel n [] ++ acc.
Proof.
  induction fuel as [|f IH]; intros n acc; [done|]. cbn.
  destruct (n / 10 =? 0); [done|]. rewrite IH, (IH _ [_]), <- app_assoc. done.
Qed.

Lemma dec_digits_digits fuel n : 0 ≤ n → Forall (λ c, 48 ≤ c ≤ 57) (dec_digits fuel n []).
Proof.
  revert n. induction fuel as [|f IH]; intros n Hn; [constructor|]. cbn.
  pose proof (Z.mod_pos_bound n 10 ltac:(lia)).
  assert (Forall (λ c, 48 ≤ c ≤ 57) [48 + n mod 10]) by (repeat constructor; lia).
  case_match; [done|]. rewrite dec_digits_acc. apply Forall_app. split; [|done].
  apply IH. apply Z.div_pos; lia.
Qed.

Lemma dec_digits_cons fuel n : 0 ≤ n → (fuel ≠ 0)%nat → dec_digits fuel n [] ≠ [].
Proof.
  destruct fuel as [|f]; [done|]. intros _ _. cbn. case_match; [done|].
  rewrite dec_digits_acc. by destruct (dec_digits f _ _).
Qed.

Lemma digits_value_app s t acc : digits_value (s ++ t) acc = digits_value t (digits_value s acc).
Proof. apply fold_left_app. Qed.

Lemma dec_digits_value fuel : ∀ n,
  0 ≤ n < 10^(Z.of_nat fuel) → digits_value (dec_digits fuel n []) 0 = n.
Proof.
  induction fuel as [|f IH]; intros n Hn; [cbn in *; lia|]. cbn [dec_digits].
  pose proof (Z.div_mod n 10 ltac:(lia)) as Hd.
  destruct (Z.eqb_spec (n / 10) 0) as [Hz|Hz]; [cbn; lia|].
  rewrite dec_digits_acc, digits_value_app, IH.
  - cbn. lia.
  - rewrite Nat2Z.inj_succ, Z.pow_succ_r in Hn by lia. split; [apply Z.div_pos; lia|].
    apply Z.div_lt_upper_bound; lia.
Qed.

(** The bound of every decimal text: 64-bit values have at most twenty digits. *)
Definition small (n : Z) : Prop := 0 ≤ n < 2^64.

Lemma Itoa_digits n : 0 ≤ n → Forall (λ c, 48 ≤ c ≤ 57) (Itoa n).
Proof. intros Hn. unfold Itoa. destruct (Z.ltb_spec n 0); [lia|]. by apply dec_digits_digits. Qed.

Lemma Itoa_no n c : 0 ≤ n → ¬ 48 ≤ c ≤ 57 → c ∉ Itoa n.
Proof. intros Hn Hc Hin. apply Hc. by apply (proj1 (Forall_forall _ _) (Itoa_digits n Hn)). Qed.

Lemma parse_Itoa n : small n → parse_digits (Itoa n) = Some n.
Proof.
  intros [H0 Hn]. pose proof (Itoa_digits n H0) as Hd.
  assert (Itoa n ≠ []) as Hne.
  { unfold Itoa. destruct (Z.ltb_spec n 0); [lia|]. by apply dec_digits_cons. }
  assert (forallb is_digit (Itoa n) = true) as Hall.
  { apply forallb_forall. intros c Hc. apply list_elem_of_In in Hc.
    apply (proj1 (Forall_forall _ _) Hd) in Hc. unfold is_digit. to_prop. lia. }
  unfold parse_digits. rewrite Hall. destruct (Itoa n) eqn:E; [done|]. rewrite <- E. f_equal.
  unfold Itoa. destruct (Z.ltb_spec n 0); [lia|]. apply dec_digits_value.
  change (10 ^ Z.of_nat 20) with 100000000000000000000. lia.
Qed.

Lemma ParseUint_Itoa n bits : 0 ≤ n < 2^bits → bits ≤ 64 → ParseUint (Itoa n) bits = Some n.
Proof.
  intros Hn Hb. unfold ParseUint. rewrite parse_Itoa.
  - destruct (Z.ltb_spec n (2^bits)); [done|lia].
  - split; [lia|]. pose proof (Z.pow_le_mono_r 2 bits 64). lia.
Qed.

Lemma Atoi_Itoa n : 0 ≤ n < 2^63 → Atoi (Itoa n) = Some n.
Proof.
  intros Hn. pose proof (parse_Itoa n ltac:(split; lia)) as Hp.
  pose proof (Itoa_digits n ltac:(lia)) as Hd. unfold Atoi.
  destruct (Itoa n) as [|c s] eqn:E; [done|]. apply Forall_cons in Hd as [Hc _].
  rewrite Hp. destruct (Z.ltb_spec n (2^63)); [|lia].
  destruct c as [|p|p]; try lia. do 6 (destruct p as [p|p|]; try done; try lia).
Qed.

Lemma Itoa_inj n m : small n → small m → Itoa n = Itoa m → n = m.
Proof. intros Hn Hm E. apply parse_Itoa in Hn, Hm. congruence. Qed.

(** At most [k] digits below [10^k]. *)
Lemma dec_digits_len fuel : ∀ n k,
  0 ≤ n < 10^(Z.of_nat (S k)) → zlen (dec_digits fuel n []) ≤ Z.of_nat (S k).
Proof.
  induction fuel as [|f IH]; intros n k Hn; [cbn [dec_digits]; rewrite zlen_nil; lia|]. cbn [dec_digits].
  destruct (Z.eqb_spec (n / 10) 0) as [Hz|Hz]; [rewrite zlen_cons, zlen_nil; lia|]. rewrite dec_digits_acc. autorewrite with go_len.
  destruct k as [|k].
  - change (10 ^ Z.of_nat 1) with 10 in Hn. rewrite Z.div_small in Hz by lia. done.
  - enough (zlen (dec_digits f (n / 10) []) ≤ Z.of_nat (S k)) by lia. apply IH.
    rewrite Nat2Z.inj_succ, Z.pow_succ_r in Hn by lia. split; [apply Z.div_pos; lia|].
    apply Z.div_lt_upper_bound; lia.
Qed.

Lemma Itoa_len n k : 0 ≤ n < 10^(Z.of_nat (S k)) → zlen (Itoa n) ≤ Z.of_nat (S k).
Proof. intros Hn. unfold Itoa. destruct (Z.ltb_spec n 0); [lia|]. by apply dec_digits_len. Qed.

#[global] Arguments Itoa : simpl never.
#[global] Arguments TrimSpace : simpl never.

(** ** time: nanoseconds since the epoch *)

Definition second : Z := 10^9.
(** [Time.Unix] is the floor of the seconds. *)
Definition Unix (now : Z) : Z := now / second.

(** ** sort *)

(** [sort.SliceStable] with a strict order [less]: insertion from the right
    puts an element before the first one that is not less than it.  Where no
    two elements are equal in the order, [sort.Slice] gives the same list. *)
Fixpoint insert_stable {A} (less : A → A → bool) (x : A) (l : list A) : list A :=
  match l with
  | [] => [x]
  | y :: l' => if less y x then y :: insert_stable less x l' else x :: y :: l'
  end.

Definition SliceStable {A} (less : A → A → bool) (l : list A) : list A := foldr (insert_stable less) [] l.

Lemma insert_stable_perm {A} (less : A → A → bool) x l : insert_stable less x l ≡ₚ x :: l.
Proof. induction l as [|y l IH]; [done|]. cbn. case_match; [|done]. rewrite IH. constructor. Qed.

Lemma SliceStable_perm {A} (less : A → A → bool) l : SliceStable less l ≡ₚ l.
Proof. induction l as [|x l IH]; [done|]. cbn. rewrite insert_stable_perm. by f_equiv. Qed.

Section Sorting.
Context {A} (less : A → A → bool).
Context (Hasym : ∀ x y, less x y = true → less y x = false) (Htrans : ∀ x y z, less y x = false → less z y = false → less z x = false).

Lemma insert_stable_sorted x l : StronglySorted (λ a b, less b a = false) l → StronglySorted (λ a b, less b a = false) (insert_stable less x l).
Proof using Hasym Htrans.
  induction 1 as [|y l Hs IH Hy]; [by repeat constructor|]. cbn. destruct (less y x) eqn:E.
  - constructor; [done|]. rewrite insert_stable_perm. constructor; [by apply Hasym|done].
  - constructor; [by constructor|]. constructor; [done|]. eapply Forall_impl; [exact Hy|]. cbn. intros z Hz. by apply (Htrans x y z).
Qed.

Lemma SliceStable_sorted l : StronglySorted (λ a b, less b a = false) (SliceStable less l).
Proof using Hasym Htrans. induction l as [|x l IH]; [constructor|]. cbn. by apply insert_stable_sorted. Qed.
End Sorting.

Lemma ztake_before {A} (R : A → A → Prop) n l x y : StronglySorted R l → x ∈ ztake n l → y ∈ l → y ∉ ztake n l → R x y.
Proof.
  intros Hs Hx Hy Hny. rewrite <- (ztake_zdrop n l) in Hs, Hy. apply elem_of_app in Hy as [?|Hy]; [done|]. revert Hs Hx.
  generalize (ztake n l). intros k Hs Hx. induction k as [|z k IH]; [by apply elem_of_nil in Hx|]. cbn in Hs. apply StronglySorted_inv in Hs as [Hs Hz].
  apply elem_of_cons in Hx as [->|Hx]; [|by apply IH]. rewrite Forall_forall in Hz. apply Hz, elem_of_app. by right.
Qed.

(** [sort.Search] over [0, n): the binary search of Go's library. *)
Fixpoint searchLoop (fuel : nat) (f : Z → bool) (i j : Z) : Z :=
  match fuel with
  | O => i
  | S fuel =>
      if i <? j then
        let h := (i + j) / 2 in
        if f h then searchLoop fuel f i h else searchLoop fuel f (h + 1) j
      else i
  end.
Definition Search (n : Z) (f : Z → bool) : Z := searchLoop (Z.to_nat n) f 0 n.

(** On a predicate that stays true, it finds the first index. *)
Lemma searchLoop_spec fuel f : ∀ i j, 0 ≤ i ≤ j → j - i ≤ Z.of_nat fuel → (∀ a b, i ≤ a ≤ b → b < j → f a = true → f b = true) →
  let k := searchLoop fuel f i j in
  i ≤ k ≤ j ∧ (∀ a, i ≤ a < k → f a = false) ∧ (∀ b, k ≤ b < j → f b = true).
Proof.
  induction fuel as [|fuel IH]; intros i j Hij Hf Hm; cbn [searchLoop]; [split_and!; lia|].
  destruct (Z.ltb_spec i j); [|split_and!; lia].
  assert (Hh : i ≤ (i + j) / 2 < j) by (split; [apply Z.div_le_lower_bound|apply Z.div_lt_upper_bound]; lia).
  assert (Hd : j - i ≤ 2 * (j - (i + j) / 2) ∧ (i + j) / 2 - i < j - i) by (pose proof (Z.mod_pos_bound (i + j) 2); pose proof (Z.div_mod (i + j) 2); lia).
  destruct (f ((i + j) / 2)) eqn:E.
  - destruct (IH i ((i + j) / 2)) as (Hk & Hlo & Hhi); [lia|lia|intros a b Ha Hb; apply Hm; lia|].
    split_and!; [lia|lia|done|]. intros b Hb. destruct (Z.lt_ge_cases b ((i + j) / 2)); [apply Hhi; lia|]. eapply (Hm ((i + j) / 2)); [lia|lia|done].
  - destruct (IH ((i + j) / 2 + 1) j) as (Hk & Hlo & Hhi); [lia|lia|intros a b Ha Hb; apply Hm; lia|].
    split_and!; [lia|lia| |done]. intros a Ha. destruct (Z.le_gt_cases a ((i + j) / 2)); [|apply Hlo; lia].
    destruct (f a) eqn:Ea; [|done]. rewrite (Hm a ((i + j) / 2)) in E by (done || lia). done.
Qed.

Lemma Search_spec n f : 0 ≤ n → (∀ a b, 0 ≤ a ≤ b → b < n → f a = true → f b = true) →
  0 ≤ Search n f ≤ n ∧ (∀ a, 0 ≤ a < Search n f → f a = false) ∧ (∀ b, Search n f ≤ b < n → f b = true).
Proof. intros Hn Hm. apply searchLoop_spec; [lia|lia|done]. Qed.
