(* ===== verification/GoJson.v ===== *)
(** * JSON text and times

    The output of [encoding/json.Marshal] for the field types of the saga's
    two digests (strings, booleans, unsigned integers, byte slices, times),
    and [time.Time].

    A time is the number of nanoseconds since Go's zero time, year 1
    January 1 UTC; a zero [time.Time] is [0].  Only the wall clock is
    modelled. *)

From S2P Require Import Prelude Bytes GoStr.
From Stdlib Require Import String.

(** ** Times *)

Abbreviation Time := Z (only parsing).
Abbreviation Duration := Z (only parsing).

Definition IsZero (t : Time) : bool := t =? 0.
Definition Millisecond : Duration := 1000000.
Definition Second : Duration := 1000000000.
(** [Before]; [After] and [Equal] are the other comparisons of [Z]. *)
Definition Before (t u : Time) : bool := t <? u.

(** [t.Truncate(d)]: down to a multiple of [d] since the zero time. *)
Definition Truncate (t : Time) (d : Duration) : Time := t - t mod d.

(** 1970-01-01, in nanoseconds. *)
Definition unixEpoch : Time := 62135596800 * Second.
(** [UnixNano]: an [int64]. *)
Definition UnixNano (t : Time) : Z := i64 (t - unixEpoch).

(** The proleptic Gregorian date of a day number (day 0 is 0001-01-01),
    counted in years that begin on March 1. *)
Definition civil (day : Z) : Z * Z * Z :=
  let d := day + 306 in
  let era := d / 146097 in
  let doe := d - era * 146097 in
  let yoe := (doe - doe / 1460 + doe / 36524 - doe / 146096) / 365 in
  let doy := doe - (365 * yoe + yoe / 4 - yoe / 100) in
  let mp := (5 * doy + 2) / 153 in
  let dom := doy - (153 * mp + 2) / 5 + 1 in
  let month := if mp <? 10 then mp + 3 else mp - 9 in
  (yoe + era * 400 + (if month <=? 2 then 1 else 0), month, dom).

(** [n] digits, zero padded. *)
Definition pad_digits (n : nat) (v : Z) : bytes :=
  map (λ k, 48 + v / 10^(Z.of_nat k) mod 10) (rev (seq 0 n)).

Fixpoint drop_zeros (l : bytes) : bytes :=
  match l with 48 :: l' => drop_zeros l' | _ => l end.

(** [Time.MarshalJSON] of a UTC time: RFC 3339 with the shortest fraction;
    an error outside years 0 to 9999. *)
Definition marshal_time (t : Time) : option bytes :=
  let sec := t / Second in
  let ns := t mod Second in
  let '(y, m, d) := civil (sec / 86400) in
  let s := sec mod 86400 in
  if (y <? 0) || (9999 <? y) then None
  else
    let frac := rev (drop_zeros (rev (pad_digits 9 ns))) in
    Some ([34] ++ pad_digits 4 y ++ str "-" ++ pad_digits 2 m ++ str "-" ++ pad_digits 2 d ++
          str "T" ++ pad_digits 2 (s / 3600) ++ [colon] ++ pad_digits 2 (s / 60 mod 60) ++ [colon] ++
          pad_digits 2 (s mod 60) ++ (match frac with [] => [] | _ => dot :: frac end) ++ str "Z" ++ [34]).

(** ** Strings and byte slices *)

Definition between (lo hi c : Z) : bool := (lo <=? c) && (c <=? hi).

(** The width of the multi-byte rune at the front ([utf8.DecodeRune]);
    [None] is an invalid encoding, one byte wide. *)
Definition rune_width (s : bytes) : option nat :=
  match s with
  | c :: c1 :: t =>
      if between 0xC2 0xDF c then if between 0x80 0xBF c1 then Some 2%nat else None
      else if between 0xE0 0xEF c then
        match t with
        | c2 :: _ =>
            let lo := if c =? 0xE0 then 0xA0 else 0x80 in
            let hi := if c =? 0xED then 0x9F else 0xBF in
            if between lo hi c1 && between 0x80 0xBF c2 then Some 3%nat else None
        | [] => None
        end
      else if between 0xF0 0xF4 c then
        match t with
        | c2 :: c3 :: _ =>
            let lo := if c =? 0xF0 then 0x90 else 0x80 in
            let hi := if c =? 0xF4 then 0x8F else 0xBF in
            if between lo hi c1 && between 0x80 0xBF c2 && between 0x80 0xBF c3 then Some 4%nat else None
        | _ => None
        end
      else None
  | _ => None
  end.

(** One ASCII byte of a JSON string, HTML characters escaped. *)
Definition json_ascii (c : Z) : bytes :=
  if (c =? 34) || (c =? 92) then [92; c]
  else if c =? 8 then str "\b" else if c =? 12 then str "\f"
  else if c =? 10 then str "\n" else if c =? 13 then str "\r" else if c =? 9 then str "\t"
  else if (c <? 32) || (c =? 60) || (c =? 62) || (c =? 38)
  then str "\u00" ++ [hex_digit (Z.shiftr c 4); hex_digit (Z.land c 15)]
  else [c].

(** The body of a JSON string; [skip] bytes are the rest of a rune already
    written. *)
Fixpoint json_body (skip : nat) (s : bytes) : bytes :=
  match s with
  | [] => []
  | c :: s' =>
      match skip with
      | S k => json_body k s'
      | O =>
          if c <? 128 then json_ascii c ++ json_body 0 s'
          else match rune_width s with
               | None => str "\ufffd" ++ json_body 0 s'
               | Some w =>
                   (if bool_decide (take w s = [0xE2; 0x80; 0xA8]) then str "\u2028"
                    else if bool_decide (take w s = [0xE2; 0x80; 0xA9]) then str "\u2029"
                    else take w s) ++ json_body (pred w) s'
               end
      end
  end.

Definition json_string (s : bytes) : bytes := [34] ++ json_body 0 s ++ [34].

Definition base64_digit (v : Z) : Z :=
  if v <? 26 then 65 + v else if v <? 52 then 71 + v else if v <? 62 then v - 4
  else if v =? 62 then 43 else 47.

Fixpoint base64 (s : bytes) : bytes :=
  match s with
  | [] => []
  | [a] => [base64_digit (Z.shiftr a 2); base64_digit (Z.land (Z.shiftl a 4) 63); 61; 61]
  | [a; b] =>
      [base64_digit (Z.shiftr a 2); base64_digit (Z.land (Z.lor (Z.shiftl a 4) (Z.shiftr b 4)) 63);
       base64_digit (Z.land (Z.shiftl b 2) 63); 61]
  | a :: b :: c :: s' =>
      [base64_digit (Z.shiftr a 2); base64_digit (Z.land (Z.lor (Z.shiftl a 4) (Z.shiftr b 4)) 63);
       base64_digit (Z.land (Z.lor (Z.shiftl b 2) (Z.shiftr c 6)) 63); base64_digit (Z.land c 63)]
      ++ base64 s'
  end.

(** A byte slice; [None] is nil. *)
Definition json_bytes (s : option bytes) : bytes :=
  match s with None => str "null" | Some b => [34] ++ base64 b ++ [34] end.

Definition json_bool (b : bool) : bytes := if b then str "true" else str "false".

(** An object of already encoded members. *)
Fixpoint json_members (l : list (bytes * bytes)) : bytes :=
  match l with
  | [] => []
  | [(k, v)] => json_string k ++ [colon] ++ v
  | (k, v) :: l' => json_string k ++ [colon] ++ v ++ str "," ++ json_members l'
  end.
Definition json_object (l : list (bytes * bytes)) : bytes := str "{" ++ json_members l ++ str "}".

Example marshal_epoch : marshal_time unixEpoch = Some ([34] ++ str "1970-01-01T00:00:00Z" ++ [34]).
Proof. vm_compute. reflexivity. Qed.
Example marshal_leap :
  marshal_time ((62135596800 + 1709210096) * Second + 120 * Millisecond) =
  Some ([34] ++ str "2024-02-29T12:34:56.12Z" ++ [34]).
Proof. vm_compute. reflexivity. Qed.
Example marshal_zero : marshal_time 0 = Some ([34] ++ str "0001-01-01T00:00:00Z" ++ [34]).
Proof. vm_compute. reflexivity. Qed.
Example json_escapes : json_string (str "a<b" ++ [10; 34; 255; 0xE2; 0x80; 0xA8; 0xC3; 0xA9]) =
  [34] ++ str "a\u003cb\n\" ++ [34] ++ str "\ufffd\u2028" ++ [0xC3; 0xA9; 34].
Proof. vm_compute. reflexivity. Qed.
Example base64_text : base64 (str "hello") = str "aGVsbG8=".
Proof. vm_compute. reflexivity. Qed.
