(* ===== verification/Parse.v ===== *)
(** * Reading from a byte stream

    The decoders of the sync formats read integers and byte slices one after
    the other from a [bytes.Reader] and stop at the first error: a state and
    error monad.  [parses] is the round trip of a reader, [reads] its
    soundness: what it accepts is an encoding. *)

From S2P Require Import Prelude Bytes.

(** ** Little-endian integers *)

Fixpoint le_put (n : nat) (x : Z) : bytes :=
  match n with
  | O => []
  | S m => x mod 256 :: le_put m (x / 256)
  end.

Fixpoint le_val (l : bytes) : Z :=
  match l with
  | [] => 0
  | b :: l' => b + 256 * le_val l'
  end.

Lemma length_le_put n : ∀ x, length (le_put n x) = n.
Proof. induction n as [|n IH]; intros x; cbn; [done|by rewrite IH]. Qed.
Lemma zlen_le_put n x : zlen (le_put n x) = Z.of_nat n.
Proof. unfold zlen. by rewrite length_le_put. Qed.
#[export] Hint Rewrite zlen_le_put : go_len.

Lemma pow_bytes n : 2^(8 * Z.of_nat (S n)) = 256 * 2^(8 * Z.of_nat n).
Proof. replace (8 * Z.of_nat (S n)) with (8 + 8 * Z.of_nat n) by lia. by rewrite Z.pow_add_r by lia. Qed.

Lemma le_val_put n : ∀ x, 0 ≤ x < 2^(8 * Z.of_nat n) → le_val (le_put n x) = x.
Proof.
  induction n as [|n IH]; intros x Hx; [cbn in *; lia|]. rewrite pow_bytes in Hx. cbn [le_put le_val].
  rewrite IH; [pose proof (Z.div_mod x 256); lia|]. split; [apply Z.div_pos; lia|apply Z.div_lt_upper_bound; lia].
Qed.

Definition byte_list (l : bytes) : Prop := Forall is_u8 l.

Lemma le_put_bytes n : ∀ x, byte_list (le_put n x).
Proof.
  induction n as [|n IH]; intros x; [constructor|]. constructor; [|apply IH]. apply Z.mod_pos_bound. lia.
Qed.

Lemma le_put_val l : byte_list l → le_put (length l) (le_val l) = l ∧ 0 ≤ le_val l < 2^(8 * zlen l).
Proof.
  unfold zlen. induction 1 as [|b l Hb Hl [IH1 IH2]]; [done|]. cbn [length le_val le_put]. rewrite pow_bytes.
  unfold is_u8 in Hb. change (2^8) with 256 in Hb. split; [|lia].
  replace (b + 256 * le_val l) with (b + le_val l * 256) by ring.
  rewrite Z.mod_add, Z.mod_small, Z.div_add, Z.div_small by lia. by rewrite Z.add_0_l, IH1.
Qed.

(** ** Big-endian integers of bytes *)

Lemma be_put_snoc n : ∀ x, be_put (S n) x = be_put n (x / 256) ++ [u8 x].
Proof.
  induction n as [|n IH]; intros x; [done|].
  assert (be_put (S (S n)) x = u8 (Z.shiftr x (8 * Z.of_nat (S n))) :: be_put (S n) x) as -> by done.
  assert (Z.shiftr x (8 * Z.of_nat (S n)) = Z.shiftr (x / 256) (8 * Z.of_nat n)) as ->.
  { rewrite !Z.shiftr_div_pow2, Z.div_div by (try apply Z.pow_pos_nonneg; lia). f_equal. apply pow_bytes. }
  by rewrite IH.
Qed.

Lemma be_put_val l : byte_list l → be_put (length l) (be_val l) = l ∧ 0 ≤ be_val l < 2^(8 * zlen l).
Proof.
  unfold zlen. induction l as [|b l IH] using rev_ind; intros Hl; [done|].
  apply Forall_app in Hl as [Hl Hb]. apply Forall_cons in Hb as [Hb _]. destruct (IH Hl) as [IH1 IH2].
  assert (be_val (l ++ [b]) = b + be_val l * 256) as -> by (unfold be_val; rewrite fold_left_app; cbn; lia).
  unfold is_u8 in Hb. change (2^8) with 256 in Hb. rewrite length_app. cbn [length]. rewrite Nat.add_1_r, pow_bytes.
  split; [|lia]. rewrite be_put_snoc. unfold u8. change (2^8) with 256.
  rewrite Z.mod_add, Z.mod_small, Z.div_add, Z.div_small by lia. by rewrite Z.add_0_l, IH1.
Qed.

(** ** The monad *)

Lemma Ok_inj {E A} (x y : A) : Ok (E := E) x = Ok y → x = y.
Proof. by intros [= ->]. Qed.

Definition parser (E A : Type) : Type := bytes → result E (A * bytes).

#[export] Instance parser_ret {E} : MRet (parser E) := λ _ a s, Ok (a, s).
#[export] Instance parser_bind {E} : MBind (parser E) := λ _ _ f p s,
  match p s with Ok (a, s') => f a s' | Err e => Err e end.

Definition pfail {E A} (e : E) : parser E A := λ _, Err e.
(** [if bad { return err }] *)
Definition pguard {E} (bad : bool) (e : E) : parser E unit := if bad then pfail e else mret tt.
(** [reader.Len()] *)
Definition premaining {E} : parser E Z := λ s, Ok (zlen s, s).
(** [n] bytes, the error [e] when there are fewer. *)
Definition pbytes {E} (n : Z) (e : E) : parser E bytes := λ s,
  if zlen s <? n then Err e else Ok (ztake n s, zdrop n s).
Definition pbe {E} (n : nat) (e : E) : parser E Z := λ s,
  match be_read n s with Some (v, s') => Ok (v, s') | None => Err e end.
Definition ple {E} (n : nat) (e : E) : parser E Z := λ s,
  if zlen s <? Z.of_nat n then Err e else Ok (le_val (take n s), drop n s).

(** [n] values one after the other. *)
Fixpoint pcount {E A} (n : nat) (p : parser E A) : parser E (list A) :=
  match n with
  | O => mret []
  | S m => x ← p; l ← pcount m p; mret (x :: l)
  end.

(** ** Round trips *)

Definition parses {E A} (p : parser E A) (x : A) (s : bytes) : Prop := ∀ rest, p (s ++ rest) = Ok (x, rest).

Section Parses.
Context {E : Type}.
Implicit Types e : E.

Lemma parses_ret {A} (x : A) : parses (mret x : parser E A) x [].
Proof. by intros rest. Qed.
Lemma parses_bind {A B} (p : parser E A) (f : A → parser E B) x y s1 s2 :
  parses p x s1 → parses (f x) y s2 → parses (p ≫= f) y (s1 ++ s2).
Proof. intros H1 H2 rest. unfold mbind, parser_bind. rewrite <- app_assoc, H1. apply H2. Qed.
Lemma parses_last {A B} (p : parser E A) (f : A → parser E B) x y s :
  parses p x s → parses (f x) y [] → parses (p ≫= f) y s.
Proof. intros H1 H2. rewrite <- (app_nil_r s). by eapply parses_bind. Qed.
Lemma parses_pguard bad e : bad = false → parses (pguard bad e) tt [].
Proof. intros -> rest. done. Qed.
Lemma parses_guard {B} bad e (f : () → parser E B) y s :
  bad = false → parses (f tt) y s → parses (pguard bad e ≫= f) y s.
Proof. intros Hb H. by apply (parses_bind (pguard bad e) f tt y [] s (parses_pguard _ _ Hb)). Qed.
Lemma parses_pbytes s e : parses (pbytes (zlen s) e) s s.
Proof.
  intros rest. unfold pbytes. destruct (Z.ltb_spec (zlen (s ++ rest)) (zlen s)); [rewrite zlen_app in *; zlen_facts; lia|].
  by rewrite ztake_app_zlen, zdrop_app_zlen.
Qed.
Lemma parses_pbe n x e : 0 ≤ x < 2^(8 * Z.of_nat n) → parses (pbe n e) x (be_put n x).
Proof. intros Hx rest. unfold pbe. by rewrite be_read_app. Qed.
Lemma parses_ple n x e : 0 ≤ x < 2^(8 * Z.of_nat n) → parses (ple n e) x (le_put n x).
Proof.
  intros Hx rest. unfold ple. rewrite zlen_app, zlen_le_put. zlen_facts.
  destruct (Z.ltb_spec (Z.of_nat n + zlen rest) (Z.of_nat n)); [lia|].
  rewrite take_app_length', drop_app_length' by (by rewrite length_le_put). by rewrite le_val_put.
Qed.

(** The bytes still to be read leave room for [n]. *)
Lemma parses_room {B} bad n e (f : () → parser E B) y s :
  bad = false → n ≤ zlen s → parses (f tt) y s → parses (premaining ≫= λ rem, pguard (bad || (rem <? n)) e ≫= f) y s.
Proof.
  intros -> Hn H rest. unfold mbind, parser_bind, premaining, pguard. cbn [orb].
  destruct (Z.ltb_spec (zlen (s ++ rest)) n); [rewrite zlen_app in *; zlen_facts; lia|]. apply H.
Qed.
Lemma parses_pcount {A} (p : parser E A) (enc : A → bytes) l :
  Forall (λ x, parses p x (enc x)) l → parses (pcount (length l) p) l (concat (map enc l)).
Proof.
  induction 1 as [|x l Hx _ IH]; cbn [length pcount map concat]; [apply parses_ret|].
  eapply parses_bind; [done|]. eapply parses_last; [done|apply parses_ret].
Qed.

(** The reader takes the whole of [s]. *)
Definition parses_all {A} (p : parser E A) (x : A) (s : bytes) : Prop := p s = Ok (x, []).

Lemma parses_all_bind {A B} (p : parser E A) (f : A → parser E B) x y s1 s2 :
  parses p x s1 → parses_all (f x) y s2 → parses_all (p ≫= f) y (s1 ++ s2).
Proof. intros H1 H2. unfold parses_all, mbind, parser_bind. rewrite H1. apply H2. Qed.
Lemma parses_all_guard {B} bad e (f : () → parser E B) y s :
  bad = false → parses_all (f tt) y s → parses_all (pguard bad e ≫= f) y s.
Proof. intros -> H. apply H. Qed.
Lemma parses_all_end {B} (f : Z → parser E B) y : f 0 [] = Ok (y, []) → parses_all (premaining ≫= f) y [].
Proof. done. Qed.
End Parses.

(** ** Soundness *)

(** [R x s]: the value may be encoded as [s]. *)
Definition reads {E A} (p : parser E A) (R : A → bytes → Prop) : Prop :=
  ∀ s x rest, byte_list s → p s = Ok (x, rest) → ∃ used, s = used ++ rest ∧ R x used.

Section Reads.
Context {E : Type}.
Implicit Types e : E.

Lemma reads_ret {A} (x : A) (R : A → bytes → Prop) : R x [] → reads (mret x : parser E A) R.
Proof. intros H s y rest _ [= <- <-]. by exists []. Qed.
Lemma reads_bind {A B} (p : parser E A) (f : A → parser E B) (R : A → bytes → Prop) (Q : B → bytes → Prop) :
  reads p R → (∀ x s1, R x s1 → reads (f x) (λ y s2, Q y (s1 ++ s2))) → reads (p ≫= f) Q.
Proof.
  intros Hp Hf s y rest Hs H. unfold mbind, parser_bind in H. destruct (p s) as [[x s']|] eqn:E1; [|done].
  destruct (Hp s x s' Hs E1) as (s1 & -> & Hx). apply Forall_app in Hs as [_ Hs'].
  destruct (Hf x s1 Hx s' y rest Hs' H) as (s2 & -> & Hy). exists (s1 ++ s2). by rewrite app_assoc.
Qed.
Lemma reads_guard {B} bad e (f : () → parser E B) (Q : B → bytes → Prop) :
  (bad = false → reads (f tt) Q) → reads (pguard bad e ≫= f) Q.
Proof. intros H s y rest Hs. unfold mbind, parser_bind, pguard. destruct bad; [done|]. by apply H. Qed.
Lemma reads_pguard_if (b bad1 bad2 : bool) e1 e2 :
  reads (if b then pguard bad1 e1 else pguard bad2 e2) (λ _ _, (if b then bad1 else bad2) = false).
Proof.
  intros s [] rest _ H. exists []. unfold pguard in H. destruct b; [destruct bad1|destruct bad2]; try done; by injection H as ->.
Qed.
Lemma reads_premaining : reads (premaining : parser E Z) (λ _ s, s = []).
Proof. intros s x rest _ H. exists []. by injection H as <- ->. Qed.
Lemma reads_last {A B} (p : parser E A) (f : A → parser E B) (R : A → bytes → Prop) (Q : B → bytes → Prop) :
  reads p R → (∀ x s, R x s → reads (f x) (λ y s2, s2 = [] ∧ Q y s)) → reads (p ≫= f) Q.
Proof.
  intros Hp Hf. eapply reads_bind; [exact Hp|]. intros x s1 Hx s y rest Hs H. destruct (Hf x s1 Hx s y rest Hs H) as (used & -> & -> & HQ).
  exists []. by rewrite app_nil_r.
Qed.
Lemma reads_pcount {A} n (p : parser E A) (enc : A → bytes) (R : A → Prop) :
  reads p (λ x s, s = enc x ∧ R x) → reads (pcount n p) (λ l s, s = concat (map enc l) ∧ length l = n ∧ Forall R l).
Proof.
  intros Hp. induction n as [|n IH]; cbn [pcount]; [by apply reads_ret|].
  eapply reads_bind; [exact Hp|]. intros x s1 [-> Hx]. eapply reads_bind; [exact IH|]. intros l s2 (-> & <- & Hl).
  apply reads_ret. cbn [map concat length]. rewrite app_nil_r. split_and!; [done..|by constructor].
Qed.

(** What a reader of the whole input accepts. *)
Definition reads_all {A} (p : parser E A) (R : A → bytes → Prop) : Prop := ∀ s x rest, byte_list s → p s = Ok (x, rest) → R x s.

Lemma reads_all_bind {A B} (p : parser E A) (f : A → parser E B) (R : A → bytes → Prop) (Q : B → bytes → Prop) :
  reads p R → (∀ x s1, R x s1 → reads_all (f x) (λ y s2, Q y (s1 ++ s2))) → reads_all (p ≫= f) Q.
Proof.
  intros Hp Hf s y rest Hs H. unfold mbind, parser_bind in H. destruct (p s) as [[x s']|] eqn:E1; [|done].
  destruct (Hp s x s' Hs E1) as (s1 & -> & Hx). apply Forall_app in Hs as [_ Hs']. by apply (Hf x s1 Hx s' y rest Hs').
Qed.
Lemma reads_all_guard {B} bad e (f : () → parser E B) (Q : B → bytes → Prop) :
  (bad = false → reads_all (f tt) Q) → reads_all (pguard bad e ≫= f) Q.
Proof. intros H s y rest Hs. unfold mbind, parser_bind, pguard. destruct bad; [done|]. by apply H. Qed.
Lemma reads_all_end {B} e (y : B) (Q : B → bytes → Prop) :
  Q y [] → reads_all (premaining ≫= λ n, pguard (negb (n =? 0)) e ≫= λ _, mret y) Q.
Proof.
  intros HQ s x rest _. unfold mbind, parser_bind, premaining, pguard. destruct s as [|b s]; [intros [= <- _]; done|].
  rewrite zlen_cons. zlen_facts. by destruct (Z.eqb_spec (1 + zlen s) 0); [lia|].
Qed.
Lemma reads_pbytes n e : 0 ≤ n → reads (pbytes n e) (λ x s, s = x ∧ zlen x = n ∧ byte_list x).
Proof.
  intros Hn s x rest Hs. unfold pbytes. destruct (Z.ltb_spec (zlen s) n); [done|]. intros [= <- <-].
  exists (ztake n s). rewrite ztake_zdrop, zlen_ztake by lia. split_and!; [done..|by apply Forall_take].
Qed.
Lemma reads_ple n e : reads (ple n e) (λ x s, s = le_put n x ∧ 0 ≤ x < 2^(8 * Z.of_nat n)).
Proof.
  intros s x rest Hs. unfold ple. destruct (Z.ltb_spec (zlen s) (Z.of_nat n)) as [|Hn]; [done|]. intros [= <- <-].
  assert (length (take n s) = n) as Hl by (rewrite length_take; unfold zlen in Hn; lia).
  destruct (le_put_val (take n s)) as [E1 E2]; [by apply Forall_take|]. unfold zlen in E2. rewrite Hl in E1, E2.
  exists (take n s). by rewrite take_drop.
Qed.
Lemma reads_pbe n e : reads (pbe n e) (λ x s, s = be_put n x ∧ 0 ≤ x < 2^(8 * Z.of_nat n)).
Proof.
  intros s x rest Hs. unfold pbe, be_read. destruct (Nat.ltb_spec (length s) n) as [|Hn]; [done|]. intros [= <- <-].
  assert (length (take n s) = n) as Hl by (rewrite length_take; lia).
  destruct (be_put_val (take n s)) as [E1 E2]; [by apply Forall_take|]. unfold zlen in E2. rewrite Hl in E1, E2.
  exists (take n s). by rewrite take_drop.
Qed.
End Reads.

(** Read one more action of a reader known by its round trip. *)
Ltac parse_step tac := eapply parses_bind; [solve [tac]|].
Ltac parse_all_step tac := eapply parses_all_bind; [solve [tac]|].
Ltac parse_guard tac := apply parses_guard; [to_prop; solve [tac]|].
