(* ===== verification/ChunkSync.v ===== *)
(** * Chunk synchronization (framework/sync/chunksync)

    A cursor turns committed snapshots of objects into full frames and
    deltas; a replica applies them.  Both keep a baseline of all objects.
    The reuse of the cursor's map and scratch slice ([spare], [changes]) is an
    allocation matter and not modelled: a plan's map is read only by a
    [Commit] that passes the sequence check, which it can pass once. *)

From Stdlib Require Import String.
From S2P Require Import Prelude Bytes GoStr Parse.

Definition MaxPayload : Z := 2^20.
Definition maxObjects : Z := 16384.

Inductive ChunkErr : Type := ErrSequence | ErrEOF | ErrText.
#[export] Instance ChunkErr_eq_dec : EqDecision ChunkErr.
Proof. solve_decision. Defined.

Record Key := mkKey { kX : Z; kZ : Z }.
#[export] Instance Key_eq_dec : EqDecision Key.
Proof. solve_decision. Defined.

Record Object := mkObject { oID : Z; oChunk : Key; oData : bytes }.
Record Snapshot := mkSnapshot { sEpoch : Z; sTick : Z; sObjects : list Object }.

(** ** Field layouts (fields.go) *)

Abbreviation FieldLayout := (list Z).

Fixpoint sizeLoop (l : FieldLayout) (size : Z) : option Z :=
  match l with
  | [] => Some size
  | n :: l' => if n =? 0 then None else sizeLoop l' (size + n)
  end.

(** [FieldLayout.size]; [None] is an error. *)
Definition size (l : FieldLayout) : option Z :=
  if (zlen l =? 0) || (8 <? zlen l) then None
  else match sizeLoop l 0 with
       | Some size => if 65535 <? size + 1 then None else Some size
       | None => None
       end.

(** [s[i:j]] *)
Definition slice (i j : Z) (s : bytes) : bytes := ztake (j - i) (zdrop i s).

(** The loop of [mask]; [old] is [None] for a nil slice. *)
Fixpoint maskLoop (l : FieldLayout) (i offset : Z) (old : option bytes) (current : bytes) (m len : Z) : Z * Z :=
  match l with
  | [] => (m, len)
  | n :: l' =>
      let end_ := offset + n in
      let differs := match old with
                     | None => true
                     | Some o => negb (bool_decide (slice offset end_ o = slice offset end_ current))
                     end in
      if differs then maskLoop l' (i + 1) end_ old current (Z.lor m (Z.shiftl 1 i)) (len + n)
      else maskLoop l' (i + 1) end_ old current m len
  end.
Definition mask (l : FieldLayout) (old : option bytes) (current : bytes) : Z * Z := maskLoop l 0 0 old current 0 1.

Fixpoint appendLoop (l : FieldLayout) (i offset m : Z) (current : bytes) : bytes :=
  match l with
  | [] => []
  | n :: l' =>
      let end_ := offset + n in
      (if Z.testbit m i then slice offset end_ current else []) ++ appendLoop l' (i + 1) end_ m current
  end.
(** [appendFields] on an empty [dst]. *)
Definition appendFields (l : FieldLayout) (m : Z) (current : bytes) : bytes := m :: appendLoop l 0 0 m current.

Fixpoint decodeLoop (l : FieldLayout) (i offset m : Z) (out payload : bytes) : option bytes :=
  match l with
  | [] => if zlen payload =? 0 then Some out else None
  | n :: l' =>
      let end_ := offset + n in
      if Z.testbit m i then
        if zlen payload <? n then None
        else decodeLoop l' (i + 1) end_ m (ztake offset out ++ ztake n payload ++ zdrop end_ out) (zdrop n payload)
      else decodeLoop l' (i + 1) end_ m out payload
  end.

(** [FieldLayout.decode]; [None] is an error. *)
Definition decode (l : FieldLayout) (old : option bytes) (payload : bytes) : option bytes :=
  match size l with
  | None => None
  | Some size =>
      let all := u8 (Z.shiftl 1 (zlen l) - 1) in
      match payload with
      | [] => None
      | m :: fields =>
          if (m =? 0) || negb (Z.ldiff m all =? 0) ||
             match old with None => negb (m =? all) | Some o => negb (zlen o =? size) end
          then None
          else decodeLoop l 0 0 m (match old with Some o => o | None => replicate (Z.to_nat size) 0 end) fields
      end
  end.

(** ** The cursor *)

Record Cursor := mkCursor {
  cEpoch : Z; cSeq : Z; cTick : Z;
  cObjects : option (gmap Z Object);
  cLayout : bytes
}.
Definition zeroCursor : Cursor := mkCursor 0 0 0 None [].

Record change := mkChange { chObject : Object; chMask : Z }.
Record Plan := mkPlan { plData : bytes; plPrevious : Z; plNext : Cursor }.

(** [fmt.Sprint] of a layout. *)
Fixpoint sprintItems (l : list Z) : bytes :=
  match l with
  | [] => []
  | [n] => Itoa n
  | n :: l' => Itoa n ++ str " " ++ sprintItems l'
  end.
Definition signatureOf (layout : option FieldLayout) : bytes :=
  match layout with None => [] | Some l => str "[" ++ sprintItems l ++ str "]" end.

Record planAcc := mkAcc {
  paObjects : gmap Z Object;
  paChanges : list change;
  paSnapshotBytes : Z;
  paFrameBytes : Z
}.

(** One object of the snapshot. *)
Definition planOne (c : Cursor) (layout : option FieldLayout) (full : bool) (a : planAcc) (o : Object) : result ChunkErr planAcc :=
  let snapshotBytes := paSnapshotBytes a + 22 + zlen (oData o) in
  let snapshotBytes := match layout with Some _ => snapshotBytes + 1 | None => snapshotBytes end in
  if MaxPayload <? snapshotBytes then Err ErrText
  else if (oID o =? 0) || (65535 <? zlen (oData o)) then Err ErrText
  else if bool_decide (is_Some (paObjects a !! oID o)) then Err ErrText
  else
    let old := cObjects c ≫= lookup (oID o) in
    let same := match old with Some old => bool_decide (oData old = oData o) | None => false end in
    let moved := match old with Some old => negb (bool_decide (oChunk old = oChunk o)) | None => true end in
    let objects := <[oID o := o]> (paObjects a) in
    if full || moved || negb same then
      match layout with
      | None => Ok (mkAcc objects (paChanges a ++ [mkChange o 0]) snapshotBytes (paFrameBytes a + 10 + zlen (oData o)))
      | Some l =>
          let fieldBytes := default 0 (size l) in
          if negb (zlen (oData o) =? fieldBytes) then Err ErrText
          else
            let base := if negb full && negb moved then oData <$> old else None in
            let '(m, wire) := mask l base (oData o) in
            Ok (mkAcc objects (paChanges a ++ [mkChange o m]) snapshotBytes (paFrameBytes a + 10 + wire))
      end
    else Ok (mkAcc objects (paChanges a) snapshotBytes (paFrameBytes a)).

Fixpoint planAll (c : Cursor) (layout : option FieldLayout) (full : bool) (os : list Object) (a : planAcc) : result ChunkErr planAcc :=
  match os with
  | [] => Ok a
  | o :: os' => a ← planOne c layout full a o; planAll c layout full os' a
  end.

(** The order of [slices.SortFunc]. *)
Definition change_le (a b : change) : Prop :=
  let ka := oChunk (chObject a) in
  let kb := oChunk (chObject b) in
  if bool_decide (kX ka = kX kb) then
    if bool_decide (kZ ka = kZ kb) then oID (chObject a) ≤ oID (chObject b) else kZ ka ≤ kZ kb
  else kX ka ≤ kX kb.
#[export] Instance change_le_dec a b : Decision (change_le a b).
Proof. unfold change_le. destruct (bool_decide _); [destruct (bool_decide _)|]; apply _. Defined.

Fixpoint countGroups (previous : option Key) (l : list change) : Z :=
  match l with
  | [] => 0
  | ch :: l' =>
      let k := oChunk (chObject ch) in
      (if bool_decide (previous = Some k) then 0 else 1) + countGroups (Some k) l'
  end.

(** The changes of one chunk at the head of the list, and the rest. *)
Fixpoint span (k : Key) (l : list change) : list change * list change :=
  match l with
  | [] => ([], [])
  | ch :: l' => if bool_decide (oChunk (chObject ch) = k) then let '(g, rest) := span k l' in (ch :: g, rest) else ([], l)
  end.

Definition encodeChange (layout : option FieldLayout) (ch : change) : bytes :=
  let o := chObject ch in
  let payload := match layout with None => oData o | Some l => appendFields l (chMask ch) (oData o) end in
  le_put 8 (oID o) ++ le_put 2 (zlen payload) ++ payload.

(** The groups; every round takes at least one change, so as many rounds as
    changes are enough. *)
Fixpoint encodeGroups (fuel : nat) (layout : option FieldLayout) (l : list change) : bytes :=
  match fuel, l with
  | S f, ch :: l' =>
      let k := oChunk (chObject ch) in
      let '(g, rest) := span k l' in
      le_put 4 (u32 (kX k)) ++ le_put 4 (u32 (kZ k)) ++ le_put 4 (u32 (zlen (ch :: g))) ++
      concat (map (encodeChange layout) (ch :: g)) ++ encodeGroups f layout rest
  | _, _ => []
  end.

Definition plan (c : Cursor) (s : Snapshot) (layout : option FieldLayout) : result ChunkErr Plan :=
  let signature := signatureOf layout in
  if (sEpoch s =? 0) || (maxObjects <? zlen (sObjects s)) then Err ErrText
  else
    let full := negb (cEpoch c =? sEpoch s) || bool_decide (cObjects c = None) || negb (bool_decide (cLayout c = signature)) in
    if negb full && (sTick s <? cTick c) then Err ErrSequence
    else if cSeq c =? MaxUint64 then Err ErrSequence
    else
      a ← planAll c layout full (sObjects s) (mkAcc ∅ [] 36 36);
      let next := mkCursor (sEpoch s) (cSeq c + 1) (sTick s) (Some (paObjects a)) signature in
      let removed :=
        if full then []
        else merge_sort Z.le (filter (λ id, paObjects a !! id = None) (map fst (map_to_list (default ∅ (cObjects c))))) in
      let changes := merge_sort change_le (paChanges a) in
      let groups := countGroups None changes in
      if MaxPayload <? paFrameBytes a + 8 * zlen removed + 12 * groups then Err ErrText
      else
        let data :=
          str "RC" ++ [match layout with None => 1 | Some _ => 2 end; if full then 1 else 0] ++
          le_put 8 (sEpoch s) ++ le_put 8 (cSeq c + 1) ++ le_put 8 (sTick s) ++
          le_put 4 (u32 (zlen removed)) ++ le_put 4 (u32 groups) ++
          concat (map (le_put 8) removed) ++ encodeGroups (length changes) layout changes in
        Ok (mkPlan data (cSeq c) next).

(** [Cursor.Plan] and [Cursor.PlanFields]. *)
Definition PlanFull (c : Cursor) (s : Snapshot) : result ChunkErr Plan := plan c s None.
Definition PlanFields (c : Cursor) (s : Snapshot) (layout : FieldLayout) : result ChunkErr Plan :=
  match size layout with None => Err ErrText | Some _ => plan c s (Some layout) end.

Definition Commit (c : Cursor) (p : option Plan) : Cursor * option ChunkErr :=
  match p with
  | None => (c, Some ErrSequence)
  | Some p => if negb (plPrevious p =? cSeq c) then (c, Some ErrSequence) else (plNext p, None)
  end.

(** ** The replica *)

Record Replica := mkReplica {
  rpEpoch : Z; rpSequence : Z; rpTick : Z;
  rpObjects : option (gmap Z Object);
  rpLayout : bytes
}.
Definition zeroReplica : Replica := mkReplica 0 0 0 None [].

(** The objects and the ids already changed by the frame. *)
Definition applying : Type := gmap Z Object * gset Z.

Fixpoint applyDeletes (n : nat) (st : applying) : parser ChunkErr applying :=
  match n with
  | O => mret st
  | S m =>
      id ← ple 8 ErrEOF;
      _ ← pguard ((id =? 0) || bool_decide (id ∈ snd st)) ErrText;
      applyDeletes m (delete id (fst st), {[id]} ∪ snd st)
  end.

Definition applyObject (layout : option FieldLayout) (full : bool) (k : Key) (st : applying) : parser ChunkErr applying :=
  id ← ple 8 ErrEOF;
  len ← ple 2 ErrEOF;
  _ ← pguard ((id =? 0) || bool_decide (id ∈ snd st)) ErrText;
  payload ← pbytes len ErrEOF;
  payload ←
    match layout with
    | None => mret payload
    | Some l =>
        let base :=
          match fst st !! id with
          | Some old => if negb full && bool_decide (oChunk old = k) then Some (oData old) else None
          | None => None
          end in
        match decode l base payload with Some decoded => mret decoded | None => pfail ErrText end
    end;
  let objects := <[id := mkObject id k payload]> (fst st) in
  _ ← pguard (maxObjects <? Z.of_nat (base.size objects)) ErrText;
  mret (objects, {[id]} ∪ snd st).

Fixpoint applyObjects (n : nat) (layout : option FieldLayout) (full : bool) (k : Key) (st : applying) : parser ChunkErr applying :=
  match n with
  | O => mret st
  | S m => st ← applyObject layout full k st; applyObjects m layout full k st
  end.

Fixpoint applyGroups (n : nat) (layout : option FieldLayout) (full : bool) (st : applying) : parser ChunkErr applying :=
  match n with
  | O => mret st
  | S m =>
      x ← ple 4 ErrEOF;
      z ← ple 4 ErrEOF;
      count ← ple 4 ErrEOF;
      _ ← pguard (maxObjects <? count) ErrText;
      st ← applyObjects (Z.to_nat count) layout full (mkKey (i32 x) (i32 z)) st;
      applyGroups m layout full st
  end.

(** The frame after its first four bytes. *)
Definition applyBody (r : Replica) (layout : option FieldLayout) (full : bool) : parser ChunkErr Replica :=
  epoch ← ple 8 ErrEOF;
  seq ← ple 8 ErrEOF;
  tick ← ple 8 ErrEOF;
  deletes ← ple 4 ErrEOF;
  groups ← ple 4 ErrEOF;
  _ ← pguard ((epoch =? 0) || (seq =? 0) || (maxObjects <? deletes) || (maxObjects <? groups)) ErrText;
  _ ← (if full then pguard (negb (deletes =? 0)) ErrText
       else pguard (negb (bool_decide (rpLayout r = signatureOf layout)) || bool_decide (rpObjects r = None) ||
                    negb (epoch =? rpEpoch r) || negb (seq =? u64 (rpSequence r + 1)) || (tick <? rpTick r)) ErrSequence);
  let objects := if full then ∅ else default ∅ (rpObjects r) in
  st ← applyDeletes (Z.to_nat deletes) (objects, ∅);
  st ← applyGroups (Z.to_nat groups) layout full st;
  len ← premaining;
  _ ← pguard (negb (len =? 0)) ErrText;
  mret (mkReplica epoch seq tick (Some (fst st)) (signatureOf layout)).

(** [Replica.apply]: the replica and the error. *)
Definition apply (r : Replica) (data : bytes) (layout : option FieldLayout) : Replica * option ChunkErr :=
  let version := match layout with None => 1 | Some _ => 2 end in
  match data with
  | m1 :: m2 :: v :: kind :: body =>
      if (MaxPayload <? zlen data) || (zlen data <? 36) || negb (bool_decide ([m1; m2] = str "RC")) || negb (v =? version) || (1 <? kind)
      then (r, Some ErrText)
      else match applyBody r layout (kind =? 1) body with
           | Ok (r', _) => (r', None)
           | Err e => (r, Some e)
           end
  | _ => (r, Some ErrText)
  end.

Definition Apply (r : Replica) (data : bytes) : Replica * option ChunkErr := apply r data None.
Definition ApplyFields (r : Replica) (data : bytes) (layout : FieldLayout) : Replica * option ChunkErr :=
  match size layout with None => (r, Some ErrText) | Some _ => apply r data (Some layout) end.

(** ** Slices *)

Lemma slice_zdrop i j s : 0 ≤ i ≤ j → slice i j s ++ zdrop j s = zdrop i s.
Proof.
  intros H. unfold slice. rewrite <- (ztake_zdrop (j - i) (zdrop i s)) at 2. f_equal.
  unfold zdrop. rewrite drop_drop. replace (Z.to_nat i + Z.to_nat (j - i))%nat with (Z.to_nat j) by lia. done.
Qed.
Lemma ztake_slice i j s : 0 ≤ i ≤ j → ztake j s = ztake i s ++ slice i j s.
Proof.
  intros H. unfold slice, ztake, zdrop. replace (Z.to_nat j) with (Z.to_nat i + Z.to_nat (j - i))%nat by lia.
  symmetry. apply take_take_drop.
Qed.
Lemma zlen_slice i j s : 0 ≤ i ≤ j → j ≤ zlen s → zlen (slice i j s) = j - i.
Proof. intros H Hj. unfold slice. rewrite zlen_ztake; [done|]. rewrite zlen_zdrop by lia. lia. Qed.

(** ** Field masks *)

Fixpoint total (l : FieldLayout) : Z := match l with [] => 0 | n :: l' => n + total l' end.

Lemma total_nonneg l : Forall (λ n, 0 ≤ n) l → 0 ≤ total l.
Proof. induction 1; cbn [total]; lia. Qed.

Lemma set_bit m i : 0 ≤ i → 0 ≤ m < 2^i → Z.lor m (Z.shiftl 1 i) = m + 2^i.
Proof. intros Hi Hm. rewrite lor_shiftl_add by lia. lia. Qed.

(** The bits [maskLoop] sets, and that decoding the selected fields over the
    old value gives the current one. *)
Lemma maskLoop_spec l : ∀ i offset old current m len m' len' out,
  Forall (λ n, 0 ≤ n) l → maskLoop l i offset old current m len = (m', len') →
  0 ≤ i → 0 ≤ m < 2^i → 0 ≤ offset → zlen current = offset + total l → zlen out = zlen current →
  (∀ o, old = Some o → zlen o = zlen current ∧ zdrop offset out = zdrop offset o) →
  0 ≤ m' < 2^(i + zlen l) ∧ (∀ j, 0 ≤ j < i → Z.testbit m' j = Z.testbit m j) ∧
  (old = None → m = 2^i - 1 → m' = 2^(i + zlen l) - 1) ∧
  len' = len + zlen (appendLoop l i offset m' current) ∧
  decodeLoop l i offset m' out (appendLoop l i offset m' current) = Some (ztake offset out ++ zdrop offset current).
Proof.
  induction l as [|n l IH]; intros i offset old current m len m' len' out Hl H Hi Hm Ho Hc Hout Hold; cbn [maskLoop total] in *.
  { injection H as <- <-. change (zlen (@nil Z)) with 0 in *. rewrite !Z.add_0_r in *. cbn [appendLoop decodeLoop].
    change (zlen (@nil Z)) with 0. split_and!; try done; try lia.
    f_equal. rewrite (zdrop_all offset current) by lia. rewrite (ztake_all offset out) by lia. by rewrite app_nil_r. }
  inversion_clear Hl as [|? ? Hn Hl']. pose proof (total_nonneg l Hl') as Htot. rewrite zlen_cons in *.
  set (end_ := offset + n) in *. replace (i + (1 + zlen l)) with (i + 1 + zlen l) by lia.
  assert (0 < 2^i) as Hp by (apply Z.pow_pos_nonneg; lia). assert (2^(i + 1) = 2 * 2^i) as Hp1 by (rewrite Z.pow_add_r by lia; lia).
  set (differs := match old with None => true | Some o => _ end) in *.
  set (m1 := if differs then m + 2^i else m). assert (maskLoop l (i + 1) end_ old current m1 (if differs then len + n else len) = (m', len')) as H'.
  { unfold m1. destruct differs; [|done]. by rewrite set_bit in H by lia. }
  clear H. assert (0 ≤ m1 < 2^(i + 1)) as Hm1 by (unfold m1; destruct differs; lia).
  assert (∀ j, 0 ≤ j < i → Z.testbit m1 j = Z.testbit m j) as Hlow.
  { intros j Hj. unfold m1. destruct differs; [|done]. rewrite <- set_bit by lia. rewrite Z.lor_spec, Z.shiftl_spec by lia.
    rewrite (Z.testbit_neg_r 1) by lia. apply orb_false_r. }
  assert (Z.testbit m1 i = differs) as Hbit.
  { unfold m1. destruct differs; [|by apply (testbit_above m i)]. rewrite <- set_bit by lia.
    rewrite Z.lor_spec, Z.shiftl_spec, Z.sub_diag by lia. apply orb_true_r. }
  set (out' := if differs then ztake offset out ++ slice offset end_ current ++ zdrop end_ out else out).
  assert (zlen (slice offset end_ current) = n) as Hsl by (rewrite zlen_slice by lia; lia).
  assert (zlen out' = zlen current) as Hout'.
  { unfold out'. destruct differs; [|done]. rewrite !zlen_app, zlen_ztake, zlen_zdrop by lia. lia. }
  assert (zdrop end_ out' = zdrop end_ out) as Hdrop.
  { unfold out'. destruct differs; [|done]. rewrite app_assoc. apply zdrop_app_exact. rewrite zlen_app, zlen_ztake by lia. lia. }
  assert (∀ s : bytes, zdrop end_ s = zdrop n (zdrop offset s)) as Hdd.
  { intros s. unfold zdrop. rewrite drop_drop. f_equal. lia. }
  destruct (IH (i + 1) end_ old current m1 _ m' len' out' Hl' H') as (I1 & I2 & I3 & I4 & I5); [lia|lia|lia|lia|done| |].
  { intros o Ho'. destruct (Hold o Ho') as [? E]. split; [done|]. by rewrite Hdrop, !Hdd, E. }
  assert (Z.testbit m' i = differs) as Hbit' by (rewrite I2 by lia; done).
  split_and!.
  - lia.
  - lia.
  - intros j Hj. rewrite I2 by lia. by apply Hlow.
  - intros Hnone ->. apply I3; [done|]. unfold m1, differs. rewrite Hnone. lia.
  - rewrite I4. cbn [appendLoop]. rewrite Hbit'. fold end_. rewrite zlen_app. destruct differs; [rewrite Hsl; lia|rewrite zlen_nil; lia].
  - cbn [appendLoop decodeLoop]. rewrite Hbit'. fold end_. rewrite <- (slice_zdrop offset end_ current) by lia. unfold out' in *. destruct differs eqn:Ed.
    + rewrite zlen_app. zlen_facts. destruct (Z.ltb_spec (zlen (slice offset end_ current) + zlen (appendLoop l (i + 1) end_ m' current)) n); [lia|].
      rewrite (ztake_app_exact n), (zdrop_app_exact n), I5 by done. f_equal.
      rewrite (app_assoc (ztake offset out) _ (zdrop end_ current)). f_equal. rewrite app_assoc. apply ztake_app_exact. rewrite zlen_app, zlen_ztake by lia. lia.
    + cbn [app]. rewrite I5. f_equal. rewrite (app_assoc (ztake offset out) _ (zdrop end_ current)). f_equal. rewrite (ztake_slice offset end_ out) by lia. f_equal.
      unfold differs in Ed. destruct old as [o|]; [|done]. to_prop. destruct (Hold o eq_refl) as [_ E]. rewrite <- Ed. unfold slice. by rewrite E.
Qed.

(** A layout that passes its check. *)
Lemma sizeLoop_total l : ∀ acc n, sizeLoop l acc = Some n → Forall (λ x, 0 ≤ x) l → n = acc + total l ∧ (l ≠ [] → 0 < total l).
Proof.
  induction l as [|x l IH]; intros acc n H Hl; cbn [sizeLoop total] in *; [injection H as <-; split; [lia|done]|].
  destruct (Z.eqb_spec x 0); [done|]. inversion_clear Hl as [|? ? Hx Hl']. destruct (IH _ _ H Hl'). pose proof (total_nonneg l Hl'). split; [lia|intros _; lia].
Qed.

Lemma size_facts l n : size l = Some n → Forall (λ x, 0 ≤ x) l → n = total l ∧ 0 < n ≤ 65534 ∧ 1 ≤ zlen l ≤ 8.
Proof.
  unfold size. intros H Hl. destruct (_ || _) eqn:E; [done|]. to_prop. destruct (sizeLoop l 0) as [k|] eqn:Ek; [|done].
  destruct (Z.ltb_spec 65535 (k + 1)); [done|]. injection H as <-. destruct (sizeLoop_total l 0 k Ek Hl) as [-> Hpos].
  zlen_facts. assert (l ≠ []) as Hne by (intros ->; destruct E as [E _]; by apply E). specialize (Hpos Hne). lia.
Qed.

(** Decoding the fields selected by [mask] restores the current value. *)
Lemma mask_decode l n old current m wire :
  size l = Some n → Forall (λ x, 0 ≤ x) l → zlen current = n → (∀ o, old = Some o → zlen o = n ∧ o ≠ current) →
  mask l old current = (m, wire) →
  decode l old (appendFields l m current) = Some current ∧ zlen (appendFields l m current) = wire ∧ wire ≤ 65535.
Proof.
  intros Hs Hl Hc Hold Hm. destruct (size_facts l n Hs Hl) as (Hn & Hpos & Hlen). unfold mask in Hm.
  set (out := match old with Some o => o | None => replicate (Z.to_nat n) 0 end).
  destruct (maskLoop_spec l 0 0 old current 0 1 m wire out Hl Hm) as (I1 & _ & I3 & I4 & I5); [lia|lia|lia|lia| | |].
  { unfold out. destruct old as [o|]; [by destruct (Hold o eq_refl) as [-> _]|]. rewrite zlen_replicate. lia. }
  { intros o ->. destruct (Hold o eq_refl). by split; [congruence|]. }
  change (ztake 0 out ++ zdrop 0 current) with current in I5. rewrite Z.add_0_l in I1, I3.
  assert (zlen (appendFields l m current) = wire) as Hw by (unfold appendFields; rewrite zlen_cons; lia).
  assert (m ≠ 0) as Hm0.
  { intros ->. destruct old as [o|].
    - destruct (Hold o eq_refl) as [_ Hne]. apply Hne. unfold out in I5.
      assert (∀ l i off out', decodeLoop l i off 0 out' (appendLoop l i off 0 current) = Some out') as Hid.
      { clear. induction l as [|x l IH]; intros i off out'; cbn [appendLoop decodeLoop]; [done|]. rewrite Z.bits_0. apply IH. }
      rewrite Hid in I5. congruence.
    - pose proof (Z.pow_le_mono_r 2 1 (zlen l) ltac:(lia) ltac:(lia)). specialize (I3 eq_refl eq_refl). lia. }
  assert (u8 (Z.shiftl 1 (zlen l) - 1) = Z.ones (zlen l)) as Hall.
  { rewrite Z.shiftl_mul_pow2, Z.mul_1_l by lia. rewrite Z.ones_equiv, <- Z.sub_1_r. apply u8_small. unfold is_u8.
    pose proof (Z.pow_pos_nonneg 2 (zlen l) ltac:(lia) ltac:(lia)). pose proof (Z.pow_le_mono_r 2 (zlen l) 8 ltac:(lia) ltac:(lia)). lia. }
  split_and!; [|done|].
  - unfold decode, appendFields. rewrite Hs, Hall.
    rewrite (Z.ldiff_ones_r_low m (zlen l)) by (try apply Z.log2_lt_pow2; lia).
    destruct (Z.eqb_spec m 0); [done|]. cbn [orb negb Z.eqb].
    destruct old as [o|].
    + destruct (Hold o eq_refl) as [-> _]. rewrite Z.eqb_refl. exact I5.
    + specialize (I3 eq_refl eq_refl). rewrite Z.ones_equiv, <- Z.sub_1_r, I3, Z.eqb_refl. rewrite I3 in I5. exact I5.
  - assert (∀ l i off, Forall (λ x, 0 ≤ x) l → 0 ≤ off → off + total l ≤ zlen current → zlen (appendLoop l i off m current) ≤ total l) as Hle.
    { clear. induction l as [|x l IH]; intros i off Hl Ho Ht; cbn [appendLoop total]; [done|]. cbn [total] in Ht. inversion_clear Hl as [|? ? Hx Hl'].
      pose proof (total_nonneg l Hl'). rewrite zlen_app. specialize (IH (i + 1) (off + x) Hl' ltac:(lia) ltac:(lia)).
      destruct (Z.testbit m i); [rewrite zlen_slice by lia; lia|change (zlen (@nil Z)) with 0; lia]. }
    specialize (Hle l 0 0 Hl ltac:(lia) ltac:(lia)). lia.
Qed.
