(* ===== verification/ChunkSyncInv.v ===== *)
(** * Chunk synchronization: the replica follows the cursor

    The invariants of a cursor, what a plan consists of, and that applying
    the committed frames in order reproduces the snapshots. *)

From Stdlib Require Import String.
From S2P Require Import Prelude Bytes GoStr Parse ChunkSync.

(** ** Well-formed values *)

Definition key_ok (k : Key) : Prop := is_i32 (kX k) ∧ is_i32 (kZ k).
Definition object_ok (o : Object) : Prop := is_u64 (oID o) ∧ key_ok (oChunk o).
(** A layout is a [[]uint16]. *)
Definition layout_ok (layout : option FieldLayout) : Prop :=
  match layout with None => True | Some l => Forall is_u16 l end.
Definition snapshot_ok (s : Snapshot) : Prop := is_u64 (sEpoch s) ∧ is_u64 (sTick s) ∧ Forall object_ok (sObjects s).

(** Signatures tell layouts apart. *)
Lemma digits_cut (a a' : bytes) c c' x x' :
  Forall (λ d, 48 ≤ d ≤ 57) a → Forall (λ d, 48 ≤ d ≤ 57) a' → ¬ 48 ≤ c ≤ 57 → ¬ 48 ≤ c' ≤ 57 →
  a ++ c :: x = a' ++ c' :: x' → a = a' ∧ c = c' ∧ x = x'.
Proof.
  intros Ha Ha' Hc Hc'. revert a' Ha'. induction Ha as [|d a Hd Ha IH]; intros [|d' a'] Ha' E; cbn in E; injection E as E1 E2.
  - done.
  - inversion_clear Ha'. lia.
  - lia.
  - inversion_clear Ha'. destruct (IH a') as (-> & -> & ->); [done..|]. by subst.
Qed.

Lemma sprintItems_cons n l : ∃ c x, sprintItems (n :: l) ++ str "]" = Itoa n ++ c :: x ∧ ¬ 48 ≤ c ≤ 57 ∧
  ((l = [] ∧ c = 93 ∧ x = []) ∨ (l ≠ [] ∧ c = 32 ∧ x = sprintItems l ++ str "]")).
Proof.
  destruct l as [|m l].
  - exists 93, []. split; [done|]. split; [lia|by left].
  - exists 32, (sprintItems (m :: l) ++ str "]"). split; [|split; [lia|by right]].
    change (sprintItems (n :: m :: l)) with (Itoa n ++ str " " ++ sprintItems (m :: l)). by rewrite <- !app_assoc.
Qed.

Lemma sprintItems_inj l : ∀ l',
  Forall is_u16 l → Forall is_u16 l' → sprintItems l ++ str "]" = sprintItems l' ++ str "]" → l = l'.
Proof.
  assert (∀ n, is_u16 n → Forall (λ d, 48 ≤ d ≤ 57) (Itoa n)) as Hd by (intros n Hn; apply Itoa_digits; unfold is_u16 in Hn; lia).
  assert (∀ n x, is_u16 n → str "]" = Itoa n ++ x → False) as Hno.
  { intros n x Hn E. specialize (Hd n Hn). destruct (Itoa n) as [|d s] eqn:Ei; [|change (str "]") with [93] in E; injection E as <- _; apply Forall_cons in Hd as [Hd _]; lia].
    pose proof (parse_Itoa n) as Hp. rewrite Ei in Hp. specialize (Hp ltac:(unfold small, is_u16 in *; lia)). done. }
  induction l as [|n l IH]; intros [|n' l'] Hl Hl' E; [done|exfalso..|].
  - inversion_clear Hl' as [|? ? Hn' _]. destruct (sprintItems_cons n' l') as (c & x & Ex & _). rewrite Ex in E. by eapply Hno.
  - inversion_clear Hl as [|? ? Hn _]. destruct (sprintItems_cons n l) as (c & x & Ex & _). rewrite Ex in E. by eapply Hno.
  - inversion_clear Hl as [|? ? Hn Hl0]. inversion_clear Hl' as [|? ? Hn' Hl0'].
    destruct (sprintItems_cons n l) as (c & x & Ex & Hc & Hor), (sprintItems_cons n' l') as (c' & x' & Ex' & Hc' & Hor').
    rewrite Ex, Ex' in E. apply digits_cut in E as (En & -> & ->); [|auto..].
    apply Itoa_inj in En as ->; [|unfold small; unfold_int; lia..]. f_equal.
    destruct Hor as [(-> & ? & ?)|(? & ? & ?)], Hor' as [(-> & ? & ?)|(? & ? & ?)]; try done; [lia|lia|]. apply IH; [done..|congruence].
Qed.

Lemma signatureOf_inj a b : layout_ok a → layout_ok b → signatureOf a = signatureOf b → a = b.
Proof.
  destruct a as [l|], b as [l'|]; try done. intros Hl Hl' [= E]. f_equal. by apply sprintItems_inj.
Qed.

(** ** Cursors *)

#[export] Instance Object_eq_dec : EqDecision Object.
Proof. solve_decision. Defined.

Definition objects_ok (m : gmap Z Object) : Prop :=
  map_Forall (λ id o, oID o = id ∧ id ≠ 0 ∧ object_ok o) m ∧ Z.of_nat (base.size m) ≤ maxObjects.

(** The baseline is of the layout the signature names. *)
Definition laid_out (signature : bytes) (m : gmap Z Object) : Prop :=
  ∃ layout, layout_ok layout ∧ signature = signatureOf layout ∧
    ∀ l n, layout = Some l → size l = Some n → map_Forall (λ _ o, zlen (oData o) = n) m.

Record cursor_ok (c : Cursor) : Prop := {
  co_seq : is_u64 (cSeq c);
  co_epoch : is_u64 (cEpoch c);
  co_tick : is_u64 (cTick c);
  co_objects : ∀ m, cObjects c = Some m → objects_ok m ∧ laid_out (cLayout c) m
}.

(** ** What a plan contains *)

Definition oldOf (c : Cursor) (o : Object) : option Object := cObjects c ≫= lookup (oID o).

(** The replica's baseline for the object when its change arrives. *)
Definition baseOf (c : Cursor) (full : bool) (o : Object) : option bytes :=
  if full then None
  else match oldOf c o with
       | Some old => if bool_decide (oChunk old = oChunk o) then Some (oData old) else None
       | None => None
       end.

Definition payloadOf (layout : option FieldLayout) (ch : change) : bytes :=
  match layout with None => oData (chObject ch) | Some l => appendFields l (chMask ch) (oData (chObject ch)) end.

Record change_ok (c : Cursor) (layout : option FieldLayout) (full : bool) (ch : change) : Prop := {
  ck_len : zlen (payloadOf layout ch) ≤ 65535;
  ck_decode : ∀ l, layout = Some l → decode l (baseOf c full (chObject ch)) (payloadOf layout ch) = Some (oData (chObject ch));
  ck_fields : ∀ l n, layout = Some l → size l = Some n → zlen (oData (chObject ch)) = n
}.

Definition changed (c : Cursor) (full : bool) (o : Object) : Prop := full = true ∨ oldOf c o ≠ Some o.
#[export] Instance changed_dec c full o : Decision (changed c full o).
Proof. unfold changed. apply _. Defined.

Fixpoint changeBytes (layout : option FieldLayout) (l : list change) : Z :=
  match l with [] => 0 | ch :: l' => 10 + zlen (payloadOf layout ch) + changeBytes layout l' end.

Lemma changeBytes_app layout l1 l2 : changeBytes layout (l1 ++ l2) = changeBytes layout l1 + changeBytes layout l2.
Proof. induction l1 as [|ch l1 IH]; cbn [app changeBytes]; lia. Qed.

Lemma changeBytes_nonneg layout l : 0 ≤ changeBytes layout l.
Proof. induction l as [|ch l IH]; cbn [changeBytes]; [done|]. zlen_facts. lia. Qed.
Lemma changeBytes_Permutation layout l1 l2 : l1 ≡ₚ l2 → changeBytes layout l1 = changeBytes layout l2.
Proof. induction 1; cbn [changeBytes]; lia. Qed.

Record planned (c : Cursor) (layout : option FieldLayout) (full : bool) (done : list Object) (a : planAcc) : Prop := {
  pl_lookup : ∀ id o, paObjects a !! id = Some o ↔ o ∈ done ∧ oID o = id;
  pl_ids : Forall (λ o, oID o ≠ 0) done;
  pl_nodup : NoDup (oID <$> done);
  pl_changes : chObject <$> paChanges a = filter (changed c full) done;
  pl_each : Forall (change_ok c layout full) (paChanges a);
  pl_bytes : paFrameBytes a = 36 + changeBytes layout (paChanges a)
}.

Lemma planned_start c layout full : planned c layout full [] (mkAcc ∅ [] 36 36).
Proof.
  split; try done; [|constructor].
  intros id o. cbn. rewrite lookup_empty. split; [done|]. by intros [?%elem_of_nil _].
Qed.

(** The object is added; its change, if any, is well-formed. *)
Lemma planned_add c layout full done a o changes bytes_ snap :
  planned c layout full done a → oID o ≠ 0 → paObjects a !! oID o = None →
  (¬ changed c full o ∧ changes = [] ∨ changed c full o ∧ ∃ ch, changes = [ch] ∧ chObject ch = o ∧ change_ok c layout full ch) →
  bytes_ = paFrameBytes a + changeBytes layout changes →
  planned c layout full (done ++ [o]) (mkAcc (<[oID o := o]> (paObjects a)) (paChanges a ++ changes) snap bytes_).
Proof.
  intros [P1 P2 P3 P4 P5 P6] Hid Hnone Hch ->. split; cbn [paObjects paChanges paFrameBytes].
  - intros id x. destruct (decide (id = oID o)) as [->|Hne].
    + rewrite lookup_insert_eq, elem_of_snoc. split; [intros [= <-]; auto|]. intros [[Hx| ->] Hi]; [|done].
      assert (paObjects a !! oID o = Some x) as Hp by (by apply P1). congruence.
    + rewrite lookup_insert_ne, P1, elem_of_snoc by done. split; [naive_solver|]. intros [[?| ->] ?]; [auto|congruence].
  - apply Forall_app. by split; [|constructor].
  - rewrite fmap_app. apply NoDup_app. split_and!; [done| |apply NoDup_singleton].
    intros x Hx ->%list_elem_of_singleton. apply list_elem_of_fmap in Hx as (y & Hy & Hin).
    assert (paObjects a !! oID o = Some y) as Hp by (by apply P1). congruence.
  - rewrite fmap_app, filter_app, P4. f_equal. destruct Hch as [[Hno ->]|(Hyes & ch & -> & <- & _)].
    + by rewrite filter_cons_False.
    + by rewrite filter_cons_True.
  - apply Forall_app. split; [done|]. destruct Hch as [[_ ->]|(_ & ch & -> & _ & ?)]; [constructor|by constructor].
  - rewrite changeBytes_app, P6. lia.
Qed.

(** The baseline fits the layout of a delta. *)
Definition base_fits (c : Cursor) (layout : option FieldLayout) (full : bool) : Prop :=
  full = false → ∀ l n id old, layout = Some l → size l = Some n → cObjects c ≫= lookup id = Some old → zlen (oData old) = n.

Section PlanOne.
Context (c : Cursor) (layout : option FieldLayout) (full : bool).
Context (Hc : cursor_ok c) (Hl : layout_ok layout) (Hfit : base_fits c layout full).
Context (Hsize : ∀ l, layout = Some l → is_Some (size l)).

Lemma oldOf_id o old : oldOf c o = Some old → oID old = oID o.
Proof.
  unfold oldOf. destruct (cObjects c) as [m|] eqn:E; [|done]. intros H. destruct (co_objects c Hc m E) as [[Hm _] _].
  by apply (Hm (oID o) old).
Qed.

Lemma unchanged_same o old :
  oldOf c o = Some old → oChunk old = oChunk o → oData old = oData o → old = o.
Proof. intros H1 H2 H3. pose proof (oldOf_id o old H1). destruct old, o; cbn in *; congruence. Qed.
Lemma planOne_spec done a o a' :
  planned c layout full done a → planOne c layout full a o = Ok a' → planned c layout full (done ++ [o]) a'.
Proof.
  intros Hp H. unfold planOne in H. fold (oldOf c o) in H.
  destruct (MaxPayload <? _); [done|]. destruct (_ || _) eqn:E1 in H; [done|]. to_prop. destruct E1 as [Hid Hlen].
  destruct (bool_decide (is_Some (paObjects a !! oID o))) eqn:E2; [done|]. apply bool_decide_eq_false in E2. apply eq_None_not_Some in E2.
  set (same := match oldOf c o with Some _ => _ | None => false end) in H.
  set (moved := match oldOf c o with Some _ => _ | None => true end) in H.
  assert (full || moved || negb same = false ↔ ¬ changed c full o) as Hch.
  { unfold changed, same, moved. destruct full; cbn; [split; [done|intros Hn; destruct Hn; by left]|].
    destruct (oldOf c o) as [old|] eqn:Eo; cbn.
    2:{ split; [done|]. intros Hn. destruct Hn. right. done. }
    to_prop. split.
    - intros [Hk Hd] [?|Hne]; [done|]. apply Hne. f_equal. by apply unchanged_same.
    - intros Hn. destruct (decide (old = o)) as [->|Hne]; [done|]. destruct Hn. right. congruence. }
  destruct (full || moved || negb same) eqn:Ec.
  2:{ injection H as <-. rewrite <- (app_nil_r (paChanges a)). apply planned_add; try done; [|cbn; lia].
      left. split; [by apply Hch|done]. }
  assert (changed c full o) as Hyes by (destruct (decide (changed c full o)) as [?|Hn]; [done|by apply Hch in Hn]).
  destruct layout as [l|] eqn:El.
  - destruct (Hsize l eq_refl) as [n Hn]. rewrite Hn in H. cbn [default from_option id] in H. cbn zeta in H. destruct (negb (zlen (oData o) =? n)) eqn:En; [done|]. to_prop.
    set (base := if negb full && negb moved then oData <$> oldOf c o else None) in H.
    assert (base = baseOf c full o) as Hbase.
    { unfold base, baseOf, moved. destruct full; [done|]. destruct (oldOf c o) as [old|]; [|done]. cbn. by case_bool_decide. }
    destruct (mask l base (oData o)) as [m wire] eqn:Em. injection H as <-.
    destruct (mask_decode l n base (oData o) m wire Hn) as (D1 & D2 & D3); [|done| |done|].
    { eapply Forall_impl; [exact Hl|]. intros x [? _]. done. }
    { intros b Hb. unfold base in Hb. destruct full; [done|]. unfold moved in Hb. destruct (oldOf c o) as [old|] eqn:Eo; [|done].
      cbn in Hb. case_bool_decide as Hk; [|done]. injection Hb as <-. split; [by eapply (Hfit eq_refl l n (oID o))|].
      intros Hd. destruct Hyes as [?|Hyes]; [done|]. apply Hyes. rewrite Eo. f_equal. by apply unchanged_same. }
    apply planned_add; try done.
    + right. split; [done|]. exists (mkChange o m). split_and!; [done..|]. split; cbn [payloadOf chMask chObject].
      * lia.
      * intros l' [= <-]. by rewrite <- Hbase.
      * intros l' n' [= <-]. congruence.
    + cbn. lia.
  - injection H as <-. apply planned_add; try done.
    + right. split; [done|]. exists (mkChange o 0). split_and!; [done..|]. split; cbn; [lia|done|done].
    + cbn. lia.
Qed.

Lemma planAll_spec os : ∀ done a a',
  planned c layout full done a → planAll c layout full os a = Ok a' → planned c layout full (done ++ os) a'.
Proof.
  induction os as [|o os IH]; intros done a a' Hp H; cbn [planAll] in H; [injection H as <-; by rewrite app_nil_r|].
  inv_ok. rewrite cons_middle, app_assoc. eapply IH; [|done]. by eapply planOne_spec.
Qed.
End PlanOne.

(** ** Reading the changes back *)

Definition applyOne (st : applying) (ch : change) : applying :=
  let o := chObject ch in (<[oID o := o]> (fst st), {[oID o]} ∪ snd st).

(** What the replica takes as the baseline of an object. *)
Definition replicaBase (st : applying) (full : bool) (o : Object) : option bytes :=
  match fst st !! oID o with
  | Some old => if negb full && bool_decide (oChunk old = oChunk o) then Some (oData old) else None
  | None => None
  end.

Record acceptable (c : Cursor) (layout : option FieldLayout) (full : bool) (st : applying) (ch : change) : Prop := {
  ac_ok : change_ok c layout full ch;
  ac_object : object_ok (chObject ch) ∧ oID (chObject ch) ≠ 0;
  ac_new : oID (chObject ch) ∉ snd st;
  ac_base : replicaBase st full (chObject ch) = baseOf c full (chObject ch);
  ac_room : Z.of_nat (base.size (fst (applyOne st ch))) ≤ maxObjects
}.

Fixpoint acceptables (c : Cursor) (layout : option FieldLayout) (full : bool) (st : applying) (l : list change) : Prop :=
  match l with
  | [] => True
  | ch :: l' => acceptable c layout full st ch ∧ acceptables c layout full (applyOne st ch) l'
  end.

Lemma acceptables_app c layout full l1 : ∀ st l2,
  acceptables c layout full st (l1 ++ l2) ↔
  acceptables c layout full st l1 ∧ acceptables c layout full (fold_left applyOne l1 st) l2.
Proof. induction l1 as [|ch l1 IH]; intros st l2; cbn; [tauto|]. rewrite IH. tauto. Qed.

Lemma object_eta o : mkObject (oID o) (oChunk o) (oData o) = o.
Proof. by destruct o. Qed.

Section Reading.
Context (c : Cursor) (layout : option FieldLayout) (full : bool).

Lemma parse_object st ch k :
  acceptable c layout full st ch → oChunk (chObject ch) = k →
  parses (applyObject layout full k st) (applyOne st ch) (encodeChange layout ch).
Proof.
  intros [[A1 A2 A3] [[Hid _] Hne] Hnew Hbase Hroom] <-. unfold applyObject, encodeChange. cbn zeta. fold (payloadOf layout ch).
  set (o := chObject ch) in *. zlen_facts.
  parse_step ltac:(apply parses_ple; unfold is_u64 in Hid; exact Hid).
  parse_step ltac:(apply parses_ple; change (2^(8 * Z.of_nat 2)) with 65536; lia).
  apply parses_guard; [apply orb_false_iff; split; [by apply Z.eqb_neq|by apply bool_decide_eq_false]|].
  eapply parses_last; [apply parses_pbytes|].
  eapply (parses_bind _ _ (oData o) _ [] []).
  - destruct layout as [l|]; [|apply parses_ret]. unfold replicaBase in Hbase. fold o in A2. rewrite Hbase, (A2 l eq_refl). apply parses_ret.
  - rewrite object_eta. apply parses_guard; [by apply Z.ltb_ge|apply parses_ret].
Qed.

Lemma parse_objects k l : ∀ st,
  acceptables c layout full st l → Forall (λ ch, oChunk (chObject ch) = k) l →
  parses (applyObjects (length l) layout full k st) (fold_left applyOne l st) (concat (map (encodeChange layout) l)).
Proof.
  induction l as [|ch l IH]; intros st Ha Hk; cbn [length applyObjects fold_left map concat]; [apply parses_ret|].
  destruct Ha as [Ha Ha']. inversion_clear Hk. eapply parses_bind; [by apply parse_object|by apply IH].
Qed.

Lemma span_spec k l g rest :
  span k l = (g, rest) → l = g ++ rest ∧ Forall (λ ch, oChunk (chObject ch) = k) g ∧
  countGroups (Some k) l = countGroups None rest.
Proof.
  revert g rest. induction l as [|ch l IH]; intros g rest H; cbn [span] in H; [by injection H as <- <-|].
  cbn [countGroups]. case_bool_decide as Hk.
  - destruct (span k l) as [g' rest'] eqn:E. injection H as <- <-. destruct (IH _ _ eq_refl) as (-> & Hg & Hc).
    split_and!; [done|by constructor|]. rewrite bool_decide_true by congruence. rewrite Hk. rewrite <- Hc. lia.
  - injection H as <- <-. split_and!; [done|constructor|]. rewrite bool_decide_false by congruence.
    cbn [countGroups]. by rewrite bool_decide_false.
Qed.

Lemma countGroups_range p l : 0 ≤ countGroups p l ≤ zlen l.
Proof.
  revert p. induction l as [|ch l IH]; intros p; cbn [countGroups]; [done|]. rewrite zlen_cons.
  specialize (IH (Some (oChunk (chObject ch)))). case_bool_decide; lia.
Qed.

Lemma i32_u32_ok x : is_i32 x → 0 ≤ u32 x < 2^(8 * Z.of_nat 4) ∧ i32 (u32 x) = x.
Proof. intros Hx. split; [apply u32_range|]. rewrite i32_u32. by apply i32_small. Qed.

Lemma parse_groups fuel : ∀ st l,
  (length l ≤ fuel)%nat → zlen l ≤ maxObjects → acceptables c layout full st l →
  parses (applyGroups (Z.to_nat (countGroups None l)) layout full st) (fold_left applyOne l st) (encodeGroups fuel layout l).
Proof.
  induction fuel as [|f IH]; intros st l Hf Hmax Ha; [destruct l; [apply parses_ret|cbn in Hf; lia]|].
  destruct l as [|ch l]; [apply parses_ret|]. cbn [encodeGroups].
  destruct (span (oChunk (chObject ch)) l) as [g rest] eqn:E. destruct (span_spec _ _ _ _ E) as (-> & Hg & Hc).
  cbn [countGroups]. rewrite bool_decide_false by done. rewrite Hc.
  pose proof (countGroups_range None rest). rewrite Z.add_comm, Z2Nat.inj_add by lia.
  change (Z.to_nat 1) with 1%nat. rewrite Nat.add_1_r. cbn [applyGroups].
  rewrite app_comm_cons, zlen_app in Hmax. zlen_facts.
  rewrite app_comm_cons in Ha |- *. apply acceptables_app in Ha as [Ha Hrest]. rewrite fold_left_app.
  assert (key_ok (oChunk (chObject ch))) as [Hx Hz] by (destruct Ha as [[_ [[_ ?] _] _ _ _] _]; done).
  destruct (i32_u32_ok _ Hx) as [X1 X2], (i32_u32_ok _ Hz) as [Z1 Z2].
  parse_step ltac:(apply parses_ple; exact X1). parse_step ltac:(apply parses_ple; exact Z1).
  rewrite (u32_small (zlen (ch :: g))) by (unfold_int; unfold maxObjects in *; lia).
  parse_step ltac:(apply parses_ple; change (2^(8 * Z.of_nat 4)) with (2^32); unfold maxObjects in *; lia).
  apply parses_guard; [apply Z.ltb_ge; lia|]. rewrite X2, Z2, to_nat_zlen.
  assert (mkKey (kX (oChunk (chObject ch))) (kZ (oChunk (chObject ch))) = oChunk (chObject ch)) as -> by (by destruct (oChunk (chObject ch))).
  eapply parses_bind; [apply parse_objects; [done|by constructor]|].
  apply IH; [rewrite length_cons, length_app in Hf; lia|lia|done].
Qed.

Lemma zlen_objects l : zlen (concat (map (encodeChange layout) l)) = changeBytes layout l.
Proof.
  induction l as [|ch l IH]; [done|]. cbn [map concat changeBytes]. rewrite zlen_app, IH. unfold encodeChange. fold (payloadOf layout ch).
  rewrite !zlen_app, !zlen_le_put. lia.
Qed.

Lemma zlen_groups fuel : ∀ l, (length l ≤ fuel)%nat →
  zlen (encodeGroups fuel layout l) = changeBytes layout l + 12 * countGroups None l.
Proof.
  induction fuel as [|f IH]; intros l Hf; [destruct l; [done|cbn in Hf; lia]|].
  destruct l as [|ch l]; [done|]. cbn [encodeGroups].
  destruct (span (oChunk (chObject ch)) l) as [g rest] eqn:E. destruct (span_spec _ _ _ _ E) as (-> & Hg & Hc).
  cbn [countGroups]. rewrite bool_decide_false, Hc by done. rewrite app_comm_cons, changeBytes_app.
  rewrite !zlen_app, !zlen_le_put, zlen_objects, IH by (rewrite length_cons, length_app in Hf; lia). lia.
Qed.
End Reading.

(** ** The whole frame *)

Definition deleteOne (st : applying) (id : Z) : applying := (delete id (fst st), {[id]} ∪ snd st).

Lemma parse_deletes removed : ∀ st,
  NoDup removed → Forall (λ id, is_u64 id ∧ id ≠ 0) removed → (∀ id, id ∈ removed → id ∉ snd st) →
  parses (applyDeletes (length removed) st) (fold_left deleteOne removed st) (concat (map (le_put 8) removed)).
Proof.
  induction removed as [|id removed IH]; intros st Hnd Hok Hnew; cbn [length applyDeletes fold_left map concat]; [apply parses_ret|].
  inversion_clear Hnd as [|? ? Hni Hnd']. inversion_clear Hok as [|? ? [Hid Hne] Hok'].
  parse_step ltac:(apply parses_ple; unfold is_u64 in Hid; exact Hid).
  apply parses_guard; [apply orb_false_iff; split; [by apply Z.eqb_neq|apply bool_decide_eq_false, Hnew; by left]|].
  apply IH; [done..|]. intros id' Hin. cbn. intros [->%elem_of_singleton|Hs]%elem_of_union; [done|]. eapply Hnew; [|exact Hs]. by right.
Qed.

Lemma zlen_deletes removed : zlen (concat (map (le_put 8) removed)) = 8 * zlen removed.
Proof. induction removed as [|id removed IH]; [done|]. cbn [map concat]. rewrite zlen_app, IH, zlen_le_put, zlen_cons. lia. Qed.

Lemma deletes_lookup removed : ∀ st id,
  (fst (fold_left deleteOne removed st) !! id = if decide (id ∈ removed) then None else fst st !! id) ∧
  (id ∈ snd (fold_left deleteOne removed st) ↔ id ∈ removed ∨ id ∈ snd st).
Proof.
  induction removed as [|x removed IH]; intros st id; cbn [fold_left].
  { split; [by rewrite decide_False by apply not_elem_of_nil|]. split; [auto|]. by intros [?%elem_of_nil|]. }
  destruct (IH (deleteOne st x) id) as [-> ->]. cbn. split; [|set_solver].
  destruct (decide (id ∈ removed)); [by rewrite decide_True by (by right)|].
  destruct (decide (id = x)) as [->|Hne]; [rewrite decide_True by (by left); apply lookup_delete_eq|].
  rewrite lookup_delete_ne, decide_False by set_solver. done.
Qed.

Lemma changes_lookup l : ∀ st,
  NoDup ((λ ch, oID (chObject ch)) <$> l) →
  (∀ ch, ch ∈ l → fst (fold_left applyOne l st) !! oID (chObject ch) = Some (chObject ch)) ∧
  (∀ id, id ∉ ((λ ch, oID (chObject ch)) <$> l) → fst (fold_left applyOne l st) !! id = fst st !! id).
Proof.
  induction l as [|ch l IH]; intros st Hnd; cbn [fold_left]; [split; [by intros ? ?%elem_of_nil|done]|].
  cbn in Hnd. inversion_clear Hnd as [|? ? Hni Hnd']. destruct (IH (applyOne st ch) Hnd') as [I1 I2]. split.
  - intros ch' [->|Hin]%elem_of_cons; [|by apply I1]. rewrite I2 by done. cbn. apply lookup_insert_eq.
  - intros id Hid. cbn in Hid. rewrite I2 by set_solver. cbn. apply lookup_insert_ne. set_solver.
Qed.

Lemma acceptables_intro c layout full (next : gmap Z Object) l : ∀ st,
  NoDup ((λ ch, oID (chObject ch)) <$> l) → Z.of_nat (base.size next) ≤ maxObjects → dom (fst st) ⊆ dom next →
  (∀ ch, ch ∈ l → change_ok c layout full ch ∧ (object_ok (chObject ch) ∧ oID (chObject ch) ≠ 0) ∧ (oID (chObject ch) ∉ snd st) ∧
     replicaBase st full (chObject ch) = baseOf c full (chObject ch) ∧ is_Some (next !! oID (chObject ch))) →
  acceptables c layout full st l.
Proof.
  induction l as [|ch l IH]; intros st Hnd Hsz Hdom Hall; [done|]. cbn [acceptables].
  cbn in Hnd. inversion_clear Hnd as [|? ? Hni Hnd'].
  destruct (Hall ch) as (H1 & H2 & H3 & H4 & H5); [by left|].
  assert (dom (fst (applyOne st ch)) ⊆ dom next) as Hdom'.
  { cbn. rewrite dom_insert_L. apply elem_of_dom in H5. set_solver. }
  split.
  - split; [done..|]. rewrite <- size_dom. apply subseteq_size in Hdom'. rewrite (size_dom next) in Hdom'. lia.
  - apply IH; [done..|]. intros ch' Hin. destruct (Hall ch') as (G1 & G2 & G3 & G4 & G5); [by right|].
    assert (oID (chObject ch') ≠ oID (chObject ch)) as Hne.
    { intros E. apply Hni. rewrite <- E. by apply (list_elem_of_fmap_2 (λ ch, oID (chObject ch))). }
    split_and!; try done; try apply G2.
    + cbn. set_solver.
    + rewrite <- G4. unfold replicaBase. cbn. by rewrite lookup_insert_ne.
Qed.

(** ** One plan, committed and applied *)

(** The replica has the cursor's baseline. *)
Definition follows (c : Cursor) (r : Replica) : Prop :=
  r = mkReplica (cEpoch c) (cSeq c) (cTick c) (cObjects c) (cLayout c).

Definition input_ok (i : Snapshot * option FieldLayout) : Prop :=
  snapshot_ok (fst i) ∧ layout_ok (snd i) ∧ ∀ l, snd i = Some l → is_Some (size l).

(** The objects of a snapshot, by their ids. *)
Definition holds (m : gmap Z Object) (s : Snapshot) : Prop := ∀ id o, m !! id = Some o ↔ o ∈ sObjects s ∧ oID o = id.

Definition fullOf (c : Cursor) (s : Snapshot) (layout : option FieldLayout) : bool :=
  negb (cEpoch c =? sEpoch s) || bool_decide (cObjects c = None) || negb (bool_decide (cLayout c = signatureOf layout)).
Definition removedOf (c : Cursor) (full : bool) (next : gmap Z Object) : list Z :=
  if full then []
  else merge_sort Z.le (filter (λ id, next !! id = None) (map fst (map_to_list (default ∅ (cObjects c))))).

(** What a successful plan is. *)
Record plan_parts (c : Cursor) (s : Snapshot) (layout : option FieldLayout) (p : Plan) (a : planAcc) : Prop := {
  pp_epoch : sEpoch s ≠ 0;
  pp_count : zlen (sObjects s) ≤ maxObjects;
  pp_tick : fullOf c s layout = false → cTick c ≤ sTick s;
  pp_seq : cSeq c ≠ MaxUint64;
  pp_planned : planned c layout (fullOf c s layout) (sObjects s) a;
  pp_bytes : paFrameBytes a + 8 * zlen (removedOf c (fullOf c s layout) (paObjects a)) +
             12 * countGroups None (merge_sort change_le (paChanges a)) ≤ MaxPayload;
  pp_next : plNext p = mkCursor (sEpoch s) (cSeq c + 1) (sTick s) (Some (paObjects a)) (signatureOf layout);
  pp_previous : plPrevious p = cSeq c;
  pp_data : plData p =
    let removed := removedOf c (fullOf c s layout) (paObjects a) in
    let changes := merge_sort change_le (paChanges a) in
    str "RC" ++ [match layout with None => 1 | Some _ => 2 end; if fullOf c s layout then 1 else 0] ++
    le_put 8 (sEpoch s) ++ le_put 8 (cSeq c + 1) ++ le_put 8 (sTick s) ++
    le_put 4 (u32 (zlen removed)) ++ le_put 4 (u32 (countGroups None changes)) ++
    concat (map (le_put 8) removed) ++ encodeGroups (length changes) layout changes
}.

Lemma fits c s layout : cursor_ok c → layout_ok layout → base_fits c layout (fullOf c s layout).
Proof.
  intros Hc Hl Hf l n id old -> Hn Hold. unfold fullOf in Hf. to_prop. destruct Hf as [_ Hsig].
  destruct (cObjects c) as [m|] eqn:E; [|done]. destruct (co_objects c Hc m E) as [_ (layout' & Hl' & Hs & Hlen)].
  rewrite Hs in Hsig. apply signatureOf_inj in Hsig as ->; [|done..]. by apply (Hlen l n eq_refl Hn id).
Qed.

Lemma plan_spec c s layout p :
  cursor_ok c → input_ok (s, layout) → plan c s layout = Ok p → ∃ a, plan_parts c s layout p a.
Proof.
  intros Hc (Hs & Hl & Hsz) H. unfold plan in H. cbv zeta in H. fold (fullOf c s layout) in H.
  destruct ((sEpoch s =? 0) || _) eqn:E1; [done|]. destruct (negb (fullOf c s layout) && _) eqn:E2; [done|].
  destruct (cSeq c =? MaxUint64) eqn:E3; [done|]. apply bind_ok_inv in H as (a & Ea & H).
  fold (removedOf c (fullOf c s layout) (paObjects a)) in H.
  match type of H with (if ?b then _ else _) = _ => destruct b eqn:E4 end; [done|]. apply Ok_inj in H as <-.
  exists a. to_prop. destruct E1. split; try done.
  - intros Hf. rewrite Hf in E2. destruct E2; [done|lia].
  - change (sObjects s) with ([] ++ sObjects s). eapply planAll_spec; [done..|by apply fits|done|apply planned_start|done].
Qed.

Lemma objects_next c s layout p a :
  snapshot_ok s → plan_parts c s layout p a → objects_ok (paObjects a) ∧ holds (paObjects a) s.
Proof.
  intros (_ & _ & Hs) [_ Hcount _ _ [P1 P2 P3 P4 P5 P6] _ _ _ _]. split; [|exact P1]. split.
  - intros id o Hid. apply P1 in Hid as [Hin <-]. split; [done|]. split; [by apply (proj1 (Forall_forall _ _) P2)|].
    by apply (proj1 (Forall_forall _ _) Hs).
  - assert (base.size (paObjects a) ≤ length (sObjects s))%nat; [|unfold zlen in Hcount; lia].
    rewrite <- size_dom, <- (length_fmap oID (sObjects s)).
    rewrite <- (size_list_to_set (C := gset Z) _ P3). apply subseteq_size. intros id [o Ho]%elem_of_dom.
    apply P1 in Ho as [Hin <-]. apply elem_of_list_to_set. by apply list_elem_of_fmap_2.
Qed.

(** A changed object has a change; an unchanged one is in the baseline. *)
Lemma changed_change c layout full done a o :
  planned c layout full done a → o ∈ done → changed c full o → ∃ ch, ch ∈ paChanges a ∧ chObject ch = o.
Proof.
  intros Hp Hin Hch. assert (o ∈ chObject <$> paChanges a) as H by (rewrite (pl_changes _ _ _ _ _ Hp); by apply list_elem_of_filter).
  apply list_elem_of_fmap in H as (ch & -> & ?). by exists ch.
Qed.
Lemma unchanged_old c full o : ¬ changed c full o → full = false ∧ oldOf c o = Some o.
Proof.
  intros H. split; [destruct full; [destruct H; by left|done]|]. destruct (decide (oldOf c o = Some o)) as [?|Hn]; [done|].
  destruct H. by right.
Qed.

Lemma next_cursor_ok c s layout p a :
  cursor_ok c → input_ok (s, layout) → plan_parts c s layout p a → cursor_ok (plNext p).
Proof.
  intros Hc (Hs & Hl & Hsz) Hp. destruct (objects_next c s layout p a Hs Hp) as [Hm Hh]. destruct Hs as (He & Ht & _).
  rewrite (pp_next _ _ _ _ _ Hp). pose proof (pp_seq _ _ _ _ _ Hp) as Hne. pose proof (co_seq c Hc) as Hseq.
  split; cbn [cSeq cEpoch cTick cObjects cLayout]; [unfold_int; lia|done|done|]. intros m [= <-]. split; [done|].
  exists layout. split_and!; [done..|]. intros l n -> Hn id o Ho. apply Hh in Ho as [Hin <-].
  pose proof (pp_planned _ _ _ _ _ Hp) as Hpl. destruct (decide (changed c (fullOf c s (Some l)) o)) as [Hch|Hno].
  - destruct (changed_change _ _ _ _ _ o Hpl Hin Hch) as (ch & Hin' & <-).
    by apply (ck_fields _ _ _ _ (proj1 (Forall_forall _ _) (pl_each _ _ _ _ _ Hpl) ch Hin') l n).
  - apply unchanged_old in Hno as [Hf Hold]. by apply (fits c s (Some l) Hc Hl Hf l n (oID o) o).
Qed.

Lemma removed_in c full next id :
  id ∈ removedOf c full next ↔ full = false ∧ next !! id = None ∧ is_Some (default ∅ (cObjects c) !! id).
Proof.
  unfold removedOf. destruct full; [split; [by intros ?%elem_of_nil|by intros [? _]]|].
  rewrite merge_sort_Permutation, list_elem_of_filter, list_elem_of_fmap. split.
  - intros [Hn ([id' o] & -> & Hin%elem_of_map_to_list)]. cbn in *. eauto.
  - intros (_ & Hn & o & Ho). split; [done|]. exists (id, o). split; [done|]. by apply elem_of_map_to_list.
Qed.

Lemma removed_facts c full next :
  cursor_ok c → NoDup (removedOf c full next) ∧ zlen (removedOf c full next) ≤ maxObjects ∧
  Forall (λ id, is_u64 id ∧ id ≠ 0) (removedOf c full next).
Proof.
  intros Hc. assert (objects_ok (default ∅ (cObjects c))) as [Hm Hsz].
  { destruct (cObjects c) as [m|] eqn:E; [by apply (co_objects c Hc m E)|]. by split. }
  split_and!.
  - unfold removedOf. destruct full; [constructor|]. rewrite merge_sort_Permutation. apply NoDup_filter, NoDup_fst_map_to_list.
  - unfold removedOf. destruct full; [done|]. unfold zlen. rewrite merge_sort_Permutation.
    pose proof (length_filter (λ id, next !! id = None) (map fst (map_to_list (default ∅ (cObjects c))))) as Hle.
    rewrite length_map, length_map_to_list in Hle. lia.
  - apply Forall_forall. intros id (_ & _ & o & Ho)%removed_in. destruct (Hm id o Ho) as (<- & ? & [? _]). done.
Qed.

Lemma NoDup_fmap_filter {A B} (f : A → B) (P : A → Prop) `{∀ x, Decision (P x)} l : NoDup (f <$> l) → NoDup (f <$> filter P l).
Proof.
  induction l as [|x l IH]; cbn [fmap list_fmap]; [by rewrite filter_nil|]. intros Hnd. inversion_clear Hnd as [|? ? Hni Hnd'].
  destruct (decide (P x)); [rewrite filter_cons_True by done|rewrite filter_cons_False by done; by apply IH].
  constructor; [|by apply IH]. intros (y & E & [_ Hin]%list_elem_of_filter)%list_elem_of_fmap. apply Hni. rewrite E. by apply list_elem_of_fmap_2.
Qed.

(** The replica's maps while it applies the frame of a plan. *)
Section Frame.
Context (c : Cursor) (s : Snapshot) (layout : option FieldLayout) (p : Plan) (a : planAcc).
Context (Hc : cursor_ok c) (Hi : input_ok (s, layout)) (Hp : plan_parts c s layout p a).

Let full := fullOf c s layout.
Let removed := removedOf c full (paObjects a).
Let changes := merge_sort change_le (paChanges a).
Let start : applying := (if full then ∅ else default ∅ (cObjects c), ∅).
Let deleted := fold_left deleteOne removed start.

Lemma changes_in ch : ch ∈ changes ↔ ch ∈ paChanges a.
Proof. unfold changes. by rewrite merge_sort_Permutation. Qed.

Lemma changes_object ch : ch ∈ changes → chObject ch ∈ sObjects s ∧ paObjects a !! oID (chObject ch) = Some (chObject ch).
Proof.
  intros Hin%changes_in. pose proof (pp_planned _ _ _ _ _ Hp) as Hpl.
  assert (chObject ch ∈ chObject <$> paChanges a) as H by (by apply list_elem_of_fmap_2).
  rewrite (pl_changes _ _ _ _ _ Hpl) in H. apply list_elem_of_filter in H as [_ H]. split; [done|]. by apply (pl_lookup _ _ _ _ _ Hpl).
Qed.

Lemma changes_nodup : NoDup ((λ ch, oID (chObject ch)) <$> changes).
Proof.
  unfold changes. rewrite merge_sort_Permutation. pose proof (pp_planned _ _ _ _ _ Hp) as Hpl.
  rewrite (list_fmap_compose chObject oID), (pl_changes _ _ _ _ _ Hpl).
  apply NoDup_fmap_filter, (pl_nodup _ _ _ _ _ Hpl).
Qed.

Lemma deleted_lookup id :
  fst deleted !! id = (if full then None else if decide (id ∈ removed) then None else default ∅ (cObjects c) !! id) ∧
  (id ∈ snd deleted ↔ id ∈ removed).
Proof.
  destruct (deletes_lookup removed start id) as [H1 H2]. fold deleted in H1, H2. rewrite H1, H2. cbn.
  split; [|set_solver]. destruct full; [rewrite lookup_empty; by destruct (decide _)|done].
Qed.

(** What stays in the replica's map is in the snapshot. *)
Lemma kept_next id o : fst deleted !! id = Some o → full = false ∧ (default ∅ (cObjects c) !! id = Some o) ∧ is_Some (paObjects a !! id).
Proof.
  rewrite (proj1 (deleted_lookup id)). destruct full eqn:Ef; [done|]. destruct (decide _) as [|Hn]; [done|]. intros Ho. split_and!; [done..|].
  destruct (paObjects a !! id) eqn:E; [done|]. destruct Hn. unfold removed. apply removed_in. by eauto.
Qed.
Lemma next_kept id o : full = false → paObjects a !! id = Some o → fst deleted !! id = default ∅ (cObjects c) !! id.
Proof.
  intros Hf Hn. rewrite (proj1 (deleted_lookup id)), Hf. rewrite decide_False; [done|]. intros (_ & Hr & _)%removed_in. congruence.
Qed.

Lemma oldOf_default o : oldOf c o = default ∅ (cObjects c) !! oID o.
Proof. unfold oldOf. destruct (cObjects c); cbn; [done|]. by rewrite lookup_empty. Qed.

Lemma frame_acceptable : acceptables c layout full deleted changes.
Proof.
  destruct Hi as ((He & Ht & Hs) & _ & _). destruct (objects_next c s layout p a) as [[Hm Hsz] Hh]; [done..|].
  apply (acceptables_intro _ _ _ (paObjects a)); [apply changes_nodup|done| |].
  { intros id [o Ho]%elem_of_dom. apply elem_of_dom. by destruct (kept_next id o Ho) as (_ & _ & ?). }
  intros ch Hin. destruct (changes_object ch Hin) as [Ho Hn]. pose proof (pp_planned _ _ _ _ _ Hp) as Hpl.
  destruct (Hm _ _ Hn) as (_ & Hne & Hok). split_and!; [|done..| | |done].
  - apply (proj1 (Forall_forall _ _) (pl_each _ _ _ _ _ Hpl)). by apply changes_in.
  - rewrite (proj2 (deleted_lookup _)). intros (_ & Hr & _)%removed_in. congruence.
  - unfold replicaBase, baseOf. assert (full = true ∨ full = false) as [Ef|Ef] by (destruct full; auto); rewrite Ef.
    { by destruct (fst deleted !! _). }
    rewrite (next_kept _ _ Ef Hn), <- oldOf_default. done.
Qed.

Lemma frame_objects : fst (fold_left applyOne changes deleted) = paObjects a.
Proof.
  destruct (changes_lookup changes deleted changes_nodup) as [C1 C2]. apply map_eq. intros id.
  destruct (decide (id ∈ (λ ch, oID (chObject ch)) <$> changes)) as [(ch & -> & Hin)%list_elem_of_fmap|Hni].
  { rewrite C1 by done. symmetry. by apply changes_object. }
  rewrite C2 by done. pose proof (pp_planned _ _ _ _ _ Hp) as Hpl. destruct (paObjects a !! id) as [o|] eqn:E.
  - pose proof E as [Hin <-]%(pl_lookup _ _ _ _ _ Hpl). destruct (decide (changed c full o)) as [Hch|Hno].
    + destruct Hni. destruct (changed_change _ _ _ _ _ o Hpl Hin Hch) as (ch & Hin' & <-).
      apply (list_elem_of_fmap_2 (λ ch, oID (chObject ch))). by apply changes_in.
    + apply unchanged_old in Hno as [Hf Hold]. by rewrite (next_kept _ o), <- oldOf_default.
  - destruct (fst deleted !! id) as [o|] eqn:E'; [|done]. apply kept_next in E' as (_ & _ & [x Hx]). congruence.
Qed.

Lemma frame_counts : zlen changes ≤ maxObjects ∧ 0 ≤ countGroups None changes ≤ maxObjects.
Proof.
  assert (zlen changes ≤ zlen (sObjects s)) as H.
  { unfold zlen, changes. rewrite merge_sort_Permutation, <- (length_fmap chObject (paChanges a)).
    rewrite (pl_changes _ _ _ _ _ (pp_planned _ _ _ _ _ Hp)). pose proof (length_filter (changed c (fullOf c s layout)) (sObjects s)). lia. }
  pose proof (countGroups_range None changes). pose proof (pp_count _ _ _ _ _ Hp). lia.
Qed.

Lemma frame_length : 36 ≤ zlen (plData p) ≤ MaxPayload.
Proof.
  pose proof (pp_bytes _ _ _ _ _ Hp) as Hb. rewrite (pl_bytes _ _ _ _ _ (pp_planned _ _ _ _ _ Hp)) in Hb.
  fold full in Hb. fold removed changes in Hb. rewrite (pp_data _ _ _ _ _ Hp). cbv zeta. fold full. fold removed changes.
  rewrite !zlen_app, !zlen_le_put, zlen_deletes, zlen_groups by done.
  assert (changeBytes layout changes = changeBytes layout (paChanges a)) as -> by (apply changeBytes_Permutation, merge_sort_Permutation).
  change (zlen (str "RC")) with 2. change (zlen [match layout with None => 1 | Some _ => 2 end; if full then 1 else 0]) with 2.
  pose proof frame_counts. zlen_facts. pose proof (changeBytes_nonneg layout (paChanges a)). lia.
Qed.

Lemma frame_header r : follows c r →
  parses (if full then pguard (negb (zlen removed =? 0)) ErrText
          else pguard (negb (bool_decide (rpLayout r = signatureOf layout)) || bool_decide (rpObjects r = None) ||
                    negb (sEpoch s =? rpEpoch r) || negb (cSeq c + 1 =? u64 (rpSequence r + 1)) || (sTick s <? rpTick r)) ErrSequence) tt [].
Proof.
  intros ->. pose proof (co_seq c Hc) as Hseq. pose proof (pp_seq _ _ _ _ _ Hp) as Hmax. unfold is_u64, MaxUint64 in *.
  destruct full eqn:Ef; apply parses_pguard.
  - done.
  - cbn. unfold full, fullOf in Ef. pose proof (pp_tick _ _ _ _ _ Hp Ef) as Htick. to_prop. destruct Ef as [[He Hobj] Hsig].
    rewrite u64_small by (unfold is_u64; lia). done.
Qed.

Lemma frame_body r : follows c r →
  parses_all (applyBody r layout full)
    (mkReplica (sEpoch s) (cSeq c + 1) (sTick s) (Some (paObjects a)) (signatureOf layout))
    (le_put 8 (sEpoch s) ++ le_put 8 (cSeq c + 1) ++ le_put 8 (sTick s) ++
     le_put 4 (u32 (zlen removed)) ++ le_put 4 (u32 (countGroups None changes)) ++
     concat (map (le_put 8) removed) ++ encodeGroups (length changes) layout changes).
Proof.
  intros ->. destruct Hi as ((He & Ht & Hs) & Hl & _). pose proof frame_counts as [Hn Hg].
  destruct (removed_facts c full (paObjects a) Hc) as (Hnd & Hr & Hok). fold removed in Hnd, Hr, Hok. zlen_facts.
  pose proof (co_seq c Hc) as Hseq. pose proof (pp_seq _ _ _ _ _ Hp) as Hmax. pose proof (pp_epoch _ _ _ _ _ Hp) as He0.
  rewrite !u32_small by (unfold is_u32, maxObjects in *; lia). unfold is_u64, MaxUint64 in *. unfold applyBody.
  parse_all_step ltac:(apply parses_ple; exact He). parse_all_step ltac:(apply parses_ple; change (2^(8 * Z.of_nat 8)) with (2^64); lia).
  parse_all_step ltac:(apply parses_ple; exact Ht).
  do 2 parse_all_step ltac:(apply parses_ple; change (2^(8 * Z.of_nat 4)) with (2^32); unfold maxObjects in *; lia).
  apply parses_all_guard.
  { rewrite !orb_false_iff, !Z.eqb_neq, !Z.ltb_ge. lia. }
  eapply (parses_all_bind _ _ tt _ []); [by apply frame_header|]. rewrite to_nat_zlen.
  eapply parses_all_bind; [apply parse_deletes; [done..|intros id _; apply not_elem_of_empty]|].
  fold start deleted. rewrite <- (app_nil_r (encodeGroups _ _ _)).
  eapply parses_all_bind; [apply (parse_groups c); [done..|apply frame_acceptable]|].
  apply parses_all_end. by rewrite <- frame_objects.
Qed.

(** The replica accepts the frame and has the cursor's next baseline. *)
Lemma apply_frame r : follows c r → follows (plNext p) (fst (apply r (plData p) layout)) ∧ snd (apply r (plData p) layout) = None.
Proof.
  intros Hf. pose proof frame_length as Hlen. pose proof (frame_body r Hf) as Hbody. unfold follows. rewrite (pp_next _ _ _ _ _ Hp).
  rewrite (pp_data _ _ _ _ _ Hp) in Hlen |- *. cbv zeta in *. fold full in Hlen |- *. fold removed changes in Hlen |- *.
  set (body := le_put 8 (sEpoch s) ++ _) in *.
  change (str "RC" ++ [?v; ?f] ++ body) with (82 :: 67 :: v :: f :: body) in *. unfold apply.
  destruct (Z.ltb_spec MaxPayload (zlen (82 :: 67 :: (match layout with None => 1 | Some _ => 2 end) :: (if full then 1 else 0) :: body))); [lia|].
  destruct (Z.ltb_spec (zlen (82 :: 67 :: (match layout with None => 1 | Some _ => 2 end) :: (if full then 1 else 0) :: body)) 36); [lia|].
  rewrite bool_decide_true, Z.eqb_refl by done. cbn [orb negb].
  assert ((1 <? (if full then 1 else 0)) = false) as -> by (by destruct full).
  assert (((if full then 1 else 0) =? 1) = full) as -> by (by destruct full).
  unfold parses_all in Hbody. by rewrite Hbody.
Qed.
End Frame.

(** ** Streams *)

(** The sender plans with [Plan] or [PlanFields] and the receiver applies
    with [Apply] or [ApplyFields]. *)
Definition planFor (c : Cursor) (s : Snapshot) (layout : option FieldLayout) : result ChunkErr Plan :=
  match layout with None => PlanFull c s | Some l => PlanFields c s l end.
Definition applyFor (r : Replica) (data : bytes) (layout : option FieldLayout) : Replica * option ChunkErr :=
  match layout with None => Apply r data | Some l => ApplyFields r data l end.

(** A snapshot sent over a reliable connection: planned, applied, committed.
    A snapshot that cannot be planned is skipped. *)
Definition exchange (st : Cursor * Replica) (i : Snapshot * option FieldLayout) : Cursor * Replica :=
  match planFor (fst st) (fst i) (snd i) with
  | Err _ => st
  | Ok p => (fst (Commit (fst st) (Some p)), fst (applyFor (snd st) (plData p) (snd i)))
  end.

Definition sendable (i : Snapshot * option FieldLayout) : Prop := snapshot_ok (fst i) ∧ layout_ok (snd i).

Lemma planFor_plan c s layout p : sendable (s, layout) → planFor c s layout = Ok p →
  plan c s layout = Ok p ∧ input_ok (s, layout) ∧ ∀ r, applyFor r (plData p) layout = apply r (plData p) layout.
Proof.
  intros [Hs Hl] H. destruct layout as [l|]; cbn in *; [|split_and!; try done; split_and!; done].
  unfold PlanFields, ApplyFields in *. destruct (size l) as [n|] eqn:E; [|done]. split_and!; [done| |done].
  split_and!; [done..|]. intros l' [= <-]. eauto.
Qed.

(** One frame, from a followed cursor. *)
Lemma exchange_step c r s layout p :
  cursor_ok c → follows c r → sendable (s, layout) → planFor c s layout = Ok p →
  cursor_ok (plNext p) ∧ Commit c (Some p) = (plNext p, None) ∧
  ∃ r' m, applyFor r (plData p) layout = (r', None) ∧ follows (plNext p) r' ∧
    plNext p = mkCursor (sEpoch s) (cSeq c + 1) (sTick s) (Some m) (signatureOf layout) ∧ holds m s.
Proof.
  intros Hc Hf Hs H. destruct (planFor_plan _ _ _ _ Hs H) as (Hplan & Hi & Happly).
  destruct (plan_spec _ _ _ _ Hc Hi Hplan) as [a Hp]. split_and!.
  - by eapply next_cursor_ok.
  - cbn. by rewrite (pp_previous _ _ _ _ _ Hp), Z.eqb_refl.
  - destruct (apply_frame c s layout p a Hc Hi Hp r Hf) as [H1 H2]. exists (fst (apply r (plData p) layout)), (paObjects a).
    split_and!; [|done|apply (pp_next _ _ _ _ _ Hp)|apply (objects_next c s layout p a); [apply Hs|done]].
    rewrite Happly. by destruct (apply _ _ _); cbn in *; subst.
Qed.

Lemma exchanges_follow inputs : ∀ c r,
  Forall sendable inputs → cursor_ok c → follows c r →
  let st := fold_left exchange inputs (c, r) in cursor_ok (fst st) ∧ follows (fst st) (snd st).
Proof.
  induction inputs as [|[s layout] inputs IH]; intros c r Hall Hc Hf; cbn [fold_left]; [done|]. inversion_clear Hall as [|? ? Hs Hall'].
  unfold exchange at 2 4 6. cbn [fst snd]. destruct (planFor c s layout) as [p|e] eqn:E; [|by apply IH].
  destruct (exchange_step c r s layout p Hc Hf Hs E) as (Hc' & HC & r' & m & Ha & Hf' & _). rewrite HC, Ha. by apply IH.
Qed.

Lemma zero_ok : cursor_ok zeroCursor ∧ follows zeroCursor zeroReplica.
Proof. split; [|done]. split; done. Qed.

(** C34. The replica follows the snapshots.  After any sequence of snapshots
    sent over one connection, with or without field layouts and with those
    that cannot be planned skipped, a plan the cursor makes is accepted by
    the replica without an error and by [Commit], and then the replica holds
    exactly the snapshot: its epoch, its tick and its objects with their
    chunks and data, although the frame holds only what changed. *)
Theorem replica_follows inputs s layout p :
  Forall sendable inputs → sendable (s, layout) →
  let c := fst (fold_left exchange inputs (zeroCursor, zeroReplica)) in
  let r := snd (fold_left exchange inputs (zeroCursor, zeroReplica)) in
  planFor c s layout = Ok p →
  snd (Commit c (Some p)) = None ∧
  ∃ r' m, applyFor r (plData p) layout = (r', None) ∧
    rpEpoch r' = sEpoch s ∧ rpTick r' = sTick s ∧ rpSequence r' = cSeq c + 1 ∧ rpObjects r' = Some m ∧
    ∀ id o, m !! id = Some o ↔ o ∈ sObjects s ∧ oID o = id.
Proof.
  intros Hin Hs c r H. destruct zero_ok as [Hc0 Hf0]. destruct (exchanges_follow inputs _ _ Hin Hc0 Hf0) as [Hc Hf].
  destruct (exchange_step c r s layout p Hc Hf Hs H) as (_ & -> & r' & m & Ha & Hf' & Hn & Hm). split; [done|].
  exists r', m. unfold follows in Hf'. rewrite Hn in Hf'. cbn in Hf'. by subst r'.
Qed.

(** An object whose second field changes, one that moves to another chunk,
    and one that disappears. *)
Definition demoLayout : FieldLayout := [1; 2].
Definition demoFirst : Snapshot := mkSnapshot 1 10
  [mkObject 1 (mkKey 0 0) [7; 8; 9]; mkObject 2 (mkKey 0 (-1)) [1; 2; 3]; mkObject 3 (mkKey 0 0) [0; 0; 0]].
Definition demoSecond : Snapshot := mkSnapshot 1 11 [mkObject 1 (mkKey 0 0) [7; 5; 5]; mkObject 2 (mkKey 4 4) [1; 2; 3]].
Definition demoCursor : Cursor := fst (fold_left exchange [(demoFirst, Some demoLayout)] (zeroCursor, zeroReplica)).
Definition demoPlan : Plan := match planFor demoCursor demoSecond (Some demoLayout) with Ok p => p | Err _ => mkPlan [] 0 zeroCursor end.

Lemma demo_sendable : Forall sendable [(demoFirst, Some demoLayout)] ∧ sendable (demoSecond, Some demoLayout).
Proof.
  split; [apply Forall_singleton|]; split; cbn; unfold snapshot_ok, is_u64; cbn; repeat constructor; cbn; try lia.
Qed.

Lemma replica_follows_witness :
  zlen (plData demoPlan) = 95 ∧ snd (Commit demoCursor (Some demoPlan)) = None.
Proof.
  split; [vm_compute; reflexivity|]. destruct demo_sendable as [H1 H2].
  apply (replica_follows [(demoFirst, Some demoLayout)] demoSecond (Some demoLayout) demoPlan H1 H2). vm_compute. reflexivity.
Defined.

(** ** Frames from anywhere *)

Lemma decodeLoop_len l : ∀ i offset m out payload d,
  Forall (λ x, 0 ≤ x) l → 0 ≤ offset → offset + total l ≤ zlen out → decodeLoop l i offset m out payload = Some d → zlen d = zlen out.
Proof.
  induction l as [|n l IH]; intros i offset m out payload d Hl Ho Ht H; cbn [decodeLoop total] in *; [destruct (_ =? _); congruence|].
  inversion_clear Hl as [|? ? Hn Hl']. pose proof (total_nonneg l Hl'). destruct (Z.testbit m i).
  - destruct (Z.ltb_spec (zlen payload) n); [done|].
    assert (zlen (ztake offset out ++ ztake n payload ++ zdrop (offset + n) out) = zlen out) as E.
    { rewrite !zlen_app, !zlen_ztake, zlen_zdrop by lia. lia. }
    apply IH in H; [congruence|done|lia|lia].
  - apply IH in H; [done|done|lia|lia].
Qed.

Lemma decode_len l n old payload d : size l = Some n → Forall is_u16 l → decode l old payload = Some d → zlen d = n.
Proof.
  intros Hs Hl. assert (Forall (λ x, 0 ≤ x) l) as Hl' by (eapply Forall_impl; [exact Hl|]; by intros x [? _]).
  destruct (size_facts l n Hs Hl') as (Hn & Hpos & _). unfold decode. rewrite Hs. destruct payload as [|m fields]; [done|].
  set (out := match old with Some o => o | None => replicate (Z.to_nat n) 0 end).
  destruct ((m =? 0) || _ || _) eqn:E; [done|]. intros H.
  assert (zlen out = n) as Hout.
  { unfold out. apply orb_false_iff in E as [_ E]. destruct old as [o|]; [by apply negb_false_iff, Z.eqb_eq in E|]. rewrite zlen_replicate. lia. }
  apply decodeLoop_len in H; [congruence|done|lia|lia].
Qed.

(** The length of an object's data. *)
Definition data_ok (layout : option FieldLayout) (d : bytes) : Prop :=
  match layout with None => zlen d ≤ 65535 | Some l => size l = Some (zlen d) end.
Definition baseline_ok (layout : option FieldLayout) (m : gmap Z Object) : Prop :=
  objects_ok m ∧ map_Forall (λ _ o, data_ok layout (oData o)) m.

Record replica_ok (r : Replica) : Prop := {
  ro_objects : ∀ m, rpObjects r = Some m → ∃ layout, layout_ok layout ∧ rpLayout r = signatureOf layout ∧ baseline_ok layout m;
  ro_header : ∀ m, rpObjects r = Some m → is_u64 (rpEpoch r) ∧ rpEpoch r ≠ 0 ∧ is_u64 (rpSequence r) ∧ rpSequence r ≠ 0 ∧ is_u64 (rpTick r)
}.

Section Receiving.
Context (layout : option FieldLayout) (full : bool).
Context (Hl : layout_ok layout) (Hsize : ∀ l, layout = Some l → is_Some (size l)).

Definition keeps (p : parser ChunkErr applying) : Prop := reads p (λ st _, baseline_ok layout (fst st)).

Lemma baseline_delete m id : baseline_ok layout m → baseline_ok layout (delete id m).
Proof.
  intros [[Hm Hs] Hd]. split; [split|]; [by apply map_Forall_delete| |by apply map_Forall_delete].
  assert (base.size (delete id m) ≤ base.size m)%nat; [|lia]. rewrite <- !size_dom. apply subseteq_size. rewrite dom_delete_L. set_solver.
Qed.

Lemma keeps_deletes n : ∀ st, baseline_ok layout (fst st) → keeps (applyDeletes n st).
Proof.
  induction n as [|n IH]; intros st Hst; cbn [applyDeletes]; [by apply reads_ret|].
  eapply reads_bind; [apply reads_ple|]. intros id s1 _. apply reads_guard. intros _. apply IH. by apply baseline_delete.
Qed.

Lemma reads_payload id k (st : applying) payload :
  zlen payload ≤ 65535 →
  reads (match layout with
         | None => mret payload
         | Some l =>
             let base := match fst st !! id with
                         | Some old => if negb full && bool_decide (oChunk old = k) then Some (oData old) else None
                         | None => None
                         end in
             match decode l base payload with Some decoded => mret decoded | None => pfail ErrText end
         end) (λ d _, data_ok layout d).
Proof.
  intros Hp. destruct layout as [l|]; [|by apply reads_ret]. cbv zeta. destruct (decode l _ payload) as [d|] eqn:E; [|by intros s x rest _ H].
  apply reads_ret. destruct (Hsize l eq_refl) as [n Hn]. cbn. by rewrite (decode_len _ _ _ _ _ Hn Hl E).
Qed.

Lemma keeps_object k st : key_ok k → baseline_ok layout (fst st) → keeps (applyObject layout full k st).
Proof.
  intros Hk [[Hm Hs] Hd]. unfold applyObject. eapply reads_bind; [apply reads_ple|]. intros id s1 [_ Hid].
  eapply reads_bind; [apply reads_ple|]. intros len s2 [_ Hlen]. apply reads_guard. intros Hg. apply orb_false_iff in Hg as [Hne _].
  apply Z.eqb_neq in Hne. change (2^(8 * Z.of_nat 2)) with 65536 in Hlen.
  eapply reads_bind; [apply reads_pbytes; lia|]. intros payload s3 (_ & Hp & _).
  eapply reads_bind; [apply reads_payload; lia|]. intros d s4 Hdata. cbn beta in Hdata. apply reads_guard. intros Hroom. apply Z.ltb_ge in Hroom.
  apply reads_ret. split; [split|]; [|exact Hroom|].
  - apply map_Forall_insert_2; [|done]. split_and!; [done..|]. split; [exact Hid|done].
  - by apply map_Forall_insert_2.
Qed.

Lemma keeps_objects k n : ∀ st, key_ok k → baseline_ok layout (fst st) → keeps (applyObjects n layout full k st).
Proof.
  induction n as [|n IH]; intros st Hk Hst; cbn [applyObjects]; [by apply reads_ret|].
  eapply reads_bind; [by apply keeps_object|]. intros st' s1 Hst'. by apply IH.
Qed.

Lemma i32_is x : is_i32 (i32 x).
Proof. apply i32_range. Qed.

Lemma keeps_groups n : ∀ st, baseline_ok layout (fst st) → keeps (applyGroups n layout full st).
Proof.
  induction n as [|n IH]; intros st Hst; cbn [applyGroups]; [by apply reads_ret|].
  do 3 (eapply reads_bind; [apply reads_ple|]; intros ? ? _). apply reads_guard. intros _.
  eapply reads_bind; [apply keeps_objects; [split; apply i32_is|done]|]. intros st' ? Hst'. by apply IH.
Qed.

Lemma applyBody_ok r : replica_ok r → reads (applyBody r layout full) (λ r' _, replica_ok r').
Proof.
  intros Hr. unfold applyBody.
  eapply reads_bind; [apply reads_ple|]. intros epoch ? [_ He]. eapply reads_bind; [apply reads_ple|]. intros seq ? [_ Hseq].
  eapply reads_bind; [apply reads_ple|]. intros tick ? [_ Ht]. do 2 (eapply reads_bind; [apply reads_ple|]; intros ? ? _).
  apply reads_guard. intros Hg. rewrite !orb_false_iff, !Z.eqb_neq in Hg. destruct Hg as [[[He0 Hs0] _] _].
  eapply reads_bind; [apply reads_pguard_if|]. intros [] ? Hdelta. cbn beta in Hdelta.
  assert (baseline_ok layout (if full then ∅ else default ∅ (rpObjects r))) as Hstart.
  { destruct full; [by split|]. to_prop. destruct Hdelta as [[[[Hsig Hobj] _] _] _].
    destruct (rpObjects r) as [m|] eqn:E; [|done]. destruct (ro_objects r Hr m E) as (layout' & Hl' & Hs' & Hm).
    rewrite Hs' in Hsig. by apply signatureOf_inj in Hsig as ->. }
  eapply reads_bind; [by apply keeps_deletes|]. intros st ? Hst. eapply reads_bind; [by apply keeps_groups|]. intros st' ? Hst'.
  eapply reads_bind; [apply reads_premaining|]. intros len ? _. apply reads_guard. intros _. apply reads_ret.
  split; cbn [rpObjects rpEpoch rpSequence rpTick rpLayout]; intros m [= <-]; [by exists layout|]. by split_and!.
Qed.
End Receiving.

Lemma applyFor_ok r data layout : byte_list data → layout_ok layout → replica_ok r → replica_ok (fst (applyFor r data layout)).
Proof.
  intros Hd Hl Hr. assert (∀ lay, lay = layout → (∀ l, lay = Some l → is_Some (size l)) → replica_ok (fst (apply r data lay))) as Happly.
  { intros lay -> Hsz. unfold apply. destruct data as [|m1 [|m2 [|v [|kind body]]]]; [done..|]. destruct (_ || _); [done|].
    destruct (applyBody r layout (kind =? 1) body) as [[r' rest]|] eqn:E; [|done].
    do 4 (apply Forall_cons in Hd as [_ Hd]). by destruct (applyBody_ok layout (kind =? 1) Hl Hsz r Hr body r' rest Hd E) as (used & _ & ?). }
  destruct layout as [l|]; cbn; [|by apply Happly]. unfold ApplyFields. destruct (size l) eqn:E; [|done]. apply Happly; [done|].
  intros l' [= <-]. eauto.
Qed.

(** No frame breaks a replica.  Whatever bytes arrive, with whatever
    layouts, in whatever order, the replica's baseline holds at most
    [maxObjects] objects, each stored under its own nonzero id and with data
    of the length the layout prescribes (at most 65535 bytes without one);
    the epoch and the sequence are nonzero 64-bit numbers. *)
Theorem replica_wellformed frames :
  Forall (λ f, byte_list (fst f) ∧ layout_ok (snd f)) frames →
  let r := fold_left (λ r f, fst (applyFor r (fst f) (snd f))) frames zeroReplica in
  ∀ m, rpObjects r = Some m →
  Z.of_nat (base.size m) ≤ maxObjects ∧ is_u64 (rpEpoch r) ∧ rpEpoch r ≠ 0 ∧ is_u64 (rpSequence r) ∧ rpSequence r ≠ 0 ∧
  ∃ layout, rpLayout r = signatureOf layout ∧ ∀ id o, m !! id = Some o → oID o = id ∧ id ≠ 0 ∧ object_ok o ∧ data_ok layout (oData o).
Proof.
  intros Hall r m Hm. assert (replica_ok r) as Hr.
  { unfold r. assert (replica_ok zeroReplica) as H0 by (by split). revert H0 Hall. clear. generalize zeroReplica.
    induction frames as [|f frames IH]; intros r H0 Hall; cbn [fold_left]; [done|]. inversion_clear Hall as [|? ? [? ?] ?].
    apply IH; [by apply applyFor_ok|done]. }
  destruct (ro_header r Hr m Hm) as (? & ? & ? & ? & _). destruct (ro_objects r Hr m Hm) as (layout & _ & Hs & [[Hobj Hsz] Hd]).
  split_and!; try done. exists layout. split; [done|]. intros id o Ho. destruct (Hobj id o Ho) as (? & ? & ?). split_and!; try done.
  by apply (Hd id o).
Qed.

(** A full frame with one object, then its bytes with a wrong sequence. *)
Definition demoFull : bytes :=
  str "RC" ++ [1; 1] ++ le_put 8 7 ++ le_put 8 1 ++ le_put 8 3 ++ le_put 4 0 ++ le_put 4 1 ++
  le_put 4 0 ++ le_put 4 5 ++ le_put 4 1 ++ le_put 8 9 ++ le_put 2 1 ++ [42].
Definition demoFrames : list (bytes * option FieldLayout) := [(demoFull, None); ([1; 2], None); (demoFull, Some [1])].

Lemma replica_wellformed_witness :
  ∃ m, rpObjects (fold_left (λ r f, fst (applyFor r (fst f) (snd f))) demoFrames zeroReplica) = Some m ∧ Z.of_nat (base.size m) ≤ maxObjects.
Proof.
  eexists. split; [vm_compute; reflexivity|]. apply (replica_wellformed demoFrames); [|vm_compute; reflexivity].
  assert (byte_list demoFull) as H by (vm_compute; repeat constructor; discriminate).
  apply Forall_cons. split; [by split|]. apply Forall_cons. split.
  { split; [|done]. vm_compute. repeat constructor; discriminate. }
  apply Forall_singleton. split; [done|]. vm_compute. repeat constructor; discriminate.
Defined.
