(* ===== verification/FrameCodec.v ===== *)
(** * The frames of entity synchronization (framework/sync/frame)

    Frames of object deltas, their limits and their binary format:
    frame_limits.go and codec.go.  A nil slice and an empty one are the same
    list. *)

From S2P Require Import Prelude Bytes Parse.

(** ** Frames *)

Definition ProtocolVersion : Z := 1.
Definition frameMagic : Z := 0x43525031.

Inductive FrameErr : Type :=
| ErrInvalidObjectRef | ErrObjectLimit | ErrComponentLimit | ErrComponentTooLarge
| ErrFrameTooLarge | ErrInvalidFrame | ErrBaselineMismatch.
#[export] Instance FrameErr_eq_dec : EqDecision FrameErr.
Proof. solve_decision. Defined.

Record Limits := mkLimits {
  MaxObjects : Z;
  MaxComponentsPerObject : Z;
  MaxComponentBytes : Z;
  MaxFrameBytes : Z
}.
Definition DefaultLimits : Limits := mkLimits 100 64 (64 * 2^10) (4 * 2^20).
Definition normalizeLimits (limits : Limits) : Limits :=
  let or_ n d := if n <=? 0 then d else n in
  mkLimits (or_ (MaxObjects limits) (MaxObjects DefaultLimits))
           (or_ (MaxComponentsPerObject limits) (MaxComponentsPerObject DefaultLimits))
           (or_ (MaxComponentBytes limits) (MaxComponentBytes DefaultLimits))
           (or_ (MaxFrameBytes limits) (MaxFrameBytes DefaultLimits)).

Record ObjectRef := mkRef { ID : Z; Generation : Z }.
#[export] Instance ObjectRef_eq_dec : EqDecision ObjectRef.
Proof. solve_decision. Defined.
#[export] Instance ObjectRef_countable : Countable ObjectRef.
Proof. refine (inj_countable' (λ r, (ID r, Generation r)) (λ p, mkRef (fst p) (snd p)) _). by intros []. Defined.
Definition Valid (r : ObjectRef) : bool := negb (ID r =? 0) && negb (Generation r =? 0).

Record SnapshotMeta := mkMeta { StreamID : Z; Epoch : Z; Tick : Z; SchemaVersion : Z }.
Definition validateMeta (m : SnapshotMeta) : result FrameErr unit :=
  guard_err ((StreamID m =? 0) || (Epoch m =? 0) || (Tick m =? 0) || (SchemaVersion m =? 0)) ErrInvalidFrame.

(** [Kind], [ObjectOperation] and [ComponentOperation] are bytes. *)
Definition Full : Z := 1.
Definition Delta : Z := 2.
Definition ObjectCreate : Z := 1.
Definition ObjectRemove : Z := 3.
Definition ComponentSet : Z := 1.
Definition ComponentRemove : Z := 2.

Record ComponentDelta := mkComponent { cOperation : Z; cTypeID : Z; cSchemaVersion : Z; cData : bytes }.
Record ObjectDelta := mkObjectDelta { oOperation : Z; oRef : ObjectRef; oArchetype : Z; oComponents : list ComponentDelta }.
Record Frame := mkFrame { fMeta : SnapshotMeta; fKind : Z; fBaseTick : Z; fObjects : list ObjectDelta }.

(** ** Validation *)

Fixpoint validateComponents (limits : Limits) (obj : ObjectDelta) (seen : gset Z) (cs : list ComponentDelta) : result FrameErr unit :=
  match cs with
  | [] => Ok tt
  | c :: cs' =>
      _ ← guard_err ((cTypeID c =? 0) || (cOperation c <? ComponentSet) || (ComponentRemove <? cOperation c)) ErrInvalidFrame;
      _ ← guard_err (bool_decide (cTypeID c ∈ seen)) ErrInvalidFrame;
      _ ← guard_err ((oOperation obj =? ObjectCreate) && negb (cOperation c =? ComponentSet)) ErrInvalidFrame;
      _ ← guard_err ((cOperation c =? ComponentSet) && (cSchemaVersion c =? 0)) ErrInvalidFrame;
      _ ← guard_err ((cOperation c =? ComponentRemove) && (negb (cSchemaVersion c =? 0) || negb (zlen (cData c) =? 0))) ErrInvalidFrame;
      _ ← guard_err (MaxComponentBytes limits <? zlen (cData c)) ErrComponentTooLarge;
      validateComponents limits obj ({[cTypeID c]} ∪ seen) cs'
  end.

Fixpoint validateObjects (limits : Limits) (frame : Frame) (seen : gset ObjectRef) (os : list ObjectDelta) : result FrameErr unit :=
  match os with
  | [] => Ok tt
  | o :: os' =>
      _ ← guard_err (negb (Valid (oRef o))) ErrInvalidObjectRef;
      _ ← guard_err ((oOperation o <? ObjectCreate) || (ObjectRemove <? oOperation o)) ErrInvalidFrame;
      _ ← guard_err (bool_decide (oRef o ∈ seen)) ErrInvalidFrame;
      _ ← guard_err ((fKind frame =? Full) && negb (oOperation o =? ObjectCreate)) ErrInvalidFrame;
      _ ← guard_err ((oOperation o =? ObjectCreate) && (oArchetype o =? 0)) ErrInvalidObjectRef;
      _ ← guard_err ((oOperation o =? ObjectRemove) && (0 <? zlen (oComponents o))) ErrInvalidFrame;
      _ ← guard_err (i64 (MaxComponentsPerObject limits * 2) <? zlen (oComponents o)) ErrComponentLimit;
      _ ← validateComponents limits o ∅ (oComponents o);
      validateObjects limits frame ({[oRef o]} ∪ seen) os'
  end.

Definition validateFrame (frame : Frame) (limits : Limits) : result FrameErr unit :=
  _ ← validateMeta (fMeta frame);
  _ ← guard_err (negb (fKind frame =? Full) && negb (fKind frame =? Delta)) ErrInvalidFrame;
  _ ← guard_err ((fKind frame =? Full) && negb (fBaseTick frame =? 0)) ErrInvalidFrame;
  _ ← guard_err ((fKind frame =? Delta) && ((fBaseTick frame =? 0) || (Tick (fMeta frame) <=? fBaseTick frame))) ErrBaselineMismatch;
  _ ← guard_err (i64 (MaxObjects limits * 2) <? zlen (fObjects frame)) ErrObjectLimit;
  validateObjects limits frame ∅ (fObjects frame).

(** ** Encoding *)

(** The size so far, or [ErrFrameTooLarge]. *)
Fixpoint sizeComponents (limits : Limits) (encodedSize : Z) (cs : list ComponentDelta) : result FrameErr Z :=
  match cs with
  | [] => Ok encodedSize
  | c :: cs' =>
      let encodedSize := encodedSize + (9 + zlen (cData c)) in
      _ ← guard_err (MaxFrameBytes limits <? encodedSize) ErrFrameTooLarge;
      sizeComponents limits encodedSize cs'
  end.
Fixpoint sizeObjects (limits : Limits) (encodedSize : Z) (os : list ObjectDelta) : result FrameErr Z :=
  match os with
  | [] => Ok encodedSize
  | o :: os' =>
      let encodedSize := encodedSize + 9 in
      _ ← guard_err (MaxFrameBytes limits <? encodedSize) ErrFrameTooLarge;
      encodedSize ← sizeComponents limits encodedSize (oComponents o);
      sizeObjects limits encodedSize os'
  end.

Definition encodeComponent (c : ComponentDelta) : bytes :=
  be_put 1 (cOperation c) ++ be_put 2 (cTypeID c) ++ be_put 2 (cSchemaVersion c) ++
  be_put 4 (u32 (zlen (cData c))) ++ cData c.
Definition encodeObject (o : ObjectDelta) : bytes :=
  be_put 1 (oOperation o) ++ be_put 2 (ID (oRef o)) ++ be_put 2 (Generation (oRef o)) ++ be_put 2 (oArchetype o) ++
  be_put 2 (u16 (zlen (oComponents o))) ++ concat (map encodeComponent (oComponents o)).
Fixpoint encodeObjects (os : list ObjectDelta) : result FrameErr bytes :=
  match os with
  | [] => Ok []
  | o :: os' =>
      _ ← guard_err (65535 <? zlen (oComponents o)) ErrComponentLimit;
      rest ← encodeObjects os';
      Ok (encodeObject o ++ rest)
  end.
Definition encodeHeader (f : Frame) : bytes :=
  be_put 4 frameMagic ++ be_put 2 ProtocolVersion ++ be_put 1 (fKind f) ++ [0] ++
  be_put 8 (StreamID (fMeta f)) ++ be_put 4 (Epoch (fMeta f)) ++ be_put 4 (Tick (fMeta f)) ++ be_put 4 (fBaseTick f) ++
  be_put 2 (SchemaVersion (fMeta f)) ++ be_put 2 (u16 (zlen (fObjects f))).

Definition Encode (frame : Frame) (limits : Limits) : result FrameErr bytes :=
  let limits := normalizeLimits limits in
  _ ← validateFrame frame limits;
  _ ← guard_err (65535 <? zlen (fObjects frame)) ErrObjectLimit;
  _ ← sizeObjects limits 32 (fObjects frame);
  rest ← encodeObjects (fObjects frame);
  Ok (encodeHeader frame ++ rest).

(** ** Decoding *)

Definition decodeComponent (limits : Limits) : parser FrameErr ComponentDelta :=
  op ← pbe 1 ErrInvalidFrame;
  typeID ← pbe 2 ErrInvalidFrame;
  schema ← pbe 2 ErrInvalidFrame;
  payloadLength ← pbe 4 ErrInvalidFrame;
  remaining ← premaining;
  _ ← pguard ((u32 (MaxComponentBytes limits) <? payloadLength) || (remaining <? payloadLength)) ErrComponentTooLarge;
  data ← pbytes payloadLength ErrInvalidFrame;
  mret (mkComponent op typeID schema data).

Definition decodeObject (limits : Limits) : parser FrameErr ObjectDelta :=
  op ← pbe 1 ErrInvalidFrame;
  id ← pbe 2 ErrInvalidFrame;
  generation ← pbe 2 ErrInvalidFrame;
  archetype ← pbe 2 ErrInvalidFrame;
  componentCount ← pbe 2 ErrInvalidFrame;
  _ ← pguard (i64 (MaxComponentsPerObject limits * 2) <? componentCount) ErrComponentLimit;
  components ← pcount (Z.to_nat componentCount) (decodeComponent limits);
  mret (mkObjectDelta op (mkRef id generation) archetype components).

Definition decodeFrame (limits : Limits) : parser FrameErr Frame :=
  magic ← pbe 4 ErrInvalidFrame;
  protocol ← pbe 2 ErrInvalidFrame;
  kind ← pbe 1 ErrInvalidFrame;
  reserved ← pbe 1 ErrInvalidFrame;
  stream ← pbe 8 ErrInvalidFrame;
  epoch ← pbe 4 ErrInvalidFrame;
  tick ← pbe 4 ErrInvalidFrame;
  baseTick ← pbe 4 ErrInvalidFrame;
  schema ← pbe 2 ErrInvalidFrame;
  objectCount ← pbe 2 ErrInvalidFrame;
  _ ← pguard (negb (magic =? frameMagic) || negb (protocol =? ProtocolVersion) || negb (reserved =? 0)) ErrInvalidFrame;
  _ ← pguard (i64 (MaxObjects limits * 2) <? objectCount) ErrObjectLimit;
  objects ← pcount (Z.to_nat objectCount) (decodeObject limits);
  remaining ← premaining;
  _ ← pguard (negb (remaining =? 0)) ErrInvalidFrame;
  mret (mkFrame (mkMeta stream epoch tick schema) kind baseTick objects).

Definition Decode (data : bytes) (limits : Limits) : result FrameErr Frame :=
  let limits := normalizeLimits limits in
  _ ← guard_err ((zlen data =? 0) || (MaxFrameBytes limits <? zlen data)) ErrFrameTooLarge;
  '(frame, _) ← decodeFrame limits data;
  _ ← validateFrame frame limits;
  Ok frame.

(** ** Shapes *)

Definition component_typed (c : ComponentDelta) : Prop :=
  is_u8 (cOperation c) ∧ is_u16 (cTypeID c) ∧ is_u16 (cSchemaVersion c) ∧ byte_list (cData c).
Definition object_typed (o : ObjectDelta) : Prop :=
  is_u8 (oOperation o) ∧ is_u16 (ID (oRef o)) ∧ is_u16 (Generation (oRef o)) ∧ is_u16 (oArchetype o) ∧
  Forall component_typed (oComponents o).
Definition meta_typed (m : SnapshotMeta) : Prop :=
  is_u64 (StreamID m) ∧ is_u32 (Epoch m) ∧ is_u32 (Tick m) ∧ is_u16 (SchemaVersion m).
(** The fields have their Go types. *)
Definition frame_typed (f : Frame) : Prop :=
  meta_typed (fMeta f) ∧ is_u8 (fKind f) ∧ is_u32 (fBaseTick f) ∧ Forall object_typed (fObjects f).

(** The counts fit the format. *)
Definition component_fits (c : ComponentDelta) : Prop := is_u32 (zlen (cData c)).
Definition object_fits (o : ObjectDelta) : Prop := zlen (oComponents o) ≤ 65535 ∧ Forall component_fits (oComponents o).
Definition frame_fits (f : Frame) : Prop := zlen (fObjects f) ≤ 65535 ∧ Forall object_fits (fObjects f).

Definition frameBytes (f : Frame) : bytes := encodeHeader f ++ concat (map encodeObject (fObjects f)).

Lemma zlen_concat_map {A} (enc : A → bytes) l : 0 ≤ zlen (concat (map enc l)).
Proof. apply zlen_nonneg. Qed.

Lemma zlen_component c : zlen (encodeComponent c) = 9 + zlen (cData c).
Proof. unfold encodeComponent. rewrite !zlen_app, !zlen_be_put. lia. Qed.

Lemma zlen_object o : zlen (encodeObject o) = 9 + zlen (concat (map encodeComponent (oComponents o))).
Proof. unfold encodeObject. rewrite !zlen_app, !zlen_be_put. lia. Qed.

Lemma zlen_header f : zlen (encodeHeader f) = 32.
Proof. unfold encodeHeader. rewrite !zlen_app, !zlen_be_put. done. Qed.

Lemma sizeComponents_spec limits cs : ∀ n m, n ≤ MaxFrameBytes limits →
  sizeComponents limits n cs = Ok m ↔ m = n + zlen (concat (map encodeComponent cs)) ∧ m ≤ MaxFrameBytes limits.
Proof.
  induction cs as [|c cs IH]; intros n m Hn; cbn [sizeComponents map concat].
  { change (zlen (@nil Z)) with 0. split; [intros [= <-]; lia|intros [-> _]; by rewrite Z.add_0_r]. }
  rewrite zlen_app, zlen_component. pose proof (zlen_concat_map encodeComponent cs). cbv zeta. unfold guard_err.
  destruct (Z.ltb_spec (MaxFrameBytes limits) (n + (9 + zlen (cData c)))); cbn [mbind result_bind].
  - split; [done|]. zlen_facts. lia.
  - rewrite IH by lia. split; intros [? ?]; lia.
Qed.

Lemma sizeObjects_spec limits os : ∀ n m, n ≤ MaxFrameBytes limits →
  sizeObjects limits n os = Ok m ↔ m = n + zlen (concat (map encodeObject os)) ∧ m ≤ MaxFrameBytes limits.
Proof.
  induction os as [|o os IH]; intros n m Hn; cbn [sizeObjects map concat].
  { change (zlen (@nil Z)) with 0. split; [intros [= <-]; lia|intros [-> _]; by rewrite Z.add_0_r]. }
  rewrite zlen_app, zlen_object. pose proof (zlen_concat_map encodeObject os). pose proof (zlen_concat_map encodeComponent (oComponents o)).
  cbv zeta. unfold guard_err. destruct (Z.ltb_spec (MaxFrameBytes limits) (n + 9)); cbn [mbind result_bind]; [split; [done|lia]|].
  destruct (sizeComponents limits (n + 9) (oComponents o)) as [k|e] eqn:E.
  - apply sizeComponents_spec in E as [-> Hk]; [|lia]. cbn [mbind result_bind]. rewrite IH by lia. split; intros [? ?]; lia.
  - cbn [mbind result_bind]. split; [done|]. intros [-> Hle].
    assert (sizeComponents limits (n + 9) (oComponents o) = Ok (n + 9 + zlen (concat (map encodeComponent (oComponents o))))) as E'; [|congruence].
    apply sizeComponents_spec; lia.
Qed.

Lemma encodeObjects_spec os b : encodeObjects os = Ok b ↔ b = concat (map encodeObject os) ∧ Forall (λ o, zlen (oComponents o) ≤ 65535) os.
Proof.
  revert b. induction os as [|o os IH]; intros b; cbn [encodeObjects map concat]; [split; [by intros [= <-]|by intros [-> _]]|].
  unfold guard_err. destruct (Z.ltb_spec 65535 (zlen (oComponents o))); cbn [mbind result_bind].
  - split; [done|]. intros [_ Hf]. inversion_clear Hf. lia.
  - destruct (encodeObjects os) as [rest|e] eqn:E; cbn [mbind result_bind].
    + destruct (proj1 (IH rest) eq_refl) as [-> Hos]. split; [intros [= <-]; by split; [|constructor]|by intros [-> _]].
    + split; [done|]. intros [_ Hf]. inversion_clear Hf as [|? ? _ Hos]. assert (Err e = Ok (concat (map encodeObject os))) as Habs by (by apply IH). done.
Qed.

(** What [Encode] accepts and what it returns. *)
Lemma Encode_spec f l data :
  Encode f l = Ok data ↔
  validateFrame f (normalizeLimits l) = Ok tt ∧ zlen (fObjects f) ≤ 65535 ∧
  Forall (λ o, zlen (oComponents o) ≤ 65535) (fObjects f) ∧
  (fObjects f = [] ∨ zlen (frameBytes f) ≤ MaxFrameBytes (normalizeLimits l)) ∧ data = frameBytes f.
Proof.
  unfold Encode. cbv zeta. set (lim := normalizeLimits l). destruct (validateFrame f lim) as [[]|e]; cbn [mbind result_bind]; [|naive_solver].
  unfold guard_err. destruct (Z.ltb_spec 65535 (zlen (fObjects f))); cbn [mbind result_bind]; [split; [done|lia]|].
  assert ((∃ n, sizeObjects lim 32 (fObjects f) = Ok n) ↔ fObjects f = [] ∨ zlen (frameBytes f) ≤ MaxFrameBytes lim) as Hsize.
  { unfold frameBytes. rewrite zlen_app, zlen_header. destruct (fObjects f) as [|o os] eqn:Eo; [cbn; split; eauto|]. rewrite <- Eo in *.
    assert (32 < zlen (concat (map encodeObject (fObjects f))) + 32) as Hpos.
    { rewrite Eo. cbn [map concat]. rewrite zlen_app, zlen_object. pose proof (zlen_concat_map encodeObject os). pose proof (zlen_concat_map encodeComponent (oComponents o)). lia. }
    destruct (Z.le_gt_cases 32 (MaxFrameBytes lim)).
    - setoid_rewrite sizeObjects_spec; [|done]. split; [intros (n & -> & ?); right; lia|]. intros [E|?]; [congruence|]. eexists. split; [done|lia].
    - split; [|intros [E|?]; [congruence|lia]]. intros [n Hn]. rewrite Eo in Hn. cbn [sizeObjects] in Hn. cbv zeta in Hn. unfold guard_err in Hn.
      destruct (Z.ltb_spec (MaxFrameBytes lim) (32 + 9)); [done|lia]. }
  destruct (sizeObjects lim 32 (fObjects f)) as [n|e]; cbn [mbind result_bind].
  - destruct (encodeObjects (fObjects f)) as [rest|e] eqn:E; cbn [mbind result_bind].
    + apply encodeObjects_spec in E as [-> Hc]. fold (frameBytes f). split; [intros [= <-]|intros (_ & _ & _ & _ & ->); done].
      split_and!; try done. apply Hsize. eauto.
    + split; [done|]. intros (_ & _ & Hc & _). assert (encodeObjects (fObjects f) = Ok (concat (map encodeObject (fObjects f)))) by (by apply encodeObjects_spec). congruence.
  - split; [done|]. intros (_ & _ & _ & Hs & _). apply Hsize in Hs as [? ?]. done.
Qed.

(** ** The decoder reads what the encoder writes *)

Definition limits_fit (l : Limits) : Prop := is_u32 (MaxComponentBytes l).
Definition component_within (l : Limits) (c : ComponentDelta) : Prop := zlen (cData c) ≤ MaxComponentBytes l.
Definition object_within (l : Limits) (o : ObjectDelta) : Prop :=
  zlen (oComponents o) ≤ i64 (MaxComponentsPerObject l * 2) ∧ Forall (component_within l) (oComponents o).

Ltac pow_bounds :=
  change (2^(8 * Z.of_nat 1)) with (2^8) in *; change (2^(8 * Z.of_nat 2)) with (2^16) in *;
  change (2^(8 * Z.of_nat 4)) with (2^32) in *; change (2^(8 * Z.of_nat 8)) with (2^64) in *.
(** One integer of the code's width. *)
Ltac be_step := parse_step ltac:(apply parses_pbe; pow_bounds; unfold_int; assumption || lia).

Section Parses.
Context (l : Limits) (Hl : limits_fit l).

Lemma parses_component c : component_typed c → component_within l c → parses (decodeComponent l) c (encodeComponent c).
Proof.
  intros (H1 & H2 & H3 & _) Hw. unfold component_within, limits_fit in *. unfold decodeComponent, encodeComponent. zlen_facts.
  rewrite !u32_small by (unfold_int; lia). do 4 be_step. apply parses_room; [apply Z.ltb_ge; lia|lia|].
  rewrite <- (app_nil_r (cData c)) at 2. eapply parses_bind; [apply parses_pbytes|]. destruct c. apply parses_ret.
Qed.

Lemma parses_object o : object_typed o → zlen (oComponents o) ≤ 65535 → object_within l o → parses (decodeObject l) o (encodeObject o).
Proof.
  intros (H1 & H2 & H3 & H4 & Hc) Hn [Hmax Hw]. unfold decodeObject, encodeObject. zlen_facts.
  rewrite u16_small by (unfold_int; lia). do 5 be_step. apply parses_guard; [by apply Z.ltb_ge|]. rewrite to_nat_zlen.
  eapply (parses_last _ _ (oComponents o)); [|destruct o as [? [] ? ?]; apply parses_ret]. apply parses_pcount.
  apply Forall_forall. intros c Hin. apply parses_component; by eapply Forall_forall.
Qed.

Lemma parses_frame f :
  frame_typed f → zlen (fObjects f) ≤ 65535 → Forall (λ o, zlen (oComponents o) ≤ 65535) (fObjects f) →
  zlen (fObjects f) ≤ i64 (MaxObjects l * 2) → Forall (object_within l) (fObjects f) →
  decodeFrame l (frameBytes f) = Ok (f, []).
Proof.
  intros ((M1 & M2 & M3 & M4) & H1 & H2 & Ho) Hn Hc Hmax Hw. unfold frameBytes, encodeHeader. rewrite <- !app_assoc. zlen_facts.
  rewrite u16_small by (unfold_int; lia). change (decodeFrame l ?s = Ok (?x, [])) with (parses_all (decodeFrame l) x s). unfold decodeFrame.
  change [0] with (be_put 1 0).
  do 10 parse_all_step ltac:(apply parses_pbe; unfold frameMagic, ProtocolVersion; pow_bounds; unfold_int; assumption || lia).
  apply parses_all_guard; [done|]. apply parses_all_guard; [by apply Z.ltb_ge|]. rewrite to_nat_zlen.
  rewrite <- (app_nil_r (concat _)). eapply (parses_all_bind _ _ (fObjects f)); [|apply parses_all_end; by destruct f as [[] ? ? ?]].
  apply parses_pcount. apply Forall_forall. intros o Hin. apply parses_object; by match goal with H : Forall _ _ |- _ => apply (proj1 (Forall_forall _ _) H) end.
Qed.
End Parses.

(** ** The decoder accepts nothing else *)

Ltac be_reads := eapply reads_bind; [apply reads_pbe|]; intros ? ? [-> ?]; cbn beta; pow_bounds.

Section Reads.
Context (l : Limits).

Lemma reads_component : reads (decodeComponent l) (λ c s, s = encodeComponent c ∧ component_typed c).
Proof.
  unfold decodeComponent. do 4 be_reads. eapply reads_bind; [apply reads_premaining|]. intros rem ? ->. apply reads_guard. intros _.
  eapply reads_bind; [apply reads_pbytes; lia|]. intros data ? (-> & Hlen & Hd). apply reads_ret.
  unfold encodeComponent. cbn [cOperation cTypeID cSchemaVersion cData]. rewrite Hlen, u32_small, !app_nil_r by (unfold_int; lia). by split.
Qed.

Lemma reads_object : reads (decodeObject l) (λ o s, s = encodeObject o ∧ object_typed o ∧ zlen (oComponents o) ≤ 65535).
Proof.
  unfold decodeObject. do 5 be_reads. apply reads_guard. intros _.
  eapply reads_bind; [apply reads_pcount, reads_component|]. intros cs ? (-> & Hlen & Hc). apply reads_ret.
  unfold encodeObject. cbn [oOperation oRef oArchetype oComponents ID Generation].
  assert (zlen cs = x3) as Hn by (unfold zlen; lia). rewrite Hn, u16_small, !app_nil_r by (unfold_int; lia). split_and!; [done..|lia].
Qed.

Lemma reads_frame : reads_all (decodeFrame l) (λ f s, s = frameBytes f ∧ frame_typed f ∧ zlen (fObjects f) ≤ 65535 ∧
  Forall (λ o, zlen (oComponents o) ≤ 65535) (fObjects f)).
Proof.
  unfold decodeFrame. do 10 (eapply reads_all_bind; [apply reads_pbe|]; intros ? ? [-> ?]; cbn beta; pow_bounds).
  apply reads_all_guard. intros Hh. apply reads_all_guard. intros _.
  eapply reads_all_bind; [apply reads_pcount, reads_object|]. intros os ? (-> & Hlen & Ho). apply reads_all_end.
  unfold frameBytes, encodeHeader. cbn [fMeta fKind fBaseTick fObjects StreamID Epoch Tick SchemaVersion]. to_prop. destruct Hh as [[-> ->] ->].
  assert (zlen os = x8) as Hn by (unfold zlen; lia). rewrite Hn, u16_small by (unfold_int; lia). rewrite <- !app_assoc, !app_nil_r.
  split_and!; [done|..|lia|].
  - split_and!; [by split_and!|done..|]. cbn. eapply Forall_impl; [exact Ho|]. by intros o [? _].
  - eapply Forall_impl; [exact Ho|]. by intros o [_ ?].
Qed.
End Reads.

(** ** Valid frames are within the limits *)

Lemma validateComponents_within l o cs : ∀ seen, validateComponents l o seen cs = Ok tt → Forall (component_within l) cs.
Proof.
  induction cs as [|c cs IH]; intros seen H; cbn [validateComponents] in H; [constructor|]. inv_ok. constructor; [|by eapply IH].
  unfold component_within. to_prop. lia.
Qed.
Lemma validateObjects_within l f os : ∀ seen, validateObjects l f seen os = Ok tt → Forall (object_within l) os.
Proof.
  induction os as [|o os IH]; intros seen H; cbn [validateObjects] in H; [constructor|]. inv_ok. constructor; [|by eapply IH].
  split; [to_prop; lia|by eapply validateComponents_within].
Qed.
Lemma validateFrame_within f l : validateFrame f l = Ok tt → zlen (fObjects f) ≤ i64 (MaxObjects l * 2) ∧ Forall (object_within l) (fObjects f).
Proof. unfold validateFrame. intros H. inv_ok. split; [to_prop; lia|by eapply validateObjects_within]. Qed.

(** C36. The format is canonical.  For limits the format can express, [Decode]
    returns a frame exactly when [Encode] turns that frame into the very same
    bytes: every frame a server may send arrives unchanged, and bytes are
    accepted only when they are the one encoding of a valid frame within the
    limits. *)
Theorem decode_iff_encode l f data :
  byte_list data → is_u32 (MaxComponentBytes (normalizeLimits l)) → 32 ≤ MaxFrameBytes (normalizeLimits l) →
  Decode data l = Ok f ↔ frame_typed f ∧ Encode f l = Ok data.
Proof.
  intros Hd Hc Hm. rewrite Encode_spec. unfold Decode. cbv zeta. set (lim := normalizeLimits l) in *. split.
  - intros H. inv_ok. match goal with E : decodeFrame _ _ = Ok _ |- _ => destruct (reads_frame lim data _ _ Hd E) as (-> & Ht & Hn & Hcs) end.
    to_prop. split_and!; try done. right. lia.
  - intros (Ht & Hv & Hn & Hcs & Hs & ->). destruct (validateFrame_within f lim Hv) as [Hmax Hw].
    assert (32 ≤ zlen (frameBytes f) ≤ MaxFrameBytes lim) as Hlen.
    { unfold frameBytes in *. rewrite zlen_app, zlen_header in *. pose proof (zlen_concat_map encodeObject (fObjects f)).
      destruct Hs as [->|?]; [change (zlen (concat (map encodeObject []))) with 0|]; lia. }
    run_guard lia. rewrite (parses_frame lim Hc f) by done. cbn [mbind result_bind]. by rewrite Hv.
Qed.

(** A delta that updates one object and removes another. *)
Definition demoFrame : Frame :=
  mkFrame (mkMeta 7 1 12 3) Delta 11
    [mkObjectDelta 2 (mkRef 1 1) 4 [mkComponent 1 9 2 [5; 6]; mkComponent 2 8 0 []];
     mkObjectDelta 3 (mkRef 2 5) 0 []].
Definition noLimits : Limits := mkLimits 0 0 0 0.

Lemma decode_iff_encode_witness : Decode (frameBytes demoFrame) noLimits = Ok demoFrame.
Proof.
  apply (decode_iff_encode noLimits demoFrame (frameBytes demoFrame)).
  - vm_compute. repeat constructor; discriminate.
  - vm_compute. split; [discriminate|reflexivity].
  - vm_compute. discriminate.
  - split; [|vm_compute; reflexivity]. repeat constructor; vm_compute; first [discriminate | reflexivity].
Defined.

(** The limit of the frame's bytes is only checked where there are objects. *)
Example empty_frame_unchecked :
  let f := mkFrame (mkMeta 1 1 1 1) Full 0 [] in
  let l := mkLimits 0 0 0 31 in
  Encode f l = Ok (frameBytes f) ∧ Decode (frameBytes f) l = Err ErrFrameTooLarge.
Proof. split; vm_compute; reflexivity. Qed.
