(* ===== verification/FrameReceiver.v ===== *)
(** * The receiver of entity frames (framework/sync/frame/receiver.go)

    The receiver decides which frames reach the application.  The callback
    is code of the application: what it does is an argument, a function from
    the frame to the calls of [Reset] it makes and to how it ends.  While it
    runs, a nested [Receive] is refused and changes nothing
    ([nested_receive_refused]). *)

From S2P Require Import Prelude Bytes FrameCodec.

Inductive RecvErr : Type :=
| ErrReceiverBusy | ErrReceiverReset
| ErrNoCallback                      (** "application callback is required" *)
| ErrFrame (e : FrameErr)            (** from [Decode], or a baseline mismatch *)
| ErrApply.                          (** the callback's own error *)

Record Receiver := mkReceiver {
  rLimits : Limits;
  rMeta : SnapshotMeta;
  rNeedsFull : bool;
  rApplying : bool;
  rGeneration : Z
}.

Definition zeroMeta : SnapshotMeta := mkMeta 0 0 0 0.
Definition NewReceiver (limits : Limits) : Receiver := mkReceiver (normalizeLimits limits) zeroMeta true false 0.
Definition Reset (r : Receiver) : Receiver :=
  mkReceiver (rLimits r) zeroMeta true (rApplying r) (u64 (rGeneration r + 1)).

Definition set_needsFull (b : bool) (r : Receiver) : Receiver :=
  mkReceiver (rLimits r) (rMeta r) b (rApplying r) (rGeneration r).
Definition set_applying (b : bool) (r : Receiver) : Receiver :=
  mkReceiver (rLimits r) (rMeta r) (rNeedsFull r) b (rGeneration r).

(** How the callback ends. *)
Inductive outcome : Type := Returns | Fails | Panics.
(** The resets the callback makes, then its end. *)
Definition callback : Type := Frame → nat * outcome.

Fixpoint resets (n : nat) (r : Receiver) : Receiver := match n with O => r | S m => resets m (Reset r) end.

(** What the caller of [Receive] sees. *)
Inductive answer : Type :=
| Returned (applied : bool) (err : option RecvErr)
| Panicked.

Definition older (f : Frame) (m : SnapshotMeta) : bool :=
  (Epoch (fMeta f) <? Epoch m) || ((Epoch (fMeta f) =? Epoch m) && (Tick (fMeta f) <=? Tick m)).
Definition offBaseline (f : Frame) (r : Receiver) : bool :=
  rNeedsFull r || negb (Epoch (fMeta f) =? Epoch (rMeta r)) || negb (fBaseTick f =? Tick (rMeta r)) ||
  negb (SchemaVersion (fMeta f) =? SchemaVersion (rMeta r)).

(** Whether the frame reaches the callback; otherwise the state and answer. *)
Definition accept (r : Receiver) (raw : bytes) : (Receiver * answer) + Frame :=
  match Decode raw (rLimits r) with
  | Err e => inl (set_needsFull true r, Returned false (Some (ErrFrame e)))
  | Ok f =>
      if negb (StreamID (rMeta r) =? 0) && negb (StreamID (fMeta f) =? StreamID (rMeta r))
      then inl (set_needsFull true r, Returned false (Some (ErrFrame ErrBaselineMismatch)))
      else if negb (StreamID (rMeta r) =? 0) && older f (rMeta r)
      then inl (r, Returned false None)
      else if (fKind f =? Delta) && offBaseline f r
      then inl (set_needsFull true r, Returned false (Some (ErrFrame ErrBaselineMismatch)))
      else inr f
  end.

(** The part of [Receive] around the callback. *)
Definition deliver (r : Receiver) (apply : callback) (f : Frame) : Receiver * answer :=
  let generation := rGeneration r in
  let r := set_needsFull true (set_applying true r) in
  let '(n, ended) := apply f in
  let r := resets n r in
  match ended with
  | Panics => (set_applying false r, Panicked)
  | Fails => (set_applying false r, Returned false (Some ErrApply))
  | Returns =>
      if negb (generation =? rGeneration r) then (set_applying false r, Returned false (Some ErrReceiverReset))
      else (set_applying false (mkReceiver (rLimits r) (fMeta f) false (rApplying r) (rGeneration r)), Returned true None)
  end.

(** [Receiver.Receive]; [None] is a nil callback. *)
Definition Receive (r : Receiver) (raw : bytes) (apply : option callback) : Receiver * answer :=
  if rApplying r then (r, Returned false (Some ErrReceiverBusy))
  else match apply with
       | None => (r, Returned false (Some ErrNoCallback))
       | Some apply =>
           match accept r raw with
           | inl end_ => end_
           | inr f => deliver r apply f
           end
       end.

(** A nested call is refused and changes nothing. *)
Lemma nested_receive_refused r raw apply : rApplying r = true → Receive r raw apply = (r, Returned false (Some ErrReceiverBusy)).
Proof. unfold Receive. by intros ->. Qed.

(** ** The log of a connection *)

Inductive call : Type := CReset | CReceive (raw : bytes) (apply : option callback).

(** What happened, as the application can tell. *)
Inductive entry : Type :=
| Resetted
| Ignored                                     (** nothing was done *)
| Refused                                     (** an error before the callback *)
| Delivered (f : Frame) (n : nat) (ok : bool). (** the callback ran, made [n] resets, and [Receive] returned [ok] *)

Definition observe (r : Receiver) (c : call) : entry :=
  match c with
  | CReset => Resetted
  | CReceive raw apply =>
      match apply with
      | None => Ignored
      | Some apply =>
          match accept r raw with
          | inl (_, Returned false None) => Ignored
          | inl _ => Refused
          | inr f => Delivered f (fst (apply f)) (match snd (deliver r apply f) with Returned ok _ => ok | Panicked => false end)
          end
      end
  end.

Definition perform (r : Receiver) (c : call) : Receiver :=
  match c with CReset => Reset r | CReceive raw apply => fst (Receive r raw apply) end.

(** The receiver and its log, the latest entry first. *)
Definition connect (limits : Limits) (calls : list call) : Receiver * list entry :=
  fold_left (λ st c, (perform (fst st) c, observe (fst st) c :: snd st)) calls (NewReceiver limits, []).

(** The last frame applied since a reset. *)
Fixpoint lastApplied (log : list entry) : option SnapshotMeta :=
  match log with
  | [] => None
  | Resetted :: _ => None
  | (Ignored | Refused) :: log' => lastApplied log'
  | Delivered f n ok :: log' =>
      if Nat.eqb n 0 then (if ok then Some (fMeta f) else lastApplied log') else None
  end.

(** The frame a delta may build on: the last one, applied successfully, with
    nothing refused or failed since. *)
Fixpoint baseline (log : list entry) : option SnapshotMeta :=
  match log with
  | Ignored :: log' => baseline log'
  | Delivered f 0 true :: _ => Some (fMeta f)
  | _ => None
  end.

Definition call_ok (c : call) : Prop :=
  match c with CReceive _ (Some apply) => ∀ f, Z.of_nat (fst (apply f)) < 2^64 | _ => True end.

(** ** The receiver's fields are functions of the log *)

Record tracks (limits : Limits) (r : Receiver) (log : list entry) : Prop := {
  tr_limits : rLimits r = normalizeLimits limits;
  tr_applying : rApplying r = false;
  tr_generation : is_u64 (rGeneration r);
  tr_meta : rMeta r = default zeroMeta (lastApplied log);
  tr_stream : ∀ m, lastApplied log = Some m → StreamID m ≠ 0;
  tr_baseline : baseline log = if rNeedsFull r then None else Some (rMeta r);
  tr_full : rNeedsFull r = false → is_Some (lastApplied log)
}.

Lemma resets_fields n : ∀ r, rLimits (resets n r) = rLimits r ∧ rApplying (resets n r) = rApplying r ∧
  rNeedsFull (resets n r) = (if Nat.eqb n 0 then rNeedsFull r else true) ∧
  rMeta (resets n r) = (if Nat.eqb n 0 then rMeta r else zeroMeta) ∧
  (is_u64 (rGeneration r) → rGeneration (resets n r) = u64 (rGeneration r + Z.of_nat n)).
Proof.
  induction n as [|n IH]; intros r; cbn [resets Nat.eqb].
  { split_and!; try done. intros H. rewrite Z.add_0_r, u64_small by done. done. }
  destruct (IH (Reset r)) as (-> & -> & -> & -> & I5). split_and!; try done; [by destruct (Nat.eqb n 0)..|].
  intros _. rewrite I5 by apply u64_range. cbn [Reset rGeneration]. unfold u64. rewrite Zplus_mod_idemp_l. f_equal. lia.
Qed.

Lemma valid_stream raw l f : Decode raw l = Ok f → StreamID (fMeta f) ≠ 0.
Proof. unfold Decode, validateFrame, validateMeta. cbv zeta. intros H. inv_ok. to_prop. lia. Qed.

Lemma accept_inl r raw r' a : accept r raw = inl (r', a) →
  (a = Returned false None ∧ r' = r) ∨ (∃ e, a = Returned false (Some e)) ∧ r' = set_needsFull true r.
Proof.
  unfold accept. destruct (Decode raw (rLimits r)) as [f|e]; [|intros [= <- <-]; eauto].
  destruct (_ && _); [intros [= <- <-]; eauto|]. destruct (_ && _); [intros [= <- <-]; eauto|].
  destruct (_ && _); [intros [= <- <-]; eauto|done].
Qed.

Lemma tracks_refused limits r log : tracks limits r log → tracks limits (set_needsFull true r) (Refused :: log).
Proof. intros [H1 H2 H3 H4 H5 H6 H7]. split; try done. Qed.
Lemma tracks_ignored limits r log : tracks limits r log → tracks limits r (Ignored :: log).
Proof. intros [H1 H2 H3 H4 H5 H6 H7]. split; try done. Qed.
Lemma tracks_reset limits r log : tracks limits r log → tracks limits (Reset r) (Resetted :: log).
Proof. intros [H1 H2 H3 H4 H5 H6 H7]. split; try done. apply u64_range. Qed.

Lemma tracks_deliver limits r log apply f :
  tracks limits r log → StreamID (fMeta f) ≠ 0 → Z.of_nat (fst (apply f)) < 2^64 →
  tracks limits (fst (deliver r apply f))
    (Delivered f (fst (apply f)) (match snd (deliver r apply f) with Returned ok _ => ok | Panicked => false end) :: log).
Proof.
  intros [H1 H2 H3 H4 H5 H6 H7] Hs Hn. unfold deliver. destruct (apply f) as [n ended]. cbn [fst] in *.
  destruct (resets_fields n (set_needsFull true (set_applying true r))) as (R1 & R2 & R3 & R4 & R5). specialize (R5 H3).
  set (r' := resets n _) in *. cbn in R1, R2, R3, R4, R5.
  assert (rNeedsFull r' = true) as R3' by (rewrite R3; by destruct (Nat.eqb n 0)).
  assert (tracks limits (set_applying false r') (Delivered f n false :: log)) as Hno.
  { split; cbn [rLimits rApplying rGeneration rMeta rNeedsFull set_applying lastApplied baseline]; rewrite ?R3'; try done; try congruence.
    - rewrite R5. apply u64_range.
    - rewrite R4. by destruct (Nat.eqb n 0).
    - intros m. destruct (Nat.eqb n 0); [apply H5|done].
    - by destruct n. }
  destruct ended; cbn [fst snd]; [|exact Hno|exact Hno].
  destruct (Z.eqb_spec (rGeneration r) (rGeneration r')) as [E|]; cbn [negb fst snd]; [|exact Hno].
  assert (n = 0%nat) as ->.
  { rewrite R5 in E. unfold u64 in E. unfold is_u64 in H3. destruct (Z.lt_ge_cases (rGeneration r + Z.of_nat n) (2^64)).
    - rewrite Z.mod_small in E by lia. lia.
    - rewrite <- (Z.mod_add _ (-1)), Z.mod_small in E by lia. lia. }
  split; cbn; try done; [congruence..|by intros m [= <-]].
Qed.

Lemma tracks_step limits r log c : call_ok c → tracks limits r log → tracks limits (perform r c) (observe r c :: log).
Proof.
  intros Hc Ht. destruct c as [|raw [apply|]]; cbn [perform observe]; [by apply tracks_reset| |].
  - unfold Receive. rewrite (tr_applying _ _ _ Ht). destruct (accept r raw) as [[r' a]|f] eqn:E.
    + apply accept_inl in E as [[-> ->]|[[e ->] ->]]; [by apply tracks_ignored|by apply tracks_refused].
    + apply tracks_deliver; [done| |apply Hc]. unfold accept in E. destruct (Decode raw (rLimits r)) as [g|] eqn:Ed; [|done].
      destruct (_ && _); [done|]. destruct (_ && _); [done|]. destruct (_ && _); [done|]. injection E as <-. by eapply valid_stream.
  - unfold Receive. rewrite (tr_applying _ _ _ Ht). by apply tracks_ignored.
Qed.

Lemma connect_tracks limits calls : Forall call_ok calls → tracks limits (fst (connect limits calls)) (snd (connect limits calls)).
Proof.
  intros Hc. unfold connect. assert (tracks limits (NewReceiver limits) []) as H0 by (by split). revert H0 Hc.
  generalize (NewReceiver limits) (@nil entry). induction calls as [|c calls IH]; intros r log H0 Hc; cbn [fold_left]; [done|].
  inversion_clear Hc. apply IH; [by apply tracks_step|done].
Qed.

Definition newer (f : Frame) (m : SnapshotMeta) : Prop :=
  StreamID (fMeta f) = StreamID m ∧ (Epoch m < Epoch (fMeta f) ∨ Epoch m = Epoch (fMeta f) ∧ Tick m < Tick (fMeta f)).
Definition continues (f : Frame) (m : SnapshotMeta) : Prop :=
  Epoch (fMeta f) = Epoch m ∧ fBaseTick f = Tick m ∧ SchemaVersion (fMeta f) = SchemaVersion m.

(** C35. Which frames reach the application.  After any calls on a connection
    (frames good and bad, callbacks that fail, panic or reset, resets) a
    frame is passed to the callback exactly when it decodes, it is of the
    same stream as and newer than the last frame applied since a reset, and,
    if it is a delta, it continues the frame applied last, with nothing
    refused, failed or reset in between.  So no delta is ever applied to
    another state than the one it was computed from, and a newer full frame
    always gets through. *)
Theorem callback_sees_chain limits calls raw f :
  Forall call_ok calls →
  let r := fst (connect limits calls) in
  let log := snd (connect limits calls) in
  accept r raw = inr f ↔
  Decode raw (normalizeLimits limits) = Ok f ∧
  (∀ m, lastApplied log = Some m → newer f m) ∧
  (fKind f = Delta → ∃ m, baseline log = Some m ∧ continues f m).
Proof.
  intros Hc r log. destruct (connect_tracks limits calls Hc) as [H1 H2 H3 H4 H5 H6 H7]. fold r in H1, H2, H3, H4, H6, H7. fold log in H4, H5, H6, H7.
  unfold accept. rewrite H1, H4. destruct (Decode raw (normalizeLimits limits)) as [g|e] eqn:Ed; [|naive_solver].
  assert (∀ m, lastApplied log = Some m → (negb (StreamID (default zeroMeta (lastApplied log)) =? 0) = true)) as Hst.
  { intros m Hm. rewrite Hm. cbn. apply negb_true_iff, Z.eqb_neq. by apply H5. }
  assert ((∀ m, lastApplied log = Some m → newer g m) ↔
    negb (StreamID (default zeroMeta (lastApplied log)) =? 0) && negb (StreamID (fMeta g) =? StreamID (default zeroMeta (lastApplied log))) = false ∧
    negb (StreamID (default zeroMeta (lastApplied log)) =? 0) && older g (default zeroMeta (lastApplied log)) = false) as Hnew.
  { destruct (lastApplied log) as [m|] eqn:Em; [|by cbn]. rewrite (Hst m eq_refl). cbn [andb].
    unfold newer, older. rewrite negb_false_iff, orb_false_iff, andb_false_iff, Z.eqb_eq, Z.ltb_ge, Z.eqb_neq, Z.leb_gt. split.
    - intros H. specialize (H m eq_refl). cbn. lia.
    - intros H m' [= <-]. cbn in H. lia. }
  assert ((fKind g = Delta → ∃ m, baseline log = Some m ∧ continues g m) ↔ (fKind g =? Delta) && offBaseline g r = false) as Hcont.
  { rewrite H6. unfold offBaseline. rewrite andb_false_iff, Z.eqb_neq. destruct (rNeedsFull r); cbn [orb].
    - split; [|intros [Hn|?] HK; done]. intros H. left. intros HK. by destruct (H HK) as (m & ? & _).
    - unfold continues. rewrite !orb_false_iff, !negb_false_iff, !Z.eqb_eq. split.
      + intros H. destruct (decide (fKind g = Delta)) as [HK|]; [right|by left]. destruct (H HK) as (m & [= <-] & ?). tauto.
      + intros [?|H] HK; [done|]. eexists. split; [done|tauto]. }
  destruct (_ && _) eqn:E1; [split; [done|]; intros ([= <-] & HN & _); apply Hnew in HN; destruct HN; congruence|].
  destruct (_ && older _ _) eqn:E2; [split; [done|]; intros ([= <-] & HN & _); apply Hnew in HN; destruct HN; congruence|].
  destruct (_ && offBaseline _ _) eqn:E3; [split; [done|]; intros ([= <-] & _ & HD); apply Hcont in HD; congruence|].
  split; [intros [= <-]|by intros ([= <-] & _)]. split_and!; [done|by apply Hnew|by apply Hcont].
Qed.

(** The full frame at tick 11 that [demoFrame] builds on, an older frame and
    a truncated one; the callback always succeeds. *)
Definition demoBase : Frame := mkFrame (mkMeta 7 1 11 3) Full 0 [].
Definition demoCalls : list call :=
  let ok := Some (λ _ : Frame, (0%nat, Returns)) in
  [CReceive [1; 2; 3] ok; CReset; CReceive (frameBytes demoBase) ok; CReceive (frameBytes demoBase) ok].

Lemma callback_sees_chain_witness : accept (fst (connect noLimits demoCalls)) (frameBytes demoFrame) = inr demoFrame.
Proof.
  apply (callback_sees_chain noLimits demoCalls).
  - unfold demoCalls. repeat constructor.
  - assert (snd (connect noLimits demoCalls) = [Ignored; Delivered demoBase 0 true; Resetted; Refused]) as -> by (vm_compute; reflexivity).
    split_and!; [vm_compute; reflexivity| |].
    + intros m [= <-]. split; [reflexivity|right; split; reflexivity].
    + intros _. exists (fMeta demoBase). split; [reflexivity|]. split_and!; reflexivity.
Defined.
