(* ===== verification/SyncHistory.v ===== *)
(** * Ordered state streams (framework/sync/syncstream)

    The history of packets per observer and stream: syncstream.go and
    lifecycle_journal.go.  Every operation is one critical section of
    [history.mutex], so it is one function of the history.  The current time
    and new random epochs are arguments.  The journal is the interface
    [HistoryJournal] of the code. *)

From Stdlib Require Import String.
From S2P Require Import Prelude Bytes GoStr.

(** ** Packets *)

Record Observer := mkObserver { obKind : Z; obID : Z; obSession : Z; obScope : bytes }.
#[export] Instance Observer_eq_dec : EqDecision Observer.
Proof. solve_decision. Defined.
#[export] Instance Observer_countable : Countable Observer.
Proof.
  refine (inj_countable' (λ o, (obKind o, obID o, obSession o, obScope o))
    (λ t, let '(k, i, s, c) := t in mkObserver k i s c) _). by intros [].
Defined.

Record Stream := mkStream { stTopic : bytes; stKey : Z }.
#[export] Instance Stream_eq_dec : EqDecision Stream.
Proof. solve_decision. Defined.
#[export] Instance Stream_countable : Countable Stream.
Proof. refine (inj_countable' (λ s, (stTopic s, stKey s)) (λ t, mkStream (fst t) (snd t)) _). by intros []. Defined.

Definition streamKey : Type := Observer * Stream.

Record Packet := mkPacket {
  pkObserver : Observer;
  pkStream : Stream;
  pkEpoch : Z;
  pkSequence : Z;
  pkBase : Z;
  pkSchema : Z;
  pkFull : bool;
  pkCritical : bool;
  pkPayload : bytes
}.
Definition pkKey (p : Packet) : streamKey := (pkObserver p, pkStream p).

Inductive HistErr : Type :=
| ErrTopicRequired | ErrAckAhead | ErrAckEpochMismatch | ErrPayloadTooLarge | ErrStreamLimit
| ErrSchemaTransitionRequiresFull | ErrSnapshotProviderRequired | ErrInvalidSnapshot
| ErrHistoryJournalRequired | ErrHistoryJournalClosed | ErrHistoryJournalFailed | ErrRecoverStale
| ErrOther.                       (** an error of the file system or of the provider *)

(** ** Persistent forms *)

Definition HistorySnapshotVersion : Z := 1.
Definition HistoryMutationVersion : Z := 1.

Record HistoryStreamSnapshot := mkStreamSnapshot {
  hsObserver : Observer;
  hsStream : Stream;
  hsLatest : Z;
  hsAcked : Z;
  hsDropped : Z;
  hsPruned : Z;
  hsSchema : Z;
  hsActivity : Z;
  hsPackets : list Packet
}.
Definition hsKey (s : HistoryStreamSnapshot) : streamKey := (hsObserver s, hsStream s).

Record HistorySnapshot := mkSnapshot {
  snVersion : Z;
  snEpoch : Z;
  snStreams : list HistoryStreamSnapshot;
  snFloor : Z
}.

(** A mutation with the fields its kind uses. *)
Inductive mutation : Type :=
| MAppend (packet : Packet) (at_ : Z)
| MAcknowledge (key : streamKey) (sequence : Z) (pruneAcknowledged : bool) (at_ : Z)
| MDelete (key : streamKey)
| MDeleteView (observer : Observer)
| MSweep (targets : list streamKey)
| MRotateEpoch.
Record HistoryMutation := mkMutation { muVersion : Z; muEpoch : Z; muKind : mutation }.

(** What a history needs of a journal. *)
Class HistoryJournal (J : Type) := {
  Load : J → result HistErr HistorySnapshot;
  Record_ : J → HistoryMutation → J * option HistErr;
  JCheckpoint : J → HistorySnapshot → J * option HistErr
}.

(** ** The history *)

Record HistoryOptions := mkOptions {
  MaxPacketsPerStream : Z;
  oSchemaVersion : Z;
  MaxPayloadBytes : Z;
  MaxStreams : Z;
  oEpoch : Z;
  IdleTTL : Z;
  PruneAcknowledged : bool
}.

Record streamState := mkState {
  latest : Z;
  acked : Z;
  dropped : Z;
  pruned : Z;
  schema : Z;
  activity : Z;
  items : list Packet
}.

Record History (J : Type) := mkHistory {
  options : HistoryOptions;
  epoch : Z;
  journal : option J;
  streams : gmap streamKey streamState;
  sequenceFloor : Z;
  revision : Z
}.
Arguments mkHistory {J}.
Arguments options {J}.
Arguments epoch {J}.
Arguments journal {J}.
Arguments streams {J}.
Arguments sequenceFloor {J}.
Arguments revision {J}.

Definition normalizeOptions (o : HistoryOptions) (fresh : Z) : HistoryOptions :=
  mkOptions (if MaxPacketsPerStream o <=? 0 then 256 else MaxPacketsPerStream o)
            (if oSchemaVersion o =? 0 then 1 else oSchemaVersion o)
            (MaxPayloadBytes o) (MaxStreams o)
            (if oEpoch o =? 0 then fresh else oEpoch o)
            (IdleTTL o) (PruneAcknowledged o).

(** [fresh] is the result of [newEpoch]. *)
Definition NewHistory {J} (o : HistoryOptions) (fresh : Z) : History J :=
  let o := normalizeOptions o fresh in mkHistory o (oEpoch o) None ∅ 0 0.

Section History.
Context {J : Type} `{HistoryJournal J}.
Implicit Types h : History J.

(** [history.journal.Record] of one mutation, when there is a journal. *)
Definition record h (e : Z) (m : mutation) : History J * option HistErr :=
  match journal h with
  | None => (h, None)
  | Some j =>
      let '(j', err) := Record_ j (mkMutation HistoryMutationVersion e m) in
      (mkHistory (options h) (epoch h) (Some j') (streams h) (sequenceFloor h) (revision h), err)
  end.

Definition set_streams h (ss : gmap streamKey streamState) : History J :=
  mkHistory (options h) (epoch h) (journal h) ss (sequenceFloor h) (u64 (revision h + 1)).

(** [appendLocked].  The code inserts the new stream's state first and takes
    it out again when the journal fails; no error can come in between. *)
Definition appendLocked h (packet : Packet) (now : Z) : History J * result HistErr Packet :=
  let key := pkKey packet in
  let existing := streams h !! key in
  let created := match existing with None => true | Some _ => false end in
  if created && (0 <? MaxStreams (options h)) && (MaxStreams (options h) <=? Z.of_nat (size (streams h)))
  then (h, Err ErrStreamLimit)
  else
    let state := default (mkState (sequenceFloor h) (sequenceFloor h) 0 0 0 0 []) existing in
    let version := if pkSchema packet =? 0 then oSchemaVersion (options h) else pkSchema packet in
    if negb created && negb (version =? schema state) && negb (pkFull packet)
    then (h, Err ErrSchemaTransitionRequiresFull)
    else
      let sequence := u64 (latest state + 1) in
      let base := if pkFull packet || created then 0 else latest state in
      let packet := mkPacket (pkObserver packet) (pkStream packet) (epoch h) sequence base version
                             (pkFull packet) (pkCritical packet) (pkPayload packet) in
      let '(h, err) := record h (epoch h) (MAppend packet now) in
      match err with
      | Some e => (h, Err e)
      | None =>
          let floor := if sequenceFloor h <? sequence then sequence else sequenceFloor h in
          let kept := items state ++ [packet] in
          let overflow := zlen kept - MaxPacketsPerStream (options h) in
          let state :=
            if 0 <? overflow
            then mkState sequence (acked state) (u64 (dropped state + overflow)) (pruned state) version now (zdrop overflow kept)
            else mkState sequence (acked state) (dropped state) (pruned state) version now kept in
          (mkHistory (options h) (epoch h) (journal h) (<[key := state]> (streams h)) floor (u64 (revision h + 1)), Ok packet)
      end.

Definition checkPacket h (packet : Packet) : option HistErr :=
  if bool_decide (stTopic (pkStream packet) = []) then Some ErrTopicRequired
  else if (0 <? MaxPayloadBytes (options h)) && (MaxPayloadBytes (options h) <? zlen (pkPayload packet)) then Some ErrPayloadTooLarge
  else None.

Definition Append h (packet : Packet) (now : Z) : History J * result HistErr Packet :=
  match checkPacket h packet with
  | Some e => (h, Err e)
  | None => appendLocked h packet now
  end.

Definition appendIfUnchanged h (packet : Packet) (observed : Z) (now : Z) : History J * result HistErr Packet :=
  match checkPacket h packet with
  | Some e => (h, Err e)
  | None => if negb (revision h =? observed) then (h, Err ErrRecoverStale) else appendLocked h packet now
  end.

(** The number of leading packets up to [sequence]. *)
Fixpoint prunable (sequence : Z) (l : list Packet) : nat :=
  match l with
  | [] => 0
  | p :: l' => if pkSequence p <=? sequence then S (prunable sequence l') else 0
  end.

Definition AcknowledgeEpoch h (key : streamKey) (e sequence : Z) (now : Z) : History J * option HistErr :=
  if negb (e =? epoch h) then (h, Some ErrAckEpochMismatch)
  else match streams h !! key with
       | None => (h, if sequence =? 0 then None else Some ErrAckAhead)
       | Some state =>
           if latest state <? sequence then (h, Some ErrAckAhead)
           else if acked state <? sequence then
             let prune := PruneAcknowledged (options h) in
             let '(h, err) := record h (epoch h) (MAcknowledge key sequence prune now) in
             match err with
             | Some e => (h, Some e)
             | None =>
                 let n := if prune then prunable sequence (items state) else 0%nat in
                 let state := mkState (latest state) sequence (dropped state) (u64 (pruned state + Z.of_nat n))
                                      (schema state) now (drop n (items state)) in
                 (set_streams h (<[key := state]> (streams h)), None)
             end
           else (h, None)
       end.
Definition Acknowledge h (key : streamKey) (sequence now : Z) : History J * option HistErr :=
  AcknowledgeEpoch h key (epoch h) sequence now.

(** ** Resynchronization *)

Inductive ResyncReason : Type :=
| ResyncNone | ResyncHistoryMissing | ResyncHistoryGap | ResyncSchemaMismatch | ResyncClientAhead | ResyncEpochMismatch.

Record ResyncRequest := mkRequest { rqKey : streamKey; rqEpoch : Z; rqAfter : Z; rqSchema : Z }.
Record ResyncResult := mkResync { rsPackets : list Packet; rsFull : bool; rsReason : ResyncReason; rsLatest : Z }.

(** The packets from the first one after [after]. *)
Fixpoint candidates (after : Z) (l : list Packet) : list Packet :=
  match l with
  | [] => []
  | p :: l' => if after <? pkSequence p then l else candidates after l'
  end.

Fixpoint chained (schema previous : Z) (l : list Packet) : bool :=
  match l with
  | [] => true
  | p :: l' =>
      if negb (pkSchema p =? schema) || (negb (pkFull p) && negb (pkBase p =? previous)) then false
      else chained schema (pkSequence p) l'
  end.

Definition Resync h (request : ResyncRequest) : ResyncResult :=
  if negb (rqEpoch request =? 0) && negb (rqEpoch request =? epoch h) then mkResync [] true ResyncEpochMismatch 0
  else match streams h !! rqKey request with
       | None => mkResync [] true ResyncHistoryMissing 0
       | Some state =>
           let refuse reason := mkResync [] true reason (latest state) in
           if latest state <? rqAfter request then refuse ResyncClientAhead
           else if negb (rqSchema request =? 0) && (0 <? latest state) && negb (schema state =? rqSchema request) then refuse ResyncSchemaMismatch
           else if rqAfter request =? latest state then mkResync [] false ResyncNone (latest state)
           else match candidates (rqAfter request) (items state) with
                | [] => refuse ResyncHistoryGap
                | first :: rest =>
                    if negb (rqSchema request =? 0) && negb (pkSchema first =? rqSchema request) then refuse ResyncSchemaMismatch
                    else if negb (pkFull first) && negb (pkBase first =? rqAfter request) then refuse ResyncHistoryGap
                    else if negb (chained (pkSchema first) (pkSequence first) rest) then refuse ResyncHistoryGap
                    else mkResync (first :: rest) false ResyncNone (latest state)
                end
       end.

(** The first part of [Recover]: the replay, or the observation to commit a
    snapshot under. *)
Definition recoverBegin h (request : ResyncRequest) : ResyncResult * Z := (Resync h request, revision h).

(** The rest of [Recover], when the provider has returned [provided]; [h] is
    the history at that time. *)
Definition recoverEnd h (request : ResyncRequest) (begun : ResyncResult * Z)
    (provider : option (result HistErr Packet)) (now : Z) : History J * ResyncResult * option HistErr :=
  let '(resynced, observed) := begun in
  if negb (rsFull resynced) then (h, resynced, None)
  else match provider with
       | None => (h, resynced, Some ErrSnapshotProviderRequired)
       | Some (Err e) => (h, resynced, Some e)
       | Some (Ok packet) =>
           let packet := mkPacket (fst (rqKey request)) (snd (rqKey request)) (pkEpoch packet) (pkSequence packet) (pkBase packet)
                           (if pkSchema packet =? 0 then rqSchema request else pkSchema packet) true (pkCritical packet) (pkPayload packet) in
           let '(h, r) := appendIfUnchanged h packet observed now in
           match r with
           | Err e => (h, resynced, Some e)
           | Ok packet => (h, mkResync [packet] false (rsReason resynced) (pkSequence packet), None)
           end
       end.

(** ** Lifecycle *)

(** [fresh] is [newEpoch]'s answer when [e] is zero. *)
Definition RotateEpoch h (e fresh : Z) : History J * option HistErr :=
  let e := if e =? 0 then fresh else e in
  if e =? epoch h then (h, None)
  else
    let '(h, err) := record h e MRotateEpoch in
    match err with
    | Some x => (h, Some x)
    | None => (mkHistory (options h) e (journal h) ∅ 0 (u64 (revision h + 1)), None)
    end.

Definition DeleteStream h (key : streamKey) : History J * option HistErr :=
  match streams h !! key with
  | None => (h, None)
  | Some _ =>
      let '(h, err) := record h (epoch h) (MDelete key) in
      match err with
      | Some x => (h, Some x)
      | None => (set_streams h (delete key (streams h)), None)
      end
  end.

Definition DeleteObserver h (observer : Observer) : History J * result HistErr Z :=
  let mine := filter (λ kv, fst (fst kv) = observer) (streams h) in
  let count := Z.of_nat (size mine) in
  if count =? 0 then (h, Ok 0)
  else
    let '(h, err) := record h (epoch h) (MDeleteView observer) in
    match err with
    | Some x => (h, Err x)
    | None => (set_streams h (filter (λ kv, fst (fst kv) ≠ observer) (streams h)), Ok count)
    end.

(** The idle, fully acknowledged streams.  The order in which Go's map yields
    them shows in the mutation only, whose replay does not depend on it. *)
Definition idle h (cutoff : Z) : list streamKey :=
  map fst (filter (λ kv, latest (snd kv) ≤ acked (snd kv) ∧ activity (snd kv) ≠ 0 ∧ activity (snd kv) ≤ cutoff)
                  (map_to_list (streams h))).

Definition SweepIdle h (now : Z) : History J * result HistErr Z :=
  if IdleTTL (options h) <=? 0 then (h, Ok 0)
  else
    let keys := idle h (i64 (now - IdleTTL (options h))) in
    match keys with
    | [] => (h, Ok 0)
    | _ =>
        let '(h, err) := record h (epoch h) (MSweep keys) in
        match err with
        | Some x => (h, Err x)
        | None => (set_streams h (foldr delete (streams h) keys), Ok (zlen keys))
        end
    end.

(** ** Status *)

Record StreamStatus := mkStatus {
  ssEpoch : Z; ssLatest : Z; ssAcked : Z; ssOldest : Z; ssPending : Z; ssDropped : Z; ssPruned : Z; ssRetained : Z
}.
Definition Status h (key : streamKey) : StreamStatus :=
  match streams h !! key with
  | None => mkStatus 0 0 0 0 0 0 0 0
  | Some s =>
      mkStatus (epoch h) (latest s) (acked s) (match items s with p :: _ => pkSequence p | [] => 0 end)
               (u64 (latest s - acked s)) (dropped s) (pruned s) (zlen (items s))
  end.

(** ** Export and import *)

Definition exportOne (kv : streamKey * streamState) : HistoryStreamSnapshot :=
  let '((observer, stream), s) := kv in
  mkStreamSnapshot observer stream (latest s) (acked s) (dropped s) (pruned s) (schema s) (activity s) (items s).

(** The bytewise order of strings. *)
Fixpoint bytes_lt (a b : bytes) : bool :=
  match a, b with
  | [], _ :: _ => true
  | x :: a', y :: b' => if x =? y then bytes_lt a' b' else x <? y
  | _, [] => false
  end.

(** The comparison of [sort.Slice]. *)
Definition stream_less (a b : HistoryStreamSnapshot) : bool :=
  let oa := hsObserver a in
  let ob := hsObserver b in
  if negb (bool_decide (obScope oa = obScope ob)) then bytes_lt (obScope oa) (obScope ob)
  else if negb (obKind oa =? obKind ob) then obKind oa <? obKind ob
  else if negb (obID oa =? obID ob) then obID oa <? obID ob
  else if negb (obSession oa =? obSession ob) then obSession oa <? obSession ob
  else if negb (bool_decide (stTopic (hsStream a) = stTopic (hsStream b))) then bytes_lt (stTopic (hsStream a)) (stTopic (hsStream b))
  else stKey (hsStream a) <? stKey (hsStream b).
Definition stream_le (a b : HistoryStreamSnapshot) : Prop := stream_less b a = false.
#[export] Instance stream_le_dec a b : Decision (stream_le a b).
Proof. unfold stream_le. apply _. Defined.

Definition exportStreams (e floor : Z) (ss : gmap streamKey streamState) : HistorySnapshot :=
  mkSnapshot HistorySnapshotVersion e (merge_sort stream_le (map exportOne (map_to_list ss))) floor.
Definition Export h : HistorySnapshot := exportStreams (epoch h) (sequenceFloor h) (streams h).

(** The packets of one stream; [previous] is the packet before. *)
Fixpoint importPackets (maxPayload e : Z) (item : HistoryStreamSnapshot) (previous : option Packet) (l : list Packet) : result HistErr unit :=
  match l with
  | [] => Ok tt
  | p :: l' =>
      _ ← guard_err (negb (bool_decide (pkObserver p = hsObserver item)) || negb (bool_decide (pkStream p = hsStream item)) ||
                     negb (pkEpoch p =? e) || (pkSequence p =? 0) || (pkSchema p =? 0)) ErrInvalidSnapshot;
      _ ← guard_err ((0 <? maxPayload) && (maxPayload <? zlen (pkPayload p))) ErrPayloadTooLarge;
      _ ← match previous with
          | None => guard_err (negb (pkFull p) && negb (pkBase p =? 0) && negb (u64 (pkBase p + 1) =? pkSequence p)) ErrInvalidSnapshot
          | Some q =>
              _ ← guard_err (negb (pkSequence p =? u64 (pkSequence q + 1)) || (negb (pkFull p) && negb (pkBase p =? pkSequence q))) ErrInvalidSnapshot;
              guard_err (negb (pkSchema p =? pkSchema q) && negb (pkFull p)) ErrInvalidSnapshot
          end;
      _ ← guard_err (pkFull p && negb (pkBase p =? 0)) ErrInvalidSnapshot;
      importPackets maxPayload e item (Some p) l'
  end.

Definition importOne h (e now : Z) (item : HistoryStreamSnapshot) : result HistErr streamState :=
  _ ← guard_err ((hsLatest item <? hsAcked item) ||
                 ((0 <? hsLatest item) && bool_decide (hsPackets item = []) && negb (hsAcked item =? hsLatest item))) ErrInvalidSnapshot;
  _ ← importPackets (MaxPayloadBytes (options h)) e item None (hsPackets item);
  _ ← match last (hsPackets item) with
      | Some p => guard_err (negb (pkSequence p =? hsLatest item)) ErrInvalidSnapshot
      | None => Ok tt
      end;
  let overflow := zlen (hsPackets item) - MaxPacketsPerStream (options h) in
  let kept := if 0 <? overflow then zdrop overflow (hsPackets item) else hsPackets item in
  let drops := if 0 <? overflow then u64 (hsDropped item + overflow) else hsDropped item in
  let version := match last kept with Some p => pkSchema p | None => hsSchema item end in
  _ ← guard_err ((0 <? hsLatest item) && (version =? 0)) ErrInvalidSnapshot;
  Ok (mkState (hsLatest item) (hsAcked item) drops (hsPruned item) version
              (if hsActivity item =? 0 then now else hsActivity item) kept).

Fixpoint importStreams h (e now : Z) (l : list HistoryStreamSnapshot) (ss : gmap streamKey streamState) : result HistErr (gmap streamKey streamState) :=
  match l with
  | [] => Ok ss
  | item :: l' =>
      _ ← guard_err (bool_decide (stTopic (hsStream item) = [])) ErrInvalidSnapshot;
      _ ← guard_err (bool_decide (is_Some (ss !! hsKey item))) ErrInvalidSnapshot;
      state ← importOne h e now item;
      importStreams h e now l' (<[hsKey item := state]> ss)
  end.

Definition maxLatest (floor : Z) (ss : gmap streamKey streamState) : Z :=
  fold_right (λ s floor, if floor <? latest s then latest s else floor) floor (map snd (map_to_list ss)).

Definition Import h (snapshot : HistorySnapshot) (now : Z) : History J * option HistErr :=
  let checked :=
    _ ← guard_err (negb (snVersion snapshot =? HistorySnapshotVersion)) ErrInvalidSnapshot;
    _ ← guard_err (snEpoch snapshot =? 0) ErrInvalidSnapshot;
    _ ← guard_err ((0 <? MaxStreams (options h)) && (MaxStreams (options h) <? zlen (snStreams snapshot))) ErrStreamLimit;
    importStreams h (snEpoch snapshot) now (snStreams snapshot) ∅ in
  match checked with
  | Err e => (h, Some e)
  | Ok ss =>
      let floor := maxLatest (snFloor snapshot) ss in
      let published :=
        match journal h with
        | None => (None, None)
        | Some j => let '(j', err) := JCheckpoint j (exportStreams (snEpoch snapshot) floor ss) in (Some j', err)
        end in
      match published with
      | (j', Some e) => (mkHistory (options h) (epoch h) j' (streams h) (sequenceFloor h) (revision h), Some e)
      | (j', None) => (mkHistory (options h) (snEpoch snapshot) j' ss floor (u64 (revision h + 1)), None)
      end
  end.

Definition Checkpoint h : History J * option HistErr :=
  match journal h with
  | None => (h, Some ErrHistoryJournalRequired)
  | Some j =>
      let '(j', err) := JCheckpoint j (Export h) in
      (mkHistory (options h) (epoch h) (Some j') (streams h) (sequenceFloor h) (revision h), err)
  end.

Definition NewHistoryWithJournal (o : HistoryOptions) (fresh : Z) (j : option J) (now : Z) : result HistErr (History J) :=
  match j with
  | None => Err ErrHistoryJournalRequired
  | Some j =>
      snapshot ← Load j;
      match Import (NewHistory o fresh) snapshot now with
      | (_, Some e) => Err e
      | (h, None) => Ok (mkHistory (options h) (epoch h) (Some j) (streams h) (sequenceFloor h) (revision h))
      end
  end.
End History.
