(* ===== verification/SyncJournal.v ===== *)
(** * The file journal of a history (framework/sync/syncstream/file_journal.go)

    Replaying the write-ahead log, and the journal of checkpoint and log
    generations.  A history calls its journal under its own lock, so the
    batches of the group commit hold one record here.  What the file system
    does is an input, [fate]: one outcome per write.  A log is the list of its
    complete records, and an unterminated tail, which recovery skips, is no
    record; file names are not modelled.  Records and checkpoints go through
    encoding/json, which keeps their numbers and payloads but replaces what is
    not UTF-8 in topics and scopes. *)

From S2P Require Import Prelude Bytes GoJson SyncHistory.

(** ** What encoding/json keeps *)

(** A string after [json.Marshal] and [json.Unmarshal]: every byte that is not
    part of a UTF-8 rune has become U+FFFD.  [skip] bytes are the rest of a
    rune already copied. *)
Fixpoint jsonText (skip : nat) (s : bytes) : bytes :=
  match s with
  | [] => []
  | c :: s' =>
      match skip with
      | S k => c :: jsonText k s'
      | O =>
          if c <? 128 then c :: jsonText 0 s'
          else match rune_width s with
               | None => [0xEF; 0xBF; 0xBD] ++ jsonText 0 s'
               | Some w => c :: jsonText (pred w) s'
               end
      end
  end.

Definition jsonObserver (o : Observer) : Observer := mkObserver (obKind o) (obID o) (obSession o) (jsonText 0 (obScope o)).
Definition jsonStream (s : Stream) : Stream := mkStream (jsonText 0 (stTopic s)) (stKey s).
Definition jsonKey (k : streamKey) : streamKey := (jsonObserver (fst k), jsonStream (snd k)).
Definition jsonPacket (p : Packet) : Packet :=
  mkPacket (jsonObserver (pkObserver p)) (jsonStream (pkStream p)) (pkEpoch p) (pkSequence p) (pkBase p) (pkSchema p)
           (pkFull p) (pkCritical p) (pkPayload p).

Definition jsonMutation (m : HistoryMutation) : HistoryMutation :=
  mkMutation (muVersion m) (muEpoch m)
    match muKind m with
    | MAppend packet at_ => MAppend (jsonPacket packet) at_
    | MAcknowledge key sequence prune at_ => MAcknowledge (jsonKey key) sequence prune at_
    | MDelete key => MDelete (jsonKey key)
    | MDeleteView observer => MDeleteView (jsonObserver observer)
    | MSweep targets => MSweep (jsonKey <$> targets)
    | MRotateEpoch => MRotateEpoch
    end.

Definition jsonStreamSnapshot (s : HistoryStreamSnapshot) : HistoryStreamSnapshot :=
  mkStreamSnapshot (jsonObserver (hsObserver s)) (jsonStream (hsStream s)) (hsLatest s) (hsAcked s) (hsDropped s) (hsPruned s)
                   (hsSchema s) (hsActivity s) (jsonPacket <$> hsPackets s).
Definition jsonSnapshot (s : HistorySnapshot) : HistorySnapshot :=
  mkSnapshot (snVersion s) (snEpoch s) (jsonStreamSnapshot <$> snStreams s) (snFloor s).

Example json_text : jsonText 0 ([97; 255] ++ [0xC3; 0xA9] ++ [0xC3]) = [97; 0xEF; 0xBF; 0xBD; 0xC3; 0xA9; 0xEF; 0xBF; 0xBD].
Proof. reflexivity. Qed.

(** ** Replaying mutations *)

Fixpoint findStream (key : streamKey) (l : list HistoryStreamSnapshot) : option HistoryStreamSnapshot :=
  match l with
  | [] => None
  | s :: l' => if bool_decide (hsKey s = key) then Some s else findStream key l'
  end.
(** Write back the entry found. *)
Fixpoint replaceStream (key : streamKey) (v : HistoryStreamSnapshot) (l : list HistoryStreamSnapshot) : list HistoryStreamSnapshot :=
  match l with
  | [] => []
  | s :: l' => if bool_decide (hsKey s = key) then v :: l' else s :: replaceStream key v l'
  end.
Fixpoint removeStream (key : streamKey) (l : list HistoryStreamSnapshot) : list HistoryStreamSnapshot :=
  match l with
  | [] => []
  | s :: l' => if bool_decide (hsKey s = key) then l' else s :: removeStream key l'
  end.

Definition replayAppend (s : HistorySnapshot) (packet : Packet) (at_ : Z) : result HistErr HistorySnapshot :=
  let found := findStream (pkKey packet) (snStreams s) in
  let value := default (mkStreamSnapshot (pkObserver packet) (pkStream packet) 0 0 0 0 0 0 []) found in
  let all := match found with Some _ => snStreams s | None => snStreams s ++ [value] end in
  let started := negb (hsLatest value =? 0) || (0 <? zlen (hsPackets value)) in
  if started && negb (pkSequence packet =? u64 (hsLatest value + 1)) then Err ErrInvalidSnapshot
  else if negb started && (pkSequence packet =? 0) then Err ErrInvalidSnapshot
  else
    let acked := if started then hsAcked value else u64 (pkSequence packet - 1) in
    let floor := if snFloor s <? pkSequence packet then pkSequence packet else snFloor s in
    let value := mkStreamSnapshot (hsObserver value) (hsStream value) (pkSequence packet) acked (hsDropped value) (hsPruned value)
                                  (pkSchema packet) at_ (hsPackets value ++ [packet]) in
    Ok (mkSnapshot (snVersion s) (snEpoch s) (replaceStream (pkKey packet) value all) floor).

Definition replayAcknowledge (s : HistorySnapshot) (key : streamKey) (sequence : Z) (prune : bool) (at_ : Z) : result HistErr HistorySnapshot :=
  match findStream key (snStreams s) with
  | None => Err ErrInvalidSnapshot
  | Some value =>
      if hsLatest value <? sequence then Err ErrInvalidSnapshot
      else if hsAcked value <? sequence then
        let n := if prune then prunable sequence (hsPackets value) else 0%nat in
        let value := mkStreamSnapshot (hsObserver value) (hsStream value) (hsLatest value) sequence (hsDropped value)
                                      (u64 (hsPruned value + Z.of_nat n)) (hsSchema value) at_ (drop n (hsPackets value)) in
        Ok (mkSnapshot (snVersion s) (snEpoch s) (replaceStream key value (snStreams s)) (snFloor s))
      else Ok s
  end.

Definition set_snStreams (s : HistorySnapshot) (l : list HistoryStreamSnapshot) : HistorySnapshot :=
  mkSnapshot (snVersion s) (snEpoch s) l (snFloor s).

Definition replayHistoryMutation (s : HistorySnapshot) (m : HistoryMutation) : result HistErr HistorySnapshot :=
  if negb (muVersion m =? HistoryMutationVersion) then Err ErrInvalidSnapshot
  else match muKind m with
       | MRotateEpoch => Ok (mkSnapshot (snVersion s) (muEpoch m) [] 0)
       | kind =>
           let s := if snEpoch s =? 0 then mkSnapshot (snVersion s) (muEpoch m) (snStreams s) (snFloor s) else s in
           if negb (muEpoch m =? snEpoch s) then Err ErrInvalidSnapshot
           else match kind with
                | MAppend packet at_ => replayAppend s packet at_
                | MAcknowledge key sequence prune at_ => replayAcknowledge s key sequence prune at_
                | MDelete key => Ok (set_snStreams s (removeStream key (snStreams s)))
                | MDeleteView observer => Ok (set_snStreams s (filter (λ v, hsObserver v ≠ observer) (snStreams s)))
                | MSweep targets => Ok (set_snStreams s (fold_left (λ l key, removeStream key l) targets (snStreams s)))
                | MRotateEpoch => Ok s
                end
       end.

Fixpoint replayWAL (wal : list HistoryMutation) (s : HistorySnapshot) : result HistErr HistorySnapshot :=
  match wal with
  | [] => Ok s
  | m :: wal' => s ← replayHistoryMutation s m; replayWAL wal' s
  end.

(** ** The journal *)

(** How one write goes. *)
Inductive outcome : Type :=
| Written                         (** durable, and reported so *)
| Prevented                       (** refused before the first byte *)
| Indeterminate (durable : bool). (** reported as failed *)

Record FileHistoryJournal := mkJournal {
  initialEpoch : Z;
  generation : Z;                       (** the newest on disk *)
  checkpoint : option HistorySnapshot;  (** of the newest generation; [None] before the first *)
  wal : list HistoryMutation;           (** of the newest generation *)
  closed : bool;
  failure : bool;
  fate : list outcome                   (** the coming writes; all succeed after its end *)
}.

(** [NewFileHistoryJournal] in an empty directory, and over what an earlier
    journal left in it. *)
Definition NewFileHistoryJournal (initial fresh : Z) (fate : list outcome) : FileHistoryJournal :=
  mkJournal (if initial =? 0 then fresh else initial) 1 None [] false false fate.
Definition reopen (j : FileHistoryJournal) (initial fresh : Z) (fate : list outcome) : FileHistoryJournal :=
  mkJournal (if initial =? 0 then fresh else initial) (generation j) (checkpoint j) (wal j) false false fate.

Definition loadFiles (j : FileHistoryJournal) : result HistErr HistorySnapshot :=
  match checkpoint j with
  | None =>
      match wal j with
      | [] => Ok (mkSnapshot HistorySnapshotVersion (initialEpoch j) [] 0)
      | records => replayWAL records (mkSnapshot HistorySnapshotVersion 0 [] 0)
      end
  | Some snapshot => replayWAL (wal j) snapshot
  end.

Definition LoadFile (j : FileHistoryJournal) : result HistErr HistorySnapshot :=
  if closed j then Err ErrHistoryJournalClosed else loadFiles j.

Definition nextOutcome (j : FileHistoryJournal) : outcome * list outcome :=
  match fate j with [] => (Written, []) | o :: rest => (o, rest) end.

Definition RecordFile (j : FileHistoryJournal) (m : HistoryMutation) : FileHistoryJournal * option HistErr :=
  if closed j then (j, Some ErrHistoryJournalClosed)
  else if negb (muVersion m =? HistoryMutationVersion) then (j, Some ErrInvalidSnapshot)
  else if failure j then (j, Some ErrHistoryJournalFailed)
  else
    let '(o, rest) := nextOutcome j in
    let after w bad := mkJournal (initialEpoch j) (generation j) (checkpoint j) w (closed j) bad rest in
    match o with
    | Written => (after (wal j ++ [jsonMutation m]) false, None)
    | Prevented => (after (wal j) false, Some ErrOther)
    | Indeterminate durable => (after (if durable then wal j ++ [jsonMutation m] else wal j) true, Some ErrHistoryJournalFailed)
    end.

Definition CheckpointFile (j : FileHistoryJournal) (s : HistorySnapshot) : FileHistoryJournal * option HistErr :=
  if closed j then (j, Some ErrHistoryJournalClosed)
  else if failure j then (j, Some ErrHistoryJournalFailed)
  else
    let '(o, rest) := nextOutcome j in
    let kept bad := mkJournal (initialEpoch j) (generation j) (checkpoint j) (wal j) (closed j) bad rest in
    match o with
    | Written => (mkJournal (initialEpoch j) (u64 (generation j + 1)) (Some (jsonSnapshot s)) [] (closed j) false rest, None)
    | Prevented => (kept false, Some ErrOther)
    | Indeterminate false => (kept true, Some ErrHistoryJournalFailed)
    | Indeterminate true => (mkJournal (initialEpoch j) (u64 (generation j + 1)) (Some (jsonSnapshot s)) [] (closed j) true rest, Some ErrHistoryJournalFailed)
    end.

#[export] Instance FileJournal : HistoryJournal FileHistoryJournal := {
  Load := LoadFile;
  Record_ := RecordFile;
  JCheckpoint := CheckpointFile
}.

Definition Close (j : FileHistoryJournal) : FileHistoryJournal :=
  mkJournal (initialEpoch j) (generation j) (checkpoint j) (wal j) true (failure j) (fate j).
