(* ===== verification/SyncHistoryInv.v ===== *)
(** * What a history of streams keeps true

    The chains of packets, and the relation between a history and the
    snapshot that stands for it in a journal. *)

From S2P Require Import Prelude Bytes SyncHistory SyncJournal.

(** ** Chains *)

Definition payload_ok (o : HistoryOptions) (p : Packet) : Prop := MaxPayloadBytes o ≤ 0 ∨ zlen (pkPayload p) ≤ MaxPayloadBytes o.

(** A packet of the stream. *)
Record packet_ok (o : HistoryOptions) (e : Z) (key : streamKey) (p : Packet) : Prop := {
  po_key : pkKey p = key;
  po_epoch : pkEpoch p = e;
  po_sequence : 0 < pkSequence p < 2^64;
  po_schema : pkSchema p ≠ 0;
  po_payload : payload_ok o p;
  po_full : pkFull p = true → pkBase p = 0
}.

(** [q] may follow [p]. *)
Definition follows (p q : Packet) : Prop :=
  pkSequence q = pkSequence p + 1 ∧ (pkFull q = true ∨ pkBase q = pkSequence p ∧ pkSchema q = pkSchema p).
Fixpoint chain (p : Packet) (l : list Packet) : Prop :=
  match l with [] => True | q :: l' => follows p q ∧ chain q l' end.
Definition starts (p : Packet) : Prop := pkFull p = true ∨ pkBase p = 0 ∨ pkBase p + 1 = pkSequence p.

Record packets_ok (o : HistoryOptions) (e : Z) (key : streamKey) (top : Z) (l : list Packet) : Prop := {
  ps_each : Forall (packet_ok o e key) l;
  ps_chain : match l with [] => True | p :: l' => starts p ∧ chain p l' end;
  ps_last : ∀ p, last l = Some p → pkSequence p = top
}.

Lemma follows_starts p q : follows p q → starts q.
Proof. unfold follows, starts. intros [H1 [?|[H2 _]]]; [by left|right; right; lia]. Qed.

Lemma chain_snoc p l q : chain p l → (∀ x, last (p :: l) = Some x → follows x q) → chain p (l ++ [q]).
Proof.
  revert p. induction l as [|y l IH]; intros p Hc Hq; cbn [chain app] in *; [by split; [apply Hq|]|].
  destruct Hc as [Hy Hc]. split; [done|]. apply IH; [done|]. intros x Hx. apply Hq. by rewrite last_cons_cons.
Qed.

Lemma packets_snoc o e key top l q :
  packets_ok o e key top l → packet_ok o e key q → (l = [] → starts q) → (∀ x, last l = Some x → follows x q) →
  packets_ok o e key (pkSequence q) (l ++ [q]).
Proof.
  intros [H1 H2 H3] Hq Hs Hf. split.
  - apply Forall_app. split; [done|by constructor].
  - destruct l as [|p l]; cbn [app]; [split; [by apply Hs|done]|]. destruct H2 as [? Hc]. split; [done|by apply chain_snoc].
  - intros p Hp. rewrite last_snoc in Hp. by injection Hp as <-.
Qed.

Lemma packets_drop n o e key top l : packets_ok o e key top l → packets_ok o e key top (drop n l).
Proof.
  revert n. induction l as [|p l IH]; intros n [H1 H2 H3]; [by rewrite drop_nil|]. destruct n as [|n]; [by rewrite drop_0|]. cbn [drop].
  apply IH. split.
  - by apply Forall_cons in H1 as [_ ?].
  - destruct l as [|q l]; [done|]. destruct H2 as [_ [Hf Hc]]. split; [by eapply follows_starts|done].
  - intros x Hx. apply H3. destruct l; [done|]. by rewrite last_cons_cons.
Qed.

(** Sequences count up to the last. *)
Lemma chain_sequence p l : chain p l → ∀ i q, (p :: l) !! i = Some q → pkSequence q = pkSequence p + Z.of_nat i.
Proof.
  revert p. induction l as [|y l IH]; intros p Hc i q Hi.
  - destruct i as [|[|]]; cbn in Hi; try done. injection Hi as <-. lia.
  - destruct Hc as [[Hy _] Hc]. destruct i as [|i]; [injection Hi as <-; lia|]. rewrite (IH y Hc i q Hi). lia.
Qed.

Lemma prunable_le n l : (prunable n l ≤ length l)%nat.
Proof. induction l as [|p l IH]; cbn [prunable length]; [lia|]. case_match; lia. Qed.

(** What is pruned of a suffix. *)
Lemma prunable_chain p l n : chain p l →
  prunable n (p :: l) = Z.to_nat (Z.min (Z.of_nat (S (length l))) (Z.max 0 (n - pkSequence p + 1))).
Proof.
  revert p. induction l as [|q l IH]; intros p Hc.
  - cbn. destruct (Z.leb_spec (pkSequence p) n); lia.
  - destruct Hc as [[Hq _] Hc]. change (prunable n (p :: q :: l)) with (if pkSequence p <=? n then S (prunable n (q :: l)) else 0%nat).
    destruct (Z.leb_spec (pkSequence p) n); [rewrite (IH q Hc)|]; cbn [length]; lia.
Qed.

Lemma drop_chain p l k q l' : chain p l → drop k (p :: l) = q :: l' → chain q l' ∧ pkSequence q = pkSequence p + Z.of_nat k.
Proof.
  revert p k. induction l as [|y l IH]; intros p k Hc Hd.
  - destruct k as [|k]; cbn in Hd; [injection Hd as <- <-; split; [done|lia]|by rewrite drop_nil in Hd].
  - destruct k as [|k]; [cbn in Hd; injection Hd as <- <-; split; [done|lia]|]. destruct Hc as [[Hy _] Hc]. cbn [drop] in Hd.
    destruct (IH y k Hc Hd). split; [done|lia].
Qed.

(** Pruning and keeping the last packets commute: [drop] counts. *)
Lemma prune_suffix o e key top l k n : packets_ok o e key top l →
  drop (prunable n (drop k l)) (drop k l) = drop (Nat.max k (prunable n l)) l ∧
  (k ≤ length l → prunable n (drop k l) = (prunable n l - k)%nat)%nat.
Proof.
  intros [_ Hc _]. destruct l as [|p l]; [by rewrite !drop_nil|]. destruct Hc as [_ Hc].
  assert (k ≤ length (p :: l) → prunable n (drop k (p :: l)) = prunable n (p :: l) - k)%nat as Hpr.
  { intros Hk. rewrite (prunable_chain p l n Hc). destruct (drop k (p :: l)) as [|q l'] eqn:Ed.
    - assert (length (drop k (p :: l)) = 0%nat) as H0 by (by rewrite Ed). rewrite length_drop in H0. cbn [length prunable] in *. lia.
    - destruct (drop_chain p l k q l' Hc Ed) as [Hc' Hq]. rewrite (prunable_chain q l' n Hc').
      assert (length (drop k (p :: l)) = S (length l')) as H0 by (by rewrite Ed). rewrite length_drop in H0. cbn [length] in *. lia. }
  split; [|done]. rewrite drop_drop. destruct (decide (k ≤ length (p :: l))%nat) as [Hk|Hk].
  - rewrite Hpr by done. f_equal. lia.
  - rewrite !(drop_ge (p :: l)) by lia. done.
Qed.

(** ** Streams *)

Definition keep (o : HistoryOptions) (l : list Packet) : list Packet := drop (Z.to_nat (zlen l - MaxPacketsPerStream o)) l.

(** A stream of a snapshot. *)
Record item_ok (o : HistoryOptions) (e floor : Z) (i : HistoryStreamSnapshot) : Prop := {
  io_topic : stTopic (hsStream i) ≠ [];
  io_latest : 0 < hsLatest i ≤ floor;
  io_acked : 0 ≤ hsAcked i ≤ hsLatest i;
  io_packets : packets_ok o e (hsKey i) (hsLatest i) (hsPackets i);
  io_empty : hsPackets i = [] → hsAcked i = hsLatest i;
  io_schema : hsSchema i ≠ 0 ∧ ∀ p, last (hsPackets i) = Some p → pkSchema p = hsSchema i;
  io_activity : hsActivity i ≠ 0
}.

(** The same stream in memory, which keeps its last packets only.  A packet
    that falls out of the window may be counted as dropped in one and as
    pruned in the other. *)
Record in_memory (o : HistoryOptions) (i : HistoryStreamSnapshot) (s : streamState) : Prop := {
  im_latest : latest s = hsLatest i;
  im_acked : acked s = hsAcked i;
  im_schema : schema s = hsSchema i;
  im_activity : activity s = hsActivity i;
  im_items : items s = keep o (hsPackets i);
  im_counts : u64 (dropped s + pruned s + zlen (items s)) = u64 (hsDropped i + hsPruned i + zlen (hsPackets i))
}.

Lemma u64_eq_add a b c : u64 a = u64 b → u64 (a + c) = u64 (b + c).
Proof. unfold u64. intros H. by rewrite <- Zplus_mod_idemp_l, H, Zplus_mod_idemp_l. Qed.
Lemma u64_drop a b : u64 (u64 a + b) = u64 (a + b).
Proof. unfold u64. by rewrite Zplus_mod_idemp_l. Qed.
Lemma u64_drop_r a b : u64 (a + u64 b) = u64 (a + b).
Proof. unfold u64. by rewrite Zplus_mod_idemp_r. Qed.

Section Streams.
Context (o : HistoryOptions) (Hmax : 0 < MaxPacketsPerStream o).

Lemma zlen_keep l : zlen (keep o l) = Z.min (zlen l) (MaxPacketsPerStream o).
Proof. unfold keep, zlen. rewrite length_drop. lia. Qed.

Lemma last_drop {A} n (l : list A) x : last (drop n l) = Some x → last l = Some x.
Proof.
  revert n. induction l as [|y l IH]; intros n; [by rewrite drop_nil|]. destruct n as [|n]; [by rewrite drop_0|]. cbn [drop]. intros H.
  specialize (IH _ H). destruct l; [done|]. by rewrite last_cons_cons.
Qed.
Lemma last_keep l : last (keep o l) = last l.
Proof.
  destruct (last (keep o l)) as [x|] eqn:E; [symmetry; by eapply last_drop|]. apply last_None in E.
  destruct l as [|p l]; [done|]. assert (zlen (keep o (p :: l)) = 0) as H by (by rewrite E). rewrite zlen_keep, zlen_cons in H. zlen_facts. lia.
Qed.
Lemma keep_nil l : keep o l = [] → l = [].
Proof. intros H. apply last_None. rewrite <- last_keep, H. done. Qed.

(** Appending to what is kept, and dropping what overflows. *)
Lemma keep_snoc l p :
  keep o (l ++ [p]) = (let kept := keep o l ++ [p] in
                       if 0 <? zlen kept - MaxPacketsPerStream o then zdrop (zlen kept - MaxPacketsPerStream o) kept else kept).
Proof.
  cbv zeta. rewrite zlen_app, zlen_keep. change (zlen [p]) with 1. unfold keep. rewrite zlen_app. change (zlen [p]) with 1. zlen_facts.
  destruct (Z.ltb_spec 0 (Z.min (zlen l) (MaxPacketsPerStream o) + 1 - MaxPacketsPerStream o)).
  - replace (Z.min (zlen l) (MaxPacketsPerStream o) + 1 - MaxPacketsPerStream o) with 1 by lia. unfold zdrop.
    replace (Z.to_nat (zlen l + 1 - MaxPacketsPerStream o)) with (Z.to_nat (zlen l - MaxPacketsPerStream o) + 1)%nat by lia.
    rewrite <- drop_drop, drop_app_le by (unfold zlen in *; lia). done.
  - replace (Z.to_nat (zlen l + 1 - MaxPacketsPerStream o)) with 0%nat by lia. replace (Z.to_nat (zlen l - MaxPacketsPerStream o)) with 0%nat by lia. by rewrite !drop_0.
Qed.

(** Pruning what is kept. *)
Lemma keep_prune e key top l n : packets_ok o e key top l →
  drop (prunable n (keep o l)) (keep o l) = keep o (drop (prunable n l) l).
Proof.
  intros H. unfold keep. destruct (prune_suffix o e key top l (Z.to_nat (zlen l - MaxPacketsPerStream o)) n H) as [-> _].
  rewrite drop_drop. pose proof (prunable_le n l). unfold zlen. rewrite length_drop. f_equal. lia.
Qed.
End Streams.

(** ** A snapshot for a history *)

Definition index (s : HistorySnapshot) : gmap streamKey HistoryStreamSnapshot :=
  list_to_map ((λ i, (hsKey i, i)) <$> snStreams s).

Record represents {J} (s : HistorySnapshot) (h : History J) : Prop := {
  rp_version : snVersion s = HistorySnapshotVersion;
  rp_epoch : snEpoch s = epoch h;
  rp_epoch0 : epoch h ≠ 0;
  rp_floor : snFloor s = sequenceFloor h;
  rp_range : 0 ≤ sequenceFloor h < 2^64;
  rp_nodup : NoDup (hsKey <$> snStreams s);
  rp_streams : ∀ k, match index s !! k, streams h !! k with
                    | Some i, Some st => hsKey i = k ∧ item_ok (options h) (epoch h) (sequenceFloor h) i ∧ in_memory (options h) i st
                    | None, None => True
                    | _, _ => False
                    end;
  rp_limit : 0 < MaxStreams (options h) → Z.of_nat (base.size (streams h)) ≤ MaxStreams (options h)
}.

Definition options_ok (o : HistoryOptions) : Prop := 0 < MaxPacketsPerStream o ∧ oSchemaVersion o ≠ 0.

(** *** The list operations of the replay on the index *)

Lemma findStream_index k l : findStream k l = (list_to_map ((λ i, (hsKey i, i)) <$> l) : gmap streamKey HistoryStreamSnapshot) !! k.
Proof.
  induction l as [|i l IH]; cbn [findStream fmap list_fmap list_to_map foldr fst snd]; [by rewrite lookup_empty|].
  case_bool_decide as E; [subst; by rewrite lookup_insert_eq|]. by rewrite lookup_insert_ne.
Qed.

Lemma replaceStream_keys k v l : hsKey v = k → hsKey <$> replaceStream k v l = hsKey <$> l.
Proof. intros Hv. induction l as [|i l IH]; cbn; [done|]. case_bool_decide as E; cbn; [by rewrite Hv, E|by rewrite IH]. Qed.

Lemma replaceStream_index k v l : hsKey v = k → is_Some (findStream k l) → ∀ k',
  findStream k' (replaceStream k v l) = if decide (k' = k) then Some v else findStream k' l.
Proof.
  intros Hv Hs k'. induction l as [|i l IH]; cbn [findStream replaceStream] in *; [by destruct Hs|].
  case_bool_decide as E; cbn [findStream].
  - rewrite Hv. destruct (decide (k' = k)) as [->|Hne]; [by rewrite bool_decide_true|]. rewrite !bool_decide_false by congruence. done.
  - rewrite IH by done. destruct (decide (k' = k)) as [->|Hne]; [by rewrite bool_decide_false|done].
Qed.

Lemma findStream_app k l v : hsKey v = k → findStream k l = None → ∀ k',
  findStream k' (l ++ [v]) = if decide (k' = k) then Some v else findStream k' l.
Proof.
  intros Hv Hn k'. induction l as [|i l IH]; cbn [findStream app] in *.
  - rewrite Hv. destruct (decide (k' = k)) as [->|Hne]; [by rewrite bool_decide_true|by rewrite bool_decide_false by congruence].
  - case_bool_decide as E; [done|]. rewrite IH by done. destruct (decide (k' = k)) as [->|Hne]; [by rewrite bool_decide_false|done].
Qed.

Lemma findStream_none k l : findStream k l = None ↔ k ∉ hsKey <$> l.
Proof.
  induction l as [|i l IH]; cbn [findStream fmap list_fmap]; [split; [intros _; apply not_elem_of_nil|done]|].
  rewrite not_elem_of_cons. case_bool_decide as E; [split; [done|intros [? _]; congruence]|]. rewrite IH. naive_solver.
Qed.

Lemma removeStream_index k l : NoDup (hsKey <$> l) →
  NoDup (hsKey <$> removeStream k l) ∧ ∀ k', findStream k' (removeStream k l) = if decide (k' = k) then None else findStream k' l.
Proof.
  intros Hnd. induction l as [|i l IH]; cbn [removeStream findStream fmap list_fmap] in *; [split; [done|intros k'; by destruct (decide _)]|].
  inversion_clear Hnd as [|? ? Hni Hnd']. destruct (IH Hnd') as [I1 I2]. case_bool_decide as E.
  - split; [done|]. intros k'. destruct (decide (k' = k)) as [->|Hne]; [subst; by apply findStream_none|by rewrite bool_decide_false by congruence].
  - split.
    + cbn. constructor; [|done]. intros Hin. apply (proj2 (findStream_none (hsKey i) l)) in Hni.
      assert (findStream (hsKey i) (removeStream k l) = None) as Hn by (rewrite I2, decide_False by done; done).
      by apply findStream_none in Hn.
    + intros k'. cbn [findStream]. case_bool_decide as E'; [subst; by rewrite decide_False|apply I2].
Qed.

Lemma filter_index (P : streamKey → Prop) `{∀ k, Decision (P k)} l : NoDup (hsKey <$> l) →
  NoDup (hsKey <$> filter (λ i, P (hsKey i)) l) ∧
  ∀ k, findStream k (filter (λ i, P (hsKey i)) l) = if decide (P k) then findStream k l else None.
Proof.
  intros Hnd. induction l as [|i l IH]; [split; [done|intros k; by destruct (decide _)]|].
  cbn in Hnd. inversion_clear Hnd as [|? ? Hni Hnd']. destruct (IH Hnd') as [I1 I2]. destruct (decide (P (hsKey i))) as [HP|HP].
  - rewrite filter_cons_True by done. split.
    + cbn. constructor; [|done]. apply findStream_none. rewrite I2, decide_True by done. by apply findStream_none.
    + intros k. cbn [findStream]. case_bool_decide as E; [subst; by rewrite decide_True|apply I2].
  - rewrite filter_cons_False by done. split; [done|]. intros k. rewrite I2. cbn [findStream].
    destruct (decide (P k)); [|done]. by rewrite bool_decide_false by congruence.
Qed.

Lemma lookup_find s k : index s !! k = findStream k (snStreams s).
Proof. unfold index. by rewrite findStream_index. Qed.

(** ** The effect of a mutation on the memory *)

Section Effects.
Context {J : Type} `{HistoryJournal J}.
Implicit Types h : History J.

Definition memory h : HistoryOptions * Z * gmap streamKey streamState * Z := (options h, epoch h, streams h, sequenceFloor h).

Lemma represents_memory s h h' : memory h = memory h' → represents s h → represents s h'.
Proof. intros [= E1 E2 E3 E4] []. split; rewrite -> ?E1, ?E2, ?E3, ?E4 in *; done. Qed.

Lemma record_memory h e m h' err : record h e m = (h', err) → memory h' = memory h ∧ revision h' = revision h.
Proof. unfold record. destruct (journal h) as [j|]; [|by intros [= <- _]]. destruct (Record_ _ _). by intros [= <- _]. Qed.

Definition startState h : streamState := mkState (sequenceFloor h) (sequenceFloor h) 0 0 0 0 [].
Definition appendState (o : HistoryOptions) (st : streamState) (p : Packet) (now : Z) : streamState :=
  let kept := items st ++ [p] in
  let overflow := zlen kept - MaxPacketsPerStream o in
  if 0 <? overflow
  then mkState (pkSequence p) (acked st) (u64 (dropped st + overflow)) (pruned st) (pkSchema p) now (zdrop overflow kept)
  else mkState (pkSequence p) (acked st) (dropped st) (pruned st) (pkSchema p) now kept.
Definition ackState (st : streamState) (sequence : Z) (prune : bool) (now : Z) : streamState :=
  let n := if prune then prunable sequence (items st) else 0%nat in
  mkState (latest st) sequence (dropped st) (u64 (pruned st + Z.of_nat n)) (schema st) now (drop n (items st)).

Definition after h (e : Z) (m : mutation) : History J :=
  match m with
  | MAppend p now =>
      let st := default (startState h) (streams h !! pkKey p) in
      let floor := if sequenceFloor h <? pkSequence p then pkSequence p else sequenceFloor h in
      mkHistory (options h) (epoch h) (journal h) (<[pkKey p := appendState (options h) st p now]> (streams h)) floor (u64 (revision h + 1))
  | MAcknowledge key sequence prune now =>
      set_streams h (alter (λ st, ackState st sequence prune now) key (streams h))
  | MDelete key => set_streams h (delete key (streams h))
  | MDeleteView observer => set_streams h (filter (λ kv, fst (fst kv) ≠ observer) (streams h))
  | MSweep targets => set_streams h (foldr delete (streams h) targets)
  | MRotateEpoch => mkHistory (options h) e (journal h) ∅ 0 (u64 (revision h + 1))
  end.

(** What holds when an operation records the mutation. *)
Definition valid h (e : Z) (m : mutation) : Prop :=
  match m with
  | MAppend p now =>
      e = epoch h ∧ stTopic (pkStream p) ≠ [] ∧ payload_ok (options h) p ∧ pkEpoch p = epoch h ∧ pkSchema p ≠ 0 ∧ now ≠ 0 ∧
      (pkFull p = true → pkBase p = 0) ∧
      match streams h !! pkKey p with
      | None => pkSequence p = sequenceFloor h + 1 ∧ pkBase p = 0 ∧
                (0 < MaxStreams (options h) → Z.of_nat (base.size (streams h)) < MaxStreams (options h))
      | Some st => pkSequence p = latest st + 1 ∧ (pkFull p = false → pkBase p = latest st ∧ pkSchema p = schema st)
      end
  | MAcknowledge key sequence _ now =>
      e = epoch h ∧ now ≠ 0 ∧ ∃ st, streams h !! key = Some st ∧ acked st < sequence ≤ latest st
  | MRotateEpoch => e ≠ 0
  | _ => e = epoch h
  end.

(** *** The replayed snapshot represents the changed memory *)

Lemma item_ok_floor o e f f' i : f ≤ f' → item_ok o e f i → item_ok o e f' i.
Proof. intros Hf [H1 H2 H3 H4 H5 H6 H7]. split; try done; lia. Qed.

Lemma represents_find s h k st : represents s h → streams h !! k = Some st →
  ∃ i, findStream k (snStreams s) = Some i ∧ hsKey i = k ∧ item_ok (options h) (epoch h) (sequenceFloor h) i ∧ in_memory (options h) i st.
Proof. intros Hr Hk. pose proof (rp_streams s h Hr k) as Hs. rewrite Hk, lookup_find in Hs. destruct (findStream _ _) as [i|]; [|done]. eauto. Qed.
Lemma represents_find_none s h k : represents s h → streams h !! k = None → findStream k (snStreams s) = None.
Proof. intros Hr Hk. pose proof (rp_streams s h Hr k) as Hs. rewrite Hk, lookup_find in Hs. by destruct (findStream _ _). Qed.

(** Replace or add one stream. *)
Lemma represents_insert s h l floor k i st (j : option J) r :
  represents s h → options_ok (options h) → hsKey i = k →
  NoDup (hsKey <$> l) → (∀ k', findStream k' l = if decide (k' = k) then Some i else findStream k' (snStreams s)) →
  sequenceFloor h ≤ floor < 2^64 → item_ok (options h) (epoch h) floor i → in_memory (options h) i st →
  (0 < MaxStreams (options h) → Z.of_nat (base.size (<[k := st]> (streams h))) ≤ MaxStreams (options h)) →
  represents (mkSnapshot (snVersion s) (snEpoch s) l floor) (mkHistory (options h) (epoch h) j (<[k := st]> (streams h)) floor r).
Proof.
  intros [R1 R2 R3 R4 R5 R6 R7 R8] Ho Hi Hnd Hl Hf Hok Him Hsz.
  split; cbn [snVersion snEpoch snStreams snFloor options epoch streams sequenceFloor]; try done; [lia|].
  intros k'. rewrite lookup_find. cbn [snStreams]. rewrite Hl. destruct (decide (k' = k)) as [->|Hne].
  - by rewrite lookup_insert_eq.
  - rewrite lookup_insert_ne by done. specialize (R7 k'). rewrite lookup_find in R7.
    destruct (findStream k' (snStreams s)), (streams h !! k'); try done. destruct R7 as (? & ? & ?). split_and!; try done.
    eapply item_ok_floor; [|done]. lia.
Qed.

(** The stream after an append. *)
Lemma append_item o e floor i st p now :
  options_ok o → item_ok o e floor i → in_memory o i st → packet_ok o e (hsKey i) p → stTopic (hsStream i) ≠ [] → now ≠ 0 →
  pkSequence p = hsLatest i + 1 → (pkFull p = true ∨ pkBase p = hsLatest i ∧ pkSchema p = hsSchema i) →
  let i' := mkStreamSnapshot (hsObserver i) (hsStream i) (pkSequence p) (hsAcked i) (hsDropped i) (hsPruned i) (pkSchema p) now (hsPackets i ++ [p]) in
  item_ok o e (Z.max floor (pkSequence p)) i' ∧ in_memory o i' (appendState o st p now).
Proof.
  intros [Ho _] [I1 I2 I3 I4 I5 I6 I7] [M1 M2 M3 M4 M5 M6] Hp Ht Hnow Hseq Hor i'. split.
  - split; cbn [hsKey hsObserver hsStream hsLatest hsAcked hsPackets hsSchema hsActivity i']; try done; [lia|lia| | |].
    + eapply packets_snoc; [exact I4|done| |].
      * intros Hnil. unfold starts. destruct Hor as [?|[? _]]; [by left|right; right; lia].
      * intros x Hx. split; [rewrite (ps_last _ _ _ _ _ I4 x Hx); lia|]. destruct Hor as [?|[Hb Hsch]]; [by left|right].
        rewrite (ps_last _ _ _ _ _ I4 x Hx). by rewrite (proj2 I6 x Hx).
    + intros Hnil. by destruct (hsPackets i).
    + split; [apply (po_schema _ _ _ _ Hp)|]. intros q Hq. rewrite last_snoc in Hq. by injection Hq as <-.
  - pose proof (keep_snoc o Ho (hsPackets i) p) as Hk. cbv zeta in Hk. rewrite <- M5 in Hk. unfold appendState. cbv zeta.
    assert (u64 (dropped st + pruned st + zlen (items st ++ [p])) = u64 (hsDropped i + hsPruned i + zlen (hsPackets i ++ [p]))) as Hc.
    { rewrite !zlen_app, !Z.add_assoc. apply u64_eq_add. exact M6. }
    destruct (Z.ltb_spec 0 (zlen (items st ++ [p]) - MaxPacketsPerStream o)).
    + split; try done; try (by rewrite Hk). cbn [hsDropped hsPruned hsPackets dropped pruned items i'].
      rewrite <- Hc. rewrite zlen_zdrop by lia.
      replace (u64 (dropped st + (zlen (items st ++ [p]) - MaxPacketsPerStream o)) + pruned st + (zlen (items st ++ [p]) - (zlen (items st ++ [p]) - MaxPacketsPerStream o)))
        with (u64 (dropped st + (zlen (items st ++ [p]) - MaxPacketsPerStream o)) + (pruned st + MaxPacketsPerStream o)) by lia.
      rewrite u64_drop. f_equal. lia.
    + split; try done; by rewrite Hk.
Qed.
End Effects.

Section Replayed.
Context {J : Type} `{HistoryJournal J}.
Implicit Types h : History J.

Definition replays s h (e : Z) (m : mutation) : Prop :=
  ∃ s', replayHistoryMutation s (mkMutation HistoryMutationVersion e m) = Ok s' ∧ represents s' (after h e m).

(** All kinds but the rotation check the epoch first. *)
Lemma replay_epoch s h m : represents s h → m ≠ MRotateEpoch →
  replayHistoryMutation s (mkMutation HistoryMutationVersion (epoch h) m) =
  match m with
  | MAppend packet at_ => replayAppend s packet at_
  | MAcknowledge key sequence prune at_ => replayAcknowledge s key sequence prune at_
  | MDelete key => Ok (set_snStreams s (removeStream key (snStreams s)))
  | MDeleteView observer => Ok (set_snStreams s (filter (λ v, hsObserver v ≠ observer) (snStreams s)))
  | MSweep targets => Ok (set_snStreams s (fold_left (λ l key, removeStream key l) targets (snStreams s)))
  | MRotateEpoch => Ok s
  end.
Proof.
  intros Hr Hm. unfold replayHistoryMutation. cbn [muVersion muKind muEpoch]. rewrite Z.eqb_refl. cbn [negb].
  pose proof (rp_epoch0 s h Hr). rewrite (rp_epoch s h Hr). destruct (Z.eqb_spec (epoch h) 0); [done|].
  rewrite (rp_epoch s h Hr), Z.eqb_refl. by destruct m.
Qed.

Lemma first_item o e floor p now :
  options_ok o → packet_ok o e (pkKey p) p → stTopic (pkStream p) ≠ [] → now ≠ 0 → pkSequence p = floor + 1 → pkBase p = 0 → 0 ≤ floor →
  let i := mkStreamSnapshot (pkObserver p) (pkStream p) (pkSequence p) floor 0 0 (pkSchema p) now [p] in
  item_ok o e (pkSequence p) i ∧ in_memory o i (appendState o (mkState floor floor 0 0 0 0 []) p now).
Proof.
  intros [Ho _] Hp Ht Hnow Hseq Hb Hf i. split.
  - split; cbn [hsKey hsObserver hsStream hsLatest hsAcked hsPackets hsSchema hsActivity i]; try done; [lia|lia| |].
    + split; [by constructor|split; [|done]; right; by left|]. intros q [= <-]. done.
    + split; [apply (po_schema _ _ _ _ Hp)|]. by intros q [= <-].
  - unfold appendState. cbn [items app]. change (zlen [p]) with 1. destruct (Z.ltb_spec 0 (1 - MaxPacketsPerStream o)); [lia|].
    split; try done. cbn [items hsPackets i]. unfold keep. change (zlen [p]) with 1. by replace (Z.to_nat (1 - MaxPacketsPerStream o)) with 0%nat by lia.
Qed.

Lemma append_replays s h p now :
  represents s h → options_ok (options h) → sequenceFloor h + 1 < 2^64 → valid h (epoch h) (MAppend p now) → replays s h (epoch h) (MAppend p now).
Proof.
  intros Hr Ho Hmax (_ & Ht & Hpay & Hep & Hsc & Hnow & Hfull & Hst). unfold replays. rewrite (replay_epoch s h) by done.
  unfold replayAppend. cbn [after]. pose proof (rp_range s h Hr) as Hrange. rewrite (rp_floor s h Hr).
  destruct (streams h !! pkKey p) as [st|] eqn:Es.
  - destruct (represents_find s h _ _ Hr Es) as (i & Hfind & Hkey & Hi & Him). destruct Hst as [Hseq Hdelta]. rewrite Hfind. cbn [default from_option id].
    pose proof (io_latest _ _ _ _ Hi) as Hlat. rewrite (im_latest _ _ _ Him) in *. rewrite (im_schema _ _ _ Him) in *.
    assert (negb (hsLatest i =? 0) || (0 <? zlen (hsPackets i)) = true) as -> by (destruct (Z.eqb_spec (hsLatest i) 0); [lia|done]).
    rewrite (u64_small (hsLatest i + 1)), Hseq, Z.eqb_refl by (unfold is_u64; lia). cbn [negb andb]. rewrite <- Hseq.
    set (floor := if sequenceFloor h <? pkSequence p then pkSequence p else sequenceFloor h).
    assert (floor = Z.max (sequenceFloor h) (pkSequence p)) as Hfl by (unfold floor; destruct (Z.ltb_spec (sequenceFloor h) (pkSequence p)); lia).
    eexists. split; [reflexivity|].
    assert (packet_ok (options h) (epoch h) (hsKey i) p) as Hpok by (rewrite Hkey; split; try done; lia).
    destruct (append_item (options h) (epoch h) (sequenceFloor h) i st p now Ho Hi Him Hpok) as [Hi' Him']; try done.
    { apply (io_topic _ _ _ _ Hi). }
    { destruct (pkFull p) eqn:Ef; [by left|right]. by apply Hdelta. }
    rewrite <- Hfl in Hi'. eapply (represents_insert s h _ floor (pkKey p) _ _ _ _ Hr Ho); [| | | |exact Hi'|exact Him'|].
    + exact Hkey.
    + rewrite replaceStream_keys by done. apply (rp_nodup s h Hr).
    + intros k'. apply replaceStream_index; [done|eauto].
    + lia.
    + intros Hm. rewrite map_size_insert_Some by eauto. by apply (rp_limit s h Hr).
  - destruct Hst as (Hseq & Hbase & Hlim). rewrite (represents_find_none s h _ Hr Es). cbn [default from_option id hsLatest hsPackets hsAcked hsDropped hsPruned hsObserver hsStream].
    change (negb (0 =? 0) || (0 <? zlen (@nil Packet))) with false. cbn [andb negb app].
    destruct (Z.eqb_spec (pkSequence p) 0); [lia|]. rewrite u64_small by (unfold is_u64; lia).
    replace (pkSequence p - 1) with (sequenceFloor h) by lia. destruct (Z.ltb_spec (sequenceFloor h) (pkSequence p)); [|lia].
    eexists. split; [reflexivity|].
    destruct (first_item (options h) (epoch h) (sequenceFloor h) p now Ho) as [Hi' Him']; try done; [split; try done; lia|lia|].
    set (v0 := mkStreamSnapshot (pkObserver p) (pkStream p) 0 0 0 0 0 0 []).
    pose proof (represents_find_none s h _ Hr Es) as Hnone.
    eapply (represents_insert s h _ _ (pkKey p) _ _ _ _ Hr Ho); [| | | |exact Hi'|exact Him'|].
    + done.
    + rewrite replaceStream_keys by done. rewrite fmap_app. apply NoDup_app. split_and!; [apply (rp_nodup s h Hr)| |apply NoDup_singleton].
      intros k Hk Hk1. apply list_elem_of_singleton in Hk1 as ->. by apply findStream_none in Hnone.
    + intros k'. rewrite replaceStream_index; [|done|rewrite (findStream_app (pkKey p) _ v0) by done; rewrite decide_True by done; by eexists].
      destruct (decide (k' = pkKey p)) as [|Hne]; [done|]. rewrite (findStream_app (pkKey p) _ v0) by done. by rewrite decide_False.
    + lia.
    + intros Hm. rewrite map_size_insert_None by done. specialize (Hlim Hm). lia.
Qed.

Lemma ack_item o e floor i st sequence (prune : bool) now :
  options_ok o → item_ok o e floor i → in_memory o i st → acked st < sequence ≤ latest st → now ≠ 0 →
  let n := if prune then prunable sequence (hsPackets i) else 0%nat in
  let i' := mkStreamSnapshot (hsObserver i) (hsStream i) (hsLatest i) sequence (hsDropped i) (u64 (hsPruned i + Z.of_nat n)) (hsSchema i) now (drop n (hsPackets i)) in
  item_ok o e floor i' ∧ in_memory o i' (ackState st sequence prune now).
Proof.
  intros [Ho _] [I1 I2 I3 I4 I5 I6 I7] [M1 M2 M3 M4 M5 M6] Hseq Hnow n i'. rewrite M1, M2 in Hseq.
  assert (n ≤ length (hsPackets i))%nat as Hn by (unfold n; destruct prune; [apply prunable_le|lia]). split.
  - split; cbn [hsKey hsObserver hsStream hsLatest hsAcked hsPackets hsSchema hsActivity i']; try done; [lia|by apply packets_drop| |].
    + intros Hnil. destruct prune; [|unfold n in Hnil; rewrite drop_0 in Hnil; rewrite (I5 Hnil) in Hseq; lia].
      destruct (hsPackets i) as [|p l] eqn:El; [rewrite (I5 eq_refl) in Hseq; lia|].
      assert (length (drop n (p :: l)) = 0%nat) as H0 by (by rewrite Hnil). rewrite length_drop in H0.
      destruct I4 as [_ [_ Hc] Hlast]. unfold n in H0. rewrite (prunable_chain p l sequence Hc) in H0. cbn [length] in H0.
      destruct (last (p :: l)) as [q|] eqn:Eq; [|by apply last_None in Eq]. specialize (Hlast q eq_refl).
      assert ((p :: l) !! pred (length (p :: l)) = Some q) as Hq by (by rewrite <- last_lookup). apply (chain_sequence p l Hc) in Hq. cbn [length pred] in Hq. lia.
    + split; [apply I6|]. intros q Hq. by apply I6, last_drop with n.
  - unfold ackState. cbv zeta. split; cbn [hsLatest hsAcked hsPackets hsSchema hsActivity hsDropped hsPruned latest acked schema activity items dropped pruned i']; try done.
    + rewrite M5. unfold n. destruct prune; [by eapply keep_prune|by rewrite !drop_0].
    + set (k := if prune then prunable sequence (items st) else 0%nat).
      assert (k ≤ length (items st))%nat as Hk by (unfold k; destruct prune; [apply prunable_le|lia]).
      replace (dropped st + u64 (pruned st + Z.of_nat k) + zlen (drop k (items st))) with (u64 (pruned st + Z.of_nat k) + (dropped st + zlen (drop k (items st)))) by lia.
      replace (hsDropped i + u64 (hsPruned i + Z.of_nat n) + zlen (drop n (hsPackets i))) with (u64 (hsPruned i + Z.of_nat n) + (hsDropped i + zlen (drop n (hsPackets i)))) by lia.
      rewrite !u64_drop. unfold zlen in *. rewrite !length_drop.
      replace (pruned st + Z.of_nat k + (dropped st + Z.of_nat (length (items st) - k))) with (dropped st + pruned st + Z.of_nat (length (items st))) by lia.
      rewrite M6. f_equal. lia.
Qed.

Lemma ack_replays s h key sequence prune now :
  represents s h → options_ok (options h) → valid h (epoch h) (MAcknowledge key sequence prune now) →
  replays s h (epoch h) (MAcknowledge key sequence prune now).
Proof.
  intros Hr Ho (_ & Hnow & st & Es & Hseq). unfold replays. rewrite (replay_epoch s h) by done. unfold replayAcknowledge. cbn [after].
  destruct (represents_find s h _ _ Hr Es) as (i & Hfind & Hkey & Hi & Him). rewrite Hfind.
  destruct (Z.ltb_spec (hsLatest i) sequence); [rewrite (im_latest _ _ _ Him) in Hseq; lia|].
  destruct (Z.ltb_spec (hsAcked i) sequence); [|rewrite (im_acked _ _ _ Him) in Hseq; lia]. eexists. split; [reflexivity|].
  destruct (ack_item _ _ _ i st sequence prune now Ho Hi Him Hseq Hnow) as [Hi' Him'].
  assert (alter (λ st, ackState st sequence prune now) key (streams h) = <[key := ackState st sequence prune now]> (streams h)) as ->.
  { apply map_eq. intros k. destruct (decide (k = key)) as [->|Hne]; [by rewrite lookup_alter_eq, Es, lookup_insert_eq|]. by rewrite lookup_alter_ne, lookup_insert_ne. }
  unfold set_streams. rewrite (rp_floor s h Hr). eapply (represents_insert s h _ _ key _ _ _ _ Hr Ho); [| | | |exact Hi'|exact Him'|].
  - exact Hkey.
  - rewrite replaceStream_keys by done. apply (rp_nodup s h Hr).
  - intros k'. apply replaceStream_index; [done|eauto].
  - pose proof (rp_range s h Hr). lia.
  - intros Hm. rewrite map_size_insert_Some by eauto. by apply (rp_limit s h Hr).
Qed.

(** Some streams are removed. *)
Lemma represents_restrict (s : HistorySnapshot) h (l : list HistoryStreamSnapshot) (ss : gmap streamKey streamState) (P : streamKey → Prop) {HP : ∀ k, Decision (P k)} :
  represents s h → NoDup (hsKey <$> l) → (∀ k, findStream k l = if decide (P k) then findStream k (snStreams s) else None) →
  (∀ k, ss !! k = if decide (P k) then streams h !! k else None) →
  represents (set_snStreams s l) (set_streams h ss).
Proof.
  intros [R1 R2 R3 R4 R5 R6 R7 R8] Hnd Hl Hss. split; try done.
  - intros k. rewrite lookup_find. cbn [set_snStreams set_streams snStreams streams options epoch sequenceFloor]. rewrite Hl, Hss. specialize (R7 k). rewrite lookup_find in R7.
    by destruct (decide (P k)).
  - cbn [set_streams options streams]. intros Hm. specialize (R8 Hm). assert (base.size ss ≤ base.size (streams h))%nat; [|lia].
    apply map_subseteq_size. apply map_subseteq_spec. intros k st. rewrite Hss. by destruct (decide (P k)).
Qed.

Lemma delete_replays s h key : represents s h → replays s h (epoch h) (MDelete key).
Proof.
  intros Hr. unfold replays. rewrite (replay_epoch s h) by done. eexists. split; [reflexivity|]. cbn [after].
  destruct (removeStream_index key (snStreams s) (rp_nodup s h Hr)) as [Hnd Hl].
  apply (represents_restrict s h _ _ (λ k, k ≠ key) Hr Hnd).
  - intros k. rewrite Hl. destruct (decide (k = key)); [by rewrite decide_False by auto|by rewrite decide_True].
  - intros k. destruct (decide (k ≠ key)) as [Hne|He]; [by rewrite lookup_delete_ne by congruence|].
    destruct (decide (k = key)) as [->|]; [apply lookup_delete_eq|done].
Qed.

Lemma view_replays s h observer : represents s h → replays s h (epoch h) (MDeleteView observer).
Proof.
  intros Hr. unfold replays. rewrite (replay_epoch s h) by done. eexists. split; [reflexivity|]. cbn [after].
  destruct (filter_index (λ k, fst k ≠ observer) (snStreams s) (rp_nodup s h Hr)) as [Hnd Hl].
  apply (represents_restrict s h _ _ (λ k, fst k ≠ observer) Hr Hnd Hl).
  intros k. rewrite map_lookup_filter. destruct (streams h !! k) as [st|]; cbn; [|by destruct (decide _)].
  by destruct (decide (fst k ≠ observer)) as [Hd|Hd]; [rewrite option_guard_True|rewrite option_guard_False].
Qed.

Lemma sweep_index targets : ∀ l, NoDup (hsKey <$> l) →
  NoDup (hsKey <$> fold_left (λ l key, removeStream key l) targets l) ∧
  ∀ k, findStream k (fold_left (λ l key, removeStream key l) targets l) = if decide (k ∉ targets) then findStream k l else None.
Proof.
  induction targets as [|t targets IH]; intros l Hnd; cbn [fold_left].
  { split; [done|]. intros k. by rewrite decide_True by apply not_elem_of_nil. }
  destruct (removeStream_index t l Hnd) as [Hnd' Hl]. destruct (IH _ Hnd') as [I1 I2]. split; [done|]. intros k. rewrite I2, Hl.
  destruct (decide (k = t)) as [->|Hne]; [rewrite (decide_False (P := t ∉ t :: targets)) by (intros Hn; apply Hn; by left); by destruct (decide _)|].
  destruct (decide (k ∉ targets)) as [Hn|Hn]; [rewrite decide_True by (by apply not_elem_of_cons)|rewrite decide_False by (rewrite not_elem_of_cons; tauto)]; done.
Qed.

Lemma sweep_replays s h targets : represents s h → replays s h (epoch h) (MSweep targets).
Proof.
  intros Hr. unfold replays. rewrite (replay_epoch s h) by done. eexists. split; [reflexivity|]. cbn [after].
  destruct (sweep_index targets (snStreams s) (rp_nodup s h Hr)) as [Hnd Hl].
  apply (represents_restrict s h _ _ (λ k, k ∉ targets) Hr Hnd Hl).
  intros k. clear. induction targets as [|t targets IH]; cbn [foldr]; [by rewrite decide_True by apply not_elem_of_nil|].
  destruct (decide (k = t)) as [->|Hne]; [rewrite lookup_delete_eq; by rewrite decide_False by (intros Hn; apply Hn; by left)|].
  rewrite lookup_delete_ne, IH by congruence.
  destruct (decide (k ∉ targets)) as [Hn|Hn]; [rewrite decide_True by (by apply not_elem_of_cons)|rewrite decide_False by (rewrite not_elem_of_cons; tauto)]; done.
Qed.

Lemma rotate_replays s h e : represents s h → e ≠ 0 → replays s h e MRotateEpoch.
Proof.
  intros [R1 R2 R3 R4 R5 R6 R7 R8] He. eexists. split; [reflexivity|]. split; cbn; try done; [apply NoDup_nil_2|].
  intros Hm. rewrite map_size_empty. lia.
Qed.

(** Every recorded mutation can be replayed, to the same effect. *)
Lemma mutation_replays s h e m :
  represents s h → options_ok (options h) → sequenceFloor h + 1 < 2^64 → valid h e m → replays s h e m.
Proof.
  intros Hr Ho Hf Hv. destruct m as [p now|key n b now|key|ob|targets|].
  - destruct Hv as [-> Hv]. by apply append_replays.
  - destruct Hv as [-> Hv]. by apply ack_replays.
  - cbn in Hv. subst e. by apply delete_replays.
  - cbn in Hv. subst e. by apply view_replays.
  - cbn in Hv. subst e. by apply sweep_replays.
  - by apply rotate_replays.
Qed.
End Replayed.
