(* ===== verification/SyncRun.v ===== *)
(** * Runs of a history (framework/sync/syncstream)

    Every operation of a history either leaves it alone or records one
    mutation and then makes its effect; what follows for runs. *)

From S2P Require Import Prelude Bytes SyncHistory SyncJournal SyncHistoryInv.

(** ** Text that encoding/json keeps *)

(** The string is UTF-8: JSON keeps it. *)
Definition utf8 (s : bytes) : Prop := jsonText 0 s = s.
#[export] Instance utf8_dec s : Decision (utf8 s).
Proof. unfold utf8. apply _. Defined.
Definition key_text (k : streamKey) : Prop := utf8 (obScope (fst k)) ∧ utf8 (stTopic (snd k)).
#[export] Instance key_text_dec k : Decision (key_text k).
Proof. unfold key_text. apply _. Defined.

Definition mutation_text (m : mutation) : Prop :=
  match m with
  | MAppend p _ => key_text (pkKey p)
  | MAcknowledge key _ _ _ | MDelete key => key_text key
  | MDeleteView observer => utf8 (obScope observer)
  | MSweep targets => Forall key_text targets
  | MRotateEpoch => True
  end.

Lemma jsonObserver_id o : utf8 (obScope o) → jsonObserver o = o.
Proof. intros Ho. unfold jsonObserver. rewrite Ho. by destruct o. Qed.
Lemma jsonKey_id k : key_text k → jsonKey k = k.
Proof. intros [Ho Hs]. unfold jsonKey, jsonStream. rewrite (jsonObserver_id _ Ho), Hs. by destruct k as [? []]. Qed.
Lemma jsonPacket_id p : key_text (pkKey p) → jsonPacket p = p.
Proof.
  intros Hk. pose proof (jsonKey_id _ Hk) as [= Ho Hs]. unfold jsonPacket. cbn in Ho, Hs.
  change (fst (pkKey p)) with (pkObserver p) in *. change (snd (pkKey p)) with (pkStream p) in *. rewrite Ho, Hs. by destruct p.
Qed.

Lemma jsonMutation_id e m : mutation_text m → jsonMutation (mkMutation HistoryMutationVersion e m) = mkMutation HistoryMutationVersion e m.
Proof.
  unfold jsonMutation. cbn [muVersion muEpoch muKind]. intros Hm. f_equal. destruct m as [p now|key sq b now|key|ob|targets|]; cbn in Hm.
  - by rewrite jsonPacket_id.
  - by rewrite jsonKey_id.
  - by rewrite jsonKey_id.
  - by rewrite jsonObserver_id.
  - f_equal. rewrite Forall_forall in Hm. transitivity (id <$> targets); [|apply list_fmap_id]. apply list_fmap_ext. intros i k Hk.
    apply jsonKey_id, Hm. by eapply list_elem_of_lookup_2.
  - done.
Qed.

Lemma jsonSnapshot_id s :
  Forall (λ i, key_text (hsKey i) ∧ Forall (λ p, pkKey p = hsKey i) (hsPackets i)) (snStreams s) → jsonSnapshot s = s.
Proof.
  intros Hs. unfold jsonSnapshot. assert (jsonStreamSnapshot <$> snStreams s = snStreams s) as ->; [|by destruct s].
  transitivity (id <$> snStreams s); [|apply list_fmap_id]. apply list_fmap_ext. intros n i Hi.
  rewrite Forall_forall in Hs. destruct (Hs i) as [Hk Hp]; [by eapply list_elem_of_lookup_2|].
  pose proof (jsonKey_id _ Hk) as [= Ho Hst]. change (fst (hsKey i)) with (hsObserver i) in *. change (snd (hsKey i)) with (hsStream i) in *.
  unfold jsonStreamSnapshot. rewrite Ho, Hst. assert (jsonPacket <$> hsPackets i = hsPackets i) as ->; [|by destruct i].
  transitivity (id <$> hsPackets i); [|apply list_fmap_id]. apply list_fmap_ext. intros m p Hm. rewrite Forall_forall in Hp.
  rewrite jsonPacket_id; [done|]. rewrite (Hp p); [done|]. by eapply list_elem_of_lookup_2.
Qed.

Section Commit.
Context {J : Type} `{HistoryJournal J}.
Implicit Types h : History J.

(** Every stream has UTF-8 names. *)
Definition history_text h : Prop := ∀ k, is_Some (streams h !! k) → key_text k.

Lemma text_memory h h' : memory h = memory h' → history_text h → history_text h'.
Proof. intros [= _ _ E _] Ht k. rewrite <- E. apply Ht. Qed.

Lemma text_after h e m : history_text h → mutation_text m → history_text (after h e m).
Proof.
  intros Ht Hm k. destruct m as [p now|key sq b now|key|ob|targets|]; cbn [after set_streams streams] in *.
  - destruct (decide (k = pkKey p)) as [->|Hne]; [done|]. rewrite lookup_insert_ne by done. apply Ht.
  - rewrite lookup_alter_is_Some. apply Ht.
  - intros [st [_ Hk]%lookup_delete_Some]. apply Ht. by exists st.
  - intros [st [Hk _]%map_lookup_filter_Some]. apply Ht. by exists st.
  - intros Hk. apply Ht. revert Hk. clear. induction targets as [|t targets IH]; cbn [foldr]; [done|].
    intros [st [_ Hk]%lookup_delete_Some]. apply IH. by exists st.
  - intros Hk. rewrite lookup_empty in Hk. by destruct Hk.
Qed.

(** Record, then change the memory. *)
Definition commit {A} h (e : Z) (m : mutation) (ok : A) (fail : HistErr → A) : History J * A :=
  let '(h1, err) := record h e m in
  match err with Some x => (h1, fail x) | None => (after h1 e m, ok) end.

(** An operation leaves the history alone or commits one mutation; only a
    rotation to the epoch [rot] commits a rotation. *)
Definition commits {A} h (rot : option Z) (result : History J * A) (out : A → option Packet) : Prop :=
  (fst result = h ∧ out (snd result) = None) ∨
  ∃ e m ok fail, (valid h e m ∧ mutation_text m) ∧ result = commit h e m ok fail ∧
    (∀ x, out (fail x) = None) ∧ out ok = match m with MAppend p _ => Some p | _ => None end ∧
    (m = MRotateEpoch → rot = Some e).

Lemma checkPacket_ok h p : checkPacket h p = None → stTopic (pkStream p) ≠ [] ∧ payload_ok (options h) p.
Proof.
  unfold checkPacket, payload_ok. case_bool_decide; [done|]. destruct (_ && _) eqn:E; [done|]. intros _. split; [done|].
  apply andb_false_iff in E as [E|E]; to_prop; lia.
Qed.

Definition emitted (r : result HistErr Packet) : option Packet := match r with Ok p => Some p | Err _ => None end.

Lemma append_commits s h packet now :
  represents s h → options_ok (options h) → sequenceFloor h + 1 < 2^64 → now ≠ 0 → key_text (pkKey packet) → checkPacket h packet = None →
  commits h None (appendLocked h packet now) emitted.
Proof.
  intros Hr [Ho Hv] Hf Hnow Htext Hc. apply checkPacket_ok in Hc as [Ht Hpay]. pose proof (rp_range s h Hr) as Hrange.
  unfold appendLocked. cbv zeta. destruct (_ && (MaxStreams (options h) <=? _)) eqn:E1; [by left|].
  destruct (negb _ && _ && _) eqn:E2; [by left|]. right.
  set (p := mkPacket _ _ _ _ _ _ _ _ _).
  exists (epoch h), (MAppend p now), (Ok p), Err. split_and!; [|done|unfold commit, record|done..].
  - split_and!; try done.
    + cbn. destruct (Z.eqb_spec (pkSchema packet) 0); done.
    + cbn. intros ->. done.
    + change (pkKey p) with (pkKey packet). cbn. destruct (streams h !! pkKey packet) as [st|] eqn:Es; cbn in *.
      * destruct (represents_find s h _ _ Hr Es) as (i & _ & _ & Hi & Him). pose proof (io_latest _ _ _ _ Hi). rewrite (im_latest _ _ _ Him) in *.
        rewrite u64_small by (unfold is_u64; lia). split; [done|]. intros Hfull. rewrite Hfull in *. cbn in E2. rewrite andb_true_r in E2. to_prop. done.
      * rewrite u64_small by (unfold is_u64; lia). rewrite orb_true_r. split_and!; [done..|]. intros Hm. to_prop. destruct E1; lia.
  - change (pkKey p) with (pkKey packet). destruct (journal h) as [j|]; [destruct (Record_ j _) as [j' [x|]]|]; cbn [after options epoch journal streams sequenceFloor revision]; try done;
      change (pkKey p) with (pkKey packet); unfold appendState, startState; cbv zeta; cbn [options epoch journal streams sequenceFloor revision];
      destruct (0 <? _); reflexivity.
Qed.

Definition silent {A} (_ : A) : option Packet := None.

Ltac by_record h :=
  unfold commit, record; destruct (journal h) as [j|]; [destruct (Record_ j _) as [j' [x|]]|]; try reflexivity.

Lemma ack_commits h key e sequence now :
  history_text h → now ≠ 0 → commits h None (AcknowledgeEpoch h key e sequence now) silent.
Proof.
  intros Ht Hnow. unfold AcknowledgeEpoch. destruct (negb (e =? epoch h)); [by left|].
  destruct (streams h !! key) as [st|] eqn:Es; [|by left]. destruct (Z.ltb_spec (latest st) sequence); [by left|].
  destruct (Z.ltb_spec (acked st) sequence); [|by left]. right. cbv zeta.
  exists (epoch h), (MAcknowledge key sequence (PruneAcknowledged (options h)) now), None, Some. split_and!; [|by apply Ht|by_record h|done..].
  - split_and!; [done..|]. exists st. split; [done|lia].
  - cbn. do 2 f_equal. unfold set_streams. cbn. f_equal. apply map_eq. intros k.
    destruct (decide (k = key)) as [->|Hne]; [by rewrite lookup_alter_eq, Es, lookup_insert_eq|]. by rewrite lookup_alter_ne, lookup_insert_ne.
  - cbn. do 2 f_equal. unfold set_streams. cbn. f_equal. apply map_eq. intros k.
    destruct (decide (k = key)) as [->|Hne]; [by rewrite lookup_alter_eq, Es, lookup_insert_eq|]. by rewrite lookup_alter_ne, lookup_insert_ne.
Qed.

Lemma delete_commits h key : history_text h → commits h None (DeleteStream h key) silent.
Proof.
  intros Ht. unfold DeleteStream. destruct (streams h !! key) eqn:Es; [|by left]. right.
  exists (epoch h), (MDelete key), None, Some. split_and!; [done|by apply Ht|by_record h|done..].
Qed.

Lemma view_commits h observer : history_text h → commits h None (DeleteObserver h observer) silent.
Proof.
  intros Ht. unfold DeleteObserver. cbv zeta. destruct (_ =? 0) eqn:Ec; [by left|]. right.
  eexists (epoch h), (MDeleteView observer), (Ok _), Err. split_and!; [done| |by_record h|done..].
  apply Z.eqb_neq in Ec. destruct (map_choose (filter (λ kv, fst (fst kv) = observer) (streams h))) as (k & st & [Hk <-]%map_lookup_filter_Some).
  - intros E. by rewrite E, map_size_empty in Ec.
  - destruct (Ht k) as [? _]; [by exists st|done].
Qed.

Lemma sweep_commits h now : history_text h → commits h None (SweepIdle h now) silent.
Proof.
  intros Ht. unfold SweepIdle. cbv zeta. destruct (_ <=? 0); [by left|]. destruct (idle h _) as [|k keys] eqn:E; [by left|]. right.
  eexists (epoch h), (MSweep (k :: keys)), (Ok _), Err. split_and!; [done| |by_record h|done..].
  cbn [mutation_text]. rewrite <- E. apply Forall_forall. intros x Hx. unfold idle in Hx. apply list_elem_of_In, in_map_iff in Hx as ([y st] & <- & Hy%list_elem_of_In).
  apply list_elem_of_filter in Hy as [_ Hy%elem_of_map_to_list]. apply Ht. by exists st.
Qed.

Lemma rotate_commits h e fresh : fresh ≠ 0 → commits h (Some (if e =? 0 then fresh else e)) (RotateEpoch h e fresh) silent.
Proof.
  intros Hf. unfold RotateEpoch. cbv zeta. set (e' := if e =? 0 then fresh else e). assert (e' ≠ 0) as He by (unfold e'; destruct (Z.eqb_spec e 0); done).
  destruct (Z.eqb_spec e' (epoch h)); [by left|]. right.
  exists e', MRotateEpoch, None, Some. split_and!; [done|done|by_record h|done..].
Qed.

(** *** A snapshot that represents a history imports to that history *)

(** Equal but for the split of the packets let go into dropped and pruned. *)
Definition same_stream (a b : streamState) : Prop :=
  latest a = latest b ∧ acked a = acked b ∧ schema a = schema b ∧ activity a = activity b ∧ items a = items b ∧
  u64 (dropped a + pruned a) = u64 (dropped b + pruned b).
Record same_history (a b : History J) : Prop := {
  sh_options : options a = options b;
  sh_epoch : epoch a = epoch b;
  sh_floor : sequenceFloor a = sequenceFloor b;
  sh_streams : ∀ k, match streams a !! k, streams b !! k with
                    | Some x, Some y => same_stream x y
                    | None, None => True
                    | _, _ => False
                    end
}.

Definition imported (o : HistoryOptions) (i : HistoryStreamSnapshot) : streamState :=
  mkState (hsLatest i) (hsAcked i)
          (if 0 <? zlen (hsPackets i) - MaxPacketsPerStream o then u64 (hsDropped i + (zlen (hsPackets i) - MaxPacketsPerStream o)) else hsDropped i)
          (hsPruned i) (hsSchema i) (hsActivity i) (keep o (hsPackets i)).

Lemma keep_if o l :
  (if 0 <? zlen l - MaxPacketsPerStream o then zdrop (zlen l - MaxPacketsPerStream o) l else l) = keep o l.
Proof.
  unfold keep, zdrop. destruct (Z.ltb_spec 0 (zlen l - MaxPacketsPerStream o)); [done|].
  by replace (Z.to_nat (zlen l - MaxPacketsPerStream o)) with 0%nat by lia.
Qed.

Lemma importPackets_ok o e i top l : ∀ prev,
  match prev with
  | None => packets_ok o e (hsKey i) top l
  | Some q => packet_ok o e (hsKey i) q ∧ Forall (packet_ok o e (hsKey i)) l ∧ chain q l
  end → importPackets (MaxPayloadBytes o) e i prev l = Ok tt.
Proof.
  induction l as [|p l IH]; intros prev Hp; cbn [importPackets]; [done|].
  assert (packet_ok o e (hsKey i) p) as [Hk He Hs Hsc Hpay Hfull].
  { destruct prev; [destruct Hp as (_ & Hp & _)|destruct Hp as [Hp _ _]]; by apply Forall_cons in Hp as [? _]. }
  unfold pkKey, hsKey in Hk. injection Hk as Hob Hst.
  run_guard ltac:(split_and!; auto; lia). run_guard ltac:(destruct Hpay; [left|right]; lia).
  eapply bind_ok_eq with (a := tt).
  { destruct prev as [q|].
    - destruct Hp as (Hq & _ & [Hseq Hor] & _). pose proof (po_sequence _ _ _ _ Hq). rewrite Hseq, u64_small, Z.eqb_refl by (unfold is_u64; lia).
      destruct (pkFull p); cbn; [by rewrite andb_false_r|]. destruct Hor as [?|[-> ->]]; [done|]. by rewrite !Z.eqb_refl.
    - destruct Hp as [_ [Hstart _] _]. unfold starts in Hstart. destruct (pkFull p); [done|]. cbn.
      destruct (Z.eqb_spec (pkBase p) 0); [done|]. destruct Hstart as [?|[?|Hb]]; [done..|]. rewrite Hb, u64_small by (unfold is_u64; lia). by rewrite Z.eqb_refl. }
  run_guard ltac:(destruct (pkFull p); [right|left]; auto). apply (IH (Some p)). split; [by split; [unfold pkKey, hsKey; congruence|..]|].
  destruct prev; [destruct Hp as (_ & Hp & _ & ?)|destruct Hp as [Hp [_ ?] _]]; by apply Forall_cons in Hp as [_ ?].
Qed.

Lemma importOne_ok h e f i now :
  options_ok (options h) → item_ok (options h) e f i → importOne h e now i = Ok (imported (options h) i).
Proof.
  intros [Ho _] [I1 I2 I3 I4 I5 I6 I7]. unfold importOne.
  run_guard ltac:(split; [lia|]; destruct (hsPackets i) eqn:E; [right; rewrite I5 by done; done|left; right; done]).
  eapply bind_ok_eq with (a := tt); [by eapply (importPackets_ok (options h) e i (hsLatest i) _ None)|].
  eapply bind_ok_eq with (a := tt).
  { destruct (last (hsPackets i)) as [p|] eqn:El; [|done]. by rewrite (ps_last _ _ _ _ _ I4 p El), Z.eqb_refl. }
  cbv zeta. rewrite keep_if, last_keep by done.
  assert (match last (hsPackets i) with Some p => pkSchema p | None => hsSchema i end = hsSchema i) as ->.
  { destruct (last (hsPackets i)) eqn:El; [by apply I6|done]. }
  run_guard ltac:(right; apply I6). unfold imported. by destruct (Z.eqb_spec (hsActivity i) 0).
Qed.

Lemma imported_in_memory o i : 0 < MaxPacketsPerStream o → in_memory o i (imported o i).
Proof.
  intros Ho. unfold imported. split; cbn [latest acked schema activity items dropped pruned]; try done. rewrite zlen_keep by done.
  destruct (Z.ltb_spec 0 (zlen (hsPackets i) - MaxPacketsPerStream o)).
  - replace (u64 (hsDropped i + (zlen (hsPackets i) - MaxPacketsPerStream o)) + hsPruned i + Z.min (zlen (hsPackets i)) (MaxPacketsPerStream o))
      with (u64 (hsDropped i + (zlen (hsPackets i) - MaxPacketsPerStream o)) + (hsPruned i + MaxPacketsPerStream o)) by lia.
    rewrite u64_drop. f_equal. lia.
  - f_equal. lia.
Qed.

Lemma importStreams_ok h e f now l : ∀ ss,
  options_ok (options h) → Forall (item_ok (options h) e f) l → NoDup (hsKey <$> l) → (∀ i, i ∈ l → ss !! hsKey i = None) →
  ∃ ss', importStreams h e now l ss = Ok ss' ∧
    ∀ k, ss' !! k = match findStream k l with Some i => Some (imported (options h) i) | None => ss !! k end.
Proof.
  induction l as [|i l IH]; intros ss Ho Hall Hnd Hnew; cbn [importStreams findStream]; [by exists ss|].
  apply Forall_cons in Hall as [Hi Hall]. cbn in Hnd. inversion_clear Hnd as [|? ? Hni Hnd'].
  destruct (IH (<[hsKey i := imported (options h) i]> ss)) as (ss' & E & Hss'); [done..| |].
  { intros j Hj. rewrite lookup_insert_ne; [apply Hnew; by right|]. intros E. apply Hni. rewrite E. by apply list_elem_of_fmap_2. }
  exists ss'. split.
  - eapply bind_ok_eq; [apply guard_err_pass, bool_decide_eq_false_2, (io_topic _ _ _ _ Hi)|].
    eapply bind_ok_eq; [apply guard_err_pass, bool_decide_eq_false_2, eq_None_not_Some, Hnew; by left|].
    eapply bind_ok_eq; [by eapply importOne_ok|done].
  - intros k. rewrite Hss'. case_bool_decide as Ek.
    + subst k. rewrite (proj2 (findStream_none _ _) Hni). by rewrite lookup_insert_eq.
    + destruct (findStream k l); [done|]. by rewrite lookup_insert_ne.
Qed.

Lemma maxLatest_le floor ss : (∀ k st, ss !! k = Some st → latest st ≤ floor) → maxLatest floor ss = floor.
Proof.
  intros Hle. unfold maxLatest. assert (∀ st, st ∈ map snd (map_to_list ss) → latest st ≤ floor) as Hl.
  { intros st ([k st'] & -> & Hin)%list_elem_of_fmap. apply elem_of_map_to_list in Hin. by eapply Hle. }
  induction (map snd (map_to_list ss)) as [|st l IH]; cbn [fold_right]; [done|]. rewrite IH by (intros x Hx; apply Hl; by right).
  destruct (Z.ltb_spec floor (latest st)); [|done]. specialize (Hl st ltac:(by left)). lia.
Qed.

Lemma represents_items s h : represents s h → Forall (item_ok (options h) (epoch h) (sequenceFloor h)) (snStreams s).
Proof.
  intros Hr. apply Forall_forall. intros i Hin. pose proof (rp_streams s h Hr (hsKey i)) as Hk. rewrite lookup_find in Hk.
  assert (findStream (hsKey i) (snStreams s) = Some i) as Hf.
  { rewrite findStream_index. apply elem_of_list_to_map; [|by apply (list_elem_of_fmap_2 (λ i, (hsKey i, i)))].
    rewrite <- list_fmap_compose. apply (rp_nodup s h Hr). }
  rewrite Hf in Hk. destruct (streams h !! hsKey i); [|done]. apply Hk.
Qed.

Lemma represents_count s h : represents s h → zlen (snStreams s) = Z.of_nat (base.size (streams h)).
Proof.
  intros Hr. unfold zlen. rewrite <- (length_fmap hsKey). rewrite <- (size_list_to_set (C := gset streamKey) _ (rp_nodup s h Hr)).
  rewrite <- size_dom. do 2 f_equal. apply set_eq. intros k. rewrite elem_of_list_to_set, elem_of_dom.
  pose proof (rp_streams s h Hr k) as Hk. rewrite lookup_find in Hk. pose proof (findStream_none k (snStreams s)) as Hn.
  destruct (findStream k (snStreams s)), (streams h !! k); try done.
  - split; [eauto|]. intros _. destruct (decide (k ∈ hsKey <$> snStreams s)) as [|Hni]; [done|]. by apply Hn in Hni.
  - split; [|by intros [? ?]]. intros Hin. by apply Hn in Hin.
Qed.

(** The JSON of a snapshot of UTF-8 streams decodes back. *)
Lemma snapshot_text s h : represents s h → history_text h → jsonSnapshot s = s.
Proof.
  intros Hr Ht. apply jsonSnapshot_id. apply Forall_forall. intros i Hin. pose proof (represents_items s h Hr) as Hall.
  rewrite Forall_forall in Hall. destruct (Hall i Hin) as [_ _ _ [Hp _ _] _ _ _]. split.
  - apply Ht. pose proof (rp_streams s h Hr (hsKey i)) as Hk. rewrite lookup_find in Hk. destruct (streams h !! hsKey i); [by eexists|].
    destruct (findStream (hsKey i) (snStreams s)) eqn:Hn; [done|]. apply findStream_none in Hn. destruct Hn. by apply list_elem_of_fmap_2.
  - eapply Forall_impl; [exact Hp|]. by intros p [? _ _ _ _ _].
Qed.

(** Loading: the snapshot is imported by a new history. *)
Lemma import_represents s h h0 now :
  represents s h → options_ok (options h) → options h0 = options h → journal h0 = None →
  ∃ h1, Import h0 s now = (h1, None) ∧ same_history h1 h ∧ represents s h1 ∧ journal h1 = None.
Proof.
  intros Hr Hopt Ho Hj. pose proof (represents_items s h Hr) as Hall. rewrite <- Ho in Hall, Hopt.
  destruct (importStreams_ok h0 (epoch h) (sequenceFloor h) now (snStreams s) ∅ Hopt Hall (rp_nodup s h Hr)) as (ss & Ess & Hss); [intros; apply lookup_empty|].
  assert (∀ k, match findStream k (snStreams s), ss !! k with Some i, Some st => st = imported (options h) i | None, None => True | _, _ => False end) as Hss'.
  { intros k. rewrite Hss, Ho. destruct (findStream k (snStreams s)); [done|by rewrite lookup_empty]. }
  assert (maxLatest (snFloor s) ss = sequenceFloor h) as Hfl.
  { rewrite (rp_floor s h Hr). apply maxLatest_le. intros k st Hk. specialize (Hss' k). rewrite Hk in Hss'.
    pose proof (rp_streams s h Hr k) as Hrk. rewrite lookup_find in Hrk. destruct (findStream k (snStreams s)) as [i|]; [|done]. subst st.
    destruct (streams h !! k); [|done]. destruct Hrk as (_ & Hi & _). apply (io_latest _ _ _ _ Hi). }
  set (h1 := mkHistory (options h0) (snEpoch s) None ss (maxLatest (snFloor s) ss) (u64 (revision h0 + 1)) : History J).
  assert (represents s h1) as Hr1.
  { destruct Hr as [R1 R2 R3 R4 R5 R6 R7 R8]. split; cbn [options epoch streams sequenceFloor h1]; rewrite ?Hfl, ?Ho; try done; [congruence| |].
    - intros k. specialize (R7 k). specialize (Hss' k). rewrite lookup_find in R7 |- *. destruct (findStream k (snStreams s)) as [i|]; destruct (ss !! k) as [st|]; try done.
      subst st. destruct (streams h !! k); [|done]. destruct R7 as (? & ? & _). split_and!; [done|by rewrite R2|]. apply imported_in_memory. rewrite <- Ho. apply Hopt.
    - intros Hm. specialize (R8 Hm). assert (base.size ss = base.size (streams h)) as ->; [|done].
      rewrite <- !size_dom. f_equal. apply set_eq. intros k. rewrite !elem_of_dom. specialize (R7 k). specialize (Hss' k). rewrite lookup_find in R7.
      destruct (findStream k (snStreams s)), (ss !! k), (streams h !! k); try done; split; eauto; by intros [? ?]. }
  exists h1. split_and!; [|split; cbn [options epoch sequenceFloor streams h1]|done|done].
  - unfold Import. rewrite (rp_version s h Hr), Hj. cbv zeta.
    pose proof (rp_epoch0 s h Hr) as He. pose proof (rp_epoch s h Hr) as He'. rewrite <- He' in Ess.
    destruct (Z.eqb_spec (snEpoch s) 0) as [E0|_]; [congruence|]. cbn [Z.eqb HistorySnapshotVersion negb guard_err mbind result_bind Pos.eqb].
    assert ((0 <? MaxStreams (options h0)) && (MaxStreams (options h0) <? zlen (snStreams s)) = false) as ->.
    { rewrite (represents_count s h Hr), Ho. apply andb_false_iff. destruct (Z.ltb_spec 0 (MaxStreams (options h))); [right|by left].
      apply Z.ltb_ge. by apply (rp_limit s h Hr). }
    cbn [guard_err mbind result_bind]. rewrite Ess. done.
  - done.
  - apply (rp_epoch s h Hr).
  - done.
  - intros k. specialize (Hss' k). pose proof (rp_streams s h Hr k) as Hrk. rewrite lookup_find in Hrk.
    destruct (findStream k (snStreams s)) as [i|]; destruct (ss !! k) as [st|]; try done; destruct (streams h !! k) as [st'|]; try done.
    subst st. destruct Hrk as (_ & _ & [M1 M2 M3 M4 M5 M6]). rewrite <- Ho in M5.
    destruct (imported_in_memory (options h0) i (proj1 Hopt)) as [N1 N2 N3 N4 N5 N6]. rewrite <- Ho. rewrite <- M6 in N6.
    unfold same_stream. split_and!; try congruence. rewrite N5, M5 in N6.
    apply (u64_eq_add _ _ (- zlen (keep (options h0) (hsPackets i)))) in N6. rewrite <- !Z.add_assoc, Z.add_opp_diag_r, !Z.add_0_r in N6. done.
Qed.

(** *** An export represents its history *)

Lemma export_item o e f k i st :
  0 < MaxPacketsPerStream o → hsKey i = k → item_ok o e f i → in_memory o i st →
  hsKey (exportOne (k, st)) = k ∧ item_ok o e f (exportOne (k, st)) ∧ in_memory o (exportOne (k, st)) st.
Proof.
  intros Ho <- [I1 I2 I3 I4 I5 I6 I7] [M1 M2 M3 M4 M5 M6]. destruct i as [ob sm la ac dr pr sc av ps]. unfold hsKey, exportOne in *. cbn in *. split; [done|].
  split; [split; cbn; rewrite ?M1, ?M2, ?M3, ?M4, ?M5; try done|].
  - by apply packets_drop.
  - intros Hn. apply I5. by apply (keep_nil o Ho).
  - rewrite last_keep by done. done.
  - split; cbn; try done. rewrite M5. unfold keep at 2. rewrite (zlen_keep o Ho).
    by replace (Z.to_nat (Z.min (zlen ps) (MaxPacketsPerStream o) - MaxPacketsPerStream o)) with 0%nat by lia.
Qed.

Lemma export_find (e floor : Z) (ss : gmap streamKey streamState) k :
  NoDup (hsKey <$> snStreams (exportStreams e floor ss)) ∧
  findStream k (snStreams (exportStreams e floor ss)) = (λ st, exportOne (k, st)) <$> ss !! k.
Proof.
  cbn [exportStreams snStreams]. set (l := map exportOne (map_to_list ss)).
  assert (hsKey <$> l = fst <$> map_to_list ss) as Hk.
  { unfold l. rewrite <- list_fmap_compose. apply list_fmap_ext. intros _ [[ob sm] st] _. done. }
  assert (NoDup (hsKey <$> l)) as Hnd by (rewrite Hk; apply NoDup_fst_map_to_list).
  split; [by rewrite merge_sort_Permutation|]. rewrite findStream_index.
  rewrite (list_to_map_proper _ ((λ i, (hsKey i, i)) <$> l)); [|rewrite <- list_fmap_compose; by rewrite merge_sort_Permutation|by rewrite merge_sort_Permutation].
  assert ((λ i, (hsKey i, i)) <$> l = prod_map id id <$> ((λ kv, (fst kv, exportOne kv)) <$> map_to_list ss)) as ->.
  { unfold l. rewrite <- !list_fmap_compose. apply list_fmap_ext. intros _ [[ob sm] st] _. done. }
  rewrite <- (list_to_map_to_list ss) at 2. clear Hk Hnd l. induction (map_to_list ss) as [|[k' st] m IH]; cbn; [by rewrite !lookup_empty|].
  destruct (decide (k = k')) as [->|Hne]; [by rewrite !lookup_insert_eq|]. rewrite !lookup_insert_ne by done. apply IH.
Qed.

Lemma export_represents s h : represents s h → options_ok (options h) → represents (Export h) h.
Proof.
  intros Hr [Ho _]. destruct (export_find (epoch h) (sequenceFloor h) (streams h) (mkObserver 0 0 0 [], mkStream [] 0)) as [Hnd _].
  destruct Hr as [R1 R2 R3 R4 R5 R6 R7 R8]. split; try done. intros k. rewrite lookup_find. unfold Export.
  rewrite (proj2 (export_find _ _ _ k)). specialize (R7 k). destruct (streams h !! k) as [st|]; cbn [fmap option_fmap option_map]; [|done].
  destruct (index s !! k) as [i|]; [|done]. destruct R7 as (Hk & Hi & Him). by eapply export_item.
Qed.

(** *** What [Import] lets through *)

(** A stream of an imported snapshot: it has sent something, its numbers fit
    the wire types and leave room, and its names are UTF-8. *)
Record item_typed (i : HistoryStreamSnapshot) : Prop := {
  it_latest : 0 < hsLatest i ≤ 2^63;
  it_acked : 0 ≤ hsAcked i;
  it_packets : Forall (λ p, 0 ≤ pkSequence p < 2^64 ∧ 0 ≤ pkBase p < 2^64) (hsPackets i);
  it_text : key_text (hsKey i)
}.

Record snapshot_typed (s : HistorySnapshot) : Prop := {
  st_floor : 0 ≤ snFloor s ≤ 2^63;
  st_items : Forall item_typed (snStreams s)
}.

(** A successor that is not zero has not wrapped. *)
Lemma u64_next a b : 0 ≤ a < 2^64 → b = u64 (a + 1) → b ≠ 0 → b = a + 1.
Proof.
  intros Ha -> Hb. destruct (decide (a = 2^64 - 1)) as [->|]; [by destruct Hb|]. apply u64_small. unfold is_u64. lia.
Qed.

Lemma importPackets_sound o e i l : ∀ prev,
  importPackets (MaxPayloadBytes o) e i prev l = Ok tt →
  Forall (λ p, 0 ≤ pkSequence p < 2^64 ∧ 0 ≤ pkBase p < 2^64) l →
  match prev with Some q => 0 ≤ pkSequence q < 2^64 | None => True end →
  Forall (packet_ok o e (hsKey i)) l ∧
  match prev, l with None, [] => True | None, p :: l' => starts p ∧ chain p l' | Some q, _ => chain q l end.
Proof.
  induction l as [|p l IH]; intros prev Hi Ht Hprev; [by destruct prev|]. apply Forall_cons in Ht as [[Hs Hb] Ht].
  cbn [importPackets] in Hi. apply bind_ok_inv in Hi as (? & H1%guard_err_ok & Hi). apply bind_ok_inv in Hi as (? & H2%guard_err_ok & Hi).
  apply bind_ok_inv in Hi as ([] & H3 & Hi). apply bind_ok_inv in Hi as (? & H4%guard_err_ok & Hi).
  destruct (IH (Some p) Hi Ht Hs) as [Hall Hchain]. clear IH Hi. to_prop.
  destruct H1 as ((((Ho & Hst) & He) & Hseq) & Hsc).
  assert (packet_ok o e (hsKey i) p) as Hp.
  { split; [unfold pkKey, hsKey; congruence|done|lia|done|destruct H2; [by left|by right]|]. intros Hf. destruct H4 as [Hf'|?]; [congruence|done]. }
  split; [by constructor|]. destruct prev as [q|].
  - apply bind_ok_inv in H3 as (? & H5%guard_err_ok & H6%guard_err_ok). to_prop. destruct H5 as [Hq Hbase]. split; [|done]. split.
    + by apply u64_next.
    + destruct (pkFull p); [by left|right]. destruct Hbase as [?|?]; [done|]. destruct H6 as [?|?]; done.
  - apply guard_err_ok in H3. to_prop. split; [|done]. unfold starts. destruct (pkFull p); [by left|right].
    destruct H3 as [[?|?]|Hu]; [done|by left|right]. symmetry. by apply u64_next.
Qed.

(** A stream as memory holds it. *)
Definition state_ok (o : HistoryOptions) (e floor : Z) (k : streamKey) (st : streamState) : Prop :=
  item_ok o e floor (exportOne (k, st)) ∧ zlen (items st) ≤ MaxPacketsPerStream o.

Lemma importOne_sound h e now i st :
  importOne h e now i = Ok st → item_typed i → stTopic (hsStream i) ≠ [] → now ≠ 0 → options_ok (options h) →
  latest st = hsLatest i ∧ state_ok (options h) e (hsLatest i) (hsKey i) st.
Proof.
  intros Hi [T1 T2 T3 T4] Htop Hnow [Ho _]. unfold importOne in Hi. apply bind_ok_inv in Hi as (? & H1%guard_err_ok & Hi).
  apply bind_ok_inv in Hi as ([] & H2 & Hi). apply bind_ok_inv in Hi as ([] & H3 & Hi). cbv zeta in Hi.
  apply bind_ok_inv in Hi as (? & H4%guard_err_ok & Hi). injection Hi as <-. split; [done|].
  rewrite keep_if in *. destruct (importPackets_sound _ _ _ _ _ H2 T3 I) as [Hall Hchain].
  assert (packets_ok (options h) e (hsKey i) (hsLatest i) (hsPackets i)) as Hp.
  { split; [done|by destruct (hsPackets i)|]. intros p Hl. rewrite Hl in H3. apply guard_err_ok in H3. by to_prop. }
  split; [|cbn [items]; rewrite zlen_keep by done; lia].
  apply orb_false_iff in H1 as [H1 H1']. to_prop.
  split; cbn [exportOne hsKey hsObserver hsStream hsLatest hsAcked hsPackets hsSchema hsActivity latest acked schema activity items]; try done; [lia| |..].
  - by apply packets_drop.
  - intros Hn. apply (keep_nil (options h) Ho) in Hn. rewrite Hn in H1'. destruct H1' as [[?|?]|?]; [lia|done|done].
  - split; [destruct H4 as [?|?]; [lia|done]|]. intros p ->. done.
  - destruct (Z.eqb_spec (hsActivity i) 0); done.
Qed.

(** What every imported stream is. *)
Definition good (o : HistoryOptions) (e : Z) (ss : gmap streamKey streamState) : Prop :=
  ∀ k st, ss !! k = Some st → state_ok o e (latest st) k st ∧ latest st ≤ 2^63 ∧ key_text k.

Lemma importStreams_sound h e now l : ∀ ss ss',
  importStreams h e now l ss = Ok ss' → Forall item_typed l → now ≠ 0 → options_ok (options h) → good (options h) e ss →
  good (options h) e ss' ∧ zlen l + Z.of_nat (base.size ss) = Z.of_nat (base.size ss').
Proof.
  induction l as [|i l IH]; intros ss ss' Hi Ht Hnow Ho Hg; cbn [importStreams] in Hi; [injection Hi as <-; by split|].
  apply Forall_cons in Ht as [Ht Hts]. apply bind_ok_inv in Hi as (? & H1%guard_err_ok & Hi). apply bind_ok_inv in Hi as (? & H2%guard_err_ok & Hi).
  apply bind_ok_inv in Hi as (st & Hst & Hi). apply bool_decide_eq_false in H1, H2. apply eq_None_not_Some in H2.
  destruct (importOne_sound h e now i st Hst Ht H1 Hnow Ho) as [Hl Hok].
  destruct (IH _ _ Hi Hts Hnow Ho) as [Hg' Hsz].
  - intros k st' [[<- <-]|[_ Hk]]%lookup_insert_Some; [|by apply Hg]. rewrite Hl. split_and!; [done|apply Ht|apply Ht].
  - split; [done|]. rewrite map_size_insert_None in Hsz by done. rewrite zlen_cons. lia.
Qed.

Lemma maxLatest_bounds floor ss top : floor ≤ top → (∀ k st, ss !! k = Some st → latest st ≤ top) →
  floor ≤ maxLatest floor ss ≤ top ∧ ∀ k st, ss !! k = Some st → latest st ≤ maxLatest floor ss.
Proof.
  intros Hf Hle. unfold maxLatest. assert (∀ st, st ∈ map snd (map_to_list ss) ↔ ∃ k, ss !! k = Some st) as Hin.
  { intros st. rewrite list_elem_of_In, in_map_iff. split.
    - intros ([k st'] & <- & Hk%list_elem_of_In%elem_of_map_to_list). by exists k.
    - intros (k & Hk). exists (k, st). split; [done|]. by apply list_elem_of_In, elem_of_map_to_list. }
  assert (floor ≤ fold_right (λ s floor, if floor <? latest s then latest s else floor) floor (map snd (map_to_list ss)) ≤ top ∧
    ∀ st, st ∈ map snd (map_to_list ss) → latest st ≤ fold_right (λ s floor, if floor <? latest s then latest s else floor) floor (map snd (map_to_list ss))) as [H1 H2].
  { assert (∀ st, st ∈ map snd (map_to_list ss) → latest st ≤ top) as Hl by (intros st (k & Hk)%Hin; by eapply Hle). clear Hin Hle.
    induction (map snd (map_to_list ss)) as [|st l IH]; cbn [fold_right]; [split; [lia|by intros ? ?%elem_of_nil]|].
    destruct IH as [I1 I2]; [intros x Hx; apply Hl; by right|]. pose proof (Hl st ltac:(by left)).
    destruct (Z.ltb_spec (fold_right (λ s floor, if floor <? latest s then latest s else floor) floor l) (latest st)).
    - split; [lia|]. intros x [->|Hx]%elem_of_cons; [lia|]. specialize (I2 x Hx). lia.
    - split; [lia|]. intros x [->|Hx]%elem_of_cons; [lia|by apply I2]. }
  split; [done|]. intros k st Hk. apply H2, Hin. by exists k.
Qed.

(** Streams in memory stand for themselves. *)
Lemma represents_states o e (j : option J) ss floor r :
  e ≠ 0 → 0 ≤ floor < 2^64 → 0 < MaxPacketsPerStream o → (∀ k st, ss !! k = Some st → state_ok o e floor k st) →
  (0 < MaxStreams o → Z.of_nat (base.size ss) ≤ MaxStreams o) →
  represents (exportStreams e floor ss) (mkHistory o e j ss floor r).
Proof.
  intros He Hf Ho Hss Hlim. destruct (export_find e floor ss (mkObserver 0 0 0 [], mkStream [] 0)) as [Hnd _]. split; try done.
  intros k. rewrite lookup_find, (proj2 (export_find _ _ _ k)). cbn [streams options epoch sequenceFloor].
  destruct (ss !! k) as [st|] eqn:Hk; cbn [fmap option_fmap option_map]; [|done]. destruct (Hss k st Hk) as [Hi Hlen].
  destruct k as [ob sm]. split_and!; [done..|]. split; cbn; try done. unfold keep. by replace (Z.to_nat (zlen (items st) - MaxPacketsPerStream o)) with 0%nat by lia.
Qed.

(** The history without its journal. *)
Definition unbound h : History J := mkHistory (options h) (epoch h) None (streams h) (sequenceFloor h) (revision h).

Lemma import_sound h s now h2 :
  Import (unbound h) s now = (h2, None) → snapshot_typed s → now ≠ 0 → options_ok (options h) →
  represents (Export h2) h2 ∧ history_text h2 ∧ 0 ≤ sequenceFloor h2 ≤ 2^63 ∧ epoch h2 = snEpoch s ∧ options h2 = options h.
Proof.
  intros Hi [T1 T2] Hnow Ho. unfold Import in Hi. cbv zeta in Hi. cbn [journal unbound options epoch streams sequenceFloor revision] in Hi.
  match type of Hi with match ?c with _ => _ end = _ => destruct c as [ss|] eqn:Hc; [|done] end. injection Hi as <-.
  apply bind_ok_inv in Hc as (? & H1%guard_err_ok & Hc). apply bind_ok_inv in Hc as (? & H2%guard_err_ok & Hc). apply bind_ok_inv in Hc as (? & H3%guard_err_ok & Hc).
  destruct (importStreams_sound (unbound h) _ _ _ _ _ Hc T2 Hnow Ho) as [Hg Hsz]; [by intros k st; rewrite lookup_empty|].
  rewrite map_size_empty in Hsz. destruct (maxLatest_bounds (snFloor s) ss (2^63)) as [Hf Hle]; [lia|by intros k st (_ & ? & _)%Hg|].
  split_and!; cbn [sequenceFloor epoch options]; try done; try lia; [|by intros k [st (_ & _ & ?)%Hg]].
  apply represents_states; [to_prop; done|lia|apply Ho| |].
  - intros k st Hk. destruct (Hg k st Hk) as ([Hi Hlen] & _). split; [|done]. eapply item_ok_floor; [|exact Hi]. by eapply Hle.
  - intros Hm. cbn [options unbound] in *. to_prop. destruct H3; lia.
Qed.

Lemma importStreams_options h h' e now l : options h = options h' → ∀ ss, importStreams h e now l ss = importStreams h' e now l ss.
Proof.
  intros E. induction l as [|i l IH]; intros ss; cbn [importStreams]; [done|].
  assert (importOne h e now i = importOne h' e now i) as -> by (unfold importOne; by rewrite E).
  destruct (guard_err (bool_decide (stTopic _ = [])) _) as [[]|]; [|done]. cbn [mbind result_bind].
  destruct (guard_err (bool_decide (is_Some _)) _) as [[]|]; [|done]. cbn [mbind result_bind].
  destruct (importOne h' e now i); [apply IH|done].
Qed.

(** [Import] publishes what it would import without a journal. *)
Lemma import_publishes h s now :
  (∃ x, Import h s now = (h, Some x)) ∨
  ∃ h2, Import (unbound h) s now = (h2, None) ∧
    Import h s now = match journal h with
                     | None => (h2, None)
                     | Some j =>
                         match JCheckpoint j (Export h2) with
                         | (j', Some x) => (mkHistory (options h) (epoch h) (Some j') (streams h) (sequenceFloor h) (revision h), Some x)
                         | (j', None) => (mkHistory (options h2) (epoch h2) (Some j') (streams h2) (sequenceFloor h2) (revision h2), None)
                         end
                     end.
Proof.
  unfold Import. cbv zeta. cbn [journal unbound options epoch streams sequenceFloor revision].
  rewrite (importStreams_options (unbound h) h) by done.
  match goal with |- context [match ?c with Ok _ => _ | Err _ => _ end] => destruct c as [ss|x]; [right|left; by exists x] end.
  eexists. split; [reflexivity|]. destruct (journal h) as [j|]; [|done]. unfold Export. cbn [epoch streams sequenceFloor options revision].
  by destruct (JCheckpoint j _) as [j' [x|]].
Qed.
End Commit.
