(* ===== verification/SyncRestart.v ===== *)
(** * Runs and restarts of a journaled history (framework/sync/syncstream)

    Operations and restarts of a history with a file journal whose writes may
    fail, with an outcome the caller does not learn. *)

From S2P Require Import Prelude Bytes SyncHistory SyncJournal SyncHistoryInv SyncRun.

Abbreviation Journaled := (History FileHistoryJournal).

Inductive op : Type :=
| OAppend (packet : Packet) (now : Z)
| ORecover (request : ResyncRequest) (begun : ResyncResult * Z) (provider : option (result HistErr Packet)) (now : Z)
| OAcknowledge (key : streamKey) (e sequence now : Z)
| ODelete (key : streamKey)
| ODeleteObserver (observer : Observer)
| OSweep (now : Z)
| ORotate (e fresh : Z)
| OImport (snapshot : HistorySnapshot) (now : Z)
| OCheckpoint
| ORestart (initial fresh : Z) (fate : list outcome) (now : Z).

(** The process stops and a new one opens what the journal left. *)
Definition restart (h : Journaled) (initial fresh : Z) (fate : list outcome) (now : Z) : result HistErr Journaled :=
  NewHistoryWithJournal (options h) fresh ((λ j, reopen j initial fresh fate) <$> journal h) now.

(** The history after an operation, and the packet it sent, if any. *)
Definition perform (h : Journaled) (o : op) : Journaled * option Packet :=
  match o with
  | OAppend packet now => let '(h', r) := Append h packet now in (h', emitted r)
  | ORecover request begun provider now =>
      let '(h', r, err) := recoverEnd h request begun provider now in
      (h', match err with
           | None => if rsFull (fst begun) then head (rsPackets r) else None
           | Some _ => None
           end)
  | OAcknowledge key e sequence now => (fst (AcknowledgeEpoch h key e sequence now), None)
  | ODelete key => (fst (DeleteStream h key), None)
  | ODeleteObserver observer => (fst (DeleteObserver h observer), None)
  | OSweep now => (fst (SweepIdle h now), None)
  | ORotate e fresh => (fst (RotateEpoch h e fresh), None)
  | OImport snapshot now => (fst (Import h snapshot now), None)
  | OCheckpoint => (fst (Checkpoint h), None)
  | ORestart initial fresh fate now => (match restart h initial fresh fate now with Ok h' => h' | Err _ => h end, None)
  end.

(** The clock does not read zero, [newEpoch] is not zero, streams have UTF-8
    names, and every stream of an imported snapshot has sent something. *)
Definition op_ok (o : op) : Prop :=
  match o with
  | OAppend packet now => now ≠ 0 ∧ key_text (pkKey packet)
  | ORecover request _ _ now => now ≠ 0 ∧ key_text (rqKey request)
  | OAcknowledge _ _ _ now => now ≠ 0
  | ORotate _ fresh => fresh ≠ 0
  | OImport snapshot now => now ≠ 0 ∧ snapshot_typed snapshot
  | ORestart _ fresh _ _ => fresh ≠ 0
  | _ => True
  end.

(** ** The journal *)

Lemma replayWAL_app l1 : ∀ l2 s, replayWAL (l1 ++ l2) s = (replayWAL l1 s ≫= replayWAL l2).
Proof.
  induction l1 as [|m l1 IH]; intros l2 s; cbn [app replayWAL]; [done|].
  destruct (replayHistoryMutation s m) as [s'|e]; cbn [mbind result_bind]; [apply IH|done].
Qed.

(** A first record brings its epoch along. *)
Lemma replay_first e m s' :
  replayHistoryMutation (mkSnapshot HistorySnapshotVersion e [] 0) m = Ok s' → e ≠ 0 →
  replayHistoryMutation (mkSnapshot HistorySnapshotVersion 0 [] 0) m = Ok s'.
Proof.
  intros H He. unfold replayHistoryMutation in *. destruct (negb (muVersion m =? HistoryMutationVersion)); [done|].
  cbn [snEpoch snVersion snStreams snFloor Z.eqb] in *. destruct (Z.eqb_spec e 0); [done|].
  rewrite Z.eqb_refl. revert H. destruct (muKind m); cbn [negb snEpoch]; try done; destruct (Z.eqb_spec (muEpoch m) e) as [->|]; done.
Qed.

Lemma load_snoc j s m s' initial' gen fate' bad :
  loadFiles j = Ok s → snEpoch s ≠ 0 → replayHistoryMutation s m = Ok s' →
  loadFiles (mkJournal initial' gen (checkpoint j) (wal j ++ [m]) false bad fate') = Ok s'.
Proof.
  intros Hl He Hm. unfold loadFiles in *. cbn [checkpoint wal]. destruct (checkpoint j) as [c|].
  - rewrite replayWAL_app, Hl. cbn. by rewrite Hm.
  - destruct (wal j) as [|m0 w].
    + injection Hl as <-. cbn [app replayWAL]. rewrite (replay_first (initialEpoch j) m s' Hm He). done.
    + change ((m0 :: w) ++ [m]) with (m0 :: (w ++ [m])). cbn iota. rewrite app_comm_cons, replayWAL_app, Hl. cbn. by rewrite Hm.
Qed.

(** The files hold something. *)
Definition stored (j : FileHistoryJournal) : Prop := checkpoint j ≠ None ∨ wal j ≠ [].

Lemma load_reopen j initial fresh fate :
  stored j → loadFiles (reopen j initial fresh fate) = loadFiles j.
Proof. unfold stored, loadFiles, reopen. cbn. intros [?|?]; destruct (checkpoint j); try done; by destruct (wal j). Qed.

(** ** The invariant *)

(** What the files may stand for: the history, or the history with the one
    mutation or import whose write was reported as failed. *)
Definition could_be (h h' : Journaled) : Prop :=
  memory h' = memory h ∨ (∃ e m, valid h e m ∧ memory h' = memory (after h e m)) ∨
  ∃ snapshot now h2, Import (unbound h) snapshot now = (h2, None) ∧ memory h' = memory h2.

(** The highest sequence the stream may have used in this epoch. *)
Definition bound (h : Journaled) (k : streamKey) : Z :=
  match streams h !! k with Some st => latest st | None => sequenceFloor h end.
(** The packets sent so far are behind. *)
Definition behind (sent : list Packet) (h : Journaled) : Prop :=
  ∀ p, p ∈ sent → pkEpoch p = epoch h → pkSequence p ≤ bound h (pkKey p).

(** After [n] operations. *)
Record sound (n : Z) (sent : list Packet) (h : Journaled) : Prop := {
  so_options : options_ok (options h) ∧ oEpoch (options h) ≠ 0;
  so_ghost : ∃ s, represents s h;
  so_text : history_text h;
  so_floor : sequenceFloor h ≤ 2^63 + n;
  so_behind : behind sent h;
  so_journal : ∃ j s h', journal h = Some j ∧ closed j = false ∧ loadFiles j = Ok s ∧ represents s h' ∧
    options h' = options h ∧ could_be h h' ∧ (failure j = false → memory h' = memory h) ∧
    (sequenceFloor h' ≤ 2^63 + n ∧ history_text h') ∧ behind sent h' ∧ (stored j ∨ sent = [] ∧ memory h' = memory h)
}.

Lemma sound_sub n sent sent' h : sound n sent h → (∀ p, p ∈ sent' → p ∈ sent) → sound n sent' h.
Proof.
  intros [H1 H2 HT H3 H4 (j & s & h' & Hj & J1 & J2 & J3 & J4 & J5 & J6 & J7 & J8 & J9)] Hs.
  split; try done; [by intros p Hp; apply H4, Hs|]. exists j, s, h'. split_and!; try done; try apply J7; [by intros p Hp; apply J8, Hs|].
  destruct J9 as [?|[-> ?]]; [by left|right]. split; [|done]. destruct sent' as [|p l]; [done|]. exfalso. apply (not_elem_of_nil p), Hs. by left.
Qed.

Lemma memory_fields (h h' : Journaled) : memory h = memory h' →
  options h = options h' ∧ epoch h = epoch h' ∧ streams h = streams h' ∧ sequenceFloor h = sequenceFloor h'.
Proof. by intros [= -> -> -> ->]. Qed.

Lemma behind_memory sent (h h' : Journaled) : memory h = memory h' → behind sent h → behind sent h'.
Proof. intros (_ & E1 & E2 & E3)%memory_fields Hb p Hp He. unfold bound. rewrite <- E2, <- E3. apply Hb; [done|congruence]. Qed.

Lemma valid_memory (h h' : Journaled) e m : memory h = memory h' → valid h e m → valid h' e m.
Proof. intros (E1 & E2 & E3 & E4)%memory_fields. unfold valid. by rewrite E1, E2, E3, E4. Qed.

Lemma after_memory (h h' : Journaled) e m : memory h = memory h' → memory (after h e m) = memory (after h' e m).
Proof.
  intros (E1 & E2 & E3 & E4)%memory_fields. unfold after, memory, set_streams, startState. destruct m; cbn; by rewrite ?E1, ?E2, ?E3, ?E4.
Qed.

(** A packet joins the ones sent exactly when it is appended. *)
Definition sends (m : mutation) : list Packet := match m with MAppend p _ => [p] | _ => [] end.

(** Rotations do not go back to an epoch packets were sent under. *)
Definition fresh_epoch (sent : list Packet) (e : Z) (m : mutation) : Prop :=
  m = MRotateEpoch → ∀ p, p ∈ sent → pkEpoch p ≠ e.

Lemma bound_after s (h : Journaled) e m : represents s h → valid h e m → m ≠ MRotateEpoch → ∀ k, bound h k ≤ bound (after h e m) k.
Proof.
  intros Hr Hv Hm k. assert (∀ k st, streams h !! k = Some st → latest st ≤ sequenceFloor h) as Hle.
  { intros k' st Hk. destruct (represents_find s h k' st Hr Hk) as (i & _ & _ & Hi & Him). rewrite (im_latest _ _ _ Him). apply (io_latest _ _ _ _ Hi). }
  unfold bound. destruct m as [p now|key sq b now|key|ob|targets|]; cbn [after set_streams streams sequenceFloor]; [| | | | |done].
  - destruct Hv as (_ & _ & _ & _ & _ & _ & _ & Hv). destruct (decide (k = pkKey p)) as [->|Hne].
    + rewrite lookup_insert_eq. unfold appendState. cbv zeta.
      destruct (0 <? _); cbn [latest]; destruct (streams h !! pkKey p); lia.
    + rewrite lookup_insert_ne by done. destruct (streams h !! k); [done|]. destruct (Z.ltb_spec (sequenceFloor h) (pkSequence p)); lia.
  - destruct (decide (k = key)) as [->|Hne]; [|by rewrite lookup_alter_ne]. rewrite lookup_alter_eq. destruct (streams h !! key); done.
  - destruct (decide (k = key)) as [->|Hne]; [rewrite lookup_delete_eq|by rewrite lookup_delete_ne]. destruct (streams h !! key) eqn:E; [by eapply Hle|done].
  - rewrite map_lookup_filter. destruct (streams h !! k) eqn:E; cbn; [|done].
    destruct (decide (fst k ≠ ob)); [by rewrite option_guard_True|rewrite option_guard_False by done; by eapply Hle].
  - assert (foldr delete (streams h) targets !! k = streams h !! k ∨ foldr delete (streams h) targets !! k = None) as [->| ->].
    { clear. induction targets as [|t targets IH]; cbn [foldr]; [by left|]. destruct (decide (k = t)) as [->|]; [right; apply lookup_delete_eq|by rewrite lookup_delete_ne]. }
    + done.
    + destruct (streams h !! k) eqn:E; [by eapply Hle|done].
Qed.

Lemma behind_after s (h : Journaled) e m sent :
  represents s h → valid h e m → behind sent h → fresh_epoch sent e m → behind (sent ++ sends m) (after h e m).
Proof.
  intros Hr Hv Hb Hf p Hp He. apply elem_of_app in Hp as [Hp|Hp].
  - assert (m = MRotateEpoch ∨ m ≠ MRotateEpoch) as [->|Hm] by (destruct m; auto); [by destruct (Hf eq_refl p Hp)|].
    etrans; [|by eapply bound_after]. apply Hb; [done|]. rewrite He. destruct m; done.
  - destruct m as [q now| | | | |]; cbn [sends] in Hp; try by apply not_elem_of_nil in Hp.
    apply list_elem_of_singleton in Hp as ->. unfold bound. cbn [after streams]. rewrite lookup_insert_eq. unfold appendState. cbv zeta. by destruct (0 <? _).
Qed.

Lemma floor_after s (h : Journaled) e m : represents s h → valid h e m → sequenceFloor (after h e m) ≤ sequenceFloor h + 1.
Proof.
  intros Hr Hv. pose proof (rp_range s h Hr). destruct m as [p now| | | | |]; cbn [after set_streams sequenceFloor]; try lia.
  destruct Hv as (_ & _ & _ & _ & _ & _ & _ & Hv). destruct (Z.ltb_spec (sequenceFloor h) (pkSequence p)); [|lia].
  destruct (streams h !! pkKey p) as [st|] eqn:E; [|lia]. destruct (represents_find s h _ st Hr E) as (i & _ & _ & Hi & Him).
  pose proof (io_latest _ _ _ _ Hi). rewrite (im_latest _ _ _ Him) in Hv. lia.
Qed.

Lemma replays_after s (h : Journaled) e m :
  represents s h → options_ok (options h) → sequenceFloor h + 1 < 2^64 → valid h e m →
  ∃ s', replayHistoryMutation s (mkMutation HistoryMutationVersion e m) = Ok s' ∧ represents s' (after h e m) ∧ snEpoch s ≠ 0.
Proof.
  intros Hr Ho Hf Hv. destruct (mutation_replays s h e m Hr Ho Hf Hv) as (s' & H1 & H2). exists s'. split_and!; [done..|].
  rewrite (rp_epoch s h Hr). apply (rp_epoch0 s h Hr).
Qed.

Lemma options_after (h : Journaled) e m : options (after h e m) = options h.
Proof. by destruct m. Qed.
Lemma journal_after (h : Journaled) e m : journal (after h e m) = journal h.
Proof. by destruct m. Qed.

(** The history [h1] after a record by [h]. *)
Definition with_journal (h : Journaled) (j : FileHistoryJournal) : Journaled :=
  mkHistory (options h) (epoch h) (Some j) (streams h) (sequenceFloor h) (revision h).

Lemma import_options (h1 h2 : Journaled) snapshot now h' : options h1 = options h2 → Import (unbound h1) snapshot now = (h', None) →
  ∃ h'', Import (unbound h2) snapshot now = (h'', None) ∧ memory h'' = memory h'.
Proof.
  intros E. unfold Import. cbv zeta. rewrite (importStreams_options (unbound h1) (unbound h2)) by done.
  cbn [journal unbound options epoch streams sequenceFloor revision]. rewrite <- E.
  match goal with |- context [match ?c with Ok _ => _ | Err _ => _ end] => destruct c as [ss|x] end; [|done].
  intros [= <-]. eexists. split; [reflexivity|]. unfold memory. cbn. by rewrite E.
Qed.

Lemma could_be_memory h1 h2 h' : memory h1 = memory h2 → could_be h1 h' → could_be h2 h'.
Proof.
  intros Hm [H|[(e & m & Hv & H)|(s & now & h3 & Hi & H)]]; [left; congruence|right; left|right; right].
  - exists e, m. split; [by eapply valid_memory|]. rewrite H. by apply after_memory.
  - pose proof (memory_fields _ _ Hm) as (E & _). destruct (import_options h1 h2 s now h3 E Hi) as (h4 & Hi' & Hm').
    exists s, now, h4. split; [done|congruence].
Qed.

Lemma sound_kept n sent h j :
  sound n sent h → journal h = Some j → sound (n + 1) sent (with_journal h j).
Proof.
  intros [H1 [s0 H2] HT H3 H4 (j' & s & h' & Hj & J1 & J2 & J3 & J4 & J5 & J6 & [J7 JT] & J8 & J9)] E. rewrite E in Hj. injection Hj as <-.
  split; try done; [exists s0; by apply (represents_memory s0 h)|cbn; lia|]. exists j, s, h'. split_and!; try done; [by apply (could_be_memory h)|lia].
Qed.

(** A write that left the files alone. *)
Lemma sound_refused n sent h j bad rest :
  sound n sent h → journal h = Some j → failure j = false →
  sound (n + 1) sent (with_journal h (mkJournal (initialEpoch j) (generation j) (checkpoint j) (wal j) false bad rest)).
Proof.
  intros [H1 [s0 H2] HT H3 H4 (j' & s & h' & Hj & J1 & J2 & J3 & J4 & J5 & J6 & [J7 JT] & J8 & J9)] E Hok. rewrite E in Hj. injection Hj as <-.
  split; try done; [exists s0; by apply (represents_memory s0 h)|cbn; lia|]. eexists _, s, h'. split_and!; try done; [..|lia].
  - by apply (could_be_memory h).
  - intros _. by apply J6.
Qed.

(** The files now stand for [h2]. *)
Lemma sound_stored n sent h j s h2 :
  sound n sent h → stored j → closed j = false → loadFiles j = Ok s → represents s h2 → options h2 = options h → could_be h h2 →
  (failure j = false → memory h2 = memory h) → sequenceFloor h2 ≤ 2^63 + (n + 1) → history_text h2 → behind sent h2 →
  sound (n + 1) sent (with_journal h j).
Proof.
  intros [H1 [s0 H2] HT H3 H4 _] Hst Hc Hl Hr Ho Hcb Hf Hfl Ht Hb.
  split; try done; [exists s0; by apply (represents_memory s0 h)|cbn; lia|]. exists j, s, h2. split_and!; try done; [by apply (could_be_memory h)|by left].
Qed.

(** The memory is what the files now stand for. *)
Lemma sound_fresh n sent (h : Journaled) j s :
  journal h = Some j → stored j → closed j = false → loadFiles j = Ok s → represents s h →
  options_ok (options h) ∧ oEpoch (options h) ≠ 0 → sequenceFloor h ≤ 2^63 + n → history_text h → behind sent h → sound n sent h.
Proof. intros Hj Hst Hc Hl Hr Ho Hf Ht Hb. split; try done; [by exists s|]. exists j, s, h. split_and!; try done; by left. Qed.

Lemma sound_commit {A} n sent h e m (ok : A) fail :
  sound n sent h → valid h e m → mutation_text m → fresh_epoch sent e m → n + 1 < 2^63 →
  let r := commit h e m ok fail in
  sound (n + 1) (sent ++ sends m) (fst r) ∧ snd r = ok ∨ sound (n + 1) sent (fst r) ∧ ∃ x, snd r = fail x.
Proof.
  intros Hs Hv Hm Hf Hn r. pose proof Hs as [[H1 H1'] [s0 H2] HT H3 H4 (j & s & h' & Hj & J1 & J2 & J3 & J4 & J5 & J6 & [J7 JT] & J8 & J9)].
  unfold r, commit, record. rewrite Hj. cbn [Record_ FileJournal]. unfold RecordFile. rewrite J1. cbn [muVersion]. rewrite Z.eqb_refl. cbn [negb].
  destruct (failure j) eqn:Ej; [right; split; [by apply sound_kept|by eexists]|].
  rewrite jsonMutation_id by done.
  assert (represents s h) as Hrep by (apply (represents_memory s h'); [by apply J6|done]).
  destruct (replays_after s h e m Hrep H1 ltac:(lia) Hv) as (s' & Hrp & Hr' & He0).
  pose proof (behind_after s h e m sent Hrep Hv H4 Hf) as Hb'. pose proof (floor_after s h e m Hrep Hv) as Hfl.
  pose proof (text_after h e m HT Hm) as Ht'.
  destruct (nextOutcome j) as [o rest]. destruct o as [| |durable]; cbv beta zeta iota; cbn [fst snd]; [|right; split; [by apply (sound_refused n sent h j false rest)|by eexists]|right; split; [|by eexists]].
  - left. split; [|done]. cbn [fst]. set (j2 := mkJournal _ _ _ _ _ _ _). fold (with_journal h j2).
    assert (memory (after h e m) = memory (after (with_journal h j2) e m)) as Hmem by (by apply after_memory).
    pose proof (memory_fields _ _ Hmem) as (Hopt & _ & _ & Hfloor). apply (sound_fresh _ _ _ j2 s').
    + by rewrite journal_after.
    + right. cbn. by destruct (wal j).
    + done.
    + by eapply load_snoc.
    + by apply (represents_memory s' (after h e m)).
    + by rewrite options_after.
    + lia.
    + by apply (text_memory (after h e m)).
    + by apply (behind_memory _ (after h e m)).
  - destruct durable; [|by apply (sound_refused n sent h j true rest)]. set (j2 := mkJournal _ _ _ _ _ _ _). fold (with_journal h j2).
    apply (sound_stored n sent h j2 s' (after h e m)); try done; [right; cbn; by destruct (wal j)|by eapply load_snoc|by rewrite options_after| |lia|].
    + right. left. by exists e, m.
    + intros p Hp. apply Hb'. apply elem_of_app. by left.
Qed.

(** ** Every operation keeps the invariant *)

Lemma sound_next n sent h : sound n sent h → sound (n + 1) sent h.
Proof.
  intros Hs. destruct (so_journal _ _ _ Hs) as (j & _ & _ & Hj & _). pose proof (sound_kept n sent h j Hs Hj) as H.
  assert (with_journal h j = h) as <- by (destruct h; cbn in *; by subst). done.
Qed.

(** The files after a checkpoint of [h2], which the history becomes when the
    write went well. *)
Lemma checkpoint_stored n sent h j h2 :
  sound n sent h → journal h = Some j → failure j = false → closed j = false → represents (Export h2) h2 → options h2 = options h →
  could_be h h2 → sequenceFloor h2 ≤ 2^63 + (n + 1) → history_text h2 → behind sent h2 →
  match CheckpointFile j (Export h2) with
  | (j', None) => sound (n + 1) sent (with_journal h2 j')
  | (j', Some _) => sound (n + 1) sent (with_journal h j')
  end.
Proof.
  intros Hs Hj Ej Hc Hr Ho Hcb Hf Ht Hb. unfold CheckpointFile. rewrite Hc, Ej. rewrite (snapshot_text _ h2) by done.
  destruct (nextOutcome j) as [o rest]. destruct o as [| |[|]]; cbv beta zeta iota.
  - eapply (sound_fresh _ _ _ _ (Export h2)); [done|by left|done|done|by apply (represents_memory _ h2)| |done..].
    cbn. rewrite Ho. apply (so_options _ _ _ Hs).
  - by apply (sound_refused n sent h j false rest).
  - by eapply (sound_stored n sent h _ (Export h2) h2); try done; left.
  - by apply (sound_refused n sent h j true rest).
Qed.

Lemma sound_checkpoint n sent h : sound n sent h → sound (n + 1) sent (fst (Checkpoint h)).
Proof.
  intros Hs. pose proof Hs as [[H1 H1'] [s0 H2] HT H3 H4 (j & s & h' & Hj & J1 & J2 & J3 & J4 & J5 & J6 & [J7 JT] & J8 & J9)].
  unfold Checkpoint. rewrite Hj. cbn [JCheckpoint FileJournal].
  destruct (failure j) eqn:Ej; [unfold CheckpointFile; rewrite J1, Ej; by apply sound_kept|].
  assert (represents (Export h) h) as Hx.
  { apply (export_represents s); [|done]. apply (represents_memory s h'); [by apply J6|done]. }
  pose proof (checkpoint_stored n sent h j h Hs Hj Ej J1 Hx eq_refl (or_introl eq_refl) ltac:(lia) HT H4) as Hck.
  destruct (CheckpointFile j (Export h)) as [j' [x|]]; exact Hck.
Qed.

Lemma sound_import n sent h snapshot now :
  sound n sent h → 0 ≤ n → snapshot_typed snapshot → now ≠ 0 → (∀ p, p ∈ sent → pkEpoch p ≠ snEpoch snapshot) →
  sound (n + 1) sent (fst (Import h snapshot now)).
Proof.
  intros Hs Hn Ht Hnow Hp. destruct (import_publishes h snapshot now) as [[x ->]|(h2 & Hi & ->)]; [by apply sound_next|].
  pose proof Hs as [[H1 H1'] _ _ _ _ (j & s & h' & Hj & J1 & _)]. rewrite Hj. cbn [JCheckpoint FileJournal].
  destruct (import_sound h snapshot now h2 Hi Ht Hnow H1) as (Hr & Htext & Hfl & He & Ho).
  destruct (failure j) eqn:Ej; [unfold CheckpointFile; rewrite J1, Ej; by apply sound_kept|].
  pose proof (checkpoint_stored n sent h j h2 Hs Hj Ej J1 Hr Ho) as Hck.
  destruct (CheckpointFile j (Export h2)) as [j' [x|]]; (apply Hck; [|lia|done|intros p Hin Hpe; destruct (Hp p Hin); congruence]);
    right; right; by exists snapshot, now, h2.
Qed.

Lemma normal_options o fresh : options_ok o → oEpoch o ≠ 0 → normalizeOptions o fresh = o.
Proof.
  intros [H1 H2] H3. destruct o as [a b c d e f g]. unfold normalizeOptions. cbn in *.
  destruct (Z.leb_spec a 0); [lia|]. destruct (Z.eqb_spec b 0); [done|]. by destruct (Z.eqb_spec e 0).
Qed.

Lemma bound_same (h1 h2 : Journaled) k : same_history h1 h2 → bound h1 k = bound h2 k.
Proof.
  intros Hs. unfold bound. pose proof (sh_streams _ _ Hs k) as Hk. destruct (streams h1 !! k), (streams h2 !! k); try done; [apply Hk|apply Hs].
Qed.

(** The files are empty. *)
Definition nothing (j : FileHistoryJournal) : Prop := checkpoint j = None ∧ wal j = [].
#[export] Instance nothing_dec j : Decision (nothing j).
Proof. unfold nothing. apply _. Defined.

Lemma stored_or_nothing j : stored j ∨ nothing j.
Proof. unfold stored, nothing. destruct (checkpoint j); [left; by left|]. destruct (wal j); [by right|left; by right]. Qed.

(** Loading a snapshot that stands for [g]. *)
Lemma load_import (h g : Journaled) j2 s1 fresh now :
  options_ok (options h) → oEpoch (options h) ≠ 0 → closed j2 = false → loadFiles j2 = Ok s1 → represents s1 g → options g = options h →
  ∃ h1, NewHistoryWithJournal (options h) fresh (Some j2) now = Ok h1 ∧ same_history h1 g ∧ represents s1 h1 ∧ journal h1 = Some j2.
Proof.
  intros H1 H1' Hc Hl Hr Ho. unfold NewHistoryWithJournal. cbn [Load FileJournal]. unfold LoadFile. rewrite Hc.
  unfold NewHistory. rewrite (normal_options _ fresh H1 H1'). cbv zeta.
  set (hn := mkHistory (options h) (oEpoch (options h)) None ∅ 0 0 : Journaled).
  destruct (import_represents s1 g hn now Hr) as (h1 & E & Hsame & Hr1 & _); [by rewrite Ho|done|done|].
  rewrite Hl. cbn [mbind result_bind]. rewrite E. eexists. split; [reflexivity|]. split_and!; [destruct Hsame; by split|by apply (represents_memory s1 h1)|done].
Qed.

Lemma text_same (h1 g : Journaled) : same_history h1 g → history_text g → history_text h1.
Proof. intros Hs Ht k [st Hk]. apply Ht. pose proof (sh_streams _ _ Hs k) as Hx. rewrite Hk in Hx. by destruct (streams g !! k). Qed.

Lemma represents_empty s (h : Journaled) : represents s h → snStreams s = [] → streams h = ∅.
Proof.
  intros Hr E. apply map_eq. intros k. pose proof (rp_streams s h Hr k) as Hk. unfold index in Hk. rewrite E in Hk. cbn in Hk.
  rewrite lookup_empty in Hk. rewrite lookup_empty. by destruct (streams h !! k).
Qed.

Lemma sound_restart n sent h initial fresh fate now :
  sound n sent h → 0 ≤ n → fresh ≠ 0 →
  ∃ h1, restart h initial fresh fate now = Ok h1 ∧ sound (n + 1) sent h1 ∧ ∃ j, journal h = Some j ∧
    ((∃ h', could_be h h' ∧ (failure j = false → memory h' = memory h) ∧ same_history h1 h') ∨
     nothing j ∧ streams h = ∅ ∧ streams h1 = ∅).
Proof.
  intros Hs Hn Hfr. pose proof Hs as [[H1 H1'] [s0 H2] HT H3 H4 (j & s & h' & Hj & J1 & J2 & J3 & J4 & J5 & J6 & [J7 JT] & J8 & J9)].
  unfold restart. rewrite Hj. cbn [fmap option_fmap option_map]. set (j2 := reopen j initial fresh fate).
  destruct (stored_or_nothing j) as [Hst|Hno].
  - assert (loadFiles j2 = Ok s) as Hl by (rewrite <- J2; by apply load_reopen).
    destruct (load_import h h' j2 s fresh now) as (h1 & E & Hsame & Hr1 & Hj1); [done..|]. exists h1. split; [done|]. split.
    + pose proof (sh_options _ _ Hsame). pose proof (sh_floor _ _ Hsame). eapply (sound_fresh _ _ _ j2 s); try done; [split; congruence|lia|by eapply text_same|].
      intros p Hp He. rewrite (bound_same h1 h') by done. apply J8; [done|]. by rewrite He, (sh_epoch _ _ Hsame).
    + exists j. split; [done|left]. by exists h'.
  - destruct J9 as [Hst|[-> Hmem]]; [destruct Hst, Hno; congruence|]. pose proof Hno as [Hc Hw].
    set (e := initialEpoch j2). set (g := mkHistory (options h) e None ∅ 0 0 : Journaled).
    assert (e ≠ 0) as He by (unfold e, j2, reopen; cbn; by destruct (Z.eqb_spec initial 0)).
    assert (loadFiles j2 = Ok (mkSnapshot HistorySnapshotVersion e [] 0)) as Hl by (unfold loadFiles, j2, reopen; cbn; by rewrite Hc, Hw).
    assert (represents (mkSnapshot HistorySnapshotVersion e [] 0) g) as Hg.
    { split; cbn; try done; [apply NoDup_nil_2|intros Hm; rewrite map_size_empty; lia]. }
    destruct (load_import h g j2 _ fresh now H1 H1' eq_refl Hl Hg eq_refl) as (h1 & E & Hsame & Hr1 & Hj1).
    pose proof (represents_empty _ h1 Hr1 eq_refl) as He1. exists h1. split; [done|]. split.
    + pose proof (sh_options _ _ Hsame) as E1. pose proof (sh_floor _ _ Hsame) as E3. cbn in E1, E3.
      split; [split; congruence|by eexists|intros k; rewrite He1, lookup_empty; by intros [? ?]|lia|by intros p ?%elem_of_nil|].
      exists j2, (mkSnapshot HistorySnapshotVersion e [] 0), h1. split_and!; try done; [by left|lia|intros k; rewrite He1, lookup_empty; by intros [? ?]|by intros p ?%elem_of_nil|by right].
    + exists j. split; [done|right]. split_and!; [done| |done]. apply (represents_empty s); [by apply (represents_memory s h')|].
      unfold loadFiles in J2. rewrite Hc, Hw in J2. by injection J2 as <-.
Qed.

Lemma valid_next h e p now q sent :
  valid h e (MAppend p now) → behind sent h → q ∈ sent → pkKey q = pkKey p → pkEpoch q = pkEpoch p → pkSequence q < pkSequence p.
Proof.
  intros (_ & _ & _ & He & _ & _ & _ & Hv) Hb Hq Hk Hqe. specialize (Hb q Hq ltac:(congruence)). rewrite Hk in Hb. unfold bound in Hb.
  destruct (streams h !! pkKey p); lia.
Qed.

(** The epoch an operation may move the history to, where the sequence numbers
    start again. *)
Definition movesTo (o : op) : option Z :=
  match o with
  | ORotate e fresh => Some (if e =? 0 then fresh else e)
  | OImport snapshot _ => Some (snEpoch snapshot)
  | _ => None
  end.
Definition fresh_op (sent : list Packet) (o : op) : Prop := ∀ e, movesTo o = Some e → ∀ p, p ∈ sent → pkEpoch p ≠ e.

Definition ahead (sent : list Packet) (p : Packet) : Prop :=
  ∀ q, q ∈ sent → pkKey q = pkKey p → pkEpoch q = pkEpoch p → pkSequence q < pkSequence p.

Lemma sound_commits {A} n sent h rot (r : Journaled * A) out :
  sound n sent h → n + 1 < 2^63 → commits h rot r out → (∀ e, rot = Some e → ∀ p, p ∈ sent → pkEpoch p ≠ e) →
  sound (n + 1) (sent ++ option_list (out (snd r))) (fst r) ∧ ∀ p, out (snd r) = Some p → ahead sent p.
Proof.
  intros Hs Hn [[E1 E2]|(e & m & ok & fail & [Hv Hm] & -> & Hfail & Hok & Hrot)] Hf.
  { rewrite E1, E2. cbn. rewrite app_nil_r. split; [by apply sound_next|done]. }
  assert (fresh_epoch sent e m) as Hfe by (intros Hm'; apply Hf; by apply Hrot).
  destruct (sound_commit n sent h e m ok fail Hs Hv Hm Hfe Hn) as [[H1 H2]|[H1 [x H2]]]; rewrite H2.
  - rewrite Hok. destruct m; cbn [option_list sends] in *; split; try done. intros p [= <-] q. by eapply valid_next; [|apply Hs].
  - rewrite Hfail. cbn. rewrite app_nil_r. split; [done|done].
Qed.

Lemma sound_perform n sent h o :
  sound n sent h → 0 ≤ n → n + 1 < 2^63 → op_ok o → fresh_op sent o →
  sound (n + 1) (sent ++ option_list (snd (perform h o))) (fst (perform h o)) ∧ ∀ p, snd (perform h o) = Some p → ahead sent p.
Proof.
  intros Hs Hn0 Hn Ho Hf. pose proof (proj1 (so_options _ _ _ Hs)) as Hopt. destruct (so_ghost _ _ _ Hs) as [s Hr]. pose proof (so_floor _ _ _ Hs).
  pose proof (so_text _ _ _ Hs) as HT.
  assert (∀ A (r : Journaled * A) out, commits h (movesTo o) r out →
    sound (n + 1) (sent ++ option_list (out (snd r))) (fst r) ∧ ∀ p, out (snd r) = Some p → ahead sent p) as Hc by (intros; by eapply sound_commits).
  destruct o as [packet now|request begun provider now|key e sq now|key|ob|now|e fresh|snapshot now| |initial fresh fate now]; cbn [perform op_ok movesTo] in *.
  - destruct Ho as [Ho Ht]. destruct (Append h packet now) as [h' r] eqn:E. apply (Hc _ (h', r) emitted). unfold Append in E.
    destruct (checkPacket h packet) eqn:Ec; [injection E as <- <-; by left|]. rewrite <- E. apply (append_commits s); try done; lia.
  - destruct Ho as [Ho Ht]. destruct begun as [resynced observed]. unfold recoverEnd. cbn [fst]. destruct (negb (rsFull resynced)) eqn:Ef.
    { apply negb_true_iff in Ef. rewrite Ef. apply (Hc _ (h, tt) (λ _, None)). by left. }
    apply negb_false_iff in Ef. rewrite Ef. destruct provider as [[packet|e]|]; [|apply (Hc _ (h, tt) (λ _, None)); by left..].
    cbv zeta. set (p := mkPacket _ _ _ _ _ _ _ _ _). destruct (appendIfUnchanged h p observed now) as [h' r] eqn:E.
    assert (commits h None (h', r) emitted) as Hcm.
    { unfold appendIfUnchanged in E. destruct (checkPacket h p) eqn:Ec; [injection E as <- <-; by left|].
      destruct (negb _); [injection E as <- <-; by left|]. rewrite <- E. apply (append_commits s); try done; lia. }
    apply Hc in Hcm. destruct r; exact Hcm.
  - exact (Hc _ _ silent (ack_commits h key e sq now HT Ho)).
  - exact (Hc _ _ silent (delete_commits h key HT)).
  - exact (Hc _ _ silent (view_commits h ob HT)).
  - exact (Hc _ _ silent (sweep_commits h now HT)).
  - exact (Hc _ _ silent (rotate_commits h e fresh Ho)).
  - destruct Ho as [Ho Ht]. cbn. rewrite app_nil_r. split; [|done]. apply sound_import; try done. by apply Hf.
  - cbn. rewrite app_nil_r. split; [by apply sound_checkpoint|done].
  - destruct (sound_restart n sent h initial fresh fate now Hs Hn0 Ho) as (h1 & -> & H1 & _). cbn. rewrite app_nil_r. by split.
Qed.

(** ** Runs *)

Definition runOps (h : Journaled) (ops : list op) : Journaled := fold_left (λ h o, fst (perform h o)) ops h.

(** Packets that were sent stay behind as long as the run does not move to
    their epoch. *)
Lemma sound_run ops : ∀ n sent h,
  sound n sent h → 0 ≤ n → Forall op_ok ops → Forall (fresh_op sent) ops → n + zlen ops < 2^63 → sound (n + zlen ops) sent (runOps h ops).
Proof.
  induction ops as [|o ops IH]; intros n sent h Hs Hn0 Hok Hfr Hn; cbn [runOps fold_left].
  { change (zlen (@nil op)) with 0. by rewrite Z.add_0_r. }
  rewrite zlen_cons in *. zlen_facts. apply Forall_cons in Hok as [Ho Hok]. apply Forall_cons in Hfr as [Hf Hfr].
  destruct (sound_perform n sent h o Hs Hn0 ltac:(lia) Ho Hf) as [Hs' _]. replace (n + (1 + zlen ops)) with (n + 1 + zlen ops) by lia.
  apply IH; try done; try lia. eapply sound_sub; [exact Hs'|]. intros p Hp. apply elem_of_app. by left.
Qed.

Lemma fresh_nothing o : fresh_op [] o.
Proof. by intros e _ p ?%elem_of_nil. Qed.

(** A new history over an empty journal. *)
Definition opened (o : HistoryOptions) (initial fresh : Z) (fate : list outcome) (now : Z) : result HistErr Journaled :=
  NewHistoryWithJournal o fresh (Some (NewFileHistoryJournal initial fresh fate)) now.

Lemma opened_sound o initial fresh fate now :
  fresh ≠ 0 → ∃ h, opened o initial fresh fate now = Ok h ∧ sound 0 [] h.
Proof.
  intros Hf. unfold opened, NewHistoryWithJournal, NewFileHistoryJournal, NewHistory. cbn [Load FileJournal]. unfold LoadFile, loadFiles. cbn [closed checkpoint wal initialEpoch mbind result_bind].
  set (e := if initial =? 0 then fresh else initial). assert (e ≠ 0) as He by (unfold e; by destruct (Z.eqb_spec initial 0)).
  set (o' := normalizeOptions o fresh).
  assert (options_ok o' ∧ oEpoch o' ≠ 0) as Hopt.
  { unfold o', normalizeOptions, options_ok. cbn. destruct (Z.leb_spec (MaxPacketsPerStream o) 0), (Z.eqb_spec (oSchemaVersion o) 0), (Z.eqb_spec (oEpoch o) 0); split_and!; try done; lia. }
  set (g := mkHistory o' e None ∅ 0 0 : Journaled). set (s := mkSnapshot HistorySnapshotVersion e [] 0).
  assert (represents s g) as Hg by (split; cbn; try done; [apply NoDup_nil_2|intros Hm; rewrite map_size_empty; lia]).
  destruct (import_represents s g (mkHistory o' (oEpoch o') None ∅ 0 0) now Hg (proj1 Hopt) eq_refl eq_refl) as (h1 & E & Hsame & Hr1 & _).
  rewrite E. eexists. split; [reflexivity|]. pose proof (sh_options _ _ Hsame) as E1. pose proof (sh_floor _ _ Hsame) as E3. cbn in E1, E3.
  assert (history_text h1) as Ht1.
  { intros k. pose proof (sh_streams _ _ Hsame k) as Hk. cbn [g streams] in Hk. rewrite lookup_empty in Hk.
    intros [st Hst]. by rewrite Hst in Hk. }
  split; cbn [options sequenceFloor]; [by rewrite E1|exists s; by apply (represents_memory s h1)|done|lia|by intros p ?%elem_of_nil|].
  eexists _, s, _. split_and!; [reflexivity|done..|exact Hr1| | |done| | |by intros p ?%elem_of_nil|by right].
  - done.
  - left. done.
  - lia.
  - done.
Qed.



(** ** Resynchronization *)

(** A client at sequence [at_] takes packets: a full one always, a delta only
    on the sequence it is based on. *)
Fixpoint consume (at_ : Z) (l : list Packet) : option Z :=
  match l with
  | [] => Some at_
  | p :: l' => if pkFull p || (pkBase p =? at_) then consume (pkSequence p) l' else None
  end.

Lemma candidates_suffix a l p rest : candidates a l = p :: rest → ∃ k, drop k l = p :: rest ∧ a < pkSequence p.
Proof.
  induction l as [|x l IH]; cbn [candidates]; [done|]. destruct (Z.ltb_spec a (pkSequence x)).
  - intros [= <- <-]. by exists 0%nat.
  - intros E. destruct (IH E) as (k & Hk & Hp). by exists (S k).
Qed.

Lemma chained_consume sc l : ∀ prev, chained sc prev l = true →
  consume prev l = Some (default prev (pkSequence <$> last l)) ∧ Forall (λ p, pkSchema p = sc) l.
Proof.
  induction l as [|p l IH]; intros prev H; cbn [chained consume] in *; [by split|].
  destruct (negb (pkSchema p =? sc) || (negb (pkFull p) && negb (pkBase p =? prev))) eqn:E; [done|].
  apply orb_false_iff in E as [Es Eb]. apply negb_false_iff, Z.eqb_eq in Es.
  assert (pkFull p || (pkBase p =? prev) = true) as -> by (destruct (pkFull p), (pkBase p =? prev); done).
  destruct (IH _ H) as [-> Hl]. split; [|by constructor]. destruct l as [|q l]; [done|]. rewrite last_cons_cons. destruct (last (q :: l)) eqn:El; [done|]. by apply last_None in El.
Qed.

Lemma chain_above p l a : chain p l → a < pkSequence p → Forall (λ q, a < pkSequence q) (p :: l).
Proof.
  revert p. induction l as [|q l IH]; intros p Hc Ha; [by constructor|]. constructor; [done|]. destruct Hc as [[Hq _] Hc]. apply IH; [done|lia].
Qed.

(** What a replay delivers. *)
Record replay_ok (h : Journaled) (request : ResyncRequest) (st : streamState) (r : ResyncResult) : Prop := {
  ry_final : rsLatest r = latest st;
  ry_epoch : rqEpoch request = 0 ∨ rqEpoch request = epoch h;
  ry_consume : consume (rqAfter request) (rsPackets r) = Some (latest st);
  ry_each : Forall (λ p, pkKey p = rqKey request ∧ pkEpoch p = epoch h ∧ rqAfter request < pkSequence p) (rsPackets r);
  ry_schema : rqSchema request ≠ 0 → Forall (λ p, pkSchema p = rqSchema request) (rsPackets r)
}.

Lemma resync_sound s h request :
  represents s h → options_ok (options h) → rsFull (Resync h request) = false →
  ∃ st, streams h !! rqKey request = Some st ∧ replay_ok h request st (Resync h request).
Proof.
  intros Hr Ho. unfold Resync. destruct (negb (rqEpoch request =? 0) && negb (rqEpoch request =? epoch h)) eqn:Ee; [done|].
  assert (rqEpoch request = 0 ∨ rqEpoch request = epoch h) as Hep by (to_prop; done).
  destruct (streams h !! rqKey request) as [st|] eqn:Es; [|done]. cbv zeta.
  destruct (represents_find s h _ st Hr Es) as (i & _ & Hk & Hi & Him).
  destruct (Z.ltb_spec (latest st) (rqAfter request)); [done|]. destruct (_ && _ && negb (schema st =? _)); [done|].
  destruct (Z.eqb_spec (rqAfter request) (latest st)) as [Ea|Ea].
  { intros _. exists st. split; [done|]. split; cbn; try done. by rewrite Ea. }
  destruct (candidates (rqAfter request) (items st)) as [|p rest] eqn:Ec; [done|].
  destruct (negb (rqSchema request =? 0) && negb (pkSchema p =? rqSchema request)) eqn:Esc; [done|].
  destruct (negb (pkFull p) && negb (pkBase p =? rqAfter request)) eqn:Eb; [done|].
  destruct (negb (chained (pkSchema p) (pkSequence p) rest)) eqn:Ech; [done|]. intros _. exists st. split; [done|].
  apply negb_false_iff in Ech. destruct (chained_consume _ _ _ Ech) as [Hcons Hsch].
  destruct (candidates_suffix _ _ _ _ Ec) as (k & Hk' & Hp).
  assert (packets_ok (options h) (epoch h) (rqKey request) (latest st) (p :: rest)) as [Hall [_ Hchain] Hlast].
  { rewrite <- Hk', (im_items _ _ _ Him). unfold keep. do 2 apply packets_drop. rewrite (im_latest _ _ _ Him), <- Hk. apply (io_packets _ _ _ _ Hi). }
  split; cbn [rsPackets rsLatest]; try done.
  - cbn [consume]. assert (pkFull p || (pkBase p =? rqAfter request) = true) as -> by (destruct (pkFull p), (pkBase p =? rqAfter request); done).
    rewrite Hcons. f_equal. destruct (last rest) as [q|] eqn:El; cbn.
    + apply Hlast. destruct rest; [done|]. by rewrite last_cons_cons.
    + apply last_None in El. subst rest. by apply Hlast.
  - pose proof (chain_above p rest _ Hchain Hp) as Habove. apply Forall_forall. intros q Hq.
    destruct (proj1 (Forall_forall _ _) Hall q Hq) as [H1 H2 _ _ _ _]. split_and!; [done..|]. by apply (proj1 (Forall_forall _ _) Habove).
  - intros Hne. to_prop. destruct Esc as [?|Esc]; [done|]. rewrite <- Esc. by constructor.
Qed.

(** A replay takes the client exactly to the present.  In any run, when
    [Resync] does not ask for a full packet, the stream exists, the client's
    epoch (if given) is the current one, and the packets returned, which are
    the stream's own of this epoch, all after the client's position and of
    the client's schema (if given), are accepted by a client at that position
    one after the other and leave it at the latest sequence. *)
Theorem resync_reaches_latest o initial fresh fate now h0 ops request :
  fresh ≠ 0 → opened o initial fresh fate now = Ok h0 → Forall op_ok ops → zlen ops < 2^63 →
  let h := runOps h0 ops in
  rsFull (Resync h request) = false →
  ∃ st, streams h !! rqKey request = Some st ∧ replay_ok h request st (Resync h request).
Proof.
  intros Hf E Hok Hn h Hr. destruct (opened_sound o initial fresh fate now Hf) as (h0' & E' & Hs). rewrite E in E'. injection E' as <-.
  destruct (sound_run ops 0 [] h0 Hs ltac:(lia) Hok ltac:(apply Forall_true; intros; apply fresh_nothing) ltac:(lia)) as [[Hopt _] [s Hrep] _ _ _ _].
  by eapply resync_sound.
Qed.

(** *** A run with a failed write, a deletion, a restart, an import and a
    rotation back *)

Definition demoKey : streamKey := (mkObserver 1 7 0 [], mkStream [120] 3).
Definition demoPacket (full : bool) (payload : bytes) : Packet := mkPacket (fst demoKey) (snd demoKey) 0 0 0 0 full false payload.
Definition demoOptions : HistoryOptions := mkOptions 2 0 0 0 0 0 true.
Definition demoFirst : list op :=
  [OAppend (demoPacket true [1]) 100; OAppend (demoPacket false [2]) 101; OAppend (demoPacket false [3]) 102;
   OAcknowledge demoKey 9 1 103; OCheckpoint; OAppend (demoPacket false [4]) 104; ODelete demoKey].
Definition demoThen : list op := [OAppend (demoPacket false [6]) 106; ORestart 9 1 [] 107].
Definition demoImport : HistorySnapshot :=
  mkSnapshot 1 12 [mkStreamSnapshot (fst demoKey) (snd demoKey) 5 5 0 0 1 90 []] 5.
Definition demoOps : list op :=
  demoFirst ++ [OAppend (demoPacket true [5]) 105] ++ demoThen ++ [OAppend (demoPacket false [7]) 108].
Definition demoMore : list op := demoOps ++ [OImport demoImport 109; ORotate 9 1; OAppend (demoPacket true [8]) 110].
(** The write of the packet [6] fails with bytes on disk. *)
Definition demoFate : list outcome := [Written; Written; Written; Written; Written; Written; Written; Written; Indeterminate true].
Definition demoOpened : Journaled := match opened demoOptions 9 1 demoFate 99 with Ok h => h | Err _ => NewHistory demoOptions 1 end.

Lemma demo_opened : opened demoOptions 9 1 demoFate 99 = Ok demoOpened.
Proof. reflexivity. Qed.

Lemma demo_text full payload : key_text (pkKey (demoPacket full payload)).
Proof. by split. Qed.

Lemma demo_ok : Forall op_ok demoMore ∧ Forall op_ok demoOps.
Proof.
  assert (snapshot_typed demoImport) as Hi.
  { split; [done|]. constructor; [|done]. split; [done|done|done|apply (demo_text true [])]. }
  split; repeat (constructor; [first [done|split; [done|first [apply demo_text|exact Hi]]]|]); constructor.
Qed.



Lemma resync_reaches_latest_witness :
  ∃ st, streams (runOps demoOpened demoOps) !! demoKey = Some st ∧ latest st = 7.
Proof.
  destruct (resync_reaches_latest demoOptions 9 1 demoFate 99 demoOpened demoOps (mkRequest demoKey 9 6 1)) as (st & H1 & H2);
    [done|exact demo_opened|exact (proj2 demo_ok)|done|vm_compute; reflexivity|].
  exists st. split; [exact H1|]. rewrite <- (ry_final _ _ _ _ H2). vm_compute. reflexivity.
Defined.

(** Rotating back to an epoch starts its numbers again. *)
Example rotation_reuses :
  let ops := [OAppend (demoPacket true [1]) 100; ORotate 10 1; ORotate 9 1] in
  (pkEpoch <$> snd (perform demoOpened (OAppend (demoPacket true [1]) 100)), pkSequence <$> snd (perform demoOpened (OAppend (demoPacket true [1]) 100))) =
  (pkEpoch <$> snd (perform (runOps demoOpened ops) (OAppend (demoPacket true [2]) 101)), pkSequence <$> snd (perform (runOps demoOpened ops) (OAppend (demoPacket true [2]) 101))).
Proof. vm_compute. reflexivity. Qed.

(** Names that are not UTF-8 do not survive: two streams become one. *)
Example names_merge :
  let named topic payload := mkPacket (mkObserver 1 7 0 []) (mkStream [topic] 3) 0 0 0 0 true false payload in
  let h := runOps demoOpened [OAppend (named 254 [1]) 100; OAppend (named 255 [2]) 101] in
  (base.size (streams h), match restart h 9 1 [] 200 with Ok h1 => Some (base.size (streams h1)) | Err _ => None end) = (2%nat, Some 1%nat).
Proof. vm_compute. reflexivity. Qed.
