(* ===== verification/SagaRecord.v ===== *)
(** * Saga records (record.go)

    Statuses and phases, step definitions and their budgets, the durable
    record of a saga, commands, completions and the requests, with their
    validation. *)

From Stdlib Require Import String.
From S2P Require Import Prelude Bytes GoStr GoJson.

(** The package's error values; [ErrText] is an error that wraps none of
    them. *)
Inductive SagaErr : Type :=
| ErrInvalidDefinition | ErrInvalidRecord | ErrDefinitionMissing | ErrAlreadyExists
| ErrNotFound | ErrIdentityConflict | ErrNotWaiting | ErrDeadlineExpired | ErrSagaCompleted
| ErrReceiptsExpired | ErrSnapshotIncompatible | ErrPartitionFenced | ErrPublishUnknown
| ErrPartitionRejected | ErrText.

#[export] Instance SagaErr_eq_dec : EqDecision SagaErr.
Proof. solve_decision. Defined.

(** ** Statuses and phases *)

(** [StatusInvalid] is any other [uint8], as a decoded record may hold. *)
Inductive Status : Type :=
| StatusPending | StatusWaiting | StatusCompensating | StatusCompleted | StatusCompensated
| StatusFailed | StatusManualRequired | StatusInvalid (v : Z).

#[export] Instance Status_eq_dec : EqDecision Status.
Proof. solve_decision. Defined.

Definition Terminal (s : Status) : bool :=
  match s with
  | StatusCompleted | StatusCompensated | StatusFailed | StatusManualRequired => true
  | _ => false
  end.

Inductive Phase : Type :=
| PhaseForward | PhaseCompensate | PhaseInvalid (v : Z).

#[export] Instance Phase_eq_dec : EqDecision Phase.
Proof. solve_decision. Defined.

(** The [uint8] itself, as [%d] prints it. *)
Definition phase_code (p : Phase) : Z :=
  match p with PhaseForward => 1 | PhaseCompensate => 2 | PhaseInvalid v => v end.
(** The conversion [Phase(n)] of an [int]. *)
Definition phase_of (n : Z) : Phase :=
  match u8 n with 1 => PhaseForward | 2 => PhaseCompensate | v => PhaseInvalid v end.

Definition status_valid (s : Status) : bool := match s with StatusInvalid _ => false | _ => true end.
Definition phase_valid (p : Phase) : bool := match p with PhaseInvalid _ => false | _ => true end.
Notation "x =s y" := (bool_decide (x = y)) (at level 70, only parsing).

(** ** Names *)

(** ["" == s] *)
Definition empty (s : bytes) : bool := match s with [] => true | _ => false end.

Definition validSubjectToken (token : bytes) (maxLength : Z) : bool :=
  negb (empty token || (maxLength <? zlen token) || ContainsAny token (str ".*> " ++ [9; 13; 10])).

Definition validSubject (subject : bytes) : bool :=
  negb (empty subject || (256 <? zlen subject) || negb (TrimSpace subject =s subject)) &&
  forallb (λ token, validSubjectToken token 128) (SplitByte subject dot).

Definition validLifecycle (lifecycle : bytes) : bool :=
  validSubjectToken lifecycle 64 && negb (Contains lifecycle [colon]).

(** A name field: trimmed, not empty, at most [n] bytes. *)
Definition name_ok (s : bytes) (n : Z) : bool :=
  (TrimSpace s =s s) && negb (empty s) && (zlen s <=? n).

(** ** Definitions and step budgets *)

Record Step := mkStep {
  sName : bytes;
  sForwardTopic : bytes;
  sCompensateTopic : bytes;
  sTimeout : Duration;
  sMaxAttempts : Z;
  sBackoffMin : Duration;
  sBackoffMax : Duration
}.

(** The Go type [Definition]. *)
Record Def := mkDef {
  dType : bytes;
  dVersion : Z;
  dSteps : list Step
}.

(** [Step.RetryWindow]: [int64] arithmetic. *)
Definition RetryWindow (s : Step) : Duration :=
  let attempts := Z.max (sMaxAttempts s) 1 in
  i64 (i64 (sTimeout s * attempts) + i64 (sBackoffMax s * (attempts - 1))).

Definition ReceiptRetentionFactor : Z := 2.

(** [CheckReceiptRetention]; [true] is a nil error, the error is
    [ErrInvalidDefinition]. *)
Definition CheckReceiptRetention (definition : Def) (retention : Duration) : bool :=
  forallb (λ s, negb (retention <? i64 (ReceiptRetentionFactor * RetryWindow s))) (dSteps definition).

(** [firstDuration] and [firstAttempts]. *)
Fixpoint first_positive (values : list Z) : Z :=
  match values with
  | [] => 0
  | v :: values' => if 0 <? v then v else first_positive values'
  end.

Definition step_ok (s : Step) : bool :=
  name_ok (sName s) 128 && validSubject (sForwardTopic s) &&
  (if empty (sCompensateTopic s) then validSubject (sForwardTopic s ++ str ".compensate")
   else validSubject (sCompensateTopic s)) &&
  (0 <? sTimeout s) && negb (sMaxAttempts s =? 0) && (sMaxAttempts s <=? 1000) &&
  (0 <? sBackoffMin s) && (sBackoffMin s <=? sBackoffMax s).

Fixpoint steps_ok (steps : list Step) (seen : list bytes) : bool :=
  match steps with
  | [] => true
  | s :: steps' => step_ok s && negb (bool_decide (sName s ∈ seen)) && steps_ok steps' (sName s :: seen)
  end.

(** [Definition.Validate]: a nil error. *)
Definition DefValidate (d : Def) : bool :=
  name_ok (dType d) 128 && negb (dVersion d =? 0) &&
  negb (zlen (dSteps d) =? 0) && (zlen (dSteps d) <=? 256) && steps_ok (dSteps d) [].

(** ** The record of a saga *)

Record Rec := mkRec {
  rID : bytes;
  rType : bytes;
  rDefinitionVersion : Z;
  rBusinessKey : bytes;
  rStartDigest : bytes;
  rStatus : Status;
  rPhase : Phase;
  rStep : Z;
  rCompletedSteps : Z;
  rAttempt : Z;
  rIncarnation : Z;
  rLateStep : Z;
  rLateData : bytes;
  rVersion : Z;
  rData : bytes;
  rLastError : bytes;
  rOperationKey : bytes;
  rCommandID : bytes;
  rNextRunAt : Time;
  rDeadlineAt : Time;
  rCreatedAt : Time;
  rUpdatedAt : Time;
  rStartAttempt : bytes;
  rLifecycle : bytes
}.

(** Copies of a record with one field replaced. *)
Definition wStartDigest (v : bytes) (r : Rec) : Rec :=
  mkRec (rID r) (rType r) (rDefinitionVersion r) (rBusinessKey r) v (rStatus r) (rPhase r)
    (rStep r) (rCompletedSteps r) (rAttempt r) (rIncarnation r) (rLateStep r) (rLateData r)
    (rVersion r) (rData r) (rLastError r) (rOperationKey r) (rCommandID r) (rNextRunAt r)
    (rDeadlineAt r) (rCreatedAt r) (rUpdatedAt r) (rStartAttempt r) (rLifecycle r).
Definition wStatus (v : Status) (r : Rec) : Rec :=
  mkRec (rID r) (rType r) (rDefinitionVersion r) (rBusinessKey r) (rStartDigest r) v (rPhase r)
    (rStep r) (rCompletedSteps r) (rAttempt r) (rIncarnation r) (rLateStep r) (rLateData r)
    (rVersion r) (rData r) (rLastError r) (rOperationKey r) (rCommandID r) (rNextRunAt r)
    (rDeadlineAt r) (rCreatedAt r) (rUpdatedAt r) (rStartAttempt r) (rLifecycle r).
Definition wPhase (v : Phase) (r : Rec) : Rec :=
  mkRec (rID r) (rType r) (rDefinitionVersion r) (rBusinessKey r) (rStartDigest r) (rStatus r) v
    (rStep r) (rCompletedSteps r) (rAttempt r) (rIncarnation r) (rLateStep r) (rLateData r)
    (rVersion r) (rData r) (rLastError r) (rOperationKey r) (rCommandID r) (rNextRunAt r)
    (rDeadlineAt r) (rCreatedAt r) (rUpdatedAt r) (rStartAttempt r) (rLifecycle r).
Definition wStep (v : Z) (r : Rec) : Rec :=
  mkRec (rID r) (rType r) (rDefinitionVersion r) (rBusinessKey r) (rStartDigest r) (rStatus r)
    (rPhase r) v (rCompletedSteps r) (rAttempt r) (rIncarnation r) (rLateStep r)
    (rLateData r) (rVersion r) (rData r) (rLastError r) (rOperationKey r) (rCommandID r)
    (rNextRunAt r) (rDeadlineAt r) (rCreatedAt r) (rUpdatedAt r) (rStartAttempt r)
    (rLifecycle r).
Definition wCompletedSteps (v : Z) (r : Rec) : Rec :=
  mkRec (rID r) (rType r) (rDefinitionVersion r) (rBusinessKey r) (rStartDigest r) (rStatus r)
    (rPhase r) (rStep r) v (rAttempt r) (rIncarnation r) (rLateStep r) (rLateData r)
    (rVersion r) (rData r) (rLastError r) (rOperationKey r) (rCommandID r) (rNextRunAt r)
    (rDeadlineAt r) (rCreatedAt r) (rUpdatedAt r) (rStartAttempt r) (rLifecycle r).
Definition wAttempt (v : Z) (r : Rec) : Rec :=
  mkRec (rID r) (rType r) (rDefinitionVersion r) (rBusinessKey r) (rStartDigest r) (rStatus r)
    (rPhase r) (rStep r) (rCompletedSteps r) v (rIncarnation r) (rLateStep r) (rLateData r)
    (rVersion r) (rData r) (rLastError r) (rOperationKey r) (rCommandID r) (rNextRunAt r)
    (rDeadlineAt r) (rCreatedAt r) (rUpdatedAt r) (rStartAttempt r) (rLifecycle r).
Definition wIncarnation (v : Z) (r : Rec) : Rec :=
  mkRec (rID r) (rType r) (rDefinitionVersion r) (rBusinessKey r) (rStartDigest r) (rStatus r)
    (rPhase r) (rStep r) (rCompletedSteps r) (rAttempt r) v (rLateStep r) (rLateData r)
    (rVersion r) (rData r) (rLastError r) (rOperationKey r) (rCommandID r) (rNextRunAt r)
    (rDeadlineAt r) (rCreatedAt r) (rUpdatedAt r) (rStartAttempt r) (rLifecycle r).
Definition wLateStep (v : Z) (r : Rec) : Rec :=
  mkRec (rID r) (rType r) (rDefinitionVersion r) (rBusinessKey r) (rStartDigest r) (rStatus r)
    (rPhase r) (rStep r) (rCompletedSteps r) (rAttempt r) (rIncarnation r) v (rLateData r)
    (rVersion r) (rData r) (rLastError r) (rOperationKey r) (rCommandID r) (rNextRunAt r)
    (rDeadlineAt r) (rCreatedAt r) (rUpdatedAt r) (rStartAttempt r) (rLifecycle r).
Definition wLateData (v : bytes) (r : Rec) : Rec :=
  mkRec (rID r) (rType r) (rDefinitionVersion r) (rBusinessKey r) (rStartDigest r) (rStatus r)
    (rPhase r) (rStep r) (rCompletedSteps r) (rAttempt r) (rIncarnation r) (rLateStep r) v
    (rVersion r) (rData r) (rLastError r) (rOperationKey r) (rCommandID r) (rNextRunAt r)
    (rDeadlineAt r) (rCreatedAt r) (rUpdatedAt r) (rStartAttempt r) (rLifecycle r).
Definition wVersion (v : Z) (r : Rec) : Rec :=
  mkRec (rID r) (rType r) (rDefinitionVersion r) (rBusinessKey r) (rStartDigest r) (rStatus r)
    (rPhase r) (rStep r) (rCompletedSteps r) (rAttempt r) (rIncarnation r) (rLateStep r)
    (rLateData r) v (rData r) (rLastError r) (rOperationKey r) (rCommandID r) (rNextRunAt r)
    (rDeadlineAt r) (rCreatedAt r) (rUpdatedAt r) (rStartAttempt r) (rLifecycle r).
Definition wData (v : bytes) (r : Rec) : Rec :=
  mkRec (rID r) (rType r) (rDefinitionVersion r) (rBusinessKey r) (rStartDigest r) (rStatus r)
    (rPhase r) (rStep r) (rCompletedSteps r) (rAttempt r) (rIncarnation r) (rLateStep r)
    (rLateData r) (rVersion r) v (rLastError r) (rOperationKey r) (rCommandID r)
    (rNextRunAt r) (rDeadlineAt r) (rCreatedAt r) (rUpdatedAt r) (rStartAttempt r)
    (rLifecycle r).
Definition wLastError (v : bytes) (r : Rec) : Rec :=
  mkRec (rID r) (rType r) (rDefinitionVersion r) (rBusinessKey r) (rStartDigest r) (rStatus r)
    (rPhase r) (rStep r) (rCompletedSteps r) (rAttempt r) (rIncarnation r) (rLateStep r)
    (rLateData r) (rVersion r) (rData r) v (rOperationKey r) (rCommandID r) (rNextRunAt r)
    (rDeadlineAt r) (rCreatedAt r) (rUpdatedAt r) (rStartAttempt r) (rLifecycle r).
Definition wOperationKey (v : bytes) (r : Rec) : Rec :=
  mkRec (rID r) (rType r) (rDefinitionVersion r) (rBusinessKey r) (rStartDigest r) (rStatus r)
    (rPhase r) (rStep r) (rCompletedSteps r) (rAttempt r) (rIncarnation r) (rLateStep r)
    (rLateData r) (rVersion r) (rData r) (rLastError r) v (rCommandID r) (rNextRunAt r)
    (rDeadlineAt r) (rCreatedAt r) (rUpdatedAt r) (rStartAttempt r) (rLifecycle r).
Definition wCommandID (v : bytes) (r : Rec) : Rec :=
  mkRec (rID r) (rType r) (rDefinitionVersion r) (rBusinessKey r) (rStartDigest r) (rStatus r)
    (rPhase r) (rStep r) (rCompletedSteps r) (rAttempt r) (rIncarnation r) (rLateStep r)
    (rLateData r) (rVersion r) (rData r) (rLastError r) (rOperationKey r) v (rNextRunAt r)
    (rDeadlineAt r) (rCreatedAt r) (rUpdatedAt r) (rStartAttempt r) (rLifecycle r).
Definition wNextRunAt (v : Time) (r : Rec) : Rec :=
  mkRec (rID r) (rType r) (rDefinitionVersion r) (rBusinessKey r) (rStartDigest r) (rStatus r)
    (rPhase r) (rStep r) (rCompletedSteps r) (rAttempt r) (rIncarnation r) (rLateStep r)
    (rLateData r) (rVersion r) (rData r) (rLastError r) (rOperationKey r) (rCommandID r) v
    (rDeadlineAt r) (rCreatedAt r) (rUpdatedAt r) (rStartAttempt r) (rLifecycle r).
Definition wDeadlineAt (v : Time) (r : Rec) : Rec :=
  mkRec (rID r) (rType r) (rDefinitionVersion r) (rBusinessKey r) (rStartDigest r) (rStatus r)
    (rPhase r) (rStep r) (rCompletedSteps r) (rAttempt r) (rIncarnation r) (rLateStep r)
    (rLateData r) (rVersion r) (rData r) (rLastError r) (rOperationKey r) (rCommandID r)
    (rNextRunAt r) v (rCreatedAt r) (rUpdatedAt r) (rStartAttempt r) (rLifecycle r).
Definition wUpdatedAt (v : Time) (r : Rec) : Rec :=
  mkRec (rID r) (rType r) (rDefinitionVersion r) (rBusinessKey r) (rStartDigest r) (rStatus r)
    (rPhase r) (rStep r) (rCompletedSteps r) (rAttempt r) (rIncarnation r) (rLateStep r)
    (rLateData r) (rVersion r) (rData r) (rLastError r) (rOperationKey r) (rCommandID r)
    (rNextRunAt r) (rDeadlineAt r) (rCreatedAt r) v (rStartAttempt r) (rLifecycle r).
Definition wStartAttempt (v : bytes) (r : Rec) : Rec :=
  mkRec (rID r) (rType r) (rDefinitionVersion r) (rBusinessKey r) (rStartDigest r) (rStatus r)
    (rPhase r) (rStep r) (rCompletedSteps r) (rAttempt r) (rIncarnation r) (rLateStep r)
    (rLateData r) (rVersion r) (rData r) (rLastError r) (rOperationKey r) (rCommandID r)
    (rNextRunAt r) (rDeadlineAt r) (rCreatedAt r) (rUpdatedAt r) v (rLifecycle r).

Notation "r <| f := v |>" := (f v r) (at level 1, left associativity, f at level 1, v at level 200, only parsing).

Definition lateStepValid (r : Rec) : bool :=
  if rLateStep r =? 0 then zlen (rLateData r) =? 0
  else (0 <? rLateStep r) && (rCompletedSteps r <=? rLateStep r - 1) &&
    (zlen (rLateData r) <=? 4 * 2^20) &&
    ((rPhase r =s PhaseCompensate) || (rStatus r =s StatusManualRequired)) &&
    negb (rStatus r =s StatusCompleted) && negb (rStatus r =s StatusCompensated) &&
    negb (rStatus r =s StatusFailed).

Definition waitingFields (r : Rec) : bool :=
  negb (empty (rOperationKey r)) && (zlen (rOperationKey r) <=? 192) &&
  negb (empty (rCommandID r)) && (zlen (rCommandID r) <=? 192) && (0 <? rAttempt r).

(** [Record.Validate]: [true] is a nil error, the error is
    [ErrInvalidRecord]. *)
Definition Validate (r : Rec) : bool :=
  validSubjectToken (rID r) 128 && validLifecycle (rLifecycle r) && name_ok (rType r) 128 &&
  negb (rDefinitionVersion r =? 0) && name_ok (rBusinessKey r) 512 &&
  (zlen (rData r) <=? 4 * 2^20) && (zlen (rLastError r) <=? 4096) &&
  status_valid (rStatus r) && phase_valid (rPhase r) && negb (rVersion r =? 0) &&
  (0 <=? rStep r) && (0 <=? rCompletedSteps r) && negb (IsZero (rCreatedAt r)) &&
  negb (IsZero (rUpdatedAt r)) && negb (negb (Terminal (rStatus r)) && IsZero (rNextRunAt r)) &&
  Bool.eqb (rStatus r =s StatusWaiting) (waitingFields r) &&
  negb (negb (rStatus r =s StatusWaiting) && (negb (empty (rOperationKey r)) || negb (empty (rCommandID r)))) &&
  negb ((rStatus r =s StatusCompensating) &&
        (negb (rPhase r =s PhaseCompensate) || ((rCompletedSteps r =? 0) && (rLateStep r =? 0)))) &&
  negb ((rStatus r =s StatusCompensated) && negb (rCompletedSteps r =? 0)) && lateStepValid r.

(** ** Commands and completions *)

Record Command := mkCommand {
  cID : bytes;
  cIdempotencyKey : bytes;
  cSagaID : bytes;
  cSagaType : bytes;
  cDefinitionVersion : Z;
  cBusinessKey : bytes;
  cStep : Z;
  cStepName : bytes;
  cPhase : Phase;
  cAttempt : Z;
  cTopic : bytes;
  cPayload : bytes;
  cDeadlineAt : Time;
  cCreatedAt : Time;
  cPartition : Z
}.

Definition CommandValidate (c : Command) : bool :=
  (zlen (cID c) <=? 192) && negb (empty (cID c)) && (zlen (cIdempotencyKey c) <=? 192) &&
  negb (empty (cIdempotencyKey c)) && validSubjectToken (cSagaID c) 128 && name_ok (cSagaType c) 128 &&
  negb (cDefinitionVersion c =? 0) && name_ok (cBusinessKey c) 512 && (0 <=? cStep c) &&
  name_ok (cStepName c) 128 && phase_valid (cPhase c) && negb (cAttempt c =? 0) &&
  validSubject (cTopic c) && (zlen (cPayload c) <=? 4 * 2^20) &&
  negb (IsZero (cDeadlineAt c)) && negb (IsZero (cCreatedAt c)).

(** [coData] is [None] for a nil slice: the code tells nil from empty. *)
Record Completion := mkCompletion {
  coCommandID : bytes;
  coIdempotencyKey : bytes;
  coSagaID : bytes;
  coSuccess : bool;
  coRetryable : bool;
  coData : option bytes;
  coError : bytes;
  coCompletedAt : Time
}.

(** The bytes of a slice that may be nil. *)
Definition data_of (d : option bytes) : bytes := default [] d.

Definition CompletionValidate (c : Completion) : bool :=
  let invalidOutcome :=
    (coSuccess c && (coRetryable c || negb (empty (coError c)))) ||
    (negb (coSuccess c) && empty (TrimSpace (coError c))) in
  negb (empty (coCommandID c)) && (zlen (coCommandID c) <=? 192) &&
  negb (empty (coIdempotencyKey c)) && (zlen (coIdempotencyKey c) <=? 192) &&
  validSubjectToken (coSagaID c) 128 && (zlen (coError c) <=? 4096) &&
  (zlen (data_of (coData c)) <=? 4 * 2^20) && negb invalidOutcome.

(** ** Requests *)

Record StartRequest := mkStart {
  srType : bytes;
  srBusinessKey : bytes;
  srDefinitionVersion : Z;
  srData : bytes;
  srDeadlineAt : Time
}.

Record ResumeRequest := mkResume {
  rrID : bytes;
  rrNow : Time;
  rrDeadlineAt : Time;
  rrClearDeadline : bool
}.

Record Query := mkQuery {
  qType : bytes;
  qDefinitionVersion : Z;
  qStatuses : list Status;
  qUpdatedBefore : Time;
  qLimit : Z
}.

Inductive OperationClosure : Type :=
| OperationClosureUnknown | OperationClosedWithResult | OperationAbandoned.

#[export] Instance OperationClosure_eq_dec : EqDecision OperationClosure.
Proof. solve_decision. Defined.
