(* ===== verification/SagaKeys.v ===== *)
(** * Identities of operations and attempts (transition.go, identities)

    An operation is one direction of one step of one run of a saga; an
    attempt of it is a command.  Their textual keys are what participants'
    receipts, tombstones and deduplication compare, so they must not
    collide. *)

From Stdlib Require Import String.
From S2P Require Import Prelude Bytes GoStr GoJson SagaRecord.

Definition operationKey (id lifecycle : bytes) (phase : Phase) (step : Z) : bytes :=
  id ++ [colon] ++ lifecycle ++ [colon] ++ Itoa (phase_code phase) ++ [colon] ++ Itoa step.

Definition currentOperation (record : Rec) : bytes :=
  operationKey (rID record) (rLifecycle record) (rPhase record) (rStep record).

(** [parseOperationKey]; [None] is a false [ok]. *)
Definition parseOperationKey (record : Rec) (operation : bytes) : option (Phase * Z) :=
  rest ← CutPrefix operation (rID record ++ [colon] ++ rLifecycle record ++ [colon]);
  '(phaseText, stepText) ← CutByte rest colon;
  phase ← Atoi phaseText;
  if bool_decide (phase_of phase ≠ PhaseForward) && bool_decide (phase_of phase ≠ PhaseCompensate)
  then None
  else
    step ← Atoi stepText;
    if step <? 0 then None else Some (phase_of phase, step).

Definition commandID (operationKey : bytes) (incarnation attempt : Z) : bytes :=
  if incarnation =? 0 then operationKey ++ [colon] ++ Itoa attempt
  else operationKey ++ str ":r" ++ Itoa incarnation ++ [colon] ++ Itoa attempt.

Definition commandIDIncarnation (operationKey commandID : bytes) : Z :=
  match CutPrefix commandID (operationKey ++ str ":r") with
  | None => 0
  | Some rest =>
      match CutByte rest colon with
      | None => 0
      | Some (digits, _) => match ParseUint digits 32 with Some v => v | None => 0 end
      end
  end.

(** ** Facts *)

Lemma cut_inj (a a' b b' : bytes) :
  colon ∉ a → colon ∉ a' → a ++ [colon] ++ b = a' ++ [colon] ++ b' → a = a' ∧ b = b'.
Proof.
  intros Ha Ha' E. apply (f_equal (λ s, CutByte s colon)) in E. cbn [app] in E.
  rewrite !CutByte_app in E by done. by injection E.
Qed.

Lemma Itoa_no_colon n : 0 ≤ n → colon ∉ Itoa n.
Proof. intros Hn. apply Itoa_no; [done|unfold colon; lia]. Qed.
#[export] Hint Resolve Itoa_no_colon : go_int.

Definition real_phase (p : Phase) : Prop := p = PhaseForward ∨ p = PhaseCompensate.

Lemma phase_code_small p : real_phase p → small (phase_code p).
Proof. unfold small. by intros [-> | ->]. Qed.

Lemma phase_code_inj p q : real_phase p → real_phase q → phase_code p = phase_code q → p = q.
Proof. by intros [-> | ->] [-> | ->]. Qed.

Lemma phase_of_code p : real_phase p → phase_of (phase_code p) = p.
Proof. by intros [-> | ->]. Qed.

Lemma Contains_colon s : Contains s [colon] = false → colon ∉ s.
Proof.
  induction s as [|c s IH]; [intros _; apply not_elem_of_nil|].
  cbn [Contains]. unfold HasPrefix. cbn [CutPrefix].
  destruct (Z.eqb_spec colon c) as [<-|Hc]; [done|]. cbn [orb].
  intros H. apply not_elem_of_cons. split; [done|by apply IH].
Qed.

Lemma lifecycle_no_colon lc : validLifecycle lc = true → colon ∉ lc.
Proof. unfold validLifecycle. to_prop. intros [_ H]. by apply Contains_colon. Qed.

Lemma parse_own record p s :
  real_phase p → 0 ≤ s < 2^63 →
  parseOperationKey record (operationKey (rID record) (rLifecycle record) p s) = Some (p, s).
Proof.
  intros Hp Hs. unfold parseOperationKey, operationKey.
  replace (rID record ++ [colon] ++ rLifecycle record ++ [colon] ++ Itoa (phase_code p) ++ [colon] ++ Itoa s)
    with ((rID record ++ [colon] ++ rLifecycle record ++ [colon]) ++ Itoa (phase_code p) ++ [colon] ++ Itoa s)
    by (by rewrite <- !app_assoc).
  rewrite CutPrefix_app. cbn [mbind option_bind app].
  pose proof (phase_code_small p Hp) as Hc. unfold small in Hc.
  rewrite CutByte_app by (apply Itoa_no_colon; lia). cbn [mbind option_bind].
  rewrite (Atoi_Itoa (phase_code p)) by (destruct Hp; subst; cbn; lia). cbn [mbind option_bind].
  rewrite phase_of_code by done.
  assert (bool_decide (p ≠ PhaseForward) && bool_decide (p ≠ PhaseCompensate) = false) as ->
    by (by destruct Hp; subst).
  rewrite Atoi_Itoa by done. cbn [mbind option_bind]. destruct (Z.ltb_spec s 0); [lia|done].
Qed.

Lemma operationKey_own id lc p s p' s' :
  real_phase p → real_phase p' → 0 ≤ s < 2^63 → 0 ≤ s' < 2^63 →
  operationKey id lc p s = operationKey id lc p' s' → p = p' ∧ s = s'.
Proof.
  intros Hp Hp' Hs Hs' E. unfold operationKey in E. simplify_list_eq.
  pose proof (phase_code_small p Hp). pose proof (phase_code_small p' Hp'). unfold small in *.
  apply cut_inj in E as [E1 E2]; [|apply Itoa_no_colon; lia..].
  apply Itoa_inj in E1; [|unfold small; lia..]. apply Itoa_inj in E2; [|unfold small; lia..].
  split; [by apply phase_code_inj|done].
Qed.

(** The key of another run of the same business key is not this run's. *)
Lemma parse_other record lc p s :
  colon ∉ rLifecycle record → colon ∉ lc → lc ≠ rLifecycle record →
  parseOperationKey record (operationKey (rID record) lc p s) = None.
Proof.
  intros H1 H2 Hne. unfold parseOperationKey.
  destruct (CutPrefix _ _) as [r|] eqn:E; [|done]. exfalso. apply CutPrefix_some in E.
  unfold operationKey in E. rewrite <- !app_assoc in E. simplify_list_eq.
  apply (cut_inj lc (rLifecycle record)) in E as [? _]; done.
Qed.

Lemma operationKey_nonempty id lc p s : operationKey id lc p s ≠ [].
Proof. unfold operationKey. by destruct id. Qed.

Lemma digit_not_r n s : 0 ≤ n → CutPrefix (Itoa n ++ s) (str "r") = None.
Proof.
  intros Hn. pose proof (Itoa_digits n Hn) as Hd.
  assert (Itoa n ≠ []) as Hne.
  { unfold Itoa. destruct (Z.ltb_spec n 0); [lia|]. by apply dec_digits_cons. }
  destruct (Itoa n) as [|c t]; [done|]. apply Forall_cons in Hd as [Hc _].
  change (str "r") with [114]. cbn [CutPrefix app]. destruct (Z.eqb_spec 114 c); [lia|done].
Qed.

Lemma CutPrefix_common p s q : CutPrefix (p ++ s) (p ++ q) = CutPrefix s q.
Proof. induction p as [|c p IH]; [done|]. cbn. by rewrite Z.eqb_refl. Qed.

Lemma commandID_incarnation op inc att :
  is_u32 inc → is_u32 att → commandIDIncarnation op (commandID op inc att) = inc.
Proof.
  intros Hi Ha. unfold commandIDIncarnation, commandID. change (str ":r") with (colon :: str "r").
  unfold_int. destruct (Z.eqb_spec inc 0) as [->|Hne]; rewrite CutPrefix_common.
  - cbn [app CutPrefix]. rewrite Z.eqb_refl.
    rewrite <- (app_nil_r (Itoa att)), digit_not_r by lia. done.
  - change ((colon :: str "r") ++ Itoa inc ++ [colon] ++ Itoa att)
      with ((colon :: str "r") ++ (Itoa inc ++ colon :: Itoa att)).
    rewrite CutPrefix_app, CutByte_app by (apply Itoa_no_colon; lia).
    by rewrite ParseUint_Itoa by lia.
Qed.

Lemma commandID_inj op inc att inc' att' :
  is_u32 inc → is_u32 att → is_u32 inc' → is_u32 att' →
  commandID op inc att = commandID op inc' att' → inc = inc' ∧ att = att'.
Proof.
  intros Hi Ha Hi' Ha' E. pose proof (f_equal (commandIDIncarnation op) E) as Ei.
  rewrite !commandID_incarnation in Ei by done. subst inc'. split; [done|].
  unfold commandID in E. unfold_int. destruct (inc =? 0); simplify_list_eq;
    apply Itoa_inj in E; unfold small; lia.
Qed.

(** ** Theorems *)

(** Operation keys name exactly one operation.  The key of an operation
    of a run parses back to its direction and step for a record of that run,
    is refused by a record of any other run of the same saga, and no two
    operations of one run share a key. *)
Theorem operation_key_roundtrip record p s :
  validLifecycle (rLifecycle record) = true → real_phase p → 0 ≤ s < 2^63 →
  parseOperationKey record (operationKey (rID record) (rLifecycle record) p s) = Some (p, s) ∧
  (∀ lc, validLifecycle lc = true → lc ≠ rLifecycle record →
     parseOperationKey record (operationKey (rID record) lc p s) = None) ∧
  (∀ p' s', real_phase p' → 0 ≤ s' < 2^63 →
     operationKey (rID record) (rLifecycle record) p s = operationKey (rID record) (rLifecycle record) p' s' →
     p' = p ∧ s' = s).
Proof.
  intros Hl Hp Hs. split_and!.
  - by apply parse_own.
  - intros lc Hlc Hne. apply parse_other; [by apply lifecycle_no_colon..|done].
  - intros p' s' Hp' Hs' E. by apply operationKey_own in E as [-> ->].
Qed.

(** An attempt's identifier carries its incarnation and determines it
    and the attempt number, so no two attempts of an operation share an
    identifier, and the coordinator and a participant read the same
    incarnation out of it. *)
Theorem command_id_roundtrip op inc att inc' att' :
  is_u32 inc → is_u32 att → is_u32 inc' → is_u32 att' →
  commandIDIncarnation op (commandID op inc att) = inc ∧
  (commandID op inc att = commandID op inc' att' → inc' = inc ∧ att' = att).
Proof.
  intros Hi Ha Hi' Ha'. split; [by apply commandID_incarnation|].
  intros E. by apply commandID_inj in E as [-> ->].
Qed.

(** The conversion to a byte-sized phase makes more texts parse than
    [operationKey] writes. *)
Definition sample_key_rec : Rec :=
  mkRec (str "a") (str "t") 1 (str "k") [] StatusPending PhaseForward 0 0 0 0 0 [] 1 [] [] [] []
    1 0 1 1 [] (str "L").

Example parse_accepts_alias :
  parseOperationKey sample_key_rec (str "a:L:257:+03") = Some (PhaseForward, 3).
Proof. vm_compute. reflexivity. Qed.

Lemma operation_key_roundtrip_witness :
  let op := operationKey (rID sample_key_rec) (rLifecycle sample_key_rec) PhaseCompensate 7 in
  op = str "a:L:2:7" ∧ parseOperationKey sample_key_rec op = Some (PhaseCompensate, 7).
Proof.
  split; [vm_compute; reflexivity|].
  apply (operation_key_roundtrip sample_key_rec PhaseCompensate 7); [vm_compute; reflexivity|by right|lia].
Defined.

Lemma command_id_roundtrip_witness :
  commandID (str "a:L:1:0") 3 12 = str "a:L:1:0:r3:12" ∧
  commandIDIncarnation (str "a:L:1:0") (commandID (str "a:L:1:0") 3 12) = 3.
Proof.
  split; [vm_compute; reflexivity|].
  apply (command_id_roundtrip (str "a:L:1:0") 3 12 0 1); by_compute.
Defined.
