(* ===== verification/SagaTransition.v ===== *)
(** * The saga state machine (transition.go)

    Pure transitions: a record, its definition and the time give the next
    record.  [Record.Clone] is a deep copy, hence the identity on values. *)

From Stdlib Require Import String.
From S2P Require Import Prelude Bytes GoStr GoJson SagaRecord SagaKeys.

(** ** Causes *)

Inductive transitionCause : Type :=
| causeDispatch | causeResult | causeTimeout | causeDeadline | causeDefinitionMissing
| causeInvalidStep | causeManualCompensate | causeResume | causeLateSuccess.

#[export] Instance transitionCause_eq_dec : EqDecision transitionCause.
Proof. solve_decision. Defined.

Record transition := mkTransition {
  tCause : transitionCause;
  tReceipt : option Completion
}.

(** The operation that is open: an attempt of it may still take effect. *)
Definition openOperation (record : Rec) : bytes :=
  match rStatus record with
  | StatusWaiting => rOperationKey record
  | StatusPending | StatusCompensating => if 0 <? rAttempt record then currentOperation record else []
  | _ => []
  end.

(** [planTransition]: the record written and the operation closed ([[]] for
    none). *)
Definition planTransition (before after : Rec) (t : transition) : Rec * bytes :=
  let after := wIncarnation (rIncarnation before) after in
  let after :=
    if (tCause t =s causeResume) || ((tCause t =s causeManualCompensate) && (rPhase before =s PhaseCompensate))
    then wIncarnation (u32 (rIncarnation after + 1)) after else after in
  let open := openOperation before in
  let close := if negb (empty open) && negb (open =s openOperation after) then open else [] in
  let close :=
    match tReceipt t with
    | Some c => if coSuccess c then coIdempotencyKey c else close
    | None => close
    end in
  (after, close).

(** ** Start *)

Definition canonicalDeadline (value : Time) : Time :=
  if IsZero value then 0 else Truncate value Millisecond.

Definition prepareStart (request : StartRequest) (maxPayload : Z) : result SagaErr StartRequest :=
  let key := TrimSpace (srBusinessKey request) in
  let request := mkStart (srType request) key (srDefinitionVersion request) (srData request)
    (canonicalDeadline (srDeadlineAt request)) in
  if empty key || (512 <? zlen key) || (maxPayload <? zlen (srData request)) then Err ErrInvalidRecord
  else Ok request.

Definition startIntentDigest (request : StartRequest) : result SagaErr bytes :=
  match marshal_time (srDeadlineAt request) with
  | None => Err ErrInvalidRecord
  | Some deadline =>
      let raw := json_object (
        [(str "type", json_string (srType request));
         (str "business_key", json_string (srBusinessKey request));
         (str "definition_version", Itoa (srDefinitionVersion request))] ++
        (if empty (srData request) then [] else [(str "data", json_bytes (Some (srData request)))]) ++
        [(str "deadline_at", deadline)]) in
      Ok (hex_encode (Sha256.Sum256 raw))
  end.

Definition newStartRecord (request : StartRequest) (id lifecycle : bytes) (now : Time) : result SagaErr Rec :=
  let record := mkRec id (srType request) (srDefinitionVersion request) (srBusinessKey request) []
    StatusPending PhaseForward 0 0 0 0 0 [] 1 (srData request) [] [] [] now (srDeadlineAt request)
    now now [] lifecycle in
  intentDigest ← startIntentDigest request;
  let record := wStartDigest intentDigest record in
  _ ← guard_err (negb (Validate record)) ErrInvalidRecord;
  Ok record.

(** ** Compensation *)

Definition nextCompensation (after : Rec) (now : Time) : Rec :=
  let after := wOperationKey [] (wCommandID [] (wAttempt 0 (wPhase PhaseCompensate after))) in
  if 0 <? rLateStep after then
    wNextRunAt now (wStep (rLateStep after - 1) (wStatus StatusCompensating after))
  else if 0 <? rCompletedSteps after then
    wNextRunAt now (wStep (rCompletedSteps after - 1) (wStatus StatusCompensating after))
  else wNextRunAt 0 (wStatus StatusCompensated after).

Definition compensatingLateStep (record : Rec) : bool :=
  (rPhase record =s PhaseCompensate) && (0 <? rLateStep record) && (rStep record =? rLateStep record - 1).

Definition compensationState (after : Rec) (reason : bytes) (now : Time) : Rec :=
  let after := wOperationKey [] (wCommandID [] (wAttempt 0 (wLastError reason (wUpdatedAt now after)))) in
  if (rCompletedSteps after =? 0) && (rLateStep after =? 0) then
    wNextRunAt 0 (wStatus StatusFailed after)
  else nextCompensation after now.

Definition beginCompensation (record : Rec) (reason : bytes) (now : Time) : Rec :=
  compensationState (wVersion (u64 (rVersion record + 1)) record) reason now.

(** ** Retries *)

Definition stepFor (record : Rec) (definition : Def) : option Step :=
  if (rStep record <? 0) || (zlen (dSteps definition) <=? rStep record) then None
  else nth_error (dSteps definition) (Z.to_nat (rStep record)).

(** The doubling loop; [d] at least doubles towards [maximum], an [int64], so
    64 rounds always end it (see [backoff_loop_end]). *)
Fixpoint backoff_loop (fuel : nat) (i attempt d maximum : Z) : Z :=
  match fuel with
  | O => d
  | S f =>
      if (i <? attempt) && (d <? maximum) then
        if maximum / 2 <? d then maximum
        else backoff_loop f (i + 1) attempt (d * 2) maximum
      else d
  end.

Definition backoff (key : bytes) (attempt minimum maximum : Z) : Duration :=
  let minimum := if minimum <=? 0 then Millisecond else minimum in
  let maximum := if maximum <? minimum then minimum else maximum in
  let d := backoff_loop 64 1 attempt minimum maximum in
  let d := if maximum <? d then maximum else d in
  if d <=? 1 then d
  else
    let h := fnv32a (key ++ PutUint32 attempt) in
    let half := d / 2 in
    half + h mod u64 (d - half + 1).

Definition retryState (after : Rec) (definition : Def) (reason : bytes) (now : Time) : Rec :=
  let record := after in
  let after := wOperationKey [] (wCommandID [] (wLastError reason (wUpdatedAt now after))) in
  match stepFor record definition with
  | None => wNextRunAt 0 (wStatus StatusManualRequired after)
  | Some step =>
      if rAttempt after <? sMaxAttempts step then
        let after := wStatus (if rPhase after =s PhaseForward then StatusPending else StatusCompensating) after in
        wNextRunAt (now + backoff (rID record) (rAttempt after) (sBackoffMin step) (sBackoffMax step)) after
      else if rPhase after =s PhaseCompensate then
        wNextRunAt 0 (wStatus StatusManualRequired after)
      else compensationState after reason now
  end.

Definition retryOrCompensate (record : Rec) (definition : Def) (reason : bytes) (now : Time) : Rec :=
  retryState (wVersion (u64 (rVersion record + 1)) record) definition reason now.

(** ** Due records *)

Record duePlan := mkDuePlan {
  dpCause : transitionCause;
  dpAfter : Rec;
  dpCommand : option Command
}.

(** [planDue]; [None] is an unregistered definition. *)
Definition planDue (record : Rec) (definition : option Def) (now : Time) : duePlan :=
  match definition with
  | None =>
      let reason := str "definition not registered: " ++ rType record ++ str "/" ++ Itoa (rDefinitionVersion record) in
      mkDuePlan causeDefinitionMissing
        (wOperationKey [] (wCommandID [] (wNextRunAt 0 (wUpdatedAt now (wVersion (u64 (rVersion record + 1))
          (wLastError reason (wStatus StatusManualRequired record))))))) None
  | Some definition =>
      if negb (IsZero (rDeadlineAt record)) && negb (Before now (rDeadlineAt record)) &&
         (rPhase record =s PhaseForward) then
        mkDuePlan causeDeadline (beginCompensation record (str "saga deadline exceeded") now) None
      else if rStatus record =s StatusWaiting then
        mkDuePlan causeTimeout (retryOrCompensate record definition (str "step result timeout") now) None
      else
        match stepFor record definition with
        | None =>
            mkDuePlan causeInvalidStep
              (wUpdatedAt now (wVersion (u64 (rVersion record + 1))
                (wLastError (str "invalid saga step") (wStatus StatusManualRequired record)))) None
        | Some step =>
            let after := wUpdatedAt now (wVersion (u64 (rVersion record + 1))
              (wAttempt (u32 (rAttempt record + 1)) (wStatus StatusWaiting record))) in
            let after := wNextRunAt (now + sTimeout step) after in
            let after := wOperationKey (currentOperation record) after in
            let after := wCommandID (commandID (rOperationKey after) (rIncarnation after) (rAttempt after)) after in
            let topic :=
              if rPhase record =s PhaseCompensate then
                if empty (sCompensateTopic step) then sForwardTopic step ++ str ".compensate"
                else sCompensateTopic step
              else sForwardTopic step in
            let payload := if compensatingLateStep record then rLateData record else rData record in
            mkDuePlan causeDispatch after
              (Some (mkCommand (rCommandID after) (rOperationKey after) (rID record) (rType record)
                (rDefinitionVersion record) (rBusinessKey record) (rStep record) (sName step) (rPhase record)
                (rAttempt after) topic payload (rNextRunAt after) now 0))
        end
  end.

(** ** Resume and manual compensation *)

Definition prepareResume (request : ResumeRequest) (clock : Time) : result SagaErr (ResumeRequest * Time) :=
  let id := TrimSpace (rrID request) in
  _ ← guard_err (negb (validSubjectToken id 128) || (rrClearDeadline request && negb (IsZero (rrDeadlineAt request))))
    ErrInvalidRecord;
  let now := if IsZero (rrNow request) then clock else rrNow request in
  let request := mkResume id now (rrDeadlineAt request) (rrClearDeadline request) in
  let deadline := canonicalDeadline (rrDeadlineAt request) in
  _ ← guard_err (negb (IsZero deadline) && negb (now <? deadline)) ErrDeadlineExpired;
  Ok (request, deadline).

Definition planResume (record : Rec) (defined : bool) (request : ResumeRequest) (deadline : Time) : result SagaErr Rec :=
  _ ← guard_err (negb (rStatus record =s StatusFailed) && negb (rStatus record =s StatusManualRequired)) ErrText;
  _ ← guard_err (negb defined) ErrDefinitionMissing;
  let now := rrNow request in
  let after := wNextRunAt now (wOperationKey [] (wCommandID [] (wLastError [] (wAttempt 0
    (wUpdatedAt now (wVersion (u64 (rVersion record + 1)) record)))))) in
  after ←
    (if rrClearDeadline request then Ok (wDeadlineAt 0 after)
     else if negb (IsZero deadline) then Ok (wDeadlineAt deadline after)
     else if (rPhase after =s PhaseForward) && negb (IsZero (rDeadlineAt after)) && negb (Before now (rDeadlineAt after))
     then Err ErrDeadlineExpired else Ok after);
  if (rPhase record =s PhaseCompensate) || (0 <? rCompletedSteps record) || (0 <? rLateStep record)
  then Ok (nextCompensation after now)
  else Ok (wStatus StatusPending (wPhase PhaseForward after)).

(** The three answers of [planCompensate]: a record to write, the record
    as it is (with an error or none), a refusal. *)
Inductive CompensatePlan : Type :=
| CompensateWrite (after : Rec)
| CompensateAnswer (record : Rec) (err : option SagaErr)
| CompensateRefuse (err : SagaErr).

Definition planCompensate (record : Rec) (reason : bytes) (now : Time) : CompensatePlan :=
  if (rStatus record =s StatusCompensated) || (rStatus record =s StatusCompensating) then CompensateAnswer record None
  else if rStatus record =s StatusWaiting then CompensateRefuse ErrText
  else if rStatus record =s StatusCompleted then CompensateAnswer record (Some ErrSagaCompleted)
  else if (rCompletedSteps record =? 0) && (rLateStep record =? 0) then CompensateRefuse ErrText
  else CompensateWrite (beginCompensation record reason now).

(** ** Completions *)

Inductive completionVerdict : Type :=
| verdictAccept | verdictHistory | verdictStaleIncarnation | verdictStaleAttempt.

Definition positionedAt (record : Rec) (operation : bytes) : bool :=
  match rStatus record with
  | StatusWaiting => rOperationKey record =s operation
  | StatusPending | StatusCompensating => currentOperation record =s operation
  | _ => false
  end.

Definition judgeCompletion (record : Rec) (completion : Completion) (incarnation : Z) : completionVerdict :=
  let operation := coIdempotencyKey completion in
  if rIncarnation record <? incarnation then verdictStaleIncarnation
  else if coSuccess completion then
    let opened := (openOperation record =s operation) || (incarnation <? rIncarnation record) in
    if opened && positionedAt record operation then verdictAccept else verdictHistory
  else if negb (incarnation =? rIncarnation record) then verdictStaleIncarnation
  else if negb (rStatus record =s StatusWaiting) || negb (rOperationKey record =s operation) then verdictHistory
  else if coRetryable completion && negb (coCommandID completion =s rCommandID record) then verdictStaleAttempt
  else verdictAccept.

Record completionHistory := mkHistory {
  chRecorded : bool;
  chReceipt : bool;
  chClosure : OperationClosure
}.

Inductive historyVerdict : Type :=
| historyNotWaiting | historyDuplicate | historyLateStep (step : Z) | historyLateAlarm.

Definition lateForwardStep (record : Rec) (operation : bytes) : option Z :=
  match parseOperationKey record operation with
  | None => None
  | Some (phase, step) =>
      if negb (phase =s PhaseForward) || (step <? rCompletedSteps record) ||
         (negb (rLateStep record =? 0) && negb (rLateStep record =? i64 (step + 1))) then None
      else if (rPhase record =s PhaseCompensate) || (rStatus record =s StatusFailed) ||
              (rStatus record =s StatusManualRequired) then Some step
      else None
  end.

Definition judgeHistory (record : Rec) (completion : Completion) (history : completionHistory) : historyVerdict :=
  if negb (chRecorded history) then historyNotWaiting
  else if coSuccess completion && negb (chReceipt history) && (chClosure history =s OperationAbandoned) then
    match lateForwardStep record (coIdempotencyKey completion) with
    | Some step => historyLateStep step
    | None => historyLateAlarm
    end
  else historyDuplicate.

Definition lateStepState (record : Rec) (completion : Completion) (step : Z) : Rec :=
  let now := coCompletedAt completion in
  let after := wLateData (data_of (coData completion)) (wLateStep (i64 (step + 1))
    (wUpdatedAt now (wVersion (u64 (rVersion record + 1)) record))) in
  if empty (openOperation record) && negb (rStatus record =s StatusManualRequired) then
    nextCompensation (wLastError
      (str "step " ++ Itoa step ++ str " took effect after the coordinator abandoned it") after) now
  else after.

Definition applyCompletion (record : Rec) (definition : Def) (res : Completion) : Rec :=
  let now := coCompletedAt res in
  let after := wOperationKey [] (wCommandID [] (wUpdatedAt now (wVersion (u64 (rVersion record + 1)) record))) in
  if coSuccess res then
    let late := compensatingLateStep record in
    let after :=
      match coData res with
      | Some data => if late then after else wData data after
      | None => after
      end in
    let after := wLastError [] (wAttempt 0 after) in
    if rPhase record =s PhaseForward then
      let after := wStep (i64 (rStep after + 1)) (wCompletedSteps (i64 (rStep record + 1)) after) in
      if negb (IsZero (rDeadlineAt record)) && negb (Before now (rDeadlineAt record)) then
        compensationState after (str "saga deadline exceeded after step completion") now
      else if zlen (dSteps definition) <=? rStep after then
        wNextRunAt 0 (wStatus StatusCompleted after)
      else wNextRunAt now (wStatus StatusPending after)
    else
      let after :=
        if late then wLateData [] (wLateStep 0 after)
        else wCompletedSteps (i64 (rCompletedSteps after - 1)) after in
      nextCompensation after now
  else if negb (coRetryable res) then
    if rPhase after =s PhaseCompensate then wNextRunAt 0 (wStatus StatusManualRequired after)
    else compensationState after (coError res) now
  else retryState after definition (coError res) now.
