(* ===== verification/SagaRecordInv.v ===== *)
(** * The record invariant

    What every record the coordinator writes satisfies: it is stronger than
    [Record.Validate], and every transition preserves it. *)

From Stdlib Require Import String.
From S2P Require Import Prelude Bytes GoStr GoJson SagaRecord SagaKeys SagaTransition.

(** ** Definitions *)

(** The fields that never change. *)
Record identity_ok (r : Rec) : Prop := {
  id_token : validSubjectToken (rID r) 128 = true;
  id_len : zlen (rID r) ≤ 64;
  id_life : validLifecycle (rLifecycle r) = true;
  id_type : name_ok (rType r) 128 = true;
  id_def : 0 < rDefinitionVersion r < 2^32;
  id_key : name_ok (rBusinessKey r) 512 = true;
  id_created : rCreatedAt r ≠ 0
}.

Definition late_ok (r : Rec) : Prop :=
  (rLateStep r = 0 ∧ rLateData r = []) ∨
  (0 < rLateStep r ≤ 256 ∧ rCompletedSteps r ≤ rLateStep r - 1 ∧ zlen (rLateData r) ≤ 4 * 2^20).

(** Everything but the position of the record in the state machine. *)
Record base_inv (r : Rec) : Prop := {
  bi_ident : identity_ok r;
  bi_data : zlen (rData r) ≤ 4 * 2^20;
  bi_err : zlen (rLastError r) ≤ 4096;
  bi_version : 1 ≤ rVersion r < 2^64;
  bi_inc : is_u32 (rIncarnation r);
  bi_attempt : 0 ≤ rAttempt r ≤ 1000;
  bi_updated : rUpdatedAt r ≠ 0;
  bi_done : 0 ≤ rCompletedSteps r ≤ 256;
  bi_late : late_ok r
}.

Definition keys_empty (r : Rec) : Prop := rOperationKey r = [] ∧ rCommandID r = [].
Definition keys_current (r : Rec) : Prop :=
  rOperationKey r = currentOperation r ∧
  rCommandID r = commandID (currentOperation r) (rIncarnation r) (rAttempt r).

(** Going forward, at the first step not completed. *)
Definition at_forward (r : Rec) : Prop :=
  rPhase r = PhaseForward ∧ rStep r = rCompletedSteps r ∧ rStep r ≤ 255.
(** Compensating: at the late step, or at the last completed one. *)
Definition at_compensate (r : Rec) : Prop :=
  rPhase r = PhaseCompensate ∧
  ((0 < rLateStep r ∧ rStep r = rLateStep r - 1) ∨ (0 < rCompletedSteps r ∧ rStep r = rCompletedSteps r - 1)).

Definition shape (r : Rec) : Prop :=
  match rStatus r with
  | StatusPending =>
      at_forward r ∧ rLateStep r = 0 ∧ keys_empty r ∧ rAttempt r ≤ 999 ∧ rNextRunAt r ≠ 0
  | StatusWaiting =>
      ((at_forward r ∧ rLateStep r = 0) ∨ at_compensate r) ∧ keys_current r ∧ 0 < rAttempt r ∧ rNextRunAt r ≠ 0
  | StatusCompensating => at_compensate r ∧ keys_empty r ∧ rAttempt r ≤ 999 ∧ rNextRunAt r ≠ 0
  | StatusCompleted => rPhase r = PhaseForward ∧ rStep r = rCompletedSteps r ∧ rLateStep r = 0 ∧ keys_empty r
  | StatusCompensated =>
      rPhase r = PhaseCompensate ∧ 0 ≤ rStep r ≤ 256 ∧ rCompletedSteps r = 0 ∧ rLateStep r = 0 ∧ keys_empty r
  | StatusFailed => at_forward r ∧ rCompletedSteps r = 0 ∧ rLateStep r = 0 ∧ keys_empty r
  | StatusManualRequired => (at_forward r ∨ at_compensate r) ∧ keys_empty r
  | StatusInvalid _ => False
  end.

Definition rec_inv (r : Rec) : Prop := base_inv r ∧ shape r.

(** Same run of the same saga. *)
Definition same_run (r r' : Rec) : Prop :=
  rID r' = rID r ∧ rLifecycle r' = rLifecycle r ∧ rType r' = rType r ∧
  rDefinitionVersion r' = rDefinitionVersion r ∧ rBusinessKey r' = rBusinessKey r ∧
  rStartDigest r' = rStartDigest r ∧ rCreatedAt r' = rCreatedAt r ∧ rStartAttempt r' = rStartAttempt r.

Lemma identity_same r r' : same_run r r' → identity_ok r → identity_ok r'.
Proof.
  intros (E1 & E2 & E3 & E4 & E5 & E6 & E7 & E8) []. split; congruence.
Qed.

(** The steps of a valid definition. *)
Lemma steps_ok_forall l : ∀ seen, steps_ok l seen = true → Forall (λ s, step_ok s = true) l.
Proof.
  induction l as [|s l IH]; intros seen; [constructor|]. cbn [steps_ok]. to_prop.
  intros [[? _] ?]. constructor; [done|by eapply IH].
Qed.

Lemma def_step d r step :
  DefValidate d = true → stepFor r d = Some step → step_ok step = true ∧ 0 ≤ rStep r ≤ 255.
Proof.
  unfold DefValidate, stepFor. to_prop. intros Hd. destruct (_ || _) eqn:E; [done|]. to_prop. intros Hs. split; [|lia].
  apply nth_error_In in Hs. apply list_elem_of_In in Hs.
  destruct Hd as [[[_ _] _] Hs']. apply steps_ok_forall in Hs'.
  by apply (proj1 (Forall_forall _ _) Hs').
Qed.

Lemma step_ok_bounds s :
  step_ok s = true → 0 < sTimeout s ∧ 0 < sBackoffMin s ≤ sBackoffMax s ∧ sMaxAttempts s ≤ 1000.
Proof. unfold step_ok. to_prop. lia. Qed.

(** ** Retry backoff *)

(** Doubling until the attempt or the maximum is reached. *)
Lemma backoff_loop_end fuel : ∀ i attempt d maximum,
  0 < d ≤ maximum → maximum < d * 2^(Z.of_nat fuel) → 
  backoff_loop fuel i attempt d maximum = Z.min maximum (d * 2^(Z.max 0 (attempt - i))).
Proof.
  induction fuel as [|f IH]; intros i attempt d maximum Hd Hf; [cbn in Hf; lia|]. cbn [backoff_loop].
  destruct (Z.ltb_spec i attempt) as [Hi|Hi]; cbn [andb].
  2:{ rewrite (Z.max_l 0) by lia. rewrite Z.pow_0_r. lia. }
  rewrite (Z.max_r 0) by lia.
  assert (2 * 2^(attempt - i - 1) = 2^(attempt - i)) as Hp
    by (rewrite <- Z.pow_succ_r by lia; f_equal; lia).
  pose proof (Z.pow_pos_nonneg 2 (attempt - i - 1) ltac:(lia) ltac:(lia)) as Hpos.
  destruct (Z.ltb_spec d maximum) as [Hlt|Hge]; [|rewrite <- Hp; nia].
  destruct (Z.ltb_spec (maximum / 2) d) as [Hh|Hh].
  - pose proof (Z.mul_succ_div_gt maximum 2 ltac:(lia)). rewrite <- Hp. nia.
  - pose proof (Z.mul_div_le maximum 2 ltac:(lia)).
    rewrite Nat2Z.inj_succ, Z.pow_succ_r in Hf by lia.
    rewrite IH by lia. f_equal. replace (attempt - (i + 1)) with (attempt - i - 1) by lia.
    rewrite Z.max_r by lia. rewrite <- Hp. ring.
Qed.

Lemma backoff_loop_pos fuel : ∀ i attempt d maximum, 0 < d → 0 < maximum → 0 < backoff_loop fuel i attempt d maximum.
Proof.
  induction fuel as [|f IH]; intros i attempt d maximum Hd Hm; [done|]. cbn [backoff_loop].
  repeat case_match; try done. apply IH; lia.
Qed.

Lemma backoff_nonneg key attempt minimum maximum : 0 < minimum ≤ maximum → 0 ≤ backoff key attempt minimum maximum.
Proof.
  intros Hm. unfold backoff.
  destruct (Z.leb_spec minimum 0) as [|_]; [lia|]. destruct (Z.ltb_spec maximum minimum) as [|_]; [lia|].
  pose proof (backoff_loop_pos 64 1 attempt minimum maximum ltac:(lia) ltac:(lia)) as Hp.
  set (d := if maximum <? _ then _ else _). assert (0 < d) by (unfold d; case_match; lia).
  destruct (Z.leb_spec d 1); [lia|]. pose proof (fnv32a_range (key ++ PutUint32 attempt)) as [Hf _].
  pose proof (Z.div_pos d 2 ltac:(lia) ltac:(lia)). pose proof (u64_range (d - d / 2 + 1)) as [Hu _].
  destruct (decide (u64 (d - d / 2 + 1) = 0)) as [->|Hne]; [rewrite Z.mod_0_r; lia|].
  pose proof (Z.mod_pos_bound (fnv32a (key ++ PutUint32 attempt)) (u64 (d - d / 2 + 1)) ltac:(lia)). lia.
Qed.

(** The backoff before jitter. *)
Definition backoff_target (attempt minimum maximum : Z) : Z :=
  Z.min maximum (minimum * 2^(Z.max 0 (attempt - 1))).

Lemma backoff_range key attempt minimum maximum :
  0 < minimum ≤ maximum → maximum < 2^63 →
  let d := backoff_target attempt minimum maximum in
  d / 2 ≤ backoff key attempt minimum maximum ≤ d ∧ 0 < d ≤ maximum.
Proof.
  intros Hm Hx. cbn zeta. unfold backoff.
  destruct (Z.leb_spec minimum 0) as [|_]; [lia|]. destruct (Z.ltb_spec maximum minimum) as [|_]; [lia|].
  rewrite backoff_loop_end by (change (2 ^ Z.of_nat 64) with (2^64); lia).
  fold (backoff_target attempt minimum maximum). set (d := backoff_target attempt minimum maximum).
  assert (0 < d ≤ maximum) as Hd.
  { unfold d, backoff_target. pose proof (Z.pow_pos_nonneg 2 (Z.max 0 (attempt - 1)) ltac:(lia) ltac:(lia)). nia. }
  split; [|done]. destruct (Z.ltb_spec maximum d) as [|_]; [lia|].
  destruct (Z.leb_spec d 1) as [H1|H1]; [split; [apply Z.div_le_upper_bound; lia|lia]|].
  pose proof (Z.mul_div_le d 2 ltac:(lia)). pose proof (Z.mul_succ_div_gt d 2 ltac:(lia)).
  rewrite u64_small by (unfold_int; lia).
  pose proof (Z.mod_pos_bound (fnv32a (key ++ PutUint32 attempt)) (d - d / 2 + 1) ltac:(lia)). lia.
Qed.

(** ** The invariant implies validity *)

Ltac bool_conj := repeat (apply andb_true_intro; split).

Lemma empty_false s : s ≠ [] → empty s = false.
Proof. by destruct s. Qed.

Lemma key_lengths r :
  identity_ok r → 0 ≤ rStep r ≤ 255 → rPhase r = PhaseForward ∨ rPhase r = PhaseCompensate →
  is_u32 (rIncarnation r) → 0 ≤ rAttempt r ≤ 1000 →
  zlen (currentOperation r) ≤ 192 ∧ zlen (commandID (currentOperation r) (rIncarnation r) (rAttempt r)) ≤ 192.
Proof.
  intros Hid Hs Hp Hi Ha.
  pose proof (id_len r Hid). pose proof (id_life r Hid) as Hl. unfold validLifecycle, validSubjectToken in Hl.
  to_prop. assert (zlen (rLifecycle r) ≤ 64) as Hll by lia.
  assert (zlen (Itoa (phase_code (rPhase r))) ≤ 1) by (destruct Hp as [-> | ->]; vm_compute; discriminate).
  pose proof (Itoa_len (rStep r) 2 ltac:(cbn; lia)) as L1.
  pose proof (Itoa_len (rIncarnation r) 9 ltac:(unfold_int; cbn; lia)) as L2.
  pose proof (Itoa_len (rAttempt r) 3 ltac:(cbn; lia)) as L3.
  assert (zlen (currentOperation r) ≤ 64 + 1 + 64 + 1 + 1 + 1 + 3) as Hk.
  { unfold currentOperation, operationKey. autorewrite with go_len. lia. }
  split; [lia|]. unfold commandID. destruct (rIncarnation r =? 0); autorewrite with go_len; [lia|].
  change (zlen (str ":r")) with 2. lia.
Qed.

Lemma commandID_nonempty op inc att : op ≠ [] → commandID op inc att ≠ [].
Proof. intros H. unfold commandID. destruct op; [done|]. by case_match. Qed.

Lemma currentOperation_nonempty r : currentOperation r ≠ [].
Proof. apply operationKey_nonempty. Qed.

Lemma late_ok_valid r :
  base_inv r → shape r → lateStepValid r = true.
Proof.
  intros Hb Hs. unfold lateStepValid. destruct (bi_late r Hb) as [[-> ->]|(Hl & Hc & Hd)]; [done|].
  destruct (Z.eqb_spec (rLateStep r) 0) as [|_]; [lia|]. unfold shape, at_forward, at_compensate in Hs.
  to_prop. destruct (rStatus r); try tauto; try lia; repeat split; try lia; try congruence; try (left; tauto); try by right.
  all: left; destruct Hs as [[[? ?]|?] ?]; [lia|tauto].
Qed.

(** Every record with the invariant passes the code's validation. *)
Lemma rec_inv_valid r : rec_inv r → Validate r = true.
Proof.
  intros [Hb Hs]. pose proof (late_ok_valid r Hb Hs) as Hlate. pose proof (bi_late r Hb) as Hl.
  destruct Hb as [Hid Hd He Hv Hi Ha Hu Hc _]. unfold Validate, IsZero, waitingFields. rewrite Hlate.
  rewrite (id_token r Hid), (id_life r Hid), (id_type r Hid), (id_key r Hid).
  pose proof (id_def r Hid). pose proof (id_created r Hid).
  unfold shape, keys_empty, keys_current, at_forward, at_compensate, late_ok in *. cbn [andb].
  destruct (rStatus r) eqn:Est.
  2:{ destruct Hs as (Hpos & [-> ->] & Hat & Hn).
      assert (0 ≤ rStep r ≤ 255) as Hst by lia.
      assert (rPhase r = PhaseForward ∨ rPhase r = PhaseCompensate) as Hp by tauto.
      pose proof (key_lengths r Hid Hst Hp Hi Ha) as [K1 K2].
      rewrite (empty_false (currentOperation r)) by apply currentOperation_nonempty.
      rewrite (empty_false (commandID _ _ _)) by apply commandID_nonempty, currentOperation_nonempty.
      apply Z.leb_le in K1, K2. rewrite K1, K2. destruct (Z.ltb_spec 0 (rAttempt r)); [|lia].
      bool_conj. all: to_prop; try lia; try done.
      all: first [by left | by destruct Hp as [Hp|Hp]; rewrite Hp]. }
  7: done.
  all: assert (rOperationKey r = [] ∧ rCommandID r = []) as [-> ->] by tauto.
  all: assert (rPhase r = PhaseForward ∨ rPhase r = PhaseCompensate) as Hp by tauto.
  all: bool_conj; to_prop; try lia; try done.
  all: try first [by left | by right | by (do 4 left) | by destruct Hp as [Hp|Hp]; rewrite Hp].
  right. split; [tauto|lia].
Qed.

(** ** Positions after a transition *)

Create HintDb saga_base.

(** [base_inv] field by field: the setters of the other fields keep it. *)
Lemma base_ext r r' :
  same_run r r' → rData r' = rData r → rLastError r' = rLastError r → rVersion r' = rVersion r →
  rIncarnation r' = rIncarnation r → rAttempt r' = rAttempt r → rUpdatedAt r' = rUpdatedAt r →
  rCompletedSteps r' = rCompletedSteps r → rLateStep r' = rLateStep r → rLateData r' = rLateData r →
  base_inv r → base_inv r'.
Proof.
  intros Hs E1 E2 E3 E4 E5 E6 E7 E8 E9 [Hid Hd He Hv Hi Ha Hu Hc Hl].
  split; [by apply (identity_same r)|rewrite E1; exact Hd|rewrite E2; exact He|rewrite E3; exact Hv|
    rewrite E4; exact Hi|rewrite E5; exact Ha|rewrite E6; exact Hu|rewrite E7; exact Hc|].
  unfold late_ok. rewrite E7, E8, E9. exact Hl.
Qed.

Lemma base_wStatus v r : base_inv r → base_inv (wStatus v r).
Proof. by apply base_ext. Qed.
Lemma base_wPhase v r : base_inv r → base_inv (wPhase v r).
Proof. by apply base_ext. Qed.
Lemma base_wStep v r : base_inv r → base_inv (wStep v r).
Proof. by apply base_ext. Qed.
Lemma base_wOperationKey v r : base_inv r → base_inv (wOperationKey v r).
Proof. by apply base_ext. Qed.
Lemma base_wCommandID v r : base_inv r → base_inv (wCommandID v r).
Proof. by apply base_ext. Qed.
Lemma base_wNextRunAt v r : base_inv r → base_inv (wNextRunAt v r).
Proof. by apply base_ext. Qed.
Lemma base_wDeadlineAt v r : base_inv r → base_inv (wDeadlineAt v r).
Proof. by apply base_ext. Qed.
Lemma base_wAttempt v r : 0 ≤ v ≤ 1000 → base_inv r → base_inv (wAttempt v r).
Proof.
  intros Hv [B1 B2 B3 B4 B5 B6 B7 B8 B9]. split;
    [by apply (identity_same r)|exact B2|exact B3|exact B4|exact B5|exact Hv|exact B7|exact B8|exact B9].
Qed.
Lemma base_wLastError v r : zlen v ≤ 4096 → base_inv r → base_inv (wLastError v r).
Proof.
  intros Hv [B1 B2 B3 B4 B5 B6 B7 B8 B9]. split;
    [by apply (identity_same r)|exact B2|exact Hv|exact B4|exact B5|exact B6|exact B7|exact B8|exact B9].
Qed.
Lemma base_wUpdatedAt v r : v ≠ 0 → base_inv r → base_inv (wUpdatedAt v r).
Proof.
  intros Hv [B1 B2 B3 B4 B5 B6 B7 B8 B9]. split;
    [by apply (identity_same r)|exact B2|exact B3|exact B4|exact B5|exact B6|exact Hv|exact B8|exact B9].
Qed.
Lemma base_wIncarnation v r : is_u32 v → base_inv r → base_inv (wIncarnation v r).
Proof.
  intros Hv [B1 B2 B3 B4 B5 B6 B7 B8 B9]. split;
    [by apply (identity_same r)|exact B2|exact B3|exact B4|exact Hv|exact B6|exact B7|exact B8|exact B9].
Qed.
Lemma base_wData v r : zlen v ≤ 4 * 2^20 → base_inv r → base_inv (wData v r).
Proof.
  intros Hv [B1 B2 B3 B4 B5 B6 B7 B8 B9]. split;
    [by apply (identity_same r)|exact Hv|exact B3|exact B4|exact B5|exact B6|exact B7|exact B8|exact B9].
Qed.
Lemma base_wCompletedSteps v r :
  0 ≤ v ≤ 256 → rLateStep r = 0 ∨ v ≤ rCompletedSteps r → base_inv r → base_inv (wCompletedSteps v r).
Proof.
  intros Hv Hor [B1 B2 B3 B4 B5 B6 B7 B8 B9]. split;
    [by apply (identity_same r)|exact B2|exact B3|exact B4|exact B5|exact B6|exact B7|exact Hv|].
  destruct B9 as [[L1 L2]|(L1 & L2 & L3)]; [by left|right]. cbn. repeat split; try done; lia.
Qed.
(** No late step, or one above the completed prefix. *)
Lemma base_late n data r :
  (n = 0 ∧ data = []) ∨ (0 < n ≤ 256 ∧ rCompletedSteps r ≤ n - 1 ∧ zlen data ≤ 4 * 2^20) →
  base_inv r → base_inv (wLateData data (wLateStep n r)).
Proof.
  intros Hn [B1 B2 B3 B4 B5 B6 B7 B8 B9]. split;
    [by apply (identity_same r)|exact B2|exact B3|exact B4|exact B5|exact B6|exact B7|exact B8|exact Hn].
Qed.
(** The version of the record a transition starts from, plus one. *)
Lemma base_bump r r0 :
  rVersion r0 < 2^64 - 1 → rVersion r = rVersion r0 → base_inv r → base_inv (wVersion (u64 (rVersion r0 + 1)) r).
Proof.
  intros Hm Hr [B1 B2 B3 B4 B5 B6 B7 B8 B9]. split;
    [by apply (identity_same r)|exact B2|exact B3| |exact B5|exact B6|exact B7|exact B8|exact B9].
  cbn [rVersion wVersion]. rewrite Hr in B4. rewrite u64_small by (unfold_int; lia). lia.
Qed.
#[export] Hint Resolve base_wStatus base_wPhase base_wStep base_wOperationKey base_wCommandID base_wNextRunAt
  base_wDeadlineAt base_wAttempt base_wLastError base_wUpdatedAt base_wIncarnation base_wData base_bump : saga_base.
#[export] Hint Extern 4 (_ ≤ _) => (cbn; lia) : saga_base.
#[export] Hint Extern 4 (_ ∧ _) => (split; lia) : saga_base.
#[export] Hint Extern 4 (rVersion _ = rVersion _) => reflexivity : saga_base.
#[export] Hint Extern 4 (_ < _) => (cbn; lia) : saga_base.
#[export] Hint Extern 4 (_ ≠ _) => lia : saga_base.

(** Read a field through the setters. *)
Ltac fields :=
  cbn [rID rType rDefinitionVersion rBusinessKey rStartDigest rStatus rPhase rStep rCompletedSteps rAttempt
       rIncarnation rLateStep rLateData rVersion rData rLastError rOperationKey rCommandID rNextRunAt
       rDeadlineAt rCreatedAt rUpdatedAt rStartAttempt rLifecycle
       wStartDigest wStatus wPhase wStep wCompletedSteps wAttempt wIncarnation wLateStep wLateData wVersion
       wData wLastError wOperationKey wCommandID wNextRunAt wDeadlineAt wUpdatedAt wStartAttempt].

Lemma late_zero r : base_inv r → rLateStep r ≤ 0 → rLateStep r = 0.
Proof. intros Hb Hz. destruct (bi_late r Hb) as [[? _]|[? _]]; lia. Qed.

(** Where the next compensation leaves the record. *)
Lemma nextCompensation_inv r now : base_inv r → now ≠ 0 → 0 ≤ rStep r ≤ 256 → rec_inv (nextCompensation r now).
Proof.
  intros Hb Hn Hst. pose proof (bi_done r Hb). unfold nextCompensation. fields.
  destruct (Z.ltb_spec 0 (rLateStep r)) as [H1|H1]; [|destruct (Z.ltb_spec 0 (rCompletedSteps r)) as [H2|H2]].
  all: split; [by auto 20 with saga_base|]; unfold shape, at_compensate, keys_empty; fields.
  - repeat split; try done; lia.
  - repeat split; try done; lia.
  - pose proof (late_zero r Hb H1). repeat split; try done; lia.
Qed.

Lemma compensationState_inv r reason now :
  base_inv r → zlen reason ≤ 4096 → now ≠ 0 → 0 ≤ rStep r ≤ 256 →
  (rCompletedSteps r = 0 → rLateStep r = 0 → at_forward r) → rec_inv (compensationState r reason now).
Proof.
  intros Hb Hr Hn Hst Hf. unfold compensationState. fields. pose proof (bi_done _ Hb).
  destruct ((rCompletedSteps r =? 0) && (rLateStep r =? 0)) eqn:E.
  - to_prop. destruct (Hf ltac:(lia) ltac:(lia)) as (Hp & Hs & Hs2).
    split; [by auto 20 with saga_base|]. unfold shape, at_forward, keys_empty. fields. repeat split; try done; lia.
  - apply nextCompensation_inv; [by auto 20 with saga_base|done|done].
Qed.
