(* ===== verification/SagaTransitionInv.v ===== *)
(** * Transitions preserve the record invariant

    Each planner of the state machine, followed by [planTransition], takes an
    invariant-satisfying record to one, advances its version by exactly one
    and stays in the same run of the same saga. *)

From Stdlib Require Import String.
From S2P Require Import Prelude Bytes GoStr GoJson SagaRecord SagaKeys SagaTransition SagaRecordInv.

(** ** What a transition leaves alone *)

Definition frame (r r' : Rec) : Prop :=
  same_run r r' ∧ rVersion r' = rVersion r ∧ rIncarnation r' = rIncarnation r.

Lemma frame_trans r1 r2 r3 : frame r1 r2 → frame r2 r3 → frame r1 r3.
Proof.
  intros [(E1 & E2 & E3 & E4 & E5 & E6 & E7 & E8) [E9 E10]] [(F1 & F2 & F3 & F4 & F5 & F6 & F7 & F8) [F9 F10]].
  split; [|split; congruence]. repeat split; congruence.
Qed.

Lemma nextCompensation_frame r now : frame r (nextCompensation r now).
Proof. unfold nextCompensation. fields. by repeat case_match. Qed.
Lemma compensationState_frame r reason now : frame r (compensationState r reason now).
Proof.
  unfold compensationState. case_match; [done|]. eapply frame_trans; [|apply nextCompensation_frame]. done.
Qed.
Lemma retryState_frame r d reason now : frame r (retryState r d reason now).
Proof.
  unfold retryState. case_match; [|done]. case_match; [by case_match|]. case_match; [done|].
  eapply frame_trans; [|apply compensationState_frame]. done.
Qed.

(** A transition of [r]: same run, next version. *)
Definition advances (r r' : Rec) : Prop :=
  same_run r r' ∧ rVersion r' = u64 (rVersion r + 1) ∧ rIncarnation r' = rIncarnation r.

Lemma advances_frame r r1 r2 : advances r r1 → frame r1 r2 → advances r r2.
Proof.
  intros [(E1 & E2 & E3 & E4 & E5 & E6 & E7 & E8) [E9 E10]] [(F1 & F2 & F3 & F4 & F5 & F6 & F7 & F8) [F9 F10]].
  split; [|split; congruence]. repeat split; congruence.
Qed.

Lemma planDue_advances r d now : advances r (dpAfter (planDue r d now)).
Proof.
  unfold planDue. destruct d as [d|]; [|done]. case_match.
  { cbn. eapply advances_frame; [|apply compensationState_frame]. done. }
  case_match; [cbn; eapply advances_frame; [|apply retryState_frame]; done|]. by case_match.
Qed.

Lemma applyCompletion_advances r d c : advances r (applyCompletion r d c).
Proof.
  unfold applyCompletion. destruct (coSuccess c).
  - destruct (rPhase r =s PhaseForward).
    + case_match; [eapply advances_frame; [|apply compensationState_frame]|];
        [|case_match]; destruct (coData c), (compensatingLateStep r); done.
    + eapply advances_frame; [|apply nextCompensation_frame].
      destruct (coData c), (compensatingLateStep r); done.
  - case_match; [case_match; [done|]|].
    + eapply advances_frame; [|apply compensationState_frame]. done.
    + eapply advances_frame; [|apply retryState_frame]. done.
Qed.

Lemma lateStepState_advances r c s : advances r (lateStepState r c s).
Proof.
  unfold lateStepState. case_match; [|done]. eapply advances_frame; [|apply nextCompensation_frame]. done.
Qed.

Lemma planResume_advances r b q dl r' : planResume r b q dl = Ok r' → advances r r'.
Proof.
  unfold planResume. intros H. inv_ok.
  match type of H with (if _ then Ok (nextCompensation ?a _) else _) = _ => assert (advances r a) as Ha end.
  { repeat case_match; inv_ok; done. }
  case_match; inv_ok; [eapply advances_frame; [exact Ha|apply nextCompensation_frame]|].
  by eapply advances_frame.
Qed.

Lemma planCompensate_advances r reason now after :
  planCompensate r reason now = CompensateWrite after → advances r after.
Proof.
  unfold planCompensate. intros H. do 3 (case_match; [done|]). destruct (_ && _) in H; [done|]. injection H as <-.
  unfold beginCompensation. eapply advances_frame; [|apply compensationState_frame]. done.
Qed.

(** ** The invariant *)

Definition good_def (d : option Def) : Prop := match d with Some d => DefValidate d = true | None => True end.

(** Where an operation is in flight or about to be. *)
Definition positioned (r : Rec) : Prop := (at_forward r ∧ rLateStep r = 0) ∨ at_compensate r.

Lemma shape_positioned r : shape r → Terminal (rStatus r) = false → positioned r.
Proof. unfold shape, positioned. intros Hs Ht. destruct (rStatus r); try done; tauto. Qed.

Lemma positioned_step r : base_inv r → positioned r → 0 ≤ rStep r ≤ 255.
Proof.
  intros Hb [[(_ & E & ?) _]|[_ [[? E]|[? E]]]]; pose proof (bi_done r Hb); [lia| |lia].
  destruct (bi_late r Hb) as [[? _]|[? _]]; lia.
Qed.

Lemma retryState_inv r d reason now :
  base_inv r → positioned r → DefValidate d = true → 0 < now → zlen reason ≤ 4096 →
  rec_inv (retryState r d reason now).
Proof.
  intros Hb Hp Hd Hn Hz. unfold retryState. fields. pose proof (bi_attempt r Hb).
  destruct (stepFor r d) as [step|] eqn:Es.
  2:{ split; [by auto 20 with saga_base|]. unfold shape, keys_empty. fields. split; [|done].
      destruct Hp as [[? _]|?]; [by left|by right]. }
  destruct (def_step d r step Hd Es) as [Hok Hst]. pose proof (step_ok_bounds step Hok) as (Ht & Hbk & Hm).
  destruct (Z.ltb_spec (rAttempt r) (sMaxAttempts step)) as [Ha|Ha].
  - split; [by auto 20 with saga_base|].
    pose proof (backoff_nonneg (rID r) (rAttempt r) (sBackoffMin step) (sBackoffMax step) Hbk).
    unfold shape, keys_empty. fields.
    destruct Hp as [[[Hp Hp2] Hl]|[Hp Hp2]]; rewrite Hp; cbn; unfold at_forward, at_compensate; fields; repeat split; try done; lia.
  - destruct Hp as [[Hp Hl]|Hp].
    + rewrite bool_decide_false by (destruct Hp; congruence). apply compensationState_inv; [by auto 20 with saga_base|done|lia| |done].
      pose proof (bi_done r Hb). unfold at_forward in Hp. fields. lia.
    + pose proof Hp as [Hph _]. rewrite bool_decide_true by done. split; [by auto 20 with saga_base|].
      unfold shape, keys_empty. fields. split; [by right|done].
Qed.

Lemma beginCompensation_inv r reason now :
  rec_inv r → at_forward r → rVersion r < 2^64 - 1 → 0 < now → zlen reason ≤ 4096 →
  rec_inv (beginCompensation r reason now).
Proof.
  intros [Hb Hs] Hp Hv Hn Hz. unfold beginCompensation.
  apply compensationState_inv; [by auto with saga_base|done|lia| |done].
  pose proof (bi_done r Hb). unfold at_forward in Hp. fields. lia.
Qed.

(** Manual compensation also starts from the compensating direction. *)
Lemma beginCompensation_inv_any r reason now :
  rec_inv r → (rCompletedSteps r =? 0) && (rLateStep r =? 0) = false → 0 ≤ rStep r ≤ 256 →
  rVersion r < 2^64 - 1 → now ≠ 0 → zlen reason ≤ 4096 → rec_inv (beginCompensation r reason now).
Proof.
  intros [Hb _] Hne Hst Hv Hn Hz. unfold beginCompensation, compensationState. fields. rewrite Hne.
  apply nextCompensation_inv; [by auto 20 with saga_base|lia|fields; lia].
Qed.

Lemma reason_missing_len r :
  identity_ok r →
  zlen (str "definition not registered: " ++ rType r ++ str "/" ++ Itoa (rDefinitionVersion r)) ≤ 4096.
Proof.
  intros Hid. pose proof (id_type r Hid) as Ht. unfold name_ok in Ht. to_prop.
  pose proof (id_def r Hid). pose proof (Itoa_len (rDefinitionVersion r) 9 ltac:(cbn; lia)).
  autorewrite with go_len. change (zlen (str "definition not registered: ")) with 27.
  change (zlen (str "/")) with 1. lia.
Qed.

Lemma planDue_inv r d now :
  rec_inv r → Terminal (rStatus r) = false → rVersion r < 2^64 - 1 → good_def d → 0 < now →
  rec_inv (dpAfter (planDue r d now)).
Proof.
  intros [Hb Hs] Hterm Hv Hd Hn. pose proof (shape_positioned r Hs Hterm) as Hp.
  pose proof (reason_missing_len r (bi_ident r Hb)). unfold planDue. destruct d as [d|]; cbn [good_def] in Hd.
  2:{ cbn [dpAfter]. split; [by auto 20 with saga_base|]. unfold shape, keys_empty. fields. split; [|done].
      destruct Hp as [[? _]|?]; [by left|by right]. }
  destruct (_ && (rPhase r =s PhaseForward)) eqn:Edl; cbn [dpAfter].
  { apply andb_true_iff in Edl as [_ Hph]. to_prop. apply beginCompensation_inv; [done| |done|lia|vm_compute; discriminate].
    destruct Hp as [[? _]|[? _]]; [done|congruence]. }
  destruct (rStatus r =s StatusWaiting) eqn:Ew; to_prop.
  { cbn [dpAfter]. unfold retryOrCompensate. apply retryState_inv; [by auto with saga_base|done|done|lia|vm_compute; discriminate]. }
  pose proof (positioned_step r Hb Hp) as Hst.
  assert (keys_empty r ∧ rAttempt r ≤ 999) as [Hk Ha].
  { unfold shape in Hs. destruct (rStatus r); try done; tauto. }
  destruct (stepFor r d) as [step|] eqn:Es; cbn [dpAfter].
  2:{ split; [apply base_wUpdatedAt; [lia|]; apply base_bump; [done..|];
              apply base_wLastError; [vm_compute; discriminate|by auto with saga_base]|].
      unfold shape. fields. split; [|done]. destruct Hp as [[? _]|?]; [by left|by right]. }
  destruct (def_step d r step Hd Es) as [Hok _]. pose proof (step_ok_bounds step Hok) as (Ht & _).
  pose proof (bi_attempt r Hb).
  assert (u32 (rAttempt r + 1) = rAttempt r + 1) as -> by (apply u32_small; unfold_int; lia).
  split.
  - repeat (apply base_wCommandID || apply base_wOperationKey || apply base_wNextRunAt).
    apply base_wUpdatedAt; [lia|]. apply base_bump; [done..|]. by auto with saga_base.
  - unfold shape, keys_current. fields. repeat split; try done; try lia.
Qed.

(** The completion as the partition sees it. *)
Definition good_completion (c : Completion) : Prop :=
  0 < coCompletedAt c ∧ zlen (coError c) ≤ 4096 ∧ zlen (data_of (coData c)) ≤ 4 * 2^20.

(** A successful forward step: the next one, the end, or past the deadline. *)
Lemma forward_success_inv r0 d now (late : bool) :
  base_inv r0 → at_forward r0 → rLateStep r0 = 0 → keys_empty r0 → rAttempt r0 = 0 → 0 < now → DefValidate d = true →
  let r := wStep (i64 (rStep r0 + 1)) (wCompletedSteps (i64 (rStep r0 + 1)) r0) in
  rec_inv (if late then compensationState r (str "saga deadline exceeded after step completion") now
           else if zlen (dSteps d) <=? rStep r then wNextRunAt 0 (wStatus StatusCompleted r)
           else wNextRunAt now (wStatus StatusPending r)).
Proof.
  intros Hb (Hp & E & H255) Hl Hk Ha Hn Hd. pose proof (bi_done r0 Hb). cbn zeta. fields.
  rewrite i64_small by (unfold_int; lia).
  assert (base_inv (wStep (rStep r0 + 1) (wCompletedSteps (rStep r0 + 1) r0))) as Hb'
    by (apply base_wStep, base_wCompletedSteps; [lia|by left|done]).
  destruct late.
  { apply compensationState_inv; [done|vm_compute; discriminate|lia|fields; lia|fields; lia]. }
  assert (zlen (dSteps d) ≤ 256) as H256 by (unfold DefValidate in Hd; to_prop; lia).
  unfold keys_empty in Hk.
  destruct (Z.leb_spec (zlen (dSteps d)) (rStep r0 + 1)).
  - split; [by auto with saga_base|]. unfold shape, keys_empty. fields. repeat split; try done; tauto.
  - split; [by auto with saga_base|]. unfold shape, keys_empty, at_forward. fields. repeat split; try tauto; lia.
Qed.

(** A successful compensation: that step needs no more. *)
Lemma compensate_success_inv r0 now (late : bool) :
  base_inv r0 → at_compensate r0 → now ≠ 0 → late = compensatingLateStep r0 →
  rec_inv (nextCompensation (if late then wLateData [] (wLateStep 0 r0)
                             else wCompletedSteps (i64 (rCompletedSteps r0 - 1)) r0) now).
Proof.
  intros Hb [Hp Hpos] Hn ->. pose proof (bi_done r0 Hb). unfold compensatingLateStep.
  rewrite bool_decide_true by done. cbn [andb]. pose proof (bi_late r0 Hb) as Hl. unfold late_ok in Hl.
  destruct (_ && _) eqn:El; to_prop.
  - apply nextCompensation_inv; [apply base_late; [by left|done]|done|fields; lia].
  - rewrite i64_small by (unfold_int; lia).
    apply nextCompensation_inv; [apply base_wCompletedSteps; [lia|lia|done]|done|fields; lia].
Qed.

Lemma applyCompletion_inv r d c :
  rec_inv r → Terminal (rStatus r) = false → rVersion r < 2^64 - 1 → DefValidate d = true → good_completion c →
  rec_inv (applyCompletion r d c).
Proof.
  intros [Hb Hs] Hterm Hv Hd (Hn & Hz & Hdata). pose proof (shape_positioned r Hs Hterm) as Hp.
  unfold applyCompletion. set (now := coCompletedAt c) in *.
  set (r0 := wOperationKey [] (wCommandID [] (wUpdatedAt now (wVersion (u64 (rVersion r + 1)) r)))).
  assert (base_inv r0) as Hb0 by (unfold r0; by auto 20 with saga_base).
  assert (positioned r0) as Hp0 by done.
  destruct (coSuccess c).
  - set (r1 := match coData c with Some data => _ | None => _ end).
    assert (∃ v, r1 = wData v r0 ∧ base_inv (wData v r0)) as (v & -> & Hb1).
    { unfold r1. exists (match coData c with Some data => if compensatingLateStep r then rData r0 else data | None => rData r0 end).
      pose proof (bi_data r0 Hb0). split; [by destruct (coData c), (compensatingLateStep r)|].
      apply base_wData; [|done]. destruct (coData c); [|done]. by case_match. }
    set (r2 := wLastError [] (wAttempt 0 (wData v r0))).
    assert (base_inv r2) as Hb2.
    { unfold r2. apply base_wLastError; [vm_compute; discriminate|]. by auto with saga_base. }
    destruct Hp as [[Hp Hl]|Hp].
    + rewrite bool_decide_true by apply Hp. by apply (forward_success_inv r2 d now _ Hb2).
    + rewrite bool_decide_false by (destruct Hp; congruence). apply (compensate_success_inv r2 now); [done..|lia|done].
  - destruct (negb (coRetryable c)); [|by apply retryState_inv; try lia].
    destruct Hp as [[Hp Hl]|Hp].
    + rewrite bool_decide_false by (change (rPhase r0) with (rPhase r); destruct Hp; congruence).
      pose proof (bi_done r Hb). apply compensationState_inv; [done..|lia| |done].
      change (rStep r0) with (rStep r). unfold at_forward in Hp. lia.
    + rewrite bool_decide_true by apply Hp. split; [by auto with saga_base|].
      unfold shape, keys_empty. split; [by right|done].
Qed.

Lemma resume_position r :
  shape r → rStatus r = StatusFailed ∨ rStatus r = StatusManualRequired → at_forward r ∨ at_compensate r.
Proof.
  unfold shape. intros Hs [E|E]; rewrite E in Hs; [left; tauto|].
  by destruct Hs as [[?|?] _]; [left|right].
Qed.

Lemma planResume_inv r b q dl r' :
  rec_inv r → rVersion r < 2^64 - 1 → rrNow q ≠ 0 → planResume r b q dl = Ok r' → rec_inv r' ∧ rStatus r' ≠ StatusWaiting.
Proof.
  intros [Hb Hs] Hv Hn H. unfold planResume in H. inv_ok.
  match type of H with (if _ then Ok (nextCompensation ?a _) else _) = _ =>
    match goal with E : _ = Ok a |- _ =>
      assert (base_inv a ∧ rStep a = rStep r ∧ rPhase a = rPhase r ∧ rCompletedSteps a = rCompletedSteps r ∧
              rLateStep a = rLateStep r ∧ keys_empty a ∧ rAttempt a = 0 ∧ rNextRunAt a = rrNow q) as Ha;
      [assert (base_inv (wNextRunAt (rrNow q) (wOperationKey [] (wCommandID [] (wLastError [] (wAttempt 0
         (wUpdatedAt (rrNow q) (wVersion (u64 (rVersion r + 1)) r)))))))) as Hb'
         by (repeat (apply base_wNextRunAt || apply base_wOperationKey || apply base_wCommandID);
             apply base_wLastError; [vm_compute; discriminate|]; by auto with saga_base);
       repeat case_match; inv_ok; (split; [by auto with saga_base|by repeat split])|]
    end
  end.
  destruct Ha as (Hba & F1 & F2 & F3 & F4 & Hk & Hat & Hnr).
  pose proof (bi_done r Hb). to_prop.
  assert (rStatus r = StatusFailed ∨ rStatus r = StatusManualRequired) as Hstat by tauto.
  pose proof (resume_position r Hs Hstat) as Hpos.
  assert (0 ≤ rStep r ≤ 255) as Hst.
  { destruct Hpos as [(_ & ? & ?)|Hc]; [lia|]. apply positioned_step; [done|by right]. }
  destruct (_ || _) eqn:Edir in H; inv_ok; to_prop.
  - split; [apply nextCompensation_inv; [done|done|lia]|]. unfold nextCompensation. by repeat case_match.
  - split; [|done]. split; [by auto with saga_base|]. unfold shape, at_forward, keys_empty in *. fields.
    pose proof (late_zero r Hb ltac:(lia)).
    assert (rStep r = rCompletedSteps r) by (unfold at_forward, at_compensate in Hpos; tauto).
    rewrite Hat, Hnr, F1, F3, F4. repeat split; try tauto; lia.
Qed.

Lemma lateStepState_inv r c step :
  rec_inv r → rVersion r < 2^64 - 1 → good_completion c → 0 ≤ step ≤ 255 →
  rCompletedSteps r ≤ step → rLateStep r = 0 ∨ rLateStep r = step + 1 →
  rPhase r = PhaseCompensate ∨ rStatus r = StatusFailed ∨ rStatus r = StatusManualRequired →
  rec_inv (lateStepState r c step).
Proof.
  intros [Hb Hs] Hv (Hn & _ & Hdata) Hst Hc Hl Hor. unfold lateStepState. set (now := coCompletedAt c) in *.
  rewrite i64_small by (unfold_int; lia). pose proof (bi_done r Hb).
  set (r0 := wLateData _ _).
  assert (base_inv r0) as Hb0.
  { unfold r0. apply base_late; [right; fields; repeat split; lia || done|]. by auto with saga_base. }
  destruct (empty (openOperation r) && _) eqn:Eo.
  - apply nextCompensation_inv; [|lia|].
    + apply base_wLastError; [|done]. autorewrite with go_len. pose proof (Itoa_len step 2 ltac:(cbn; lia)).
      change (zlen (str "step ")) with 5. vm_compute (zlen (str _)). lia.
    + fields. unfold r0. fields. unfold shape, at_forward, at_compensate in Hs. pose proof (bi_late r Hb) as Hlt.
      unfold late_ok in Hlt. destruct (rStatus r); lia.
  - split; [done|].
    assert (at_compensate r → at_compensate r0) as Hac
      by (unfold at_compensate, r0; fields; intros [? ?]; split; [done|lia]).
    assert (at_forward r → at_forward r0) as Haf by done.
    assert (keys_empty r → keys_empty r0) as Hke by done. assert (keys_current r → keys_current r0) as Hkc by done.
    unfold shape in *. change (rStatus r0) with (rStatus r). change (rAttempt r0) with (rAttempt r).
    change (rNextRunAt r0) with (rNextRunAt r). unfold openOperation in Eo.
    destruct (rStatus r) eqn:Est; try done; try tauto; unfold at_forward in Hs; destruct Hor as [?|[?|?]]; try done;
      try (destruct Hs; congruence).
    + destruct Hs as ([Hp _] & _). congruence.
    + destruct Hs as [[[[Hp _] _]|?] ?]; [congruence|tauto].
Qed.

(** [planTransition] only sets the incarnation. *)
Lemma planTransition_record before after t :
  fst (planTransition before after t) =
  wIncarnation (if (tCause t =s causeResume) || ((tCause t =s causeManualCompensate) && (rPhase before =s PhaseCompensate))
                then u32 (rIncarnation before + 1) else rIncarnation before) after.
Proof. unfold planTransition. cbn. by case_match. Qed.

Lemma rec_inv_incarnation r v :
  rec_inv r → is_u32 v → rStatus r ≠ StatusWaiting ∨ v = rIncarnation r → rec_inv (wIncarnation v r).
Proof.
  intros [Hb Hs] Hv Hor. split; [by apply base_wIncarnation|].
  unfold shape in *. change (rStatus (wIncarnation v r)) with (rStatus r).
  destruct (rStatus r); try exact Hs. destruct Hor as [?| ->]; [done|]. exact Hs.
Qed.

(** A planned transition written through [planTransition]. *)
Lemma written_inv before after t :
  advances before after → rec_inv after → is_u32 (rIncarnation before) →
  (tCause t = causeResume ∨ tCause t = causeManualCompensate → rStatus after ≠ StatusWaiting) →
  rec_inv (fst (planTransition before after t)).
Proof.
  intros (_ & _ & Hi) Ha Hu Hc. rewrite planTransition_record. apply rec_inv_incarnation; [done| |].
  - case_match; [apply u32_range|done].
  - destruct (_ || _) eqn:E; [left|by right]. apply Hc. to_prop. tauto.
Qed.
