(* ===== verification/SagaLayout.v ===== *)
(** * Partition layout (log_layout.go)

    Saga ids, the partition of an id, the stream of a partition, and the
    subjects, bucket and key names of a partition. *)

From Stdlib Require Import String.
From S2P Require Import Prelude Bytes GoStr GoJson SagaRecord.

Definition maxPartitionsPerStream : Z := 50.

Record Layout := mkLayout {
  lPrefix : bytes;
  lStream : bytes;
  lPartitions : Z;
  lGroups : Z
}.

#[export] Instance Layout_eq_dec : EqDecision Layout.
Proof. solve_decision. Defined.

Definition stream_char (c : Z) : bool :=
  between 97 122 c || between 65 90 c || between 48 57 c || (c =? 95) || (c =? 45).
(** A rune outside ASCII has a first byte of at least 128. *)
Definition validStreamName (name : bytes) : bool := negb (empty name) && forallb stream_char name.

(** [Layout.Validate]: [true] is a nil error. *)
Definition LayoutValidate (l : Layout) : bool :=
  validSubject (lPrefix l) && negb (Contains (lPrefix l) (str ".q.")) && negb (HasSuffix (lPrefix l) (str ".q")) &&
  validStreamName (lStream l) && (zlen (lStream l) <=? 200) &&
  (1 <=? lPartitions l) && (lPartitions l <=? 1024) &&
  (1 <=? lGroups l) && (lGroups l <=? 8) && (lGroups l <=? lPartitions l) &&
  ((lPartitions l + lGroups l - 1) / lGroups l <=? maxPartitionsPerStream).

(** [IDOf]: half a SHA-256, in hexadecimal. *)
Definition IDOf (sagaType businessKey : bytes) : bytes :=
  hex_encode (take 16 (Sha256.Sum256 (sagaType ++ [0] ++ businessKey))).

Definition PartitionOf (l : Layout) (id : bytes) : Z := fnv32a id mod u32 (lPartitions l).
Definition GroupOf (l : Layout) (k : Z) : Z := k mod lGroups l.
Definition streamName (l : Layout) (g : Z) : bytes := lStream l ++ str "_G" ++ Itoa g.
Definition StreamOf (l : Layout) (k : Z) : bytes := streamName l (GroupOf l k).
Definition Streams (l : Layout) : list bytes := map (streamName l) (seqZ 0 (lGroups l)).

(** [for k := g; k < P; k += G]: at most [P] rounds when [0 <= g] and
    [0 < G]. *)
Fixpoint partsLoop (fuel : nat) (k partitions groups : Z) : list Z :=
  match fuel with
  | O => []
  | S f => if k <? partitions then k :: partsLoop f (k + groups) partitions groups else []
  end.
Definition PartitionsOfGroup (l : Layout) (g : Z) : list Z :=
  partsLoop (Z.to_nat (lPartitions l)) g (lPartitions l) (lGroups l).

Definition partitionPrefix (l : Layout) (k : Z) : bytes := lPrefix l ++ str "." ++ Itoa k.
Definition PartitionFilter (l : Layout) (k : Z) : bytes := partitionPrefix l k ++ str ".>".
Definition StreamSubjects (l : Layout) (g : Z) : list bytes := map (PartitionFilter l) (PartitionsOfGroup l g).

Definition CommandEventSubject (l : Layout) (k : Z) (topic : bytes) : bytes :=
  partitionPrefix l k ++ str ".ev." ++ str "cmd" ++ str "." ++ topic.
Definition DoneEventSubject (l : Layout) (k : Z) : bytes := partitionPrefix l k ++ str ".ev." ++ str "done".
Definition NoneEventSubject (l : Layout) (k : Z) : bytes := partitionPrefix l k ++ str ".ev." ++ str "none".
Definition EventFilter (l : Layout) (k : Z) : bytes := partitionPrefix l k ++ str ".ev.>".
Definition InputFilter (l : Layout) (k : Z) : bytes := partitionPrefix l k ++ str ".in.>".
Definition StartSubject (l : Layout) (k : Z) : bytes := partitionPrefix l k ++ str ".in.start".
Definition ResultSubject (l : Layout) (k : Z) : bytes := partitionPrefix l k ++ str ".in.res".
Definition OpSubject (l : Layout) (k : Z) : bytes := partitionPrefix l k ++ str ".in.op".
Definition CommandFilter (l : Layout) (topic : bytes) : bytes := lPrefix l ++ str ".*.ev." ++ str "cmd" ++ str "." ++ topic.
Definition DoneFilter (l : Layout) : bytes := lPrefix l ++ str ".*.ev." ++ str "done".
Definition AllEventsFilter (l : Layout) : bytes := lPrefix l ++ str ".*.ev.>".
Definition ColdCopyDurable (stream : bytes) : bytes := stream ++ str "-cold-copy".
Definition QuerySubject (l : Layout) (k : Z) : bytes := lPrefix l ++ str ".q." ++ Itoa k.
Definition ListSubject (l : Layout) : bytes := lPrefix l ++ str ".q.list".
Definition SnapshotBucket (l : Layout) : bytes := lStream l ++ str "_SNAP".
Definition ObjectBucket (l : Layout) : bytes := lStream l ++ str "_SNAPOBJ".
Definition LoadBucket (l : Layout) : bytes := lStream l ++ str "_LOAD".
Definition snapshotKey (k : Z) : bytes := str "p" ++ Itoa k.

Definition partitionOfEvent (l : Layout) (subject : bytes) : option Z :=
  rest ← CutPrefix subject (lPrefix l ++ str ".");
  '(token, tail) ← CutByte rest dot;
  if negb (HasPrefix tail (str "ev.")) then None
  else
    k ← Atoi token;
    if (k <? 0) || (lPartitions l <=? k) || negb (Itoa k =s token) then None else Some k.

Definition isEventSubject (l : Layout) (k : Z) (subject : bytes) : bool :=
  HasPrefix subject (partitionPrefix l k ++ str ".ev.").

(** [inputKindOf]; [[]] is [""]. *)
Definition inputKindOf (l : Layout) (k : Z) (subject : bytes) : bytes :=
  match CutPrefix subject (partitionPrefix l k ++ str ".in.") with Some rest => rest | None => [] end.

(** ** Facts *)

Lemma IDOf_len t k : zlen (IDOf t k) = 32.
Proof.
  unfold IDOf. rewrite zlen_hex_encode. pose proof (Sha256.zlen_Sum256 (t ++ [0] ++ k)) as H.
  unfold zlen in *. rewrite length_take. lia.
Qed.

Lemma hex_digit_range d : 0 ≤ d < 16 → 48 ≤ hex_digit d ≤ 57 ∨ 97 ≤ hex_digit d ≤ 102.
Proof. unfold hex_digit. destruct (Z.ltb_spec d 10); lia. Qed.

Lemma Itoa_no_dot n : 0 ≤ n → dot ∉ Itoa n.
Proof. intros Hn. apply Itoa_no; [done|unfold dot; lia]. Qed.

Lemma partsLoop_spec fuel : ∀ k p g j,
  0 < g → p - k ≤ Z.of_nat fuel →
  j ∈ partsLoop fuel k p g ↔ k ≤ j < p ∧ (j - k) mod g = 0.
Proof.
  induction fuel as [|f IH]; intros k p g j Hg Hf; cbn [partsLoop].
  - split; [intros H; by apply elem_of_nil in H|lia].
  - destruct (Z.ltb_spec k p) as [Hk|Hk]; [|split; [intros H; by apply elem_of_nil in H|lia]].
    rewrite elem_of_cons, IH by lia. split.
    + intros [->|[? Hm]]; [rewrite Z.sub_diag; split; [lia|by rewrite Z.mod_0_l by lia]|].
      split; [lia|]. replace (j - k) with (j - (k + g) + 1 * g) by lia. by rewrite Z_mod_plus_full.
    + intros [? Hm]. destruct (decide (j = k)) as [|Hne]; [by left|right].
      apply Z.mod_divide in Hm as [q Hq]; [|lia].
      assert (1 ≤ q) by nia. split; [nia|].
      replace (j - (k + g)) with ((q - 1) * g) by lia. by rewrite Z_mod_mult.
Qed.

Lemma partsLoop_len fuel : ∀ k p g, 0 < g → k ≤ p + g - 1 → zlen (partsLoop fuel k p g) ≤ (p - k + g - 1) / g.
Proof.
  induction fuel as [|f IH]; intros k p g Hg Hk; cbn [partsLoop]; [apply Z.div_pos; [|lia]; rewrite ?zlen_nil; lia|].
  destruct (Z.ltb_spec k p) as [Hlt|Hge]; [|apply Z.div_pos; [|lia]; lia].
  rewrite zlen_cons. replace (p - k + g - 1) with ((p - (k + g) + g - 1) + 1 * g) by lia.
  rewrite Z_div_plus_full by lia. specialize (IH (k + g) p g Hg ltac:(lia)). lia.
Qed.

Lemma LayoutValidate_bounds l :
  LayoutValidate l = true → 1 ≤ lPartitions l ≤ 1024 ∧ 1 ≤ lGroups l ≤ 8 ∧ lGroups l ≤ lPartitions l.
Proof. unfold LayoutValidate. to_prop. lia. Qed.

Lemma partitionOfEvent_own l k tail :
  0 ≤ k < lPartitions l → lPartitions l ≤ 1024 → HasPrefix tail (str "ev.") = true →
  partitionOfEvent l (partitionPrefix l k ++ str "." ++ tail) = Some k.
Proof.
  intros Hk Hp Ht. unfold partitionOfEvent, partitionPrefix.
  replace ((lPrefix l ++ str "." ++ Itoa k) ++ str "." ++ tail)
    with ((lPrefix l ++ str ".") ++ Itoa k ++ str "." ++ tail) by (by rewrite <- !app_assoc).
  rewrite CutPrefix_app. cbn [mbind option_bind]. change (str "." ++ tail) with (dot :: tail).
  rewrite CutByte_app by (apply Itoa_no_dot; lia). cbn [mbind option_bind].
  rewrite Ht. cbn [negb]. rewrite Atoi_Itoa by lia. cbn [mbind option_bind].
  rewrite (bool_decide_true (Itoa k = Itoa k)) by done.
  destruct (Z.ltb_spec k 0); [lia|]. destruct (Z.leb_spec (lPartitions l) k); [lia|done].
Qed.

Lemma partitionPrefix_inj l k k' s s' :
  0 ≤ k < 2^64 → 0 ≤ k' < 2^64 → partitionPrefix l k ++ str "." ++ s = partitionPrefix l k' ++ str "." ++ s' →
  k = k' ∧ s = s'.
Proof.
  intros Hk Hk' E. unfold partitionPrefix in E. rewrite <- !app_assoc in E. simplify_list_eq.
  apply (f_equal (λ s, CutByte s dot)) in E. change (str "." ++ s) with (dot :: s) in E.
  change (str "." ++ s') with (dot :: s') in E.
  rewrite !CutByte_app in E by (apply Itoa_no_dot; lia). injection E as E ->.
  by apply Itoa_inj in E as ->.
Qed.

Lemma PartitionOf_range l id : LayoutValidate l = true → 0 ≤ PartitionOf l id < lPartitions l.
Proof.
  intros Hv. pose proof (LayoutValidate_bounds l Hv). unfold PartitionOf.
  rewrite u32_small by (unfold_int; lia). apply Z.mod_pos_bound. lia.
Qed.

(** ** Theorems *)

(** the layout routes every message to exactly one partition.  An id's
    partition exists and lies on exactly one stream, whose load is within the
    limit of open atomic batches; an event's subject names its partition; an
    input's subject is its partition's input of that kind, no other
    partition's, and never an event. *)
Theorem layout_routes l :
  LayoutValidate l = true →
  (∀ id, 0 ≤ PartitionOf l id < lPartitions l) ∧
  (∀ k g, 0 ≤ k < lPartitions l → 0 ≤ g < lGroups l → k ∈ PartitionsOfGroup l g ↔ GroupOf l k = g) ∧
  (∀ g, 0 ≤ g < lGroups l → zlen (PartitionsOfGroup l g) ≤ maxPartitionsPerStream) ∧
  (∀ k topic, 0 ≤ k < lPartitions l →
     partitionOfEvent l (CommandEventSubject l k topic) = Some k ∧
     partitionOfEvent l (DoneEventSubject l k) = Some k ∧ partitionOfEvent l (NoneEventSubject l k) = Some k) ∧
  (∀ k k' kind, 0 ≤ k < lPartitions l → 0 ≤ k' < lPartitions l →
     let subject := partitionPrefix l k ++ str ".in." ++ kind in
     inputKindOf l k' subject = (if decide (k = k') then kind else []) ∧ isEventSubject l k' subject = false).
Proof.
  intros Hv. pose proof (LayoutValidate_bounds l Hv) as Hb. split_and!.
  - intros id. by apply PartitionOf_range.
  - intros k g Hk Hg. unfold PartitionsOfGroup, GroupOf. rewrite partsLoop_spec by lia. split.
    + intros [_ Hm]. apply Z.mod_divide in Hm as [q Hq]; [|lia].
      replace k with (g + q * lGroups l) by lia. rewrite Z_mod_plus_full. by apply Z.mod_small.
    + intros Hm. pose proof (Z.div_mod k (lGroups l) ltac:(lia)) as Hd.
      assert (0 ≤ k / lGroups l) by (apply Z.div_pos; lia). split; [nia|].
      replace (k - g) with (k / lGroups l * lGroups l) by lia. apply Z_mod_mult.
  - intros g Hg. assert ((lPartitions l + lGroups l - 1) / lGroups l ≤ maxPartitionsPerStream) as Hc.
    { revert Hv. unfold LayoutValidate. to_prop. lia. }
    etrans; [apply partsLoop_len; lia|]. etrans; [|exact Hc]. apply Z.div_le_mono; lia.
  - intros k topic Hk. unfold CommandEventSubject, DoneEventSubject, NoneEventSubject.
    change (str ".ev.") with (str "." ++ str "ev."). rewrite <- !app_assoc.
    split_and!; (apply partitionOfEvent_own; [done|lia|apply HasPrefix_app]).
  - intros k k' kind Hk Hk'. cbn zeta. unfold inputKindOf, isEventSubject, HasPrefix.
    change (str ".in.") with (str "." ++ str "in."). change (str ".ev.") with (str "." ++ str "ev.").
    rewrite <- !app_assoc. split.
    + destruct (decide (k = k')) as [<-|Hne].
      * rewrite (app_assoc (partitionPrefix l k)), (app_assoc (_ ++ _) _ kind), (app_assoc (partitionPrefix l k)).
        by rewrite CutPrefix_app.
      * destruct (CutPrefix _ _) as [r|] eqn:E; [|done]. apply CutPrefix_some in E. rewrite <- !app_assoc in E.
        apply partitionPrefix_inj in E as [? _]; lia.
    + destruct (CutPrefix _ _) as [r|] eqn:E; [|done]. exfalso. apply CutPrefix_some in E. rewrite <- !app_assoc in E.
      apply partitionPrefix_inj in E as [_ E]; [done|lia..].
Qed.

Definition sample_layout : Layout := mkLayout (str "roost.saga") (str "ROOST_SAGA") 16 4.

Lemma layout_routes_witness :
  LayoutValidate sample_layout = true ∧
  PartitionsOfGroup sample_layout 3 = [3; 7; 11; 15] ∧
  IDOf (str "trade") (str "order-1") = str "e4f248a81f6ec419c35c8049ff172336" ∧
  0 ≤ PartitionOf sample_layout (IDOf (str "trade") (str "order-1")) < 16.
Proof.
  split; [vm_compute; reflexivity|]. split; [vm_compute; reflexivity|]. split; [vm_compute; reflexivity|].
  apply (proj1 (layout_routes sample_layout ltac:(vm_compute; reflexivity))).
Defined.
