(* ===== verification/SagaWheel.v ===== *)
(** * The timer wheel of a partition (wheel.go)

    A hashed wheel of slots; an entry lies in the slot of its tick, or of the
    cursor when its tick has already passed.  Theorem: [advance] takes out
    exactly the entries that are due, whatever the clock does. *)

From S2P Require Import Prelude Bytes GoJson.

Record wheelEntry := mkEntry {
  weId : bytes;
  weAt : Z
}.

Record wheel := mkWheel {
  whTick : Z;
  whSlots : list (list wheelEntry);
  whCursor : Z;
  whSize : Z
}.

Definition newWheel (tick : Duration) (slots : Z) (now : Time) : wheel :=
  let tick := if tick <=? 0 then 5 * Millisecond else tick in
  let slots := if slots <=? 0 then 1024 else slots in
  mkWheel tick (replicate (Z.to_nat slots) []) (Z.quot (UnixNano now) tick) 0.

(** [int(tick % int64(len(w.slots)))] *)
Definition slotOf (w : wheel) (tick : Z) : nat := Z.to_nat (Z.rem tick (zlen (whSlots w))).

Definition schedule (w : wheel) (id : bytes) (at_ : Time) : wheel :=
  let nanos := UnixNano at_ in
  let tick := Z.quot nanos (whTick w) in
  let tick := if tick <? whCursor w then whCursor w else tick in
  mkWheel (whTick w) (alter (λ l, l ++ [mkEntry id nanos]) (slotOf w tick) (whSlots w))
    (whCursor w) (whSize w + 1).

Definition due_by (now : Z) (e : wheelEntry) : Prop := weAt e ≤ now.
#[export] Instance due_by_dec now e : Decision (due_by now e).
Proof. unfold due_by. apply _. Defined.

Definition scan (w : wheel) (slot : nat) (now : Z) (due : list bytes) : wheel * list bytes :=
  let entries := whSlots w !!! slot in
  let out := filter (due_by now) entries in
  (mkWheel (whTick w) (<[slot := filter (λ e, ¬ due_by now e) entries]> (whSlots w)) (whCursor w)
     (whSize w - zlen out), due ++ map weId out).

(** [for ; w.cursor < target; w.cursor++]; after the jump at most [len - 1]
    rounds are left. *)
Fixpoint advanceLoop (fuel : nat) (w : wheel) (target nanos : Z) (due : list bytes) : wheel * list bytes :=
  match fuel with
  | O => (w, due)
  | S f =>
      if whCursor w <? target then
        let '(w, due) := scan w (slotOf w (whCursor w)) nanos due in
        advanceLoop f (mkWheel (whTick w) (whSlots w) (whCursor w + 1) (whSize w)) target nanos due
      else (w, due)
  end.

Definition advance (w : wheel) (now : Time) (due : list bytes) : wheel * list bytes :=
  let nanos := UnixNano now in
  let target := Z.quot nanos (whTick w) in
  if target <? whCursor w then scan w (slotOf w (whCursor w)) nanos due
  else
    let len := zlen (whSlots w) in
    let w := if len <=? target - whCursor w
             then mkWheel (whTick w) (whSlots w) (target - len + 1) (whSize w) else w in
    let '(w, due) := advanceLoop (length (whSlots w)) w target nanos due in
    scan w (slotOf w target) nanos due.

Definition pending (w : wheel) : Z := whSize w.

(** ** Invariant *)

Definition entries (w : wheel) : list wheelEntry := concat (whSlots w).

(** The tick whose slot holds the entry. *)
Definition placed (w : wheel) (e : wheelEntry) : Z := Z.max (Z.quot (weAt e) (whTick w)) (whCursor w).

Record wheel_ok (w : wheel) : Prop := {
  wo_tick : 0 < whTick w;
  wo_slots : whSlots w ≠ [];
  wo_cursor : 0 ≤ whCursor w;
  wo_size : whSize w = zlen (entries w);
  wo_placed : ∀ j l e, whSlots w !! j = Some l → e ∈ l → j = slotOf w (placed w e)
}.

Lemma slots_pos w : wheel_ok w → 0 < zlen (whSlots w).
Proof. intros H. pose proof (wo_slots w H). destruct (whSlots w); [done|]. zlia. Qed.

Lemma slotOf_mod w t : 0 ≤ t → 0 < zlen (whSlots w) → slotOf w t = Z.to_nat (t mod zlen (whSlots w)).
Proof. intros Ht Hl. unfold slotOf. by rewrite Z.rem_mod_nonneg by lia. Qed.

Lemma slotOf_lt w t : 0 ≤ t → 0 < zlen (whSlots w) → (slotOf w t < length (whSlots w))%nat.
Proof.
  intros Ht Hl. rewrite slotOf_mod by done. pose proof (Z.mod_pos_bound t (zlen (whSlots w)) Hl).
  unfold zlen in *. lia.
Qed.

Lemma slotOf_same w w' t : zlen (whSlots w') = zlen (whSlots w) → slotOf w' t = slotOf w t.
Proof. unfold slotOf. by intros ->. Qed.

Lemma newWheel_ok tick slots now : 0 ≤ UnixNano now → wheel_ok (newWheel tick slots now) ∧ entries (newWheel tick slots now) = [].
Proof.
  intros Hn. unfold newWheel. set (t := if tick <=? 0 then _ else _). set (n := if slots <=? 0 then _ else _).
  assert (0 < t) by (unfold t, Millisecond; destruct (Z.leb_spec tick 0); lia).
  assert (0 < n) by (unfold n; destruct (Z.leb_spec slots 0); lia).
  assert (concat (replicate (Z.to_nat n) (@nil wheelEntry)) = []) as He.
  { induction (Z.to_nat n) as [|k IH]; [done|]. by cbn. }
  split; [|done]. split; unfold entries; cbn.
  - done.
  - destruct (Z.to_nat n) eqn:E; [lia|done].
  - apply Z.quot_pos; lia.
  - by rewrite He.
  - intros j l e Hj Hl. apply lookup_replicate in Hj as [-> _]. by apply elem_of_nil in Hl.
Qed.

(** One slot replaced, seen from all the entries. *)
Lemma concat_slot {A} (slots : list (list A)) j x :
  slots !! j = Some x → ∃ l1 l2, concat slots = l1 ++ x ++ l2 ∧ ∀ y, concat (<[j:=y]> slots) = l1 ++ y ++ l2.
Proof.
  intros Hj. apply list_elem_of_split_length in Hj as (s1 & s2 & -> & ->).
  exists (concat s1), (concat s2). split; [by rewrite concat_app|]. intros y.
  rewrite insert_app_r_alt by lia. rewrite Nat.sub_diag. by rewrite concat_app.
Qed.

Lemma schedule_ok w id t :
  wheel_ok w → wheel_ok (schedule w id t) ∧ entries (schedule w id t) ≡ₚ mkEntry id (UnixNano t) :: entries w.
Proof.
  intros Hw. pose proof (slots_pos w Hw) as Hl. destruct Hw as [Ht Hs Hc Hz Hp].
  unfold schedule. set (n := UnixNano t). set (k := Z.quot n (whTick w)).
  set (p := if k <? whCursor w then whCursor w else k). set (e := mkEntry id n).
  assert (p = placed w e) as Hpl by (unfold p, placed, k; cbn; destruct (Z.ltb_spec (Z.quot n (whTick w)) (whCursor w)); lia).
  assert (0 ≤ p) as Hp0 by (unfold placed in Hpl; lia).
  pose proof (slotOf_lt w p Hp0 Hl) as Hlt. destruct (lookup_lt_is_Some_2 _ _ Hlt) as [x Hx].
  destruct (concat_slot _ _ _ Hx) as (l1 & l2 & E1 & E2).
  assert (alter (λ l, l ++ [e]) (slotOf w p) (whSlots w) = <[slotOf w p := x ++ [e]]> (whSlots w)) as Ha.
  { apply list_eq. intros i. destruct (decide (i = slotOf w p)) as [->|].
    - rewrite list_lookup_alter_eq, Hx, list_lookup_insert_eq by done. done.
    - by rewrite list_lookup_alter_ne, list_lookup_insert_ne by done. }
  rewrite Ha. assert (l1 ++ (x ++ [e]) ++ l2 ≡ₚ e :: concat (whSlots w)) as Hperm.
  { rewrite E1. rewrite <- app_assoc. cbn. rewrite (app_assoc l1), (app_assoc l1). by rewrite <- Permutation_middle. }
  assert (∀ i, slotOf (mkWheel (whTick w) (<[slotOf w p := x ++ [e]]> (whSlots w)) (whCursor w) (whSize w + 1)) i = slotOf w i) as Hso.
  { intros i. apply slotOf_same. cbn. unfold zlen. by rewrite length_insert. }
  split; [|unfold entries; cbn; by rewrite E2]. split; cbn; try done.
  - intros E. apply (f_equal length) in E. rewrite length_insert in E. cbn in E. lia.
  - unfold entries. cbn. rewrite E2, Hz. unfold entries, zlen. rewrite Hperm. cbn. lia.
  - intros j l e' Hj He'. rewrite Hso. apply list_lookup_insert_Some in Hj as [(Hjp & <- & _)|[_ Hj]]; [|by eapply Hp].
    apply elem_of_snoc in He' as [He'| ->]; [eapply Hp; [by rewrite <- Hjp|done]|].
    rewrite <- Hjp, Hpl. done.
Qed.

(** ** Scanning *)

Lemma filter_split_length {A} (P : A → Prop) `{∀ x, Decision (P x)} l :
  (length (filter P l) + length (filter (λ x, ¬ P x) l) = length l)%nat.
Proof.
  induction l as [|x l IH]; [done|]. rewrite !filter_cons. repeat case_decide; cbn; try done; lia.
Qed.

Definition live (now : Z) (w : wheel) : list wheelEntry := filter (λ e, ¬ due_by now e) (entries w).
Definition expired (now : Z) (w : wheel) : list wheelEntry := filter (due_by now) (entries w).

(** What scanning the slots [js] does: the rest of the wheel is kept, the due
    entries of those slots go. *)
Record scanned (now : Z) (js : list nat) (w w' : wheel) (out : list wheelEntry) : Prop := {
  sc_tick : whTick w' = whTick w;
  sc_len : zlen (whSlots w') = zlen (whSlots w);
  sc_live : live now w' = live now w;
  sc_expired : expired now w ≡ₚ out ++ expired now w';
  sc_size : whSize w' = whSize w - zlen out;
  sc_slot : ∀ j l e, whSlots w' !! j = Some l → e ∈ l →
    ∃ l0, whSlots w !! j = Some l0 ∧ e ∈ l0 ∧ (j ∈ js → ¬ due_by now e)
}.

Lemma scan_scanned w slot now due :
  (slot < length (whSlots w))%nat →
  ∃ out, snd (scan w slot now due) = due ++ map weId out ∧ scanned now [slot] w (fst (scan w slot now due)) out ∧
    whCursor (fst (scan w slot now due)) = whCursor w.
Proof.
  intros Hlt. destruct (lookup_lt_is_Some_2 _ _ Hlt) as [x Hx]. unfold scan.
  rewrite (list_lookup_total_correct _ _ _ Hx). cbn. exists (filter (due_by now) x).
  split; [done|]. split; [|done]. destruct (concat_slot _ _ _ Hx) as (l1 & l2 & E1 & E2).
  split; cbn; try done.
  - unfold zlen. by rewrite length_insert.
  - unfold live, entries. cbn. rewrite E1, E2, !filter_app. f_equal. f_equal.
    apply filter_all. apply Forall_forall. intros e He. by apply list_elem_of_filter in He as [? _].
  - unfold expired, entries. cbn. rewrite E1, E2, !filter_app.
    rewrite (filter_none _ (filter _ x)); [|apply Forall_forall; intros e He; by apply list_elem_of_filter in He as [? _]].
    cbn. rewrite (Permutation_app_comm (filter _ l1)), <- app_assoc. f_equiv. apply Permutation_app_comm.
  - intros j l e Hj He. apply list_lookup_insert_Some in Hj as [(-> & <- & _)|[Hne Hj]].
    + apply list_elem_of_filter in He as [Hd He]. eauto.
    + exists l. split_and!; [done..|]. intros Hin. apply list_elem_of_singleton in Hin. congruence.
Qed.

Lemma scanned_nil now w : scanned now [] w w [].
Proof.
  split; try done; [rewrite zlen_nil; lia|]. intros j l e Hj He. exists l. split_and!; [done..|].
  intros Hin. by apply elem_of_nil in Hin.
Qed.

Lemma scanned_trans now js1 js2 w w1 w2 o1 o2 :
  scanned now js1 w w1 o1 → scanned now js2 w1 w2 o2 → scanned now (js1 ++ js2) w w2 (o1 ++ o2).
Proof.
  intros H1 H2. destruct H1 as [A1 A2 A3 A4 A5 A6], H2 as [B1 B2 B3 B4 B5 B6]. split; try congruence.
  - rewrite A4, B4. by rewrite app_assoc.
  - rewrite zlen_app. lia.
  - intros j l e Hj He. destruct (B6 _ _ _ Hj He) as (l1 & Hj1 & He1 & Hn1).
    destruct (A6 _ _ _ Hj1 He1) as (l0 & Hj0 & He0 & Hn0). exists l0. split_and!; [done..|].
    intros Hin. apply elem_of_app in Hin as [?|?]; auto.
Qed.

Lemma scanned_cursor now js w w' out c :
  scanned now js w w' out → scanned now js w (mkWheel (whTick w') (whSlots w') c (whSize w')) out.
Proof. intros [A1 A2 A3 A4 A5 A6]. split; done. Qed.

Lemma advanceLoop_scanned fuel : ∀ w target nanos due,
  0 ≤ whCursor w ≤ target → target - whCursor w ≤ Z.of_nat fuel → 0 < zlen (whSlots w) →
  ∃ out, snd (advanceLoop fuel w target nanos due) = due ++ map weId out ∧
    whCursor (fst (advanceLoop fuel w target nanos due)) = target ∧
    scanned nanos (map (slotOf w) (seqZ (whCursor w) (target - whCursor w))) w
      (fst (advanceLoop fuel w target nanos due)) out.
Proof.
  induction fuel as [|f IH]; intros w target nanos due Hc Hf Hl; cbn [advanceLoop].
  - exists []. cbn. rewrite app_nil_r. split; [done|]. split; [lia|].
    replace (target - whCursor w) with 0 by lia. apply scanned_nil.
  - destruct (Z.ltb_spec (whCursor w) target) as [Hlt|Hge].
    2:{ exists []. cbn. rewrite app_nil_r. split; [done|]. split; [lia|].
        replace (target - whCursor w) with 0 by lia. apply scanned_nil. }
    destruct (scan_scanned w (slotOf w (whCursor w)) nanos due) as (o1 & Hd1 & Hs1 & Hc1); [apply slotOf_lt; lia|].
    destruct (scan w (slotOf w (whCursor w)) nanos due) as [w1 due1]. cbn [fst snd] in *.
    set (w2 := mkWheel (whTick w1) (whSlots w1) (whCursor w1 + 1) (whSize w1)).
    pose proof (sc_len _ _ _ _ _ Hs1) as Hlen.
    destruct (IH w2 target nanos due1) as (o2 & Hd2 & Hc2 & Hs2); [unfold w2; cbn [whCursor whSlots]; lia..|].
    exists (o1 ++ o2). split; [rewrite Hd2, Hd1, map_app; by rewrite app_assoc|]. split; [done|].
    pose proof (scanned_trans _ _ _ _ _ _ _ _ (scanned_cursor _ _ _ _ _ (whCursor w1 + 1) Hs1) Hs2) as Hs.
    replace (map (slotOf w) (seqZ (whCursor w) (target - whCursor w)))
      with ([slotOf w (whCursor w)] ++ map (slotOf w2) (seqZ (whCursor w2) (target - whCursor w2))); [done|].
    rewrite (seqZ_cons (whCursor w)) by lia. cbn. f_equal. rewrite Hc1.
    replace (Z.pred (target - whCursor w)) with (target - (whCursor w + 1)) by lia.
    apply map_ext. intros i. by apply slotOf_same.
Qed.

(** Every slot that can hold a due entry is scanned. *)
Definition advance_slots (w : wheel) (now : Time) : list nat :=
  let target := Z.quot (UnixNano now) (whTick w) in
  if target <? whCursor w then [slotOf w (whCursor w)]
  else
    let c := if zlen (whSlots w) <=? target - whCursor w then target - zlen (whSlots w) + 1 else whCursor w in
    map (slotOf w) (seqZ c (target - c)) ++ [slotOf w target].

Lemma advance_scanned w now due :
  wheel_ok w → 0 ≤ UnixNano now →
  ∃ out, snd (advance w now due) = due ++ map weId out ∧
    whCursor (fst (advance w now due)) = Z.max (whCursor w) (Z.quot (UnixNano now) (whTick w)) ∧
    scanned (UnixNano now) (advance_slots w now) w (fst (advance w now due)) out.
Proof.
  intros Hw Hn. pose proof (slots_pos w Hw) as Hl. pose proof (wo_cursor w Hw) as Hc0.
  pose proof (Z.quot_pos (UnixNano now) (whTick w) Hn (wo_tick w Hw)) as Ht0.
  unfold advance, advance_slots. set (t := Z.quot (UnixNano now) (whTick w)) in *.
  destruct (Z.ltb_spec t (whCursor w)) as [Hlt|Hge].
  { destruct (scan_scanned w (slotOf w (whCursor w)) (UnixNano now) due) as (out & Hd & Hs & Hc); [apply slotOf_lt; lia|].
    exists out. split; [done|]. split; [lia|done]. }
  set (c := if zlen (whSlots w) <=? t - whCursor w then t - zlen (whSlots w) + 1 else whCursor w).
  assert (0 ≤ c ≤ t ∧ t - c < zlen (whSlots w)) as [Hct Hcl].
  { unfold c. destruct (Z.leb_spec (zlen (whSlots w)) (t - whCursor w)); lia. }
  set (w0 := mkWheel (whTick w) (whSlots w) c (whSize w)).
  replace (if zlen (whSlots w) <=? t - whCursor w then _ else w) with w0
    by (unfold w0, c; destruct (zlen (whSlots w) <=? t - whCursor w); by destruct w).
  destruct (advanceLoop_scanned (length (whSlots w)) w0 t (UnixNano now) due) as (o1 & Hd1 & Hc1 & Hs1);
    [cbn [whCursor w0]; unfold zlen in *; cbn; lia..|].
  cbn [w0 whCursor] in *. destruct (advanceLoop _ w0 t _ due) as [w1 due1]. cbn [fst snd] in *.
  pose proof (sc_len _ _ _ _ _ Hs1) as Hlen. cbn [w0 whSlots] in Hlen.
  destruct (scan_scanned w1 (slotOf w1 t) (UnixNano now) due1) as (o2 & Hd2 & Hs2 & Hc2); [apply slotOf_lt; lia|].
  destruct (scan w1 (slotOf w1 t) (UnixNano now) due1) as [w2 due2]. cbn [fst snd] in *.
  exists (o1 ++ o2). split; [rewrite Hd2, Hd1, map_app; by rewrite app_assoc|]. split; [lia|].
  pose proof (scanned_trans _ _ _ _ _ _ _ _ Hs1 Hs2) as [A1 A2 A3 A4 A5 A6].
  rewrite (slotOf_same w w1 t) in A6 by done.
  split; [exact A1|exact A2|exact A3|exact A4|exact A5|exact A6].
Qed.

Lemma advance_covers w now e j l :
  wheel_ok w → 0 ≤ UnixNano now → whSlots w !! j = Some l → e ∈ l → weAt e ≤ UnixNano now →
  j ∈ advance_slots w now.
Proof.
  intros Hw Hn Hj He Hd. rewrite (wo_placed w Hw j l e Hj He). unfold advance_slots, placed.
  pose proof (slots_pos w Hw) as Hl. pose proof (wo_cursor w Hw) as Hc0. pose proof (wo_tick w Hw) as Ht.
  pose proof (Z.quot_le_mono (weAt e) (UnixNano now) (whTick w) Ht Hd) as Hle.
  set (t := Z.quot (UnixNano now) (whTick w)) in *.
  destruct (Z.ltb_spec t (whCursor w)) as [Hlt|Hge].
  { rewrite Z.max_r by lia. by apply list_elem_of_singleton. }
  set (p := Z.max _ _). assert (whCursor w ≤ p ≤ t) as Hp by lia.
  set (c := if zlen (whSlots w) <=? _ then _ : Z else _ : Z).
  assert (∃ q, c ≤ q ≤ t ∧ 0 ≤ q ∧ slotOf w p = slotOf w q) as (q & Hq & Hq0 & ->).
  { unfold c. destruct (Z.leb_spec (zlen (whSlots w)) (t - whCursor w)) as [Hb|Hb]; [|exists p; repeat split; lia].
    set (n := zlen (whSlots w)) in *. exists (t - n + 1 + (p - (t - n + 1)) mod n).
    pose proof (Z.mod_pos_bound (p - (t - n + 1)) n Hl). split; [lia|]. split; [lia|].
    rewrite !slotOf_mod by lia. fold n. f_equal. rewrite Zplus_mod_idemp_r. f_equal. lia. }
  apply elem_of_app. destruct (decide (q = t)) as [->|Hne]; [right; by apply list_elem_of_singleton|left].
  apply list_elem_of_fmap. exists q. split; [done|]. apply elem_of_seqZ. lia.
Qed.

(** What [advance] does, for any invariant-satisfying wheel. *)
Lemma advance_spec w now due :
  wheel_ok w → 0 ≤ UnixNano now →
  let w' := fst (advance w now due) in
  wheel_ok w' ∧ entries w' = live (UnixNano now) w ∧
  ∃ out, snd (advance w now due) = due ++ map weId out ∧ out ≡ₚ expired (UnixNano now) w.
Proof.
  intros Hw Hn. cbn zeta. destruct (advance_scanned w now due Hw Hn) as (out & Hd & Hc & Hs).
  destruct (advance w now due) as [w' due']. cbn [fst snd] in *.
  assert (∀ j l e, whSlots w' !! j = Some l → e ∈ l → UnixNano now < weAt e) as Hlate.
  { intros j l e Hj He. destruct (sc_slot _ _ _ _ _ Hs j l e Hj He) as (l0 & Hj0 & He0 & Hnd).
    destruct (Z.le_gt_cases (weAt e) (UnixNano now)) as [Hle|]; [|lia]. exfalso.
    apply Hnd; [|done]. by eapply advance_covers. }
  assert (Forall (λ e, ¬ due_by (UnixNano now) e) (entries w')) as Hall.
  { apply Forall_forall. intros e He. unfold entries in He. apply list_elem_of_In, in_concat in He as (l & Hl & He).
    apply list_elem_of_In in Hl, He. apply list_elem_of_lookup in Hl as [j Hj]. unfold due_by.
    pose proof (Hlate j l e Hj He). lia. }
  assert (entries w' = live (UnixNano now) w) as Hlive.
  { rewrite <- (sc_live _ _ _ _ _ Hs). unfold live. by rewrite filter_all. }
  assert (out ≡ₚ expired (UnixNano now) w) as Hout.
  { rewrite (sc_expired _ _ _ _ _ Hs). unfold expired. rewrite filter_none by (eapply Forall_impl; [exact Hall|]; done).
    by rewrite app_nil_r. }
  split; [|by eauto]. pose proof (sc_len _ _ _ _ _ Hs) as Hlen. split.
  - rewrite (sc_tick _ _ _ _ _ Hs). apply Hw.
  - pose proof (slots_pos w Hw). intros E. rewrite E in Hlen. change (zlen []) with 0 in Hlen. lia.
  - pose proof (wo_cursor w Hw). lia.
  - rewrite (sc_size _ _ _ _ _ Hs), (wo_size w Hw), Hlive. unfold zlen. rewrite Hout. unfold live, expired.
    pose proof (filter_split_length (due_by (UnixNano now)) (entries w)). lia.
  - intros j l e Hj He. destruct (sc_slot _ _ _ _ _ Hs j l e Hj He) as (l0 & Hj0 & He0 & _).
    rewrite (wo_placed w Hw j l0 e Hj0 He0), (slotOf_same w' w) by (by symmetry). f_equal.
    unfold placed. rewrite Hc, (sc_tick _ _ _ _ _ Hs).
    pose proof (Hlate j l e Hj He) as Hgt.
    pose proof (Z.quot_le_mono (UnixNano now) (weAt e) (whTick w) (wo_tick w Hw) ltac:(lia)). lia.
Qed.

(** ** Theorems *)

Inductive wheelOp : Type :=
| Schedule (id : bytes) (t : Time)
| Advance (now : Time).

Definition wheelStep (s : wheel * list bytes) (op : wheelOp) : wheel * list bytes :=
  match op with
  | Schedule id t => (schedule (fst s) id t, snd s)
  | Advance now => advance (fst s) now (snd s)
  end.
Definition wheelRun (w : wheel) (ops : list wheelOp) : wheel * list bytes := fold_left wheelStep ops (w, []).

(** The specification: a bag of registrations, the due ones taken out. *)
Definition bagStep (s : list wheelEntry * list bytes) (op : wheelOp) : list wheelEntry * list bytes :=
  match op with
  | Schedule id t => (mkEntry id (UnixNano t) :: fst s, snd s)
  | Advance now =>
      (filter (λ e, ¬ due_by (UnixNano now) e) (fst s), snd s ++ map weId (filter (due_by (UnixNano now)) (fst s)))
  end.
Definition bagRun (ops : list wheelOp) : list wheelEntry * list bytes := fold_left bagStep ops ([], []).

(** The clock is past 1970. *)
Definition clock_ok (op : wheelOp) : Prop :=
  match op with Schedule _ _ => True | Advance now => 0 ≤ UnixNano now end.

Lemma wheelStep_refines w due bag bdue op :
  wheel_ok w → entries w ≡ₚ bag → due ≡ₚ bdue → clock_ok op →
  wheel_ok (fst (wheelStep (w, due) op)) ∧
  entries (fst (wheelStep (w, due) op)) ≡ₚ fst (bagStep (bag, bdue) op) ∧
  snd (wheelStep (w, due) op) ≡ₚ snd (bagStep (bag, bdue) op).
Proof.
  intros Hw He Hd Hop. destruct op as [id t|now]; cbn in *.
  - destruct (schedule_ok w id t Hw) as [? Hp]. split; [done|]. split; [by rewrite Hp, He|done].
  - destruct (advance_spec w now due Hw Hop) as (? & Hl & out & -> & Hout). split; [done|].
    unfold live, expired in *. rewrite Hl, Hout, He, Hd. done.
Qed.

Lemma wheelRun_refines ops : ∀ w due bag bdue,
  wheel_ok w → entries w ≡ₚ bag → due ≡ₚ bdue → Forall clock_ok ops →
  wheel_ok (fst (fold_left wheelStep ops (w, due))) ∧
  entries (fst (fold_left wheelStep ops (w, due))) ≡ₚ fst (fold_left bagStep ops (bag, bdue)) ∧
  snd (fold_left wheelStep ops (w, due)) ≡ₚ snd (fold_left bagStep ops (bag, bdue)).
Proof.
  induction ops as [|op ops IH]; intros w due bag bdue Hw He Hd Hc; [done|].
  apply Forall_cons in Hc as [Hop Hc].
  destruct (wheelStep_refines w due bag bdue op Hw He Hd Hop) as (H1 & H2 & H3). cbn [fold_left].
  destruct (wheelStep (w, due) op), (bagStep (bag, bdue) op). by apply IH.
Qed.

(** C32. No timer is lost, handed out early, handed out twice or delayed by a
    turn of the wheel.  From a new wheel, after any sequence of registrations
    and advances (the wall clock may jump forwards or backwards, past 1970),
    the wheel has handed out and still holds exactly what a plain bag of
    registrations has, and its counter is the number it holds. *)
Theorem wheel_refines_bag tick slots now ops :
  0 ≤ UnixNano now → Forall clock_ok ops →
  let '(w, due) := wheelRun (newWheel tick slots now) ops in
  let '(bag, bdue) := bagRun ops in
  entries w ≡ₚ bag ∧ due ≡ₚ bdue ∧ pending w = zlen bag.
Proof.
  intros Hn Hc. destruct (newWheel_ok tick slots now Hn) as [Hw He].
  destruct (wheelRun_refines ops (newWheel tick slots now) [] [] [] Hw ltac:(by rewrite He) ltac:(done) Hc) as (H1 & H2 & H3).
  unfold wheelRun, bagRun. destruct (fold_left wheelStep _ _) as [w due], (fold_left bagStep _ _) as [bag bdue].
  cbn in *. split_and!; [done..|]. unfold pending. rewrite (wo_size w H1). unfold zlen. by rewrite H2.
Qed.

Definition sample_wheel_ops : list wheelOp :=
  let t ms := unixEpoch + ms * Millisecond in
  [Schedule [1] (t 12); Schedule [2] (t 47); Schedule [3] (t 3); Advance (t 12); Advance (t 5);
   Schedule [4] (t 4); Advance (t 6); Advance (t 60)].

Lemma wheel_refines_bag_witness :
  snd (wheelRun (newWheel (5 * Millisecond) 4 unixEpoch) sample_wheel_ops) = [[3]; [1]; [4]; [2]] ∧
  (let '(w, due) := wheelRun (newWheel (5 * Millisecond) 4 unixEpoch) sample_wheel_ops in
   let '(bag, bdue) := bagRun sample_wheel_ops in
   entries w ≡ₚ bag ∧ due ≡ₚ bdue ∧ pending w = zlen bag).
Proof.
  split; [vm_compute; reflexivity|].
  apply (wheel_refines_bag (5 * Millisecond) 4 unixEpoch sample_wheel_ops);
    [vm_compute; discriminate|].
  unfold sample_wheel_ops. repeat constructor; vm_compute; discriminate.
Defined.
