(* ===== verification/SagaWire.v ===== *)
(** * Partition state and wire format (log_wire.go)

    The state of a saga in its partition, the partition's events and inputs,
    and the checks made on decoded values.  [json.Unmarshal] and
    [json.Marshal] of whole messages are a parameter, the record [Json]:
    reflection over struct tags is not modelled. *)

From Stdlib Require Import String.
From S2P Require Import Prelude Bytes GoStr GoJson SagaRecord SagaKeys SagaTransition SagaLayout.

Definition WireVersion : Z := 3.

(** ** State of a saga *)

Record opTombstone := mkTombstone {
  tbClosure : OperationClosure;
  tbLateAlarms : list Z
}.

Record sagaState := mkState {
  ssRecord : Rec;
  ssOps : gmap bytes opTombstone;
  ssReceipts : gmap bytes bytes
}.

(** [sagaState.validate]: [true] is a nil error. *)
Definition validate (s : sagaState) : bool :=
  Validate (ssRecord s) &&
  bool_decide (map_Forall (λ op tomb,
    bool_decide (is_Some (parseOperationKey (ssRecord s) op)) &&
    ((tbClosure tomb =s OperationClosedWithResult) || (tbClosure tomb =s OperationAbandoned)) = true) (ssOps s)) &&
  bool_decide (map_Forall (λ command digest,
    negb (empty command) && (zlen digest =? 64) = true) (ssReceipts s)).

Definition receiptDigest (c : Completion) : bytes :=
  hex_encode (Sha256.Sum256 (json_object
    [(str "command_id", json_string (coCommandID c));
     (str "idempotency_key", json_string (coIdempotencyKey c));
     (str "saga_id", json_string (coSagaID c));
     (str "success", json_bool (coSuccess c));
     (str "retryable", json_bool (coRetryable c));
     (str "data", json_bytes (coData c));
     (str "error", json_string (coError c))])).

Lemma receiptDigest_len c : zlen (receiptDigest c) = 64.
Proof. unfold receiptDigest. rewrite zlen_hex_encode, Sha256.zlen_Sum256. done. Qed.

(** ** Events *)

Definition eventKindOf (cause : transitionCause) : bytes :=
  match cause with
  | causeDispatch => str "dispatch"
  | causeResult => str "result"
  | causeTimeout => str "timeout"
  | causeDeadline => str "deadline"
  | causeDefinitionMissing => str "definition_missing"
  | causeInvalidStep => str "invalid_step"
  | causeManualCompensate => str "compensate"
  | causeResume => str "resume"
  | causeLateSuccess => str "late_success"
  end.

Definition eventKinds : list bytes :=
  map str ["start"; "dispatch"; "result"; "timeout"; "deadline"; "late_success"; "late_alarm"; "resume";
           "compensate"; "definition_missing"; "invalid_step"]%string.

Record logEvent := mkEvent {
  evV : Z;
  evPart : Z;
  evWriter : bytes;
  evIn : Z;
  evAt : Time;
  evKind : bytes;
  evSaga : sagaState;
  evCommand : option Command
}.

(** ** Inputs *)

Record startInput := mkStartInput {
  siV : Z;
  siRequest : StartRequest;
  siAttempt : bytes;
  siDigest : bytes
}.

Record resultInput := mkResultInput {
  riV : Z;
  riCompletion : Completion
}.

Record opInput := mkOpInput {
  oiV : Z;
  oiKind : bytes;
  oiID : bytes;
  oiResume : option ResumeRequest;
  oiReason : bytes;
  oiNow : Time;
  oiAttempt : bytes
}.

(** ** Snapshots *)

Record snapshotManifest := mkManifest {
  smV : Z;
  smPart : Z;
  smLayout : Layout;
  smLastEv : Z;
  smInHi : Z;
  smWriter : bytes;
  smAt : Time;
  smObject : bytes;
  smSize : Z;
  smSHA256 : bytes
}.

(** JSON of whole messages; [None] is a decoding error. *)
Record Json := mkJson {
  jEvent : logEvent → bytes;
  jParseEvent : bytes → option logEvent;
  jParseStart : bytes → option startInput;
  jParseResult : bytes → option resultInput;
  jParseOp : bytes → option opInput;
  jParseManifest : bytes → option snapshotManifest;
  jParseStates : bytes → option (list sagaState)
}.

Section Wire.
Context (json : Json).

Definition encodeEvent (ev : logEvent) : bytes :=
  jEvent json (mkEvent WireVersion (evPart ev) (evWriter ev) (evIn ev) (evAt ev) (evKind ev) (evSaga ev) (evCommand ev)).

(** The checks of [decodeEvent] on a decoded event. *)
Definition event_ok (layout : Layout) (k : Z) (ev : logEvent) : bool :=
  (evV ev =? WireVersion) &&
  (evPart ev =? k) && bool_decide (evKind ev ∈ eventKinds) && negb (empty (evWriter ev)) &&
  validate (evSaga ev) && (PartitionOf layout (rID (ssRecord (evSaga ev))) =? k) &&
  match evCommand ev with
  | None => true
  | Some c => CommandValidate c && (cSagaID c =s rID (ssRecord (evSaga ev))) && (cPartition c =? k)
  end.

Definition decodeEvent (raw : bytes) (layout : Layout) (k : Z) : result SagaErr logEvent :=
  match jParseEvent json raw with
  | None => Err ErrInvalidRecord
  | Some ev => if event_ok layout k ev then Ok ev else Err ErrInvalidRecord
  end.

Definition decodeStartInput (raw : bytes) : result SagaErr startInput :=
  match jParseStart json raw with
  | None => Err ErrInvalidRecord
  | Some input =>
      if negb (siV input =? WireVersion) || empty (siAttempt input) || (256 <? zlen (siAttempt input)) ||
         negb (zlen (siDigest input) =? 64)
      then Err ErrInvalidRecord else Ok input
  end.

Definition decodeResultInput (raw : bytes) (maxPayload : Z) : result SagaErr Completion :=
  match jParseResult json raw with
  | None => Err ErrInvalidRecord
  | Some input =>
      if negb (riV input =? WireVersion) then Err ErrInvalidRecord
      else if negb (CompletionValidate (riCompletion input)) ||
              (maxPayload <? zlen (data_of (coData (riCompletion input))))
      then Err ErrInvalidRecord else Ok (riCompletion input)
  end.

Definition opResume : bytes := str "resume".
Definition opCompensate : bytes := str "compensate".

Definition decodeOpInput (raw : bytes) : result SagaErr opInput :=
  match jParseOp json raw with
  | None => Err ErrInvalidRecord
  | Some input =>
      let valid :=
        (oiV input =? WireVersion) && negb (empty (oiAttempt input)) && (zlen (oiAttempt input) <=? 256) &&
        validSubjectToken (oiID input) 128 && negb (IsZero (oiNow input)) &&
        (((oiKind input =s opResume) &&
          match oiResume input with Some q => rrID q =s oiID input | None => false end) ||
         ((oiKind input =s opCompensate) &&
          match oiResume input with None => true | Some _ => false end && (zlen (oiReason input) <=? 4096))) in
      if valid then Ok input else Err ErrInvalidRecord
  end.

Definition decodeManifest (raw : bytes) (layout : Layout) (k : Z) : result SagaErr snapshotManifest :=
  match jParseManifest json raw with
  | None => Err ErrSnapshotIncompatible
  | Some m =>
      if negb (smV m =? WireVersion) || negb (smPart m =? k) || negb (smLayout m =s layout) ||
         empty (smObject m) || (smSize m <? 0) || negb (zlen (smSHA256 m) =? 64) || (smLastEv m =? 0)
      then Err ErrSnapshotIncompatible else Ok m
  end.

Definition decodeSnapshotBody (raw : bytes) (m : snapshotManifest) (layout : Layout) (k : Z)
  : result SagaErr (list sagaState) :=
  if negb (zlen raw =? smSize m) || negb (hex_encode (Sha256.Sum256 raw) =s smSHA256 m)
  then Err ErrSnapshotIncompatible
  else
    match jParseStates json raw with
    | None => Err ErrSnapshotIncompatible
    | Some states =>
        if forallb (λ s, validate s && (PartitionOf layout (rID (ssRecord s)) =? k)) states
        then Ok states else Err ErrSnapshotIncompatible
    end.
End Wire.
