(* ===== verification/SagaPartition.v ===== *)
(** * The single-writer loop of a partition (partition.go)

    One round: decide a batch of inputs and the due timers on an overlay of
    the committed states, publish the round's events, install the overlay.
    Metrics, logs and the verdict texts are not modelled; a verdict carries
    the error value instead of its text. *)

From Stdlib Require Import String.
From S2P Require Import Prelude Bytes GoStr GoJson SagaRecord SagaKeys SagaTransition SagaLayout SagaWheel.
From S2P Require Import SagaWire.

(** ** The engine, as far as a partition reads it *)

Record Engine := mkEngine {
  eDefinitions : gmap (bytes * Z) Def;
  eLayout : Layout;
  eWriter : bytes;
  eMaxPayloadBytes : Z;
  eTerminalRetention : Duration;
  eReceiptRetention : Duration;
  eJson : Json
}.

Definition definition (e : Engine) (name : bytes) (version : Z) : option Def := eDefinitions e !! (name, version).

(** [Engine.Register], on a definition whose budgets are resolved. *)
Definition Register (e : Engine) (d : Def) : result SagaErr Engine :=
  _ ← guard_err (negb (DefValidate d)) ErrInvalidDefinition;
  _ ← guard_err (negb (CheckReceiptRetention d (eReceiptRetention e))) ErrInvalidDefinition;
  _ ← guard_err (match definition e (dType d) (dVersion d) with Some _ => true | None => false end) ErrAlreadyExists;
  Ok (mkEngine (<[(dType d, dVersion d) := d]> (eDefinitions e)) (eLayout e) (eWriter e) (eMaxPayloadBytes e)
        (eTerminalRetention e) (eReceiptRetention e) (eJson e)).

(** [receiptsExpired]; a definition that is not registered has no steps. *)
Definition receiptsExpired (e : Engine) (record : Rec) (d : option Def) (now : Time) : bool :=
  let steps := match d with Some d => dSteps d | None => [] end in
  let window := fold_left (λ w s, Z.max w (RetryWindow s)) steps 0 in
  Before (rUpdatedAt record) (now + (i64 (i64 (- eReceiptRetention e) + window))).

(** ** Messages and verdicts *)

Record LogMsg := mkMsg {
  mSeq : Z;
  mSubject : bytes;
  mReply : bytes;
  mData : bytes
}.

Inductive verdictOutcome : Type :=
| vAccepted | vExisting | vIdentityConflict | vRejected | vDefinitionMissing | vNotFound | vInvalid
| vSagaCompleted | vDeadlineExpired | vReceiptsExpired | vUnchanged | vRefused.

Record pendingVerdict := mkVerdict {
  pvReply : bytes;
  pvAttempt : bytes;
  pvOutcome : verdictOutcome;
  pvReason : bytes;
  pvErr : option SagaErr;
  pvId : bytes;
  pvRecord : option Rec
}.

(** ** Counters *)

Inductive Counter : Type :=
| nStarted | nDispatched | nCompleted | nCompensated | nFailed | nManualRequired | nDuplicates
| nLateAfterAbandon | nStaleIncarnation | nStaleAttempt | nReopened | nRejectedInputs
| nAdmissionRejected | nUnknownSaga.

#[export] Instance Counter_eq_dec : EqDecision Counter.
Proof. solve_decision. Defined.

(** [partitionCounts]: one [uint64] per counter. *)
Definition partitionCounts : Type := Counter → Z.
Definition inc (c : Counter) (n : partitionCounts) : partitionCounts :=
  λ d, if decide (d = c) then u64 (n d + 1) else n d.

Definition addTerminal (n : partitionCounts) (s : Status) : partitionCounts :=
  match s with
  | StatusCompleted => inc nCompleted n
  | StatusCompensated => inc nCompensated n
  | StatusFailed => inc nFailed n
  | StatusManualRequired => inc nManualRequired (inc nFailed n)
  | _ => n
  end.

(** ** The partition and a round *)

Record pruneEntry := mkPrune {
  peId : bytes;
  peUpdatedAt : Time
}.

Record partition := mkPartition {
  pK : Z;
  pSagas : gmap bytes sagaState;
  pLastEv : Z;
  pInHi : Z;
  pRound : Z;
  pWheel : wheel;
  pTerminals : list pruneEntry;
  pSinceSnapshot : Z;
  pEvents : Z
}.

Record Round := mkRound {
  rdNow : Time;
  rdMaxIn : Z;
  rdOverlay : gmap bytes sagaState;
  rdTouched : list bytes;
  rdEvents : list logEvent;
  rdEventSubjects : list bytes;
  rdEventAt : gmap bytes nat;
  rdVerdicts : list pendingVerdict;
  rdCounts : partitionCounts
}.

Definition newRound (p : partition) (now : Time) : Round :=
  mkRound now (pInHi p) ∅ [] [] [] ∅ [] (λ _, 0).

Definition setMaxIn (v : Z) (r : Round) : Round :=
  mkRound (rdNow r) v (rdOverlay r) (rdTouched r) (rdEvents r) (rdEventSubjects r) (rdEventAt r) (rdVerdicts r) (rdCounts r).
Definition setCounts (v : partitionCounts) (r : Round) : Round :=
  mkRound (rdNow r) (rdMaxIn r) (rdOverlay r) (rdTouched r) (rdEvents r) (rdEventSubjects r) (rdEventAt r) (rdVerdicts r) v.
Definition count (c : Counter) (r : Round) : Round := setCounts (inc c (rdCounts r)) r.

Definition get (p : partition) (r : Round) (id : bytes) : option sagaState :=
  match rdOverlay r !! id with
  | Some st => Some st
  | None => pSagas p !! id
  end.

Definition put (st : sagaState) (r : Round) : Round :=
  let id := rID (ssRecord st) in
  let touched := match rdOverlay r !! id with Some _ => rdTouched r | None => rdTouched r ++ [id] end in
  mkRound (rdNow r) (rdMaxIn r) (<[id := st]> (rdOverlay r)) touched (rdEvents r) (rdEventSubjects r) (rdEventAt r)
    (rdVerdicts r) (rdCounts r).

(** The state [round.apply] writes. *)
Definition applyState (before : sagaState) (after : Rec) (t : transition) : sagaState :=
  let '(written, closeOperation) := planTransition (ssRecord before) after t in
  let receipts :=
    match tReceipt t with
    | Some c => <[coCommandID c := receiptDigest c]> (ssReceipts before)
    | None => ssReceipts before
    end in
  let ops :=
    if empty closeOperation then ssOps before
    else
      let exists_ := ssOps before !! closeOperation in
      let tomb := default (mkTombstone OperationClosureUnknown []) exists_ in
      let tomb :=
        if (match tReceipt t with Some c => coSuccess c | None => false end)
        then mkTombstone OperationClosedWithResult (tbLateAlarms tomb)
        else match exists_ with
             | None => mkTombstone OperationAbandoned (tbLateAlarms tomb)
             | Some _ => tomb
             end in
      <[closeOperation := tomb]> (ssOps before) in
  mkState written ops receipts.

Definition apply (before : sagaState) (after : Rec) (t : transition) (r : Round) : Round * sagaState :=
  let next := applyState before after t in
  (put next r, next).

(** [emit]: replaces the round's earlier event of the same saga when that one
    carries no command and is not terminal. *)
Definition emit (e : Engine) (p : partition) (st : sagaState) (kind : bytes) (command : option Command) (r : Round) : Round :=
  let subject :=
    match command with
    | Some c => CommandEventSubject (eLayout e) (pK p) (cTopic c)
    | None => if Terminal (rStatus (ssRecord st)) then DoneEventSubject (eLayout e) (pK p)
              else NoneEventSubject (eLayout e) (pK p)
    end in
  let ev := mkEvent 0 (pK p) (eWriter e) 0 (rdNow r) kind st command in
  let id := rID (ssRecord st) in
  let append :=
    mkRound (rdNow r) (rdMaxIn r) (rdOverlay r) (rdTouched r) (rdEvents r ++ [ev]) (rdEventSubjects r ++ [subject])
      (<[id := length (rdEvents r)]> (rdEventAt r)) (rdVerdicts r) (rdCounts r) in
  match rdEventAt r !! id with
  | Some i =>
      match rdEvents r !! i with
      | Some old =>
          if match evCommand old with None => true | Some _ => false end && negb (Terminal (rStatus (ssRecord (evSaga old))))
          then mkRound (rdNow r) (rdMaxIn r) (rdOverlay r) (rdTouched r) (<[i := ev]> (rdEvents r))
                 (<[i := subject]> (rdEventSubjects r)) (rdEventAt r) (rdVerdicts r) (rdCounts r)
          else append
      | None => append
      end
  | None => append
  end.

Definition verdict (v : pendingVerdict) (r : Round) : Round :=
  if empty (pvReply v) then r
  else mkRound (rdNow r) (rdMaxIn r) (rdOverlay r) (rdTouched r) (rdEvents r) (rdEventSubjects r) (rdEventAt r)
         (rdVerdicts r ++ [v]) (rdCounts r).

Definition rejectInput (r : Round) : Round := count nRejectedInputs r.

(** ** The three inputs *)

(** What [start] takes from outside: the lifecycle drawn for a new run
    ([newLifecycle]) and the admission verdict ([None]: no gate). *)
Record StartEnv := mkStartEnv {
  seLifecycle : bytes;
  seAdmit : option (bool * bytes)
}.

Definition start (e : Engine) (p : partition) (env : StartEnv) (msg : LogMsg) (r : Round) : Round :=
  let reply := mReply msg in
  match decodeStartInput (eJson e) (mData msg) with
  | Err err => verdict (mkVerdict reply [] vInvalid [] (Some err) [] None) (rejectInput r)
  | Ok input =>
      match prepareStart (siRequest input) (eMaxPayloadBytes e) with
      | Err err => verdict (mkVerdict reply (siAttempt input) vInvalid [] (Some err) [] None) r
      | Ok request =>
          match definition e (srType request) (srDefinitionVersion request) with
          | None => verdict (mkVerdict reply (siAttempt input) vDefinitionMissing [] None [] None) r
          | Some _ =>
              let id := IDOf (srType request) (srBusinessKey request) in
              let made :=
                match newStartRecord request id (seLifecycle env) (rdNow r) with
                | Ok record => if negb (rStartDigest record =s siDigest input) then Err ErrInvalidRecord else Ok record
                | Err err => Err err
                end in
              match made, negb (PartitionOf (eLayout e) id =? pK p) with
              | Err err, _ => verdict (mkVerdict reply (siAttempt input) vInvalid [] (Some err) [] None) (rejectInput r)
              | Ok _, true => verdict (mkVerdict reply (siAttempt input) vInvalid [] None [] None) (rejectInput r)
              | Ok record, false =>
                  match get p r id with
                  | Some existing =>
                      let outcome := if rStartDigest (ssRecord existing) =s rStartDigest record then vExisting
                                     else vIdentityConflict in
                      verdict (mkVerdict reply (siAttempt input) outcome [] None id None) r
                  | None =>
                      match seAdmit env with
                      | Some (false, reason) =>
                          verdict (mkVerdict reply (siAttempt input) vRejected reason None [] None) (count nAdmissionRejected r)
                      | _ =>
                          let st := mkState (wStartAttempt (siAttempt input) record) ∅ ∅ in
                          let r := emit e p st (str "start") None (put st r) in
                          verdict (mkVerdict reply (siAttempt input) vAccepted [] None id None) (count nStarted r)
                      end
                  end
              end
          end
      end
  end.

(** [receiptSeen]: duplicate, identity conflict. *)
Definition receiptSeen (st : sagaState) (c : Completion) : bool * bool :=
  match ssReceipts st !! coCommandID c with
  | None => (false, false)
  | Some prior => (prior =s receiptDigest c, negb (prior =s receiptDigest c))
  end.

Definition stateHistory (st : sagaState) (c : Completion) : result SagaErr completionHistory :=
  match ssReceipts st !! coCommandID c with
  | Some prior =>
      if negb (prior =s receiptDigest c) then Err ErrIdentityConflict
      else Ok (mkHistory true true OperationClosureUnknown)
  | None =>
      match ssOps st !! coIdempotencyKey c with
      | Some tomb => Ok (mkHistory true false (tbClosure tomb))
      | None => Ok (mkHistory false false OperationClosureUnknown)
      end
  end.

Definition containsIncarnation (l : list Z) (incarnation : Z) : bool := existsb (Z.eqb incarnation) l.

Definition history (e : Engine) (p : partition) (st : sagaState) (c : Completion) (incarnation : Z) (r : Round) : Round :=
  let record := ssRecord st in
  match stateHistory st c with
  | Err _ => rejectInput r
  | Ok h =>
      match judgeHistory record c h with
      | historyNotWaiting => rejectInput r
      | historyLateStep step =>
          let '(r, next) := apply st (lateStepState record c step) (mkTransition causeLateSuccess (Some c)) r in
          let r := count nLateAfterAbandon (emit e p next (str "late_success") None r) in
          if (rStatus record =s StatusFailed) || (rStatus record =s StatusCompensated) then count nReopened r else r
      | historyLateAlarm =>
          match ssOps st !! coIdempotencyKey c with
          | None => count nDuplicates r
          | Some tomb =>
              if containsIncarnation (tbLateAlarms tomb) incarnation then count nDuplicates r
              else
                let tomb := mkTombstone (tbClosure tomb) (tbLateAlarms tomb ++ [incarnation]) in
                let next := mkState record (<[coIdempotencyKey c := tomb]> (ssOps st)) (ssReceipts st) in
                count nLateAfterAbandon (emit e p next (str "late_alarm") None (put next r))
          end
      | historyDuplicate => count nDuplicates r
      end
  end.

(** The part of [round.result] after the completion is decoded and stamped
    with the round's time. *)
Definition resultOf (e : Engine) (p : partition) (c : Completion) (r : Round) : Round :=
  if negb (HasPrefix (coIdempotencyKey c) (coSagaID c ++ [colon])) then rejectInput r
  else
    match get p r (coSagaID c) with
    | None => count nUnknownSaga r
    | Some st =>
        let record := ssRecord st in
        if negb (HasPrefix (coIdempotencyKey c) (coSagaID c ++ [colon] ++ rLifecycle record ++ [colon]))
        then count nUnknownSaga r
        else
          let incarnation := commandIDIncarnation (coIdempotencyKey c) (coCommandID c) in
          match judgeCompletion record c incarnation with
          | verdictStaleIncarnation => count nStaleIncarnation r
          | verdictStaleAttempt => count nStaleAttempt r
          | verdictHistory => history e p st c incarnation r
          | verdictAccept =>
              match definition e (rType record) (rDefinitionVersion record) with
              | None => rejectInput r
              | Some d =>
                  let '(duplicate, conflict) := receiptSeen st c in
                  if duplicate || conflict then
                    if conflict then rejectInput r else count nDuplicates r
                  else
                    let after := applyCompletion record d c in
                    let '(r, next) := apply st after (mkTransition causeResult (Some c)) r in
                    let r := emit e p next (str "result") None r in
                    setCounts (addTerminal (rdCounts r) (rStatus (ssRecord next))) r
              end
          end
    end.

Definition result_ (e : Engine) (p : partition) (msg : LogMsg) (r : Round) : Round :=
  match decodeResultInput (eJson e) (mData msg) (eMaxPayloadBytes e) with
  | Err _ => rejectInput r
  | Ok c =>
      resultOf e p (mkCompletion (coCommandID c) (coIdempotencyKey c) (coSagaID c) (coSuccess c) (coRetryable c)
        (coData c) (coError c) (rdNow r)) r
  end.

Definition reopenedByOperator (before : Rec) (r : Round) : Round :=
  if rLateStep before =? 0 then r else count nReopened r.

Definition refuseOutcome (err : SagaErr) : verdictOutcome :=
  match err with
  | ErrDeadlineExpired => vDeadlineExpired
  | ErrDefinitionMissing => vDefinitionMissing
  | ErrReceiptsExpired => vReceiptsExpired
  | ErrInvalidRecord => vInvalid
  | _ => vRefused
  end.

Definition operation (e : Engine) (p : partition) (msg : LogMsg) (r : Round) : Round :=
  let reply := mReply msg in
  match decodeOpInput (eJson e) (mData msg) with
  | Err err => verdict (mkVerdict reply [] vInvalid [] (Some err) [] None) (rejectInput r)
  | Ok input =>
      match get p r (oiID input) with
      | None => verdict (mkVerdict reply (oiAttempt input) vNotFound [] None [] None) r
      | Some st =>
          let record := ssRecord st in
          let d := definition e (rType record) (rDefinitionVersion record) in
          let refuse err := verdict (mkVerdict reply (oiAttempt input) (refuseOutcome err) [] (Some err) [] None) r in
          let accepted r := verdict (mkVerdict reply (oiAttempt input) vAccepted [] None (oiID input) None) r in
          if oiKind input =s opResume then
            match oiResume input with
            | None => accepted r (* excluded by [decodeOpInput] *)
            | Some q =>
                match prepareResume q (oiNow input) with
                | Err err => refuse err
                | Ok (request, deadline) =>
                    match planResume record (bool_decide (is_Some d)) request deadline with
                    | Err err => refuse err
                    | Ok after =>
                        if receiptsExpired e record d (rdNow r) then refuse ErrReceiptsExpired
                        else
                          let '(r, next) := apply st after (mkTransition causeResume None) r in
                          accepted (reopenedByOperator record (emit e p next (str "resume") None r))
                    end
                end
            end
          else if oiKind input =s opCompensate then
            match planCompensate record (oiReason input) (oiNow input) with
            | CompensateAnswer after None =>
                verdict (mkVerdict reply (oiAttempt input) vUnchanged [] None [] (Some after)) r
            | CompensateAnswer after (Some _) =>
                verdict (mkVerdict reply (oiAttempt input) vSagaCompleted [] None [] (Some after)) r
            | CompensateRefuse err => refuse err
            | CompensateWrite after =>
                if (rPhase record =s PhaseCompensate) && receiptsExpired e record d (rdNow r)
                then refuse ErrReceiptsExpired
                else
                  let '(r, next) := apply st after (mkTransition causeManualCompensate None) r in
                  accepted (reopenedByOperator record (emit e p next (str "compensate") None r))
            end
          else accepted r
      end
  end.

(** ** Timers *)

Definition due (e : Engine) (p : partition) (st : sagaState) (r : Round) : Round :=
  let d := definition e (rType (ssRecord st)) (rDefinitionVersion (ssRecord st)) in
  let plan := planDue (ssRecord st) d (rdNow r) in
  let '(r, next) := apply st (dpAfter plan) (mkTransition (dpCause plan) None) r in
  let command :=
    match dpCommand plan with
    | Some c => Some (mkCommand (cID c) (cIdempotencyKey c) (cSagaID c) (cSagaType c) (cDefinitionVersion c)
        (cBusinessKey c) (cStep c) (cStepName c) (cPhase c) (cAttempt c) (cTopic c) (cPayload c) (cDeadlineAt c)
        (cCreatedAt c) (u16 (pK p)))
    | None => None
    end in
  let r := emit e p next (eventKindOf (dpCause plan)) command r in
  match dpCause plan with
  | causeDispatch => count nDispatched r
  | causeInvalidStep => count nManualRequired (count nFailed r)
  | _ => setCounts (addTerminal (rdCounts r) (rStatus (ssRecord next))) r
  end.

(** A timer entry still says the truth about its saga. *)
Definition dueNow (st : sagaState) (now : Time) : bool :=
  negb (Terminal (rStatus (ssRecord st))) && (UnixNano (rNextRunAt (ssRecord st)) <=? UnixNano now).

Fixpoint dueLoop (e : Engine) (p : partition) (ids seen : list bytes) (r : Round) : Round :=
  match ids with
  | [] => r
  | id :: ids' =>
      if bool_decide (id ∈ seen) then dueLoop e p ids' seen r
      else
        let r := match get p r id with
                 | Some st => if dueNow st (rdNow r) then due e p st r else r
                 | None => r
                 end in
        dueLoop e p ids' (id :: seen) r
  end.

(** ** A round *)

(** One input; [env] is read at its sequence number. *)
Definition input (e : Engine) (p : partition) (env : Z → StartEnv) (r : Round) (msg : LogMsg) : Round :=
  if mSeq msg <=? pInHi p then r
  else
    let r := setMaxIn (Z.max (rdMaxIn r) (mSeq msg)) r in
    let kind := inputKindOf (eLayout e) (pK p) (mSubject msg) in
    if kind =s str "start" then start e p (env (mSeq msg)) msg r
    else if kind =s str "res" then result_ e p msg r
    else if kind =s str "op" then operation e p msg r
    else rejectInput r.

Definition setWheel (w : wheel) (p : partition) : partition :=
  mkPartition (pK p) (pSagas p) (pLastEv p) (pInHi p) (pRound p) w (pTerminals p) (pSinceSnapshot p) (pEvents p).

Definition decide_ (e : Engine) (p : partition) (env : Z → StartEnv) (batch : list LogMsg) (now : Time) : partition * Round :=
  let r := fold_left (input e p env) batch (newRound p now) in
  let '(w, ids) := advance (pWheel p) now [] in
  (setWheel w p, dueLoop e p (ids ++ rdTouched r) [] r).

(** ** Commit *)

Definition LogBatchMaxMessages : nat := 1000.

Record outMsg := mkOut {
  omSubject : bytes;
  omData : bytes;
  omMsgID : bytes
}.

(** The messages of one chunk; [i] is the index of its first event. *)
Fixpoint chunkMsgs (e : Engine) (base : bytes) (inHi : Z) (i : nat) (events : list (logEvent * bytes)) : list outMsg :=
  match events with
  | [] => []
  | (ev, subject) :: events' =>
      let ev := mkEvent (evV ev) (evPart ev) (evWriter ev) inHi (evAt ev) (evKind ev) (evSaga ev) (evCommand ev) in
      mkOut subject (encodeEvent (eJson e) ev) (base ++ str "." ++ Itoa (Z.of_nat i)) ::
      chunkMsgs e base inHi (S i) events'
  end.

(** The chunks [publish] sends, in order, each in one fenced publication; the
    last one carries the round's input watermark. *)
Fixpoint publishChunks (fuel : nat) (e : Engine) (base : bytes) (inHi maxIn : Z) (i : nat)
    (events : list (logEvent * bytes)) : list (list outMsg) :=
  match fuel with
  | O => []
  | S f =>
      match events with
      | [] => []
      | _ =>
          let here := take LogBatchMaxMessages events in
          let rest := drop LogBatchMaxMessages events in
          let hi := match rest with [] => maxIn | _ => inHi end in
          chunkMsgs e base hi i here :: publishChunks f e base inHi maxIn (i + length here) rest
      end
  end.

Definition publish (e : Engine) (p : partition) (r : Round) : partition * list (list outMsg) :=
  let round := u64 (pRound p + 1) in
  let p := mkPartition (pK p) (pSagas p) (pLastEv p) (pInHi p) round (pWheel p) (pTerminals p) (pSinceSnapshot p) (pEvents p) in
  let base := eWriter e ++ str "." ++ Itoa (pK p) ++ str "." ++ Itoa (pLastEv p) ++ str "." ++ Itoa round in
  (p, publishChunks (length (rdEvents r)) e base (pInHi p) (rdMaxIn r) 0 (combine (rdEvents r) (rdEventSubjects r))).

(** One touched saga, committed. *)
Definition installOne (r : Round) (p : partition) (id : bytes) : partition :=
  match rdOverlay r !! id with
  | None => p (* every touched id is in the overlay *)
  | Some st =>
      let record := ssRecord st in
      let sagas := <[id := st]> (pSagas p) in
      let w := if negb (Terminal (rStatus record)) then schedule (pWheel p) id (rNextRunAt record) else pWheel p in
      let terminals :=
        if negb (Terminal (rStatus record)) || (rStatus record =s StatusManualRequired) then pTerminals p
        else pTerminals p ++ [mkPrune id (rUpdatedAt record)] in
      mkPartition (pK p) sagas (pLastEv p) (pInHi p) (pRound p) w terminals (pSinceSnapshot p) (pEvents p)
  end.

Definition install (r : Round) (lastEv : Z) (p : partition) : partition :=
  let p :=
    match rdEvents r with
    | [] => p
    | _ =>
        let p := mkPartition (pK p) (pSagas p) lastEv (pInHi p) (pRound p) (pWheel p) (pTerminals p) (pSinceSnapshot p) (pEvents p) in
        let p := fold_left (installOne r) (rdTouched r) p in
        mkPartition (pK p) (pSagas p) (pLastEv p) (pInHi p) (pRound p) (pWheel p) (pTerminals p)
          (pSinceSnapshot p + zlen (rdEvents r)) (u64 (pEvents p + zlen (rdEvents r)))
    end in
  mkPartition (pK p) (pSagas p) (pLastEv p) (rdMaxIn r) (pRound p) (pWheel p) (pTerminals p) (pSinceSnapshot p) (pEvents p).

(** [partition.commit] of a round whose publication succeeds with [lastEv] as
    the sequence of its last event; the published messages are returned. *)
Definition commit (e : Engine) (p : partition) (r : Round) (lastEv : Z) : partition * list outMsg :=
  match rdEvents r with
  | [] => (install r (pLastEv p) p, [])
  | _ => let '(p, chunks) := publish e p r in (install r lastEv p, concat chunks)
  end.

(** ** Pruning *)

Definition pruneBatch : nat := 1024.

Definition prunable (s : Status) : bool :=
  (s =s StatusCompleted) || (s =s StatusCompensated) || (s =s StatusFailed).

Fixpoint pruneLoop (fuel : nat) (cutoff : Time) (p : partition) : partition :=
  match fuel, pTerminals p with
  | S f, head :: rest =>
      if negb (Before (peUpdatedAt head) cutoff) then p
      else
        let drop_ :=
          match pSagas p !! peId head with
          | Some st => (rUpdatedAt (ssRecord st) =? peUpdatedAt head) && prunable (rStatus (ssRecord st))
          | None => false
          end in
        let sagas := if drop_ then delete (peId head) (pSagas p) else pSagas p in
        pruneLoop f cutoff (mkPartition (pK p) sagas (pLastEv p) (pInHi p) (pRound p) (pWheel p) rest (pSinceSnapshot p) (pEvents p))
  | _, _ => p
  end.

Definition prune (e : Engine) (now : Time) (p : partition) : partition :=
  pruneLoop pruneBatch (now - eTerminalRetention e) p.

(** ** Queries *)

Definition query_match (q : Query) (r : Rec) : bool :=
  (empty (qType q) || (rType r =s qType q)) &&
  ((qDefinitionVersion q =? 0) || (rDefinitionVersion r =? qDefinitionVersion q)) &&
  (match qStatuses q with [] => true | l => existsb (λ s, s =s rStatus r) l end) &&
  (IsZero (qUpdatedBefore q) || Before (rUpdatedAt r) (qUpdatedBefore q)).

(** The order of [compareRecords]: update time, then id. *)
Definition record_le (a b : Rec) : Prop :=
  rUpdatedAt a < rUpdatedAt b ∨ (rUpdatedAt a = rUpdatedAt b ∧ str_lt (rID b) (rID a) = false).
#[export] Instance record_le_dec a b : Decision (record_le a b).
Proof. unfold record_le. apply _. Defined.

Definition listRecords (sagas : gmap bytes sagaState) (q : Query) : list Rec :=
  let out := filter (λ r, query_match q r = true) (map (λ s, ssRecord (snd s)) (map_to_list sagas)) in
  ztake (qLimit q) (merge_sort record_le out).
