(* ===== verification/SagaStateInv.v ===== *)
(** * The invariant of a saga's state, and its preservation

    A state holds a record, the tombstones of closed operations and the
    receipts.  The invariant accounts for every forward step whose success
    was accepted: it is still to be compensated, or its compensation was
    accepted, never both and never neither.  The transitions preserve it. *)

From Stdlib Require Import String.
From S2P Require Import Prelude Bytes GoStr GoJson SagaRecord SagaKeys SagaTransition SagaRecordInv.
From S2P Require Import SagaTransitionInv SagaLayout SagaWire SagaPartition.

(** ** Closed operations *)

Definition opKey (r : Rec) (phase : Phase) (s : Z) : bytes := operationKey (rID r) (rLifecycle r) phase s.
Definition step_range (s : Z) : Prop := 0 ≤ s ≤ 255.

Definition closure (st : sagaState) (phase : Phase) (s : Z) : option OperationClosure :=
  tbClosure <$> ssOps st !! opKey (ssRecord st) phase s.

(** A success of the forward step, of its compensation, was accepted. *)
Definition effective (st : sagaState) (s : Z) : Prop := closure st PhaseForward s = Some OperationClosedWithResult.
Definition compensated (st : sagaState) (s : Z) : Prop := closure st PhaseCompensate s = Some OperationClosedWithResult.
(** The forward step was given up, no success of it was accepted. *)
Definition abandoned (st : sagaState) (s : Z) : Prop := closure st PhaseForward s = Some OperationAbandoned.

(** The steps a compensation of the record would still undo. *)
Definition remaining (r : Rec) (s : Z) : Prop := 0 ≤ s < rCompletedSteps r ∨ (0 < rLateStep r ∧ s = rLateStep r - 1).

#[export] Instance remaining_dec r s : Decision (remaining r s).
Proof. unfold remaining. apply _. Defined.

Record effects_ok (st : sagaState) : Prop := {
  eo_remaining : ∀ s, remaining (ssRecord st) s → effective st s;
  eo_compensated : ∀ s, step_range s → compensated st s → effective st s ∧ ¬ remaining (ssRecord st) s;
  eo_effective : ∀ s, step_range s → effective st s → remaining (ssRecord st) s ∨ compensated st s;
  eo_forward : rPhase (ssRecord st) = PhaseForward → ∀ s, step_range s → ¬ compensated st s;
  eo_abandoned : ∀ s, step_range s → abandoned st s → rCompletedSteps (ssRecord st) ≤ s ∧ rLateStep (ssRecord st) = 0;
  eo_abandoned_at : rPhase (ssRecord st) = PhaseForward → ∀ s, step_range s → abandoned st s → s = rStep (ssRecord st);
  eo_abandoned_one : ∀ s s', step_range s → step_range s' → abandoned st s → abandoned st s' → s = s'
}.

(** Every tombstone is an operation of this run, closed one way or the
    other; every receipt is a digest. *)
Definition ops_ok (st : sagaState) : Prop :=
  map_Forall (λ op tomb, ∃ phase s, op = opKey (ssRecord st) phase s ∧ real_phase phase ∧ step_range s ∧
    (tbClosure tomb = OperationClosedWithResult ∨ tbClosure tomb = OperationAbandoned)) (ssOps st).
Definition receipts_ok (st : sagaState) : Prop :=
  map_Forall (λ command digest, command ≠ [] ∧ zlen digest = 64) (ssReceipts st).

Record st_inv (st : sagaState) : Prop := {
  si_rec : rec_inv (ssRecord st);
  si_ops : ops_ok st;
  si_receipts : receipts_ok st;
  si_effects : effects_ok st
}.

(** ** Facts *)

Lemma opKey_inj r p s p' s' :
  real_phase p → real_phase p' → step_range s → step_range s' → opKey r p s = opKey r p' s' → p = p' ∧ s = s'.
Proof. unfold step_range. intros ???? E. apply operationKey_own in E; try done; lia. Qed.

Lemma opKey_same r r' p s : same_run r r' → opKey r' p s = opKey r p s.
Proof. intros (E1 & E2 & _). unfold opKey. by rewrite E1, E2. Qed.

Lemma forward_real : real_phase PhaseForward.
Proof. by left. Qed.
Lemma compensate_real : real_phase PhaseCompensate.
Proof. by right. Qed.
#[export] Hint Resolve forward_real compensate_real : go_int.

(** Every state of the invariant passes [sagaState.validate]. *)
Lemma st_inv_valid st : st_inv st → validate st = true.
Proof.
  intros [Hr Ho Hrc He]. unfold validate. rewrite rec_inv_valid by done. cbn [andb].
  apply andb_true_iff; split; apply bool_decide_eq_true; intros k x Hx.
  - destruct (Ho k x Hx) as (p & s & -> & Hp & Hs & Hc). unfold opKey. rewrite parse_own by (done || (unfold step_range in Hs; lia)).
    rewrite bool_decide_true by by eexists. cbn [andb]. to_prop. tauto.
  - destruct (Hrc k x Hx) as [Hk Hl]. rewrite empty_false by done. cbn [negb andb]. by rewrite Hl.
Qed.

(** The open operation of a record is the one it is positioned at. *)
Lemma openOperation_current r :
  shape r → openOperation r = [] ∨ (openOperation r = currentOperation r ∧ positioned r).
Proof.
  intros Hs. pose proof (shape_positioned r Hs) as Hp. unfold openOperation, shape in *.
  destruct (rStatus r); try (by left); cbn in Hp.
  - case_match; [right; auto|by left].
  - right. destruct Hs as (_ & [-> _] & _). auto.
  - case_match; [right; auto|by left].
Qed.

Lemma currentOperation_opKey r : currentOperation r = opKey r (rPhase r) (rStep r).
Proof. done. Qed.

Lemma positioned_real r : positioned r → real_phase (rPhase r).
Proof. intros [[[-> _] _]|[-> _]]; auto with go_int. Qed.

(** ** What [applyState] does to the tombstones *)

Lemma applyState_record before after t : ssRecord (applyState before after t) = fst (planTransition (ssRecord before) after t).
Proof. unfold applyState. by destruct (planTransition _ _ _). Qed.

(** No success accepted: at most the open operation is abandoned. *)
Lemma applyState_ops_fail before after t :
  (match tReceipt t with Some c => coSuccess c | None => false end) = false → shape (ssRecord before) →
  ∀ op, ssOps (applyState before after t) !! op = ssOps before !! op ∨
    (op = currentOperation (ssRecord before) ∧ positioned (ssRecord before) ∧ ssOps before !! op = None ∧
     ssOps (applyState before after t) !! op = Some (mkTombstone OperationAbandoned [])).
Proof.
  intros Hs Hshape op. unfold applyState. destruct (planTransition _ _ _) as [w close] eqn:E. rewrite Hs. cbn [ssOps].
  assert (close = [] ∨ (close = currentOperation (ssRecord before) ∧ positioned (ssRecord before))) as Hclose.
  { unfold planTransition in E. injection E as _ <-.
    destruct (openOperation_current _ Hshape) as [Ho|[Ho Hp]]; rewrite Ho.
    - left. destruct (tReceipt t) as [c|]; [rewrite Hs|]; done.
    - destruct (tReceipt t) as [c|]; [rewrite Hs|]; case_match; auto. }
  destruct Hclose as [->|[-> Hp]]; [by left|].
  rewrite (empty_false (currentOperation _)) by apply currentOperation_nonempty.
  destruct (decide (op = currentOperation (ssRecord before))) as [->|Hne].
  2:{ left. by rewrite lookup_insert_ne. }
  rewrite lookup_insert_eq. destruct (ssOps before !! currentOperation (ssRecord before)) as [tomb|]; [by left|].
  right. by split_and!.
Qed.

(** A success accepted: its operation is closed with a result. *)
Lemma applyState_ops_success before after t c :
  tReceipt t = Some c → coSuccess c = true → coIdempotencyKey c ≠ [] →
  ∀ op, tbClosure <$> ssOps (applyState before after t) !! op =
    (if decide (op = coIdempotencyKey c) then Some OperationClosedWithResult else tbClosure <$> ssOps before !! op).
Proof.
  intros Ht Hs Hne op. unfold applyState, planTransition. rewrite Ht, Hs. cbn [ssOps].
  rewrite empty_false by done. destruct (decide (op = coIdempotencyKey c)) as [->|Hop]; [by rewrite lookup_insert_eq|].
  by rewrite lookup_insert_ne.
Qed.

Lemma applyState_receipts before after t :
  ssReceipts (applyState before after t) =
  match tReceipt t with Some c => <[coCommandID c := receiptDigest c]> (ssReceipts before) | None => ssReceipts before end.
Proof. unfold applyState. by destruct (planTransition _ _ _). Qed.

Lemma receipts_ok_apply before after t :
  receipts_ok before → (∀ c, tReceipt t = Some c → coCommandID c ≠ []) → receipts_ok (applyState before after t).
Proof.
  intros Hr Hc. unfold receipts_ok. rewrite applyState_receipts. destruct (tReceipt t) as [c|]; [|done].
  apply map_Forall_insert_2; [|done]. split; [by apply Hc|apply receiptDigest_len].
Qed.

Lemma written_fields before after t :
  let w := fst (planTransition before after t) in
  rStatus w = rStatus after ∧ rPhase w = rPhase after ∧ rStep w = rStep after ∧
  rCompletedSteps w = rCompletedSteps after ∧ rLateStep w = rLateStep after ∧ rVersion w = rVersion after ∧
  (same_run before after → same_run before w).
Proof. cbn zeta. rewrite planTransition_record. by case_match. Qed.

(** ** How the closures of a transition relate *)

Definition closure_step (st st' : sagaState) (p : Phase) (s : Z) (c : OperationClosure) : Prop :=
  ∀ p' s', real_phase p' → step_range s' →
    closure st' p' s' = (if decide (p' = p ∧ s' = s) then Some c else closure st p' s').

(** Nothing accepted: at most the current operation becomes abandoned. *)
Definition closure_fail (st st' : sagaState) : Prop :=
  let r := ssRecord st in
  ∀ p s, real_phase p → step_range s → closure st' p s = closure st p s ∨
    (p = rPhase r ∧ s = rStep r ∧ positioned r ∧ closure st p s = None ∧ closure st' p s = Some OperationAbandoned).

(** The closed operation itself, or another one. *)
Ltac close_step :=
  let Hd := fresh in case_decide as Hd;
  [destruct Hd as [_ ->]; split; [by right|done]
  |split; [by left|intros [?| ->]; [done|by destruct Hd]]].

Lemma remaining_range r s : base_inv r → remaining r s → step_range s.
Proof.
  intros Hb Hr. pose proof (bi_done r Hb). pose proof (bi_late r Hb) as Hl. unfold late_ok in Hl.
  unfold remaining, step_range in *. lia.
Qed.

Lemma positioned_remaining r s :
  base_inv r → positioned r → rPhase r = PhaseCompensate → s = rStep r → remaining r s.
Proof.
  intros Hb [[[Hp _] _]|[_ Hp]] Hc ->; [congruence|]. pose proof (bi_done r Hb). unfold remaining. lia.
Qed.

Lemma effects_fail st st' :
  st_inv st → closure_fail st st' →
  rCompletedSteps (ssRecord st') = rCompletedSteps (ssRecord st) → rLateStep (ssRecord st') = rLateStep (ssRecord st) →
  (rPhase (ssRecord st') = PhaseForward → rPhase (ssRecord st) = PhaseForward ∧ rStep (ssRecord st') = rStep (ssRecord st)) →
  effects_ok st'.
Proof.
  intros [[Hb Hshape] Ho Hrc [E1 E2 E3 E4 E5 E6 E7]] Hcl HC HL HP.
  assert (∀ s, remaining (ssRecord st') s ↔ remaining (ssRecord st) s) as Hrem by (intros s; unfold remaining; by rewrite HC, HL).
  assert (∀ s, step_range s → effective st' s ↔ effective st s) as Heff.
  { intros s Hs. unfold effective. destruct (Hcl PhaseForward s ltac:(auto with go_int) Hs) as [->|(_ & _ & _ & -> & ->)]; done. }
  assert (∀ s, step_range s → compensated st' s ↔ compensated st s) as Hcomp.
  { intros s Hs. unfold compensated. destruct (Hcl PhaseCompensate s ltac:(auto with go_int) Hs) as [->|(_ & _ & _ & -> & ->)]; done. }
  assert (∀ s, step_range s → abandoned st' s → abandoned st s ∨ (rPhase (ssRecord st) = PhaseForward ∧ s = rStep (ssRecord st) ∧ positioned (ssRecord st))) as Hab.
  { intros s Hs. unfold abandoned. destruct (Hcl PhaseForward s ltac:(auto with go_int) Hs) as [->|(H1 & -> & H2 & _)]; auto. }
  split.
  - intros s Hs. apply Hrem in Hs. apply Heff; [by eapply remaining_range|auto].
  - intros s Hs. rewrite Hrem, Hcomp, Heff by done. auto.
  - intros s Hs. rewrite Hrem, Hcomp, Heff by done. auto.
  - intros Hp s Hs. rewrite Hcomp by done. apply E4; [by apply HP|done].
  - intros s Hs Ha. rewrite HC, HL. destruct (Hab s Hs Ha) as [?|(Hp & -> & [[Hf Hl]|[Hc _]])]; [auto| |congruence].
    unfold at_forward in Hf. split; [lia|done].
  - intros Hp s Hs Ha. destruct (HP Hp) as [Hp0 ->]. destruct (Hab s Hs Ha) as [?|(_ & -> & _)]; auto.
  - intros s s' Hs Hs' Ha Ha'. destruct (Hab s Hs Ha) as [Hx|(Hp & -> & _)], (Hab s' Hs' Ha') as [Hy|(Hp' & -> & _)]; auto.
    symmetry. auto.
Qed.

(** A forward success accepted. *)
Lemma effects_forward st st' :
  st_inv st → positioned (ssRecord st) → rPhase (ssRecord st) = PhaseForward →
  closure_step st st' PhaseForward (rStep (ssRecord st)) OperationClosedWithResult →
  rCompletedSteps (ssRecord st') = rStep (ssRecord st) + 1 → rLateStep (ssRecord st') = 0 →
  effects_ok st'.
Proof.
  intros [[Hb Hshape] Ho Hrc [E1 E2 E3 E4 E5 E6 E7]] [[[_ [Hst H255]] Hl]|[? _]] Hp Hcl HC HL; [|congruence].
  set (k := rStep (ssRecord st)) in *. pose proof (bi_done _ Hb) as Hd.
  assert (∀ s, remaining (ssRecord st') s ↔ remaining (ssRecord st) s ∨ s = k) as Hrem.
  { intros s. unfold remaining. rewrite HC, HL, Hl. lia. }
  assert (∀ s, step_range s → effective st' s ↔ effective st s ∨ s = k) as Heff.
  { intros s Hs. unfold effective. rewrite Hcl by auto with go_int. close_step. }
  assert (∀ s, step_range s → compensated st' s ↔ compensated st s) as Hcomp.
  { intros s Hs. unfold compensated. rewrite Hcl by auto with go_int. by rewrite decide_False by (intros [? _]; done). }
  assert (∀ s, step_range s → ¬ abandoned st' s) as Hab.
  { intros s Hs. unfold abandoned. rewrite Hcl by auto with go_int. case_decide as Hk; [done|].
    intros Ha. apply Hk. split; [done|]. by apply E6. }
  assert (step_range k) as Hk by (unfold step_range; lia).
  split.
  - intros s Hs. apply Hrem in Hs as [Hs| ->]; apply Heff; auto. by eapply remaining_range.
  - intros s Hs Hc. exfalso. apply Hcomp in Hc; [|done]. by eapply E4.
  - intros s Hs. rewrite Hrem, Hcomp, Heff by done. intros [He| ->]; [|auto]. destruct (E3 s Hs He); auto.
  - intros _ s Hs. rewrite Hcomp by done. auto.
  - intros s Hs Ha. by destruct (Hab s Hs).
  - intros _ s Hs Ha. by destruct (Hab s Hs).
  - intros s s' Hs _ Ha. by destruct (Hab s Hs).
Qed.

(** A compensation accepted: its step is no longer to be compensated. *)
Lemma effects_compensate st st' :
  st_inv st → positioned (ssRecord st) → rPhase (ssRecord st) = PhaseCompensate →
  closure_step st st' PhaseCompensate (rStep (ssRecord st)) OperationClosedWithResult →
  rPhase (ssRecord st') = PhaseCompensate → rCompletedSteps (ssRecord st') ≤ rCompletedSteps (ssRecord st) →
  rLateStep (ssRecord st') = rLateStep (ssRecord st) ∨ rLateStep (ssRecord st') = 0 →
  (∀ s, remaining (ssRecord st') s ↔ remaining (ssRecord st) s ∧ s ≠ rStep (ssRecord st)) →
  effects_ok st'.
Proof.
  intros [[Hb Hshape] Ho Hrc [E1 E2 E3 E4 E5 E6 E7]] Hpos Hp Hcl HP HC HL Hrem.
  pose proof (positioned_remaining _ _ Hb Hpos Hp eq_refl) as Hk. pose proof (remaining_range _ _ Hb Hk) as Hkr.
  set (k := rStep (ssRecord st)) in *.
  assert (∀ s, step_range s → effective st' s ↔ effective st s) as Heff.
  { intros s Hs. unfold effective. rewrite Hcl by auto with go_int. by rewrite decide_False by (intros [? _]; done). }
  assert (∀ s, step_range s → compensated st' s ↔ compensated st s ∨ s = k) as Hcomp.
  { intros s Hs. unfold compensated. rewrite Hcl by auto with go_int. close_step. }
  assert (∀ s, step_range s → abandoned st' s ↔ abandoned st s) as Hab.
  { intros s Hs. unfold abandoned. rewrite Hcl by auto with go_int. by rewrite decide_False by (intros [? _]; done). }
  split.
  - intros s Hs. apply Hrem in Hs as [Hs _]. apply Heff; [by eapply remaining_range|auto].
  - intros s Hs Hc. rewrite Heff, Hrem by done. apply Hcomp in Hc as [Hc| ->]; [| |done]; [|by split; [auto|tauto]].
    destruct (E2 s Hs Hc). tauto.
  - intros s Hs He. apply Heff in He; [|done]. rewrite Hrem, Hcomp by done. destruct (decide (s = k)); [tauto|].
    destruct (E3 s Hs He); tauto.
  - intros Hf. congruence.
  - intros s Hs Ha. apply Hab in Ha; [|done]. destruct (E5 s Hs Ha) as [? Hl0]. split; [lia|]. destruct HL; congruence.
  - intros Hf. congruence.
  - intros s s' Hs Hs' Ha Ha'. apply Hab in Ha, Ha'; auto.
Qed.

(** A late forward success recorded. *)
Lemma effects_late st st' k :
  st_inv st → step_range k → abandoned st k →
  closure_step st st' PhaseForward k OperationClosedWithResult →
  rCompletedSteps (ssRecord st') = rCompletedSteps (ssRecord st) → rLateStep (ssRecord st') = k + 1 →
  (rPhase (ssRecord st') = PhaseForward → rPhase (ssRecord st) = PhaseForward) →
  effects_ok st'.
Proof.
  intros [[Hb Hshape] Ho Hrc [E1 E2 E3 E4 E5 E6 E7]] Hk Hka Hcl HC HL HP.
  destruct (E5 k Hk Hka) as [Hck Hl0].
  assert (∀ s, remaining (ssRecord st') s ↔ remaining (ssRecord st) s ∨ s = k) as Hrem.
  { intros s. unfold remaining. rewrite HC, HL, Hl0. unfold step_range in Hk. lia. }
  assert (∀ s, step_range s → effective st' s ↔ effective st s ∨ s = k) as Heff.
  { intros s Hs. unfold effective. rewrite Hcl by auto with go_int. close_step. }
  assert (∀ s, step_range s → compensated st' s ↔ compensated st s) as Hcomp.
  { intros s Hs. unfold compensated. rewrite Hcl by auto with go_int. by rewrite decide_False by (intros [? _]; done). }
  assert (∀ s, step_range s → ¬ abandoned st' s) as Hab.
  { intros s Hs. unfold abandoned. rewrite Hcl by auto with go_int. case_decide as Hd; [done|].
    intros Ha. apply Hd. split; [done|]. by apply E7. }
  split.
  - intros s Hs. apply Hrem in Hs as [Hs| ->]; apply Heff; auto. by eapply remaining_range.
  - intros s Hs Hc. rewrite Hrem, Heff by done. apply Hcomp in Hc; [|done]. destruct (E2 s Hs Hc) as [He Hr].
    split; [by left|]. intros [?| ->]; [done|]. unfold effective, abandoned in *. congruence.
  - intros s Hs. rewrite Hrem, Hcomp, Heff by done. intros [He| ->]; [|auto]. destruct (E3 s Hs He); auto.
  - intros Hf s Hs. rewrite Hcomp by done. auto.
  - intros s Hs Ha. by destruct (Hab s Hs).
  - intros _ s Hs Ha. by destruct (Hab s Hs).
  - intros s s' Hs _ Ha. by destruct (Hab s Hs).
Qed.

Lemma same_run_written before after t :
  same_run before after → same_run before (fst (planTransition before after t)).
Proof. rewrite planTransition_record. by case_match. Qed.

(** ** Closures through [applyState] *)

Lemma apply_closure_fail st after t :
  st_inv st → same_run (ssRecord st) after →
  (match tReceipt t with Some c => coSuccess c | None => false end) = false →
  closure_fail st (applyState st after t).
Proof.
  intros [[Hb Hs] _ _ _] Hrun Hf p s Hp Hr. unfold closure.
  rewrite (opKey_same (ssRecord st) (ssRecord (applyState st after t)))
    by (rewrite applyState_record; by apply same_run_written).
  destruct (applyState_ops_fail st after t Hf Hs (opKey (ssRecord st) p s)) as [->|(Heq & Hpos & -> & ->)]; [by left|].
  right. rewrite currentOperation_opKey in Heq.
  apply opKey_inj in Heq as [-> ->]; [auto|done|by apply positioned_real|done|].
  by apply positioned_step.
Qed.

Lemma apply_closure_success st after t c p s :
  same_run (ssRecord st) after → tReceipt t = Some c → coSuccess c = true →
  real_phase p → step_range s → coIdempotencyKey c = opKey (ssRecord st) p s →
  closure_step st (applyState st after t) p s OperationClosedWithResult.
Proof.
  intros Hrun Ht Hc Hp Hs Hk p' s' Hp' Hs'. unfold closure.
  rewrite (opKey_same (ssRecord st) (ssRecord (applyState st after t)))
    by (rewrite applyState_record; by apply same_run_written).
  rewrite (applyState_ops_success st after t c) by (done || (rewrite Hk; apply operationKey_nonempty)).
  rewrite Hk. destruct (decide (opKey (ssRecord st) p' s' = opKey (ssRecord st) p s)) as [E|E].
  - apply opKey_inj in E as [-> ->]; [|done..]. by rewrite decide_True.
  - rewrite decide_False; [done|]. intros [-> ->]. done.
Qed.

(** The operations of the new state are operations of the run. *)
Lemma apply_ops_ok st after t :
  st_inv st → same_run (ssRecord st) after →
  (∀ c, tReceipt t = Some c → coSuccess c = true →
     ∃ p s, coIdempotencyKey c = opKey (ssRecord st) p s ∧ real_phase p ∧ step_range s) →
  ops_ok (applyState st after t).
Proof.
  intros [[Hb Hs] Ho _ _] Hrun Hc op tomb Hop.
  assert (∀ p s, opKey (ssRecord (applyState st after t)) p s = opKey (ssRecord st) p s) as Hkey.
  { intros p s. apply opKey_same. rewrite applyState_record. by apply same_run_written. }
  destruct (match tReceipt t with Some c => coSuccess c | None => false end) eqn:Hsucc.
  - destruct (tReceipt t) as [c|] eqn:Ht; [|done]. destruct (Hc c eq_refl Hsucc) as (p & s & Hk & Hp & Hr).
    pose proof (applyState_ops_success st after t c Ht Hsucc ltac:(rewrite Hk; apply operationKey_nonempty) op) as Hcl.
    rewrite Hop in Hcl. cbn in Hcl. case_decide as Hd.
    + exists p, s. rewrite Hkey. injection Hcl as ->. split_and!; [congruence|done..|by left].
    + destruct (ssOps st !! op) as [tomb0|] eqn:E0; [|done]. injection Hcl as Hcl.
      destruct (Ho op tomb0 E0) as (p0 & s0 & -> & ? & ? & Hor). exists p0, s0. rewrite Hkey, Hcl. auto.
  - destruct (applyState_ops_fail st after t Hsucc Hs op) as [E|(-> & Hpos & _ & E)]; rewrite Hop in E.
    + destruct (Ho op tomb (eq_sym E)) as (p0 & s0 & -> & ? & ? & Hor). exists p0, s0. by rewrite Hkey.
    + injection E as ->. exists (rPhase (ssRecord st)), (rStep (ssRecord st)). rewrite Hkey.
      split_and!; [done|by apply positioned_real|by apply positioned_step|by right].
Qed.

(** ** A transition that accepts no success *)

Lemma fail_transition st after t :
  st_inv st → advances (ssRecord st) after → rec_inv after →
  (match tReceipt t with Some c => coSuccess c = false ∧ coCommandID c ≠ [] | None => True end) →
  (tCause t = causeResume ∨ tCause t = causeManualCompensate → rStatus after ≠ StatusWaiting) →
  rCompletedSteps after = rCompletedSteps (ssRecord st) → rLateStep after = rLateStep (ssRecord st) →
  (rPhase after = PhaseForward → rPhase (ssRecord st) = PhaseForward ∧ rStep after = rStep (ssRecord st)) →
  st_inv (applyState st after t).
Proof.
  intros Hst Hadv Hinv Ht Hcause HC HL HP. pose proof (proj1 Hadv) as Hrun.
  pose proof (written_fields (ssRecord st) after t) as (F1 & F2 & F3 & F4 & F5 & F6 & F7).
  split.
  - rewrite applyState_record. apply written_inv; try done. apply (bi_inc _ (proj1 (si_rec st Hst))).
  - apply apply_ops_ok; [done..|]. intros c Hc Hs. rewrite Hc in Ht. destruct Ht. congruence.
  - apply receipts_ok_apply; [apply Hst|]. intros c Hc. rewrite Hc in Ht. by destruct Ht.
  - apply (effects_fail st); [done| | | |].
    + apply apply_closure_fail; [done..|]. destruct (tReceipt t) as [c|]; [|done]. by destruct Ht.
    + by rewrite applyState_record, F4.
    + by rewrite applyState_record, F5.
    + rewrite applyState_record, F2, F3. done.
Qed.

(** ** Frames of the planners: the fields the effects depend on *)

Lemma nextCompensation_steps r now :
  rCompletedSteps (nextCompensation r now) = rCompletedSteps r ∧ rLateStep (nextCompensation r now) = rLateStep r ∧
  rPhase (nextCompensation r now) = PhaseCompensate.
Proof. unfold nextCompensation. by repeat case_match. Qed.

Lemma nextCompensation_status r now : rStatus (nextCompensation r now) ≠ StatusWaiting.
Proof. unfold nextCompensation. by repeat case_match. Qed.

(** Completed prefix and late step kept; forward only from forward, in place. *)
Definition keeps_steps (r r' : Rec) : Prop :=
  rCompletedSteps r' = rCompletedSteps r ∧ rLateStep r' = rLateStep r ∧
  (rPhase r' = PhaseForward → rPhase r = PhaseForward ∧ rStep r' = rStep r).

Lemma compensationState_steps r reason now : keeps_steps r (compensationState r reason now).
Proof.
  unfold compensationState. fields. case_match; [done|]. set (r0 := wOperationKey _ _).
  pose proof (nextCompensation_steps r0 now) as (E1 & E2 & E3).
  unfold keeps_steps. rewrite E1, E2, E3. done.
Qed.

Lemma retryState_steps r d reason now : keeps_steps r (retryState r d reason now).
Proof.
  unfold retryState. fields. case_match; [|done]. case_match; [by case_match|]. case_match; [done|].
  match goal with |- keeps_steps _ (compensationState ?r0 _ _) => pose proof (compensationState_steps r0 reason now) as H' end.
  exact H'.
Qed.

Lemma planDue_steps r d now : keeps_steps r (dpAfter (planDue r d now)).
Proof.
  unfold planDue. destruct d as [d|]; [|done]. case_match; [apply (compensationState_steps (wVersion _ r))|].
  case_match; [apply (retryState_steps (wVersion _ r))|]. by case_match.
Qed.

Lemma planResume_steps r b q dl r' :
  rec_inv r → planResume r b q dl = Ok r' → keeps_steps r r' ∧ rStatus r' ≠ StatusWaiting.
Proof.
  intros [Hb Hs]. unfold planResume. intros H. inv_ok.
  match type of H with (if _ then Ok (nextCompensation ?a _) else _) = _ =>
    assert (rCompletedSteps a = rCompletedSteps r ∧ rLateStep a = rLateStep r ∧ rStep a = rStep r) as (F1 & F2 & F3)
      by (repeat case_match; inv_ok; done);
    pose proof (nextCompensation_steps a (rrNow q)) as (G1 & G2 & G3);
    pose proof (nextCompensation_status a (rrNow q)) as G4
  end.
  case_match eqn:Edir; inv_ok.
  - split; [|done]. unfold keeps_steps. rewrite G1, G2, G3. split_and!; congruence.
  - to_prop. split; [|done]. unfold keeps_steps. fields. split_and!; [done..|]. intros _. split; [|done].
    assert (rStatus r = StatusFailed ∨ rStatus r = StatusManualRequired) as Hstat by tauto.
    destruct (resume_position r Hs Hstat) as [[? _]|[? _]]; [done|]. tauto.
Qed.

(** ** The transitions *)

(** A due record. *)
Lemma due_state st d now :
  st_inv st → Terminal (rStatus (ssRecord st)) = false → rVersion (ssRecord st) < 2^64 - 1 → good_def d → 0 < now →
  let plan := planDue (ssRecord st) d now in
  st_inv (applyState st (dpAfter plan) (mkTransition (dpCause plan) None)).
Proof.
  intros Hst Ht Hv Hd Hn plan. pose proof (planDue_steps (ssRecord st) d now) as (E1 & E2 & E3).
  apply fail_transition; try done.
  - apply planDue_advances.
  - by apply planDue_inv; [apply Hst|..].
  - unfold plan, planDue. destruct d; [|by intros [?|?]]. repeat case_match; by intros [?|?].
Qed.

Lemma resume_state st d request deadline after :
  st_inv st → rVersion (ssRecord st) < 2^64 - 1 → rrNow request ≠ 0 →
  planResume (ssRecord st) d request deadline = Ok after →
  st_inv (applyState st after (mkTransition causeResume None)).
Proof.
  intros Hst Hv Hn H. destruct (planResume_steps _ _ _ _ _ (si_rec st Hst) H) as [(E1 & E2 & E3) Hw].
  apply fail_transition; try done; [by eapply planResume_advances|].
  by apply (planResume_inv _ _ _ _ _ (si_rec st Hst) Hv Hn H).
Qed.

Lemma shape_step r : base_inv r → shape r → 0 ≤ rStep r ≤ 256.
Proof.
  intros Hb Hs. pose proof (bi_done r Hb). pose proof (bi_late r Hb) as Hl. unfold late_ok in Hl.
  unfold shape, at_forward, at_compensate in Hs. destruct (rStatus r); lia.
Qed.

Lemma compensate_state st reason now after :
  st_inv st → rVersion (ssRecord st) < 2^64 - 1 → now ≠ 0 → zlen reason ≤ 4096 →
  planCompensate (ssRecord st) reason now = CompensateWrite after →
  st_inv (applyState st after (mkTransition causeManualCompensate None)).
Proof.
  intros Hst Hv Hn Hz H. unfold planCompensate in H. do 3 (case_match; [done|]).
  destruct (_ && _) eqn:Hne in H; [done|]. injection H as <-. pose proof (si_rec st Hst) as [Hb Hs].
  pose proof (compensationState_steps (wVersion (u64 (rVersion (ssRecord st) + 1)) (ssRecord st)) reason now) as (E1 & E2 & E3).
  apply fail_transition; try done.
  - unfold beginCompensation. eapply advances_frame; [|apply compensationState_frame]. done.
  - apply beginCompensation_inv_any; try done. by apply shape_step.
  - intros _. unfold beginCompensation, compensationState. case_match; [done|apply nextCompensation_status].
Qed.

(** ** Results *)

(** A completion that went through [Completion.Validate] and was stamped with
    the round's time. *)
Definition result_ok (c : Completion) : Prop := good_completion c ∧ coCommandID c ≠ [].

Lemma accept_terminal r c i : judgeCompletion r c i = verdictAccept → Terminal (rStatus r) = false.
Proof. unfold judgeCompletion, positionedAt. destruct (rStatus r); try done; rewrite ?andb_false_r; by repeat case_match. Qed.

(** An accepted success is of the operation the record is positioned at. *)
Lemma accept_success r c i :
  shape r → judgeCompletion r c i = verdictAccept → coSuccess c = true → coIdempotencyKey c = currentOperation r.
Proof.
  unfold judgeCompletion. intros Hs H Hc. rewrite Hc in H. repeat case_match; try done. to_prop.
  destruct H1 as [_ Hp]. unfold positionedAt, shape in *.
  destruct (rStatus r); try done; to_prop; [|destruct Hs as (_ & [<- _] & _)|]; congruence.
Qed.

Lemma applyCompletion_success_forward r d c :
  coSuccess c = true → rPhase r = PhaseForward → 0 ≤ rStep r ≤ 255 →
  rCompletedSteps (applyCompletion r d c) = rStep r + 1 ∧ rLateStep (applyCompletion r d c) = rLateStep r.
Proof.
  intros Hc Hp Hs. unfold applyCompletion. rewrite Hc, bool_decide_true by done. cbn zeta. fields.
  assert (∀ r0 : Rec, rStep r0 = rStep r → i64 (rStep r0 + 1) = rStep r + 1) as Hi.
  { intros r0 ->. apply i64_small. unfold_int. lia. }
  assert (∀ r0 reason now, rCompletedSteps (compensationState r0 reason now) = rCompletedSteps r0 ∧
                           rLateStep (compensationState r0 reason now) = rLateStep r0) as Hcs.
  { intros r0 reason now. by destruct (compensationState_steps r0 reason now) as (? & ? & _). }
  case_match; [rewrite (proj1 (Hcs _ _ _)), (proj2 (Hcs _ _ _))|case_match]; fields; rewrite Hi by done;
    (split; [done|]); by repeat case_match.
Qed.

Lemma applyCompletion_success_compensate r d c :
  base_inv r → coSuccess c = true → positioned r → rPhase r = PhaseCompensate →
  let r' := applyCompletion r d c in
  rPhase r' = PhaseCompensate ∧ rCompletedSteps r' ≤ rCompletedSteps r ∧
  (rLateStep r' = rLateStep r ∨ rLateStep r' = 0) ∧ ∀ s, remaining r' s ↔ remaining r s ∧ s ≠ rStep r.
Proof.
  intros Hb Hc Hpos Hp. cbn zeta. unfold applyCompletion. rewrite Hc, bool_decide_false by (by rewrite Hp).
  cbn zeta. set (r1 := match coData c with Some _ => _ | None => _ end).
  assert (rCompletedSteps r1 = rCompletedSteps r ∧ rLateStep r1 = rLateStep r) as [G1 G2]
    by (unfold r1; by repeat case_match).
  match goal with |- context [nextCompensation ?r2 ?n] => pose proof (nextCompensation_steps r2 n) as (E1 & E2 & E3) end.
  unfold remaining. rewrite E1, E2, E3. pose proof (bi_done r Hb). pose proof (bi_late r Hb) as Hl. unfold late_ok in Hl.
  destruct Hpos as [[[? _] _]|[_ Hpos]]; [congruence|].
  assert (compensatingLateStep r = (0 <? rLateStep r) && (rStep r =? rLateStep r - 1)) as Hlate
    by (unfold compensatingLateStep; by rewrite bool_decide_true).
  destruct (compensatingLateStep r); symmetry in Hlate; to_prop; fields; rewrite ?G1, ?G2.
  - split_and!; [done|lia|lia|]. intros s. lia.
  - rewrite i64_small by (unfold_int; lia). split_and!; [done|lia|lia|]. intros s. lia.
Qed.

Lemma applyCompletion_fail_steps r d c : coSuccess c = false → keeps_steps r (applyCompletion r d c).
Proof.
  intros Hc. unfold applyCompletion. rewrite Hc. cbn zeta. set (r0 := wOperationKey _ _).
  case_match; [case_match; [done|]|].
  - exact (compensationState_steps r0 (coError c) (coCompletedAt c)).
  - exact (retryState_steps r0 d (coError c) (coCompletedAt c)).
Qed.

Lemma current_key_facts r : base_inv r → positioned r → real_phase (rPhase r) ∧ step_range (rStep r).
Proof. intros Hb Hp. split; [by apply positioned_real|by apply positioned_step]. Qed.

(** An accepted result. *)
Lemma accept_state st d c i :
  st_inv st → rVersion (ssRecord st) < 2^64 - 1 → DefValidate d = true → result_ok c →
  judgeCompletion (ssRecord st) c i = verdictAccept →
  st_inv (applyState st (applyCompletion (ssRecord st) d c) (mkTransition causeResult (Some c))).
Proof.
  intros Hst Hv Hd [Hc Hid] Hj. pose proof (si_rec st Hst) as [Hb Hs].
  pose proof (accept_terminal _ _ _ Hj) as Hterm. pose proof (shape_positioned _ Hs Hterm) as Hpos.
  pose proof (applyCompletion_advances (ssRecord st) d c) as Hadv.
  pose proof (applyCompletion_inv _ d c (si_rec st Hst) Hterm Hv Hd Hc) as Hinv.
  destruct (coSuccess c) eqn:Hsucc.
  2:{ destruct (applyCompletion_fail_steps (ssRecord st) d c Hsucc) as (E1 & E2 & E3).
      apply fail_transition; try done. by intros [?|?]. }
  pose proof (accept_success _ _ _ Hs Hj Hsucc) as Hkey. rewrite currentOperation_opKey in Hkey.
  destruct (current_key_facts _ Hb Hpos) as [Hph Hsr].
  set (t := mkTransition causeResult (Some c)). set (after := applyCompletion (ssRecord st) d c) in *.
  pose proof (written_fields (ssRecord st) after t) as (F1 & F2 & F3 & F4 & F5 & F6 & F7).
  assert (closure_step st (applyState st after t) (rPhase (ssRecord st)) (rStep (ssRecord st)) OperationClosedWithResult) as Hcl
    by (by apply (apply_closure_success st after t c); try apply Hadv).
  split.
  - rewrite applyState_record. apply written_inv; [done..|apply (bi_inc _ Hb)|by intros [?|?]].
  - apply apply_ops_ok; [done|apply Hadv|]. intros c' [= <-] _. eauto.
  - apply receipts_ok_apply; [apply Hst|]. by intros c' [= <-].
  - destruct Hph as [Hph|Hph]; rewrite Hph in Hcl.
    + assert (rLateStep (ssRecord st) = 0) as Hl by (destruct Hpos as [[_ ?]|[? _]]; [done|congruence]).
      destruct (applyCompletion_success_forward (ssRecord st) d c Hsucc Hph Hsr) as [G1 G2].
      apply (effects_forward st); [done..| |]; rewrite applyState_record, ?F4, ?F5; [done|]. by rewrite <- Hl.
    + destruct (applyCompletion_success_compensate (ssRecord st) d c Hb Hsucc Hpos Hph) as (G1 & G2 & G3 & G4).
      apply (effects_compensate st); [done..| | | |]; rewrite applyState_record; rewrite ?F2, ?F4, ?F5; try done.
Qed.

(** A late success: the tombstone it is judged by, and the step it names. *)
Lemma late_step_facts st c k tomb :
  st_inv st → ssOps st !! coIdempotencyKey c = Some tomb → tbClosure tomb = OperationAbandoned →
  lateForwardStep (ssRecord st) (coIdempotencyKey c) = Some k →
  coIdempotencyKey c = opKey (ssRecord st) PhaseForward k ∧ step_range k ∧ abandoned st k ∧
  rCompletedSteps (ssRecord st) ≤ k ∧
  (rPhase (ssRecord st) = PhaseCompensate ∨ rStatus (ssRecord st) = StatusFailed ∨ rStatus (ssRecord st) = StatusManualRequired).
Proof.
  intros Hst Hop Htb Hl. destruct (si_ops st Hst _ _ Hop) as (p & s & Hk & Hp & Hs & _).
  unfold lateForwardStep in Hl. rewrite Hk in Hl. unfold opKey in Hl.
  rewrite parse_own in Hl by (done || (unfold step_range in Hs; lia)).
  repeat case_match; try done. to_prop. injection Hl as <-.
  assert (p = PhaseForward) as -> by tauto. split_and!; [done..| |lia|tauto].
  unfold abandoned, closure. rewrite <- Hk, Hop. cbn. by rewrite Htb.
Qed.

Lemma lateStepState_steps r c k :
  step_range k →
  rCompletedSteps (lateStepState r c k) = rCompletedSteps r ∧ rLateStep (lateStepState r c k) = k + 1 ∧
  (rPhase (lateStepState r c k) = PhaseForward → rPhase r = PhaseForward).
Proof.
  intros Hk. unfold lateStepState. rewrite i64_small by (unfold step_range in Hk; unfold_int; lia).
  case_match; [|done].
  match goal with |- context [nextCompensation ?r2 ?n] => pose proof (nextCompensation_steps r2 n) as (-> & -> & ->) end. done.
Qed.

Lemma late_state st c k :
  st_inv st → rVersion (ssRecord st) < 2^64 - 1 → result_ok c → coSuccess c = true →
  coIdempotencyKey c = opKey (ssRecord st) PhaseForward k → step_range k → abandoned st k →
  (rPhase (ssRecord st) = PhaseCompensate ∨ rStatus (ssRecord st) = StatusFailed ∨ rStatus (ssRecord st) = StatusManualRequired) →
  st_inv (applyState st (lateStepState (ssRecord st) c k) (mkTransition causeLateSuccess (Some c))).
Proof.
  intros Hst Hv [Hc Hid] Hsucc Hkey Hk Hab Hor. pose proof (si_rec st Hst) as [Hb Hs].
  destruct (eo_abandoned st (si_effects st Hst) k Hk Hab) as [Hck Hl0].
  pose proof (lateStepState_advances (ssRecord st) c k) as Hadv.
  assert (rec_inv (lateStepState (ssRecord st) c k)) as Hinv by (apply lateStepState_inv; auto; apply Hst).
  set (after := lateStepState (ssRecord st) c k) in *. set (t := mkTransition causeLateSuccess (Some c)).
  destruct (lateStepState_steps (ssRecord st) c k Hk) as (G1 & G2 & G3). fold after in G1, G2, G3.
  pose proof (written_fields (ssRecord st) after t) as (F1 & F2 & F3 & F4 & F5 & F6 & F7).
  assert (closure_step st (applyState st after t) PhaseForward k OperationClosedWithResult) as Hcl
    by (apply (apply_closure_success st after t c); auto with go_int; apply Hadv).
  split.
  - rewrite applyState_record. apply written_inv; [done..|apply (bi_inc _ Hb)|by intros [?|?]].
  - apply apply_ops_ok; [done|apply Hadv|]. intros c' [= <-] _. exists PhaseForward, k. auto with go_int.
  - apply receipts_ok_apply; [apply Hst|]. by intros c' [= <-].
  - apply (effects_late st _ k); [done..| | |]; rewrite applyState_record, ?F2, ?F4, ?F5; done.
Qed.

(** A late alarm only marks the tombstone. *)
Lemma alarm_state st op tomb l :
  st_inv st → ssOps st !! op = Some tomb →
  st_inv (mkState (ssRecord st) (<[op := mkTombstone (tbClosure tomb) l]> (ssOps st)) (ssReceipts st)).
Proof.
  intros [Hr Ho Hrc He] Hop. set (st' := mkState _ _ _).
  assert (∀ p s, closure st' p s = closure st p s) as Hcl.
  { intros p s. unfold closure, st'. cbn. destruct (decide (op = opKey (ssRecord st) p s)) as [->|Hne].
    - by rewrite lookup_insert_eq, Hop.
    - by rewrite lookup_insert_ne. }
  split; [done| |done|].
  - intros op' tomb' H'. cbn in H'. apply lookup_insert_Some in H' as [[<- <-]|[_ H']]; [|by apply Ho].
    destruct (Ho op tomb Hop) as (p & s & ? & ? & ? & ?). by exists p, s.
  - destruct He as [E1 E2 E3 E4 E5 E6 E7].
    split; unfold effective, compensated, abandoned; repeat setoid_rewrite Hcl; [exact E1|exact E2|exact E3|exact E4|exact E5|exact E6|exact E7].
Qed.
