(* ===== verification/SagaStep.v ===== *)
(** * Saga steps: what a round may do to one saga

    The transitions of one saga's state as a relation.  The handlers of a
    round (SagaRound.v) do nothing else to a saga, so the properties of a run
    are proved by cases on this relation. *)

From Stdlib Require Import String.
From S2P Require Import Prelude Bytes GoStr GoJson SagaRecord SagaKeys SagaTransition SagaRecordInv.
From S2P Require Import SagaTransitionInv SagaLayout SagaWire SagaPartition SagaStateInv.

(** What an engine has after [NewEngine] and [Register]. *)
Record engine_ok (e : Engine) : Prop := {
  en_defs : ∀ name v d, definition e name v = Some d → DefValidate d = true ∧ 0 < v < 2^32;
  en_layout : LayoutValidate (eLayout e) = true;
  en_writer : eWriter e ≠ [];
  en_payload : eMaxPayloadBytes e ≤ 4 * 2^20
}.

(** The definition registered for a record. *)
Definition definitionOf (e : Engine) (r : Rec) : option Def := definition e (rType r) (rDefinitionVersion r).

(** The command of a due plan, stamped with the partition. *)
Definition stamp (k : Z) (c : Command) : Command :=
  mkCommand (cID c) (cIdempotencyKey c) (cSagaID c) (cSagaType c) (cDefinitionVersion c) (cBusinessKey c) (cStep c)
    (cStepName c) (cPhase c) (cAttempt c) (cTopic c) (cPayload c) (cDeadlineAt c) (cCreatedAt c) (u16 k).

(** The completion is of this run, by its operation key. *)
Definition of_run (st : sagaState) (c : Completion) : Prop :=
  coSagaID c = rID (ssRecord st) ∧
  HasPrefix (coIdempotencyKey c) (coSagaID c ++ [colon] ++ rLifecycle (ssRecord st) ++ [colon]) = true.

Definition incarnationOf (c : Completion) : Z := commandIDIncarnation (coIdempotencyKey c) (coCommandID c).

(** [saga_step e k now before after kind command]: one transition in
    partition [k] at time [now], with the event it emits. *)
Inductive saga_step (e : Engine) (k : Z) (now : Time) : option sagaState → sagaState → bytes → option Command → Prop :=
| step_start request lifecycle attempt record d :
    definition e (srType request) (srDefinitionVersion request) = Some d →
    PartitionOf (eLayout e) (IDOf (srType request) (srBusinessKey request)) = k →
    newStartRecord request (IDOf (srType request) (srBusinessKey request)) lifecycle now = Ok record →
    saga_step e k now None (mkState (wStartAttempt attempt record) ∅ ∅) (str "start") None
| step_due st :
    Terminal (rStatus (ssRecord st)) = false →
    UnixNano (rNextRunAt (ssRecord st)) ≤ UnixNano now →
    let plan := planDue (ssRecord st) (definitionOf e (ssRecord st)) now in
    saga_step e k now (Some st) (applyState st (dpAfter plan) (mkTransition (dpCause plan) None))
      (eventKindOf (dpCause plan)) (stamp k <$> dpCommand plan)
| step_result st c d :
    result_ok c → coCompletedAt c = now → of_run st c → definitionOf e (ssRecord st) = Some d →
    judgeCompletion (ssRecord st) c (incarnationOf c) = verdictAccept →
    ssReceipts st !! coCommandID c = None →
    saga_step e k now (Some st) (applyState st (applyCompletion (ssRecord st) d c) (mkTransition causeResult (Some c)))
      (str "result") None
| step_late st c tomb s :
    result_ok c → coCompletedAt c = now → of_run st c →
    judgeCompletion (ssRecord st) c (incarnationOf c) = verdictHistory →
    coSuccess c = true → ssReceipts st !! coCommandID c = None →
    ssOps st !! coIdempotencyKey c = Some tomb → tbClosure tomb = OperationAbandoned →
    lateForwardStep (ssRecord st) (coIdempotencyKey c) = Some s →
    saga_step e k now (Some st) (applyState st (lateStepState (ssRecord st) c s) (mkTransition causeLateSuccess (Some c)))
      (str "late_success") None
| step_alarm st c tomb :
    of_run st c → judgeCompletion (ssRecord st) c (incarnationOf c) = verdictHistory →
    coSuccess c = true → ssReceipts st !! coCommandID c = None →
    ssOps st !! coIdempotencyKey c = Some tomb → tbClosure tomb = OperationAbandoned →
    lateForwardStep (ssRecord st) (coIdempotencyKey c) = None →
    containsIncarnation (tbLateAlarms tomb) (incarnationOf c) = false →
    saga_step e k now (Some st)
      (mkState (ssRecord st)
         (<[coIdempotencyKey c := mkTombstone (tbClosure tomb) (tbLateAlarms tomb ++ [incarnationOf c])]> (ssOps st))
         (ssReceipts st)) (str "late_alarm") None
| step_resume st request deadline after :
    rrNow request ≠ 0 →
    planResume (ssRecord st) (bool_decide (is_Some (definitionOf e (ssRecord st)))) request deadline = Ok after →
    receiptsExpired e (ssRecord st) (definitionOf e (ssRecord st)) now = false →
    saga_step e k now (Some st) (applyState st after (mkTransition causeResume None)) (str "resume") None
| step_compensate st reason time after :
    time ≠ 0 → zlen reason ≤ 4096 → planCompensate (ssRecord st) reason time = CompensateWrite after →
    (rPhase (ssRecord st) = PhaseCompensate →
     receiptsExpired e (ssRecord st) (definitionOf e (ssRecord st)) now = false) →
    saga_step e k now (Some st) (applyState st after (mkTransition causeManualCompensate None)) (str "compensate") None.

(** ** Every step preserves the invariant *)

Lemma guard_bool {E} (b : bool) (err : E) u : guard_err (negb b) err = Ok u → b = true.
Proof. rewrite guard_err_ok. by destruct b. Qed.

Lemma newStartRecord_inv request id lifecycle now record d e :
  engine_ok e → definition e (srType request) (srDefinitionVersion request) = Some d → zlen id ≤ 64 →
  newStartRecord request id lifecycle now = Ok record →
  rec_inv record ∧ rVersion record = 1 ∧ rID record = id ∧ rLifecycle record = lifecycle ∧
  rStatus record = StatusPending ∧ rAttempt record = 0 ∧ rIncarnation record = 0.
Proof.
  intros He Hd Hid H. unfold newStartRecord in H.
  destruct (startIntentDigest request) as [digest|]; [|done]. cbn [mbind result_bind] in H. inv_ok.
  match goal with Hv : negb (Validate ?r) = false |- _ => apply negb_false_iff in Hv; set (r0 := r) in *; rename Hv into Hval end.
  split; [|done]. destruct (en_defs e He _ _ _ Hd) as [_ Hver].
  unfold Validate in Hval. to_prop. cbn in Hval. destruct_and? Hval. to_prop.
  split; [split|]; try (cbn; unfold_int; lia || done).
  - split; cbn; unfold IsZero in *; to_prop; done || lia.
  - unfold IsZero in *. to_prop. done.
  - left. done.
  - unfold shape, at_forward, keys_empty. cbn. unfold IsZero in *. to_prop. repeat split; try done; lia.
Qed.

Lemma rec_inv_attempt_id record attempt : rec_inv record → rec_inv (wStartAttempt attempt record).
Proof.
  intros [[B1 B2 B3 B4 B5 B6 B7 B8 B9] Hs]. split; [|exact Hs].
  split; [|exact B2|exact B3|exact B4|exact B5|exact B6|exact B7|exact B8|exact B9].
  destruct B1 as [I1 I2 I3 I4 I5 I6 I7]. by split.
Qed.

Lemma empty_state_inv record :
  rec_inv record → rCompletedSteps record = 0 → rLateStep record = 0 → st_inv (mkState record ∅ ∅).
Proof.
  intros Hr Hc Hl.
  assert (∀ p s c, closure (mkState record ∅ ∅) p s ≠ Some c) as Hno.
  { intros p s c. unfold closure. cbn [ssOps]. by rewrite lookup_empty. }
  assert (∀ s, ¬ remaining record s) as Hrem by (unfold remaining; lia).
  split; [done|apply map_Forall_empty|apply map_Forall_empty|].
  split; cbn [ssRecord].
  - intros s Hs. by destruct (Hrem s).
  - intros s _ Hc'. by destruct (Hno _ _ _ Hc').
  - intros s _ Hc'. by destruct (Hno _ _ _ Hc').
  - intros _ s _ Hc'. by destruct (Hno _ _ _ Hc').
  - intros s _ Hc'. by destruct (Hno _ _ _ Hc').
  - intros _ s _ Hc'. by destruct (Hno _ _ _ Hc').
  - intros s s' _ _ Hc'. by destruct (Hno _ _ _ Hc').
Qed.

Definition good_bump (before : option sagaState) : Prop :=
  match before with Some st => rVersion (ssRecord st) < 2^64 - 1 | None => True end.

(** The version of an absent record counts as zero. *)
Definition version_of (o : option sagaState) : Z :=
  match o with Some st => rVersion (ssRecord st) | None => 0 end.

Lemma applied_version st after t :
  advances (ssRecord st) after → rVersion (ssRecord st) < 2^64 - 1 → 0 ≤ rVersion (ssRecord st) →
  rVersion (ssRecord (applyState st after t)) = rVersion (ssRecord st) + 1 ∧
  same_run (ssRecord st) (ssRecord (applyState st after t)).
Proof.
  intros (Hrun & Hv & _) Hlt H0. rewrite applyState_record.
  destruct (written_fields (ssRecord st) after t) as (_ & _ & _ & _ & _ & -> & Hs).
  rewrite Hv, u64_small by (unfold_int; lia). auto.
Qed.

(** A step keeps the invariant, stays in the run, and takes the version to
    the next one (an alarm leaves it). *)
Lemma saga_step_inv e k now before st' kind cmd :
  engine_ok e → 0 < now → saga_step e k now before st' kind cmd →
  (∀ st, before = Some st → st_inv st) → good_bump before →
  st_inv st' ∧ rVersion (ssRecord st') ≤ version_of before + 1 ∧
  (∀ st, before = Some st → same_run (ssRecord st) (ssRecord st') ∧ rVersion (ssRecord st) ≤ rVersion (ssRecord st')).
Proof.
  intros He Hn Hstep Hinv Hb. destruct Hstep; cbn [good_bump version_of] in *.
  1:{ destruct (newStartRecord_inv _ _ _ _ _ _ _ He H ltac:(rewrite IDOf_len; lia) H1) as (Hr & Hv & _ & _ & Hst & _).
      split; [|split; [cbn; lia|done]]. apply empty_state_inv; [by apply rec_inv_attempt_id| |].
      all: unfold newStartRecord in H1; destruct (startIntentDigest request); [|done]; cbn [mbind result_bind] in H1; by inv_ok. }
  all: pose proof (Hinv st eq_refl) as Hst; pose proof (bi_version _ (proj1 (si_rec st Hst))) as Hv1.
  - assert (good_def (definitionOf e (ssRecord st))) as Hd.
    { unfold good_def, definitionOf. destruct (definition e _ _) eqn:E; [|done]. by eapply (en_defs e He). }
    destruct (applied_version st (dpAfter plan) (mkTransition (dpCause plan) None)) as [Hv Hs]; [apply planDue_advances|lia|lia|].
    split; [by apply due_state|]. split; [lia|]. intros ? [= <-]. split; [done|lia].
  - destruct (applied_version st (applyCompletion (ssRecord st) d c) (mkTransition causeResult (Some c))) as [Hv Hs];
      [apply applyCompletion_advances|lia|lia|].
    split; [by eapply accept_state; [..|by eapply (en_defs e He)| |]|]. split; [lia|]. intros ? [= <-]. split; [done|lia].
  - destruct (late_step_facts st c s tomb Hst) as (F1 & F2 & F3 & F4 & F5); [done..|].
    destruct (applied_version st (lateStepState (ssRecord st) c s) (mkTransition causeLateSuccess (Some c))) as [Hv Hs];
      [apply lateStepState_advances|lia|lia|].
    split; [by apply late_state|]. split; [lia|]. intros ? [= <-]. split; [done|lia].
  - split; [by apply alarm_state|]. split; [cbn; lia|]. intros ? [= <-]. split; [done|cbn; lia].
  - destruct (applied_version st after (mkTransition causeResume None)) as [Hv Hs]; [by eapply planResume_advances|lia|lia|].
    split; [by eapply resume_state|]. split; [lia|]. intros ? [= <-]. split; [done|lia].
  - assert (advances (ssRecord st) after) as Hadv.
    { by eapply planCompensate_advances. }
    destruct (applied_version st after (mkTransition causeManualCompensate None)) as [Hv Hs]; [done|lia|lia|].
    split; [by eapply compensate_state|]. split; [lia|]. intros ? [= <-]. split; [done|lia].
Qed.

(** A run starts in the partition of its id. *)
Lemma step_start_partition e k now st kind cmd :
  saga_step e k now None st kind cmd → PartitionOf (eLayout e) (rID (ssRecord st)) = k.
Proof.
  remember None as before eqn:E. intros Hs. revert E. destruct Hs; try done. intros _. cbn [ssRecord]. change (rID (wStartAttempt _ ?r)) with (rID r).
  match goal with H : newStartRecord _ _ _ _ = Ok _ |- _ => unfold newStartRecord in H end.
  destruct (startIntentDigest request); [|done]. cbn [mbind result_bind] in *. by inv_ok.
Qed.
