(* ===== verification/SagaRound.v ===== *)
(** * Rounds: every handler is at most one saga step

    The handlers of a round change the overlay only by writing the result of
    a saga step together with its event; the round's events end with the
    overlay's states.  Every state a partition holds or writes satisfies the
    state invariant, and every event of a round passes the checks made when
    the log is replayed. *)

From Stdlib Require Import String.
From S2P Require Import Prelude Bytes GoStr GoJson SagaRecord SagaKeys SagaTransition SagaRecordInv.
From S2P Require Import SagaTransitionInv SagaLayout SagaWheel SagaWire SagaPartition SagaStateInv SagaStep.

(** Equal but for verdicts, counters and the input watermark. *)
Record same_view (r r' : Round) : Prop := {
  sv_now : rdNow r' = rdNow r;
  sv_overlay : rdOverlay r' = rdOverlay r;
  sv_touched : rdTouched r' = rdTouched r;
  sv_events : rdEvents r' = rdEvents r;
  sv_subjects : rdEventSubjects r' = rdEventSubjects r;
  sv_at : rdEventAt r' = rdEventAt r
}.

#[export] Instance same_view_refl : Reflexive same_view.
Proof. by split. Qed.
#[export] Instance same_view_trans : Transitive same_view.
Proof. intros r1 r2 r3 [] []. split; congruence. Qed.

Lemma view_verdict v r : same_view r (verdict v r).
Proof. unfold verdict. by case_match. Qed.
Lemma view_counts f r : same_view r (setCounts f r).
Proof. done. Qed.
Lemma view_count c r : same_view r (count c r).
Proof. done. Qed.
Lemma view_reject r : same_view r (rejectInput r).
Proof. done. Qed.
Lemma view_reopened before r : same_view r (reopenedByOperator before r).
Proof. unfold reopenedByOperator. by case_match. Qed.
Lemma view_verdict_on v r r' : same_view r r' → same_view r (verdict v r').
Proof. intros H. etrans; [exact H|apply view_verdict]. Qed.
#[export] Hint Resolve view_verdict view_counts view_count view_reject view_reopened : core.

Lemma view_get p r r' id : same_view r r' → get p r' id = get p r id.
Proof. intros H. unfold get. by rewrite (sv_overlay _ _ H). Qed.

(** A state written together with its event. *)
Definition write (e : Engine) (p : partition) (st : sagaState) (kind : bytes) (cmd : option Command) (r : Round) : Round :=
  emit e p st kind cmd (put st r).

(** Nothing, or one step written; only [life] may begin a run. *)
Definition handled (e : Engine) (p : partition) (life : bytes) (r r' : Round) : Prop :=
  same_view r r' ∨
  ∃ st kind cmd, saga_step e (pK p) (rdNow r) (get p r (rID (ssRecord st))) st kind cmd ∧
    same_view (write e p st kind cmd r) r' ∧
    (get p r (rID (ssRecord st)) = None → rLifecycle (ssRecord st) = life).

Lemma handled_same e p life r r' : same_view r r' → handled e p life r r'.
Proof. by left. Qed.
Lemma handled_step e p life r st kind cmd r' :
  saga_step e (pK p) (rdNow r) (get p r (rID (ssRecord st))) st kind cmd →
  same_view (write e p st kind cmd r) r' →
  (get p r (rID (ssRecord st)) = None → rLifecycle (ssRecord st) = life) → handled e p life r r'.
Proof. intros H1 H2 H3. right. by exists st, kind, cmd. Qed.

(** The states are filed under their ids. *)
Definition keyed (p : partition) (r : Round) : Prop := ∀ id st, get p r id = Some st → rID (ssRecord st) = id.

Lemma applied_id st after t : same_run (ssRecord st) after → rID (ssRecord (applyState st after t)) = rID (ssRecord st).
Proof. intros H. rewrite applyState_record. by destruct (same_run_written _ _ t H). Qed.

Lemma handled_write e p life r r' st st' kind cmd :
  keyed p r → get p r (rID (ssRecord st)) = Some st → rID (ssRecord st') = rID (ssRecord st) →
  saga_step e (pK p) (rdNow r) (Some st) st' kind cmd → same_view (write e p st' kind cmd r) r' → handled e p life r r'.
Proof. intros Hk Hg Hid Hs Hv. eapply handled_step; [|exact Hv|]; rewrite Hid, Hg; done. Qed.

(** ** The handlers *)

Lemma start_handled e p env msg r : handled e p (seLifecycle env) r (start e p env msg r).
Proof.
  unfold start. destruct (decodeStartInput _ _) as [input|]; [|apply handled_same; etrans; [|apply view_verdict]; done].
  destruct (prepareStart _ _) as [request|]; [|by apply handled_same].
  destruct (definition e _ _) as [d|] eqn:Ed; [|by apply handled_same].
  set (id := IDOf _ _). destruct (newStartRecord request id (seLifecycle env) (rdNow r)) as [record|] eqn:Er.
  2:{ apply handled_same. etrans; [|apply view_verdict]. done. }
  assert (rID record = id ∧ rLifecycle record = seLifecycle env) as [Hid Hlc].
  { unfold newStartRecord in Er. destruct (startIntentDigest request); [|done]. cbn [mbind result_bind] in Er. by inv_ok. }
  destruct (negb (rStartDigest record =s siDigest input)); [apply handled_same; etrans; [|apply view_verdict]; done|].
  destruct (negb (PartitionOf (eLayout e) id =? pK p)) eqn:Ep; [apply handled_same; etrans; [|apply view_verdict]; done|].
  to_prop. destruct (get p r id) as [existing|] eqn:Eg; [by apply handled_same|].
  assert (handled e p (seLifecycle env) r (verdict (mkVerdict (mReply msg) (siAttempt input) vAccepted [] None id None)
    (count nStarted (write e p (mkState (wStartAttempt (siAttempt input) record) ∅ ∅) (str "start") None r)))) as Hw.
  { eapply handled_step; [|etrans; [|apply view_verdict]; done|intros _; exact Hlc]. cbn [ssRecord].
    change (rID (wStartAttempt _ record)) with (rID record). rewrite Hid, Eg. by eapply step_start. }
  destruct (seAdmit env) as [[[|] reason]|]; [exact Hw| |exact Hw].
  apply handled_same. etrans; [|apply view_verdict]. done.
Qed.

Lemma completion_valid_ok c now :
  CompletionValidate c = true → 0 < now →
  result_ok (mkCompletion (coCommandID c) (coIdempotencyKey c) (coSagaID c) (coSuccess c) (coRetryable c) (coData c) (coError c) now).
Proof.
  unfold CompletionValidate. to_prop. intros H Hn. split.
  - unfold good_completion. cbn [coCompletedAt coError coData]. tauto.
  - cbn [coCommandID]. intros E. rewrite E in H. cbn in H. destruct_and? H. done.
Qed.

Lemma history_handled e p life st c r :
  keyed p r → get p r (rID (ssRecord st)) = Some st → result_ok c → coCompletedAt c = rdNow r → of_run st c →
  judgeCompletion (ssRecord st) c (incarnationOf c) = verdictHistory →
  handled e p life r (history e p st c (incarnationOf c) r).
Proof.
  intros Hk Hg Hc Hnow Hrun Hj. unfold history, stateHistory.
  destruct (ssReceipts st !! coCommandID c) as [prior|] eqn:Erc.
  { destruct (negb (prior =s receiptDigest c)); [by apply handled_same|]. unfold judgeHistory. cbn. rewrite andb_false_r. cbn. by apply handled_same. }
  unfold judgeHistory. destruct (ssOps st !! coIdempotencyKey c) as [tomb|] eqn:Eo; cbn; [|by apply handled_same].
  rewrite andb_true_r. destruct (coSuccess c && _) eqn:Ec; [|by apply handled_same]. to_prop. destruct Ec as [Hs Hcl].
  destruct (lateForwardStep (ssRecord st) (coIdempotencyKey c)) as [s|] eqn:El.
  - cbn. eapply (handled_write e p life r _ st); [done..| | |].
    + apply applied_id. apply (lateStepState_advances (ssRecord st) c s).
    + by eapply step_late.
    + etrans; [|case_match; done]. done.
  - case_match; [by apply handled_same|].
    eapply (handled_write e p life r _ st); [done..| | |]; [|by eapply step_alarm|done]. done.
Qed.

Lemma result_handled e p life msg r : keyed p r → 0 < rdNow r → handled e p life r (result_ e p msg r).
Proof.
  intros Hk Hn. unfold result_, decodeResultInput. destruct (jParseResult _ _) as [input|]; [|by apply handled_same].
  case_match eqn:E; [|by apply handled_same]. case_match; [done|]. case_match eqn:Ev; [done|]. injection E as <-. to_prop.
  pose proof (completion_valid_ok _ (rdNow r) (proj1 Ev) Hn) as Hc. set (c := mkCompletion _ _ _ _ _ _ _ _) in *.
  unfold resultOf.
  destruct (negb (HasPrefix (coIdempotencyKey c) (coSagaID c ++ [colon]))); [by apply handled_same|].
  destruct (get p r (coSagaID c)) as [st|] eqn:Eg; [|by apply handled_same]. cbn zeta.
  destruct (negb (HasPrefix _ _)) eqn:Ep; [by apply handled_same|]. to_prop.
  pose proof (Hk _ _ Eg) as Hid. assert (of_run st c) as Hrun by (split; [congruence|done]).
  rewrite <- Hid in Eg. fold (incarnationOf c).
  destruct (judgeCompletion (ssRecord st) c (incarnationOf c)) eqn:Ej; try (by apply handled_same).
  2:{ by apply history_handled. }
  destruct (definition e _ _) as [d|] eqn:Ed; [|by apply handled_same].
  unfold receiptSeen. destruct (ssReceipts st !! coCommandID c) as [prior|] eqn:Erc.
  { destruct (prior =s receiptDigest c); cbn [orb negb]; by apply handled_same. }
  cbn [orb].
  unfold apply. cbn [fst snd]. eapply (handled_write e p life r _ st); [done..| | |].
  - apply applied_id. apply applyCompletion_advances.
  - by eapply step_result.
  - done.
Qed.

Lemma prepareResume_now q clock request deadline :
  prepareResume q clock = Ok (request, deadline) → clock ≠ 0 → rrNow request ≠ 0.
Proof.
  unfold prepareResume. intros H Hc. inv_ok. cbn. unfold IsZero. by destruct (Z.eqb_spec (rrNow q) 0).
Qed.

Lemma operation_handled e p life msg r : keyed p r → handled e p life r (operation e p msg r).
Proof.
  intros Hk. unfold operation. destruct (decodeOpInput _ _) as [input|] eqn:Ein.
  2:{ apply handled_same. etrans; [|apply view_verdict]. done. }
  destruct (get p r (oiID input)) as [st|] eqn:Eg; [|by apply handled_same].
  pose proof (Hk _ _ Eg) as Hid. rewrite <- Hid in Eg.
  unfold decodeOpInput in Ein. destruct (jParseOp _ _) as [input'|]; [|done]. case_match eqn:Ev; [|done]. injection Ein as ->.
  unfold IsZero in Ev. to_prop. fold (definitionOf e (ssRecord st)).
  destruct (oiKind input =s opResume) eqn:Ekr.
  - destruct (oiResume input) as [q|]; [|by apply handled_same].
    destruct (prepareResume q (oiNow input)) as [[request deadline]|] eqn:Epr; [|by apply handled_same].
    destruct (planResume _ _ _ _) as [after|] eqn:Epl; [|by apply handled_same].
    destruct (receiptsExpired e _ _ _) eqn:Erx; [by apply handled_same|]. unfold apply. cbn [fst snd].
    eapply (handled_write e p life r _ st); [done..| | |].
    + apply applied_id. by eapply planResume_advances.
    + eapply step_resume; [|done..]. eapply prepareResume_now; [done|tauto].
    + apply view_verdict_on. by etrans; [|apply view_reopened].
  - destruct (oiKind input =s opCompensate) eqn:Ekc; [|by apply handled_same].
    destruct (planCompensate _ _ _) as [after|after [err|]|err] eqn:Epc; try (by apply handled_same).
    destruct (_ && receiptsExpired e _ _ _) eqn:Erx; [by apply handled_same|]. unfold apply. cbn [fst snd].
    eapply (handled_write e p life r _ st); [done..| | |].
    + apply applied_id. by eapply planCompensate_advances.
    + eapply step_compensate; [| |done|]; [tauto| |].
      * to_prop. destruct Ev as [_ [[Hc _]|[_ Hz]]]; [congruence|]. lia.
      * intros Hp. rewrite bool_decide_true in Erx by done. done.
    + apply view_verdict_on. by etrans; [|apply view_reopened].
Qed.

Lemma due_step e p st r :
  dueNow st (rdNow r) = true →
  ∃ st' kind cmd, rID (ssRecord st') = rID (ssRecord st) ∧
    saga_step e (pK p) (rdNow r) (Some st) st' kind cmd ∧ same_view (write e p st' kind cmd r) (due e p st r).
Proof.
  intros Hd. unfold dueNow in Hd. to_prop. destruct Hd as [Hterm Hdue]. unfold due. fold (definitionOf e (ssRecord st)).
  set (plan := planDue (ssRecord st) (definitionOf e (ssRecord st)) (rdNow r)). unfold apply. cbn [fst snd].
  exists (applyState st (dpAfter plan) (mkTransition (dpCause plan) None)), (eventKindOf (dpCause plan)), (stamp (pK p) <$> dpCommand plan).
  split_and!.
  - apply applied_id. apply planDue_advances.
  - by apply step_due.
  - unfold write, stamp. destruct (dpCommand plan); cbn [fmap option_fmap option_map]; by destruct (dpCause plan).
Qed.

(** ** Commands *)

Definition command_ok (k : Z) (st : sagaState) (cmd : option Command) : Prop :=
  ∀ c, cmd = Some c → CommandValidate c = true ∧ cSagaID c = rID (ssRecord st) ∧ cPartition c = k.

Lemma dispatch_record r d now c :
  dpCommand (planDue r d now) = Some c →
  ∃ d' step, d = Some d' ∧ stepFor r d' = Some step ∧ rStatus r ≠ StatusWaiting ∧
    dpAfter (planDue r d now) =
      wCommandID (cID c) (wOperationKey (currentOperation r) (wNextRunAt (now + sTimeout step)
        (wUpdatedAt now (wVersion (u64 (rVersion r + 1)) (wAttempt (u32 (rAttempt r + 1)) (wStatus StatusWaiting r)))))) ∧
    cID c = commandID (currentOperation r) (rIncarnation r) (u32 (rAttempt r + 1)) ∧
    cIdempotencyKey c = currentOperation r ∧ cSagaID c = rID r ∧ cSagaType c = rType r ∧
    cDefinitionVersion c = rDefinitionVersion r ∧ cBusinessKey c = rBusinessKey r ∧ cStep c = rStep r ∧
    cStepName c = sName step ∧ cPhase c = rPhase r ∧ cAttempt c = u32 (rAttempt r + 1) ∧
    cTopic c = (if rPhase r =s PhaseCompensate then
                  if empty (sCompensateTopic step) then sForwardTopic step ++ str ".compensate" else sCompensateTopic step
                else sForwardTopic step) ∧
    cPayload c = (if compensatingLateStep r then rLateData r else rData r) ∧
    cDeadlineAt c = now + sTimeout step ∧ cCreatedAt c = now.
Proof.
  unfold planDue. destruct d as [d|]; [|done]. case_match; [done|].
  destruct (rStatus r =s StatusWaiting) eqn:Ew; [done|]. to_prop.
  destruct (stepFor r d) as [step|] eqn:Es; [|done]. cbn [dpCommand dpAfter]. intros [= <-].
  exists d, step. by repeat (split; [done|]).
Qed.

Lemma step_topics step :
  step_ok step = true →
  name_ok (sName step) 128 = true ∧ validSubject (sForwardTopic step) = true ∧
  validSubject (if empty (sCompensateTopic step) then sForwardTopic step ++ str ".compensate" else sCompensateTopic step) = true.
Proof. unfold step_ok. to_prop. intros H. split_and!; try tauto. case_match; tauto. Qed.

Lemma dispatch_valid r d now c :
  rec_inv r → Terminal (rStatus r) = false → good_def d → 0 < now →
  dpCommand (planDue r d now) = Some c → CommandValidate c = true ∧ cSagaID c = rID r.
Proof.
  intros [Hb Hs] Ht Hd Hn Hc.
  destruct (dispatch_record r d now c Hc) as (d' & step & -> & Hst & Hw & _ & E1 & E2 & E3 & E4 & E5 & E6 & E7 & E8 & E9 & E10 & E11 & E12 & E13 & E14).
  split; [|done]. pose proof (shape_positioned r Hs Ht) as Hpos.
  destruct (def_step d' r step Hd Hst) as [Hok Hr]. destruct (step_topics step Hok) as (T1 & T2 & T3).
  destruct (step_ok_bounds step Hok) as (Htime & _). pose proof (bi_attempt r Hb) as Ha.
  assert (rAttempt r ≤ 999) as Ha9 by (unfold shape in Hs; destruct (rStatus r); try done; tauto).
  assert (u32 (rAttempt r + 1) = rAttempt r + 1) as Hu by (apply u32_small; unfold_int; lia).
  assert (identity_ok (wAttempt (rAttempt r + 1) r)) as Hida by (by apply (identity_same r), (bi_ident r Hb)).
  pose proof (key_lengths (wAttempt (rAttempt r + 1) r) Hida Hr (positioned_real r Hpos) (bi_inc r Hb) ltac:(cbn; lia)) as [K1 K2].
  change (currentOperation (wAttempt _ r)) with (currentOperation r) in K1, K2. cbn [rIncarnation rAttempt wAttempt] in K2.
  unfold CommandValidate. rewrite E1, E2, E3, E4, E5, E6, E7, E8, E9, E10, E11, E12, E13, E14, Hu.
  rewrite (empty_false (currentOperation r)) by apply currentOperation_nonempty.
  rewrite (empty_false (commandID _ _ _)) by apply commandID_nonempty, currentOperation_nonempty.
  rewrite (id_token r (bi_ident r Hb)), (id_type r (bi_ident r Hb)), (id_key r (bi_ident r Hb)), T1.
  pose proof (id_def r (bi_ident r Hb)). pose proof (bi_data r Hb). pose proof (bi_late r Hb) as Hl. unfold late_ok in Hl.
  assert (zlen (if compensatingLateStep r then rLateData r else rData r) ≤ 4 * 2^20) as Hpay.
  { destruct (compensatingLateStep r); [|done]. destruct Hl as [[_ ->]|(_ & _ & ?)]; [vm_compute; discriminate|done]. }
  assert (validSubject (if rPhase r =s PhaseCompensate then
    if empty (sCompensateTopic step) then sForwardTopic step ++ str ".compensate" else sCompensateTopic step
    else sForwardTopic step) = true) as -> by (by destruct (rPhase r =s PhaseCompensate)).
  assert (phase_valid (rPhase r) = true) as -> by (destruct (positioned_real r Hpos) as [-> | ->]; done).
  unfold IsZero. bool_conj; to_prop; try done; lia.
Qed.

(** ** The round *)

Definition seal (hi : Z) (ev : logEvent) : logEvent :=
  mkEvent WireVersion (evPart ev) (evWriter ev) hi (evAt ev) (evKind ev) (evSaga ev) (evCommand ev).

(** The code's own check of the event when the log is replayed. *)
Definition ev_ok (e : Engine) (k : Z) (ev : logEvent) : Prop := ∀ hi, event_ok (eLayout e) k (seal hi ev) = true.

Definition ev_id (ev : logEvent) : bytes := rID (ssRecord (evSaga ev)).

(** One saga's state in the partition; [b] bounds its version. *)
Definition filed (e : Engine) (k : Z) (b : Z) (id : bytes) (st : sagaState) : Prop :=
  st_inv st ∧ rID (ssRecord st) = id ∧ PartitionOf (eLayout e) id = k ∧ rVersion (ssRecord st) ≤ b.

Record round_ok (e : Engine) (p : partition) (b : bytes → Z) (r : Round) : Prop := {
  ro_states : ∀ id st, get p r id = Some st → filed e (pK p) (b id) id st;
  ro_events : Forall (ev_ok e (pK p)) (rdEvents r);
  ro_subjects : length (rdEventSubjects r) = length (rdEvents r);
  ro_touched : ∀ id, id ∈ rdTouched r ↔ is_Some (rdOverlay r !! id);
  ro_nodup : NoDup (rdTouched r);
  ro_last : ∀ id st, rdOverlay r !! id = Some st →
    ∃ i ev, rdEventAt r !! id = Some i ∧ rdEvents r !! i = Some ev ∧ evSaga ev = st;
  ro_index : ∀ id i, rdEventAt r !! id = Some i → ∃ ev, rdEvents r !! i = Some ev ∧ ev_id ev = id;
  ro_at : ∀ j ev, rdEvents r !! j = Some ev → ∃ i, rdEventAt r !! ev_id ev = Some i ∧ (j ≤ i)%nat ∧ is_Some (rdOverlay r !! ev_id ev)
}.

Lemma round_ok_view e p b r r' : same_view r r' → round_ok e p b r → round_ok e p b r'.
Proof.
  intros Hv [A1 A2 A3 A4 A5 A6 A8 A7]. split.
  - intros id st. rewrite (view_get p r r' id Hv). apply A1.
  - by rewrite (sv_events _ _ Hv).
  - by rewrite (sv_events _ _ Hv), (sv_subjects _ _ Hv).
  - by rewrite (sv_overlay _ _ Hv), (sv_touched _ _ Hv).
  - by rewrite (sv_touched _ _ Hv).
  - by rewrite (sv_overlay _ _ Hv), (sv_events _ _ Hv), (sv_at _ _ Hv).
  - by rewrite (sv_events _ _ Hv), (sv_at _ _ Hv).
  - by rewrite (sv_overlay _ _ Hv), (sv_events _ _ Hv), (sv_at _ _ Hv).
Qed.

Lemma round_ok_mono e p b b' r : (∀ id, b id ≤ b' id) → round_ok e p b r → round_ok e p b' r.
Proof.
  intros Hb [A1 A2 A3 A4 A5 A6 A8 A7]. split; try done.
  intros id st Hg. destruct (A1 id st Hg) as (H1 & H2 & H3 & H4). split_and!; try done. specialize (Hb id). lia.
Qed.

Lemma round_ok_keyed e p b r : round_ok e p b r → keyed p r.
Proof. intros H id st Hg. by destruct (ro_states _ _ _ _ H id st Hg) as (_ & ? & _). Qed.

Lemma put_get p r st id : get p (put st r) id = if decide (id = rID (ssRecord st)) then Some st else get p r id.
Proof.
  unfold get, put. cbn. case_decide as Hd; [rewrite Hd; by rewrite lookup_insert_eq|]. by rewrite lookup_insert_ne.
Qed.

(** The events after [emit]: replaced in place, or appended. *)
Lemma emit_events e p st kind cmd r :
  ∃ ev, evSaga ev = st ∧ evCommand ev = cmd ∧ evKind ev = kind ∧ evPart ev = pK p ∧ evWriter ev = eWriter e ∧
  let r' := emit e p st kind cmd r in
  let id := rID (ssRecord st) in
  ((∃ i old s, rdEventAt r !! id = Some i ∧ rdEvents r !! i = Some old ∧
      rdEvents r' = <[i := ev]> (rdEvents r) ∧ rdEventAt r' = rdEventAt r ∧
      rdEventSubjects r' = <[i := s]> (rdEventSubjects r) ∧ evCommand old = None) ∨
   (∃ s, rdEvents r' = rdEvents r ++ [ev] ∧ rdEventAt r' = <[id := length (rdEvents r)]> (rdEventAt r) ∧
      rdEventSubjects r' = rdEventSubjects r ++ [s])) ∧
  rdOverlay r' = rdOverlay r ∧ rdTouched r' = rdTouched r ∧ rdNow r' = rdNow r.
Proof.
  exists (mkEvent 0 (pK p) (eWriter e) 0 (rdNow r) kind st cmd). do 5 (split; [done|]). cbn zeta. unfold emit.
  destruct (rdEventAt r !! rID (ssRecord st)) as [i|] eqn:Ea; [|split; [right; by eexists|done]].
  destruct (rdEvents r !! i) as [old|] eqn:Ei; [|split; [right; by eexists|done]].
  destruct (_ && _) eqn:Eold; [|split; [right; by eexists|done]].
  split; [|done]. left. exists i, old. eexists. split_and!; try done. by destruct (evCommand old).
Qed.

Lemma write_ok e p b b' r st kind cmd :
  engine_ok e → round_ok e p b r → filed e (pK p) (b' (rID (ssRecord st))) (rID (ssRecord st)) st →
  (∀ id, b id ≤ b' id) → kind ∈ eventKinds → command_ok (pK p) st cmd → round_ok e p b' (write e p st kind cmd r).
Proof.
  intros He Hr Hf Hb Hkind Hcmd. pose proof (round_ok_mono _ _ _ _ _ Hb Hr) as [A1 A2 A3 A4 A5 A6 A8 A7].
  unfold write. destruct (emit_events e p st kind cmd (put st r)) as (ev & V1 & V2 & V3 & V4 & V5 & Hor & V6 & V7 & V8).
  set (r' := emit e p st kind cmd (put st r)) in *. set (id := rID (ssRecord st)) in *.
  change (rdEventAt (put st r)) with (rdEventAt r) in Hor. change (rdEvents (put st r)) with (rdEvents r) in Hor.
  change (rdEventSubjects (put st r)) with (rdEventSubjects r) in Hor.
  assert (ev_ok e (pK p) ev) as Hev.
  { intros hi. unfold event_ok, seal. cbn. rewrite V1, V2, V3, V4, V5. destruct Hf as (H1 & H2 & H3 & _).
    rewrite st_inv_valid by done. rewrite H2, H3, Z.eqb_refl, bool_decide_true by done.
    rewrite (empty_false (eWriter e)) by apply He. cbn.
    destruct cmd as [c|]; [|done]. destruct (Hcmd c eq_refl) as (C1 & C2 & C3). rewrite C1, C3, Z.eqb_refl.
    by rewrite bool_decide_true. }
  assert (rdOverlay r' = <[id := st]> (rdOverlay r)) as Hov by exact V6.
  assert (ev_id ev = id) as Hid by (unfold ev_id; by rewrite V1).
  assert (∀ id', is_Some (rdOverlay r !! id') → is_Some (rdOverlay r' !! id')) as Hmono.
  { intros id' Hs. rewrite Hov. destruct (decide (id' = id)) as [->|]; [by rewrite lookup_insert_eq|by rewrite lookup_insert_ne]. }
  split.
  - intros id' st' Hg. unfold get in Hg. rewrite Hov in Hg.
    destruct (decide (id' = id)) as [->|Hne]; [rewrite lookup_insert_eq in Hg; by injection Hg as <-|].
    rewrite lookup_insert_ne in Hg by done. by apply A1.
  - destruct Hor as [(i & old & s & _ & Ho & -> & _)|(s & -> & _)].
    + by apply Forall_insert.
    + apply Forall_app. by split; [|constructor].
  - destruct Hor as [(i & old & s & _ & Ho & -> & _ & -> & _)|(s & -> & _ & ->)]; rewrite ?length_insert, ?length_app; cbn; lia.
  - intros id'. rewrite V7, Hov. unfold put. cbn.
    destruct (rdOverlay r !! rID (ssRecord st)) as [x|] eqn:Ex; fold id in Ex.
    + rewrite A4. destruct (decide (id' = id)) as [->|Hne]; [rewrite lookup_insert_eq, Ex; by split; eexists|by rewrite lookup_insert_ne].
    + rewrite elem_of_snoc, A4. fold id. destruct (decide (id' = id)) as [->|Hne]; [rewrite lookup_insert_eq; by split; [eexists|right]|].
      rewrite lookup_insert_ne by done. split; [by intros [?|?]|by left].
  - rewrite V7. unfold put. cbn. destruct (rdOverlay r !! rID (ssRecord st)) eqn:Ex; [done|].
    apply NoDup_app. split_and!; [done| |apply NoDup_singleton]. intros x Hx ->%list_elem_of_singleton.
    apply A4 in Hx. rewrite Ex in Hx. by destruct Hx.
  - intros id' st' Hg. rewrite Hov in Hg.
    destruct (decide (id' = id)) as [->|Hne].
    + rewrite lookup_insert_eq in Hg. injection Hg as <-.
      destruct Hor as [(i & old & s & Ha & Ho & -> & -> & _)|(s & -> & -> & _)].
      * exists i, ev. split_and!; [done| |done]. apply list_lookup_insert_eq. by eapply lookup_lt_Some.
      * exists (length (rdEvents r)), ev. rewrite lookup_insert_eq. split_and!; [done| |done].
        by rewrite lookup_app_r, Nat.sub_diag by lia.
    + rewrite lookup_insert_ne in Hg by done. destruct (A6 id' st' Hg) as (i & ev' & H1 & H2 & H3). 
      assert (ev_id ev' = id') as Hid' by (unfold ev_id; rewrite H3; by apply (A1 id' st'); unfold get; rewrite Hg).
      exists i, ev'. destruct Hor as [(i0 & old & s & Ha & Ho & -> & -> & _)|(s & -> & -> & _)].
      * split_and!; [done| |done]. destruct (decide (i = i0)) as [->|]; [|by rewrite list_lookup_insert_ne].
        destruct (A8 id i0 Ha) as (ev0 & E0 & E1). rewrite Ho in H2, E0. congruence.
      * rewrite lookup_insert_ne by done. split_and!; [done| |done]. by apply lookup_app_l_Some.
  - intros id' i' Hi'. destruct Hor as [(i0 & old & s & Ha & Ho & -> & E & _)|(s & -> & E & _)]; rewrite E in Hi'.
    + destruct (A8 id' i' Hi') as (ev0 & E0 & E1). destruct (decide (i' = i0)) as [->|Hne].
      * exists ev. split; [apply list_lookup_insert_eq; by eapply lookup_lt_Some|].
        destruct (A8 id i0 Ha) as (ev1 & E2 & E3). congruence.
      * exists ev0. by rewrite list_lookup_insert_ne.
    + destruct (decide (id' = id)) as [->|Hne].
      * rewrite lookup_insert_eq in Hi'. injection Hi' as <-. exists ev. split; [by rewrite lookup_app_r, Nat.sub_diag by lia|done].
      * rewrite lookup_insert_ne in Hi' by done. destruct (A8 id' i' Hi') as (ev0 & E0 & E1).
        exists ev0. split; [by apply lookup_app_l_Some|done].
  - intros j ev' Hj. destruct Hor as [(i0 & old & s & Ha & Ho & E & Eat & _)|(s & E & Eat & _)]; rewrite E in Hj; rewrite Eat.
    + destruct (decide (j = i0)) as [->|Hne].
      * rewrite list_lookup_insert_eq in Hj by (by eapply lookup_lt_Some). injection Hj as <-. rewrite Hid.
        exists i0. split_and!; [done|lia|]. rewrite Hov, lookup_insert_eq. by eexists.
      * rewrite list_lookup_insert_ne in Hj by done. destruct (A7 j ev' Hj) as (i & H1 & H2 & H3). exists i. auto.
    + apply lookup_snoc_Some in Hj as [[Hlt Hj]|[-> <-]].
      * destruct (A7 j ev' Hj) as (i & H1 & H2 & H3). destruct (decide (ev_id ev' = id)) as [Hd|Hne].
        -- exists (length (rdEvents r)). rewrite Hd, lookup_insert_eq. split_and!; [done|lia|].
           rewrite Hov, lookup_insert_eq. by eexists.
        -- exists i. rewrite lookup_insert_ne by done. auto.
      * exists (length (rdEvents r)). rewrite Hid, lookup_insert_eq. split_and!; [done|lia|].
        rewrite Hov, lookup_insert_eq. by eexists.
Qed.

(** ** Steps of a round *)

Lemma kind_known cause : eventKindOf cause ∈ eventKinds.
Proof. destruct cause; by_compute. Qed.

Lemma step_kind e k now before st kind cmd : saga_step e k now before st kind cmd → kind ∈ eventKinds.
Proof. intros []; try apply kind_known; by_compute. Qed.

(** One more version for one saga. *)
Definition bump (id : bytes) (b : bytes → Z) : bytes → Z := λ x, if decide (x = id) then b x + 1 else b x.

Lemma step_round_ok e p b r st kind cmd :
  engine_ok e → round_ok e p b r → 0 < rdNow r → 0 ≤ b (rID (ssRecord st)) < 2^64 - 1 →
  saga_step e (pK p) (rdNow r) (get p r (rID (ssRecord st))) st kind cmd →
  round_ok e p (bump (rID (ssRecord st)) b) (write e p st kind cmd r).
Proof.
  intros He Hr Hn Hb Hstep. set (id := rID (ssRecord st)) in *.
  assert (∀ st0, get p r id = Some st0 → filed e (pK p) (b id) id st0) as Hst by (intros st0; apply (ro_states _ _ _ _ Hr)).
  destruct (saga_step_inv e (pK p) (rdNow r) (get p r id) st kind cmd He Hn Hstep) as (Hinv & Hver & Hrun).
  { intros st0 Hg. apply (Hst st0 Hg). }
  { unfold good_bump. destruct (get p r id) as [st0|]; [|done]. destruct (Hst st0 eq_refl) as (_ & _ & _ & Hv0). lia. }
  assert (PartitionOf (eLayout e) id = pK p) as Hpart.
  { destruct (get p r id) as [st0|] eqn:Eg; [by apply (Hst st0 eq_refl)|].
    by eapply step_start_partition. }
  apply (write_ok e p b); [done..| | | |].
  - split_and!; [done..|]. unfold bump. rewrite decide_True by done.
    revert Hver Hst. unfold version_of. destruct (get p r id) as [st0|]; intros Hver Hst; fold id; [|lia].
    destruct (Hst st0 eq_refl) as (_ & _ & _ & Hv0). lia.
  - intros x. unfold bump. case_decide; lia.
  - by eapply step_kind.
  - intros c Hc. pose proof (PartitionOf_range (eLayout e) id (en_layout e He)) as Hp.
    pose proof (LayoutValidate_bounds _ (en_layout e He)) as (Hl & _).
    inversion Hstep; subst; try done.
    match goal with Hcmd : stamp _ <$> dpCommand _ = Some _ |- _ => apply fmap_Some in Hcmd as (c0 & Hc0 & ->) end.
    destruct (Hst st0) as (Hi0 & Hid0 & _ & _); [done|].
    destruct (dispatch_valid (ssRecord st0) (definitionOf e (ssRecord st0)) (rdNow r) c0) as [V1 V2]; try done; [apply Hi0|..].
    { unfold good_def, definitionOf. destruct (definition e _ _) eqn:E; [|done]. by eapply (en_defs e He). }
    split_and!; [exact V1|cbn; by rewrite V2, Hid0|]. cbn. apply u16_small. unfold_int. lia.
Qed.

Lemma handled_ok e p life b r r' :
  engine_ok e → round_ok e p b r → 0 < rdNow r → (∀ id, 0 ≤ b id < 2^64 - 1) → handled e p life r r' →
  round_ok e p (λ id, b id + 1) r' ∧ rdNow r' = rdNow r.
Proof.
  intros He Hr Hn Hb [Hv|(st & kind & cmd & Hs & Hv & _)].
  - split; [|apply Hv]. eapply round_ok_view; [exact Hv|]. eapply round_ok_mono; [|exact Hr]. intros id. cbn. lia.
  - split.
    + eapply round_ok_view; [exact Hv|]. eapply round_ok_mono; [|by apply step_round_ok]. intros id. cbn. unfold bump. case_decide; lia.
    + rewrite (sv_now _ _ Hv). destruct (emit_events e p st kind cmd (put st r)) as (_ & _ & _ & _ & _ & _ & _ & _ & _ & H). exact H.
Qed.
