(* ===== verification/SagaRun.v ===== *)
(** * Runs of a partition

    Rounds in sequence: decide, publish, install, prune.  Theorems: a
    partition holds and logs only valid states, every forward effect of a
    saga is accounted for, and replaying the log rebuilds the partition. *)

From Stdlib Require Import String.
From S2P Require Import Prelude Bytes GoStr GoJson SagaRecord SagaKeys SagaTransition SagaRecordInv.
From S2P Require Import SagaTransitionInv SagaLayout SagaWheel SagaWire SagaPartition SagaStateInv SagaStep.
From S2P Require Import SagaRound.

(** ** A whole round *)

(** One input: the view may change by the watermark first. *)
Lemma input_handled e p env b r msg :
  round_ok e p b r → 0 < rdNow r →
  ∃ r0, same_view r r0 ∧ handled e p (seLifecycle (env (mSeq msg))) r0 (input e p env r msg).
Proof.
  intros Hr Hn. unfold input. case_match; [exists r; split; [done|by apply handled_same]|].
  set (r0 := setMaxIn _ r). assert (same_view r r0) as Hv by done. exists r0. split; [done|].
  pose proof (round_ok_view _ _ _ _ _ Hv Hr) as Hr0. pose proof (round_ok_keyed _ _ _ _ Hr0) as Hk.
  change (rdNow r) with (rdNow r0) in *. cbn zeta.
  case_match; [apply start_handled|]. case_match; [by apply result_handled|].
  case_match; [by apply operation_handled|by apply handled_same].
Qed.

Lemma input_ok e p env b r msg :
  engine_ok e → round_ok e p b r → 0 < rdNow r → (∀ id, 0 ≤ b id < 2^64 - 1) →
  round_ok e p (λ id, b id + 1) (input e p env r msg) ∧ rdNow (input e p env r msg) = rdNow r.
Proof.
  intros He Hr Hn Hb. destruct (input_handled e p env b r msg Hr Hn) as (r0 & Hv & Hh).
  rewrite <- (sv_now _ _ Hv) in *. eapply handled_ok; [done|by eapply round_ok_view|done..].
Qed.

Lemma inputs_ok e p env batch : ∀ b r,
  engine_ok e → round_ok e p (λ _, b) r → 0 < rdNow r → 0 ≤ b → b + zlen batch < 2^64 - 1 →
  round_ok e p (λ _, b + zlen batch) (fold_left (input e p env) batch r) ∧
  rdNow (fold_left (input e p env) batch r) = rdNow r.
Proof.
  induction batch as [|msg batch IH]; intros b r He Hr Hn Hb Hlt; cbn [fold_left].
  - split; [|done]. eapply round_ok_mono; [|exact Hr]. intros x. cbn. rewrite zlen_nil. lia.
  - rewrite zlen_cons in *. zlen_facts.
    destruct (input_ok e p env (λ _, b) r msg He Hr Hn) as [Hr' Hn']; [intros ?; lia|].
    destruct (IH (b + 1) (input e p env r msg) He Hr') as [Hr'' Hn'']; [lia..|].
    split; [|lia]. eapply round_ok_mono; [|exact Hr'']. intros x. cbn. lia.
Qed.

Lemma write_now e p st kind cmd r : rdNow (write e p st kind cmd r) = rdNow r.
Proof.
  unfold write. destruct (emit_events e p st kind cmd (put st r)) as (_ & _ & _ & _ & _ & _ & _ & _ & _ & H). exact H.
Qed.

(** Sagas already seen by the timer loop may have one more version. *)
Definition seen_bound (b : Z) (seen : list bytes) : bytes → Z := λ id, if decide (id ∈ seen) then b + 1 else b.

Lemma due_ok e p b seen r id st :
  engine_ok e → round_ok e p (seen_bound b seen) r → 0 < rdNow r → 0 ≤ b < 2^64 - 1 → id ∉ seen →
  get p r id = Some st → dueNow st (rdNow r) = true →
  round_ok e p (seen_bound b (id :: seen)) (due e p st r) ∧ rdNow (due e p st r) = rdNow r.
Proof.
  intros He Hr Hn Hb Hin Eg Ed. pose proof (round_ok_keyed _ _ _ _ Hr id st Eg) as Hid.
  destruct (due_step e p st r Ed) as (st' & kind & cmd & Hid' & Hs & Hv). rewrite Hid in Hid'.
  split; [|by rewrite (sv_now _ _ Hv), write_now].
  eapply round_ok_view; [exact Hv|]. eapply round_ok_mono; [|apply step_round_ok; [done|exact Hr|done| |]].
  - intros x. rewrite Hid'. unfold bump, seen_bound. repeat case_decide; try lia; set_solver.
  - unfold seen_bound. rewrite Hid', decide_False by done. lia.
  - by rewrite Hid', Eg.
Qed.

Lemma seen_more e p b seen id r : round_ok e p (seen_bound b seen) r → round_ok e p (seen_bound b (id :: seen)) r.
Proof. apply round_ok_mono. intros x. unfold seen_bound. repeat case_decide; try lia. set_solver. Qed.

(** Induction over the timer loop. *)
Lemma dueLoop_ind e p (P : list bytes → Round → Prop) ids :
  (∀ seen r id, P seen r → P (id :: seen) r) →
  (∀ seen r id st, P seen r → id ∉ seen → get p r id = Some st → dueNow st (rdNow r) = true → P (id :: seen) (due e p st r)) →
  ∀ seen r, P seen r → ∃ seen', P seen' (dueLoop e p ids seen r).
Proof.
  intros Hskip Hdue. induction ids as [|id ids IH]; intros seen r Hr; cbn [dueLoop]; [by exists seen|].
  case_bool_decide as Hin; [by apply IH|]. apply IH. destruct (get p r id) as [st|] eqn:Eg; [|by apply Hskip].
  destruct (dueNow st (rdNow r)) eqn:Ed; [by eapply Hdue|by apply Hskip].
Qed.

Lemma dueLoop_ok e p ids seen b r :
  engine_ok e → round_ok e p (seen_bound b seen) r → 0 < rdNow r → 0 ≤ b < 2^64 - 1 →
  round_ok e p (λ _, b + 1) (dueLoop e p ids seen r).
Proof.
  intros He Hr Hn Hb.
  destruct (dueLoop_ind e p (λ seen r, round_ok e p (seen_bound b seen) r ∧ 0 < rdNow r) ids) with (seen := seen) (r := r)
    as (seen' & H & _).
  - intros s r0 id [H H']. split; [by apply seen_more|done].
  - intros s r0 id st [H H'] Hin Hg Hd. destruct (due_ok e p b s r0 id st) as [? ->]; done.
  - done.
  - eapply round_ok_mono; [|exact H]. intros x. unfold seen_bound. case_decide; lia.
Qed.

(** ** A partition *)

Definition partition_ok (e : Engine) (b : Z) (p : partition) : Prop :=
  ∀ id st, pSagas p !! id = Some st → filed e (pK p) b id st.

Lemma newRound_ok e p b now : partition_ok e b p → round_ok e p (λ _, b) (newRound p now).
Proof.
  intros Hp. split; cbn; try done.
  - intros id. split; [by intros ?%elem_of_nil|]. rewrite lookup_empty. by intros [? ?].
  - apply NoDup_nil_2.
Qed.

Lemma round_ok_wheel e p b w r : round_ok e p b r → round_ok e (setWheel w p) b r.
Proof. by intros [A1 A2 A3 A4 A5 A6 A7 A8]. Qed.

Lemma decide_ok e p env batch now b :
  engine_ok e → partition_ok e b p → 0 < now → 0 ≤ b → b + zlen batch < 2^64 - 1 →
  round_ok e p (λ _, b + zlen batch + 1) (snd (decide_ e p env batch now)).
Proof.
  intros He Hp Hn Hb Hlt. unfold decide_. zlen_facts.
  destruct (inputs_ok e p env batch b (newRound p now) He) as [Hr Hnow]; [by apply newRound_ok|done..|].
  destruct (advance (pWheel p) now []) as [w ids]. cbn [snd].
  apply (dueLoop_ok e p); [done| |by rewrite Hnow|lia].
  eapply round_ok_mono; [|exact Hr]. intros id. unfold seen_bound. rewrite decide_False by apply not_elem_of_nil. done.
Qed.

(** ** Install and prune *)

Lemma installOne_fold r ids : ∀ p,
  (∀ id, id ∈ ids → is_Some (rdOverlay r !! id)) →
  let p' := fold_left (installOne r) ids p in
  (∀ id, pSagas p' !! id = if decide (id ∈ ids) then rdOverlay r !! id else pSagas p !! id) ∧
  pK p' = pK p ∧ pLastEv p' = pLastEv p ∧ pInHi p' = pInHi p ∧ pRound p' = pRound p.
Proof.
  induction ids as [|x ids IH]; intros p Hin; cbn [fold_left].
  { split; [|done]. intros id. rewrite decide_False; [done|]. apply not_elem_of_nil. }
  destruct (Hin x) as [st Hx]; [by left|].
  destruct (IH (installOne r p x)) as (H1 & H2 & H3 & H4 & H5); [intros id Hid; apply Hin; by right|].
  assert (pSagas (installOne r p x) = <[x := st]> (pSagas p) ∧ pK (installOne r p x) = pK p ∧
          pLastEv (installOne r p x) = pLastEv p ∧ pInHi (installOne r p x) = pInHi p ∧
          pRound (installOne r p x) = pRound p) as (E1 & E2 & E3 & E4 & E5) by (unfold installOne; by rewrite Hx).
  split; [|split_and!; congruence]. intros id. rewrite H1, E1.
  destruct (decide (id ∈ ids)) as [Hi|Hi].
  - rewrite decide_True; [done|by right].
  - destruct (decide (id = x)) as [->|Hne].
    + rewrite decide_True by (by left). by rewrite lookup_insert_eq, Hx.
    + rewrite lookup_insert_ne by done. rewrite decide_False; [done|]. rewrite elem_of_cons. tauto.
Qed.

Lemma no_events_untouched e p b r : round_ok e p b r → rdEvents r = [] → ∀ id, rdOverlay r !! id = None.
Proof.
  intros Hr He id. destruct (rdOverlay r !! id) as [st|] eqn:E; [|done].
  destruct (ro_last _ _ _ _ Hr id st E) as (i & ev & _ & H & _). by rewrite He in H.
Qed.

(** After [install] the partition holds what the round saw. *)
Lemma install_sagas e p b r last :
  round_ok e p b r →
  (∀ id, pSagas (install r last p) !! id = get p r id) ∧ pK (install r last p) = pK p ∧
  pInHi (install r last p) = rdMaxIn r ∧
  pLastEv (install r last p) = (if decide (rdEvents r = []) then pLastEv p else last).
Proof.
  intros Hr. unfold install. destruct (rdEvents r) as [|ev evs] eqn:Ev.
  - cbn. rewrite decide_True by done. split_and!; try done. intros id. unfold get.
    by rewrite (no_events_untouched _ _ _ _ Hr Ev).
  - set (p0 := mkPartition (pK p) (pSagas p) last (pInHi p) (pRound p) (pWheel p) (pTerminals p) (pSinceSnapshot p) (pEvents p)).
    destruct (installOne_fold r (rdTouched r) p0) as (H1 & H2 & H3 & H4 & _).
    { intros id. by apply (ro_touched _ _ _ _ Hr). }
    cbn. split_and!; [|exact H2|done|exact H3]. intros id. rewrite H1. unfold get. cbn.
    destruct (decide (id ∈ rdTouched r)) as [Hi|Hi].
    + apply (ro_touched _ _ _ _ Hr) in Hi as [st ->]. done.
    + destruct (rdOverlay r !! id) eqn:E; [|done]. exfalso. apply Hi. apply (ro_touched _ _ _ _ Hr). by rewrite E.
Qed.

(** Pruning removes only prunable states older than the cutoff. *)
Lemma pruneLoop_spec fuel cutoff : ∀ p,
  let p' := pruneLoop fuel cutoff p in
  pK p' = pK p ∧ pLastEv p' = pLastEv p ∧ pInHi p' = pInHi p ∧
  ∀ id, pSagas p' !! id = pSagas p !! id ∨
    (pSagas p' !! id = None ∧
     ∃ st, pSagas p !! id = Some st ∧ prunable (rStatus (ssRecord st)) = true ∧ rUpdatedAt (ssRecord st) < cutoff).
Proof.
  induction fuel as [|f IH]; intros p; cbn [pruneLoop]; [split_and!; auto|].
  destruct (pTerminals p) as [|head rest]; [split_and!; auto|].
  destruct (negb (Before (peUpdatedAt head) cutoff)) eqn:Eb; [split_and!; auto|].
  set (dr := match pSagas p !! peId head with Some _ => _ | None => _ end).
  set (p1 := mkPartition _ _ _ _ _ _ _ _ _). destruct (IH p1) as (H1 & H2 & H3 & H4).
  split_and!; [exact H1|exact H2|exact H3|]. intros id.
  destruct dr eqn:Ed; [|apply H4].
  destruct (decide (id = peId head)) as [->|Hne].
  - right. unfold dr in Ed. destruct (pSagas p !! peId head) as [st|]; [|done]. unfold Before in Eb. to_prop.
    destruct Ed as [Eu Ep]. split; [|exists st; split_and!; [done..|lia]].
    destruct (H4 (peId head)) as [->|[? _]]; [|done]. cbn. apply lookup_delete_eq.
  - specialize (H4 id). cbn in H4. by rewrite lookup_delete_ne in H4.
Qed.

Lemma partition_ok_mono e b b' p : b ≤ b' → partition_ok e b p → partition_ok e b' p.
Proof. intros Hb Hp id st Hst. destruct (Hp id st Hst) as (? & ? & ? & ?). split_and!; try done. lia. Qed.

(** ** Rounds in sequence *)

(** What a round takes from outside: the inputs read, the draws of [start],
    the clock, and the stream sequence of its last published event. *)
Record roundIn := mkRoundIn {
  riBatch : list LogMsg;
  riEnv : Z → StartEnv;
  riNow : Time;
  riLastEv : Z
}.

(** One turn of the loop whose publication succeeds; the published messages
    are returned. *)
Definition runRound (e : Engine) (p : partition) (i : roundIn) : partition * list outMsg :=
  let '(p, r) := decide_ e p (riEnv i) (riBatch i) (riNow i) in
  let '(p, out) := commit e p r (riLastEv i) in
  (prune e (riNow i) p, out).

Definition runRounds (e : Engine) (p : partition) (rounds : list roundIn) : partition * list outMsg :=
  fold_left (λ s i, let '(p, out) := runRound e (fst s) i in (p, snd s ++ out)) rounds (p, []).

(** A partition of an empty log. *)
Definition newPartition (k : Z) (tick : Duration) (slots : Z) (now : Time) : partition :=
  mkPartition k ∅ 0 0 0 (newWheel tick slots now) [] 0 0.

(** A bound on the transitions of the rounds: every input and every round's
    timers may advance a saga once. *)
Fixpoint work (rounds : list roundIn) : Z :=
  match rounds with
  | [] => 0
  | i :: rounds' => zlen (riBatch i) + 1 + work rounds'
  end.

Lemma work_nonneg rounds : 0 ≤ work rounds.
Proof. induction rounds as [|i rounds IH]; cbn; zlen_facts; lia. Qed.

(** ** What a round publishes *)

(** The data of messages that carry these events, each with some watermark. *)
Definition carries (e : Engine) (his : list Z) (events : list logEvent) (datas : list bytes) : Prop :=
  length his = length events ∧ datas = zip_with (λ hi ev, jEvent (eJson e) (seal hi ev)) his events.

Lemma carries_app e h1 h2 e1 e2 d1 d2 : carries e h1 e1 d1 → carries e h2 e2 d2 → carries e (h1 ++ h2) (e1 ++ e2) (d1 ++ d2).
Proof.
  intros [L1 ->] [L2 ->]. split; [rewrite !length_app; lia|]. by rewrite zip_with_app.
Qed.

Lemma chunkMsgs_carries e base hi l : ∀ i,
  carries e (replicate (length l) hi) (map fst l) (map omData (chunkMsgs e base hi i l)).
Proof.
  induction l as [|[ev subject] l IH]; intros i; [done|]. cbn [chunkMsgs map length replicate fst].
  destruct (IH (S i)) as [L ->]. split; [cbn; by rewrite length_replicate, length_map|done].
Qed.

Lemma publishChunks_carries fuel e base inHi maxIn : ∀ i l,
  (length l ≤ fuel)%nat →
  ∃ his, carries e his (map fst l) (map omData (concat (publishChunks fuel e base inHi maxIn i l))) ∧
    Forall (λ hi, hi = inHi ∨ hi = maxIn) his.
Proof.
  induction fuel as [|f IH]; intros i l Hl; cbn [publishChunks].
  { destruct l; [|cbn in Hl; lia]. exists []. split; [done|constructor]. }
  destruct l as [|x l]; [exists []; split; [done|constructor]|].
  set (here := take LogBatchMaxMessages (x :: l)). set (rest := drop LogBatchMaxMessages (x :: l)).
  set (hi := match rest with [] => maxIn | _ => inHi end).
  assert (length rest ≤ f)%nat as Hr by (unfold rest, LogBatchMaxMessages; rewrite length_drop; cbn in *; lia).
  destruct (IH (i + length here)%nat rest Hr) as (his & Hc & Hh).
  exists (replicate (length here) hi ++ his). split.
  - cbn [concat]. rewrite map_app. rewrite <- (take_drop LogBatchMaxMessages (x :: l)) at 1. fold here rest.
    rewrite map_app. apply carries_app; [apply chunkMsgs_carries|done].
  - apply Forall_app. split; [|done]. apply Forall_replicate. unfold hi. destruct rest; auto.
Qed.

Lemma map_fst_combine {A B} (l : list A) : ∀ k : list B, (length l ≤ length k)%nat → map fst (combine l k) = l.
Proof. induction l as [|x l IH]; intros [|y k] H; cbn in *; [done|done|lia|]. f_equal. apply IH. lia. Qed.

(** ** One turn of the loop *)

Lemma publish_frame e p r :
  pSagas (fst (publish e p r)) = pSagas p ∧ pK (fst (publish e p r)) = pK p ∧
  pLastEv (fst (publish e p r)) = pLastEv p ∧ pInHi (fst (publish e p r)) = pInHi p.
Proof. done. Qed.

Lemma round_ok_frame e p p' b r : pSagas p' = pSagas p → pK p' = pK p → round_ok e p b r → round_ok e p' b r.
Proof.
  intros E1 E2 [A1 A2 A3 A4 A5 A6 A7 A8]. split; try done; [|by rewrite E2].
  intros id st. unfold get. rewrite E1, E2. apply A1.
Qed.

(** A commit publishes the round's events and installs what the round saw. *)
Lemma commit_spec e p b r last :
  round_ok e p b r →
  (∃ his, carries e his (rdEvents r) (map omData (snd (commit e p r last))) ∧
     Forall (λ hi, hi = pInHi p ∨ hi = rdMaxIn r) his) ∧
  (∀ id, pSagas (fst (commit e p r last)) !! id = get p r id) ∧ pK (fst (commit e p r last)) = pK p ∧
  pInHi (fst (commit e p r last)) = rdMaxIn r ∧
  pLastEv (fst (commit e p r last)) = (if decide (rdEvents r = []) then pLastEv p else last).
Proof.
  intros Hr. unfold commit. destruct (rdEvents r) as [|ev evs] eqn:Ev.
  { destruct (install_sagas e p b r (pLastEv p) Hr) as (I1 & I2 & I3 & I4). rewrite Ev in I4.
    split_and!; try done. by exists []. }
  destruct (publish_frame e p r) as (E1 & E2 & E3 & E4).
  assert (∃ his, carries e his (rdEvents r) (map omData (concat (snd (publish e p r)))) ∧
          Forall (λ hi, hi = pInHi p ∨ hi = rdMaxIn r) his) as (his & Hc & Hh).
  { unfold publish. cbn [snd fst].
    destruct (publishChunks_carries (length (rdEvents r)) e (eWriter e ++ str "." ++ Itoa (pK p) ++ str "." ++
      Itoa (pLastEv p) ++ str "." ++ Itoa (u64 (pRound p + 1))) (pInHi p) (rdMaxIn r) 0
      (combine (rdEvents r) (rdEventSubjects r))) as (his & Hc & Hh).
    - rewrite length_combine. lia.
    - exists his. split; [|done]. pose proof (ro_subjects _ _ _ _ Hr).
      rewrite map_fst_combine in Hc by lia. exact Hc. }
  rewrite Ev in Hc. destruct (publish e p r) as [p2 chunks]. cbn [fst snd] in *.
  pose proof (round_ok_frame e p p2 _ r ltac:(congruence) ltac:(congruence) Hr) as Hr2.
  destruct (install_sagas e p2 _ r last Hr2) as (I1 & I2 & I3 & I4). rewrite Ev in I4.
  split_and!; [by exists his| |congruence|done|exact I4].
  intros id. rewrite I1. unfold get. by rewrite E1.
Qed.

Lemma decide_frame e p env batch now :
  pSagas (fst (decide_ e p env batch now)) = pSagas p ∧ pK (fst (decide_ e p env batch now)) = pK p ∧
  pInHi (fst (decide_ e p env batch now)) = pInHi p ∧ pLastEv (fst (decide_ e p env batch now)) = pLastEv p.
Proof. unfold decide_. by destruct (advance _ _ _). Qed.

(** The round of a turn and what it leaves: the decided round satisfies the
    invariant, the messages carry its events, and the partition holds what
    the round saw, less what was pruned. *)
Lemma runRound_spec e p i b :
  engine_ok e → partition_ok e b p → 0 < riNow i → 0 ≤ b → b + zlen (riBatch i) < 2^64 - 1 →
  ∃ r his, r = snd (decide_ e p (riEnv i) (riBatch i) (riNow i)) ∧
    round_ok e p (λ _, b + zlen (riBatch i) + 1) r ∧
    carries e his (rdEvents r) (map omData (snd (runRound e p i))) ∧
    Forall (λ hi, hi = pInHi p ∨ hi = rdMaxIn r) his ∧
    pK (fst (runRound e p i)) = pK p ∧ pInHi (fst (runRound e p i)) = rdMaxIn r ∧
    ∀ id, pSagas (fst (runRound e p i)) !! id = get p r id ∨
      (pSagas (fst (runRound e p i)) !! id = None ∧ ∃ st, get p r id = Some st ∧
       prunable (rStatus (ssRecord st)) = true ∧ rUpdatedAt (ssRecord st) < riNow i - eTerminalRetention e).
Proof.
  intros He Hp Hn Hb Hlt. pose proof (decide_ok e p (riEnv i) (riBatch i) (riNow i) b He Hp Hn Hb Hlt) as Hr.
  destruct (decide_frame e p (riEnv i) (riBatch i) (riNow i)) as (D1 & D2 & D3 & D4). unfold runRound.
  destruct (decide_ e p (riEnv i) (riBatch i) (riNow i)) as [p1 r]. cbn [fst snd] in *.
  pose proof (round_ok_frame e p p1 _ r D1 D2 Hr) as Hr1.
  destruct (commit_spec e p1 _ r (riLastEv i) Hr1) as ((his & Hc & Hh) & C1 & C2 & C3 & _).
  destruct (commit e p1 r (riLastEv i)) as [p2 out]. cbn [fst snd] in *. unfold prune.
  destruct (pruneLoop_spec pruneBatch (riNow i - eTerminalRetention e) p2) as (P1 & P2 & P3 & P4).
  exists r, his. rewrite D3 in Hh. split_and!; [done|done|done|done|congruence|congruence|].
  intros id. assert (get p1 r id = get p r id) as Hg by (unfold get; by rewrite D1).
  destruct (P4 id) as [->|(-> & st & Hst & Hpr & Hup)]; rewrite C1, Hg in *; eauto 6.
Qed.

Lemma runRound_ok e p i b :
  engine_ok e → partition_ok e b p → 0 < riNow i → 0 ≤ b → b + zlen (riBatch i) < 2^64 - 1 →
  partition_ok e (b + zlen (riBatch i) + 1) (fst (runRound e p i)) ∧ pK (fst (runRound e p i)) = pK p.
Proof.
  intros He Hp Hn Hb Hlt. destruct (runRound_spec e p i b He Hp Hn Hb Hlt) as (r & his & _ & Hr & _ & _ & Hk & _ & Hs).
  split; [|done]. intros id st Hst. rewrite Hk. apply (ro_states _ _ _ _ Hr). by destruct (Hs id) as [<-|[? _]]; [|congruence].
Qed.

(** A message whose data is an event that the replay of the log accepts. *)
Definition logged (e : Engine) (k : Z) (m : outMsg) : Prop :=
  ∃ ev, omData m = jEvent (eJson e) ev ∧ event_ok (eLayout e) k ev = true.

Lemma carries_logged e k his events ms :
  carries e his events (map omData ms) → Forall (ev_ok e k) events → Forall (logged e k) ms.
Proof.
  intros [_ Hd] Hev. revert his ms Hd. induction Hev as [|ev events Hev _ IH]; intros [|hi his] [|m ms] Hd; try done.
  cbn in Hd. injection Hd as Hm Hd. constructor; [|by eapply IH]. by exists (seal hi ev).
Qed.

Lemma runRounds_ok e rounds : ∀ b p out,
  engine_ok e → partition_ok e b p → Forall (λ i, 0 < riNow i) rounds → 0 ≤ b → b + work rounds < 2^64 - 1 →
  Forall (logged e (pK p)) out →
  let s := fold_left (λ s i, let '(p, out) := runRound e (fst s) i in (p, snd s ++ out)) rounds (p, out) in
  partition_ok e (b + work rounds) (fst s) ∧ pK (fst s) = pK p ∧ Forall (logged e (pK p)) (snd s).
Proof.
  induction rounds as [|i rounds IH]; intros b p out He Hp Hn Hb Hlt Hout; cbn [fold_left fst snd].
  { cbn. split_and!; [|done..]. eapply partition_ok_mono; [|done]. lia. }
  inversion_clear Hn as [|? ? Hi Hn']. cbn [work] in *. pose proof (work_nonneg rounds). zlen_facts.
  destruct (runRound_ok e p i b) as [Hp' Hk]; [done..|lia|].
  destruct (runRound_spec e p i b) as (r & his & _ & Hr & Hc & _); [done..|lia|].
  destruct (runRound e p i) as [p' out'] eqn:E. cbn [fst snd] in *.
  destruct (IH (b + zlen (riBatch i) + 1) p' (out ++ out') He Hp' Hn') as (I1 & I2 & I3); [lia..| |].
  { rewrite Hk. apply Forall_app. split; [done|]. eapply carries_logged; [done|apply Hr]. }
  split_and!; [|etrans; [exact I2|exact Hk]|by rewrite <- Hk]. eapply partition_ok_mono; [|exact I1]. lia.
Qed.

Lemma runRounds_acc e rounds : ∀ p out,
  fold_left (λ s i, let '(p, out) := runRound e (fst s) i in (p, snd s ++ out)) rounds (p, out) =
  (fst (runRounds e p rounds), out ++ snd (runRounds e p rounds)).
Proof.
  unfold runRounds. induction rounds as [|i rounds IH]; intros p out; cbn [fold_left fst snd]; [by rewrite app_nil_r|].
  destruct (runRound e p i) as [p1 o1]. rewrite IH, (IH p1 ([] ++ o1)). cbn. by rewrite <- app_assoc.
Qed.

Lemma runRounds_app e p rounds1 rounds2 :
  runRounds e p (rounds1 ++ rounds2) =
  (fst (runRounds e (fst (runRounds e p rounds1)) rounds2),
   snd (runRounds e p rounds1) ++ snd (runRounds e (fst (runRounds e p rounds1)) rounds2)).
Proof.
  unfold runRounds at 1. rewrite fold_left_app. fold (runRounds e p rounds1).
  destruct (runRounds e p rounds1) as [p1 o1]. apply runRounds_acc.
Qed.

Lemma runRounds_cons e p i rounds :
  runRounds e p (i :: rounds) =
  (fst (runRounds e (fst (runRound e p i)) rounds), snd (runRound e p i) ++ snd (runRounds e (fst (runRound e p i)) rounds)).
Proof. change (i :: rounds) with ([i] ++ rounds). rewrite runRounds_app. cbn. by destruct (runRound e p i). Qed.

Lemma work_app r1 r2 : work (r1 ++ r2) = work r1 + work r2.
Proof. induction r1 as [|i r1 IH]; cbn; lia. Qed.

(** A run of a partition from an empty log, as a premise. *)
Record run_ok (e : Engine) (rounds : list roundIn) : Prop := {
  ru_engine : engine_ok e;
  ru_clock : Forall (λ i, 0 < riNow i) rounds;
  ru_versions : work rounds < 2^64 - 1
}.

Lemma run_states_ok e k tick slots now rounds :
  run_ok e rounds → let s := runRounds e (newPartition k tick slots now) rounds in
  (∀ id st, pSagas (fst s) !! id = Some st → filed e k (work rounds) id st) ∧ Forall (logged e k) (snd s).
Proof.
  intros [He Hn Hw]. cbn zeta. unfold runRounds.
  destruct (runRounds_ok e rounds 0 (newPartition k tick slots now) []) as (H1 & H2 & H3); [done|done|done|lia|lia|done|].
  split; [|done]. intros id st Hst. destruct (H1 id st Hst) as (F1 & F2 & F3 & F4). rewrite H2 in F3. by split_and!.
Qed.
