(* ===== verification/SagaIssue.v ===== *)
(** * Invariants of runs, and attempts already issued

    What every step of a saga preserves, every run of a partition preserves.
    A command is one attempt of one operation in one incarnation of a run:
    [spent] says of an attempt that a state can no longer issue it; every
    step keeps it, and an attempt just issued satisfies it. *)

From Stdlib Require Import String.
From S2P Require Import Prelude Bytes GoStr GoJson SagaRecord SagaKeys SagaTransition SagaRecordInv.
From S2P Require Import SagaTransitionInv SagaLayout SagaWheel SagaWire SagaPartition SagaStateInv SagaStep.
From S2P Require Import SagaRound SagaRun.

Definition view : Type := bytes → option sagaState.
Definition invariant : Type := list bytes → view → list Command → Prop.

Definition held (p : partition) : view := λ id, pSagas p !! id.
Definition wrote (st : sagaState) (v : view) : view := λ id, if decide (id = rID (ssRecord st)) then Some st else v id.

(** Every step of one saga preserves [I], and so does forgetting states. *)
Record preserved (e : Engine) (k bound : Z) (I : invariant) : Prop := {
  pr_step : ∀ used used' v cmds now st kind cmd,
    I used v cmds → 0 < now → (∀ id st0, v id = Some st0 → filed e k bound id st0) →
    saga_step e k now (v (rID (ssRecord st))) st kind cmd →
    (used ⊆ used') →
    (v (rID (ssRecord st)) = None → (rLifecycle (ssRecord st) ∉ used) ∧ (rLifecycle (ssRecord st) ∈ used')) →
    I used' (wrote st v) (cmds ++ option_list cmd);
  pr_less : ∀ used used' v v' cmds cmds',
    I used v cmds → (used ⊆ used') → (∀ id, v' id = v id ∨ v' id = None) → cmds ≡ₚ cmds' → I used' v' cmds'
}.

(** The lifecycles drawn while the messages of a batch, of rounds, are
    handled. *)
Definition batch_lives (env : Z → StartEnv) (batch : list LogMsg) : list bytes := map (λ m, seLifecycle (env (mSeq m))) batch.
Definition lifecycles (rounds : list roundIn) : list bytes := concat (map (λ i, batch_lives (riEnv i) (riBatch i)) rounds).

Section Invariant.
Context (e : Engine) (k bound : Z) (I : invariant) (He : engine_ok e) (HI : preserved e k bound I).

Lemma write_commands p st kind cmd r :
  omap evCommand (rdEvents (write e p st kind cmd r)) ≡ₚ omap evCommand (rdEvents r) ++ option_list cmd.
Proof.
  unfold write. destruct (emit_events e p st kind cmd (put st r)) as (ev & _ & V2 & _ & _ & _ & Hor & _).
  change (rdEventAt (put st r)) with (rdEventAt r) in Hor. change (rdEvents (put st r)) with (rdEvents r) in Hor.
  destruct Hor as [(i & old & s & _ & Ho & -> & _ & _ & Hnone)|(s & -> & _)].
  - rewrite insert_take_drop by (by eapply lookup_lt_Some).
    rewrite <- (take_drop_middle (rdEvents r) i old Ho) at 3. rewrite !omap_app. cbn. rewrite V2, Hnone.
    destruct cmd; cbn; [|by rewrite app_nil_r]. rewrite <- app_assoc. f_equiv. apply Permutation_cons_append.
  - rewrite omap_app. cbn. rewrite V2. by destruct cmd.
Qed.

(** The round's view and commands, after those [old]. *)
Definition during (p : partition) (used : list bytes) (old : list Command) (r : Round) : Prop :=
  I used (get p r) (old ++ omap evCommand (rdEvents r)).

Lemma during_view p used used' old r r' : same_view r r' → (used ⊆ used') → during p used old r → during p used' old r'.
Proof.
  intros Hv Hu Hd. unfold during. rewrite (sv_events _ _ Hv). eapply (pr_less _ _ _ _ HI); [exact Hd|done| |done].
  intros id. left. by apply view_get.
Qed.

Lemma during_write p b used used' old r st kind cmd :
  pK p = k → round_ok e p b r → (∀ id, b id ≤ bound) → 0 < rdNow r → during p used old r →
  saga_step e k (rdNow r) (get p r (rID (ssRecord st))) st kind cmd → (used ⊆ used') →
  (get p r (rID (ssRecord st)) = None → (rLifecycle (ssRecord st) ∉ used) ∧ (rLifecycle (ssRecord st) ∈ used')) →
  during p used' old (write e p st kind cmd r).
Proof.
  intros Hk Hr Hb Hn Hd Hs Hu Hl. unfold during.
  eapply (pr_less _ _ _ _ HI); [eapply (pr_step _ _ _ _ HI used used' (get p r)); [exact Hd|exact Hn| |exact Hs|done|done]|done| |].
  - intros id st0 Hg. destruct (ro_states _ _ _ _ Hr id st0 Hg) as (F1 & F2 & F3 & F4). specialize (Hb id).
    rewrite <- Hk. split_and!; try done. lia.
  - intros id. left. unfold wrote. rewrite <- put_get. unfold write.
    destruct (emit_events e p st kind cmd (put st r)) as (ev & _ & _ & _ & _ & _ & _ & E & _). unfold get. by rewrite E.
  - rewrite <- app_assoc. f_equiv. symmetry. apply write_commands.
Qed.

Lemma during_input p env b used old r msg :
  pK p = k → round_ok e p b r → (∀ id, b id ≤ bound) → 0 < rdNow r → during p used old r →
  seLifecycle (env (mSeq msg)) ∉ used →
  during p (seLifecycle (env (mSeq msg)) :: used) old (input e p env r msg).
Proof.
  intros Hk Hr Hb Hn Hd Hl. destruct (input_handled e p env b r msg Hr Hn) as (r0 & Hv & [Hv'|(st & kind & cmd & Hs & Hv' & Hlc)]).
  - eapply (during_view p used _ old r); [by etrans; [exact Hv|exact Hv']|set_solver|exact Hd].
  - eapply (during_view p (seLifecycle (env (mSeq msg)) :: used)); [exact Hv'|done|].
    rewrite <- (sv_now _ _ Hv) in Hn. eapply (during_write p b used); try done; [by eapply round_ok_view| |by rewrite <- Hk|set_solver|].
    + by eapply (during_view p used _ old r).
    + intros Hg. rewrite (Hlc Hg). split; [done|by left].
Qed.

Lemma during_inputs p env old batch : ∀ b used r,
  pK p = k → round_ok e p (λ _, b) r → 0 ≤ b → b + zlen batch ≤ bound → bound < 2^64 - 1 → 0 < rdNow r →
  NoDup (batch_lives env batch ++ used) → during p used old r →
  during p (batch_lives env batch ++ used) old (fold_left (input e p env) batch r).
Proof.
  induction batch as [|msg batch IH]; intros b used r Hk Hr Hb Hle Hlt Hn Hnd Hd; cbn [fold_left batch_lives map app]; [done|].
  rewrite zlen_cons in *. zlen_facts. cbn [batch_lives map app] in Hnd. fold (batch_lives env batch) in *.
  destruct (input_ok e p env (λ _, b) r msg He Hr Hn) as [Hr' Hn']; [intros ?; lia|].
  assert (batch_lives env batch ++ seLifecycle (env (mSeq msg)) :: used ≡ₚ seLifecycle (env (mSeq msg)) :: batch_lives env batch ++ used) as Hperm
    by (by rewrite Permutation_middle).
  pose proof (during_input p env (λ _, b) used old r msg Hk Hr ltac:(intros; cbn; lia) Hn Hd) as Hd'.
  assert (during p (batch_lives env batch ++ seLifecycle (env (mSeq msg)) :: used) old (fold_left (input e p env) batch (input e p env r msg))) as Hfin.
  { apply (IH (b + 1)); [done|done|lia|lia|done|by rewrite Hn'|by rewrite Hperm|].
    apply Hd'. inversion_clear Hnd as [|? ? Hni _]. set_solver. }
  eapply (during_view p); [reflexivity| |exact Hfin]. intros x. by rewrite Hperm.
Qed.

Lemma during_due p b used old r seen id st :
  pK p = k → round_ok e p (seen_bound b seen) r → b + 1 ≤ bound → 0 < rdNow r → during p used old r →
  get p r id = Some st → dueNow st (rdNow r) = true → during p used old (due e p st r).
Proof.
  intros Hk Hr Hb Hn Hd Hg Hdue. pose proof (round_ok_keyed _ _ _ _ Hr id st Hg) as Hid.
  destruct (due_step e p st r Hdue) as (st' & kind & cmd & Hid' & Hs & Hv). rewrite Hid in Hid'.
  eapply during_view; [exact Hv|done|].
  eapply during_write; [done|exact Hr| |done|exact Hd| |done|]; rewrite ?Hid', ?Hg; [|by rewrite <- Hk|done].
  intros x. unfold seen_bound. case_decide; lia.
Qed.

Lemma during_decide p env batch now b used :
  ∀ old, pK p = k → partition_ok e b p → 0 < now → 0 ≤ b → b + zlen batch + 1 ≤ bound → bound < 2^64 - 1 →
  NoDup (batch_lives env batch ++ used) → I used (held p) old →
  during p (batch_lives env batch ++ used) old (snd (decide_ e p env batch now)).
Proof.
  intros old Hk Hp Hn Hb Hle Hlt Hnd H0. unfold decide_. zlen_facts.
  pose proof (newRound_ok e p b now Hp) as Hr0.
  destruct (inputs_ok e p env batch b (newRound p now) He Hr0) as [Hr Hnow]; [done|done|lia|].
  assert (during p used old (newRound p now)) as Hd0.
  { unfold during. cbn. rewrite app_nil_r. eapply (pr_less _ _ _ _ HI); [exact H0|done| |done]. intros id. by left. }
  pose proof (during_inputs p env old batch b used _ Hk Hr0 Hb ltac:(lia) Hlt Hn Hnd Hd0) as Hd.
  destruct (advance (pWheel p) now []) as [w ids]. cbn [snd]. set (r := fold_left _ _ _) in *.
  destruct (dueLoop_ind e p (λ seen r0, round_ok e p (seen_bound (b + zlen batch) seen) r0 ∧ rdNow r0 = now ∧
      during p (batch_lives env batch ++ used) old r0) (ids ++ rdTouched r)) with (seen := @nil bytes) (r := r)
    as (seen' & _ & _ & Hfin); [..|exact Hfin].
  - intros seen r0 id (R1 & R2 & R3). split_and!; [by apply seen_more|done|done].
  - intros seen r0 id st (R1 & R2 & R3) Hin Hg Hdue.
    destruct (due_ok e p (b + zlen batch) seen r0 id st) as [R1' R2']; [done|done|lia|lia|done..|].
    split_and!; [done|congruence|]. eapply (during_due p (b + zlen batch)); try done; lia.
  - split_and!; [|done|exact Hd]. eapply round_ok_mono; [|exact Hr]. intros id. unfold seen_bound.
    rewrite decide_False by apply not_elem_of_nil. done.
Qed.

(** One turn of the loop. *)
Lemma run_round p i b used old :
  pK p = k → partition_ok e b p → 0 < riNow i → 0 ≤ b → b + zlen (riBatch i) + 1 ≤ bound → bound < 2^64 - 1 →
  NoDup (batch_lives (riEnv i) (riBatch i) ++ used) → I used (held p) old →
  ∃ his events, carries e his events (map omData (snd (runRound e p i))) ∧
    I (batch_lives (riEnv i) (riBatch i) ++ used) (held (fst (runRound e p i))) (old ++ omap evCommand events).
Proof.
  intros Hk Hp Hn Hb Hle Hlt Hnd H0.
  destruct (runRound_spec e p i b He Hp Hn Hb) as (r & his & Hrd & _ & Hc & _ & _ & _ & Hs); [lia|].
  pose proof (during_decide p (riEnv i) (riBatch i) (riNow i) b used old Hk Hp Hn Hb Hle Hlt Hnd H0) as Hd.
  rewrite <- Hrd in Hd. exists his, (rdEvents r). split; [done|].
  eapply (pr_less _ _ _ _ HI); [exact Hd|done| |done]. intros id. unfold held. destruct (Hs id) as [->|[-> _]]; auto.
Qed.

(** Every run. *)
Lemma run_rounds rounds : ∀ p b used old,
  pK p = k → partition_ok e b p → Forall (λ i, 0 < riNow i) rounds → 0 ≤ b → b + work rounds ≤ bound → bound < 2^64 - 1 →
  NoDup (lifecycles rounds ++ used) → I used (held p) old →
  ∃ his events, carries e his events (map omData (snd (runRounds e p rounds))) ∧
    I (lifecycles rounds ++ used) (held (fst (runRounds e p rounds))) (old ++ omap evCommand events).
Proof.
  induction rounds as [|i rounds IH]; intros p b used old Hk Hp Hn Hb Hle Hlt Hnd H0.
  { exists [], []. cbn. by rewrite app_nil_r. }
  rewrite runRounds_cons. cbn [fst snd]. inversion_clear Hn as [|? ? Hi Hn']. cbn [work] in *.
  pose proof (work_nonneg rounds). zlen_facts. change (lifecycles (i :: rounds)) with (batch_lives (riEnv i) (riBatch i) ++ lifecycles rounds) in *.
  assert (lifecycles rounds ++ batch_lives (riEnv i) (riBatch i) ++ used ≡ₚ
    (batch_lives (riEnv i) (riBatch i) ++ lifecycles rounds) ++ used) as Hperm by (rewrite !app_assoc; f_equiv; apply Permutation_app_comm).
  pose proof Hnd as Hnd'. rewrite <- Hperm in Hnd'.
  destruct (run_round p i b used old) as (his & events & Hc & Hd); [done..|lia|done| |done|].
  { by apply NoDup_app in Hnd' as (_ & _ & ?). }
  destruct (runRound_ok e p i b) as [Hp' Hk']; [done..|lia|].
  destruct (IH (fst (runRound e p i)) (b + zlen (riBatch i) + 1) (batch_lives (riEnv i) (riBatch i) ++ used) (old ++ omap evCommand events))
    as (his' & events' & Hc' & Hd'); [congruence|done|done|lia|lia|done|done|done|].
  exists (his ++ his'), (events ++ events'). split; [rewrite map_app; by apply carries_app|].
  rewrite omap_app, app_assoc. eapply (pr_less _ _ _ _ HI); [exact Hd'| |by left|done]. intros x. by rewrite Hperm.
Qed.
End Invariant.

Record attempt := mkAttempt { aPhase : Phase; aStep : Z; aInc : Z; aAtt : Z }.

(** The command id of an attempt in a run. *)
Definition nameOf (r : Rec) (a : attempt) : bytes := commandID (opKey r (aPhase a) (aStep a)) (aInc a) (aAtt a).

(** An attempt of the current incarnation is behind the record. *)
Definition behind (st : sagaState) (a : attempt) : Prop :=
  let r := ssRecord st in
  match aPhase a with
  | PhaseForward =>
      rPhase r = PhaseForward → Terminal (rStatus r) = false →
      aStep a < rStep r ∨ (aStep a = rStep r ∧ aAtt a ≤ rAttempt r)
  | _ =>
      rPhase r = PhaseCompensate ∧ effective st (aStep a) ∧
      (remaining r (aStep a) → aStep a = rStep r ∧ aAtt a ≤ rAttempt r)
  end.

Record spent (st : sagaState) (a : attempt) : Prop := {
  sp_phase : real_phase (aPhase a);
  sp_step : step_range (aStep a);
  sp_inc : 0 ≤ aInc a ≤ rIncarnation (ssRecord st);
  sp_att : 1 ≤ aAtt a < 2^32;
  sp_forward : aPhase a = PhaseForward → rPhase (ssRecord st) = PhaseForward →
    aStep a ≤ rStep (ssRecord st) ∧ (rStatus (ssRecord st) = StatusCompleted → aStep a < rStep (ssRecord st));
  sp_behind : aInc a = rIncarnation (ssRecord st) → behind st a
}.

(** How a record moves without a new incarnation; [late] says of a step that
    its success was not accepted before. *)
Inductive moves (late : Z → Prop) (r r' : Rec) : Prop :=
| mv_turn : rPhase r = PhaseForward → rPhase r' = PhaseCompensate → moves late r r'
| mv_over : rPhase r = PhaseForward → rPhase r' = PhaseForward → Terminal (rStatus r') = true → rStep r ≤ rStep r' →
    (rStatus r' = StatusCompleted → rStep r < rStep r') → moves late r r'
| mv_next : rPhase r = PhaseForward → rPhase r' = PhaseForward → rStep r < rStep r' → moves late r r'
| mv_stay : rPhase r' = rPhase r → rStep r' = rStep r → rAttempt r ≤ rAttempt r' →
    (∀ s, remaining r' s → remaining r s) → (Terminal (rStatus r') = false → Terminal (rStatus r) = false) →
    (rStatus r' = StatusCompleted → rStatus r = StatusCompleted) → moves late r r'
| mv_undo : rPhase r = PhaseCompensate → rPhase r' = PhaseCompensate →
    (∀ s, remaining r' s → remaining r s ∧ s ≠ rStep r) → moves late r r'
| mv_late : rPhase r = PhaseCompensate → rPhase r' = PhaseCompensate →
    (∀ s, remaining r' s → remaining r s ∨ late s) →
    ((rStep r' = rStep r ∧ rAttempt r ≤ rAttempt r') ∨ rAttempt r ≤ 0 ∨ ∀ s, ¬ remaining r s) → moves late r r'.

Lemma spent_moves st st' a :
  rIncarnation (ssRecord st) ≤ rIncarnation (ssRecord st') →
  (∀ s, effective st s → effective st' s) →
  moves (λ s, ¬ effective st s) (ssRecord st) (ssRecord st') → spent st a → spent st' a.
Proof.
  intros Hinc Heff Hmv [S1 S2 S3 S4 S5 S6]. split; [done|done|lia|done| |].
  - intros Ha Hp. destruct Hmv as [? E|E _ _ Hs Hc|E _ Hs|E Hs _ _ _ Hc|? E _|? E _ _]; try congruence;
      destruct (S5 Ha ltac:(congruence)) as [H1 H2]; (split; [lia|intros Hd]); [specialize (Hc Hd); lia|lia|specialize (H2 (Hc Hd)); lia].
  - intros Heq. assert (aInc a = rIncarnation (ssRecord st)) as Heq0 by lia.
    specialize (S6 Heq0). unfold behind in *. destruct S1 as [Ha|Ha]; rewrite Ha in *.
    + intros Hp Ht. specialize (S5 eq_refl). destruct Hmv as [? E|E _ E2 _ _|E _ Hs|E Hs Hatt _ Hterm _|? E _|? E _ _]; try congruence.
      * destruct (S5 E). lia.
      * rewrite Hs. destruct (S6 ltac:(congruence) (Hterm Ht)); lia.
    + destruct S6 as (P1 & P2 & P3).
      destruct Hmv as [? E|E _ E2 _ _|E _ Hs|E Hs Hatt Hr _ _|_ E Hr|_ E Hr Hor]; try congruence.
      * split_and!; [congruence|by apply Heff|]. intros Hrem. rewrite Hs. destruct (P3 (Hr _ Hrem)). lia.
      * split_and!; [done|by apply Heff|]. intros Hrem. destruct (Hr _ Hrem) as [H1 H2]. by destruct (P3 H1).
      * split_and!; [done|by apply Heff|]. intros Hrem. destruct (Hr _ Hrem) as [H1|H1]; [|done].
        destruct (P3 H1) as [H2 H3]. destruct Hor as [[-> ?]|[?|Hno]]; [lia|lia|by destruct (Hno _ H1)].
Qed.

(** A new incarnation has issued nothing. *)
Lemma spent_bump st st' a :
  rIncarnation (ssRecord st) < rIncarnation (ssRecord st') →
  (rPhase (ssRecord st') = PhaseForward →
   rPhase (ssRecord st) = PhaseForward ∧ rStep (ssRecord st') = rStep (ssRecord st) ∧ rStatus (ssRecord st') ≠ StatusCompleted) →
  spent st a → spent st' a.
Proof.
  intros Hinc Hf [S1 S2 S3 S4 S5 S6]. split; [done|done|lia|done| |lia].
  intros Ha Hp. destruct (Hf Hp) as (E1 & -> & E2). destruct (S5 Ha E1). split; [done|by intros ?].
Qed.

(** ** The planners *)

Lemma shape_phase r : shape r → real_phase (rPhase r).
Proof. unfold shape, at_forward, at_compensate, real_phase. destruct (rStatus r); naive_solver. Qed.

Lemma compensationState_cases r reason now :
  rPhase (compensationState r reason now) = PhaseCompensate ∨
  (rPhase (compensationState r reason now) = rPhase r ∧ rStep (compensationState r reason now) = rStep r ∧
   rStatus (compensationState r reason now) = StatusFailed).
Proof.
  unfold compensationState. case_match; [by right|left]. apply nextCompensation_steps.
Qed.

Lemma compensationState_moves late r r0 reason now :
  rPhase r = PhaseForward → rPhase r0 = PhaseForward → rStep r ≤ rStep r0 → moves late r (compensationState r0 reason now).
Proof.
  intros Hp Hp0 Hs. destruct (compensationState_cases r0 reason now) as [H|(H1 & H2 & H3)].
  - by apply mv_turn.
  - apply mv_over; [done|congruence|by rewrite H3|lia|by rewrite H3].
Qed.

(** The same position, up to what a retry resets. *)
Definition same_place (r r0 : Rec) : Prop :=
  rPhase r0 = rPhase r ∧ rStep r0 = rStep r ∧ rAttempt r0 = rAttempt r ∧
  rCompletedSteps r0 = rCompletedSteps r ∧ rLateStep r0 = rLateStep r.

Lemma stay_moves late r r' :
  same_place r r' → Terminal (rStatus r) = false → rStatus r' ≠ StatusCompleted → moves late r r'.
Proof.
  intros (E1 & E2 & E3 & E4 & E5) Ht Hc. apply mv_stay; try done; [lia|].
  intros s. unfold remaining. by rewrite E4, E5.
Qed.

Lemma retryState_moves late r r0 d reason now :
  same_place r r0 → real_phase (rPhase r) → Terminal (rStatus r) = false → moves late r (retryState r0 d reason now).
Proof.
  intros Hs Hp Ht. unfold retryState. case_match; [|by apply stay_moves]. case_match.
  { apply stay_moves; [exact Hs|done|]. fields. by case_match. }
  case_match; to_prop; [by apply stay_moves|]. destruct Hs as (E1 & E2 & _).
  destruct Hp as [Hp|Hp]; [|by match goal with H : _ ≠ PhaseCompensate |- _ => destruct H; rewrite <- Hp, <- E1 end]. apply compensationState_moves; fields; [done|congruence|lia].
Qed.

Lemma planDue_moves late r d now :
  positioned r → Terminal (rStatus r) = false → 0 ≤ rAttempt r ≤ 1000 →
  moves late r (dpAfter (planDue r d now)).
Proof.
  intros Hp Ht Ha. pose proof (positioned_real r Hp) as Hr. unfold planDue.
  destruct d as [d|]; [|by apply stay_moves]. case_match.
  { to_prop. apply compensationState_moves; fields; tauto || lia. }
  case_match; [by apply retryState_moves|]. case_match; [|by apply stay_moves]. cbn zeta. cbn [dpAfter].
  apply mv_stay; fields; try done. rewrite u32_small by (unfold_int; lia). lia.
Qed.

Lemma applyCompletion_moves r d c i :
  rec_inv r → judgeCompletion r c i = verdictAccept → moves (λ _, False) r (applyCompletion r d c).
Proof.
  intros [Hb Hs] Hj. pose proof (accept_terminal _ _ _ Hj) as Ht. pose proof (shape_positioned r Hs Ht) as Hp.
  destruct (coSuccess c) eqn:Hc.
  - destruct (positioned_real r Hp) as [Hph|Hph].
    2:{ destruct (applyCompletion_success_compensate r d c Hb Hc Hp Hph) as (G1 & _ & _ & G4).
        apply mv_undo; [done..|]. intros s. apply G4. }
    pose proof (positioned_step r Hb Hp) as Hst. unfold applyCompletion. rewrite Hc, bool_decide_true by done. cbn zeta.
    case_match; [|case_match]; to_prop.
    + apply compensationState_moves; fields; [done|by repeat case_match|].
      rewrite i64_small; repeat case_match; fields; unfold_int; lia.
    + apply mv_next; fields; [done|by repeat case_match|]. rewrite i64_small; repeat case_match; fields; unfold_int; lia.
    + apply mv_next; fields; [done|by repeat case_match|]. rewrite i64_small; repeat case_match; fields; unfold_int; lia.
  - unfold applyCompletion. rewrite Hc. cbn zeta. set (r0 := wOperationKey _ _).
    assert (same_place r r0) as H0 by done. clearbody r0.
    case_match; [case_match eqn:Hph|]; to_prop.
    + by apply stay_moves.
    + destruct H0 as (E1 & E2 & _). destruct (positioned_real r Hp) as [Hf|Hf]; [|congruence].
      apply compensationState_moves; [done|congruence|lia].
    + apply retryState_moves; [done|by apply positioned_real|done].
Qed.

Lemma lateStepState_moves r c k late :
  rec_inv r → step_range k → rLateStep r = 0 → rCompletedSteps r ≤ k → late k →
  rPhase r = PhaseCompensate ∨ rStatus r = StatusFailed ∨ rStatus r = StatusManualRequired →
  moves late r (lateStepState r c k).
Proof.
  intros [Hb Hs] Hk Hl Hc Hlate Hor. unfold lateStepState. rewrite i64_small by (unfold step_range in Hk; unfold_int; lia).
  set (r0 := wLateData _ _). assert (∀ s, remaining r0 s → remaining r s ∨ late s) as Hrem.
  { unfold r0, remaining. fields. intros s [?|[_ ->]]; [auto|]. right. by replace (k + 1 - 1) with k by lia. }
  assert (rCompletedSteps r0 = rCompletedSteps r ∧ rLateStep r0 = k + 1 ∧ same_place r (wLateStep 0 r0) ∧ rStatus r0 = rStatus r)
    as (G1 & G2 & G3 & Hst0) by (split_and!; try done; by unfold same_place, r0; fields).
  clearbody r0. destruct G3 as (P1 & P2 & P3 & _). cbn [rPhase rStep rAttempt wLateStep] in *.
  destruct (empty (openOperation r) && _) eqn:E; to_prop.
  - destruct E as [Eo Em]. match goal with |- moves _ _ (nextCompensation ?r1 ?n) =>
      pose proof (nextCompensation_steps r1 n) as (F1 & F2 & F3); set (r' := nextCompensation r1 n) in * end. fields.
    cbn [rCompletedSteps rLateStep wLastError] in F1, F2.
    destruct (decide (rPhase r = PhaseForward)) as [Hf|Hf]; [by apply mv_turn|].
    assert (rPhase r = PhaseCompensate) as Hf'.
    { destruct Hor as [?|[Ho|Ho]]; [done| |congruence]. unfold shape, at_forward in Hs. rewrite Ho in Hs. naive_solver. }
    apply mv_late; [done..| |right].
    { intros s Hr. apply Hrem. revert Hr. unfold remaining. by rewrite F1, F2. }
    unfold openOperation, shape in *. destruct (rStatus r) eqn:Est; try congruence.
    + destruct Hs as ([Hx _] & _). congruence.
    + destruct Hs as (_ & [Hk0 _] & _). by rewrite Hk0, empty_false in Eo by apply currentOperation_nonempty.
    + left. destruct (Z.ltb_spec 0 (rAttempt r)); [by rewrite empty_false in Eo by apply currentOperation_nonempty|lia].
    + destruct Hs as [? _]. congruence.
    + right. destruct Hs as (_ & _ & Hc0 & Hl0 & _). unfold remaining. lia.
    + destruct Hs as [[Hx _] _]. congruence.
    + done.
  - assert (rPhase r = PhaseCompensate ∨ Terminal (rStatus r) = true) as Hor'.
    { destruct Hor as [?|[Ho|Ho]]; [by left|right; by rewrite Ho..]. }
    assert (rStatus r ≠ StatusCompleted ∧ real_phase (rPhase r)) as [Hnc Hph].
    { split; [intros Hx; unfold shape in Hs; rewrite Hx in Hs; destruct Hs as [? _], Hor as [?|[?|?]]; congruence|].
      by apply shape_phase. }
    destruct Hph as [Hf|Hf].
    + apply mv_over; [done|congruence|rewrite Hst0; by destruct Hor'; [congruence|]|lia|by rewrite Hst0].
    + apply mv_late; [done|congruence|done|left; lia].
Qed.

(** ** The steps *)

Lemma effective_apply st after t s :
  same_run (ssRecord st) after → effective st s → effective (applyState st after t) s.
Proof.
  intros Hrun. unfold effective, closure. rewrite (opKey_same (ssRecord st) (ssRecord (applyState st after t)))
    by (rewrite applyState_record; by apply same_run_written).
  unfold applyState. destruct (planTransition _ _ _) as [w close]. cbn [ssOps].
  destruct (empty close); [done|]. destruct (decide (opKey (ssRecord st) PhaseForward s = close)) as [->|Hne].
  - rewrite lookup_insert_eq. destruct (ssOps st !! close) as [tomb|]; [|done]. cbn. intros [= H]. by case_match; rewrite <- ?H.
  - by rewrite lookup_insert_ne.
Qed.

Lemma written_inc before after t :
  rIncarnation before < 2^32 - 1 → 0 ≤ rIncarnation before →
  rIncarnation (fst (planTransition before after t)) =
  rIncarnation before + (if (tCause t =s causeResume) || ((tCause t =s causeManualCompensate) && (rPhase before =s PhaseCompensate)) then 1 else 0).
Proof. intros H H0. rewrite planTransition_record. fields. case_match; [apply u32_small; unfold_int; lia|lia]. Qed.

Lemma moves_written late before after t : moves late before after → moves late before (fst (planTransition before after t)).
Proof.
  intros H. assert (∀ v, moves late before (wIncarnation v after)) as Hw.
  { intros v. destruct H; [by apply mv_turn|by apply mv_over|by apply mv_next|by apply mv_stay|by apply mv_undo|by apply mv_late]. }
  rewrite planTransition_record. apply Hw.
Qed.

Lemma moves_mono (late late' : Z → Prop) r r' : (∀ s, late s → late' s) → moves late r r' → moves late' r r'.
Proof.
  intros Hl []; [by apply mv_turn|by apply mv_over|by apply mv_next|by apply mv_stay|by apply mv_undo|].
  apply mv_late; try done. intros s Hs. destruct (H1 s Hs); auto.
Qed.

(** A transition that keeps the incarnation. *)
Lemma apply_spent st after t a :
  same_run (ssRecord st) after → moves (λ s, ¬ effective st s) (ssRecord st) after →
  rIncarnation (ssRecord st) < 2^32 - 1 → 0 ≤ rIncarnation (ssRecord st) →
  spent st a → spent (applyState st after t) a.
Proof.
  intros Hrun Hm Hi Hi0. apply spent_moves.
  - rewrite applyState_record, written_inc by done. case_match; lia.
  - intros s. by apply effective_apply.
  - rewrite applyState_record. by apply moves_written.
Qed.

(** One that begins a new one. *)
Lemma apply_bump st after t a :
  rIncarnation (ssRecord st) < 2^32 - 1 → 0 ≤ rIncarnation (ssRecord st) →
  tCause t = causeResume ∨ (tCause t = causeManualCompensate ∧ rPhase (ssRecord st) = PhaseCompensate) →
  (rPhase after = PhaseForward →
   rPhase (ssRecord st) = PhaseForward ∧ rStep after = rStep (ssRecord st) ∧ rStatus after ≠ StatusCompleted) →
  spent st a → spent (applyState st after t) a.
Proof.
  intros Hi Hi0 Hb Hf. apply spent_bump; rewrite applyState_record.
  - rewrite written_inc by done. case_match eqn:E; [lia|]. to_prop. naive_solver.
  - destruct (written_fields (ssRecord st) after t) as (-> & -> & -> & _). done.
Qed.

Lemma planResume_status r b q dl r' : planResume r b q dl = Ok r' → rStatus r' ≠ StatusCompleted.
Proof.
  unfold planResume. intros H. inv_ok. case_match; inv_ok; [|done]. unfold nextCompensation. by repeat case_match.
Qed.

Lemma planCompensate_turn r reason now after :
  planCompensate r reason now = CompensateWrite after → rPhase after = PhaseCompensate.
Proof.
  unfold planCompensate. repeat (case_match; [done|]). intros [= <-]. unfold beginCompensation, compensationState. fields.
  rewrite <- not_true_iff_false in *. case_match; [tauto|]. apply nextCompensation_steps.
Qed.

Lemma step_spent e k now st st' kind cmd :
  saga_step e k now (Some st) st' kind cmd → st_inv st → rIncarnation (ssRecord st) < 2^32 - 1 →
  ∀ a, spent st a → spent st' a.
Proof.
  intros Hstep Hinv Hi a. pose proof (si_rec st Hinv) as [Hb Hs]. pose proof (bi_inc _ Hb) as Hu. unfold_int.
  inversion Hstep; subst; clear Hstep.
  - apply apply_spent; [apply planDue_advances| |done|lia].
    apply planDue_moves; [by apply shape_positioned|done|apply (bi_attempt _ Hb)].
  - apply apply_spent; [apply applyCompletion_advances| |done|lia].
    eapply moves_mono; [|by eapply applyCompletion_moves]. done.
  - match goal with H : lateForwardStep _ _ = Some ?s |- _ => rename s into m end.
    destruct (late_step_facts st c m tomb Hinv) as (F1 & F2 & F3 & F4 & F5); [done..|].
    apply apply_spent; [apply lateStepState_advances| |done|lia]. apply lateStepState_moves; try done.
    + by apply (eo_abandoned st (si_effects st Hinv) m F2).
    + unfold effective, abandoned in *. congruence.
  - apply spent_moves; [done| |].
    + intros s. unfold effective, closure. cbn [ssRecord ssOps].
      destruct (decide (opKey (ssRecord st) PhaseForward s = coIdempotencyKey c)) as [->|Hne]; [|by rewrite lookup_insert_ne].
      match goal with H : ssOps st !! _ = Some _ |- _ => by rewrite lookup_insert_eq, H end.
    + by apply mv_stay.
  - apply apply_bump; [done|lia|by left|]. 
    match goal with H : planResume _ _ _ _ = Ok _ |- _ => destruct (planResume_steps _ _ _ _ _ (si_rec st Hinv) H) as [(_ & _ & E3) _]; rename H into Hpl end.
    intros Hf. destruct (E3 Hf). split_and!; [done..|]. by eapply planResume_status.
  - match goal with H : planCompensate _ _ _ = _ |- _ => pose proof (planCompensate_turn _ _ _ _ H) as Ht; pose proof (planCompensate_advances _ _ _ _ H) as Ha end.
    destruct (decide (rPhase (ssRecord st) = PhaseCompensate)) as [Hc|Hc].
    + apply apply_bump; [done|lia|by right|congruence].
    + apply apply_spent; [apply Ha| |done|lia]. apply mv_turn; [|done]. by destruct (shape_phase _ Hs).
Qed.

(** The incarnation never runs ahead of the version. *)
Lemma step_incarnation e k now before st' kind cmd :
  saga_step e k now before st' kind cmd → (∀ st, before = Some st → st_inv st) →
  (∀ st, before = Some st → rIncarnation (ssRecord st) < rVersion (ssRecord st) < 2^32 - 1) →
  rIncarnation (ssRecord st') < rVersion (ssRecord st').
Proof.
  intros Hstep Hinv Hlt. destruct Hstep.
  1:{ cbn [ssRecord]. unfold newStartRecord in *. destruct (startIntentDigest request); [|done]. cbn [mbind result_bind] in *. inv_ok. fields. lia. }
  all: specialize (Hlt st eq_refl); specialize (Hinv st eq_refl); pose proof (si_rec st Hinv) as [Hb _];
    pose proof (bi_inc _ Hb) as Hu; unfold_int.
  4: cbn [ssRecord]; lia.
  all: rewrite applyState_record, written_inc by lia;
    match goal with |- _ < rVersion (fst (planTransition ?b ?a ?t)) => destruct (written_fields b a t) as (_ & _ & _ & _ & _ & -> & _) end.
  - destruct (planDue_advances (ssRecord st) (definitionOf e (ssRecord st)) now) as (_ & Hv & _).
    unfold plan. rewrite Hv, u64_small by (unfold_int; lia). case_match; lia.
  - destruct (applyCompletion_advances (ssRecord st) d c) as (_ & Hv & _). rewrite Hv, u64_small by (unfold_int; lia). case_match; lia.
  - destruct (lateStepState_advances (ssRecord st) c s) as (_ & Hv & _). rewrite Hv, u64_small by (unfold_int; lia). case_match; lia.
  - match goal with H : planResume _ _ _ _ = Ok _ |- _ => destruct (planResume_advances _ _ _ _ _ H) as (_ & Hv & _) end.
    rewrite Hv, u64_small by (unfold_int; lia). case_match; lia.
  - match goal with H : planCompensate _ _ _ = _ |- _ => destruct (planCompensate_advances _ _ _ _ H) as (_ & Hv & _) end.
    rewrite Hv, u64_small by (unfold_int; lia). case_match; lia.
Qed.

(** The record of a dispatch. *)
Lemma dispatch_after r d now c :
  dpCommand (planDue r d now) = Some c → 0 ≤ rAttempt r ≤ 1000 →
  let after := dpAfter (planDue r d now) in
  is_Some d ∧ dpCause (planDue r d now) = causeDispatch ∧
  cID c = commandID (currentOperation r) (rIncarnation r) (rAttempt r + 1) ∧ cIdempotencyKey c = currentOperation r ∧
  cSagaID c = rID r ∧ rStatus after = StatusWaiting ∧ rPhase after = rPhase r ∧ rStep after = rStep r ∧
  rAttempt after = rAttempt r + 1 ∧ rCompletedSteps after = rCompletedSteps r ∧ rLateStep after = rLateStep r.
Proof.
  intros H Ha. cbn zeta. unfold planDue in *. destruct d as [d|]; [|done]. case_match; [done|]. case_match; [done|]. case_match; [|done].
  cbn zeta in *. cbn [dpCommand dpAfter dpCause] in *. injection H as <-. cbn [cID cIdempotencyKey cSagaID]. fields.
  rewrite u32_small by (unfold_int; lia). split_and!; done || by eexists.
Qed.

(** A command issued names a fresh attempt, spent from then on. *)
Lemma step_issues e k now st st' kind c :
  saga_step e k now (Some st) st' kind (Some c) → st_inv st → rIncarnation (ssRecord st) < 2^32 - 1 →
  ∃ a, cID c = nameOf (ssRecord st) a ∧ cIdempotencyKey c = opKey (ssRecord st) (aPhase a) (aStep a) ∧
    cSagaID c = rID (ssRecord st) ∧ is_Some (definitionOf e (ssRecord st)) ∧ ¬ spent st a ∧ spent st' a.
Proof.
  intros Hstep Hinv Hi. pose proof (si_rec st Hinv) as [Hb Hs]. pose proof (bi_inc _ Hb) as Hu.
  pose proof (bi_attempt _ Hb) as Hat. unfold_int.
  inversion Hstep; subst; clear Hstep. match goal with H : _ <$> _ = Some _ |- _ => apply fmap_Some in H as (c0 & Hc0 & ->) end.
  match goal with H : Terminal _ = false |- _ => rename H into Ht end.
  pose proof (shape_positioned _ Hs Ht) as Hp. pose proof (positioned_real _ Hp) as Hph. pose proof (positioned_step _ Hb Hp) as Hst.
  set (r := ssRecord st) in *. destruct (dispatch_after r (definitionOf e r) now c0 Hc0) as (Hd & D1 & D2 & D3 & D4 & D5 & D6 & D7 & D8 & D9 & D10); [done..|].
  exists (mkAttempt (rPhase r) (rStep r) (rIncarnation r) (rAttempt r + 1)).
  cbn [stamp cID cIdempotencyKey cSagaID aPhase aStep]. split_and!; [done..| |].
  - intros [_ _ _ _ _ S6]. specialize (S6 eq_refl). unfold behind in S6. cbn [aPhase aStep aAtt] in S6. fold r in S6.
    destruct Hph as [Hf|Hf]; rewrite Hf in S6.
    + destruct (S6 eq_refl Ht); lia.
    + destruct S6 as (_ & _ & S6). specialize (S6 (positioned_remaining r _ Hb Hp Hf eq_refl)). lia.
  - assert (rAttempt (ssRecord (applyState st (dpAfter plan) (mkTransition (dpCause plan) None))) = rAttempt r + 1 ∧
      rIncarnation (ssRecord (applyState st (dpAfter plan) (mkTransition (dpCause plan) None))) = rIncarnation r) as [G1 G2].
    { rewrite applyState_record, planTransition_record. fields. split; [exact D8|]. cbn [tCause]. unfold plan. fold r. by rewrite D1. }
    assert (∀ s, effective st s → effective (applyState st (dpAfter plan) (mkTransition (dpCause plan) None)) s) as Heff.
    { intros s. apply effective_apply, planDue_advances. }
    pose proof (written_fields r (dpAfter plan) (mkTransition (dpCause plan) None)) as (F1 & F2 & F3 & F4 & F5 & _).
    fold r plan in D5, D6, D7, D8, D9, D10.
    rewrite applyState_record in G1, G2. fold r in G1, G2.
    split; cbn [aPhase aStep aInc aAtt]; [done|done| | |intros _ _|intros _]; unfold behind; rewrite ?applyState_record; fold r.
    + lia.
    + lia.
    + rewrite F1, F3, D5, D7. split; [lia|done].
    + cbn [aPhase aStep aAtt]. destruct Hph as [Hf|Hf]; rewrite Hf.
      * intros _ _. right. rewrite F3, D7, G1. lia.
      * rewrite F2, D6, F3, D7, G1. split_and!; [done| |lia]. apply Heff, (eo_remaining st (si_effects st Hinv)).
        by apply positioned_remaining.
Qed.
