(* ===== verification/SagaSafety.v ===== *)
(** * What a partition holds and publishes

    A trade in two steps on one partition (the engine, its messages and its
    rounds), on which the theorems about runs are instantiated; and the
    theorems about every run: the states and events are valid and filed where
    they belong, and every forward effect is accounted for. *)

From Stdlib Require Import String.
From stdpp Require Import countable.
From S2P Require Import Prelude Bytes GoStr GoJson SagaRecord SagaTransition SagaLayout SagaWire.
From S2P Require Import SagaPartition SagaStep SagaKeys SagaWheel SagaRun SagaRecordInv SagaTransitionInv.
From S2P Require Import SagaStateInv SagaRound.

#[export] Instance opTombstone_eq_dec : EqDecision opTombstone.
Proof. solve_decision. Defined.
#[export] Instance Rec_eq_dec : EqDecision Rec.
Proof. solve_decision. Defined.
#[export] Instance sagaState_eq_dec : EqDecision sagaState.
Proof. solve_decision. Defined.
#[export] Instance Command_eq_dec : EqDecision Command.
Proof. solve_decision. Defined.
#[export] Instance logEvent_eq_dec : EqDecision logEvent.
Proof. solve_decision. Defined.

#[export] Instance Status_countable : Countable Status.
Proof.
  refine (inj_countable'
    (λ s, match s with
          | StatusPending => inl 1 | StatusWaiting => inl 2 | StatusCompensating => inl 3 | StatusCompleted => inl 4
          | StatusCompensated => inl 5 | StatusFailed => inl 6 | StatusManualRequired => inl 7 | StatusInvalid z => inr z
          end : Z + Z)
    (λ c, match c with
          | inl 1 => StatusPending | inl 2 => StatusWaiting | inl 3 => StatusCompensating | inl 4 => StatusCompleted
          | inl 5 => StatusCompensated | inl 6 => StatusFailed | inl _ => StatusManualRequired | inr z => StatusInvalid z
          end) _).
  by intros [].
Defined.
#[export] Instance Phase_countable : Countable Phase.
Proof.
  refine (inj_countable'
    (λ p, match p with PhaseForward => inl true | PhaseCompensate => inl false | PhaseInvalid z => inr z end : bool + Z)
    (λ c, match c with inl true => PhaseForward | inl false => PhaseCompensate | inr z => PhaseInvalid z end) _).
  by intros [].
Defined.
#[export] Instance OperationClosure_countable : Countable OperationClosure.
Proof.
  refine (inj_countable'
    (λ c, match c with OperationClosureUnknown => 0 | OperationClosedWithResult => 1 | OperationAbandoned => 2 end)
    (λ c, match c with 1 => OperationClosedWithResult | 2 => OperationAbandoned | _ => OperationClosureUnknown end) _).
  by intros [].
Defined.
#[export] Instance opTombstone_countable : Countable opTombstone.
Proof.
  refine (inj_countable' (λ t, (tbClosure t, tbLateAlarms t)) (λ '(a, b), mkTombstone a b) _). by intros [].
Defined.
#[export] Instance Rec_countable : Countable Rec.
Proof.
  refine (inj_countable'
    (λ r, ((rID r, rType r, rDefinitionVersion r, rBusinessKey r, rStartDigest r, rStatus r),
           (rPhase r, rStep r, rCompletedSteps r, rAttempt r, rIncarnation r, rLateStep r),
           (rLateData r, rVersion r, rData r, rLastError r, rOperationKey r, rCommandID r),
           (rNextRunAt r, rDeadlineAt r, rCreatedAt r, rUpdatedAt r, rStartAttempt r, rLifecycle r)))
    (λ '((a1, a2, a3, a4, a5, a6), (b1, b2, b3, b4, b5, b6), (c1, c2, c3, c4, c5, c6), (d1, d2, d3, d4, d5, d6)),
       mkRec a1 a2 a3 a4 a5 a6 b1 b2 b3 b4 b5 b6 c1 c2 c3 c4 c5 c6 d1 d2 d3 d4 d5 d6) _).
  by intros [].
Defined.
#[export] Instance sagaState_countable : Countable sagaState.
Proof.
  refine (inj_countable' (λ s, (ssRecord s, ssOps s, ssReceipts s)) (λ '(a, b, c), mkState a b c) _). by intros [].
Defined.
#[export] Instance Command_countable : Countable Command.
Proof.
  refine (inj_countable'
    (λ c, ((cID c, cIdempotencyKey c, cSagaID c, cSagaType c, cDefinitionVersion c),
           (cBusinessKey c, cStep c, cStepName c, cPhase c, cAttempt c),
           (cTopic c, cPayload c, cDeadlineAt c, cCreatedAt c, cPartition c)))
    (λ '((a1, a2, a3, a4, a5), (b1, b2, b3, b4, b5), (c1, c2, c3, c4, c5)),
       mkCommand a1 a2 a3 a4 a5 b1 b2 b3 b4 b5 c1 c2 c3 c4 c5) _).
  by intros [].
Defined.
#[export] Instance logEvent_countable : Countable logEvent.
Proof.
  refine (inj_countable' (λ e, ((evV e, evPart e, evWriter e, evIn e), (evAt e, evKind e, evSaga e, evCommand e)))
    (λ '((a, b, c, d), (e, f, g, h)), mkEvent a b c d e f g h) _).
  by intros [].
Defined.

(** The parsers of inputs and the states come from elsewhere. *)
Definition countedJson (start : bytes → option startInput) (result : bytes → option resultInput) : Json :=
  mkJson (λ ev, [Z.pos (encode ev)]) (λ raw, match raw with [Z.pos p] => decode p | _ => None end)
    start result (λ _, None) (λ _, None) (λ _, None).

Lemma countedJson_events start result ev :
  jParseEvent (countedJson start result) (jEvent (countedJson start result) ev) = Some ev.
Proof. cbn. apply decode_encode. Qed.

Definition seconds (n : Z) : Duration := n * 1000 * Millisecond.

Definition tradeStep (name topic : bytes) : Step := mkStep name topic [] (seconds 5) 3 (seconds 1) (seconds 4).
Definition tradeDef : Def := mkDef (str "trade") 1 [tradeStep (str "debit") (str "wallet.debit"); tradeStep (str "ship") (str "depot.ship")].

Definition tradeLayout : Layout := mkLayout (str "roost.saga") (str "ROOST_SAGA") 16 4.
Definition tradeRequest : StartRequest := mkStart (str "trade") (str "order-1") 1 (str "10 gold") 0.
Definition tradeID : bytes := Eval vm_compute in IDOf (str "trade") (str "order-1").
Definition tradePart : Z := Eval vm_compute in PartitionOf tradeLayout tradeID.
Definition tradeDigest : bytes :=
  Eval vm_compute in match startIntentDigest tradeRequest with Ok d => d | Err _ => [] end.
Definition tradeLife : bytes := str "0123456789abcdef".

(** The JSON of the messages of this example: each text is its own name. *)
Definition forwardKey (s : Z) : bytes := operationKey tradeID tradeLife PhaseForward s.
Definition tradeResult (s : Z) (success : bool) : Completion :=
  mkCompletion (commandID (forwardKey s) 0 1) (forwardKey s) tradeID success false None (if success then [] else str "no stock") 0.

Definition tradeJson : Json := countedJson
  (λ raw, if bool_decide (raw = str "start") then Some (mkStartInput WireVersion tradeRequest (str "a1") tradeDigest) else None)
  (λ raw,
    if bool_decide (raw = str "debited") then Some (mkResultInput WireVersion (tradeResult 0 true))
    else if bool_decide (raw = str "not shipped") then Some (mkResultInput WireVersion (tradeResult 1 false))
    else if bool_decide (raw = str "shipped") then Some (mkResultInput WireVersion (tradeResult 1 true))
    else None).

Definition tradeEngine : Engine :=
  mkEngine {[(str "trade", 1) := tradeDef]} tradeLayout (str "writer-1") (2^20) (seconds 3600) (seconds 86400) tradeJson.

Lemma tradeEngine_ok : engine_ok tradeEngine.
Proof.
  split; [|vm_compute; reflexivity|done|vm_compute; discriminate].
  intros name v d Hd. unfold definition, tradeEngine in Hd. cbn [eDefinitions] in Hd.
  apply lookup_singleton_Some in Hd as [[= <- <-] <-]. split; [vm_compute; reflexivity|lia].
Qed.

(** ** Its rounds *)

Definition startMsg (seq : Z) : LogMsg := mkMsg seq (partitionPrefix tradeLayout tradePart ++ str ".in.start") (str "reply") (str "start").
Definition resultMsg (seq : Z) (text : bytes) : LogMsg := mkMsg seq (partitionPrefix tradeLayout tradePart ++ str ".in.res") [] text.

Definition tradeRound (batch : list LogMsg) (at_ : Z) (last : Z) : roundIn :=
  mkRoundIn batch (λ seq, mkStartEnv (if seq =? 1 then tradeLife else Itoa seq) None) (unixEpoch + seconds at_) last.

Definition tradePartition : partition := newPartition tradePart (100 * Millisecond) 512 (unixEpoch + seconds 1).

(** Started and debited; the shipment fails for good, which begins the
    compensation of the debit. *)
Definition failedTrade : list roundIn :=
  [tradeRound [startMsg 1] 2 3; tradeRound [resultMsg 4 (str "debited")] 3 6; tradeRound [resultMsg 7 (str "not shipped")] 4 9].

Lemma failedTrade_ok : run_ok tradeEngine failedTrade.
Proof. split; [apply tradeEngine_ok|by repeat constructor|by_compute]. Qed.

(** C2: the single writer never corrupts its log.  Whatever inputs arrive,
    whatever the registered definitions and the clock, every saga a partition
    holds passes the code's own validation and lies under its id in the
    partition of that id, and every event published is accepted by the decoder
    that replays the log; before the 64-bit versions run out. *)
Theorem partition_writes_valid e k tick slots now rounds :
  run_ok e rounds →
  let s := runRounds e (newPartition k tick slots now) rounds in
  (∀ id st, pSagas (fst s) !! id = Some st →
     validate st = true ∧ rID (ssRecord st) = id ∧ PartitionOf (eLayout e) id = k) ∧
  Forall (logged e k) (snd s).
Proof.
  intros Hrun. destruct (run_states_ok e k tick slots now rounds Hrun) as [Hs Hl]. split; [|exact Hl].
  intros id st Hst. destruct (Hs id st Hst) as (Hi & Hid & Hk & _). split_and!; [by apply st_inv_valid|done..].
Qed.

Lemma partition_writes_valid_witness :
  let s := runRounds tradeEngine tradePartition failedTrade in
  (∀ id st, pSagas (fst s) !! id = Some st →
     validate st = true ∧ rID (ssRecord st) = id ∧ PartitionOf tradeLayout id = tradePart) ∧
  Forall (logged tradeEngine tradePart) (snd s).
Proof. exact (partition_writes_valid tradeEngine tradePart _ _ _ failedTrade failedTrade_ok). Defined.

(** ** Effects *)

Lemma filed_effects e k b id st s :
  filed e k b id st → step_range s →
  (effective st s ↔ remaining (ssRecord st) s ∨ compensated st s) ∧
  ¬ (remaining (ssRecord st) s ∧ compensated st s).
Proof.
  intros ([_ _ _ He] & _) Hs. split; [split|].
  - by apply (eo_effective st He).
  - intros [?|?]; [by apply (eo_remaining st He)|by apply (eo_compensated st He)].
  - intros [Hr Hc]. by destruct (eo_compensated st He s Hs Hc).
Qed.

(** C1: no effect of a saga is lost or undone twice.  In every state a
    partition holds, the steps whose success the coordinator accepted are
    exactly those still to be compensated and those whose compensation was
    accepted, and no step is both.  A completed saga has all its completed
    steps in effect and none compensated; in a compensated saga every effect
    was compensated; a failed saga has none. *)
Theorem effects_accounted e k tick slots now rounds :
  run_ok e rounds → ∀ id st, pSagas (fst (runRounds e (newPartition k tick slots now) rounds)) !! id = Some st →
  (∀ s, step_range s →
     (effective st s ↔ remaining (ssRecord st) s ∨ compensated st s) ∧ ¬ (remaining (ssRecord st) s ∧ compensated st s)) ∧
  (rStatus (ssRecord st) = StatusCompleted → ∀ s, step_range s →
     (effective st s ↔ s < rCompletedSteps (ssRecord st)) ∧ ¬ compensated st s) ∧
  (rStatus (ssRecord st) = StatusCompensated → ∀ s, step_range s → effective st s ↔ compensated st s) ∧
  (rStatus (ssRecord st) = StatusFailed → ∀ s, step_range s → ¬ effective st s).
Proof.
  intros Hrun id st Hst. destruct (run_states_ok e k tick slots now rounds Hrun) as [Hs _].
  pose proof (Hs id st Hst) as Hf. pose proof Hf as ([[_ Hshape] _ _ He] & _).
  split; [intros s Hr; by eapply filed_effects|].
  split_and!; intros Hstat s Hr; destruct (filed_effects _ _ _ _ _ s Hf Hr) as [Hi Hx];
    unfold shape, at_forward in Hshape; rewrite Hstat in Hshape.
  - destruct Hshape as (Hp & Hst' & Hl & _). pose proof (eo_forward st He Hp s Hr) as Hnc. split; [|done].
    rewrite Hi. unfold remaining, step_range in *. rewrite Hl. split; [intros [?|?]; [lia|done]|intros; left; lia].
  - destruct Hshape as (_ & _ & Hc & Hl & _). rewrite Hi. unfold remaining. rewrite Hc, Hl. split; [intros [?|?]; [lia|done]|by right].
  - destruct Hshape as ((Hp & _) & Hc & Hl & _). rewrite Hi. intros [Hm|Hm]; [unfold remaining in Hm; lia|].
    by apply (eo_forward st He Hp s Hr).
Qed.

Lemma effects_accounted_witness :
  run_ok tradeEngine failedTrade ∧
  ∀ st, pSagas (fst (runRounds tradeEngine tradePartition failedTrade)) !! tradeID = Some st →
    rStatus (ssRecord st) = StatusCompensated → effective st 0 ↔ compensated st 0.
Proof.
  split; [exact failedTrade_ok|]. intros st Hst Hc.
  refine (proj1 (proj2 (proj2 (effects_accounted tradeEngine tradePart _ _ _ failedTrade failedTrade_ok tradeID st Hst))) Hc 0 _).
  unfold step_range. lia.
Defined.

(** ** Retries *)

(** The retry schedule.  When the result of a waiting operation does not
    come in time (and the saga's deadline has not passed), then as long as
    attempts remain the operation waits between half and all of
    min(maximum, minimum * 2^(attempt-1)) before the next one; when they are
    used up, a forward operation ends in compensation of the completed steps,
    or in failure if there are none, and a compensation calls for an
    operator. *)
Theorem retry_schedule r d step now :
  rec_inv r → rStatus r = StatusWaiting → DefValidate d = true → stepFor r d = Some step → sBackoffMax step < 2^63 →
  rDeadlineAt r = 0 ∨ now < rDeadlineAt r →
  let after := dpAfter (planDue r (Some d) now) in
  let t := Z.min (sBackoffMax step) (sBackoffMin step * 2^(rAttempt r - 1)) in
  if rAttempt r <? sMaxAttempts step then
    rStatus after = (if rPhase r =s PhaseForward then StatusPending else StatusCompensating) ∧
    rAttempt after = rAttempt r ∧ rStep after = rStep r ∧
    now + t / 2 ≤ rNextRunAt after ≤ now + t ∧ 0 < t
  else if rPhase r =s PhaseForward then
    if rCompletedSteps r =? 0 then rStatus after = StatusFailed
    else rStatus after = StatusCompensating ∧ rPhase after = PhaseCompensate ∧ rStep after = rCompletedSteps r - 1
  else rStatus after = StatusManualRequired.
Proof.
  intros [Hb Hs] Hw Hd Hst Hmax Hdl. cbn zeta. destruct (def_step d r step Hd Hst) as [Hok _].
  pose proof (step_ok_bounds step Hok) as (_ & Hbk & _). unfold shape in Hs. rewrite Hw in Hs. destruct Hs as (Hpos & _ & Hatt & _).
  destruct (backoff_range (rID r) (rAttempt r) (sBackoffMin step) (sBackoffMax step) Hbk Hmax) as [Hr Ht].
  unfold backoff_target in *. rewrite Z.max_r in Hr, Ht by lia.
  assert (negb (IsZero (rDeadlineAt r)) && negb (Before now (rDeadlineAt r)) && (rPhase r =s PhaseForward) = false) as Hno.
  { unfold IsZero, Before. destruct Hdl as [->|Hlt]; [done|]. destruct (Z.ltb_spec now (rDeadlineAt r)); [by rewrite andb_false_r|lia]. }
  unfold planDue. rewrite Hno, Hw, bool_decide_true by done. cbn [dpAfter]. unfold retryOrCompensate, retryState.
  change (stepFor _ d) with (stepFor r d). rewrite Hst. fields.
  destruct (rAttempt r <? sMaxAttempts step); [fields; split_and!; done || lia|].
  destruct Hpos as [[[Hp _] Hl]|[Hp _]]; rewrite Hp, ?bool_decide_true, ?bool_decide_false by done; [|done].
  unfold compensationState, nextCompensation. fields. rewrite Hl.
  destruct (Z.eqb_spec (rCompletedSteps r) 0) as [->|Hc]; [done|]. cbn [andb]. fields. cbn [Z.ltb Z.compare].
  pose proof (bi_done r Hb). destruct (Z.ltb_spec 0 (rCompletedSteps r)); [done|lia].
Qed.

(** The debit sent out twice, no answer yet. *)
Definition waitingDebit : Rec :=
  mkRec tradeID (str "trade") 1 (str "order-1") tradeDigest StatusWaiting PhaseForward 0 0 2 0 0 [] 3 (str "10 gold") []
    (forwardKey 0) (commandID (forwardKey 0) 0 2) (unixEpoch + seconds 9) 0 (unixEpoch + seconds 1) (unixEpoch + seconds 4)
    (str "a1") tradeLife.

Lemma waitingDebit_ok : rec_inv waitingDebit.
Proof.
  split.
  - split; [split; by_compute|by_compute..|by left].
  - split; [by left|]. split; [done|by_compute].
Qed.

Lemma retry_schedule_witness :
  let after := dpAfter (planDue waitingDebit (Some tradeDef) (unixEpoch + seconds 9)) in
  rStatus after = StatusPending ∧ rAttempt after = 2 ∧ rStep after = 0 ∧
  unixEpoch + seconds 9 + seconds 1 ≤ rNextRunAt after ≤ unixEpoch + seconds 9 + seconds 2 ∧ 0 < seconds 2.
Proof.
  exact (retry_schedule waitingDebit tradeDef (tradeStep (str "debit") (str "wallet.debit")) (unixEpoch + seconds 9)
    waitingDebit_ok eq_refl eq_refl eq_refl eq_refl (or_introl eq_refl)).
Defined.
