(* ===== verification/SagaReplay.v ===== *)
(** * Restarting a partition from its log (partition_replay.go)

    Replaying the snapshot and the tail of the log, arming the timers, and
    the bound up to which the log may be purged.  What the clients of the
    log, of the manifest store and of the object store answer is the record
    [logView]; logs, metrics and the statistics counters are not modelled. *)

From Stdlib Require Import String.
From S2P Require Import Prelude Bytes GoStr GoJson SagaRecord SagaKeys SagaTransition SagaRecordInv.
From S2P Require Import SagaTransitionInv SagaLayout SagaWheel SagaWire SagaPartition SagaStateInv SagaStep.
From S2P Require Import SagaRound SagaRun.

(** ** What the stores answer during one replay *)

Record logView := mkView {
  lvManifest : result SagaErr (option (bytes * Z));   (* value and revision; [None] is not found *)
  lvObject : bytes → option bytes;
  lvEnd : result SagaErr Z;                           (* last sequence on the partition's filter *)
  lvRead : Z → Z → result SagaErr (list LogMsg);      (* [ReadRange from end] *)
  lvLastEvent : result SagaErr Z;                     (* last sequence on the event filter, read at the end *)
  lvAgain : result SagaErr (option Z)                 (* the manifest's revision, read at the end *)
}.

(** The fields of [partition] that a replay fills in. *)
Record replayState := mkReplay {
  rpSagas : gmap bytes sagaState;
  rpLastEv : Z;
  rpInHi : Z;
  rpPending : list LogMsg
}.

Section Replay.
Context (e : Engine) (k : Z).

(** The snapshot part of [replayOnce]: the state and the revision. *)
Definition loadSnapshot (view : logView) : result SagaErr (replayState * Z) :=
  found ← lvManifest view;
  match found with
  | None => Ok (mkReplay ∅ 0 0 [], 0)
  | Some (value, revision) =>
      manifest ← decodeManifest (eJson e) value (eLayout e) k;
      match lvObject view (smObject manifest) with
      | None => Err ErrSnapshotIncompatible
      | Some body =>
          states ← decodeSnapshotBody (eJson e) body manifest (eLayout e) k;
          Ok (mkReplay (fold_left (λ m st, <[rID (ssRecord st) := st]> m) states ∅)
                (smLastEv manifest) (smInHi manifest) [], revision)
      end
  end.

(** The callback of [ReadRange] on one message. *)
Definition replayMsg (snapLastEv snapInHi : Z) (s : replayState) (msg : LogMsg) : result SagaErr replayState :=
  if negb (isEventSubject (eLayout e) k (mSubject msg)) then
    Ok (if snapInHi <? mSeq msg then mkReplay (rpSagas s) (rpLastEv s) (rpInHi s) (rpPending s ++ [msg]) else s)
  else if mSeq msg <=? snapLastEv then Ok s
  else
    ev ← decodeEvent (eJson e) (mData msg) (eLayout e) k;
    Ok (mkReplay (<[rID (ssRecord (evSaga ev)) := evSaga ev]> (rpSagas s)) (mSeq msg) (Z.max (rpInHi s) (evIn ev))
          (rpPending s)).

Fixpoint replayMsgs (snapLastEv snapInHi : Z) (msgs : list LogMsg) (s : replayState) : result SagaErr replayState :=
  match msgs with
  | [] => Ok s
  | msg :: msgs' => s ← replayMsg snapLastEv snapInHi s msg; replayMsgs snapLastEv snapInHi msgs' s
  end.

(** [replayOnce]: the state and [followFrom], or [None] when the snapshot or
    the events changed meanwhile. *)
Definition replayOnce (view : logView) : result SagaErr (option (replayState * Z)) :=
  '(s, revision) ← loadSnapshot view;
  let snapLastEv := rpLastEv s in
  let snapInHi := rpInHi s in
  end_ ← lvEnd view;
  let from := u64 (Z.min snapLastEv snapInHi + 1) in
  s ← (if from <=? end_ then msgs ← lvRead view from end_; replayMsgs snapLastEv snapInHi msgs s else Ok s);
  let s := mkReplay (rpSagas s) (rpLastEv s) (rpInHi s) (filter (λ m, ¬ mSeq m ≤ rpInHi s) (rpPending s)) in
  lastEvent ← lvLastEvent view;
  again ← lvAgain view;
  let sameSnapshot := match again with Some r => r =? revision | None => revision =? 0 end in
  if negb sameSnapshot || negb (lastEvent =? rpLastEv s) then Ok None
  else Ok (Some (s, u64 (Z.max end_ (Z.max (rpInHi s) (rpLastEv s)) + 1))).

(** The attempts of [replayPartition]: six at most, [views] gives what each
    one saw. *)
Fixpoint replayLoop (fuel : nat) (attempt : nat) (views : nat → logView) : result SagaErr (replayState * Z) :=
  match fuel with
  | O => Err ErrText
  | S f =>
      stable ← replayOnce (views attempt);
      match stable with
      | Some s => Ok s
      | None => replayLoop f (S attempt) views
      end
  end.

Definition prune_le (a b : pruneEntry) : Prop := peUpdatedAt a ≤ peUpdatedAt b.
#[export] Instance prune_le_dec a b : Decision (prune_le a b).
Proof. unfold prune_le. apply _. Defined.

(** One saga of the loop that arms the timers and collects what to prune. *)
Definition armOne (s : wheel * list pruneEntry) (entry : bytes * sagaState) : wheel * list pruneEntry :=
  let '(w, terminals) := s in
  let '(id, st) := entry in
  if negb (Terminal (rStatus (ssRecord st))) then (schedule w id (rNextRunAt (ssRecord st)), terminals)
  else if prunable (rStatus (ssRecord st)) then (w, terminals ++ [mkPrune id (rUpdatedAt (ssRecord st))])
  else (w, terminals).

(** [replayPartition]; [visit] is Go's iteration order over the sagas. *)
Definition replayPartition (visit : gmap bytes sagaState → list (bytes * sagaState)) (tick : Duration) (slots : Z)
    (now : Time) (views : nat → logView) : result SagaErr (partition * list LogMsg * Z) :=
  '(s, followFrom) ← replayLoop 6 0 views;
  let '(w, terminals) := fold_left armOne (visit (rpSagas s)) (newWheel tick slots now, []) in
  Ok (mkPartition k (rpSagas s) (rpLastEv s) (rpInHi s) 0 w (merge_sort prune_le terminals) 0 0, rpPending s, followFrom).
End Replay.

(** ** Snapshots and purging *)

Record snapshotView := mkSnapshotView {
  svSagas : list sagaState;
  svLastEv : Z;
  svInHi : Z
}.

(** [purgeBound]; [floors] are the acknowledged floors of the durables. *)
Definition purgeBound (view : snapshotView) (floors : gmap bytes Z) : Z :=
  fold_left (λ bound floor, Z.min bound (u64 (floor + 1))) (map snd (map_to_list floors))
    (Z.min (u64 (svInHi view + 1)) (svLastEv view)).

(** The floors and the bound of [purge]; [cold] is the cold copy's durable,
    when it is on.  [None]: nothing is purged. *)
Definition purge (view : snapshotView) (cold : option bytes) (floors : gmap bytes Z) : option Z :=
  let floors :=
    match cold with
    | Some name => match floors !! name with Some _ => floors | None => <[name := 0]> floors end
    | None => floors
    end in
  let bound := purgeBound view floors in
  if bound <=? 1 then None else Some bound.

(** ** Input watermarks *)

Lemma emit_max e p st kind cmd r : rdMaxIn (emit e p st kind cmd r) = rdMaxIn r.
Proof. unfold emit. destruct (rdEventAt r !! _) as [i|]; [|done]. destruct (rdEvents r !! i); [|done]. by case_match. Qed.
Lemma verdict_max v r : rdMaxIn (verdict v r) = rdMaxIn r.
Proof. unfold verdict. by case_match. Qed.
Lemma reopened_max before r : rdMaxIn (reopenedByOperator before r) = rdMaxIn r.
Proof. unfold reopenedByOperator. by case_match. Qed.

(** The handlers of a round leave the watermark alone. *)
Ltac same_max :=
  cbn zeta; repeat first
    [ done
    | rewrite verdict_max | rewrite emit_max | rewrite reopened_max
    | progress change (rdMaxIn (count ?c ?r)) with (rdMaxIn r)
    | progress change (rdMaxIn (setCounts ?c ?r)) with (rdMaxIn r)
    | progress change (rdMaxIn (put ?st ?r)) with (rdMaxIn r)
    | progress change (rdMaxIn (rejectInput ?r)) with (rdMaxIn r)
    | progress unfold apply; cbn [fst snd]
    | match goal with |- rdMaxIn (match ?x with _ => _ end) = _ => destruct x end
    | match goal with |- rdMaxIn (verdict _ (match ?x with _ => _ end)) = _ => destruct x end ].

Lemma start_max e p env msg r : rdMaxIn (start e p env msg r) = rdMaxIn r.
Proof. unfold start. same_max. Qed.
Lemma history_max e p st c inc r : rdMaxIn (history e p st c inc r) = rdMaxIn r.
Proof. unfold history. same_max. Qed.
Lemma result_max e p msg r : rdMaxIn (result_ e p msg r) = rdMaxIn r.
Proof.
  unfold result_, resultOf. repeat first [progress same_max | rewrite history_max].
Qed.
Lemma operation_max e p msg r : rdMaxIn (operation e p msg r) = rdMaxIn r.
Proof. unfold operation. same_max. Qed.
Lemma due_max e p st r : rdMaxIn (due e p st r) = rdMaxIn r.
Proof. unfold due. same_max. Qed.

Lemma input_max e p env r msg :
  rdMaxIn (input e p env r msg) = if mSeq msg <=? pInHi p then rdMaxIn r else Z.max (rdMaxIn r) (mSeq msg).
Proof.
  unfold input. case_match; [done|]. cbn zeta.
  repeat case_match; rewrite ?start_max, ?result_max, ?operation_max; done.
Qed.

Lemma dueLoop_max e p ids : ∀ seen r, rdMaxIn (dueLoop e p ids seen r) = rdMaxIn r.
Proof.
  induction ids as [|id ids IH]; intros seen r; [done|]. cbn [dueLoop]. case_bool_decide; [by rewrite IH|].
  rewrite IH. destruct (get p r id) as [st|]; [|done]. by destruct (dueNow st (rdNow r)); [rewrite due_max|].
Qed.

Lemma decide_max e p env batch now :
  pInHi p ≤ rdMaxIn (snd (decide_ e p env batch now)) ∧
  Forall (λ msg, mSeq msg ≤ rdMaxIn (snd (decide_ e p env batch now))) batch.
Proof.
  unfold decide_. destruct (advance _ _ _) as [w ids]. cbn [snd]. rewrite dueLoop_max.
  assert (∀ r, pInHi p ≤ rdMaxIn r →
    rdMaxIn r ≤ rdMaxIn (fold_left (input e p env) batch r) ∧
    Forall (λ msg, mSeq msg ≤ rdMaxIn (fold_left (input e p env) batch r)) batch) as H.
  { induction batch as [|msg batch IH]; intros r Hr; cbn [fold_left]; [split; [lia|constructor]|].
    pose proof (input_max e p env r msg) as Hm.
    destruct (IH (input e p env r msg)) as [I1 I2]; [rewrite Hm; case_match; lia|].
    rewrite Hm in I1. destruct (Z.leb_spec (mSeq msg) (pInHi p)); (split; [lia|constructor; [lia|done]]). }
  destruct (H (newRound p now)) as [H1 H2]; [cbn; lia|]. split; [|done]. cbn in H1. lia.
Qed.

(** ** Events replayed over a map of states *)

Definition replayEvents (m : gmap bytes sagaState) (events : list logEvent) : gmap bytes sagaState :=
  fold_left (λ m ev, <[ev_id ev := evSaga ev]> m) events m.

Lemma replayEvents_app m l1 l2 : replayEvents m (l1 ++ l2) = replayEvents (replayEvents m l1) l2.
Proof. apply fold_left_app. Qed.

Lemma replayEvents_none m events id :
  (∀ j ev, events !! j = Some ev → ev_id ev ≠ id) → replayEvents m events !! id = m !! id.
Proof.
  revert m. induction events as [|ev events IH]; intros m H; [done|]. cbn. fold (replayEvents (<[ev_id ev := evSaga ev]> m) events).
  rewrite IH by (intros j; apply (H (S j))). apply lookup_insert_ne, (H 0%nat). done.
Qed.

Lemma replayEvents_last m events i ev :
  events !! i = Some ev → (∀ j ev', events !! j = Some ev' → ev_id ev' = ev_id ev → (j ≤ i)%nat) →
  replayEvents m events !! ev_id ev = Some (evSaga ev).
Proof.
  intros Hi Hmax. rewrite <- (take_drop_middle events i ev Hi). rewrite replayEvents_app. cbn.
  fold (replayEvents (<[ev_id ev := evSaga ev]> (replayEvents m (take i events))) (drop (S i) events)).
  rewrite replayEvents_none; [apply lookup_insert_eq|]. intros j ev' Hj E. rewrite lookup_drop in Hj.
  specialize (Hmax _ _ Hj E). lia.
Qed.

(** What the round saw is what its events leave over the committed states. *)
Lemma replay_round e p b r m id :
  round_ok e p b r → replayEvents m (rdEvents r) !! id = match rdOverlay r !! id with Some st => Some st | None => m !! id end.
Proof.
  intros Hr. destruct (rdOverlay r !! id) as [st|] eqn:Ho.
  - destruct (ro_last _ _ _ _ Hr id st Ho) as (i & ev & Hat & Hi & <-). destruct (ro_index _ _ _ _ Hr id i Hat) as (ev0 & He0 & Hid).
    assert (ev0 = ev) as -> by congruence. rewrite <- Hid. eapply replayEvents_last; [exact Hi|].
    intros j ev' Hj E. destruct (ro_at _ _ _ _ Hr j ev' Hj) as (i' & Hi' & Hle & _). rewrite E, Hid in Hi'. congruence.
  - apply replayEvents_none. intros j ev Hj <-. destruct (ro_at _ _ _ _ Hr j ev Hj) as (_ & _ & _ & [st Hs]). congruence.
Qed.

(** ** The states a replay rebuilds *)

(** The held states, and terminal ones that were pruned since. *)
Definition rebuilt (held replayed : gmap bytes sagaState) : Prop :=
  ∀ id, replayed !! id = held !! id ∨
    (held !! id = None ∧ ∃ st, replayed !! id = Some st ∧ prunable (rStatus (ssRecord st)) = true).

#[export] Instance rebuilt_refl : Reflexive rebuilt.
Proof. intros m id. by left. Qed.

Lemma runRound_replay e p i b m :
  engine_ok e → partition_ok e b p → 0 < riNow i → 0 ≤ b → b + zlen (riBatch i) < 2^64 - 1 →
  rebuilt (pSagas p) m →
  ∃ his events,
    carries e his events (map omData (snd (runRound e p i))) ∧ Forall (ev_ok e (pK p)) events ∧
    Forall (λ hi, hi ≤ pInHi (fst (runRound e p i))) his ∧ pInHi p ≤ pInHi (fst (runRound e p i)) ∧
    rebuilt (pSagas (fst (runRound e p i))) (replayEvents m events).
Proof.
  intros He Hp Hn Hb Hlt Hm. destruct (runRound_spec e p i b He Hp Hn Hb Hlt) as (r & his & Hrd & Hr & Hc & Hh & _ & Hin & Hs).
  destruct (decide_max e p (riEnv i) (riBatch i) (riNow i)) as [Hmax _]. rewrite <- Hrd in Hmax.
  exists his, (rdEvents r). rewrite Hin. split_and!; [done|apply Hr| |done|].
  - eapply Forall_impl; [exact Hh|]. intros hi [->| ->]; lia.
  - intros id. rewrite (replay_round _ _ _ _ _ _ Hr).
    assert (get p r id = match rdOverlay r !! id with Some st => Some st | None => pSagas p !! id end) as Hg by done.
    destruct (Hs id) as [->|(-> & st & Hst & Hpr & _)].
    + rewrite Hg. destruct (rdOverlay r !! id); [by left|apply Hm].
    + right. split; [done|]. rewrite Hg in Hst. destruct (rdOverlay r !! id) as [st'|]; [injection Hst as ->; by exists st|].
      destruct (Hm id) as [->|[Hno _]]; [by exists st|congruence].
Qed.

(** ** Runs *)

Lemma runRounds_replay e rounds : ∀ b p m,
  engine_ok e → partition_ok e b p → Forall (λ i, 0 < riNow i) rounds → 0 ≤ b → b + work rounds < 2^64 - 1 →
  rebuilt (pSagas p) m →
  ∃ his events,
    carries e his events (map omData (snd (runRounds e p rounds))) ∧ Forall (ev_ok e (pK p)) events ∧
    Forall (λ hi, hi ≤ pInHi (fst (runRounds e p rounds))) his ∧ pInHi p ≤ pInHi (fst (runRounds e p rounds)) ∧
    rebuilt (pSagas (fst (runRounds e p rounds))) (replayEvents m events).
Proof.
  induction rounds as [|i rounds IH]; intros b p m He Hp Hn Hb Hlt Hm.
  { exists [], []. split_and!; [done|constructor|constructor|cbn; lia|done]. }
  rewrite runRounds_cons. cbn [fst snd]. inversion_clear Hn as [|? ? Hi Hn']. cbn [work] in *.
  pose proof (work_nonneg rounds). zlen_facts.
  destruct (runRound_ok e p i b) as [Hp' Hk]; [done..|lia|].
  destruct (runRound_replay e p i b m) as (his & evs & Hc & Hev & Hh & Hin & Hre); [done..|lia|done|].
  destruct (IH (b + zlen (riBatch i) + 1) (fst (runRound e p i)) (replayEvents m evs)) as (his' & evs' & Hc' & Hev' & Hh' & Hin' & Hre');
    [done..|lia|lia|done|].
  exists (his ++ his'), (evs ++ evs'). rewrite map_app, replayEvents_app. split_and!.
  - by apply carries_app.
  - apply Forall_app. split; [done|by rewrite Hk in Hev'].
  - apply Forall_app. split; [|done]. eapply Forall_impl; [exact Hh|]. cbn. lia.
  - lia.
  - done.
Qed.

(** ** The log *)

(** The events of a partition whose JSON is in the log decode back. *)
Definition json_events (e : Engine) (k : Z) (log : list LogMsg) : Prop :=
  ∀ ev, event_ok (eLayout e) k ev = true → jEvent (eJson e) ev ∈ map mData log →
    jParseEvent (eJson e) (jEvent (eJson e) ev) = Some ev.

Definition isEvent (e : Engine) (k : Z) (m : LogMsg) : Prop := isEventSubject (eLayout e) k (mSubject m) = true.
#[export] Instance isEvent_dec e k m : Decision (isEvent e k m).
Proof. unfold isEvent. apply _. Defined.

(** The events after sequence [after]. *)
Definition newEvents (e : Engine) (k : Z) (after : Z) (msgs : list LogMsg) : list LogMsg :=
  filter (λ m, isEvent e k m ∧ after < mSeq m) msgs.

Definition lastSeqOf (d : Z) (msgs : list LogMsg) : Z := default d (mSeq <$> last msgs).

Lemma lastSeqOf_cons d m msgs : lastSeqOf d (m :: msgs) = lastSeqOf (mSeq m) msgs.
Proof. unfold lastSeqOf. rewrite last_cons. by destruct (last msgs). Qed.

Lemma json_events_sub e k l1 l2 : json_events e k l2 → (∀ m, m ∈ l1 → m ∈ l2) → json_events e k l1.
Proof.
  intros Hj Hsub ev Hev Hin. apply Hj; [done|]. apply list_elem_of_In, in_map_iff in Hin as (m & Hm & Hin%list_elem_of_In).
  apply list_elem_of_In, in_map_iff. exists m. split; [done|]. by apply list_elem_of_In, Hsub.
Qed.

Lemma decode_sealed e k hi ev msg msgs :
  json_events e k (msg :: msgs) → mData msg = jEvent (eJson e) (seal hi ev) → ev_ok e k ev →
  decodeEvent (eJson e) (mData msg) (eLayout e) k = Ok (seal hi ev).
Proof. intros Hj Hm Hev. unfold decodeEvent. rewrite Hm, Hj; [by rewrite Hev|apply Hev|rewrite <- Hm; by left]. Qed.

(** Replaying messages whose new events carry [events]. *)
Lemma replayMsgs_spec e k after inHi msgs : ∀ his events s,
  json_events e k msgs → carries e his events (map mData (newEvents e k after msgs)) → Forall (ev_ok e k) events →
  ∃ s', replayMsgs e k after inHi msgs s = Ok s' ∧
    rpSagas s' = replayEvents (rpSagas s) events ∧
    rpLastEv s' = lastSeqOf (rpLastEv s) (newEvents e k after msgs) ∧
    rpInHi s' = fold_left Z.max his (rpInHi s) ∧
    rpPending s' = rpPending s ++ filter (λ m, ¬ isEvent e k m ∧ inHi < mSeq m) msgs.
Proof.
  induction msgs as [|msg msgs IH]; intros his events s Hj [Hlen Hd] Hev.
  { assert (events = []) as -> by (destruct events; [done|by destruct his]). destruct his; [|done].
    exists s. cbn. by rewrite app_nil_r. }
  assert (json_events e k msgs) as Hj' by (eapply json_events_sub; [exact Hj|by right]).
  cbn [replayMsgs]. unfold replayMsg. destruct (isEventSubject (eLayout e) k (mSubject msg)) eqn:Es; cbn [negb].
  - destruct (Z.leb_spec (mSeq msg) after) as [Hle|Hgt].
    + unfold newEvents in *. rewrite filter_cons_False in Hd |- * by (cbn; lia). cbn [mbind result_bind].
      destruct (IH his events s Hj') as (s' & -> & H1 & H2 & H3 & H4); [by split|done|].
      exists s'. rewrite filter_cons_False by (unfold isEvent; naive_solver). auto.
    + unfold newEvents in *. rewrite filter_cons_True in Hd |- * by (by split).
      destruct his as [|hi his], events as [|ev events]; try done. cbn [map zip_with] in Hd. injection Hd as Hd0 Hd.
      inversion_clear Hev as [|? ? Hev0 Hev']. rewrite (decode_sealed e k hi ev msg msgs) by done. cbn [mbind result_bind].
      set (s1 := mkReplay _ _ _ _).
      destruct (IH his events s1 Hj') as (s' & -> & H1 & H2 & H3 & H4); [split; [cbn in Hlen; lia|done]|done|].
      exists s'. rewrite filter_cons_False by (unfold isEvent; naive_solver). rewrite lastSeqOf_cons. auto.
  - unfold newEvents in *. rewrite filter_cons_False in Hd |- * by (unfold isEvent; cbn; intros [? _]; congruence).
    cbn [mbind result_bind]. set (s1 := if inHi <? mSeq msg then _ else _).
    destruct (IH his events s1 Hj') as (s' & -> & H1 & H2 & H3 & H4); [by split|done|].
    exists s'. split; [done|]. unfold s1 in *. destruct (Z.ltb_spec inHi (mSeq msg)); cbn [rpPending rpSagas rpLastEv rpInHi] in *.
    + rewrite filter_cons_True by (unfold isEvent; split; [congruence|done]). rewrite H4, <- app_assoc. auto.
    + rewrite filter_cons_False by lia. auto.
Qed.

(** A log in the order of its sequence numbers. *)
Definition log_sorted (log : list LogMsg) : Prop :=
  StronglySorted (λ a b, mSeq a < mSeq b) log ∧ Forall (λ m, 0 < mSeq m) log.

(** The stores show this log. *)
Record shows (e : Engine) (k : Z) (view : logView) (log : list LogMsg) : Prop := {
  sh_end : lvEnd view = Ok (lastSeqOf 0 log);
  sh_read : ∀ a b, lvRead view a b = Ok (filter (λ m, a ≤ mSeq m ≤ b) log);
  sh_last : lvLastEvent view = Ok (lastSeqOf 0 (filter (isEvent e k) log))
}.

(** The stores show no snapshot, or the one of partition [p]. *)
Definition shows_snapshot (e : Engine) (k : Z) (view : logView) (p : partition) : Prop :=
  (lvManifest view = Ok None ∧ lvAgain view = Ok None ∧ pSagas p = ∅ ∧ pLastEv p = 0 ∧ pInHi p = 0) ∨
  ∃ value revision m body states,
    lvManifest view = Ok (Some (value, revision)) ∧ lvAgain view = Ok (Some revision) ∧
    decodeManifest (eJson e) value (eLayout e) k = Ok m ∧ smLastEv m = pLastEv p ∧ smInHi m = pInHi p ∧
    lvObject view (smObject m) = Some body ∧ decodeSnapshotBody (eJson e) body m (eLayout e) k = Ok states ∧
    states ≡ₚ map snd (map_to_list (pSagas p)).

(** The partition's last event is the last one of the log, when it has any. *)
Definition keeps_last (e : Engine) (k : Z) (after : Z) (log : list LogMsg) : Prop :=
  after = 0 ∨ ∃ m, m ∈ log ∧ isEvent e k m ∧ mSeq m = after.

Lemma lastSeqOf_app d l1 l2 : lastSeqOf d (l1 ++ l2) = lastSeqOf (lastSeqOf d l1) l2.
Proof. unfold lastSeqOf. rewrite last_app. destruct (last l2); [done|]. by destruct (last l1). Qed.

Lemma sorted_last_bound log d : StronglySorted (λ a b, mSeq a < mSeq b) log → ∀ m, m ∈ log → mSeq m ≤ lastSeqOf d log.
Proof.
  intros Hs. revert d. induction Hs as [|a log Hs IH Ha]; intros d m Hm; [by apply elem_of_nil in Hm|].
  rewrite lastSeqOf_cons. apply elem_of_cons in Hm as [->|Hm]; [|by apply IH].
  destruct log as [|b log]; [done|]. pose proof (IH (mSeq a) b ltac:(by left)).
  apply Forall_cons in Ha as [? _]. lia.
Qed.

Lemma lastSeqOf_elem d log : lastSeqOf d log = d ∨ ∃ m, m ∈ log ∧ mSeq m = lastSeqOf d log.
Proof.
  unfold lastSeqOf. destruct (last log) as [m|] eqn:E; [|by left]. right. exists m. split; [|done]. by apply last_Some_elem_of.
Qed.

Lemma sorted_filter (P : LogMsg → Prop) `{∀ m, Decision (P m)} log :
  StronglySorted (λ a b, mSeq a < mSeq b) log → StronglySorted (λ a b, mSeq a < mSeq b) (filter P log).
Proof.
  induction 1 as [|a log Hs IH Ha]; [constructor|]. destruct (decide (P a)).
  - rewrite filter_cons_True by done. constructor; [done|]. apply Forall_forall. intros m Hm%list_elem_of_filter.
    exact (proj1 (Forall_forall _ _) Ha m (proj2 Hm)).
  - by rewrite filter_cons_False.
Qed.

(** A sorted log ends with its new events. *)
Lemma last_event_new e k after log :
  log_sorted log → keeps_last e k after log → 0 ≤ after →
  lastSeqOf 0 (filter (isEvent e k) log) = lastSeqOf after (newEvents e k after log).
Proof.
  intros [Hs Hpos] Hk Ha. apply (sorted_filter (isEvent e k)) in Hs as Hse.
  assert (∀ m, m ∈ newEvents e k after log ↔ m ∈ filter (isEvent e k) log ∧ after < mSeq m) as Hnew.
  { intros m. unfold newEvents. rewrite !list_elem_of_filter. tauto. }
  pose proof (sorted_filter (λ m, isEvent e k m ∧ after < mSeq m) log Hs) as Hsn.
  assert (lastSeqOf after (newEvents e k after log) ≤ lastSeqOf 0 (filter (isEvent e k) log)) as H1.
  { destruct (lastSeqOf_elem after (newEvents e k after log)) as [->|(m & Hm & <-)].
    - destruct Hk as [->|(m & Hm & Hev & <-)].
      + destruct (lastSeqOf_elem 0 (filter (isEvent e k) log)) as [->|(m & Hm & <-)]; [lia|].
        apply list_elem_of_filter in Hm as [_ Hm]. apply (proj1 (Forall_forall _ _) Hpos) in Hm. lia.
      + apply sorted_last_bound; [done|]. by apply list_elem_of_filter.
    - apply sorted_last_bound; [done|]. by apply Hnew. }
  assert (lastSeqOf 0 (filter (isEvent e k) log) ≤ lastSeqOf after (newEvents e k after log)) as H2.
  { destruct (lastSeqOf_elem 0 (filter (isEvent e k) log)) as [->|(m & Hm & <-)].
    - destruct (lastSeqOf_elem after (newEvents e k after log)) as [->|(m & Hm & <-)]; [lia|].
      apply Hnew in Hm as [_ Hm]. lia.
    - destruct (Z.le_gt_cases (mSeq m) after) as [Hle|Hgt].
      + destruct (lastSeqOf_elem after (newEvents e k after log)) as [->|(m' & Hm' & <-)]; [lia|]. apply Hnew in Hm' as [_ Hm']. lia.
      + apply sorted_last_bound; [done|]. by apply Hnew. }
  lia.
Qed.

(** Reading from the replay's start misses no new event and no undecided
    input. *)
Lemma read_range e k after inHi log :
  log_sorted log → 0 ≤ after < 2^64 - 1 → 0 ≤ inHi < 2^64 - 1 →
  let msgs := filter (λ m, u64 (Z.min after inHi + 1) ≤ mSeq m ≤ lastSeqOf 0 log) log in
  newEvents e k after msgs = newEvents e k after log ∧
  filter (λ m, ¬ isEvent e k m ∧ inHi < mSeq m) msgs = filter (λ m, ¬ isEvent e k m ∧ inHi < mSeq m) log.
Proof.
  intros [Hs Hpos] Ha Hi. cbn zeta. rewrite u64_small by (unfold_int; lia). unfold newEvents.
  rewrite !list_filter_filter. split; apply filter_ext_in; intros m Hm.
  all: pose proof (sorted_last_bound log 0 Hs m Hm); split; [tauto|intros [? ?]; split; [done|lia]].
Qed.

(** ** The snapshot *)

Lemma insert_states_lookup states : ∀ (m : gmap bytes sagaState) id,
  let m' := fold_left (λ m st, <[rID (ssRecord st) := st]> m) states m in
  (∃ st, st ∈ states ∧ rID (ssRecord st) = id ∧ m' !! id = Some st) ∨
  ((∀ st, st ∈ states → rID (ssRecord st) ≠ id) ∧ m' !! id = m !! id).
Proof.
  induction states as [|st states IH]; intros m id; cbn.
  { right. split; [|done]. by intros st ?%elem_of_nil. }
  destruct (IH (<[rID (ssRecord st) := st]> m) id) as [(st' & Hin & Hid & ->)|[Hno ->]].
  - left. exists st'. split_and!; [by right|done..].
  - destruct (decide (rID (ssRecord st) = id)) as [<-|Hne].
    + left. exists st. rewrite lookup_insert_eq. split_and!; [by left|done..].
    + right. rewrite lookup_insert_ne by done. split; [|done]. intros st' [->|Hin]%elem_of_cons; [done|by apply Hno].
Qed.

Lemma load_states (sagas : gmap bytes sagaState) states :
  (∀ id st, sagas !! id = Some st → rID (ssRecord st) = id) → states ≡ₚ map snd (map_to_list sagas) →
  fold_left (λ m st, <[rID (ssRecord st) := st]> m) states ∅ = sagas.
Proof.
  intros Hid Hp. apply map_eq. intros id.
  assert (∀ st, st ∈ states ↔ sagas !! rID (ssRecord st) = Some st) as Hin.
  { intros st. rewrite Hp, list_elem_of_In, in_map_iff. split.
    - intros ([id' st'] & <- & Hm). apply list_elem_of_In, elem_of_map_to_list in Hm. cbn. by rewrite (Hid id' st').
    - intros Hs. exists (rID (ssRecord st), st). split; [done|]. by apply list_elem_of_In, elem_of_map_to_list. }
  destruct (insert_states_lookup states ∅ id) as [(st & Hst & <- & ->)|[Hno ->]].
  - symmetry. by apply Hin.
  - rewrite lookup_empty. destruct (sagas !! id) as [st|] eqn:E; [|done]. pose proof (Hid id st E) as Hi.
    exfalso. apply (Hno st); [|done]. apply Hin. by rewrite Hi.
Qed.

Lemma loadSnapshot_shows e k view p :
  (∀ id st, pSagas p !! id = Some st → rID (ssRecord st) = id) → shows_snapshot e k view p →
  ∃ revision, loadSnapshot e k view = Ok (mkReplay (pSagas p) (pLastEv p) (pInHi p) [], revision) ∧
    ∃ again, lvAgain view = Ok again ∧ (match again with Some r => r =? revision | None => revision =? 0 end) = true.
Proof.
  intros Hid [(H1 & H2 & H3 & H4 & H5)|(value & revision & m & body & states & H1 & H2 & H3 & H4 & H5 & H6 & H7 & H8)];
    unfold loadSnapshot; rewrite H1; cbn [mbind result_bind].
  - exists 0. rewrite H3, H4, H5. split; [done|]. by exists None.
  - exists revision. rewrite H3. cbn [mbind result_bind]. rewrite H6, H7. cbn [mbind result_bind].
    rewrite load_states with (sagas := pSagas p) by done. rewrite H4, H5. split; [done|]. exists (Some revision).
    split; [done|apply Z.eqb_refl].
Qed.

(** ** One replay *)

Lemma replayOnce_spec e k view log p his events :
  json_events e k log → log_sorted log → shows e k view log → shows_snapshot e k view p →
  (∀ id st, pSagas p !! id = Some st → rID (ssRecord st) = id) → keeps_last e k (pLastEv p) log →
  0 ≤ pLastEv p < 2^64 - 1 → 0 ≤ pInHi p < 2^64 - 1 →
  carries e his events (map mData (newEvents e k (pLastEv p) log)) → Forall (ev_ok e k) events →
  ∃ s followFrom, replayOnce e k view = Ok (Some (s, followFrom)) ∧
    rpSagas s = replayEvents (pSagas p) events ∧
    rpLastEv s = lastSeqOf (pLastEv p) (newEvents e k (pLastEv p) log) ∧
    rpInHi s = fold_left Z.max his (pInHi p) ∧
    rpPending s = filter (λ m, ¬ isEvent e k m ∧ rpInHi s < mSeq m) log.
Proof.
  intros Hj Hlog [S1 S2 S3] Hsnap Hid Hkeep Hl Hi Hc Hev. unfold replayOnce.
  destruct (loadSnapshot_shows e k view p Hid Hsnap) as (revision & -> & again & Hag & Hsame).
  cbn [mbind result_bind rpLastEv rpInHi]. rewrite S1. cbn [mbind result_bind].
  set (msgs := filter (λ m, u64 (Z.min (pLastEv p) (pInHi p) + 1) ≤ mSeq m ≤ lastSeqOf 0 log) log).
  destruct (read_range e k (pLastEv p) (pInHi p) log Hlog Hl Hi) as [R1 R2]. fold msgs in R1, R2.
  destruct (replayMsgs_spec e k (pLastEv p) (pInHi p) msgs his events (mkReplay (pSagas p) (pLastEv p) (pInHi p) []))
    as (s' & Hs' & E1 & E2 & E3 & E4); [|by rewrite R1|done|].
  { eapply json_events_sub; [exact Hj|]. by intros m [_ ?]%list_elem_of_filter. }
  cbn in E1, E2, E3, E4.
  match goal with |- context [if ?b then mbind ?f ?m else ?d] => assert ((if b then mbind f m else d) = Ok s') as -> end.
  { destruct (Z.leb_spec (u64 (Z.min (pLastEv p) (pInHi p) + 1)) (lastSeqOf 0 log)) as [Hle|Hgt]; [by rewrite S2|].
    rewrite <- Hs'. assert (msgs = []) as ->; [|done]. unfold msgs. rewrite (filter_ext_in _ (λ _, False)).
    - clear. by induction log.
    - intros m _. split; [lia|done]. }
  cbn [mbind result_bind]. rewrite S3, Hag. cbn [mbind result_bind]. rewrite Hsame.
  rewrite (last_event_new e k (pLastEv p)) by (done || lia). cbn [rpLastEv rpInHi rpSagas rpPending].
  rewrite E2, R1, Z.eqb_refl. cbn [negb orb].
  eexists _, _. split; [reflexivity|]. cbn. rewrite E1, E3, E4, R2. split_and!; try done.
  rewrite list_filter_filter. apply filter_ext_in. intros m _.
  assert (∀ l v, v ≤ fold_left Z.max l v) as Hmax by (clear; induction l as [|x l IH]; intros v; cbn; [lia|specialize (IH (Z.max v x)); lia]).
  pose proof (Hmax his (pInHi p)). split; [intros (? & ? & ?); split; [done|lia]|intros [? ?]; split; [lia|split; [done|lia]]].
Qed.

(** ** Theorems *)

(** A restart of partition [p]: [published] is what its run published since,
    all of it is in the log, and nothing else wrote events. *)
Record restart (e : Engine) (k : Z) (p : partition) (published : list outMsg) (view : logView) (log : list LogMsg) : Prop := {
  rs_sorted : log_sorted log;
  rs_shows : shows e k view log;
  rs_snapshot : shows_snapshot e k view p;
  rs_keeps : keeps_last e k (pLastEv p) log;
  rs_events : map mData (newEvents e k (pLastEv p) log) = map omData published;
  rs_lastEv : 0 ≤ pLastEv p < 2^64 - 1;
  rs_inHi : 0 ≤ pInHi p < 2^64 - 1
}.

Lemma max_le_fold l b : ∀ v, v ≤ b → Forall (λ x, x ≤ b) l → v ≤ fold_left Z.max l v ≤ b.
Proof.
  induction l as [|x l IH]; intros v Hv Hl; cbn; [lia|]. inversion_clear Hl as [|? ? Hx Hl'].
  pose proof (IH (Z.max v x) ltac:(lia) Hl'). lia.
Qed.

(** C3: a restarted partition continues where the last one stopped.  After
    any run, from an empty log or from the snapshot taken in the middle of it,
    one replay of the log succeeds and rebuilds the states the run held, and
    besides them only finished sagas the run had already pruned; the inputs
    it takes as decided were decided, and every later one is handed back to be
    decided again, in order.  The JSON of the events in the log is taken to
    decode back. *)
Theorem replay_rebuilds e k tick slots now rounds1 rounds2 view log :
  let p1 := fst (runRounds e (newPartition k tick slots now) rounds1) in
  let s2 := runRounds e p1 rounds2 in
  run_ok e (rounds1 ++ rounds2) → json_events e k log → restart e k p1 (snd s2) view log →
  ∃ s followFrom, replayOnce e k view = Ok (Some (s, followFrom)) ∧
    rebuilt (pSagas (fst s2)) (rpSagas s) ∧
    pInHi p1 ≤ rpInHi s ≤ pInHi (fst s2) ∧
    rpPending s = filter (λ m, ¬ isEvent e k m ∧ rpInHi s < mSeq m) log.
Proof.
  intros p1 s2 [He Hn Hw] Hj [R1 R2 R3 R4 R5 R6 R7]. rewrite work_app in Hw. apply Forall_app in Hn as [Hn1 Hn2].
  pose proof (work_nonneg rounds1). pose proof (work_nonneg rounds2).
  destruct (runRounds_ok e rounds1 0 (newPartition k tick slots now) []) as (H1 & H2 & _); [done..|lia|lia|done|].
  fold (runRounds e (newPartition k tick slots now) rounds1) in H1, H2. fold p1 in H1, H2. cbn [pK newPartition] in H2.
  destruct (runRounds_replay e rounds2 (work rounds1) p1 (pSagas p1)) as (his & evs & Hc & Hev & Hh & Hin & Hre);
    [done..|lia|lia|done|]. fold s2 in Hc, Hh, Hin, Hre. rewrite H2 in Hev.
  destruct (replayOnce_spec e k view log p1 his evs) as (s & ff & E & E1 & E2 & E3 & E4); try done.
  - intros id st Hst. by destruct (H1 id st Hst) as (_ & ? & _).
  - by rewrite R5.
  - exists s, ff. split; [done|]. split; [by rewrite E1|]. split; [rewrite E3; by apply max_le_fold|done].
Qed.

(** ** Purging *)

Lemma purgeBound_le view floors :
  0 ≤ svInHi view < 2^64 - 1 →
  purgeBound view floors ≤ svInHi view + 1 ∧ purgeBound view floors ≤ svLastEv view ∧
  ∀ name floor, floors !! name = Some floor → 0 ≤ floor < 2^64 - 1 → purgeBound view floors ≤ floor + 1.
Proof.
  intros Hi. unfold purgeBound. rewrite (u64_small (svInHi view + 1)) by (unfold_int; lia).
  assert (∀ l b, let m := fold_left (λ bound floor, Z.min bound (u64 (floor + 1))) l b in
    m ≤ b ∧ ∀ x, x ∈ l → m ≤ u64 (x + 1)) as Hmin.
  { induction l as [|y l IH]; intros b; cbn; [split; [lia|by intros ? ?%elem_of_nil]|].
    destruct (IH (Z.min b (u64 (y + 1)))) as [I1 I2]. split; [lia|]. intros x [->|Hx]%elem_of_cons; [lia|by apply I2]. }
  destruct (Hmin (map snd (map_to_list floors)) (Z.min (svInHi view + 1) (svLastEv view))) as [M1 M2].
  split; [lia|]. split; [lia|]. intros name floor Hf Hr. rewrite <- (u64_small (floor + 1)) by (unfold_int; lia).
  apply M2, list_elem_of_In, in_map_iff. exists (name, floor). split; [done|]. by apply list_elem_of_In, elem_of_map_to_list.
Qed.

(** The log without the messages below the bound. *)
Definition purged (bound : Z) (log : list LogMsg) : list LogMsg := filter (λ m, bound ≤ mSeq m) log.

Lemma purged_sorted bound log : log_sorted log → log_sorted (purged bound log).
Proof.
  intros [Hs Hp]. split; [by apply sorted_filter|]. apply Forall_forall. intros m [_ Hm]%list_elem_of_filter.
  exact (proj1 (Forall_forall _ _) Hp m Hm).
Qed.

Lemma purged_new e k after bound log : bound ≤ after → newEvents e k after (purged bound log) = newEvents e k after log.
Proof. intros Hb. unfold newEvents, purged. apply list_filter_filter_l. intros m [_ ?]. lia. Qed.

Lemma purged_last bound log (P : LogMsg → Prop) `{∀ m, Decision (P m)} m :
  log_sorted log → m ∈ log → P m → bound ≤ mSeq m → lastSeqOf 0 (filter P (purged bound log)) = lastSeqOf 0 (filter P log).
Proof.
  intros [Hs Hp] Hm HP Hb. pose proof (sorted_filter P log Hs) as H1.
  pose proof (sorted_filter P _ (sorted_filter (λ m, bound ≤ mSeq m) log Hs)) as H2. fold (purged bound log) in H2.
  assert (mSeq m ≤ lastSeqOf 0 (filter P log)) as Hle by (apply sorted_last_bound; [done|by apply list_elem_of_filter]).
  assert (mSeq m ≤ lastSeqOf 0 (filter P (purged bound log))) as Hle'.
  { apply sorted_last_bound; [done|]. apply list_elem_of_filter. split; [done|]. by apply list_elem_of_filter. }
  pose proof (proj1 (Forall_forall _ _) Hp m Hm) as Hpm. cbn in Hpm.
  apply Z.le_antisymm.
  - destruct (lastSeqOf_elem 0 (filter P (purged bound log))) as [->|(x & Hx & <-)]; [lia|].
    apply sorted_last_bound; [done|]. apply list_elem_of_filter in Hx as [? [_ Hx]%list_elem_of_filter].
    by apply list_elem_of_filter.
  - destruct (lastSeqOf_elem 0 (filter P log)) as [E|(x & Hx & E)]; [lia|]. rewrite <- E.
    apply sorted_last_bound; [done|]. apply list_elem_of_filter in Hx as [? Hx].
    apply list_elem_of_filter. split; [done|]. apply list_elem_of_filter. split; [lia|done].
Qed.

(** Messages the replay would skip may be missing. *)
Lemma replayMsgs_skip e k after inHi (P : LogMsg → Prop) `{∀ m, Decision (P m)} msgs : ∀ s,
  (∀ m, m ∈ msgs → ¬ P m → mSeq m ≤ after ∧ mSeq m ≤ inHi) →
  replayMsgs e k after inHi (filter P msgs) s = replayMsgs e k after inHi msgs s.
Proof.
  induction msgs as [|m msgs IH]; intros s Hs; [done|]. destruct (decide (P m)) as [Hp|Hp].
  - rewrite filter_cons_True by done. cbn [replayMsgs]. destruct (replayMsg e k after inHi s m); [|done].
    cbn [mbind result_bind]. apply IH. intros x Hx. apply Hs. by right.
  - rewrite filter_cons_False by done. cbn [replayMsgs]. destruct (Hs m) as [H1 H2]; [by left|done|].
    assert (replayMsg e k after inHi s m = Ok s) as ->.
    { unfold replayMsg. rewrite (proj2 (Z.ltb_ge _ _) H2), (proj2 (Z.leb_le _ _) H1). by case_match. }
    apply IH. intros x Hx. apply Hs. by right.
Qed.

Lemma purge_bound view cold floors bound :
  purge view cold floors = Some bound →
  1 < bound ∧ ∃ floors', bound = purgeBound view floors' ∧ (∀ name floor, floors !! name = Some floor → floors' !! name = Some floor) ∧
    (∀ name, cold = Some name → floors !! name = None → floors' !! name = Some 0).
Proof.
  unfold purge. destruct cold as [name|].
  2:{ destruct (Z.leb_spec (purgeBound view floors) 1); [done|]. intros [= <-]. split; [done|]. by exists floors. }
  destruct (floors !! name) as [v|] eqn:En; case_match eqn:Eb; try done; to_prop; intros [= <-]; (split; [lia|]).
  - exists floors. split_and!; [done..|]. intros name' [= <-]. congruence.
  - exists (<[name := 0]> floors). split_and!; [done| |].
    + intros name' floor Hf. rewrite lookup_insert_ne; [done|]. congruence.
    + intros name' [= <-] _. apply lookup_insert_eq.
Qed.

(** C16: purging never costs a restart anything.  After a snapshot of the
    partition, the messages below the bound that [purge] computes may vanish
    from the log: a replay then answers exactly what it answers on the whole
    log.  The bound passes no acknowledged floor of a durable, and while the
    cold copy is on but has no durable nothing is purged. *)
Theorem purge_preserves_replay e k p view view' log sv cold floors bound :
  log_sorted log → shows e k view log → shows_snapshot e k view p → keeps_last e k (pLastEv p) log →
  (∀ id st, pSagas p !! id = Some st → rID (ssRecord st) = id) →
  0 ≤ pLastEv p < 2^64 - 1 → 0 ≤ pInHi p < 2^64 - 1 → svLastEv sv = pLastEv p → svInHi sv = pInHi p →
  purge sv cold floors = Some bound →
  shows e k view' (purged bound log) → lvManifest view' = lvManifest view → lvObject view' = lvObject view →
  lvAgain view' = lvAgain view →
  replayOnce e k view' = replayOnce e k view ∧
  (∀ name floor, floors !! name = Some floor → 0 ≤ floor < 2^64 - 1 → bound ≤ floor + 1) ∧
  (∀ name, cold = Some name → is_Some (floors !! name)).
Proof.
  intros Hlog [S1 S2 S3] Hsnap Hkeep Hid Hl Hi Vl Vi Hpurge [T1 T2 T3] M1 M2 M3.
  destruct (purge_bound sv cold floors bound Hpurge) as (Hb & floors' & Hbd & Hf & Hc).
  destruct (purgeBound_le sv floors') as (B1 & B2 & B3); [lia|]. rewrite <- Hbd, Vl, Vi in *.
  split; [|split].
  2:{ intros name floor Hn. apply (B3 name), Hf, Hn. }
  2:{ intros name Hn. destruct (floors !! name) eqn:E; [by eexists|]. pose proof (B3 name 0 (Hc name Hn E)). lia. }
  destruct Hkeep as [?|(m & Hm & Hev & Hseq)]; [lia|].
  unfold replayOnce. assert (loadSnapshot e k view' = loadSnapshot e k view) as -> by (unfold loadSnapshot; by rewrite M1, M2).
  destruct (loadSnapshot_shows e k view p Hid Hsnap) as (revision & -> & _). cbn [mbind result_bind rpLastEv rpInHi].
  rewrite S1, T1, S3, T3, M3. cbn [mbind result_bind].
  rewrite (purged_last bound log (isEvent e k) m) by (done || lia).
  assert (lastSeqOf 0 (purged bound log) = lastSeqOf 0 log) as ->.
  { pose proof (purged_last bound log (λ _, True) m Hlog Hm I ltac:(lia)) as H'.
    rewrite !(filter_all (λ _ : LogMsg, True)) in H' by (by apply Forall_forall). exact H'. }
  set (from := u64 _). rewrite S2, T2. cbn [mbind result_bind].
  assert (replayMsgs e k (pLastEv p) (pInHi p) (filter (λ m0, from ≤ mSeq m0 ≤ lastSeqOf 0 log) (purged bound log))
      (mkReplay (pSagas p) (pLastEv p) (pInHi p) []) =
    replayMsgs e k (pLastEv p) (pInHi p) (filter (λ m0, from ≤ mSeq m0 ≤ lastSeqOf 0 log) log)
      (mkReplay (pSagas p) (pLastEv p) (pInHi p) [])) as ->; [|done].
  rewrite <- (replayMsgs_skip e k _ _ (λ m0, bound ≤ mSeq m0) (filter _ log)) by (intros x _ Hx; lia).
  f_equal. unfold purged. rewrite !list_filter_filter. apply list_filter_iff. tauto.
Qed.
