(* ===== verification/SagaRestart.v ===== *)
(** * A concrete restart

    Instances of the theorems on replays. *)

From Stdlib Require Import String.
From S2P Require Import Prelude Bytes GoStr GoJson SagaRecord SagaKeys SagaTransition SagaLayout SagaWheel.
From S2P Require Import SagaWire SagaPartition SagaStep SagaRound SagaRun SagaReplay SagaSafety.

(** Published messages in a log of their own. *)
Definition eventMsg (seq : Z) (data : bytes) : LogMsg := mkMsg seq (NoneEventSubject tradeLayout tradePart) [] data.
Fixpoint logFrom (seq : Z) (out : list outMsg) : list LogMsg :=
  match out with
  | [] => []
  | m :: out' => eventMsg seq (omData m) :: logFrom (seq + 1) out'
  end.

(** The stores of a log without a snapshot. *)
Definition bareView (log : list LogMsg) : logView :=
  mkView (Ok None) (λ _, None) (Ok (lastSeqOf 0 log)) (λ a b, Ok (filter (λ m, a ≤ mSeq m ≤ b) log))
    (Ok (lastSeqOf 0 (filter (isEvent tradeEngine tradePart) log))) (Ok None).

Lemma logFrom_spec out : ∀ seq, 0 < seq →
  log_sorted (logFrom seq out) ∧ Forall (λ m, seq ≤ mSeq m) (logFrom seq out) ∧
  map mData (newEvents tradeEngine tradePart 0 (logFrom seq out)) = map omData out.
Proof.
  induction out as [|m out IH]; intros seq Hs; [split_and!; [split; constructor|constructor|done]|].
  cbn [logFrom]. destruct (IH (seq + 1) ltac:(lia)) as ([I1 I2] & I3 & I4).
  split; [split|split].
  - constructor; [done|]. eapply Forall_impl; [exact I3|]. cbn. lia.
  - constructor; [done|exact I2].
  - constructor; [done|]. eapply Forall_impl; [exact I3|]. cbn. lia.
  - unfold newEvents. rewrite filter_cons_True by (split; [vm_compute; reflexivity|done]). cbn [map]. by rewrite <- I4.
Qed.

Lemma bare_restart p out :
  pSagas p = ∅ → pLastEv p = 0 → pInHi p = 0 →
  restart tradeEngine tradePart p out (bareView (logFrom 1 out)) (logFrom 1 out).
Proof.
  intros E1 E2 E3. destruct (logFrom_spec out 1 ltac:(lia)) as (L1 & L2 & L3).
  split; rewrite ?E2, ?E3; [exact L1|by split|left; by split_and!|by left|exact L3|lia|lia].
Qed.

Lemma replay_rebuilds_witness :
  let s2 := runRounds tradeEngine tradePartition failedTrade in
  let log := logFrom 1 (snd s2) in
  ∃ s followFrom, replayOnce tradeEngine tradePart (bareView log) = Ok (Some (s, followFrom)) ∧
    rebuilt (pSagas (fst s2)) (rpSagas s) ∧ pInHi tradePartition ≤ rpInHi s ≤ pInHi (fst s2) ∧
    rpPending s = filter (λ m, ¬ isEvent tradeEngine tradePart m ∧ rpInHi s < mSeq m) log.
Proof.
  exact (replay_rebuilds tradeEngine tradePart (100 * Millisecond) 512 (unixEpoch + seconds 1) [] failedTrade _ _
    failedTrade_ok (λ ev _ _, countedJson_events _ _ ev) (bare_restart tradePartition _ eq_refl eq_refl eq_refl)).
Defined.

(** ** A purge *)

(** A partition whose one snapshot holds no saga, after event 5 and input 3. *)
Definition emptyPartition : partition :=
  mkPartition tradePart ∅ 5 3 0 (newWheel (100 * Millisecond) 512 (unixEpoch + seconds 1)) [] 0 0.

Definition emptyManifest : snapshotManifest :=
  mkManifest WireVersion tradePart tradeLayout 5 3 (str "writer-1") 0 (str "p-5") 0 (hex_encode (Sha256.Sum256 [])).

Definition purgeEngine : Engine :=
  mkEngine ∅ tradeLayout (str "writer-1") (2^20) (seconds 3600) (seconds 86400)
    (mkJson (λ _, []) (λ _, None) (λ _, None) (λ _, None) (λ _, None) (λ _, Some emptyManifest) (λ _, Some [])).

Definition inputMsg (seq : Z) : LogMsg := mkMsg seq (StartSubject tradeLayout tradePart) [] [].

Definition purgeLog : list LogMsg := [inputMsg 1; inputMsg 2; eventMsg 3 []; inputMsg 4; eventMsg 5 []; inputMsg 6].

Definition purgeView (log : list LogMsg) : logView :=
  mkView (Ok (Some ([], 7))) (λ _, Some []) (Ok (lastSeqOf 0 log)) (λ a b, Ok (filter (λ m, a ≤ mSeq m ≤ b) log))
    (Ok (lastSeqOf 0 (filter (isEvent purgeEngine tradePart) log))) (Ok (Some 7)).

Lemma purge_preserves_replay_witness :
  purge (mkSnapshotView [] 5 3) None {[str "debit" := 3]} = Some 4 ∧
  purged 4 purgeLog = [inputMsg 4; eventMsg 5 []; inputMsg 6] ∧
  replayOnce purgeEngine tradePart (purgeView (purged 4 purgeLog)) = replayOnce purgeEngine tradePart (purgeView purgeLog) ∧
  replayOnce purgeEngine tradePart (purgeView purgeLog) = Ok (Some (mkReplay ∅ 5 3 [inputMsg 4; inputMsg 6], 7)).
Proof.
  split; [vm_compute; reflexivity|]. split; [vm_compute; reflexivity|]. split; [|vm_compute; reflexivity].
  refine (proj1 (purge_preserves_replay purgeEngine tradePart emptyPartition (purgeView purgeLog) (purgeView (purged 4 purgeLog))
    purgeLog (mkSnapshotView [] 5 3) None {[str "debit" := 3]} 4 _ _ _ _ _ _ _ eq_refl eq_refl _ _ eq_refl eq_refl eq_refl)).
  - split; repeat constructor.
  - by split.
  - right. exists [], 7, emptyManifest, [], []. by split_and!; vm_compute.
  - right. exists (eventMsg 5 []). split; [|by vm_compute]. do 4 right. by left.
  - intros id st Hst. unfold emptyPartition in Hst; cbn [pSagas] in Hst; by rewrite lookup_empty in Hst.
  - cbn; lia.
  - cbn; lia.
  - vm_compute. reflexivity.
  - by split.
Defined.
