(* ===== verification/SagaDelivery.v ===== *)
(** * Delivery: what holds of the commands and results of a run

    Command ids are never used twice, a result is applied once, and a late
    success of an abandoned step is never lost. *)

From Stdlib Require Import String.
From S2P Require Import Prelude Bytes GoStr GoJson SagaRecord SagaKeys SagaTransition SagaRecordInv.
From S2P Require Import SagaTransitionInv SagaLayout SagaWheel SagaWire SagaPartition SagaStateInv SagaStep.
From S2P Require Import SagaRound SagaRun SagaIssue SagaSafety.

(** ** Names of attempts *)

Definition operationOf (id lc : bytes) (a : attempt) : bytes := operationKey id lc (aPhase a) (aStep a).
Definition nameIn (id lc : bytes) (a : attempt) : bytes := commandID (operationOf id lc a) (aInc a) (aAtt a).

Record attempt_ok (a : attempt) : Prop := {
  at_phase : real_phase (aPhase a);
  at_step : step_range (aStep a);
  at_inc : is_u32 (aInc a);
  at_att : is_u32 (aAtt a)
}.

Lemma nameOf_in r a : nameOf r a = nameIn (rID r) (rLifecycle r) a.
Proof. done. Qed.

Lemma commandID_tail op inc att : ∃ rest, commandID op inc att = op ++ [colon] ++ rest.
Proof. unfold commandID. case_match; [by eexists|]. by exists (str "r" ++ Itoa inc ++ [colon] ++ Itoa att). Qed.

Lemma operationKey_parts id lc p s x id' lc' p' s' x' :
  zlen id = 32 → colon ∉ lc → zlen id' = 32 → colon ∉ lc' → real_phase p → real_phase p' → step_range s → step_range s' →
  operationKey id lc p s ++ [colon] ++ x = operationKey id' lc' p' s' ++ [colon] ++ x' →
  id = id' ∧ lc = lc' ∧ p = p' ∧ s = s'.
Proof.
  intros Hi Hl Hi' Hl' P1 Q1 P2 Q2 E0. unfold step_range, operationKey in *.
  rewrite <- !app_assoc in E0. apply app_inj_1 in E0 as [-> E0]; [|unfold zlen in *; lia].
  injection E0 as E0. apply cut_inj in E0 as [-> E0]; [|done..].
  assert ((colon ∉ Itoa (phase_code p)) ∧ (colon ∉ Itoa (phase_code p'))) as [C1 C2].
  { destruct P1 as [->| ->], Q1 as [->| ->]; by split; apply Itoa_no_colon. }
  apply cut_inj in E0 as [Ep E0]; [|done..]. apply cut_inj in E0 as [Es _]; [|apply Itoa_no_colon; lia..].
  apply Itoa_inj in Ep; [|by apply phase_code_small..]. apply phase_code_inj in Ep; [|done..].
  apply Itoa_inj in Es; [|unfold small; lia..]. by split_and!.
Qed.

Lemma nameIn_inj id lc a id' lc' a' :
  zlen id = 32 → colon ∉ lc → zlen id' = 32 → colon ∉ lc' → attempt_ok a → attempt_ok a' →
  nameIn id lc a = nameIn id' lc' a' → id = id' ∧ lc = lc' ∧ a = a'.
Proof.
  intros Hi Hl Hi' Hl' [P1 P2 P3 P4] [Q1 Q2 Q3 Q4] E.
  destruct (commandID_tail (operationOf id lc a) (aInc a) (aAtt a)) as [x Ex].
  destruct (commandID_tail (operationOf id' lc' a') (aInc a') (aAtt a')) as [x' Ex'].
  pose proof E as E0. unfold nameIn in E0. rewrite Ex, Ex' in E0.
  apply operationKey_parts in E0 as (-> & -> & Ep & Es); [|done..]. split_and!; [done..|].
  unfold nameIn, operationOf in E. rewrite Ep, Es in E. apply commandID_inj in E as [? ?]; [|done..].
  destruct a, a'; cbn in *; congruence.
Qed.

(** ** Issued commands *)

Record issued (e : Engine) (used : list bytes) (v : view) (c : Command) (id lc : bytes) (a : attempt) : Prop := {
  is_id : zlen id = 32;
  is_lc : colon ∉ lc;
  is_attempt : attempt_ok a;
  is_name : cID c = nameIn id lc a;
  is_key : cIdempotencyKey c = operationOf id lc a;
  is_saga : cSagaID c = id;
  is_used : lc ∈ used;
  is_spent : ∀ st, v id = Some st → rLifecycle (ssRecord st) = lc → spent st a ∧ is_Some (definitionOf e (ssRecord st))
}.

Definition issue_inv (e : Engine) : invariant := λ used v cmds,
  NoDup (cID <$> cmds) ∧
  Forall (λ c, ∃ id lc a, issued e used v c id lc a) cmds ∧
  ∀ id st, v id = Some st → (rLifecycle (ssRecord st) ∈ used) ∧ rIncarnation (ssRecord st) < rVersion (ssRecord st) ∧ zlen id = 32.

Lemma issue_less e : ∀ used used' v v' cmds cmds',
  issue_inv e used v cmds → (used ⊆ used') → (∀ id, v' id = v id ∨ v' id = None) → cmds ≡ₚ cmds' → issue_inv e used' v' cmds'.
Proof.
  intros used used' v v' cmds cmds' (H1 & H2 & H3) Hu Hv Hp. split_and!.
  - by rewrite <- Hp.
  - rewrite <- Hp. eapply Forall_impl; [exact H2|]. intros c (id & lc & a & []). exists id, lc, a. split; auto.
    intros st Hst. destruct (Hv id) as [E|E]; rewrite E in Hst; [auto|done].
  - intros id st Hst. destruct (Hv id) as [E|E]; rewrite E in Hst; [|done]. destruct (H3 id st Hst). auto.
Qed.

Lemma step_start_facts e k now st kind cmd :
  saga_step e k now None st kind cmd →
  cmd = None ∧ zlen (rID (ssRecord st)) = 32 ∧ rIncarnation (ssRecord st) < rVersion (ssRecord st).
Proof.
  intros H. inversion H; subst. match goal with H : newStartRecord _ _ _ _ = Ok _ |- _ => unfold newStartRecord in H end.
  destruct (startIntentDigest request); [|done]. cbn [mbind result_bind] in *. inv_ok. cbn [ssRecord]. fields.
  split_and!; [done|apply IDOf_len|lia].
Qed.

Lemma definitionOf_same e r r' : same_run r r' → definitionOf e r' = definitionOf e r.
Proof. intros (_ & _ & E1 & E2 & _). unfold definitionOf. by rewrite E1, E2. Qed.

(** What an old command's record becomes after a step. *)
Lemma issued_step e k bound used used' v now st kind cmd c id lc a :
  engine_ok e → bound < 2^32 - 1 → 0 < now → (∀ id st0, v id = Some st0 → filed e k bound id st0) →
  (∀ id st, v id = Some st → rIncarnation (ssRecord st) < rVersion (ssRecord st)) →
  saga_step e k now (v (rID (ssRecord st))) st kind cmd → (used ⊆ used') →
  (v (rID (ssRecord st)) = None → (rLifecycle (ssRecord st) ∉ used)) →
  issued e used v c id lc a → issued e used' (wrote st v) c id lc a.
Proof.
  intros He Hb Hn Hf Hi Hs Hu Hl []. split; try done; [auto|]. intros st1. unfold wrote. case_decide as Hid; [|auto].
  intros [= <-] Hlc. subst id. destruct (v (rID (ssRecord st))) as [st0|] eqn:Ev.
  - destruct (Hf _ _ Ev) as (F1 & F2 & F3 & F4). specialize (Hi _ _ Ev).
    destruct (saga_step_inv e k now (Some st0) st kind cmd He Hn Hs) as (_ & _ & Hrun); [by intros ? [= <-]|cbn; lia|].
    destruct (Hrun st0 eq_refl) as [Hsame _]. assert (rLifecycle (ssRecord st0) = lc) as Hl0 by (destruct Hsame as (_ & <- & _); done).
    destruct (is_spent0 st0 ltac:(congruence) Hl0) as [Hsp Hdef]. split; [|by rewrite (definitionOf_same e _ _ Hsame)].
    eapply step_spent; [exact Hs|done|lia|done].
  - exfalso. apply (Hl eq_refl). by rewrite Hlc.
Qed.

Lemma issue_step e k bound : engine_ok e → bound < 2^32 - 1 →
  ∀ used used' v cmds now st kind cmd,
    issue_inv e used v cmds → 0 < now → (∀ id st0, v id = Some st0 → filed e k bound id st0) →
    saga_step e k now (v (rID (ssRecord st))) st kind cmd → (used ⊆ used') →
    (v (rID (ssRecord st)) = None → (rLifecycle (ssRecord st) ∉ used) ∧ (rLifecycle (ssRecord st) ∈ used')) →
    issue_inv e used' (wrote st v) (cmds ++ option_list cmd).
Proof.
  intros He Hb used used' v cmds now st kind cmd (H1 & H2 & H3) Hn Hf Hs Hu Hl.
  assert (Forall (λ c, ∃ id lc a, issued e used' (wrote st v) c id lc a) cmds) as Hold.
  { eapply Forall_impl; [exact H2|]. intros c (id & lc & a & Hc). exists id, lc, a.
    eapply issued_step; try done; [by intros i s Hi; destruct (H3 i s Hi) as (_ & ? & _)|by intros Hx; apply Hl in Hx as [? _]]. }
  destruct (v (rID (ssRecord st))) as [st0|] eqn:Ev.
  2:{ destruct (step_start_facts _ _ _ _ _ _ Hs) as (-> & Hlen & Hinc). rewrite app_nil_r. split_and!; [done..|].
      intros id st1. unfold wrote. case_decide as Hid; [|by intros Hst; destruct (H3 id st1 Hst); auto].
      intros [= <-]. split_and!; [by apply Hl|done|by rewrite Hid]. }
  destruct (Hf _ _ Ev) as (F1 & F2 & F3 & F4). destruct (H3 _ _ Ev) as (G1 & G2 & G3).
  destruct (saga_step_inv e k now (Some st0) st kind cmd He Hn Hs) as (Hst & Hver & Hrun); [by intros ? [= <-]|cbn; lia|].
  destruct (Hrun st0 eq_refl) as [Hsame Hvle].
  assert (∀ id st1, wrote st v id = Some st1 → (rLifecycle (ssRecord st1) ∈ used') ∧
    rIncarnation (ssRecord st1) < rVersion (ssRecord st1) ∧ zlen id = 32) as Hviews.
  { intros id st1. unfold wrote. case_decide as Hid; [|by intros Hst1; destruct (H3 id st1 Hst1); auto].
    intros [= <-]. split_and!; [destruct Hsame as (_ & -> & _); auto| |by rewrite Hid].
    eapply step_incarnation; [exact Hs|by intros ? [= <-]|intros ? [= <-]; lia]. }
  destruct cmd as [c|]; [|by rewrite app_nil_r].
  destruct (step_issues e k now st0 st kind c Hs F1) as (a & N1 & N2 & N3 & N4 & N5 & N6); [lia|].
  assert (issued e used' (wrote st v) c (rID (ssRecord st0)) (rLifecycle (ssRecord st0)) a) as Hc.
  { destruct Hsame as (E1 & E2 & E3). split; try done.
    - by rewrite F2.
    - apply lifecycle_no_colon, (id_life _ (bi_ident _ (proj1 (si_rec _ F1)))).
    - pose proof (bi_inc _ (proj1 (si_rec _ Hst))) as Hinc. destruct N6 as [P1 P2 P3 P4 _ _]. unfold is_u32 in *. cbn [ssRecord wrote] in *. split; [done|done|unfold is_u32; lia|unfold is_u32; lia].
    - auto.
    - intros st1. unfold wrote. rewrite decide_True by done. intros [= <-] _. split; [done|].
      destruct Hrun with st0 as [Hsame' _]; [done|]. by rewrite (definitionOf_same e _ _ Hsame'). }
  split_and!; [|by apply Forall_app; split; [|constructor; [by eauto|constructor]]|done].
  rewrite fmap_app. apply NoDup_app. split_and!; [done| |apply NoDup_singleton].
  intros x Hx ->%list_elem_of_singleton. apply list_elem_of_fmap in Hx as (c' & Hname & Hin).
  destruct (proj1 (Forall_forall _ _) H2 c' Hin) as (id' & lc' & a' & Hc').
  rewrite (is_name _ _ _ _ _ _ _ Hc), (is_name _ _ _ _ _ _ _ Hc') in Hname.
  apply nameIn_inj in Hname as (E1 & E2 & <-); [|apply Hc|apply Hc|apply Hc'|apply Hc'|apply Hc|apply Hc'].
  apply N5, (is_spent _ _ _ _ _ _ _ Hc' st0); congruence.
Qed.

Lemma issue_preserved e k bound : engine_ok e → bound < 2^32 - 1 → preserved e k bound (issue_inv e).
Proof. intros He Hb. split; [by apply issue_step|by apply issue_less]. Qed.

(** ** Receipts *)

Definition lives_inv : invariant := λ used v _, ∀ id st, v id = Some st → rLifecycle (ssRecord st) ∈ used.

Lemma lives_preserved e k bound : engine_ok e → bound < 2^64 - 1 → preserved e k bound lives_inv.
Proof.
  intros He Hb. split.
  - intros used used' v cmds now st kind cmd H Hn Hf Hs Hu Hl id st1. unfold wrote. case_decide as Hid; [|intros Hst; apply Hu; eauto].
    intros [= <-]. destruct (v (rID (ssRecord st))) as [st0|] eqn:Ev; [|by apply Hl].
    destruct (Hf _ _ Ev) as (F1 & _ & _ & F4).
    destruct (saga_step_inv e k now (Some st0) st kind cmd He Hn Hs) as (_ & _ & Hrun); [by intros ? [= <-]|cbn; lia|].
    destruct (Hrun st0 eq_refl) as [(_ & -> & _) _]. eauto.
  - intros used used' v v' cmds cmds' H Hu Hv _ id st Hst. destruct (Hv id) as [E|E]; rewrite E in Hst; [eauto|done].
Qed.

(** A recorded receipt stays while its run is held. *)
Definition receipt_inv (id lc cid digest : bytes) : invariant := λ used v _,
  (lc ∈ used) ∧ ∀ st, v id = Some st → rLifecycle (ssRecord st) = lc → ssReceipts st !! cid = Some digest.

Lemma step_receipts e k now st st' kind cmd cid digest :
  saga_step e k now (Some st) st' kind cmd → ssReceipts st !! cid = Some digest → ssReceipts st' !! cid = Some digest.
Proof.
  intros Hs Hr. inversion Hs; subst; try rewrite applyState_receipts; cbn [tReceipt ssReceipts]; try done;
    rewrite lookup_insert_ne; congruence.
Qed.

Lemma receipt_preserved e k bound id lc cid digest :
  engine_ok e → bound < 2^64 - 1 → preserved e k bound (receipt_inv id lc cid digest).
Proof.
  intros He Hb. split.
  - intros used used' v cmds now st kind cmd [Hin H] Hn Hf Hs Hu Hl. split; [auto|]. intros st1. unfold wrote. case_decide as Hid; [|auto].
    intros [= <-] Hlc. destruct (v (rID (ssRecord st))) as [st0|] eqn:Ev.
    2:{ destruct Hl as [Hl _]; [done|]. by rewrite Hlc in Hl. }
    destruct (Hf _ _ Ev) as (F1 & _ & _ & F4).
    destruct (saga_step_inv e k now (Some st0) st kind cmd He Hn Hs) as (_ & _ & Hrun); [by intros ? [= <-]|cbn; lia|].
    destruct (Hrun st0 eq_refl) as [(_ & E & _) _]. eapply step_receipts; [exact Hs|]. apply H; [by rewrite Hid|congruence].
  - intros used used' v v' cmds cmds' [Hin H] Hu Hv _. split; [auto|]. intros st Hst. destruct (Hv id) as [E|E]; rewrite E in Hst; [eauto|done].
Qed.

(** A result with a receipt changes nothing. *)
Lemma receipt_duplicate e p c r st :
  get p r (coSagaID c) = Some st → is_Some (ssReceipts st !! coCommandID c) → same_view r (resultOf e p c r).
Proof.
  intros Hg [prior Hp]. unfold resultOf. case_match; [done|]. rewrite Hg. case_match; [done|]. cbn zeta. case_match; try done.
  - case_match; [|done]. unfold receiptSeen. rewrite Hp. by destruct (prior =s receiptDigest c).
  - unfold history, stateHistory. rewrite Hp. destruct (negb (prior =s receiptDigest c)); [done|].
    unfold judgeHistory. cbn. by rewrite andb_false_r.
Qed.

(** ** Late successes *)

Lemma incarnation_name id lc a : attempt_ok a → commandIDIncarnation (operationOf id lc a) (nameIn id lc a) = aInc a.
Proof. intros [_ _ Hi Ha]. by apply commandID_incarnation. Qed.

(** A record is positioned at a forward operation only while it goes forward. *)
Lemma positionedAt_forward r k :
  base_inv r → shape r → step_range k → positionedAt r (opKey r PhaseForward k) = true →
  rPhase r = PhaseForward ∧ rStep r = k ∧ (rStatus r = StatusPending ∨ rStatus r = StatusWaiting).
Proof.
  intros Hb Hs Hk Hp. assert (Terminal (rStatus r) = false) as Ht by (unfold positionedAt in Hp; by destruct (rStatus r)).
  pose proof (shape_positioned r Hs Ht) as Hpos. destruct (current_key_facts r Hb Hpos) as [Hph Hsr].
  assert (currentOperation r = opKey r PhaseForward k) as E.
  { unfold positionedAt, shape in *. destruct (rStatus r); try done; to_prop; [done| |done].
    destruct Hs as (_ & [<- _] & _). done. }
  rewrite currentOperation_opKey in E. apply opKey_inj in E as [E1 E2]; [|auto with go_int..].
  split_and!; [done..|]. unfold shape, at_compensate in Hs. destruct (rStatus r); try done; auto. destruct Hs as ([? _] & _). congruence.
Qed.

(** Judging a success of an abandoned forward step that was issued. *)
Lemma late_judged st c k a :
  st_inv st → coSuccess c = true → step_range k → abandoned st k → spent st a → aPhase a = PhaseForward → aStep a = k →
  coIdempotencyKey c = opKey (ssRecord st) PhaseForward k → incarnationOf c = aInc a →
  (judgeCompletion (ssRecord st) c (incarnationOf c) = verdictAccept ∧
   rPhase (ssRecord st) = PhaseForward ∧ rStep (ssRecord st) = k) ∨
  (judgeCompletion (ssRecord st) c (incarnationOf c) = verdictHistory ∧
   lateForwardStep (ssRecord st) (coIdempotencyKey c) = Some k).
Proof.
  intros Hst Hc Hk Hab Hsp Hph Hstep Hkey ->. pose proof (si_rec st Hst) as [Hb Hs]. set (r := ssRecord st) in *.
  destruct (eo_abandoned st (si_effects st Hst) k Hk Hab) as [Hck Hl0]. fold r in Hck, Hl0.
  assert (lateForwardStep r (coIdempotencyKey c) =
    if (rPhase r =s PhaseCompensate) || (rStatus r =s StatusFailed) || (rStatus r =s StatusManualRequired) then Some k else None) as Hlate.
  { unfold lateForwardStep. rewrite Hkey. unfold opKey. rewrite parse_own by (auto with go_int; unfold step_range in Hk; lia).
    rewrite Hl0. destruct (Z.ltb_spec k (rCompletedSteps r)); [lia|done]. }
  assert (judgeCompletion r c (aInc a) =
    if ((openOperation r =s opKey r PhaseForward k) || (aInc a <? rIncarnation r)) && positionedAt r (opKey r PhaseForward k)
    then verdictAccept else verdictHistory) as ->.
  { unfold judgeCompletion. rewrite Hc, Hkey. pose proof (sp_inc _ _ Hsp). fold r in H.
    destruct (Z.ltb_spec (rIncarnation r) (aInc a)); [lia|done]. }
  destruct (positionedAt r (opKey r PhaseForward k)) eqn:Epos; [|right; rewrite andb_false_r, Hlate; split; [done|]].
  - destruct (positionedAt_forward r k Hb Hs Hk Epos) as (P1 & P2 & P3). left. split; [|done]. rewrite andb_true_r.
    destruct (Z.ltb_spec (aInc a) (rIncarnation r)); [by rewrite orb_true_r|].
    pose proof (sp_behind _ _ Hsp) as Hbe. pose proof (sp_inc _ _ Hsp) as Hi. pose proof (sp_att _ _ Hsp) as Ha. fold r in Hbe, Hi.
    specialize (Hbe ltac:(lia)). unfold behind in Hbe. rewrite Hph in Hbe. fold r in Hbe.
    assert (0 < rAttempt r) as Hat by (destruct Hbe; [done|by destruct P3 as [->| ->]|lia|lia]).
    assert (openOperation r = opKey r PhaseForward k) as ->; [|by rewrite bool_decide_true].
    unfold positionedAt, openOperation in *. destruct P3 as [P3|P3]; rewrite P3 in *; to_prop; [|done].
    destruct (Z.ltb_spec 0 (rAttempt r)); [done|lia].
  - destruct ((rPhase r =s PhaseCompensate) || _ || _) eqn:Eor; [done|exfalso]. to_prop. destruct Eor as [[E1 E2] E3].
    pose proof (shape_phase r Hs) as [Hf|?]; [|done].
    pose proof (eo_abandoned_at st (si_effects st Hst) Hf k Hk Hab) as Hat. fold r in Hat.
    destruct (sp_forward _ _ Hsp Hph Hf) as [_ Hcomp]. fold r in Hcomp.
    assert (currentOperation r = opKey r PhaseForward k) as Hcur by (rewrite currentOperation_opKey, Hf, Hat; done).
    unfold positionedAt, shape in *. destruct (rStatus r) eqn:Est; try done; to_prop; try congruence.
    + destruct Hs as (_ & [Hx _] & _). congruence.
    + specialize (Hcomp eq_refl). lia.
    + destruct Hs as [? _]. congruence.
Qed.

Lemma opKey_prefixes r p s :
  HasPrefix (opKey r p s) (rID r ++ [colon]) = true ∧
  HasPrefix (opKey r p s) (rID r ++ [colon] ++ rLifecycle r ++ [colon]) = true.
Proof. unfold opKey, operationKey. split; apply HasPrefix_spec; eexists; rewrite <- !app_assoc; reflexivity. Qed.

(** A recorded forward success is owed a compensation. *)
Lemma recorded st after c cause k :
  same_run (ssRecord st) after → coSuccess c = true → step_range k → coIdempotencyKey c = opKey (ssRecord st) PhaseForward k →
  remaining after k →
  let st' := applyState st after (mkTransition cause (Some c)) in effective st' k ∧ remaining (ssRecord st') k.
Proof.
  intros Hrun Hc Hk Hkey Hrem. cbn zeta. split.
  - unfold effective. rewrite (apply_closure_success st after (mkTransition cause (Some c)) c PhaseForward k) by (auto with go_int).
    by rewrite decide_True.
  - rewrite applyState_record. destruct (written_fields (ssRecord st) after (mkTransition cause (Some c))) as (_ & _ & _ & E1 & E2 & _).
    unfold remaining in *. by rewrite E1, E2.
Qed.

(** What a late success of an abandoned step leads to. *)
Lemma late_accepted e p r c st k a :
  st_inv st → get p r (coSagaID c) = Some st → is_Some (definitionOf e (ssRecord st)) →
  coSuccess c = true → step_range k → abandoned st k → spent st a → aPhase a = PhaseForward → aStep a = k →
  rID (ssRecord st) = coSagaID c → coIdempotencyKey c = opKey (ssRecord st) PhaseForward k → incarnationOf c = aInc a →
  ssReceipts st !! coCommandID c = None →
  ∃ st' kind, same_view (write e p st' kind None r) (resultOf e p c r) ∧ effective st' k ∧ remaining (ssRecord st') k.
Proof.
  intros Hst Hg [d Hd] Hc Hk Hab Hsp Hph Hstep Hid Hkey Hinc Hrec.
  destruct (opKey_prefixes (ssRecord st) PhaseForward k) as [Hp1 Hp2]. rewrite <- Hkey, Hid in Hp1, Hp2.
  unfold resultOf. rewrite Hp1, Hg. cbn [negb]. cbn zeta. rewrite Hp2. cbn [negb]. fold (incarnationOf c).
  destruct (late_judged st c k a) as [(-> & Hf & Hs)|(-> & Hl)]; [done..| |].
  - fold (definitionOf e (ssRecord st)). rewrite Hd. unfold receiptSeen. rewrite Hrec. cbn [orb].
    unfold apply. cbn [fst snd].
    exists (applyState st (applyCompletion (ssRecord st) d c) (mkTransition causeResult (Some c))), (str "result").
    split; [apply view_counts|]. apply recorded; [apply applyCompletion_advances|done..|].
    destruct (applyCompletion_success_forward (ssRecord st) d c Hc Hf) as [E1 E2]; [unfold step_range in Hk; lia|].
    unfold remaining. rewrite E1. unfold step_range in Hk. lia.
  - unfold history, stateHistory. rewrite Hrec. unfold abandoned, closure in Hab. rewrite <- Hkey in Hab.
    destruct (ssOps st !! coIdempotencyKey c) as [tomb|] eqn:Eo; [|done]. injection Hab as Hcl.
    unfold judgeHistory. cbn [chRecorded chReceipt chClosure negb]. rewrite Hc, Hcl, bool_decide_true, Hl by done. cbn [andb].
    unfold apply. cbn [fst snd].
    exists (applyState st (lateStepState (ssRecord st) c k) (mkTransition causeLateSuccess (Some c))), (str "late_success"). split.
    + case_match; [etrans; [|apply view_count]|]; apply view_count.
    + apply recorded; [apply lateStepState_advances|done..|].
      destruct (lateStepState_steps (ssRecord st) c k Hk) as (_ & E & _). unfold remaining. rewrite E. unfold step_range in Hk. lia.
Qed.

(** ** Theorems *)

Lemma issue_run e k tick slots now rounds :
  run_ok e rounds → work rounds < 2^32 - 1 → NoDup (lifecycles rounds) →
  let s := runRounds e (newPartition k tick slots now) rounds in
  ∃ his events, carries e his events (map omData (snd s)) ∧
    issue_inv e (lifecycles rounds ++ []) (held (fst s)) (omap evCommand events).
Proof.
  intros [He Hn Hw] Hw' Hnd. pose proof (work_nonneg rounds).
  destruct (run_rounds e k (work rounds) (issue_inv e) He (issue_preserved e k (work rounds) He Hw') rounds
    (newPartition k tick slots now) 0 [] []) as (his & events & Hc & Hd); [done|done|done|lia|lia|lia|by rewrite app_nil_r| |].
  - split_and!; [constructor|constructor|]. intros id st. unfold held. cbn. by rewrite lookup_empty.
  - by exists his, events.
Qed.

(** C14: a command id is never used twice.  Over any run of a partition,
    whatever is started, resumed, compensated, timed out and reopened, no two
    commands in the published events carry the same id; as long as no two
    starts draw the same lifecycle and there are fewer than 2^32 - 1 inputs
    and rounds. *)
Theorem command_ids_never_reused e k tick slots now rounds :
  run_ok e rounds → work rounds < 2^32 - 1 → NoDup (lifecycles rounds) →
  ∃ his events, carries e his events (map omData (snd (runRounds e (newPartition k tick slots now) rounds))) ∧
    NoDup (cID <$> omap evCommand events).
Proof.
  intros Hrun Hw Hnd. destruct (issue_run e k tick slots now rounds Hrun Hw Hnd) as (his & events & Hc & H & _).
  by exists his, events.
Qed.

(** C15: a result is applied at most once.  When a saga holds the receipt of
    a command at some point of a run, then at every later point at which the
    same run of the saga is held the receipt is still there with the same
    digest; and delivering a result for a command whose receipt is held,
    whatever it says, changes neither the states nor the events of a round. *)
Theorem result_applied_once e k tick slots now rounds1 rounds2 :
  run_ok e (rounds1 ++ rounds2) → NoDup (lifecycles (rounds1 ++ rounds2)) →
  let p1 := fst (runRounds e (newPartition k tick slots now) rounds1) in
  let p2 := fst (runRounds e (newPartition k tick slots now) (rounds1 ++ rounds2)) in
  (∀ id cid digest st1 st2,
     pSagas p1 !! id = Some st1 → ssReceipts st1 !! cid = Some digest →
     pSagas p2 !! id = Some st2 → rLifecycle (ssRecord st2) = rLifecycle (ssRecord st1) →
     ssReceipts st2 !! cid = Some digest) ∧
  (∀ p r c st, get p r (coSagaID c) = Some st → is_Some (ssReceipts st !! coCommandID c) → same_view r (resultOf e p c r)).
Proof.
  intros [He Hn Hw] Hnd. cbn zeta. split; [|intros p r c st; apply receipt_duplicate].
  intros id cid digest st1 st2 H1 Hr1 H2 Hlc. rewrite runRounds_app in H2. cbn [fst] in *.
  apply Forall_app in Hn as [Hn1 Hn2]. rewrite work_app in Hw. pose proof (work_nonneg rounds1). pose proof (work_nonneg rounds2).
  assert (lifecycles (rounds1 ++ rounds2) = lifecycles rounds1 ++ lifecycles rounds2) as El
    by (unfold lifecycles; by rewrite map_app, concat_app).
  rewrite El, Permutation_app_comm in Hnd. pose proof Hnd as Hnd'. apply NoDup_app in Hnd' as (_ & _ & Hnd1).
  set (p0 := newPartition k tick slots now) in *. set (p1 := fst (runRounds e p0 rounds1)) in *.
  destruct (run_rounds e k (work rounds1 + work rounds2) lives_inv He (lives_preserved e k _ He Hw) rounds1 p0 0 [] [])
    as (? & ? & _ & Hl1); [done|done|done|lia|lia|lia|by rewrite app_nil_r|by intros ? ?|]. rewrite app_nil_r in Hl1.
  destruct (runRounds_ok e rounds1 0 p0 []) as (Hp1 & Hk1 & _); [done|done|done|lia|lia|done|]. rewrite Z.add_0_l in Hp1.
  destruct (run_rounds e k (work rounds1 + work rounds2) (receipt_inv id (rLifecycle (ssRecord st1)) cid digest) He
    (receipt_preserved e k _ _ _ _ _ He Hw) rounds2 p1 (work rounds1) (lifecycles rounds1) []) as (? & ? & _ & _ & Hr2);
    [exact Hk1|exact Hp1|done|lia|lia|lia|done| |by apply Hr2].
  split; [by apply (Hl1 id)|]. intros st Hst _. unfold held in Hst. congruence.
Qed.

(** C8: a late success is never lost.  Take any forward command a run
    published whose saga is still held in the same run, where that step was
    given up (timed out, failed, or abandoned by an operator) and no result of
    the command was recorded.  If its success arrives now, the partition
    writes a state in which the step counts as done and is owed a
    compensation, whatever else happened to the saga since. *)
Theorem late_success_never_lost e k tick slots now rounds :
  run_ok e rounds → work rounds < 2^32 - 1 → NoDup (lifecycles rounds) →
  let s := runRounds e (newPartition k tick slots now) rounds in
  ∃ his events, carries e his events (map omData (snd s)) ∧
  ∀ cmd st step, cmd ∈ omap evCommand events →
    pSagas (fst s) !! cSagaID cmd = Some st → cIdempotencyKey cmd = opKey (ssRecord st) PhaseForward step → step_range step →
    abandoned st step → ssReceipts st !! cID cmd = None →
    ∀ r c, get (fst s) r (cSagaID cmd) = Some st →
      coSagaID c = cSagaID cmd → coCommandID c = cID cmd → coIdempotencyKey c = cIdempotencyKey cmd → coSuccess c = true →
    ∃ st' kind, same_view (write e (fst s) st' kind None r) (resultOf e (fst s) c r) ∧
      effective st' step ∧ remaining (ssRecord st') step.
Proof.
  intros Hrun Hw Hnd. cbn zeta. destruct (issue_run e k tick slots now rounds Hrun Hw Hnd) as (his & events & Hc & _ & Hiss & _).
  pose proof (run_states_ok e k tick slots now rounds Hrun) as [Hfile _].
  exists his, events. split; [done|]. intros cmd st step Hin Hst Hkey Hk Hab Hrec r c Hg Es Ec Ek Hsucc.
  destruct (proj1 (Forall_forall _ _) Hiss cmd Hin) as (id & lc & a & [I1 I2 I3 I4 I5 I6 I7 I8]).
  destruct (Hfile _ _ Hst) as (F1 & F2 & _). rewrite I6 in Hst, F2.
  pose proof (lifecycle_no_colon _ (id_life _ (bi_ident _ (proj1 (si_rec _ F1))))) as Hlc.
  assert (id = rID (ssRecord st) ∧ lc = rLifecycle (ssRecord st) ∧ aPhase a = PhaseForward ∧ aStep a = step) as (E1 & E2 & E3 & E4).
  { apply (operationKey_parts id lc (aPhase a) (aStep a) [] (rID (ssRecord st)) (rLifecycle (ssRecord st)) PhaseForward step []);
      try done; [congruence|apply I3|auto with go_int|apply I3|].
    unfold operationOf in I5. rewrite <- I5, Hkey. done. }
  destruct (I8 st Hst ltac:(congruence)) as [Hsp Hdef].
  eapply (late_accepted e _ r c st step a); try done; [by rewrite Es|congruence|by rewrite Ek| |by rewrite Ec].
  unfold incarnationOf. rewrite Ek, Ec, I4, I5. by apply incarnation_name.
Qed.

(** ** Witnesses *)

Lemma failedTrade_lives : NoDup (lifecycles failedTrade).
Proof. apply (bool_decide_unpack _). vm_compute. exact I. Qed.

Lemma command_ids_never_reused_witness :
  ∃ his events, carries tradeEngine his events
    (map omData (snd (runRounds tradeEngine (newPartition tradePart (100 * Millisecond) 512 (unixEpoch + seconds 1)) failedTrade))) ∧
    NoDup (cID <$> omap evCommand events).
Proof. apply (command_ids_never_reused tradeEngine); [exact failedTrade_ok|by_compute|exact failedTrade_lives]. Defined.

Lemma result_applied_once_witness :
  let p1 := fst (runRounds tradeEngine tradePartition (take 2 failedTrade)) in
  let p2 := fst (runRounds tradeEngine tradePartition failedTrade) in
  (∀ id cid digest st1 st2,
     pSagas p1 !! id = Some st1 → ssReceipts st1 !! cid = Some digest →
     pSagas p2 !! id = Some st2 → rLifecycle (ssRecord st2) = rLifecycle (ssRecord st1) →
     ssReceipts st2 !! cid = Some digest) ∧
  (∀ p r c st, get p r (coSagaID c) = Some st → is_Some (ssReceipts st !! coCommandID c) → same_view r (resultOf tradeEngine p c r)).
Proof.
  exact (result_applied_once tradeEngine tradePart (100 * Millisecond) 512 (unixEpoch + seconds 1) (take 2 failedTrade) (drop 2 failedTrade)
    failedTrade_ok failedTrade_lives).
Defined.

Lemma late_success_never_lost_witness :
  let s := runRounds tradeEngine tradePartition failedTrade in
  ∃ his events, carries tradeEngine his events (map omData (snd s)) ∧
  ∀ cmd st step, cmd ∈ omap evCommand events →
    pSagas (fst s) !! cSagaID cmd = Some st → cIdempotencyKey cmd = opKey (ssRecord st) PhaseForward step → step_range step →
    abandoned st step → ssReceipts st !! cID cmd = None →
    ∀ r c, get (fst s) r (cSagaID cmd) = Some st →
      coSagaID c = cSagaID cmd → coCommandID c = cID cmd → coIdempotencyKey c = cIdempotencyKey cmd → coSuccess c = true →
    ∃ st' kind, same_view (write tradeEngine (fst s) st' kind None r) (resultOf tradeEngine (fst s) c r) ∧
      effective st' step ∧ remaining (ssRecord st') step.
Proof.
  apply (late_success_never_lost tradeEngine tradePart (100 * Millisecond) 512 (unixEpoch + seconds 1) failedTrade);
    [exact failedTrade_ok|by_compute|exact failedTrade_lives].
Defined.
