(* ===== verification/NestJob.v ===== *)
(** * Messages, targets and jobs of the nest dispatcher (framework/nest)

    The part of msg.go that the dispatch queue reads, the kind bits of an
    entity id (framework/entity) and, from dispatch_queue.go, how the target
    ids and the lane of a message are computed. *)

From S2P Require Import Prelude.

(** ** Lanes *)

(** [dispatchShortLane], [dispatchIOLane], [dispatchLongLane] *)
Inductive LaneId : Type := Short | IO | Long.
#[export] Instance LaneId_eq_dec : EqDecision LaneId.
Proof. solve_decision. Defined.

Definition isIO (l : LaneId) : bool := bool_decide (l = IO).

(** The lanes in the order of the array [dispatchQueue.lanes]. *)
Definition allLanes : list LaneId := [Short; IO; Long].

(** ** Entity kinds *)

Definition EntityCategoryBits : Z := 2.
Definition EntityKindBits : Z := 8.
Definition EntityKindMask : Z := Z.shiftl 1 EntityKindBits - 1.
Definition EntityKindShift : Z := EntityCategoryBits.

Definition GetEntityKindFromID (id : Z) : Z := u8 (Z.land (Z.shiftr (u64 id) EntityKindShift) EntityKindMask).

Inductive BusinessPool : Type := BusinessPoolDefault | BusinessPoolShort | BusinessPoolLong.
#[export] Instance BusinessPool_eq_dec : EqDecision BusinessPool.
Proof. solve_decision. Defined.

(** The registered kinds with their declared pools ([kindEntries]). *)
Abbreviation kindRegistry := (gmap Z BusinessPool).

Definition EntityBusinessPoolOfKind (reg : kindRegistry) (kind : Z) : BusinessPool :=
  if bool_decide (reg !! kind = Some BusinessPoolLong) then BusinessPoolLong else BusinessPoolShort.

(** ** Messages *)

(** The targets of a message, and the message inside an internal
    continuation ([remoteLogic.msg], a pointer). *)
#[warnings="-register-all"]
Inductive Msg : Type := mkMsg {
  Tid : Z;
  Tids : list Z;
  GroupTIds : list (list Z);
  remoteLogic : option (option Msg)
}.

(** The closure [long] of [businessLane]. *)
Definition long (reg : kindRegistry) (id : Z) : bool :=
  negb (id =? 0) && bool_decide (EntityBusinessPoolOfKind reg (GetEntityKindFromID id) = BusinessPoolLong).

Fixpoint laneOfMsg (reg : kindRegistry) (msg : Msg) : LaneId :=
  match msg with
  | mkMsg _ _ _ (Some None) => Short
  | mkMsg _ _ _ (Some (Some inner)) => laneOfMsg reg inner
  | mkMsg tid tids groups None =>
      if long reg tid then Long
      else if existsb (long reg) tids then Long
      else if existsb (existsb (long reg)) groups then Long
      else Short
  end.

Definition businessLane (reg : kindRegistry) (msg : option Msg) : LaneId :=
  match msg with None => Short | Some m => laneOfMsg reg m end.

(** The lane of one target of a batch. *)
Definition laneOfID (reg : kindRegistry) (id : Z) : LaneId :=
  if bool_decide (EntityBusinessPoolOfKind reg (GetEntityKindFromID id) = BusinessPoolLong)
  then Long else Short.

(** ** The ids of a job *)

(** [slices.Compact]: one of each run of equal elements. *)
Fixpoint compact (l : list Z) : list Z :=
  match l with
  | [] => []
  | x :: l' =>
      match compact l' with
      | [] => [x]
      | y :: r => if x =? y then y :: r else x :: y :: r
      end
  end.

Definition dispatchIDs (msg : Msg) : list Z :=
  let ids := (if negb (Tid msg =? 0) then [Tid msg] else []) ++ Tids msg ++ concat (GroupTIds msg) in
  let ids := match ids with [] => [0] | _ => ids end in
  compact (merge_sort Z.le ids).

(** The ids [newDispatchJob] stores. *)
Definition jobIDs (msg : Msg) : list Z :=
  match Tids msg, GroupTIds msg with
  | [], [] => [Tid msg]
  | [t], [] => if Tid msg =? 0 then [t] else dispatchIDs msg
  | _, _ => dispatchIDs msg
  end.

(** The targets the message declares; id 0 stands for a message without. *)
Definition targets (msg : Msg) : list Z :=
  let ids := (if negb (Tid msg =? 0) then [Tid msg] else []) ++ Tids msg ++ concat (GroupTIds msg) in
  match ids with [] => [0] | _ => ids end.

(** ** Facts *)

Lemma elem_of_compact x l : x ∈ compact l ↔ x ∈ l.
Proof.
  induction l as [|y l IH]; simpl; [done|].
  rewrite elem_of_cons, <- IH. destruct (compact l) as [|z r].
  - rewrite list_elem_of_singleton, elem_of_nil. tauto.
  - destruct (y =? z) eqn:E; to_prop; [subst|]; rewrite ?elem_of_cons; tauto.
Qed.

Lemma compact_NoDup l : Sorted Z.le l → NoDup (compact l).
Proof.
  intros Hs%Sorted_StronglySorted; [|by intros ???; lia].
  induction Hs as [|x l Hs IH Hx]; simpl; [constructor|].
  assert (Hc : ∀ z, z ∈ compact l → x ≤ z).
  { intros z. rewrite elem_of_compact. by apply Forall_forall. }
  destruct (compact l) as [|y r] eqn:E; [repeat constructor; set_solver|].
  destruct (x =? y) eqn:Exy; [done|]. to_prop.
  constructor; [|done]. intros [->|Hin]%elem_of_cons; [done|].
  pose proof (Hc y ltac:(left)).
  assert (Hst : Sorted Z.le (compact l)).
  { clear -Hs. induction Hs as [|z l Hs IH Hz]; simpl; [constructor|].
    assert (Hc : ∀ w, w ∈ compact l → z ≤ w) by (intros w; rewrite elem_of_compact; by apply Forall_forall).
    destruct (compact l) as [|w r]; [repeat constructor|].
    destruct (z =? w); [done|]. constructor; [done|]. constructor. apply Hc. left. }
  rewrite E in Hst. apply Sorted_StronglySorted in Hst; [|by intros ???; lia].
  inversion_clear Hst as [|??? Hf]. rewrite Forall_forall in Hf. specialize (Hf _ Hin). lia.
Qed.

Lemma dispatchIDs_targets msg id : id ∈ dispatchIDs msg ↔ id ∈ targets msg.
Proof. unfold dispatchIDs, targets. rewrite elem_of_compact. by rewrite merge_sort_Permutation. Qed.

Lemma dispatchIDs_NoDup msg : NoDup (dispatchIDs msg).
Proof. apply compact_NoDup, Sorted_merge_sort. intros ??; lia. Qed.

Lemma jobIDs_NoDup msg : NoDup (jobIDs msg).
Proof.
  unfold jobIDs. repeat case_match; auto using dispatchIDs_NoDup; repeat constructor; set_solver.
Qed.

(** A job waits for exactly the targets its message declares. *)
Lemma jobIDs_targets msg id : id ∈ jobIDs msg ↔ id ∈ targets msg.
Proof.
  unfold jobIDs. destruct msg as [tid tids groups r]; simpl.
  destruct tids as [|t [|t' ts]]; destruct groups as [|g gs]; try apply dispatchIDs_targets.
  - unfold targets; simpl. destruct (tid =? 0) eqn:E; to_prop; [subst|]; set_solver.
  - simpl. destruct (tid =? 0) eqn:E; [|apply dispatchIDs_targets].
    unfold targets; simpl. by rewrite E.
Qed.

Example jobIDs_groups :
  jobIDs (mkMsg 7 [9; 3] [[3; 7]; [5]] None) = [3; 5; 7; 9].
Proof. reflexivity. Qed.
Example jobIDs_none : jobIDs (mkMsg 0 [] [] None) = [0].
Proof. reflexivity. Qed.
