(* ===== verification/NestQueue.v ===== *)
(** * The dispatch queue of the nest engine (framework/nest/dispatch_queue.go)

    The state under [dispatchQueue.mu] and one function per critical section.
    Jobs are records in a heap and pointers to them are numbers; the intrusive
    lists [readyJobs] and [readyWaiting] are lists of pointers.  A condition
    variable is the number of workers parked on it and of workers about to
    take the lock.  The times of the observation statistics are left out. *)

From S2P Require Import Prelude NestJob.

Abbreviation jobp := N.

Inductive QueueErr : Type := ErrWorkerClosed | ErrWorkerQueueFull | errTryBatchFenced | errTryBatchAborted | ErrHandler (code : Z).

(** ** Data *)

Record dispatchJob := mkJob {
  msg : option Msg;
  tryBatch : bool;                 (** the batch is [batches !! p] for the job at [p] *)
  ids : list Z;
  successors : list jobp;
  predecessors : Z;
  lane : LaneId;
  ioStage : bool;
  continuation : bool;
  waitedForPredecessor : bool
}.

Definition noJob : dispatchJob := mkJob None false [] [] 0 Short false false false.

Record WorkerPoolConfig := mkPool { Workers : Z; QueueCap : Z }.

Record DispatchLaneStats := mkStats {
  Started : Z; Rejected : Z; PeakWaiting : Z; TryBatchJobs : Z; TryBatchConverted : Z
}.

(** [sync.Cond]: goroutines parked in [Wait], and workers of the lane that
    are started or woken and have not yet taken the lock. *)
Record Cond := mkCond { parked : nat; awake : nat }.

Record dispatchLane := mkLane {
  continuations : list jobp;
  continuationCount : Z;
  continuationRunning : Z;
  preferContinuation : bool;
  wake : Cond;
  config : WorkerPoolConfig;
  ready : list jobp;
  tryBatches : list jobp;
  preferOrdinary : bool;
  waiting : list jobp;
  queued : Z;
  readyCount : Z;
  running : Z;
  observation : DispatchLaneStats
}.

(** [tryBatchStep] and [tryBatchPlan]; the zero value is a plan to run. *)
Inductive tryBatchStep : Type := tryBatchRun | tryBatchConverted | tryBatchHandBack.
Record tryBatchPlan := mkPlan {
  step : tryBatchStep; claimed : bool; busy : bool; handBack : option QueueErr
}.
Definition noPlan : tryBatchPlan := mkPlan tryBatchRun false false None.

Definition tryBatchGroup : nat := 4.

Record tryBatchJob := mkBatch {
  bLane : LaneId;
  items : list Z;                  (** the target ids *)
  claims : list jobp;              (** the addresses of [claims[0..3]] *)
  group : list tryBatchPlan;
  groupN : nat;
  next : nat
}.
Definition noBatch : tryBatchJob := mkBatch Short [] [] [] 0 0.

Record dispatchQueue := mkQueue {
  lanes : LaneId → dispatchLane;
  tails : gmap Z jobp;
  pending : Z;
  awaitReserved : Z;
  started : bool;
  stopping : bool;
  wg : Z;                          (** workers that have not returned *)
  heap : gmap jobp dispatchJob;
  batches : gmap jobp tryBatchJob;
  fresh : jobp                     (** the next unused address *)
}.

(** ** Field updates *)

Definition set_lanes (x : LaneId → dispatchLane) (q : dispatchQueue) : dispatchQueue :=
  mkQueue x (tails q) (pending q) (awaitReserved q) (started q) (stopping q) (wg q) (heap q) (batches q) (fresh q).
Definition set_tails (x : gmap Z jobp) (q : dispatchQueue) : dispatchQueue :=
  mkQueue (lanes q) x (pending q) (awaitReserved q) (started q) (stopping q) (wg q) (heap q) (batches q) (fresh q).
Definition set_pending (x : Z) (q : dispatchQueue) : dispatchQueue :=
  mkQueue (lanes q) (tails q) x (awaitReserved q) (started q) (stopping q) (wg q) (heap q) (batches q) (fresh q).
Definition set_await (x : Z) (q : dispatchQueue) : dispatchQueue :=
  mkQueue (lanes q) (tails q) (pending q) x (started q) (stopping q) (wg q) (heap q) (batches q) (fresh q).
Definition set_flags (x y : bool) (q : dispatchQueue) : dispatchQueue :=
  mkQueue (lanes q) (tails q) (pending q) (awaitReserved q) x y (wg q) (heap q) (batches q) (fresh q).
Definition set_wg (x : Z) (q : dispatchQueue) : dispatchQueue :=
  mkQueue (lanes q) (tails q) (pending q) (awaitReserved q) (started q) (stopping q) x (heap q) (batches q) (fresh q).
Definition set_heap (x : gmap jobp dispatchJob) (q : dispatchQueue) : dispatchQueue :=
  mkQueue (lanes q) (tails q) (pending q) (awaitReserved q) (started q) (stopping q) (wg q) x (batches q) (fresh q).
Definition set_batches (x : gmap jobp tryBatchJob) (q : dispatchQueue) : dispatchQueue :=
  mkQueue (lanes q) (tails q) (pending q) (awaitReserved q) (started q) (stopping q) (wg q) (heap q) x (fresh q).
Definition set_fresh (x : jobp) (q : dispatchQueue) : dispatchQueue :=
  mkQueue (lanes q) (tails q) (pending q) (awaitReserved q) (started q) (stopping q) (wg q) (heap q) (batches q) x.

Definition updLane (l : LaneId) (f : dispatchLane → dispatchLane) (q : dispatchQueue) : dispatchQueue :=
  set_lanes (λ l', if bool_decide (l' = l) then f (lanes q l) else lanes q l') q.

Definition set_conts (x : list jobp) (c r : Z) (p : bool) (s : dispatchLane) : dispatchLane :=
  mkLane x c r p (wake s) (config s) (ready s) (tryBatches s) (preferOrdinary s) (waiting s) (queued s)
    (readyCount s) (running s) (observation s).
Definition set_wake (x : Cond) (s : dispatchLane) : dispatchLane :=
  mkLane (continuations s) (continuationCount s) (continuationRunning s) (preferContinuation s) x (config s)
    (ready s) (tryBatches s) (preferOrdinary s) (waiting s) (queued s) (readyCount s) (running s) (observation s).
Definition set_ready (x y : list jobp) (c : Z) (p : bool) (s : dispatchLane) : dispatchLane :=
  mkLane (continuations s) (continuationCount s) (continuationRunning s) (preferContinuation s) (wake s) (config s)
    x y p (waiting s) (queued s) c (running s) (observation s).
Definition set_waiting (x : list jobp) (c : Z) (s : dispatchLane) : dispatchLane :=
  mkLane (continuations s) (continuationCount s) (continuationRunning s) (preferContinuation s) (wake s) (config s)
    (ready s) (tryBatches s) (preferOrdinary s) x c (readyCount s) (running s) (observation s).
Definition set_running (x : Z) (s : dispatchLane) : dispatchLane :=
  mkLane (continuations s) (continuationCount s) (continuationRunning s) (preferContinuation s) (wake s) (config s)
    (ready s) (tryBatches s) (preferOrdinary s) (waiting s) (queued s) (readyCount s) x (observation s).
Definition set_observation (x : DispatchLaneStats) (s : dispatchLane) : dispatchLane :=
  mkLane (continuations s) (continuationCount s) (continuationRunning s) (preferContinuation s) (wake s) (config s)
    (ready s) (tryBatches s) (preferOrdinary s) (waiting s) (queued s) (readyCount s) (running s) x.

Definition set_successors (x : list jobp) (j : dispatchJob) : dispatchJob :=
  mkJob (msg j) (tryBatch j) (ids j) x (predecessors j) (lane j) (ioStage j) (continuation j) (waitedForPredecessor j).
Definition set_predecessors (x : Z) (j : dispatchJob) : dispatchJob :=
  mkJob (msg j) (tryBatch j) (ids j) (successors j) x (lane j) (ioStage j) (continuation j) (waitedForPredecessor j).
Definition set_waited (x : bool) (j : dispatchJob) : dispatchJob :=
  mkJob (msg j) (tryBatch j) (ids j) (successors j) (predecessors j) (lane j) (ioStage j) (continuation j) x.
Definition set_stage (l : LaneId) (io : bool) (j : dispatchJob) : dispatchJob :=
  mkJob (msg j) (tryBatch j) (ids j) (successors j) (predecessors j) l io (continuation j) (waitedForPredecessor j).
Definition set_ids (x : list Z) (l : LaneId) (j : dispatchJob) : dispatchJob :=
  mkJob (msg j) (tryBatch j) x (successors j) (predecessors j) l (ioStage j) (continuation j) (waitedForPredecessor j).

Definition job (q : dispatchQueue) (p : jobp) : dispatchJob := default noJob (heap q !! p).
Definition updJob (p : jobp) (f : dispatchJob → dispatchJob) (q : dispatchQueue) : dispatchQueue :=
  set_heap (alter f p (heap q)) q.
Definition batch (q : dispatchQueue) (p : jobp) : tryBatchJob := default noBatch (batches q !! p).
Definition updBatch (p : jobp) (f : tryBatchJob → tryBatchJob) (q : dispatchQueue) : dispatchQueue :=
  set_batches (alter f p (batches q)) q.

(** ** Waking *)

Definition signal (c : Cond) : Cond :=
  match parked c with O => c | S n => mkCond n (S (awake c)) end.
Definition broadcast (c : Cond) : Cond := mkCond 0 (awake c + parked c).

Definition wakeOne (s : dispatchLane) : dispatchLane := set_wake (signal (wake s)) s.
Definition wakeAll (q : dispatchQueue) : dispatchQueue :=
  foldl (λ q l, updLane l (λ s, set_wake (broadcast (wake s)) s) q) q allLanes.

(** ** Counts *)

Definition busyWorkers (l : LaneId) (s : dispatchLane) : Z :=
  running s + (if isIO l then 0 else continuationRunning s).

Definition waitingCount (q : dispatchQueue) (l : LaneId) (s : dispatchLane) : Z :=
  let await := if isIO l then awaitReserved q else 0 in
  let reserved := Z.min (readyCount s + await) (Z.max 0 (Workers (config s) - busyWorkers l s)) in
  queued s + await - reserved.

(** [observation.PeakWaiting = max(...)] *)
Definition notePeak (l : LaneId) (q : dispatchQueue) : dispatchQueue :=
  updLane l (λ s, let o := observation s in
    set_observation (mkStats (Started o) (Rejected o) (Z.max (PeakWaiting o) (waitingCount q l s))
                       (TryBatchJobs o) (TryBatchConverted o)) s) q.
Definition noteRejected (l : LaneId) (q : dispatchQueue) : dispatchQueue :=
  updLane l (λ s, let o := observation s in
    set_observation (mkStats (Started o) (Rejected o + 1) (PeakWaiting o) (TryBatchJobs o) (TryBatchConverted o)) s) q.
Definition noteStarted (s : dispatchLane) : dispatchLane :=
  let o := observation s in
  set_observation (mkStats (Started o + 1) (Rejected o) (PeakWaiting o) (TryBatchJobs o) (TryBatchConverted o)) s.
Definition noteBatch (s : dispatchLane) : dispatchLane :=
  let o := observation s in
  set_observation (mkStats (Started o) (Rejected o) (PeakWaiting o) (TryBatchJobs o + 1) (TryBatchConverted o)) s.
Definition noteConverted (s : dispatchLane) : dispatchLane :=
  let o := observation s in
  set_observation (mkStats (Started o) (Rejected o) (PeakWaiting o) (TryBatchJobs o) (TryBatchConverted o + 1)) s.

(** ** Construction and start *)

Definition newLane (c : WorkerPoolConfig) : dispatchLane :=
  mkLane [] 0 0 false (mkCond 0 0) c [] [] false [] 0 0 0 (mkStats 0 0 0 0 0).

Definition newDispatchQueue (short io : WorkerPoolConfig) (longConfig : option WorkerPoolConfig) : dispatchQueue :=
  mkQueue (λ l, newLane match l with Short => short | IO => io | Long => default (mkPool 0 0) longConfig end)
    ∅ 0 0 false false 0 ∅ ∅ 1%N.

(** [for range Workers { wg.Add(1); go q.work(lane) }] *)
Definition startLane (q : dispatchQueue) (l : LaneId) : dispatchQueue :=
  let n := Z.to_nat (Workers (config (lanes q l))) in
  set_wg (wg q + Z.of_nat n)
    (updLane l (λ s, set_wake (mkCond (parked (wake s)) (awake (wake s) + n)) s) q).

Definition start (q : dispatchQueue) : dispatchQueue :=
  if started q || stopping q then q
  else foldl startLane (set_flags true (stopping q) q) allLanes.

(** ** Admission *)

(** A new job gets an address. *)
Definition alloc (j : dispatchJob) (q : dispatchQueue) : jobp * dispatchQueue :=
  (fresh q, set_fresh (fresh q + 1)%N (set_heap (<[fresh q := j]> (heap q)) q)).

Definition newDispatchJob (m : Msg) (prepareIO : bool) : dispatchJob :=
  mkJob (Some m) false (jobIDs m) [] 0 Short prepareIO false false.

Definition enqueueReady (l : LaneId) (p : jobp) (q : dispatchQueue) : dispatchQueue :=
  updLane l (λ s,
    let c := readyCount s + 1 in
    wakeOne (if tryBatch (job q p) then set_ready (ready s) (tryBatches s ++ [p]) c (preferOrdinary s) s
             else set_ready (ready s ++ [p]) (tryBatches s) c (preferOrdinary s) s)) q.

(** One turn of the loop that registers a job behind the tail of an id. *)
Definition linkOne (p : jobp) (q : dispatchQueue) (id : Z) : dispatchQueue :=
  let q :=
    match tails q !! id with
    | Some prev =>
        if bool_decide (last (successors (job q prev)) = Some p) then q
        else updJob p (λ j, set_predecessors (predecessors j + 1) j)
               (updJob prev (λ j, set_successors (successors j ++ [p]) j) q)
    | None => q
    end in
  set_tails (<[id := p]> (tails q)) q.

(** [waiting.push] with its count *)
Definition pushWaiting (l : LaneId) (p : jobp) (q : dispatchQueue) : dispatchQueue :=
  updLane l (λ s, set_waiting (waiting s ++ [p]) (queued s + 1) s) q.

Definition isBlocked (q : dispatchQueue) (l : list Z) : bool := existsb (λ id, bool_decide (is_Some (tails q !! id))) l.

Definition hasExecutionSlot (q : dispatchQueue) (l : LaneId) (blocked : bool) : bool :=
  let s := lanes q l in
  let reserved := if isIO l then awaitReserved q else 0 in
  negb blocked && (busyWorkers l s + readyCount s + reserved <? Workers (config s)).

Definition admitLocked (j : dispatchJob) (q : dispatchQueue) : dispatchQueue * option QueueErr :=
  let l := lane j in
  if negb (hasExecutionSlot q l (isBlocked q (ids j))) && (QueueCap (config (lanes q l)) <=? waitingCount q l (lanes q l))
  then (noteRejected l q, Some ErrWorkerQueueFull)
  else
    let '(p, q) := alloc j q in
    let q := foldl (linkOne p) q (ids j) in
    let q := updJob p (λ j, set_waited (0 <? predecessors j) j) q in
    let q := pushWaiting l p (set_pending (pending q + 1) q) in
    let q := if predecessors (job q p) =? 0 then enqueueReady l p q else q in
    (notePeak l q, None).

Definition admitMessage (reg : kindRegistry) (m : Msg) (prepareIO : bool) (q : dispatchQueue) : dispatchQueue * option QueueErr :=
  let l := if prepareIO then IO else businessLane reg (Some m) in
  let j := set_stage l prepareIO (newDispatchJob m prepareIO) in
  if negb (started q) || stopping q then (q, Some ErrWorkerClosed) else admitLocked j q.

(** ** Continuations *)

Definition pushContinuationLocked (l : LaneId) (m : Msg) (q : dispatchQueue) : dispatchQueue :=
  let '(p, q) := alloc (mkJob (Some m) false [] [] 0 l false true false) q in
  let q := updLane l (λ s, set_conts (continuations s ++ [p]) (continuationCount s + 1) (continuationRunning s)
                                     (preferContinuation s) s) q in
  updLane l wakeOne (set_pending (pending q + 1) q).

Definition continueBusiness (reg : kindRegistry) (m : Msg) (q : dispatchQueue) : dispatchQueue :=
  pushContinuationLocked (businessLane reg (Some m)) m q.

Definition tryContinueBusiness (reg : kindRegistry) (m : Msg) (q : dispatchQueue) : dispatchQueue * bool :=
  if negb (started q) || stopping q then (q, false)
  else (pushContinuationLocked (businessLane reg (Some m)) m q, true).

(** ** Taking work *)

(** [waiting.remove] *)
Definition unlink (p : jobp) (l : list jobp) : list jobp := filter (λ x, x ≠ p) l.

(** [state.ready.pop], [state.tryBatches.pop] with the alternation between
    ordinary jobs and batches. *)
Definition takeExternal (s : dispatchLane) : option (jobp * dispatchLane) :=
  match tryBatches s, ready s with
  | b :: bs, [] => Some (b, set_ready [] bs (readyCount s - 1) true s)
  | b :: bs, r :: rs =>
      if negb (preferOrdinary s) then Some (b, set_ready (r :: rs) bs (readyCount s - 1) true s)
      else Some (r, set_ready rs (b :: bs) (readyCount s - 1) false s)
  | [], r :: rs => Some (r, set_ready rs [] (readyCount s - 1) false s)
  | [], [] => None
  end.

(** The external half of [take]. *)
Definition takeReady (l : LaneId) (q : dispatchQueue) : option (jobp * dispatchQueue) :=
  match takeExternal (lanes q l) with
  | None => None
  | Some (p, s) =>
      let s := set_waiting (unlink p (waiting s)) (queued s - 1) (set_running (running s + 1) s) in
      let s := noteStarted s in
      let s := if isIO l then s
               else set_conts (continuations s) (continuationCount s) (continuationRunning s) true s in
      Some (p, updLane l (λ _, s) q)
  end.

Definition hasExternal (s : dispatchLane) : bool :=
  match ready s, tryBatches s with [], [] => false | _, _ => true end.

Definition take (l : LaneId) (q : dispatchQueue) : option (jobp * dispatchQueue) :=
  let s := lanes q l in
  match continuations s with
  | c :: cs =>
      if negb (isIO l) && (preferContinuation s || negb (hasExternal s)) then
        let q := updLane l (set_conts (c :: cs) (continuationCount s - 1) (continuationRunning s + 1) false) q in
        let q := notePeak l q in
        Some (c, updLane l (λ s, set_conts cs (continuationCount s) (continuationRunning s) (preferContinuation s) s) q)
      else takeReady l q
  | [] => takeReady l q
  end.

(** ** Finishing work *)

(** [if q.tails[id] == j { delete(q.tails, id) }] for every id *)
Definition unlinkTails (p : jobp) (l : list Z) (t : gmap Z jobp) : gmap Z jobp :=
  foldl (λ t id, if bool_decide (t !! id = Some p) then delete id t else t) t l.

(** One turn of the loop over the successors. *)
Definition releaseOne (q : dispatchQueue) (n : jobp) : dispatchQueue :=
  let q := updJob n (λ j, set_predecessors (predecessors j - 1) j) q in
  if predecessors (job q n) =? 0 then enqueueReady (lane (job q n)) n q else q.

Definition releaseIDsLocked (p : jobp) (q : dispatchQueue) : dispatchQueue :=
  foldl releaseOne (set_tails (unlinkTails p (ids (job q p)) (tails q)) q) (successors (job q p)).

(** [if q.stopping && q.pending == 0 { broadcast }] after [q.pending--] *)
Definition dropPending (q : dispatchQueue) : dispatchQueue :=
  let q := set_pending (pending q - 1) q in
  if stopping q && (pending q =? 0) then wakeAll q else q.

Definition finishJobLocked (l : LaneId) (p : jobp) (q : dispatchQueue) : dispatchQueue :=
  let q := updLane l (λ s,
    if continuation (job q p)
    then set_conts (continuations s) (continuationCount s) (continuationRunning s - 1) (preferContinuation s) s
    else set_running (running s - 1) s) q in
  dropPending (releaseIDsLocked p q).

Definition rerouteToIO (p : jobp) (q : dispatchQueue) : dispatchQueue :=
  let q := updLane (lane (job q p)) (λ s, set_running (running s - 1) s) q in
  let q := updJob p (λ j, set_waited false (set_stage IO true j)) q in
  notePeak IO (enqueueReady IO p (pushWaiting IO p q)).

(** Whether a job that ran is moved to the I/O pool; [ioReroute] is the flag
    its message has after the handler ran. *)
Definition rerouted (l : LaneId) (j : dispatchJob) (ioReroute : bool) : bool :=
  negb (isIO l) && negb (continuation j) && ioReroute.

(** ** Await *)

Definition reserveAwait (q : dispatchQueue) : dispatchQueue * option QueueErr :=
  let s := lanes q IO in
  if stopping q || negb (started q) then (q, Some ErrWorkerClosed)
  else if Workers (config s) + QueueCap (config s) <=? awaitReserved q + queued s + running s
  then (q, Some ErrWorkerQueueFull)
  else (set_pending (pending q + 1) (set_await (awaitReserved q + 1) q), None).

Definition cancelAwait (q : dispatchQueue) : dispatchQueue :=
  dropPending (set_await (awaitReserved q - 1) q).

Definition startAwait (q : dispatchQueue) : dispatchQueue :=
  let '(p, q) := alloc (mkJob None false [] [] 0 IO true false false) q in
  enqueueReady IO p (pushWaiting IO p (set_await (awaitReserved q - 1) q)).

(** ** Stop *)

Definition stop (q : dispatchQueue) : dispatchQueue :=
  if stopping q then q else wakeAll (set_flags (started q) true q).

(** [q.done] is closed: every worker has returned. *)
Definition done_closed (q : dispatchQueue) : bool := stopping q && (wg q =? 0).

(** ** Batches (try_batch.go) *)

(** [newTryBatchJob] and [add]: a batch carries its own job and the marks with
    which it claims the ids of a group. *)
Definition newTryBatchJob (l : LaneId) (ts : list Z) (q : dispatchQueue) : jobp * dispatchQueue :=
  let '(p, q) := alloc (mkJob None true [] [] 0 l false false false) q in
  let '(c0, q) := alloc noJob q in
  let '(c1, q) := alloc noJob q in
  let '(c2, q) := alloc noJob q in
  let '(c3, q) := alloc noJob q in
  (p, set_batches (<[p := mkBatch l ts [c0; c1; c2; c3] (replicate tryBatchGroup noPlan) 0 0]> (batches q)) q).

Definition admitTryBatch (l : LaneId) (ts : list Z) (q : dispatchQueue) : dispatchQueue * option QueueErr :=
  let s := lanes q l in
  if negb (started q) || stopping q then (q, Some ErrWorkerClosed)
  else if negb (busyWorkers l s + readyCount s <? Workers (config s)) && (QueueCap (config s) <=? waitingCount q l s)
  then (noteRejected l q, Some ErrWorkerQueueFull)
  else
    let '(p, q) := newTryBatchJob l ts q in
    let q := pushWaiting l p (updLane l noteBatch (set_pending (pending q + 1) q)) in
    (notePeak l (enqueueReady l p q), None).

Definition setPlan (p : jobp) (n : nat) (pl : tryBatchPlan) (q : dispatchQueue) : dispatchQueue :=
  updBatch p (λ b, mkBatch (bLane b) (items b) (claims b) (<[n := pl]> (group b)) (groupN b) (next b)) q.
Definition setGroupN (p : jobp) (n : nat) (q : dispatchQueue) : dispatchQueue :=
  updBatch p (λ b, mkBatch (bLane b) (items b) (claims b) (group b) n (next b)) q.
Definition setNext (p : jobp) (n : nat) (q : dispatchQueue) : dispatchQueue :=
  updBatch p (λ b, mkBatch (bLane b) (items b) (claims b) (group b) (groupN b) n) q.
Definition plan (b : tryBatchJob) (i : nat) : tryBatchPlan := default noPlan (group b !! i).

(** A conflicting target becomes a job of its own; [fenced] is what
    [b.mgr.fenced.Load()] returns here. *)
Definition convertTryBatchTargetLocked (b : tryBatchJob) (id : Z) (fenced : bool) (q : dispatchQueue)
    : dispatchQueue * option QueueErr :=
  if stopping q then (q, Some ErrWorkerClosed)
  else if fenced then (q, Some errTryBatchFenced)
  else
    let m := mkMsg id [] [] None in
    match admitLocked (set_stage (bLane b) false (newDispatchJob m false)) q with
    | (q, Some e) => (q, Some e)
    | (q, None) => (updLane (bLane b) noteConverted q, None)
    end.

(** The [n]-th claim takes the id. *)
Definition claim (p : jobp) (n : nat) (id : Z) (q : dispatchQueue) : dispatchQueue :=
  let b := batch q p in
  let c := default 0%N (claims b !! n) in
  let q := set_tails (<[id := c]> (tails q)) (updJob c (set_ids [id] (bLane b)) q) in
  setPlan p n (mkPlan tryBatchRun true false None) q.

(** [prepareTryBatchGroupLocked]: [fenced] is the flag read at its start,
    [fences n] the one read by a conversion of target [n]. *)
Fixpoint prepareLoop (fenced : bool) (fences : nat → bool) (p : jobp) (fuel n : nat) (q : dispatchQueue) : dispatchQueue :=
  match fuel with
  | O => setGroupN p n q
  | S fuel =>
      let b := batch q p in
      match items b !! (next b + n)%nat with
      | None => setGroupN p n q
      | Some id =>
          let q := setPlan p n noPlan q in
          if fenced then
            prepareLoop fenced fences p fuel (S n)
              (setPlan p n (mkPlan tryBatchHandBack false false (Some errTryBatchFenced)) q)
          else
            match tails q !! id with
            | Some tail =>
                if bool_decide (tail ∈ claims b) then setGroupN p n q
                else
                  let '(q, r) := convertTryBatchTargetLocked b id (fences n) q in
                  prepareLoop fenced fences p fuel (S n)
                    (setPlan p n (match r with
                                  | Some e => mkPlan tryBatchHandBack false false (Some e)
                                  | None => mkPlan tryBatchConverted false false None
                                  end) q)
            | None => prepareLoop fenced fences p fuel (S n) (claim p n id q)
            end
      end
  end.

Definition prepareTryBatchGroupLocked (fenced : bool) (fences : nat → bool) (p : jobp) (q : dispatchQueue) : dispatchQueue :=
  prepareLoop fenced fences p tryBatchGroup 0 q.

(** One turn of [releaseTryBatchClaimsLocked]. *)
Definition releaseClaim (p : jobp) (q : dispatchQueue) (i : nat) : dispatchQueue :=
  let b := batch q p in
  if negb (claimed (plan b i)) then q
  else
    let c := default 0%N (claims b !! i) in
    let q := updJob c (set_successors []) (releaseIDsLocked c q) in
    setPlan p i (mkPlan (step (plan b i)) false (busy (plan b i)) (handBack (plan b i))) q.

Definition releaseTryBatchClaimsLocked (p : jobp) (q : dispatchQueue) : dispatchQueue :=
  foldl (releaseClaim p) q (seq 0 (groupN (batch q p))).

(** One turn of [finishTryBatchGroupLocked]: a target whose lock was not free
    becomes a job behind its claim. *)
Definition convertBusy (fences : nat → bool) (p : jobp) (st : nat) (q : dispatchQueue) (i : nat) : dispatchQueue :=
  let b := batch q p in
  if negb (busy (plan b i)) then q
  else
    let '(q, r) := convertTryBatchTargetLocked b (default 0 (items b !! (st + i)%nat)) (fences i) q in
    match r with
    | Some e => setPlan p i (mkPlan (step (plan b i)) (claimed (plan b i)) true (Some e)) q
    | None => q
    end.

Definition finishTryBatchGroupLocked (fences : nat → bool) (p : jobp) (st : nat) (q : dispatchQueue) : dispatchQueue :=
  releaseTryBatchClaimsLocked p (foldl (convertBusy fences p st) q (seq 0 (groupN (batch q p)))).

Definition yieldTryBatchLocked (l : LaneId) (p : jobp) (q : dispatchQueue) : dispatchQueue :=
  let q := updLane l (λ s, set_running (running s - 1) s) q in
  let q := updJob p (set_waited false) q in
  enqueueReady l p (pushWaiting l p q).

(** What running the claimed targets of a group wrote into their plans
    ([plan.busy, plan.handBack = exec.run(...)]). *)
Definition runPlans (rs : nat → bool * option QueueErr) (b : tryBatchJob) : list tryBatchPlan :=
  imap (λ i pl,
    match step pl with
    | tryBatchRun => if (i <? groupN b)%nat then mkPlan (step pl) (claimed pl) (fst (rs i)) (snd (rs i)) else pl
    | _ => pl
    end) (group b).
