(* ===== verification/NestRun.v ===== *)
(** * Workers over the dispatch queue (framework/nest)

    [dispatchQueue.work], [runTryBatchLocked] and the callers of the queue as
    a transition system: every step is one critical section of
    [dispatchQueue.mu], with the outcome of the handlers that ran before it
    chosen freely.  [Sys] holds what the workers are executing. *)

From S2P Require Import Prelude NestJob NestQueue.

(** What a worker is doing with the job it took: running it; on an I/O
    worker, waiting for a continuation ([<-call.done]); for a batch, having
    left its loop, to give the job back or to finish it. *)
Inductive Phase : Type := Running | WaitingFor (c : jobp) | Ending (yield : bool).

Record Exec := mkExec { xLane : LaneId; xJob : jobp; xPhase : Phase }.

(** [handedBack]: the calls of the [handBack] callbacks made by the workers, in
    order: the batch, the index of the target and the reason, before
    [normalizeAdmissionError] and [FenceError] name it. *)
Record Sys := mkSys {
  sq : dispatchQueue;
  act : list Exec;
  handedBack : list (jobp * nat * QueueErr)
}.

Definition initial (short io : WorkerPoolConfig) (longConfig : option WorkerPoolConfig) : Sys :=
  mkSys (newDispatchQueue short io longConfig) [] [].

(** ** The loop of a worker *)

(** A woken worker holds the lock. *)
Definition enter (l : LaneId) (q : dispatchQueue) : dispatchQueue :=
  updLane l (λ s, set_wake (mkCond (parked (wake s)) (pred (awake (wake s)))) s) q.
Definition park (l : LaneId) (q : dispatchQueue) : dispatchQueue :=
  updLane l (λ s, set_wake (mkCond (S (parked (wake s))) (awake (wake s))) s) q.
(** A worker that ended a job looks for the next one. *)
Definition again (l : LaneId) (q : dispatchQueue) : dispatchQueue :=
  updLane l (λ s, set_wake (mkCond (parked (wake s)) (S (awake (wake s)))) s) q.

(** [take], then wait or return. *)
Definition workNone (l : LaneId) (q : dispatchQueue) : dispatchQueue :=
  if stopping q && (pending q =? 0) then set_wg (wg q - 1) q else park l q.

(** The end of an ordinary job. *)
Definition workDone (l : LaneId) (p : jobp) (ioReroute : bool) (q : dispatchQueue) : dispatchQueue :=
  again l (if rerouted l (job q p) ioReroute then rerouteToIO p q else finishJobLocked l p q).

(** The continuation's envelope is released: its waiter goes on. *)
Definition notify (c : jobp) (x : Exec) : Exec :=
  match xPhase x with
  | WaitingFor c' => if bool_decide (c' = c) then mkExec (xLane x) (xJob x) Running else x
  | _ => x
  end.

(** ** The loop of a batch *)

(** The plans of the group are written and [b.next += n]. *)
Definition groupRan (rs : nat → bool * option QueueErr) (p : jobp) (q : dispatchQueue) : dispatchQueue :=
  updBatch p (λ b, mkBatch (bLane b) (items b) (claims b) (runPlans rs b) (groupN b) (next b + groupN b)) q.

(** [collectHandBacks] of the group that started at [start], and the calls of
    [flushHandBacks]: a target is handed back when its plan says so. *)
Definition collectHandBacks (p : jobp) (start n : nat) (q : dispatchQueue) : list (jobp * nat * QueueErr) :=
  omap (λ i, (λ e, (p, (start + i)%nat, e)) <$> handBack (plan (batch q p) i)) (seq 0 n).

(** After a loop that left early: the targets from [b.next] on. *)
Definition abortHandBacks (p : jobp) (q : dispatchQueue) : list (jobp * nat * QueueErr) :=
  (λ i, (p, i, errTryBatchAborted)) <$> seq (next (batch q p)) (length (items (batch q p)) - next (batch q p)).

(** The end of [runTryBatchLocked]. *)
Definition batchEnd (l : LaneId) (p : jobp) (yield : bool) (q : dispatchQueue) : dispatchQueue :=
  let q := releaseTryBatchClaimsLocked p q in
  again l (if yield then yieldTryBatchLocked l p q
           else let q := finishJobLocked l p q in set_batches (delete p (batches q)) q).

(** ** Steps *)

(** What the workers and the awaiting calls do with work that is there. *)
Inductive work_step : Sys → Sys → Prop :=
(** A worker that waited for a continuation goes on. *)
| st_released p c l ph q a1 a2 o : mkExec l c ph ∈ a1 ++ a2 →
    work_step (mkSys q (a1 ++ mkExec IO p (WaitingFor c) :: a2) o)
      (mkSys q (a1 ++ mkExec IO p Running :: a2) o)
| st_cancelAwait q a o : 0 < awaitReserved q →
    work_step (mkSys q a o) (mkSys (cancelAwait q) a o)
| st_startAwait q a o : 0 < awaitReserved q →
    work_step (mkSys q a o) (mkSys (startAwait q) a o)
(** A woken worker takes the lock and looks for work. *)
| st_none l q a o : (0 < awake (wake (lanes q l)))%nat → take l (enter l q) = None →
    work_step (mkSys q a o) (mkSys (workNone l (enter l q)) a o)
| st_take l p q q' a o : (0 < awake (wake (lanes q l)))%nat → take l (enter l q) = Some (p, q') →
    tryBatch (job q' p) = false →
    work_step (mkSys q a o) (mkSys q' (a ++ [mkExec l p Running]) o)
| st_takeBatch fenced fences l p q q' a o : (0 < awake (wake (lanes q l)))%nat → take l (enter l q) = Some (p, q') →
    tryBatch (job q' p) = true →
    work_step (mkSys q a o)
      (mkSys (prepareTryBatchGroupLocked fenced fences p q') (a ++ [mkExec l p Running]) o)
| st_done l p ioReroute q a1 a2 o : tryBatch (job q p) = false →
    work_step (mkSys q (a1 ++ mkExec l p Running :: a2) o)
      (mkSys (workDone l p ioReroute q) (notify p <$> a1 ++ a2) o)
(** A group of a batch was run; there is time for the next one. *)
| st_group rs fences fenced fences' l p q q' a1 a2 o : tryBatch (job q p) = true →
    q' = finishTryBatchGroupLocked fences p (next (batch q p)) (groupRan rs p q) →
    (next (batch q' p) < length (items (batch q' p)))%nat →
    work_step (mkSys q (a1 ++ mkExec l p Running :: a2) o)
      (mkSys (prepareTryBatchGroupLocked fenced fences' p q') (a1 ++ mkExec l p Running :: a2)
             (o ++ collectHandBacks p (next (batch q p)) (groupN (batch q p)) q'))
(** A group of a batch was run; the time slice is over or no target is left. *)
| st_groupLast rs fences sliceOver l p q q' a1 a2 o : tryBatch (job q p) = true →
    q' = finishTryBatchGroupLocked fences p (next (batch q p)) (groupRan rs p q) →
    sliceOver = true ∨ (length (items (batch q' p)) ≤ next (batch q' p))%nat →
    work_step (mkSys q (a1 ++ mkExec l p Running :: a2) o)
      (mkSys q' (a1 ++ mkExec l p (Ending (next (batch q' p) <? length (items (batch q' p)))%nat) :: a2)
             (o ++ collectHandBacks p (next (batch q p)) (groupN (batch q p)) q'))
(** The loop of a batch left unexpectedly, inside a group: nothing of the group was collected. *)
| st_abort l p q a1 a2 o : tryBatch (job q p) = true →
    work_step (mkSys q (a1 ++ mkExec l p Running :: a2) o)
      (mkSys (setNext p (length (items (batch q p))) q) (a1 ++ mkExec l p (Ending false) :: a2)
             (o ++ abortHandBacks p q))
| st_batchEnd l p yield q a1 a2 o : tryBatch (job q p) = true →
    work_step (mkSys q (a1 ++ mkExec l p (Ending yield) :: a2) o)
      (mkSys (batchEnd l p yield q) (a1 ++ a2) o).

(** Whatever happens: work is done, admitted, or the queue starts and stops. *)
Inductive sys_step : Sys → Sys → Prop :=
| st_work S S' : work_step S S' → sys_step S S'
| st_start q a o : sys_step (mkSys q a o) (mkSys (start q) a o)
| st_stop q a o : sys_step (mkSys q a o) (mkSys (stop q) a o)
| st_dispatch reg m prepareIO q a o :
    sys_step (mkSys q a o) (mkSys (fst (admitMessage reg m prepareIO q)) a o)
| st_batch l ts q a o : isIO l = false →
    sys_step (mkSys q a o) (mkSys (fst (admitTryBatch l ts q)) a o)
| st_runLocal reg m q a o :
    sys_step (mkSys q a o) (mkSys (fst (tryContinueBusiness reg m q)) a o)
(** An I/O worker hands a continuation to the business pool and waits. *)
| st_continue reg m p q a1 a2 o : tryBatch (job q p) = false →
    sys_step (mkSys q (a1 ++ mkExec IO p Running :: a2) o)
      (mkSys (continueBusiness reg m q) (a1 ++ mkExec IO p (WaitingFor (fresh q)) :: a2) o)
(** A running business handler reserves an await. *)
| st_reserve l p q a o : mkExec l p Running ∈ a → isIO l = false →
    sys_step (mkSys q a o) (mkSys (fst (reserveAwait q)) a o).

(** States reached from an empty queue. *)
Inductive reachable (short io : WorkerPoolConfig) (longConfig : option WorkerPoolConfig) : Sys → Prop :=
| reach_init : reachable short io longConfig (initial short io longConfig)
| reach_step S S' : reachable short io longConfig S → sys_step S S' → reachable short io longConfig S'.
