(* ===== verification/NestDemo.v ===== *)
(** * A run of the dispatcher (framework/nest)

    One worker per lane; a message, a second message to the same entity and a
    batch of three targets, one of them that entity. *)

From S2P Require Import Prelude NestJob NestQueue NestRun.

Definition demoPool : WorkerPoolConfig := mkPool 1 4.
Definition demoMsg (id : Z) : Msg := mkMsg id [] [] None.

Definition demoStart : dispatchQueue := start (newDispatchQueue demoPool demoPool (Some demoPool)).
Definition demoFirst : dispatchQueue := fst (admitMessage ∅ (demoMsg 7) false demoStart).
Definition demoSecond : dispatchQueue := fst (admitMessage ∅ (demoMsg 7) false demoFirst).
Definition demoBatch : dispatchQueue := fst (admitTryBatch Short [5; 7; 9] demoSecond).
Definition demoTaken : jobp * dispatchQueue := default (0%N, demoBatch) (take Short (enter Short demoBatch)).

Definition noFence : nat → bool := λ _, false.
Definition allRun : nat → bool * option QueueErr := λ _, (false, None).

(** The group of batch [p] is finished; its loop left after one target. *)
Definition endGroup (l : LaneId) (p : jobp) (q : dispatchQueue) : Sys :=
  let q' := finishTryBatchGroupLocked noFence p (next (batch q p)) (groupRan allRun p q) in
  mkSys q' [mkExec l p (Ending (next (batch q' p) <? length (items (batch q' p)))%nat)]
    (collectHandBacks p (next (batch q p)) (groupN (batch q p)) q').
Definition abortGroup (l : LaneId) (p : jobp) (q : dispatchQueue) : Sys :=
  mkSys (setNext p (length (items (batch q p))) q) [mkExec l p (Ending false)] (abortHandBacks p q).

Lemma endGroup_step l p q : tryBatch (job q p) = true → work_step (mkSys q [mkExec l p Running] []) (endGroup l p q).
Proof.
  intros Ht. exact (st_groupLast allRun noFence true l p q _ [] [] [] Ht eq_refl (or_introl eq_refl)).
Qed.
Lemma abortGroup_step l p q : tryBatch (job q p) = true → work_step (mkSys q [mkExec l p Running] []) (abortGroup l p q).
Proof. intros Ht. exact (st_abort l p q [] [] [] Ht). Qed.

(** The batch runs: 5 and 9 are claimed, 7 became a job of its own. *)
Definition demoQueue : dispatchQueue := prepareTryBatchGroupLocked false noFence 3 (snd demoTaken).
Definition demoRunning : Sys := mkSys demoQueue [mkExec Short 3 Running] [].
Definition demoEnding : Sys := endGroup Short 3 demoQueue.
Definition demoAborted : Sys := abortGroup Short 3 demoQueue.
Definition demoStopped : Sys := mkSys (stop demoQueue) [mkExec Short 3 Running] [].

Abbreviation demoReachable := (reachable demoPool demoPool (Some demoPool)).

Lemma demo_taken : take Short (enter Short demoBatch) = Some demoTaken.
Proof. unfold demoTaken. destruct (take Short (enter Short demoBatch)) eqn:E; [done|]. vm_compute in E. done. Qed.

Lemma demoBatch_reachable : demoReachable (mkSys demoBatch [] []).
Proof.
  assert (H1 : demoReachable (mkSys demoStart [] [])) by exact (reach_step _ _ _ _ _ (reach_init _ _ _) (st_start _ _ _)).
  assert (H2 : demoReachable (mkSys demoFirst [] [])) by exact (reach_step _ _ _ _ _ H1 (st_dispatch _ _ _ _ _ _)).
  assert (H3 : demoReachable (mkSys demoSecond [] [])) by exact (reach_step _ _ _ _ _ H2 (st_dispatch _ _ _ _ _ _)).
  exact (reach_step _ _ _ _ _ H3 (st_batch Short [5; 7; 9] demoSecond [] [] eq_refl)).
Qed.

Lemma demo_takes : take Short (enter Short demoBatch) = Some (3%N, snd demoTaken).
Proof.
  rewrite demo_taken. assert (E : fst demoTaken = 3%N) by (vm_compute; reflexivity).
  destruct demoTaken as [p q]. simpl in *. by subst.
Qed.

Lemma demoRunning_step : work_step (mkSys demoBatch [] []) demoRunning.
Proof.
  unfold demoRunning, demoQueue. apply (st_takeBatch false noFence Short 3 demoBatch (snd demoTaken) [] []).
  - vm_compute. lia.
  - exact demo_takes.
  - vm_compute. reflexivity.
Qed.

Lemma demoRunning_reachable : demoReachable demoRunning.
Proof. exact (reach_step _ _ _ _ _ demoBatch_reachable (st_work _ _ demoRunning_step)). Qed.

Lemma demoQueue_batch : tryBatch (job demoQueue 3) = true.
Proof. vm_compute. reflexivity. Qed.

Lemma demoEnding_reachable : demoReachable demoEnding.
Proof. exact (reach_step _ _ _ _ _ demoRunning_reachable (st_work _ _ (endGroup_step Short 3 demoQueue demoQueue_batch))). Qed.

Lemma demoEnding_act : act demoEnding = [mkExec Short 3 (Ending false)].
Proof. vm_compute. reflexivity. Qed.

Lemma demoAborted_reachable : demoReachable demoAborted.
Proof. exact (reach_step _ _ _ _ _ demoRunning_reachable (st_work _ _ (abortGroup_step Short 3 demoQueue demoQueue_batch))). Qed.

Lemma demoStopped_reachable : demoReachable demoStopped.
Proof. exact (reach_step _ _ _ _ _ demoRunning_reachable (st_stop _ _ _)). Qed.

(** A target that became a job of its own is handed back as well when the loop leaves inside its group. *)
Example demo_converted_handed_back :
  step (plan (batch demoQueue 3) 1) = tryBatchConverted ∧
  handedBack demoAborted = [(3%N, 0%nat, errTryBatchAborted); (3%N, 1%nat, errTryBatchAborted); (3%N, 2%nat, errTryBatchAborted)] ∧
  handedBack demoEnding = [].
Proof. vm_compute. done. Qed.
