(* ===== verification/NestOrder.v ===== *)
(** * The order of jobs that share an id

    What the tails, successor lists and predecessor counts of the dispatch
    queue stand for: the pending jobs in the order of their admission, where
    a job may start once no earlier one has a target in common with it. *)

From S2P Require Import Prelude NestJob NestQueue.

(** ** Specification *)

(** The jobs not yet finished, in order of admission, with their ids. *)
Abbreviation pendings := (list (jobp * list Z)).

Definition conflict (l k : list Z) : Prop := ∃ id, id ∈ l ∧ id ∈ k.

(** The jobs, and which of them are executing. *)
Record fifo := mkFifo { jobs : pendings; executing : gset jobp }.

(** [e] was admitted before [e']. *)
Definition before (q : pendings) (e e' : jobp * list Z) : Prop := [e; e'] `sublist_of` q.

Inductive fifo_step : fifo → fifo → Prop :=
| ff_submit p l q x : p ∉ q.*1 → fifo_step (mkFifo q x) (mkFifo (q ++ [(p, l)]) x)
| ff_begin p l q x : (p, l) ∈ q → p ∉ x → (∀ e, before q e (p, l) → ¬ conflict (snd e) l) →
    fifo_step (mkFifo q x) (mkFifo q ({[p]} ∪ x))
| ff_pause p q x : p ∈ x → fifo_step (mkFifo q x) (mkFifo q (x ∖ {[p]}))
| ff_end p q x : p ∈ x →
    fifo_step (mkFifo q x) (mkFifo (filter (λ e, fst e ≠ p) q) (x ∖ {[p]})).

(** What the specification guarantees: whoever executes is pending, and no
    job admitted before it and sharing a target with it still is. *)
Definition exclusive (s : fifo) : Prop :=
  NoDup (jobs s).*1 ∧ (∀ p, p ∈ executing s → p ∈ (jobs s).*1) ∧
  ∀ e e', before (jobs s) e e' → fst e' ∈ executing s → ¬ conflict (snd e) (snd e').

(** ** Lists *)

(** [a] comes directly before [b]. *)
Definition adj {A} (l : list A) (a b : A) : Prop := ∃ l1 l2, l = l1 ++ a :: b :: l2.

Lemma adj_nil {A} (a b : A) : ¬ adj [] a b.
Proof. intros (l1 & l2 & H). by destruct l1. Qed.

Lemma adj_snoc {A} (l : list A) p a b : adj (l ++ [p]) a b ↔ adj l a b ∨ (last l = Some a ∧ b = p).
Proof.
  split.
  - intros (l1 & l2 & H). destruct l2 as [|x l2] using rev_ind.
    + right. rewrite (cons_middle a), (assoc_L (++)) in H. apply app_inj_2 in H as [-> [= ->]]; [|done].
      by rewrite last_snoc.
    + left. exists l1, l2. clear IHl2. rewrite !app_comm_cons, (assoc_L (++)) in H.
      by apply app_inj_2 in H as [-> _].
  - intros [(l1 & l2 & ->)|[(l1 & ->)%last_Some ->]].
    + exists l1, (l2 ++ [p]). by rewrite <- (assoc_L (++)).
    + exists l1, []. by rewrite <- (assoc_L (++)).
Qed.

Lemma adj_in_r {A} (l : list A) a b : adj l a b → b ∈ l.
Proof. intros (l1 & l2 & ->). set_solver. Qed.
Lemma adj_in_l {A} (l : list A) a b : adj l a b → a ∈ l.
Proof. intros (l1 & l2 & ->). set_solver. Qed.

Lemma adj_tail {A} (x : A) l a b : NoDup (x :: l) → adj l a b ↔ adj (x :: l) a b ∧ a ≠ x.
Proof.
  intros [Hx Hl]%NoDup_cons. split.
  - intros H. split.
    + destruct H as (l1 & l2 & ->). by exists (x :: l1), l2.
    + intros ->. by apply adj_in_l in H.
  - intros [([|y l1] & l2 & [= -> ->]) Ha]; [done|]. by exists l1, l2.
Qed.

(** An element nobody precedes is the head. *)
Lemma no_adj_head {A} (l : list A) p : p ∈ l → (∀ a, ¬ adj l a p) → ∃ k, l = p :: k.
Proof.
  intros (l1 & l2 & ->)%list_elem_of_split Ha. destruct l1 as [|x l1] using rev_ind; [by eexists|].
  destruct (Ha x). exists l1, l2. by rewrite <- (assoc_L (++)).
Qed.

Lemma adj_head {A} (p : A) k a : NoDup (p :: k) → ¬ adj (p :: k) a p.
Proof.
  intros [Hp _]%NoDup_cons ([|x l1] & l2 & [= -> ->]); set_solver.
Qed.

Lemma before_snoc q x e e' : before (q ++ [x]) e e' → before q e e' ∨ e' = x.
Proof.
  unfold before. intros (l1 & l2 & Hl & H1 & H2)%sublist_app_r.
  apply sublist_cons_r in H2 as [H2|(l2' & -> & H2)].
  - apply sublist_nil_r in H2 as ->. rewrite app_nil_r in Hl. subst. by left.
  - apply sublist_nil_r in H2 as ->. right. destruct l1 as [|y [|z l1]]; simplify_eq/=; [done|].
    by destruct l1.
Qed.

Lemma before_filter (P : jobp * list Z → Prop) `{∀ x, Decision (P x)} q e e' :
  before (filter P q) e e' → before q e e'.
Proof. intros H1. unfold before. etrans; [apply H1|apply sublist_filter]. Qed.

Lemma filter_sublist {A} (P : A → Prop) `{∀ x, Decision (P x)} l1 l2 :
  l1 `sublist_of` l2 → filter P l1 `sublist_of` filter P l2.
Proof.
  induction 1 as [|x l1 l2 Hl IH|x l1 l2 Hl IH]; [done|..]; rewrite !filter_cons;
    case_decide; auto using sublist_skip, sublist_cons.
Qed.

Lemma before_in q e e' : before q e e' → e ∈ q ∧ e' ∈ q.
Proof. intros H%sublist_subseteq. split; apply H; set_solver. Qed.

Lemma NoDup_fst_filter {A B} (P : A * B → Prop) `{∀ x, Decision (P x)} (l : list (A * B)) :
  NoDup l.*1 → NoDup (filter P l).*1.
Proof.
  intros Hl. eapply sublist_NoDup; [apply Hl|]. apply fmap_sublist. apply (sublist_filter P l).
Qed.

Lemma fst_in {A B} (l : list (A * B)) e : e ∈ l → fst e ∈ l.*1.
Proof. intros H. apply list_elem_of_fmap. by exists e. Qed.

Lemma fst_unique {A B} (l : list (A * B)) e e' : NoDup l.*1 → e ∈ l → e' ∈ l → fst e = fst e' → e = e'.
Proof.
  intros Hl (i & Hi)%list_elem_of_lookup (j & Hj)%list_elem_of_lookup E.
  assert (i = j) as ->; [|congruence].
  eapply (NoDup_lookup _ _ _ (fst e) Hl); rewrite list_lookup_fmap.
  - by rewrite Hi.
  - rewrite Hj. simpl. by rewrite E.
Qed.

Lemma fifo_step_exclusive s s' : fifo_step s s' → exclusive s → exclusive s'.
Proof.
  intros Hs (Hn & Hx & He). destruct Hs as [p l q x Hp|p l q x Hp Hpx Hc|p q x Hp|p q x Hp];
    (split; [|split]); simpl in *.
  - rewrite fmap_app. apply NoDup_app. split; [done|]. split; [set_solver|apply NoDup_singleton].
  - intros p' ?. rewrite fmap_app, elem_of_app. auto.
  - intros e e' [?| ->]%before_snoc ?; [by apply He|]. naive_solver.
  - done.
  - intros p' [->%elem_of_singleton|?]%elem_of_union; [|auto]. apply (fst_in _ _ Hp).
  - intros e e' Hb [E%elem_of_singleton|?]%elem_of_union; [|by apply He].
    assert (e' = (p, l)) as ->; [|by apply Hc].
    apply (fst_unique q); [done|apply (before_in _ _ _ Hb)|done..].
  - done.
  - intros p' ?. apply Hx. set_solver.
  - intros e e' ??. apply He; [done|set_solver].
  - by apply NoDup_fst_filter.
  - intros p' [? ?]%elem_of_difference.
    assert (Hin : p' ∈ q.*1) by auto. apply list_elem_of_fmap in Hin as (e & -> & Hin).
    apply fst_in. apply list_elem_of_filter. set_solver.
  - intros e e' ??. apply He; [by eapply before_filter|set_solver].
Qed.

(** ** The jobs registered under an id *)

Definition chain (q : pendings) (id : Z) : list jobp := (filter (λ e, id ∈ snd e) q).*1.

Lemma order_chain_snoc q p l id :
  chain (q ++ [(p, l)]) id = chain q id ++ (if bool_decide (id ∈ l) then [p] else []).
Proof.
  unfold chain. rewrite filter_app, fmap_app. f_equal. case_bool_decide.
  - by rewrite filter_cons_True.
  - by rewrite filter_cons_False.
Qed.

Lemma elem_of_chain q id p : p ∈ chain q id ↔ ∃ l, (p, l) ∈ q ∧ id ∈ l.
Proof.
  unfold chain. rewrite list_elem_of_fmap. split.
  - intros ([p' l] & -> & [Hid Hin]%list_elem_of_filter). eauto.
  - intros (l & Hin & Hid). exists (p, l). by rewrite list_elem_of_filter.
Qed.

Lemma chain_pending q id p : p ∈ chain q id → p ∈ q.*1.
Proof. rewrite elem_of_chain, list_elem_of_fmap. intros (l & H & _). by exists (p, l). Qed.

Lemma chain_NoDup q id : NoDup q.*1 → NoDup (chain q id).
Proof. apply NoDup_fst_filter. Qed.

(** Without the job [p]. *)
Definition without (p : jobp) (q : pendings) : pendings := filter (λ e, fst e ≠ p) q.

Lemma chain_without q id p : chain (without p q) id = unlink p (chain q id).
Proof.
  unfold chain, without, unlink. induction q as [|[x l] q IH]; [done|].
  rewrite (filter_cons (λ e : jobp * list Z, e.1 ≠ p)), (filter_cons (λ e : jobp * list Z, id ∈ e.2) _ q). simpl.
  destruct (decide (x ≠ p)) as [Hx|Hx].
  - rewrite filter_cons. simpl. destruct (decide (id ∈ l)); simpl; [|done].
    rewrite filter_cons_True by done. by f_equal.
  - destruct (decide (id ∈ l)); simpl; [|done]. by rewrite filter_cons_False by tauto.
Qed.

Lemma elem_of_without q p x : x ∈ (without p q).*1 ↔ x ∈ q.*1 ∧ x ≠ p.
Proof.
  unfold without. rewrite !list_elem_of_fmap. setoid_rewrite list_elem_of_filter. naive_solver.
Qed.

Lemma unlink_notin (p : jobp) l : p ∉ l → unlink p l = l.
Proof. intros H. apply filter_all, Forall_forall. set_solver. Qed.

Lemma unlink_head (p : jobp) l : NoDup (p :: l) → unlink p (p :: l) = l.
Proof.
  intros [Hp _]%NoDup_cons. unfold unlink. rewrite filter_cons_False by auto. by apply unlink_notin.
Qed.

(** The head of all its chains conflicts with nobody before it. *)
Lemma heads_runnable q p l :
  NoDup q.*1 → (∀ id, id ∈ l → ∃ k, chain q id = p :: k) →
  ∀ e, before q e (p, l) → ¬ conflict (snd e) l.
Proof.
  intros Hn Hh e Hb (id & He & Hl). destruct (Hh id Hl) as (k & Hk).
  assert (Hs : [e; (p, l)].*1 `sublist_of` p :: k).
  { rewrite <- Hk. replace [e; (p, l)] with (filter (λ e, id ∈ snd e) [e; (p, l)]).
    - apply (fmap_sublist _ _ _ (filter_sublist _ _ _ Hb)).
    - by rewrite !filter_cons_True. }
  simpl in Hs.
  assert (Hd : NoDup (p :: k)) by (rewrite <- Hk; by apply chain_NoDup).
  apply NoDup_cons in Hd as [Hp _]. apply Hp.
  apply sublist_cons_r in Hs as [Hs|(l' & [= _ <-] & Hs)].
  - eapply elem_of_sublist; [|apply Hs]. set_solver.
  - by apply singleton_sublist_l.
Qed.

(** ** The dependency graph in the heap *)

Definition jobAt (h : gmap jobp dispatchJob) (p : jobp) : dispatchJob := default noJob (h !! p).

Lemma job_heap q p : job q p = jobAt (heap q) p.
Proof. done. Qed.

Lemma jobAt_alter f p h x : is_Some (h !! p) →
  jobAt (alter f p h) x = if decide (x = p) then f (jobAt h p) else jobAt h x.
Proof.
  intros [j Hj]. unfold jobAt. destruct (decide (x = p)) as [->|Hx].
  - by rewrite lookup_alter_eq, Hj.
  - by rewrite lookup_alter_ne.
Qed.

Lemma is_Some_alter f p (h : gmap jobp dispatchJob) x : is_Some (alter f p h !! x) ↔ is_Some (h !! x).
Proof. apply lookup_alter_is_Some. Qed.

(** The job [a] comes directly before [b] under some id. *)
Definition edge (q : pendings) (a b : jobp) : Prop := ∃ id, adj (chain q id) a b.

Lemma edge_in q a b : edge q a b → a ∈ q.*1 ∧ b ∈ q.*1.
Proof. intros (id & H). split; eapply chain_pending; eauto using adj_in_l, adj_in_r. Qed.

(** [tails] holds the last job of each id, [successors] the edges, and
    [predecessors] counts the jobs with an edge to this one. *)
Record ordered (h : gmap jobp dispatchJob) (t : gmap Z jobp) (q : pendings) : Prop := mkOrdered {
  o_nodup : NoDup q.*1;
  o_heap : ∀ p, p ∈ q.*1 → is_Some (h !! p);
  o_tail : ∀ id, t !! id = last (chain q id);
  o_succ : ∀ a b, a ∈ q.*1 → b ∈ successors (jobAt h a) ↔ edge q a b;
  o_succ_nodup : ∀ a, a ∈ q.*1 → NoDup (successors (jobAt h a));
  o_preds : ∀ b, b ∈ q.*1 → ∃ ps, NoDup ps ∧ (∀ a, a ∈ ps ↔ edge q a b) ∧ predecessors (jobAt h b) = zlen ps
}.

Lemma ordered_ext h h' t q :
  (∀ p, p ∈ q.*1 → is_Some (h' !! p) ∧ successors (jobAt h' p) = successors (jobAt h p) ∧
                  predecessors (jobAt h' p) = predecessors (jobAt h p)) →
  ordered h t q → ordered h' t q.
Proof.
  intros He [H1 H2 H3 H4 H5 H6]. constructor; [done|..|done| | |]; intros p.
  - intros Hp. by apply He.
  - intros b Hp. destruct (He p Hp) as (_ & -> & _). auto.
  - intros Hp. destruct (He p Hp) as (_ & -> & _). auto.
  - intros Hp. destruct (He p Hp) as (_ & _ & ->). auto.
Qed.

(** A job without ids joins without edges. *)
Lemma edge_snoc q p l a b :
  edge (q ++ [(p, l)]) a b ↔ edge q a b ∨ (b = p ∧ ∃ id, id ∈ l ∧ last (chain q id) = Some a).
Proof.
  unfold edge. setoid_rewrite order_chain_snoc. split.
  - intros (id & H). case_bool_decide; [|rewrite app_nil_r in H; eauto].
    apply adj_snoc in H as [H|[H ->]]; eauto.
  - intros [(id & H)|(-> & id & Hl & H)]; exists id.
    + case_bool_decide; [|by rewrite app_nil_r]. apply adj_snoc. auto.
    + rewrite bool_decide_true by done. apply adj_snoc. auto.
Qed.

Lemma ordered_join h t q p :
  ordered h t q → p ∉ q.*1 → is_Some (h !! p) → successors (jobAt h p) = [] → predecessors (jobAt h p) = 0 →
  ordered h t (q ++ [(p, [])]).
Proof.
  intros [H1 H2 H3 H4 H5 H6] Hp Hh Hs Hpr.
  assert (He : ∀ a b, edge (q ++ [(p, [])]) a b ↔ edge q a b).
  { intros a b. rewrite edge_snoc. set_solver. }
  assert (Hin : ∀ x, x ∈ (q ++ [(p, [])]).*1 ↔ x ∈ q.*1 ∨ x = p).
  { intros x. rewrite fmap_app. apply elem_of_snoc. }
  constructor.
  - rewrite fmap_app. apply NoDup_app. split; [done|]. split; [set_solver|apply NoDup_singleton].
  - intros x [?| ->]%Hin; auto.
  - intros id. rewrite order_chain_snoc, H3. rewrite bool_decide_false by set_solver. by rewrite app_nil_r.
  - intros a b [Ha| ->]%Hin; rewrite He; [auto|]. rewrite Hs. split; [set_solver|].
    intros [? _]%edge_in. done.
  - intros a [Ha| ->]%Hin; [auto|]. rewrite Hs. constructor.
  - intros b [Hb| ->]%Hin; setoid_rewrite He; [auto|]. exists []. split; [constructor|]. split; [|done].
    intros a. split; [set_solver|]. by intros [_ ?]%edge_in.
Qed.

(** ** Registering a job behind the tails *)

Section link.
Context (p : jobp) (q : pendings).

(** [p] is registered under the ids [l] so far. *)
Definition linked (l : list Z) (Q : dispatchQueue) : Prop :=
  ordered (heap Q) (tails Q) (q ++ [(p, l)]) ∧
  ∀ a, a ∈ q.*1 → p ∈ successors (job Q a) → last (successors (job Q a)) = Some p.

Lemma edge_link l id a b :
  edge (q ++ [(p, l ++ [id])]) a b ↔ edge (q ++ [(p, l)]) a b ∨ (b = p ∧ last (chain q id) = Some a).
Proof.
  rewrite !edge_snoc. setoid_rewrite elem_of_snoc. naive_solver.
Qed.

Lemma link_in l x : x ∈ (q ++ [(p, l)]).*1 ↔ x ∈ q.*1 ∨ x = p.
Proof. rewrite fmap_app. apply elem_of_snoc. Qed.

Lemma link_tail l id Q : linked l Q → id ∉ l → p ∉ q.*1 →
  ∀ id', (<[id := p]> (tails Q)) !! id' = last (chain (q ++ [(p, l ++ [id])]) id').
Proof.
  intros [Ho _] Hid Hp id'. rewrite order_chain_snoc. destruct (decide (id' = id)) as [->|Hne].
  - rewrite lookup_insert_eq, bool_decide_true by set_solver. by rewrite last_snoc.
  - rewrite lookup_insert_ne by done. rewrite (o_tail _ _ _ Ho), order_chain_snoc.
    replace (bool_decide (id' ∈ l ++ [id])) with (bool_decide (id' ∈ l)); [done|]. apply bool_decide_ext. set_solver.
Qed.

(** The heap after one edge. *)
Lemma jobAt_link h prev x : is_Some (h !! p) → is_Some (h !! prev) → prev ≠ p →
  jobAt (alter (λ j, set_predecessors (predecessors j + 1) j) p
           (alter (λ j, set_successors (successors j ++ [p]) j) prev h)) x =
  if decide (x = p) then set_predecessors (predecessors (jobAt h p) + 1) (jobAt h p)
  else if decide (x = prev) then set_successors (successors (jobAt h prev) ++ [p]) (jobAt h prev)
  else jobAt h x.
Proof.
  intros Hp Hprev Hne. rewrite jobAt_alter by by apply is_Some_alter.
  rewrite !(jobAt_alter _ prev) by done. by rewrite (decide_False (P := p = prev)) by done.
Qed.

Lemma linkOne_linked l id Q : linked l Q → id ∉ l → p ∉ q.*1 → linked (l ++ [id]) (linkOne p Q id).
Proof.
  intros Hl Hid Hp. pose proof (link_tail l id Q Hl Hid Hp) as Ht'. destruct Hl as [Ho Hlast].
  assert (Htl : tails Q !! id = last (chain q id)).
  { rewrite (o_tail _ _ _ Ho), order_chain_snoc, bool_decide_false by done. by rewrite app_nil_r. }
  destruct Ho as [H1 H2 H3 H4 H5 H6].
  assert (Hd : NoDup (q ++ [(p, l ++ [id])]).*1) by (rewrite fmap_app in *; done).
  setoid_rewrite link_in in H2. setoid_rewrite link_in in H4. setoid_rewrite link_in in H5.
  setoid_rewrite link_in in H6. unfold linkOne. rewrite Htl.
  assert (Hsame : (∀ a, last (chain q id) = Some a → edge (q ++ [(p, l)]) a p) →
    linked (l ++ [id]) (set_tails (<[id := p]> (tails Q)) Q)).
  { intros Hall. assert (He : ∀ a b, edge (q ++ [(p, l ++ [id])]) a b ↔ edge (q ++ [(p, l)]) a b).
    { intros a b. rewrite edge_link. naive_solver. }
    split; [|done]. constructor; simpl; try done; setoid_rewrite link_in.
    - done. - by setoid_rewrite He. - done. - by setoid_rewrite He. }
  destruct (last (chain q id)) as [prev|] eqn:Elast; [|by apply Hsame].
  assert (Hprev : prev ∈ q.*1) by (eapply chain_pending, last_Some_elem_of, Elast).
  case_bool_decide as Hs.
  { apply Hsame. intros a [= <-]. apply H4; [by left|].
    rewrite job_heap in Hs. by apply last_Some_elem_of in Hs. }
  assert (Hns : p ∉ successors (jobAt (heap Q) prev)) by (intros Hin; by apply Hs, Hlast).
  assert (Hpp : prev ≠ p) by (intros ->; done).
  pose proof (λ x, jobAt_link (heap Q) prev x (H2 p (or_intror eq_refl)) (H2 prev (or_introl Hprev)) Hpp) as Hat.
  split; simpl.
  - constructor; simpl; try done; setoid_rewrite link_in.
    + intros x Hx. rewrite !is_Some_alter. auto.
    + intros a b Ha. rewrite Hat, edge_link. repeat case_decide; subst; simpl.
      * rewrite H4 by auto. naive_solver.
      * rewrite elem_of_snoc, H4 by auto. naive_solver.
      * rewrite H4 by auto. naive_solver.
    + intros a Ha. rewrite Hat. repeat case_decide; subst; simpl; auto.
      apply NoDup_app. split; [auto|]. split; [set_solver|apply NoDup_singleton].
    + intros b Hb. rewrite Hat. setoid_rewrite edge_link. case_decide; subst; simpl.
      * destruct (H6 p) as (ps & Hn & Hps & Hc); [auto|]. exists (ps ++ [prev]). split_and!.
        -- apply NoDup_app. split; [done|]. split; [|apply NoDup_singleton].
           intros x Hx ->%list_elem_of_singleton. apply Hns, H4; [by left|by apply Hps].
        -- intros a. rewrite elem_of_snoc, Hps. naive_solver.
        -- rewrite Hc. zlia.
      * destruct (H6 b) as (ps & Hn & Hps & Hc); [done|]. exists ps. split_and!; [done| |].
        -- intros a. rewrite Hps. naive_solver.
        -- case_decide; subst; done.
  - intros a Ha. rewrite !job_heap. simpl. rewrite Hat. specialize (Hlast a Ha). rewrite !job_heap in Hlast.
    repeat case_decide; subst; simpl; [done|by rewrite last_snoc|done].
Qed.

Lemma links_linked l k Q : linked l Q → NoDup (l ++ k) → p ∉ q.*1 → linked (l ++ k) (foldl (linkOne p) Q k).
Proof.
  revert l Q. induction k as [|id k IH]; intros l Q Hl Hn Hp; [by rewrite app_nil_r|].
  rewrite cons_middle, (assoc_L (++)) in *. apply IH; [|done..].
  apply linkOne_linked; [done| |done]. apply NoDup_app in Hn as [Hn _].
  apply NoDup_app in Hn as (_ & Hn & _). intros Hin. apply (Hn _ Hin). set_solver.
Qed.

End link.

(** ** Releasing a job *)

Lemma unlinkTails_lookup p l t id :
  unlinkTails p l t !! id = if decide (id ∈ l ∧ t !! id = Some p) then None else t !! id.
Proof.
  unfold unlinkTails. revert t. induction l as [|x l IH]; intros t; cbn [foldl].
  { rewrite decide_False; [done|]. intros [H _]. by apply elem_of_nil in H. }
  rewrite IH. case_bool_decide as Hx.
  - destruct (decide (id = x)) as [->|Hne].
    + rewrite lookup_delete_eq, (decide_False (P := x ∈ l ∧ _)) by naive_solver.
      rewrite decide_True; [done|]. split; [left|done].
    + rewrite lookup_delete_ne by done. apply decide_ext. rewrite elem_of_cons. naive_solver.
  - apply decide_ext. rewrite elem_of_cons. naive_solver.
Qed.

Lemma releaseOne_heap Q n : heap (releaseOne Q n) = alter (λ j, set_predecessors (predecessors j - 1) j) n (heap Q).
Proof. unfold releaseOne, enqueueReady. by case_match. Qed.
Lemma releaseOne_tails Q n : tails (releaseOne Q n) = tails Q.
Proof. unfold releaseOne, enqueueReady. by case_match. Qed.

Lemma release_tails l Q : tails (foldl releaseOne Q l) = tails Q.
Proof. revert Q. induction l as [|n l IH]; intros Q; [done|]. simpl. by rewrite IH, releaseOne_tails. Qed.

Lemma release_jobAt l Q x : NoDup l → Forall (λ n, is_Some (heap Q !! n)) l →
  jobAt (heap (foldl releaseOne Q l)) x =
  if decide (x ∈ l) then set_predecessors (predecessors (jobAt (heap Q) x) - 1) (jobAt (heap Q) x)
  else jobAt (heap Q) x.
Proof.
  revert Q. induction l as [|n l IH]; intros Q; [done|]. intros [Hn Hl]%NoDup_cons [Hq Hf]%Forall_cons. simpl.
  rewrite IH, releaseOne_heap; [|done|].
  - rewrite jobAt_alter by done. destruct (decide (x = n)) as [->|Hx].
    + rewrite decide_False by done. by rewrite decide_True by set_solver.
    + case_decide as Hin; case_decide as Hin'; [done|set_solver..|done].
  - eapply Forall_impl; [exact Hf|]. intros m Hm. rewrite releaseOne_heap. by apply is_Some_alter.
Qed.

Lemma release_dom l Q x : is_Some (heap (foldl releaseOne Q l) !! x) ↔ is_Some (heap Q !! x).
Proof.
  revert Q. induction l as [|n l IH]; intros Q; [done|]. simpl. rewrite IH, releaseOne_heap. apply is_Some_alter.
Qed.

Section release.
Context (p : jobp) (l : list Z) (q : pendings).
Context (Hn : NoDup q.*1) (Hp : (p, l) ∈ q) (Hfree : ∀ a, ¬ edge q a p).

Lemma chain_ids id : p ∈ chain q id → id ∈ l.
Proof. intros (l' & Hl' & Hid)%elem_of_chain. by pose proof (fst_unique _ _ _ Hn Hp Hl' eq_refl) as [= ->]. Qed.

Lemma chain_release id :
  (chain q id = p :: chain (without p q) id) ∨
  ((p ∉ chain q id) ∧ chain (without p q) id = chain q id).
Proof.
  destruct (decide (p ∈ chain q id)) as [Hin|Hin].
  - left. destruct (no_adj_head _ _ Hin) as (k & Hk); [intros a Ha; apply (Hfree a); by exists id|].
    rewrite chain_without, Hk, unlink_head; [done|]. rewrite <- Hk. by apply chain_NoDup.
  - right. by rewrite chain_without, unlink_notin.
Qed.

Lemma edge_release a b : edge (without p q) a b ↔ edge q a b ∧ a ≠ p.
Proof.
  unfold edge. split.
  - intros (id & H). pose proof (chain_NoDup q id Hn) as Hd. destruct (chain_release id) as [E|[Hid E]].
    + rewrite E in Hd. apply (adj_tail p _ _ _ Hd) in H as [H Ha]. rewrite <- E in H. eauto.
    + rewrite E in H. split; [eauto|]. intros ->. by apply adj_in_l in H.
  - intros [(id & H) Ha]. exists id. pose proof (chain_NoDup q id Hn) as Hd.
    destruct (chain_release id) as [E|[Hid E]]; [|by rewrite E].
    rewrite E in Hd, H. by apply (adj_tail p _ _ _ Hd).
Qed.

Lemma tail_release t id : (∀ id, t !! id = last (chain q id)) →
  unlinkTails p l t !! id = last (chain (without p q) id).
Proof.
  intros Ht. rewrite unlinkTails_lookup, Ht. pose proof (chain_NoDup q id Hn) as Hd.
  destruct (chain_release id) as [E|[Hid E]].
  - rewrite E in *. apply NoDup_cons in Hd as [Hd _].
    assert (id ∈ l) by (apply chain_ids; rewrite E; left).
    destruct (chain (without p q) id) as [|y k] eqn:Ek; simpl; [by rewrite decide_True|].
    rewrite decide_False; [done|]. intros [_ Hl]. by apply last_Some_elem_of in Hl.
  - rewrite E, decide_False; [done|]. intros [_ Hl]. by apply last_Some_elem_of in Hl.
Qed.

End release.

Lemma release_ordered p l q Q :
  ordered (heap Q) (tails Q) q → (p, l) ∈ q → ids (job Q p) = l → predecessors (job Q p) = 0 →
  ordered (heap (releaseIDsLocked p Q)) (tails (releaseIDsLocked p Q)) (without p q).
Proof.
  intros Ho Hp Hl Hz. pose proof (fst_in _ _ Hp) as Hp1. simpl in Hp1.
  destruct Ho as [H1 H2 H3 H4 H5 H6].
  assert (Hfree : ∀ a, ¬ edge q a p).
  { intros a Ha. destruct (H6 p Hp1) as (ps & _ & Hps & Hc). apply Hps in Ha.
    rewrite job_heap in Hz. rewrite Hz in Hc. symmetry in Hc. apply zlen_zero_nil in Hc as ->. set_solver. }
  assert (Hsucc : Forall (λ n, is_Some (heap Q !! n)) (successors (job Q p))).
  { apply Forall_forall. intros n Hn. apply H2. rewrite job_heap, H4 in Hn by done. by apply edge_in in Hn as [_ ?]. }
  unfold releaseIDsLocked. rewrite release_tails. simpl. rewrite Hl.
  assert (Hat := λ x, release_jobAt (successors (job Q p))
    (set_tails (unlinkTails p l (tails Q)) Q) x (H5 p Hp1) Hsucc). simpl in Hat.
  constructor.
  - by apply NoDup_fst_filter.
  - intros x [Hx _]%elem_of_without. rewrite release_dom. auto.
  - intros id. by apply tail_release.
  - intros a b [Ha Hap]%elem_of_without. rewrite Hat, (edge_release p q) by done.
    rewrite <- H4 by done. case_decide; simpl; tauto.
  - intros a [Ha Hap]%elem_of_without. rewrite Hat. case_decide; simpl; auto.
  - intros b [Hb Hbp]%elem_of_without. destruct (H6 b Hb) as (ps & Hn & Hps & Hc).
    exists (unlink p ps). split; [by apply NoDup_filter|]. split.
    { intros a. unfold unlink. rewrite list_elem_of_filter, Hps, (edge_release p q) by done. tauto. }
    rewrite Hat. rewrite job_heap. case_decide as Hin; simpl; rewrite Hc.
    + apply H4, Hps in Hin; [|done]. apply list_elem_of_split in Hin as (k1 & k2 & ->).
      apply NoDup_app in Hn as (_ & Hk & [Hk2 _]%NoDup_cons). unfold unlink.
      rewrite filter_app, filter_cons_False by auto. fold (unlink p k1) (unlink p k2).
      rewrite !unlink_notin by set_solver. zlia.
    + rewrite unlink_notin; [done|]. intros Hps'. by apply Hin, H4, Hps.
Qed.
