(* ===== verification/NestQueueInv.v ===== *)
(** * Invariant of the dispatch queue

    Every pending job is in exactly one place (waiting, continuation queue, a
    worker, a claim of a batch); the counters count the lists; the ready lists
    are the waiting jobs without predecessor.  Every operation of the queue
    keeps this and moves the specification of [NestOrder]. *)

From S2P Require Import Prelude NestJob NestQueue NestOrder.

(** ** Frames *)

Lemma lanes_updLane l f Q l' :
  lanes (updLane l f Q) l' = if decide (l' = l) then f (lanes Q l) else lanes Q l'.
Proof. unfold updLane. simpl. case_bool_decide; case_decide; done. Qed.

(** What a job keeps while only its dependencies change. *)
Definition jframe (j j' : dispatchJob) : Prop :=
  tryBatch j' = tryBatch j ∧ ids j' = ids j ∧ lane j' = lane j ∧ continuation j' = continuation j.
(** What a lane keeps while only its ready lists, its workers' wake-ups and
    its statistics change. *)
Definition lframe (s s' : dispatchLane) : Prop :=
  waiting s' = waiting s ∧ queued s' = queued s ∧ continuations s' = continuations s ∧
  continuationCount s' = continuationCount s ∧ continuationRunning s' = continuationRunning s ∧
  running s' = running s ∧ config s' = config s ∧ preferContinuation s' = preferContinuation s.

Record frame (Q Q' : dispatchQueue) : Prop := mkFrame {
  f_lane : ∀ l, lframe (lanes Q l) (lanes Q' l);
  f_job : ∀ p, jframe (job Q p) (job Q' p);
  f_dom : ∀ p, is_Some (heap Q' !! p) ↔ is_Some (heap Q !! p);
  f_pending : pending Q' = pending Q;
  f_await : awaitReserved Q' = awaitReserved Q;
  f_started : started Q' = started Q;
  f_stopping : stopping Q' = stopping Q;
  f_wg : wg Q' = wg Q;
  f_batches : batches Q' = batches Q;
  f_fresh : fresh Q' = fresh Q
}.

#[export] Instance frame_preorder : PreOrder frame.
Proof.
  split.
  - intros Q. by constructor.
  - intros Q1 Q2 Q3 [] []. constructor; try congruence.
    + intros l. destruct (f_lane0 l) as (?&?&?&?&?&?&?&?), (f_lane1 l) as (?&?&?&?&?&?&?&?). repeat split; congruence.
    + intros p. destruct (f_job0 p) as (?&?&?&?), (f_job1 p) as (?&?&?&?). repeat split; congruence.
    + intros p. by rewrite f_dom1.
Qed.

Lemma frame_updLane l f Q : (∀ s, lframe s (f s)) → frame Q (updLane l f Q).
Proof.
  intros Hf. constructor; try done. intros l'. rewrite lanes_updLane. case_decide; [subst; apply Hf|done].
Qed.

Lemma frame_updJob p f Q : (∀ j, jframe j (f j)) → frame Q (updJob p f Q).
Proof.
  intros Hf. constructor; try done.
  - intros x. unfold job. simpl. destruct (decide (x = p)) as [->|Hx].
    + rewrite lookup_alter_eq. destruct (heap Q !! p); simpl; [apply Hf|done].
    + by rewrite lookup_alter_ne.
  - intros x. apply is_Some_alter.
Qed.

Lemma frame_tails t Q : frame Q (set_tails t Q).
Proof. by constructor. Qed.

Lemma frame_enqueueReady l p Q : frame Q (enqueueReady l p Q).
Proof. apply frame_updLane. intros s. by destruct (tryBatch (job Q p)). Qed.
Lemma frame_notePeak l Q : frame Q (notePeak l Q).
Proof. by apply frame_updLane. Qed.
Lemma frame_noteRejected l Q : frame Q (noteRejected l Q).
Proof. by apply frame_updLane. Qed.
Lemma frame_linkOne p Q id : frame Q (linkOne p Q id).
Proof.
  unfold linkOne. etrans; [|apply frame_tails]. repeat case_match; try done.
  etrans; apply frame_updJob; done.
Qed.
Lemma frame_releaseOne Q n : frame Q (releaseOne Q n).
Proof.
  unfold releaseOne. etrans; [apply (frame_updJob n (λ j, set_predecessors (predecessors j - 1) j)); done|].
  case_match; [apply frame_enqueueReady|done].
Qed.
Lemma frame_foldl {A} (f : dispatchQueue → A → dispatchQueue) l Q :
  (∀ Q x, frame Q (f Q x)) → frame Q (foldl f Q l).
Proof. intros Hf. revert Q. induction l as [|x l IH]; intros Q; [done|]. simpl. etrans; [apply Hf|apply IH]. Qed.
Lemma frame_releaseIDs p Q : frame Q (releaseIDsLocked p Q).
Proof. unfold releaseIDsLocked. etrans; [apply frame_tails|]. apply frame_foldl, frame_releaseOne. Qed.
Lemma frame_wakeAll Q : frame Q (wakeAll Q).
Proof. apply frame_foldl. intros ??. by apply frame_updLane. Qed.

Create HintDb nest_frame.
#[export] Hint Resolve frame_tails frame_enqueueReady frame_notePeak frame_noteRejected frame_linkOne
  frame_releaseOne frame_releaseIDs frame_wakeAll : nest_frame.

(** ** The invariant of the lanes *)

Abbreviation actives := (list (LaneId * jobp)).

(** The jobs that workers of lane [l] execute, continuations or not. *)
Definition active (J : jobp → dispatchJob) (A : actives) (l : LaneId) (c : bool) : actives :=
  filter (λ x, fst x = l ∧ continuation (J (snd x)) = c) A.

(** [due]: jobs that have just become ready and are not enqueued yet. *)
Record lane_ok (J : jobp → dispatchJob) (A : actives) (due : list jobp) (l : LaneId) (s : dispatchLane) : Prop := mkLaneOk {
  k_queued : queued s = zlen (waiting s);
  k_ready : readyCount s = zlen (ready s) + zlen (tryBatches s);
  k_cont : continuationCount s = zlen (continuations s);
  k_rnodup : NoDup (ready s);
  k_bnodup : NoDup (tryBatches s);
  k_wnodup : NoDup (waiting s);
  k_readyin : ∀ p, p ∈ ready s ↔ p ∈ waiting s ∧ tryBatch (J p) = false ∧ predecessors (J p) = 0 ∧ p ∉ due;
  k_batchin : ∀ p, p ∈ tryBatches s ↔ p ∈ waiting s ∧ tryBatch (J p) = true ∧ predecessors (J p) = 0 ∧ p ∉ due;
  k_waiting : ∀ p, p ∈ waiting s → lane (J p) = l ∧ continuation (J p) = false;
  k_conts : ∀ p, p ∈ continuations s → lane (J p) = l ∧ continuation (J p) = true ∧ l ≠ IO;
  k_running : running s = zlen (active J A l false);
  k_contrun : continuationRunning s = zlen (active J A l true)
}.

Definition lanes_ok (Q : dispatchQueue) (A : actives) (due : list jobp) : Prop :=
  ∀ l, lane_ok (job Q) A due l (lanes Q l).

Lemma active_ext J J' A l c :
  (∀ x, x ∈ A → continuation (J' (snd x)) = continuation (J (snd x))) → active J' A l c = active J A l c.
Proof. intros H. apply filter_ext_in. intros x Hx. by rewrite H. Qed.

(** The lane of a job that is not there sees nothing of it. *)
Lemma lane_ok_ext J J' A due due' l s :
  (∀ p, p ∈ waiting s → jframe (J p) (J' p) ∧ predecessors (J' p) = predecessors (J p) ∧ (p ∈ due ↔ p ∈ due')) →
  (∀ p, continuation (J' p) = continuation (J p)) →
  (∀ p, p ∈ continuations s → lane (J' p) = lane (J p)) →
  lane_ok J A due l s → lane_ok J' A due' l s.
Proof.
  intros Hw Hc Hl []. constructor; try done.
  - intros p. rewrite k_readyin0. split; intros (Hp & H); (split; [done|]); revert H;
      destruct (Hw p Hp) as ((E & _) & E' & Ed); by rewrite E, E', Ed.
  - intros p. rewrite k_batchin0. split; intros (Hp & H); (split; [done|]); revert H;
      destruct (Hw p Hp) as ((E & _) & E' & Ed); by rewrite E, E', Ed.
  - intros p Hp. destruct (Hw p Hp) as ((_ & _ & -> & ->) & _). auto.
  - intros p Hp. rewrite Hc, Hl by done. auto.
  - by rewrite (active_ext J).
  - by rewrite (active_ext J).
Qed.

(** The part of a lane the invariant speaks of. *)
Definition lview (s : dispatchLane) :=
  (waiting s, queued s, continuations s, continuationCount s, continuationRunning s, (ready s, tryBatches s, readyCount s, running s)).

Lemma lane_ok_view J A due l s s' : lview s' = lview s → lane_ok J A due l s → lane_ok J A due l s'.
Proof. intros [= E1 E2 E3 E4 E5 E6 E7 E8 E9] []. by constructor; rewrite ?E1, ?E2, ?E3, ?E4, ?E5, ?E6, ?E7, ?E8, ?E9. Qed.

(** ** Becoming ready *)

Lemma NoDup_snoc {A} (l : list A) x : NoDup l → x ∉ l → NoDup (l ++ [x]).
Proof. intros Hl Hx. apply NoDup_app. split; [done|]. split; [set_solver|apply NoDup_singleton]. Qed.

Lemma enqueue_lanes l p Q A :
  lanes_ok Q A [p] → p ∈ waiting (lanes Q l) → predecessors (job Q p) = 0 →
  lanes_ok (enqueueReady l p Q) A [].
Proof.
  intros Hok Hp Hz l'. unfold enqueueReady. rewrite lanes_updLane. case_decide as El.
  - subst l'. destruct (Hok l). change (job (updLane _ _ _)) with (job Q).
    destruct (tryBatch (job Q p)) eqn:Eb; constructor; simpl; try done; try zlia; try intros x;
      rewrite ?elem_of_snoc, ?k_readyin0, ?k_batchin0, ?list_elem_of_singleton, ?elem_of_nil;
      try (destruct (decide (x = p)) as [->|]; [rewrite ?Eb; intuition congruence|tauto]).
    + apply NoDup_snoc; [done|]. rewrite k_batchin0, list_elem_of_singleton. tauto.
    + apply NoDup_snoc; [done|]. rewrite k_readyin0, list_elem_of_singleton. tauto.
  - apply (lane_ok_ext (job Q) _ _ [p]); [|done..|apply Hok].
    intros x Hx. split; [done|]. split; [done|]. apply (k_waiting _ _ _ _ _ (Hok l')) in Hx as [Hx _].
    apply (k_waiting _ _ _ _ _ (Hok l)) in Hp as [Hp _]. rewrite list_elem_of_singleton, elem_of_nil.
    split; [intros ->; congruence|done].
Qed.

Lemma job_updJob p f Q x : is_Some (heap Q !! p) →
  job (updJob p f Q) x = if decide (x = p) then f (job Q p) else job Q x.
Proof. apply jobAt_alter. Qed.

(** One predecessor less: the job is due if it was the last. *)
Lemma dec_lanes l n Q A :
  lanes_ok Q A [] → is_Some (heap Q !! n) → n ∈ waiting (lanes Q l) → 0 < predecessors (job Q n) →
  lanes_ok (updJob n (λ j, set_predecessors (predecessors j - 1) j) Q) A
    (if predecessors (job Q n) - 1 =? 0 then [n] else []).
Proof.
  intros Hok Hh Hn Hpos l'. specialize (Hok l') as Hok'. simpl.
  set (Q' := updJob n _ Q). assert (HJ : ∀ x, job Q' x = if decide (x = n)
    then set_predecessors (predecessors (job Q n) - 1) (job Q n) else job Q x) by (intros x; unfold Q'; by rewrite job_updJob).
  assert (Hj : ∀ x, jframe (job Q x) (job Q' x)) by (intros x; rewrite HJ; case_decide; by subst).
  destruct Hok'. constructor; try done.
  - intros x. rewrite k_readyin0. destruct (Hj x) as (-> & _). rewrite HJ.
    destruct (decide (x = n)) as [->|Hx]; simpl; [|case_match; rewrite ?list_elem_of_singleton, elem_of_nil; tauto].
    destruct (predecessors (job Q n) - 1 =? 0) eqn:E; to_prop; rewrite ?list_elem_of_singleton; intuition lia.
  - intros x. rewrite k_batchin0. destruct (Hj x) as (-> & _). rewrite HJ.
    destruct (decide (x = n)) as [->|Hx]; simpl; [|case_match; rewrite ?list_elem_of_singleton, elem_of_nil; tauto].
    destruct (predecessors (job Q n) - 1 =? 0) eqn:E; to_prop; rewrite ?list_elem_of_singleton; intuition lia.
  - intros p Hp. destruct (Hj p) as (_ & _ & -> & ->). auto.
  - intros p Hp. destruct (Hj p) as (_ & _ & -> & ->). auto.
  - rewrite (active_ext (job Q)); [done|]. intros x _. apply Hj.
  - rewrite (active_ext (job Q)); [done|]. intros x _. apply Hj.
Qed.

Lemma releaseOne_lanes n Q A :
  lanes_ok Q A [] → is_Some (heap Q !! n) → n ∈ waiting (lanes Q (lane (job Q n))) → 0 < predecessors (job Q n) →
  lanes_ok (releaseOne Q n) A [].
Proof.
  intros Hok Hh Hn Hpos. pose proof (dec_lanes _ _ _ _ Hok Hh Hn Hpos) as Hd. unfold releaseOne.
  rewrite job_updJob, decide_True by done. simpl. destruct (predecessors (job Q n) - 1 =? 0) eqn:E; [|done].
  apply enqueue_lanes; [done|done|]. rewrite job_updJob, decide_True by done. simpl. by to_prop.
Qed.

Lemma releaseMany_lanes l Q A :
  lanes_ok Q A [] → NoDup l →
  (∀ n, n ∈ l → is_Some (heap Q !! n) ∧ n ∈ waiting (lanes Q (lane (job Q n))) ∧ 0 < predecessors (job Q n)) →
  lanes_ok (foldl releaseOne Q l) A [].
Proof.
  revert Q. induction l as [|n l IH]; intros Q Hok Hnd Hl; [done|]. apply NoDup_cons in Hnd as [Hn Hnd]. simpl.
  destruct (Hl n) as (Hh & Hw & Hpos); [left|]. apply IH; [by apply releaseOne_lanes|done|].
  intros m Hm. destruct (Hl m) as (Hh' & Hw' & Hpos'); [by right|].
  destruct (frame_releaseOne Q n). split; [by apply f_dom0|].
  destruct (f_job0 m) as (_ & _ & -> & _). destruct (f_lane0 (lane (job Q m))) as (-> & _). split; [done|].
  rewrite job_heap, releaseOne_heap, jobAt_alter by done. rewrite decide_False by (intros ->; done). done.
Qed.

(** ** The invariant *)

Definition places (Q : dispatchQueue) (A : actives) (C : list jobp) : list jobp :=
  waiting (lanes Q Short) ++ waiting (lanes Q IO) ++ waiting (lanes Q Long) ++
  continuations (lanes Q Short) ++ continuations (lanes Q IO) ++ continuations (lanes Q Long) ++ A.*2 ++ C.

(** [A]: what the workers execute; [C]: the claims held; [X]: the jobs an
    operation has taken from one place and not yet put into another; [q]: the
    pending jobs in the order of their registration. *)
Record qinv (Q : dispatchQueue) (A : actives) (C X : list jobp) (q : pendings) : Prop := mkQInv {
  i_ord : ordered (heap Q) (tails Q) q;
  i_ids : ∀ p l, (p, l) ∈ q → ids (job Q p) = l ∧ NoDup l;
  i_place : q.*1 ≡ₚ X ++ places Q A C;
  i_lanes : lanes_ok Q A [];
  i_active : ∀ l p, (l, p) ∈ A → lane (job Q p) = l ∧ predecessors (job Q p) = 0;
  i_claim : ∀ c, c ∈ C → predecessors (job Q c) = 0 ∧ tryBatch (job Q c) = false ∧ continuation (job Q c) = false;
  i_noids : ∀ p, p ∈ q.*1 → tryBatch (job Q p) || continuation (job Q p) = true → ids (job Q p) = [];
  i_fresh : ∀ p, is_Some (heap Q !! p) → (p < fresh Q)%N
}.

Lemma places_frame Q Q' A C : (∀ l, lframe (lanes Q l) (lanes Q' l)) → places Q' A C = places Q A C.
Proof.
  intros H. unfold places. destruct (H Short) as (-> & _ & -> & _), (H IO) as (-> & _ & -> & _), (H Long) as (-> & _ & -> & _).
  done.
Qed.

Lemma elem_of_places Q A C x :
  x ∈ places Q A C ↔ (∃ l, x ∈ waiting (lanes Q l)) ∨ (∃ l, x ∈ continuations (lanes Q l)) ∨ x ∈ A.*2 ∨ x ∈ C.
Proof.
  unfold places. rewrite !elem_of_app. split.
  - intros [?|[?|[?|[?|[?|[?|[?|?]]]]]]]; eauto 6.
  - intros [[[] ?]|[[[] ?]|[?|?]]]; tauto.
Qed.

Section facts.
Context {Q : dispatchQueue} {A : actives} {C X : list jobp} {q : pendings} (H : qinv Q A C X q).

Lemma q_nodup : NoDup (X ++ places Q A C).
Proof. rewrite <- (i_place _ _ _ _ _ H). apply (o_nodup _ _ _ (i_ord _ _ _ _ _ H)). Qed.

Lemma q_pending p : p ∈ q.*1 ↔ p ∈ X ∨ p ∈ places Q A C.
Proof. by rewrite (i_place _ _ _ _ _ H), elem_of_app. Qed.

Lemma q_waiting l p : p ∈ waiting (lanes Q l) → p ∈ q.*1.
Proof. intros Hp. apply q_pending. right. apply elem_of_places. eauto. Qed.
Lemma q_continuing l p : p ∈ continuations (lanes Q l) → p ∈ q.*1.
Proof. intros Hp. apply q_pending. right. apply elem_of_places. eauto. Qed.
Lemma q_active l p : (l, p) ∈ A → p ∈ q.*1.
Proof.
  intros Hp. apply q_pending. right. apply elem_of_places. right. right. left.
  apply list_elem_of_fmap. by exists (l, p).
Qed.
Lemma q_claim p : p ∈ C → p ∈ q.*1.
Proof. intros Hp. apply q_pending. right. apply elem_of_places. eauto. Qed.

Lemma q_heap p : p ∈ q.*1 → is_Some (heap Q !! p).
Proof. apply (i_ord _ _ _ _ _ H). Qed.
Lemma q_lt p : p ∈ q.*1 → (p < fresh Q)%N.
Proof. intros Hp. by apply (i_fresh _ _ _ _ _ H), q_heap. Qed.

Lemma q_entry p : p ∈ q.*1 → (p, ids (job Q p)) ∈ q.
Proof.
  intros ([x l] & -> & Hp)%list_elem_of_fmap. simpl. by destruct (i_ids _ _ _ _ _ H _ _ Hp) as [-> _].
Qed.

(** A job without ids waits for nobody and nobody for it. *)
Lemma no_ids_no_edge p a : p ∈ q.*1 → ids (job Q p) = [] → ¬ edge q a p ∧ ¬ edge q p a.
Proof.
  intros Hp Hids. assert (Hc : ∀ id, p ∉ chain q id).
  { intros id (l & Hl & Hid)%elem_of_chain. apply (i_ids _ _ _ _ _ H) in Hl as [Hl _]. rewrite Hids in Hl. subst. set_solver. }
  split; intros (id & E); [apply adj_in_r in E|apply adj_in_l in E]; by eapply Hc.
Qed.

Lemma edge_blocked a b : edge q a b → 0 < predecessors (job Q b).
Proof.
  intros He. destruct (o_preds _ _ _ (i_ord _ _ _ _ _ H) b) as (ps & _ & Hps & Hc); [by apply edge_in in He as [_ ?]|].
  rewrite job_heap, Hc. apply Hps in He. destruct ps; [set_solver|zlia].
Qed.

Lemma no_edge_free b : b ∈ q.*1 → (∀ a, ¬ edge q a b) → predecessors (job Q b) = 0.
Proof.
  intros Hb He. destruct (o_preds _ _ _ (i_ord _ _ _ _ _ H) b Hb) as (ps & _ & Hps & Hc).
  rewrite job_heap, Hc. destruct ps as [|a ps]; [done|]. destruct (He a). apply Hps. left.
Qed.

Lemma preds_nonneg b : b ∈ q.*1 → 0 ≤ predecessors (job Q b).
Proof.
  intros Hb. destruct (o_preds _ _ _ (i_ord _ _ _ _ _ H) b Hb) as (ps & _ & Hps & Hc). rewrite job_heap, Hc. zlia.
Qed.

Lemma continuation_free p l : p ∈ continuations (lanes Q l) → predecessors (job Q p) = 0.
Proof.
  intros Hp. assert (Hq := q_continuing _ _ Hp). apply no_edge_free; [done|]. intros a.
  refine (proj1 (no_ids_no_edge p a Hq _)). apply (i_noids _ _ _ _ _ H); [done|].
  apply (k_conts _ _ _ _ _ (i_lanes _ _ _ _ _ H l)) in Hp as (_ & -> & _). by rewrite orb_true_r.
Qed.

(** A free job comes after nobody it shares a target with. *)
Lemma free_runnable p l : (p, l) ∈ q → predecessors (job Q p) = 0 → ∀ e, before q e (p, l) → ¬ conflict (snd e) l.
Proof.
  intros Hp Hz. apply heads_runnable; [apply (i_ord _ _ _ _ _ H)|].
  intros id Hid. apply no_adj_head; [apply elem_of_chain; eauto|].
  intros a Ha. assert (He : edge q a p) by (by exists id). apply edge_blocked in He. lia.
Qed.

(** A blocked job is waiting. *)
Lemma blocked_waits b : b ∈ q.*1 → b ∉ X → 0 < predecessors (job Q b) → b ∈ waiting (lanes Q (lane (job Q b))).
Proof.
  intros Hb HX Hpos. apply q_pending in Hb as [?|Hb]; [done|]. apply elem_of_places in Hb as [[l Hw]|[[l Hc]|[Ha|Hc]]].
  - by destruct (k_waiting _ _ _ _ _ (i_lanes _ _ _ _ _ H l) b Hw) as [-> _].
  - apply continuation_free in Hc. lia.
  - apply list_elem_of_fmap in Ha as ([l p] & -> & Ha). apply (i_active _ _ _ _ _ H) in Ha as [_ Ha]. simpl in *. lia.
  - apply (i_claim _ _ _ _ _ H) in Hc as [Hc _]. lia.
Qed.

End facts.

(** ** Operations *)

(** A frame that keeps the ready lists and the predecessors keeps the
    invariant. *)
Lemma qinv_frame Q Q' A C X q :
  qinv Q A C X q → frame Q Q' → tails Q' = tails Q →
  (∀ p, successors (job Q' p) = successors (job Q p) ∧ predecessors (job Q' p) = predecessors (job Q p)) →
  (∀ l, ready (lanes Q' l) = ready (lanes Q l) ∧ tryBatches (lanes Q' l) = tryBatches (lanes Q l) ∧
        readyCount (lanes Q' l) = readyCount (lanes Q l)) →
  qinv Q' A C X q.
Proof.
  intros [H1 H2 H3 H4 H5 H6 H7 H8] [] Ht Hj Hl. constructor.
  - rewrite Ht. apply (ordered_ext (heap Q)); [|done]. intros p Hp. split; [|apply Hj].
    apply f_dom0. by apply H1.
  - intros p l Hp. destruct (f_job0 p) as (_ & -> & _). auto.
  - by rewrite (places_frame Q).
  - intros l. specialize (H4 l). destruct (f_lane0 l) as (Ew & Eq & Ec & Ecc & Ecr & Er & _), (Hl l) as (Ey & Eb & En).
    apply (lane_ok_ext (job Q) _ _ []).
    + intros p _. split; [apply f_job0|]. by split; [apply Hj|].
    + intros p. by destruct (f_job0 p) as (_ & _ & _ & ->).
    + intros p _. by destruct (f_job0 p) as (_ & _ & -> & _).
    + destruct H4. by constructor; rewrite ?Ew, ?Eq, ?Ec, ?Ecc, ?Ecr, ?Er, ?Ey, ?Eb, ?En.
  - intros l p Hp. destruct (f_job0 p) as (_ & _ & -> & _), (Hj p) as [_ ->]. auto.
  - intros p Hp. destruct (f_job0 p) as (-> & _ & _ & ->), (Hj p) as [_ ->]. auto.
  - intros p Hp. destruct (f_job0 p) as (-> & -> & _ & ->). auto.
  - intros p Hp. rewrite f_fresh0. apply H8. by apply f_dom0.
Qed.

Lemma job_alloc j Q x : job (snd (alloc j Q)) x = if decide (x = fresh Q) then j else job Q x.
Proof.
  unfold job. simpl. destruct (decide (x = fresh Q)) as [->|Hx].
  - by rewrite lookup_insert_eq.
  - by rewrite lookup_insert_ne.
Qed.

Lemma qinv_alloc j Q A C X q : qinv Q A C X q → qinv (snd (alloc j Q)) A C X q.
Proof.
  intros H. assert (Hj : ∀ p, p ∈ q.*1 → job (snd (alloc j Q)) p = job Q p).
  { intros p Hp. rewrite job_alloc, decide_False; [done|]. intros ->. apply (q_lt H) in Hp. lia. }
  destruct H as [H1 H2 H3 H4 H5 H6 H7 H8] eqn:E. constructor.
  - apply (ordered_ext (heap Q)); [|done]. intros p Hp. rewrite <- !job_heap, Hj by done. split; [|done].
    simpl. rewrite lookup_insert_is_Some'. right. by apply (q_heap H).
  - intros p l Hp. rewrite Hj by by apply (fst_in _ _ Hp). auto.
  - done.
  - intros l. assert (HA : ∀ x, x ∈ A → job (snd (alloc j Q)) (snd x) = job Q (snd x)).
    { intros [l' x] Hx. apply Hj. by apply (q_active H) in Hx. }
    destruct (H4 l). constructor; try done.
    + intros p. rewrite k_readyin0. split; intros (Hp & ?); rewrite Hj in *; by eauto using q_waiting.
    + intros p. rewrite k_batchin0. split; intros (Hp & ?); rewrite Hj in *; by eauto using q_waiting.
    + intros p Hp. rewrite Hj by (by eapply (q_waiting H)). auto.
    + intros p Hp. rewrite Hj by (by eapply (q_continuing H)). auto.
    + rewrite (active_ext (job Q)); [done|]. intros x Hx. by rewrite HA.
    + rewrite (active_ext (job Q)); [done|]. intros x Hx. by rewrite HA.
  - intros l p Hp. rewrite Hj by by apply (q_active H) in Hp. auto.
  - intros p Hp. rewrite Hj by by apply (q_claim H) in Hp. auto.
  - intros p Hp. rewrite Hj by done. auto.
  - simpl. intros p. rewrite lookup_insert_is_Some'. intros [->|Hp]; [lia|]. apply H8 in Hp. lia.
Qed.

Lemma linkOne_preds p Q id x : x ≠ p → predecessors (job (linkOne p Q id) x) = predecessors (job Q x).
Proof.
  intros Hx. unfold linkOne, job. simpl. destruct (tails Q !! id) as [prev|]; [|done].
  case_bool_decide; [done|]. simpl. rewrite lookup_alter_ne by done.
  destruct (decide (x = prev)) as [->|Hj].
  - rewrite lookup_alter_eq. by destruct (heap Q !! prev).
  - by rewrite lookup_alter_ne.
Qed.

Lemma linkMany_preds p l Q x : x ≠ p → predecessors (job (foldl (linkOne p) Q l) x) = predecessors (job Q x).
Proof.
  intros Hx. revert Q. induction l as [|id l IH]; intros Q; [done|]. simpl. by rewrite IH, linkOne_preds.
Qed.

Lemma linkOne_lanes p Q id : lanes (linkOne p Q id) = lanes Q.
Proof. unfold linkOne. by repeat case_match. Qed.
Lemma linkMany_lanes p l Q : lanes (foldl (linkOne p) Q l) = lanes Q.
Proof. revert Q. induction l as [|id l IH]; intros Q; [done|]. simpl. by rewrite IH, linkOne_lanes. Qed.

(** Registering a new job under its ids. *)
Lemma qinv_link p Q A C X q :
  qinv Q A C X q → is_Some (heap Q !! p) → p ∉ q.*1 →
  successors (job Q p) = [] → predecessors (job Q p) = 0 → NoDup (ids (job Q p)) →
  (tryBatch (job Q p) || continuation (job Q p) = true → ids (job Q p) = []) →
  qinv (foldl (linkOne p) Q (ids (job Q p))) A C (p :: X) (q ++ [(p, ids (job Q p))]).
Proof.
  intros H Hh Hp Hs Hz Hn Hno. set (l := ids (job Q p)) in *. set (Q' := foldl (linkOne p) Q l).
  assert (HF : frame Q Q') by (apply frame_foldl; auto with nest_frame).
  assert (Hne : ∀ x, x ∈ q.*1 → x ≠ p) by (intros x ? ->; done).
  assert (HQ : ∀ x, x ∈ q.*1 → predecessors (job Q' x) = predecessors (job Q x)).
  { intros x Hx. apply linkMany_preds. auto. }
  destruct HF. constructor.
  - refine (proj1 (links_linked p q [] l Q _ Hn Hp)). split.
    + by apply ordered_join; [apply H|..].
    + intros a Ha Hin. exfalso. rewrite job_heap, (o_succ _ _ _ (i_ord _ _ _ _ _ H)) in Hin by done.
      by apply edge_in in Hin as [_ ?].
  - intros x k [Hx|[= -> ->]]%elem_of_snoc.
    + destruct (f_job0 x) as (_ & -> & _). by apply H.
    + by destruct (f_job0 p) as (_ & -> & _).
  - rewrite fmap_app, (i_place _ _ _ _ _ H), (places_frame Q Q') by done. simpl. solve_Permutation.
  - intros l'. unfold Q'. rewrite linkMany_lanes. fold Q'. apply (lane_ok_ext (job Q) _ _ []); [| | |apply H].
    + intros x Hx%(q_waiting H). by split; [apply f_job0|split; [apply HQ|]].
    + intros x. by destruct (f_job0 x) as (_ & _ & _ & ->).
    + intros x _. by destruct (f_job0 x) as (_ & _ & -> & _).
  - intros l' x Hx. destruct (f_job0 x) as (_ & _ & -> & _). rewrite HQ by by apply (q_active H) in Hx. by apply H.
  - intros x Hx. destruct (f_job0 x) as (-> & _ & _ & ->). rewrite HQ by by apply (q_claim H) in Hx. by apply H.
  - intros x. rewrite fmap_app. destruct (f_job0 x) as (-> & -> & _ & ->).
    intros [Hx| ->]%elem_of_snoc; [by apply H|done].
  - intros x Hx. rewrite f_fresh0. apply H. by apply f_dom0.
Qed.

Lemma places_waiting l p Q Q' A C :
  waiting (lanes Q' l) ≡ₚ p :: waiting (lanes Q l) →
  (∀ l', l' ≠ l → waiting (lanes Q' l') = waiting (lanes Q l')) →
  (∀ l', continuations (lanes Q' l') = continuations (lanes Q l')) →
  places Q' A C ≡ₚ p :: places Q A C.
Proof.
  intros Hl Ho Hc. unfold places. rewrite !Hc. destruct l.
  - rewrite Hl, !(Ho IO), !(Ho Long) by done. solve_Permutation.
  - rewrite Hl, !(Ho Short), !(Ho Long) by done. solve_Permutation.
  - rewrite Hl, !(Ho Short), !(Ho IO) by done. solve_Permutation.
Qed.

Lemma places_conts l p Q Q' A C :
  continuations (lanes Q' l) ≡ₚ p :: continuations (lanes Q l) →
  (∀ l', l' ≠ l → continuations (lanes Q' l') = continuations (lanes Q l')) →
  (∀ l', waiting (lanes Q' l') = waiting (lanes Q l')) →
  places Q' A C ≡ₚ p :: places Q A C.
Proof.
  intros Hl Ho Hc. unfold places. rewrite !Hc. destruct l.
  - rewrite Hl, !(Ho IO), !(Ho Long) by done. solve_Permutation.
  - rewrite Hl, !(Ho Short), !(Ho Long) by done. solve_Permutation.
  - rewrite Hl, !(Ho Short), !(Ho IO) by done. solve_Permutation.
Qed.

(** Putting a job in transit among the waiting ones of its lane, and among
    the ready ones if nobody is before it. *)
Lemma push_lanes l p Q A :
  lanes_ok Q A [] → p ∉ waiting (lanes Q l) → lane (job Q p) = l → continuation (job Q p) = false →
  lanes_ok (pushWaiting l p Q) A (if predecessors (job Q p) =? 0 then [p] else []).
Proof.
  intros Hok Hp Hl Hc l'. unfold pushWaiting. rewrite lanes_updLane. case_decide as El.
  - subst l'. change (job (updLane _ _ _)) with (job Q). destruct (Hok l). constructor; simpl; try done; try zlia.
    + by apply NoDup_snoc.
    + intros x. rewrite elem_of_snoc, k_readyin0. destruct (predecessors (job Q p) =? 0) eqn:E; to_prop;
        rewrite ?list_elem_of_singleton, ?elem_of_nil; (destruct (decide (x = p)) as [->|]; [intuition lia|tauto]).
    + intros x. rewrite elem_of_snoc, k_batchin0. destruct (predecessors (job Q p) =? 0) eqn:E; to_prop;
        rewrite ?list_elem_of_singleton, ?elem_of_nil; (destruct (decide (x = p)) as [->|]; [intuition lia|tauto]).
    + intros x [?| ->]%elem_of_snoc; auto.
  - apply (lane_ok_ext (job Q) _ _ []); [|done..|apply Hok].
    intros x Hx. split; [done|]. split; [done|]. apply (k_waiting _ _ _ _ _ (Hok l')) in Hx as [Hx _].
    case_match; [|done]. rewrite list_elem_of_singleton, elem_of_nil. split; [done|]. intros ->. congruence.
Qed.

(** [pushWaiting] and, when there is no predecessor, [enqueueReady]. *)
Definition pushJob (l : LaneId) (p : jobp) (Q : dispatchQueue) : dispatchQueue :=
  if predecessors (job Q p) =? 0 then enqueueReady l p (pushWaiting l p Q) else pushWaiting l p Q.

Lemma pushJob_lanes l p Q A :
  lanes_ok Q A [] → p ∉ waiting (lanes Q l) → lane (job Q p) = l → continuation (job Q p) = false →
  lanes_ok (pushJob l p Q) A [].
Proof.
  intros Hok Hp Hl Hc. pose proof (push_lanes l p Q A Hok Hp Hl Hc) as Hpush. unfold pushJob.
  destruct (predecessors (job Q p) =? 0) eqn:E; [|done]. to_prop. apply enqueue_lanes; [done| |done].
  unfold pushWaiting. rewrite lanes_updLane, decide_True by done. simpl. set_solver.
Qed.

Lemma pushJob_waiting l p Q l' :
  waiting (lanes (pushJob l p Q) l') = waiting (lanes Q l') ++ (if decide (l' = l) then [p] else []) ∧
  continuations (lanes (pushJob l p Q) l') = continuations (lanes Q l').
Proof.
  assert (H : waiting (lanes (pushWaiting l p Q) l') = waiting (lanes Q l') ++ (if decide (l' = l) then [p] else []) ∧
    continuations (lanes (pushWaiting l p Q) l') = continuations (lanes Q l')).
  { unfold pushWaiting. rewrite lanes_updLane. case_decide; subst; simpl; [done|by rewrite app_nil_r]. }
  unfold pushJob. destruct (predecessors (job Q p) =? 0); [|done]. destruct (frame_enqueueReady l p (pushWaiting l p Q)).
  by destruct (f_lane0 l') as (-> & _ & -> & _).
Qed.

Lemma pushJob_heap l p Q : heap (pushJob l p Q) = heap Q.
Proof. unfold pushJob. by case_match. Qed.

Lemma qinv_push l p Q A C X q :
  qinv Q A C (p :: X) q → lane (job Q p) = l → continuation (job Q p) = false →
  qinv (pushJob l p Q) A C X q.
Proof.
  intros H Hl Hc. pose proof (q_nodup H) as Hn. apply NoDup_cons in Hn as [Hp _].
  assert (HJ : job (pushJob l p Q) = job Q) by (unfold job; by rewrite pushJob_heap).
  assert (HT : tails (pushJob l p Q) = tails Q ∧ fresh (pushJob l p Q) = fresh Q) by (unfold pushJob; by case_match).
  destruct HT as [HT HF]. constructor; rewrite ?HJ, ?HT, ?HF, ?pushJob_heap; try apply H.
  - rewrite (i_place _ _ _ _ _ H). rewrite (places_waiting l p Q (pushJob l p Q) A C); [solve_Permutation|..].
    + destruct (pushJob_waiting l p Q l) as [-> _]. rewrite decide_True by done. solve_Permutation.
    + intros l' Hl'. destruct (pushJob_waiting l p Q l') as [-> _]. by rewrite decide_False, app_nil_r.
    + intros l'. apply pushJob_waiting.
  - apply pushJob_lanes; [apply H| |done..]. intros Hw. apply Hp. apply elem_of_app. right.
    apply elem_of_places. eauto.
Qed.

(** A change of one lane that keeps its waiting and ready jobs. *)
Lemma qinv_updLane l f Q A A' C C' X X' q :
  qinv Q A C X q →
  (∀ p, p ∈ C' → p ∈ C) →
  (∀ l' p, (l', p) ∈ A' → (l', p) ∈ A ∨ (lane (job Q p) = l' ∧ predecessors (job Q p) = 0)) →
  X' ++ places (updLane l f Q) A' C' ≡ₚ X ++ places Q A C →
  lanes_ok (updLane l f Q) A' [] →
  qinv (updLane l f Q) A' C' X' q.
Proof.
  intros [H1 H2 H3 H4 H5 H6 H7 H8] HC HA HP HL. constructor; try done.
  - by rewrite HP.
  - intros l' p [Hp|Hp]%HA; [by apply H5|done].
  - intros p Hp. by apply H6, HC.
Qed.

Lemma active_app J A1 A2 l c : active J (A1 ++ A2) l c = active J A1 l c ++ active J A2 l c.
Proof. apply filter_app. Qed.
Lemma active_one J l p l' c :
  active J [(l, p)] l' c = if decide (l = l' ∧ continuation (J p) = c) then [(l, p)] else [].
Proof. unfold active. rewrite filter_cons. reflexivity. Qed.

(** Another lane does not see the worker come or go. *)
Lemma lane_ok_active J A A' l s :
  active J A' l false = active J A l false → active J A' l true = active J A l true →
  lane_ok J A [] l s → lane_ok J A' [] l s.
Proof. intros E1 E2 []. by constructor; rewrite ?E1, ?E2. Qed.

(** A worker lets go of its job. *)
Definition leaveWorker (l : LaneId) (p : jobp) (Q : dispatchQueue) : dispatchQueue :=
  updLane l (λ s,
    if continuation (job Q p)
    then set_conts (continuations s) (continuationCount s) (continuationRunning s - 1) (preferContinuation s) s
    else set_running (running s - 1) s) Q.

Lemma places_active Q A1 A2 l p C : places Q (A1 ++ (l, p) :: A2) C ≡ₚ p :: places Q (A1 ++ A2) C.
Proof. unfold places. rewrite !fmap_app, fmap_cons. simpl. solve_Permutation. Qed.

Lemma qinv_leave l p Q A1 A2 C X q :
  qinv Q (A1 ++ (l, p) :: A2) C X q → qinv (leaveWorker l p Q) (A1 ++ A2) C (p :: X) q.
Proof.
  intros H. apply (qinv_updLane _ _ _ (A1 ++ (l, p) :: A2) _ C _ X); [done|done|..].
  - intros l' x. rewrite !elem_of_app, elem_of_cons. tauto.
  - rewrite places_active. fold (leaveWorker l p Q).
    replace (places (leaveWorker l p Q) (A1 ++ A2) C) with (places Q (A1 ++ A2) C); [solve_Permutation|].
    unfold places, leaveWorker. rewrite !lanes_updLane. by destruct l, (continuation (job Q p)).
  - intros l'. rewrite lanes_updLane. pose proof (i_lanes _ _ _ _ _ H l') as Hl.
    change (job (updLane _ _ _)) with (job Q).
    assert (E : ∀ c, active (job Q) (A1 ++ (l, p) :: A2) l' c =
      active (job Q) A1 l' c ++ (if decide (l = l' ∧ continuation (job Q p) = c) then [(l, p)] else []) ++ active (job Q) A2 l' c).
    { intros c. change ((l, p) :: A2) with ([(l, p)] ++ A2). by rewrite !active_app, active_one. }
    destruct (decide (l' = l)) as [->|El].
    + destruct Hl. rewrite E in k_running0, k_contrun0.
      destruct (continuation (job Q p)) eqn:Ec;
        [rewrite decide_False in k_running0 by naive_solver; rewrite decide_True in k_contrun0 by done|
         rewrite decide_True in k_running0 by done; rewrite decide_False in k_contrun0 by naive_solver];
        constructor; simpl; rewrite ?active_app; try done; zlia.
    + apply (lane_ok_active _ (A1 ++ (l, p) :: A2)); [..|done]; rewrite E, decide_False, active_app by naive_solver; done.
Qed.

(** A continuation is queued. *)
Lemma qinv_pushCont l p Q A C X q :
  qinv Q A C (p :: X) q → lane (job Q p) = l → continuation (job Q p) = true → l ≠ IO →
  qinv (updLane l (λ s, set_conts (continuations s ++ [p]) (continuationCount s + 1) (continuationRunning s)
                                  (preferContinuation s) s) Q) A C X q.
Proof.
  intros H Hl Hc Hio. apply (qinv_updLane _ _ _ A _ C _ (p :: X)); [done..|tauto| |].
  - set (Q' := updLane _ _ _). rewrite (places_conts l p Q Q' A C); [solve_Permutation|..].
    + unfold Q'. rewrite lanes_updLane, decide_True by done. simpl. solve_Permutation.
    + intros l' Hl'. unfold Q'. by rewrite lanes_updLane, decide_False.
    + intros l'. unfold Q'. rewrite lanes_updLane. case_decide; by subst.
  - intros l'. rewrite lanes_updLane. case_decide as El; [|apply H]. subst l'.
    change (job (updLane _ _ _)) with (job Q). destruct (i_lanes _ _ _ _ _ H l). constructor; simpl; try done; try zlia.
    intros x [?| ->]%elem_of_snoc; auto.
Qed.

Lemma release_job p Q A C X q x : qinv Q A C X q → p ∈ q.*1 →
  job (releaseIDsLocked p Q) x =
  if decide (x ∈ successors (job Q p)) then set_predecessors (predecessors (job Q x) - 1) (job Q x) else job Q x.
Proof.
  intros H Hp. pose proof (i_ord _ _ _ _ _ H) as Ho. unfold releaseIDsLocked.
  rewrite job_heap, release_jobAt; [done|by apply (o_succ_nodup _ _ _ Ho)|].
  apply Forall_forall. intros n Hn. apply (o_succ _ _ _ Ho), edge_in in Hn as [_ Hn]; [|done].
  by apply (q_heap H).
Qed.

(** Whoever is free stays free. *)
Lemma release_free p Q A C X q x : qinv Q A C X q → p ∈ q.*1 → predecessors (job Q x) = 0 →
  job (releaseIDsLocked p Q) x = job Q x.
Proof.
  intros H Hp Hz. rewrite (release_job _ _ _ _ _ _ _ H Hp). rewrite decide_False; [done|].
  intros Hs. apply (o_succ _ _ _ (i_ord _ _ _ _ _ H)), (edge_blocked H) in Hs; [lia|done].
Qed.

(** A job in transit is done: its successors lose a predecessor. *)
Lemma qinv_release p Q A C q :
  qinv Q A C [p] q → predecessors (job Q p) = 0 → qinv (releaseIDsLocked p Q) A C [] (without p q).
Proof.
  intros H Hz. pose proof (q_nodup H) as Hn. apply NoDup_cons in Hn as [Hp Hnd].
  assert (Hin : p ∈ q.*1) by (apply (q_pending H); left; left).
  pose proof (frame_releaseIDs p Q) as HF. pose proof (i_ord _ _ _ _ _ H) as Ho.
  assert (Hperm : (without p q).*1 ≡ₚ places Q A C).
  { apply NoDup_Permutation; [apply NoDup_fst_filter, Ho|done|].
    intros x. rewrite elem_of_without, (q_pending H), list_elem_of_singleton. split; [tauto|].
    intros Hx. split; [by right|]. by intros ->. }
  destruct HF. constructor.
  - eapply release_ordered; [done|by apply (q_entry H)|done..].
  - intros x l [_ Hx]%list_elem_of_filter. destruct (f_job0 x) as (_ & -> & _). by apply H.
  - by rewrite (places_frame Q).
  - apply releaseMany_lanes; [apply H|by apply (o_succ_nodup _ _ _ Ho)|].
    intros n Hn. change (job (set_tails _ _)) with (job Q). change (lanes (set_tails _ _)) with (lanes Q).
    apply (o_succ _ _ _ Ho) in Hn; [|done]. pose proof (edge_blocked H _ _ Hn) as Hpos. apply edge_in in Hn as [_ Hn].
    split; [by apply (q_heap H)|]. split; [|done]. apply (blocked_waits H); [done| |done].
    intros ->%list_elem_of_singleton. lia.
  - intros l x Hx. pose proof (i_active _ _ _ _ _ H _ _ Hx) as [Hl Hx0].
    by rewrite (release_free _ _ _ _ _ _ _ H Hin).
  - intros x Hx. pose proof (i_claim _ _ _ _ _ H _ Hx) as (Hx0 & Hx1 & Hx2).
    by rewrite (release_free _ _ _ _ _ _ _ H Hin).
  - intros x [Hx _]%elem_of_without. destruct (f_job0 x) as (-> & -> & _ & ->). by apply H.
  - intros x. rewrite f_dom0, f_fresh0. apply H.
Qed.

(** ** Taking work *)

Lemma takeExternal_spec s p s' : takeExternal s = Some (p, s') →
  ((ready s = p :: ready s' ∧ tryBatches s' = tryBatches s) ∨ (tryBatches s = p :: tryBatches s' ∧ ready s' = ready s)) ∧
  readyCount s' = readyCount s - 1 ∧ lframe s s' ∧ wake s' = wake s ∧ observation s' = observation s.
Proof.
  unfold takeExternal. intros H. destruct (tryBatches s) as [|b bs] eqn:Eb, (ready s) as [|r rs] eqn:Er;
    [done|..|destruct (preferOrdinary s)]; simpl in H; injection H as <- <-; simpl; rewrite ?Er, ?Eb;
    (split; [tauto|done]).
Qed.

Lemma takeExternal_None s : takeExternal s = None → ready s = [] ∧ tryBatches s = [].
Proof. unfold takeExternal. repeat case_match; done. Qed.

Lemma unlink_length p l : NoDup l → p ∈ l → zlen (unlink p l) = zlen l - 1.
Proof.
  intros Hn (l1 & l2 & ->)%list_elem_of_split. apply NoDup_app in Hn as (Hn1 & Hd & [Hp Hn2]%NoDup_cons).
  unfold unlink. rewrite filter_app, filter_cons_False by auto. fold (unlink p l1) (unlink p l2).
  rewrite !unlink_notin by set_solver. zlia.
Qed.

Lemma elem_of_unlink p l x : x ∈ unlink p l ↔ x ∈ l ∧ x ≠ p.
Proof. unfold unlink. rewrite list_elem_of_filter. tauto. Qed.

Lemma unlink_Permutation p l : NoDup l → p ∈ l → l ≡ₚ p :: unlink p l.
Proof.
  intros Hn Hp. apply NoDup_Permutation; [done| |].
  - apply NoDup_cons. rewrite elem_of_unlink. split; [naive_solver|by apply NoDup_filter].
  - intros x. rewrite elem_of_cons, elem_of_unlink. destruct (decide (x = p)); naive_solver.
Qed.

(** Only lanes changed. *)
Definition same_jobs (Q Q' : dispatchQueue) : Prop :=
  heap Q' = heap Q ∧ tails Q' = tails Q ∧ pending Q' = pending Q ∧ awaitReserved Q' = awaitReserved Q ∧
  started Q' = started Q ∧ stopping Q' = stopping Q ∧ wg Q' = wg Q ∧ batches Q' = batches Q ∧ fresh Q' = fresh Q.

Lemma same_jobs_refl Q : same_jobs Q Q.
Proof. done. Qed.
Lemma same_jobs_job Q Q' : same_jobs Q Q' → job Q' = job Q.
Proof. intros (H & _). unfold job. by rewrite H. Qed.

(** The lane after an external job was taken. *)
Lemma takeReady_lane Q A C X q l p s : qinv Q A C X q → takeExternal (lanes Q l) = Some (p, s) →
  p ∈ waiting (lanes Q l) ∧ predecessors (job Q p) = 0 ∧
  (∀ x, x ∈ ready s ↔ x ∈ ready (lanes Q l) ∧ x ≠ p) ∧ (∀ x, x ∈ tryBatches s ↔ x ∈ tryBatches (lanes Q l) ∧ x ≠ p) ∧
  NoDup (ready s) ∧ NoDup (tryBatches s) ∧ readyCount s = zlen (ready s) + zlen (tryBatches s).
Proof.
  intros H Hs. destruct (takeExternal_spec _ _ _ Hs) as (Hr & Hc & _). destruct (i_lanes _ _ _ _ _ H l).
  rewrite Hc, k_ready0. destruct Hr as [[E ->]|[E ->]].
  - rewrite E in *. apply NoDup_cons in k_rnodup0 as [Hp ?]. destruct (k_readyin0 p) as [Hw _].
    destruct Hw as (Hw & Ht & Hz & _); [left|]. split_and!; try done; [|intros x|zlia].
    + intros x. rewrite elem_of_cons. split; [|tauto]. intros Hx. split; [by right|]. by intros ->.
    + split; [|tauto]. intros Hx. split; [done|]. intros ->. apply k_batchin0 in Hx as (_ & Hx & _). congruence.
  - rewrite E in *. apply NoDup_cons in k_bnodup0 as [Hp ?]. destruct (k_batchin0 p) as [Hw _].
    destruct Hw as (Hw & Ht & Hz & _); [left|]. split_and!; try done; [intros x| |zlia].
    + split; [|tauto]. intros Hx. split; [done|]. intros ->. apply k_readyin0 in Hx as (_ & Hx & _). congruence.
    + intros x. rewrite elem_of_cons. split; [|tauto]. intros Hx. split; [by right|]. by intros ->.
Qed.

Lemma take_lane J A l s0 s p :
  lane_ok J A [] l s0 → p ∈ waiting s0 → lframe s0 s →
  (∀ x, x ∈ ready s ↔ x ∈ ready s0 ∧ x ≠ p) → (∀ x, x ∈ tryBatches s ↔ x ∈ tryBatches s0 ∧ x ≠ p) →
  NoDup (ready s) → NoDup (tryBatches s) → readyCount s = zlen (ready s) + zlen (tryBatches s) →
  lane_ok J (A ++ [(l, p)]) [] l (set_waiting (unlink p (waiting s)) (queued s - 1) (set_running (running s + 1) s)).
Proof.
  intros [] Hw (Ew & Eq & Ec & Ecc & Ecr & Er & _) Hr Hb Hn1 Hn2 Hc. destruct (k_waiting0 p Hw) as [Hlane Hcont].
  constructor; simpl; rewrite ?Ew.
  - rewrite unlink_length by done. lia.
  - done.
  - by rewrite Ec, Ecc.
  - done.
  - done.
  - by apply NoDup_filter.
  - intros x. rewrite Hr, k_readyin0, elem_of_unlink. tauto.
  - intros x. rewrite Hb, k_batchin0, elem_of_unlink. tauto.
  - intros x [Hx _]%elem_of_unlink. auto.
  - rewrite Ec. done.
  - rewrite active_app, active_one, Hcont, decide_True, zlen_app, zlen_cons, zlen_nil by done. lia.
  - rewrite active_app, active_one, Hcont, decide_False, app_nil_r by (by intros [_ ?]). lia.
Qed.

Lemma qinv_takeReady l p Q Q' A C X q :
  qinv Q A C X q → takeReady l Q = Some (p, Q') →
  qinv Q' (A ++ [(l, p)]) C X q ∧ same_jobs Q Q' ∧ continuation (job Q p) = false ∧ predecessors (job Q p) = 0 ∧
  p ∈ waiting (lanes Q l).
Proof.
  intros H Ht. unfold takeReady in Ht. destruct (takeExternal (lanes Q l)) as [[p' s]|] eqn:Es; [|done].
  injection Ht as -> <-. pose proof (takeReady_lane _ _ _ _ _ _ _ _ H Es) as (Hw & Hz & Hr & Hb & Hn1 & Hn2 & Hc).
  destruct (takeExternal_spec _ _ _ Es) as (_ & _ & Hf & _). pose proof Hf as (Ew & _ & Ec & _).
  set (s' := set_waiting _ _ _). set (Q' := updLane _ _ _).
  assert (Hs' : lanes Q' l = (if isIO l then noteStarted s' else set_conts (continuations (noteStarted s')) (continuationCount (noteStarted s'))
    (continuationRunning (noteStarted s')) true (noteStarted s'))).
  { unfold Q'. by rewrite lanes_updLane, decide_True. }
  pose proof (i_lanes _ _ _ _ _ H l) as Hok. destruct (k_waiting _ _ _ _ _ Hok p Hw) as [Hlane Hcont].
  split; [|done]. apply (qinv_updLane _ _ _ A _ C _ X); [done|done|..].
  - intros l' x [Hx|[= -> ->]]%elem_of_snoc; [by left|by right].
  - fold Q'. rewrite places_active, app_nil_r.
    rewrite <- (places_waiting l p Q' Q A C); [done|..].
    + rewrite Hs'. transitivity (p :: unlink p (waiting (lanes Q l))); [apply unlink_Permutation; [apply Hok|done]|].
      rewrite <- Ew. by destruct l.
    + intros l' Hl'. unfold Q'. by rewrite lanes_updLane, decide_False.
    + intros l'. unfold Q'. rewrite lanes_updLane. destruct (decide (l' = l)) as [->|]; [|done].
      rewrite <- Ec. by destruct l.
  - intros l'. fold Q'. change (job Q') with (job Q). destruct (decide (l' = l)) as [->|Hl'].
    + rewrite Hs'.
      apply (lane_ok_view _ _ _ _ s'); [by destruct l|]. by apply (take_lane _ _ _ (lanes Q l)).
    + unfold Q'. rewrite lanes_updLane, decide_False by done.
      apply (lane_ok_active _ A); [..|apply H]; rewrite active_app, active_one, decide_False, app_nil_r by naive_solver; done.
Qed.

Lemma qinv_view Q Q' A C X q :
  qinv Q A C X q → heap Q' = heap Q → tails Q' = tails Q → fresh Q' = fresh Q →
  (∀ l, lview (lanes Q' l) = lview (lanes Q l)) → qinv Q' A C X q.
Proof.
  intros [H1 H2 H3 H4 H5 H6 H7 H8] E1 E2 E9 Hv.
  assert (HJ : job Q' = job Q) by (unfold job; by rewrite E1).
  constructor; rewrite ?E1, ?E2, ?E9, ?HJ; try done.
  - replace (places Q' A C) with (places Q A C); [done|]. unfold places.
    pose proof (Hv Short) as [= -> _ -> _ _ _ _ _ _]. pose proof (Hv IO) as [= -> _ -> _ _ _ _ _ _].
    by pose proof (Hv Long) as [= -> _ -> _ _ _ _ _ _].
  - intros l. rewrite HJ. by apply (lane_ok_view _ _ _ _ (lanes Q l)).
Qed.

(** The head of the continuation queue goes to a worker. *)
Definition takeCont (l : LaneId) (cs : list jobp) (Q : dispatchQueue) : dispatchQueue :=
  updLane l (λ s, set_conts cs (continuationCount s - 1) (continuationRunning s + 1) false s) Q.

Lemma qinv_takeCont l p cs Q A C X q :
  qinv Q A C X q → continuations (lanes Q l) = p :: cs → qinv (takeCont l cs Q) (A ++ [(l, p)]) C X q.
Proof.
  intros H Hcs. assert (Hp : p ∈ continuations (lanes Q l)) by (rewrite Hcs; left).
  pose proof (i_lanes _ _ _ _ _ H l) as Hok. destruct (k_conts _ _ _ _ _ Hok p Hp) as (Hlane & Hcont & Hio).
  pose proof (continuation_free H _ _ Hp) as Hz. unfold takeCont.
  apply (qinv_updLane _ _ _ A _ C _ X); [done|done|..].
  - intros l' x [Hx|[= -> ->]]%elem_of_snoc; [by left|by right].
  - fold (takeCont l cs Q). rewrite places_active, app_nil_r.
    rewrite <- (places_conts l p (takeCont l cs Q) Q A C); [done|..].
    + unfold takeCont. rewrite lanes_updLane, decide_True by done. simpl. by rewrite Hcs.
    + intros l' Hl'. unfold takeCont. by rewrite lanes_updLane, decide_False.
    + intros l'. unfold takeCont. rewrite lanes_updLane. by destruct (decide (l' = l)) as [->|].
  - intros l'. rewrite lanes_updLane. change (job (updLane _ _ _)) with (job Q).
    destruct (decide (l' = l)) as [->|Hl'].
    + destruct Hok. constructor; simpl; try done.
      * rewrite k_cont0, Hcs. zlia.
      * intros x Hx. apply k_conts0. rewrite Hcs. by right.
      * rewrite active_app, active_one, Hcont, decide_False, app_nil_r by (by intros [_ ?]). lia.
      * rewrite active_app, active_one, Hcont, decide_True, zlen_app, zlen_cons, zlen_nil by done. lia.
    + apply (lane_ok_active _ A); [..|apply H]; rewrite active_app, active_one, decide_False, app_nil_r by (by intros [-> ?]); done.
Qed.

Lemma qinv_take l p Q Q' A C X q :
  qinv Q A C X q → take l Q = Some (p, Q') →
  qinv Q' (A ++ [(l, p)]) C X q ∧ same_jobs Q Q' ∧ predecessors (job Q p) = 0 ∧
  p ∈ waiting (lanes Q l) ++ continuations (lanes Q l).
Proof.
  intros H Ht. assert (Hr : takeReady l Q = Some (p, Q') → qinv Q' (A ++ [(l, p)]) C X q ∧ same_jobs Q Q' ∧
    predecessors (job Q p) = 0 ∧ p ∈ waiting (lanes Q l) ++ continuations (lanes Q l)).
  { intros E. destruct (qinv_takeReady _ _ _ _ _ _ _ _ H E) as (? & ? & _ & ? & ?). split_and!; try done.
    apply elem_of_app. by left. }
  unfold take in Ht. destruct (continuations (lanes Q l)) as [|c cs] eqn:Ec; [by apply Hr|].
  destruct (negb (isIO l) && _); [|by apply Hr]. injection Ht as -> <-.
  assert (Hc : p ∈ continuations (lanes Q l)) by (rewrite Ec; left).
  split; [|split; [done|split; [by apply (continuation_free H _ l)|by apply elem_of_app; right; left]]].
  eapply qinv_view; [by apply qinv_takeCont|done..|].
  intros l'. unfold notePeak, takeCont. rewrite !lanes_updLane. destruct (decide (l' = l)) as [->|]; [|done].
  by rewrite !decide_True.
Qed.

(** Nothing to take means nothing ready. *)
Lemma take_None l Q A C X q : qinv Q A C X q → take l Q = None →
  ready (lanes Q l) = [] ∧ tryBatches (lanes Q l) = [] ∧ continuations (lanes Q l) = [].
Proof.
  intros H Ht. assert (Hr : takeReady l Q = None → ready (lanes Q l) = [] ∧ tryBatches (lanes Q l) = []).
  { unfold takeReady. intros E. apply takeExternal_None. by destruct (takeExternal (lanes Q l)) as [[??]|]. }
  unfold take in Ht. destruct (continuations (lanes Q l)) as [|c cs] eqn:Ec; [naive_solver|].
  assert (Hio : isIO l = false).
  { assert (Hc : c ∈ continuations (lanes Q l)) by (rewrite Ec; left).
    apply (k_conts _ _ _ _ _ (i_lanes _ _ _ _ _ H l)) in Hc as (_ & _ & Hc). by apply bool_decide_eq_false. }
  rewrite Hio in Ht. simpl in Ht. destruct (preferContinuation (lanes Q l)); [done|]. simpl in Ht.
  destruct (hasExternal (lanes Q l)) eqn:Ex; [|done]. apply Hr in Ht as [E1 E2].
  unfold hasExternal in Ex. by rewrite E1, E2 in Ex.
Qed.
