(* ===== verification/NestSim.v ===== *)
(** * The dispatch queue simulates the order specification

    Each critical section of the queue keeps the invariant and is matched by
    steps of [fifo]: admission submits at the end, a worker that takes a job
    begins it, finishing ends it. *)

From S2P Require Import Prelude NestJob NestQueue NestOrder NestQueueInv.

(** ** What every operation keeps *)

(** A claim mark that is not in use. *)
Definition idle (Q : dispatchQueue) (q : pendings) (c : jobp) : Prop :=
  is_Some (heap Q !! c) ∧ (c ∉ q.*1) ∧ successors (job Q c) = [] ∧ predecessors (job Q c) = 0 ∧
  tryBatch (job Q c) = false ∧ continuation (job Q c) = false.

Record evolves (Q : dispatchQueue) (q : pendings) (Q' : dispatchQueue) (q' : pendings) : Prop := mkEvolves {
  e_kind : ∀ x, is_Some (heap Q !! x) → is_Some (heap Q' !! x) ∧
    tryBatch (job Q' x) = tryBatch (job Q x) ∧ continuation (job Q' x) = continuation (job Q x) ∧
    ids (job Q' x) = ids (job Q x);
  e_idle : ∀ c, idle Q q c → idle Q' q' c;
  e_batches : batches Q' = batches Q;
  e_started : started Q = true → started Q' = true;
  e_stopping : stopping Q = true → stopping Q' = true;
  e_fresh : (fresh Q <= fresh Q')%N
}.

Lemma evolves_refl Q q : evolves Q q Q q.
Proof. by constructor. Qed.

Lemma evolves_trans Q1 q1 Q2 q2 Q3 q3 : evolves Q1 q1 Q2 q2 → evolves Q2 q2 Q3 q3 → evolves Q1 q1 Q3 q3.
Proof.
  intros [] []. constructor; try congruence; [|auto..|lia].
  intros x Hx. destruct (e_kind0 x Hx) as (H1 & H2 & H3 & H4). destruct (e_kind1 x H1) as (H5 & H6 & H7 & H8).
  split; [done|]. repeat split; congruence.
Qed.

Lemma evolves_frame Q q Q' q' : frame Q Q' →
  (∀ c, idle Q q c → (c ∉ q'.*1) ∧ successors (job Q' c) = [] ∧ predecessors (job Q' c) = 0) →
  evolves Q q Q' q'.
Proof.
  intros HF Hi. destruct HF as [f1 f2 f3 _ _ f6 f7 _ f9 f10]. constructor; rewrite ?f6, ?f7, ?f10; try done.
  - intros x Hx. split; [by apply f3|]. by destruct (f2 x) as (-> & -> & _ & ->).
  - intros c Hc. destruct (Hi c Hc) as (Hq & Hs & Hz). destruct Hc as (Hh & _ & _ & _ & Ht & Hc).
    destruct (f2 c) as (Et & _ & _ & Ec). unfold idle. rewrite Et, Ec. split; [by apply f3|done].
Qed.

(** Only the lanes, the counters and the tails differ. *)
Lemma evolves_same Q q Q' : heap Q' = heap Q → batches Q' = batches Q → (started Q = true → started Q' = true) →
  (stopping Q = true → stopping Q' = true) → fresh Q' = fresh Q → evolves Q q Q' q.
Proof.
  intros E1 E2 E3 E4 E5. assert (HJ : job Q' = job Q) by (unfold job; by rewrite E1).
  constructor; rewrite ?E5; try done.
  - intros x Hx. by rewrite E1, HJ.
  - intros c. unfold idle. by rewrite E1, HJ.
Qed.

Lemma evolves_updLane l f Q q : evolves Q q (updLane l f Q) q.
Proof. by apply evolves_same. Qed.
Lemma evolves_pending n Q q : evolves Q q (set_pending n Q) q.
Proof. by apply evolves_same. Qed.

Lemma evolves_alloc j Q q : (∀ p, is_Some (heap Q !! p) → (p < fresh Q)%N) → evolves Q q (snd (alloc j Q)) q.
Proof.
  intros Hf. assert (Hj : ∀ x, is_Some (heap Q !! x) → job (snd (alloc j Q)) x = job Q x).
  { intros x Hx%Hf. rewrite job_alloc, decide_False; [done|lia]. }
  constructor; try done; [| |simpl; lia].
  - intros x Hx. rewrite Hj by done. split; [|done]. simpl. rewrite lookup_insert_is_Some'. by right.
  - intros c (Hh & Hc). unfold idle. rewrite Hj by done. split; [|done]. simpl. rewrite lookup_insert_is_Some'. by right.
Qed.

Lemma linkOne_job p Q id x : x ≠ p → tails Q !! id ≠ Some x → job (linkOne p Q id) x = job Q x.
Proof.
  intros Hx Ht. unfold linkOne, job. simpl. destruct (tails Q !! id) as [prev|]; [|done].
  case_bool_decide; [done|]. simpl. by rewrite !lookup_alter_ne by congruence.
Qed.

Lemma linkMany_job p l Q x : x ≠ p → (∀ id, tails Q !! id ≠ Some x) → job (foldl (linkOne p) Q l) x = job Q x.
Proof.
  intros Hx. revert Q. induction l as [|id l IH]; intros Q Ht; [done|]. simpl. rewrite IH; [by apply linkOne_job|].
  intros id'. unfold linkOne. simpl. destruct (decide (id' = id)) as [->|Hne].
  - rewrite lookup_insert_eq. congruence.
  - rewrite lookup_insert_ne by done. destruct (tails Q !! id); [|apply Ht]. case_bool_decide; apply Ht.
Qed.

Lemma evolves_release p Q A C X q : qinv Q A C X q → p ∈ q.*1 → evolves Q q (releaseIDsLocked p Q) (without p q).
Proof.
  intros H Hp. apply evolves_frame; [apply frame_releaseIDs|]. intros c (Hh & Hq & Hs & Hz & _).
  rewrite (release_job _ _ _ _ _ _ _ H Hp). rewrite decide_False.
  - split; [|done]. rewrite elem_of_without. tauto.
  - intros Hin. apply (o_succ _ _ _ (i_ord _ _ _ _ _ H)), edge_in in Hin as [_ Hin]; done.
Qed.

(** ** The counters *)

Definition counted (Q : dispatchQueue) (C : list jobp) (q : pendings) : Prop :=
  pending Q = zlen q - zlen C + awaitReserved Q ∧ 0 ≤ awaitReserved Q.

(** The queue, what the workers execute and the claims are in the state [s]
    of the specification. *)
Definition refines (Q : dispatchQueue) (A : actives) (C : list jobp) (s : fifo) : Prop :=
  qinv Q A C [] (jobs s) ∧ counted Q C (jobs s) ∧ ∀ p, p ∈ executing s ↔ p ∈ A.*2 ∨ p ∈ C.

(** ** A new job *)

Definition newJob (j : dispatchJob) : Prop :=
  successors j = [] ∧ predecessors j = 0 ∧ NoDup (ids j) ∧ (tryBatch j || continuation j = true → ids j = []).

(** Allocating a job and linking it behind the tails of its ids. *)
Definition register (j : dispatchJob) (Q : dispatchQueue) : dispatchQueue :=
  foldl (linkOne (fresh Q)) (snd (alloc j Q)) (ids j).

Lemma register_frame j Q : frame (snd (alloc j Q)) (register j Q).
Proof. apply frame_foldl; auto with nest_frame. Qed.

Lemma register_evolves j Q A C X q : qinv Q A C X q → evolves Q q (register j Q) (q ++ [(fresh Q, ids j)]).
Proof.
  intros H. pose proof (evolves_alloc j Q q (i_fresh _ _ _ _ _ H)) as Ha. pose proof (register_frame j Q) as HF.
  constructor.
  - intros x Hx. destruct (e_kind _ _ _ _ Ha x Hx) as (H1 & H2 & H3 & H4). split; [by apply (f_dom _ _ HF)|].
    destruct (f_job _ _ HF x) as (-> & -> & _ & ->). by rewrite H2, H3, H4.
  - intros c Hc. apply (e_idle _ _ _ _ Ha) in Hc as Hc'. destruct Hc as (Hh & Hq & _), Hc' as (Hh' & _ & Hs & Hz & Ht & Hk).
    apply (i_fresh _ _ _ _ _ H) in Hh. assert (Hne : c ≠ fresh Q) by lia. unfold idle, register.
    rewrite linkMany_job; [|done|].
    + split; [by apply (f_dom _ _ HF)|]. split; [|done]. rewrite link_in. tauto.
    + intros id. change (tails (snd (alloc j Q))) with (tails Q). rewrite (o_tail _ _ _ (i_ord _ _ _ _ _ H)).
      intros Hl. apply Hq. eapply chain_pending. by apply last_Some_elem_of.
  - by rewrite (f_batches _ _ HF).
  - by rewrite (f_started _ _ HF).
  - by rewrite (f_stopping _ _ HF).
  - rewrite (f_fresh _ _ HF). simpl. lia.
Qed.

Lemma register_ok j Q A C q : qinv Q A C [] q → newJob j →
  qinv (register j Q) A C [fresh Q] (q ++ [(fresh Q, ids j)]).
Proof.
  intros H (Hs & Hz & Hn & Hno). pose proof (qinv_alloc j _ _ _ _ _ H) as H1.
  assert (Hj : job (snd (alloc j Q)) (fresh Q) = j) by (by rewrite job_alloc, decide_True).
  assert (Hp : fresh Q ∉ q.*1) by (intros Hp%(q_lt H); lia).
  assert (Hh : is_Some (heap (snd (alloc j Q)) !! fresh Q)) by (simpl; rewrite lookup_insert_eq; by eexists).
  pose proof (qinv_link (fresh Q) _ _ _ _ _ H1 Hh Hp) as HL. rewrite Hj in HL. by apply HL.
Qed.

(** What the new job looks like, and what registering leaves alone. *)
Lemma register_new j Q : let Q' := register j Q in
  tryBatch (job Q' (fresh Q)) = tryBatch j ∧ ids (job Q' (fresh Q)) = ids j ∧
  lane (job Q' (fresh Q)) = lane j ∧ continuation (job Q' (fresh Q)) = continuation j ∧
  pending Q' = pending Q ∧ awaitReserved Q' = awaitReserved Q ∧ lanes Q' = lanes Q.
Proof.
  pose proof (register_frame j Q) as HF. destruct (f_job _ _ HF (fresh Q)) as (E1 & E2 & E3 & E4).
  rewrite job_alloc, decide_True in E1, E2, E3, E4 by done. repeat (split; [done|]).
  split; [by rewrite (f_pending _ _ HF)|]. split; [by rewrite (f_await _ _ HF)|].
  unfold register. by rewrite linkMany_lanes.
Qed.

Lemma updJob_waited p f Q A C X q : qinv Q A C X q → qinv (updJob p (λ j, set_waited (f j) j) Q) A C X q.
Proof.
  intros H. assert (Hj : ∀ x, successors (job (updJob p (λ j, set_waited (f j) j) Q) x) = successors (job Q x) ∧
    predecessors (job (updJob p (λ j, set_waited (f j) j) Q) x) = predecessors (job Q x)).
  { intros x. unfold job. simpl. destruct (decide (x = p)) as [->|Hx].
    - rewrite lookup_alter_eq. by destruct (heap Q !! p).
    - by rewrite lookup_alter_ne. }
  apply (qinv_frame Q); [done|by apply frame_updJob|done|done|done].
Qed.

(** ** Admission *)

Lemma qinv_pending Q n A C X q : qinv Q A C X q → qinv (set_pending n Q) A C X q.
Proof. intros H. by apply (qinv_view Q). Qed.
Lemma qinv_await Q n A C X q : qinv Q A C X q → qinv (set_await n Q) A C X q.
Proof. intros H. by apply (qinv_view Q). Qed.

Lemma counted_frame Q Q' C q : frame Q Q' → counted Q C q → counted Q' C q.
Proof. intros HF. unfold counted. by rewrite (f_pending _ _ HF), (f_await _ _ HF). Qed.

Lemma pushJob_same l p Q : let Q' := pushJob l p Q in
  heap Q' = heap Q ∧ batches Q' = batches Q ∧ started Q' = started Q ∧ stopping Q' = stopping Q ∧
  fresh Q' = fresh Q ∧ pending Q' = pending Q ∧ awaitReserved Q' = awaitReserved Q ∧ tails Q' = tails Q.
Proof. unfold pushJob. by destruct (predecessors (job Q p) =? 0). Qed.

Lemma evolves_pushJob l p Q q : evolves Q q (pushJob l p Q) q.
Proof.
  destruct (pushJob_same l p Q) as (E1&E2&E3&E4&E5&_). apply evolves_same; [done|done|by rewrite E3|by rewrite E4|done].
Qed.

Lemma fresh_register j Q : N.pred (fresh (register j Q)) = fresh Q.
Proof. rewrite (f_fresh _ _ (register_frame j Q)). simpl. by rewrite N.add_1_r, N.pred_succ. Qed.

(** The accepting branch of [admitLocked]. *)
Definition acceptJob (j : dispatchJob) (Q : dispatchQueue) : dispatchQueue :=
  let Q := register j Q in
  let p := N.pred (fresh Q) in
  let Q := updJob p (λ j, set_waited (0 <? predecessors j) j) Q in
  notePeak (lane j) (pushJob (lane j) p (set_pending (pending Q + 1) Q)).

Lemma admitLocked_eq j Q : admitLocked j Q =
  if negb (hasExecutionSlot Q (lane j) (isBlocked Q (ids j))) &&
     (QueueCap (config (lanes Q (lane j))) <=? waitingCount Q (lane j) (lanes Q (lane j)))
  then (noteRejected (lane j) Q, Some ErrWorkerQueueFull) else (acceptJob j Q, None).
Proof.
  unfold admitLocked, acceptJob. case_match; [done|]. by rewrite fresh_register.
Qed.

Definition submitted (s : fifo) (p : jobp) (l : list Z) : fifo := mkFifo (jobs s ++ [(p, l)]) (executing s).

(** The job an admission added. *)
Lemma acceptJob_new j Q : is_Some (heap (acceptJob j Q) !! fresh Q) ∧ tryBatch (job (acceptJob j Q) (fresh Q)) = tryBatch j.
Proof.
  unfold acceptJob. rewrite fresh_register. set (Q2 := updJob _ _ _).
  assert (HF : frame (register j Q) Q2) by by apply frame_updJob.
  assert (HS : ∀ l, heap (notePeak l (pushJob (lane j) (fresh Q) (set_pending (pending Q2 + 1) Q2))) = heap Q2).
  { intros l. unfold notePeak. simpl. by rewrite pushJob_heap. }
  rewrite job_heap, HS. split.
  - apply (f_dom _ _ HF), (f_dom _ _ (register_frame j Q)). simpl. rewrite lookup_insert_eq. by eexists.
  - rewrite <- job_heap. destruct (f_job _ _ HF (fresh Q)) as (-> & _). apply register_new.
Qed.

Lemma acceptJob_refines j Q A C s : refines Q A C s → newJob j → continuation j = false →
  refines (acceptJob j Q) A C (submitted s (fresh Q) (ids j)) ∧
  evolves Q (jobs s) (acceptJob j Q) (jobs s ++ [(fresh Q, ids j)]).
Proof.
  intros (H & Hc & Hx) Hj Hk. unfold acceptJob. rewrite fresh_register. set (p := fresh Q).
  set (Q1 := register j Q). set (Q2 := updJob p _ Q1).
  destruct (register_new j Q) as (Et & Ei & El & Ek & Ep & Ea & _).
  assert (HF : frame Q1 Q2) by by apply frame_updJob.
  assert (Fl : lane (job Q2 p) = lane j) by (destruct (f_job _ _ HF p) as (_ & _ & -> & _); exact El).
  assert (Fk : continuation (job Q2 p) = false).
  { destruct (f_job _ _ HF p) as (_ & _ & _ & ->). etrans; [exact Ek|done]. }
  assert (EP : pending Q2 = pending Q) by (rewrite (f_pending _ _ HF); exact Ep).
  assert (EA : awaitReserved Q2 = awaitReserved Q) by (rewrite (f_await _ _ HF); exact Ea).
  assert (H2 : qinv Q2 A C [p] (jobs s ++ [(p, ids j)])) by by apply updJob_waited, register_ok.
  split.
  - split; [|split; [|done]]; unfold submitted; cbn [jobs executing].
    + apply (qinv_frame (pushJob (lane j) p (set_pending (pending Q2 + 1) Q2))); [|apply frame_notePeak|done|done|].
      * apply qinv_push; [|done..]. by apply qinv_pending.
      * intros l. unfold notePeak. rewrite lanes_updLane. by destruct (decide (l = lane j)) as [->|].
    + eapply counted_frame; [apply frame_notePeak|]. unfold counted.
      destruct (pushJob_same (lane j) p (set_pending (pending Q2 + 1) Q2)) as (_&_&_&_&_& -> & -> & _).
      cbn [pending awaitReserved set_pending]. rewrite EP, EA. destruct Hc. zlia.
  - eapply evolves_trans; [by eapply register_evolves|]. fold p Q1.
    eapply evolves_trans; [|eapply evolves_trans; [apply evolves_pushJob|apply evolves_updLane]].
    eapply evolves_trans; [|apply evolves_pending]. apply evolves_frame; [done|].
    intros c (Hh & Hq & Hs & Hz & _). split; [done|]. unfold Q2, job. simpl.
    destruct (decide (c = p)) as [->|Hcp]; [|by rewrite lookup_alter_ne].
    destruct Hq. rewrite link_in. by right.
Qed.

Lemma admitLocked_refines j Q A C s Q' r : refines Q A C s → newJob j → continuation j = false →
  admitLocked j Q = (Q', r) →
  match r with
  | None => refines Q' A C (submitted s (fresh Q) (ids j)) ∧ evolves Q (jobs s) Q' (jobs s ++ [(fresh Q, ids j)]) ∧
      is_Some (heap Q' !! fresh Q) ∧ tryBatch (job Q' (fresh Q)) = tryBatch j
  | Some _ => refines Q' A C s ∧ evolves Q (jobs s) Q' (jobs s)
  end.
Proof.
  intros H Hj Hk. rewrite admitLocked_eq. case_match; intros [= <- <-].
  2: { destruct (acceptJob_refines j Q A C s H Hj Hk) as [H1 H2]. destruct (acceptJob_new j Q) as [H3 H4]. done. }
  destruct H as (H & Hc & Hx). split; [|by apply evolves_same]. split; [|split; [by eapply counted_frame; [apply frame_noteRejected|]|done]].
  apply (qinv_view Q); [done..|]. intros l. unfold noteRejected. rewrite lanes_updLane.
  by destruct (decide (l = lane j)) as [->|].
Qed.

(** ** Steps the specification does not see *)

Lemma refines_view Q Q' A C s :
  refines Q A C s → heap Q' = heap Q → tails Q' = tails Q → fresh Q' = fresh Q → pending Q' = pending Q →
  awaitReserved Q' = awaitReserved Q → (∀ l, lview (lanes Q' l) = lview (lanes Q l)) → refines Q' A C s.
Proof.
  intros (H & Hc & Hx) E1 E2 E3 E4 E5 Hv. split; [by apply (qinv_view Q)|]. split; [|done].
  unfold counted. by rewrite E4, E5.
Qed.

Lemma lview_updLane l f Q l' : (∀ s, lview (f s) = lview s) → lview (lanes (updLane l f Q) l') = lview (lanes Q l').
Proof. intros Hf. rewrite lanes_updLane. by destruct (decide (l' = l)) as [->|]. Qed.

Lemma refines_wake l f Q A C s : refines Q A C s → (∀ s, lview (f s) = lview s) → refines (updLane l f Q) A C s.
Proof. intros H Hf. apply (refines_view Q); [done..|]. intros l'. by apply lview_updLane. Qed.

Lemma wakeAll_lview Q l : lview (lanes (wakeAll Q) l) = lview (lanes Q l).
Proof. unfold wakeAll, allLanes. cbn [foldl]. by rewrite !lview_updLane. Qed.

Lemma refines_wakeAll Q A C s : refines Q A C s → refines (wakeAll Q) A C s.
Proof. intros H. apply (refines_view Q); [done..|]. apply wakeAll_lview. Qed.

Lemma evolves_wakeAll Q q : evolves Q q (wakeAll Q) q.
Proof. by apply evolves_same. Qed.

(** ** Continuations and awaits *)

Lemma pushContinuation_refines l m Q A C s : refines Q A C s → l ≠ IO →
  refines (pushContinuationLocked l m Q) A C (submitted s (fresh Q) []) ∧
  evolves Q (jobs s) (pushContinuationLocked l m Q) (jobs s ++ [(fresh Q, [])]).
Proof.
  intros (H & Hc & Hx) Hl. set (j := mkJob (Some m) false [] [] 0 l false true false).
  assert (Hj : newJob j) by (repeat split; constructor).
  pose proof (register_ok j Q A C _ H Hj) as H1. destruct (register_new j Q) as (Et & Ei & El & Ek & Ep & Ea & _).
  split.
  - split; [|split; [|done]].
    + unfold pushContinuationLocked. cbn [alloc]. apply (qinv_view (updLane l
        (λ s, set_conts (continuations s ++ [fresh Q]) (continuationCount s + 1) (continuationRunning s)
           (preferContinuation s) s) (register j Q))); [by apply qinv_pushCont|done..|].
      intros l'. rewrite lview_updLane by done. done.
    + unfold counted, pushContinuationLocked, submitted. cbn. destruct Hc. zlia.
  - eapply evolves_trans; [by apply (register_evolves j Q A C [])|]. by apply evolves_same.
Qed.

Lemma startAwait_refines Q A C s : refines Q A C s → 0 < awaitReserved Q →
  refines (startAwait Q) A C (submitted s (fresh Q) []) ∧
  evolves Q (jobs s) (startAwait Q) (jobs s ++ [(fresh Q, [])]).
Proof.
  intros (H & Hc & Hx) Ha. set (j := mkJob None false [] [] 0 IO true false false).
  assert (Hj : newJob j) by (repeat split; constructor).
  pose proof (register_ok j Q A C _ H Hj) as H1. destruct (register_new j Q) as (Et & Ei & El & Ek & Ep & Ea & _).
  assert (E : startAwait Q = pushJob IO (fresh Q) (set_await (awaitReserved Q - 1) (register j Q))).
  { unfold pushJob. change (job (set_await _ (register j Q)) (fresh Q)) with (job (snd (alloc j Q)) (fresh Q)).
    rewrite job_alloc, decide_True by done. done. }
  rewrite E. split.
  - split; [|split; [|done]].
    + apply qinv_push; [by apply qinv_await|done..].
    + unfold counted, submitted. destruct (pushJob_same IO (fresh Q) (set_await (awaitReserved Q - 1) (register j Q))) as (_&_&_&_&_&->&->&_).
      cbn. destruct Hc. zlia.
  - eapply evolves_trans; [by apply (register_evolves j Q A C [])|].
    eapply evolves_trans; [|apply evolves_pushJob]. by apply evolves_same.
Qed.

Lemma dropPending_wake Q : ∃ b : bool, dropPending Q = (if b then wakeAll (set_pending (pending Q - 1) Q) else set_pending (pending Q - 1) Q).
Proof. unfold dropPending. eexists. done. Qed.

Lemma refines_dropPending Q A C s :
  qinv Q A C [] (jobs s) → counted (set_pending (pending Q - 1) Q) C (jobs s) →
  (∀ p, p ∈ executing s ↔ p ∈ A.*2 ∨ p ∈ C) → refines (dropPending Q) A C s.
Proof.
  intros H Hc Hx. destruct (dropPending_wake Q) as [b ->].
  assert (HR : refines (set_pending (pending Q - 1) Q) A C s) by (split; [by apply qinv_pending|done]).
  destruct b; [by apply refines_wakeAll|done].
Qed.

Lemma evolves_dropPending Q q : evolves Q q (dropPending Q) q.
Proof. destruct (dropPending_wake Q) as [[] ->]; by apply evolves_same. Qed.

Lemma cancelAwait_refines Q A C s : refines Q A C s → 0 < awaitReserved Q →
  refines (cancelAwait Q) A C s ∧ evolves Q (jobs s) (cancelAwait Q) (jobs s).
Proof.
  intros (H & Hc & Hx) Ha. split.
  - apply refines_dropPending; [by apply qinv_await| |done]. unfold counted in *. cbn. lia.
  - eapply evolves_trans; [|apply evolves_dropPending]. by apply evolves_same.
Qed.

Lemma reserveAwait_refines Q A C s : refines Q A C s →
  refines (fst (reserveAwait Q)) A C s ∧ evolves Q (jobs s) (fst (reserveAwait Q)) (jobs s).
Proof.
  intros (H & Hc & Hx). unfold reserveAwait. repeat case_match; try (split; [done|apply evolves_refl]).
  split; [|by apply evolves_same]. split; [by apply qinv_pending, qinv_await|]. split; [|done].
  unfold counted in *. cbn. lia.
Qed.

(** ** Taking and finishing *)

Definition began (s : fifo) (p : jobp) : fifo := mkFifo (jobs s) ({[p]} ∪ executing s).
Definition paused (s : fifo) (p : jobp) : fifo := mkFifo (jobs s) (executing s ∖ {[p]}).
Definition ended (s : fifo) (p : jobp) : fifo := mkFifo (without p (jobs s)) (executing s ∖ {[p]}).

Lemma active_nodup Q A C X q l p : qinv Q (A ++ [(l, p)]) C X q → (p ∉ A.*2) ∧ (p ∉ C).
Proof.
  intros H. pose proof (q_nodup H) as Hn. apply NoDup_app in Hn as (_ & _ & Hn).
  rewrite places_active, app_nil_r in Hn. apply NoDup_cons in Hn as [Hn _].
  rewrite elem_of_places in Hn. tauto.
Qed.

Lemma take_refines l p Q Q' A C s : refines Q A C s → take l Q = Some (p, Q') →
  fifo_step s (began s p) ∧ refines Q' (A ++ [(l, p)]) C (began s p) ∧ evolves Q (jobs s) Q' (jobs s) ∧
  job Q' = job Q ∧ p ∈ (jobs s).*1.
Proof.
  intros (H & Hc & Hx) Ht. destruct (qinv_take _ _ _ _ _ _ _ _ H Ht) as (H' & Hs & Hz & Hp).
  destruct (active_nodup _ _ _ _ _ _ _ H') as [HpA HpC].
  assert (Hin : p ∈ (jobs s).*1).
  { apply elem_of_app in Hp as [Hp|Hp]; [by eapply (q_waiting H)|by eapply (q_continuing H)]. }
  pose proof (same_jobs_job _ _ Hs) as HJ. destruct Hs as (E1 & E2 & E3 & E4 & E5 & E6 & E7 & E8 & E9).
  split; [|split; [|split; [apply evolves_same; [done|done|by rewrite E5|by rewrite E6|done]|done]]].
  - destruct s as [q x]. apply (ff_begin p (ids (job Q p))); [by apply (q_entry H)|by rewrite Hx; intros [?|?]|].
    by apply (free_runnable H), Hz; apply (q_entry H).
  - split; [done|]. split; [unfold counted; by rewrite E3, E4|].
    intros p'. simpl. rewrite elem_of_union, elem_of_singleton, Hx, fmap_app. simpl. rewrite elem_of_snoc. tauto.
Qed.

Lemma without_length p q : NoDup q.*1 → p ∈ q.*1 → zlen (without p q) = zlen q - 1.
Proof.
  induction q as [|[x l] q IH]; simpl; [set_solver|]. intros [Hx Hn]%NoDup_cons Hp. unfold without.
  rewrite filter_cons. simpl. case_decide as E.
  - apply elem_of_cons in Hp as [->|Hp]; [done|]. fold (without p q). rewrite !zlen_cons, IH by done. lia.
  - assert (x = p) as -> by (destruct (decide (x = p)); tauto). rewrite zlen_cons. rewrite filter_all; [lia|].
    apply Forall_forall. intros e He Ep. apply Hx. rewrite <- Ep. by apply fst_in.
Qed.

(** What is executing after one left. *)
Lemma executing_without (A1 : actives) l (p : jobp) (A2 : actives) (C : list jobp) (x : gset jobp) :
  NoDup ((A1 ++ (l, p) :: A2).*2 ++ C) → (∀ y, y ∈ x ↔ y ∈ (A1 ++ (l, p) :: A2).*2 ∨ y ∈ C) →
  ∀ y, y ∈ x ∖ {[p]} ↔ y ∈ (A1 ++ A2).*2 ∨ y ∈ C.
Proof.
  intros Hn Hx y. rewrite elem_of_difference, elem_of_singleton, Hx. revert Hn.
  rewrite !fmap_app, fmap_cons, !elem_of_app, elem_of_cons. simpl.
  intros [Hn1 [Hd HC]]%NoDup_app. apply NoDup_app in Hn1 as (_ & H1 & [H2 _]%NoDup_cons).
  assert (p ∉ A1.*2) by (intros Hp; apply (H1 p Hp); left).
  assert (p ∉ C) by (apply Hd; apply elem_of_app; right; left).
  destruct (decide (y = p)) as [->|]; tauto.
Qed.

Lemma executing_nodup Q A C X q : qinv Q A C X q → NoDup (A.*2 ++ C).
Proof.
  intros H. pose proof (q_nodup H) as Hn. unfold places in Hn.
  by do 7 apply NoDup_app in Hn as (_ & _ & Hn).
Qed.

Section leave.
Context {Q : dispatchQueue} {A1 A2 : actives} {C : list jobp} {l : LaneId} {p : jobp} {s : fifo}.
Context (H : refines Q (A1 ++ (l, p) :: A2) C s).

Lemma leave_facts :
  p ∈ (jobs s).*1 ∧ p ∈ executing s ∧ lane (job Q p) = l ∧ predecessors (job Q p) = 0 ∧
  qinv (leaveWorker l p Q) (A1 ++ A2) C [p] (jobs s) ∧
  (∀ y, y ∈ executing s ∖ {[p]} ↔ y ∈ (A1 ++ A2).*2 ∨ y ∈ C).
Proof.
  destruct H as (Hq & Hc & Hx).
  assert (Hin : (l, p) ∈ A1 ++ (l, p) :: A2) by (apply elem_of_app; right; left).
  destruct (i_active _ _ _ _ _ Hq _ _ Hin) as [Hl Hz]. split_and!; try done.
  - by apply (q_active Hq) in Hin.
  - apply Hx. left. apply list_elem_of_fmap. by exists (l, p).
  - by apply qinv_leave.
  - eapply executing_without; [by eapply executing_nodup|done].
Qed.

Lemma finish_refines :
  fifo_step s (ended s p) ∧ refines (finishJobLocked l p Q) (A1 ++ A2) C (ended s p) ∧
  evolves Q (jobs s) (finishJobLocked l p Q) (without p (jobs s)).
Proof.
  destruct leave_facts as (Hp & Hpx & Hl & Hz & Hq & Hx). destruct H as (H0 & Hc & _).
  assert (HF : finishJobLocked l p Q = dropPending (releaseIDsLocked p (leaveWorker l p Q))) by done.
  rewrite HF. pose proof (frame_releaseIDs p (leaveWorker l p Q)) as Hfr.
  split; [destruct s; by apply ff_end|]. split.
  - apply refines_dropPending; [by apply qinv_release|..]; [|done].
    unfold counted. cbn [pending awaitReserved set_pending].
    rewrite (f_pending _ _ Hfr), (f_await _ _ Hfr). cbn. destruct Hc as [Hc1 Hc2].
    rewrite without_length by (done || apply (i_ord _ _ _ _ _ H0)). lia.
  - eapply (evolves_trans _ _ (leaveWorker l p Q) (jobs s)); [apply evolves_updLane|].
    eapply evolves_trans; [|apply evolves_dropPending]. by apply (evolves_release p _ (A1 ++ A2) C [p]).
Qed.

(** Back among the waiting jobs of lane [l'], keeping its turn. *)
Lemma pause_refines l' Q1 :
  qinv Q1 (A1 ++ A2) C [p] (jobs s) → lane (job Q1 p) = l' → continuation (job Q1 p) = false →
  pending Q1 = pending Q → awaitReserved Q1 = awaitReserved Q →
  fifo_step s (paused s p) ∧ refines (pushJob l' p Q1) (A1 ++ A2) C (paused s p).
Proof.
  intros H1 Hl Hk Ep Ea. destruct leave_facts as (Hp & Hpx & _ & _ & _ & Hx). destruct H as (_ & Hc & _).
  split; [destruct s; by apply ff_pause|]. split; [by apply qinv_push|]. split; [|done].
  unfold counted. destruct (pushJob_same l' p Q1) as (_&_&_&_&_&->&->&_). by rewrite Ep, Ea.
Qed.

End leave.

(** Nobody waits for a change of the stage of an executing job. *)
Lemma qinv_stage p l io Q A C q : qinv Q A C [p] q →
  qinv (updJob p (λ j, set_waited false (set_stage l io j)) Q) A C [p] q.
Proof.
  intros H. set (Q' := updJob _ _ _).
  assert (Hp : p ∈ q.*1) by (apply (q_pending H); left; left).
  pose proof (q_nodup H) as Hn. apply NoDup_cons in Hn as [Hpl _].
  assert (Hh := q_heap H _ Hp).
  assert (HJ : ∀ x, job Q' x = if decide (x = p) then set_waited false (set_stage l io (job Q p)) else job Q x).
  { intros x. unfold Q'. by rewrite job_updJob. }
  assert (Hsame : ∀ x, successors (job Q' x) = successors (job Q x) ∧ predecessors (job Q' x) = predecessors (job Q x) ∧
    ids (job Q' x) = ids (job Q x) ∧ tryBatch (job Q' x) = tryBatch (job Q x) ∧ continuation (job Q' x) = continuation (job Q x)).
  { intros x. rewrite HJ. destruct (decide (x = p)) as [->|]; done. }
  assert (Hoth : ∀ x, x ≠ p → job Q' x = job Q x) by (intros x ?; by rewrite HJ, decide_False).
  destruct H as [H1 H2 H3 H4 H5 H6 H7 H8]. constructor; try done.
  - apply (ordered_ext (heap Q)); [|done]. intros x Hx. split; [by apply is_Some_alter, H1|].
    destruct (Hsame x) as (E1 & E2 & _). done.
  - intros x k Hx. destruct (Hsame x) as (_ & _ & -> & _). auto.
  - intros l'. apply (lane_ok_ext (job Q) _ _ []); [| | |apply H4].
    + intros x Hx. rewrite Hoth; [done|]. intros ->. apply Hpl, elem_of_places. eauto.
    + intros x. by destruct (Hsame x) as (_ & _ & _ & _ & ->).
    + intros x Hx. rewrite Hoth; [done|]. intros ->. apply Hpl, elem_of_places. eauto.
  - intros l' x Hx. rewrite Hoth; [auto|]. intros ->. apply Hpl, elem_of_places. right. right. left.
    apply list_elem_of_fmap. by exists (l', p).
  - intros x Hx. destruct (Hsame x) as (_ & -> & _ & -> & ->). auto.
  - intros x Hx. destruct (Hsame x) as (_ & _ & -> & -> & ->). auto.
  - intros x Hx%is_Some_alter. auto.
Qed.

Lemma evolves_updJob p f Q q :
  (∀ j, tryBatch (f j) = tryBatch j ∧ continuation (f j) = continuation j ∧ ids (f j) = ids j) →
  p ∈ q.*1 → evolves Q q (updJob p f Q) q.
Proof.
  intros Hf Hp. assert (Hoth : ∀ x, x ≠ p → job (updJob p f Q) x = job Q x).
  { intros x Hx. unfold job. simpl. by rewrite lookup_alter_ne. }
  constructor; try done.
  - intros x Hx. split; [by apply is_Some_alter|]. destruct (decide (x = p)) as [->|Hxp].
    + rewrite job_updJob, decide_True by done. apply Hf.
    + by rewrite Hoth.
  - intros c Hc. pose proof Hc as (Hh & Hq & _). unfold idle. rewrite Hoth by (intros ->; done).
    split; [by apply is_Some_alter|apply Hc].
Qed.

Lemma leaveWorker_external l p Q : continuation (job Q p) = false →
  updLane l (λ s, set_running (running s - 1) s) Q = leaveWorker l p Q.
Proof. intros Hk. unfold leaveWorker. by rewrite Hk. Qed.

Lemma refines_notePeak l Q A C s : refines Q A C s → refines (notePeak l Q) A C s.
Proof. intros H. by apply refines_wake. Qed.

(** [rerouteToIO] *)
Lemma reroute_refines Q A1 A2 C l p s : refines Q (A1 ++ (l, p) :: A2) C s → continuation (job Q p) = false →
  fifo_step s (paused s p) ∧ refines (rerouteToIO p Q) (A1 ++ A2) C (paused s p) ∧
  evolves Q (jobs s) (rerouteToIO p Q) (jobs s).
Proof.
  intros H Hk. destruct (leave_facts H) as (Hp & Hpx & Hl & Hz & Hq & Hx).
  set (Q1 := updJob p (λ j, set_waited false (set_stage IO true j)) (leaveWorker l p Q)).
  assert (Hh : is_Some (heap Q !! p)) by (destruct H as (H & _); by apply (q_heap H)).
  assert (HJ : job Q1 p = set_waited false (set_stage IO true (job Q p))).
  { unfold Q1. by rewrite job_updJob, decide_True. }
  assert (E : rerouteToIO p Q = notePeak IO (pushJob IO p Q1)).
  { unfold rerouteToIO. rewrite Hl, (leaveWorker_external _ _ _ Hk). fold Q1. unfold pushJob. rewrite HJ. simpl. by rewrite Hz. }
  rewrite E. assert (Hq1 : qinv Q1 (A1 ++ A2) C [p] (jobs s)) by by apply qinv_stage.
  destruct (pause_refines H IO Q1 Hq1) as [Hs HR]; [by rewrite HJ..|done|done|].
  split; [done|]. split; [by apply refines_notePeak|].
  eapply (evolves_trans _ _ (leaveWorker l p Q) (jobs s)); [apply evolves_updLane|].
  eapply (evolves_trans _ _ Q1 (jobs s)); [by apply evolves_updJob|].
  eapply evolves_trans; [apply evolves_pushJob|apply evolves_updLane].
Qed.

(** [yieldTryBatchLocked] *)
Lemma yield_refines Q A1 A2 C l p s : refines Q (A1 ++ (l, p) :: A2) C s → continuation (job Q p) = false →
  fifo_step s (paused s p) ∧ refines (yieldTryBatchLocked l p Q) (A1 ++ A2) C (paused s p) ∧
  evolves Q (jobs s) (yieldTryBatchLocked l p Q) (jobs s).
Proof.
  intros H Hk. destruct (leave_facts H) as (Hp & Hpx & Hl & Hz & Hq & Hx).
  set (Q1 := updJob p (set_waited false) (leaveWorker l p Q)).
  assert (Hh : is_Some (heap Q !! p)) by (destruct H as (H & _); by apply (q_heap H)).
  assert (HJ : job Q1 p = set_waited false (job Q p)).
  { unfold Q1. by rewrite job_updJob, decide_True. }
  assert (E : yieldTryBatchLocked l p Q = pushJob l p Q1).
  { unfold yieldTryBatchLocked. rewrite (leaveWorker_external _ _ _ Hk). fold Q1. unfold pushJob. rewrite HJ. simpl. by rewrite Hz. }
  rewrite E. assert (Hq1 : qinv Q1 (A1 ++ A2) C [p] (jobs s)) by by apply (updJob_waited p (λ _, false)).
  destruct (pause_refines H l Q1 Hq1) as [Hs HR]; [by rewrite HJ..|done|done|].
  split; [done|]. split; [done|].
  eapply (evolves_trans _ _ (leaveWorker l p Q) (jobs s)); [apply evolves_updLane|].
  eapply (evolves_trans _ _ Q1 (jobs s)); [by apply evolves_updJob|apply evolves_pushJob].
Qed.

(** ** Claims *)

(** An idle mark takes an id nobody is registered under. *)
Definition takeClaim (c : jobp) (id : Z) (l : LaneId) (Q : dispatchQueue) : dispatchQueue :=
  set_tails (<[id := c]> (tails Q)) (updJob c (set_ids [id] l) Q).

Lemma takeClaim_link c id l Q : tails Q !! id = None →
  takeClaim c id l Q = foldl (linkOne c) (updJob c (set_ids [id] l) Q) [id].
Proof. intros Ht. unfold takeClaim. simpl. unfold linkOne. simpl. by rewrite Ht. Qed.

Lemma updJob_idle c f Q A C q : qinv Q A C [] q → c ∉ q.*1 → is_Some (heap Q !! c) →
  (∀ j, continuation (f j) = continuation j) → qinv (updJob c f Q) A C [] q.
Proof.
  intros H Hc Hh Hf. assert (HJ : ∀ x, x ∈ q.*1 → job (updJob c f Q) x = job Q x).
  { intros x Hx. rewrite job_updJob by done. rewrite decide_False; [done|]. intros ->. done. }
  constructor.
  - apply (ordered_ext (heap Q)); [|apply H]. intros x Hx. rewrite <- !job_heap, HJ by done.
    split; [by apply is_Some_alter, (q_heap H)|done].
  - intros x k Hx. rewrite HJ by by apply (fst_in _ _ Hx). by apply H.
  - apply H.
  - intros l. apply (lane_ok_ext (job Q) _ _ []); [..|apply H].
    + intros x Hx%(q_waiting H). by rewrite HJ.
    + intros x. rewrite job_updJob by done. destruct (decide (x = c)) as [->|]; [apply Hf|done].
    + intros x Hx%(q_continuing H). by rewrite HJ.
  - intros l x Hx. rewrite HJ by by apply (q_active H) in Hx. by apply H.
  - intros x Hx. rewrite HJ by by apply (q_claim H) in Hx. by apply H.
  - intros x Hx. rewrite HJ by done. by apply H.
  - intros x Hx%is_Some_alter. by apply H.
Qed.

Lemma claim_refines c id l Q A C s : refines Q A C s → idle Q (jobs s) c → tails Q !! id = None →
  fifo_step s (submitted s c [id]) ∧ fifo_step (submitted s c [id]) (began (submitted s c [id]) c) ∧
  refines (takeClaim c id l Q) A (C ++ [c]) (began (submitted s c [id]) c) ∧
  (∀ c', c' ≠ c → idle Q (jobs s) c' → idle (takeClaim c id l Q) (jobs s ++ [(c, [id])]) c').
Proof.
  intros (H & Hc & Hx) Hi Ht. pose proof Hi as (Hh & Hq & Hs & Hz & Htb & Hk).
  set (Q1 := updJob c (set_ids [id] l) Q).
  assert (H1 : qinv Q1 A C [] (jobs s)) by by apply updJob_idle.
  assert (HJ : job Q1 c = set_ids [id] l (job Q c)) by (unfold Q1; by rewrite job_updJob, decide_True).
  assert (H2 : qinv (takeClaim c id l Q) A C [c] (jobs s ++ [(c, [id])])).
  { rewrite takeClaim_link by done. fold Q1. pose proof (qinv_link c _ _ _ _ _ H1) as HL. rewrite HJ in HL.
    apply HL; simpl; try done; [by apply is_Some_alter|apply NoDup_singleton|by rewrite Htb, Hk]. }
  assert (Hlast : last (chain (jobs s) id) = None) by by rewrite <- (o_tail _ _ _ (i_ord _ _ _ _ _ H)).
  assert (HJ2 : ∀ x, job (takeClaim c id l Q) x = job Q1 x) by done.
  split; [destruct s; by apply ff_submit|]. split; [|split; [split; [|split]|]].
  - destruct s as [q x]. apply (ff_begin c [id]).
    + apply elem_of_app. right. left.
    + simpl in *. rewrite Hx. intros Hin. apply Hq. apply (q_pending H). right. apply elem_of_places. tauto.
    + apply (free_runnable H2); [apply elem_of_app; right; left|]. rewrite HJ2, HJ. done.
  - destruct H2 as [G1 G2 G3 G4 G5 G6 G7 G8]. constructor; try done.
    + simpl in *. rewrite G3. unfold places. solve_Permutation.
    + intros x [Hx'| ->]%elem_of_snoc; [by apply G6|]. rewrite HJ2, HJ. done.
  - unfold counted in *. cbn. destruct Hc. zlia.
  - intros p. simpl. rewrite elem_of_union, elem_of_singleton, Hx, elem_of_snoc. tauto.
  - intros c' Hne (Gh & Gq & G). unfold idle. rewrite HJ2. unfold Q1. rewrite job_updJob, decide_False by done.
    split; [by apply is_Some_alter|]. split; [|done]. rewrite link_in. tauto.
Qed.

(** A claim is given up; its successor list is emptied. *)
Lemma releaseClaim_refines c Q A C1 C2 s : refines Q A (C1 ++ c :: C2) s →
  let Q' := updJob c (set_successors []) (releaseIDsLocked c Q) in
  fifo_step s (ended s c) ∧ refines Q' A (C1 ++ C2) (ended s c) ∧ idle Q' (without c (jobs s)) c ∧
  (∀ c', idle Q (jobs s) c' → idle Q' (without c (jobs s)) c').
Proof.
  intros (H & Hc & Hx) Q'. set (Q1 := releaseIDsLocked c Q) in *.
  assert (Hin : c ∈ (jobs s).*1) by (apply (q_claim H); apply elem_of_app; right; left).
  destruct (i_claim _ _ _ _ _ H c) as (Hz & Htb & Hk); [apply elem_of_app; right; left|].
  assert (HX : qinv Q A (C1 ++ C2) [c] (jobs s)).
  { destruct H as [G1 G2 G3 G4 G5 G6 G7 G8]. constructor; try done.
    - rewrite G3. unfold places. solve_Permutation.
    - intros x Hx'. apply G6. apply elem_of_app. apply elem_of_app in Hx' as [?|?]; [by left|right; by right]. }
  assert (H1 : qinv Q1 A (C1 ++ C2) [] (without c (jobs s))) by by apply qinv_release.
  pose proof (frame_releaseIDs c Q) as HF. pose proof (evolves_release c _ _ _ _ _ HX Hin) as HE.
  assert (Hh : is_Some (heap Q1 !! c)) by (apply (f_dom _ _ HF); by apply (q_heap H)).
  assert (Hout : c ∉ (without c (jobs s)).*1) by (rewrite elem_of_without; tauto).
  split; [destruct s; apply ff_end; apply Hx; right; apply elem_of_app; right; left|].
  split; [split; [by apply updJob_idle|split]|split].
  - assert (EP : pending Q' = pending Q) by exact (f_pending _ _ HF).
    assert (EA : awaitReserved Q' = awaitReserved Q) by exact (f_await _ _ HF).
    unfold counted, ended. cbn [jobs]. rewrite EP, EA. destruct Hc as [Hc1 Hc2]. split; [|done].
    rewrite without_length by (done || apply (i_ord _ _ _ _ _ H)). autorewrite with go_len in *. lia.
  - intros y. simpl. rewrite elem_of_difference, elem_of_singleton, Hx.
    pose proof (executing_nodup _ _ _ _ _ H) as Hn. rewrite !elem_of_app, elem_of_cons.
    apply NoDup_app in Hn as (_ & Hd & (_ & Hd1 & [Hd2 _]%NoDup_cons)%NoDup_app).
    assert (c ∉ A.*2) by (intros Hca; apply (Hd c Hca), elem_of_app; right; left).
    assert (c ∉ C1) by (intros Hcc; apply (Hd1 c Hcc); left).
    destruct (decide (y = c)) as [->|]; tauto.
  - unfold idle, Q'. rewrite job_updJob, decide_True by done. split; [by apply is_Some_alter|]. split; [done|].
    unfold Q1. by rewrite (release_free c _ _ _ _ _ c HX Hin Hz).
  - intros c' Hi. assert (Hne : c' ≠ c) by (intros ->; by destruct Hi as (_ & ? & _)).
    apply (e_idle _ _ _ _ HE) in Hi as (Gh & Gq & G). unfold idle, Q'.
    rewrite job_updJob, decide_False by done. split; [by apply is_Some_alter|done].
Qed.
