(* ===== verification/NestBatch.v ===== *)
(** * Batches under the lock of the dispatch queue (framework/nest/try_batch.go)

    Preparing a group (claims, conversions of conflicting targets), finishing
    it and giving up claims, as steps of the order specification. *)

From S2P Require Import Prelude NestJob NestQueue NestRun NestOrder NestQueueInv NestSim.

(** ** The claims a batch holds *)

Definition held (k : list jobp) (g : list tryBatchPlan) : list jobp :=
  fst <$> filter (λ x, claimed (snd x) = true) (zip k g).

Definition claimsHeld (b : tryBatchJob) : list jobp := held (claims b) (group b).

Lemma held_app k1 k2 g1 g2 : length k1 = length g1 → held (k1 ++ k2) (g1 ++ g2) = held k1 g1 ++ held k2 g2.
Proof. intros H. unfold held. by rewrite zip_with_app, filter_app, fmap_app. Qed.

Lemma held_cons c k pl g : held (c :: k) (pl :: g) = (if claimed pl then [c] else []) ++ held k g.
Proof. unfold held. simpl. rewrite filter_cons. simpl. by destruct (claimed pl). Qed.

Lemma held_none k g : Forall (λ pl, claimed pl = false) g → held k g = [].
Proof.
  revert k. induction g as [|pl g IH]; intros [|c k] H; try done. apply Forall_cons in H as [Hp H].
  rewrite held_cons, Hp. by apply IH.
Qed.

(** The [n]-th plan with its claim. *)
Lemma held_at n k g : length k = length g → (n < length g)%nat →
  ∃ k1 c k2 g1 pl g2, k = k1 ++ c :: k2 ∧ g = g1 ++ pl :: g2 ∧ length k1 = n ∧ length g1 = n ∧
    k !! n = Some c ∧ g !! n = Some pl ∧
    (∀ pl', held k (<[n := pl']> g) = held k1 g1 ++ (if claimed pl' then [c] else []) ++ held k2 g2) ∧
    held k g = held k1 g1 ++ (if claimed pl then [c] else []) ++ held k2 g2.
Proof.
  intros Hl Hn. destruct (lookup_lt_is_Some_2 g n Hn) as [pl Hpl].
  destruct (lookup_lt_is_Some_2 k n ltac:(lia)) as [c Hc].
  destruct (list_elem_of_split_length _ _ _ Hpl) as (g1 & g2 & Eg & Eg1).
  destruct (list_elem_of_split_length _ _ _ Hc) as (k1 & k2 & Ek & Ek1).
  exists k1, c, k2, g1, pl, g2. split_and!; try done.
  - intros pl'. subst g k. replace n with (length g1 + 0)%nat by lia. rewrite insert_app_r. simpl.
    rewrite held_app by lia. by rewrite held_cons.
  - subst g k. rewrite held_app by lia. by rewrite held_cons.
Qed.

Lemma refines_perm Q A C C' s : C ≡ₚ C' → refines Q A C s → refines Q A C' s.
Proof.
  intros HC ([H1 H2 H3 H4 H5 H6 H7 H8] & [Hc1 Hc2] & Hx). split; [|split].
  - constructor; try done.
    + rewrite H3. unfold places. by rewrite HC.
    + intros c Hc. apply H6. by rewrite HC.
  - split; [|done]. rewrite Hc1. unfold zlen. by rewrite HC.
  - intros p. by rewrite Hx, HC.
Qed.

Section batch.
Context (A : actives) (C0 : list jobp) (p : jobp).

(** The queue while batch [p] is executed; [C0]: the claims of the others. *)
Record bctx (Q : dispatchQueue) (s : fifo) : Prop := mkBctx {
  c_ref : refines Q A (C0 ++ claimsHeld (batch Q p)) s;
  c_some : is_Some (batches Q !! p);
  c_claims : length (claims (batch Q p)) = tryBatchGroup;
  c_group : length (group (batch Q p)) = tryBatchGroup;
  c_nodup : NoDup (claims (batch Q p));
  c_idle : ∀ i c, claims (batch Q p) !! i = Some c → claimed (plan (batch Q p) i) = false → idle Q (jobs s) c
}.

(** What a step of the batch leaves to the rest of the queue. *)
Record bstep (Q : dispatchQueue) (s : fifo) (Q' : dispatchQueue) (s' : fifo) : Prop := mkBstep {
  t_spec : rtc fifo_step s s';
  t_kind : ∀ x, is_Some (heap Q !! x) → is_Some (heap Q' !! x) ∧
    tryBatch (job Q' x) = tryBatch (job Q x) ∧ continuation (job Q' x) = continuation (job Q x) ∧
    (x ∉ claims (batch Q p) → ids (job Q' x) = ids (job Q x));
  t_new : ∀ x, x ∈ (jobs s').*1 → x ∈ (jobs s).*1 ∨ (is_Some (heap Q' !! x) ∧ tryBatch (job Q' x) = false);
  t_old : ∀ x, x ∈ (jobs s).*1 → x ∉ claims (batch Q p) → x ∈ (jobs s').*1;
  t_idle : ∀ c, c ∉ claims (batch Q p) → idle Q (jobs s) c → idle Q' (jobs s') c;
  t_others : ∀ p', p' ≠ p → batches Q' !! p' = batches Q !! p';
  t_static : claims (batch Q' p) = claims (batch Q p) ∧ items (batch Q' p) = items (batch Q p) ∧
    bLane (batch Q' p) = bLane (batch Q p);
  t_started : started Q = true → started Q' = true;
  t_stopping : stopping Q = true → stopping Q' = true;
  t_fresh : (fresh Q <= fresh Q')%N
}.

Lemma bstep_refl Q s : bstep Q s Q s.
Proof. constructor; try done. auto. Qed.

Lemma bstep_trans Q1 s1 Q2 s2 Q3 s3 : bstep Q1 s1 Q2 s2 → bstep Q2 s2 Q3 s3 → bstep Q1 s1 Q3 s3.
Proof.
  intros H1 H2. destruct (t_static _ _ _ _ H1) as (E1 & E2 & E3), (t_static _ _ _ _ H2) as (E4 & E5 & E6).
  constructor.
  - etrans; [apply H1|apply H2].
  - intros x Hx. destruct (t_kind _ _ _ _ H1 x Hx) as (G1 & G2 & G3 & G4).
    destruct (t_kind _ _ _ _ H2 x G1) as (G5 & G6 & G7 & G8). rewrite E1 in G8.
    split; [done|]. split; [congruence|]. split; [congruence|]. intros Hc. by rewrite G8, G4.
  - intros x [Hx|Hx]%(t_new _ _ _ _ H2); [|by right]. apply (t_new _ _ _ _ H1) in Hx as [?|[G1 G2]]; [by left|right].
    destruct (t_kind _ _ _ _ H2 x G1) as (G3 & G4 & _). by rewrite G4.
  - intros x Hx Hc. apply (t_old _ _ _ _ H2); [|by rewrite E1]. by apply (t_old _ _ _ _ H1).
  - intros c Hc Hi. apply (t_idle _ _ _ _ H2); [by rewrite E1|]. by apply (t_idle _ _ _ _ H1).
  - intros p' Hp. by rewrite (t_others _ _ _ _ H2), (t_others _ _ _ _ H1).
  - split_and!; congruence.
  - intros E. by apply (t_started _ _ _ _ H2), (t_started _ _ _ _ H1).
  - intros E. by apply (t_stopping _ _ _ _ H2), (t_stopping _ _ _ _ H1).
  - pose proof (t_fresh _ _ _ _ H1). pose proof (t_fresh _ _ _ _ H2). lia.
Qed.

Lemma batch_upd f Q : is_Some (batches Q !! p) → batch (updBatch p f Q) p = f (batch Q p).
Proof. intros [b Hb]. unfold batch. simpl. by rewrite lookup_alter_eq, Hb. Qed.

(** A change of the batch that keeps its claims. *)
Lemma updBatch_ctx f Q s : bctx Q s →
  (∀ b, claims (f b) = claims b ∧ items (f b) = items b ∧ bLane (f b) = bLane b) →
  length (group (f (batch Q p))) = length (group (batch Q p)) →
  claimsHeld (f (batch Q p)) = claimsHeld (batch Q p) →
  (∀ i, claimed (plan (f (batch Q p)) i) = false → claimed (plan (batch Q p) i) = false) →
  bctx (updBatch p f Q) s ∧ bstep Q s (updBatch p f Q) s.
Proof.
  intros [H1 H2 H3 H4 H5 H6] Hf Hg Hh Hi. destruct (Hf (batch Q p)) as (F1 & F2 & F3).
  pose proof (batch_upd f Q H2) as HB. split.
  - constructor; rewrite ?HB, ?F1; try done.
    + rewrite Hh. by apply (refines_view Q).
    + by apply lookup_alter_is_Some.
    + by rewrite Hg.
    + intros i c Hc Hcl. by apply (H6 i c Hc), Hi.
  - constructor; rewrite ?HB; try done; [auto|].
    intros p' Hp. simpl. by rewrite lookup_alter_ne.
Qed.

Lemma setPlan_ctx n pl Q s : bctx Q s → (n < tryBatchGroup)%nat → claimed pl = claimed (plan (batch Q p) n) →
  bctx (setPlan p n pl Q) s ∧ bstep Q s (setPlan p n pl Q) s.
Proof.
  intros H Hn Hpl. pose proof H as [_ _ H3 H4 _ _].
  destruct (held_at n (claims (batch Q p)) (group (batch Q p))) as (k1 & c & k2 & g1 & pl0 & g2 & _ & _ & _ & _ & Hk & Hg & Hins & Hold); [lia|lia|].
  assert (Hpl0 : plan (batch Q p) n = pl0) by (unfold plan; by rewrite Hg).
  apply updBatch_ctx; simpl; try done.
  - by rewrite length_insert.
  - unfold claimsHeld. simpl. by rewrite Hins, Hold, Hpl, Hpl0.
  - intros i. unfold plan at 1. simpl. destruct (decide (i = n)) as [->|Hne].
    + rewrite list_lookup_insert_eq by lia. simpl. congruence.
    + by rewrite list_lookup_insert_ne.
Qed.

Lemma evolves_ctx Q s Q' s' : bctx Q s → rtc fifo_step s s' →
  refines Q' A (C0 ++ claimsHeld (batch Q p)) s' → evolves Q (jobs s) Q' (jobs s') →
  (∀ x, x ∈ (jobs s').*1 → x ∈ (jobs s).*1 ∨ (is_Some (heap Q' !! x) ∧ tryBatch (job Q' x) = false)) →
  (∀ x, x ∈ (jobs s).*1 → x ∈ (jobs s').*1) →
  bctx Q' s' ∧ bstep Q s Q' s' ∧ batch Q' p = batch Q p.
Proof.
  intros [H1 H2 H3 H4 H5 H6] Hs HR HE Hnew Hold. pose proof (e_batches _ _ _ _ HE) as EB.
  assert (HB : batch Q' p = batch Q p) by (unfold batch; by rewrite EB).
  split; [|split; [|done]].
  - constructor; rewrite ?HB, ?EB; try done. intros i c Hc Hcl. apply (e_idle _ _ _ _ HE). by eapply H6.
  - constructor; rewrite ?HB, ?EB; try done; try apply HE.
    + intros x Hx. destruct (e_kind _ _ _ _ HE x Hx) as (?&?&?&?). done.
    + intros x Hx _. by apply Hold.
    + intros c _. apply HE.
Qed.

(** ** Conversions *)

Lemma convert_ctx b id fenced Q s Q' r : bctx Q s → convertTryBatchTargetLocked b id fenced Q = (Q', r) →
  ∃ s', bctx Q' s' ∧ bstep Q s Q' s' ∧ batch Q' p = batch Q p ∧ (∀ x, is_Some (heap Q !! x) → ids (job Q' x) = ids (job Q x)).
Proof.
  intros H. unfold convertTryBatchTargetLocked.
  assert (Hsame : ∃ s', bctx Q s' ∧ bstep Q s Q s' ∧ batch Q p = batch Q p ∧
    (∀ x, is_Some (heap Q !! x) → ids (job Q x) = ids (job Q x))) by (exists s; split_and!; try done; apply bstep_refl).
  destruct (stopping Q); [by intros [= <- <-]|]. destruct fenced; [by intros [= <- <-]|].
  set (j := set_stage _ _ _). assert (Hj : newJob j) by (repeat split; try done; apply jobIDs_NoDup).
  destruct (admitLocked j Q) as [Q1 r1] eqn:E. pose proof (admitLocked_refines _ _ _ _ _ _ _ (c_ref _ _ H) Hj eq_refl E) as HA.
  destruct r1 as [e|]; intros [= <- <-]; [destruct HA as [HR HE]|destruct HA as (HR & HE & Hnh & Hnt)].
  - destruct (evolves_ctx Q s Q1 s H (rtc_refl _ _) HR HE) as (? & ? & ?); [auto..|].
    exists s. split_and!; try done. intros x Hx. apply (e_kind _ _ _ _ HE x Hx).
  - set (Q2 := updLane _ _ Q1). assert (HR2 : refines Q2 A (C0 ++ claimsHeld (batch Q p)) (submitted s (fresh Q) (ids j))).
    { by apply refines_wake. }
    assert (HE2 : evolves Q (jobs s) Q2 (jobs (submitted s (fresh Q) (ids j)))).
    { eapply evolves_trans; [apply HE|]. apply evolves_updLane. }
    assert (Hst : fifo_step s (submitted s (fresh Q) (ids j))).
    { destruct s as [q x]. apply ff_submit. intros Hin. destruct (c_ref _ _ H) as (Hq & _).
      apply (q_lt Hq) in Hin. lia. }
    destruct (evolves_ctx Q s Q2 _ H (rtc_once _ _ Hst) HR2 HE2) as (? & ? & ?).
    { intros x. simpl. rewrite link_in. intros [?| ->]; [by left|by right]. }
    { intros x Hx. simpl. rewrite link_in. by left. }
    eexists. split_and!; try done. intros x Hx. apply (e_kind _ _ _ _ HE2 x Hx).
Qed.

(** ** Claims *)

Lemma claims_at Q s n : bctx Q s → (n < tryBatchGroup)%nat →
  ∃ c, claims (batch Q p) !! n = Some c ∧ default 0%N (claims (batch Q p) !! n) = c.
Proof.
  intros H Hn. destruct (lookup_lt_is_Some_2 (claims (batch Q p)) n) as [c Hc]; [by rewrite (c_claims _ _ H)|].
  exists c. by rewrite Hc.
Qed.

Lemma claim_ctx n id Q s : bctx Q s → (n < tryBatchGroup)%nat → claimed (plan (batch Q p) n) = false →
  tails Q !! id = None →
  ∃ s', bctx (claim p n id Q) s' ∧ bstep Q s (claim p n id Q) s' ∧
    batch (claim p n id Q) p = mkBatch (bLane (batch Q p)) (items (batch Q p)) (claims (batch Q p))
      (<[n := mkPlan tryBatchRun true false None]> (group (batch Q p))) (groupN (batch Q p)) (next (batch Q p)) ∧
    (∀ x, is_Some (heap Q !! x) →
      ids (job (claim p n id Q) x) = if decide (claims (batch Q p) !! n = Some x) then [id] else ids (job Q x)).
Proof.
  intros H Hn Hcl Ht. destruct (claims_at Q s n H Hn) as (c & Hc & Hd). unfold claim. rewrite Hd.
  fold (takeClaim c id (bLane (batch Q p)) Q). set (Q1 := takeClaim c id (bLane (batch Q p)) Q).
  pose proof H as [H1 H2 H3 H4 H5 H6]. pose proof (H6 n c Hc Hcl) as Hi.
  destruct (claim_refines c id (bLane (batch Q p)) Q A _ s H1 Hi Ht) as (S1 & S2 & HR & Hid). fold Q1 in HR, Hid.
  set (s' := began (submitted s c [id]) c) in *.
  assert (HB : batch (setPlan p n (mkPlan tryBatchRun true false None) Q1) p =
    mkBatch (bLane (batch Q p)) (items (batch Q p)) (claims (batch Q p))
      (<[n := mkPlan tryBatchRun true false None]> (group (batch Q p))) (groupN (batch Q p)) (next (batch Q p))).
  { unfold setPlan. by rewrite batch_upd. }
  assert (Hc_in : c ∈ claims (batch Q p)) by (by apply list_elem_of_lookup_2 in Hc).
  assert (HJ : ∀ x, job Q1 x = if decide (x = c) then set_ids [id] (bLane (batch Q p)) (job Q c) else job Q x).
  { intros x. unfold Q1, takeClaim. apply (job_updJob c _ Q x). apply Hi. }
  destruct (held_at n (claims (batch Q p)) (group (batch Q p))) as (k1 & c' & k2 & g1 & pl0 & g2 & _ & _ & _ & _ & Hk & Hg & Hins & Hold); [lia|lia|].
  assert (c' = c) as -> by congruence. unfold plan in Hcl. rewrite Hg in Hcl. simpl in Hcl. rewrite Hcl in Hold.
  exists s'. split; [|split; [|split; [done|]]].
  - constructor; rewrite ?HB; simpl; try done.
    + apply (refines_view Q1); [|done..]. refine (refines_perm _ _ _ _ _ _ HR). unfold claimsHeld. simpl.
      rewrite Hins, Hold. simpl. solve_Permutation.
    + by apply lookup_alter_is_Some.
    + by rewrite length_insert.
    + intros i c' Hc' Hp'. destruct (decide (i = n)) as [->|Hne].
      { unfold plan in Hp'. simpl in Hp'. by rewrite list_lookup_insert_eq in Hp' by lia. }
      unfold plan in Hp'. simpl in Hp'. rewrite list_lookup_insert_ne in Hp' by done.
      apply Hid; [|by apply (H6 i)]. intros ->. apply Hne. by eapply NoDup_lookup.
  - constructor; rewrite ?HB; try done.
    + eapply rtc_l; [exact S1|]. by apply rtc_once.
    + intros x Hx. change (job (setPlan _ _ _ Q1)) with (job Q1). change (heap (setPlan _ _ _ Q1)) with (heap Q1).
      split; [by apply is_Some_alter|]. rewrite HJ. destruct (decide (x = c)) as [->|]; [|done].
      split; [done|]. split; [done|]. intros []. done.
    + intros x. simpl. rewrite link_in. intros [?| ->]; [by left|right].
      change (job (setPlan _ _ _ Q1)) with (job Q1). destruct Hi as (Hh & _ & _ & _ & Htb & _).
      split; [by apply is_Some_alter|]. by rewrite HJ, decide_True.
    + intros x Hx _. simpl. rewrite link_in. by left.
    + intros x Hx Hix. apply Hid; [|done]. by intros ->.
    + intros p' Hp. simpl. by rewrite lookup_alter_ne.
  - intros x Hx. change (job (setPlan _ _ _ Q1)) with (job Q1). rewrite HJ, Hc.
    destruct (decide (x = c)) as [->|Hne]; [by rewrite decide_True|]. rewrite decide_False; [done|congruence].
Qed.

(** Everything of the batch but the [n]-th plan. *)
Definition withPlan (n : nat) (pl : tryBatchPlan) (b : tryBatchJob) : tryBatchJob :=
  mkBatch (bLane b) (items b) (claims b) (<[n := pl]> (group b)) (groupN b) (next b).

Definition unclaim (pl : tryBatchPlan) : tryBatchPlan := mkPlan (step pl) false (busy pl) (handBack pl).

Lemma releaseClaim_ctx i Q s : bctx Q s → (i < tryBatchGroup)%nat →
  ∃ s', bctx (releaseClaim p Q i) s' ∧ bstep Q s (releaseClaim p Q i) s' ∧
    batch (releaseClaim p Q i) p = withPlan i (unclaim (plan (batch Q p) i)) (batch Q p) ∧
    (∀ x, is_Some (heap Q !! x) → ids (job (releaseClaim p Q i) x) = ids (job Q x)).
Proof.
  intros H Hn. unfold releaseClaim. destruct (claimed (plan (batch Q p) i)) eqn:Hcl; simpl.
  2: { exists s. split; [done|]. split; [apply bstep_refl|]. split; [|done].
       unfold withPlan, unclaim. rewrite list_insert_id; [by destruct (batch Q p)|].
       destruct (lookup_lt_is_Some_2 (group (batch Q p)) i) as [pl Hpl]; [rewrite (c_group _ _ H); done|].
       unfold plan in *. rewrite Hpl in *. simpl in *. destruct pl; simpl in *. by rewrite Hcl. }
  destruct (claims_at Q s i H Hn) as (c & Hc & Hd). rewrite Hd. pose proof H as [H1 H2 H3 H4 H5 H6].
  destruct (held_at i (claims (batch Q p)) (group (batch Q p))) as (k1 & c' & k2 & g1 & pl0 & g2 & _ & _ & _ & _ & Hk & Hg & Hins & Hold); [lia|lia|].
  assert (c' = c) as -> by congruence. assert (Hpl : plan (batch Q p) i = pl0) by (unfold plan; by rewrite Hg).
  rewrite Hpl in *. rewrite Hcl in Hold.
  assert (HR0 : refines Q A ((C0 ++ held k1 g1) ++ c :: held k2 g2) s).
  { refine (refines_perm _ _ _ _ _ _ H1). unfold claimsHeld. rewrite Hold. simpl. solve_Permutation. }
  destruct (releaseClaim_refines c Q A _ _ s HR0) as (Hs & HR & Hidc & Hid).
  set (Q1 := updJob c (set_successors []) (releaseIDsLocked c Q)) in *. fold (unclaim pl0).
  assert (HF : frame Q Q1). { etrans; [apply frame_releaseIDs|]. by apply frame_updJob. }
  assert (EB : batches Q1 = batches Q) by apply (f_batches _ _ HF).
  assert (HB1 : batch Q1 p = batch Q p) by (unfold batch; by rewrite EB).
  assert (HB : batch (setPlan p i (unclaim pl0) Q1) p = withPlan i (unclaim pl0) (batch Q p)).
  { unfold setPlan. rewrite batch_upd by by rewrite EB. by rewrite HB1. }
  exists (ended s c). split; [|split; [|split; [done|]]].
  - constructor; rewrite ?HB; simpl; try done.
    + apply (refines_view Q1); [|done..]. refine (refines_perm _ _ _ _ _ _ HR). unfold claimsHeld. simpl.
      rewrite Hins. simpl. solve_Permutation.
    + apply lookup_alter_is_Some. change (is_Some (batches Q1 !! p)). by rewrite EB.
    + by rewrite length_insert.
    + intros i' c' Hc' Hp'. destruct (decide (i' = i)) as [->|Hne]; [by assert (c' = c) as -> by congruence|].
      unfold plan in Hp'. simpl in Hp'. rewrite list_lookup_insert_ne in Hp' by done. by apply Hid, (H6 i').
  - constructor; rewrite ?HB; try done; try apply HF.
    + by apply rtc_once.
    + intros x Hx. split; [by apply (f_dom _ _ HF)|]. by destruct (f_job _ _ HF x) as (?&?&?&?).
    + intros x Hx. left. by apply elem_of_without in Hx as [? _].
    + intros x Hx Hne. apply elem_of_without. split; [done|]. intros ->. apply Hne. by apply list_elem_of_lookup_2 in Hc.
    + intros x _ Hix. by apply Hid.
    + intros p' Hp. rewrite <- EB. by apply lookup_alter_ne.
    + intros Est. change (started Q1 = true). by rewrite (f_started _ _ HF).
    + intros Est. change (stopping Q1 = true). by rewrite (f_stopping _ _ HF).
    + change (fresh Q <= fresh Q1)%N. by rewrite (f_fresh _ _ HF).
  - intros x _. by destruct (f_job _ _ HF x) as (_ & ? & _).
Qed.

(** Giving up the claims of the first [n] plans. *)
Lemma releaseClaims_ctx l Q s : bctx Q s → Forall (λ i, (i < tryBatchGroup)%nat) l →
  ∃ s', bctx (foldl (releaseClaim p) Q l) s' ∧ bstep Q s (foldl (releaseClaim p) Q l) s' ∧
    groupN (batch (foldl (releaseClaim p) Q l) p) = groupN (batch Q p) ∧
    next (batch (foldl (releaseClaim p) Q l) p) = next (batch Q p) ∧
    (∀ i, plan (batch (foldl (releaseClaim p) Q l) p) i =
      if decide (i ∈ l) then unclaim (plan (batch Q p) i) else plan (batch Q p) i).
Proof.
  revert Q s. induction l as [|i l IH]; intros Q s H Hl.
  { exists s. split; [done|]. split; [apply bstep_refl|done]. }
  apply Forall_cons in Hl as [Hi Hl]. destruct (releaseClaim_ctx i Q s H Hi) as (s1 & H1 & S1 & E1 & _).
  destruct (IH _ _ H1 Hl) as (s2 & H2 & S2 & E2 & E3 & E4). exists s2. simpl.
  split; [done|]. split; [by eapply bstep_trans|]. rewrite E2, E3, E1. split; [done|]. split; [done|].
  intros j. rewrite E4, E1. assert (Hpl : plan (withPlan i (unclaim (plan (batch Q p) i)) (batch Q p)) j =
    if decide (j = i) then unclaim (plan (batch Q p) i) else plan (batch Q p) j).
  { unfold plan, withPlan. simpl. destruct (decide (j = i)) as [->|Hne].
    - rewrite list_lookup_insert_eq; [done|]. by rewrite (c_group _ _ H).
    - by rewrite list_lookup_insert_ne. }
  rewrite Hpl. destruct (decide (j = i)) as [->|Hne].
  - rewrite (decide_True (P := i ∈ i :: l)) by left. by destruct (decide (i ∈ l)).
  - destruct (decide (j ∈ l)); [by rewrite decide_True by by right|]. rewrite decide_False; [done|].
    intros [?|?]%elem_of_cons; done.
Qed.

(** ** Preparing a group *)

Lemma plan_withPlan n pl b i : (n < length (group b))%nat →
  plan (withPlan n pl b) i = if decide (i = n) then pl else plan b i.
Proof.
  intros Hn. unfold plan, withPlan. simpl. destruct (decide (i = n)) as [->|Hne].
  - by rewrite list_lookup_insert_eq.
  - by rewrite list_lookup_insert_ne.
Qed.

Lemma batch_setPlan n pl Q s : bctx Q s → batch (setPlan p n pl Q) p = withPlan n pl (batch Q p).
Proof. intros H. unfold setPlan. by rewrite batch_upd by apply (c_some _ _ H). Qed.

Lemma held_claimed Q s i c : bctx Q s → claims (batch Q p) !! i = Some c → claimed (plan (batch Q p) i) = true →
  c ∈ claimsHeld (batch Q p).
Proof.
  intros H Hc Hcl.
  destruct (held_at i (claims (batch Q p)) (group (batch Q p))) as (k1 & c' & k2 & g1 & pl0 & g2 & _ & _ & _ & _ & Hk & Hg & _ & Hold).
  { by rewrite (c_claims _ _ H), (c_group _ _ H). }
  { rewrite (c_group _ _ H), <- (c_claims _ _ H). by eapply lookup_lt_Some. }
  assert (c' = c) as -> by congruence. unfold plan in Hcl. rewrite Hg in Hcl. simpl in Hcl.
  unfold claimsHeld. rewrite Hold, Hcl. set_solver.
Qed.

Lemma held_pending Q s i c : bctx Q s → claims (batch Q p) !! i = Some c → claimed (plan (batch Q p) i) = true →
  c ∈ (jobs s).*1.
Proof.
  intros H Hc Hcl. destruct (c_ref _ _ H) as (Hq & _). apply (q_claim Hq), elem_of_app. right. by eapply held_claimed.
Qed.

(** The plans from [n] on hold no claim; those before that do are running
    the target they stand for. *)
Record planned (n : nat) (Q : dispatchQueue) : Prop := mkPlanned {
  g_free : ∀ i, (n ≤ i)%nat → claimed (plan (batch Q p) i) = false;
  g_run : ∀ i c, claims (batch Q p) !! i = Some c → claimed (plan (batch Q p) i) = true →
    step (plan (batch Q p) i) = tryBatchRun ∧
    ∃ id, items (batch Q p) !! (next (batch Q p) + i)%nat = Some id ∧ ids (job Q c) = [id];
  g_bound : (next (batch Q p) + n ≤ length (items (batch Q p)))%nat
}.

(** One more target without a claim. *)
Lemma planned_skip n pl Q Q1 s s1 : bctx Q s → bctx Q1 s1 → bstep Q s Q1 s1 → (n < tryBatchGroup)%nat →
  batch Q1 p = batch Q p → (∀ x, is_Some (heap Q !! x) → ids (job Q1 x) = ids (job Q x)) →
  planned n Q → (n < length (items (batch Q p)) - next (batch Q p))%nat → claimed pl = false →
  bctx (setPlan p n pl Q1) s1 ∧ bstep Q s (setPlan p n pl Q1) s1 ∧ planned (S n) (setPlan p n pl Q1).
Proof.
  intros H H1 S1 Hn HB Hids [G1 G2 G3] Hlt Hpl.
  destruct (setPlan_ctx n pl Q1 s1 H1 Hn) as [H2 S2]; [by rewrite HB, G1|].
  split; [done|]. split; [by eapply bstep_trans|].
  pose proof (batch_setPlan n pl Q1 s1 H1) as E. rewrite HB in E. constructor; rewrite E; simpl.
  - intros i Hi. rewrite plan_withPlan by by rewrite (c_group _ _ H). rewrite decide_False by lia. apply G1. lia.
  - intros i c Hc. rewrite plan_withPlan by by rewrite (c_group _ _ H).
    destruct (decide (i = n)) as [->|Hne]; [congruence|]. intros Hcl.
    destruct (G2 i c Hc Hcl) as (E1 & id & E2 & E3). split; [done|]. exists id. split; [done|].
    change (job (setPlan p n pl Q1) c) with (job Q1 c). rewrite Hids; [done|].
    destruct (c_ref _ _ H) as (Hq & _). apply (q_heap Hq). by eapply held_pending.
  - lia.
Qed.

(** One more target claimed. *)
Lemma planned_claim n id Q s : bctx Q s → planned n Q → (n < tryBatchGroup)%nat → tails Q !! id = None →
  items (batch Q p) !! (next (batch Q p) + n)%nat = Some id →
  ∃ s', bctx (claim p n id Q) s' ∧ bstep Q s (claim p n id Q) s' ∧ planned (S n) (claim p n id Q) ∧
    next (batch (claim p n id Q) p) = next (batch Q p).
Proof.
  intros H [G1 G2 G3] Hn Ht Hid. destruct (claim_ctx n id Q s H Hn (G1 n ltac:(lia)) Ht) as (s' & H' & S' & E & Hids).
  exists s'. split; [done|]. split; [done|]. rewrite E. split; [|done].
  fold (withPlan n (mkPlan tryBatchRun true false None) (batch Q p)) in E. constructor; rewrite E; simpl.
  - intros i Hi. rewrite plan_withPlan by by rewrite (c_group _ _ H). rewrite decide_False by lia. apply G1. lia.
  - intros i c Hc. rewrite plan_withPlan by by rewrite (c_group _ _ H). destruct (decide (i = n)) as [->|Hne]; intros Hcl.
    + split; [done|]. exists id. split; [done|]. rewrite Hids, decide_True; [done..|].
      eapply (c_idle _ _ H); [done|]. by apply G1.
    + destruct (G2 i c Hc Hcl) as (E1 & id' & E2 & E3). split; [done|]. exists id'. split; [done|].
      rewrite Hids, decide_False; [done| |].
      * intros Hc'. apply Hne. by eapply NoDup_lookup; [apply (c_nodup _ _ H)|..].
      * destruct (c_ref _ _ H) as (Hq & _). apply (q_heap Hq). by eapply held_pending.
  - apply lookup_lt_Some in Hid. lia.
Qed.

Lemma setGroupN_ctx n Q s : bctx Q s → planned n Q →
  bctx (setGroupN p n Q) s ∧ bstep Q s (setGroupN p n Q) s ∧ planned (groupN (batch (setGroupN p n Q) p)) (setGroupN p n Q) ∧
  groupN (batch (setGroupN p n Q) p) = n ∧ next (batch (setGroupN p n Q) p) = next (batch Q p).
Proof.
  intros H [G1 G2 G3]. pose proof (batch_upd (λ b, mkBatch (bLane b) (items b) (claims b) (group b) n (next b)) Q (c_some _ _ H)) as E.
  fold (setGroupN p n Q) in E. destruct (updBatch_ctx (λ b, mkBatch (bLane b) (items b) (claims b) (group b) n (next b)) Q s H) as [H' S'];
    try done. rewrite E. simpl. split_and!; try done. constructor; rewrite E; try done.
Qed.

(** The plan of the [n]-th target is reset. *)
Lemma planned_reset n Q s : bctx Q s → planned n Q → (n < tryBatchGroup)%nat →
  (n < length (items (batch Q p)) - next (batch Q p))%nat →
  bctx (setPlan p n noPlan Q) s ∧ bstep Q s (setPlan p n noPlan Q) s ∧ planned n (setPlan p n noPlan Q) ∧
  items (batch (setPlan p n noPlan Q) p) = items (batch Q p) ∧ next (batch (setPlan p n noPlan Q) p) = next (batch Q p).
Proof.
  intros H G Hn Hlt.
  destruct (planned_skip n noPlan Q Q s s H H (bstep_refl _ _) Hn eq_refl (λ x _, eq_refl) G Hlt eq_refl) as (H1 & S1 & [F1 F2 F3]).
  pose proof (batch_setPlan n noPlan Q s H) as E1. split_and!; try done; [|by rewrite E1..].
  constructor; [|done|lia]. intros i Hi. destruct (decide (i = n)) as [->|Hne]; [|apply F1; lia].
  rewrite E1, plan_withPlan by by rewrite (c_group _ _ H). by rewrite decide_True.
Qed.

(** One turn of the loop: it ends before a target this group has claimed
    already, and goes on otherwise. *)
Lemma prepare_target fenced fences fuel n id Q s :
  (n < tryBatchGroup)%nat → bctx Q s → planned n Q → items (batch Q p) !! (next (batch Q p) + n)%nat = Some id →
  (∃ Q1, prepareLoop fenced fences p (S fuel) n Q = setGroupN p n Q1 ∧ bctx Q1 s ∧ bstep Q s Q1 s ∧ planned n Q1 ∧
     next (batch Q1 p) = next (batch Q p) ∧ ∃ c, tails Q !! id = Some c ∧ c ∈ claims (batch Q p)) ∨
  (∃ Q2 s2, prepareLoop fenced fences p (S fuel) n Q = prepareLoop fenced fences p fuel (S n) Q2 ∧
     bctx Q2 s2 ∧ bstep Q s Q2 s2 ∧ planned (S n) Q2 ∧ next (batch Q2 p) = next (batch Q p)).
Proof.
  intros Hlt H G Eid. pose proof (lookup_lt_Some _ _ _ Eid) as Hid. simpl. rewrite Eid.
  destruct (planned_reset n Q s H G Hlt ltac:(lia)) as (H1 & S1 & G1 & EI & EN). set (Q1 := setPlan p n noPlan Q) in *.
  assert (Hskip : ∀ pl Qc sc, bctx Qc sc → bstep Q1 s Qc sc → batch Qc p = batch Q1 p →
    (∀ x, is_Some (heap Q1 !! x) → ids (job Qc x) = ids (job Q1 x)) → claimed pl = false →
    bctx (setPlan p n pl Qc) sc ∧ bstep Q s (setPlan p n pl Qc) sc ∧ planned (S n) (setPlan p n pl Qc) ∧
    next (batch (setPlan p n pl Qc) p) = next (batch Q p)).
  { intros pl Qc sc Hc Sc Ec Ic Hpl.
    destruct (planned_skip n pl Q1 Qc s sc H1 Hc Sc Hlt Ec Ic G1 ltac:(rewrite EI, EN; lia) Hpl) as (H2 & S2 & G2).
    split; [done|]. split; [by eapply bstep_trans|]. split; [done|]. by rewrite (batch_setPlan _ _ _ sc Hc), Ec. }
  destruct fenced.
  { right. exists (setPlan p n (mkPlan tryBatchHandBack false false (Some errTryBatchFenced)) Q1), s.
    split; [done|]. apply Hskip; try done. apply bstep_refl. }
  change (tails Q1) with (tails Q). destruct (tails Q !! id) as [tail|] eqn:Et.
  - case_bool_decide as Hcl.
    { left. exists Q1. split_and!; try done. by exists tail. }
    right. destruct (convertTryBatchTargetLocked (batch Q p) id (fences n) Q1) as [Qc r] eqn:Ec.
    destruct (convert_ctx _ _ _ _ _ _ _ H1 Ec) as (sc & Hc & Sc & EB & Ic). eexists _, sc. split; [done|].
    apply Hskip; try done. by destruct r.
  - right. destruct (planned_claim n id Q1 s H1 G1 Hlt Et) as (s2 & H2 & S2 & G2 & F2); [by rewrite EI, EN|].
    exists (claim p n id Q1), s2. split; [done|]. split; [done|]. split; [by eapply bstep_trans|]. split; [done|congruence].
Qed.

(** A prepared group: its claims are registered, the targets of its claims
    are the next of the batch. *)
Lemma prepareLoop_ctx fenced fences fuel n Q s : (n + fuel = tryBatchGroup)%nat → bctx Q s → planned n Q →
  let Q' := prepareLoop fenced fences p fuel n Q in
  ∃ s', bctx Q' s' ∧ bstep Q s Q' s' ∧ planned (groupN (batch Q' p)) Q' ∧
    next (batch Q' p) = next (batch Q p) ∧ (n ≤ groupN (batch Q' p) ≤ tryBatchGroup)%nat.
Proof.
  revert n Q s. induction fuel as [|fuel IH]; intros n Q s Hn H G.
  { exists s. destruct (setGroupN_ctx n Q s H G) as (? & ? & ? & E1 & E2). simpl. rewrite E1, E2 in *. split_and!; try done; lia. }
  destruct (items (batch Q p) !! (next (batch Q p) + n)%nat) as [id|] eqn:Eid.
  - destruct (prepare_target fenced fences fuel n id Q s ltac:(lia) H G Eid)
      as [(Q1 & -> & H1 & S1 & G1 & E1 & _)|(Q2 & s2 & -> & H2 & S2 & G2 & E2)].
    + exists s. destruct (setGroupN_ctx n Q1 s H1 G1) as (? & ? & ? & F1 & F2). simpl.
      rewrite F1, F2 in *. split_and!; try done; [by eapply bstep_trans|lia..].
    + destruct (IH (S n) Q2 s2 ltac:(lia) H2 G2) as (s' & H' & S' & G' & E' & L').
      exists s'. split; [done|]. split; [by eapply bstep_trans|]. split; [done|]. split; [congruence|lia].
  - simpl. rewrite Eid. exists s. destruct (setGroupN_ctx n Q s H G) as (? & ? & ? & E1 & E2).
    rewrite E1, E2 in *. split_and!; try done; lia.
Qed.

(** A batch with targets left prepares at least one. *)
Lemma prepare_progress fenced fences Q s : bctx Q s → planned 0 Q → (next (batch Q p) < length (items (batch Q p)))%nat →
  (0 < groupN (batch (prepareTryBatchGroupLocked fenced fences p Q) p))%nat.
Proof.
  intros H G Hlt. destruct (lookup_lt_is_Some_2 _ _ Hlt) as [id Eid]. rewrite <- (Nat.add_0_r (next _)) in Eid.
  destruct (prepare_target fenced fences 3 0 id Q s ltac:(unfold tryBatchGroup; lia) H G Eid)
    as [(Q1 & _ & _ & _ & _ & _ & c & Hc & Hin)|(Q2 & s2 & E & H2 & _ & G2 & _)].
  - apply list_elem_of_lookup in Hin as [i Hi]. destruct (c_idle _ _ H i c Hi) as (_ & Hq & _); [apply G; lia|].
    destruct Hq. destruct (c_ref _ _ H) as (Hq & _). rewrite (o_tail _ _ _ (i_ord _ _ _ _ _ Hq)) in Hc.
    by eapply chain_pending, last_Some_elem_of.
  - unfold prepareTryBatchGroupLocked, tryBatchGroup. rewrite E.
    destruct (prepareLoop_ctx fenced fences 3 1 Q2 s2 eq_refl H2 G2) as (s' & _ & _ & _ & _ & L). lia.
Qed.

(** ** Finishing a group *)

Lemma held_ext k g g' : claimed <$> g = claimed <$> g' → held k g = held k g'.
Proof.
  revert k g'. induction g as [|pl g IH]; intros k [|pl' g'] H; try done. simpl in H. injection H as Hp H.
  destruct k as [|c k]; [done|]. rewrite !held_cons, Hp. by rewrite (IH _ g').
Qed.

Lemma runPlans_claimed rs b : claimed <$> runPlans rs b = claimed <$> group b.
Proof.
  apply list_eq. intros i. rewrite !list_lookup_fmap. unfold runPlans. rewrite list_lookup_imap.
  destruct (group b !! i) as [pl|]; simpl; [|done]. destruct pl as [[] ???]; simpl; try done. by case_match.
Qed.

Lemma plan_claimed b b' i : claimed <$> group b = claimed <$> group b' → claimed (plan b i) = claimed (plan b' i).
Proof.
  intros H. apply (f_equal (.!! i)) in H. rewrite !list_lookup_fmap in H. unfold plan.
  destruct (group b !! i), (group b' !! i); simpl in *; congruence.
Qed.

Lemma groupRan_batch rs Q s : bctx Q s → batch (groupRan rs p Q) p =
  mkBatch (bLane (batch Q p)) (items (batch Q p)) (claims (batch Q p)) (runPlans rs (batch Q p)) (groupN (batch Q p))
    (next (batch Q p) + groupN (batch Q p)).
Proof. intros H. unfold groupRan. by rewrite batch_upd by apply (c_some _ _ H). Qed.

Lemma groupRan_ctx rs Q s : bctx Q s → bctx (groupRan rs p Q) s ∧ bstep Q s (groupRan rs p Q) s.
Proof.
  intros H. apply updBatch_ctx; simpl; try done.
  - unfold runPlans. by rewrite length_imap.
  - apply held_ext, runPlans_claimed.
  - intros i Hi. rewrite <- Hi. symmetry. apply plan_claimed. apply runPlans_claimed.
Qed.

(** The claims, the group and the position stay. *)
Definition sameGroup (Q Q' : dispatchQueue) : Prop :=
  groupN (batch Q' p) = groupN (batch Q p) ∧ next (batch Q' p) = next (batch Q p) ∧
  ∀ i, claimed (plan (batch Q' p) i) = claimed (plan (batch Q p) i).

Lemma convertBusy_ctx fences st i Q s : bctx Q s → (i < tryBatchGroup)%nat →
  ∃ s', bctx (convertBusy fences p st Q i) s' ∧ bstep Q s (convertBusy fences p st Q i) s' ∧
    sameGroup Q (convertBusy fences p st Q i).
Proof.
  intros H Hi. unfold convertBusy. destruct (busy (plan (batch Q p) i)) eqn:Eb; simpl.
  2: { exists s. split; [done|]. by split; [apply bstep_refl|]. }
  destruct (convertTryBatchTargetLocked _ _ _ _) as [Q1 r] eqn:E.
  destruct (convert_ctx _ _ _ _ _ _ _ H E) as (s' & H' & S' & EB & _). exists s'. destruct r as [e|].
  - destruct (setPlan_ctx i (mkPlan (step (plan (batch Q p) i)) (claimed (plan (batch Q p) i)) true (Some e)) Q1 s' H' Hi)
      as [H2 S2]; [by rewrite EB|].
    split; [done|]. split; [by eapply bstep_trans|]. unfold sameGroup. rewrite (batch_setPlan _ _ _ s' H'), EB.
    split; [done|]. split; [done|]. intros k. rewrite plan_withPlan by by rewrite (c_group _ _ H).
    by destruct (decide (k = i)) as [->|].
  - split; [done|]. split; [done|]. unfold sameGroup. by rewrite EB.
Qed.

Lemma convertAll_ctx fences st l Q s : bctx Q s → Forall (λ i, (i < tryBatchGroup)%nat) l →
  ∃ s', bctx (foldl (convertBusy fences p st) Q l) s' ∧ bstep Q s (foldl (convertBusy fences p st) Q l) s' ∧
    sameGroup Q (foldl (convertBusy fences p st) Q l).
Proof.
  revert Q s. induction l as [|i l IH]; intros Q s H Hl.
  { exists s. split; [done|]. by split; [apply bstep_refl|]. }
  apply Forall_cons in Hl as [Hi Hl]. destruct (convertBusy_ctx fences st i Q s H Hi) as (s1 & H1 & S1 & E1 & E2 & E3).
  destruct (IH _ _ H1 Hl) as (s2 & H2 & S2 & F1 & F2 & F3). exists s2. simpl. split; [done|].
  split; [by eapply bstep_trans|]. split; [congruence|]. split; [congruence|]. intros k. by rewrite F3, E3.
Qed.

Lemma seq_below n m : (n ≤ m)%nat → Forall (λ i, (i < m)%nat) (seq 0 n).
Proof. intros H. apply Forall_forall. intros i Hi%elem_of_seq. lia. Qed.

(** Every claim of the group is given up. *)
Lemma releaseAll_ctx Q s : bctx Q s → (groupN (batch Q p) ≤ tryBatchGroup)%nat →
  (∀ i, (groupN (batch Q p) ≤ i)%nat → claimed (plan (batch Q p) i) = false) →
  let Q' := releaseTryBatchClaimsLocked p Q in
  ∃ s', bctx Q' s' ∧ bstep Q s Q' s' ∧ groupN (batch Q' p) = groupN (batch Q p) ∧ next (batch Q' p) = next (batch Q p) ∧
    ∀ i, claimed (plan (batch Q' p) i) = false.
Proof.
  intros H Hn Hf. unfold releaseTryBatchClaimsLocked.
  destruct (releaseClaims_ctx (seq 0 (groupN (batch Q p))) Q s H (seq_below _ _ Hn)) as (s' & H' & S' & E1 & E2 & E3).
  exists s'. split_and!; try done. intros i. rewrite E3. destruct (decide _) as [|Hi]; [done|].
  apply Hf. rewrite elem_of_seq in Hi. lia.
Qed.

Lemma finish_ctx rs fences st Q s : bctx Q s → planned (groupN (batch Q p)) Q → (groupN (batch Q p) ≤ tryBatchGroup)%nat →
  let Q' := finishTryBatchGroupLocked fences p st (groupRan rs p Q) in
  ∃ s', bctx Q' s' ∧ bstep Q s Q' s' ∧ groupN (batch Q' p) = groupN (batch Q p) ∧
    next (batch Q' p) = (next (batch Q p) + groupN (batch Q p))%nat ∧ planned 0 Q'.
Proof.
  intros H [G1 G2 G3] Hn Q'. destruct (groupRan_ctx rs Q s H) as [H1 S1].
  pose proof (groupRan_batch rs Q s H) as E1. set (Q1 := groupRan rs p Q) in *.
  assert (F : groupN (batch Q1 p) = groupN (batch Q p) ∧ next (batch Q1 p) = (next (batch Q p) + groupN (batch Q p))%nat ∧
    ∀ i, claimed (plan (batch Q1 p) i) = claimed (plan (batch Q p) i)).
  { rewrite E1. split; [done|]. split; [done|]. intros i. apply plan_claimed. simpl. apply runPlans_claimed. }
  destruct F as (F1 & F2 & F3).
  destruct (convertAll_ctx fences st (seq 0 (groupN (batch Q1 p))) Q1 s H1) as (s2 & H2 & S2 & K1 & K2 & K3).
  { apply seq_below. by rewrite F1. }
  set (Q2 := foldl _ Q1 _) in *. destruct (releaseAll_ctx Q2 s2 H2) as (s3 & H3 & S3 & L1 & L2 & L3).
  { by rewrite K1, F1. }
  { intros i Hi. rewrite K3, F3. apply G1. by rewrite K1, F1 in Hi. }
  assert (S : bstep Q s Q' s3) by (eapply bstep_trans; [exact S1|]; by eapply bstep_trans).
  exists s3. split; [done|]. split; [done|]. split; [by rewrite <- F1, <- K1|]. split; [by rewrite <- F2, <- K2|].
  destruct (t_static _ _ _ _ S) as (_ & EI & _). constructor; [done| |].
  - intros i c _ Hc. by rewrite L3 in Hc.
  - rewrite EI. unfold Q', finishTryBatchGroupLocked. fold Q2. rewrite L2, K2, F2. lia.
Qed.

End batch.
