(* ===== verification/NestInv.v ===== *)
(** * Invariant of the workers and the dispatch queue

    What the workers execute, together with the claims of the batches among
    it, is a state of the order specification; every step of the system is a
    sequence of steps of the specification. *)

From S2P Require Import Prelude NestJob NestQueue NestRun NestOrder NestQueueInv NestSim NestBatch.

(** ** The invariant *)

Definition acts (a : list Exec) : actives := (λ x, (xLane x, xJob x)) <$> a.
Definition allClaims (Q : dispatchQueue) (a : list Exec) : list jobp := a ≫= λ x, claimsHeld (batch Q (xJob x)).

Record batch_ok (Q : dispatchQueue) (s : fifo) (p : jobp) (b : tryBatchJob) : Prop := mkBatchOk {
  b_job : is_Some (heap Q !! p) ∧ tryBatch (job Q p) = true;
  b_claims : length (claims b) = tryBatchGroup;
  b_group : length (group b) = tryBatchGroup;
  b_nodup : NoDup (claims b);
  b_heap : ∀ c, c ∈ claims b → is_Some (heap Q !! c);
  b_idle : ∀ i c, claims b !! i = Some c → claimed (plan b i) = false → idle Q (jobs s) c;
  b_groupN : (groupN b ≤ tryBatchGroup)%nat;
  b_cont : continuation (job Q p) = false
}.

(** What a worker is doing fits the job it took. *)
Definition exec_ok (Q : dispatchQueue) (s : fifo) (x : Exec) : Prop :=
  match xPhase x with
  | Running => tryBatch (job Q (xJob x)) = true →
      planned (xJob x) (groupN (batch Q (xJob x))) Q ∧
      (next (batch Q (xJob x)) < length (items (batch Q (xJob x))) → 0 < groupN (batch Q (xJob x)))%nat
  | WaitingFor c => (xLane x = IO ∧ c ≠ xJob x) ∧ tryBatch (job Q (xJob x)) = false ∧ c ∈ (jobs s).*1 ∧ continuation (job Q c) = true
  | Ending y => tryBatch (job Q (xJob x)) = true ∧
      (∀ i, (groupN (batch Q (xJob x)) ≤ i)%nat → claimed (plan (batch Q (xJob x)) i) = false) ∧
      (next (batch Q (xJob x)) ≤ length (items (batch Q (xJob x))))%nat ∧
      (y = true → planned (xJob x) 0 Q ∧ (next (batch Q (xJob x)) < length (items (batch Q (xJob x))))%nat)
  end.

Record sinv (Q : dispatchQueue) (a : list Exec) (s : fifo) : Prop := mkSInv {
  v_ref : refines Q (acts a) (allClaims Q a) s;
  v_batch : ∀ p b, batches Q !! p = Some b → batch_ok Q s p b;
  v_disj : ∀ p p' b b' c, batches Q !! p = Some b → batches Q !! p' = Some b' → c ∈ claims b → c ∈ claims b' → p = p';
  v_has : ∀ p, p ∈ (jobs s).*1 → tryBatch (job Q p) = true → is_Some (batches Q !! p);
  v_parked : ∀ p, is_Some (batches Q !! p) → (∀ x, x ∈ a → xJob x ≠ p) → planned p 0 Q;
  v_exec : ∀ x, x ∈ a → exec_ok Q s x
}.

(** ** Consequences *)

Lemma acts_fst a p : p ∈ (acts a).*2 ↔ ∃ x, x ∈ a ∧ xJob x = p.
Proof.
  unfold acts. rewrite <- list_fmap_compose, list_elem_of_fmap. split; [intros (x & -> & ?)|intros (x & ? & <-)]; eauto.
Qed.

Lemma acts_app a1 a2 : acts (a1 ++ a2) = acts a1 ++ acts a2.
Proof. apply fmap_app. Qed.
Lemma acts_cons x a : acts (x :: a) = (xLane x, xJob x) :: acts a.
Proof. done. Qed.

Lemma allClaims_app Q a1 a2 : allClaims Q (a1 ++ a2) = allClaims Q a1 ++ allClaims Q a2.
Proof. apply bind_app. Qed.
Lemma allClaims_one Q x : allClaims Q [x] = claimsHeld (batch Q (xJob x)).
Proof. unfold allClaims. simpl. apply app_nil_r. Qed.
Lemma allClaims_mid Q a1 x a2 :
  allClaims Q (a1 ++ x :: a2) ≡ₚ allClaims Q (a1 ++ a2) ++ claimsHeld (batch Q (xJob x)).
Proof.
  change (x :: a2) with ([x] ++ a2). rewrite !allClaims_app, allClaims_one. solve_Permutation.
Qed.

Lemma allClaims_ext Q Q' a a' :
  xJob <$> a = xJob <$> a' → (∀ x, x ∈ a → batch Q' (xJob x) = batch Q (xJob x)) → allClaims Q' a' = allClaims Q a.
Proof.
  revert a'. induction a as [|x a IH]; intros [|x' a'] H HB; try done. simpl in H. injection H as Hx H.
  unfold allClaims in *. simpl. rewrite <- Hx, HB by left. f_equal. apply IH; [done|]. intros y Hy. apply HB. by right.
Qed.

Section facts.
Context {Q : dispatchQueue} {a : list Exec} {s : fifo} (H : sinv Q a s).

Lemma v_q : qinv Q (acts a) (allClaims Q a) [] (jobs s).
Proof. apply (v_ref _ _ _ H). Qed.

Lemma acts_nodup : NoDup (xJob <$> a).
Proof.
  pose proof (executing_nodup _ _ _ _ _ v_q) as Hn. apply NoDup_app in Hn as [Hn _].
  unfold acts in Hn. by rewrite <- list_fmap_compose in Hn.
Qed.

Lemma act_unique x y : x ∈ a → y ∈ a → xJob x = xJob y → x = y.
Proof.
  intros (i & Hi)%list_elem_of_lookup (j & Hj)%list_elem_of_lookup E.
  assert (i = j) as ->; [|congruence].
  eapply (NoDup_lookup _ _ _ (xJob x) acts_nodup); rewrite list_lookup_fmap; [by rewrite Hi|].
  rewrite Hj. simpl. by rewrite E.
Qed.

Lemma act_pending x : x ∈ a → xJob x ∈ (jobs s).*1.
Proof. intros Hx. apply (q_active v_q (xLane x)). apply list_elem_of_fmap. eauto. Qed.

Lemma act_heap x : x ∈ a → is_Some (heap Q !! xJob x).
Proof. intros Hx. by apply (q_heap v_q), act_pending. Qed.

(** Only batches hold claims. *)
Lemma plain_no_batch p : is_Some (heap Q !! p) → tryBatch (job Q p) = false → batches Q !! p = None.
Proof.
  intros Hp Ht. destruct (batches Q !! p) as [b|] eqn:E; [|done].
  apply (v_batch _ _ _ H) in E as [[_ Ht'] _]. congruence.
Qed.

Lemma plain_no_claims p : is_Some (heap Q !! p) → tryBatch (job Q p) = false → claimsHeld (batch Q p) = [].
Proof. intros Hp Ht. unfold batch. by rewrite plain_no_batch. Qed.

Lemma batch_some p : p ∈ (jobs s).*1 → tryBatch (job Q p) = true →
  is_Some (batches Q !! p) ∧ batch_ok Q s p (batch Q p).
Proof.
  intros Hp Ht. destruct (v_has _ _ _ H p Hp Ht) as [b Hb]. split; [by eexists|].
  unfold batch. rewrite Hb. by apply (v_batch _ _ _ H).
Qed.

End facts.

Lemma planned_keep p n Q Q' : batch Q' p = batch Q p →
  (∀ c, c ∈ claims (batch Q p) → ids (job Q' c) = ids (job Q c)) → planned p n Q → planned p n Q'.
Proof.
  intros HB Hi [G1 G2 G3]. constructor; rewrite ?HB; try done.
  intros i c Hc Hcl. destruct (G2 i c Hc Hcl) as (E & id & E1 & E2). split; [done|]. exists id. split; [done|].
  rewrite Hi; [done|]. by apply list_elem_of_lookup_2 in Hc.
Qed.

(** ** Steps outside the batches *)

Lemma batch_ok_evolves Q s Q' s' p b : evolves Q (jobs s) Q' (jobs s') → batch_ok Q s p b → batch_ok Q' s' p b.
Proof.
  intros HE [[H1 H1'] H2 H3 H4 H5 H6 H7 H8]. destruct (e_kind _ _ _ _ HE p H1) as (K1 & K2 & K3 & _).
  constructor; rewrite ?K2, ?K3; try done.
  - intros c Hc. by apply (e_kind _ _ _ _ HE c), H5.
  - intros i c Hc Hcl. apply (e_idle _ _ _ _ HE). by eapply H6.
Qed.

(** The queue moves on and executions come and go. *)
Lemma sinv_evolves Q a s Q' a' s' :
  sinv Q a s → evolves Q (jobs s) Q' (jobs s') → refines Q' (acts a') (allClaims Q' a') s' →
  (∀ p, p ∈ (jobs s').*1 → p ∈ (jobs s).*1 ∨ tryBatch (job Q' p) = false ∨ is_Some (batches Q' !! p)) →
  (∀ x, x ∈ a → tryBatch (job Q (xJob x)) = true → (∃ y, y ∈ a' ∧ xJob y = xJob x) ∨ planned (xJob x) 0 Q') →
  (∀ x, x ∈ a' → (x ∈ a ∧ ∀ c, xPhase x = WaitingFor c → c ∈ (jobs s').*1) ∨ exec_ok Q' s' x) →
  sinv Q' a' s'.
Proof.
  intros H HE HR Hnew Hkeep Hexec.
  assert (HB : ∀ p, batch Q' p = batch Q p) by (intros p; unfold batch; by rewrite (e_batches _ _ _ _ HE)).
  assert (HP : ∀ p n, is_Some (batches Q !! p) → planned p n Q → planned p n Q').
  { intros p n [b Hb]. apply planned_keep; [done|]. unfold batch. rewrite Hb. intros c Hc.
    by apply (e_kind _ _ _ _ HE), (b_heap _ _ _ _ (v_batch _ _ _ H _ _ Hb)). }
  constructor; rewrite ?(e_batches _ _ _ _ HE); try done.
  - intros p b Hb. eapply batch_ok_evolves; [done|]. by apply (v_batch _ _ _ H).
  - apply H.
  - intros p Hp Ht. destruct (Hnew p Hp) as [Hp'|[Hf|Hf]]; [|congruence|by rewrite <- (e_batches _ _ _ _ HE)].
    apply (v_has _ _ _ H); [done|].
    pose proof (q_heap (v_q H) p Hp') as Hh. destruct (e_kind _ _ _ _ HE p Hh) as (_ & E & _). congruence.
  - intros p Hp Hno. destruct (decide (p ∈ xJob <$> a)) as [(x & -> & Hx)%list_elem_of_fmap|Hni].
    + destruct Hp as [b Hb]. destruct (Hkeep x Hx) as [(y & Hy & E)|?]; [|by destruct (Hno y Hy)|done].
      apply (v_batch _ _ _ H _ _ Hb).
    + apply HP; [done|]. apply (v_parked _ _ _ H); [done|]. intros x Hx <-. apply Hni.
      apply list_elem_of_fmap. eauto.
  - intros x Hx. destruct (Hexec x Hx) as [[Hin Hw]|?]; [|done].
    pose proof (v_exec _ _ _ H x Hin) as Hok. destruct (e_kind _ _ _ _ HE _ (act_heap H x Hin)) as (_ & ET & _ & _).
    assert (HS : tryBatch (job Q (xJob x)) = true → is_Some (batches Q !! xJob x)).
    { apply (v_has _ _ _ H). by apply (act_pending H). }
    unfold exec_ok in *. rewrite ET, !HB. destruct (xPhase x) as [|c|y].
    + intros Ht. destruct (Hok Ht) as [Hp Hg]. split; [by apply HP; [apply HS|]|done].
    + destruct Hok as ([E0 E1] & E2 & E3 & E4). split_and!; try done; [by apply Hw|].
      destruct (e_kind _ _ _ _ HE c) as (_ & _ & -> & _); [by apply (q_heap (v_q H))|done].
    + destruct Hok as (E1 & E2 & E3 & E4). split_and!; try done. intros Hy. destruct (E4 Hy) as [Hp Hg].
      split; [by apply HP; [apply HS|]|done].
Qed.

(** The claims of executions that did not change their jobs. *)
Lemma allClaims_evolves Q s Q' s' a a' : evolves Q (jobs s) Q' (jobs s') → xJob <$> a = xJob <$> a' →
  allClaims Q' a' = allClaims Q a.
Proof.
  intros HE Ha. apply allClaims_ext; [done|]. intros x _. unfold batch. by rewrite (e_batches _ _ _ _ HE).
Qed.

(** Steps that leave the executions alone. *)
Lemma sinv_quiet Q a s Q' s' :
  sinv Q a s → evolves Q (jobs s) Q' (jobs s') → refines Q' (acts a) (allClaims Q a) s' →
  (∀ p, p ∈ (jobs s).*1 → p ∈ (jobs s').*1) →
  (∀ p, p ∈ (jobs s').*1 → p ∈ (jobs s).*1 ∨ tryBatch (job Q' p) = false ∨ is_Some (batches Q' !! p)) → sinv Q' a s'.
Proof.
  intros H HE HR Hold Hnew. apply (sinv_evolves Q a s); try done.
  - by rewrite (allClaims_evolves _ _ _ _ a a HE).
  - intros x Hx _. left. eauto.
  - intros x Hx. left. split; [done|]. intros c Hc. apply Hold.
    pose proof (v_exec _ _ _ H x Hx) as Hok. unfold exec_ok in Hok. rewrite Hc in Hok. tauto.
Qed.

(** ** Steps of a batch *)

Lemma get_bctx Q a1 x a2 s : sinv Q (a1 ++ x :: a2) s → tryBatch (job Q (xJob x)) = true →
  bctx (acts (a1 ++ x :: a2)) (allClaims Q (a1 ++ a2)) (xJob x) Q s.
Proof.
  intros H Ht. assert (Hx : x ∈ a1 ++ x :: a2) by (apply elem_of_app; right; left).
  destruct (batch_some H (xJob x) (act_pending H x Hx) Ht) as [HS [_ H2 H3 H4 _ H6 _ _]].
  constructor; try done. apply (refines_perm _ _ (allClaims Q (a1 ++ x :: a2))); [apply allClaims_mid|apply H].
Qed.

Section bstep.
Context {Q : dispatchQueue} {a1 : list Exec} {l : LaneId} {p : jobp} {ph : Phase} {a2 : list Exec} {s : fifo}.
Context {Q' : dispatchQueue} {s' : fifo}.
Context (H : sinv Q (a1 ++ mkExec l p ph :: a2) s) (Ht : tryBatch (job Q p) = true) (S : bstep p Q s Q' s').

Lemma bs_batch : is_Some (batches Q !! p) ∧ batch_ok Q s p (batch Q p).
Proof. apply (batch_some H); [|done]. apply (act_pending H (mkExec l p ph)). apply elem_of_app; right; left. Qed.

Lemma bs_mid x : x ∈ a1 ++ a2 → x ∈ a1 ++ mkExec l p ph :: a2.
Proof. rewrite !elem_of_app, elem_of_cons. tauto. Qed.

Lemma bs_ne x : x ∈ a1 ++ a2 → xJob x ≠ p.
Proof.
  intros Hx E. pose proof (acts_nodup H) as Hn. rewrite fmap_app, fmap_cons in Hn. simpl in Hn.
  apply NoDup_app in Hn as (_ & H1 & [H2 _]%NoDup_cons). apply elem_of_app in Hx as [Hx|Hx].
  - apply (H1 p); [|left]. rewrite <- E. by apply list_elem_of_fmap_2.
  - apply H2. rewrite <- E. by apply list_elem_of_fmap_2.
Qed.

Lemma bs_other p' : p' ≠ p → batch Q' p' = batch Q p'.
Proof. intros ?. unfold batch. by rewrite (t_others _ _ _ _ _ S). Qed.

Lemma bs_disj p' b c : p' ≠ p → batches Q !! p' = Some b → c ∈ claims b → c ∉ claims (batch Q p).
Proof.
  intros Hp' Hb Hcb Hcp. destruct bs_batch as [[bp HS] _]. unfold batch in Hcp. rewrite HS in Hcp. apply Hp'.
  by eapply (v_disj _ _ _ H).
Qed.

Lemma bs_planned p' n : p' ≠ p → is_Some (batches Q !! p') → planned p' n Q → planned p' n Q'.
Proof.
  intros Hp' [b Hb]. apply planned_keep; [by apply bs_other|]. unfold batch. rewrite Hb. intros c Hcb.
  apply (t_kind _ _ _ _ _ S); [by apply (b_heap _ _ _ _ (v_batch _ _ _ H _ _ Hb))|by eapply bs_disj].
Qed.

Lemma bs_batch_ok p' b : (∃ C0, bctx (acts (a1 ++ mkExec l p ph :: a2)) C0 p Q' s') →
  (groupN (batch Q' p) ≤ tryBatchGroup)%nat → batches Q' !! p' = Some b → batch_ok Q' s' p' b.
Proof.
  intros [C0 Hc] Hg Hb. destruct (t_static _ _ _ _ _ S) as (EC & _). destruct (decide (p' = p)) as [->|Hp'].
  - assert (batch Q' p = b) as <- by (unfold batch; by rewrite Hb). destruct Hc as [_ _ C3 C4 C5 C6].
    destruct bs_batch as [_ [[B1 B1'] _ _ _ B5 _ _ B8]]. destruct (t_kind _ _ _ _ _ S p B1) as (K1 & K2 & K3 & _).
    constructor; rewrite ?K2, ?K3; try done. intros c Hcc. rewrite EC in Hcc. by apply (t_kind _ _ _ _ _ S), B5.
  - rewrite (t_others _ _ _ _ _ S) in Hb by done. destruct (v_batch _ _ _ H _ _ Hb) as [[B1 B1'] B2 B3 B4 B5 B6 B7 B8].
    destruct (t_kind _ _ _ _ _ S p' B1) as (K1 & K2 & K3 & _). constructor; rewrite ?K2, ?K3; try done.
    + intros c Hcc. by apply (t_kind _ _ _ _ _ S), B5.
    + intros i c Hi Hcl. apply (t_idle _ _ _ _ _ S); [|by eapply B6].
      eapply bs_disj; [done..|]. by apply list_elem_of_lookup_2 in Hi.
Qed.

(** Its claims are those it had. *)
Lemma bs_claims p' b : batches Q' !! p' = Some b → ∃ b', batches Q !! p' = Some b' ∧ claims b' = claims b.
Proof.
  intros Hb. destruct (t_static _ _ _ _ _ S) as (EC & _). destruct (decide (p' = p)) as [->|Hp'].
  - destruct bs_batch as [[b' Hb'] _]. exists b'. split; [done|]. unfold batch in EC. by rewrite Hb, Hb' in EC.
  - rewrite (t_others _ _ _ _ _ S) in Hb by done. eauto.
Qed.

(** The other executions go on. *)
Lemma bs_exec x : x ∈ a1 ++ a2 → (∀ c, xPhase x = WaitingFor c → c ∈ (jobs s').*1) → exec_ok Q' s' x.
Proof.
  intros Hin Hw. pose proof (v_exec _ _ _ H x (bs_mid x Hin)) as Ho. pose proof (bs_ne x Hin) as Hxp.
  destruct (t_kind _ _ _ _ _ S _ (act_heap H x (bs_mid x Hin))) as (_ & ET & _ & _).
  assert (HSx : tryBatch (job Q (xJob x)) = true → is_Some (batches Q !! xJob x)).
  { apply (v_has _ _ _ H). by apply (act_pending H), bs_mid. }
  unfold exec_ok in *. rewrite ET, !(bs_other (xJob x)) by done. destruct (xPhase x) as [|c|y] eqn:Eph.
  - intros Htx. destruct (Ho Htx) as [Hpx Hgx]. split; [by apply bs_planned; [|apply HSx|]|done].
  - destruct Ho as ([E0 E1] & E2 & E3 & E4). split_and!; try done; [by eapply Hw|].
    destruct (t_kind _ _ _ _ _ S c) as (_ & _ & -> & _); [by apply (q_heap (v_q H))|done].
  - destruct Ho as (E1 & E2 & E3 & E4). split_and!; try done. intros Hy. destruct (E4 Hy) as [Hpx Hgx].
    split; [by apply bs_planned; [|apply HSx|]|done].
Qed.

Lemma sinv_bstep ph' :
  bctx (acts (a1 ++ mkExec l p ph :: a2)) (allClaims Q (a1 ++ a2)) p Q' s' →
  (groupN (batch Q' p) ≤ tryBatchGroup)%nat → exec_ok Q' s' (mkExec l p ph') →
  (∀ x c, x ∈ a1 ++ a2 → xPhase x = WaitingFor c → c ∈ (jobs s').*1) →
  sinv Q' (a1 ++ mkExec l p ph' :: a2) s'.
Proof.
  intros Hc Hg Hok Hw. constructor.
  - replace (acts (a1 ++ mkExec l p ph' :: a2)) with (acts (a1 ++ mkExec l p ph :: a2)) by by rewrite !acts_app.
    apply (refines_perm _ _ (allClaims Q (a1 ++ a2) ++ claimsHeld (batch Q' p))); [|apply Hc].
    rewrite allClaims_mid. simpl. rewrite (allClaims_ext Q Q' (a1 ++ a2) (a1 ++ a2)); [done..|].
    intros x Hx. by apply bs_other, bs_ne.
  - intros p' b Hb. apply bs_batch_ok; [by eexists|done..].
  - intros p1 p2 b1 b2 c Hb1 Hb2. destruct (bs_claims _ _ Hb1) as (b1' & Hb1' & <-), (bs_claims _ _ Hb2) as (b2' & Hb2' & <-).
    by apply (v_disj _ _ _ H).
  - intros p' Hp' Htp. destruct (decide (p' = p)) as [->|Hne']; [apply Hc|].
    rewrite (t_others _ _ _ _ _ S) by done. apply (t_new _ _ _ _ _ S) in Hp' as [Hp'|[_ ?]]; [|congruence].
    apply (v_has _ _ _ H); [done|]. destruct (t_kind _ _ _ _ _ S p' (q_heap (v_q H) _ Hp')) as (_ & E & _). congruence.
  - intros p' HS' Hno. assert (Hp' : p' ≠ p).
    { intros ->. apply (Hno (mkExec l p ph')); [apply elem_of_app; right; left|done]. }
    rewrite (t_others _ _ _ _ _ S) in HS' by done. apply bs_planned; [done..|]. apply (v_parked _ _ _ H); [done|].
    intros x [Hx|[->|Hx]%elem_of_cons]%elem_of_app; [|by apply not_eq_sym|]; apply Hno, elem_of_app; [by left|right; by right].
  - intros x [Hx|[->|Hx]%elem_of_cons]%elem_of_app; [|done|]; (apply bs_exec; [|intros c; apply Hw]; apply elem_of_app; auto).
Qed.

End bstep.

(** ** Batches appear and disappear *)

Lemma batch_ok_heap Q Q' s p b : heap Q' = heap Q → batch_ok Q s p b → batch_ok Q' s p b.
Proof.
  intros EH [H1 H2 H3 H4 H5 H6 H7 H8]. assert (EJ : job Q' = job Q) by (unfold job; by rewrite EH).
  constructor; rewrite ?EH, ?EJ; try done. intros i c Hc Hcl. specialize (H6 i c Hc Hcl). revert H6.
  unfold idle. by rewrite EH, EJ.
Qed.

Lemma sinv_delete Q a s p : sinv Q a s → p ∉ (jobs s).*1 → (∀ x, x ∈ a → xJob x ≠ p) →
  sinv (set_batches (delete p (batches Q)) Q) a s.
Proof.
  intros H Hp Ha. set (Q' := set_batches _ Q).
  assert (HB : ∀ p', p' ≠ p → batch Q' p' = batch Q p').
  { intros p' Hp'. unfold batch, Q'. simpl. by rewrite lookup_delete_ne. }
  assert (HP : ∀ p' n, p' ≠ p → planned p' n Q → planned p' n Q').
  { intros p' n Hp'. apply planned_keep; [by apply HB|done]. }
  assert (EB : batches Q' = delete p (batches Q)) by done. constructor; rewrite ?EB.
  - rewrite (allClaims_ext Q Q' a a); [|done|intros x Hx; by apply HB, Ha].
    by apply (refines_view Q); [apply H|..].
  - intros p' b [_ Hb]%lookup_delete_Some. apply (batch_ok_heap Q); [done|]. by apply (v_batch _ _ _ H).
  - intros p1 p2 b1 b2 c [_ H1]%lookup_delete_Some [_ H2]%lookup_delete_Some. by apply (v_disj _ _ _ H).
  - intros p' Hp' Ht. rewrite lookup_delete_ne by (intros ->; done). by apply (v_has _ _ _ H).
  - intros p' [b [Hne Hb]%lookup_delete_Some] Hno. apply HP; [done|]. apply (v_parked _ _ _ H); [by eexists|done].
  - intros x Hx. pose proof (v_exec _ _ _ H x Hx) as Hok. unfold exec_ok in *. rewrite !HB by by apply Ha.
    destruct (xPhase x); [|done|].
    + intros Ht. destruct (Hok Ht) as [Hpl ?]. split; [by apply HP; [apply Ha|]|done].
    + destruct Hok as (? & ? & ? & Hy). split_and!; try done. intros E. destruct (Hy E). split; [by apply HP; [apply Ha|]|done].
Qed.

Lemma sinv_insert Q a s p b : sinv Q a s → batches Q !! p = None → p ∉ (jobs s).*1 → batch_ok Q s p b →
  (∀ p' b' c, batches Q !! p' = Some b' → c ∈ claims b' → c ∉ claims b) →
  planned p 0 (set_batches (<[p := b]> (batches Q)) Q) →
  sinv (set_batches (<[p := b]> (batches Q)) Q) a s.
Proof.
  intros H Hn Hp Hb Hd Hpl. set (Q' := set_batches _ Q) in *.
  assert (HB : ∀ p', p' ≠ p → batch Q' p' = batch Q p').
  { intros p' Hp'. unfold batch, Q'. simpl. by rewrite lookup_insert_ne. }
  assert (HP : ∀ p' n, p' ≠ p → planned p' n Q → planned p' n Q').
  { intros p' n Hp'. apply planned_keep; [by apply HB|done]. }
  assert (Ha : ∀ x, x ∈ a → xJob x ≠ p) by (intros x Hx <-; by apply Hp, (act_pending H)).
  assert (EB : batches Q' = <[p := b]> (batches Q)) by done. constructor; rewrite ?EB.
  - rewrite (allClaims_ext Q Q' a a); [|done|intros x Hx; by apply HB, Ha].
    by apply (refines_view Q); [apply H|..].
  - intros p' b' [[<- <-]|[Hne Hb']]%lookup_insert_Some; (apply (batch_ok_heap Q); [done|]); [done|].
    by apply (v_batch _ _ _ H).
  - intros p1 p2 b1 b2 c [[<- <-]|[Hne1 H1]]%lookup_insert_Some [[<- <-]|[Hne2 H2]]%lookup_insert_Some Hc1 Hc2; try done.
    + by destruct (Hd _ _ _ H2 Hc2).
    + by destruct (Hd _ _ _ H1 Hc1).
    + by eapply (v_disj _ _ _ H).
  - intros p' Hp' Ht. rewrite lookup_insert_ne by (intros ->; done). by apply (v_has _ _ _ H).
  - intros p' Hs Hno. destruct (decide (p' = p)) as [->|Hne]; [done|]. apply HP; [done|]. apply (v_parked _ _ _ H); [|done].
    by rewrite lookup_insert_ne in Hs.
  - intros x Hx. pose proof (v_exec _ _ _ H x Hx) as Hok. unfold exec_ok in *. rewrite !HB by by apply Ha.
    destruct (xPhase x); [|done|].
    + intros Ht. destruct (Hok Ht) as [Hpl' ?]. split; [by apply HP; [apply Ha|]|done].
    + destruct Hok as (? & ? & ? & Hy). split_and!; try done. intros E. destruct (Hy E). split; [by apply HP; [apply Ha|]|done].
Qed.
