(* ===== verification/NestStep.v ===== *)
(** * Every step of the dispatcher is a step of the order specification *)

From S2P Require Import Prelude NestJob NestQueue NestRun NestOrder NestQueueInv NestSim NestBatch NestInv.

(** A step of the system from [Q], [a] to [Q'], [a'] is matched. *)
Definition matched (s : fifo) (Q' : dispatchQueue) (a' : list Exec) : Prop :=
  ∃ s', rtc fifo_step s s' ∧ sinv Q' a' s'.

(** ** Steps outside the order *)

Lemma matched_quiet Q a s Q' : sinv Q a s → evolves Q (jobs s) Q' (jobs s) → refines Q' (acts a) (allClaims Q a) s →
  matched s Q' a.
Proof. intros H HE HR. exists s. split; [done|]. eapply sinv_quiet; eauto. Qed.

Lemma matched_view Q a s Q' : sinv Q a s → heap Q' = heap Q → tails Q' = tails Q → fresh Q' = fresh Q →
  pending Q' = pending Q → awaitReserved Q' = awaitReserved Q → batches Q' = batches Q →
  (started Q = true → started Q' = true) → (stopping Q = true → stopping Q' = true) →
  (∀ l, lview (lanes Q' l) = lview (lanes Q l)) → matched s Q' a.
Proof.
  intros H E1 E2 E3 E4 E5 E6 E7 E8 Hv. eapply matched_quiet; [done|by apply evolves_same|].
  apply (refines_view Q); try done. apply H.
Qed.

Lemma startLane_lview Q l l' : lview (lanes (startLane Q l) l') = lview (lanes Q l').
Proof. unfold startLane. apply lview_updLane. done. Qed.

Lemma match_start Q a s : sinv Q a s → matched s (start Q) a.
Proof.
  intros H. unfold start. destruct (started Q || stopping Q) eqn:E; [by eapply matched_view|].
  apply orb_false_iff in E as [E1 E2]. eapply matched_view; try done.
  intros l. cbn [foldl allLanes]. by rewrite !startLane_lview.
Qed.

Lemma match_stop Q a s : sinv Q a s → matched s (stop Q) a.
Proof.
  intros H. unfold stop. destruct (stopping Q) eqn:E; [by eapply matched_view|].
  eapply matched_view; try done. intros l. by rewrite wakeAll_lview.
Qed.

Lemma match_reserve Q a s : sinv Q a s → matched s (fst (reserveAwait Q)) a.
Proof. intros H. destruct (reserveAwait_refines Q _ _ _ (v_ref _ _ _ H)). by eapply matched_quiet. Qed.

Lemma match_cancel Q a s : sinv Q a s → 0 < awaitReserved Q → matched s (cancelAwait Q) a.
Proof. intros H Ha. destruct (cancelAwait_refines Q _ _ _ (v_ref _ _ _ H) Ha). by eapply matched_quiet. Qed.

Lemma enter_lview l Q l' : lview (lanes (enter l Q) l') = lview (lanes Q l').
Proof. by apply lview_updLane. Qed.
Lemma again_lview l Q l' : lview (lanes (again l Q) l') = lview (lanes Q l').
Proof. by apply lview_updLane. Qed.

Lemma match_none Q a s l : sinv Q a s → matched s (workNone l (enter l Q)) a.
Proof.
  intros H. unfold workNone. destruct (stopping (enter l Q) && _).
  - eapply matched_view; try done. intros l'. apply enter_lview.
  - eapply matched_view; try done. intros l'. unfold park. rewrite lview_updLane by done. apply enter_lview.
Qed.

Lemma sinv_enter l Q a s : sinv Q a s → sinv (enter l Q) a s.
Proof.
  intros H. eapply sinv_quiet; [done|by apply evolves_same| |done|auto].
  apply (refines_view Q); try done; [apply H|]. intros l'. apply enter_lview.
Qed.

Lemma sinv_again l Q a s : sinv Q a s → sinv (again l Q) a s.
Proof.
  intros H. eapply sinv_quiet; [done|by apply evolves_same| |done|auto].
  apply (refines_view Q); try done; [apply H|]. intros l'. apply again_lview.
Qed.

(** ** New jobs *)

Lemma submit_step s p l : p ∉ (jobs s).*1 → fifo_step s (submitted s p l).
Proof. destruct s. apply ff_submit. Qed.

Lemma fresh_new Q a s : sinv Q a s → fresh Q ∉ (jobs s).*1.
Proof. intros H Hin. apply (q_lt (v_q H)) in Hin. lia. Qed.

(** One job more, no batch, and the executions as they were. *)
Lemma matched_submit Q a s Q' l : sinv Q a s →
  refines Q' (acts a) (allClaims Q a) (submitted s (fresh Q) l) →
  evolves Q (jobs s) Q' (jobs s ++ [(fresh Q, l)]) → tryBatch (job Q' (fresh Q)) = false → matched s Q' a.
Proof.
  intros H HR HE Ht. exists (submitted s (fresh Q) l). split; [by apply rtc_once, submit_step, (fresh_new Q a)|].
  eapply sinv_quiet; [done..| |]; intros p; simpl; rewrite link_in; [auto|]. intros [?| ->]; auto.
Qed.

Lemma match_admit Q a s j : sinv Q a s → newJob j → continuation j = false → tryBatch j = false →
  matched s (fst (admitLocked j Q)) a.
Proof.
  intros H Hj Hk Ht. destruct (admitLocked j Q) as [Q' r] eqn:E.
  pose proof (admitLocked_refines _ _ _ _ _ _ _ (v_ref _ _ _ H) Hj Hk E) as HA. simpl. destruct r as [e|].
  - destruct HA as [HR HE]. by eapply matched_quiet.
  - destruct HA as (HR & HE & _ & Htj). eapply matched_submit; [done..|]. congruence.
Qed.

Lemma match_dispatch Q a s reg m prepareIO : sinv Q a s → matched s (fst (admitMessage reg m prepareIO Q)) a.
Proof.
  intros H. unfold admitMessage. destruct (negb (started Q) || stopping Q); [by eapply matched_view|].
  apply match_admit; try done. repeat split; try done. apply jobIDs_NoDup.
Qed.

Lemma businessLane_business reg m : businessLane reg m ≠ IO.
Proof.
  destruct m as [m|]; [|done]. unfold businessLane. revert m.
  fix IH 1. intros [tid tids groups [[inner|]|]]; simpl; [apply IH|done|]. by repeat case_match.
Qed.

Lemma pushContinuation_plain l m Q : tryBatch (job (pushContinuationLocked l m Q) (fresh Q)) = false ∧
  continuation (job (pushContinuationLocked l m Q) (fresh Q)) = true.
Proof. unfold pushContinuationLocked. cbn [alloc]. unfold job. simpl. by rewrite lookup_insert_eq. Qed.

Lemma match_runLocal Q a s reg m : sinv Q a s → matched s (fst (tryContinueBusiness reg m Q)) a.
Proof.
  intros H. unfold tryContinueBusiness. destruct (negb (started Q) || stopping Q); [by eapply matched_view|]. simpl.
  destruct (pushContinuation_refines (businessLane reg (Some m)) m Q _ _ _ (v_ref _ _ _ H)) as [HR HE].
  { apply businessLane_business. }
  eapply matched_submit; [done..|]. apply pushContinuation_plain.
Qed.

Lemma match_startAwait Q a s : sinv Q a s → 0 < awaitReserved Q → matched s (startAwait Q) a.
Proof.
  intros H Ha. destruct (startAwait_refines Q _ _ _ (v_ref _ _ _ H) Ha) as [HR HE].
  eapply matched_submit; [done..|]. unfold startAwait, job. cbn [alloc]. simpl. by rewrite lookup_insert_eq.
Qed.

(** ** Continuations *)

Lemma acts_phase a1 l p ph ph' a2 : acts (a1 ++ mkExec l p ph :: a2) = acts (a1 ++ mkExec l p ph' :: a2).
Proof. by rewrite !acts_app. Qed.
Lemma jobs_phase a1 l p ph ph' a2 : xJob <$> (a1 ++ mkExec l p ph :: a2) = xJob <$> (a1 ++ mkExec l p ph' :: a2).
Proof. by rewrite !fmap_app. Qed.

Lemma elem_of_mid {A} (x y : A) l1 l2 : x ∈ l1 ++ y :: l2 ↔ x ∈ l1 ++ l2 ∨ x = y.
Proof. rewrite !elem_of_app, elem_of_cons. tauto. Qed.

(** The jobs somebody waits for are pending. *)
Lemma awaited_pending Q a s x c : sinv Q a s → x ∈ a → xPhase x = WaitingFor c → c ∈ (jobs s).*1.
Proof. intros H Hx Hc. pose proof (v_exec _ _ _ H x Hx) as Hok. unfold exec_ok in Hok. rewrite Hc in Hok. tauto. Qed.

(** An execution that is no batch changes its phase. *)
Lemma sinv_phase Q a1 l p ph ph' a2 s Q' s' : sinv Q (a1 ++ mkExec l p ph :: a2) s → tryBatch (job Q p) = false →
  evolves Q (jobs s) Q' (jobs s') →
  refines Q' (acts (a1 ++ mkExec l p ph :: a2)) (allClaims Q (a1 ++ mkExec l p ph :: a2)) s' →
  (∀ x, x ∈ (jobs s).*1 → x ∈ (jobs s').*1) →
  (∀ x, x ∈ (jobs s').*1 → x ∈ (jobs s).*1 ∨ tryBatch (job Q' x) = false ∨ is_Some (batches Q' !! x)) →
  exec_ok Q' s' (mkExec l p ph') → sinv Q' (a1 ++ mkExec l p ph' :: a2) s'.
Proof.
  intros H Ht HE HR Hold Hnew Hok. apply (sinv_evolves Q (a1 ++ mkExec l p ph :: a2) s); try done.
  - by rewrite (acts_phase _ _ _ ph' ph), (allClaims_evolves _ _ _ _ _ _ HE (jobs_phase a1 l p ph ph' a2)).
  - intros x [Hx| ->]%elem_of_mid Htx; [|simpl in *; congruence]. left. exists x. split; [|done]. apply elem_of_mid. auto.
  - intros x [Hx| ->]%elem_of_mid; [left|by right]. assert (Hin : x ∈ a1 ++ mkExec l p ph :: a2) by (apply elem_of_mid; auto).
    split; [done|]. intros c Hc. apply Hold. by eapply awaited_pending.
Qed.

Lemma match_continue Q a1 p a2 s reg m : sinv Q (a1 ++ mkExec IO p Running :: a2) s → tryBatch (job Q p) = false →
  matched s (continueBusiness reg m Q) (a1 ++ mkExec IO p (WaitingFor (fresh Q)) :: a2).
Proof.
  intros H Ht. unfold continueBusiness.
  destruct (pushContinuation_refines (businessLane reg (Some m)) m Q _ _ _ (v_ref _ _ _ H)) as [HR HE].
  { apply businessLane_business. }
  set (Q' := pushContinuationLocked (businessLane reg (Some m)) m Q) in *.
  destruct (pushContinuation_plain (businessLane reg (Some m)) m Q) as [Hp1 Hp2]. fold Q' in Hp1, Hp2.
  exists (submitted s (fresh Q) []). split; [by eapply rtc_once, submit_step, fresh_new|].
  eapply sinv_phase; [done..| | |].
  - intros x Hx. simpl. rewrite link_in. by left.
  - intros x. simpl. rewrite link_in. intros [?| ->]; auto.
  - unfold exec_ok. simpl. split_and!; try done.
    + intros E. apply (fresh_new Q _ s H). rewrite E. by apply (act_pending H (mkExec IO p Running)), elem_of_mid; right.
    + assert (Hin : mkExec IO p Running ∈ a1 ++ mkExec IO p Running :: a2) by (apply elem_of_mid; auto).
      destruct (e_kind _ _ _ _ HE p (act_heap H _ Hin)) as (_ & -> & _). done.
    + rewrite link_in. by right.
Qed.

Lemma match_released Q a1 p c a2 s : sinv Q (a1 ++ mkExec IO p (WaitingFor c) :: a2) s →
  matched s Q (a1 ++ mkExec IO p Running :: a2).
Proof.
  intros H. assert (Hin : mkExec IO p (WaitingFor c) ∈ a1 ++ mkExec IO p (WaitingFor c) :: a2) by (apply elem_of_mid; auto).
  pose proof (v_exec _ _ _ H _ Hin) as (_ & Ht & _). simpl in Ht. exists s. split; [done|].
  eapply sinv_phase; [done..|apply evolves_refl|apply H|done|auto|]. unfold exec_ok. simpl. congruence.
Qed.

(** ** Taking work *)

Lemma acts_snoc a l p ph : acts (a ++ [mkExec l p ph]) = acts a ++ [(l, p)].
Proof. apply acts_app. Qed.

Lemma began_jobs s p : jobs (began s p) = jobs s.
Proof. done. Qed.

(** A job was taken; [ph] says how its execution starts. *)
Lemma sinv_taken Q a s l p Q' ph : sinv Q a s → take l Q = Some (p, Q') → 
  (tryBatch (job Q p) = false → exec_ok Q' (began s p) (mkExec l p ph)) →
  (tryBatch (job Q p) = true → planned p 0 Q → exec_ok Q' (began s p) (mkExec l p ph)) →
  fifo_step s (began s p) ∧ sinv Q' (a ++ [mkExec l p ph]) (began s p) ∧ job Q' = job Q ∧ batches Q' = batches Q.
Proof.
  intros H Htk Hok1 Hok2. destruct (take_refines l p Q Q' _ _ s (v_ref _ _ _ H) Htk) as (Hs & HR & HE & HJ & Hp).
  pose proof (e_batches _ _ _ _ HE) as EB. split; [done|]. split; [|done].
  assert (Hnew : ∀ x, x ∈ a → xJob x ≠ p).
  { intros x Hx E. destruct HR as (Hq & _). destruct (active_nodup _ _ _ _ _ _ _ Hq) as [Hno _]. apply Hno.
    apply acts_fst. eauto. }
  assert (Hpl : tryBatch (job Q p) = true → planned p 0 Q).
  { intros Ht. apply (v_parked _ _ _ H); [by apply (v_has _ _ _ H)|done]. }
  assert (Hcl : claimsHeld (batch Q p) = []).
  { destruct (tryBatch (job Q p)) eqn:Ht; [|by apply (plain_no_claims H); [apply (q_heap (v_q H))|]].
    apply held_none, Forall_forall. intros pl [i Hi]%list_elem_of_lookup.
    pose proof (g_free _ _ _ (Hpl eq_refl) i ltac:(lia)) as Hf. unfold plan in Hf. by rewrite Hi in Hf. }
  eapply (sinv_evolves Q a s); [done..| | | |].
  - rewrite acts_snoc, allClaims_app, allClaims_one. simpl.
    rewrite (allClaims_evolves _ _ _ _ a a HE) by done. unfold batch. rewrite EB. fold (batch Q p).
    by rewrite Hcl, app_nil_r.
  - intros x Hx. by left.
  - intros x Hx _. left. exists x. split; [apply elem_of_app; by left|done].
  - intros x [Hx| ->]%elem_of_snoc.
    + left. split; [done|]. intros c Hc. by apply (awaited_pending Q a s x c).
    + right. destruct (tryBatch (job Q p)) eqn:Ht; auto.
Qed.

Lemma match_take Q a s l p Q' : sinv Q a s → take l (enter l Q) = Some (p, Q') → tryBatch (job Q' p) = false →
  matched s Q' (a ++ [mkExec l p Running]).
Proof.
  intros H%(sinv_enter l) Htk Ht. destruct (take_refines l p _ Q' _ _ s (v_ref _ _ _ H) Htk) as (_ & _ & _ & HJ & _).
  assert (Hok : exec_ok Q' (began s p) (mkExec l p Running)) by (unfold exec_ok; simpl; congruence).
  destruct (sinv_taken _ _ _ _ _ _ Running H Htk) as (Hs & H' & _); [done..|].
  exists (began s p). split; [by apply rtc_once|done].
Qed.

(** ** Finishing ordinary jobs *)

Lemma acts_notify p (a : list Exec) : acts (notify p <$> a) = acts a.
Proof.
  unfold acts. rewrite <- list_fmap_compose. apply list_fmap_ext. intros _ x _. unfold compose, notify.
  destruct (xPhase x); try done. by case_bool_decide.
Qed.
Lemma jobs_notify p (a : list Exec) : xJob <$> (notify p <$> a) = xJob <$> a.
Proof.
  rewrite <- list_fmap_compose. apply list_fmap_ext. intros _ x _. unfold compose, notify.
  destruct (xPhase x); try done. by case_bool_decide.
Qed.

(** An execution that is no batch has left; whoever waited for it goes on. *)
Lemma sinv_left Q a1 l p ph a2 s Q' s' : sinv Q (a1 ++ mkExec l p ph :: a2) s → tryBatch (job Q p) = false →
  evolves Q (jobs s) Q' (jobs s') → refines Q' (acts (a1 ++ a2)) (allClaims Q (a1 ++ mkExec l p ph :: a2)) s' →
  (∀ x, x ∈ (jobs s').*1 → x ∈ (jobs s).*1) → (∀ x, x ∈ (jobs s).*1 → x ≠ p → x ∈ (jobs s').*1) →
  sinv Q' (notify p <$> a1 ++ a2) s'.
Proof.
  intros H Ht HE HR Hnew Hold.
  assert (Hin : mkExec l p ph ∈ a1 ++ mkExec l p ph :: a2) by (apply elem_of_mid; auto).
  assert (Hkeep : ∀ x, x ∈ a1 ++ a2 → x ∈ a1 ++ mkExec l p ph :: a2) by (intros; apply elem_of_mid; auto).
  apply (sinv_evolves Q (a1 ++ mkExec l p ph :: a2) s); try done.
  - rewrite acts_notify. rewrite (allClaims_evolves Q s Q' s' (a1 ++ a2) _ HE) by by rewrite jobs_notify.
    apply (refines_perm _ _ (allClaims Q (a1 ++ mkExec l p ph :: a2))); [|done].
    rewrite allClaims_mid. simpl. rewrite (plain_no_claims H p (act_heap H _ Hin) Ht). by rewrite app_nil_r.
  - intros x Hx. left. auto.
  - intros x [Hx| ->]%elem_of_mid Htx; [|simpl in *; congruence]. left. exists (notify p x).
    split; [by apply list_elem_of_fmap_2|]. unfold notify. destruct (xPhase x); try done. by case_bool_decide.
  - intros x (y & -> & Hy)%list_elem_of_fmap. pose proof (v_exec _ _ _ H y (Hkeep y Hy)) as Hok.
    assert (Hy' : y ∈ a1 ++ mkExec l p ph :: a2) by auto. unfold notify. destruct (xPhase y) as [|c|y'] eqn:Ey.
    + left. split; [done|]. intros c Hc. congruence.
    + case_bool_decide as Hc.
      * right. unfold exec_ok in *. rewrite Ey in Hok. simpl. destruct Hok as (_ & Hty & _).
        destruct (e_kind _ _ _ _ HE _ (act_heap H y Hy')) as (_ & -> & _). congruence.
      * left. split; [done|]. intros c' Hc'. assert (c' = c) as -> by congruence. apply Hold; [|done].
        by eapply awaited_pending.
    + left. split; [done|]. intros c Hc. congruence.
Qed.

Lemma match_done Q a1 l p a2 s ioReroute : sinv Q (a1 ++ mkExec l p Running :: a2) s → tryBatch (job Q p) = false →
  matched s (workDone l p ioReroute Q) (notify p <$> a1 ++ a2).
Proof.
  intros H Ht. pose proof (v_ref _ _ _ H) as HR. rewrite acts_app, acts_cons in HR. simpl in HR.
  unfold workDone. destruct (rerouted l (job Q p) ioReroute) eqn:Er.
  - unfold rerouted in Er. destruct (continuation (job Q p)) eqn:Ek; [by rewrite andb_false_r in Er|].
    destruct (reroute_refines Q _ _ _ _ _ _ HR Ek) as (Hs & HR' & HE). rewrite <- acts_app in HR'.
    exists (paused s p). split; [by apply rtc_once|]. apply sinv_again. by eapply sinv_left.
  - destruct (finish_refines HR) as (Hs & HR' & HE). rewrite <- acts_app in HR'.
    exists (ended s p). split; [by apply rtc_once|]. apply sinv_again. eapply sinv_left; [done..| |].
    + intros x Hx. simpl in Hx. by apply elem_of_without in Hx as [? _].
    + intros x Hx Hne. simpl. by apply elem_of_without.
Qed.

(** ** Batches *)

(** A continuation is nobody's claim. *)
Lemma awaited_kept Q a s p b Q' s' x c : sinv Q a s → batches Q !! p = Some b → bstep p Q s Q' s' →
  x ∈ a → xPhase x = WaitingFor c → c ∈ (jobs s').*1.
Proof.
  intros H Hb S Hx Hc. apply (t_old _ _ _ _ _ S); [by eapply awaited_pending|]. unfold batch. rewrite Hb.
  intros (i & Hi)%list_elem_of_lookup. pose proof (v_exec _ _ _ H x Hx) as Hok. unfold exec_ok in Hok. rewrite Hc in Hok.
  destruct Hok as (_ & _ & Hin & Hk). destruct (claimed (plan b i)) eqn:Ecl.
  - pose proof (v_batch _ _ _ H _ _ Hb) as HB. destruct (decide (p ∈ xJob <$> a)) as [(y & -> & Hy)%list_elem_of_fmap|Hno].
    + apply list_elem_of_split in Hy as (a1 & a2 & ->).
      assert (Hcx : bctx (acts (a1 ++ y :: a2)) (allClaims Q (a1 ++ a2)) (xJob y) Q s).
      { apply get_bctx; [done|]. apply HB. }
      destruct (c_ref _ _ _ _ _ Hcx) as (Hq & _). unfold batch in Hcx.
      assert (Hcl : c ∈ claimsHeld (batch Q (xJob y))).
      { eapply held_claimed; [by apply get_bctx, HB| |]; unfold batch; rewrite Hb; done. }
      destruct (i_claim _ _ _ _ _ Hq c) as (_ & _ & Hk'); [apply elem_of_app; by right|congruence].
    + pose proof (v_parked _ _ _ H p) as Hp. destruct Hp as [Hf _ _]; [by eexists| |].
      { intros y Hy <-. apply Hno. by apply list_elem_of_fmap_2. }
      specialize (Hf i ltac:(lia)). unfold batch in Hf. rewrite Hb in Hf. simpl in Hf. congruence.
  - destruct (b_idle _ _ _ _ (v_batch _ _ _ H _ _ Hb) i c Hi Ecl) as (_ & Hq & _). done.
Qed.

Section batch_step.
Context {Q : dispatchQueue} {a1 : list Exec} {l : LaneId} {p : jobp} {ph : Phase} {a2 : list Exec} {s : fifo}.
Context (H : sinv Q (a1 ++ mkExec l p ph :: a2) s) (Ht : tryBatch (job Q p) = true).

Lemma step_bctx : bctx (acts (a1 ++ mkExec l p ph :: a2)) (allClaims Q (a1 ++ a2)) p Q s.
Proof. by apply (get_bctx Q a1 (mkExec l p ph) a2). Qed.

(** The batch goes on under the lock. *)
Lemma sinv_batch Q' s' ph' :
  bctx (acts (a1 ++ mkExec l p ph :: a2)) (allClaims Q (a1 ++ a2)) p Q' s' → bstep p Q s Q' s' →
  (groupN (batch Q' p) ≤ tryBatchGroup)%nat → exec_ok Q' s' (mkExec l p ph') →
  sinv Q' (a1 ++ mkExec l p ph' :: a2) s'.
Proof.
  intros Hc S Hg Hok. apply (sinv_bstep H Ht S); [done..|].
  intros x c Hx. destruct (bs_batch H Ht) as [[b Hb] _]. eapply awaited_kept; [done..|]. by apply elem_of_mid; left.
Qed.

(** [prepareTryBatchGroupLocked] on a batch without claims. *)
Lemma prepare_step fenced fences Q1 s1 : bctx (acts (a1 ++ mkExec l p ph :: a2)) (allClaims Q (a1 ++ a2)) p Q1 s1 →
  bstep p Q s Q1 s1 → planned p 0 Q1 →
  ∃ s', rtc fifo_step s s' ∧ sinv (prepareTryBatchGroupLocked fenced fences p Q1) (a1 ++ mkExec l p Running :: a2) s'.
Proof.
  intros Hc S Hp. destruct (prepareLoop_ctx _ _ p fenced fences tryBatchGroup 0 Q1 s1 eq_refl Hc Hp)
    as (s' & Hc' & S' & Hp' & En & Hg). fold (prepareTryBatchGroupLocked fenced fences p Q1) in *.
  assert (S2 : bstep p Q s (prepareTryBatchGroupLocked fenced fences p Q1) s') by by eapply bstep_trans.
  exists s'. split; [apply S2|]. apply sinv_batch; [done..|lia|]. intros _. simpl. split; [done|].
  rewrite En. destruct (t_static _ _ _ _ _ S') as (_ & -> & _). intros Hlt. by eapply prepare_progress.
Qed.

End batch_step.

Lemma match_takeBatch Q a s l p Q' fenced fences : sinv Q a s → take l (enter l Q) = Some (p, Q') → tryBatch (job Q' p) = true →
  matched s (prepareTryBatchGroupLocked fenced fences p Q') (a ++ [mkExec l p Running]).
Proof.
  intros H%(sinv_enter l) Htk Ht. destruct (take_refines l p _ Q' _ _ s (v_ref _ _ _ H) Htk) as (_ & HR & HE & HJ & Hp).
  assert (HB : batch Q' p = batch (enter l Q) p) by (unfold batch; by rewrite (e_batches _ _ _ _ HE)).
  assert (Hkeep : planned p 0 (enter l Q) → planned p 0 Q').
  { apply planned_keep; [done|]. intros c _. by rewrite HJ. }
  destruct (sinv_taken _ _ _ _ _ _ (Ending false) H Htk) as (Hs & H' & _ & _).
  - congruence.
  - intros _ Hpl. destruct (Hkeep Hpl) as [G1 G2 G3]. unfold exec_ok. cbn [xPhase xJob]. split_and!; try done; [|lia].
    intros i Hi. apply G1. lia.
  - assert (Hpl : planned p 0 Q').
    { apply Hkeep, (v_parked _ _ _ H); [apply (v_has _ _ _ H); [done|congruence]|]. intros x Hx E.
      destruct HR as (Hq & _). destruct (active_nodup _ _ _ _ _ _ _ Hq) as [Hno _]. apply Hno, acts_fst. eauto. }
    destruct (prepare_step H' Ht fenced fences Q' (began s p) (step_bctx H' Ht) (bstep_refl _ _ _) Hpl) as (s' & Hs' & Hi).
    exists s'. split; [by eapply rtc_l|done].
Qed.

Section group.
Context {Q : dispatchQueue} {a1 : list Exec} {l : LaneId} {p : jobp} {a2 : list Exec} {s : fifo}.
Context (H : sinv Q (a1 ++ mkExec l p Running :: a2) s) (Ht : tryBatch (job Q p) = true).

Lemma running_planned : planned p (groupN (batch Q p)) Q ∧ (groupN (batch Q p) ≤ tryBatchGroup)%nat ∧
  (next (batch Q p) < length (items (batch Q p)) → 0 < groupN (batch Q p))%nat.
Proof.
  assert (Hin : mkExec l p Running ∈ a1 ++ mkExec l p Running :: a2) by (apply elem_of_mid; auto).
  destruct (v_exec _ _ _ H _ Hin Ht) as [Hp Hg]. split; [done|]. split; [|done]. apply (bs_batch H Ht).
Qed.

Lemma match_group rs fences fenced fences' :
  let Q' := finishTryBatchGroupLocked fences p (next (batch Q p)) (groupRan rs p Q) in
  matched s (prepareTryBatchGroupLocked fenced fences' p Q') (a1 ++ mkExec l p Running :: a2).
Proof.
  destruct running_planned as (Hp & Hg & _).
  destruct (finish_ctx _ _ p rs fences (next (batch Q p)) Q s (step_bctx H Ht) Hp Hg) as (s1 & H1 & S1 & _ & _ & Hp1).
  by apply (prepare_step H Ht fenced fences' _ s1).
Qed.

Lemma match_groupLast rs fences :
  let Q' := finishTryBatchGroupLocked fences p (next (batch Q p)) (groupRan rs p Q) in
  matched s Q' (a1 ++ mkExec l p (Ending (next (batch Q' p) <? length (items (batch Q' p)))%nat) :: a2).
Proof.
  intros Q'. destruct running_planned as (Hp & Hg & _).
  destruct (finish_ctx _ _ p rs fences (next (batch Q p)) Q s (step_bctx H Ht) Hp Hg) as (s1 & H1 & S1 & Eg & En & Hp1).
  fold Q' in H1, S1, Eg, En, Hp1. exists s1. split; [apply S1|]. apply (sinv_batch H Ht); [done..|by rewrite Eg|].
  assert (Hh : is_Some (heap Q !! p)) by apply (bs_batch H Ht). destruct (t_kind _ _ _ _ _ S1 p Hh) as (_ & ET & _).
  pose proof Hp1 as [G1 G2 G3]. unfold exec_ok. cbn [xPhase xJob]. split; [by rewrite ET|]. split; [intros i Hi; apply G1; lia|].
  split; [lia|]. intros Hlt%Nat.ltb_lt. done.
Qed.

Lemma match_abort : matched s (setNext p (length (items (batch Q p))) Q) (a1 ++ mkExec l p (Ending false) :: a2).
Proof.
  destruct running_planned as ([G1 G2 G3] & Hg & _). pose proof (step_bctx H Ht) as Hc.
  set (f := λ b, mkBatch (bLane b) (items b) (claims b) (group b) (groupN b) (length (items (batch Q p)))).
  destruct (updBatch_ctx _ _ p f Q s Hc) as [H1 S1]; [done..|].
  assert (E : batch (setNext p (length (items (batch Q p))) Q) p = f (batch Q p)) by exact (batch_upd p f Q (c_some _ _ _ _ _ Hc)).
  exists s. split; [done|]. apply (sinv_batch H Ht); [done..|by rewrite E|]. unfold exec_ok. cbn [xPhase xJob].
  split; [done|]. rewrite E. simpl. split; [apply G1|]. split; [lia|done].
Qed.

End group.

(** ** The end of a batch *)

(** An execution of a batch without claims has left the workers. *)
Lemma sinv_leaveBatch Q a1 l p y a2 s Q' s' : sinv Q (a1 ++ mkExec l p (Ending y) :: a2) s →
  claimsHeld (batch Q p) = [] → planned p 0 Q → is_Some (batches Q !! p) →
  evolves Q (jobs s) Q' (jobs s') → refines Q' (acts (a1 ++ a2)) (allClaims Q (a1 ++ mkExec l p (Ending y) :: a2)) s' →
  (∀ x, x ∈ (jobs s').*1 → x ∈ (jobs s).*1) → (∀ x, x ∈ (jobs s).*1 → x ≠ p → x ∈ (jobs s').*1) →
  sinv Q' (a1 ++ a2) s'.
Proof.
  intros H Hh Hp [b Hb] HE HR Hnew Hold. pose proof (v_batch _ _ _ H _ _ Hb) as HB.
  apply (sinv_evolves Q (a1 ++ mkExec l p (Ending y) :: a2) s); try done.
  - rewrite (allClaims_evolves Q s Q' s' (a1 ++ a2) _ HE) by done.
    apply (refines_perm _ _ (allClaims Q (a1 ++ mkExec l p (Ending y) :: a2))); [|done].
    rewrite allClaims_mid. simpl. by rewrite Hh, app_nil_r.
  - intros x Hx. left. auto.
  - intros x [Hx| ->]%elem_of_mid Htx; [by left; exists x|right]. simpl. revert Hp. apply planned_keep.
    + unfold batch. by rewrite (e_batches _ _ _ _ HE).
    + intros c Hc. apply (e_kind _ _ _ _ HE). apply (b_heap _ _ _ _ HB). unfold batch in Hc. by rewrite Hb in Hc.
  - intros x Hx. left. assert (Hin : x ∈ a1 ++ mkExec l p (Ending y) :: a2) by (apply elem_of_mid; auto).
    split; [done|]. intros c Hc. apply Hold; [by eapply awaited_pending|]. intros ->.
    pose proof (v_exec _ _ _ H x Hin) as Hok. unfold exec_ok in Hok. rewrite Hc in Hok.
    pose proof (b_cont _ _ _ _ HB). destruct Hok as (_ & _ & _ & ?). congruence.
Qed.

Section ending.
Context {Q : dispatchQueue} {a1 : list Exec} {l : LaneId} {p : jobp} {y : bool} {a2 : list Exec} {s : fifo}.
Context (H : sinv Q (a1 ++ mkExec l p (Ending y) :: a2) s) (Ht : tryBatch (job Q p) = true).

Lemma ending_ok : exec_ok Q s (mkExec l p (Ending y)).
Proof. apply (v_exec _ _ _ H). apply elem_of_mid. auto. Qed.

(** [releaseTryBatchClaimsLocked] at the end of a batch. *)
Lemma ending_released : let Q1 := releaseTryBatchClaimsLocked p Q in
  ∃ s1, rtc fifo_step s s1 ∧ sinv Q1 (a1 ++ mkExec l p (Ending y) :: a2) s1 ∧ is_Some (batches Q1 !! p) ∧
    claimsHeld (batch Q1 p) = [] ∧ planned p 0 Q1 ∧ continuation (job Q1 p) = false.
Proof.
  intros Q1. destruct ending_ok as (_ & Hf & Hn & Hy). cbn [xJob] in *.
  destruct (bs_batch H Ht) as [HS HB].
  destruct (releaseAll_ctx _ _ p Q s (step_bctx H Ht) (b_groupN _ _ _ _ HB) Hf) as (s1 & Hc & S & Eg & En & Hcl).
  fold Q1 in Hc, S, Eg, En, Hcl. destruct (t_static _ _ _ _ _ S) as (_ & Ei & _).
  destruct (t_kind _ _ _ _ _ S p) as (_ & ET & EK & _); [apply HB|].
  assert (Hpl : planned p 0 Q1).
  { constructor; [done|intros i c _ Hi; by rewrite Hcl in Hi|rewrite En, Ei; lia]. }
  exists s1. split; [apply S|]. split; [|split; [apply Hc|split; [|split; [done|]]]].
  - apply (sinv_batch H Ht); [done..|rewrite Eg; apply HB|]. unfold exec_ok. cbn [xPhase xJob].
    split; [by rewrite ET|]. split; [done|]. rewrite En, Ei. split; [done|]. intros Hyt. split; [done|]. by apply Hy.
  - apply held_none, Forall_forall. intros pl [i Hi]%list_elem_of_lookup.
    specialize (Hcl i). unfold plan in Hcl. by rewrite Hi in Hcl.
  - rewrite EK. by apply (b_cont _ _ _ _ HB).
Qed.

Lemma match_batchEnd : matched s (batchEnd l p y Q) (a1 ++ a2).
Proof.
  destruct ending_released as (s1 & Hs & H1 & HS & Hh & Hp & Hk). unfold batchEnd.
  set (Q1 := releaseTryBatchClaimsLocked p Q) in *.
  pose proof (v_ref _ _ _ H1) as HR. rewrite acts_app, acts_cons in HR. simpl in HR. destruct y.
  - destruct (yield_refines Q1 _ _ _ _ _ _ HR Hk) as (Hf & HR' & HE). rewrite <- acts_app in HR'.
    exists (paused s1 p). split; [by eapply rtc_r|]. apply sinv_again. by eapply sinv_leaveBatch.
  - destruct (finish_refines HR) as (Hf & HR' & HE). rewrite <- acts_app in HR'.
    exists (ended s1 p). split; [by eapply rtc_r|]. apply sinv_again. apply sinv_delete.
    + eapply sinv_leaveBatch; [done..| |]; intros x; simpl; rewrite elem_of_without; tauto.
    + simpl. rewrite elem_of_without. tauto.
    + intros x Hx E. pose proof (acts_nodup H1) as Hn. rewrite fmap_app, fmap_cons in Hn. simpl in Hn.
      apply NoDup_app in Hn as (_ & Hd & [Hd2 _]%NoDup_cons). apply elem_of_app in Hx as [Hx|Hx].
      * apply (Hd p); [|left]. rewrite <- E. by apply list_elem_of_fmap_2.
      * apply Hd2. rewrite <- E. by apply list_elem_of_fmap_2.
Qed.

End ending.

(** ** Admission of a batch *)

Lemma sinv_alloc j Q a s : sinv Q a s → sinv (snd (alloc j Q)) a s.
Proof.
  intros H. pose proof (evolves_alloc j Q (jobs s) (i_fresh _ _ _ _ _ (v_q H))) as HE.
  eapply sinv_quiet; [done..| |auto|auto]. destruct (v_ref _ _ _ H) as (H1 & H2 & H3).
  split; [by apply qinv_alloc|done].
Qed.

Lemma idle_new Q a s j c : sinv Q a s → heap Q !! c = Some j → c ∉ (jobs s).*1 → successors j = [] → predecessors j = 0 →
  tryBatch j = false → continuation j = false → idle Q (jobs s) c.
Proof. intros H Hc Hno E1 E2 E3 E4. unfold idle, job. rewrite Hc. simpl. split; [by eexists|done]. Qed.

(** The queue after a new batch and its marks were allocated. *)
Definition batchAllocs (l : LaneId) (Q : dispatchQueue) : dispatchQueue :=
  let Q := snd (alloc (mkJob None true [] [] 0 l false false false) Q) in
  let Q := snd (alloc noJob Q) in
  let Q := snd (alloc noJob Q) in
  let Q := snd (alloc noJob Q) in
  snd (alloc noJob Q).

Definition freshBatch (l : LaneId) (ts : list Z) (f : N) : tryBatchJob :=
  mkBatch l ts [f + 1; f + 1 + 1; f + 1 + 1 + 1; f + 1 + 1 + 1 + 1]%N (replicate tryBatchGroup noPlan) 0 0.

Lemma newTryBatchJob_eq l ts Q : newTryBatchJob l ts Q =
  (fresh Q, set_batches (<[fresh Q := freshBatch l ts (fresh Q)]> (batches (batchAllocs l Q))) (batchAllocs l Q)).
Proof. cbv beta iota zeta delta [newTryBatchJob batchAllocs freshBatch alloc fst snd]. reflexivity. Qed.

Lemma batchAllocs_heap l Q : heap (batchAllocs l Q) !! fresh Q = Some (mkJob None true [] [] 0 l false false false) ∧
  ∀ ts c, c ∈ claims (freshBatch l ts (fresh Q)) → heap (batchAllocs l Q) !! c = Some noJob ∧ (fresh Q < c)%N.
Proof.
  cbn [batchAllocs alloc snd heap fresh set_fresh set_heap]. split.
  - rewrite !lookup_insert_ne by lia. apply lookup_insert_eq.
  - intros ts c Hc. simpl in Hc. repeat (apply elem_of_cons in Hc as [->|Hc]); [..|by apply elem_of_nil in Hc];
      (split; [|lia]); rewrite ?lookup_insert_ne by lia; apply lookup_insert_eq.
Qed.

Lemma batchAllocs_job l Q : job (batchAllocs l Q) (fresh Q) = mkJob None true [] [] 0 l false false false.
Proof. unfold job. by rewrite (proj1 (batchAllocs_heap l Q)). Qed.

Lemma freshBatch_plan l ts f i : claimed (plan (freshBatch l ts f) i) = false.
Proof. unfold plan, freshBatch. simpl. by do 5 (destruct i as [|i]; [done|]). Qed.

Lemma newTryBatchJob_sinv l ts Q a s : sinv Q a s → sinv (snd (newTryBatchJob l ts Q)) a s.
Proof.
  intros H. rewrite newTryBatchJob_eq. cbn [snd]. set (Q5 := batchAllocs l Q).
  assert (H5 : sinv Q5 a s) by by do 5 apply sinv_alloc.
  destruct (batchAllocs_heap l Q) as [Hp Hc]. fold Q5 in Hp, Hc.
  assert (Hnew : ∀ x, (fresh Q <= x)%N → x ∉ (jobs s).*1) by (intros x Hx Hin%(q_lt (v_q H)); lia).
  assert (HB : batch (set_batches (<[fresh Q := freshBatch l ts (fresh Q)]> (batches Q5)) Q5) (fresh Q) = freshBatch l ts (fresh Q)).
  { unfold batch. simpl. by rewrite lookup_insert_eq. }
  assert (EB : batches Q5 = batches Q) by done.
  assert (Hlt : ∀ p b, batches Q !! p = Some b → (p < fresh Q)%N ∧ ∀ c, c ∈ claims b → (c < fresh Q)%N).
  { intros p b Hb. pose proof (v_batch _ _ _ H _ _ Hb) as Hbk. split; [|intros c Hcc];
      apply (i_fresh _ _ _ _ _ (v_q H)); [apply Hbk|by apply (b_heap _ _ _ _ Hbk)]. }
  apply sinv_insert; [done| | | | |].
  - rewrite EB. apply eq_None_not_Some. intros [b Hb%Hlt]. lia.
  - apply Hnew. lia.
  - constructor; try done.
    + rewrite Hp. split; [by eexists|]. unfold Q5; by rewrite batchAllocs_job.
    + repeat (apply NoDup_cons; split; [rewrite ?elem_of_cons, elem_of_nil; lia|]). constructor.
    + intros c Hcc. destruct (Hc ts c Hcc) as [-> _]. by eexists.
    + intros i c Hi%list_elem_of_lookup_2 _. destruct (Hc ts c Hi) as [Hh Hl].
      apply (idle_new Q5 a s noJob); try done. apply Hnew. lia.
    + simpl. unfold tryBatchGroup. lia.
    + unfold Q5. by rewrite batchAllocs_job.
  - rewrite EB. intros p' b' c Hb Hcb Hcc. destruct (Hlt _ _ Hb) as [_ Hl]. specialize (Hl c Hcb).
    destruct (Hc ts c Hcc). lia.
  - constructor; rewrite HB; [intros; apply freshBatch_plan| |simpl; lia].
    intros i c _ Hi. by rewrite freshBatch_plan in Hi.
Qed.

Definition batchOwnJob (l : LaneId) : dispatchJob := mkJob None true [] [] 0 l false false false.

Lemma heap_set_batches b Q : heap (set_batches b Q) = heap Q.
Proof. done. Qed.

Lemma newTryBatchJob_own l ts Q : let Q6 := snd (newTryBatchJob l ts Q) in
  fst (newTryBatchJob l ts Q) = fresh Q ∧ heap Q6 !! fresh Q = Some (batchOwnJob l) ∧ is_Some (batches Q6 !! fresh Q).
Proof.
  rewrite newTryBatchJob_eq. cbn [fst snd]. destruct (batchAllocs_heap l Q) as [Hh _]. split; [done|].
  split; [by rewrite heap_set_batches, Hh|]. cbn [batches set_batches]. rewrite lookup_insert_eq. by eexists.
Qed.

(** The batch is queued. *)
Definition queueBatch (l : LaneId) (p : jobp) (Q : dispatchQueue) : dispatchQueue :=
  notePeak l (pushJob l p (updLane l noteBatch (set_pending (pending Q + 1) Q))).

Lemma queueBatch_matched Q a s l p : sinv Q a s → heap Q !! p = Some (batchOwnJob l) → p ∉ (jobs s).*1 →
  is_Some (batches Q !! p) → matched s (queueBatch l p Q) a.
Proof.
  intros H Hh Hnp Hb. assert (HJ : job Q p = batchOwnJob l) by (unfold job; by rewrite Hh).
  unfold queueBatch. set (Q7 := updLane l noteBatch _).
  assert (HJ7 : job Q7 = job Q) by done.
  assert (HE : evolves Q (jobs s) (notePeak l (pushJob l p Q7)) (jobs s ++ [(p, [])])).
  { eapply evolves_trans; [|eapply evolves_trans; [apply evolves_pushJob|apply evolves_updLane]].
    constructor; try done. intros c (Hc & Hq & Hr). unfold idle. rewrite HJ7.
    split; [done|]. split; [|done]. rewrite link_in. intros [?| ->]; [done|]. destruct Hr as (_ & _ & Hf & _).
    rewrite HJ in Hf. done. }
  exists (submitted s p []). split; [by apply rtc_once, submit_step|].
  eapply sinv_quiet; [apply H|done| | |].
  - apply refines_notePeak. destruct (v_ref _ _ _ H) as (Hq & Hc & Hx).
    assert (H7 : qinv Q7 (acts a) (allClaims Q a) [] (jobs s)).
    { apply (qinv_view Q); [done..|]. intros l'. apply (lview_updLane l noteBatch (set_pending (pending Q + 1) Q) l'). done. }
    assert (Hh7 : is_Some (heap Q7 !! p)) by (change (heap Q7) with (heap Q); rewrite Hh; by eexists).
    pose proof (qinv_link p _ _ _ _ _ H7 Hh7 Hnp) as HL. rewrite HJ7, HJ in HL. simpl in HL.
    split; [|split; [|done]].
    + apply qinv_push; [|by rewrite HJ7, HJ..]. apply HL; [done..|constructor|done].
    + unfold counted, submitted. destruct (pushJob_same l p Q7) as (_&_&_&_&_&->&->&_). destruct Hc as [Hc1 Hc2].
      change (awaitReserved Q7) with (awaitReserved Q). change (pending Q7) with (pending Q + 1). cbn [jobs]. zlia.
  - intros x Hx. simpl. rewrite link_in. auto.
  - intros x. cbn [jobs submitted]. rewrite link_in. intros [?| ->]; [auto|]. right. right. by rewrite (e_batches _ _ _ _ HE).
Qed.

Lemma match_batch Q a s l ts : sinv Q a s → matched s (fst (admitTryBatch l ts Q)) a.
Proof.
  intros H. unfold admitTryBatch. destruct (negb (started Q) || stopping Q); [by eapply matched_view|].
  destruct (negb _ && _).
  { eapply matched_view; try done. intros l'. apply lview_updLane. done. }
  pose proof (newTryBatchJob_sinv l ts Q a s H) as H6. destruct (newTryBatchJob_own l ts Q) as (E & Hh & Hb).
  destruct (newTryBatchJob l ts Q) as [p Q6]. cbn [fst snd] in *. subst p.
  assert (HJ : job Q6 (fresh Q) = batchOwnJob l) by (unfold job; by rewrite Hh).
  replace (notePeak l _) with (queueBatch l (fresh Q) Q6).
  - apply queueBatch_matched; [done..|by eapply fresh_new|done].
  - unfold queueBatch, pushJob. set (Q7 := updLane l noteBatch _). change (job Q7) with (job Q6). by rewrite HJ.
Qed.
