(* ===== verification/NestSpec.v ===== *)
(** * The dispatcher refines the order specification

    Every run of the workers over the dispatch queue is a run of [fifo]; what
    executes at the same time never shares an id. *)

From S2P Require Import Prelude NestJob NestQueue NestRun NestDemo NestOrder NestQueueInv NestSim NestBatch.
From S2P Require Import NestInv NestStep.

(** What executes: the jobs of the workers and, for the targets of their
    batches, the claims. *)
Definition units (S : Sys) : list jobp := (xJob <$> act S) ++ allClaims (sq S) (act S).

(** What waits in the lanes. *)
Definition queuedJobs (q : dispatchQueue) : list jobp :=
  allLanes ≫= λ l, waiting (lanes q l) ++ continuations (lanes q l).

(** A state of the dispatcher shows a state of the specification. *)
Record shows (S : Sys) (s : fifo) : Prop := mkShows {
  sh_executing : ∀ p, p ∈ executing s ↔ p ∈ units S;
  sh_jobs : (jobs s).*1 ≡ₚ queuedJobs (sq S) ++ units S;
  sh_ids : ∀ p l, (p, l) ∈ jobs s → ids (job (sq S) p) = l;
  sh_count : pending (sq S) = zlen (queuedJobs (sq S)) + zlen (act S) + awaitReserved (sq S)
}.

Definition simulates (S : Sys) (s : fifo) : Prop := sinv (sq S) (act S) s ∧ exclusive s.

(** ** The steps *)

Lemma work_matched S S' s : sinv (sq S) (act S) s → work_step S S' → matched s (sq S') (act S').
Proof.
  intros H Hs. destruct Hs; cbn [sq act] in *.
  - by eapply match_released.
  - by apply match_cancel.
  - by apply match_startAwait.
  - by apply match_none.
  - by eapply match_take.
  - by eapply match_takeBatch.
  - by apply match_done.
  - subst. by apply match_group.
  - subst. by apply match_groupLast.
  - by apply match_abort.
  - by apply match_batchEnd.
Qed.

Lemma step_matched S S' s : sinv (sq S) (act S) s → sys_step S S' → matched s (sq S') (act S').
Proof.
  intros H Hs. destruct Hs; cbn [sq act] in *.
  - by eapply work_matched.
  - by apply match_start.
  - by apply match_stop.
  - by apply match_dispatch.
  - by apply match_batch.
  - by apply match_runLocal.
  - by apply match_continue.
  - by apply match_reserve.
Qed.

Lemma steps_exclusive s s' : rtc fifo_step s s' → exclusive s → exclusive s'.
Proof. induction 1; eauto using fifo_step_exclusive. Qed.

Lemma simulates_step S S' s : simulates S s → sys_step S S' → ∃ s', rtc fifo_step s s' ∧ simulates S' s'.
Proof.
  intros [H He] Hs. destruct (step_matched S S' s H Hs) as (s' & Hr & H'). exists s'. split; [done|].
  split; [done|]. by eapply steps_exclusive.
Qed.

Lemma simulates_init short io longConfig : simulates (initial short io longConfig) (mkFifo [] ∅).
Proof.
  split; [|split; [constructor|split; [set_solver|intros e e' Hb; by inversion Hb]]].
  constructor; [|intros p b Hb|intros ????? Hb|intros p Hp|intros p [b Hb]|intros x Hx]; cbn in *;
    rewrite ?lookup_empty in *; try done; try by apply elem_of_nil in Hp.
  2: by apply not_elem_of_nil in Hx.
  split; [|split; [split; done|cbn; set_solver]]. constructor; cbn; try by (intros * ?%elem_of_nil).
  - constructor; cbn; intros; rewrite ?lookup_empty in *; try done; try set_solver.
    all: try by constructor.
  - done.
  - intros l. constructor; cbn; intros; rewrite ?elem_of_nil in *; try done; try constructor; try tauto.
  - intros p. rewrite lookup_empty. by intros [? ?].
Qed.

Lemma reachable_simulates short io longConfig S : reachable short io longConfig S → ∃ s, simulates S s.
Proof.
  induction 1 as [|S S' _ [s Hs] Hst]; [eexists; apply simulates_init|].
  destruct (simulates_step S S' s Hs Hst) as (s' & _ & ?). by exists s'.
Qed.

(** ** What the relation shows *)

Lemma queuedJobs_places Q A C : places Q A C ≡ₚ queuedJobs Q ++ A.*2 ++ C.
Proof. unfold places, queuedJobs, allLanes. simpl. rewrite app_nil_r. solve_Permutation. Qed.

Lemma acts_jobs (a : list Exec) : (acts a).*2 = xJob <$> a.
Proof. unfold acts. by rewrite <- list_fmap_compose. Qed.

Lemma simulates_shows S s : simulates S s → shows S s.
Proof.
  intros [H _]. destruct (v_ref _ _ _ H) as (Hq & [Hc _] & Hx). pose proof (i_place _ _ _ _ _ Hq) as Hp.
  rewrite app_nil_l, queuedJobs_places, acts_jobs in Hp. constructor.
  - intros p. unfold units. by rewrite Hx, acts_jobs, elem_of_app.
  - exact Hp.
  - intros p l Hpl. by destruct (i_ids _ _ _ _ _ Hq p l Hpl).
  - rewrite Hc. apply Permutation_length in Hp. rewrite !length_app, !length_fmap in Hp.
    unfold zlen, acts in *. lia.
Qed.

Lemma before_total q e e' : e ∈ q → e' ∈ q → e ≠ e' → before q e e' ∨ before q e' e.
Proof.
  unfold before. intros (q1 & q2 & ->)%list_elem_of_split [He|[<-|He]%elem_of_cons]%elem_of_app Hne; [right|done|left].
  - change [e'; e] with ([e'] ++ [e]). apply sublist_app; [by apply singleton_sublist_l|].
    apply sublist_skip, sublist_nil_l.
  - apply sublist_inserts_l, sublist_skip. by apply singleton_sublist_l.
Qed.

(** ** Properties *)

(** C6. Every run of the workers over the dispatch queue (admission of messages, batches, continuations and awaits, taking, running, rerouting, finishing, yielding, aborting, stopping) is a run of the order specification: jobs queue up in the order of admission, one executes only when no earlier job with a common id is pending; and in every state the queue's jobs, what its workers execute and its count of pending work are those of the specification. *)
Theorem dispatcher_refines_fifo (short io : WorkerPoolConfig) (longConfig : option WorkerPoolConfig) :
  simulates (initial short io longConfig) (mkFifo [] ∅) ∧
  (∀ S S' s, simulates S s → sys_step S S' → ∃ s', rtc fifo_step s s' ∧ simulates S' s') ∧
  (∀ S s, simulates S s → shows S s ∧ exclusive s).
Proof.
  split; [apply simulates_init|]. split; [apply simulates_step|].
  intros S s H. split; [by apply simulates_shows|apply H].
Qed.

(** C7. In every reachable state nothing executes twice and no two of the executing jobs and claimed batch targets share an id: the messages of an entity are handled one at a time, whichever pool and whichever batch they are in. *)
Theorem one_execution_per_id (short io : WorkerPoolConfig) (longConfig : option WorkerPoolConfig) (S : Sys) :
  reachable short io longConfig S →
  NoDup (units S) ∧
  ∀ p p' id, p ∈ units S → p' ∈ units S → id ∈ ids (job (sq S) p) → id ∈ ids (job (sq S) p') → p = p'.
Proof.
  intros (s & Hs)%reachable_simulates. destruct (simulates_shows S s Hs) as [Hx Hj Hi _].
  destruct Hs as [_ (Hn & Hin & He)]. split.
  - rewrite Hj in Hn. by apply NoDup_app in Hn as (_ & _ & Hn).
  - intros p p' id Hp Hp' Hid Hid'. destruct (decide (p = p')) as [|Hne]; [done|].
    assert (Hf : ∀ r, r ∈ units S → r ∈ executing s ∧ (r, ids (job (sq S) r)) ∈ jobs s).
    { intros r Hr%Hx. split; [done|]. apply Hin, list_elem_of_fmap in Hr as ([r' l] & -> & Hr). simpl.
      by rewrite (Hi _ _ Hr). }
    destruct (Hf p Hp) as [Ex Ej], (Hf p' Hp') as [Ex' Ej'].
    destruct (before_total _ _ _ Ej Ej') as [Hb|Hb]; [congruence| |];
      (destruct (He _ _ Hb); [done|]); exists id; auto.
Qed.

Lemma one_execution_per_id_witness :
  units demoRunning = [3%N; 4%N; 6%N] ∧ NoDup (units demoRunning) ∧
  ∀ p p' id, p ∈ units demoRunning → p' ∈ units demoRunning → id ∈ ids (job (sq demoRunning) p) →
    id ∈ ids (job (sq demoRunning) p') → p = p'.
Proof.
  split; [vm_compute; reflexivity|]. apply (one_execution_per_id demoPool demoPool (Some demoPool)), demoRunning_reachable.
Defined.
