(* ===== verification/NestWake.v ===== *)
(** * No wake-up is lost (framework/nest)

    Workers sleep on [laneState.wake] and are woken one by one.  The
    invariant says that a worker only sleeps when every available job already
    has a woken worker on its way, and that nobody sleeps once the queue is
    drained. *)

From S2P Require Import Prelude NestJob NestQueue NestRun NestDemo NestOrder NestQueueInv NestSim NestBatch.
From S2P Require Import NestInv NestStep NestSpec.

(** What a worker of the lane could take. *)
Definition available (s : dispatchLane) : nat :=
  (length (continuations s) + length (ready s) + length (tryBatches s))%nat.

Definition covered (s : dispatchLane) : Prop :=
  (0 < parked (wake s))%nat → (available s ≤ awake (wake s))%nat.

(** ** Operations that leave the workers where they are *)

Record lcalm (s s' : dispatchLane) : Prop := mkLCalm {
  lc_cov : covered s → covered s';
  lc_live : (parked (wake s') + awake (wake s') = parked (wake s) + awake (wake s))%nat;
  lc_parked : parked (wake s) = O → parked (wake s') = O;
  lc_config : config s' = config s
}.

Record calm (Q Q' : dispatchQueue) : Prop := mkCalm {
  m_lane : ∀ l, lcalm (lanes Q l) (lanes Q' l);
  m_wg : wg Q' = wg Q;
  m_started : started Q' = started Q;
  m_stopping : stopping Q' = stopping Q;
  m_pending : pending Q <= pending Q'
}.

#[export] Instance lcalm_preorder : PreOrder lcalm.
Proof.
  split; [by intros s; constructor|]. intros s1 s2 s3 [] []. constructor; try congruence; auto; lia.
Qed.

#[export] Instance calm_preorder : PreOrder calm.
Proof.
  split; [by intros Q; constructor|]. intros Q1 Q2 Q3 [] []. constructor; try congruence; [|lia].
  intros l. etrans; [apply m_lane0|apply m_lane1].
Qed.

(** The workers and what they could take are as they were. *)
Definition lquiet (s s' : dispatchLane) : Prop :=
  wake s' = wake s ∧ continuations s' = continuations s ∧ ready s' = ready s ∧ tryBatches s' = tryBatches s ∧
  config s' = config s.

Lemma lquiet_calm s s' : lquiet s s' → lcalm s s'.
Proof. intros (E1 & E2 & E3 & E4 & E5). constructor; unfold covered, available; by rewrite ?E1, ?E2, ?E3, ?E4, ?E5. Qed.

(** Something more to take and a worker woken for it. *)
Lemma lcalm_wakeOne s s' : wake s' = wake s → (available s' ≤ S (available s))%nat → config s' = config s →
  lcalm s (wakeOne s').
Proof.
  intros Ew Ea Ec. constructor; unfold covered, wakeOne, signal; simpl; rewrite ?Ew, ?Ec; try done;
    change (available (set_wake ?w s')) with (available s'); destruct (wake s) as [[|n] k]; simpl; try lia.
Qed.

Lemma calm_updLane l f Q : (∀ s, lcalm s (f s)) → calm Q (updLane l f Q).
Proof.
  intros Hf. constructor; try done. intros l'. rewrite lanes_updLane. by destruct (decide (l' = l)) as [->|].
Qed.

Lemma calm_quiet l f Q : (∀ s, lquiet s (f s)) → calm Q (updLane l f Q).
Proof. intros Hf. apply calm_updLane. intros s. apply lquiet_calm, Hf. Qed.

(** The lanes are not touched. *)
Lemma calm_lanes Q Q' : lanes Q' = lanes Q → wg Q' = wg Q → started Q' = started Q → stopping Q' = stopping Q →
  pending Q <= pending Q' → calm Q Q'.
Proof. intros E1 E2 E3 E4 E5. constructor; try done. intros l. by rewrite E1. Qed.

Lemma calm_updJob p f Q : calm Q (updJob p f Q).
Proof. by apply calm_lanes. Qed.
Lemma calm_updBatch p f Q : calm Q (updBatch p f Q).
Proof. by apply calm_lanes. Qed.
Lemma calm_tails t Q : calm Q (set_tails t Q).
Proof. by apply calm_lanes. Qed.
Lemma calm_alloc j Q : calm Q (snd (alloc j Q)).
Proof. by apply calm_lanes. Qed.
Lemma calm_pending n Q : pending Q <= n → calm Q (set_pending n Q).
Proof. intros. by apply calm_lanes. Qed.
Lemma calm_notePeak l Q : calm Q (notePeak l Q).
Proof. by apply calm_quiet. Qed.
Lemma calm_noteRejected l Q : calm Q (noteRejected l Q).
Proof. by apply calm_quiet. Qed.
Lemma calm_pushWaiting l p Q : calm Q (pushWaiting l p Q).
Proof. by apply calm_quiet. Qed.
Lemma calm_linkOne p Q id : calm Q (linkOne p Q id).
Proof. unfold linkOne. by repeat case_match; apply calm_lanes. Qed.

Lemma calm_enqueueReady l p Q : calm Q (enqueueReady l p Q).
Proof.
  apply calm_updLane. intros s. apply lcalm_wakeOne; destruct (tryBatch (job Q p)); try done;
    unfold available; simpl; rewrite length_app; simpl; lia.
Qed.

Lemma calm_foldl {A} (f : dispatchQueue → A → dispatchQueue) l Q : (∀ Q x, calm Q (f Q x)) → calm Q (foldl f Q l).
Proof. intros Hf. revert Q. induction l as [|x l IH]; intros Q; [done|]. simpl. etrans; [apply Hf|apply IH]. Qed.

Lemma calm_releaseIDs p Q : calm Q (releaseIDsLocked p Q).
Proof.
  unfold releaseIDsLocked. etrans; [apply calm_tails|]. apply calm_foldl. intros Q1 n. unfold releaseOne.
  etrans; [apply (calm_updJob n (λ j, set_predecessors (predecessors j - 1) j))|].
  case_match; [apply calm_enqueueReady|done].
Qed.

Lemma calm_pushJob l p Q : calm Q (pushJob l p Q).
Proof. unfold pushJob. case_match; [|apply calm_pushWaiting]. etrans; [apply calm_pushWaiting|apply calm_enqueueReady]. Qed.

Lemma calm_register j Q : calm Q (register j Q).
Proof. unfold register. etrans; [apply calm_alloc|]. apply calm_foldl. intros. apply calm_linkOne. Qed.

Lemma calm_admitLocked j Q : calm Q (fst (admitLocked j Q)).
Proof.
  rewrite admitLocked_eq. case_match; [apply calm_noteRejected|]. unfold acceptJob. simpl.
  etrans; [|apply calm_notePeak]. etrans; [|apply calm_pushJob]. etrans; [|apply calm_pending, Z.le_succ_diag_r].
  etrans; [apply calm_register|apply calm_updJob].
Qed.

Lemma calm_pushContinuation l m Q : calm Q (pushContinuationLocked l m Q).
Proof.
  unfold pushContinuationLocked. simpl. etrans; [apply (calm_alloc (mkJob (Some m) false [] [] 0 l false true false))|].
  constructor; try done; [|simpl; lia]. intros l'. simpl.
  destruct (bool_decide (l' = l)) eqn:E; [|done]. apply bool_decide_eq_true in E as ->. rewrite bool_decide_true by done.
  apply lcalm_wakeOne; [done| |done]. unfold available. simpl. rewrite length_app. simpl. lia.
Qed.

Lemma calm_startAwait Q : calm Q (startAwait Q).
Proof.
  unfold startAwait. cbn [alloc]. etrans; [|apply calm_enqueueReady]. etrans; [|apply calm_pushWaiting].
  by apply calm_lanes.
Qed.

(** ** Batches *)

Lemma calm_convert b id fenced Q : calm Q (fst (convertTryBatchTargetLocked b id fenced Q)).
Proof.
  unfold convertTryBatchTargetLocked. destruct (stopping Q), fenced; try done.
  pose proof (calm_admitLocked (set_stage (bLane b) false (newDispatchJob (mkMsg id [] [] None) false)) Q) as H.
  destruct (admitLocked _ Q) as [Q1 [e|]]; [done|]. simpl in *. etrans; [apply H|]. by apply calm_quiet.
Qed.

Lemma calm_claim p n id Q : calm Q (claim p n id Q).
Proof. unfold claim. etrans; [|apply calm_updBatch]. etrans; [|apply calm_tails]. apply calm_updJob. Qed.

Lemma calm_prepareLoop fenced fences p fuel n Q : calm Q (prepareLoop fenced fences p fuel n Q).
Proof.
  revert n Q. induction fuel as [|fuel IH]; intros n Q; simpl; [apply calm_updBatch|].
  destruct (items _ !! _) as [id|]; [|apply calm_updBatch].
  destruct fenced; [etrans; [|apply IH]; by apply calm_lanes|].
  destruct (tails _ !! id) as [tail|].
  - destruct (bool_decide _); [by apply calm_lanes|].
    pose proof (calm_convert (batch Q p) id (fences n) (setPlan p n noPlan Q)) as H.
    destruct (convertTryBatchTargetLocked _ _ _ _) as [Q1 r]. simpl in H.
    etrans; [|apply IH]. etrans; [|apply calm_updBatch]. etrans; [apply calm_updBatch|apply H].
  - etrans; [|apply IH]. etrans; [apply calm_updBatch|apply calm_claim].
Qed.

Lemma calm_prepare fenced fences p Q : calm Q (prepareTryBatchGroupLocked fenced fences p Q).
Proof. apply calm_prepareLoop. Qed.

Lemma calm_releaseClaims p Q : calm Q (releaseTryBatchClaimsLocked p Q).
Proof.
  apply calm_foldl. intros Q1 i. unfold releaseClaim. destruct (negb _); [done|].
  etrans; [|apply calm_updBatch]. etrans; [apply calm_releaseIDs|apply calm_updJob].
Qed.

Lemma calm_finishGroup fences p st Q : calm Q (finishTryBatchGroupLocked fences p st Q).
Proof.
  unfold finishTryBatchGroupLocked. etrans; [|apply calm_releaseClaims]. apply calm_foldl. intros Q1 i.
  unfold convertBusy. destruct (negb _); [done|].
  pose proof (calm_convert (batch Q1 p) (default 0 (items (batch Q1 p) !! (st + i)%nat)) (fences i) Q1) as H.
  destruct (convertTryBatchTargetLocked _ _ _ _) as [Q2 [e|]]; [|done]. etrans; [apply H|apply calm_updBatch].
Qed.

Lemma calm_newTryBatchJob l ts Q : calm Q (snd (newTryBatchJob l ts Q)).
Proof. by apply calm_lanes. Qed.

Lemma calm_queueBatch l p Q : calm Q (queueBatch l p Q).
Proof.
  unfold queueBatch. etrans; [|apply calm_notePeak]. etrans; [|apply calm_pushJob]. etrans; [apply calm_pending, Z.le_succ_diag_r|].
  by apply (calm_quiet l noteBatch).
Qed.

(** ** Taking and leaving *)

Lemma take_effect l p Q Q' : take l Q = Some (p, Q') →
  same_jobs Q Q' ∧ (∀ l', l' ≠ l → lanes Q' l' = lanes Q l') ∧
  wake (lanes Q' l) = wake (lanes Q l) ∧ config (lanes Q' l) = config (lanes Q l) ∧
  S (available (lanes Q' l)) = available (lanes Q l).
Proof.
  assert (HR : takeReady l Q = Some (p, Q') → same_jobs Q Q' ∧ (∀ l', l' ≠ l → lanes Q' l' = lanes Q l') ∧
    wake (lanes Q' l) = wake (lanes Q l) ∧ config (lanes Q' l) = config (lanes Q l) ∧
    S (available (lanes Q' l)) = available (lanes Q l)).
  { unfold takeReady. destruct (takeExternal (lanes Q l)) as [[r s]|] eqn:E; [|done]. intros [= -> <-].
    apply takeExternal_spec in E as (Hr & _ & (_ & _ & Ec & _ & _ & _ & Ef & _) & Ew & _). split; [done|].
    split; [intros l' Hl'; by rewrite lanes_updLane, decide_False|]. rewrite lanes_updLane, decide_True by done.
    assert (HS : S (available s) = available (lanes Q l)).
    { unfold available. rewrite Ec. destruct Hr as [[-> ->]|[-> ->]]; simpl; lia. }
    by destruct (isIO l). }
  unfold take. destruct (continuations (lanes Q l)) as [|c cs] eqn:Ec; [done|].
  destruct (negb (isIO l) && _); [|done]. intros [= -> <-]. split; [done|]. unfold notePeak.
  split; [intros l' Hl'; by rewrite !lanes_updLane, !decide_False|].
  rewrite !lanes_updLane, !decide_True by done. split; [done|]. split; [done|]. unfold available. simpl. by rewrite Ec.
Qed.

(** ** The workers of a lane *)

Definition executingIn (a : list Exec) (l : LaneId) : nat := length (filter (λ x, xLane x = l) a).

Definition live (Q : dispatchQueue) (a : list Exec) (l : LaneId) : nat :=
  (parked (wake (lanes Q l)) + awake (wake (lanes Q l)) + executingIn a l)%nat.

(** Nothing will ever be taken again. *)
Definition drained (Q : dispatchQueue) : Prop := stopping Q = true ∧ pending Q = 0.

(** The workers a lane is started with. *)
Definition crew (c : WorkerPoolConfig) : nat := Z.to_nat (Workers c).

Section workers.
(** The configuration of each lane. *)
Context (n : LaneId → WorkerPoolConfig).

Record wake_ok (Q : dispatchQueue) (a : list Exec) : Prop := mkWakeOk {
  w_cov : ∀ l, covered (lanes Q l);
  w_config : ∀ l, config (lanes Q l) = n l;
  w_staff : started Q = true → drained Q ∨ ∀ l, live Q a l = crew (n l);
  w_off : started Q = false → pending Q = 0 ∧ ∀ l, live Q a l = O;
  w_wg : wg Q = Z.of_nat (live Q a Short + live Q a IO + live Q a Long);
  w_drained : drained Q → ∀ l, parked (wake (lanes Q l)) = O
}.

Lemma executingIn_app a1 a2 l : executingIn (a1 ++ a2) l = (executingIn a1 l + executingIn a2 l)%nat.
Proof. unfold executingIn. by rewrite filter_app, length_app. Qed.

Lemma executingIn_one x l : executingIn [x] l = if decide (xLane x = l) then 1%nat else O.
Proof. unfold executingIn. rewrite filter_cons. by destruct (decide (xLane x = l)). Qed.

Lemma executingIn_mid a1 x a2 l :
  executingIn (a1 ++ x :: a2) l = (executingIn (a1 ++ a2) l + if decide (xLane x = l) then 1 else 0)%nat.
Proof. change (x :: a2) with ([x] ++ a2). rewrite !executingIn_app, executingIn_one. lia. Qed.

Lemma executingIn_notify p (a : list Exec) l : executingIn (notify p <$> a) l = executingIn a l.
Proof.
  unfold executingIn. induction a as [|x a IH]; [done|]. rewrite fmap_cons, !filter_cons.
  assert (xLane (notify p x) = xLane x) as -> by (unfold notify; destruct (xPhase x); try done; by case_bool_decide).
  destruct (decide (xLane x = l)); [|done]. by rewrite !length_cons, IH.
Qed.

(** The state of the workers after a step: [drop] and [add] are the lanes
    whose executions and woken workers were exchanged. *)
Lemma wake_step Q a Q' a' :
  wake_ok Q a → (∀ l, covered (lanes Q l) → covered (lanes Q' l)) →
  (∀ l, live Q' a' l = live Q a l) → (∀ l, config (lanes Q' l) = config (lanes Q l)) →
  wg Q' = wg Q → started Q' = started Q → (started Q = true → stopping Q = true → stopping Q' = true) →
  (started Q = false ∨ drained Q → pending Q' = pending Q) →
  (drained Q' → ∀ l, parked (wake (lanes Q' l)) = O) → wake_ok Q' a'.
Proof.
  intros [H1 HN H2 H3 H4 H5] Hc Hl Hcf Hw Hs Hst Hp Hd. constructor; try done.
  - auto.
  - intros l. rewrite Hcf. apply HN.
  - rewrite Hs. intros Es. destruct (H2 Es) as [[D1 D2]|HF].
    + left. split; [auto|]. rewrite Hp; [done|]. right. by split.
    + right. intros l. rewrite Hl. apply HF.
  - rewrite Hs. intros Es. destruct (H3 Es) as [E1 E2]. split; [rewrite Hp; auto|]. intros l. by rewrite Hl.
  - by rewrite Hw, H4, !Hl.
Qed.

Lemma wake_calm Q a Q' a' :
  wake_ok Q a → 0 <= pending Q → calm Q Q' → (∀ l, executingIn a' l = executingIn a l) →
  (started Q = false ∨ drained Q → pending Q' = pending Q) → wake_ok Q' a'.
Proof.
  intros H H0 [M1 M2 M3 M4 M5] He Hp. eapply wake_step; try done.
  - intros l. apply M1.
  - intros l. unfold live. rewrite He. destruct (M1 l). lia.
  - intros l. apply M1.
  - intros _. by rewrite M4.
  - intros [D1 D2] l. apply (M1 l). apply (w_drained _ _ H). split; [congruence|lia].
Qed.

(** ** The steps *)

Lemma refines_pending Q A C s : refines Q A C s → 0 <= awaitReserved Q ∧ zlen A + awaitReserved Q <= pending Q.
Proof.
  intros (Hq & [Hc Ha] & _). pose proof (i_place _ _ _ _ _ Hq) as Hp.
  apply Permutation_length in Hp. rewrite app_nil_l, queuedJobs_places, !length_app, !length_fmap in Hp.
  unfold zlen in *. lia.
Qed.

Section steps.
Context {Q : dispatchQueue} {a : list Exec} {s : fifo} (H : sinv Q a s) (W : wake_ok Q a).

Lemma pending_nonneg : 0 <= pending Q ∧ 0 <= awaitReserved Q ∧ zlen a + awaitReserved Q <= pending Q.
Proof.
  destruct (refines_pending _ _ _ _ (v_ref _ _ _ H)) as [Ha Hp]. unfold acts, zlen in Hp. rewrite length_fmap in Hp.
  unfold zlen. lia.
Qed.

(** While somebody executes, or an await is reserved, the queue runs. *)
Lemma busy_queue : 0 < zlen a + awaitReserved Q → started Q = true ∧ ¬ drained Q.
Proof.
  intros Ha. destruct pending_nonneg as (_ & _ & Hp). split.
  - destruct (started Q) eqn:E; [done|]. destruct (w_off _ _ W E). lia.
  - intros [_ E]. lia.
Qed.

Lemma wake_grow Q' a' : calm Q Q' → (∀ l, executingIn a' l = executingIn a l) → 0 < zlen a + awaitReserved Q →
  wake_ok Q' a'.
Proof.
  intros Hc He Ha. destruct (busy_queue Ha) as [B1 B2]. eapply wake_calm; [done|apply pending_nonneg|done..|].
  intros [?|?]; [congruence|done].
Qed.

(** An admission passed the guard on [started] and [stopping]. *)
Lemma wake_admitted Q' : calm Q Q' → started Q = true → stopping Q = false → wake_ok Q' a.
Proof.
  intros Hc E1 E2. eapply wake_calm; [done|apply pending_nonneg|done..|].
  intros [?|[??]]; congruence.
Qed.

Lemma again_lane l Q2 l' : lanes (again l Q2) l' =
  if decide (l' = l) then set_wake (mkCond (parked (wake (lanes Q2 l))) (S (awake (wake (lanes Q2 l))))) (lanes Q2 l)
  else lanes Q2 l'.
Proof. unfold again. rewrite lanes_updLane. by destruct (decide (l' = l)) as [->|]. Qed.

(** A worker ended its job and looks for the next one. *)
Lemma wake_again Q2 a' l : (∀ l', lcalm (lanes Q l') (lanes Q2 l')) → wg Q2 = wg Q → started Q2 = started Q →
  stopping Q2 = stopping Q → (drained Q2 → ∀ l', parked (wake (lanes Q2 l')) = O) → 0 < zlen a + awaitReserved Q →
  (∀ l', executingIn a l' = (executingIn a' l' + if decide (l = l') then 1 else 0)%nat) → wake_ok (again l Q2) a'.
Proof.
  intros Hc E1 E2 E3 Hd Ha He. destruct (busy_queue Ha) as [B1 B2]. eapply wake_step; try done.
  - intros l' Hcov. apply (lc_cov _ _ (Hc l')) in Hcov. rewrite again_lane.
    destruct (decide (l' = l)) as [->|]; [|done]. revert Hcov. unfold covered.
    change (available (set_wake ?w ?s)) with (available s). simpl. intros Hcov Hp. specialize (Hcov Hp).
    change (available (set_wake _ (lanes Q2 l))) with (available (lanes Q2 l)). lia.
  - intros l'. destruct (Hc l') as [_ Hl _ _]. unfold live. rewrite He, again_lane.
    destruct (decide (l' = l)) as [->|Hne].
    + rewrite decide_True by done. simpl. lia.
    + rewrite decide_False by done. lia.
  - intros l'. rewrite again_lane. destruct (decide (l' = l)) as [->|]; apply (lc_config _ _ (Hc _)).
  - intros _. change (stopping (again l Q2)) with (stopping Q2). by rewrite E3.
  - intros [?|?]; [congruence|done].
  - intros D l'. rewrite again_lane. destruct (decide (l' = l)) as [->|]; by apply Hd.
Qed.

End steps.

(** ** Dropping work *)

Lemma wakeAll_lane Q l : lanes (wakeAll Q) l = set_wake (broadcast (wake (lanes Q l))) (lanes Q l).
Proof. unfold wakeAll, allLanes. cbn [foldl]. rewrite !lanes_updLane. by destruct l. Qed.

Lemma lcalm_broadcast s : lcalm s (set_wake (broadcast (wake s)) s).
Proof. constructor; unfold covered, broadcast; simpl; try done; lia. Qed.

Lemma dropPending_effect Q : let Q' := dropPending Q in
  (∀ l, lcalm (lanes Q l) (lanes Q' l)) ∧ wg Q' = wg Q ∧ started Q' = started Q ∧ stopping Q' = stopping Q ∧
  (drained Q' → ∀ l, parked (wake (lanes Q' l)) = O).
Proof.
  unfold dropPending. set (Q1 := set_pending (pending Q - 1) Q).
  assert (HL : ∀ l, lanes Q1 l = lanes Q l) by done. destruct (stopping Q1 && (pending Q1 =? 0)) eqn:E.
  - split; [|split_and!; try done].
    + intros l. rewrite wakeAll_lane, HL. apply lcalm_broadcast.
    + intros _ l. by rewrite wakeAll_lane.
  - split; [done|]. split_and!; try done. intros [D1 D2]. rewrite D1, D2 in E. done.
Qed.

(** ** Every step keeps the workers *)

Lemma wake_start Q a s : sinv Q a s → wake_ok Q a → wake_ok (start Q) a.
Proof.
  intros H W. unfold start. destruct (started Q || stopping Q) eqn:E; [done|]. apply orb_false_iff in E as [E1 E2].
  destruct W as [H1 HF H2 H3 H4 H5]. destruct (H3 E1) as [Hp Hl].
  assert (HN : ∀ l, lanes (foldl startLane (set_flags true (stopping Q) Q) allLanes) l =
    set_wake (mkCond (parked (wake (lanes Q l))) (awake (wake (lanes Q l)) + crew (n l))) (lanes Q l)).
  { intros l. unfold allLanes. cbn [foldl]. unfold startLane. cbn [lanes set_wg]. rewrite !lanes_updLane. rewrite <- HF. by destruct l. }
  set (Q' := foldl _ _ _) in *.
  assert (HL : ∀ l, live Q' a l = crew (n l)).
  { intros l. specialize (Hl l). unfold live in *. rewrite HN. simpl. lia. }
  constructor.
  - intros l. specialize (H1 l). rewrite HN. revert H1. unfold covered. simpl.
    change (available (set_wake _ (lanes Q l))) with (available (lanes Q l)). lia.
  - intros l. rewrite <- HF. by rewrite HN.
  - intros _. right. intros l. by rewrite HL.
  - done.
  - rewrite !HL. rewrite <- !HF. change (wg Q') with (wg Q + Z.of_nat (crew (config (lanes Q Short))) + Z.of_nat (crew (config (lanes Q IO))) + Z.of_nat (crew (config (lanes Q Long)))).
    rewrite H4, !Hl. lia.
  - intros [D _]. change (stopping Q') with (stopping Q) in D. congruence.
Qed.

Lemma wake_stop Q a s : sinv Q a s → wake_ok Q a → wake_ok (stop Q) a.
Proof.
  intros H W. unfold stop. destruct (stopping Q) eqn:E; [done|]. set (Q1 := set_flags (started Q) true Q).
  assert (HL : ∀ l, lanes (wakeAll Q1) l = set_wake (broadcast (wake (lanes Q l))) (lanes Q l)).
  { intros l. by rewrite wakeAll_lane. }
  eapply wake_step; try done.
  - intros l. rewrite HL. apply lcalm_broadcast.
  - intros l. unfold live. rewrite HL. simpl. lia.
  - intros l. by rewrite HL.
  - intros _ l. by rewrite HL.
Qed.

Lemma live_enter Q a l l' : (0 < awake (wake (lanes Q l)))%nat →
  live (enter l Q) a l' = (live Q a l' - if decide (l' = l) then 1 else 0)%nat.
Proof.
  intros Hw. unfold live, enter. rewrite lanes_updLane. destruct (decide (l' = l)) as [->|]; simpl; lia.
Qed.

(** A woken worker finds nothing to take: it sleeps, or it returns. *)
Lemma wake_none Q a s l : sinv Q a s → wake_ok Q a → (0 < awake (wake (lanes Q l)))%nat →
  take l (enter l Q) = None → wake_ok (workNone l (enter l Q)) a.
Proof.
  intros H W Hw Ht. pose proof (sinv_enter l Q a s H) as He. destruct (take_None _ _ _ _ _ _ (v_q He) Ht) as (A1 & A2 & A3).
  assert (Av : available (lanes Q l) = O).
  { unfold available. unfold enter in A1, A2, A3. rewrite lanes_updLane, decide_True in A1, A2, A3 by done.
    simpl in *. by rewrite A1, A2, A3. }
  assert (Hcov : ∀ l' w, covered (lanes Q l') → covered (if decide (l' = l) then set_wake w (lanes Q l) else lanes Q l')).
  { intros l' w Hc. destruct (decide (l' = l)); [|done]. intros _. change (available _) with (available (lanes Q l)). lia. }
  unfold workNone. change (stopping (enter l Q) && (pending (enter l Q) =? 0)) with (stopping Q && (pending Q =? 0)).
  destruct (stopping Q && (pending Q =? 0)) eqn:E.
  - apply andb_true_iff in E as [E1 E2]. to_prop. assert (D : drained Q) by by split.
    destruct W as [W1 WN W2 W3 W4 W5]. constructor.
    + intros l'. change (lanes (set_wg _ _) l') with (lanes (enter l Q) l'). unfold enter. rewrite lanes_updLane.
      destruct (decide (l' = l)) as [->|]; [|done]. intros _. change (available _) with (available (lanes Q l)). lia.
    + intros l'. rewrite <- WN. change (lanes (set_wg _ _) l') with (lanes (enter l Q) l').
      unfold enter. rewrite lanes_updLane. by destruct (decide (l' = l)) as [->|].
    + intros _. by left.
    + intros Es. destruct (W3 Es) as [_ Hl]. specialize (Hl l). unfold live in Hl. lia.
    + change (wg (set_wg (wg (enter l Q) - 1) (enter l Q))) with (wg Q - 1). rewrite W4.
      change (live (set_wg (wg (enter l Q) - 1) (enter l Q)) a) with (live (enter l Q) a). rewrite !live_enter by done.
      assert (Hl : (0 < live Q a l)%nat) by (unfold live; lia). destruct l; simpl; lia.
    + intros _ l'. change (lanes (set_wg _ _) l') with (lanes (enter l Q) l'). unfold enter. rewrite lanes_updLane.
      destruct (decide (l' = l)) as [->|]; simpl; by apply W5.
  - assert (HL : ∀ l', lanes (park l (enter l Q)) l' = if decide (l' = l)
      then set_wake (mkCond (S (parked (wake (lanes Q l)))) (pred (awake (wake (lanes Q l))))) (lanes Q l) else lanes Q l').
    { intros l'. unfold park, enter. rewrite lanes_updLane. destruct (decide (l' = l)) as [->|].
      - by rewrite lanes_updLane, decide_True.
      - by rewrite lanes_updLane, decide_False. }
    eapply wake_step; try done.
    + intros l' Hc. rewrite HL. by apply Hcov.
    + intros l'. unfold live. rewrite HL. destruct (decide (l' = l)) as [->|]; simpl; lia.
    + intros l'. rewrite HL. by destruct (decide (l' = l)) as [->|].
    + intros [D1 D2]. change (stopping Q = true) in D1. change (pending Q = 0) in D2. rewrite D1, D2 in E. done.
Qed.

(** A woken worker takes a job. *)
Lemma wake_take Q a s l p Q' ph : sinv Q a s → wake_ok Q a → (0 < awake (wake (lanes Q l)))%nat →
  take l (enter l Q) = Some (p, Q') → wake_ok Q' (a ++ [mkExec l p ph]) ∧ pending Q' = pending Q.
Proof.
  intros H W Hw Ht. destruct (take_effect _ _ _ _ Ht) as ((E1 & E2 & E3 & E4 & E5 & E6 & E7 & E8 & E9) & Ho & Ew & Ec & Ea).
  split; [|done]. unfold enter in Ew, Ec, Ea. rewrite lanes_updLane, decide_True in Ew, Ec, Ea by done.
  change (available (set_wake _ (lanes Q l))) with (available (lanes Q l)) in Ea. simpl in Ew.
  assert (Ho' : ∀ l', l' ≠ l → lanes Q' l' = lanes Q l').
  { intros l' Hl'. rewrite Ho by done. unfold enter. by rewrite lanes_updLane, decide_False. }
  eapply wake_step; try done.
  - intros l' Hc. destruct (decide (l' = l)) as [->|]; [|by rewrite Ho']. revert Hc. unfold covered. rewrite Ew. simpl. lia.
  - intros l'. unfold live. rewrite executingIn_app, executingIn_one. simpl. destruct (decide (l' = l)) as [->|].
    + rewrite Ew, decide_True by done. simpl. lia.
    + rewrite Ho', decide_False by done. lia.
  - intros l'. destruct (decide (l' = l)) as [->|]; [done|by rewrite Ho'].
  - intros _. by rewrite E6.
  - intros [D1 D2] l'. rewrite E6 in D1. rewrite E3 in D2. pose proof (w_drained _ _ W (conj D1 D2)) as Hp.
    destruct (decide (l' = l)) as [->|]; [rewrite Ew; simpl|rewrite Ho' by done]; apply Hp.
Qed.

(** ** Ending an execution *)

Section ends.
Context {Q : dispatchQueue} {a1 : list Exec} {x : Exec} {a2 : list Exec} {s : fifo}.
Context (H : sinv Q (a1 ++ x :: a2) s) (W : wake_ok Q (a1 ++ x :: a2)).

Lemma ends_busy : 0 < zlen (a1 ++ x :: a2) + awaitReserved Q.
Proof. destruct (pending_nonneg H) as (_ & Ha & _). zlia. Qed.

(** Work remains: the execution was paused. *)
Lemma wake_paused Q1 a' : calm Q Q1 → (∀ l, executingIn a' l = executingIn (a1 ++ a2) l) → wake_ok (again (xLane x) Q1) a'.
Proof.
  intros [M1 M2 M3 M4 M5] He. eapply (wake_again H W); try done.
  - intros [D1 D2] l. exfalso. destruct (pending_nonneg H) as (_ & Ha & Hp). pose proof ends_busy. lia.
  - apply ends_busy.
  - intros l. rewrite He. apply executingIn_mid.
Qed.

(** The job is finished. *)
Lemma wake_finished Q1 Q2 a' : calm Q Q1 → lanes Q2 = lanes (dropPending Q1) → wg Q2 = wg (dropPending Q1) →
  started Q2 = started (dropPending Q1) → stopping Q2 = stopping (dropPending Q1) → pending Q2 = pending (dropPending Q1) →
  (∀ l, executingIn a' l = executingIn (a1 ++ a2) l) → wake_ok (again (xLane x) Q2) a'.
Proof.
  intros [M1 M2 M3 M4 M5] F1 F2 F3 F4 F5 He. destruct (dropPending_effect Q1) as (D1 & D2 & D3 & D4 & D5).
  eapply (wake_again H W).
  - intros l. rewrite F1. etrans; [apply M1|apply D1].
  - by rewrite F2, D2.
  - by rewrite F3, D3.
  - by rewrite F4, D4.
  - intros [G1 G2] l. rewrite F1. apply D5. split; congruence.
  - apply ends_busy.
  - intros l. rewrite He. apply executingIn_mid.
Qed.

End ends.

Lemma calm_leaveWorker l p Q : calm Q (leaveWorker l p Q).
Proof. apply calm_quiet. intros s. unfold leaveWorker. by destruct (continuation (job Q p)). Qed.

Lemma calm_reroute p Q : calm Q (rerouteToIO p Q).
Proof.
  unfold rerouteToIO. etrans; [|apply calm_notePeak]. etrans; [|apply calm_enqueueReady].
  etrans; [|apply calm_pushWaiting]. etrans; [|apply calm_updJob]. by apply calm_quiet.
Qed.

Lemma calm_yield l p Q : calm Q (yieldTryBatchLocked l p Q).
Proof.
  unfold yieldTryBatchLocked. etrans; [|apply calm_enqueueReady]. etrans; [|apply calm_pushWaiting].
  etrans; [|apply calm_updJob]. by apply calm_quiet.
Qed.

Lemma calm_admitTryBatch l ts Q : calm Q (fst (admitTryBatch l ts Q)).
Proof.
  unfold admitTryBatch. destruct (_ || _); [done|]. destruct (_ && _); [apply calm_noteRejected|].
  pose proof (calm_newTryBatchJob l ts Q) as Hc. destruct (newTryBatchJob l ts Q) as [p Q1]. simpl in *.
  etrans; [apply Hc|]. etrans; [|apply calm_notePeak]. etrans; [|apply calm_enqueueReady].
  etrans; [|apply calm_pushWaiting]. etrans; [apply calm_pending, Z.le_succ_diag_r|]. by apply calm_quiet.
Qed.

(** ** The invariant *)

Lemma executingIn_phase a1 l p ph ph' a2 l' :
  executingIn (a1 ++ mkExec l p ph' :: a2) l' = executingIn (a1 ++ mkExec l p ph :: a2) l'.
Proof. by rewrite !executingIn_mid. Qed.

Lemma guard_open Q : negb (started Q) || stopping Q = false → started Q = true ∧ stopping Q = false.
Proof. destruct (started Q), (stopping Q); done. Qed.

(** Work a worker does under the lock while it executes [x]. *)
Lemma wake_inside Q a1 l p ph ph' a2 s Q' : sinv Q (a1 ++ mkExec l p ph :: a2) s → wake_ok Q (a1 ++ mkExec l p ph :: a2) →
  calm Q Q' → wake_ok Q' (a1 ++ mkExec l p ph' :: a2).
Proof.
  intros H W Hc. eapply wake_grow; [done..| |by eapply ends_busy]. intros l'. apply executingIn_phase.
Qed.

Lemma wake_cancel Q a s : sinv Q a s → wake_ok Q a → 0 < awaitReserved Q → wake_ok (cancelAwait Q) a.
Proof.
  intros H W Ha. destruct (busy_queue H W) as [B1 B2]; [zlia|].
  destruct (dropPending_effect (set_await (awaitReserved Q - 1) Q)) as (D1 & D2 & D3 & D4 & D5).
  eapply wake_step; try done.
  - intros l. apply D1.
  - intros l. unfold live. destruct (D1 l) as [_ Hl _ _]. unfold cancelAwait. simpl in Hl. lia.
  - intros l. apply D1.
  - intros _. unfold cancelAwait. by rewrite D4.
  - intros [?|?]; [congruence|done].
Qed.

Lemma work_wake S S' s : sinv (sq S) (act S) s → wake_ok (sq S) (act S) → work_step S S' → wake_ok (sq S') (act S').
Proof.
  intros H W Hs. destruct Hs as [|q a o Ha|q a o Ha|
    |l p q q' a o Hw Ht|fenced fences l p q q' a o Hw Ht|l p ioReroute q a1 a2 o Ht|rs fences fenced fences' l p q q' a1 a2 o|rs fences sl l p q q' a1 a2 o| |];
    cbn [sq act] in *.
  - by eapply wake_inside.
  - by eapply wake_cancel.
  - eapply wake_grow; [done..|apply calm_startAwait|done|]. zlia.
  - by eapply wake_none.
  - by eapply wake_take.
  - destruct (wake_take _ _ _ _ _ _ Running H W Hw Ht) as [W' _].
    destruct (take_refines l p _ q' _ _ s (v_ref _ _ _ (sinv_enter l q a s H)) Ht) as (_ & HR & _).
    destruct (refines_pending _ _ _ _ HR) as [Ha Hp]. rewrite zlen_app, zlen_cons in Hp. pose proof (zlen_nonneg (acts a)).
    eapply wake_calm; [done| |apply calm_prepare|done|]; [zlia|].
    intros [E|[_ E]]; [destruct (w_off _ _ W' E)|]; zlia.
  - unfold workDone. pose proof (wake_paused H W) as HP. pose proof (wake_finished H W) as HF. simpl in HP, HF.
    destruct (rerouted l (job q p) ioReroute).
    + apply HP; [apply calm_reroute|]. intros l'. apply executingIn_notify.
    + eapply (HF (releaseIDsLocked p (leaveWorker l p q))); try done.
      * etrans; [apply calm_leaveWorker|apply calm_releaseIDs].
      * intros l'. apply executingIn_notify.
  - subst. eapply wake_inside; [done..|]. etrans; [|apply calm_prepare]. etrans; [apply calm_updBatch|apply calm_finishGroup].
  - subst. eapply wake_inside; [done..|]. etrans; [apply calm_updBatch|apply calm_finishGroup].
  - eapply wake_inside; [done..|apply calm_updBatch].
  - unfold batchEnd. pose proof (wake_paused H W) as HP. pose proof (wake_finished H W) as HF. simpl in HP, HF.
    destruct yield.
    + apply HP; [|done]. etrans; [apply calm_releaseClaims|apply calm_yield].
    + eapply (HF (releaseIDsLocked p (leaveWorker l p (releaseTryBatchClaimsLocked p q)))); try done.
      etrans; [apply calm_releaseClaims|]. etrans; [apply calm_leaveWorker|apply calm_releaseIDs].
Qed.

Lemma step_wake S S' s : sinv (sq S) (act S) s → wake_ok (sq S) (act S) → sys_step S S' → wake_ok (sq S') (act S').
Proof.
  intros H W Hs. destruct Hs as [| | |reg m prepareIO q a o|l ts q a o Hl|reg m q a o| |l p q a o Hin Hl];
    cbn [sq act] in *.
  - by eapply work_wake.
  - by eapply wake_start.
  - by eapply wake_stop.
  - unfold admitMessage. destruct (negb _ || _) eqn:E; [done|]. apply guard_open in E as [??].
    eapply wake_admitted; [done..|apply calm_admitLocked|done|done].
  - pose proof (calm_admitTryBatch l ts q) as Hc. unfold admitTryBatch in *.
    destruct (negb _ || _) eqn:E; [done|]. apply guard_open in E as [??]. by eapply wake_admitted.
  - unfold tryContinueBusiness. destruct (negb _ || _) eqn:E; [done|]. apply guard_open in E as [??].
    eapply wake_admitted; [done..|apply calm_pushContinuation|done|done].
  - eapply wake_inside; [done..|apply calm_pushContinuation].
  - unfold reserveAwait. destruct (stopping q || _) eqn:E; [done|]. rewrite orb_comm in E. apply guard_open in E as [??].
    destruct (_ <=? _); [done|]. eapply wake_admitted; [done..| |done|done]. apply calm_lanes; simpl; try done. lia.
Qed.

End workers.

(** ** Reachable states *)

Definition configs (short io : WorkerPoolConfig) (longConfig : option WorkerPoolConfig) (l : LaneId) : WorkerPoolConfig :=
  config (lanes (newDispatchQueue short io longConfig) l).

Lemma wake_init short io longConfig : wake_ok (configs short io longConfig) (newDispatchQueue short io longConfig) [].
Proof. constructor; try done; intros; cbn; try lia; try (intros ?; cbn in *; lia). Qed.

Lemma reachable_wake short io longConfig S : reachable short io longConfig S →
  ∃ s, simulates S s ∧ wake_ok (configs short io longConfig) (sq S) (act S).
Proof.
  induction 1 as [|S S' _ (s & Hs & Hw) Hst]; [eexists; split; [apply simulates_init|apply wake_init]|].
  destruct (simulates_step S S' s Hs Hst) as (s' & _ & H'). exists s'. split; [done|].
  eapply step_wake; [apply Hs|done|done].
Qed.

(** C28. No wake-up is lost: in every reachable state a worker sleeps only if for every continuation, ready job and ready batch of its lane there is a woken worker on its way; after the queue was stopped and has drained nobody sleeps; no worker of a started queue returns before that, so sleeping, woken and executing workers are all there are; and the wait group counts them. *)
Theorem no_wakeup_lost (short io : WorkerPoolConfig) (longConfig : option WorkerPoolConfig) (S : Sys) :
  reachable short io longConfig S →
  let q := sq S in
  (∀ l, (0 < parked (wake (lanes q l)))%nat → (available (lanes q l) ≤ awake (wake (lanes q l)))%nat) ∧
  (stopping q = true → pending q = 0 → ∀ l, parked (wake (lanes q l)) = O) ∧
  (started q = true → ¬ (stopping q = true ∧ pending q = 0) →
   ∀ l, live q (act S) l = crew (configs short io longConfig l)) ∧
  wg q = Z.of_nat (live q (act S) Short + live q (act S) IO + live q (act S) Long).
Proof.
  intros (s & _ & W)%reachable_wake q. destruct W as [W1 W2 W3 W4 W5 W6]. split; [apply W1|]. split; [intros ??; by apply W6|].
  split; [|done]. intros Hs Hd. by destruct (W3 Hs).
Qed.

Lemma no_wakeup_lost_witness :
  live (sq demoRunning) (act demoRunning) Short = 1%nat ∧
  wg (sq demoRunning) = Z.of_nat (live (sq demoRunning) (act demoRunning) Short + live (sq demoRunning) (act demoRunning) IO +
    live (sq demoRunning) (act demoRunning) Long).
Proof.
  split; [vm_compute; reflexivity|].
  apply (no_wakeup_lost demoPool demoPool (Some demoPool) demoRunning demoRunning_reachable).
Defined.
