(* ===== verification/NestCost.v ===== *)
(** * How much work the queue holds

    A weight for every waiting job, such that converting a target of a batch
    into a job of its own costs less than the target weighed. *)

From S2P Require Import Prelude NestJob NestQueue NestRun NestOrder NestQueueInv NestSim NestBatch.

(** ** Weights *)

(** The targets a batch has not handed out. *)
Definition remaining (b : tryBatchJob) : nat := (length (items b) - next b)%nat.

(** A business job runs at most twice, in its own pool and after a reroute in
    the I/O pool. *)
Definition jobWeight (Q : dispatchQueue) (l : LaneId) (p : jobp) : nat :=
  if tryBatch (job Q p) then (24 * remaining (batch Q p) + 3)%nat else if isIO l then 2%nat else 4%nat.

Definition laneWeight (Q : dispatchQueue) (l : LaneId) : nat :=
  (sum_list_with (jobWeight Q l) (waiting (lanes Q l)) + 2 * length (continuations (lanes Q l)))%nat.

Definition queueWeight (Q : dispatchQueue) : nat :=
  (laneWeight Q Short + laneWeight Q IO + laneWeight Q Long)%nat.

(** ** What an operation of batch [p] costs *)

Record tidy (p : jobp) (Q : dispatchQueue) : Prop := mkTidy {
  ti_fresh : ∀ x, is_Some (heap Q !! x) → (x < fresh Q)%N;
  ti_heap : ∀ l x, x ∈ waiting (lanes Q l) → is_Some (heap Q !! x);
  ti_own : is_Some (heap Q !! p);
  ti_away : ∀ l, p ∉ waiting (lanes Q l)
}.

Record costs (p : jobp) (k : nat) (Q Q' : dispatchQueue) : Prop := mkCosts {
  co_keep : ∀ x, is_Some (heap Q !! x) → is_Some (heap Q' !! x) ∧
    tryBatch (job Q' x) = tryBatch (job Q x) ∧ continuation (job Q' x) = continuation (job Q x);
  co_tidy : tidy p Q';
  co_other : ∀ p', p' ≠ p → batch Q' p' = batch Q p';
  co_await : awaitReserved Q' = awaitReserved Q;
  co_cost : (queueWeight Q' ≤ queueWeight Q + k)%nat
}.

Lemma sum_list_with_ext {A} (f g : A → nat) l : (∀ x, x ∈ l → f x = g x) → sum_list_with f l = sum_list_with g l.
Proof.
  induction l as [|x l IH]; intros H; [done|]. cbn [sum_list_with]. rewrite H by left. f_equal. apply IH.
  intros y Hy. apply H. by right.
Qed.

Lemma costs_refl p Q : tidy p Q → costs p 0 Q Q.
Proof. intros H. constructor; try done. lia. Qed.

Lemma costs_trans p k1 k2 Q1 Q2 Q3 : costs p k1 Q1 Q2 → costs p k2 Q2 Q3 → costs p (k1 + k2) Q1 Q3.
Proof.
  intros [A1 A2 A3 A4 A5] [B1 B2 B3 B4 B5]. constructor; try done; [| |congruence|lia].
  - intros x Hx. destruct (A1 x Hx) as (H1 & E1 & E2). destruct (B1 x H1) as (H2 & F1 & F2). split; [done|].
    split; congruence.
  - intros p' Hp'. rewrite B3, A3; done.
Qed.

Lemma costs_weaken p k k' Q Q' : (k ≤ k')%nat → costs p k Q Q' → costs p k' Q Q'.
Proof. intros Hk []. constructor; try done. lia. Qed.

(** The waiting jobs weigh what they weighed. *)
Lemma queueWeight_same Q Q' : (∀ l, waiting (lanes Q' l) = waiting (lanes Q l) ∧
    length (continuations (lanes Q' l)) = length (continuations (lanes Q l))) →
  (∀ l x, x ∈ waiting (lanes Q l) → tryBatch (job Q' x) = tryBatch (job Q x) ∧ batch Q' x = batch Q x) →
  queueWeight Q' = queueWeight Q.
Proof.
  intros Hl Hx. assert (HL : ∀ l, laneWeight Q' l = laneWeight Q l).
  { intros l. unfold laneWeight. destruct (Hl l) as [-> ->]. f_equal. apply sum_list_with_ext. intros x Hin.
    unfold jobWeight. by destruct (Hx l x Hin) as [-> ->]. }
  unfold queueWeight. by rewrite !HL.
Qed.

Lemma costs_frame p Q Q' : tidy p Q → frame Q Q' → costs p 0 Q Q'.
Proof.
  intros [T1 T2 T3 T4] HF. destruct HF as [f1 f2 f3 f4 f5 f6 f7 f8 f9 f10].
  assert (HB : ∀ x, batch Q' x = batch Q x) by (intros x; unfold batch; by rewrite f9). constructor.
  - intros x Hx. destruct (f2 x) as (-> & _ & _ & ->). split; [by apply f3|done].
  - constructor; [intros x; rewrite f3, f10; apply T1| |by apply f3|].
    + intros l x. destruct (f1 l) as (-> & _). rewrite f3. apply T2.
    + intros l. destruct (f1 l) as (-> & _). apply T4.
  - auto.
  - done.
  - rewrite (queueWeight_same Q Q'); [lia|..].
    + intros l. by destruct (f1 l) as (-> & _ & -> & _).
    + intros l x _. by destruct (f2 x) as (-> & _).
Qed.

(** The lanes stay; other jobs and batches stay. *)
Lemma costs_local p Q Q' : tidy p Q → lanes Q' = lanes Q → awaitReserved Q' = awaitReserved Q → fresh Q' = fresh Q →
  (∀ x, is_Some (heap Q' !! x) ↔ is_Some (heap Q !! x)) →
  (∀ x, tryBatch (job Q' x) = tryBatch (job Q x) ∧ continuation (job Q' x) = continuation (job Q x)) →
  (∀ p', p' ≠ p → batch Q' p' = batch Q p') → costs p 0 Q Q'.
Proof.
  intros [T1 T2 T3 T4] EL EA EF Hh Hj Hb. constructor; try done.
  - intros x Hx. split; [by apply Hh|apply Hj].
  - constructor; rewrite ?EL, ?EF; [intros x; rewrite Hh; apply T1|intros l x; rewrite Hh; apply T2|by apply Hh|apply T4].
  - rewrite (queueWeight_same Q Q'); [lia|by rewrite EL|]. intros l x Hx. split; [apply Hj|]. apply Hb.
    intros ->. by destruct (T4 l).
Qed.

Lemma costs_updBatch p f Q : tidy p Q → costs p 0 Q (updBatch p f Q).
Proof.
  intros H. apply costs_local; try done. intros p' Hp'. unfold batch. simpl. by rewrite lookup_alter_ne.
Qed.

Lemma costs_updJob p c f Q : (∀ j, tryBatch (f j) = tryBatch j ∧ continuation (f j) = continuation j) → tidy p Q →
  costs p 0 Q (updJob c f Q).
Proof.
  intros Hf H. apply costs_local; try done.
  - intros x. apply is_Some_alter.
  - intros x. unfold job. simpl. destruct (decide (x = c)) as [->|Hx].
    + rewrite lookup_alter_eq. destruct (heap Q !! c); simpl; [apply Hf|done].
    + by rewrite lookup_alter_ne.
Qed.

Lemma costs_tails p t Q : tidy p Q → costs p 0 Q (set_tails t Q).
Proof. intros H. by apply costs_local. Qed.
Lemma costs_pending p n Q : tidy p Q → costs p 0 Q (set_pending n Q).
Proof. intros H. by apply costs_local. Qed.

Lemma costs_alloc p j Q : tidy p Q → costs p 0 Q (snd (alloc j Q)).
Proof.
  intros [T1 T2 T3 T4]. assert (HJ : ∀ x, is_Some (heap Q !! x) → job (snd (alloc j Q)) x = job Q x).
  { intros x Hx%T1. rewrite job_alloc, decide_False; [done|lia]. }
  assert (HH : ∀ x, is_Some (heap Q !! x) → is_Some (heap (snd (alloc j Q)) !! x)).
  { intros x Hx. simpl. rewrite lookup_insert_is_Some'. by right. }
  constructor; try done.
  - intros x Hx. rewrite HJ by done. auto.
  - constructor; try done; [|by eauto|by auto]. simpl. intros x. rewrite lookup_insert_is_Some'.
    intros [->|Hx]; [lia|]. apply T1 in Hx. lia.
  - rewrite (queueWeight_same Q); [lia|done|]. intros l x Hx%T2. by rewrite HJ.
Qed.

(** A job joins the waiting jobs. *)
Lemma sum_list_with_snoc {A} (f : A → nat) l x : sum_list_with f (l ++ [x]) = (sum_list_with f l + f x)%nat.
Proof. rewrite sum_list_with_app. simpl. lia. Qed.

Lemma pushWaiting_lane l x Q l' : lanes (pushWaiting l x Q) l' =
  if decide (l' = l) then set_waiting (waiting (lanes Q l) ++ [x]) (queued (lanes Q l) + 1) (lanes Q l) else lanes Q l'.
Proof. unfold pushWaiting. rewrite lanes_updLane. by destruct (decide (l' = l)) as [->|]. Qed.

Lemma pushWaiting_weight l x Q : queueWeight (pushWaiting l x Q) = (queueWeight Q + jobWeight Q l x)%nat.
Proof.
  assert (HW : ∀ l', laneWeight (pushWaiting l x Q) l' = (laneWeight Q l' + if decide (l' = l) then jobWeight Q l x else 0)%nat).
  { intros l'. unfold laneWeight. rewrite pushWaiting_lane. change (jobWeight (pushWaiting l x Q)) with (jobWeight Q).
    destruct (decide (l' = l)) as [->|]; [|lia]. simpl. rewrite sum_list_with_snoc. lia. }
  unfold queueWeight. rewrite !HW. destruct l; simpl; lia.
Qed.

Lemma costs_pushWaiting p l x Q : tidy p Q → is_Some (heap Q !! x) → x ≠ p → costs p (jobWeight Q l x) Q (pushWaiting l x Q).
Proof.
  intros [T1 T2 T3 T4] Hx Hne. constructor; try done; [|by rewrite pushWaiting_weight].
  constructor; try done.
  - intros l' y. rewrite pushWaiting_lane. destruct (decide (l' = l)) as [->|]; [|apply T2]. simpl.
    intros [Hy| ->]%elem_of_snoc; [by eapply T2|done].
  - intros l'. rewrite pushWaiting_lane. destruct (decide (l' = l)) as [->|]; [|apply T4]. simpl. rewrite elem_of_snoc.
    intros [Hp|Hp]; [by eapply T4|congruence].
Qed.

Lemma costs_pushJob p l x Q : tidy p Q → is_Some (heap Q !! x) → x ≠ p → costs p (jobWeight Q l x) Q (pushJob l x Q).
Proof.
  intros HT Hx Hne. pose proof (costs_pushWaiting p l x Q HT Hx Hne) as Hc. unfold pushJob. case_match; [|done].
  rewrite <- (Nat.add_0_r (jobWeight Q l x)). eapply costs_trans; [done|]. apply costs_frame; [apply Hc|apply frame_enqueueReady].
Qed.

(** An admission costs a job. *)
Lemma costs_admit p j Q : tidy p Q → tryBatch j = false → costs p 4 Q (fst (admitLocked j Q)).
Proof.
  intros HT Ht. rewrite admitLocked_eq. case_match.
  { eapply costs_weaken, costs_frame; [lia|done|apply frame_noteRejected]. }
  simpl. unfold acceptJob. rewrite fresh_register. set (x := fresh Q). set (Q2 := updJob x _ _).
  assert (C1 : costs p (0 + 0) Q (register j Q)).
  { eapply costs_trans; [by apply (costs_alloc p j)|]. apply costs_frame; [by apply costs_alloc|apply register_frame]. }
  assert (C2 : costs p 0 (register j Q) Q2).
  { apply (costs_updJob p x (λ j, set_waited (0 <? predecessors j) j)); [done|apply C1]. }
  pose proof (costs_pending p (pending Q2 + 1) Q2 (co_tidy _ _ _ _ C2)) as C3.
  assert (C4 := costs_trans _ _ _ _ _ _ C1 (costs_trans _ _ _ _ _ _ C2 C3)).
  set (Q3 := set_pending _ Q2) in *.
  assert (HF : frame (register j Q) Q2) by by apply frame_updJob.
  assert (Hx : is_Some (heap Q3 !! x)).
  { apply (f_dom _ _ HF), (f_dom _ _ (register_frame j Q)). simpl. rewrite lookup_insert_eq. by eexists. }
  assert (Etx : tryBatch (job Q3 x) = false).
  { change (job Q3 x) with (job Q2 x). destruct (f_job _ _ HF x) as (-> & _). destruct (register_new j Q) as (E & _). cbn zeta in E. rewrite <- Ht. exact E. }
  assert (Hne : x ≠ p) by (intros E; pose proof (ti_fresh _ _ HT p (ti_own _ _ HT)); unfold x in E; lia).
  pose proof (costs_pushJob p (lane j) x Q3 (co_tidy _ _ _ _ C3) Hx Hne) as C5.
  eapply (costs_weaken p (0 + 0 + (0 + 0) + jobWeight Q3 (lane j) x + 0)).
  { unfold jobWeight. rewrite Etx. destruct (isIO _); lia. }
  eapply costs_trans; [eapply costs_trans; [exact C4|exact C5]|]. apply costs_frame; [apply C5|apply frame_notePeak].
Qed.

Lemma costs_convert p b id fenced Q : tidy p Q → costs p 4 Q (fst (convertTryBatchTargetLocked b id fenced Q)).
Proof.
  intros HT. unfold convertTryBatchTargetLocked.
  destruct (stopping Q), fenced; try by (eapply costs_weaken, costs_refl; [lia|]).
  pose proof (costs_admit p (set_stage (bLane b) false (newDispatchJob (mkMsg id [] [] None) false)) Q HT eq_refl) as HC.
  destruct (admitLocked _ Q) as [Q1 [e|]]; [done|]. simpl in *.
  eapply (costs_weaken p (4 + 0)); [lia|]. eapply costs_trans; [done|]. apply costs_frame; [apply HC|by apply frame_updLane].
Qed.

Lemma costs_releaseIDs p c Q : tidy p Q → costs p 0 Q (releaseIDsLocked c Q).
Proof. intros H. apply costs_frame; [done|apply frame_releaseIDs]. Qed.

Lemma costs_claim p n id Q : tidy p Q → costs p 0 Q (claim p n id Q).
Proof.
  intros H. unfold claim. set (c := default _ _). 
  assert (C1 := costs_updJob p c (set_ids [id] (bLane (batch Q p))) Q ltac:(done) H).
  assert (C2 := costs_tails p (<[id := c]> (tails Q)) _ (co_tidy _ _ _ _ C1)).
  eapply (costs_trans p (0 + 0) 0); [by eapply costs_trans|]. apply costs_updBatch, C2.
Qed.

(** ** Preparing and finishing a group *)

(** Whether the target of a plan may still be converted. *)
Definition mayConvert (pl : tryBatchPlan) : bool :=
  match step pl with tryBatchRun => true | _ => busy pl end.

(** How many of the targets from the [i]-th to before the [j]-th. *)
Definition convertible (b : tryBatchJob) (i j : nat) : nat :=
  length (filter (λ k, mayConvert (plan b k) = true) (seq i (j - i))).

Lemma convertible_none b i : convertible b i i = O.
Proof. unfold convertible. by rewrite Nat.sub_diag. Qed.

Lemma convertible_step b i j : (i < j)%nat →
  convertible b i j = ((if mayConvert (plan b i) then 1 else 0) + convertible b (S i) j)%nat.
Proof.
  intros Hij. unfold convertible. replace (j - i)%nat with (S (j - S i)) by lia. simpl. rewrite filter_cons.
  destruct (mayConvert (plan b i)) eqn:E; by simpl.
Qed.

(** What preparing the targets from the [n]-th on does. *)
Record prepared (p : jobp) (n fuel : nat) (Q Q' : dispatchQueue) : Prop := mkPrepared {
  pp_some : is_Some (batches Q' !! p);
  pp_items : items (batch Q' p) = items (batch Q p) ∧ next (batch Q' p) = next (batch Q p);
  pp_group : length (group (batch Q' p)) = length (group (batch Q p));
  pp_plan : ∀ i, (i < n)%nat → plan (batch Q' p) i = plan (batch Q p) i;
  pp_range : (n ≤ groupN (batch Q' p) ≤ n + fuel)%nat;
  pp_bound : (next (batch Q p) + groupN (batch Q' p) ≤ length (items (batch Q p)))%nat;
  pp_cost : ∃ k, costs p k Q Q' ∧
    (k + 20 * convertible (batch Q' p) n (groupN (batch Q' p)) ≤ 20 * (groupN (batch Q' p) - n))%nat
}.

Lemma setGroupN_prepared p n fuel Q : tidy p Q → is_Some (batches Q !! p) →
  (next (batch Q p) + n ≤ length (items (batch Q p)))%nat → prepared p n fuel Q (setGroupN p n Q).
Proof.
  intros HT Hs Hb. assert (E : batch (setGroupN p n Q) p = (λ b, mkBatch (bLane b) (items b) (claims b) (group b) n (next b)) (batch Q p)).
  { apply batch_upd. done. }
  constructor; rewrite ?E; simpl; try done; [|lia|].
  - simpl. by apply lookup_alter_is_Some.
  - exists O. split; [by apply costs_updBatch|]. rewrite convertible_none. lia.
Qed.

(** One target was planned; the rest follows. *)
Lemma prepared_step p n fuel c Q Q1 Q' : costs p c Q Q1 →
  items (batch Q1 p) = items (batch Q p) → next (batch Q1 p) = next (batch Q p) →
  length (group (batch Q1 p)) = length (group (batch Q p)) →
  (∀ i, (i < n)%nat → plan (batch Q1 p) i = plan (batch Q p) i) →
  (c + (if mayConvert (plan (batch Q1 p) n) then 20 else 0) ≤ 20)%nat →
  prepared p (S n) fuel Q1 Q' → prepared p n (S fuel) Q Q'.
Proof.
  intros Hc Ei En Eg Hp Hk [P1 [P2 P2'] P3 P4 P5 P6 (k & P7 & P8)]. rewrite Ei, En in *.
  constructor; try done; [congruence| |lia|].
  - intros i Hi. rewrite P4 by lia. by apply Hp.
  - exists (c + k)%nat. split; [by eapply costs_trans|]. rewrite convertible_step by lia. rewrite P4 by lia.
    destruct (mayConvert (plan (batch Q1 p) n)); lia.
Qed.

(** A plan that is read again later does not matter. *)
Lemma prepared_before p n fuel Q Q1 Q' : costs p 0 Q Q1 →
  items (batch Q1 p) = items (batch Q p) → next (batch Q1 p) = next (batch Q p) →
  length (group (batch Q1 p)) = length (group (batch Q p)) →
  (∀ i, (i < n)%nat → plan (batch Q1 p) i = plan (batch Q p) i) →
  prepared p n fuel Q1 Q' → prepared p n fuel Q Q'.
Proof.
  intros Hc Ei En Eg Hp [P1 [P2 P2'] P3 P4 P5 P6 (k & P7 & P8)]. rewrite Ei, En in *.
  constructor; try done; [congruence| |].
  - intros i Hi. rewrite P4 by lia. by apply Hp.
  - exists k. split; [by apply (costs_trans p 0 k Q Q1)|done].
Qed.

Lemma setPlan_batch p n pl Q : is_Some (batches Q !! p) → batch (setPlan p n pl Q) p = withPlan n pl (batch Q p).
Proof. intros H. by apply batch_upd. Qed.

Lemma setPlan_some p n pl Q : is_Some (batches (setPlan p n pl Q) !! p) ↔ is_Some (batches Q !! p).
Proof. apply lookup_alter_is_Some. Qed.

Lemma linkOne_batches p Q id : batches (linkOne p Q id) = batches Q.
Proof. apply (f_batches _ _ (frame_linkOne p Q id)). Qed.

Lemma pushJob_batches l p Q : batches (pushJob l p Q) = batches Q.
Proof. apply pushJob_same. Qed.

Lemma convert_batches b id fenced Q : batches (fst (convertTryBatchTargetLocked b id fenced Q)) = batches Q.
Proof.
  unfold convertTryBatchTargetLocked. destruct (stopping Q), fenced; try done.
  set (j := set_stage _ _ _). assert (E : batches (fst (admitLocked j Q)) = batches Q).
  { rewrite admitLocked_eq. case_match; [done|]. unfold acceptJob. cbn [fst].
    rewrite (f_batches _ _ (frame_notePeak _ _)), pushJob_batches. apply (f_batches _ _ (register_frame j Q)). }
  by destruct (admitLocked j Q) as [Q1 [e|]].
Qed.

Lemma prepareLoop_prepared p fenced fences fuel n Q : tidy p Q → is_Some (batches Q !! p) →
  (next (batch Q p) + n ≤ length (items (batch Q p)))%nat → (n + fuel ≤ length (group (batch Q p)))%nat →
  prepared p n fuel Q (prepareLoop fenced fences p fuel n Q).
Proof.
  revert n Q. induction fuel as [|fuel IH]; intros n Q HT Hs Hb Hg; [by apply setGroupN_prepared|].
  cbn [prepareLoop]. destruct (items (batch Q p) !! (next (batch Q p) + n)%nat) as [id|] eqn:Eid; [|by apply setGroupN_prepared].
  apply lookup_lt_Some in Eid.
  assert (Hstep : ∀ c Q1 pl, costs p c Q Q1 → is_Some (batches Q1 !! p) →
    batch Q1 p = withPlan n pl (batch Q p) → (c + (if mayConvert pl then 20 else 0) ≤ 20)%nat →
    prepared p n (S fuel) Q (prepareLoop fenced fences p fuel (S n) Q1)).
  { intros c Q1 pl Hc Hs1 E Hk. apply (prepared_step p n fuel c Q Q1); rewrite ?E; try done.
    - simpl. apply length_insert.
    - intros i Hi. rewrite plan_withPlan by lia. by rewrite decide_False by lia.
    - by rewrite plan_withPlan, decide_True by lia.
    - apply IH; [apply Hc|done|..]; rewrite E; simpl; [lia|rewrite length_insert; lia]. }
  assert (Hset : ∀ pl Q1, costs p 0 Q Q1 → costs p 0 Q (setPlan p n pl Q1)).
  { intros pl Q1 Hc. apply (costs_trans p 0 0 Q Q1); [done|]. apply costs_updBatch, Hc. }
  set (Q0 := setPlan p n noPlan Q). assert (C0 : costs p 0 Q Q0) by by apply Hset, costs_refl.
  assert (S0 : is_Some (batches Q0 !! p)) by by apply setPlan_some.
  assert (E0 : ∀ pl, withPlan n pl (batch Q0 p) = withPlan n pl (batch Q p)).
  { intros pl. unfold Q0. rewrite setPlan_batch by done. unfold withPlan. simpl. by rewrite list_insert_insert_eq. }
  destruct fenced; [|destruct (tails Q0 !! id) as [tail|]].
  - eapply Hstep; [by apply Hset|by apply setPlan_some|by rewrite setPlan_batch, E0|]. simpl. lia.
  - destruct (bool_decide (tail ∈ claims (batch Q p))).
    + apply (prepared_before p n (S fuel) Q Q0); try (unfold Q0; rewrite setPlan_batch by done); try done.
      * simpl. apply length_insert.
      * intros i Hi. rewrite plan_withPlan by lia. by rewrite decide_False by lia.
      * apply setGroupN_prepared; [apply C0|done|]. unfold Q0. by rewrite setPlan_batch.
    + pose proof (costs_convert p (batch Q p) id (fences n) Q0 (co_tidy _ _ _ _ C0)) as HC.
      pose proof (convert_batches (batch Q p) id (fences n) Q0) as EB.
      destruct (convertTryBatchTargetLocked _ _ _ _) as [Q1 r]. simpl in HC, EB.
      assert (S1 : is_Some (batches Q1 !! p)) by by rewrite EB.
      assert (E1 : batch Q1 p = batch Q0 p) by (unfold batch; by rewrite EB).
      eapply (Hstep (0 + (4 + 0))%nat); [|by apply setPlan_some|by rewrite setPlan_batch, E1, E0|by destruct r; simpl; lia].
      eapply costs_trans; [done|]. eapply costs_trans; [done|]. apply costs_updBatch, HC.
  - apply (Hstep (0 + 0)%nat _ (mkPlan tryBatchRun true false None)); [| | |simpl; lia].
    + eapply costs_trans; [done|]. apply costs_claim, C0.
    + unfold claim. by apply setPlan_some.
    + unfold claim. rewrite setPlan_batch; [|done]. change (batch (set_tails _ _) p) with (batch Q0 p). apply E0.
Qed.

Lemma costs_releaseAll p Q : tidy p Q → costs p 0 Q (releaseTryBatchClaimsLocked p Q).
Proof.
  unfold releaseTryBatchClaimsLocked. generalize (seq 0 (groupN (batch Q p))). intros l. revert Q.
  induction l as [|i l IH]; intros Q HT; [by apply costs_refl|]. simpl.
  assert (C1 : costs p 0 Q (releaseClaim p Q i)).
  { unfold releaseClaim. destruct (negb _); [by apply costs_refl|]. set (c := default _ _).
    assert (A1 := costs_releaseIDs p c Q HT).
    assert (A2 : costs p 0 (releaseIDsLocked c Q) (updJob c (set_successors []) (releaseIDsLocked c Q))).
    { apply costs_updJob; [done|apply A1]. }
    apply (costs_trans p 0 0 _ _ _ A1), (costs_trans p 0 0 _ _ _ A2), costs_updBatch, A2. }
  apply (costs_trans p 0 0 _ _ _ C1), IH, C1.
Qed.

Lemma convertBusy_cost p fences st Q i : tidy p Q → is_Some (batches Q !! p) →
  let Q' := convertBusy fences p st Q i in
  costs p (if busy (plan (batch Q p) i) then 4 else 0) Q Q' ∧ is_Some (batches Q' !! p) ∧
  (∀ j, busy (plan (batch Q' p) j) = busy (plan (batch Q p) j)).
Proof.
  intros HT Hs. unfold convertBusy. destruct (busy (plan (batch Q p) i)) eqn:Eb; simpl; [|by split; [apply costs_refl|]].
  pose proof (costs_convert p (batch Q p) (default 0 (items (batch Q p) !! (st + i)%nat)) (fences i) Q HT) as HC.
  pose proof (convert_batches (batch Q p) (default 0 (items (batch Q p) !! (st + i)%nat)) (fences i) Q) as EB.
  destruct (convertTryBatchTargetLocked _ _ _ _) as [Q1 r]. simpl in HC, EB.
  assert (S1 : is_Some (batches Q1 !! p)) by by rewrite EB.
  assert (E1 : batch Q1 p = batch Q p) by (unfold batch; by rewrite EB).
  destruct r as [e|]; [|split; [done|]; split; [done|]; by rewrite E1].
  split; [|split; [by apply setPlan_some|]].
  - apply (costs_trans p 4 0 Q Q1); [done|]. apply costs_updBatch, HC.
  - intros j. rewrite setPlan_batch, E1 by done. assert (Hi : (i < length (group (batch Q p)))%nat).
    { destruct (decide (i < length (group (batch Q p)))%nat) as [|Hge]; [done|].
      unfold plan in Eb. rewrite lookup_ge_None_2 in Eb by lia. done. }
    rewrite plan_withPlan by done. by destruct (decide (j = i)) as [->|].
Qed.

Lemma convertBusy_costs p fences st l Q : tidy p Q → is_Some (batches Q !! p) →
  let Q' := foldl (convertBusy fences p st) Q l in
  costs p (4 * length (filter (λ i, busy (plan (batch Q p) i) = true) l)) Q Q' ∧ is_Some (batches Q' !! p).
Proof.
  revert Q. induction l as [|i l IH]; intros Q HT Hs; [by split; [apply costs_refl|]|]. cbn [foldl].
  destruct (convertBusy_cost p fences st Q i HT Hs) as (H1 & S1 & B1).
  destruct (IH _ (co_tidy _ _ _ _ H1) S1) as [H2 S2]. split; [|done].
  assert (EF : filter (λ j, busy (plan (batch (convertBusy fences p st Q i) p) j) = true) l =
    filter (λ j, busy (plan (batch Q p) j) = true) l).
  { apply list_filter_iff. intros j. by rewrite B1. }
  rewrite EF in H2. eapply costs_weaken; [|eapply costs_trans; [exact H1|exact H2]]. rewrite filter_cons.
  destruct (busy (plan (batch Q p) i)); simpl; lia.
Qed.

Lemma runPlans_busy rs b i : busy (default noPlan (runPlans rs b !! i)) = true → mayConvert (plan b i) = true.
Proof.
  unfold runPlans, plan. rewrite list_lookup_imap. destruct (group b !! i) as [pl|]; [|done]. simpl.
  unfold mayConvert. destruct (step pl); done.
Qed.

Lemma filter_length_imp {A} (P P' : A → Prop) `{∀ x, Decision (P x), ∀ x, Decision (P' x)} l :
  (∀ x, P x → P' x) → (length (filter P l) ≤ length (filter P' l))%nat.
Proof.
  intros HP. induction l as [|x l IH]; [done|]. rewrite !filter_cons.
  destruct (decide (P x)), (decide (P' x)); simpl; try lia. naive_solver.
Qed.

(** Finishing a group costs at most a job for each target that may be converted. *)
Lemma finish_cost p rs fences st Q : tidy p Q → is_Some (batches Q !! p) →
  costs p (4 * convertible (batch Q p) 0 (groupN (batch Q p))) Q
    (finishTryBatchGroupLocked fences p st (groupRan rs p Q)).
Proof.
  intros HT Hs. set (Q1 := groupRan rs p Q). assert (C1 : costs p 0 Q Q1) by by apply costs_updBatch.
  assert (S1 : is_Some (batches Q1 !! p)) by by apply lookup_alter_is_Some.
  assert (E1 : batch Q1 p = (λ b, mkBatch (bLane b) (items b) (claims b) (runPlans rs b) (groupN b) (next b + groupN b)) (batch Q p))
    by by apply batch_upd.
  destruct (convertBusy_costs p fences st (seq 0 (groupN (batch Q1 p))) Q1 (co_tidy _ _ _ _ C1) S1) as [C2 S2].
  pose proof (costs_releaseAll p _ (co_tidy _ _ _ _ C2)) as C3. unfold finishTryBatchGroupLocked.
  eapply costs_weaken; [|eapply costs_trans; [exact C1|eapply costs_trans; [exact C2|exact C3]]].
  rewrite E1. cbn [groupN]. unfold convertible. rewrite Nat.sub_0_r, Nat.add_0_r, Nat.add_0_l. apply Nat.mul_le_mono_l.
  apply filter_length_imp. intros i. apply runPlans_busy.
Qed.
