(* ===== verification/NestDrain.v ===== *)
(** * Draining the queue (framework/nest)

    After [stop] the workers finish what is there and return: they never get
    stuck, and they stop after a bounded number of steps. *)

From S2P Require Import Prelude NestJob NestQueue NestRun NestDemo NestOrder NestQueueInv NestSim NestBatch.
From S2P Require Import NestInv NestStep NestSpec NestWake NestCost.

(** ** Nothing gets stuck *)

Definition canWork (S : Sys) : Prop := ∃ S', work_step S S'.

Lemma awake_works S l : (0 < awake (wake (lanes (sq S) l)))%nat → canWork S.
Proof.
  destruct S as [q a o]. intros Hw. destruct (take l (enter l q)) as [[p q']|] eqn:Ht; [|eexists; by apply st_none].
  destruct (tryBatch (job q' p)) eqn:Eb; [|eexists; by eapply st_take].
  eexists. by apply (st_takeBatch false (λ _, false) l p q q').
Qed.

Lemma running_works S x : x ∈ act S → (∀ c, xPhase x ≠ WaitingFor c) →
  (∀ y, xPhase x = Ending y → tryBatch (job (sq S) (xJob x)) = true) → canWork S.
Proof.
  destruct S as [q a o], x as [l p ph]. simpl. intros (a1 & a2 & ->)%list_elem_of_split Hw He.
  destruct ph as [|c|y]; [|by destruct (Hw c)|].
  - destruct (tryBatch (job q p)) eqn:Eb; [|eexists; by apply (st_done l p false)].
    eexists. eapply (st_groupLast (λ _, (false, None)) (λ _, false) true); [done|done|by left].
  - eexists. apply st_batchEnd. by eapply He.
Qed.

(** Nobody comes before the oldest job. *)
Lemma first_no_edge h t p k q b id : ordered h t ((p, k) :: q) → ¬ adj (chain ((p, k) :: q) id) b p.
Proof.
  intros Ho. pose proof (o_nodup _ _ _ Ho) as Hn. unfold chain. rewrite filter_cons. simpl.
  destruct (decide (id ∈ k)) as [Hid|Hid].
  - pose proof (chain_NoDup _ id Hn) as Hc. unfold chain in Hc. rewrite filter_cons, decide_True in Hc by done.
    by apply adj_head.
  - intros Ha%adj_in_r. simpl in Hn. apply NoDup_cons in Hn as [Hp _]. apply Hp. by eapply chain_pending.
Qed.

Section progress.
Context {n : LaneId → WorkerPoolConfig} {S : Sys} {s : fifo}.
Context (H : simulates S s) (W : wake_ok n (sq S) (act S)).

(** Something to take in a lane: somebody awake can take it, or a worker of
    the lane executes something. *)
Lemma available_works l : started (sq S) = true → ¬ drained (sq S) → (0 < crew (n l))%nat →
  (0 < available (lanes (sq S) l))%nat → (0 < awake (wake (lanes (sq S) l)))%nat ∨ ∃ x, x ∈ act S ∧ xLane x = l.
Proof.
  intros Hs Hd Hn Ha. pose proof (w_cov _ _ _ W l) as Hc. destruct (w_staff _ _ _ W Hs) as [|HF]; [done|].
  specialize (HF l). unfold covered, live in *.
  destruct (awake (wake (lanes (sq S) l))) eqn:Ew; [|left; lia]. right.
  destruct (parked (wake (lanes (sq S) l))) eqn:Ep; [|lia].
  unfold executingIn in HF. destruct (filter (λ x, xLane x = l) (act S)) as [|x r] eqn:Ef; [simpl in HF; lia|].
  assert (Hx : x ∈ filter (λ x, xLane x = l) (act S)) by (rewrite Ef; left).
  apply list_elem_of_filter in Hx. naive_solver.
Qed.

Lemma exec_known x : x ∈ act S → exec_ok (sq S) s x.
Proof. apply (v_exec _ _ _ (proj1 H)). Qed.

(** An execution outside the I/O lane waits for nobody. *)
Lemma business_works x : x ∈ act S → xLane x ≠ IO → canWork S.
Proof.
  intros Hx Hl. pose proof (exec_known x Hx) as Hok. unfold exec_ok in Hok. apply (running_works S x Hx).
  - intros c Ec. rewrite Ec in Hok. by destruct Hok as ((? & _) & _).
  - intros y Ey. rewrite Ey in Hok. apply Hok.
Qed.

Lemma any_works x : (∀ l, (0 < crew (n l))%nat) → x ∈ act S → canWork S.
Proof.
  intros Hn Hx. pose proof (exec_known x Hx) as Hok. unfold exec_ok in Hok.
  destruct (xPhase x) as [|c|y] eqn:Ex; [apply (running_works S x Hx); congruence| |].
  2: { apply (running_works S x Hx); [congruence|]. intros _ _. apply Hok. }
  destruct Hok as ((El & Ene) & Et & Hc & Hk). destruct H as [Hi _]. pose proof (v_q Hi) as Hq.
  pose proof Hc as Hc'. apply (q_pending Hq) in Hc as [Hc|Hc]; [by apply elem_of_nil in Hc|].
  apply elem_of_places in Hc as [[l Hc]|[[l Hc]|[Hc|Hc]]].
  - apply (k_waiting _ _ _ _ _ (i_lanes _ _ _ _ _ Hq l)) in Hc as [_ Hc]. congruence.
  - destruct (k_conts _ _ _ _ _ (i_lanes _ _ _ _ _ Hq l) c Hc) as (_ & _ & Hl).
    destruct (busy_queue n Hi W) as [Hs Hd].
    { destruct (pending_nonneg Hi) as (_ & ? & _). apply list_elem_of_split in Hx as (? & ? & ->). zlia. }
    destruct (available_works l Hs Hd (Hn l)) as [Ha|(y & Hy & Ely)].
    + unfold available. destruct (continuations (lanes (sq S) l)); [by apply elem_of_nil in Hc|simpl; lia].
    + by eapply awake_works.
    + eapply business_works; [done|congruence].
  - apply acts_fst in Hc as ([l' p' ph] & Hy & E). simpl in E. subst p'. destruct S as [q a o], x as [lx px phx].
    simpl in *. subst lx phx. apply list_elem_of_split in Hx as (a1 & a2 & ->).
    apply elem_of_mid in Hy as [Hy|E]; [eexists; by eapply st_released|].
    injection E as -> -> ->. done.
  - apply (i_claim _ _ _ _ _ Hq) in Hc as (_ & _ & Hc). congruence.
Qed.

(** The oldest pending job is ready as soon as nothing executes. *)
Lemma oldest_ready : act S = [] → queuedJobs (sq S) ≠ [] → ∃ l, (0 < available (lanes (sq S) l))%nat.
Proof.
  intros Ha Hne. destruct H as [Hi _]. pose proof (v_q Hi) as Hq. rewrite Ha in Hq. change (acts []) with ([] : actives) in Hq.
  change (allClaims (sq S) []) with ([] : list jobp) in Hq.
  assert (Hp : (jobs s).*1 ≡ₚ queuedJobs (sq S)).
  { rewrite (i_place _ _ _ _ _ Hq), app_nil_l, queuedJobs_places. by rewrite !app_nil_r. }
  destruct (jobs s) as [|[p k] q] eqn:Ej; [symmetry in Hp; apply Permutation_nil_r in Hp; done|].
  assert (Hin : p ∈ ((p, k) :: q).*1) by left.
  assert (Hz : predecessors (job (sq S) p) = 0).
  { apply (no_edge_free Hq); [done|]. intros b (id & Hb). eapply first_no_edge; [apply (i_ord _ _ _ _ _ Hq)|done]. }
  assert (Hpl : p ∈ places (sq S) [] []) by by apply (q_pending Hq) in Hin as [?%elem_of_nil|].
  apply elem_of_places in Hpl as [[l Hw]|[[l Hc]|[Hx|Hx]]]; [..|by apply elem_of_nil in Hx|by apply elem_of_nil in Hx].
  - exists l. pose proof (i_lanes _ _ _ _ _ Hq l) as Hok. unfold available. destruct (tryBatch (job (sq S) p)) eqn:Et.
    + assert (Hb : p ∈ tryBatches (lanes (sq S) l)) by (apply (k_batchin _ _ _ _ _ Hok); set_solver).
      destruct (tryBatches (lanes (sq S) l)); [by apply elem_of_nil in Hb|simpl; lia].
    + assert (Hb : p ∈ ready (lanes (sq S) l)) by (apply (k_readyin _ _ _ _ _ Hok); set_solver).
      destruct (ready (lanes (sq S) l)); [by apply elem_of_nil in Hb|simpl; lia].
  - exists l. unfold available. destruct (continuations (lanes (sq S) l)); [by apply elem_of_nil in Hc|simpl; lia].
Qed.

(** Work that is there gets done; and without work the queue is done. *)
Lemma progress : (∀ l, (0 < crew (n l))%nat) → stopping (sq S) = true → done_closed (sq S) = true ∨ canWork S.
Proof.
  intros Hn Hst. pose proof (proj1 H) as Hi. destruct (pending_nonneg Hi) as (H0 & Ha0 & Hp).
  assert (Hor : act S = [] ∨ ∃ x, x ∈ act S) by (destruct (act S); [by left|right; eexists; left]).
  destruct Hor as [Ea|[x Hx]]; [|right; by eapply any_works].
  destruct (decide (0 < awaitReserved (sq S))) as [Haw|Haw].
  { right. destruct S as [q a' o]. eexists. by apply st_cancelAwait. }
  destruct (decide (Exists (λ l, (0 < awake (wake (lanes (sq S) l)))%nat) allLanes)) as [Hex|Hno].
  { right. apply Exists_exists in Hex as (l & _ & Hl). by eapply awake_works. }
  assert (Hno' : ∀ l, awake (wake (lanes (sq S) l)) = O).
  { intros l. destruct (decide (0 < awake (wake (lanes (sq S) l)))%nat); [|lia]. destruct Hno. apply Exists_exists.
    exists l. split; [|done]. destruct l; unfold allLanes; set_solver. }
  destruct (decide (pending (sq S) = 0)) as [Hz|Hz].
  - left. assert (D : drained (sq S)) by by split. pose proof (w_drained _ _ _ W D) as Hpk.
    unfold done_closed. rewrite Hst, (w_wg _ _ _ W). rewrite Ea. unfold live. by rewrite !Hpk, !Hno'.
  - destruct (simulates_shows S s H) as [_ _ _ Hc]. rewrite Ea in Hc.
    destruct oldest_ready as [l Hl]; [done|intros E; rewrite E in Hc; zlia|].
    assert (Hs : started (sq S) = true).
    { destruct (started (sq S)) eqn:Es; [done|]. by destruct (w_off _ _ _ W Es). }
    destruct (available_works l Hs) as [Hw|(y & Hy & _)]; [by intros [_ ?]|done|done|..].
    + rewrite Hno' in Hw. lia.
    + rewrite Ea in Hy. by apply elem_of_nil in Hy.
Qed.

End progress.

(** ** The work that is left *)

Definition execWeight (Q : dispatchQueue) (x : Exec) : nat :=
  let j := job Q (xJob x) in
  let b := batch Q (xJob x) in
  if tryBatch j then
    match xPhase x with
    | Ending true => 24 * remaining b + 4
    | Ending false => 1
    | _ => 24 * (remaining b - groupN b) + 20 * convertible b 0 (groupN b) + 4 * groupN b + 2
    end%nat
  else ((if isIO (xLane x) || continuation j then 1 else 3) + match xPhase x with WaitingFor _ => 1 | _ => 0 end)%nat.

Definition workLeft (Q : dispatchQueue) (a : list Exec) : nat :=
  (queueWeight Q + sum_list_with (execWeight Q) a + 3 * Z.to_nat (awaitReserved Q))%nat.

Definition awakeWorkers (Q : dispatchQueue) : nat :=
  (awake (wake (lanes Q Short)) + awake (wake (lanes Q IO)) + awake (wake (lanes Q Long)))%nat.

(** A bound of the steps the workers can still take on what is there. *)
Definition stepBound (S : Sys) : nat :=
  (workLeft (sq S) (act S) * (Z.to_nat (wg (sq S)) + 1) + awakeWorkers (sq S))%nat.

(** The executions weigh what they weighed. *)
Lemma execs_same Q Q' (l : list Exec) : (∀ x, x ∈ l → tryBatch (job Q' (xJob x)) = tryBatch (job Q (xJob x)) ∧
    continuation (job Q' (xJob x)) = continuation (job Q (xJob x)) ∧ batch Q' (xJob x) = batch Q (xJob x)) →
  sum_list_with (execWeight Q') l = sum_list_with (execWeight Q) l.
Proof.
  intros H. apply sum_list_with_ext. intros x Hx. unfold execWeight. by destruct (H x Hx) as (-> & -> & ->).
Qed.

Lemma execs_costs p k Q Q' l : costs p k Q Q' → (∀ x, x ∈ l → is_Some (heap Q !! xJob x) ∧ xJob x ≠ p) →
  sum_list_with (execWeight Q') l = sum_list_with (execWeight Q) l.
Proof.
  intros HC Hl. apply execs_same. intros x Hx. destruct (Hl x Hx) as [Hh Hne].
  destruct (co_keep _ _ _ _ HC _ Hh) as (_ & -> & ->). split; [done|]. split; [done|]. by apply HC.
Qed.

(** Waking, sleeping, counting and the order of ids do not matter. *)
Record alike (Q Q' : dispatchQueue) : Prop := mkAlike {
  al_lane : ∀ l, waiting (lanes Q' l) = waiting (lanes Q l) ∧ continuations (lanes Q' l) = continuations (lanes Q l);
  al_job : ∀ x, tryBatch (job Q' x) = tryBatch (job Q x) ∧ continuation (job Q' x) = continuation (job Q x);
  al_batch : ∀ x, batch Q' x = batch Q x;
  al_await : awaitReserved Q' = awaitReserved Q
}.

#[export] Instance alike_preorder : PreOrder alike.
Proof.
  split; [by intros Q; constructor|]. intros Q1 Q2 Q3 [A1 A2 A3 A4] [B1 B2 B3 B4]. constructor; try congruence.
  - intros l. destruct (A1 l) as [<- <-]. apply B1.
  - intros x. destruct (A2 x) as [<- <-]. apply B2.
Qed.

Lemma alike_weight Q Q' : alike Q Q' → queueWeight Q' = queueWeight Q.
Proof.
  intros [A1 A2 A3 A4]. apply queueWeight_same; [intros l; by destruct (A1 l) as [-> ->]|]. intros l x _.
  split; [apply A2|apply A3].
Qed.

Lemma alike_execs Q Q' (a : list Exec) : alike Q Q' → sum_list_with (execWeight Q') a = sum_list_with (execWeight Q) a.
Proof.
  intros [A1 A2 A3 A4]. apply execs_same. intros x _. split; [apply A2|]. split; [apply A2|apply A3].
Qed.

Lemma workLeft_alike Q Q' a : alike Q Q' → workLeft Q' a = workLeft Q a.
Proof. intros H. unfold workLeft. by rewrite (alike_weight Q), (alike_execs Q), (al_await _ _ H). Qed.

Lemma alike_frame Q Q' : frame Q Q' → alike Q Q'.
Proof.
  intros [f1 f2 f3 f4 f5 f6 f7 f8 f9 f10]. constructor; [| | |done].
  - intros l. by destruct (f1 l) as (-> & _ & -> & _).
  - intros x. by destruct (f2 x) as (-> & _ & _ & ->).
  - intros x. unfold batch. by rewrite f9.
Qed.

Lemma alike_updLane l f Q : (∀ s, waiting (f s) = waiting s ∧ continuations (f s) = continuations s) → alike Q (updLane l f Q).
Proof.
  intros Hf. constructor; try done. intros l'. rewrite lanes_updLane. destruct (decide (l' = l)) as [->|]; [apply Hf|done].
Qed.

Lemma alike_updJob p f Q : (∀ j, tryBatch (f j) = tryBatch j ∧ continuation (f j) = continuation j) → alike Q (updJob p f Q).
Proof.
  intros Hf. constructor; try done. intros x. unfold job. simpl. destruct (decide (x = p)) as [->|Hx].
  - rewrite lookup_alter_eq. destruct (heap Q !! p); simpl; [apply Hf|done].
  - by rewrite lookup_alter_ne.
Qed.

Lemma alike_pending n Q : alike Q (set_pending n Q).
Proof. by constructor. Qed.

Lemma alike_dropPending Q : alike Q (dropPending Q).
Proof.
  destruct (dropPending_wake Q) as [[] ->]; [|apply alike_pending]. etrans; [apply alike_pending|].
  apply alike_frame, frame_wakeAll.
Qed.

Lemma alike_again l Q : alike Q (again l Q).
Proof. by apply alike_updLane. Qed.

Lemma alike_finish l p Q : alike Q (finishJobLocked l p Q).
Proof.
  change (finishJobLocked l p Q) with (dropPending (releaseIDsLocked p (leaveWorker l p Q))).
  etrans; [|apply alike_dropPending]. etrans; [|apply alike_frame, frame_releaseIDs]. apply alike_updLane.
  intros s. by destruct (continuation (job Q p)).
Qed.

Lemma sum_list_with_mid {A} (f : A → nat) l1 x l2 : sum_list_with f (l1 ++ x :: l2) = (sum_list_with f (l1 ++ l2) + f x)%nat.
Proof. rewrite !sum_list_with_app. simpl. lia. Qed.

Section facts.
Context {Q : dispatchQueue} {a : list Exec} {s : fifo} (H : sinv Q a s).

Lemma exec_tidy x : x ∈ a → tidy (xJob x) Q.
Proof.
  intros Hx. pose proof (v_q H) as Hq. constructor.
  - apply (i_fresh _ _ _ _ _ Hq).
  - intros l y Hy. by apply (q_heap Hq), (q_waiting Hq l).
  - by apply (act_heap H).
  - intros l Hl. pose proof (q_nodup Hq) as Hn. rewrite app_nil_l, queuedJobs_places in Hn.
    apply NoDup_app in Hn as (_ & Hd & _). apply (Hd (xJob x)).
    + unfold queuedJobs. apply list_elem_of_bind. exists l. split; [apply elem_of_app; by left|].
      destruct l; unfold allLanes; set_solver.
    + apply elem_of_app. left. apply acts_fst. eauto.
Qed.

End facts.

(** ** Every step takes some of it *)

(** Taking a job takes its weight from the queue. *)
Lemma take_weight Q A C X q l p Q' : qinv Q A C X q → take l Q = Some (p, Q') →
  heap Q' = heap Q ∧ batches Q' = batches Q ∧ awaitReserved Q' = awaitReserved Q ∧
  (queueWeight Q' + (if continuation (job Q p) then 2 else jobWeight Q l p) = queueWeight Q)%nat.
Proof.
  intros Hq Ht. destruct (take_effect _ _ _ _ Ht) as ((E1 & _ & _ & E4 & _ & _ & _ & E8 & _) & Ho & _).
  split; [done|]. split; [done|]. split; [done|].
  assert (EJ : jobWeight Q' = jobWeight Q) by (unfold jobWeight, job, batch; by rewrite E1, E8).
  assert (HW : (laneWeight Q' l + (if continuation (job Q p) then 2 else jobWeight Q l p) = laneWeight Q l)%nat).
  { pose proof (i_lanes _ _ _ _ _ Hq l) as Hok.
    assert (HR : takeReady l Q = Some (p, Q') →
      (laneWeight Q' l + (if continuation (job Q p) then 2 else jobWeight Q l p) = laneWeight Q l)%nat).
    { unfold takeReady. destruct (takeExternal (lanes Q l)) as [[r st]|] eqn:E; [|done]. intros [= -> <-].
      destruct (takeReady_lane _ _ _ _ _ _ _ _ Hq E) as (Hw & _).
      destruct (k_waiting _ _ _ _ _ Hok p Hw) as [_ ->].
      apply takeExternal_spec in E as (_ & _ & (Ew & _ & Ec & _) & _).
      pose proof (unlink_Permutation p _ (k_wnodup _ _ _ _ _ Hok) Hw) as HP. unfold laneWeight. rewrite EJ.
      rewrite lanes_updLane, decide_True by done. rewrite HP. simpl.
      destruct (isIO l); simpl; rewrite Ew, Ec; lia. }
    unfold take in Ht. destruct (continuations (lanes Q l)) as [|c cs] eqn:Ec; [by apply HR|].
    destruct (negb (isIO l) && _); [|by apply HR]. injection Ht as <- <-.
    destruct (k_conts _ _ _ _ _ Hok c) as (_ & -> & _); [rewrite Ec; left|]. unfold laneWeight. rewrite EJ.
    unfold notePeak. rewrite !lanes_updLane, !decide_True by done. simpl. rewrite Ec. simpl. lia. }
  assert (HO : ∀ l', l' ≠ l → laneWeight Q' l' = laneWeight Q l') by (intros l' Hl'; unfold laneWeight; by rewrite EJ, Ho).
  unfold queueWeight. destruct l; [rewrite (HO IO), (HO Long)|rewrite (HO Short), (HO Long)|rewrite (HO Short), (HO IO)]; try done; lia.
Qed.

Definition lessWork (S S' : Sys) : Prop := (workLeft (sq S') (act S') < workLeft (sq S) (act S))%nat.

Section less.
Context {n : LaneId → WorkerPoolConfig}.

Lemma released_less q a1 p c a2 o s : sinv q (a1 ++ mkExec IO p (WaitingFor c) :: a2) s →
  lessWork (mkSys q (a1 ++ mkExec IO p (WaitingFor c) :: a2) o) (mkSys q (a1 ++ mkExec IO p Running :: a2) o).
Proof.
  intros H. assert (Hx : mkExec IO p (WaitingFor c) ∈ a1 ++ mkExec IO p (WaitingFor c) :: a2) by (apply elem_of_mid; by right).
  destruct (v_exec _ _ _ H _ Hx) as (_ & Ht & _). simpl in Ht. unfold lessWork, workLeft. cbn [sq act].
  rewrite !sum_list_with_mid. unfold execWeight at 2 4. simpl. rewrite Ht. simpl. lia.
Qed.

Lemma cancel_less q a o : 0 < awaitReserved q → lessWork (mkSys q a o) (mkSys (cancelAwait q) a o).
Proof.
  intros Ha. unfold lessWork. cbn [sq act]. unfold cancelAwait.
  destruct (dropPending_wake (set_await (awaitReserved q - 1) q)) as [b ->].
  rewrite (workLeft_alike (set_await (awaitReserved q - 1) q)).
  - unfold workLeft. simpl. change (queueWeight (set_await _ q)) with (queueWeight q).
    change (execWeight (set_await _ q)) with (execWeight q). lia.
  - destruct b; [|apply alike_pending]. etrans; [apply alike_pending|]. apply alike_frame, frame_wakeAll.
Qed.

Lemma startAwait_less q a o s : sinv q a s → 0 < awaitReserved q → lessWork (mkSys q a o) (mkSys (startAwait q) a o).
Proof.
  intros H Ha. unfold lessWork. cbn [sq act]. set (j := mkJob None false [] [] 0 IO true false false).
  set (q1 := snd (alloc j q)). set (q2 := set_await (awaitReserved q - 1) q1).
  assert (HJ : ∀ x, is_Some (heap q !! x) → job q1 x = job q x).
  { intros x Hx%(i_fresh _ _ _ _ _ (v_q H)). unfold q1. rewrite job_alloc, decide_False; [done|lia]. }
  assert (EW : queueWeight q2 = queueWeight q).
  { apply queueWeight_same; [done|]. intros l x Hx. change (job q2 x) with (job q1 x).
    rewrite HJ; [done|]. by apply (q_heap (v_q H)), (q_waiting (v_q H) l). }
  change (startAwait q) with (enqueueReady IO (fresh q) (pushWaiting IO (fresh q) q2)).
  rewrite (workLeft_alike (pushWaiting IO (fresh q) q2)); [|apply alike_frame, frame_enqueueReady].
  unfold workLeft. rewrite pushWaiting_weight, EW. rewrite (execs_same q).
  - assert (Ew : jobWeight q2 IO (fresh q) = 2%nat).
    { unfold jobWeight. change (job q2 (fresh q)) with (job q1 (fresh q)). unfold q1. by rewrite job_alloc, decide_True. }
    rewrite Ew. simpl. lia.
  - intros x Hx. change (job (pushWaiting IO (fresh q) q2)) with (job q1). by rewrite HJ by by apply (act_heap H).
Qed.

Lemma alike_enter l q : alike q (enter l q).
Proof. by apply alike_updLane. Qed.

Lemma none_same q a l : workLeft (workNone l (enter l q)) a = workLeft q a.
Proof.
  apply workLeft_alike. etrans; [apply alike_enter|]. unfold workNone. destruct (stopping (enter l q) && _); [by constructor|].
  by apply alike_updLane.
Qed.

Lemma enter_weight l q : queueWeight (enter l q) = queueWeight q.
Proof. apply alike_weight, alike_enter. Qed.

Lemma take_less q a s l p q' o o' : sinv q a s → take l (enter l q) = Some (p, q') → tryBatch (job q' p) = false →
  lessWork (mkSys q a o) (mkSys q' (a ++ [mkExec l p Running]) o').
Proof.
  intros H Ht Hb. destruct (take_weight _ _ _ _ _ _ _ _ (v_q (sinv_enter l q a s H)) Ht) as (E1 & E2 & E3 & EW).
  rewrite enter_weight in EW. change (heap (enter l q)) with (heap q) in E1. change (batches (enter l q)) with (batches q) in E2.
  change (job (enter l q)) with (job q) in EW. change (jobWeight (enter l q)) with (jobWeight q) in EW.
  assert (EJ : job q' = job q) by (unfold job; by rewrite E1).
  unfold lessWork, workLeft. cbn [sq act]. rewrite sum_list_with_snoc, (execs_same q).
  - rewrite E3. change (awaitReserved (enter l q)) with (awaitReserved q). unfold execWeight at 2. simpl.
    unfold jobWeight in EW. rewrite EJ in *. rewrite Hb in *. destruct (isIO l), (continuation (job q p)); simpl; lia.
  - intros x _. rewrite EJ. split; [done|]. split; [done|]. unfold batch. by rewrite E2.
Qed.

(** What preparing a group of batch [p] leaves. *)
Lemma prepare_weight fenced fences p Q : tidy p Q → is_Some (batches Q !! p) →
  (next (batch Q p) ≤ length (items (batch Q p)))%nat → length (group (batch Q p)) = tryBatchGroup →
  tryBatch (job Q p) = true → let Q' := prepareTryBatchGroupLocked fenced fences p Q in
  (∃ k, costs p k Q Q') ∧
  ∀ l, (queueWeight Q' + execWeight Q' (mkExec l p Running) ≤ queueWeight Q + 24 * remaining (batch Q p) + 2)%nat.
Proof.
  intros HT Hs Hn Hg Htb Q'.
  destruct (prepareLoop_prepared p fenced fences tryBatchGroup 0 Q HT Hs) as [P1 [P2 P3] P4 _ P6 P7 (k & P8 & P9)].
  { by rewrite Nat.add_0_r. }
  { rewrite Hg. lia. }
  fold (prepareTryBatchGroupLocked fenced fences p Q) in *. fold Q' in P1, P2, P3, P4, P6, P7, P8, P9.
  split; [by eexists|]. intros l. unfold execWeight. simpl.
  destruct (co_keep _ _ _ _ P8 p (ti_own _ _ HT)) as (_ & -> & _). rewrite Htb.
  assert (E : remaining (batch Q' p) = remaining (batch Q p)) by (unfold remaining; by rewrite P2, P3). rewrite E.
  pose proof (co_cost _ _ _ _ P8). unfold remaining in *. lia.
Qed.

Lemma takeBatch_less q a s l p q' fenced fences o o' : sinv q a s → take l (enter l q) = Some (p, q') →
  tryBatch (job q' p) = true →
  lessWork (mkSys q a o) (mkSys (prepareTryBatchGroupLocked fenced fences p q') (a ++ [mkExec l p Running]) o').
Proof.
  intros H0 Ht Hb. pose proof (sinv_enter l q a s H0) as H.
  destruct (take_weight _ _ _ _ _ _ _ _ (v_q H) Ht) as (E1 & E2 & E3 & EW).
  rewrite enter_weight in EW. change (heap (enter l q)) with (heap q) in E1. change (batches (enter l q)) with (batches q) in E2.
  change (job (enter l q)) with (job q) in EW. change (jobWeight (enter l q)) with (jobWeight q) in EW.
  assert (EJ : job q' = job q) by (unfold job; by rewrite E1).
  assert (EB : ∀ x, batch q' x = batch q x) by (intros x; unfold batch; by rewrite E2).
  destruct (take_refines l p _ q' _ _ s (v_ref _ _ _ H) Ht) as (_ & _ & _ & _ & Hp).
  destruct (sinv_taken _ _ _ _ _ _ (Ending false) H Ht) as (_ & H' & _ & _).
  { change (job (enter l q)) with (job q). rewrite <- EJ. congruence. }
  { intros _ [G1 G2 G3]. change (batch (enter l q)) with (batch q) in *. unfold exec_ok. cbn [xPhase xJob].
    split; [done|]. rewrite EB. split; [intros; apply G1; lia|]. split; [lia|done]. }
  assert (Hx : mkExec l p (Ending false) ∈ a ++ [mkExec l p (Ending false)]) by (apply elem_of_app; right; left).
  pose proof (exec_tidy H' _ Hx) as HT. simpl in HT.
  destruct (batch_some H' p (act_pending H' _ Hx) Hb) as [HS HB].
  destruct (v_exec _ _ _ H' _ Hx) as (_ & _ & Hn & _). simpl in Hn.
  destruct (prepare_weight fenced fences p q' HT HS Hn (b_group _ _ _ _ HB) Hb) as [[k HC] HW].
  assert (EX : sum_list_with (execWeight (prepareTryBatchGroupLocked fenced fences p q')) a = sum_list_with (execWeight q) a).
  { rewrite (execs_costs p k q' _ a HC); [apply execs_same; intros x _; by rewrite EJ, EB|].
    intros x Hxa. split; [apply (act_heap H'), elem_of_app; by left|]. intros E.
    pose proof (acts_nodup H') as Hnd. rewrite fmap_app in Hnd. apply NoDup_app in Hnd as (_ & Hd & _).
    apply (Hd p); [|left]. rewrite <- E. by apply list_elem_of_fmap_2. }
  unfold lessWork, workLeft. cbn [sq act]. rewrite sum_list_with_snoc, EX.
  rewrite (co_await _ _ _ _ HC), E3. change (awaitReserved (enter l q)) with (awaitReserved q). specialize (HW l).
  pose proof (b_cont _ _ _ _ HB) as Hk. rewrite EJ in Hk, Hb. rewrite Hk in EW. unfold jobWeight in EW. rewrite Hb in EW.
  rewrite EB in HW. lia.
Qed.

Lemma notify_less Q p (a : list Exec) : (sum_list_with (execWeight Q) (notify p <$> a) ≤ sum_list_with (execWeight Q) a)%nat.
Proof.
  induction a as [|x a IH]; [done|]. rewrite fmap_cons. cbn [sum_list_with]. apply Nat.add_le_mono; [|done].
  unfold notify. destruct (xPhase x) as [|c|y] eqn:Ex; try done. case_bool_decide; [|done]. unfold execWeight. simpl.
  rewrite Ex. destruct (tryBatch (job Q (xJob x))); lia.
Qed.

Lemma rerouted_business l j r : rerouted l j r = true → isIO l = false ∧ continuation j = false.
Proof. unfold rerouted. destruct (isIO l), (continuation j); done. Qed.

(** A job that is no batch has run. *)
Lemma done_less q a1 l p a2 r s o o' : sinv q (a1 ++ mkExec l p Running :: a2) s → tryBatch (job q p) = false →
  lessWork (mkSys q (a1 ++ mkExec l p Running :: a2) o) (mkSys (workDone l p r q) (notify p <$> a1 ++ a2) o').
Proof.
  intros H Ht. unfold lessWork, workDone. cbn [sq act]. rewrite (workLeft_alike _ _ _ (alike_again l _)).
  pose proof (λ Q, notify_less Q p (a1 ++ a2)) as HN. unfold workLeft. rewrite sum_list_with_mid.
  assert (EX : execWeight q (mkExec l p Running) = if isIO l || continuation (job q p) then 1%nat else 3%nat).
  { unfold execWeight. simpl. rewrite Ht. lia. }
  rewrite EX. destruct (rerouted l (job q p) r) eqn:Er.
  - apply rerouted_business in Er as [-> ->]. cbn [orb].
    set (q1 := updJob p (λ j, set_waited false (set_stage IO true j)) (updLane (lane (job q p)) (λ s, set_running (running s - 1) s) q)).
    assert (A1 : alike q q1).
    { etrans; [|apply (alike_updJob p (λ j, set_waited false (set_stage IO true j))); done]. by apply alike_updLane. }
    assert (A2 : alike (pushWaiting IO p q1) (rerouteToIO p q)).
    { change (rerouteToIO p q) with (notePeak IO (enqueueReady IO p (pushWaiting IO p q1))).
      etrans; [apply alike_frame, frame_enqueueReady|apply alike_frame, frame_notePeak]. }
    rewrite (alike_weight _ _ A2), pushWaiting_weight, (alike_weight _ _ A1), (al_await _ _ A2).
    change (awaitReserved (pushWaiting IO p q1)) with (awaitReserved q).
    assert (Ew : jobWeight q1 IO p = 2%nat) by (unfold jobWeight; destruct (al_job _ _ A1 p) as [-> _]; by rewrite Ht).
    rewrite Ew. specialize (HN (rerouteToIO p q)). rewrite (alike_execs _ _ (a1 ++ a2) A2) in HN.
    change (execWeight (pushWaiting IO p q1)) with (execWeight q1) in HN. rewrite (alike_execs _ _ (a1 ++ a2) A1) in HN. lia.
  - pose proof (alike_finish l p q) as A. rewrite (alike_weight _ _ A), (al_await _ _ A).
    specialize (HN (finishJobLocked l p q)). rewrite (alike_execs _ _ (a1 ++ a2) A) in HN.
    destruct (isIO l || continuation (job q p)); lia.
Qed.

Section batch_less.
Context {q : dispatchQueue} {a1 : list Exec} {l : LaneId} {p : jobp} {ph : Phase} {a2 : list Exec} {s : fifo}.
Context (H : sinv q (a1 ++ mkExec l p ph :: a2) s) (Ht : tryBatch (job q p) = true).

Lemma own_tidy : tidy p q.
Proof. apply (exec_tidy H (mkExec l p ph)). apply elem_of_mid. by right. Qed.

Lemma others_execs k q' : costs p k q q' →
  sum_list_with (execWeight q') (a1 ++ a2) = sum_list_with (execWeight q) (a1 ++ a2).
Proof.
  intros HC. apply (execs_costs p k q _ _ HC). intros x Hx. split.
  - apply (act_heap H). apply elem_of_mid. by left.
  - by apply (bs_ne H).
Qed.

(** The batch goes on: the queue and the batch itself weigh less. *)
Lemma batch_less k q' ph' o o' : costs p k q q' →
  (queueWeight q' + execWeight q' (mkExec l p ph') < queueWeight q + execWeight q (mkExec l p ph))%nat →
  lessWork (mkSys q (a1 ++ mkExec l p ph :: a2) o) (mkSys q' (a1 ++ mkExec l p ph' :: a2) o').
Proof.
  intros HC Hlt. unfold lessWork, workLeft. cbn [sq act]. rewrite !sum_list_with_mid, (others_execs k q' HC), (co_await _ _ _ _ HC).
  lia.
Qed.

(** The batch leaves its worker. *)
Lemma batch_left k q' o o' : costs p k q q' → (queueWeight q' < queueWeight q + execWeight q (mkExec l p ph))%nat →
  lessWork (mkSys q (a1 ++ mkExec l p ph :: a2) o) (mkSys q' (a1 ++ a2) o').
Proof.
  intros HC Hlt. unfold lessWork, workLeft. cbn [sq act]. rewrite sum_list_with_mid, (others_execs k q' HC), (co_await _ _ _ _ HC).
  lia.
Qed.

End batch_less.

Section group_less.
Context {q : dispatchQueue} {a1 : list Exec} {l : LaneId} {p : jobp} {a2 : list Exec} {s : fifo}.
Context (H : sinv q (a1 ++ mkExec l p Running :: a2) s) (Ht : tryBatch (job q p) = true).
Context (rs : nat → bool * option QueueErr) (fences : nat → bool).

Lemma running_weight : execWeight q (mkExec l p Running) =
  (24 * (remaining (batch q p) - groupN (batch q p)) + 20 * convertible (batch q p) 0 (groupN (batch q p)) +
   4 * groupN (batch q p) + 2)%nat.
Proof. unfold execWeight. simpl. by rewrite Ht. Qed.

(** A group was run and finished. *)
Lemma group_finished : let q1 := finishTryBatchGroupLocked fences p (next (batch q p)) (groupRan rs p q) in
  costs p (4 * convertible (batch q p) 0 (groupN (batch q p))) q q1 ∧ is_Some (batches q1 !! p) ∧
  (next (batch q1 p) ≤ length (items (batch q1 p)))%nat ∧ length (group (batch q1 p)) = tryBatchGroup ∧
  tryBatch (job q1 p) = true ∧ next (batch q1 p) = (next (batch q p) + groupN (batch q p))%nat ∧
  items (batch q1 p) = items (batch q p).
Proof.
  intros q1. destruct (running_planned H Ht) as (Hp & Hg & _).
  destruct (finish_ctx _ _ p rs fences (next (batch q p)) q s (step_bctx H Ht) Hp Hg) as (s1 & H1 & S1 & Eg & En & Hp1).
  fold q1 in H1, S1, Eg, En, Hp1. destruct (bs_batch H Ht) as [HS HB].
  destruct (t_static _ _ _ _ _ S1) as (_ & Ei & _). destruct (t_kind _ _ _ _ _ S1 p) as (_ & ET & _); [apply HB|].
  split; [by apply finish_cost; [apply (own_tidy H)|]|]. split; [apply H1|]. split; [|split; [apply H1|split; [congruence|done]]].
  pose proof (g_bound _ _ _ Hp1). lia.
Qed.

Lemma group_less fenced fences' o o' : let q1 := finishTryBatchGroupLocked fences p (next (batch q p)) (groupRan rs p q) in
  (next (batch q1 p) < length (items (batch q1 p)))%nat →
  lessWork (mkSys q (a1 ++ mkExec l p Running :: a2) o)
    (mkSys (prepareTryBatchGroupLocked fenced fences' p q1) (a1 ++ mkExec l p Running :: a2) o').
Proof.
  intros q1 Hlt. destruct group_finished as (C1 & S1 & N1 & G1 & T1 & En & Ei). fold q1 in C1, S1, N1, G1, T1, En, Ei.
  destruct (prepare_weight fenced fences' p q1 (co_tidy _ _ _ _ C1) S1 N1 G1 T1) as [[k C2] HW]. specialize (HW l).
  apply (batch_less H _ _ _ _ _ (costs_trans _ _ _ _ _ _ C1 C2)). rewrite running_weight.
  destruct (running_planned H Ht) as (_ & _ & Hg). pose proof (co_cost _ _ _ _ C1).
  assert (ER : remaining (batch q1 p) = (remaining (batch q p) - groupN (batch q p))%nat) by (unfold remaining; rewrite Ei, En; lia).
  rewrite ER in HW. rewrite Ei, En in Hlt. lia.
Qed.

Lemma groupLast_less o o' : let q1 := finishTryBatchGroupLocked fences p (next (batch q p)) (groupRan rs p q) in
  lessWork (mkSys q (a1 ++ mkExec l p Running :: a2) o)
    (mkSys q1 (a1 ++ mkExec l p (Ending (next (batch q1 p) <? length (items (batch q1 p)))%nat) :: a2) o').
Proof.
  intros q1. destruct group_finished as (C1 & S1 & N1 & G1 & T1 & En & Ei). fold q1 in C1, S1, N1, G1, T1, En, Ei.
  apply (batch_less H _ _ _ _ _ C1). rewrite running_weight. unfold execWeight. cbn [xJob xPhase]. rewrite T1.
  destruct (running_planned H Ht) as (_ & _ & Hg). pose proof (co_cost _ _ _ _ C1).
  assert (ER : remaining (batch q1 p) = (remaining (batch q p) - groupN (batch q p))%nat) by (unfold remaining; rewrite Ei, En; lia).
  rewrite ER, Ei, En. destruct (_ <? _)%nat eqn:E; [apply Nat.ltb_lt in E|]; lia.
Qed.

Lemma abort_less o o' : lessWork (mkSys q (a1 ++ mkExec l p Running :: a2) o)
  (mkSys (setNext p (length (items (batch q p))) q) (a1 ++ mkExec l p (Ending false) :: a2) o').
Proof.
  assert (C : costs p 0 q (setNext p (length (items (batch q p))) q)) by (apply costs_updBatch, (own_tidy H)).
  apply (batch_less H _ _ _ _ _ C). rewrite running_weight. unfold execWeight. cbn [xJob xPhase].
  change (job (setNext _ _ q)) with (job q). rewrite Ht. pose proof (co_cost _ _ _ _ C). lia.
Qed.

End group_less.

Lemma batchEnd_less q a1 l p y a2 s o o' : sinv q (a1 ++ mkExec l p (Ending y) :: a2) s → tryBatch (job q p) = true →
  lessWork (mkSys q (a1 ++ mkExec l p (Ending y) :: a2) o) (mkSys (batchEnd l p y q) (a1 ++ a2) o').
Proof.
  intros H Ht. pose proof (own_tidy H) as HT. unfold batchEnd. set (q1 := releaseTryBatchClaimsLocked p q).
  assert (C1 : costs p 0 q q1) by by apply costs_releaseAll.
  destruct (co_keep _ _ _ _ C1 p (ti_own _ _ HT)) as (_ & ET & EK).
  assert (ER : remaining (batch q1 p) = remaining (batch q p)).
  { destruct (bs_batch H Ht) as [_ HB]. destruct (v_exec _ _ _ H (mkExec l p (Ending y))) as (_ & Hf & _); [apply elem_of_mid; by right|].
    destruct (releaseAll_ctx _ _ p q s (step_bctx H Ht) (b_groupN _ _ _ _ HB) Hf) as (s1 & _ & S & _ & En & _).
    destruct (t_static _ _ _ _ _ S) as (_ & Ei & _). fold q1 in En, Ei. unfold remaining. by rewrite Ei, En. }
  unfold lessWork, workLeft. cbn [sq act]. rewrite sum_list_with_mid. set (q2 := if y then _ else _).
  rewrite (alike_weight _ _ (alike_again l q2)), (alike_execs _ _ _ (alike_again l q2)).
  change (awaitReserved (again l q2)) with (awaitReserved q2).
  assert (EX : ∀ q', alike q1 q' → sum_list_with (execWeight q') (a1 ++ a2) = sum_list_with (execWeight q) (a1 ++ a2)).
  { intros q' A. rewrite (alike_execs _ _ _ A). by apply (others_execs H 0). }
  unfold execWeight at 3. cbn [xJob xPhase]. rewrite Ht. pose proof (co_cost _ _ _ _ C1) as HC. pose proof (co_await _ _ _ _ C1) as HA.
  destruct y; unfold q2.
  - set (q3 := updJob p (set_waited false) (updLane l (λ s, set_running (running s - 1) s) q1)).
    assert (A1 : alike q1 q3).
    { etrans; [|apply (alike_updJob p (set_waited false)); done]. by apply alike_updLane. }
    assert (A2 : alike (pushWaiting l p q3) (yieldTryBatchLocked l p q1)) by apply alike_frame, frame_enqueueReady.
    rewrite (alike_weight _ _ A2), pushWaiting_weight, (alike_weight _ _ A1), (al_await _ _ A2).
    rewrite (alike_execs _ _ _ A2). change (execWeight (pushWaiting l p q3)) with (execWeight q3). rewrite (EX q3 A1).
    change (awaitReserved (pushWaiting l p q3)) with (awaitReserved q1). rewrite HA.
    assert (Ew : jobWeight q3 l p = (24 * remaining (batch q p) + 3)%nat).
    { unfold jobWeight. destruct (al_job _ _ A1 p) as [-> _]. rewrite ET, Ht. by rewrite (al_batch _ _ A1), ER. }
    rewrite Ew. lia.
  - set (q3 := finishJobLocked l p q1). pose proof (alike_finish l p q1) as A. fold q3 in A.
    change (awaitReserved (set_batches _ q3)) with (awaitReserved q3). rewrite (al_await _ _ A), HA.
    assert (HBt : ∀ x, x ≠ p → batch (set_batches (delete p (batches q3)) q3) x = batch q1 x).
    { intros x Hx. rewrite <- (al_batch _ _ A x). unfold batch. simpl. by rewrite lookup_delete_ne. }
    rewrite (queueWeight_same q1).
    + rewrite (execs_same q1).
      * rewrite (others_execs H 0 q1 C1). lia.
      * intros x Hx. destruct (al_job _ _ A (xJob x)) as [E1 E2]. split; [exact E1|]. split; [exact E2|].
        apply HBt. by apply (bs_ne H).
    + intros l'. destruct (al_lane _ _ A l') as [E1 E2]. cbn [lanes set_batches]. by rewrite E1, E2.
    + intros l' x Hx. destruct (al_job _ _ A x) as [E1 _]. split; [exact E1|]. apply HBt. intros ->.
      by apply (ti_away _ _ (co_tidy _ _ _ _ C1) l').
Qed.

End less.

Lemma none_awake q l : (0 < awake (wake (lanes q l)))%nat → (awakeWorkers (workNone l (enter l q)) < awakeWorkers q)%nat.
Proof.
  intros Hw. assert (HL : ∀ l', awake (wake (lanes (workNone l (enter l q)) l')) =
    (awake (wake (lanes q l')) - if decide (l' = l) then 1 else 0)%nat).
  { intros l'. unfold workNone. destruct (stopping (enter l q) && _); unfold park, enter; cbn [lanes set_wg];
      rewrite !lanes_updLane; destruct (decide (l' = l)) as [->|]; rewrite ?lanes_updLane, ?decide_True by done; simpl; lia. }
  unfold awakeWorkers. rewrite !HL. destruct l; simpl; lia.
Qed.

(** Every step on what is there takes some of it, or puts a worker to sleep. *)
Lemma work_step_less S S' s : sinv (sq S) (act S) s → work_step S S' →
  lessWork S S' ∨ (workLeft (sq S') (act S') = workLeft (sq S) (act S) ∧ (awakeWorkers (sq S') < awakeWorkers (sq S))%nat).
Proof.
  intros H Hs. destruct Hs as [|q a o Ha|q a o Ha|l q a o Hw Ht| | | | | | |]; cbn [sq act] in *; try subst.
  - left. by eapply released_less.
  - left. by apply cancel_less.
  - left. by eapply startAwait_less.
  - right. split; [apply none_same|by apply none_awake].
  - left. by eapply take_less.
  - left. by eapply takeBatch_less.
  - left. by eapply done_less.
  - left. by eapply group_less.
  - left. by eapply groupLast_less.
  - left. by eapply abort_less.
  - left. by eapply batchEnd_less.
Qed.

(** ** Workers return, none is hired *)

Definition keeps (Q Q' : dispatchQueue) : Prop := wg Q' <= wg Q ∧ stopping Q' = stopping Q.

#[export] Instance keeps_preorder : PreOrder keeps.
Proof. split; [by intros Q; split|]. intros Q1 Q2 Q3 [??] [??]. split; [lia|congruence]. Qed.

Lemma keeps_calm Q Q' : calm Q Q' → keeps Q Q'.
Proof. intros []. split; [lia|done]. Qed.

Lemma keeps_drop Q : keeps Q (dropPending Q).
Proof. destruct (dropPending_effect Q) as (_ & E1 & _ & E2 & _). split; [lia|done]. Qed.

Lemma keeps_finish l p Q : keeps Q (finishJobLocked l p Q).
Proof.
  change (finishJobLocked l p Q) with (dropPending (releaseIDsLocked p (leaveWorker l p Q))).
  etrans; [|apply keeps_drop]. apply keeps_calm. etrans; [apply calm_leaveWorker|apply calm_releaseIDs].
Qed.

Lemma keeps_take l p Q Q' : take l (enter l Q) = Some (p, Q') → keeps Q Q'.
Proof. intros Ht. destruct (take_effect _ _ _ _ Ht) as ((_ & _ & _ & _ & _ & E6 & E7 & _) & _). split; [by rewrite E7|done]. Qed.

Lemma work_keeps S S' : work_step S S' → keeps (sq S) (sq S').
Proof.
  intros Hs. destruct Hs as [|q a o Ha|q a o Ha|l q a o Hw Ht|l p q q' a o Hw Ht|fenced fences l p q q' a o Hw Ht|
    l p r q a1 a2 o Ht|rs fences fenced fences' l p q q' a1 a2 o Ht ->|rs fences sl l p q q' a1 a2 o Ht ->| |l p yield q a1 a2 o Ht]; cbn [sq].
  - done.
  - unfold cancelAwait. etrans; [|apply keeps_drop]. by apply keeps_calm, calm_lanes.
  - apply keeps_calm, calm_startAwait.
  - unfold workNone. destruct (stopping (enter l q) && _); (split; [simpl; lia|done]).
  - by eapply keeps_take.
  - etrans; [by eapply keeps_take|]. apply keeps_calm, calm_prepare.
  - unfold workDone. destruct (rerouted l (job q p) r); [apply (keeps_calm q (rerouteToIO p q)), calm_reroute|apply keeps_finish].
  - apply keeps_calm. etrans; [|apply calm_prepare]. etrans; [apply calm_updBatch|apply calm_finishGroup].
  - apply keeps_calm. etrans; [apply calm_updBatch|apply calm_finishGroup].
  - done.
  - unfold batchEnd. etrans; [apply keeps_calm, calm_releaseClaims|]. destruct yield; [|apply (keeps_finish l p)].
    apply (keeps_calm _ (yieldTryBatchLocked l p _)), calm_yield.
Qed.

Lemma awake_wg n Q a : wake_ok n Q a → Z.of_nat (awakeWorkers Q) <= wg Q.
Proof. intros W. rewrite (w_wg _ _ _ W). unfold awakeWorkers, live. lia. Qed.

Lemma bound_step n S S' s : sinv (sq S) (act S) s → wake_ok n (sq S') (act S') → work_step S S' →
  (stepBound S' < stepBound S)%nat.
Proof.
  intros H W' Hs. destruct (work_keeps S S' Hs) as [Hw _]. pose proof (awake_wg _ _ _ W') as Ha.
  unfold stepBound. destruct (work_step_less S S' s H Hs) as [Hl|[-> Hl]].
  - unfold lessWork in Hl. nia.
  - nia.
Qed.

(** Runs of the workers are no longer than the bound. *)
Lemma work_bounded n k S S' s : simulates S s → wake_ok n (sq S) (act S) → nsteps work_step k S S' →
  (k + stepBound S' ≤ stepBound S)%nat ∧ ∃ s', simulates S' s' ∧ wake_ok n (sq S') (act S').
Proof.
  intros H W Hk. revert s H W. induction Hk as [S|k S1 S2 S3 Hs _ IH]; intros s H W; [split; [lia|eauto]|].
  destruct (simulates_step S1 S2 s H (st_work _ _ Hs)) as (s2 & _ & H2).
  assert (W2 : wake_ok n (sq S2) (act S2)) by (eapply work_wake; [apply H|done|done]).
  destruct (IH s2 H2 W2) as [IH1 IH2]. split; [|done].
  pose proof (bound_step n S1 S2 s (proj1 H) W2 Hs). lia.
Qed.

(** ** Properties *)

(** C18. Whatever is in the queue, the workers take a bounded number of steps on it: every run of taking, running, rerouting, converting, yielding, finishing, aborting, settling awaits and going to sleep has at most [stepBound] steps, from every reachable state. *)
Theorem workers_terminate (short io : WorkerPoolConfig) (longConfig : option WorkerPoolConfig) (S S' : Sys) (k : nat) :
  reachable short io longConfig S → nsteps work_step k S S' → (k ≤ stepBound S)%nat.
Proof.
  intros (s & Hs & W)%reachable_wake Hk. destruct (work_bounded _ _ _ _ _ Hs W Hk). lia.
Qed.

(** C17. A stopped queue drains: as long as the workers have not all returned, one of the steps on the work that is there can be taken, so that, as these runs are bounded, every run of the workers ends with all of them returned, with nothing pending and nothing executing. *)
Theorem stopped_queue_drains (short io long : WorkerPoolConfig) (S S' : Sys) :
  0 < Workers short → 0 < Workers io → 0 < Workers long →
  reachable short io (Some long) S → stopping (sq S) = true → rtc work_step S S' →
  (∃ S'', work_step S' S'') ∨
  (done_closed (sq S') = true ∧ pending (sq S') = 0 ∧ act S' = [] ∧ queuedJobs (sq S') = [] ∧ awaitReserved (sq S') = 0).
Proof.
  intros H1 H2 H3 (s & Hs & W)%reachable_wake Hst Hr.
  destruct (rtc_nsteps_1 _ _ Hr) as [k Hk].
  destruct (work_bounded _ _ _ _ _ Hs W Hk) as (_ & s' & Hs' & W').
  assert (Hst' : stopping (sq S') = true).
  { clear - Hst Hr. induction Hr as [|S S1 S2 Hw _ IH]; [done|]. apply IH. destruct (work_keeps S S1 Hw) as [_ ->]. done. }
  assert (Hn : ∀ l, (0 < crew (configs short io (Some long) l))%nat) by (intros []; unfold crew, configs; simpl; lia).
  destruct (progress Hs' W' Hn Hst') as [Hd|Hw]; [right|by left]. split; [done|].
  unfold done_closed in Hd. apply andb_true_iff in Hd as [_ Hwg]. to_prop.
  assert (Hp : pending (sq S') = 0).
  { destruct (started (sq S')) eqn:Es; [|by destruct (w_off _ _ _ W' Es)].
    destruct (w_staff _ _ _ W' Es) as [[_ ?]|HF]; [done|]. rewrite (w_wg _ _ _ W'), !HF in Hwg.
    pose proof (Hn Short). lia. }
  destruct (pending_nonneg (proj1 Hs')) as (_ & Ha & Hle). destruct (simulates_shows S' s' Hs') as [_ _ _ Hc].
  split; [done|]. split; [|split]; [destruct (act S')|destruct (queuedJobs (sq S'))|]; try done; zlia.
Qed.

Lemma workers_terminate_witness : nsteps work_step 1 demoRunning demoEnding ∧ (1 ≤ stepBound demoRunning)%nat.
Proof.
  assert (H : nsteps work_step 1 demoRunning demoEnding) by (apply nsteps_once, endGroup_step, demoQueue_batch).
  split; [exact H|]. exact (workers_terminate demoPool demoPool (Some demoPool) demoRunning demoEnding 1 demoRunning_reachable H).
Defined.

Lemma stopped_queue_drains_witness :
  (∃ S'', work_step demoStopped S'') ∨
  (done_closed (sq demoStopped) = true ∧ pending (sq demoStopped) = 0 ∧ act demoStopped = [] ∧
   queuedJobs (sq demoStopped) = [] ∧ awaitReserved (sq demoStopped) = 0).
Proof.
  apply (stopped_queue_drains demoPool demoPool demoPool demoStopped demoStopped); [reflexivity..|exact demoStopped_reachable|reflexivity|].
  apply rtc_refl.
Defined.
