(* ===== verification/NestBound.v ===== *)
(** * The queue is bounded (framework/nest)

    A business lane never holds more jobs than its workers and its queue
    capacity allow, and never more blocked jobs than the capacity, whatever
    was converted, yielded or continued in between. *)

From S2P Require Import Prelude NestJob NestQueue NestRun NestDemo NestOrder NestQueueInv NestSim NestBatch.
From S2P Require Import NestInv NestStep NestSpec NestWake.

(** ** The lane *)

Record roomy (s : dispatchLane) : Prop := mkRoomy {
  r_cap : 0 <= QueueCap (config s);
  r_workers : 0 <= Workers (config s);
  r_cont : 0 <= continuationRunning s;
  r_ready : 0 <= readyCount s;
  r_busy : running s + continuationRunning s <= Workers (config s);
  r_blocked : queued s - readyCount s <= QueueCap (config s);
  r_total : queued s + running s <= Workers (config s) + QueueCap (config s)
}.

Definition stays (Q Q' : dispatchQueue) : Prop := ∀ l, l ≠ IO → roomy (lanes Q l) → roomy (lanes Q' l).

#[export] Instance stays_preorder : PreOrder stays.
Proof. split; [by intros Q l|]. intros Q1 Q2 Q3 H1 H2 l Hl H. auto. Qed.

Lemma stays_updLane l f Q : (∀ s, roomy s → roomy (f s)) → stays Q (updLane l f Q).
Proof. intros Hf l' _ H. rewrite lanes_updLane. destruct (decide (l' = l)) as [->|]; auto. Qed.

Lemma stays_io f Q : stays Q (updLane IO f Q).
Proof. intros l' Hl H. by rewrite lanes_updLane, decide_False. Qed.

Lemma stays_lanes Q Q' : lanes Q' = lanes Q → stays Q Q'.
Proof. intros E l _. by rewrite E. Qed.

(** More ready jobs, fewer running ones. *)
Lemma roomy_easy s s' : roomy s → config s' = config s → queued s' = queued s → readyCount s <= readyCount s' →
  running s' <= running s → 0 <= continuationRunning s' <= continuationRunning s → roomy s'.
Proof. intros [] E1 E2 E3 E4 E5. constructor; rewrite ?E1, ?E2; lia. Qed.

Lemma stays_enqueueReady l p Q : stays Q (enqueueReady l p Q).
Proof. apply stays_updLane. intros s H. destruct (tryBatch (job Q p)); eapply roomy_easy; try done; simpl; destruct H; lia. Qed.

Lemma stays_notePeak l Q : stays Q (notePeak l Q).
Proof. apply stays_updLane. intros s H. eapply roomy_easy; try done. destruct H. simpl. lia. Qed.

Lemma stays_wakeAll Q : stays Q (wakeAll Q).
Proof. intros l _ H. rewrite wakeAll_lane. eapply roomy_easy; try done. destruct H. simpl. lia. Qed.

Lemma stays_foldl {A} (f : dispatchQueue → A → dispatchQueue) l Q : (∀ Q x, stays Q (f Q x)) → stays Q (foldl f Q l).
Proof. intros Hf. revert Q. induction l as [|x l IH]; intros Q; [done|]. simpl. etrans; [apply Hf|apply IH]. Qed.

Lemma stays_releaseIDs p Q : stays Q (releaseIDsLocked p Q).
Proof.
  unfold releaseIDsLocked. etrans; [by apply (stays_lanes Q (set_tails (unlinkTails p (ids (job Q p)) (tails Q)) Q))|].
  apply stays_foldl. intros Q1 n. unfold releaseOne.
  etrans; [by apply (stays_lanes Q1 (updJob n (λ j, set_predecessors (predecessors j - 1) j) Q1))|].
  case_match; [apply stays_enqueueReady|done].
Qed.

Lemma stays_dropPending Q : stays Q (dropPending Q).
Proof.
  destruct (dropPending_wake Q) as [[] ->]; [|by apply stays_lanes].
  etrans; [by apply (stays_lanes Q (set_pending (pending Q - 1) Q))|apply stays_wakeAll].
Qed.

Lemma register_lanes j Q : lanes (register j Q) = lanes Q.
Proof. unfold register. by rewrite linkMany_lanes. Qed.

(** ** Admission is what the bound is about *)

(** A job was let in: there was a free worker for a job that is not blocked,
    or a place in the queue; [r] says whether it is ready. *)
Lemma roomy_admit l s q blocked r s' : roomy s → l ≠ IO →
  negb (negb blocked && (busyWorkers l s + readyCount s <? Workers (config s))) &&
    (QueueCap (config s) <=? waitingCount q l s) = false →
  0 <= r <= 1 → (blocked = false → r = 1) →
  config s' = config s → queued s' = queued s + 1 → readyCount s' = readyCount s + r → running s' = running s →
  continuationRunning s' = continuationRunning s → roomy s'.
Proof.
  intros [] Hl Hg Hr Hb E1 E2 E3 E4 E5. unfold waitingCount, busyWorkers in Hg.
  destruct l; [|done|]; simpl in Hg;
    (apply andb_false_iff in Hg as [Hg|Hg]; [apply negb_false_iff, andb_true_iff in Hg as [Hbl Hs]; destruct blocked; [done|]|];
     try specialize (Hb eq_refl); to_prop; constructor; rewrite ?E1, ?E2, ?E3, ?E4, ?E5; lia).
Qed.

(** Nobody is registered under the ids of an unblocked job. *)
Lemma unblocked_free p l Q : NoDup l → (∀ id, id ∈ l → tails Q !! id = None) →
  job (foldl (linkOne p) Q l) p = job Q p.
Proof.
  revert Q. induction l as [|id l IH]; intros Q Hn Ht; [done|]. apply NoDup_cons in Hn as [Hid Hn]. simpl.
  assert (E : linkOne p Q id = set_tails (<[id := p]> (tails Q)) Q) by (unfold linkOne; by rewrite Ht by left).
  rewrite E, IH; [done..|]. intros id' Hid'. simpl. rewrite lookup_insert_ne by (intros ->; done).
  apply Ht. by right.
Qed.

Lemma isBlocked_false Q l : isBlocked Q l = false → ∀ id, id ∈ l → tails Q !! id = None.
Proof.
  unfold isBlocked. intros H id (l1 & l2 & ->)%list_elem_of_split. rewrite existsb_app in H. simpl in H.
  apply orb_false_iff in H as [_ [H _]%orb_false_iff]. apply bool_decide_eq_false in H. by apply eq_None_not_Some.
Qed.

Lemma stays_admit j Q : newJob j → stays Q (fst (admitLocked j Q)).
Proof.
  intros (_ & Hz & Hn & _). rewrite admitLocked_eq. case_match eqn:Eg.
  { apply stays_updLane. intros s Hs. eapply roomy_easy; try done. destruct Hs. simpl. lia. }
  cbn [fst]. unfold acceptJob. rewrite fresh_register. set (x := fresh Q). set (Q2 := updJob x _ _).
  etrans; [|apply stays_notePeak]. intros l Hl Hs. set (Q3 := set_pending _ Q2).
  assert (EL : lanes Q3 = lanes Q) by (change (lanes Q3) with (lanes (register j Q)); apply register_lanes).
  unfold hasExecutionSlot in Eg. destruct (decide (l = lane j)) as [->|Hne].
  - assert (Eio : isIO (lane j) = false) by by apply bool_decide_eq_false.
    rewrite Eio, Z.add_0_r in Eg.
    apply (roomy_admit (lane j) (lanes Q (lane j)) Q (isBlocked Q (ids j))
      (if predecessors (job Q3 x) =? 0 then 1 else 0) _ Hs Hl Eg); [by case_match|..].
    { intros Hb. assert (Ej : job (register j Q) x = j).
      { unfold register. rewrite unblocked_free; [by rewrite job_alloc, decide_True|done|]. by apply isBlocked_false. }
      assert (Ez : predecessors (job Q3 x) = 0).
      { change (job Q3 x) with (job Q2 x). unfold Q2. rewrite job_updJob, decide_True; [by rewrite Ej|done|].
        apply (f_dom _ _ (register_frame j Q)). simpl. rewrite lookup_insert_eq. by eexists. }
      by rewrite Ez. }
    all: unfold pushJob; destruct (predecessors (job Q3 x) =? 0);
      unfold enqueueReady, pushWaiting; rewrite ?lanes_updLane, ?decide_True by done; rewrite EL;
      try (by destruct (tryBatch _)); simpl; try lia; done.
  - unfold pushJob. destruct (predecessors (job Q3 x) =? 0); unfold enqueueReady, pushWaiting;
      rewrite ?lanes_updLane, ?decide_False by done; by rewrite EL.
Qed.

(** ** The other operations *)

Lemma stays_convert b id fenced Q : stays Q (fst (convertTryBatchTargetLocked b id fenced Q)).
Proof.
  unfold convertTryBatchTargetLocked. destruct (stopping Q), fenced; try done.
  set (j := set_stage _ _ _). assert (Hj : newJob j) by (repeat split; try done; apply jobIDs_NoDup).
  pose proof (stays_admit j Q Hj) as H. destruct (admitLocked j Q) as [Q1 [e|]]; [done|]. simpl in *.
  etrans; [apply H|]. apply stays_updLane. intros s Hs. eapply roomy_easy; try done. destruct Hs. simpl. lia.
Qed.

Lemma stays_prepareLoop fenced fences p fuel n Q : stays Q (prepareLoop fenced fences p fuel n Q).
Proof.
  revert n Q. induction fuel as [|fuel IH]; intros n Q; simpl; [by apply stays_lanes|].
  destruct (items _ !! _) as [id|]; [|by apply stays_lanes].
  destruct fenced; [etrans; [|apply IH]; by apply stays_lanes|].
  destruct (tails _ !! id) as [tail|].
  - destruct (bool_decide _); [by apply stays_lanes|].
    pose proof (stays_convert (batch Q p) id (fences n) (setPlan p n noPlan Q)) as H.
    destruct (convertTryBatchTargetLocked _ _ _ _) as [Q1 r]. simpl in H.
    etrans; [|apply IH]. etrans; [|by apply (stays_lanes Q1)]. etrans; [|apply H]. by apply stays_lanes.
  - etrans; [|apply IH]. by apply stays_lanes.
Qed.

Lemma stays_releaseClaims p Q : stays Q (releaseTryBatchClaimsLocked p Q).
Proof.
  apply stays_foldl. intros Q1 i. unfold releaseClaim. destruct (negb _); [done|].
  etrans; [apply (stays_releaseIDs (default 0%N (claims (batch Q1 p) !! i)))|]. by apply stays_lanes.
Qed.

Lemma stays_finishGroup fences p st Q : stays Q (finishTryBatchGroupLocked fences p st Q).
Proof.
  unfold finishTryBatchGroupLocked. etrans; [|apply stays_releaseClaims]. apply stays_foldl. intros Q1 i.
  unfold convertBusy. destruct (negb _); [done|].
  pose proof (stays_convert (batch Q1 p) (default 0 (items (batch Q1 p) !! (st + i)%nat)) (fences i) Q1) as H.
  destruct (convertTryBatchTargetLocked _ _ _ _) as [Q2 [e|]]; [|done]. etrans; [apply H|]. by apply stays_lanes.
Qed.

Lemma stays_pushContinuation l m Q : stays Q (pushContinuationLocked l m Q).
Proof.
  intros l' _ H. unfold pushContinuationLocked. cbn [alloc]. rewrite !lanes_updLane. cbn [lanes set_pending].
  destruct (decide (l' = l)) as [->|]; rewrite ?lanes_updLane, ?decide_True, ?decide_False by done; [|done].
  eapply roomy_easy; try done. destruct H. simpl. lia.
Qed.

(** A batch is admitted with the same check. *)
Lemma stays_admitTryBatch l ts Q : isIO l = false → stays Q (fst (admitTryBatch l ts Q)).
Proof.
  intros Hio. unfold admitTryBatch. destruct (_ || _); [done|]. destruct (_ && _) eqn:Eg.
  { apply stays_updLane. intros s Hs. eapply roomy_easy; try done. destruct Hs. simpl. lia. }
  rewrite newTryBatchJob_eq. cbn [fst]. set (Q6 := set_batches _ _). etrans; [|apply stays_notePeak].
  assert (EL : lanes Q6 = lanes Q) by done. intros l' Hl Hs. unfold enqueueReady, pushWaiting.
  destruct (decide (l' = l)) as [->|Hne].
  - apply (roomy_admit l (lanes Q l) Q false 1 _ Hs Hl); [by rewrite andb_true_l|done|done|..];
      rewrite !lanes_updLane, !decide_True by done; change (lanes (set_pending _ Q6)) with (lanes Q);
      destruct (tryBatch _); simpl; try done; lia.
  - rewrite !lanes_updLane, !decide_False by done. done.
Qed.

Lemma stays_yield l p Q : stays Q (yieldTryBatchLocked l p Q).
Proof.
  intros l' Hl Hs. unfold yieldTryBatchLocked, enqueueReady, pushWaiting. destruct (decide (l' = l)) as [->|Hne].
  - rewrite !lanes_updLane, !decide_True by done. cbn [lanes updJob set_heap].
    rewrite !lanes_updLane, !decide_True by done. destruct Hs.
    destruct (tryBatch _); constructor; simpl; try done; lia.
  - rewrite !lanes_updLane, !decide_False by done. cbn [lanes updJob set_heap]. by rewrite lanes_updLane, decide_False.
Qed.

Lemma stays_reroute p Q : stays Q (rerouteToIO p Q).
Proof.
  unfold rerouteToIO. etrans; [|apply stays_notePeak]. etrans; [|apply stays_enqueueReady]. etrans; [|apply stays_io].
  etrans; [|by apply stays_lanes]. apply stays_updLane. intros s Hs. eapply roomy_easy; try done; destruct Hs; simpl; lia.
Qed.

Lemma stays_startAwait Q : stays Q (startAwait Q).
Proof. unfold startAwait. cbn [alloc]. etrans; [|apply stays_enqueueReady]. etrans; [|apply stays_io]. by apply stays_lanes. Qed.

Lemma stays_finish l p Q A1 A2 C s : refines Q (A1 ++ (l, p) :: A2) C s → stays Q (finishJobLocked l p Q).
Proof.
  intros HR. destruct (leave_facts HR) as (_ & _ & _ & _ & Hq & _).
  change (finishJobLocked l p Q) with (dropPending (releaseIDsLocked p (leaveWorker l p Q))).
  etrans; [|apply stays_dropPending]. etrans; [|apply stays_releaseIDs]. intros l' Hl Hs.
  pose proof (k_contrun _ _ _ _ _ (i_lanes _ _ _ _ _ Hq l')) as Hc. revert Hc. unfold leaveWorker.
  rewrite lanes_updLane. destruct (decide (l' = l)) as [->|]; [|done].
  intros Hc. assert (Hz : 0 <= continuationRunning (if continuation (job Q p)
    then set_conts (continuations (lanes Q l)) (continuationCount (lanes Q l)) (continuationRunning (lanes Q l) - 1) (preferContinuation (lanes Q l)) (lanes Q l)
    else set_running (running (lanes Q l) - 1) (lanes Q l))) by (rewrite Hc; apply zlen_nonneg).
  destruct (continuation (job Q p)); eapply roomy_easy; try done; destruct Hs; simpl in *; lia.
Qed.

(** Taking a job: the workers of the lane bound what is executing. *)
Lemma active_split J (a : list Exec) l : zlen (active J (acts a) l false) + zlen (active J (acts a) l true) = Z.of_nat (executingIn a l).
Proof.
  unfold active, acts, executingIn. induction a as [|x a IH]; [done|]. rewrite fmap_cons, !filter_cons. simpl.
  destruct (decide (xLane x = l)) as [->|Hne].
  - destruct (continuation (J (xJob x))) eqn:E.
    + rewrite decide_False by (by intros [_ ?]). rewrite decide_True by done. rewrite zlen_cons. simpl. lia.
    + rewrite decide_True by done. rewrite decide_False by (by intros [_ ?]). rewrite zlen_cons. simpl. lia.
  - rewrite !decide_False by (by intros [? _]). lia.
Qed.

Lemma busy_bound n Q a s l : sinv Q a s → wake_ok n Q a → 0 <= Workers (config (lanes Q l)) →
  running (lanes Q l) + continuationRunning (lanes Q l) <= Workers (config (lanes Q l)) ∧ 0 <= continuationRunning (lanes Q l).
Proof.
  intros H W Hw. pose proof (i_lanes _ _ _ _ _ (v_q H) l) as Hok.
  rewrite (k_running _ _ _ _ _ Hok), (k_contrun _ _ _ _ _ Hok), active_split. split; [|apply zlen_nonneg].
  pose proof (w_config _ _ _ W l) as Hsz. destruct (started Q) eqn:Es.
  - destruct (w_staff _ _ _ W Es) as [[_ D]|HF].
    + destruct (pending_nonneg H) as (_ & ? & ?). destruct a as [|x a]; [change (executingIn [] l) with O; lia|zlia].
    + specialize (HF l). unfold live, crew in HF. rewrite <- Hsz in HF. lia.
  - destruct (w_off _ _ _ W Es) as [_ HF]. specialize (HF l). unfold live in HF. lia.
Qed.

(** ** Every step *)

Lemma take_numbers l p Q Q' : take l Q = Some (p, Q') →
  queued (lanes Q' l) - readyCount (lanes Q' l) = queued (lanes Q l) - readyCount (lanes Q l) ∧
  queued (lanes Q' l) + running (lanes Q' l) = queued (lanes Q l) + running (lanes Q l).
Proof.
  assert (HR : takeReady l Q = Some (p, Q') →
    queued (lanes Q' l) - readyCount (lanes Q' l) = queued (lanes Q l) - readyCount (lanes Q l) ∧
    queued (lanes Q' l) + running (lanes Q' l) = queued (lanes Q l) + running (lanes Q l)).
  { unfold takeReady. destruct (takeExternal (lanes Q l)) as [[r s]|] eqn:E; [|done]. intros [= -> <-].
    apply takeExternal_spec in E as (_ & Er & (_ & Eq & _ & _ & _ & En & _) & _).
    rewrite lanes_updLane, decide_True by done. destruct (isIO l); simpl; rewrite Er, Eq, En; lia. }
  unfold take. destruct (continuations (lanes Q l)) as [|c cs]; [done|].
  destruct (negb (isIO l) && _); [|done]. intros [= -> <-]. unfold notePeak.
  by rewrite !lanes_updLane, !decide_True.
Qed.

Lemma stays_take n l p Q Q' a s s' ph : sinv Q a s → take l (enter l Q) = Some (p, Q') →
  wake_ok n Q' (a ++ [mkExec l p ph]) → sinv Q' (a ++ [mkExec l p ph]) s' → stays Q Q'.
Proof.
  intros H Ht W' H' l' Hl Hs. destruct (take_effect _ _ _ _ Ht) as (_ & Ho & _ & Ec & _).
  destruct (take_numbers _ _ _ _ Ht) as [E1 E2]. unfold enter in E1, E2, Ec.
  rewrite lanes_updLane, decide_True in E1, E2, Ec by done. simpl in E1, E2, Ec.
  destruct (decide (l' = l)) as [->|Hne].
  - destruct Hs. destruct (busy_bound n Q' _ _ l H' W') as [Hb Hc]; [by rewrite Ec|].
    pose proof (k_ready _ _ _ _ _ (i_lanes _ _ _ _ _ (v_q H') l)) as Hr.
    pose proof (zlen_nonneg (ready (lanes Q' l))). pose proof (zlen_nonneg (tryBatches (lanes Q' l))).
    constructor; rewrite ?Ec in *; lia.
  - rewrite Ho by done. unfold enter. by rewrite lanes_updLane, decide_False.
Qed.

(** The state between taking a batch and preparing its group. *)
Lemma taken_between Q a s l p Q' : sinv Q a s → take l (enter l Q) = Some (p, Q') → tryBatch (job Q' p) = true →
  ∃ s', sinv Q' (a ++ [mkExec l p (Ending false)]) s' ∧ planned p 0 Q'.
Proof.
  intros H0 Ht Hb. pose proof (sinv_enter l Q a s H0) as H.
  destruct (take_refines l p _ Q' _ _ s (v_ref _ _ _ H) Ht) as (_ & HR & HE & HJ & Hp).
  assert (HB : batch Q' p = batch (enter l Q) p) by (unfold batch; by rewrite (e_batches _ _ _ _ HE)).
  assert (Hpl : planned p 0 Q').
  { apply (planned_keep p 0 (enter l Q)); [done|intros c _; by rewrite HJ|].
    apply (v_parked _ _ _ H); [apply (v_has _ _ _ H); [done|congruence]|]. intros x Hx E.
    destruct HR as (Hq & _). destruct (active_nodup _ _ _ _ _ _ _ Hq) as [Hno _]. apply Hno, acts_fst. eauto. }
  exists (began s p). split; [|done]. apply (sinv_taken _ _ _ _ _ _ (Ending false) H Ht); [rewrite <- HJ; congruence|].
  intros _ _. destruct Hpl as [G1 G2 G3]. unfold exec_ok. cbn [xPhase xJob]. split; [done|].
  split; [intros; apply G1; lia|]. split; [lia|done].
Qed.

Lemma work_stays n S S' s : sinv (sq S) (act S) s → wake_ok n (sq S) (act S) → work_step S S' → stays (sq S) (sq S').
Proof.
  intros H W Hs. pose proof (work_matched S S' s H Hs) as (s' & _ & H').
  pose proof (work_wake n S S' s H W Hs) as W'.
  destruct Hs as [|q a o Ha|q a o Ha|l q a o Hw Ht|l p q q' a o Hw Ht Hb|fenced fences l p q q' a o Hw Ht Hb|
    l p r q a1 a2 o Ht|rs fences fenced fences' l p q q' a1 a2 o Ht ->|rs fences sl l p q q' a1 a2 o Ht ->| |l p yield q a1 a2 o Ht];
    cbn [sq act] in *.
  - done.
  - unfold cancelAwait. etrans; [|apply stays_dropPending]. by apply stays_lanes.
  - apply stays_startAwait.
  - intros l' _ Hr. unfold workNone. destruct (stopping (enter l q) && _); unfold park, enter; cbn [lanes set_wg];
      rewrite !lanes_updLane; destruct (decide (l' = l)) as [->|]; rewrite ?lanes_updLane, ?decide_True by done;
      try done; eapply roomy_easy; try done; destruct Hr; simpl; lia.
  - by eapply (stays_take n).
  - destruct (taken_between q a s l p q' H Ht Hb) as (s1 & H1 & _).
    destruct (wake_take n q a s l p q' (Ending false) H W Hw Ht) as [W1 _].
    etrans; [by eapply (stays_take n)|apply stays_prepareLoop].
  - pose proof (v_ref _ _ _ H) as HR. rewrite acts_app, acts_cons in HR. simpl in HR. unfold workDone.
    etrans; [|apply stays_updLane; intros s1 Hr; eapply roomy_easy; try done; destruct Hr; simpl; lia].
    destruct (rerouted l (job q p) r); [apply stays_reroute|by eapply stays_finish].
  - etrans; [|apply stays_prepareLoop]. etrans; [by apply (stays_lanes q (groupRan rs p q))|apply stays_finishGroup].
  - etrans; [by apply (stays_lanes q (groupRan rs p q))|apply stays_finishGroup].
  - by apply stays_lanes.
  - destruct (ending_released H Ht) as (s1 & _ & H1 & _). pose proof (v_ref _ _ _ H1) as HR.
    rewrite acts_app, acts_cons in HR. simpl in HR. unfold batchEnd.
    etrans; [|apply stays_updLane; intros s2 Hr; eapply roomy_easy; try done; destruct Hr; simpl; lia].
    etrans; [apply stays_releaseClaims|]. destruct yield; [apply stays_yield|].
    etrans; [by eapply stays_finish|by apply stays_lanes].
Qed.

Lemma step_stays n S S' s : sinv (sq S) (act S) s → wake_ok n (sq S) (act S) → sys_step S S' → stays (sq S) (sq S').
Proof.
  intros H W Hs. destruct Hs as [S S' Hs|q a o|q a o|reg m prepareIO q a o|l ts q a o Hl|reg m q a o|reg m p q a1 a2 o Ht|l p q a o Hin Hl];
    cbn [sq act] in *.
  - by eapply work_stays.
  - unfold start. destruct (_ || _); [done|]. intros l _ Hr. unfold allLanes. cbn [foldl]. unfold startLane. cbn [lanes set_wg].
    rewrite !lanes_updLane. destruct Hr. destruct l; constructor; simpl; lia.
  - unfold stop. destruct (stopping q); [done|]. etrans; [|apply stays_wakeAll]. by apply stays_lanes.
  - unfold admitMessage. destruct (_ || _); [done|]. apply stays_admit. repeat split; try done. apply jobIDs_NoDup.
  - by apply stays_admitTryBatch.
  - unfold tryContinueBusiness. destruct (_ || _); [done|]. apply stays_pushContinuation.
  - apply stays_pushContinuation.
  - unfold reserveAwait. destruct (_ || _); [done|]. destruct (_ <=? _); [done|]. by apply stays_lanes.
Qed.

(** ** Properties *)

Lemma configs_nonneg short io longConfig l : (∀ c, c ∈ short :: io :: option_list longConfig → 0 <= Workers c ∧ 0 <= QueueCap c) →
  0 <= Workers (configs short io longConfig l) ∧ 0 <= QueueCap (configs short io longConfig l).
Proof.
  intros H. unfold configs. destruct l; simpl; [apply H; left|apply H; right; left|].
  destruct longConfig as [c|]; simpl; [apply H; right; right; left|done].
Qed.

(** C33. A business lane is bounded: in every reachable state the jobs that wait in it and those its workers execute are together at most its workers plus its queue capacity, the jobs that wait for an entity are at most the capacity, and its workers execute at most as many jobs and continuations as there are of them; the counters the code keeps are exact. *)
Theorem business_lane_bounded (short io : WorkerPoolConfig) (longConfig : option WorkerPoolConfig) (S : Sys) (l : LaneId) :
  (∀ c, c ∈ short :: io :: option_list longConfig → 0 <= Workers c ∧ 0 <= QueueCap c) →
  reachable short io longConfig S → isIO l = false →
  let s := lanes (sq S) l in
  let c := configs short io longConfig l in
  zlen (waiting s) + running s <= Workers c + QueueCap c ∧
  zlen (waiting s) - (zlen (ready s) + zlen (tryBatches s)) <= QueueCap c ∧
  running s + continuationRunning s <= Workers c ∧
  running s + continuationRunning s = Z.of_nat (executingIn (act S) l) ∧
  queued s = zlen (waiting s) ∧ readyCount s = zlen (ready s) + zlen (tryBatches s) ∧
  continuationCount s = zlen (continuations s).
Proof.
  intros Hc Hr Hl. apply bool_decide_eq_false in Hl.
  assert (HI : ∃ s, simulates S s ∧ wake_ok (configs short io longConfig) (sq S) (act S) ∧ ∀ l, l ≠ IO → roomy (lanes (sq S) l)).
  { induction Hr as [|S S' _ (s & Hs & Hw & HR) Hst].
    - eexists. split; [apply simulates_init|]. split; [apply wake_init|]. intros l' _.
      destruct (configs_nonneg short io longConfig l' Hc) as [H1 H2]. unfold configs in H1, H2.
      constructor; destruct l'; simpl in *; lia.
    - destruct (simulates_step S S' s Hs Hst) as (s' & _ & H'). exists s'. split; [done|].
      split; [eapply step_wake; [apply Hs|done|done]|]. intros l' Hl'. eapply step_stays; [apply Hs|done..|by apply HR]. }
  destruct HI as (s & [Hs _] & W & HR). destruct (i_lanes _ _ _ _ _ (v_q Hs) l) as [K1 K2 K3 _ _ _ _ _ _ _ K4 K5].
  destruct (HR l Hl) as [_ _ _ _ R1 R2 R3]. rewrite <- (w_config _ _ _ W l). simpl. rewrite <- K2, <- K1, <- K3.
  split_and!; try done. by rewrite K4, K5, active_split.
Qed.

Lemma business_lane_bounded_witness :
  zlen (waiting (lanes (sq demoRunning) Short)) = 3 ∧
  zlen (waiting (lanes (sq demoRunning) Short)) + running (lanes (sq demoRunning) Short) <=
    Workers (configs demoPool demoPool (Some demoPool) Short) + QueueCap (configs demoPool demoPool (Some demoPool) Short).
Proof.
  split; [vm_compute; reflexivity|]. apply (business_lane_bounded demoPool demoPool (Some demoPool) demoRunning Short).
  - intros c Hc. simpl in Hc. repeat (apply elem_of_cons in Hc as [->|Hc]; [vm_compute; done|]). by apply elem_of_nil in Hc.
  - exact demoRunning_reachable.
  - reflexivity.
Defined.
