(* ===== verification/NestHandBack.v ===== *)
(** * The hand-backs of a batch (framework/nest/try_batch.go)

    Whatever happens to a batch, also when its loop leaves unexpectedly, the
    [handBack] callback is called at most once for each of its targets, in the
    order of the targets. *)

From S2P Require Import Prelude NestJob NestQueue NestRun NestDemo NestOrder NestQueueInv NestSim NestBatch.
From S2P Require Import NestInv NestStep NestSpec NestWake NestBound.

Abbreviation calls := (list (jobp * nat * QueueErr)).

(** The targets of batch [p] that were handed back, in order. *)
Definition returned (p : jobp) (o : calls) : list nat := (λ x, snd (fst x)) <$> filter (λ x, fst (fst x) = p) o.

Record hand_ok (Q : dispatchQueue) (o : calls) : Prop := mkHandOk {
  hb_known : ∀ x, x ∈ o → (fst (fst x) < fresh Q)%N;
  hb_sorted : ∀ p, StronglySorted lt (returned p o);
  hb_below : ∀ p b i, batches Q !! p = Some b → i ∈ returned p o → (i < next b)%nat
}.

Lemma returned_app p o1 o2 : returned p (o1 ++ o2) = returned p o1 ++ returned p o2.
Proof. unfold returned. by rewrite filter_app, fmap_app. Qed.

Lemma returned_other p o : (∀ x, x ∈ o → fst (fst x) ≠ p) → returned p o = [].
Proof.
  intros H. unfold returned. replace (filter _ o) with ([] : calls); [done|].
  symmetry. induction o as [|x o IH]; [done|]. rewrite filter_cons_False by (apply H; left). apply IH.
  intros y Hy. apply H. by right.
Qed.

(** What a group or an aborted batch hands back: increasing indices of the range that it gives up. *)
Record in_range (p : jobp) (st n : nat) (new : calls) : Prop := mkInRange {
  ir_own : ∀ x, x ∈ new → fst (fst x) = p;
  ir_sorted : StronglySorted lt (returned p new);
  ir_range : ∀ i, i ∈ returned p new → (st ≤ i < st + n)%nat
}.

Lemma in_range_omap p (f : nat → option QueueErr) st n : in_range p st n (omap (λ i, (λ e, (p, (st + i)%nat, e)) <$> f i) (seq 0 n)).
Proof.
  assert (E : ∀ l, returned p (omap (λ i, (λ e, (p, (st + i)%nat, e)) <$> f i) l) = (λ i, (st + i)%nat) <$> List.filter (λ i, bool_decide (is_Some (f i))) l).
  { induction l as [|i l IH]; [done|]. cbn [omap list_omap List.filter]. destruct (f i) as [e|] eqn:Ef; cbn [fmap option_fmap option_map]; [|done].
    rewrite bool_decide_eq_true_2 by (by exists e). unfold returned in *. rewrite filter_cons_True by done. cbn [fmap list_fmap]. by rewrite IH. }
  split.
  - intros x (i & _ & Hi)%list_elem_of_omap. by apply fmap_Some in Hi as (e & _ & ->).
  - rewrite E. assert (Hs : ∀ k m, StronglySorted lt ((λ i, (st + i)%nat) <$> List.filter (λ i, bool_decide (is_Some (f i))) (seq k m)) ∧
      Forall (λ i, (st + k ≤ i)%nat) ((λ i, (st + i)%nat) <$> List.filter (λ i, bool_decide (is_Some (f i))) (seq k m))); [|apply Hs].
    intros k m. revert k. induction m as [|m IH]; intros k; [by split; constructor|]. cbn [seq List.filter]. destruct (IH (S k)) as [H1 H2].
    destruct (bool_decide _); cbn [fmap list_fmap]; (split; [|try constructor; try lia; eapply Forall_impl; [exact H2|cbn; lia]]); [|done].
    constructor; [done|]. eapply Forall_impl; [exact H2|]. cbn. lia.
  - intros i. rewrite E. intros (k & -> & Hk)%list_elem_of_fmap. apply list_elem_of_In, filter_In in Hk as [Hk _]. apply in_seq in Hk. lia.
Qed.

Lemma collect_range p st n q : in_range p st n (collectHandBacks p st n q).
Proof. apply in_range_omap. Qed.

Lemma abort_range p q : in_range p (next (batch q p)) (length (items (batch q p)) - next (batch q p)) (abortHandBacks p q).
Proof.
  pose proof (in_range_omap p (λ _, Some errTryBatchAborted) (next (batch q p)) (length (items (batch q p)) - next (batch q p))) as H.
  replace (abortHandBacks p q) with (omap (λ i, (λ e, (p, (next (batch q p) + i)%nat, e)) <$> Some errTryBatchAborted) (seq 0 (length (items (batch q p)) - next (batch q p)))); [exact H|].
  unfold abortHandBacks. set (n := (length _ - _)%nat). generalize (next (batch q p)). intros st. clear.
  assert (seq st n = Nat.add st <$> seq 0 n) as -> by (rewrite fmap_add_seq; by rewrite Nat.add_0_r).
  generalize (seq 0 n). intros l. induction l as [|i l IH]; [done|]. cbn in *. by rewrite IH.
Qed.

(** ** Steps *)

(** The batches stay as they are. *)
Lemma hand_evolves Q o Q' q q' : hand_ok Q o → evolves Q q Q' q' → hand_ok Q' o.
Proof.
  intros [O1 O2 O3] HE. pose proof (e_batches _ _ _ _ HE) as EB. pose proof (e_fresh _ _ _ _ HE).
  constructor; rewrite ?EB; try done. intros x Hx. apply O1 in Hx. lia.
Qed.

(** Batch [p] goes on; [new] is what it hands back. *)
Lemma hand_bstep p Q o Q' new n s s' : hand_ok Q o → bstep p Q s Q' s' → is_Some (batches Q !! p) → (p < fresh Q)%N →
  in_range p (next (batch Q p)) n new → (next (batch Q p) + n ≤ next (batch Q' p))%nat → hand_ok Q' (o ++ new).
Proof.
  intros [O1 O2 O3] S [b0 HS] Hlt [R1 R2 R3] Hn. pose proof (t_fresh _ _ _ _ _ S) as HF.
  assert (Eb : batch Q p = b0) by (unfold batch; by rewrite HS). rewrite Eb in *.
  assert (Hnew : ∀ p', p' ≠ p → returned p' new = []) by (intros p' Hp'; apply returned_other; intros x Hx; rewrite (R1 x Hx); congruence).
  constructor.
  - intros x [Hx|Hx]%elem_of_app; [apply O1 in Hx; lia|]. rewrite (R1 x Hx). lia.
  - intros p'. rewrite returned_app. destruct (decide (p' = p)) as [->|Hne]; [|by rewrite Hnew, app_nil_r].
    pose proof (λ i, O3 p b0 i HS) as Hb. specialize (O2 p). revert O2 Hb. generalize (returned p o). induction 1 as [|i l Hl IH Hi]; intros Hb; [done|].
    cbn. constructor; [apply IH; intros; apply Hb; by right|]. apply Forall_app. split; [done|]. apply Forall_forall. intros k Hk%R3.
    assert (i < next b0)%nat by (apply Hb; left). lia.
  - intros p' b i Hb. rewrite returned_app. destruct (decide (p' = p)) as [->|Hne].
    + assert (Eb' : batch Q' p = b) by (unfold batch; by rewrite Hb). rewrite Eb' in Hn. intros [Hi|Hi]%elem_of_app; [apply (O3 p b0 i HS) in Hi; lia|apply R3 in Hi; lia].
    + rewrite Hnew, app_nil_r by done. rewrite (t_others _ _ _ _ _ S) in Hb by done. by apply O3.
Qed.

Lemma in_range_nil p st : in_range p st 0 [].
Proof. split; [by intros x ?%elem_of_nil|constructor|by intros i ?%elem_of_nil]. Qed.

Lemma own_lt q a1 l p ph a2 s : sinv q (a1 ++ mkExec l p ph :: a2) s → (p < fresh q)%N.
Proof. intros H. apply (i_fresh _ _ _ _ _ (v_q H)). apply (act_heap H (mkExec l p ph)). apply elem_of_mid. by right. Qed.

Lemma hand_quiet p Q o Q' s s' : hand_ok Q o → bstep p Q s Q' s' → is_Some (batches Q !! p) → (p < fresh Q)%N →
  (next (batch Q p) ≤ next (batch Q' p))%nat → hand_ok Q' o.
Proof. intros O S Hb Hlt Hn. rewrite <- (app_nil_r o). apply (hand_bstep p Q o Q' [] 0 s s'); [done..|apply in_range_nil|lia]. Qed.

Lemma hand_delete Q o p : hand_ok Q o → hand_ok (set_batches (delete p (batches Q)) Q) o.
Proof. intros [O1 O2 O3]. constructor; [done..|]. cbn. intros p' b i [_ Hb]%lookup_delete_Some. by apply O3. Qed.

Lemma end_hand q a1 l p y a2 s o : sinv q (a1 ++ mkExec l p (Ending y) :: a2) s → tryBatch (job q p) = true → hand_ok q o → hand_ok (batchEnd l p y q) o.
Proof.
  intros H Ht O. destruct (bs_batch H Ht) as [HS HB]. destruct (ending_ok H) as (_ & Hf & _).
  destruct (releaseAll_ctx _ _ p q s (step_bctx H Ht) (b_groupN _ _ _ _ HB) Hf) as (s1 & _ & S1 & _ & En & _).
  set (q1 := releaseTryBatchClaimsLocked p q) in *.
  assert (O1 : hand_ok q1 o) by (eapply (hand_quiet p q); [exact O|exact S1|exact HS|by eapply own_lt|lia]).
  destruct (ending_released H Ht) as (s2 & _ & H2 & _ & _ & _ & Hk). fold q1 in H2, Hk.
  pose proof (v_ref _ _ _ H2) as HR. rewrite acts_app, acts_cons in HR. simpl in HR. unfold batchEnd. fold q1. destruct y.
  - destruct (yield_refines q1 _ _ _ _ _ _ HR Hk) as (_ & _ & HE). eapply hand_evolves; [exact O1|].
    eapply evolves_trans; [exact HE|apply evolves_updLane].
  - destruct (finish_refines HR) as (_ & _ & HE). eapply (hand_evolves _ _ (again l _) [] []); [|apply evolves_updLane].
    apply hand_delete. by eapply hand_evolves.
Qed.

Lemma taken_hand l p q q' a o s : sinv q a s → take l (enter l q) = Some (p, q') → hand_ok q o → hand_ok q' o.
Proof.
  intros H Ht O. destruct (take_refines l p _ q' _ _ s (v_ref _ _ _ (sinv_enter l q a s H)) Ht) as (_ & _ & HE & _).
  eapply (hand_evolves (enter l q)); [|exact HE]. apply (hand_evolves q o _ [] []); [done|apply evolves_updLane].
Qed.

(** A group is finished: what it hands back are targets that it gives up. *)
Lemma group_hand q a1 l p a2 s o rs fences : sinv q (a1 ++ mkExec l p Running :: a2) s → tryBatch (job q p) = true → hand_ok q o →
  let q1 := finishTryBatchGroupLocked fences p (next (batch q p)) (groupRan rs p q) in
  let o1 := o ++ collectHandBacks p (next (batch q p)) (groupN (batch q p)) q1 in
  hand_ok q1 o1 ∧ ∀ fenced fences', hand_ok (prepareTryBatchGroupLocked fenced fences' p q1) o1.
Proof.
  intros H Ht O q1 o1. destruct (running_planned H Ht) as (Hp & Hg & _).
  destruct (finish_ctx _ _ p rs fences (next (batch q p)) q s (step_bctx H Ht) Hp Hg) as (s1 & H1 & S1 & _ & En1 & Hp1). fold q1 in H1, S1, En1, Hp1.
  destruct (bs_batch H Ht) as [HS _]. assert (O1 : hand_ok q1 o1).
  { eapply (hand_bstep p q); [exact O|exact S1|exact HS|by eapply own_lt|apply collect_range|lia]. }
  split; [exact O1|]. intros fenced fences'.
  destruct (prepareLoop_ctx _ _ p fenced fences' tryBatchGroup 0 q1 s1 eq_refl H1 Hp1) as (s2 & _ & S2 & _ & En2 & _).
  fold (prepareTryBatchGroupLocked fenced fences' p q1) in S2, En2. eapply (hand_quiet p q1); [exact O1|exact S2|exact (c_some _ _ _ _ _ H1)| |lia].
  pose proof (t_fresh _ _ _ _ _ S1). pose proof (own_lt _ _ _ _ _ _ _ H). lia.
Qed.

Lemma work_hand S S' s : sinv (sq S) (act S) s → hand_ok (sq S) (handedBack S) → work_step S S' → hand_ok (sq S') (handedBack S').
Proof.
  intros H O Hs.
  destruct Hs as [p c l ph q a1 a2 o Hc|q a o Ha|q a o Ha|l q a o Hw Ht|l p q q' a o Hw Ht Hb|fenced fences l p q q' a o Hw Ht Hb|
    l p r q a1 a2 o Ht|rs fences fenced fences' l p q q' a1 a2 o Ht -> Hlt|rs fences sl l p q q' a1 a2 o Ht -> Hlast|l p q a1 a2 o Ht|l p yield q a1 a2 o Ht];
    cbn [sq act handedBack] in *.
  - done.
  - eapply hand_evolves; [exact O|apply (cancelAwait_refines q _ _ _ (v_ref _ _ _ H) Ha)].
  - eapply hand_evolves; [exact O|apply (startAwait_refines q _ _ _ (v_ref _ _ _ H) Ha)].
  - eapply (hand_evolves q); [exact O|]. unfold workNone. destruct (stopping (enter l q) && _); by apply (evolves_same q []).
  - by eapply taken_hand.
  - destruct (taken_between q a s l p q' H Ht Hb) as (s1 & H1 & Hpl).
    destruct (prepareLoop_ctx _ _ p fenced fences tryBatchGroup 0 q' s1 eq_refl (step_bctx H1 Hb) Hpl) as (s2 & _ & S2 & _ & En & _).
    fold (prepareTryBatchGroupLocked fenced fences p q') in S2, En. destruct (bs_batch H1 Hb) as [HS _].
    eapply (hand_quiet p q'); [exact (taken_hand _ _ _ _ _ _ _ H Ht O)|exact S2|exact HS|eapply own_lt; exact H1|lia].
  - unfold workDone. pose proof (v_ref _ _ _ H) as HR. rewrite acts_app, acts_cons in HR. simpl in HR.
    destruct (rerouted l (job q p) r) eqn:Er.
    + assert (Ek : continuation (job q p) = false) by (unfold rerouted in Er; destruct (continuation (job q p)); [by rewrite andb_false_r in Er|done]).
      destruct (reroute_refines q _ _ _ _ _ _ HR Ek) as (_ & _ & HE). eapply hand_evolves; [exact O|]. eapply evolves_trans; [exact HE|apply evolves_updLane].
    + destruct (finish_refines HR) as (_ & _ & HE). eapply hand_evolves; [exact O|]. eapply evolves_trans; [exact HE|apply evolves_updLane].
  - by apply (group_hand q a1 l p a2 s o rs fences H Ht O).
  - by apply (group_hand q a1 l p a2 s o rs fences H Ht O).
  - pose proof (step_bctx H Ht) as Hc. destruct (running_planned H Ht) as (Hp & _). pose proof (g_bound _ _ _ Hp) as Hb.
    set (f := λ b, mkBatch (bLane b) (items b) (claims b) (group b) (groupN b) (length (items (batch q p)))).
    destruct (updBatch_ctx _ _ p f q s Hc) as [H1 S1]; [done..|].
    assert (E : batch (setNext p (length (items (batch q p))) q) p = f (batch q p)) by exact (batch_upd p f q (c_some _ _ _ _ _ Hc)).
    change (updBatch p f q) with (setNext p (length (items (batch q p))) q) in S1.
    eapply (hand_bstep p q); [exact O|exact S1|exact (c_some _ _ _ _ _ Hc)|by eapply own_lt|apply abort_range|]. rewrite E. cbn. lia.
  - by eapply end_hand.
Qed.

Lemma hand_insert Q o l ts : hand_ok Q o → hand_ok (snd (newTryBatchJob l ts Q)) o.
Proof.
  intros [O1 O2 O3]. rewrite newTryBatchJob_eq. cbn [snd]. set (Q6 := set_batches _ _).
  assert (HF : (fresh Q < fresh Q6)%N) by (simpl; lia).
  assert (EB : batches Q6 = <[fresh Q := freshBatch l ts (fresh Q)]> (batches Q)) by done.
  assert (Hnew : returned (fresh Q) o = []) by (apply returned_other; intros x Hx E; apply O1 in Hx; lia).
  constructor; [intros x Hx%O1; lia|done|]. intros p b i. rewrite EB. intros [[<- <-]|[_ Hp]]%lookup_insert_Some; [by rewrite Hnew; intros ?%elem_of_nil|by apply O3].
Qed.

Lemma step_hand S S' s : sinv (sq S) (act S) s → hand_ok (sq S) (handedBack S) → sys_step S S' → hand_ok (sq S') (handedBack S').
Proof.
  intros H O Hs. destruct Hs as [S S' Hs|q a o|q a o|reg m prepareIO q a o|l ts q a o Hl|reg m q a o|reg m p q a1 a2 o Ht|l p q a o Hin Hl];
    cbn [sq act handedBack] in *; pose proof (v_ref _ _ _ H) as HR.
  - by eapply work_hand.
  - eapply (hand_evolves q); [exact O|]. unfold start. destruct (_ || _); [apply (evolves_refl q [])|by apply (evolves_same q [])].
  - eapply (hand_evolves q); [exact O|]. unfold stop. destruct (stopping q); [apply (evolves_refl q [])|by apply (evolves_same q [])].
  - unfold admitMessage. destruct (_ || _); [done|]. set (j := set_stage _ _ _).
    destruct (admitLocked j q) as [q' r] eqn:E. assert (Hj : newJob j) by (repeat split; try done; apply jobIDs_NoDup).
    pose proof (admitLocked_refines j q _ _ s q' r HR Hj eq_refl E) as HA.
    assert (HE : ∃ x, evolves q (jobs s) q' x) by (destruct r; [destruct HA as [_ HA]|destruct HA as (_ & HA & _)]; by eexists).
    destruct HE as [x HE]. by eapply hand_evolves.
  - unfold admitTryBatch. destruct (negb _ || _); [done|]. destruct (_ && _).
    { eapply (hand_evolves q); [exact O|apply (evolves_updLane _ _ q [])]. }
    pose proof (hand_insert q o l ts O) as O6. destruct (newTryBatchJob l ts q) as [p q6]. cbn [fst snd] in *. eapply (hand_evolves q6); [exact O6|].
    eapply evolves_trans; [|apply evolves_updLane]. by apply (evolves_same q6 []).
  - unfold tryContinueBusiness. destruct (negb _ || _); [done|]. cbn [fst].
    eapply hand_evolves; [exact O|apply (pushContinuation_refines _ _ _ _ _ _ HR (businessLane_business _ _))].
  - eapply hand_evolves; [exact O|apply (pushContinuation_refines _ _ _ _ _ _ HR (businessLane_business _ _))].
  - eapply hand_evolves; [exact O|apply (reserveAwait_refines _ _ _ _ HR)].
Qed.

(** In every reachable state [handBack] was called at most once for a target of
    a batch, in the order of the targets, and only for targets before [next]. *)
Theorem handed_back_once (short io : WorkerPoolConfig) (longConfig : option WorkerPoolConfig) (S : Sys) : reachable short io longConfig S →
  (∀ p, StronglySorted lt (returned p (handedBack S))) ∧ ∀ p b i, batches (sq S) !! p = Some b → i ∈ returned p (handedBack S) → (i < next b)%nat.
Proof.
  intros HR. assert (H : ∃ s, simulates S s ∧ hand_ok (sq S) (handedBack S)); [|destruct H as (s & _ & [_ H2 H3]); by split].
  induction HR as [|S S' _ (s & Hs & Ho) Hst].
  - eexists. split; [apply simulates_init|]. split; cbn; [by intros x ?%elem_of_nil|intros p; constructor|intros p b i; by rewrite lookup_empty].
  - destruct (simulates_step S S' s Hs Hst) as (s' & _ & H'). exists s'. split; [done|]. eapply step_hand; [apply Hs|done|done].
Qed.
