(* ===== verification/VsEnvelope.v ===== *)
(** * Stored values with their write tokens (infra/storage/versionstore)

    A value of a [RedisStore] is kept under one key as an envelope: its
    version, the tokens of the key's most recent writes, newest first, and the
    encoded value (write_token.go).  A write whose reply was lost is judged
    from the envelope the key holds afterwards. *)

From Stdlib Require Import String.
From S2P Require Import Prelude Bytes GoStr.

(** ** Errors *)

Inductive ParseErr : Type := ErrMalformedRecord.

(** ** Envelopes *)

(** The byte ['\n'] ends the version line, ['|'] separates its fields. *)
Definition newline : Z := 10.
Definition bar : Z := 124.

Record envelopeHeader := mkHeader { hVersion : Z; hTokens : list bytes; hPayload : bytes }.

Definition parseEnvelope (raw : bytes) : result ParseErr envelopeHeader :=
  match CutByte raw newline with
  | None | Some ([], _) => Err ErrMalformedRecord
  | Some (line, payload) =>
      match SplitByte line bar with
      | [] => Err ErrMalformedRecord
      | field :: tokens =>
          match ParseUint field 64 with
          | None => Err ErrMalformedRecord
          | Some version =>
              if version =? 0 then Err ErrMalformedRecord
              else if zlen tokens =? 0 then Err ErrMalformedRecord
              else if version <? zlen tokens then Err ErrMalformedRecord
              else if existsb (λ t, zlen t =? 0) tokens then Err ErrMalformedRecord
              else Ok (mkHeader version tokens payload)
          end
      end
  end.

(** The token that wrote [version], while the key still keeps it. *)
Definition tokenFor (h : envelopeHeader) (version : Z) : option bytes :=
  if (version =? 0) || (hVersion h <? version) then None
  else
    let back := hVersion h - version in
    if zlen (hTokens h) <=? back then None else hTokens h !! Z.to_nat back.

(** [buf.WriteByte('|'); buf.WriteString(t)] for each token. *)
Definition tokenFields (l : list bytes) : bytes := concat (map (λ t, bar :: t) l).

Definition buildEnvelope (payload : bytes) (version : Z) (token : bytes) (prior : list bytes) (history : Z) : bytes :=
  Itoa version ++ tokenFields (token :: ztake (history - 1) prior) ++ newline :: payload.

(** ** Writes and verdicts *)

Inductive writeKind : Type := writeCreate | writeUpdate | writeDelete.
#[export] Instance writeKind_eq_dec : EqDecision writeKind.
Proof. solve_decision. Defined.

(** One write of one key exactly as sent; [pwBase = None] means that the key
    must be absent. *)
Record pendingWrite := mkWrite {
  pwKind : writeKind;
  pwKey : bytes;
  pwBase : option bytes;
  pwNext : bytes;
  pwToken : bytes;
  pwVersion : Z
}.
#[export] Instance pendingWrite_eq_dec : EqDecision pendingWrite.
Proof. solve_decision. Defined.

Inductive verdict : Type := verdictUnproven | verdictApplied | verdictLost | verdictNotRun.
#[export] Instance verdict_eq_dec : EqDecision verdict.
Proof. solve_decision. Defined.

(** What became of a write, from what its key holds now ([None]: absent). *)
Definition judge (w : pendingWrite) (current : option bytes) : verdict :=
  match current with
  | None => verdictUnproven
  | Some cur =>
      if bool_decide (pwBase w = Some cur) then verdictNotRun
      else
        match parseEnvelope cur with
        | Err _ => verdictUnproven
        | Ok now =>
            if negb (zlen (pwToken w) =? 0) && bool_decide (tokenFor now (pwVersion w) = Some (pwToken w))
            then verdictApplied
            else
              match pwBase w with
              | None => verdictUnproven
              | Some b =>
                  match parseEnvelope b with
                  | Err _ => verdictUnproven
                  | Ok base =>
                      if bool_decide ((tokenFor now (hVersion base)) = (hTokens base !! 0%nat)) && (hVersion base <? hVersion now)
                      then verdictLost else verdictUnproven
                  end
              end
        end
  end.

(** ** Round trip *)

(** What [newWriteToken] produces: text without the separators. *)
Definition token_ok (t : bytes) : Prop := t ≠ [] ∧ (bar ∉ t) ∧ (newline ∉ t).

Lemma SplitByte_one s sep : sep ∉ s → SplitByte s sep = [s].
Proof.
  induction s as [|c s IH]; intros Hn; [done|]. apply not_elem_of_cons in Hn as [Hc Hn].
  cbn. destruct (Z.eqb_spec c sep); [congruence|]. by rewrite IH.
Qed.

Lemma SplitByte_app s sep rest : sep ∉ s → SplitByte (s ++ sep :: rest) sep = s :: SplitByte rest sep.
Proof.
  induction s as [|c s IH]; intros Hn; cbn; [by rewrite Z.eqb_refl|].
  apply not_elem_of_cons in Hn as [Hc Hn]. destruct (Z.eqb_spec c sep); [congruence|]. by rewrite IH.
Qed.

Lemma SplitByte_fields s l : bar ∉ s → Forall token_ok l → SplitByte (s ++ tokenFields l) bar = s :: l.
Proof.
  revert s. induction l as [|t l IH]; intros s Hs Hl.
  - unfold tokenFields; cbn. rewrite app_nil_r. by apply SplitByte_one.
  - apply Forall_cons in Hl as [(? & Ht & _) Hl].
    change (tokenFields (t :: l)) with (bar :: t ++ tokenFields l). rewrite SplitByte_app by done. by rewrite IH.
Qed.

Lemma no_newline_fields l : Forall token_ok l → newline ∉ tokenFields l.
Proof.
  induction 1 as [|t l (_ & _ & Ht) Hl IH]; [apply not_elem_of_nil|].
  change (tokenFields (t :: l)) with (bar :: t ++ tokenFields l). rewrite elem_of_cons, elem_of_app.
  intros [?|[?|?]]; [done|tauto|tauto].
Qed.

Lemma token_ok_len t : token_ok t → (zlen t =? 0) = false.
Proof. intros (Ht & _). destruct t; [done|]. rewrite zlen_cons. pose proof (zlen_nonneg t). lia. Qed.

Lemma existsb_tokens l : Forall token_ok l → existsb (λ t, zlen t =? 0) l = false.
Proof. induction 1 as [|t l Ht Hl IH]; [done|]. cbn [existsb]. by rewrite (token_ok_len t Ht). Qed.

Lemma Forall_ztake {A} (P : A → Prop) n l : Forall P l → Forall P (ztake n l).
Proof. apply Forall_take. Qed.

(** The tokens of the envelope a write leaves. *)
Definition kept (history : Z) (token : bytes) (prior : list bytes) : list bytes := token :: ztake (history - 1) prior.

Lemma zlen_ztake_le {A} n (l : list A) : zlen (ztake n l) ≤ zlen l.
Proof. unfold zlen, ztake. rewrite length_take. lia. Qed.

Lemma parse_build payload version token prior history :
  0 < version < 2^64 → token_ok token → Forall token_ok prior → zlen prior < version →
  parseEnvelope (buildEnvelope payload version token prior history) =
    Ok (mkHeader version (kept history token prior) payload).
Proof.
  intros Hv Ht Hp Hl. unfold parseEnvelope, buildEnvelope.
  assert (Hf : Forall token_ok (kept history token prior)) by (constructor; [done|by apply Forall_ztake]).
  rewrite app_assoc, CutByte_app.
  2:{ rewrite elem_of_app. intros [Hin|Hin]; [|by eapply no_newline_fields].
      apply (Itoa_no version newline ltac:(lia)) in Hin; [done|unfold newline; lia]. }
  destruct (Itoa version ++ _) as [|c line] eqn:E.
  { destruct (Itoa version); done. }
  rewrite <- E, SplitByte_fields by (done || apply Itoa_no; unfold bar; lia).
  rewrite ParseUint_Itoa by lia.
  destruct (Z.eqb_spec version 0); [lia|]. unfold kept in *.
  rewrite zlen_cons. pose proof (zlen_nonneg (ztake (history - 1) prior)).
  pose proof (zlen_ztake_le (history - 1) prior).
  destruct (Z.eqb_spec (1 + zlen (ztake (history - 1) prior)) 0); [lia|].
  destruct (Z.ltb_spec version (1 + zlen (ztake (history - 1) prior))); [lia|].
  by rewrite existsb_tokens.
Qed.

Lemma build_inj payload version token prior payload' version' token' prior' history :
  0 < version < 2^64 → token_ok token → Forall token_ok prior → zlen prior < version →
  0 < version' < 2^64 → token_ok token' → Forall token_ok prior' → zlen prior' < version' →
  buildEnvelope payload version token prior history = buildEnvelope payload' version' token' prior' history →
  version = version' ∧ token = token' ∧ payload = payload'.
Proof.
  intros ???????? E. pose proof (f_equal parseEnvelope E) as E'.
  rewrite !parse_build in E' by done. unfold kept in E'. by simplify_eq.
Qed.

Example envelope_example :
  buildEnvelope (str "x"%string) 12 (str "new"%string) [str "b"%string; str "a"%string] 2 =
    str "12|new|b"%string ++ [newline] ++ str "x"%string.
Proof. reflexivity. Qed.
