(* ===== verification/VsRedis.v ===== *)
(** * The versioned store over Redis (infra/storage/versionstore)

    The calls of a [RedisStore] ([Update], [UpdateAll], [Create], [Delete],
    each with [Resume]) as programs that read keys, send compare-and-set
    scripts and look again when a reply is lost, and the steps of any number
    of them over one Redis: a script that was sent may run at any later time,
    once, or never; its reply may be lost, whether or not it ran; a key may
    expire.  Delays, metrics and the index beside the values are left out. *)

From S2P Require Import Prelude Bytes GoStr VsEnvelope.

(** [Codec[T]] *)
Class Codec (T : Type) := { Encode : T → option bytes; Decode : bytes → option T }.

Record Versioned (T : Type) := mkVersioned { vValue : T; vVersion : Z }.
Arguments mkVersioned {T}. Arguments vValue {T}. Arguments vVersion {T}.

(** The writes that one script does, all or none; [cId] is the pointer. *)
Record Cmd := mkCmd { cId : N; cWrites : list pendingWrite }.
#[export] Instance Cmd_eq_dec : EqDecision Cmd.
Proof. solve_decision. Defined.

Inductive StoreErr (E : Type) : Type :=
| ErrConflict | ErrVersionMismatch | ErrMalformed | ErrCodec | ErrTransport | ErrMutate (e : E)
| ErrKeys | ErrNextLength | ErrWriteTokenMismatch | ErrOutcomeUnknown (resumable : option Cmd).
Arguments ErrConflict {E}. Arguments ErrVersionMismatch {E}. Arguments ErrMalformed {E}. Arguments ErrCodec {E}.
Arguments ErrTransport {E}. Arguments ErrMutate {E}. Arguments ErrKeys {E}. Arguments ErrNextLength {E}.
Arguments ErrWriteTokenMismatch {E}. Arguments ErrOutcomeUnknown {E}.

(** [MaxAttempts] and [WriteTokenHistory] of [RedisConfig]. *)
Record RedisConfig := mkConfig { MaxAttempts : Z; WriteTokenHistory : Z }.
Definition DefaultMaxAttempts : Z := 8.
Definition DefaultWriteTokenHistory : Z := DefaultMaxAttempts.

(** What [NewRedisStore] makes of a configuration; [None]: refused. *)
Definition NewRedisStore (cfg : RedisConfig) : option RedisConfig :=
  let attempts := if MaxAttempts cfg <=? 0 then DefaultMaxAttempts else MaxAttempts cfg in
  if WriteTokenHistory cfg <? 0 then None
  else Some (mkConfig attempts (if WriteTokenHistory cfg =? 0 then DefaultWriteTokenHistory else WriteTokenHistory cfg)).

Lemma NewRedisStore_ok c0 cfg : NewRedisStore c0 = Some cfg → 1 ≤ MaxAttempts cfg ∧ 1 ≤ WriteTokenHistory cfg.
Proof.
  unfold NewRedisStore, DefaultWriteTokenHistory, DefaultMaxAttempts.
  destruct (Z.ltb_spec (WriteTokenHistory c0) 0); [done|]. intros [= <-]. cbn.
  destruct (Z.leb_spec (MaxAttempts c0) 0), (Z.eqb_spec (WriteTokenHistory c0) 0); lia.
Qed.

Section Store.
Context {T E : Type} `{Codec T} (zero : T) (cfg : RedisConfig).

Abbreviation current := (option (bytes * Versioned T)).

(** ** Calls *)

Inductive Op : Type :=
| OpUpdate (key : bytes) (mutate : T → bool → result E (T * bool))
| OpUpdateAll (keys : list bytes) (mutate : list T → list bool → result E (list T * bool))
| OpCreate (key : bytes) (value : T)
| OpDelete (key : bytes) (expect : Z) (matches : option (T → bool)).

(** What a call returned. *)
Inductive Res : Type :=
| RApplied (l : list (Versioned T))
| RDeclined (l : list (option (Versioned T)))
| RNotCreated
| RErr (e : StoreErr E).

(** Where a call is: reading its keys; waiting for the reply to a script it
    sent; looking at its keys again because the outcome is open; returned.
    [vals] are the values its script writes. *)
Inductive Pc : Type :=
| Reading (remaining : Z) (got : list current) (todo : list bytes)
| Waiting (c : Cmd) (vals : list T) (ambiguous resumed : bool) (remaining : Z) (sid : N)
| Checking (c : Cmd) (vals : list T) (resumed : bool) (remaining : Z) (got : list verdict) (todo : list pendingWrite)
| Returned (r : Res).

(** What a call does next. *)
Inductive Act : Type :=
| Go (pc : Pc)
| Send (c : Cmd) (vals : list T) (ambiguous resumed : bool) (remaining : Z).

Definition opKeys (op : Op) : list bytes :=
  match op with OpUpdate k _ | OpCreate k _ | OpDelete k _ _ => [k] | OpUpdateAll ks _ => ks end.

(** The mutation of an update, as one of several keys. *)
Definition opMutate (op : Op) (vs : list T) (found : list bool) : result E (list T * bool) :=
  match op, vs, found with
  | OpUpdate _ mutate, [v], [f] =>
      match mutate v f with Ok (next, save) => Ok ([next], save) | Err e => Err e end
  | OpUpdateAll _ mutate, _, _ => mutate vs found
  | _, _, _ => Ok ([], false)
  end.

(** ** Reading and preparing *)

Definition decodeEnvelope (raw : bytes) : option (Versioned T) :=
  match parseEnvelope raw with
  | Err _ => None
  | Ok h => match Decode (hPayload h) with None => None | Some v => Some (mkVersioned v (hVersion h)) end
  end.

(** What [readRaw] makes of the bytes under a key; [None]: malformed. *)
Definition readRaw (stored : option bytes) : option current :=
  match stored with
  | None => Some None
  | Some raw => match decodeEnvelope raw with Some v => Some (Some (raw, v)) | None => None end
  end.

Definition valueOf (c : current) : T := match c with Some (_, v) => vValue v | None => zero end.
Definition foundOf (c : current) : bool := match c with Some _ => true | None => false end.
Definition versionOf (c : current) : Z := match c with Some (_, v) => vVersion v | None => 0 end.
Definition baseOf (c : current) : option bytes := fst <$> c.

Definition prepareWrite (kind : writeKind) (key : bytes) (base : option bytes) (value : T) (version : Z) (token : bytes)
    : result (StoreErr E) pendingWrite :=
  match Encode value with
  | None => Err ErrCodec
  | Some payload =>
      let write prior :=
        mkWrite kind key base (buildEnvelope payload version token prior (WriteTokenHistory cfg)) token version in
      match base with
      | None => Ok (write [])
      | Some b => match parseEnvelope b with Ok h => Ok (write (hTokens h)) | Err _ => Err ErrMalformed end
      end
  end.

(** [writes[i] = prepareWrite(...)] for every key. *)
Fixpoint prepareAll (keys : list bytes) (got : list current) (next : list T) (tokens : list bytes)
    : result (StoreErr E) (list pendingWrite) :=
  match keys, got, next, tokens with
  | k :: keys, c :: got, v :: next, t :: tokens =>
      match prepareWrite writeUpdate k (baseOf c) v (u64 (versionOf c + 1)) t with
      | Err e => Err e
      | Ok w => match prepareAll keys got next tokens with Err e => Err e | Ok ws => Ok (w :: ws) end
      end
  | _, _, _, _ => Ok []
  end.

Definition sameWrite (w : pendingWrite) (value : T) : result (StoreErr E) bool :=
  match Encode value with
  | None => Err ErrCodec
  | Some payload =>
      match parseEnvelope (pwNext w) with
      | Err _ => Err ErrMalformed
      | Ok h => Ok (bool_decide (payload = hPayload h))
      end
  end.

(** ** Outcomes *)

Definition returnErr (e : StoreErr E) : Act := Go (Returned (RErr e)).

(** The outcome stays open; a call of [UpdateAll] cannot be resumed. *)
Definition unresolved (op : Op) (c : Cmd) : Act :=
  returnErr (ErrOutcomeUnknown match op with OpUpdateAll _ _ => None | _ => Some c end).

Definition onApplied (op : Op) (c : Cmd) (vals : list T) : Act :=
  Go (Returned (RApplied
    match op with
    | OpDelete _ _ _ => []
    | OpCreate _ value => [mkVersioned value 1]
    | _ => zip_with (λ v w, mkVersioned v (pwVersion w)) vals (cWrites c)
    end)).

(** Someone else's write came first. *)
Definition onLost (op : Op) (resumed : bool) (remaining : Z) : Act :=
  match op with
  | OpCreate _ _ => Go (Returned RNotCreated)
  | OpDelete _ _ _ => returnErr ErrVersionMismatch
  | _ => if negb resumed && (remaining =? 0) then returnErr ErrConflict else Go (Reading remaining [] (opKeys op))
  end.

Definition check (c : Cmd) (vals : list T) (resumed : bool) (remaining : Z) : Act :=
  Go (Checking c vals resumed remaining [] (cWrites c)).

(** ** The turns of a call *)

(** All keys of an update or delete were read; [cid] and [tokens] are for the
    command it prepares. *)
Definition afterRead (op : Op) (remaining : Z) (got : list current) (cid : N) (tokens : list bytes) : Act :=
  match op with
  | OpCreate _ _ => returnErr ErrTransport
  | OpDelete key expect matches =>
      match got with
      | [Some (raw, v)] =>
          if negb (vVersion v =? expect) then returnErr ErrVersionMismatch
          else if match matches with Some f => negb (f (vValue v)) | None => false end then returnErr ErrVersionMismatch
          else Send (mkCmd cid [mkWrite writeDelete key (Some raw) [] [] (vVersion v)]) [] false false (MaxAttempts cfg)
      | _ => if expect =? 0 then Go (Returned (RDeclined [])) else returnErr ErrVersionMismatch
      end
  | _ =>
      if remaining <=? 0 then returnErr ErrConflict
      else
        match opMutate op (map valueOf got) (map foundOf got) with
        | Err e => returnErr (ErrMutate e)
        | Ok (next, save) =>
            if negb save then Go (Returned (RDeclined (map (fmap snd) got)))
            else if negb (zlen next =? zlen (opKeys op)) then returnErr ErrNextLength
            else
              match prepareAll (opKeys op) got next tokens with
              | Err e => returnErr e
              | Ok ws => Send (mkCmd cid ws) next false false remaining
              end
        end
  end.

(** [Resume] applies to a write of the same key. *)
Definition resumes (op : Op) (resumed : option Cmd) : option Cmd :=
  match op, resumed with
  | OpUpdateAll _ _, _ => None
  | _, Some c => if bool_decide (pwKey <$> cWrites c = opKeys op) then Some c else None
  | _, None => None
  end.

Definition resumeUpdate (op : Op) (c : Cmd) : Act :=
  match cWrites c with
  | [w] =>
      if negb (bool_decide (pwKind w = writeUpdate)) then returnErr ErrWriteTokenMismatch
      else
        match readRaw (pwBase w) with
        | None => returnErr ErrMalformed
        | Some base =>
            match opMutate op [valueOf base] [foundOf base] with
            | Err e => returnErr (ErrMutate e)
            | Ok (next, save) =>
                if negb save then returnErr ErrWriteTokenMismatch
                else
                  match next with
                  | [v] =>
                      match sameWrite w v with
                      | Err e => returnErr e
                      | Ok same => if negb same then returnErr ErrWriteTokenMismatch else check c next true (MaxAttempts cfg)
                      end
                  | _ => returnErr ErrWriteTokenMismatch
                  end
            end
        end
  | _ => returnErr ErrWriteTokenMismatch
  end.

Definition checkUpdateAll (keys : list bytes) : bool :=
  negb (zlen keys =? 0) && bool_decide (NoDup keys).

(** The first turn of a call. *)
Definition startCall (op : Op) (resumed : option Cmd) (cid : N) (tokens : list bytes) : Act :=
  match resumes op resumed, op with
  | _, OpUpdateAll keys _ =>
      if negb (checkUpdateAll keys) then returnErr ErrKeys else Go (Reading (MaxAttempts cfg) [] keys)
  | Some c, OpUpdate _ _ => resumeUpdate op c
  | Some c, OpCreate _ value =>
      match cWrites c with
      | [w] =>
          if negb (bool_decide (pwKind w = writeCreate)) then returnErr ErrWriteTokenMismatch
          else
            match sameWrite w value with
            | Err e => returnErr e
            | Ok same => if negb same then returnErr ErrWriteTokenMismatch else check c [value] true (MaxAttempts cfg)
            end
      | _ => returnErr ErrWriteTokenMismatch
      end
  | Some c, OpDelete _ expect _ =>
      match cWrites c with
      | [w] =>
          if negb (bool_decide (pwKind w = writeDelete)) then returnErr ErrWriteTokenMismatch
          else if negb (pwVersion w =? expect) then returnErr ErrWriteTokenMismatch
          else check c [] true (MaxAttempts cfg)
      | _ => returnErr ErrWriteTokenMismatch
      end
  | None, OpCreate key value =>
      match tokens with
      | token :: _ =>
          match prepareWrite writeCreate key None value 1 token with
          | Err e => returnErr e
          | Ok w => Send (mkCmd cid [w]) [value] false false (MaxAttempts cfg)
          end
      | [] => returnErr ErrTransport
      end
  | _, _ => Go (Reading (MaxAttempts cfg) [] (opKeys op))
  end.

(** The reply arrived. *)
Definition afterReply (op : Op) (c : Cmd) (vals : list T) (ambiguous resumed : bool) (remaining : Z) (applied : bool) : Act :=
  if applied then onApplied op c vals
  else if negb ambiguous then onLost op resumed remaining
  else check c vals resumed remaining.

(** The server refused the script, or it never left ([replyNotLost]). *)
Definition afterRefused (op : Op) (c : Cmd) (vals : list T) (ambiguous resumed : bool) (remaining : Z) : Act :=
  if negb ambiguous then returnErr ErrTransport else check c vals resumed remaining.

(** [judgeAll]: the strongest of the verdicts on the keys. *)
Definition judgeAll (vs : list verdict) : verdict :=
  if bool_decide (verdictApplied ∈ vs) then verdictApplied
  else if bool_decide (verdictLost ∈ vs) then verdictLost
  else if bool_decide (verdictNotRun ∈ vs) then verdictNotRun
  else verdictUnproven.

(** All keys were looked at; [canceled] is whether the context is. *)
Definition afterCheck (op : Op) (c : Cmd) (vals : list T) (resumed : bool) (remaining : Z) (got : list verdict) (canceled : bool) : Act :=
  match judgeAll got with
  | verdictApplied => onApplied op c vals
  | verdictLost => onLost op resumed remaining
  | verdictUnproven => unresolved op c
  | verdictNotRun =>
      if remaining <=? 0 then unresolved op c
      else if canceled then unresolved op c
      else Send c vals true resumed remaining
  end.

(** ** Redis *)

(** The compare of a script, and its writes. *)
Definition compares (raw : gmap bytes bytes) (c : Cmd) : bool :=
  forallb (λ w, bool_decide (raw !! pwKey w = pwBase w)) (cWrites c).

Definition writeOne (raw : gmap bytes bytes) (w : pendingWrite) : gmap bytes bytes :=
  match pwKind w with writeDelete => delete (pwKey w) raw | _ => <[pwKey w := pwNext w]> raw end.

Definition runScript (raw : gmap bytes bytes) (c : Cmd) : gmap bytes bytes * bool :=
  if compares raw c then (foldl writeOne raw (cWrites c), true) else (raw, false).

(** ** The world *)

Record Call := mkCall {
  clOp : Op;
  clPc : Pc;
  clCmds : list Cmd             (** the commands it sent *)
}.

(** What happened to the keys, oldest first. *)
Inductive Event : Type := Landed (c : Cmd) | Expired (key : bytes).

Record World := mkWorld {
  raw : gmap bytes bytes;
  sends : gmap N Cmd;           (** every script ever sent *)
  flying : gmap N Cmd;          (** those that have not run *)
  replies : gmap N bool;        (** what the scripts that ran answered *)
  calls : gmap N Call;
  log : list Event;
  used : gset bytes;            (** the tokens drawn so far *)
  handed : list Cmd;            (** the commands callers may resume *)
  fresh : N
}.

Definition start_world : World := mkWorld ∅ ∅ ∅ ∅ ∅ [] ∅ [] 0.

(** The command an error lets its caller resume. *)
Definition resumable (pc : Pc) : list Cmd :=
  match pc with Returned (RErr (ErrOutcomeUnknown (Some c))) => [c] | _ => [] end.

(** A call does [a]. *)
Definition perform (i : N) (op : Op) (cmds : list Cmd) (a : Act) (W : World) : World :=
  match a with
  | Go pc =>
      mkWorld (raw W) (sends W) (flying W) (replies W) (<[i := mkCall op pc cmds]> (calls W)) (log W) (used W)
        (resumable pc ++ handed W) (fresh W + 1)
  | Send c vals ambiguous resumed remaining =>
      let sid := fresh W in
      mkWorld (raw W) (<[sid := c]> (sends W)) (<[sid := c]> (flying W)) (replies W)
        (<[i := mkCall op (Waiting c vals ambiguous resumed (remaining - 1) sid) (c :: cmds)]> (calls W))
        (log W) (used W) (handed W) (fresh W + 1)
  end.

Definition draw (tokens : list bytes) (W : World) : World :=
  mkWorld (raw W) (sends W) (flying W) (replies W) (calls W) (log W) (list_to_set tokens ∪ used W) (handed W) (fresh W + 1).

(** [newWriteToken]: one new token for each key. *)
Definition new_tokens (op : Op) (tokens : list bytes) (W : World) : Prop :=
  length tokens = length (opKeys op) ∧ NoDup tokens ∧ Forall token_ok tokens ∧ Forall (λ t, t ∉ used W) tokens.

Inductive step : World → World → Prop :=
| st_start i op resumed tokens W :
    calls W !! i = None → new_tokens op tokens W → (∀ c, resumed = Some c → c ∈ handed W) →
    step W (perform i op [] (startCall op resumed (fresh W) tokens) (draw tokens W))
(** A read of one key, and the turn after the last one. *)
| st_read i op remaining got k todo cmds c W :
    calls W !! i = Some (mkCall op (Reading remaining got (k :: todo)) cmds) →
    readRaw (raw W !! k) = Some c →
    step W (perform i op cmds (Go (Reading remaining (got ++ [c]) todo)) W)
| st_decide i op remaining got cmds tokens W :
    calls W !! i = Some (mkCall op (Reading remaining got []) cmds) → new_tokens op tokens W →
    step W (perform i op cmds (afterRead op remaining got (fresh W) tokens) (draw tokens W))
| st_malformed i op remaining got k todo cmds W :
    calls W !! i = Some (mkCall op (Reading remaining got (k :: todo)) cmds) →
    readRaw (raw W !! k) = None →
    step W (perform i op cmds (returnErr ErrMalformed) W)
| st_readFailed i op remaining got k todo cmds W :
    calls W !! i = Some (mkCall op (Reading remaining got (k :: todo)) cmds) →
    step W (perform i op cmds (returnErr ErrTransport) W)
(** A script runs. *)
| st_run sid c W :
    flying W !! sid = Some c →
    step W (mkWorld (fst (runScript (raw W) c)) (sends W) (delete sid (flying W))
              (<[sid := snd (runScript (raw W) c)]> (replies W)) (calls W)
              (if snd (runScript (raw W) c) then log W ++ [Landed c] else log W) (used W) (handed W) (fresh W))
| st_reply i op c vals ambiguous resumed remaining sid cmds applied W :
    calls W !! i = Some (mkCall op (Waiting c vals ambiguous resumed remaining sid) cmds) →
    replies W !! sid = Some applied →
    step W (perform i op cmds (afterReply op c vals ambiguous resumed remaining applied) W)
| st_refused i op c vals ambiguous resumed remaining sid cmds W :
    calls W !! i = Some (mkCall op (Waiting c vals ambiguous resumed remaining sid) cmds) →
    is_Some (flying W !! sid) →
    step W (perform i op cmds (afterRefused op c vals ambiguous resumed remaining)
              (mkWorld (raw W) (sends W) (delete sid (flying W)) (replies W) (calls W) (log W) (used W) (handed W) (fresh W)))
(** The reply does not arrive. *)
| st_lost i op c vals ambiguous resumed remaining sid cmds W :
    calls W !! i = Some (mkCall op (Waiting c vals ambiguous resumed remaining sid) cmds) →
    step W (perform i op cmds (check c vals resumed remaining) W)
| st_look i op c vals resumed remaining got w todo cmds W :
    calls W !! i = Some (mkCall op (Checking c vals resumed remaining got (w :: todo)) cmds) →
    step W (perform i op cmds (Go (Checking c vals resumed remaining (got ++ [judge w (raw W !! pwKey w)]) todo)) W)
| st_judge i op c vals resumed remaining got cmds canceled W :
    calls W !! i = Some (mkCall op (Checking c vals resumed remaining got []) cmds) →
    step W (perform i op cmds (afterCheck op c vals resumed remaining got canceled) W)
| st_lookFailed i op c vals resumed remaining got w todo cmds W :
    calls W !! i = Some (mkCall op (Checking c vals resumed remaining got (w :: todo)) cmds) →
    step W (perform i op cmds (unresolved op c) W)
(** The TTL of a key ends. *)
| st_expire k W :
    is_Some (raw W !! k) →
    step W (mkWorld (delete k (raw W)) (sends W) (flying W) (replies W) (calls W) (log W ++ [Expired k]) (used W) (handed W) (fresh W)).

Inductive reachable : World → Prop :=
| reach_start : reachable start_world
| reach_step W W' : reachable W → step W W' → reachable W'.

End Store.

Arguments OpUpdate {T E}. Arguments OpUpdateAll {T E}. Arguments OpCreate {T E}. Arguments OpDelete {T E}.
Arguments RApplied {T E}. Arguments RDeclined {T E}. Arguments RNotCreated {T E}. Arguments RErr {T E}.
Arguments Reading {T E}. Arguments Waiting {T E}. Arguments Checking {T E}. Arguments Returned {T E}.
Arguments Go {T E}. Arguments Send {T E}.
Arguments mkCall {T E}. Arguments clOp {T E}. Arguments clPc {T E}. Arguments clCmds {T E}.
Arguments mkWorld {T E}. Arguments raw {T E}. Arguments sends {T E}. Arguments flying {T E}. Arguments replies {T E}. Arguments calls {T E}.
Arguments log {T E}. Arguments used {T E}. Arguments handed {T E}. Arguments fresh {T E}. Arguments start_world {T E}.
