(* ===== verification/VsInv.v ===== *)
(** * The invariant of the versioned store

    Every envelope stored is the outcome of a chain of writes, each of which
    replaced the one before it; a command whose base was replaced can never
    land again; and every call knows what became of the commands it gave up. *)

From S2P Require Import Prelude Bytes GoStr VsEnvelope VsRedis.

Section Inv.
Context {T E : Type} `{Codec T} (zero : T) (cfg : RedisConfig).

Abbreviation World := (World (T:=T) (E:=E)).
Abbreviation Op := (Op (T:=T) (E:=E)).
Abbreviation Pc := (Pc (T:=T) (E:=E)).
Abbreviation Res := (Res (T:=T) (E:=E)).
Abbreviation history := (WriteTokenHistory cfg).

(** ** Chains of writes *)

Definition landed (W : World) (c : Cmd) : Prop := Landed c ∈ log W.

(** [w] landed and left [b] under [k]. *)
Definition storedBy (W : World) (w : pendingWrite) (k b : bytes) : Prop :=
  ∃ c, landed W c ∧ w ∈ cWrites c ∧ pwKind w ≠ writeDelete ∧ pwKey w = k ∧ pwNext w = b.

(** The tokens of [w] and of the writes it builds on, newest first. *)
Inductive anc (W : World) : pendingWrite → list bytes → Prop :=
| anc_new w payload :
    pwKind w ≠ writeDelete → pwBase w = None → pwVersion w = 1 → token_ok (pwToken w) →
    pwNext w = buildEnvelope payload 1 (pwToken w) [] history → anc W w [pwToken w]
| anc_next w e l b payload :
    pwKind w ≠ writeDelete → pwBase w = Some b → storedBy W e (pwKey w) b → anc W e l →
    pwVersion w = zlen l + 1 → token_ok (pwToken w) →
    pwNext w = buildEnvelope payload (zlen l + 1) (pwToken w) (ztake history l) history →
    anc W w (pwToken w :: l).

Lemma anc_facts W w l : anc W w l →
  pwVersion w = zlen l ∧ 0 < zlen l ∧ hd_error l = Some (pwToken w) ∧ Forall token_ok l ∧ token_ok (pwToken w) ∧ pwKind w ≠ writeDelete.
Proof.
  induction 1 as [w p Hk Hb Hv Ht Hn|w e l b p Hk Hb He Ha IH Hv Ht Hn].
  - rewrite zlen_cons, zlen_nil. split_and!; try done; by constructor.
  - destruct IH as (_ & Hl & _ & Hf & _). rewrite zlen_cons. split_and!; try done; try lia. by constructor.
Qed.

Lemma anc_header W w l :
  1 ≤ history → anc W w l → zlen l < 2^64 →
  ∃ payload, parseEnvelope (pwNext w) = Ok (mkHeader (zlen l) (ztake history l) payload).
Proof.
  intros Hh Ha Hl. pose proof (anc_facts _ _ _ Ha) as (_ & Hpos & _).
  assert (Hk : ∀ (t : bytes) l', kept history t (ztake history l') = ztake history (t :: l')).
  { intros t l'. unfold kept, ztake. rewrite take_take. replace (Z.to_nat history) with (S (Z.to_nat (history - 1))) by lia.
    cbn [take]. do 2 f_equal. lia. }
  destruct Ha as [w p Hd Hb Hv Ht Hn|w e l b p Hd Hb He Ha Hv Ht Hn]; exists p; rewrite Hn, parse_build.
  - by rewrite <- (Hk (pwToken w) []), (ztake_all history []) by (rewrite zlen_nil; lia).
  - lia.
  - done.
  - constructor.
  - rewrite zlen_nil. lia.
  - rewrite Hk, zlen_cons. do 2 f_equal. lia.
  - rewrite zlen_cons in Hl. pose proof (zlen_nonneg l). lia.
  - done.
  - apply Forall_ztake. by destruct (anc_facts _ _ _ Ha) as (_ & _ & _ & ? & _).
  - pose proof (zlen_ztake_le history l). lia.
Qed.

(** [tokenFor] finds the token of an ancestor. *)
Lemma tokenFor_anc n l p v t :
  tokenFor (mkHeader (zlen l) (ztake n l) p) v = Some t → 0 < v ≤ zlen l ∧ l !! Z.to_nat (zlen l - v) = Some t ∧ zlen l - v < n.
Proof.
  unfold tokenFor; cbn [hVersion hTokens]. intros Ht.
  destruct (Z.eqb_spec v 0); [done|]. destruct (Z.ltb_spec (zlen l) v); [done|]. cbn [orb] in Ht.
  destruct (Z.leb_spec (zlen (ztake n l)) (zlen l - v)); [done|].
  unfold ztake in *. apply lookup_take_Some in Ht as [Ht Hn]. split_and!; [|lia|done|lia].
  apply lookup_lt_Some in Ht. unfold zlen in *. rewrite length_take in *. lia.
Qed.

Lemma tokenFor_found n l p v t :
  0 < v ≤ zlen l → l !! Z.to_nat (zlen l - v) = Some t → zlen l - v < n →
  tokenFor (mkHeader (zlen l) (ztake n l) p) v = Some t.
Proof.
  intros Hv Hl Hn. unfold tokenFor; cbn [hVersion hTokens].
  destruct (Z.eqb_spec v 0); [lia|]. destruct (Z.ltb_spec (zlen l) v); [lia|]. cbn [orb].
  destruct (Z.leb_spec (zlen (ztake n l)) (zlen l - v)).
  - apply lookup_lt_Some in Hl. unfold ztake, zlen in *. rewrite length_take in *. lia.
  - unfold ztake. rewrite lookup_take_lt by lia. done.
Qed.

(** A token among those of [w] is that of a write that landed, or of [w]
    itself; the one after it is that of a write that replaced it. *)
Lemma anc_member W w l i t :
  anc W w l → l !! i = Some t → (i = 0%nat ∧ pwToken w = t) ∨ ∃ e k b l', storedBy W e k b ∧ pwToken e = t ∧ anc W e l' ∧ l' = drop i l.
Proof.
  intros Ha. revert i. induction Ha as [w p Hk Hb Hv Ht Hn|w e l b p Hk Hb He Ha IH Hv Ht Hn]; intros [|i] Hi; cbn in Hi; simplify_eq; try (left; done).
  right. destruct (IH i Hi) as [[-> <-]|(e' & k & b' & l' & He' & Ht' & Ha' & ->)]; [by exists e, (pwKey w), b, l|].
  exists e', k, b', (drop i l). done.
Qed.

Lemma anc_step W w l i t t' :
  anc W w l → l !! S i = Some t → l !! i = Some t' →
  ∃ x e b, pwToken x = t' ∧ pwToken e = t ∧ pwBase x = Some b ∧ storedBy W e (pwKey x) b ∧ pwKey x = pwKey w ∧ pwKind x ≠ writeDelete ∧
    (x = w ∨ ∃ k b', storedBy W x k b').
Proof.
  intros Ha. revert i. induction Ha as [w p Hk Hb Hv Ht Hn|w e l b p Hk Hb He Ha IH Hv Ht Hn]; intros i Hi Hj; [done|].
  destruct i as [|i]; cbn in *; simplify_eq.
  - exists w, e, b. split_and!; try done; [|by left].
    pose proof (anc_facts _ _ _ Ha) as (_ & _ & Hh & _). destruct l; simplify_eq/=. congruence.
  - destruct (IH i Hi Hj) as (x & e' & b' & Hx & He' & Hxb & Hst & Hkx & Hdx & Hor). exists x, e', b'. split_and!; try done.
    + destruct He as (? & _ & _ & _ & ? & _). congruence.
    + right. destruct Hor as [->|?]; [by exists (pwKey w), b|done].
Qed.

(** ** What calls know *)

Definition sent (W : World) (c : Cmd) : Prop := ∃ sid, sends W !! sid = Some c.

(** The base of [w] was replaced. *)
Definition superseded (W : World) (w : pendingWrite) : Prop :=
  ∃ b, pwBase w = Some b ∧ raw W !! pwKey w ≠ Some b.

Definition holds (pc : Pc) (c : Cmd) : Prop :=
  match pc with Waiting c' _ _ _ _ _ | Checking c' _ _ _ _ _ => c' = c | _ => False end.
Definition held (W : World) (i : N) (c : Cmd) : Prop := ∃ cl, calls W !! i = Some cl ∧ holds (clPc cl) c.

(** [c] did not land and never will. *)
Definition dead (W : World) (c : Cmd) : Prop :=
  ¬ landed W c ∧ sent W c ∧
  ((∃ w, w ∈ cWrites c ∧ superseded W w) ∨
   (∀ sid, flying W !! sid ≠ Some c) ∧ (c ∉ handed W) ∧ (∀ i, ¬ held W i c)).

(** The envelope that [w] writes is that of [v]. *)
Definition stores (v : T) (w : pendingWrite) : Prop :=
  ∃ payload tokens, Encode v = Some payload ∧ parseEnvelope (pwNext w) = Ok (mkHeader (pwVersion w) tokens payload).

(** [w] comes after what was read. *)
Definition follows (g : option (bytes * Versioned T)) (w : pendingWrite) : Prop :=
  readRaw (pwBase w) = Some g ∧ pwVersion w = versionOf g + 1.

(** [c] writes what the mutation of [op] makes of its bases. *)
Definition computes (op : Op) (c : Cmd) (vals : list T) : Prop :=
  Forall2 stores vals (cWrites c) ∧ Forall (λ w, pwKind w = writeUpdate) (cWrites c) ∧
  ∃ got, Forall2 follows got (cWrites c) ∧ opMutate op (map (valueOf zero) got) (map foundOf got) = Ok (vals, true).

Definition creates (value : T) (c : Cmd) : Prop :=
  ∃ w, cWrites c = [w] ∧ pwKind w = writeCreate ∧ pwBase w = None ∧ pwVersion w = 1 ∧ stores value w.

Definition removes (version : Z) (c : Cmd) : Prop :=
  ∃ w b v, cWrites c = [w] ∧ pwKind w = writeDelete ∧ pwVersion w = version ∧
    readRaw (pwBase w) = Some (Some (b, v)) ∧ vVersion v = version.

(** What [Returned (RApplied l)] says of the command that landed. *)
Definition returns (op : Op) (c : Cmd) (l : list (Versioned T)) : Prop :=
  pwKey <$> cWrites c = opKeys op ∧
  match op with
  | OpDelete _ expect _ => l = [] ∧ removes expect c
  | OpCreate _ value => l = [mkVersioned value 1] ∧ creates value c
  | _ => ∃ vals, computes op c vals ∧ l = zip_with (λ v w, mkVersioned v (pwVersion w)) vals (cWrites c)
  end.

Definition vals_ok (op : Op) (c : Cmd) (vals : list T) : Prop :=
  pwKey <$> cWrites c = opKeys op ∧
  match op with
  | OpDelete _ expect _ => removes expect c
  | OpCreate _ value => creates value c
  | _ => computes op c vals
  end.

(** How a command came about. *)
Definition prepared (c : Cmd) : Prop :=
  (∃ (op : Op) vals, pwKey <$> cWrites c = opKeys op ∧ computes op c vals) ∨ (∃ v, creates v c) ∨ (∃ version, removes version c).

Definition wf_write (W : World) (w : pendingWrite) : Prop :=
  match pwKind w with
  | writeDelete => pwToken w = [] ∧ ∃ b e l, pwBase w = Some b ∧ storedBy W e (pwKey w) b ∧ anc W e l ∧ pwVersion w = zlen l
  | _ => ∃ l, anc W w l ∧ pwToken w ∈ used W ∧ zlen l ≤ zlen (log W) + 1
  end.

Record wf_cmd (W : World) (c : Cmd) : Prop := {
  wf_some : cWrites c ≠ [];
  wf_keys : NoDup (pwKey <$> cWrites c);
  wf_writes : Forall (wf_write W) (cWrites c);
  wf_prepared : prepared c
}.

Definition got_ok (W : World) (k : bytes) (g : option (bytes * Versioned T)) : Prop :=
  match g with None => True | Some (b, v) => readRaw (Some b) = Some g ∧ ∃ e, storedBy W e k b end.

Definition verdict_ok (W : World) (c : Cmd) (w : pendingWrite) (v : verdict) : Prop :=
  match v with
  | verdictApplied => landed W c
  | verdictLost => ¬ landed W c ∧ superseded W w
  | verdictNotRun => is_Some (pwBase w)
  | verdictUnproven => True
  end.

(** Every command but [c] is dead. *)
Definition others_dead (W : World) (cmds : list Cmd) (c : Cmd) : Prop := ∀ c', c' ∈ cmds → c' = c ∨ dead W c'.

Definition res_ok (W : World) (op : Op) (cmds : list Cmd) (r : Res) : Prop :=
  match r with
  | RApplied l => ∃ c, landed W c ∧ returns op c l ∧ others_dead W cmds c
  | RErr (ErrOutcomeUnknown _) => ∀ c', c' ∈ cmds → head cmds = Some c' ∨ dead W c'
  | _ => Forall (dead W) cmds
  end.

(** Only the call [i] has sent [c], and only once. *)
Definition sole (W : World) (i : N) (c : Cmd) (sid : N) : Prop :=
  (∀ sid', sends W !! sid' = Some c → sid' = sid) ∧ (c ∉ handed W) ∧ ∀ j, j ≠ i → ¬ held W j c.

Definition call_ok (W : World) (i : N) (op : Op) (pc : Pc) (cmds : list Cmd) : Prop :=
  match pc with
  | Reading _ got todo =>
      Forall (dead W) cmds ∧ ∃ ks, opKeys op = ks ++ todo ∧ Forall2 (got_ok W) ks got ∧ NoDup (opKeys op) ∧ opKeys op ≠ []
  | Waiting c vals ambiguous resumed _ sid =>
      sends W !! sid = Some c ∧ vals_ok op c vals ∧ (ambiguous = false → sole W i c sid) ∧
      head cmds = Some c ∧ others_dead W cmds c ∧ NoDup (opKeys op) ∧ opKeys op ≠ []
  | Checking c vals resumed _ got todo =>
      sent W c ∧ vals_ok op c vals ∧ (cmds = [] ∨ head cmds = Some c) ∧ others_dead W cmds c ∧
      (∃ ws, cWrites c = ws ++ todo ∧ Forall2 (verdict_ok W c) ws got) ∧ NoDup (opKeys op) ∧ opKeys op ≠ []
  | Returned r => res_ok W op cmds r
  end.

(** ** The invariant *)

Definition landedCmds (l : list Event) : list Cmd := omap (λ e, match e with Landed c => Some c | _ => None end) l.

Record inv (W : World) : Prop := {
  i_flying : ∀ sid c, flying W !! sid = Some c → sends W !! sid = Some c;
  i_replied : ∀ sid r, replies W !! sid = Some r → is_Some (sends W !! sid) ∧ flying W !! sid = None;
  i_fresh : ∀ sid c, sends W !! sid = Some c → (sid < fresh W)%N ∧ (cId c < fresh W)%N;
  i_wf : ∀ c, sent W c → wf_cmd W c;
  i_id : ∀ c c', sent W c → sent W c' → cId c = cId c' → c = c';
  i_tok : ∀ c c' w w', sent W c → sent W c' → w ∈ cWrites c → w' ∈ cWrites c' →
            pwToken w = pwToken w' → pwToken w ≠ [] → c = c' ∧ w = w';
  i_landed : ∀ c, landed W c ↔ ∃ sid, sends W !! sid = Some c ∧ replies W !! sid = Some true;
  i_version : ∀ c w, landed W c → w ∈ cWrites c → pwKind w ≠ writeDelete → pwVersion w ≤ zlen (log W);
  i_once : NoDup (landedCmds (log W));
  i_gone : ∀ c w b, landed W c → w ∈ cWrites c → pwBase w = Some b → raw W !! pwKey w ≠ Some b;
  i_next : ∀ c c' w w' b, landed W c → landed W c' → w ∈ cWrites c → w' ∈ cWrites c' →
             pwKey w = pwKey w' → pwBase w = Some b → pwBase w' = Some b → c = c';
  i_raw : ∀ k b, raw W !! k = Some b → ∃ e, storedBy W e k b;
  i_twice : ∀ sid sid' c, sends W !! sid = Some c → sends W !! sid' = Some c → sid ≠ sid' →
              ∃ w, w ∈ cWrites c ∧ is_Some (pwBase w);
  i_handed : ∀ c, c ∈ handed W → sent W c;
  i_calls : ∀ i cl, calls W !! i = Some cl → call_ok W i (clOp cl) (clPc cl) (clCmds cl)
}.

End Inv.

Section Judge.
Context {T E : Type} `{Codec T} (zero : T) (cfg : RedisConfig).
Context (history_pos : 1 ≤ WriteTokenHistory cfg).

Abbreviation World := (World (T:=T) (E:=E)).
Abbreviation history := (WriteTokenHistory cfg).
Abbreviation inv := (inv (E:=E) zero cfg).
Abbreviation anc := (anc (E:=E) cfg).

(** ** Monotonicity *)

Record grows (W W' : World) : Prop := {
  g_landed : ∀ c, landed W c → landed W' c;
  g_used : used W ⊆ used W';
  g_log : zlen (log W) ≤ zlen (log W');
  g_sent : ∀ c, sent W c → sent W' c
}.

Section Mono.
Context (W W' : World) (G : grows W W').

Lemma storedBy_mono w k b : storedBy W w k b → storedBy W' w k b.
Proof. intros (c & Hc & ?). exists c. split; [by apply (g_landed _ _ G)|done]. Qed.

Lemma anc_mono w l : anc W w l → anc W' w l.
Proof. induction 1; [by econstructor|]. econstructor; try done. by apply storedBy_mono. Qed.

Lemma wf_write_mono w : wf_write cfg W w → wf_write cfg W' w.
Proof.
  unfold wf_write. destruct (pwKind w).
  - intros (l & Ha & Hu & Hl). exists l. split_and!; [by apply anc_mono|by apply (g_used _ _ G)|]. pose proof (g_log _ _ G). lia.
  - intros (l & Ha & Hu & Hl). exists l. split_and!; [by apply anc_mono|by apply (g_used _ _ G)|]. pose proof (g_log _ _ G). lia.
  - intros (Ht & b & e & l & Hb & He & Ha & Hv). split; [done|]. exists b, e, l.
    split_and!; [done|by apply storedBy_mono|by apply anc_mono|done].
Qed.

Lemma wf_cmd_mono c : wf_cmd (E:=E) zero cfg W c → wf_cmd (E:=E) zero cfg W' c.
Proof. intros [? ? Hw ?]. split; try done. eapply Forall_impl; [exact Hw|]. apply wf_write_mono. Qed.

Lemma got_ok_mono k (g : option (bytes * Versioned T)) : got_ok W k g → got_ok W' k g.
Proof. destruct g as [[b v]|]; [|done]. intros (? & e & He). split; [done|]. exists e. by apply storedBy_mono. Qed.

End Mono.

Lemma grows_refl W : grows W W.
Proof. by split. Qed.

(** ** Writes of one world *)

Section World.
Context (W : World) (I : inv W).

Lemma landed_sent c : landed W c → sent W c.
Proof. intros (sid & Hs & _)%(i_landed _ _ _ I). by exists sid. Qed.

Lemma storedBy_sent w k b : storedBy W w k b → ∃ c, landed W c ∧ sent W c ∧ w ∈ cWrites c.
Proof. intros (c & Hc & Hw & _). exists c. split_and!; try done. by apply landed_sent. Qed.

Lemma wf_of c w : sent W c → w ∈ cWrites c → wf_write cfg W w.
Proof. intros Hc Hw. pose proof (wf_writes _ _ _ _ (i_wf _ _ _ I c Hc)) as Hf. by eapply Forall_forall in Hf. Qed.

Lemma anc_of c w : sent W c → w ∈ cWrites c → pwKind w ≠ writeDelete → ∃ l, anc W w l ∧ zlen l ≤ zlen (log W) + 1.
Proof.
  intros Hc Hw Hk. pose proof (wf_of c w Hc Hw) as Hf. unfold wf_write in Hf.
  destruct (pwKind w); [destruct Hf as (l & ? & _ & ?); by exists l..|done].
Qed.

(** The base of a write was stored by a write that landed. *)
Lemma base_stored c w b :
  sent W c → w ∈ cWrites c → pwBase w = Some b → ∃ e l, storedBy W e (pwKey w) b ∧ anc W e l ∧
    (pwKind w = writeDelete ∨ anc W w (pwToken w :: l)).
Proof.
  intros Hc Hw Hb. pose proof (wf_of c w Hc Hw) as Hf. unfold wf_write in Hf.
  destruct (pwKind w) eqn:Ek.
  - destruct Hf as (l & Ha & _). inversion Ha; simplify_eq. eexists _, _. split_and!; [done..|by right].
  - destruct Hf as (l & Ha & _). inversion Ha; simplify_eq. eexists _, _. split_and!; [done..|by right].
  - destruct Hf as (_ & b' & e & l & Hb' & He & Ha & _). simplify_eq. exists e, l. split_and!; [done..|by left].
Qed.

(** The bytes a write leaves determine it. *)
Lemma next_inj c c' w w' :
  zlen (log W) < 2^64 - 2 → sent W c → sent W c' → w ∈ cWrites c → w' ∈ cWrites c' →
  pwKind w ≠ writeDelete → pwKind w' ≠ writeDelete → pwNext w = pwNext w' → c = c' ∧ w = w'.
Proof.
  intros Hbound Hc Hc' Hw Hw' Hk Hk' En.
  destruct (anc_of c w Hc Hw Hk) as (l & Ha & Hl). destruct (anc_of c' w' Hc' Hw' Hk') as (l' & Ha' & Hl').
  pose proof (anc_facts _ _ _ _ Ha) as (_ & Hp & Hh & _ & Ht & _).
  pose proof (anc_facts _ _ _ _ Ha') as (_ & Hp' & Hh' & _).
  destruct (anc_header _ _ _ _ history_pos Ha ltac:(lia)) as (p & E1).
  destruct (anc_header _ _ _ _ history_pos Ha' ltac:(lia)) as (p' & E2).
  rewrite En, E2 in E1. injection E1 as Ez Et _.
  apply (i_tok _ _ _ I c c' w w' Hc Hc' Hw Hw'); [|by destruct Ht].
  destruct l as [|t l], l' as [|t' l']; try done. cbn in Hh, Hh'. simplify_eq.
  unfold ztake in Et. destruct (Z.to_nat history) eqn:Eh; [lia|]. cbn in Et. congruence.
Qed.

(** ** A command lands once *)

Lemma compares_base c w : compares (raw W) c = true → w ∈ cWrites c → raw W !! pwKey w = pwBase w.
Proof.
  unfold compares. intros Hc Hw. rewrite forallb_forall in Hc. apply list_elem_of_In in Hw.
  apply Hc in Hw. by apply bool_decide_eq_true in Hw.
Qed.

Lemma lands_once sid c : flying W !! sid = Some c → compares (raw W) c = true → ¬ landed W c.
Proof.
  intros Hf Hc Hl. destruct (proj1 (i_landed _ _ _ I c) Hl) as (sid' & Hs' & Hr').
  assert (Hne : sid ≠ sid') by (intros ->; apply (i_replied _ _ _ I) in Hr' as [_ ?]; congruence).
  destruct (i_twice _ _ _ I sid sid' c (i_flying _ _ _ I _ _ Hf) Hs' Hne) as (w & Hw & b & Hb).
  eapply (i_gone _ _ _ I); [done..|]. rewrite <- Hb. by apply compares_base with c.
Qed.

Lemma superseded_no_land c w : w ∈ cWrites c → superseded W w → compares (raw W) c = false.
Proof.
  intros Hw (b & Hb & Hr). apply not_true_iff_false. intros Hc. apply Hr. rewrite <- Hb. by apply compares_base with c.
Qed.

(** ** The judge *)

Lemma same_key_same c w w' : sent W c → w ∈ cWrites c → w' ∈ cWrites c → pwKey w = pwKey w' → w = w'.
Proof.
  intros Hc Hw Hw' Hk. pose proof (wf_keys _ _ _ _ (i_wf _ _ _ I c Hc)) as Hn.
  apply list_elem_of_lookup in Hw as (i & Hi), Hw' as (j & Hj).
  assert (i = j) as ->; [|congruence].
  eapply NoDup_lookup; [exact Hn| |]; rewrite list_lookup_fmap; [by rewrite Hi|]. rewrite Hj; cbn. by rewrite Hk.
Qed.

(** A write whose base another write replaced did not land. *)
Lemma replaced_not_landed c w b x k b' :
  sent W c → w ∈ cWrites c → pwBase w = Some b → storedBy W x k b' → pwKey x = pwKey w → pwBase x = Some b →
  x ≠ w → ¬ landed W c.
Proof.
  intros Hc Hw Hwb (c' & Hl' & Hx & _) Hkx Hxb Hne Hl.
  assert (c' = c) as -> by (by eapply (i_next _ _ _ I c' c x w b)).
  apply Hne. by eapply same_key_same.
Qed.

Section Bytes.
Context (bound : zlen (log W) < 2^64 - 2).

Lemma applied_landed c w cur now :
  sent W c → w ∈ cWrites c → raw W !! pwKey w = Some cur → parseEnvelope cur = Ok now →
  pwToken w ≠ [] → tokenFor now (pwVersion w) = Some (pwToken w) → landed W c.
Proof.
  intros Hc Hw Hcur Hp Ht Hf. destruct (i_raw _ _ _ I _ _ Hcur) as (e & He).
  pose proof He as (ce & Hle & Hine & Hke & Hkey & Hne). pose proof (landed_sent ce Hle) as Hse.
  destruct (anc_of ce e Hse Hine Hke) as (l & Ha & Hl).
  destruct (anc_header _ _ _ _ history_pos Ha ltac:(lia)) as (p & Eh). rewrite Hne, Hp in Eh. injection Eh as ->.
  apply tokenFor_anc in Hf as (_ & Hi & _).
  destruct (anc_member _ _ _ _ _ _ Ha Hi) as [[_ E']|(e' & k & b' & l' & (c' & Hl' & Hin' & _) & E' & _)].
  - by destruct (i_tok _ _ _ I ce c e w Hse Hc Hine Hw E') as [-> _]; [congruence|].
  - by destruct (i_tok _ _ _ I c' c e' w (landed_sent c' Hl') Hc Hin' Hw E') as [-> _]; [congruence|].
Qed.

Lemma lost_dead c w cur now b base :
  sent W c → w ∈ cWrites c → raw W !! pwKey w = Some cur → parseEnvelope cur = Ok now →
  pwBase w = Some b → parseEnvelope b = Ok base →
  (pwToken w = [] ∨ tokenFor now (pwVersion w) ≠ Some (pwToken w)) →
  tokenFor now (hVersion base) = hTokens base !! 0%nat → hVersion base < hVersion now →
  ¬ landed W c ∧ superseded W w.
Proof.
  intros Hc Hw Hcur Hp Hwb Hpb Hnot Hf Hlt.
  destruct (i_raw _ _ _ I _ _ Hcur) as (e0 & He0). pose proof He0 as (c0 & Hl0 & Hin0 & Hk0 & Hkey0 & Hn0).
  destruct (anc_of c0 e0 (landed_sent c0 Hl0) Hin0 Hk0) as (l0 & Ha0 & Hb0).
  destruct (anc_header _ _ _ _ history_pos Ha0 ltac:(lia)) as (p0 & E0). rewrite Hn0, Hp in E0. injection E0 as ->.
  destruct (base_stored c w b Hc Hw Hwb) as (e & l & He & Ha & Hor).
  pose proof He as (ce & Hle & Hine & Hke & Hkey & Hne). pose proof (landed_sent ce Hle) as Hse.
  destruct (anc_of ce e Hse Hine Hke) as (l1 & Ha1 & Hl1).
  pose proof (anc_facts _ _ _ _ Ha) as (Hve & Hpos & Hhd & _ & Htok & _).
  pose proof (anc_facts _ _ _ _ Ha1) as (Hve1 & _).
  destruct (anc_header _ _ _ _ history_pos Ha ltac:(lia)) as (p & E1). rewrite Hne, Hpb in E1. injection E1 as ->.
  cbn [hVersion hTokens] in *.
  assert (Hh0 : ztake history l !! 0%nat = Some (pwToken e)).
  { destruct l; [done|]. cbn in Hhd. simplify_eq. unfold ztake. by destruct (Z.to_nat history) eqn:?; [lia|]. }
  rewrite Hh0 in Hf. apply tokenFor_anc in Hf as (Hv & Hi & Hin).
  assert (Hraw : raw W !! pwKey w ≠ Some b).
  { rewrite Hcur. intros [= ->]. rewrite Hp in Hpb. injection Hpb as Hz _ _. lia. }
  split; [|by exists b].
  destruct (lookup_lt_is_Some_2 l0 (Z.to_nat (zlen l0 - zlen l - 1))) as (t' & Ht').
  { apply lookup_lt_Some in Hi. lia. }
  replace (Z.to_nat (zlen l0 - zlen l)) with (S (Z.to_nat (zlen l0 - zlen l - 1))) in Hi by lia.
  destruct (anc_step _ _ _ _ _ _ _ Ha0 Hi Ht') as (x & e' & bx & Hx & He' & Hxb & Hst & Hkx & Hdx & Hland).
  pose proof Hst as (ce' & Hle' & Hine' & _ & _ & Hne').
  destruct (i_tok _ _ _ I ce' ce e' e (landed_sent _ Hle') Hse Hine' Hine He') as [-> ->]; [rewrite He'; by destruct Htok|].
  rewrite Hne in Hne'. subst bx.
  assert (Hxs : ∃ k b', storedBy W x k b') by (destruct Hland as [->|?]; [by exists (pwKey w), cur|done]).
  destruct Hxs as (k & b' & Hxs). eapply replaced_not_landed; [done..| |exact Hxb|]; [congruence|].
  intros ->. destruct Hor as [Hd|Ha2]; [done|].
  pose proof (anc_facts _ _ _ _ Ha2) as (Hv2 & _ & _ & _ & Ht2 & _). rewrite zlen_cons in Hv2.
  destruct Hnot as [Hn|Hn]; [by destruct Ht2|]. apply Hn. rewrite Hv2.
  apply tokenFor_found; [lia| |lia]. rewrite <- Hx in Ht'. rewrite <- Ht'. f_equal. lia.
Qed.

(** What [judge] says of a command is true. *)
Lemma judge_ok c w : sent W c → w ∈ cWrites c → verdict_ok W c w (judge w (raw W !! pwKey w)).
Proof.
  intros Hc Hw. unfold judge. destruct (raw W !! pwKey w) as [cur|] eqn:Hcur; [|done].
  case_bool_decide as Hb; [by exists cur|].
  destruct (parseEnvelope cur) as [now|] eqn:Hp; [|done].
  destruct (negb (zlen (pwToken w) =? 0) && _) eqn:Ea.
  - apply andb_true_iff in Ea as [Ht Hf]. apply bool_decide_eq_true in Hf. apply (applied_landed c w cur now); try done.
    intros E'. by rewrite E' in Ht.
  - destruct (pwBase w) as [b|] eqn:Hwb; [|done]. destruct (parseEnvelope b) as [base|] eqn:Hpb; [|done].
    destruct (bool_decide _ && _) eqn:El; [|done]. apply andb_true_iff in El as [Hf%bool_decide_eq_true Hlt%Z.ltb_lt].
    eapply lost_dead; [done..| |done|done].
    apply andb_false_iff in Ea as [Ea|Ea%bool_decide_eq_false]; [left|by right].
    apply negb_false_iff, Z.eqb_eq in Ea. by apply zlen_zero_nil.
Qed.

End Bytes.
End World.
End Judge.
