(* ===== verification/VsStep.v ===== *)
(** * Steps of the versioned store that change what Redis holds

    The invariant through drawing tokens, running, refusing and expiring, and
    what every step leaves true for the calls that do not move. *)

From S2P Require Import Prelude Bytes GoStr VsEnvelope VsRedis VsInv.

Section Step.
Context {T E : Type} `{Codec T} (zero : T) (cfg : RedisConfig).
Context (history_pos : 1 ≤ WriteTokenHistory cfg).

Abbreviation World := (World (T:=T) (E:=E)).
Abbreviation inv := (inv (E:=E) zero cfg).
Abbreviation call_ok := (call_ok (E:=E) zero).

(** ** What does not change for the calls in [P] *)

Record evolves (P : N → Prop) (W W' : World) : Prop := {
  e_grows : grows W W';
  e_dead : ∀ c, dead W c → dead W' c;
  e_lost : ∀ c w, sent W c → w ∈ cWrites c → ¬ landed W c ∧ superseded W w → ¬ landed W' c ∧ superseded W' w;
  e_sends : ∀ sid c, sends W !! sid = Some c → sends W' !! sid = Some c;
  e_sole : ∀ j c sid, P j → sends W !! sid = Some c → sole W j c sid → sole W' j c sid
}.

Section Evolve.
Context (P : N → Prop) (W W' : World) (Ev : evolves P W W').

Lemma others_dead_evolves cmds c : others_dead W cmds c → others_dead W' cmds c.
Proof. intros Ho c' Hc'. destruct (Ho c' Hc') as [?|?]; [by left|right]. by apply (e_dead _ _ _ Ev). Qed.

Lemma Forall_dead_evolves cmds : Forall (dead W) cmds → Forall (dead W') cmds.
Proof. intros Hf. eapply Forall_impl; [exact Hf|]. apply (e_dead _ _ _ Ev). Qed.

Lemma res_ok_evolves op cmds r : res_ok zero W op cmds r → res_ok zero W' op cmds r.
Proof.
  destruct r as [l|l| |e]; cbn [res_ok]; try apply Forall_dead_evolves.
  - intros (c & Hc & Hr & Ho). exists c. split_and!; [by apply (g_landed _ _ (e_grows _ _ _ Ev))|done|by apply others_dead_evolves].
  - destruct e; try apply Forall_dead_evolves. intros Hu c' Hc'.
    destruct (Hu c' Hc') as [?|?]; [by left|right]. by apply (e_dead _ _ _ Ev).
Qed.

Lemma verdict_ok_evolves c w v : sent W c → w ∈ cWrites c → verdict_ok W c w v → verdict_ok W' c w v.
Proof.
  intros Hc Hw. destruct v; cbn; [done| |by apply (e_lost _ _ _ Ev)|done].
  apply (g_landed _ _ (e_grows _ _ _ Ev)).
Qed.

Lemma verdicts_evolve c ws vs todo :
  sent W c → cWrites c = ws ++ todo → Forall2 (verdict_ok W c) ws vs → Forall2 (verdict_ok W' c) ws vs.
Proof.
  intros Hc Hw Hf. rewrite Forall2_lookup in *. intros i. specialize (Hf i).
  destruct (ws !! i) as [w|] eqn:E'; inversion Hf; constructor. apply verdict_ok_evolves; [done| |done].
  rewrite Hw. apply elem_of_app. left. by eapply list_elem_of_lookup_2.
Qed.

Lemma got_evolves ks (got : list (option (bytes * Versioned T))) : Forall2 (got_ok W) ks got → Forall2 (got_ok W') ks got.
Proof. intros Hf. eapply Forall2_impl; [exact Hf|]. intros k g. apply got_ok_mono, Ev. Qed.

(** What a call knows stays true while it does not move. *)
Lemma call_ok_evolves j op pc cmds : P j → call_ok W j op pc cmds → call_ok W' j op pc cmds.
Proof.
  intros Hj. destruct pc as [rem got todo|c vals amb resumed rem sid|c vals resumed rem got todo|r]; cbn [VsInv.call_ok].
  - intros (Hd & ks & Hk & Hg & ?). split; [by apply Forall_dead_evolves|]. exists ks. split_and!; [done|by apply got_evolves|tauto..].
  - intros (Hs & Hv & Hsole & Hh & Ho & ?). split_and!; try tauto.
    + by apply (e_sends _ _ _ Ev).
    + intros Ha. apply (e_sole _ _ _ Ev); [done|done|by apply Hsole].
    + by apply others_dead_evolves.
  - intros (Hs & Hv & Hh & Ho & (ws & Hw & Hf) & ?). split_and!; try tauto.
    + by apply (g_sent _ _ (e_grows _ _ _ Ev)).
    + by apply others_dead_evolves.
    + exists ws. split; [done|]. by eapply verdicts_evolve.
  - apply res_ok_evolves.
Qed.

(** The same for the call that moves, unless it waits for a script that only
    it has sent. *)
Lemma call_ok_moves j op pc cmds :
  (∀ c vals resumed rem sid, pc ≠ Waiting c vals false resumed rem sid) → call_ok W j op pc cmds → call_ok W' j op pc cmds.
Proof.
  intros Hn. destruct pc as [rem got todo|c vals amb resumed rem sid|c vals resumed rem got todo|r]; cbn [VsInv.call_ok].
  - intros (Hd & ks & Hk & Hg & ?). split; [by apply Forall_dead_evolves|]. exists ks. split_and!; [done|by apply got_evolves|tauto..].
  - intros (Hs & Hv & Hsole & Hh & Ho & ?). split_and!; try tauto.
    + by apply (e_sends _ _ _ Ev).
    + intros ->. exfalso. by eapply Hn.
    + by apply others_dead_evolves.
  - intros (Hs & Hv & Hh & Ho & (ws & Hw & Hf) & ?). split_and!; try tauto.
    + by apply (g_sent _ _ (e_grows _ _ _ Ev)).
    + by apply others_dead_evolves.
    + exists ws. split; [done|]. by eapply verdicts_evolve.
  - apply res_ok_evolves.
Qed.

End Evolve.

(** ** Drawing tokens *)

Lemma draw_evolves tokens W : evolves (λ _, True) W (draw tokens W).
Proof. split; try done. split; try done. cbn. set_solver. Qed.

Lemma draw_inv tokens W : inv W → inv (draw tokens W).
Proof.
  intros I. pose proof (draw_evolves tokens W) as Ev.
  split; try apply I; cbn [draw sends calls fresh].
  - intros sid c Hs. destruct (i_fresh _ _ _ I _ _ Hs). lia.
  - intros c Hc. eapply wf_cmd_mono; [apply (e_grows _ _ _ Ev)|]. by apply (i_wf _ _ _ I).
Qed.

(** ** A script is refused *)

Definition refuse (sid : N) (W : World) : World :=
  mkWorld (raw W) (sends W) (delete sid (flying W)) (replies W) (calls W) (log W) (used W) (handed W) (fresh W).

Lemma refuse_evolves sid W : evolves (λ _, True) W (refuse sid W).
Proof.
  split; try done. intros c (Hl & Hs & Hd). split_and!; [done|done|].
  destruct Hd as [?|(Hf & ? & ?)]; [by left|right]. split_and!; try done. cbn [refuse flying].
  intros sid' [_ ?]%lookup_delete_Some. by eapply Hf.
Qed.

Lemma refuse_inv sid W : inv W → inv (refuse sid W).
Proof.
  intros I. pose proof (refuse_evolves sid W) as Ev.
  split; try apply I; cbn [refuse flying sends calls].
  - intros sid' c [_ ?]%lookup_delete_Some. by apply (i_flying _ _ _ I).
  - intros sid' r Hr. destruct (i_replied _ _ _ I _ _ Hr) as [? Hf]. split; [done|]. by rewrite lookup_delete_None; right.
  - intros c Hc. eapply wf_cmd_mono; [apply (e_grows _ _ _ Ev)|]. by apply (i_wf _ _ _ I).
  - intros i cl Hi. eapply call_ok_evolves; [done..|]. by apply (i_calls _ _ _ I).
Qed.

(** ** A key expires *)

Definition expire (k : bytes) (W : World) : World :=
  mkWorld (delete k (raw W)) (sends W) (flying W) (replies W) (calls W) (log W ++ [Expired k]) (used W) (handed W) (fresh W).

Lemma landed_expire k W c : landed (expire k W) c ↔ landed W c.
Proof. unfold landed; cbn [expire log]. rewrite elem_of_app, list_elem_of_singleton. split; [|tauto]. by intros [?|?]. Qed.

Lemma superseded_expire k W w : superseded W w → superseded (expire k W) w.
Proof. intros (b & Hb & Hr). exists b. split; [done|]. cbn [expire raw]. by intros [_ ?]%lookup_delete_Some. Qed.

Lemma expire_grows k W : grows W (expire k W).
Proof. split; try done. - intros c. by rewrite landed_expire. - cbn [expire log]. autorewrite with go_len. lia. Qed.

Lemma expire_evolves k W : evolves (λ _, True) W (expire k W).
Proof.
  split; try done; [apply expire_grows| |].
  - intros c (Hl & Hs & Hd). split_and!; [by rewrite landed_expire|done|].
    destruct Hd as [(w & ? & ?)|?]; [left|by right]. exists w. split; [done|]. by apply superseded_expire.
  - intros c w _ _ [Hl Hs]. rewrite landed_expire. split; [done|]. by apply superseded_expire.
Qed.

Lemma expire_inv k W : inv W → inv (expire k W).
Proof.
  intros I. pose proof (expire_evolves k W) as Ev. pose proof (expire_grows k W) as G.
  split; try apply I; cbn [expire flying sends calls].
  - intros c Hc. eapply wf_cmd_mono; [exact G|]. by apply (i_wf _ _ _ I).
  - intros c. rewrite landed_expire. apply (i_landed _ _ _ I).
  - intros c w. rewrite landed_expire. intros Hc Hw Hk. pose proof (i_version _ _ _ I c w Hc Hw Hk). pose proof (g_log _ _ G). lia.
  - cbn [expire log]. unfold landedCmds. rewrite omap_app, app_nil_r. apply (i_once _ _ _ I).
  - intros c w b. rewrite landed_expire. cbn [expire raw]. intros Hc Hw Hb [_ Hr]%lookup_delete_Some. by eapply (i_gone _ _ _ I).
  - intros c c' w w' b. rewrite !landed_expire. apply (i_next _ _ _ I).
  - cbn [expire raw]. intros k' b [_ Hr]%lookup_delete_Some. destruct (i_raw _ _ _ I _ _ Hr) as (e & He).
    exists e. by eapply storedBy_mono.
  - intros i cl Hi. eapply call_ok_evolves; [done..|]. by apply (i_calls _ _ _ I).
Qed.

(** ** A script runs *)

Definition run (sid : N) (c : Cmd) (W : World) : World :=
  mkWorld (fst (runScript (raw W) c)) (sends W) (delete sid (flying W)) (<[sid := snd (runScript (raw W) c)]> (replies W)) (calls W)
    (if snd (runScript (raw W) c) then log W ++ [Landed c] else log W) (used W) (handed W) (fresh W).

Lemma writes_lookup (ws : list pendingWrite) (m : gmap bytes bytes) (k : bytes) :
  NoDup (pwKey <$> ws) →
  foldl writeOne m ws !! k = match list_find (λ w, pwKey w = k) ws with
                             | Some (_, w) => match pwKind w with writeDelete => None | _ => Some (pwNext w) end
                             | None => m !! k
                             end.
Proof.
  revert m. induction ws as [|w ws IH]; intros m Hn; [done|]. cbn [fmap list_fmap] in Hn. apply NoDup_cons in Hn as [Hw Hn].
  cbn [foldl list_find]. rewrite IH by done. case_decide as Hk.
  - destruct (list_find (λ w, pwKey w = k) ws) as [[j w']|] eqn:Hf.
    + apply list_find_Some in Hf as (Hj & Hk' & _). exfalso. apply Hw. rewrite Hk, <- Hk'.
      apply list_elem_of_fmap. exists w'. split; [done|]. by eapply list_elem_of_lookup_2.
    + unfold writeOne. subst k. destruct (pwKind w); [by rewrite lookup_insert_eq..|by rewrite lookup_delete_eq].
  - destruct (list_find (λ w, pwKey w = k) ws) as [[j w']|]; cbn; [done|].
    unfold writeOne. destruct (pwKind w); [by rewrite lookup_insert_ne..|by rewrite lookup_delete_ne].
Qed.

Section Run.
Context (W : World) (I : inv W) (bound : zlen (log W) + 1 < 2^64 - 2).
Context (sid : N) (c0 : Cmd) (Hfly : flying W !! sid = Some c0).

Let W' := run sid c0 W.

Lemma run_sent : sent W c0.
Proof using I Hfly. exists sid. by apply (i_flying _ _ _ I). Qed.

Lemma landed_run c : landed W' c ↔ landed W c ∨ (c = c0 ∧ compares (raw W) c0 = true).
Proof using.
  unfold landed; cbn [W' run log]. unfold runScript. destruct (compares (raw W) c0); cbn [snd].
  - rewrite elem_of_app, list_elem_of_singleton. split; [intros [?|[= ->]]; tauto|]. intros [?|[-> _]]; tauto.
  - split; [tauto|]. by intros [?|[_ ?]].
Qed.

(** What the script leaves under a key. *)
Lemma raw_run k b :
  raw W' !! k = Some b → raw W !! k = Some b ∧ (compares (raw W) c0 = true → ∀ w, w ∈ cWrites c0 → pwKey w ≠ k) ∨
    compares (raw W) c0 = true ∧ ∃ w, w ∈ cWrites c0 ∧ pwKey w = k ∧ pwNext w = b ∧ pwKind w ≠ writeDelete.
Proof using I Hfly.
  cbn [W' run raw]. unfold runScript. destruct (compares (raw W) c0) eqn:Ec; cbn [fst]; [|intros Hr; left; by split].
  rewrite writes_lookup by apply (wf_keys _ _ _ _ (i_wf _ _ _ I c0 run_sent)).
  destruct (list_find _ _) as [[j w]|] eqn:Hf.
  - apply list_find_Some in Hf as (Hj & Hk & _). apply list_elem_of_lookup_2 in Hj. intros Hb. right. split; [done|].
    exists w. destruct (pwKind w); naive_solver.
  - intros Hr. left. split; [done|]. intros _ w Hw Hk. apply list_find_None in Hf. rewrite Forall_forall in Hf. by eapply Hf.
Qed.

Lemma run_fresh : compares (raw W) c0 = true → ¬ landed W c0.
Proof using I Hfly. by eapply lands_once. Qed.

(** Bytes that were replaced do not come back. *)
Lemma stored_gone k b e : storedBy W e k b → raw W !! k ≠ Some b → raw W' !! k ≠ Some b.
Proof using I Hfly bound history_pos.
  intros (c & Hc & He & Hk & Hkey & Hn) Hr Hr'. apply raw_run in Hr' as [[? _]|(Hcm & w & Hw & Hkw & Hnw & Hkd)]; [done|].
  destruct (next_inj _ _ history_pos W I c c0 e w) as [-> _]; try done; [lia|by eapply landed_sent|apply run_sent|congruence|].
  by apply run_fresh in Hcm.
Qed.

Lemma superseded_run c w : sent W c → w ∈ cWrites c → superseded W w → superseded W' w.
Proof using I Hfly bound history_pos.
  intros Hc Hw (b & Hb & Hr). exists b. split; [done|].
  destruct (base_stored _ _ W I c w b Hc Hw Hb) as (e & l & He & _). by eapply stored_gone.
Qed.

Lemma run_grows : grows W W'.
Proof using.
  split; [intros c Hc; apply landed_run; by left|done| |done].
  cbn [W' run log]. destruct (snd _); [rewrite zlen_app, zlen_cons, zlen_nil|]; lia.
Qed.

Lemma run_evolves : evolves (λ _, True) W W'.
Proof using I Hfly bound history_pos.
  split; try done; [apply run_grows| |].
  - intros c (Hl & Hs & Hd). split_and!; [|done|].
    + rewrite landed_run. intros [?|[-> Hcm]]; [done|]. destruct Hd as [(w & Hw & Hsup)|(Hf & _)]; [|by eapply Hf].
      rewrite (superseded_no_land W c0 w) in Hcm; done.
    + destruct Hd as [(w & Hw & Hsup)|(Hf & ? & ?)]; [left|right].
      * exists w. split; [done|]. by eapply superseded_run.
      * split_and!; try done. cbn [W' run flying]. intros sid' [_ ?]%lookup_delete_Some. by eapply Hf.
  - intros c w Hc Hw [Hl Hsup]. split; [|by eapply superseded_run].
    rewrite landed_run. intros [?|[-> Hcm]]; [done|]. rewrite (superseded_no_land W c0 w) in Hcm; done.
Qed.

Lemma run_gone c w b : landed W' c → w ∈ cWrites c → pwBase w = Some b → raw W' !! pwKey w ≠ Some b.
Proof using I Hfly bound history_pos.
  rewrite landed_run. intros Hor Hw Hb.
  assert (Hc : sent W c) by (destruct Hor as [?|[-> _]]; [by eapply landed_sent|apply run_sent]).
  destruct (base_stored _ _ W I c w b Hc Hw Hb) as (e & l & He & _).
  destruct Hor as [Hl|[-> Hcm]]; [eapply stored_gone; [done|]; by eapply (i_gone _ _ _ I)|].
  intros Hr'. apply raw_run in Hr' as [[_ Hno]|(_ & w' & Hw' & Hk' & Hn' & Hd')]; [by eapply Hno|].
  pose proof He as (ce & Hle & Hine & Hke & Hkey & Hne).
  destruct (next_inj _ _ history_pos W I ce c0 e w') as [-> _]; try done; [lia|by eapply landed_sent|congruence|].
  by apply run_fresh in Hcm.
Qed.

Lemma run_next c c' w w' b :
  landed W' c → landed W' c' → w ∈ cWrites c → w' ∈ cWrites c' → pwKey w = pwKey w' →
  pwBase w = Some b → pwBase w' = Some b → c = c'.
Proof using I Hfly.
  rewrite !landed_run. intros [Hl|[-> Hcm]] [Hl'|[-> Hcm']] Hw Hw' Hk Hb Hb'; [by eapply (i_next _ _ _ I)| | |done].
  - exfalso. eapply (i_gone _ _ _ I c w b Hl Hw Hb). rewrite Hk, <- Hb'. by eapply compares_base.
  - exfalso. eapply (i_gone _ _ _ I c' w' b Hl' Hw' Hb'). rewrite <- Hk, <- Hb. by eapply compares_base.
Qed.

Lemma landedCmds_elem l c : c ∈ landedCmds l ↔ Landed c ∈ l.
Proof using.
  unfold landedCmds. rewrite list_elem_of_omap. split.
  - intros ([]& ? & ?); by simplify_eq.
  - intros ?. by exists (Landed c).
Qed.

Lemma run_landed c : landed W' c ↔ ∃ s, sends W' !! s = Some c ∧ replies W' !! s = Some true.
Proof using I Hfly.
  rewrite landed_run, (i_landed _ _ _ I). cbn [W' run sends replies].
  assert (Hrep : replies W !! sid = None).
  { destruct (replies W !! sid) as [r|] eqn:Er; [|done]. destruct (i_replied _ _ _ I _ _ Er). congruence. }
  assert (Hsnd : snd (runScript (raw W) c0) = compares (raw W) c0) by (unfold runScript; by destruct (compares (raw W) c0)).
  split.
  - intros [(s & Hs & Hr)|[-> Hcm]].
    + exists s. split; [done|]. rewrite lookup_insert_ne by congruence. done.
    + exists sid. split; [by apply (i_flying _ _ _ I)|]. by rewrite lookup_insert_eq, Hsnd, Hcm.
  - intros (s & Hs & [[<- Hr]|[? Hr]]%lookup_insert_Some).
    + right. apply (i_flying _ _ _ I) in Hfly. split; congruence.
    + left. by exists s.
Qed.

Lemma run_version c w : landed W' c → w ∈ cWrites c → pwKind w ≠ writeDelete → pwVersion w ≤ zlen (log W').
Proof using I Hfly.
  rewrite landed_run. intros [Hl|[-> Hcm]] Hw Hk.
  - pose proof (i_version _ _ _ I c w Hl Hw Hk). pose proof (g_log _ _ run_grows). lia.
  - destruct (anc_of _ _ W I c0 w run_sent Hw Hk) as (l & Ha & Hl). pose proof (anc_facts _ _ _ _ Ha) as (Hv & _).
    cbn [W' run log]. unfold runScript. rewrite Hcm. cbn [snd]. rewrite zlen_app, zlen_cons, zlen_nil. lia.
Qed.

Lemma run_raw k b : raw W' !! k = Some b → ∃ e, storedBy W' e k b.
Proof using I Hfly.
  intros [[Hr _]|(Hcm & w & Hw & Hk & Hn & Hd)]%raw_run.
  - destruct (i_raw _ _ _ I _ _ Hr) as (e & He). exists e. eapply storedBy_mono; [apply run_grows|done].
  - exists w, c0. split_and!; try done. apply landed_run. by right.
Qed.

Lemma run_inv : inv W'.
Proof using I Hfly bound history_pos.
  split; [..|intros i cl Hi; eapply call_ok_evolves; [apply run_evolves|done|]; by apply (i_calls _ _ _ I)].
  - cbn. intros s c [_ ?]%lookup_delete_Some. by apply (i_flying _ _ _ I).
  - cbn. intros s r [[<- _]|[Hne Hr]]%lookup_insert_Some.
    + rewrite lookup_delete_eq. split; [|done]. exists c0. by apply (i_flying _ _ _ I).
    + destruct (i_replied _ _ _ I _ _ Hr). split; [done|]. by rewrite lookup_delete_ne.
  - apply (i_fresh _ _ _ I).
  - intros c Hc. eapply wf_cmd_mono; [apply run_grows|]. by apply (i_wf _ _ _ I).
  - apply (i_id _ _ _ I).
  - apply (i_tok _ _ _ I).
  - apply run_landed.
  - apply run_version.
  - cbn [W' run log]. unfold runScript. destruct (compares (raw W) c0) eqn:Hcm; cbn [snd]; [|apply (i_once _ _ _ I)].
    unfold landedCmds. rewrite omap_app. apply NoDup_app. split_and!; [apply (i_once _ _ _ I)| |apply NoDup_singleton].
    intros c Hc. cbn. rewrite list_elem_of_singleton. intros ->. apply run_fresh in Hcm. apply Hcm. by apply landedCmds_elem.
  - apply run_gone.
  - apply run_next.
  - apply run_raw.
  - apply (i_twice _ _ _ I).
  - apply (i_handed _ _ _ I).
Qed.

End Run.
End Step.
