(* ===== verification/VsTurns.v ===== *)
(** * Every step keeps the invariant of the versioned store *)

From S2P Require Import Prelude Bytes GoStr VsEnvelope VsRedis VsInv VsStep.

Section Calls.
Context {T E : Type} `{Codec T} (zero : T) (cfg : RedisConfig).
Context (history_pos : 1 ≤ WriteTokenHistory cfg).

Abbreviation World := (World (T:=T) (E:=E)).
Abbreviation Op := (Op (T:=T) (E:=E)).
Abbreviation inv := (inv (E:=E) zero cfg).
Abbreviation call_ok := (call_ok (E:=E) zero).

Definition keys_ok (op : Op) : Prop := NoDup (opKeys op) ∧ opKeys op ≠ [].

Lemma held_sent W i c : inv W → held W i c → sent W c.
Proof.
  intros I (cl & Hi & Hh). pose proof (i_calls _ _ _ I i cl Hi) as Hc.
  destruct (clPc cl); cbn in Hh; try done; subst; [exists sid|]; apply Hc.
Qed.

(** ** What a turn has to establish *)

Definition goes (i : N) (op : Op) (cmds : list Cmd) (pc : Pc) (W : World) : World := perform i op cmds (Go pc) W.

(** A new command, or one the call still holds. *)
Definition again_ok (W : World) (i : N) (c : Cmd) : Prop :=
  sent W c ∧ (held W i c ∨ c ∈ handed W) ∧ ∃ w, w ∈ cWrites c ∧ is_Some (pwBase w).
Definition new_ok (W : World) (c : Cmd) : Prop :=
  wf_cmd zero cfg W c ∧ (cId c < fresh W)%N ∧ (∀ c', sent W c' → cId c' ≠ cId c) ∧
  (∀ c' w w', sent W c' → w' ∈ cWrites c' → w ∈ cWrites c → pwToken w = pwToken w' → pwToken w = []) ∧
  (∀ w w', w ∈ cWrites c → w' ∈ cWrites c → pwToken w = pwToken w' → pwToken w ≠ [] → w = w').
Definition send_ok (W : World) (i : N) (c : Cmd) (ambiguous : bool) : Prop :=
  (ambiguous = true ∧ again_ok W i c) ∨ (ambiguous = false ∧ new_ok W c).

Definition act_ok (W : World) (i : N) (op : Op) (cmds : list Cmd) (a : Act) : Prop :=
  match a with
  | Go pc => (∀ c, holds pc c ∨ c ∈ resumable pc → c ∈ handed W ∨ held W i c) ∧ call_ok (goes i op cmds pc W) i op pc cmds
  | Send c vals ambiguous resumed remaining =>
      send_ok W i c ambiguous ∧ vals_ok zero op c vals ∧ others_dead W cmds c ∧ keys_ok op
  end.

(** ** Turns that send nothing *)

Lemma held_goes i op cmds pc W j c :
  held (goes i op cmds pc W) j c ↔ (j = i ∧ holds pc c) ∨ (j ≠ i ∧ held W j c).
Proof.
  unfold held; cbn [goes perform calls]. split.
  - intros (cl & [[<- <-]|[? Hj]]%lookup_insert_Some & Hh); [by left|right]. split; [done|by exists cl].
  - intros [[-> Hh]|[Hne (cl & Hj & Hh)]]; eexists; [by rewrite lookup_insert_eq|]. by rewrite lookup_insert_ne.
Qed.

Lemma goes_evolves i op cmds pc W :
  (∀ c, holds pc c ∨ c ∈ resumable pc → c ∈ handed W ∨ held W i c) → evolves (λ j, j ≠ i) W (goes i op cmds pc W).
Proof.
  intros Hp. split; try done.
  - intros c (Hl & Hs & Hd). split_and!; [done|done|]. destruct Hd as [?|(Hf & Hh & Hn)]; [by left|right].
    split_and!; [done| |].
    + cbn [goes perform handed]. rewrite elem_of_app. intros [Hr|?]; [|done]. destruct (Hp c (or_intror Hr)); [done|by eapply Hn].
    + intros j [[-> Hh']|[_ ?]]%held_goes; [|by eapply Hn]. destruct (Hp c (or_introl Hh')); [done|by eapply Hn].
  - intros j c sid Hj Hs (H1 & H2 & H3). split_and!; [done| |].
    + cbn [goes perform handed]. rewrite elem_of_app. intros [Hr|?]; [|done].
      destruct (Hp c (or_intror Hr)) as [?|Hh]; [done|]. by eapply (H3 i).
    + intros j' Hj' [[-> Hh']|[_ ?]]%held_goes; [|by eapply H3].
      destruct (Hp c (or_introl Hh')) as [?|Hh]; [done|]. by eapply (H3 i).
Qed.

Lemma goes_inv i op cmds pc W : inv W → act_ok W i op cmds (Go pc) → inv (goes i op cmds pc W).
Proof.
  intros I [Hp Hc]. pose proof (goes_evolves i op cmds pc W Hp) as Ev. split; try apply I.
  - cbn. intros sid c Hs. destruct (i_fresh _ _ _ I _ _ Hs). lia.
  - intros c' Hc'. eapply wf_cmd_mono; [apply (e_grows _ _ _ Ev)|]. by apply (i_wf _ _ _ I).
  - cbn [goes perform handed]. intros c [Hr|Hh]%elem_of_app; [|by apply (i_handed _ _ _ I)].
    destruct (Hp c (or_intror Hr)); [by apply (i_handed _ _ _ I)|by eapply (held_sent W)].
  - intros j cl. cbn [goes perform calls]. intros [[<- <-]|[Hne Hj]]%lookup_insert_Some; [done|].
    eapply call_ok_evolves; [exact Ev|done|]. by apply (i_calls _ _ _ I).
Qed.

(** ** Turns that send a script *)

Section Sends.
Context (W : World) (I : inv W) (i : N) (op : Op) (cmds : list Cmd).
Context (c : Cmd) (vals : list T) (ambiguous resumed : bool) (remaining : Z).
Context (Hsend : send_ok W i c ambiguous).

Let W' := perform i op cmds (Send c vals ambiguous resumed remaining) W.

Lemma held_sends j c' : held W' j c' ↔ (j = i ∧ c' = c) ∨ (j ≠ i ∧ held W j c').
Proof.
  unfold held; cbn [W' perform calls]. split.
  - intros (cl & [[<- <-]|[? Hj]]%lookup_insert_Some & Hh); [by left|right]. split; [done|by exists cl].
  - intros [[-> Hh]|[Hne (cl & Hj & Hh)]]; eexists; [by rewrite lookup_insert_eq|]. by rewrite lookup_insert_ne.
Qed.

Lemma sends_fresh sid c' : sends W !! sid = Some c' → sid ≠ fresh W.
Proof. intros Hs ->. destruct (i_fresh _ _ _ I _ _ Hs). lia. Qed.

Lemma sends_spec sid c' : sends W' !! sid = Some c' ↔ (sid = fresh W ∧ c' = c) ∨ sends W !! sid = Some c'.
Proof.
  cbn [W' perform sends]. rewrite lookup_insert_Some. split; [naive_solver|].
  intros [[-> ->]|Hs]; [by left|right]. split; [|done]. intros <-. by apply sends_fresh in Hs.
Qed.

Lemma sent_sends c' : sent W' c' ↔ c' = c ∨ sent W c'.
Proof.
  unfold sent. setoid_rewrite sends_spec. split; [naive_solver|]. intros [->|(sid & ?)]; [|by exists sid; right].
  exists (fresh W). by left.
Qed.

Lemma sends_grows : grows W W'.
Proof. split; try done. intros c' ?. apply sent_sends. by right. Qed.

Lemma sends_free : ¬ sent W c ∨ held W i c ∨ c ∈ handed W.
Proof.
  destruct Hsend as [(_ & _ & ? & _)|(_ & _ & _ & Hid & _)]; [tauto|left]. intros Hc. by eapply Hid.
Qed.

Lemma sends_evolves : evolves (λ j, j ≠ i) W W'.
Proof.
  pose proof sends_free as Hfree. split; try done; [apply sends_grows| | |].
  - intros c' (Hl & Hs & Hd). split_and!; [done|apply sent_sends; by right|].
    destruct Hd as [?|(Hf & Hh & Hn)]; [by left|right].
    assert (c' ≠ c) by (intros ->; destruct Hfree as [?|[?|?]]; [done|by eapply Hn|done]).
    split_and!; [|done|].
    + cbn [W' perform flying]. intros sid [[_ ?]|[_ ?]]%lookup_insert_Some; [congruence|by eapply Hf].
    + intros j [[_ ?]|[_ ?]]%held_sends; [done|by eapply Hn].
  - intros sid c' Hs. apply sends_spec. by right.
  - intros j c' sid Hj Hs (H1 & H2 & H3).
    assert (c' ≠ c).
    { intros ->. destruct Hfree as [Hn|[?|?]]; [|by eapply (H3 i)|done]. apply Hn. by exists sid. }
    split_and!; [|done|].
    + intros sid' [[_ ?]|?]%sends_spec; [done|by apply H1].
    + intros j' Hj' [[_ ?]|[_ ?]]%held_sends; [done|by eapply H3].
Qed.

Lemma wf_sends : wf_cmd zero cfg W c.
Proof. destruct Hsend as [(_ & ? & _)|(_ & ? & _)]; [by apply (i_wf _ _ _ I)|done]. Qed.

Lemma id_sends c1 c2 : sent W' c1 → sent W' c2 → cId c1 = cId c2 → c1 = c2.
Proof.
  rewrite !sent_sends. destruct Hsend as [(_ & Hc & _)|(_ & _ & _ & Hid & _)].
  - intros [->|?] [->|?]; try done; by apply (i_id _ _ _ I).
  - intros [->|?] [->|?] Ei; [done|by exfalso; eapply Hid|by exfalso; eapply Hid|by apply (i_id _ _ _ I)].
Qed.

Lemma tok_sends c1 c2 w1 w2 :
  sent W' c1 → sent W' c2 → w1 ∈ cWrites c1 → w2 ∈ cWrites c2 → pwToken w1 = pwToken w2 → pwToken w1 ≠ [] → c1 = c2 ∧ w1 = w2.
Proof.
  rewrite !sent_sends. destruct Hsend as [(_ & Hc & _)|(_ & _ & _ & _ & Hold & Hown)].
  - intros [->|?] [->|?]; by apply (i_tok _ _ _ I).
  - intros [->|H1] [->|H2] Hw1 Hw2 Et Hn.
    + split; [done|]. by apply Hown.
    + exfalso. apply Hn. by eapply (Hold c2).
    + exfalso. apply Hn. rewrite Et. by eapply (Hold c1).
    + by apply (i_tok _ _ _ I).
Qed.

Lemma sends_call_ok :
  vals_ok zero op c vals → others_dead W cmds c → keys_ok op →
  call_ok W' i op (Waiting c vals ambiguous resumed (remaining - 1) (fresh W)) (c :: cmds).
Proof.
  intros Hv Ho [Hk1 Hk2]. cbn [VsInv.call_ok]. split_and!; try done.
  - apply sends_spec. by left.
  - intros Ha. assert (∃ x : new_ok W c, True) as [(_ & _ & Hid & _) _].
    { destruct Hsend as [[? _]|[_ ?]]; [congruence|by eexists]. }
    assert (Hn : ¬ sent W c) by (intros Hc; by eapply Hid).
    split_and!.
    + intros sid' [[? _]|Hs]%sends_spec; [done|]. exfalso. apply Hn. by exists sid'.
    + cbn. intros Hh. apply Hn. by apply (i_handed _ _ _ I).
    + intros j Hj [[? _]|[_ Hh]]%held_sends; [done|]. apply Hn. by eapply (held_sent W).
  - intros c' [->|Hc']%elem_of_cons; [by left|]. exact (others_dead_evolves _ _ _ sends_evolves cmds c Ho c' Hc').
Qed.

Lemma sends_inv :
  vals_ok zero op c vals → others_dead W cmds c → keys_ok op → inv W'.
Proof.
  intros Hv Ho Hk. pose proof sends_evolves as Ev. split; try apply I.
  - cbn. intros sid c' [[<- <-]|[_ Hf]]%lookup_insert_Some; [by rewrite lookup_insert_eq|].
    apply (i_flying _ _ _ I) in Hf. apply sends_spec. by right.
  - cbn. intros sid r Hr. destruct (i_replied _ _ _ I _ _ Hr) as [[c' Hs] Hf].
    pose proof (sends_fresh _ _ Hs). rewrite !lookup_insert_ne by done. split; [by exists c'|done].
  - intros sid c' [[-> ->]|Hs]%sends_spec; cbn [W' perform fresh].
    + destruct Hsend as [(_ & (sid & Hs) & _)|(_ & _ & ? & _)]; [|lia]. destruct (i_fresh _ _ _ I _ _ Hs). lia.
    + destruct (i_fresh _ _ _ I _ _ Hs). lia.
  - intros c' [->|Hc']%sent_sends; (eapply wf_cmd_mono; [apply sends_grows|]); [apply wf_sends|by apply (i_wf _ _ _ I)].
  - apply id_sends.
  - apply tok_sends.
  - intros c'. change (landed W' c') with (landed W c'). change (replies W') with (replies W).
    rewrite (i_landed _ _ _ I c'). setoid_rewrite sends_spec.
    split; [intros (sid & ? & ?); exists sid; tauto|]. intros (sid & [[-> _]|Hs] & Hr); [|by exists sid].
    destruct (i_replied _ _ _ I _ _ Hr) as [[c'' Hs] _]. by apply sends_fresh in Hs.
  - intros sid sid' c' [[-> ->]|Hs]%sends_spec [[-> Hc']|Hs']%sends_spec Hne; [done| | |by eapply (i_twice _ _ _ I sid sid')].
    + destruct Hsend as [(_ & _ & _ & ?)|(_ & _ & _ & Hid & _)]; [done|]. exfalso. eapply (Hid c); [|done]. by exists sid'.
    + subst c'. destruct Hsend as [(_ & _ & _ & ?)|(_ & _ & _ & Hid & _)]; [done|]. exfalso. eapply (Hid c); [|done]. by exists sid.
  - cbn. intros c' Hc'. apply sent_sends. right. by apply (i_handed _ _ _ I).
  - intros j cl. cbn [W' perform calls]. intros [[<- <-]|[Hne Hj]]%lookup_insert_Some; [by apply sends_call_ok|].
    eapply call_ok_evolves; [exact Ev|done|]. by apply (i_calls _ _ _ I).
Qed.

End Sends.

Lemma act_inv W i op cmds a : inv W → act_ok W i op cmds a → inv (perform i op cmds a W).
Proof.
  intros I Ha. destruct a as [pc|c vals amb resumed rem]; [by apply goes_inv|].
  destruct Ha as (? & ? & ? & ?). by apply sends_inv.
Qed.

End Calls.

Section Turns.
Context {T E : Type} `{Codec T} (zero : T) (cfg : RedisConfig).
Context (history_pos : 1 ≤ WriteTokenHistory cfg).

Abbreviation World := (World (T:=T) (E:=E)).
Abbreviation Op := (Op (T:=T) (E:=E)).
Abbreviation Pc := (Pc (T:=T) (E:=E)).
Abbreviation inv := (inv (E:=E) zero cfg).
Abbreviation act_ok := (act_ok (E:=E) zero cfg).

(** ** Turns that end a command *)

Definition quiet (pc : Pc) : Prop := (∀ c, ¬ holds pc c) ∧ resumable pc = [].

(** [c] is dead once the call lets go of it. *)
Definition lost_for (W : World) (i : N) (op : Op) (cmds : list Cmd) (c : Cmd) : Prop :=
  ∀ pc, quiet pc → dead (goes i op cmds pc W) c.

Local Ltac solve_quiet := split; [by intros ? ?|done].

Lemma quiet_free (W : World) i pc : quiet pc → ∀ c, holds pc c ∨ c ∈ resumable pc → c ∈ handed W ∨ held W i c.
Proof. intros [Hh ->] c [?|?%elem_of_nil]; [|done]. by exfalso; eapply Hh. Qed.

Lemma quiet_dead W i op cmds pc c : quiet pc → dead W c → dead (goes i op cmds pc W) c.
Proof. intros Hq. apply (e_dead _ _ _ (goes_evolves i op cmds pc W (quiet_free W i pc Hq))). Qed.

Lemma lost_superseded W i op cmds c w : sent W c → w ∈ cWrites c → ¬ landed W c → superseded W w → lost_for W i op cmds c.
Proof. intros Hs Hw Hl Hsup pc Hq. apply quiet_dead; [done|]. split_and!; [done..|]. left. by exists w. Qed.

Lemma lost_sole W i op cmds c :
  sent W c → ¬ landed W c → (∀ sid, flying W !! sid ≠ Some c) → c ∉ handed W → (∀ j, j ≠ i → ¬ held W j c) → lost_for W i op cmds c.
Proof.
  intros Hs Hl Hf Hh Hn pc [Hq Hr]. split_and!; [done|done|]. right. split_and!; [done| |].
  - cbn [goes perform handed]. by rewrite Hr.
  - intros j [[-> Hh']|[Hj Hh']]%held_goes; [by eapply Hq|by eapply Hn].
Qed.

Lemma quiet_cmds W i op cmds c pc : quiet pc → lost_for W i op cmds c → others_dead W cmds c → Forall (dead (goes i op cmds pc W)) cmds.
Proof.
  intros Hq Hl Ho. apply Forall_forall. intros c' Hc'. destruct (Ho c' Hc') as [->|?]; [by apply Hl|by apply quiet_dead].
Qed.

Lemma quiet_all W i op cmds pc : quiet pc → Forall (dead W) cmds → Forall (dead (goes i op cmds pc W)) cmds.
Proof. intros Hq Hf. eapply Forall_impl; [exact Hf|]. intros c. by apply quiet_dead. Qed.

Definition plain (e : StoreErr E) : Prop := match e with ErrOutcomeUnknown _ => False | _ => True end.

Lemma quiet_err e : plain e → quiet (Returned (RErr e) : Pc).
Proof. intros He. split; [by intros c Hc|]. destruct e; [done..|destruct He]. Qed.

Lemma err_ok W i op cmds e : plain e → Forall (dead W) cmds → act_ok W i op cmds (returnErr e).
Proof.
  intros He Hf. pose proof (quiet_err e He) as Hq. split; [by apply quiet_free|].
  pose proof (quiet_all W i op cmds _ Hq Hf). destruct e; [assumption..|destruct He].
Qed.

Lemma declined_ok W i op cmds l : Forall (dead W) cmds → act_ok W i op cmds (Go (Returned (RDeclined l))).
Proof. intros Hf. assert (Hq : quiet (Returned (RDeclined l) : Pc)) by solve_quiet. split; [by apply quiet_free|]. by apply quiet_all. Qed.

Lemma reading_ok W i op cmds rem : Forall (dead W) cmds → keys_ok op → act_ok W i op cmds (Go (Reading rem [] (opKeys op))).
Proof.
  intros Hf [Hk1 Hk2]. assert (Hq : quiet (Reading rem [] (opKeys op) : Pc)) by solve_quiet.
  split; [by apply quiet_free|]. split; [by apply quiet_all|]. exists []. by split_and!.
Qed.

Lemma lost_ok W i op cmds c resumed rem :
  lost_for W i op cmds c → others_dead W cmds c → keys_ok op → act_ok W i op cmds (onLost op resumed rem).
Proof.
  intros Hl Ho [Hk1 Hk2].
  assert (Herr : ∀ e, plain e → act_ok W i op cmds (returnErr e)).
  { intros e He. pose proof (quiet_err e He) as Hq. split; [by apply quiet_free|].
    pose proof (quiet_cmds W i op cmds c _ Hq Hl Ho). destruct e; [assumption..|destruct He]. }
  assert (Hread : act_ok W i op cmds (Go (Reading rem [] (opKeys op)))).
  { assert (Hq : quiet (Reading rem [] (opKeys op) : Pc)) by solve_quiet. split; [by apply quiet_free|].
    split; [by eapply quiet_cmds|]. exists []. by split_and!. }
  destruct op; unfold onLost; try (case_match; [by apply Herr|done]); [|by apply Herr].
  assert (Hq : quiet (Returned RNotCreated : Pc)) by solve_quiet. split; [by apply quiet_free|]. by eapply (quiet_cmds W i _ cmds c).
Qed.

Lemma applied_ok W i op cmds c vals :
  landed W c → vals_ok zero op c vals → others_dead W cmds c → act_ok W i op cmds (onApplied op c vals).
Proof.
  intros Hl [Hk Hv] Ho. unfold onApplied. set (l := match op with OpDelete _ _ _ => _ | _ => _ end).
  assert (Hq : quiet (Returned (RApplied l) : Pc)) by solve_quiet. split; [by apply quiet_free|].
  cbn [VsInv.call_ok res_ok]. exists c. split_and!; [done| |].
  - split; [done|]. destruct op; subst l; try by split.
    + by exists vals.
    + by exists vals.
  - intros c' Hc'. destruct (Ho c' Hc') as [?|?]; [by left|right]. by apply quiet_dead.
Qed.

(** ** Turns that keep it *)

Lemma check_ok W i op cmds c vals resumed rem :
  sent W c → vals_ok zero op c vals → (cmds = [] ∨ head cmds = Some c) → others_dead W cmds c →
  c ∈ handed W ∨ held W i c → keys_ok op → act_ok W i op cmds (check c vals resumed rem).
Proof.
  intros Hs Hv Hh Ho Hf [Hk1 Hk2].
  assert (Hp : ∀ c', holds (Checking c vals resumed rem [] (cWrites c) : Pc) c' ∨ c' ∈ resumable (Checking c vals resumed rem [] (cWrites c) : Pc) →
    c' ∈ handed W ∨ held W i c') by (intros c' [<-|?%elem_of_nil]; [exact Hf|done]).
  split; [exact Hp|]. split_and!; try done.
  - eapply others_dead_evolves; [by apply goes_evolves|done].
  - exists []. split; [done|constructor].
Qed.

Lemma unresolved_ok W i op cmds c :
  (cmds = [] ∨ head cmds = Some c) → others_dead W cmds c → c ∈ handed W ∨ held W i c →
  act_ok W i op cmds (unresolved op c).
Proof.
  intros Hh Ho Hf. unfold unresolved, returnErr.
  set (r := match op with OpUpdateAll _ _ => _ | _ => _ end).
  assert (Hr : ∀ c', holds (Returned (RErr (ErrOutcomeUnknown r)) : Pc) c' ∨ c' ∈ resumable (Returned (RErr (ErrOutcomeUnknown r)) : Pc) →
    c' ∈ handed W ∨ held W i c').
  { intros c' [?|Hc']; [done|]. assert (c' = c) as ->; [|done]. cbn in Hc'. destruct op; cbn in Hc'; set_solver. }
  split; [exact Hr|]. cbn [VsInv.call_ok res_ok]. intros c' Hc'. destruct (Ho c' Hc') as [->|Hd].
  - left. destruct Hh as [->|?]; [by apply elem_of_nil in Hc'|done].
  - right. revert Hd. apply (e_dead _ _ _ (goes_evolves i op cmds _ W Hr)).
Qed.

(** Going from one key to the next. *)
Lemma advance_ok W i op cmds pc :
  inv W → (∀ c, holds pc c ∨ c ∈ resumable pc → c ∈ handed W ∨ held W i c) →
  (∀ c vals resumed rem sid, pc ≠ Waiting c vals false resumed rem sid) → call_ok zero W i op pc cmds →
  act_ok W i op cmds (Go pc).
Proof. intros I Hp Hn Hc. split; [done|]. eapply call_ok_moves; [by apply goes_evolves|done|done]. Qed.

(** ** Replies *)

Section Waits.
Context (W : World) (I : inv W) (i : N) (op : Op) (cmds : list Cmd).
Context (c : Cmd) (vals : list T) (ambiguous resumed : bool) (remaining : Z) (sid : N).
Context (Hcall : calls W !! i = Some (mkCall op (Waiting c vals ambiguous resumed remaining sid) cmds)).

Let Hok := i_calls _ _ _ I i _ Hcall.

Lemma waiting_held : held W i c.
Proof. eexists. split; [exact Hcall|done]. Qed.

Lemma waiting_check : act_ok W i op cmds (check c vals resumed remaining).
Proof.
  destruct Hok as (Hs & Hv & Hsole & Hh & Ho & Hk). apply check_ok; try done; [by exists sid|by right|right; apply waiting_held].
Qed.

Lemma waiting_reply applied : replies W !! sid = Some applied → act_ok W i op cmds (afterReply op c vals ambiguous resumed remaining applied).
Proof.
  intros Hr. pose proof waiting_check as Hck. destruct Hok as (Hs & Hv & Hsole & Hh & Ho & Hk). cbn in Hs.
  unfold afterReply. destruct applied.
  - apply applied_ok; try done. apply (i_landed _ _ _ I). by exists sid.
  - destruct ambiguous; [done|]. cbn [negb]. destruct (Hsole eq_refl) as (H1 & H2 & H3).
    eapply lost_ok; [apply lost_sole; [by exists sid| | |done|done]|done|done].
    + intros (sid' & Hs' & Hr')%(i_landed _ _ _ I). rewrite (H1 _ Hs') in Hr'. congruence.
    + intros sid' Hf. pose proof (H1 _ (i_flying _ _ _ I _ _ Hf)) as ->. destruct (i_replied _ _ _ I _ _ Hr). congruence.
Qed.

End Waits.

Lemma refused_ok W i op cmds c vals ambiguous resumed remaining sid :
  inv W → calls W !! i = Some (mkCall op (Waiting c vals ambiguous resumed remaining sid) cmds) → is_Some (flying W !! sid) →
  act_ok (refuse sid W) i op cmds (afterRefused op c vals ambiguous resumed remaining).
Proof.
  intros I Hcall [c' Hf]. pose proof (refuse_inv zero cfg sid W I) as I'.
  unfold afterRefused. destruct ambiguous; cbn [negb]; [by apply (waiting_check (refuse sid W) I' i op cmds c vals true resumed remaining sid)|].
  destruct (i_calls _ _ _ I' i _ Hcall) as (Hs & Hv & Hsole & Hh & Ho & Hk). destruct (Hsole eq_refl) as (H1 & H2 & H3).
  assert (Hl : lost_for (refuse sid W) i op cmds c).
  { apply lost_sole; [by exists sid| | |done|done].
    - intros (sid' & Hs' & Hr')%(i_landed _ _ _ I'). rewrite (H1 _ Hs') in Hr'.
      destruct (i_replied _ _ _ I _ _ Hr'). congruence.
    - intros sid' Hf'. cbn in Hf'. apply lookup_delete_Some in Hf' as [Hne Hf']. apply Hne. symmetry. apply H1.
      by apply (i_flying _ _ _ I). }
  pose proof (quiet_err ErrTransport Logic.I) as Hq. split; [by apply quiet_free|]. by eapply (quiet_cmds _ i op cmds c).
Qed.

(** ** Looking again *)

Lemma judged_ok W i op cmds c vals resumed remaining got canceled :
  inv W → calls W !! i = Some (mkCall op (Checking c vals resumed remaining got []) cmds) →
  act_ok W i op cmds (afterCheck op c vals resumed remaining got canceled).
Proof.
  intros I Hcall. pose proof (i_calls _ _ _ I i _ Hcall) as (Hs & Hv & Hh & Ho & (ws & Hws & Hf) & Hk). cbn in *.
  assert (Hheld : held W i c) by (eexists; split; [exact Hcall|done]).
  rewrite app_nil_r in Hws. subst ws.
  assert (Hin : ∀ v, v ∈ got → ∃ w, w ∈ cWrites c ∧ verdict_ok W c w v).
  { intros v (j & Hj)%list_elem_of_lookup. destruct (Forall2_lookup_r _ _ _ _ _ Hf Hj) as (w & Hw & ?).
    exists w. split; [by eapply list_elem_of_lookup_2|done]. }
  pose proof (unresolved_ok W i op cmds c Hh Ho (or_intror Hheld)) as Hun.
  unfold afterCheck, judgeAll. case_bool_decide as H1.
  { destruct (Hin _ H1) as (w & Hw & Hl). by apply applied_ok. }
  case_bool_decide as H2.
  { destruct (Hin _ H2) as (w & Hw & Hl & Hsup). eapply lost_ok; [by eapply lost_superseded|done|done]. }
  case_bool_decide as H3; [|done]. destruct (remaining <=? 0); [done|]. destruct canceled; [done|].
  destruct (Hin _ H3) as (w & Hw & Hb). split_and!; try done. left. split; [done|]. split_and!; [done|by left|by exists w].
Qed.

End Turns.
