(* ===== verification/VsSafe.v ===== *)
(** * Runs of the versioned store

    New commands are well formed, so every reachable state satisfies the
    invariant. *)

From S2P Require Import Prelude Bytes GoStr VsEnvelope VsRedis VsInv VsStep VsTurns.

Section Safe.
Context {T E : Type} `{Codec T} (zero : T) (cfg : RedisConfig).
Context (history_pos : 1 ≤ WriteTokenHistory cfg).

Abbreviation World := (World (T:=T) (E:=E)).
Abbreviation Op := (Op (T:=T) (E:=E)).
Abbreviation inv := (inv (E:=E) zero cfg).
Abbreviation act_ok := (act_ok (E:=E) zero cfg).
Abbreviation current := (option (bytes * Versioned T)).

(** ** New commands *)

(** [tokens] were drawn after everything that was sent. *)
Definition untouched (W : World) (tokens : list bytes) : Prop :=
  ∀ c w, sent W c → w ∈ cWrites c → pwToken w ∉ tokens.

Lemma untouched_draw op tokens W : inv W → new_tokens op tokens W → untouched (draw tokens W) tokens.
Proof.
  intros I (_ & _ & Hok & Hf) c w Hc Hw Hin. rewrite Forall_forall in Hf, Hok. apply (Hf _ Hin).
  pose proof (wf_of zero cfg W I c w Hc Hw) as Hwf. unfold wf_write in Hwf. destruct (pwKind w).
  - by destruct Hwf as (? & _ & ? & _).
  - by destruct Hwf as (? & _ & ? & _).
  - destruct Hwf as [Ht _]. apply Hok in Hin as [Hn _]. by rewrite Ht in Hn.
Qed.

Lemma prepareAll_plain keys (got : list current) (next : list T) tokens e :
  prepareAll (E:=E) cfg keys got next tokens = Err e → plain e.
Proof.
  revert got next tokens. induction keys as [|k keys IH]; intros [|g got] [|v next] [|t tokens]; try done. cbn [prepareAll].
  destruct (prepareWrite _ _ _ _ _ _ _) as [w|e'] eqn:Ew.
  - destruct (prepareAll _ keys _ _ _) as [ws'|e'] eqn:Ews; [done|]. intros [= <-]. by eapply IH.
  - intros [= <-]. revert Ew. unfold prepareWrite. repeat case_match; intros; simplify_eq; done.
Qed.

Section New.
Context (W : World) (I : inv W) (bound : zlen (log W) < 2^64 - 2).

Lemma prepare_ok (k : bytes) (g : current) (v : T) (t : bytes) (w : pendingWrite) :
  got_ok W k g → token_ok t → t ∈ used W →
  prepareWrite (E:=E) cfg writeUpdate k (baseOf g) v (u64 (versionOf g + 1)) t = Ok w →
  pwKey w = k ∧ pwToken w = t ∧ pwKind w = writeUpdate ∧ follows g w ∧ stores v w ∧ wf_write cfg W w.
Proof.
  intros Hg Ht Hu. unfold prepareWrite. destruct (Encode v) as [payload|] eqn:Ev; [|done].
  destruct g as [[b vv]|]; cbn [baseOf fmap option_fmap option_map fst versionOf].
  - destruct Hg as (Hr & e & He). pose proof He as (ce & Hle & Hine & Hke & Hkey & Hne).
    destruct (anc_of zero cfg W I ce e (landed_sent _ _ W I ce Hle) Hine Hke) as (l & Ha & _).
    pose proof (anc_facts _ _ _ _ Ha) as (Hv & Hpos & _). pose proof (i_version _ _ _ I ce e Hle Hine Hke) as Hle2.
    destruct (anc_header _ _ _ _ history_pos Ha ltac:(lia)) as (p & Eh). rewrite Hne in Eh.
    cbn [readRaw] in Hr. unfold decodeEnvelope in Hr. rewrite Eh in Hr |- *. cbn [hVersion hPayload] in Hr.
    destruct (Decode p) as [d|] eqn:Ed; [|done]. injection Hr as <-. cbn [vVersion hTokens]. intros [= <-]. cbn.
    rewrite u64_small by (unfold_int; lia). split_and!; try done.
    + split; [|done]. unfold readRaw, decodeEnvelope. cbn [pwBase]. rewrite Eh. cbn. by rewrite Ed.
    + eexists _, _. split; [done|]. cbn [pwNext pwVersion]. pose proof (zlen_ztake_le (WriteTokenHistory cfg) l).
      apply parse_build; [lia|done|apply Forall_ztake; by destruct (anc_facts _ _ _ _ Ha) as (_ & _ & _ & ? & _)|lia].
    + cbn. exists (t :: l). split_and!; [|done|rewrite zlen_cons; lia].
      set (w := mkWrite _ _ _ _ _ _). change (t :: l) with (pwToken w :: l). eapply (anc_next _ _ w e l b payload); try done.
  - intros [= <-]. cbn. rewrite u64_small by (unfold_int; lia). split_and!; try done.
    + eexists _, _. split; [done|]. cbn [pwNext pwVersion]. by apply parse_build.
    + cbn. exists [t]. split_and!; [|done|rewrite zlen_cons, zlen_nil; pose proof (zlen_nonneg (log W)); lia].
      set (w := mkWrite _ _ _ _ _ _). change [t] with [pwToken w]. by eapply (anc_new _ _ w payload).
Qed.

Lemma prepareAll_ok keys (got : list current) (next : list T) tokens ws :
  Forall2 (got_ok W) keys got → length next = length keys → length tokens = length keys →
  Forall token_ok tokens → Forall (λ t, t ∈ used W) tokens →
  prepareAll (E:=E) cfg keys got next tokens = Ok ws →
  pwKey <$> ws = keys ∧ pwToken <$> ws = tokens ∧ Forall (λ w, pwKind w = writeUpdate) ws ∧
  Forall2 follows got ws ∧ Forall2 (stores) next ws ∧ Forall (wf_write cfg W) ws.
Proof.
  intros Hg. revert next tokens ws. induction Hg as [|k g keys got Hgk Hg IH]; intros next tokens ws Hn Ht Hok Hu.
  - destruct next, tokens; try done. cbn. intros [= <-]. by split_and!.
  - destruct next as [|v next], tokens as [|t tokens]; try done. apply Forall_cons in Hok as [Hok1 Hok], Hu as [Hu1 Hu].
    cbn [prepareAll]. destruct (prepareWrite _ _ _ _ _ _ _) as [w|] eqn:Ew; [|done].
    destruct (prepareAll _ _ _ _ _) as [ws'|] eqn:Ews; [|done]. intros [= <-].
    destruct (prepare_ok k g v t w Hgk Hok1 Hu1 Ew) as (? & ? & ? & ? & ? & ?).
    destruct (IH next tokens ws' ltac:(by simplify_eq/=) ltac:(by simplify_eq/=) Hok Hu Ews) as (? & ? & ? & ? & ? & ?).
    cbn. split_and!; [by f_equal|by f_equal|by constructor..].
Qed.

Lemma new_tokens_distinct (ws : list pendingWrite) w w' :
  NoDup (pwToken <$> ws) → w ∈ ws → w' ∈ ws → pwToken w = pwToken w' → w = w'.
Proof.
  intros Hn (i & Hi)%list_elem_of_lookup (j & Hj)%list_elem_of_lookup Et.
  assert (i = j) as ->; [|congruence]. eapply NoDup_lookup; [exact Hn| |]; rewrite list_lookup_fmap; [by rewrite Hi|].
  rewrite Hj. cbn. by rewrite Et.
Qed.

(** What a new command with the pointer [cid] has to be. *)
Lemma new_cmd_ok cid ws tokens :
  (cid < fresh W)%N → (∀ c, sent W c → cId c ≠ cid) → untouched W tokens →
  Forall (λ w, pwToken w ∈ tokens ∨ pwToken w = []) ws →
  (∀ w w', w ∈ ws → w' ∈ ws → pwToken w = pwToken w' → pwToken w ≠ [] → w = w') →
  wf_cmd (E:=E) zero cfg W (mkCmd cid ws) → new_ok zero cfg W (mkCmd cid ws).
Proof.
  intros Hc Hid Hun Ht Hd Hwf. split_and!; try done.
  intros c' w w' Hs Hw' Hw Et. rewrite Forall_forall in Ht. destruct (Ht w Hw) as [Hin|?]; [|done].
  rewrite Et in Hin. by apply (Hun c' w' Hs Hw') in Hin.
Qed.

End New.

(** ** The decision after the reads *)

Section Decide.
Context (W0 : World) (I0 : inv W0) (i : N) (op : Op) (cmds : list Cmd) (tokens : list bytes).
Context (Hnew : new_tokens op tokens W0).

Let W := draw tokens W0.
Context (bound : zlen (log W) < 2^64 - 2).

Let I : inv W := draw_inv zero cfg history_pos tokens W0 I0.

Lemma drawn_ids c : sent W c → cId c ≠ fresh W0.
Proof. intros (sid & Hs) Heq. destruct (i_fresh _ _ _ I0 _ _ Hs) as [_ ?]. lia. Qed.

Lemma drawn_fresh : (fresh W0 < fresh W)%N.
Proof. cbn. lia. Qed.

Lemma drawn_used : Forall (λ t, t ∈ used W) tokens.
Proof. apply Forall_forall. intros t Ht. cbn. apply elem_of_union_l. by apply elem_of_list_to_set. Qed.

Lemma update_ok remaining (got : list current) next ws :
  (match op with OpUpdate _ _ | OpUpdateAll _ _ => True | _ => False end) →
  Forall (dead W) cmds → Forall2 (got_ok W) (opKeys op) got → keys_ok op →
  opMutate op (map (valueOf zero) got) (map foundOf got) = Ok (next, true) → zlen next = zlen (opKeys op) →
  prepareAll (E:=E) cfg (opKeys op) got next tokens = Ok ws →
  act_ok W i op cmds (Send (mkCmd (fresh W0) ws) next false false remaining).
Proof.
  intros Hop Hd Hg [Hk1 Hk2] Hm Hz Hp. destruct Hnew as (Hlen & Hnd & Hok & Hun).
  destruct (prepareAll_ok W I bound (opKeys op) got next tokens ws) as (Hkey & Htok & Hkind & Hread & Hst & Hwf);
    try done; [unfold zlen in Hz; lia|apply drawn_used|].
  assert (Hcomp : computes zero op (mkCmd (fresh W0) ws) next) by (split_and!; [done..|]; by exists got).
  assert (Hnew_ok : new_ok zero cfg W (mkCmd (fresh W0) ws)).
  { eapply new_cmd_ok; [apply drawn_fresh|by apply drawn_ids|by eapply untouched_draw| | |].
    - apply Forall_forall. intros w Hw. left. rewrite <- Htok. by apply list_elem_of_fmap_2.
    - intros w w' Hw Hw' Et _. eapply new_tokens_distinct; [|done..]. by rewrite Htok.
    - split; cbn [cWrites]; [|by rewrite Hkey|done|].
      + intros ->. by destruct (opKeys op).
      + left. exists op, next. split; [done|]. by apply Hcomp. }
  split_and!; [by right| |by intros c' Hc'; right; by eapply Forall_forall in Hd|done].
  split; [done|]. by destruct op.
Qed.

Lemma delete_ok key expect matches b (v : Versioned T) :
  op = OpDelete key expect matches → vVersion v = expect → Forall (dead W) cmds → got_ok W key (Some (b, v)) → keys_ok op →
  act_ok W i op cmds (Send (mkCmd (fresh W0) [mkWrite writeDelete key (Some b) [] [] (vVersion v)]) [] false false (MaxAttempts cfg)).
Proof.
  intros -> Hexp Hd [Hr (e & He)] [Hk1 Hk2].
  assert (Hrem : removes expect (mkCmd (fresh W0) [mkWrite writeDelete key (Some b) [] [] (vVersion v)])).
  { eexists _, b, v. split_and!; [reflexivity|done..]. }
  assert (Hnew_ok : new_ok zero cfg W (mkCmd (fresh W0) [mkWrite writeDelete key (Some b) [] [] (vVersion v)])).
  { eapply (new_cmd_ok W _ _ []); [apply drawn_fresh|by apply drawn_ids|by intros ???? ?%elem_of_nil|by constructor; [right|]| |].
    - intros w w' ->%list_elem_of_singleton ->%list_elem_of_singleton. done.
    - split; cbn [cWrites]; [done|apply NoDup_singleton| |by right; right; exists expect].
      constructor; [|done]. cbn. split; [done|]. pose proof He as (ce & Hle & Hine & Hke & Hkey & Hne).
      destruct (anc_of zero cfg W I ce e (landed_sent _ _ W I ce Hle) Hine Hke) as (l & Ha & _).
      pose proof (anc_facts _ _ _ _ Ha) as (Hv & Hpos & _). pose proof (i_version _ _ _ I ce e Hle Hine Hke) as Hle2.
      destruct (anc_header _ _ _ _ history_pos Ha ltac:(lia)) as (p & Eh). rewrite Hne in Eh.
      exists b, e, l. split_and!; try done. cbn [readRaw] in Hr. unfold decodeEnvelope in Hr. rewrite Eh in Hr. cbn in Hr.
      destruct (Decode p); [|done]. by injection Hr as <-. }
  split_and!; [by right|by split|by intros c' Hc'; right; by eapply Forall_forall in Hd|done..].
Qed.

End Decide.

Lemma decision_ok W0 i op cmds tokens remaining (got : list current) :
  let W := draw tokens W0 in
  inv W0 → new_tokens op tokens W0 → zlen (log W) < 2^64 - 2 →
  Forall (dead W) cmds → Forall2 (got_ok W) (opKeys op) got → keys_ok op →
  act_ok W i op cmds (afterRead zero cfg op remaining got (fresh W0) tokens).
Proof.
  intros W I0 Hnew bound Hd Hg Hk. pose proof (λ e, err_ok zero cfg W i op cmds e) as Herr.
  assert (Hup : (match op with OpUpdate _ _ | OpUpdateAll _ _ => True | _ => False end) →
    act_ok W i op cmds
      (if remaining <=? 0 then returnErr ErrConflict
       else match opMutate op (map (valueOf zero) got) (map foundOf got) with
            | Ok (next, save) =>
                if negb save then Go (Returned (RDeclined (map (fmap snd) got)))
                else if negb (zlen next =? zlen (opKeys op)) then returnErr ErrNextLength
                else match prepareAll (E:=E) cfg (opKeys op) got next tokens with
                     | Ok ws => Send (mkCmd (fresh W0) ws) next false false remaining
                     | Err e => returnErr e
                     end
            | Err e => returnErr (ErrMutate e)
            end)).
  { intros Hop. destruct (remaining <=? 0); [by apply Herr|].
    destruct (opMutate op _ _) as [[next save]|e] eqn:Hm; [|by apply Herr].
    destruct save; cbn [negb]; [|by apply declined_ok].
    destruct (Z.eqb_spec (zlen next) (zlen (opKeys op))); cbn [negb]; [|by apply Herr].
    destruct (prepareAll _ _ _ _ _) as [ws|e'] eqn:Hp; [by eapply (update_ok W0 I0)|].
    apply Herr; [|done]. by eapply prepareAll_plain. }
  destruct op as [key mutate|keys mutate|key value|key expect matches] eqn:Eop; try by apply Hup.
  - by apply Herr.
  - unfold afterRead. cbn [opKeys] in Hg. apply Forall2_cons_inv_l in Hg as (g & l' & Hgk & Hnil & ->). apply Forall2_nil_inv_l in Hnil as ->.
    assert (Hmiss : act_ok W i (OpDelete key expect matches) cmds
              (if expect =? 0 then Go (Returned (RDeclined [])) else returnErr ErrVersionMismatch)).
    { destruct (expect =? 0); [by apply declined_ok|by apply Herr]. }
    destruct g as [[b v]|]; [|done].
    destruct (Z.eqb_spec (vVersion v) expect); cbn [negb]; [|by apply Herr].
    destruct (match matches with Some f => _ | None => _ end); [by apply Herr|].
    by eapply (delete_ok W0 I0).
Qed.


(** ** The first turn *)

Lemma same_stores (W : World) w l (v : T) : anc cfg W w l → zlen l < 2^64 → sameWrite (E:=E) w v = Ok true → stores v w.
Proof.
  intros Ha Hl. destruct (anc_header _ _ _ _ history_pos Ha Hl) as (p & Hp). pose proof (anc_facts _ _ _ _ Ha) as (Hv & _).
  unfold sameWrite, stores. destruct (Encode v) as [payload|] eqn:Ev; [|done]. rewrite Hp.
  intros [= ->%bool_decide_eq_true]. eexists _, _. by rewrite Hv.
Qed.

Lemma same_err w (v : T) e : sameWrite (E:=E) w v = Err e → plain e.
Proof. unfold sameWrite. repeat case_match; intros; simplify_eq; done. Qed.

Lemma create_ok W0 i key value tokens cmds :
  let W := draw tokens W0 in
  inv W0 → new_tokens (OpCreate key value : Op) tokens W0 → zlen (log W) < 2^64 - 2 → cmds = [] →
  act_ok W i (OpCreate key value) cmds (startCall zero cfg (OpCreate key value) None (fresh W0) tokens).
Proof.
  intros W I0 Hnew bound ->. pose proof (draw_inv zero cfg history_pos tokens W0 I0) as I. fold W in I.
  pose proof Hnew as (Hlen & Hnd & Hok & Hun). cbn [startCall resumes].
  destruct tokens as [|token [|]]; [done| |done].
  apply Forall_cons in Hok as [Hok _].
  unfold prepareWrite. destruct (Encode value) as [payload|] eqn:Ev; [|by apply err_ok].
  set (w := mkWrite writeCreate key None (buildEnvelope payload 1 token [] (WriteTokenHistory cfg)) token 1).
  assert (Hst : stores value w) by (eexists _, _; split; [done|by apply parse_build]).
  assert (Hcr : creates value (mkCmd (fresh W0) [w])) by (by exists w).
  assert (Hnew_ok : new_ok zero cfg W (mkCmd (fresh W0) [w])).
  { eapply (new_cmd_ok W _ _ [token]); [by apply drawn_fresh|by apply drawn_ids|by eapply untouched_draw| | |].
    - constructor; [|done]. left. apply list_elem_of_singleton. done.
    - intros w1 w2 ->%list_elem_of_singleton ->%list_elem_of_singleton. done.
    - split; cbn [cWrites]; [done|apply NoDup_singleton| |by right; left; exists value].
      constructor; [|done]. cbn. exists [token]. split_and!.
      + change [token] with [pwToken w]. by eapply (anc_new _ _ w payload).
      + clear. cbn. set_solver.
      + rewrite zlen_cons, zlen_nil. pose proof (zlen_nonneg (log W)). cbn in *. lia. }
  split_and!; [by right| | |].
  - by split.
  - by intros c' ?%elem_of_nil.
  - split; [apply NoDup_singleton|done].
Qed.

Lemma resumes_keys (op : Op) resumed c : resumes op resumed = Some c → resumed = Some c ∧ pwKey <$> cWrites c = opKeys op ∧ ∃ k, opKeys op = [k].
Proof.
  unfold resumes. destruct op; [|done|..]; (destruct resumed; [|done]); case_bool_decide; try done; intros [= <-]; (split_and!; [done|done|by eexists]).
Qed.

Lemma resume_check W i (op : Op) c vals :
  inv W → c ∈ handed W → pwKey <$> cWrites c = opKeys op → (∃ k, opKeys op = [k]) → vals_ok zero op c vals →
  act_ok W i op [] (check c vals true (MaxAttempts cfg)).
Proof.
  intros I Hh Hk (k & Hop) Hv. apply check_ok; [by apply (i_handed _ _ _ I)|done|by left|by intros c' ?%elem_of_nil|by left|].
  unfold keys_ok. rewrite Hop. split; [apply NoDup_singleton|done].
Qed.

(** What a resumed command is, when the call accepts it. *)
Section Resumed.
Context (W : World) (I : inv W) (bound : zlen (log W) < 2^64 - 2) (c : Cmd) (Hs : sent W c) (w : pendingWrite).
Context (Ew : cWrites c = [w]).

Lemma resume_stores v : pwKind w ≠ writeDelete → sameWrite (E:=E) w v = Ok true → stores v w.
Proof using I bound Hs Ew history_pos.
  intros Hk Hw. destruct (anc_of zero cfg W I c w Hs) as (l & Ha & Hl); [by rewrite Ew; left|done|].
  eapply same_stores; [exact Ha|lia|done].
Qed.

Lemma prepared_kind :
  match pwKind w with
  | writeUpdate => ∃ g, follows g w
  | writeCreate => pwBase w = None ∧ pwVersion w = 1
  | writeDelete => ∃ version, removes version c
  end.
Proof using I Hs Ew.
  destruct (wf_prepared _ _ _ _ (i_wf _ _ _ I c Hs)) as [(op & vals & _ & _ & Hk & got & Hf & _)|[(v & w' & Hw & Hk & Hb & Hv & _)|(v & Hr)]].
  - rewrite Ew in Hk, Hf. apply Forall_cons in Hk as [-> _]. apply Forall2_cons_inv_r in Hf as (g & ? & Hg & _). by exists g.
  - rewrite Ew in Hw. injection Hw as <-. by rewrite Hk.
  - pose proof Hr as (w' & b & vv & Hw & Hk & _). rewrite Ew in Hw. injection Hw as <-. rewrite Hk. by exists v.
Qed.

Lemma resume_computes (op : Op) base v :
  pwKind w = writeUpdate → readRaw (pwBase w) = Some base → opMutate op [valueOf zero base] [foundOf base] = Ok ([v], true) →
  sameWrite (E:=E) w v = Ok true → computes zero op c [v].
Proof using I bound Hs Ew history_pos.
  intros Hk Hb Hm Hw. pose proof prepared_kind as Hp. rewrite Hk in Hp. destruct Hp as (g & Hg & Hv).
  rewrite Hb in Hg. injection Hg as <-. unfold computes. rewrite Ew. split_and!.
  - constructor; [|done]. apply resume_stores; [by rewrite Hk|done].
  - by constructor.
  - exists [base]. split; [|done]. by repeat constructor.
Qed.

Lemma resume_creates value : pwKind w = writeCreate → sameWrite (E:=E) w value = Ok true → creates value c.
Proof using I bound Hs Ew history_pos.
  intros Hk Hw. pose proof prepared_kind as Hp. rewrite Hk in Hp. destruct Hp as [Hb Hv].
  exists w. split_and!; try done. apply resume_stores; [by rewrite Hk|done].
Qed.

Lemma resume_removes expect : pwKind w = writeDelete → pwVersion w = expect → removes expect c.
Proof using I Hs Ew.
  intros Hk <-. pose proof prepared_kind as Hp. rewrite Hk in Hp. destruct Hp as (v & Hr).
  pose proof Hr as (w' & b & vv & Hw & _ & Hv & _). rewrite Ew in Hw. injection Hw as <-. by rewrite Hv.
Qed.

End Resumed.

Lemma start_ok W0 i (op : Op) resumed tokens :
  let W := draw tokens W0 in
  inv W0 → new_tokens op tokens W0 → zlen (log W) < 2^64 - 2 → (∀ c, resumed = Some c → c ∈ handed W0) →
  act_ok W i op [] (startCall zero cfg op resumed (fresh W0) tokens).
Proof.
  intros W I0 Hnew bound Hres. pose proof (draw_inv zero cfg history_pos tokens W0 I0) as I. fold W in I.
  assert (Herr : ∀ e, plain e → act_ok W i op [] (returnErr e)) by (intros; by apply err_ok).
  destruct (resumes op resumed) as [c|] eqn:Er.
  2:{ destruct op as [key mutate|keys mutate|key value|key expect matches]; unfold startCall; rewrite ?Er.
      - apply reading_ok; [done|]. split; [apply NoDup_singleton|done].
      - unfold checkUpdateAll. destruct (zlen keys =? 0) eqn:Ez; [by apply Herr|]. case_bool_decide; [|by apply Herr].
        apply (reading_ok zero cfg W i (OpUpdateAll keys mutate)); [done|]. split; [done|]. intros Hn. cbn in Hn. by subst.
      - pose proof (create_ok W0 i key value tokens [] I0 Hnew bound eq_refl) as Hc. unfold startCall in Hc. exact Hc.
      - apply reading_ok; [done|]. split; [apply NoDup_singleton|done]. }
  apply resumes_keys in Er as Hkeys. destruct Hkeys as (-> & Hk & Hop).
  pose proof (Hres c eq_refl) as Hh. assert (Hs : sent W c) by (by apply (i_handed _ _ _ I)).
  assert (Hck : ∀ vals, vals_ok zero op c vals → act_ok W i op [] (check c vals true (MaxAttempts cfg))).
  { intros vals Hv. by apply resume_check. }
  destruct op as [key mutate|keys mutate|key value|key expect matches]; unfold startCall; rewrite Er; [|done|..].
  - unfold resumeUpdate. destruct (cWrites c) as [|w [|]] eqn:Ew; try by apply Herr.
    case_bool_decide as Hkd; cbn [negb]; [|by apply Herr].
    destruct (readRaw (pwBase w)) as [base|] eqn:Eb; [|by apply Herr].
    destruct (opMutate _ _ _) as [[next save]|e] eqn:Em; [|by apply Herr]. destruct save; cbn [negb]; [|by apply Herr].
    destruct next as [|v [|]]; try by apply Herr. destruct (sameWrite w v) as [[|]|] eqn:Es; cbn [negb]; [|by apply Herr|apply Herr; by eapply same_err].
    apply Hck. split; [by rewrite Ew|]. by eapply (resume_computes W).
  - destruct (cWrites c) as [|w [|]] eqn:Ew; try by apply Herr.
    case_bool_decide as Hkd; cbn [negb]; [|by apply Herr]. destruct (sameWrite w value) as [[|]|] eqn:Es; cbn [negb];
      [|by apply Herr|apply Herr; by eapply same_err].
    apply Hck. split; [by rewrite Ew|]. by eapply (resume_creates W).
  - destruct (cWrites c) as [|w [|]] eqn:Ew; try by apply Herr.
    case_bool_decide as Hkd; cbn [negb]; [|by apply Herr]. destruct (Z.eqb_spec (pwVersion w) expect); cbn [negb]; [|by apply Herr].
    apply Hck. split; [by rewrite Ew|]. by eapply (resume_removes W).
Qed.

(** ** Runs *)

Lemma step_log (W W' : World) : step zero cfg W W' → zlen (log W) ≤ zlen (log W').
Proof.
  assert (Hp : ∀ i (op : Op) cmds a (W1 : World), log (perform i op cmds a W1) = log W1) by (intros ??? [] ?; done).
  intros Hs. destruct Hs; rewrite ?Hp; try done.
  - cbn. destruct (snd _); [rewrite zlen_app, zlen_cons, zlen_nil|]; lia.
  - cbn. rewrite zlen_app, zlen_cons, zlen_nil. lia.
Qed.

Lemma step_inv (W W' : World) : step zero cfg W W' → zlen (log W') < 2^64 - 3 → inv W → inv W'.
Proof.
  intros Hs Hb I. pose proof (step_log _ _ Hs) as Hl. destruct Hs as
    [i op resumed tokens W Hi Hnew Hres|i op rem got k todo cmds c W Hi Hr|i op rem got cmds tokens W Hi Hnew
    |i op rem got k todo cmds W Hi Hr|i op rem got k todo cmds W Hi|sid c W Hf
    |i op c vals amb resumed rem sid cmds applied W Hi Hr|i op c vals amb resumed rem sid cmds W Hi Hf
    |i op c vals amb resumed rem sid cmds W Hi|i op c vals resumed rem got w todo cmds W Hi
    |i op c vals resumed rem got cmds canceled W Hi|i op c vals resumed rem got w todo cmds W Hi|k W Hk].
  - apply act_inv; [by apply draw_inv|]. apply start_ok; try done. change (log (draw tokens W)) with (log W). lia.
  - apply act_inv; [done|]. pose proof (i_calls _ _ _ I i _ Hi) as (Hd & ks & Hk & Hg & Hn). apply advance_ok; try done.
    + by intros c' [?|?%elem_of_nil].
    + split; [done|]. exists (ks ++ [k]). split_and!; [by rewrite <- app_assoc| |tauto..]. apply Forall2_app; [done|]. constructor; [|done].
      unfold readRaw in Hr. destruct (raw W !! k) as [b|] eqn:Eb; [|by injection Hr as <-].
      destruct (decodeEnvelope b) as [v|] eqn:Ed; [|done]. injection Hr as <-. split; [cbn; by rewrite Ed|].
      by apply (i_raw _ _ _ I).
  - apply act_inv; [by apply draw_inv|]. pose proof (i_calls _ _ _ I i _ Hi) as (Hd & ks & Hk & Hg & Hn). cbn in Hk, Hg, Hd.
    rewrite app_nil_r in Hk. subst ks. apply decision_ok; try done. change (log (draw tokens W)) with (log W). lia.
  - apply act_inv; [done|]. apply err_ok; [done|]. apply (i_calls _ _ _ I i _ Hi).
  - apply act_inv; [done|]. apply err_ok; [done|]. apply (i_calls _ _ _ I i _ Hi).
  - apply run_inv; try done. lia.
  - apply act_inv; [done|]. eapply waiting_reply; [done|exact Hi|done].
  - apply act_inv; [by apply refuse_inv|]. by eapply refused_ok.
  - apply act_inv; [done|]. eapply waiting_check; [done|exact Hi].
  - apply act_inv; [done|]. pose proof (i_calls _ _ _ I i _ Hi) as (Hc & Hv & Hh & Ho & (ws & Hws & Hvs) & Hn). cbn in Hws.
    apply advance_ok; try done.
    + intros c' [<-|?%elem_of_nil]; [|done]. right. eexists. split; [exact Hi|done].
    + split_and!; try tauto. exists (ws ++ [w]). split; [by rewrite <- app_assoc|]. apply Forall2_app; [done|]. constructor; [|done].
      apply (judge_ok zero cfg history_pos W I); [lia|done|]. rewrite Hws. apply elem_of_app. right. left.
  - apply act_inv; [done|]. by apply judged_ok.
  - apply act_inv; [done|]. pose proof (i_calls _ _ _ I i _ Hi) as (Hc & Hv & Hh & Ho & _).
    apply unresolved_ok; try done. right. eexists. split; [exact Hi|done].
  - by apply expire_inv.
Qed.

Lemma start_inv : inv start_world.
Proof.
  split; try done.
  - intros c (sid & ?). done.
  - intros c c' (sid & ?). done.
  - intros c c' w w' (sid & ?). done.
  - intros c. unfold landed. cbn. split; [by intros ?%elem_of_nil|by intros (sid & ? & _)].
  - intros c w Hc%elem_of_nil. done.
  - constructor.
  - intros c c' w w' b Hc%elem_of_nil. done.
  - intros c Hc%elem_of_nil. done.
Qed.

Lemma reachable_inv (W : World) : reachable zero cfg W → zlen (log W) < 2^64 - 3 → inv W.
Proof.
  induction 1 as [|W W' Hr IH Hs]; intros Hb; [apply start_inv|].
  pose proof (step_log _ _ Hs). eapply step_inv; [done..|]. apply IH. lia.
Qed.

End Safe.
