(* ===== verification/VsMemory.v ===== *)
(** * The memory store, and the versioned store as one (infra/storage/versionstore)

    [MemoryStore] holds its lock across a call, so each call is one function
    of what is stored (memory_store.go, update_all.go).  The contents of the
    versioned store over Redis are what its calls leave in a memory store,
    taken one after the other in the order in which their scripts ran. *)

From S2P Require Import Prelude Bytes GoStr VsEnvelope VsRedis VsInv VsStep VsTurns VsSafe.

(** What a codec has to satisfy. *)
Class CodecLaw (T : Type) `{Codec T} := decode_encode : ∀ (v : T) p, Encode v = Some p → Decode p = Some v.

Section Memory.
Context {T E : Type} `{Codec T} (zero : T) (cfg : RedisConfig).

Abbreviation Op := (Op (T:=T) (E:=E)).
Abbreviation Res := (Res (T:=T) (E:=E)).
Abbreviation World := (World (T:=T) (E:=E)).
Abbreviation contents := (gmap bytes (Versioned T)).

(** ** The memory store *)

Definition memValue (c : option (Versioned T)) : T := match c with Some v => vValue v | None => zero end.
Definition memFound (c : option (Versioned T)) : bool := match c with Some _ => true | None => false end.
Definition memVersion (c : option (Versioned T)) : Z := match c with Some v => vVersion v | None => 0 end.

Definition memUpdate (items : contents) (key : bytes) (mutate : T → bool → result E (T * bool)) : contents * Res :=
  let current := items !! key in
  match mutate (memValue current) (memFound current) with
  | Err e => (items, RErr (ErrMutate e))
  | Ok (next, save) =>
      if negb save then (items, RDeclined [current])
      else
        let stored := mkVersioned next (u64 (memVersion current + 1)) in
        (<[key := stored]> items, RApplied [stored])
  end.

Definition memCreate (items : contents) (key : bytes) (value : T) : contents * Res :=
  match items !! key with
  | Some _ => (items, RNotCreated)
  | None => (<[key := mkVersioned value 1]> items, RApplied [mkVersioned value 1])
  end.

Definition memDeleteIf (items : contents) (key : bytes) (expect : Z) (matches : option (T → bool)) : contents * Res :=
  match items !! key with
  | None => if expect =? 0 then (items, RDeclined []) else (items, RErr ErrVersionMismatch)
  | Some current =>
      if negb (vVersion current =? expect) then (items, RErr ErrVersionMismatch)
      else if match matches with Some f => negb (f (vValue current)) | None => false end then (items, RErr ErrVersionMismatch)
      else (delete key items, RApplied [])
  end.

(** [s.items[key] = stored[i]] for every key. *)
Definition memPut (items : contents) (x : bytes * Versioned T) : contents := <[x.1 := x.2]> items.

Definition memUpdateAll (items : contents) (keys : list bytes) (mutate : list T → list bool → result E (list T * bool)) : contents * Res :=
  if negb (checkUpdateAll keys) then (items, RErr ErrKeys)
  else
    let current : list (option (Versioned T)) := map (λ k, items !! k) keys in
    match mutate (map memValue current) (map memFound current) with
    | Err e => (items, RErr (ErrMutate e))
    | Ok (next, save) =>
        if negb save then (items, RDeclined current)
        else if negb (zlen next =? zlen keys) then (items, RErr ErrNextLength)
        else
          let stored := zip_with (λ v c, mkVersioned v (u64 (memVersion c + 1))) next current in
          (foldl memPut items (zip keys stored), RApplied stored)
    end.

Definition memCall (op : Op) (items : contents) : contents * Res :=
  match op with
  | OpUpdate key mutate => memUpdate items key mutate
  | OpUpdateAll keys mutate => memUpdateAll items keys mutate
  | OpCreate key value => memCreate items key value
  | OpDelete key expect matches => memDeleteIf items key expect matches
  end.

(** ** What Redis holds, as a memory store *)

Definition stored (m : gmap bytes bytes) : contents := omap decodeEnvelope m.

(** The call that first sends a delete has checked the fence; one that resumes
    it has not. *)
Definition fenceless (op : Op) : Op := match op with OpDelete key expect _ => OpDelete key expect None | _ => op end.

(** The contents after a log, each landed command being, at its place, the
    call in the memory store of everyone to whom it is attributed. *)
Inductive serial : list Event → contents → Prop :=
| ser_nil : serial [] ∅
| ser_expired l m k : serial l m → serial (l ++ [Expired k]) (delete k m)
| ser_landed l m m' c :
    serial l m → (∃ (op : Op) r, returns zero op c r) →
    (∀ (op : Op) r, returns zero op c r → memCall (fenceless op) m = (m', RApplied r)) →
    serial (l ++ [Landed c]) m'.

(** ** A landed command in the memory store *)

Section Land.
Context (law : CodecLaw T).

Lemma decode_stores v w : stores v w → decodeEnvelope (pwNext w) = Some (mkVersioned v (pwVersion w)).
Proof using law.
  intros (p & ts & He & Hp). unfold decodeEnvelope. rewrite Hp. cbn. by rewrite (decode_encode v p He).
Qed.

Lemma stored_base m w g : m !! pwKey w = pwBase w → readRaw (pwBase w) = Some g → stored m !! pwKey w = snd <$> g.
Proof using.
  unfold stored. rewrite lookup_omap. intros ->. destruct (pwBase w) as [b|]; cbn; [|by intros [= <-]].
  destruct (decodeEnvelope b) as [v|]; [|done]. by intros [= <-].
Qed.

Lemma stored_put m v w : stores v w → pwKind w ≠ writeDelete →
  stored (writeOne m w) = memPut (stored m) (pwKey w, mkVersioned v (pwVersion w)).
Proof using law.
  intros Hs Hk. unfold stored, writeOne, memPut; cbn. apply decode_stores in Hs.
  destruct (pwKind w); [| |done]; by rewrite (omap_insert_Some _ _ _ _ (mkVersioned v (pwVersion w))).
Qed.

Lemma stored_delete m (k : bytes) : stored (delete k m) = delete k (stored m).
Proof using. unfold stored. by rewrite omap_delete. Qed.

Lemma stored_puts m vals ws : Forall2 stores vals ws → Forall (λ w, pwKind w = writeUpdate) ws →
  stored (foldl writeOne m ws) =
    foldl memPut (stored m) (zip (pwKey <$> ws) (zip_with (λ v w, mkVersioned v (pwVersion w)) vals ws)).
Proof using law.
  intros Hs. revert m. induction Hs as [|v w vals ws Hvw Hs IH]; intros m Hk; [done|].
  apply Forall_cons in Hk as [Hk Hks]. cbn. rewrite IH by done. by rewrite (stored_put m v w) by (done || by rewrite Hk).
Qed.

Lemma compares_all m c : compares m c = true → Forall (λ w, m !! pwKey w = pwBase w) (cWrites c).
Proof using.
  unfold compares. rewrite forallb_forall. intros Hf. apply Forall_forall. intros w Hw.
  apply list_elem_of_In in Hw. by apply Hf, bool_decide_eq_true in Hw.
Qed.

(** What the update read is what is stored. *)
Lemma follows_stored m ws got : Forall (λ w, m !! pwKey w = pwBase w) ws → Forall2 follows got ws →
  Forall (λ w, 0 < pwVersion w < 2^64) ws →
  map (λ k, stored m !! k) (pwKey <$> ws) = map (fmap snd) got ∧
  (∀ vals : list T, zip_with (λ v c, mkVersioned v (u64 (memVersion c + 1))) vals (map (fmap snd) got) =
           zip_with (λ v w, mkVersioned v (pwVersion w)) vals ws).
Proof using.
  intros Hm Hf. induction Hf as [|g w got ws [Hg Hv] Hf IH]; intros Hb; [by split; [|intros []]|].
  apply Forall_cons in Hm as [Hm1 Hm], Hb as [Hb1 Hb]. destruct (IH Hm Hb) as [IH1 IH2].
  cbn. rewrite (stored_base m w g) by done. split; [by rewrite <- IH1|].
  intros [|v vals]; [done|]. cbn. rewrite IH2. do 2 f_equal. rewrite Hv. unfold memVersion, versionOf in *.
  destruct g as [[b x]|]; cbn in *; rewrite u64_small by (unfold_int; lia); done.
Qed.

Lemma vals_shared (got : list (option (bytes * Versioned T))) :
  map memValue (map (fmap snd) got) = map (valueOf zero) got ∧ map memFound (map (fmap snd) got) = map foundOf got.
Proof using. rewrite !map_map. split; apply map_ext; by intros [[]|]. Qed.

Section Landed.
Context (W : World) (I : inv (E:=E) zero cfg W) (bound : zlen (log W) + 1 < 2^64 - 2) (c : Cmd) (Hs : sent W c).
Context (Hcm : compares (raw W) c = true).

Lemma versions_small : Forall (λ w, pwKind w = writeUpdate) (cWrites c) → Forall (λ w, 0 < pwVersion w < 2^64) (cWrites c).
Proof using I bound Hs.
  rewrite !Forall_forall. intros Hk w Hw. destruct (anc_of zero cfg W I c w Hs Hw) as (l & Ha & Hl); [by rewrite Hk|].
  pose proof (anc_facts _ _ _ _ Ha) as (Hv & Hpos & _). lia.
Qed.

Lemma update_lands key mutate r :
  returns zero (OpUpdate key mutate : Op) c r →
  memUpdate (stored (raw W)) key mutate = (stored (foldl writeOne (raw W) (cWrites c)), RApplied r).
Proof using I bound Hs Hcm law.
  intros (Hk & vals & (Hst & Hkd & got & Hf & Hm) & ->).
  destruct (follows_stored (raw W) _ _ (compares_all _ _ Hcm) Hf (versions_small Hkd)) as [Hcur Hnext].
  rewrite (stored_puts _ _ _ Hst Hkd). cbn [opKeys] in Hk. rewrite Hk in Hcur |- *.
  destruct (cWrites c) as [|w [|]]; try done. apply Forall2_cons_inv_r in Hf as (g & ? & Hg & Hnil%Forall2_nil_inv_r & ->); subst.
  apply Forall2_cons_inv_r in Hst as (v & ? & Hv & Hnil%Forall2_nil_inv_r & ->); subst.
  cbn in Hcur, Hm. injection Hcur as Hcur. unfold memUpdate. rewrite Hcur. specialize (Hnext [v]). cbn in Hnext. injection Hnext as Hnext.
  destruct g as [[b x]|]; cbn in *; (destruct (mutate _ _) as [[next save]|]; [|done]); injection Hm as -> ->; cbn; by rewrite Hnext.
Qed.

Lemma update_all_lands keys mutate r :
  returns zero (OpUpdateAll keys mutate : Op) c r →
  memUpdateAll (stored (raw W)) keys mutate = (stored (foldl writeOne (raw W) (cWrites c)), RApplied r).
Proof using I bound Hs Hcm law.
  intros (Hk & vals & (Hst & Hkd & got & Hf & Hm) & ->). cbn [opKeys] in Hk.
  destruct (follows_stored (raw W) _ _ (compares_all _ _ Hcm) Hf (versions_small Hkd)) as [Hcur Hnext].
  rewrite (stored_puts _ _ _ Hst Hkd). destruct (i_wf _ _ _ I c Hs) as [Hne Hnd _ _]. rewrite Hk in Hcur, Hnd |- *.
  unfold memUpdateAll, checkUpdateAll. rewrite bool_decide_eq_true_2 by done.
  assert (Hz : zlen keys = zlen (cWrites c)) by (rewrite <- Hk; unfold zlen; by rewrite length_fmap).
  destruct (Z.eqb_spec (zlen keys) 0) as [Hz0|]; [rewrite Hz in Hz0; destruct (cWrites c); [done|rewrite zlen_cons in Hz0; pose proof (zlen_nonneg l); lia]|].
  cbn [negb andb]. rewrite Hcur. destruct (vals_shared got) as [-> ->]. cbn [opMutate] in Hm. rewrite Hm. cbn [negb].
  apply Forall2_length in Hst as Hlen. destruct (Z.eqb_spec (zlen vals) (zlen keys)); cbn [negb]; [|unfold zlen in *; lia].
  by rewrite Hnext.
Qed.

Lemma create_lands key value r :
  returns zero (OpCreate key value : Op) c r →
  memCreate (stored (raw W)) key value = (stored (foldl writeOne (raw W) (cWrites c)), RApplied r).
Proof using Hcm law.
  intros (Hk & -> & w & Hw & Hkd & Hb & Hv & Hst). pose proof (compares_all _ _ Hcm) as Hc. rewrite Hw in Hk, Hc |- *.
  apply Forall_cons in Hc as [Hc _]. injection Hk as Hk. cbn [foldl]. rewrite (stored_put _ _ _ Hst) by (by rewrite Hkd).
  unfold memCreate, memPut. rewrite Hv, <- Hk. rewrite (stored_base (raw W) w None) by (done || by rewrite Hb). done.
Qed.

Lemma delete_lands key expect r matches :
  returns zero (OpDelete key expect matches : Op) c r →
  memDeleteIf (stored (raw W)) key expect None = (stored (foldl writeOne (raw W) (cWrites c)), RApplied r).
Proof using Hcm law.
  intros (Hk & -> & w & b & v & Hw & Hkd & Hv & Hr & Hvv). pose proof (compares_all _ _ Hcm) as Hc. rewrite Hw in Hk, Hc |- *.
  apply Forall_cons in Hc as [Hc _]. injection Hk as Hk. cbn [foldl]. unfold writeOne. rewrite Hkd, stored_delete.
  unfold memDeleteIf. rewrite <- Hk. rewrite (stored_base (raw W) w _ Hc Hr). cbn. by rewrite Hvv, Z.eqb_refl.
Qed.

Lemma returns_lands (op : Op) r :
  returns zero op c r → memCall (fenceless op) (stored (raw W)) = (stored (foldl writeOne (raw W) (cWrites c)), RApplied r).
Proof using I bound Hs Hcm law.
  destruct op; cbn [fenceless memCall]; [apply update_lands|apply update_all_lands|apply create_lands|apply delete_lands].
Qed.

Lemma someone_returns : ∃ (op : Op) r, returns zero op c r.
Proof using I Hs.
  destruct (wf_prepared _ _ _ _ (i_wf _ _ _ I c Hs)) as [(op & vals & Hk & Hc)|[(v & Hc)|(version & Hc)]].
  - pose proof Hc as (Hst & Hkd & got & Hf & Hm). destruct op as [key mutate|keys mutate|key value|key expect matches].
    + eexists _, _. split; [exact Hk|]. by exists vals.
    + eexists _, _. split; [exact Hk|]. by exists vals.
    + exfalso. by destruct got as [|? [|]].
    + exfalso. by destruct got as [|? [|]].
  - pose proof Hc as (w & Hw & _). exists (OpCreate (pwKey w) v), [mkVersioned v 1]. split; [by rewrite Hw|done].
  - pose proof Hc as (w & b & x & Hw & _). exists (OpDelete (pwKey w) version None), []. split; [by rewrite Hw|done].
Qed.

End Landed.
End Land.
End Memory.
