(* ===== verification/VsAlone.v ===== *)
(** * Calls of the versioned store: they return, and alone they are the memory store's

    A run for the witnesses: a create, and an update whose reply is lost after
    its script ran.  A call that is given its turns returns within its
    attempts.  When nobody else writes and no reply is lost, a call over Redis
    ends as the same call of the memory store does, on every branch. *)

From Stdlib Require Import String.
From S2P Require Import Prelude Bytes GoStr VsEnvelope VsRedis VsInv VsStep VsTurns VsSafe VsMemory.

#[export] Instance byteCodec : Codec Z := { Encode v := Some [v]; Decode b := match b with [v] => Some v | _ => None end }.
#[export] Instance byteCodec_law : CodecLaw Z.
Proof. intros v p [= <-]. done. Qed.

Module Demo.

Abbreviation World := (World (T:=Z) (E:=unit)).

Definition cfg : RedisConfig := mkConfig 2 2.
Definition key : bytes := str "k"%string.
Definition tok (i : Z) : bytes := [116; 48 + i].

Definition create : Op (T:=Z) (E:=unit) := OpCreate key 5.
Definition bump : Op (T:=Z) (E:=unit) := OpUpdate key (λ v _, Ok (v + 1, true)).

(** The writes of the two calls. *)
Definition first : pendingWrite := mkWrite writeCreate key None (buildEnvelope [5] 1 (tok 1) [] 2) (tok 1) 1.
Definition second : pendingWrite :=
  mkWrite writeUpdate key (Some (pwNext first)) (buildEnvelope [6] 2 (tok 3) [tok 1] 2) (tok 3) 2.
Definition cmd1 : Cmd := mkCmd 0 [first].
Definition cmd2 : Cmd := mkCmd 6 [second].

Definition created : World := perform 0 create [] (Send cmd1 [5] false false 2) (draw [tok 1] start_world).
Definition landed1 : World := run 1 cmd1 created.
Definition answered : World := perform 0 create [cmd1] (Go (Returned (RApplied [mkVersioned 5 1]))) landed1.
Definition reading : World := perform 1 bump [] (Go (Reading 2 [] [key])) (draw [tok 2] answered).
Definition got : option (bytes * Versioned Z) := Some (pwNext first, mkVersioned 5 1).
Definition readAll : World := perform 1 bump [] (Go (Reading 2 [got] [])) reading.
Definition sending : World := perform 1 bump [] (Send cmd2 [6] false false 2) (draw [tok 3] readAll).
Definition landed2 : World := run 7 cmd2 sending.
Definition checking : World := perform 1 bump [cmd2] (check cmd2 [6] false 1) landed2.
Definition looked : World := perform 1 bump [cmd2] (Go (Checking cmd2 [6] false 1 [verdictApplied] [])) checking.
Definition bumped : World := perform 1 bump [cmd2] (Go (Returned (RApplied [mkVersioned 6 2]))) looked.

Lemma tok_new op i (W : World) :
  length (opKeys op) = 1%nat → 48 + i ≠ bar → 48 + i ≠ newline → tok i ∉ used W → new_tokens op [tok i] W.
Proof.
  intros Hk Hb Hn Hu. split_and!; [done|apply NoDup_singleton| |by constructor]. constructor; [|done]. unfold token_ok, tok, bar, newline in *.
  split_and!; [done| |]; rewrite !not_elem_of_cons; split_and!; (lia || apply not_elem_of_nil).
Qed.

Lemma reach_eq (W W1 W2 : World) : reachable 0 cfg W → step 0 cfg W W1 → W1 = W2 → reachable 0 cfg W2.
Proof. intros Hr Hs <-. by eapply reach_step. Qed.

Lemma answered_reachable : reachable 0 cfg answered.
Proof.
  assert (H1 : reachable 0 cfg created).
  { eapply reach_eq; [apply reach_start|apply (st_start 0 cfg 0 create None [tok 1] start_world); [done|by apply tok_new|done]|]. reflexivity. }
  assert (H2 : reachable 0 cfg landed1) by (eapply reach_step; [exact H1|by apply st_run]).
  eapply reach_eq; [exact H2|eapply (st_reply 0 cfg 0 create cmd1 [5] false false 1 1 [cmd1] true landed1); reflexivity|]. reflexivity.
Qed.

Lemma sending_reachable : reachable 0 cfg sending.
Proof.
  assert (H1 : reachable 0 cfg reading).
  { eapply reach_eq; [apply answered_reachable|apply (st_start 0 cfg 1 bump None [tok 2] answered); [done| |done]|reflexivity].
    apply tok_new; [done..|]. vm_compute. done. }
  assert (H2 : reachable 0 cfg readAll).
  { eapply reach_eq; [exact H1|apply (st_read 0 cfg 1 bump 2 [] key [] [] got reading); reflexivity|reflexivity]. }
  eapply reach_eq; [exact H2|apply (st_decide 0 cfg 1 bump 2 [got] [] [tok 3] readAll); [reflexivity|]|reflexivity].
  apply tok_new; [done..|]. vm_compute. done.
Qed.

Lemma bumped_reachable : reachable 0 cfg bumped.
Proof.
  assert (H1 : reachable 0 cfg landed2) by (eapply reach_step; [apply sending_reachable|by apply st_run]).
  assert (H2 : reachable 0 cfg checking).
  { eapply reach_eq; [exact H1|apply (st_lost 0 cfg 1 bump cmd2 [6] false false 1 7 [cmd2] landed2); reflexivity|reflexivity]. }
  assert (H3 : reachable 0 cfg looked).
  { eapply reach_eq; [exact H2|apply (st_look 0 cfg 1 bump cmd2 [6] false 1 [] second [] [cmd2] checking); reflexivity|reflexivity]. }
  eapply reach_eq; [exact H3|apply (st_judge 0 cfg 1 bump cmd2 [6] false 1 [verdictApplied] [cmd2] false looked); reflexivity|reflexivity].
Qed.

End Demo.

Section Return.
Context {T E : Type} `{Codec T} (zero : T) (cfg : RedisConfig).

Abbreviation World := (World (T:=T) (E:=E)).
Abbreviation Op := (Op (T:=T) (E:=E)).
Abbreviation Pc := (Pc (T:=T) (E:=E)).
Abbreviation Act := (Act (T:=T) (E:=E)).

(** ** How many turns a call has left *)

Definition width (op : Op) : Z := zlen (opKeys op).
Definition round (op : Op) : Z := 2 * width op + 6.

Definition turns (op : Op) (pc : Pc) : Z :=
  match pc with
  | Reading rem _ todo => Z.max 0 rem * round op + zlen todo + 1
  | Waiting _ _ _ _ rem _ => Z.max 0 rem * round op + 2 * width op + 5
  | Checking _ _ _ rem _ todo => Z.max 0 rem * round op + width op + 3 + zlen todo
  | Returned _ => 0
  end.

Definition actTurns (op : Op) (a : Act) : Z :=
  match a with
  | Go pc => turns op pc
  | Send _ _ _ _ rem => Z.max 0 (rem - 1) * round op + 2 * width op + 5
  end.

(** The turns that a call has in all. *)
Definition allTurns (op : Op) : Z := (MaxAttempts cfg + 1) * round op.

(** What makes [turns] a bound. *)
Definition fits (op : Op) (pc : Pc) : Prop :=
  match pc with
  | Reading rem _ todo => zlen todo ≤ width op ∧ match op with OpDelete _ _ _ => rem = MaxAttempts cfg | _ => True end
  | Waiting c _ _ _ _ _ => zlen (cWrites c) ≤ width op
  | Checking c _ _ _ _ todo => zlen (cWrites c) ≤ width op ∧ zlen todo ≤ width op
  | Returned _ => True
  end.

Definition actFits (op : Op) (a : Act) : Prop :=
  match a with Go pc => fits op pc | Send c _ _ _ _ => zlen (cWrites c) ≤ width op end.

(** [a] fits and has fewer than [n] turns left. *)
Definition nearer (op : Op) (n : Z) (a : Act) : Prop := actFits op a ∧ actTurns op a < n.

Lemma width_nonneg op : 0 ≤ width op.
Proof. apply zlen_nonneg. Qed.

Lemma turns_read op rem got : turns op (Reading rem got []) = Z.max 0 rem * round op + 1.
Proof. unfold turns. change (zlen (@nil bytes)) with 0. lia. Qed.

Lemma turns_checked op c vals resumed rem got :
  turns op (Checking c vals resumed rem got []) = Z.max 0 rem * round op + width op + 3.
Proof. unfold turns. change (zlen (@nil pendingWrite)) with 0. lia. Qed.

Lemma turns_nonneg op pc : 0 ≤ turns op pc.
Proof.
  pose proof (width_nonneg op). unfold turns, round.
  destruct pc as [rem got todo| |c vals resumed rem got todo|]; try pose proof (zlen_nonneg todo); nia.
Qed.

Lemma nearer_return op n r : 0 < n → nearer op n (Go (Returned r)).
Proof. by split. Qed.

Lemma nearer_read op n rem : Z.max 0 rem * round op + width op + 1 < n →
  match op with OpDelete _ _ _ => False | _ => True end → nearer op n (Go (Reading rem [] (opKeys op))).
Proof. intros Hn Hop. split; cbn [actFits fits actTurns turns]; unfold width in *; [|lia]. split; [lia|]. by destruct op. Qed.

Lemma nearer_send op n c vals ambiguous resumed rem :
  zlen (cWrites c) ≤ width op → 0 < rem → rem * round op < n → nearer op n (Send c vals ambiguous resumed rem).
Proof. intros Hc Hr Hn. split; [done|]. cbn [actTurns]. unfold round in *. pose proof (width_nonneg op). nia. Qed.

Lemma nearer_check op n c vals resumed rem :
  zlen (cWrites c) ≤ width op → Z.max 0 rem * round op + 2 * width op + 3 < n → nearer op n (check c vals resumed rem).
Proof. intros Hc Hn. split; [by split|]. cbn [check actTurns turns]. lia. Qed.

Lemma nearer_lost op n resumed rem : Z.max 0 rem * round op + width op + 1 < n → 0 < n → nearer op n (onLost op resumed rem).
Proof.
  intros Hn H0. unfold onLost. destruct op; try by apply nearer_return.
  - case_match; [by apply nearer_return|by apply nearer_read].
  - case_match; [by apply nearer_return|by apply nearer_read].
Qed.

Lemma zlen_prepareAll keys (got : list (option (bytes * Versioned T))) (next : list T) tokens ws :
  prepareAll (E:=E) cfg keys got next tokens = Ok ws → zlen ws ≤ zlen keys.
Proof.
  revert got next tokens ws. induction keys as [|k keys IH]; intros got next tokens ws; cbn [prepareAll].
  - intros [= <-]. done.
  - pose proof (zlen_nonneg keys). destruct got as [|g got]; [intros [= <-]; rewrite zlen_nil, zlen_cons; lia|].
    destruct next as [|v next]; [intros [= <-]; rewrite zlen_nil, zlen_cons; lia|].
    destruct tokens as [|t tokens]; [intros [= <-]; rewrite zlen_nil, zlen_cons; lia|].
    destruct (prepareWrite _ _ _ _ _ _ _); [|done]. destruct (prepareAll _ _ _ _ _) as [ws'|] eqn:E'; [|done].
    intros [= <-]. apply IH in E'. rewrite !zlen_cons. lia.
Qed.

(** ** Every turn brings the return nearer *)

Section Turns.
Context (positive : 1 ≤ MaxAttempts cfg) (op : Op).

Lemma afterRead_nearer rem got cid tokens :
  fits op (Reading rem got []) → nearer op (turns op (Reading rem got [])) (afterRead zero cfg op rem got cid tokens).
Proof using positive.
  intros [_ Hd]. pose proof (turns_nonneg op (Reading rem got [])). pose proof (width_nonneg op).
  assert (Hpos : 0 < turns op (Reading rem got [])) by (rewrite turns_read; unfold round; nia).
  assert (Hret : ∀ r, nearer op (turns op (Reading rem got [])) (Go (Returned r))) by (intros; by apply nearer_return).
  unfold afterRead. destruct op as [key mutate|keys mutate|key value|key expect matches]; try apply Hret.
  1,2: destruct (Z.leb_spec rem 0); [apply Hret|]; destruct (opMutate _ _ _) as [[next save]|]; [|apply Hret];
    destruct save; [|apply Hret]; cbn [negb]; case_match; [apply Hret|]; destruct (prepareAll _ _ _ _ _) as [ws|] eqn:Ep; [|apply Hret];
    apply nearer_send; [by eapply zlen_prepareAll|done|]; rewrite turns_read; lia.
  destruct got as [|[[b v]|] [|]]; repeat (case_match; try apply Hret).
  all: apply nearer_send; [done|lia|]; rewrite Hd, turns_read; lia.
Qed.

Lemma afterReply_nearer c vals ambiguous resumed rem sid applied :
  fits op (Waiting c vals ambiguous resumed rem sid) →
  nearer op (turns op (Waiting c vals ambiguous resumed rem sid)) (afterReply op c vals ambiguous resumed rem applied).
Proof.
  intros Hf. cbn [fits turns] in *. pose proof (width_nonneg op). assert (0 ≤ Z.max 0 rem * round op) by (unfold round; nia).
  unfold afterReply, onApplied. destruct applied; [apply nearer_return; lia|]. case_match.
  - apply nearer_lost; lia.
  - apply nearer_check; [done|lia].
Qed.

Lemma afterRefused_nearer c vals ambiguous resumed rem sid :
  fits op (Waiting c vals ambiguous resumed rem sid) →
  nearer op (turns op (Waiting c vals ambiguous resumed rem sid)) (afterRefused op c vals ambiguous resumed rem).
Proof.
  intros Hf. cbn [fits turns] in *. pose proof (width_nonneg op). assert (0 ≤ Z.max 0 rem * round op) by (unfold round; nia).
  unfold afterRefused, returnErr. case_match; [apply nearer_return; lia|apply nearer_check; [done|lia]].
Qed.

Lemma afterCheck_nearer c vals resumed rem got canceled :
  fits op (Checking c vals resumed rem got []) →
  nearer op (turns op (Checking c vals resumed rem got [])) (afterCheck op c vals resumed rem got canceled).
Proof.
  intros [Hc _]. rewrite turns_checked. pose proof (width_nonneg op).
  assert (0 ≤ Z.max 0 rem * round op) by (unfold round; nia).
  unfold afterCheck, onApplied, unresolved, returnErr.
  destruct (judgeAll got); try (apply nearer_return; lia); [apply nearer_lost; lia|].
  destruct (Z.leb_spec rem 0); [apply nearer_return; lia|]. case_match; [apply nearer_return; lia|].
  apply nearer_send; [done|done|lia].
Qed.

Lemma startCall_nearer resumed cid tokens : nearer op (allTurns op) (startCall zero cfg op resumed cid tokens).
Proof using positive.
  pose proof (width_nonneg op). assert (0 ≤ MaxAttempts cfg * round op) by (unfold round; nia).
  assert (Hret : ∀ r, nearer op (allTurns op) (Go (Returned r))) by (intros; apply nearer_return; unfold allTurns, round in *; nia).
  assert (Hread : nearer op (allTurns op) (Go (Reading (MaxAttempts cfg) [] (opKeys op)))).
  { split; [|cbn [actTurns turns]; unfold allTurns, round, width in *; nia]. split; [done|]. by destruct op. }
  assert (Hchk : ∀ c vals, resumes op resumed = Some c → nearer op (allTurns op) (check c vals true (MaxAttempts cfg))).
  { intros c vals (_ & Hk & _)%resumes_keys. apply nearer_check; [|unfold allTurns, round, width in *; nia].
    unfold width. rewrite <- Hk. unfold zlen. by rewrite length_fmap. }
  unfold startCall. destruct (resumes op resumed) as [c|] eqn:Er.
  - unfold resumeUpdate. destruct op as [key mutate|keys mutate|key value|key expect matches];
      repeat (case_match; try apply Hret); try (by apply Hchk); apply Hread.
  - destruct op as [key mutate|keys mutate|key value|key expect matches]; try (by apply Hread).
    + case_match; [apply Hret|apply Hread].
    + destruct tokens as [|token tokens]; [apply Hret|]. case_match; [|apply Hret].
      apply nearer_send; [done|lia|]. unfold allTurns, round in *. nia.
Qed.

End Turns.

(** ** Steps *)

(** The call [i] stays as it is, or takes a turn. *)
Definition moves (i : N) (cl : Call) (W' : World) : Prop :=
  calls W' !! i = Some cl ∨
  ∃ pc cmds, calls W' !! i = Some (mkCall (clOp cl) pc cmds) ∧ fits (clOp cl) pc ∧ turns (clOp cl) pc < turns (clOp cl) (clPc cl).

Lemma perform_moves j op cmds pc a (W W1 : World) i cl :
  calls W1 = calls W → calls W !! j = Some (mkCall op pc cmds) → nearer op (turns op pc) a →
  calls W !! i = Some cl → moves i cl (perform j op cmds a W1).
Proof.
  intros HW Hj [Hf Ht] Hi. unfold moves. destruct (decide (i = j)) as [->|Hne].
  - rewrite Hj in Hi. injection Hi as <-. right. cbn [clOp clPc]. destruct a as [pc'|c vals ambiguous resumed rem]; cbn [perform calls].
    + exists pc', cmds. by rewrite lookup_insert_eq.
    + eexists _, _. rewrite lookup_insert_eq. by split_and!.
  - left. destruct a; cbn [perform calls]; rewrite lookup_insert_ne by done; by rewrite HW.
Qed.

Lemma start_moves j op a (W W1 : World) i cl :
  calls W1 = calls W → calls W !! j = None → calls W !! i = Some cl → moves i cl (perform j op [] a W1).
Proof.
  intros HW Hj Hi. left. assert (i ≠ j) by congruence.
  destruct a; cbn [perform calls]; rewrite lookup_insert_ne by done; by rewrite HW.
Qed.

Definition allFit (W : World) : Prop := ∀ i cl, calls W !! i = Some cl → fits (clOp cl) (clPc cl).

Lemma step_moves (W W' : World) i cl :
  1 ≤ MaxAttempts cfg → allFit W → step zero cfg W W' → calls W !! i = Some cl → moves i cl W'.
Proof.
  intros positive Hfit Hs Hi.
  assert (Hret : ∀ op pc r, 0 < turns op pc → nearer op (turns op pc) (Go (Returned r))) by (intros; by apply nearer_return).
  destruct Hs as
    [j op resumed tokens W Hj Hnew Hres|j op rem got k todo cmds c W Hj Hr|j op rem got cmds tokens W Hj Hnew
    |j op rem got k todo cmds W Hj Hr|j op rem got k todo cmds W Hj|sid c W Hf
    |j op c vals amb resumed rem sid cmds applied W Hj Hr|j op c vals amb resumed rem sid cmds W Hj Hf
    |j op c vals amb resumed rem sid cmds W Hj|j op c vals resumed rem got w todo cmds W Hj
    |j op c vals resumed rem got cmds canceled W Hj|j op c vals resumed rem got w todo cmds W Hj|k W Hk];
    try (by left); try (eapply start_moves; [| |exact Hi]; [done|exact Hj]);
    (eapply perform_moves; [| |clear Hi|exact Hi]; [done|exact Hj|]); pose proof (Hfit _ _ Hj) as F; cbn [clOp clPc] in F;
    pose proof (width_nonneg op); assert (0 ≤ Z.max 0 rem * round op) by (unfold round; nia).
  - destruct F as [F1 F2]. rewrite zlen_cons in F1. split; [split; [lia|done]|]. cbn [actTurns turns]. rewrite zlen_cons. lia.
  - by apply afterRead_nearer.
  - apply Hret. cbn [turns]. pose proof (zlen_nonneg (k :: todo)). lia.
  - apply Hret. cbn [turns]. pose proof (zlen_nonneg (k :: todo)). lia.
  - by apply (afterReply_nearer op c vals amb resumed rem sid).
  - by apply (afterRefused_nearer op c vals amb resumed rem sid).
  - cbn [fits] in F. apply nearer_check; [done|cbn [turns]; lia].
  - destruct F as [F1 F2]. rewrite zlen_cons in F2. split; [split; [done|lia]|]. cbn [actTurns turns]. rewrite zlen_cons. lia.
  - by apply afterCheck_nearer.
  - apply Hret. cbn [turns]. pose proof (zlen_nonneg (w :: todo)). lia.
Qed.

(** Every call fits, and has at most the turns it started with. *)
Definition bounded (W : World) : Prop :=
  ∀ i cl, calls W !! i = Some cl → fits (clOp cl) (clPc cl) ∧ turns (clOp cl) (clPc cl) ≤ allTurns (clOp cl).

Lemma perform_same i j op cmds a (W W1 : World) :
  calls W1 = calls W → i ≠ j → calls (perform j op cmds a W1) !! i = calls W !! i.
Proof. intros HW Hne. destruct a; cbn [perform calls]; rewrite lookup_insert_ne by done; by rewrite HW. Qed.

Lemma started_bounded j op a (W : World) n :
  nearer op n a → n ≤ allTurns op →
  ∃ pc cmds, calls (perform j op [] a W) !! j = Some (mkCall op pc cmds) ∧ fits op pc ∧ turns op pc ≤ allTurns op.
Proof.
  intros [Hf Ht] Hn. destruct a as [pc|c vals ambiguous resumed rem]; cbn [perform calls].
  - exists pc, []. rewrite lookup_insert_eq. split_and!; try done. cbn [actTurns] in Ht. lia.
  - eexists _, _. rewrite lookup_insert_eq. split_and!; try done. cbn [actTurns turns] in *. lia.
Qed.

(** A call of the later state is one of the earlier state or has just started. *)
Lemma step_calls (W W' : World) i cl' : step zero cfg W W' → calls W' !! i = Some cl' → calls W !! i = None →
  ∃ op resumed tokens, W' = perform i op [] (startCall zero cfg op resumed (fresh W) tokens) (draw tokens W).
Proof.
  intros Hs Hi' Hi.
  assert (Hsame : ∀ j op cmds a (W1 : World) cl, calls W1 = calls W → calls W !! j = Some cl →
    calls (perform j op cmds a W1) !! i = Some cl' → False).
  { intros j op cmds a W1 cl HW Hj Hp. rewrite (perform_same i j op cmds a W W1) in Hp; congruence. }
  destruct Hs as [j op resumed tokens W Hj Hnew Hres| | | | | | | | | | | |];
    try (exfalso; eapply Hsame; [|eassumption|exact Hi']; done); try (cbn [calls] in Hi'; congruence).
  destruct (decide (i = j)) as [->|Hne]; [by exists op, resumed, tokens|].
  rewrite (perform_same i j op [] _ W) in Hi'; [congruence|done|done].
Qed.

Lemma reachable_bounded (W : World) : 1 ≤ MaxAttempts cfg → reachable zero cfg W → bounded W.
Proof.
  intros positive. induction 1 as [|W W' Hr IH Hs]; intros i cl' Hi'; [done|].
  destruct (calls W !! i) as [cl|] eqn:Hi.
  - destruct (IH i cl Hi) as [Hf Ht]. destruct (step_moves W W' i cl positive) as [Hsame|(pc & cmds & Hpc & Hf' & Ht')]; try done.
    + intros j cl1 Hj. by destruct (IH _ _ Hj).
    + rewrite Hi' in Hsame. by injection Hsame as ->.
    + rewrite Hi' in Hpc. injection Hpc as ->. cbn. split; [done|lia].
  - destruct (step_calls W W' i cl' Hs Hi' Hi) as (op & resumed & tokens & ->).
    destruct (started_bounded i op _ (draw tokens W) _ (startCall_nearer positive op resumed (fresh W) tokens) (Z.le_refl _))
      as (pc & cmds & Hpc & Hf & Ht).
    rewrite Hi' in Hpc. by injection Hpc as ->.
Qed.

(** ** Runs of the store and the turns of one call *)

(** A run in which the call [i] takes [n] turns. *)
Inductive run_of (i : N) : nat → World → World → Prop :=
| run_nil W : run_of i 0 W W
| run_other n W W' W'' : step zero cfg W W' → calls W' !! i = calls W !! i → run_of i n W' W'' → run_of i n W W''
| run_turn n W W' W'' : step zero cfg W W' → calls W' !! i ≠ calls W !! i → run_of i n W' W'' → run_of i (S n) W W''.

Lemma run_turns i n (W W' : World) cl :
  1 ≤ MaxAttempts cfg → reachable zero cfg W → run_of i n W W' → calls W !! i = Some cl → Z.of_nat n ≤ turns (clOp cl) (clPc cl).
Proof.
  intros positive Hr Hrun. revert cl. induction Hrun as [W|n W W1 W2 Hs He Hrun IH|n W W1 W2 Hs He Hrun IH]; intros cl Hi.
  - apply turns_nonneg.
  - apply IH; [by eapply reach_step|]. by rewrite He.
  - destruct (step_moves W W1 i cl positive) as [Hsame|(pc & cmds & Hpc & Hf' & Ht')]; try done.
    + intros j cl1 Hj. by destruct (reachable_bounded W positive Hr _ _ Hj).
    + congruence.
    + pose proof (IH (reach_step _ _ _ _ Hr Hs) _ Hpc) as Hn. cbn in Hn. lia.
Qed.

(** There are always new tokens. *)
Lemma new_token (used : gset bytes) : ∃ t, token_ok t ∧ (t ∉ used).
Proof.
  set (n := infinite_fresh (0%nat :: (length <$> elements used))).
  assert (Hn : n ∉ 0%nat :: (length <$> elements used)) by apply infinite_is_fresh.
  apply not_elem_of_cons in Hn as [H0 Hn]. exists (replicate n 97). split.
  - split_and!; [by destruct n| |]; intros [? _]%elem_of_replicate; done.
  - intros Hin. apply Hn. apply list_elem_of_fmap. exists (replicate n 97). rewrite length_replicate. split; [done|].
    by apply elem_of_elements.
Qed.

Lemma new_tokens_exist (op : Op) (W : World) : ∃ tokens, new_tokens op tokens W.
Proof.
  unfold new_tokens. generalize (length (opKeys op)) as n. induction n as [|n (l & Hl & Hn & Ho & Hf)].
  - exists []. split_and!; [done|constructor..].
  - destruct (new_token (list_to_set l ∪ used W)) as (t & Ht & Hu). exists (t :: l). rewrite elem_of_union, elem_of_list_to_set in Hu.
    split_and!; [cbn; by rewrite Hl|constructor; tauto|by constructor|constructor; tauto].
Qed.

(** A call that has not returned can take a turn. *)
Lemma call_steps (W : World) i op pc cmds :
  1 ≤ MaxAttempts cfg → fits op pc → calls W !! i = Some (mkCall op pc cmds) →
  (∃ r, pc = Returned r) ∨
  ∃ a W1, calls W1 = calls W ∧ nearer op (turns op pc) a ∧ step zero cfg W (perform i op cmds a W1).
Proof.
  intros positive F Hi. pose proof (width_nonneg op).
  destruct pc as [rem got [|k todo]|c vals ambiguous resumed rem sid|c vals resumed rem got [|w todo]|r]; [right..|by left; exists r];
    assert (0 ≤ Z.max 0 rem * round op) by (unfold round; nia).
  - destruct (new_tokens_exist op W) as (tokens & Hnew). eexists _, (draw tokens W). split_and!; [done| |by eapply st_decide].
    by apply afterRead_nearer.
  - eexists _, W. split_and!; [done| |by eapply st_readFailed]. apply nearer_return. cbn [turns]. pose proof (zlen_nonneg (k :: todo)). lia.
  - eexists _, W. split_and!; [done| |by eapply st_lost]. apply nearer_check; [done|]. cbn [turns]. lia.
  - eexists _, W. split_and!; [done| |by eapply (st_judge _ _ _ _ _ _ _ _ _ _ false)]. by apply afterCheck_nearer.
  - eexists _, W. split_and!; [done| |by eapply st_lookFailed]. apply nearer_return. cbn [turns]. pose proof (zlen_nonneg (w :: todo)). lia.
Qed.

(** C20. Calls return.  Whatever the network and the other calls do, a call
    takes at most (MaxAttempts + 1) * (2 * keys + 6) turns in any run, since
    retries after a lost race and resends after a lost reply share one
    budget; and until it has returned there is a turn it can take. *)
Theorem calls_return (W : World) i cl config :
  NewRedisStore config = Some cfg → reachable zero cfg W → calls W !! i = Some cl →
  (∀ n W', run_of i n W W' → Z.of_nat n ≤ (MaxAttempts cfg + 1) * (2 * zlen (opKeys (clOp cl)) + 6)) ∧
  ((∃ r, clPc cl = Returned r) ∨ ∃ W', step zero cfg W W' ∧ calls W' !! i ≠ calls W !! i).
Proof.
  intros [positive _]%NewRedisStore_ok Hr Hi. destruct (reachable_bounded W positive Hr i cl Hi) as [Hf Hb]. split.
  - intros n W' Hrun. pose proof (run_turns i n W W' cl positive Hr Hrun Hi). unfold allTurns, round, width in Hb. lia.
  - destruct cl as [op pc cmds]. destruct (call_steps W i op pc cmds positive Hf Hi) as [?|(a & W1 & HW & Ha & Hs)]; [by left|].
    right. eexists; split; [exact Hs|]. rewrite Hi. destruct Ha as [_ Ht].
    destruct a as [pc'|c vals ambiguous resumed rem]; cbn [perform calls]; rewrite lookup_insert_eq; intros [= Heq]; cbn [actTurns] in Ht.
    + subst. lia.
    + rewrite <- Heq in Ht. cbn [turns] in Ht. lia.
Qed.
End Return.

Import Demo.

Example calls_return_witness :
  (∀ n W', run_of 0 cfg 1 n sending W' → Z.of_nat n ≤ 24) ∧
  ∃ W', step 0 cfg sending W' ∧ calls W' !! 1%N ≠ calls sending !! 1%N.
Proof.
  destruct (calls_return 0 cfg sending 1 (mkCall bump (Waiting cmd2 [6] false false 1 7) [cmd2]) cfg eq_refl sending_reachable eq_refl)
    as [Hn [(r & Hr)|Hs]]; [done|]. split; [exact Hn|exact Hs].
Defined.

Section Alone.
Context {T E : Type} `{Codec T} (zero : T) (cfg : RedisConfig).

Abbreviation World := (VsRedis.World (T:=T) (E:=E)).
Abbreviation Op := (VsRedis.Op (T:=T) (E:=E)).
Abbreviation Pc := (VsRedis.Pc (T:=T) (E:=E)).
Abbreviation Act := (VsRedis.Act (T:=T) (E:=E)).
Abbreviation Res := (VsRedis.Res (T:=T) (E:=E)).
Abbreviation contents := (gmap bytes (Versioned T)).

(** ** A call alone *)

(** The steps of the call [i] when nothing disturbs it: nobody else takes a
    step, no key expires, every command gets through and every reply comes
    back.  Only the tokens it draws are free. *)
Inductive alone (i : N) (op : Op) : World → World → Prop :=
| al_start tokens W :
    calls W !! i = None → new_tokens op tokens W →
    alone i op W (perform i op [] (startCall zero cfg op None (fresh W) tokens) (draw tokens W))
| al_read rem got k todo cmds c W :
    calls W !! i = Some (mkCall op (Reading rem got (k :: todo)) cmds) → readRaw (raw W !! k) = Some c →
    alone i op W (perform i op cmds (Go (Reading rem (got ++ [c]) todo)) W)
| al_malformed rem got k todo cmds W :
    calls W !! i = Some (mkCall op (Reading rem got (k :: todo)) cmds) → readRaw (T:=T) (raw W !! k) = None →
    alone i op W (perform i op cmds (returnErr ErrMalformed) W)
| al_decide rem got cmds tokens W :
    calls W !! i = Some (mkCall op (Reading rem got []) cmds) → new_tokens op tokens W →
    alone i op W (perform i op cmds (afterRead zero cfg op rem got (fresh W) tokens) (draw tokens W))
| al_run c vals amb resumed rem sid cmds c' W :
    calls W !! i = Some (mkCall op (Waiting c vals amb resumed rem sid) cmds) → flying W !! sid = Some c' →
    alone i op W (mkWorld (fst (runScript (raw W) c')) (sends W) (delete sid (flying W))
                    (<[sid := snd (runScript (raw W) c')]> (replies W)) (calls W)
                    (if snd (runScript (raw W) c') then log W ++ [Landed c'] else log W) (used W) (handed W) (fresh W))
| al_reply c vals amb resumed rem sid cmds applied W :
    calls W !! i = Some (mkCall op (Waiting c vals amb resumed rem sid) cmds) → replies W !! sid = Some applied →
    alone i op W (perform i op cmds (afterReply op c vals amb resumed rem applied) W)
| al_look c vals resumed rem got w todo cmds W :
    calls W !! i = Some (mkCall op (Checking c vals resumed rem got (w :: todo)) cmds) →
    alone i op W (perform i op cmds (Go (Checking c vals resumed rem (got ++ [judge w (raw W !! pwKey w)]) todo)) W)
| al_judge c vals resumed rem got cmds W :
    calls W !! i = Some (mkCall op (Checking c vals resumed rem got []) cmds) →
    alone i op W (perform i op cmds (afterCheck op c vals resumed rem got false) W).

Lemma alone_step i op (W W' : World) : alone i op W W' → step zero cfg W W'.
Proof. intros []; [by apply st_start|by eapply st_read|by eapply st_malformed|by eapply st_decide|by apply st_run|by eapply st_reply|by eapply st_look|by eapply st_judge]. Qed.

(** ** What it should do *)

(** The values a call of the memory store would write. *)
Definition memWrites (op : Op) (items : contents) : list T :=
  match op with
  | OpUpdate key mutate =>
      match mutate (memValue zero (items !! key)) (memFound (items !! key)) with Ok (next, true) => [next] | _ => [] end
  | OpUpdateAll keys mutate =>
      let current := map (λ k, items !! k) keys in
      match mutate (map (memValue zero) current) (map memFound current) with
      | Ok (next, true) => if checkUpdateAll keys && (zlen next =? zlen keys) then next else []
      | _ => []
      end
  | OpCreate _ value => [value]
  | OpDelete _ _ _ => []
  end.

Definition encodable (v : T) : bool := match Encode v with Some _ => true | None => false end.

(** The memory store's call; a store with a codec fails, and changes
    nothing, when a value the call writes has no encoding. *)
Definition codecCall (op : Op) (items : contents) : contents * Res :=
  if forallb encodable (memWrites op items) then memCall zero op items else (items, RErr ErrCodec).

Section Correct.
Context (history_pos : 1 ≤ WriteTokenHistory cfg) (positive : 1 ≤ MaxAttempts cfg) (law : CodecLaw T).

(** ** Reading *)

(** What a read of a key finds. *)
Definition readOf (m : gmap bytes bytes) (k : bytes) : option (bytes * Versioned T) :=
  match m !! k with Some b => match decodeEnvelope b with Some v => Some (b, v) | None => None end | None => None end.

Lemma stored_decodes (W : World) k b :
  inv zero cfg W → raw W !! k = Some b → is_Some (decodeEnvelope (T:=T) b).
Proof using law.
  intros I Hr. destruct (i_raw _ _ _ I k b Hr) as (e & c & Hl & He & Hk & _ & <-).
  pose proof (landed_sent zero cfg W I c Hl) as Hs.
  assert (Hst : ∃ v : T, stores v e); [|destruct Hst as (v & Hv); rewrite (decode_stores law v e Hv); by eexists].
  destruct (wf_prepared _ _ _ _ (i_wf _ _ _ I c Hs)) as [(op & vals & _ & Hst & _)|[(v & w & Hw & _ & _ & _ & Hst)|(v & w & b & x & Hw & Hd & _)]].
  - apply list_elem_of_lookup in He as (j & He). rewrite Forall2_lookup in Hst. specialize (Hst j). rewrite He in Hst.
    inversion Hst. by eexists.
  - rewrite Hw in He. apply list_elem_of_singleton in He as ->. by exists v.
  - rewrite Hw in He. by apply list_elem_of_singleton in He as ->.
Qed.

Lemma readRaw_readOf (W : World) k : inv zero cfg W → readRaw (raw W !! k) = Some (readOf (raw W) k).
Proof using law.
  intros I. unfold readRaw, readOf. destruct (raw W !! k) as [b|] eqn:Hb; [|done].
  by destruct (stored_decodes W k b I Hb) as (v & ->).
Qed.

Lemma readOf_base (W : World) k : inv zero cfg W → baseOf (readOf (raw W) k) = raw W !! k.
Proof using law.
  intros I. pose proof (readRaw_readOf W k I) as Hr. unfold readOf in *. destruct (raw W !! k) as [b|]; [|done].
  cbn in *. by destruct (decodeEnvelope b).
Qed.

Lemma readOf_stored (m : gmap bytes bytes) k : snd <$> readOf m k = stored m !! k.
Proof using. unfold readOf, stored. rewrite lookup_omap. destruct (m !! k) as [b|]; [|done]. cbn. by destruct (decodeEnvelope b). Qed.

Lemma reads_stored (m : gmap bytes bytes) keys :
  map (fmap snd) (map (readOf m) keys) = map (λ k, stored m !! k) keys ∧
  map (valueOf zero) (map (readOf m) keys) = map (memValue zero) (map (λ k, stored m !! k) keys) ∧
  map foundOf (map (readOf m) keys) = map memFound (map (λ k, stored m !! k) keys).
Proof using.
  assert (Hf : map (fmap snd) (map (readOf m) keys) = map (λ k, stored m !! k) keys).
  { rewrite map_map. apply map_ext. intros k. apply readOf_stored. }
  destruct (vals_shared zero (map (readOf m) keys)) as [Hv Hd]. rewrite Hf in Hv, Hd. done.
Qed.

(** ** Preparing and sending *)

Lemma vals_returns (op : Op) c vals : vals_ok zero op c vals →
  ∃ l, returns zero op c l ∧ onApplied op c vals = Go (Returned (RApplied l)).
Proof using.
  intros [Hk Hv]. unfold onApplied. eexists. split; [|reflexivity]. split; [done|]. destruct op; try done; by exists vals.
Qed.

(** Preparing the writes of what was read fails exactly when a value has no
    encoding; the writes replace what is stored. *)
Lemma prepareAll_alone keys m (next : list T) tokens :
  Forall (λ k, baseOf (readOf m k) = m !! k ∧ (∀ b, m !! k = Some b → ∃ h, parseEnvelope b = Ok h)) keys →
  length next = length keys → length tokens = length keys →
  match prepareAll (E:=E) cfg keys (map (readOf m) keys) next tokens with
  | Ok ws => forallb encodable next = true ∧ Forall (λ w, m !! pwKey w = pwBase w) ws
  | Err e => forallb encodable next = false ∧ e = ErrCodec
  end.
Proof using.
  revert next tokens. induction keys as [|k keys IH]; intros [|v next] [|t tokens] Hk Hn Ht; try done. apply Forall_cons in Hk as [[Hb Hp] Hks].
  specialize (IH next tokens Hks ltac:(by simplify_eq/=) ltac:(by simplify_eq/=)).
  cbn [map prepareAll forallb]. rewrite Hb. unfold prepareWrite. change (encodable v) with (match Encode v with Some _ => true | None => false end).
  destruct (Encode v) as [payload|]; [|done]. cbn [andb]. destruct (m !! k) as [b|] eqn:Hmk.
  - destruct (Hp b eq_refl) as (h & ->). destruct (prepareAll _ _ _ _ _) as [ws|]; [|done]. destruct IH. split; [done|]. by constructor.
  - destruct (prepareAll _ _ _ _ _) as [ws|]; [|done]. destruct IH. split; [done|]. by constructor.
Qed.

Lemma stored_parses (W : World) k : inv zero cfg W →
  baseOf (readOf (raw W) k) = raw W !! k ∧ (∀ b, raw W !! k = Some b → ∃ h, parseEnvelope b = Ok h).
Proof using law.
  intros I. split; [by apply readOf_base|]. intros b Hk. destruct (stored_decodes W k b I Hk) as (v & Hd).
  unfold decodeEnvelope in Hd. destruct (parseEnvelope b) as [h|]; [by exists h|done].
Qed.

(** ** What a call does is right *)

Section Right.
Context (op : Op) (m0 : gmap bytes bytes).

(** The command, when it runs on [m0], does what the call should do. *)
Definition sent_right (c : Cmd) (rem : Z) : Prop :=
  if compares m0 c then codecCall op (stored m0) = memCall zero (fenceless op) (stored m0)
  else ∃ r, onLost op false rem = Go (Returned r) ∧ codecCall op (stored m0) = (stored m0, r).

Definition act_right (a : Act) : Prop :=
  match a with
  | Go (Returned r) => codecCall op (stored m0) = (stored m0, r)
  | Send c vals amb resumed rem => amb = false ∧ resumed = false ∧ sent_right c (rem - 1)
  | _ => False
  end.

Lemma sends_right c rem :
  codecCall op (stored m0) = memCall zero (fenceless op) (stored m0) → Forall (λ w, m0 !! pwKey w = pwBase w) (cWrites c) →
  sent_right c rem.
Proof using.
  intros Hc Hf. unfold sent_right. assert (compares m0 c = true) as ->; [|done]. apply forallb_forall. intros w Hw%list_elem_of_In.
  rewrite Forall_forall in Hf. apply bool_decide_eq_true_2. by apply Hf.
Qed.

End Right.

(** The decision of an update, once its keys are read. *)
Lemma update_right (op : Op) (W : World) cid tokens :
  inv zero cfg W → (match op with OpUpdate _ _ => True | OpUpdateAll keys _ => checkUpdateAll keys = true | _ => False end) →
  length tokens = length (opKeys op) →
  act_right op (raw W) (afterRead zero cfg op (MaxAttempts cfg) (map (readOf (raw W)) (opKeys op)) cid tokens).
Proof using law positive.
  intros I Hop Ht. set (keys := opKeys op) in *. destruct (reads_stored (raw W) keys) as (Hcur & Hval & Hfound).
  assert (Hps : Forall (λ k, baseOf (readOf (raw W) k) = raw W !! k ∧ (∀ b, raw W !! k = Some b → ∃ h, parseEnvelope b = Ok h)) keys)
    by (apply Forall_forall; intros k _; by apply stored_parses).
  set (cur := map (λ k, stored (raw W) !! k) keys) in *.
  assert (Hmem : match opMutate op (map (memValue zero) cur) (map memFound cur) with
    | Err e => codecCall op (stored (raw W)) = (stored (raw W), RErr (ErrMutate e))
    | Ok (next, save) =>
        if negb save then codecCall op (stored (raw W)) = (stored (raw W), RDeclined cur)
        else if negb (zlen next =? zlen keys) then codecCall op (stored (raw W)) = (stored (raw W), RErr ErrNextLength)
        else codecCall op (stored (raw W)) = if forallb encodable next then memCall zero op (stored (raw W)) else (stored (raw W), RErr ErrCodec)
    end).
  { unfold codecCall. destruct op as [key mutate|ks mutate|key value|key expect matches]; try done; cbn [memWrites memCall opMutate opKeys] in *.
    - unfold memUpdate. cbn. subst cur keys. cbn. destruct (mutate _ _) as [[next [|]]|]; done.
    - unfold memUpdateAll. subst keys. fold cur. cbv zeta. rewrite Hop. cbn [negb andb]. destruct (mutate _ _) as [[next [|]]|]; try done.
      cbn [negb]. by destruct (zlen next =? zlen ks). }
  unfold afterRead. destruct (Z.leb_spec (MaxAttempts cfg) 0); [lia|]. fold keys.
  destruct op as [key mutate|ks mutate|key value|key expect matches]; try done;
    rewrite Hval, Hfound, Hcur; destruct (opMutate _ _ _) as [[next save]|e]; try exact Hmem;
    (destruct save; cbn [negb] in *; [|exact Hmem]); (destruct (Z.eqb_spec (zlen next) (zlen keys)) as [Hlen|]; cbn [negb] in *; [|exact Hmem]);
    pose proof (prepareAll_alone keys (raw W) next tokens Hps ltac:(unfold zlen in Hlen; lia) Ht) as Hp;
    (destruct (prepareAll _ _ _ _ _) as [ws|e']; destruct Hp as [Hen Hp]; rewrite Hen in Hmem; [|by rewrite Hp]);
    (split_and!; [done..|]); by apply sends_right.
Qed.

Lemma delete_right key expect matches (W : World) cid tokens :
  inv zero cfg W →
  act_right (OpDelete key expect matches : Op) (raw W) (afterRead zero cfg (OpDelete key expect matches) (MaxAttempts cfg) [readOf (raw W) key] cid tokens).
Proof using law.
  intros I. pose proof (readOf_stored (raw W) key) as Hst. pose proof (readOf_base W key I) as Hbase.
  assert (Hcc : codecCall (OpDelete key expect matches : Op) (stored (raw W)) = memDeleteIf (stored (raw W)) key expect matches) by done.
  unfold memDeleteIf in Hcc. rewrite <- Hst in Hcc. cbn [afterRead].
  destruct (readOf (raw W) key) as [[b v]|] eqn:Hg; cbn [fmap option_fmap option_map snd baseOf fst] in *.
  2:{ by destruct (expect =? 0). }
  destruct (vVersion v =? expect) eqn:Hv; cbn [negb] in *; [|done].
  destruct (match matches with Some f => _ | None => _ end) eqn:Hm; [done|]. split_and!; [done..|].
  apply sends_right; [|by constructor]. rewrite Hcc. cbn [fenceless memCall]. unfold memDeleteIf. rewrite <- Hst. by rewrite Hv.
Qed.

Lemma create_right key value (W : World) cid token :
  inv zero cfg W → act_right (OpCreate key value : Op) (raw W) (startCall zero cfg (OpCreate key value) None cid [token]).
Proof using law.
  intros I. cbn [startCall resumes]. unfold prepareWrite.
  assert (Hcc : codecCall (OpCreate key value : Op) (stored (raw W)) =
    if encodable value then memCreate (stored (raw W)) key value else (stored (raw W), RErr ErrCodec)).
  { unfold codecCall. cbn. by destruct (encodable value). }
  unfold encodable in Hcc. destruct (Encode value) as [payload|]; [|done]. split_and!; [done..|].
  destruct (raw W !! key) as [b|] eqn:Hk.
  - destruct (stored_decodes W key b I Hk) as (v & Hd). unfold sent_right, compares. cbn. rewrite Hk. rewrite bool_decide_eq_false_2 by done. cbn.
    eexists. split; [done|]. rewrite Hcc. unfold memCreate, stored. rewrite lookup_omap, Hk. cbn. by rewrite Hd.
  - apply sends_right; [done|]. by constructor.
Qed.

(** ** The stages of a call alone *)

Section Stages.
Context (i : N) (op : Op) (W0 : World) (room : zlen (log W0) + 1 < 2^64 - 3).

(** What has been read is what is stored. *)
Definition reading_right (pc : Pc) : Prop :=
  ∃ done todo, opKeys op = done ++ todo ∧ pc = Reading (MaxAttempts cfg) (map (readOf (raw W0)) done) todo ∧
    match op with OpCreate _ _ => False | OpUpdateAll keys _ => checkUpdateAll keys = true | _ => True end.

(** The call has at most [n] steps left, and has done nothing wrong. *)
Inductive stage : nat → World → Prop :=
| sg_new W : raw W = raw W0 → log W = log W0 → calls W !! i = None → stage (length (opKeys op) + 4) W
| sg_reading W rem got todo cmds :
    raw W = raw W0 → log W = log W0 → calls W !! i = Some (mkCall op (Reading rem got todo) cmds) →
    reading_right (Reading rem got todo) → stage (length todo + 3) W
| sg_sent W c vals rem sid cmds :
    raw W = raw W0 → log W = log W0 → calls W !! i = Some (mkCall op (Waiting c vals false false rem sid) cmds) →
    flying W !! sid = Some c → sent_right op (raw W0) c rem → stage 2 W
| sg_run W c vals rem sid cmds applied r :
    calls W !! i = Some (mkCall op (Waiting c vals false false rem sid) cmds) → flying W !! sid = None →
    replies W !! sid = Some applied → afterReply op c vals false false rem applied = Go (Returned r) →
    codecCall op (stored (raw W0)) = (stored (raw W), r) → stage 1 W
| sg_returned W r cmds :
    calls W !! i = Some (mkCall op (Returned r) cmds) → codecCall op (stored (raw W0)) = (stored (raw W), r) → stage 0 W.

(** A right action leads to the next stage. *)
Lemma perform_stage cmds a (W : World) :
  raw W = raw W0 → log W = log W0 → act_right op (raw W0) a → ∃ n, (n ≤ 2)%nat ∧ stage n (perform i op cmds a W).
Proof using.
  intros Hraw Hlog Ha. destruct a as [pc|c vals amb resumed rem].
  - destruct pc as [| | |r]; try done. exists 0%nat. split; [lia|]. eapply (sg_returned _ r cmds); cbn [perform calls raw]; [by rewrite lookup_insert_eq|].
    by rewrite Hraw.
  - destruct Ha as (-> & -> & Hs). exists 2%nat. split; [lia|].
    eapply (sg_sent _ c vals (rem - 1) (fresh W) (c :: cmds)); cbn [perform calls raw log flying]; try done; by rewrite lookup_insert_eq.
Qed.

Lemma stage_start W tokens : reachable zero cfg W → raw W = raw W0 → log W = log W0 → new_tokens op tokens W →
  ∃ n, (n < length (opKeys op) + 4)%nat ∧ stage n (perform i op [] (startCall zero cfg op None (fresh W) tokens) (draw tokens W)).
Proof using history_pos law room.
  intros Hr Hraw Hlog (Hlen & _). pose proof (reachable_inv zero cfg history_pos W Hr ltac:(rewrite Hlog; lia)) as I.
  assert (Hread : match op with OpCreate _ _ => False | OpUpdateAll keys _ => checkUpdateAll keys = true | _ => True end →
    ∃ n, (n < length (opKeys op) + 4)%nat ∧ stage n (perform i op [] (Go (Reading (MaxAttempts cfg) [] (opKeys op))) (draw tokens W))).
  { intros Hop. exists (length (opKeys op) + 3)%nat. split; [lia|]. eapply (sg_reading _ (MaxAttempts cfg) [] (opKeys op) []); cbn [perform raw log calls draw]; try done.
    - by rewrite lookup_insert_eq.
    - by exists [], (opKeys op). }
  assert (Hact : ∀ a, act_right op (raw W0) a → ∃ n, (n < length (opKeys op) + 4)%nat ∧ stage n (perform i op [] a (draw tokens W))).
  { intros a Ha. destruct (perform_stage [] a (draw tokens W)) as (n & Hn & Hs); try done. exists n. split; [lia|done]. }
  destruct op as [key mutate|keys mutate|key value|key expect matches] eqn:Eop; try (by apply Hread).
  - cbn [startCall resumes]. destruct (checkUpdateAll keys) eqn:Hc; cbn [negb]; [by apply Hread|]. apply Hact.
    cbn. unfold codecCall. cbn. unfold memUpdateAll. rewrite Hc. cbn. destruct (mutate _ _) as [[next [|]]|]; done.
  - apply Hact. destruct tokens as [|token [|]]; try done. rewrite <- Hraw. by apply create_right.
Qed.

Lemma stage_decide W rem got cmds tokens : reachable zero cfg W → raw W = raw W0 → log W = log W0 → new_tokens op tokens W →
  reading_right (Reading rem got []) →
  ∃ n, (n < 3)%nat ∧ stage n (perform i op cmds (afterRead zero cfg op rem got (fresh W) tokens) (draw tokens W)).
Proof using history_pos law positive room.
  intros Hr Hraw Hlog (Hlen & _) (dn & todo & Hk & [= -> -> <-] & Hop). rewrite app_nil_r in Hk. subst dn.
  pose proof (reachable_inv zero cfg history_pos W Hr ltac:(rewrite Hlog; lia)) as I.
  destruct (perform_stage cmds (afterRead zero cfg op (MaxAttempts cfg) (map (readOf (raw W0)) (opKeys op)) (fresh W) tokens) (draw tokens W)) as (n & Hn & Hs);
    [done..| |exists n; split; [lia|done]].
  rewrite <- Hraw. destruct op as [key mutate|keys mutate|key value|key expect matches] eqn:Eop; try done.
  - by apply update_right.
  - by apply update_right.
  - by apply delete_right.
Qed.

Lemma stage_run W c vals rem sid cmds : reachable zero cfg W → raw W = raw W0 → log W = log W0 →
  calls W !! i = Some (mkCall op (Waiting c vals false false rem sid) cmds) → flying W !! sid = Some c → sent_right op (raw W0) c rem →
  stage 1 (mkWorld (fst (runScript (raw W) c)) (sends W) (delete sid (flying W)) (<[sid := snd (runScript (raw W) c)]> (replies W)) (calls W)
             (if snd (runScript (raw W) c) then log W ++ [Landed c] else log W) (used W) (handed W) (fresh W)).
Proof using history_pos law room.
  intros Hr Hraw Hlog Hi Hf Hs. pose proof (reachable_inv zero cfg history_pos W Hr ltac:(rewrite Hlog; lia)) as I.
  assert (Hsent : sent W c) by (exists sid; by apply (i_flying _ _ _ I)).
  unfold sent_right in Hs. rewrite <- Hraw in Hs. unfold runScript. destruct (compares (raw W) c) eqn:Hcm; cbn [fst snd].
  - destruct (i_calls _ _ _ I i _ Hi) as (_ & Hv & _). destruct (vals_returns op c vals Hv) as (l & Hret & Happ).
    pose proof (returns_lands zero cfg law W I ltac:(rewrite Hlog; lia) c Hsent Hcm op l Hret) as Hmem.
    eapply (sg_run _ c vals rem sid cmds true (RApplied l)); cbn [calls flying replies raw]; [done|by rewrite lookup_delete_eq|by rewrite lookup_insert_eq|done|].
    rewrite <- Hraw. congruence.
  - destruct Hs as (r & Hlost & Hcc). eapply (sg_run _ c vals rem sid cmds false r); cbn [calls flying replies raw];
      [done|by rewrite lookup_delete_eq|by rewrite lookup_insert_eq|done|]. by rewrite <- Hraw.
Qed.

Lemma stage_read W rem got k todo cmds c : reachable zero cfg W → raw W = raw W0 → log W = log W0 →
  reading_right (Reading rem got (k :: todo)) → readRaw (raw W !! k) = Some c → stage (length todo + 3) (perform i op cmds (Go (Reading rem (got ++ [c]) todo)) W).
Proof using history_pos law room.
  intros Hr Hraw Hlog (dn & todo' & Hk & [= -> -> <-] & Hop) Hc. pose proof (reachable_inv zero cfg history_pos W Hr ltac:(rewrite Hlog; lia)) as I.
  rewrite (readRaw_readOf W k I), Hraw in Hc. injection Hc as <-.
  eapply sg_reading; cbn [perform raw log calls]; [done..|by rewrite lookup_insert_eq|].
  exists (dn ++ [k]), todo. split_and!; [by rewrite <- app_assoc|by rewrite map_app|done].
Qed.

Lemma stage_step n W W' : reachable zero cfg W → alone i op W W' → stage n W → ∃ n', (n' < n)%nat ∧ stage n' W'.
Proof using history_pos law positive room.
  intros Hr Ha Hs. inversion Hs as
    [W1 Hraw Hlog Hi|W1 rem got todo cmds Hraw Hlog Hi Hrd|W1 c vals rem sid cmds Hraw Hlog Hi Hf Hsr
    |W1 c vals rem sid cmds applied r Hi Hf Hrep Haft Hcc|W1 r cmds Hi Hcc]; subst W1 n;
    destruct Ha as [tokens W Hn Hnew|rem1 got1 k1 todo1 cmds1 c1 W Hi1 Hr1|rem1 got1 k1 todo1 cmds1 W Hi1 Hr1|rem1 got1 cmds1 tokens W Hi1 Hnew
      |c1 vals1 amb1 res1 rem1 sid1 cmds1 c2 W Hi1 Hf1|c1 vals1 amb1 res1 rem1 sid1 cmds1 applied1 W Hi1 Hr1
      |c1 vals1 res1 rem1 got1 w1 todo1 cmds1 W Hi1|c1 vals1 res1 rem1 got1 cmds1 W Hi1];
    try congruence; try (rewrite Hi in Hi1; injection Hi1 as; subst); try congruence.
  - by apply stage_start.
  - eexists. split; [|by eapply stage_read]. cbn. lia.
  - destruct Hrd as (dn & todo' & _ & [= -> -> <-] & _). exfalso.
    pose proof (reachable_inv zero cfg history_pos W Hr ltac:(rewrite Hlog; lia)) as I. by rewrite (readRaw_readOf W k1 I) in Hr1.
  - by apply stage_decide.
  - exists 1%nat. split; [lia|]. rewrite Hf in Hf1. injection Hf1 as <-. by eapply stage_run.
  - exfalso. pose proof (reachable_inv zero cfg history_pos W Hr ltac:(rewrite Hlog; lia)) as I.
    destruct (i_replied _ _ _ I _ _ Hr1) as [_ ?]. congruence.
  - exists 0%nat. split; [lia|]. rewrite Hrep in Hr1. injection Hr1 as <-. rewrite Haft. eapply sg_returned; cbn [perform calls raw]; [by rewrite lookup_insert_eq|done].
Qed.

Lemma stage_progress n W : reachable zero cfg W → stage n W →
  (∃ r cmds, calls W !! i = Some (mkCall op (Returned r) cmds)) ∨ ∃ W', alone i op W W'.
Proof using history_pos law room.
  intros Hr Hs. inversion Hs as
    [W1 Hraw Hlog Hi|W1 rem got todo cmds Hraw Hlog Hi Hrd|W1 c vals rem sid cmds Hraw Hlog Hi Hf Hsr
    |W1 c vals rem sid cmds applied r Hi Hf Hrep Haft Hcc|W1 r cmds Hi Hcc]; subst W1 n; [right..|left].
  - destruct (new_tokens_exist op W) as (tokens & Hnew). eexists. by eapply al_start.
  - destruct todo as [|k todo]; [destruct (new_tokens_exist op W) as (tokens & Hnew); eexists; by eapply al_decide|].
    pose proof (reachable_inv zero cfg history_pos W Hr ltac:(rewrite Hlog; lia)) as I. eexists. eapply al_read; [exact Hi|by apply readRaw_readOf].
  - eexists. by eapply al_run.
  - eexists. by eapply al_reply.
  - by exists r, cmds.
Qed.

Lemma stage_run_of n k W W' : reachable zero cfg W → stage n W → nsteps (alone i op) k W W' →
  reachable zero cfg W' ∧ ∃ n', (n' + k ≤ n)%nat ∧ stage n' W'.
Proof using history_pos law positive room.
  intros Hr Hs Hk. revert n Hs. induction Hk as [W|k W W1 W2 Ha Hk IH]; intros n Hs; [split; [done|exists n; split; [lia|done]]|].
  destruct (stage_step n W W1 Hr Ha Hs) as (n1 & Hn & Hs1).
  destruct (IH (reach_step _ _ _ _ Hr (alone_step _ _ _ _ Ha)) n1 Hs1) as (Hr2 & n2 & Hn2 & Hs2). split; [done|]. exists n2. split; [lia|done].
Qed.

End Stages.

End Correct.
End Alone.

(** C21. Without interference the store over Redis is the memory store.  From
    every reachable state, take a new call with no step of anyone else, no
    expiry, no lost or refused command and no lost reply, however it draws its
    tokens: it takes at most 4 steps more than it has keys, it is never stuck
    before it has returned, and whenever it has returned, its result and what
    is then stored are those of the memory store's call, errors included; or
    they are the codec's error and what was stored before, exactly when a
    value that the call would write has no encoding. *)
Theorem alone_memory {T E : Type} `{Codec T} (zero : T) (config cfg : RedisConfig) (W : VsRedis.World (T:=T) (E:=E)) i op n W' :
  NewRedisStore config = Some cfg → CodecLaw T → reachable zero cfg W → zlen (log W) + 1 < 2^64 - 3 → calls W !! i = None →
  nsteps (alone zero cfg i op) n W W' →
  Z.of_nat n ≤ zlen (opKeys op) + 4 ∧
  ((∃ r cmds, calls W' !! i = Some (mkCall op (Returned r) cmds)) ∨ ∃ W'', alone zero cfg i op W' W'') ∧
  (∀ r cmds, calls W' !! i = Some (mkCall op (Returned r) cmds) → codecCall zero op (stored (raw W)) = (stored (raw W'), r)).
Proof.
  intros [Hm Hh]%NewRedisStore_ok law Hr Hb Hi Hn.
  destruct (stage_run_of zero cfg Hh Hm law i op W Hb _ n W W' Hr (sg_new zero cfg i op W W eq_refl eq_refl Hi) Hn) as (Hr' & n' & Hle & Hs).
  split_and!; [unfold zlen; lia|by eapply stage_progress|]. intros r cmds Hret.
  by destruct Hs; congruence.
Qed.

Import Demo.

(** The delete of version 1 whose condition the stored 5 meets. *)
Definition dropIt : VsRedis.Op (T:=Z) (E:=unit) := OpDelete key 1 (Some (λ v, 3 <? v)).
Definition dropRead : VsRedis.World (T:=Z) (E:=unit) := perform 7 dropIt [] (Go (Reading 2 [] [key])) (draw [tok 5] answered).
Definition dropGot : VsRedis.World (T:=Z) (E:=unit) := perform 7 dropIt [] (Go (Reading 2 [got] [])) dropRead.
Definition dropCmd : Cmd := mkCmd 6 [mkWrite writeDelete key (Some (pwNext first)) [] [] 1].
Definition dropSent : VsRedis.World (T:=Z) (E:=unit) := perform 7 dropIt [] (Send dropCmd [] false false 2) (draw [tok 6] dropGot).
Definition dropRun : VsRedis.World (T:=Z) (E:=unit) := run 7 dropCmd dropSent.
Definition dropped : VsRedis.World (T:=Z) (E:=unit) := perform 7 dropIt [dropCmd] (Go (Returned (RApplied []))) dropRun.

Lemma alone_eq i op (W W1 W2 : VsRedis.World (T:=Z) (E:=unit)) : alone 0 cfg i op W W1 → W1 = W2 → alone 0 cfg i op W W2.
Proof. by intros ? <-. Qed.

Lemma dropped_alone : nsteps (alone 0 cfg 7 dropIt) 5 answered dropped.
Proof.
  eapply nsteps_l; [eapply alone_eq; [apply (al_start 0 cfg 7 dropIt [tok 5] answered); [done|apply tok_new; [done..|]; vm_compute; done]|reflexivity]|].
  eapply nsteps_l; [eapply alone_eq; [apply (al_read 0 cfg 7 dropIt 2 [] key [] [] got dropRead); reflexivity|reflexivity]|].
  eapply nsteps_l; [eapply alone_eq; [apply (al_decide 0 cfg 7 dropIt 2 [got] [] [tok 6] dropGot); [reflexivity|apply tok_new; [done..|]; vm_compute; done]|reflexivity]|].
  eapply nsteps_l; [eapply alone_eq; [apply (al_run 0 cfg 7 dropIt dropCmd [] false false 1 (fresh (draw [tok 6] dropGot)) [dropCmd] dropCmd dropSent); reflexivity|reflexivity]|].
  eapply nsteps_l; [eapply alone_eq; [apply (al_reply 0 cfg 7 dropIt dropCmd [] false false 1 (fresh (draw [tok 6] dropGot)) [dropCmd] true dropRun); reflexivity|reflexivity]|].
  constructor.
Qed.

Example alone_memory_witness : codecCall 0 dropIt (stored (raw answered)) = (stored (raw dropped), RApplied []).
Proof.
  destruct (alone_memory 0 cfg cfg answered 7 dropIt 5 dropped) as (_ & _ & Hd);
    [done|apply byteCodec_law|apply answered_reachable|reflexivity|reflexivity|apply dropped_alone|].
  by apply (Hd _ [dropCmd]).
Defined.
