(* ===== verification/VsOutcome.v ===== *)
(** * What the calls of the versioned store tell their callers

    The log of Redis is a run of the memory store, every command takes effect
    at most once, and what a call returns is what became of its commands. *)

From Stdlib Require Import String.
From S2P Require Import Prelude Bytes GoStr VsEnvelope VsRedis VsInv VsStep VsTurns VsSafe VsMemory VsAlone.

Section Outcome.
Context {T E : Type} `{Codec T} (zero : T) (cfg : RedisConfig).

Abbreviation World := (World (T:=T) (E:=E)).
Abbreviation Op := (Op (T:=T) (E:=E)).
Abbreviation Res := (Res (T:=T) (E:=E)).

(** What a call that returned [r] after sending [cmds] has told its caller. *)
Definition told (W : World) (op : Op) (cmds : list Cmd) (r : Res) : Prop :=
  match r with
  | RApplied l => ∃ c, Landed c ∈ log W ∧ returns zero op c l ∧ ∀ c', c' ∈ cmds → Landed c' ∈ log W → c' = c
  | RErr (ErrOutcomeUnknown _) => ∀ c', c' ∈ cmds → Landed c' ∈ log W → head cmds = Some c'
  | _ => ∀ c', c' ∈ cmds → Landed c' ∉ log W
  end.

Lemma told_res (W : World) op cmds r : res_ok zero W op cmds r → told W op cmds r.
Proof.
  assert (Hall : Forall (dead W) cmds → ∀ c', c' ∈ cmds → Landed c' ∉ log W).
  { intros Hf c' Hc'. rewrite Forall_forall in Hf. by destruct (Hf c' Hc'). }
  destruct r as [l|l| |e]; cbn [res_ok told]; try done.
  - intros (c & Hl & Hr & Ho). exists c. split_and!; [done..|]. intros c' Hc' Hl'. by destruct (Ho c' Hc') as [->|[? _]].
  - destruct e; try done. intros Hu c' Hc' Hl'. by destruct (Hu c' Hc') as [?|[? _]].
Qed.

Lemma serial_step (history_pos : 1 ≤ WriteTokenHistory cfg) (law : CodecLaw T) (W W' : World) :
  inv zero cfg W → step zero cfg W W' → zlen (log W') < 2^64 - 3 →
  serial (E:=E) zero (log W) (stored (raw W)) → serial (E:=E) zero (log W') (stored (raw W')).
Proof.
  intros I Hs Hb Hser.
  assert (Hp : ∀ i (op : Op) cmds a (W1 : World), log (perform i op cmds a W1) = log W1 ∧ raw (perform i op cmds a W1) = raw W1)
    by (intros ??? [] ?; done).
  pose proof (step_log zero cfg W W' Hs) as Hlog.
  destruct Hs as [| | | | |sid c W Hf| | | | | | |k W Hk];
    try (match goal with |- serial _ (log (perform ?i ?op ?cmds ?a ?W1)) _ => destruct (Hp i op cmds a W1) as [-> ->] end; exact Hser).
  - cbn [log raw]. unfold runScript. destruct (compares (raw W) c) eqn:Hcm; cbn [fst snd]; [|done].
    assert (Hsent : sent W c) by (exists sid; by apply (i_flying _ _ _ I)).
    eapply ser_landed; [exact Hser|by eapply someone_returns|]. intros op r Hr. eapply returns_lands; try done. lia.
  - cbn [log raw]. rewrite stored_delete. by constructor.
Qed.

(** C4. The calls over one Redis are serializable.  However the turns of any
    number of calls, their scripts, lost replies, resends, resumed writes and
    expiries interleave, the contents of the store are what the commands
    leave in a memory store, one atomic call each, in the order in which
    their scripts ran: a command that landed has, at its place, exactly the
    result [r] that any call it is attributed to returns (up to the fence of
    a delete, which is checked by the call that first sends it). *)
Theorem store_linearizable (W : World) config :
  NewRedisStore config = Some cfg → CodecLaw T → reachable zero cfg W → zlen (log W) < 2^64 - 3 →
  serial (E:=E) zero (log W) (stored (raw W)).
Proof.
  intros [_ Hh]%NewRedisStore_ok law Hr. induction Hr as [|W W' Hr IH Hs]; intros Hb.
  - change (stored (raw start_world)) with (∅ : gmap bytes (Versioned T)). constructor.
  - pose proof (step_log zero cfg W W' Hs). eapply serial_step; [done..| |done|done|apply IH; lia]. apply reachable_inv; [done..|lia].
Qed.

(** C19. No command takes effect twice: however often it was sent again after
    lost replies, by the call that made it or by a call that resumes it, it
    is at most once in the log of what ran. *)
Theorem write_lands_once (W : World) config :
  NewRedisStore config = Some cfg → reachable zero cfg W → zlen (log W) < 2^64 - 3 → NoDup (landedCmds (log W)).
Proof. intros [_ ?]%NewRedisStore_ok ? ?. by apply (i_once zero cfg), reachable_inv. Qed.

(** C5. What a call returns is true, and stays true.  A call that reports its
    values applied has a command that ran and wrote them: what its own
    mutation makes of the very values it replaced, each with the next version
    (or the created value, or the removal of the held version); none of the
    other commands it sent ran or ever will.  A call that reports anything
    else has no command that ran or ever will, except for [ErrOutcomeUnknown],
    where only the last command it sent may run. *)
Theorem outcome_told_true (W : World) i op r cmds config :
  NewRedisStore config = Some cfg → reachable zero cfg W → zlen (log W) < 2^64 - 3 →
  calls W !! i = Some (mkCall op (Returned r) cmds) → told W op cmds r.
Proof.
  intros [_ Hh]%NewRedisStore_ok Hr Hb Hc. apply told_res. by apply (i_calls _ _ _ (reachable_inv zero cfg Hh W Hr Hb) i _ Hc).
Qed.

End Outcome.

Import Demo.

Example store_linearizable_witness : serial (E:=unit) 0 (log bumped) (stored (raw bumped)) ∧ stored (T:=Z) (raw bumped) !! key = Some (mkVersioned 6 2).
Proof.
  split; [|reflexivity]. apply (store_linearizable 0 cfg bumped cfg); [done|apply byteCodec_law|apply bumped_reachable|reflexivity].
Defined.

Example write_lands_once_witness : NoDup (landedCmds (log bumped)) ∧ landedCmds (log bumped) = [cmd1; cmd2].
Proof. split; [|reflexivity]. apply (write_lands_once 0 cfg bumped cfg); [done|apply bumped_reachable|reflexivity]. Defined.

Example outcome_told_true_witness : told 0 bumped bump [cmd2] (RApplied [mkVersioned 6 2]).
Proof. apply (outcome_told_true 0 cfg bumped 1 bump _ [cmd2] cfg); [done|apply bumped_reachable|reflexivity|reflexivity]. Defined.
