(* ===== verification/MmTypes.v ===== *)
(** * Matchmaking: subjects, queues, tickets, matches, and their keys
    (service/match/types.go, redis_store.go)

    Times are nanoseconds since the epoch as [Z]; Go's [Unix] is the floor of
    the seconds.  The second half proves that the keys are injective and that
    the partitions of a queue share a cluster slot. *)

From Stdlib Require Import String.
From S2P Require Import Prelude Bytes GoStr.

(** ** Errors and bounds *)

Inductive MatchErr : Type :=
| ErrQueueInvalid | ErrSubjectInvalid | ErrTicketInvalid | ErrTicketMissing | ErrAlreadyQueued
| ErrNotPermitted | ErrTicketMatched | ErrTicketConflict | ErrGroupNotReady.
#[export] Instance MatchErr_eq_dec : EqDecision MatchErr.
Proof. solve_decision. Defined.

Definition MaxQueueLength : Z := 10000.
Definition MaxGroupSize : Z := 64.
Definition MaxPageSize : Z := 200.
Definition MaxPayloadBytes : Z := 1024.

Definition DefaultTicketTTL : Z := 300 * second.
Definition DefaultRetention : Z := 600 * second.

(** ** Subjects *)

Record Subject := mkSubject { sKind : bytes; sID : Z; sScore : Z; sPayload : bytes }.
#[export] Instance Subject_eq_dec : EqDecision Subject.
Proof. solve_decision. Defined.

Definition SubjectValidate (s : Subject) : result MatchErr unit :=
  if bool_decide (sKind s = []) then Err ErrSubjectInvalid
  else if sID s =? 0 then Err ErrSubjectInvalid
  else if MaxPayloadBytes <? zlen (sPayload s) then Err ErrSubjectInvalid
  else Ok tt.

Definition SubjectKey (s : Subject) : bytes := sKind s ++ colon :: Itoa (sID s).

(** ** Queues *)

Record Queue := mkQueue { qMode : bytes; qGroupSize : Z; qMinSize : Z; qFillAfterSeconds : Z; qPartition : bytes }.
#[export] Instance Queue_eq_dec : EqDecision Queue.
Proof. solve_decision. Defined.
#[export] Instance Queue_inhabited : Inhabited Queue := populate (mkQueue [] 0 0 0 []).

Definition Flexible (q : Queue) : bool := negb (qMinSize q =? 0).

Definition QueueValidate (q : Queue) : result MatchErr unit :=
  if bool_decide (qMode q = []) then Err ErrQueueInvalid
  else if qGroupSize q <? 2 then Err ErrQueueInvalid
  else if MaxGroupSize <? qGroupSize q then Err ErrQueueInvalid
  else if qMinSize q =? 0 then
    if negb (qFillAfterSeconds q =? 0) then Err ErrQueueInvalid else Ok tt
  else if (qMinSize q <? 2) || (qGroupSize q <=? qMinSize q) then Err ErrQueueInvalid
  else if qFillAfterSeconds q <? 0 then Err ErrQueueInvalid
  else Ok tt.

Definition MinGroupSize (q : Queue) : Z := if Flexible q then qMinSize q else qGroupSize q.

Definition FormableSize (q : Queue) (available waitedSeconds : Z) : Z :=
  if qGroupSize q <=? available then qGroupSize q
  else if negb (Flexible q) || (available <? qMinSize q) || (waitedSeconds <? qFillAfterSeconds q) then 0
  else available.

Definition waitedSeconds (createdAtUnix nowUnix : Z) : Z :=
  if nowUnix <=? createdAtUnix then 0 else i64 (nowUnix - createdAtUnix).

(** ** Keys *)

(** [strings.ReplaceAll] of one byte. *)
Definition ReplaceByte (s : bytes) (c : Z) (new : bytes) : bytes := concat (map (λ b, if b =? c then new else [b]) s).

Definition percent : Z := 37.
Definition brace_open : Z := 123.
Definition brace_close : Z := 125.

Definition escapeKeyField (field : bytes) : bytes :=
  if negb (ContainsAny field [colon; percent; brace_open; brace_close]) then field
  else
    let field := ReplaceByte field percent (str "%25"%string) in
    let field := ReplaceByte field colon (str "%3A"%string) in
    let field := ReplaceByte field brace_open (str "%7B"%string) in
    ReplaceByte field brace_close (str "%7D"%string).

Definition sizeSpec (q : Queue) : bytes :=
  if negb (Flexible q) then Itoa (qGroupSize q)
  else Itoa (qMinSize q) ++ str "-"%string ++ Itoa (qGroupSize q) ++ str "@"%string ++ Itoa (qFillAfterSeconds q) ++ str "s"%string.

Definition LogicalKey (q : Queue) : bytes := escapeKeyField (qMode q) ++ colon :: sizeSpec q.

Definition QueueKey (q : Queue) : bytes :=
  brace_open :: LogicalKey q ++ str "}:"%string ++ escapeKeyField (qPartition q).

Definition SameLogicalQueue (q other : Queue) : bool :=
  bool_decide (mkQueue (qMode q) (qGroupSize q) (qMinSize q) (qFillAfterSeconds q) [] =
               mkQueue (qMode other) (qGroupSize other) (qMinSize other) (qFillAfterSeconds other) []).

(** redis_store.go *)
Definition redisQueuePrefix (prefix : bytes) : bytes := prefix ++ str ":queue:"%string.
Definition RedisKey (prefix : bytes) (q : Queue) : bytes := redisQueuePrefix prefix ++ QueueKey q.

(** The part of a key that Redis Cluster hashes. *)
Definition clusterHashTag (key : bytes) : bytes :=
  match CutByte key brace_open with
  | None => key
  | Some (_, rest) => match CutByte rest brace_close with None | Some ([], _) => key | Some (tag, _) => tag end
  end.

(** ** Tickets and matches *)

Inductive TicketState : Type := TicketWaiting | TicketMatched | TicketCancelled | TicketExpired.
#[export] Instance TicketState_eq_dec : EqDecision TicketState.
Proof. solve_decision. Defined.

Definition terminal (s : TicketState) : bool := match s with TicketWaiting => false | _ => true end.

Record Ticket := mkTicket {
  tID : bytes; tQueue : Queue; tSubject : Subject; tState : TicketState; tMatchID : bytes; tRequestID : bytes;
  tCreatedAtUnix : Z; tExpiresAtUnix : Z; tResolvedAtUnix : Z
}.
#[export] Instance Ticket_eq_dec : EqDecision Ticket.
Proof. solve_decision. Defined.

(** The ticket leaves the queue, in the state [s]. *)
Definition resolved (t : Ticket) (s : TicketState) (matchID : bytes) (at_ : Z) : Ticket :=
  mkTicket (tID t) (tQueue t) (tSubject t) s matchID (tRequestID t) (tCreatedAtUnix t) (tExpiresAtUnix t) at_.

Definition Expired (t : Ticket) (now : Z) : bool :=
  if negb (bool_decide (tState t = TicketWaiting)) || (tExpiresAtUnix t =? 0) then false
  else tExpiresAtUnix t <=? Unix now.

Record Match := mkMatch {
  mID : bytes; mQueue : Queue; mMembers : list Subject; mTicketIDs : list bytes; mTicketPartitions : list bytes; mCreatedAtUnix : Z
}.
#[export] Instance Match_eq_dec : EqDecision Match.
Proof. solve_decision. Defined.

(** [TicketRef] *)
Record TicketRef := mkRef { rQueue : Queue; rTicketID : bytes }.

(** [TicketRefs.LogicalKey] *)
Definition RefsLogicalKey (refs : list TicketRef) : bytes :=
  match refs with [] => [] | r :: _ => LogicalKey (rQueue r) end.

(** ** The size of a group *)

Lemma FormableSize_range q n w : QueueValidate q = Ok tt → FormableSize q n w ≠ 0 →
  MinGroupSize q ≤ FormableSize q n w ≤ qGroupSize q ∧ FormableSize q n w ≤ n.
Proof.
  unfold QueueValidate, FormableSize, MinGroupSize, Flexible. intros Hv Hf.
  repeat case_match; to_prop; simplify_eq; try lia; to_prop; lia.
Qed.

(** A group that the rule forms is one it accepts. *)
Lemma FormableSize_again q n w : QueueValidate q = Ok tt → FormableSize q n w ≠ 0 → FormableSize q (FormableSize q n w) w = FormableSize q n w.
Proof.
  unfold QueueValidate, FormableSize, Flexible. intros Hv Hf.
  repeat case_match; to_prop; simplify_eq; try lia; to_prop; lia.
Qed.

(** ** Escaping *)

Definition escapeByte (b : Z) : bytes :=
  if b =? percent then str "%25"%string
  else if b =? colon then str "%3A"%string
  else if b =? brace_open then str "%7B"%string
  else if b =? brace_close then str "%7D"%string
  else [b].

Lemma ReplaceByte_concat (s : bytes) (f : Z → bytes) (c : Z) (new : bytes) : ReplaceByte (concat (map f s)) c new = concat (map (λ b, ReplaceByte (f b) c new) s).
Proof.
  unfold ReplaceByte. induction s as [|b s IH]; [done|]. cbn [map concat]. by rewrite map_app, concat_app, IH.
Qed.

Lemma ReplaceByte_one b c new : ReplaceByte [b] c new = if b =? c then new else [b].
Proof. unfold ReplaceByte. cbn. apply app_nil_r. Qed.

Lemma escape_spec s : escapeKeyField s = concat (map escapeByte s).
Proof.
  unfold escapeKeyField. destruct (ContainsAny s _) eqn:Hc; cbn [negb].
  - unfold ReplaceByte at 4. rewrite !ReplaceByte_concat. f_equal. apply map_ext. intros b. unfold escapeByte.
    unfold percent, colon, brace_open, brace_close.
    destruct (Z.eqb_spec b 37) as [->|]; [reflexivity|]. rewrite ReplaceByte_one.
    destruct (Z.eqb_spec b 58) as [->|]; [reflexivity|]. rewrite ReplaceByte_one.
    destruct (Z.eqb_spec b 123) as [->|]; [reflexivity|]. rewrite ReplaceByte_one.
    by destruct (Z.eqb_spec b 125) as [->|].
  - assert (Hn : Forall (λ b, escapeByte b = [b]) s).
    { apply Forall_forall. intros b Hb. unfold ContainsAny in Hc.
      assert (Hb' : b ∉ [colon; percent; brace_open; brace_close]).
      { intros Hin. assert (existsb (λ c, bool_decide (c ∈ [colon; percent; brace_open; brace_close])) s = true); [|congruence].
        apply existsb_exists. exists b. split; [by apply list_elem_of_In|]. by apply bool_decide_eq_true_2. }
      rewrite !not_elem_of_cons in Hb'. unfold escapeByte. repeat (case_match; to_prop; [tauto|]). done. }
    clear Hc. induction Hn as [|b s Hb Hn IH]; [done|]. cbn. by rewrite Hb, <- IH.
Qed.

Lemma escapeByte_safe b c : c ∈ escapeByte b → c ∉ [colon; brace_open; brace_close].
Proof.
  unfold escapeByte. repeat case_match; to_prop; intros Hc; rewrite ?not_elem_of_cons; vm_compute str in Hc;
    repeat (apply elem_of_cons in Hc as [->|Hc]; [split_and!; (done || apply not_elem_of_nil)|]); by apply elem_of_nil in Hc.
Qed.

Lemma escape_safe s c : c ∈ [colon; brace_open; brace_close] → c ∉ escapeKeyField s.
Proof.
  intros Hc. rewrite escape_spec. induction s as [|b s IH]; [apply not_elem_of_nil|]. cbn [map concat].
  rewrite elem_of_app. intros [Hin|Hin]; [|done]. by apply escapeByte_safe in Hin.
Qed.

Lemma escapeByte_prefix b b' l l' : escapeByte b ++ l = escapeByte b' ++ l' → b = b' ∧ l = l'.
Proof.
  unfold escapeByte, percent, colon, brace_open, brace_close.
  repeat case_match; to_prop; subst; vm_compute str; cbn; intros E; simplify_eq; try done; by split.
Qed.

Lemma escape_inj s t : escapeKeyField s = escapeKeyField t → s = t.
Proof.
  rewrite !escape_spec. revert t. induction s as [|b s IH]; intros [|b' t]; [done| | |]; cbn [map concat].
  - intros E. symmetry in E. apply app_eq_nil in E as [E _]. unfold escapeByte in E. by repeat case_match.
  - intros E. apply app_eq_nil in E as [E _]. unfold escapeByte in E. by repeat case_match.
  - intros [-> E]%escapeByte_prefix. f_equal. by apply IH.
Qed.

(** ** Separators *)

Lemma split_at_inj (a a' b b' : bytes) sep : sep ∉ a → sep ∉ a' → a ++ sep :: b = a' ++ sep :: b' → a = a' ∧ b = b'.
Proof. intros Ha Ha' E. apply (f_equal (λ s, CutByte s sep)) in E. rewrite !CutByte_app in E by done. by simplify_eq. Qed.

Lemma split_at_last_inj (a a' b b' : bytes) sep : sep ∉ b → sep ∉ b' → a ++ sep :: b = a' ++ sep :: b' → a = a' ∧ b = b'.
Proof.
  intros Hb Hb' E. apply (f_equal reverse) in E. rewrite !reverse_app, !reverse_cons, <- !app_assoc in E.
  apply split_at_inj in E as [Eb Ea]; rewrite ?elem_of_reverse; try done. split; by apply (inj reverse).
Qed.

(** ** Numbers *)

Lemma Itoa_neg n : n < 0 → Itoa n = 45 :: Itoa (- n).
Proof. intros Hn. unfold Itoa. destruct (Z.ltb_spec n 0), (Z.ltb_spec (- n) 0); [lia|done|lia..]. Qed.

Lemma Itoa_any n c : c ≠ 45 → ¬ 48 ≤ c ≤ 57 → c ∉ Itoa n.
Proof.
  intros Hc Hd. destruct (Z.lt_ge_cases n 0); [|by apply Itoa_no].
  rewrite Itoa_neg, elem_of_cons by done. intros [?|?%Itoa_no]; (done || lia).
Qed.

Lemma Itoa_i64_inj n m : is_i64 n → is_i64 m → Itoa n = Itoa m → n = m.
Proof.
  unfold is_i64. intros Hn Hm E.
  assert (H45 : ∀ k l, 0 ≤ k → Itoa k ≠ 45 :: l).
  { intros k l Hk Hl. apply (Itoa_no k 45); [done|lia|]. rewrite Hl. left. }
  destruct (Z.lt_ge_cases n 0), (Z.lt_ge_cases m 0).
  - rewrite (Itoa_neg n), (Itoa_neg m) in E by done. apply (f_equal tail) in E. cbn [tail] in E. apply Itoa_inj in E; unfold small; lia.
  - rewrite Itoa_neg in E by done. symmetry in E. by apply H45 in E.
  - rewrite (Itoa_neg m) in E by done. by apply H45 in E.
  - apply Itoa_inj; unfold small; (done || lia).
Qed.

(** The key of a subject determines its kind and id. *)
Lemma SubjectKey_inj s t : is_i64 (sID s) → is_i64 (sID t) → SubjectKey s = SubjectKey t → sKind s = sKind t ∧ sID s = sID t.
Proof.
  intros Hs Ht E. apply split_at_last_inj in E as [Hk Hi]; [|apply Itoa_any; unfold colon; lia..].
  split; [done|]. by apply Itoa_i64_inj.
Qed.

(** ** Queues *)

(** A queue that the service accepts; its fields are machine integers. *)
Definition queue_ok (q : Queue) : Prop := QueueValidate q = Ok tt ∧ is_i64 (qFillAfterSeconds q).

Lemma queue_fields q : queue_ok q →
  small (qGroupSize q) ∧ small (qMinSize q) ∧ small (qFillAfterSeconds q) ∧ (Flexible q = false → qMinSize q = 0 ∧ qFillAfterSeconds q = 0).
Proof.
  unfold queue_ok, QueueValidate, Flexible, small, is_i64, MaxGroupSize. intros [Hv Hi].
  repeat case_match; to_prop; simplify_eq; split_and!; try lia; to_prop; intros ?; lia.
Qed.

Lemma sizeSpec_no q c : queue_ok q → ¬ 48 ≤ c ≤ 57 → c ≠ 45 → c ≠ 64 → c ≠ 115 → c ∉ sizeSpec q.
Proof.
  intros Hq Hd H1 H2 H3. unfold sizeSpec. destruct (Flexible q); cbn [negb]; [|by apply Itoa_any].
  vm_compute str. rewrite !elem_of_app, !elem_of_cons. intros Hc.
  destruct Hc as [Hc|[[Hc|Hc]|[Hc|[[Hc|Hc]|[Hc|[Hc|Hc]]]]]]; try done; try (by apply Itoa_any in Hc); by apply elem_of_nil in Hc.
Qed.

Lemma sizeSpec_inj q q' : queue_ok q → queue_ok q' → sizeSpec q = sizeSpec q' →
  qGroupSize q = qGroupSize q' ∧ qMinSize q = qMinSize q' ∧ qFillAfterSeconds q = qFillAfterSeconds q'.
Proof.
  intros Hq Hq'. destruct (queue_fields q Hq) as (Hg & Hm & Hf & Hx), (queue_fields q' Hq') as (Hg' & Hm' & Hf' & Hx').
  assert (Hd : ∀ n : Z, small n → (45 ∉ Itoa n) ∧ (64 ∉ Itoa n) ∧ (115 ∉ Itoa n)) by (intros n [? _]; split_and!; apply Itoa_no; lia).
  unfold sizeSpec. destruct (Flexible q) eqn:F, (Flexible q') eqn:F'; cbn [negb]; vm_compute str; cbn [app].
  - intros E. apply split_at_inj in E as [E1 E]; [|by apply Hd..]. apply split_at_inj in E as [E2 E]; [|by apply Hd..].
    apply split_at_inj in E as [E3 _]; [|by apply Hd..]. split_and!; apply Itoa_inj; assumption.
  - intros E. exfalso. apply (proj1 (Hd (qGroupSize q') Hg')). rewrite <- E. apply elem_of_app. right. left.
  - intros E. exfalso. apply (proj1 (Hd (qGroupSize q) Hg)). rewrite E. apply elem_of_app. right. left.
  - intros E. destruct (Hx eq_refl) as [-> ->], (Hx' eq_refl) as [-> ->]. split_and!; [by apply Itoa_inj|done..].
Qed.

Lemma LogicalKey_no q c : queue_ok q → c ∈ [brace_open; brace_close] → c ∉ LogicalKey q.
Proof.
  intros Hq Hc. unfold LogicalKey. rewrite elem_of_app, elem_of_cons. intros [H|[->|H]].
  - revert H. apply escape_safe. rewrite elem_of_cons. by right.
  - repeat (apply elem_of_cons in Hc as [Hc|Hc]; [done|]). by apply elem_of_nil in Hc.
  - revert H. apply sizeSpec_no; [done|..]; repeat (apply elem_of_cons in Hc as [->|Hc]; [unfold brace_open, brace_close; lia|]); by apply elem_of_nil in Hc.
Qed.

Lemma LogicalKey_inj q q' : queue_ok q → queue_ok q' → LogicalKey q = LogicalKey q' → SameLogicalQueue q q' = true.
Proof.
  intros Hq Hq' E. apply split_at_inj in E as [Em Es]; [|apply escape_safe; left..].
  apply escape_inj in Em. destruct (sizeSpec_inj q q' Hq Hq' Es) as (Hg & Hm & Hf).
  unfold SameLogicalQueue. apply bool_decide_eq_true_2. congruence.
Qed.

Lemma SameLogicalQueue_spec q q' : SameLogicalQueue q q' = true →
  qMode q = qMode q' ∧ qGroupSize q = qGroupSize q' ∧ qMinSize q = qMinSize q' ∧ qFillAfterSeconds q = qFillAfterSeconds q'.
Proof. unfold SameLogicalQueue. intros E%bool_decide_eq_true. by simplify_eq. Qed.

Lemma LogicalKey_same q q' : SameLogicalQueue q q' = true → LogicalKey q = LogicalKey q'.
Proof.
  intros (Hm & Hg & Hn & Hf)%SameLogicalQueue_spec. unfold LogicalKey, sizeSpec, Flexible. by rewrite Hm, Hg, Hn, Hf.
Qed.

Lemma QueueKey_inj q q' : queue_ok q → queue_ok q' → QueueKey q = QueueKey q' → q = q'.
Proof.
  intros Hq Hq' E. unfold QueueKey in E. injection E as E. vm_compute str in E. cbn [app] in E.
  apply split_at_inj in E as [El E]; [|apply LogicalKey_no; [done|right; left]..].
  injection E as E. apply escape_inj in E. apply LogicalKey_inj in El; try done.
  apply SameLogicalQueue_spec in El as (? & ? & ? & ?). destruct q, q'; simplify_eq/=. done.
Qed.

(** ** The slot of a queue *)

(** [NewRedisStore] refuses a prefix under which two partitions of a queue
    have different hash tags. *)
Definition prefix_accepted (prefix : bytes) : bool :=
  let probe p := mkQueue (str "m"%string) 2 0 0 p in
  negb (bool_decide (TrimSpace prefix = [])) &&
  bool_decide (clusterHashTag (RedisKey prefix (probe (str "east"%string))) = clusterHashTag (RedisKey prefix (probe (str "west"%string)))).

Lemma clusterHashTag_tag (a tag b : bytes) :
  brace_open ∉ a → brace_close ∉ tag → tag ≠ [] → clusterHashTag (a ++ brace_open :: tag ++ brace_close :: b) = tag.
Proof. intros Ha Ht Hn. unfold clusterHashTag. rewrite CutByte_app, CutByte_app by done. by destruct tag. Qed.

Lemma CutByte_spec (s : bytes) sep : (sep ∉ s) ∨ ∃ a b, s = a ++ sep :: b ∧ sep ∉ a.
Proof.
  induction s as [|c s IH]; [left; apply not_elem_of_nil|]. destruct (decide (c = sep)) as [->|Hne].
  - right. exists [], s. split; [done|apply not_elem_of_nil].
  - destruct IH as [Hn|(a & b & -> & Hn)].
    + left. apply not_elem_of_cons. by split.
    + right. exists (c :: a), b. split; [done|]. apply not_elem_of_cons. by split.
Qed.

(** The tag of a queue's key, by the braces of the prefix. *)
Lemma RedisKey_tag prefix q : queue_ok q →
  let p := redisQueuePrefix prefix in
  clusterHashTag (RedisKey prefix q) =
    match CutByte p brace_open with
    | None => LogicalKey q
    | Some (_, r) =>
        match CutByte r brace_close with
        | None => r ++ brace_open :: LogicalKey q
        | Some ([], _) => RedisKey prefix q
        | Some (tag, _) => tag
        end
    end.
Proof.
  intros Hq p. change (RedisKey prefix q) with (p ++ brace_open :: LogicalKey q ++ brace_close :: colon :: escapeKeyField (qPartition q)).
  assert (Hl : brace_close ∉ LogicalKey q) by (apply LogicalKey_no; [done|right; left]).
  assert (Hne : ∀ r : bytes, r ++ brace_open :: LogicalKey q ≠ []) by (intros []; done).
  destruct (CutByte_spec p brace_open) as [Hp|(a & r & -> & Ha)].
  - rewrite CutByte_none by done. apply clusterHashTag_tag; [done..|]. unfold LogicalKey. by destruct (escapeKeyField (qMode q)).
  - rewrite CutByte_app by done. rewrite <- app_assoc. cbn [app]. destruct (CutByte_spec r brace_close) as [Hr|(t & b & -> & Ht)].
    + rewrite (CutByte_none r) by done.
      replace (r ++ brace_open :: LogicalKey q ++ brace_close :: colon :: escapeKeyField (qPartition q))
        with ((r ++ brace_open :: LogicalKey q) ++ brace_close :: colon :: escapeKeyField (qPartition q)) by (by rewrite <- app_assoc).
      apply clusterHashTag_tag; [done| |done]. rewrite elem_of_app, elem_of_cons. intros [?|[?|?]]; done.
    + rewrite (CutByte_app t) by done. destruct t as [|x t].
      * unfold clusterHashTag. rewrite CutByte_app by done. reflexivity.
      * rewrite <- app_assoc. unfold clusterHashTag. rewrite CutByte_app by done.
        rewrite <- (app_comm_cons b _ brace_close). by rewrite (CutByte_app (x :: t) brace_close) by done.
Qed.

Lemma probes_ok p : queue_ok (mkQueue (str "m"%string) 2 0 0 p).
Proof. split; [reflexivity|unfold is_i64; cbn; lia]. Qed.

(** C27. Keys are injective: two partitions have the same Redis key only if they
    are the same partition, whatever bytes their mode and partition names
    hold; and under every prefix that the constructor accepts the partitions
    of one logical queue share a cluster slot, as multi-key scripts need. *)
Theorem queue_keys (prefix : bytes) (q q' : Queue) :
  prefix_accepted prefix = true → queue_ok q → queue_ok q' →
  (RedisKey prefix q = RedisKey prefix q' ↔ q = q') ∧
  (SameLogicalQueue q q' = true → clusterHashTag (RedisKey prefix q) = clusterHashTag (RedisKey prefix q')).
Proof.
  intros Hp Hq Hq'. split.
  - split; [|by intros ->]. intros E%app_inv_head. by apply QueueKey_inj.
  - intros Hs. unfold prefix_accepted in Hp. apply andb_prop in Hp as [_ Hp]. apply bool_decide_eq_true in Hp. revert Hp.
    rewrite !RedisKey_tag by (done || apply probes_ok). rewrite (LogicalKey_same q q' Hs).
    destruct (CutByte _ brace_open) as [[a r]|]; [|done]. destruct (CutByte r brace_close) as [[[|x t] b]|]; [|done..].
    intros E%app_inv_head. by vm_compute in E.
Qed.

Example queue_keys_witness :
  RedisKey (str "mm"%string) (mkQueue (str "a:2"%string) 3 0 0 (str "x"%string)) ≠ RedisKey (str "mm"%string) (mkQueue (str "a"%string) 2 0 0 (str "3:x"%string)).
Proof.
  intros E. apply (queue_keys (str "mm"%string) (mkQueue (str "a:2"%string) 3 0 0 (str "x"%string)) (mkQueue (str "a"%string) 2 0 0 (str "3:x"%string)))
    in E; [done|reflexivity|split; [reflexivity|unfold is_i64; cbn; lia]..].
Defined.
