(* ===== verification/MmGrouping.v ===== *)
(** * Grouping policies (service/match/grouping.go) *)

From Stdlib Require Import String.
From S2P Require Import Prelude Bytes GoStr MmTypes.

(** ** First come *)

(** [None] stands for "no group yet"; [clock] is [NowUnix], which may be nil. *)
Definition FirstComeGroup (clock : option Z) (q : Queue) (candidates : list Ticket) : result MatchErr (option (list Ticket)) :=
  match QueueValidate q with
  | Err e => Err e
  | Ok _ =>
      if negb (Flexible q) then
        if zlen candidates <? qGroupSize q then Ok None else Ok (Some (ztake (qGroupSize q) candidates))
      else
        match clock, candidates with
        | None, _ => Err ErrQueueInvalid
        | _, [] => Ok None
        | Some nowUnix, first :: _ =>
            let size := FormableSize q (zlen candidates) (waitedSeconds (tCreatedAtUnix first) nowUnix) in
            if size =? 0 then Ok None else Ok (Some (ztake size candidates))
        end
  end.

(** ** Score window *)

(** [scoreDistance]: the unsigned difference of the images. *)
Definition scoreDistance (a b : Z) : Z := if b <=? a then u64 (u64 a - u64 b) else u64 (u64 b - u64 a).

Record ScoreWindow := mkScoreWindow { InitialWindow : Z; WidenPerSecond : Z; MaxWindow : Z }.

Definition window (g : ScoreWindow) (waited : Z) : Z :=
  let initial := u64 (InitialWindow g) in
  let widen := u64 (WidenPerSecond g) in
  let wide :=
    if (0 <? widen) && (0 <? waited) then
      let grow := u64 (widen * waited) in
      let grow := if negb (grow / widen =? waited) then MaxUint64 else grow in
      if MaxUint64 - grow <? initial then MaxUint64 else u64 (initial + grow)
    else initial in
  if (0 <? MaxWindow g) && (u64 (MaxWindow g) <? wide) then u64 (MaxWindow g) else wide.

Definition closer (anchor : Ticket) (a b : Ticket) : bool :=
  let da := scoreDistance (sScore (tSubject a)) (sScore (tSubject anchor)) in
  let db := scoreDistance (sScore (tSubject b)) (sScore (tSubject anchor)) in
  if negb (da =? db) then da <? db else tCreatedAtUnix a <? tCreatedAtUnix b.

Definition ScoreWindowGroup (g : ScoreWindow) (clock : option Z) (q : Queue) (candidates : list Ticket) : result MatchErr (option (list Ticket)) :=
  match QueueValidate q with
  | Err e => Err e
  | Ok _ =>
      match clock with
      | None => Err ErrQueueInvalid
      | Some nowUnix =>
          if (InitialWindow g <? 0) || (WidenPerSecond g <? 0) || (MaxWindow g <? 0) then Err ErrQueueInvalid
          else if zlen candidates <? MinGroupSize q then Ok None
          else
            match candidates with
            | [] => Ok None
            | anchor :: _ =>
                let waited := waitedSeconds (tCreatedAtUnix anchor) nowUnix in
                let win := window g (u64 waited) in
                let within := List.filter (λ c, scoreDistance (sScore (tSubject c)) (sScore (tSubject anchor)) <=? win) candidates in
                let size := FormableSize q (zlen within) waited in
                if size =? 0 then Ok None else Ok (Some (ztake size (SliceStable (closer anchor) within)))
            end
      end
  end.

(** ** Arithmetic *)

Lemma scoreDistance_abs a b : is_i64 a → is_i64 b → scoreDistance a b = Z.abs (a - b).
Proof.
  unfold is_i64, scoreDistance, u64. intros Ha Hb. destruct (Z.leb_spec b a).
  - rewrite <- Zminus_mod. rewrite Z.mod_small; lia.
  - rewrite <- Zminus_mod. rewrite Z.mod_small; lia.
Qed.

(** The window after [w] seconds, on integers that do not wrap. *)
Definition windowAfter (sw : ScoreWindow) (w : Z) : Z :=
  let wide := Z.min (InitialWindow sw + WidenPerSecond sw * w) MaxUint64 in
  if MaxWindow sw =? 0 then wide else Z.min wide (MaxWindow sw).

(** The window saturates instead of wrapping. *)
Lemma window_saturates g waited :
  0 ≤ InitialWindow g < 2^63 → 0 ≤ WidenPerSecond g < 2^63 → 0 ≤ MaxWindow g < 2^63 → 0 ≤ waited < 2^64 →
  window g waited = windowAfter g waited.
Proof.
  intros Hi Hw Hm Ht. unfold window, windowAfter. rewrite !(u64_small (InitialWindow g)), !(u64_small (WidenPerSecond g)), !(u64_small (MaxWindow g)) by (unfold_int; lia).
  set (wide := if (0 <? WidenPerSecond g) && _ then _ else _).
  assert (Hwide : wide = Z.min (InitialWindow g + WidenPerSecond g * waited) MaxUint64).
  { subst wide. unfold MaxUint64. destruct (Z.ltb_spec 0 (WidenPerSecond g)); cbn [andb]; [|nia].
    destruct (Z.ltb_spec 0 waited); [|nia].
    destruct (Z.lt_ge_cases (WidenPerSecond g * waited) (2^64)) as [Hs|Hb].
    - rewrite (u64_small (WidenPerSecond g * waited)) by (unfold_int; nia).
      rewrite (Z.mul_comm (WidenPerSecond g)), Z.div_mul, Z.eqb_refl by lia. cbn [negb].
      destruct (Z.ltb_spec (2^64 - 1 - waited * WidenPerSecond g) (InitialWindow g)); [lia|].
      rewrite u64_small by (unfold_int; nia). lia.
    - assert (Hne : u64 (WidenPerSecond g * waited) / WidenPerSecond g ≠ waited).
      { intros E. assert (Hlt : u64 (WidenPerSecond g * waited) / WidenPerSecond g < waited); [|lia].
        apply Z.div_lt_upper_bound; [lia|]. pose proof (u64_range (WidenPerSecond g * waited)). unfold_int. lia. }
      destruct (Z.eqb_spec (u64 (WidenPerSecond g * waited) / WidenPerSecond g) waited); [done|]. cbn [negb].
      destruct (Z.ltb_spec (2^64 - 1 - (2^64 - 1)) (InitialWindow g)); [lia|]. rewrite u64_small by (unfold_int; lia). lia. }
  rewrite Hwide. cbv zeta. destruct (Z.ltb_spec 0 (MaxWindow g)); cbn [andb].
  - destruct (Z.eqb_spec (MaxWindow g) 0); [lia|]. destruct (Z.ltb_spec (MaxWindow g) (Z.min (InitialWindow g + WidenPerSecond g * waited) MaxUint64)); lia.
  - destruct (Z.eqb_spec (MaxWindow g) 0); lia.
Qed.
