(* ===== verification/MmStore.v ===== *)
(** * The queue store of matchmaking (service/match/queue_store.go, store.go)

    The state of one queue (one partition) is one versioned value; every
    operation is one compare-and-set on it, [CommitAcross] on several.  The
    versioned store is taken as its memory store ([VsMemory]). *)

From Stdlib Require Import String.
From S2P Require Import Prelude Bytes GoStr VsRedis VsMemory MmTypes.

(** ** State *)

Record queueState := mkQueueState {
  Waiting : list bytes;
  Tickets : gmap bytes Ticket;
  Matches : gmap bytes Match;
  SubjectTickets : gmap bytes bytes;
  Requests : gmap bytes bytes
}.
Definition emptyState : queueState := mkQueueState [] ∅ ∅ ∅ ∅.

Definition set_Waiting w s := mkQueueState w (Tickets s) (Matches s) (SubjectTickets s) (Requests s).
Definition set_Tickets t s := mkQueueState (Waiting s) t (Matches s) (SubjectTickets s) (Requests s).
Definition set_Matches m s := mkQueueState (Waiting s) (Tickets s) m (SubjectTickets s) (Requests s).
Definition set_SubjectTickets x s := mkQueueState (Waiting s) (Tickets s) (Matches s) x (Requests s).
Definition set_Requests r s := mkQueueState (Waiting s) (Tickets s) (Matches s) (SubjectTickets s) r.

(** [TicketTTL] and [Retention] of [Config]. *)
Record Config := mkConfig { TicketTTL : Z; Retention : Z }.

Definition validateQueueFor (q : Queue) (ticketTTL : Z) : result MatchErr unit :=
  match QueueValidate q with
  | Err e => Err e
  | Ok _ =>
      let ttlSeconds := Z.quot (i64 (i64 (ticketTTL + second) - 1)) second in
      if Flexible q && (ttlSeconds <=? qFillAfterSeconds q) then Err ErrQueueInvalid else Ok tt
  end.

(** [NewStore] on the configured durations; [None]: refused. *)
Definition NewStore (cfg : Config) (sweepQueues : list Queue) : option Config :=
  if TicketTTL cfg <? 0 then None
  else
    let ttl := if TicketTTL cfg =? 0 then DefaultTicketTTL else TicketTTL cfg in
    if ttl <? second then None
    else if Retention cfg <? 0 then None
    else
      let retention := if Retention cfg =? 0 then DefaultRetention else Retention cfg in
      if retention <? second then None
      else if forallb (λ q, match validateQueueFor q ttl with Ok _ => true | Err _ => false end) sweepQueues
      then Some (mkConfig ttl retention) else None.

(** ** Leaving the queue *)

Fixpoint removeFirst (x : bytes) (l : list bytes) : list bytes :=
  match l with [] => [] | y :: l' => if bool_decide (y = x) then l' else y :: removeFirst x l' end.

Definition removeWaiting (s : queueState) (ticketID : bytes) : queueState := set_Waiting (removeFirst ticketID (Waiting s)) s.

(** The ticket [t] leaves the queue as [t']. *)
Definition leaveQueue (s : queueState) (id : bytes) (t t' : Ticket) : queueState :=
  let s := set_Tickets (<[id := t']> (Tickets s)) s in
  let s := removeWaiting s id in
  set_SubjectTickets (delete (SubjectKey (tSubject t)) (SubjectTickets s)) s.

Fixpoint expireLoop (ids : list bytes) (s : queueState) (now limit resolvedSoFar : Z) : queueState * Z :=
  match ids with
  | [] => (s, resolvedSoFar)
  | id :: ids =>
      if limit <=? resolvedSoFar then (s, resolvedSoFar)
      else
        match Tickets s !! id with
        | None => expireLoop ids (removeWaiting s id) now limit resolvedSoFar
        | Some t =>
            if negb (bool_decide (tState t = TicketWaiting)) || negb (Expired t now)
            then expireLoop ids s now limit resolvedSoFar
            else expireLoop ids (leaveQueue s id t (resolved t TicketExpired (tMatchID t) (Unix now))) now limit (resolvedSoFar + 1)
        end
  end.

Definition expireLockedLimit (s : queueState) (now limit : Z) : queueState * Z := expireLoop (Waiting s) s now limit 0.

(** ** Retention *)

Definition cutoff (cfg : Config) (now : Z) : Z := Unix (now + i64 (i64 (- Retention cfg) - second)).

Definition dropResolvedTicket (s : queueState) (t : Ticket) : queueState :=
  let s := set_Tickets (delete (tID t) (Tickets s)) s in
  if bool_decide (SubjectTickets s !! SubjectKey (tSubject t) = Some (tID t))
  then set_SubjectTickets (delete (SubjectKey (tSubject t)) (SubjectTickets s)) s else s.

(** One ticket of an expired match. *)
Definition pruneMember (matchID : bytes) (acc : queueState * Z) (ticketID : bytes) : queueState * Z :=
  match Tickets (fst acc) !! ticketID with
  | Some t =>
      if bool_decide (tState t = TicketMatched) && bool_decide (tMatchID t = matchID)
      then (dropResolvedTicket (fst acc) t, snd acc + 1) else acc
  | None => acc
  end.

Definition pruneMatch (cut : Z) (acc : queueState * Z) (matchID : bytes) : queueState * Z :=
  match Matches (fst acc) !! matchID with
  | None => acc
  | Some m =>
      if cut <? mCreatedAtUnix m then acc
      else
        let acc := foldl (pruneMember matchID) acc (mTicketIDs m) in
        (set_Matches (delete matchID (Matches (fst acc))) (fst acc), snd acc + 1)
  end.

Definition pruneTicket (cut : Z) (acc : queueState * Z) (ticketID : bytes) : queueState * Z :=
  match Tickets (fst acc) !! ticketID with
  | None => acc
  | Some t =>
      if negb (terminal (tState t)) || (cut <? tResolvedAtUnix t) then acc
      else if bool_decide (tState t = TicketMatched) && bool_decide (is_Some (Matches (fst acc) !! tMatchID t)) then acc
      else (dropResolvedTicket (fst acc) t, snd acc + 1)
  end.

Definition pruneRequest (s : queueState) (requestID : bytes) : queueState :=
  match Requests s !! requestID with
  | Some ticketID => if bool_decide (Tickets s !! ticketID = None) then set_Requests (delete requestID (Requests s)) s else s
  | None => s
  end.

(** The keys of a map, in some order. *)
Definition keys {A} (m : gmap bytes A) : list bytes := (map_to_list m).*1.

(** The three loops, visiting the maps in the given orders. *)
Definition pruneMatches (order : list bytes) (cut : Z) (s : queueState) : queueState * Z := foldl (pruneMatch cut) (s, 0) order.
Definition pruneTickets (order : list bytes) (cut : Z) (acc : queueState * Z) : queueState * Z := foldl (pruneTicket cut) acc order.
Definition pruneRequests (order : list bytes) (s : queueState) : queueState := foldl pruneRequest s order.

Definition pruneResolvedLocked (cfg : Config) (s : queueState) (now : Z) : queueState * Z :=
  let cut := cutoff cfg now in
  let acc := pruneMatches (keys (Matches s)) cut s in
  let acc := pruneTickets (keys (Tickets (fst acc))) cut acc in
  (pruneRequests (keys (Requests (fst acc))) (fst acc), snd acc).

Definition expireLocked (cfg : Config) (s : queueState) (now : Z) : queueState :=
  fst (pruneResolvedLocked cfg (fst (expireLockedLimit s now (zlen (Waiting s)))) now).

(** ** The mutations *)

Definition validateOwnership (t : Ticket) (s : Subject) : bool := bool_decide (SubjectKey (tSubject t) = SubjectKey s).

Definition validateLimit (limit : Z) : bool := (0 <? limit) && (limit <=? MaxPageSize).

(** The ticket an earlier request with the same id produced. *)
Definition requested (s : queueState) (requestID : bytes) : option Ticket :=
  if bool_decide (requestID = []) then None
  else match Requests s !! requestID with Some id => Tickets s !! id | None => None end.

(** The live ticket of a subject. *)
Definition liveTicket (s : queueState) (sub : Subject) : option Ticket :=
  match SubjectTickets s !! SubjectKey sub with
  | Some id => match Tickets s !! id with Some t => if terminal (tState t) then None else Some t | None => None end
  | None => None
  end.

Definition newTicket (cfg : Config) (now : Z) (id : bytes) (q : Queue) (sub : Subject) (requestID : bytes) : Ticket :=
  mkTicket id q sub TicketWaiting [] requestID (Unix now) (Unix (now + TicketTTL cfg)) 0.

Definition addTicket (s : queueState) (t : Ticket) : queueState :=
  mkQueueState (Waiting s ++ [tID t]) (<[tID t := t]> (Tickets s)) (Matches s) (<[SubjectKey (tSubject t) := tID t]> (SubjectTickets s))
    (if bool_decide (tRequestID t = []) then Requests s else <[tRequestID t := tID t]> (Requests s)).

Definition enqueueMutate (cfg : Config) (now : Z) (id : bytes) (q : Queue) (sub : Subject) (requestID : bytes)
    (current : queueState) (found : bool) : result MatchErr (queueState * bool * Ticket) :=
  let s := expireLocked cfg current now in
  match requested s requestID with
  | Some t => if negb (validateOwnership t sub) then Err ErrNotPermitted else Ok (s, false, t)
  | None =>
      match liveTicket s sub with
      | Some _ => Err ErrAlreadyQueued
      | None =>
          if MaxQueueLength <=? zlen (Waiting s) then Err ErrQueueInvalid
          else
            let t := newTicket cfg now id q sub requestID in
            Ok (addTicket s t, true, t)
      end
  end.

Definition cancelMutate (cfg : Config) (now : Z) (ticketID : bytes) (sub : Subject)
    (current : queueState) (found : bool) : result MatchErr (queueState * bool * Ticket) :=
  if negb found then Err ErrTicketMissing
  else
    let s := expireLocked cfg current now in
    match Tickets s !! ticketID with
    | None => Err ErrTicketMissing
    | Some t =>
        if negb (validateOwnership t sub) then Err ErrNotPermitted
        else if bool_decide (tState t = TicketMatched) then Err ErrTicketMatched
        else if terminal (tState t) then Ok (s, false, t)
        else
          let t' := resolved t TicketCancelled (tMatchID t) (Unix now) in
          Ok (leaveQueue s ticketID t t', true, t')
    end.

Definition checkTicketSet (ticketIDs : list bytes) (q : Queue) : result MatchErr unit :=
  if (zlen ticketIDs <? MinGroupSize q) || (qGroupSize q <? zlen ticketIDs) then Err ErrTicketInvalid
  else if bool_decide ([] ∈ ticketIDs) || negb (bool_decide (NoDup ticketIDs)) then Err ErrTicketInvalid
  else Ok tt.

Definition checkGroupReady (q : Queue) (n oldestCreatedUnix now : Z) : bool :=
  FormableSize q n (waitedSeconds oldestCreatedUnix (Unix now)) =? n.

(** ** Commits over one or several partitions *)

Definition MaxInt64 : Z := 2^63 - 1.

(** What a commit sees of its tickets: the id, the queue its caller names and
    the ticket found in that queue's state. *)
Record view := mkView { vID : bytes; vQueue : Queue; vTicket : option Ticket }.

(** [ticket] is matched into [matchID] in its own queue. *)
Definition matchedInto (v : view) (matchID : bytes) : bool :=
  match vTicket v with
  | Some t => bool_decide (tState t = TicketMatched) && bool_decide (tMatchID t = matchID) && bool_decide (tQueue t = vQueue v)
  | None => false
  end.

(** The match that the same set of tickets became; [matches] is where the
    match of the first ticket is looked up. *)
Definition replayOf (matches : gmap bytes Match) (views : list view) : option Match :=
  match views with
  | v :: _ =>
      match vTicket v with
      | Some first =>
          if bool_decide (tState first = TicketMatched) && bool_decide (tQueue first = vQueue v) then
            match matches !! tMatchID first with
            | Some previous =>
                if (zlen (mTicketIDs previous) =? zlen views) &&
                   forallb (λ id, existsb (λ w, bool_decide (vID w = id) && matchedInto w (mID previous)) views) (mTicketIDs previous)
                then Some previous else None
            | None => None
            end
          else None
      | None => None
      end
  | [] => None
  end.

(** The checks before anything changes: the members and the oldest creation. *)
Fixpoint checkViews (views : list view) (subjects : list bytes) (members : list Subject) (oldest : Z)
    : result MatchErr (list Subject * Z) :=
  match views with
  | [] => Ok (members, oldest)
  | v :: views =>
      match vTicket v with
      | None => Err ErrTicketMissing
      | Some t =>
          if negb (bool_decide (tQueue t = vQueue v)) then Err ErrTicketMissing
          else if negb (bool_decide (tState t = TicketWaiting)) then Err ErrTicketConflict
          else if bool_decide (SubjectKey (tSubject t) ∈ subjects) then Err ErrTicketInvalid
          else checkViews views (SubjectKey (tSubject t) :: subjects) (members ++ [tSubject t]) (Z.min oldest (tCreatedAtUnix t))
      end
  end.

(** The ticket [id] of [s] is consumed by the match. *)
Definition consume (now : Z) (matchID : bytes) (s : queueState) (id : bytes) : queueState :=
  match Tickets s !! id with
  | Some t => leaveQueue s id t (resolved t TicketMatched matchID (Unix now))
  | None => s
  end.

Definition addMatch (m : Match) (s : queueState) : queueState := set_Matches (<[mID m := m]> (Matches s)) s.

Definition viewsOf (s : queueState) (q : Queue) (ticketIDs : list bytes) : list view :=
  map (λ id, mkView id q (Tickets s !! id)) ticketIDs.

Definition commitMutate (cfg : Config) (now : Z) (matchID : bytes) (q : Queue) (ticketIDs : list bytes)
    (current : queueState) (found : bool) : result MatchErr (queueState * bool * Match) :=
  if negb found then Err ErrTicketMissing
  else
    let s := expireLocked cfg current now in
    let views := viewsOf s q ticketIDs in
    match replayOf (Matches s) views with
    | Some previous => Ok (s, false, previous)
    | None =>
        match checkViews views [] [] MaxInt64 with
        | Err e => Err e
        | Ok (members, oldest) =>
            if negb (checkGroupReady q (zlen ticketIDs) oldest now) then Err ErrGroupNotReady
            else
              let m := mkMatch matchID q members ticketIDs [] (Unix now) in
              Ok (addMatch m (foldl (consume now matchID) s ticketIDs), true, m)
        end
    end.

(** Partitions in the order in which they first occur. *)
Definition partitionsOf (refs : list TicketRef) : list Queue :=
  foldl (λ acc r, if bool_decide (rQueue r ∈ acc) then acc else acc ++ [rQueue r]) [] refs.

Fixpoint indexOf (q : Queue) (l : list Queue) : nat :=
  match l with [] => 0 | x :: l => if bool_decide (x = q) then 0 else S (indexOf q l) end.

Definition viewsAcross (states : list queueState) (parts : list Queue) (refs : list TicketRef) : list view :=
  map (λ r, mkView (rTicketID r) (rQueue r)
              match states !! indexOf (rQueue r) parts with Some s => Tickets s !! rTicketID r | None => None end) refs.

Definition consumeAcross (now : Z) (matchID : bytes) (parts : list Queue) (states : list queueState) (r : TicketRef) : list queueState :=
  alter (λ s, consume now matchID s (rTicketID r)) (indexOf (rQueue r) parts) states.

Definition commitAcrossMutate (cfg : Config) (now : Z) (matchID : bytes) (logical : Queue) (parts : list Queue) (refs : list TicketRef)
    (current : list queueState) (found : list bool) : result MatchErr (list queueState * bool * Match) :=
  if existsb negb found then Err ErrTicketMissing
  else
    let states := map (λ s, expireLocked cfg s now) current in
    let views := viewsAcross states parts refs in
    let matches := match states with s :: _ => Matches s | [] => ∅ end in
    match replayOf matches views with
    | Some previous => Ok (states, false, previous)
    | None =>
        match checkViews views [] [] MaxInt64 with
        | Err e => Err e
        | Ok (members, oldest) =>
            if negb (checkGroupReady logical (zlen refs) oldest now) then Err ErrGroupNotReady
            else
              let m := mkMatch matchID logical members (map rTicketID refs) (map (λ r, qPartition (rQueue r)) refs) (Unix now) in
              Ok (map (addMatch m) (foldl (consumeAcross now matchID parts) states refs), true, m)
        end
    end.

Definition sweepMutate (cfg : Config) (now limit : Z) (current : queueState) (found : bool) : result MatchErr (queueState * bool * Z) :=
  if negb found then Ok (current, false, 0)
  else
    let '(s, count) := expireLockedLimit current now limit in
    let '(s, pruned) := pruneResolvedLocked cfg s now in
    Ok (s, (0 <? count) || (0 <? pruned), count).

(** ** Operations *)

Abbreviation store := (gmap bytes (Versioned queueState)).

(** [s.state.Update]: the closure's result is that of the run that counts. *)
Definition Update {R : Type} (items : store) (q : Queue) (mutate : queueState → bool → result MatchErr (queueState * bool * R)) : store * result MatchErr R :=
  let key := QueueKey q in
  (fst (memUpdate emptyState items key (λ s f, match mutate s f with Ok (s', save, _) => Ok (s', save) | Err e => Err e end)),
   match mutate (memValue emptyState (items !! key)) (memFound (items !! key)) with Ok (_, _, r) => Ok r | Err e => Err e end).

Definition UpdateAll {R : Type} (items : store) (qs : list Queue)
    (mutate : list queueState → list bool → result MatchErr (list queueState * bool * R)) : store * result MatchErr R :=
  let ks := map QueueKey qs in
  (fst (memUpdateAll emptyState items ks (λ s f, match mutate s f with Ok (s', save, _) => Ok (s', save) | Err e => Err e end)),
   match mutate (map (memValue emptyState) (map (λ k, items !! k) ks)) (map memFound (map (λ k, items !! k) ks)) with
   | Ok (_, _, r) => Ok r | Err e => Err e end).

Definition Enqueue (cfg : Config) (now : Z) (id : bytes) (q : Queue) (sub : Subject) (requestID : bytes) (items : store) : store * result MatchErr Ticket :=
  match validateQueueFor q (TicketTTL cfg), SubjectValidate sub with
  | Err e, _ | Ok _, Err e => (items, Err e)
  | Ok _, Ok _ => Update items q (enqueueMutate cfg now id q sub requestID)
  end.

Definition Cancel (cfg : Config) (now : Z) (q : Queue) (ticketID : bytes) (sub : Subject) (items : store) : store * result MatchErr Ticket :=
  match QueueValidate q with
  | Err e => (items, Err e)
  | Ok _ => if bool_decide (ticketID = []) then (items, Err ErrTicketInvalid) else Update items q (cancelMutate cfg now ticketID sub)
  end.

Definition Commit (cfg : Config) (now : Z) (matchID : bytes) (q : Queue) (ticketIDs : list bytes) (items : store) : store * result MatchErr Match :=
  match QueueValidate q with
  | Err e => (items, Err e)
  | Ok _ =>
      match checkTicketSet ticketIDs q with
      | Err e => (items, Err e)
      | Ok _ => Update items q (commitMutate cfg now matchID q ticketIDs)
      end
  end.

(** The first error of the references, in order. *)
Fixpoint checkRefs (logical : Queue) (refs : list TicketRef) : result MatchErr unit :=
  match refs with
  | [] => Ok tt
  | r :: refs =>
      match QueueValidate (rQueue r) with
      | Err e => Err e
      | Ok _ => if negb (SameLogicalQueue (rQueue r) logical) then Err ErrQueueInvalid else checkRefs logical refs
      end
  end.

Definition CommitAcross (cfg : Config) (now : Z) (matchID : bytes) (refs : list TicketRef) (items : store) : store * result MatchErr Match :=
  match refs with
  | [] => (items, Err ErrTicketInvalid)
  | r :: _ =>
      let logical := rQueue r in
      match checkRefs logical refs with
      | Err e => (items, Err e)
      | Ok _ =>
          match checkTicketSet (map rTicketID refs) logical with
          | Err e => (items, Err e)
          | Ok _ =>
              match partitionsOf refs with
              | [q] => Commit cfg now matchID q (map rTicketID refs) items
              | parts => UpdateAll items parts (commitAcrossMutate cfg now matchID logical parts refs)
              end
          end
      end
  end.

Definition Sweep (cfg : Config) (now : Z) (q : Queue) (limit : Z) (items : store) : store * result MatchErr Z :=
  match QueueValidate q with
  | Err e => (items, Err e)
  | Ok _ => if negb (validateLimit limit) then (items, Err ErrQueueInvalid) else Update items q (sweepMutate cfg now limit)
  end.

(** ** Reads *)

Definition stateOf (items : store) (q : Queue) : option queueState := vValue <$> items !! QueueKey q.

Definition GetTicket (now : Z) (q : Queue) (ticketID : bytes) (sub : Subject) (items : store) : result MatchErr (option Ticket) :=
  match QueueValidate q with
  | Err e => Err e
  | Ok _ =>
      match stateOf items q with
      | None => Ok None
      | Some s =>
          match Tickets s !! ticketID with
          | None => Ok None
          | Some t =>
              if negb (validateOwnership t sub) then Err ErrNotPermitted
              else if Expired t now then Ok (Some (resolved t TicketExpired (tMatchID t) (tResolvedAtUnix t))) else Ok (Some t)
          end
      end
  end.

(** The waiting tickets that are still live, in queue order. *)
Definition liveWaiting (now : Z) (s : queueState) : list Ticket :=
  omap (λ id, match Tickets s !! id with
              | Some t => if bool_decide (tState t = TicketWaiting) && negb (Expired t now) then Some t else None
              | None => None end) (Waiting s).

Definition Candidates (now : Z) (q : Queue) (limit : Z) (items : store) : result MatchErr (list Ticket) :=
  match QueueValidate q with
  | Err e => Err e
  | Ok _ =>
      if negb (validateLimit limit) then Err ErrQueueInvalid
      else
        match stateOf items q with
        | None => Ok []
        | Some s => Ok (ztake limit (List.filter (λ t, bool_decide (tQueue t = q)) (liveWaiting now s)))
        end
  end.

Definition GetMatch (q : Queue) (matchID : bytes) (items : store) : result MatchErr (option Match) :=
  match QueueValidate q with
  | Err e => Err e
  | Ok _ => Ok match stateOf items q with None => None | Some s => Matches s !! matchID end
  end.

Definition QueueLength (now : Z) (q : Queue) (items : store) : result MatchErr Z :=
  match QueueValidate q with
  | Err e => Err e
  | Ok _ => Ok match stateOf items q with None => 0 | Some s => zlen (liveWaiting now s) end
  end.
