(* ===== verification/MmInv.v ===== *)
(** * Well-formed queues of matchmaking, and what the mutations do to them

    Waiting tickets are exactly the queue, one per subject; matched tickets
    belong to a match the state holds, which lists them; request records
    point to tickets that exist.  Expiry and retention are given by what they
    leave, in whatever order the maps are visited. *)

From S2P Require Import Prelude Bytes GoStr MmTypes MmStore.

(** ** Well-formed states *)

(** Tickets, waiting list and subjects agree. *)
Record core (q : Queue) (s : queueState) : Prop := {
  c_id : ∀ id t, Tickets s !! id = Some t → tID t = id ∧ tQueue t = q;
  c_nodup : NoDup (Waiting s);
  c_waiting : ∀ id, id ∈ Waiting s ↔ ∃ t, Tickets s !! id = Some t ∧ tState t = TicketWaiting;
  c_subject : ∀ sk id, SubjectTickets s !! sk = Some id ↔
                ∃ t, Tickets s !! id = Some t ∧ tState t = TicketWaiting ∧ SubjectKey (tSubject t) = sk
}.

(** The partition in which the [i]-th ticket of a match waited. *)
Definition partAt (m : Match) (i : nat) : option bytes :=
  match mTicketPartitions m with
  | [] => Some (qPartition (mQueue m))
  | ps => ps !! i
  end.

(** A match that was formed for the logical queue of [q]. *)
Record match_ok (q : Queue) (m : Match) : Prop := {
  mo_queue : SameLogicalQueue (mQueue m) q = true;
  mo_ids : NoDup (mTicketIDs m);
  mo_members : length (mMembers m) = length (mTicketIDs m);
  mo_subjects : NoDup (SubjectKey <$> mMembers m);
  mo_size : MinGroupSize q ≤ zlen (mTicketIDs m) ≤ qGroupSize q;
  mo_parts : mTicketPartitions m = [] ∨ length (mTicketPartitions m) = length (mTicketIDs m)
}.

(** [id] is the ticket of [s] that became the member [sub] of [m]. *)
Definition consumed (s : queueState) (m : Match) (id : bytes) (sub : Subject) : Prop :=
  ∃ t, Tickets s !! id = Some t ∧ tState t = TicketMatched ∧ tMatchID t = mID m ∧ tSubject t = sub.

Record wf (q : Queue) (s : queueState) : Prop := {
  w_core : core q s;
  w_matched : ∀ id t, Tickets s !! id = Some t → tState t = TicketMatched →
                ∃ m, Matches s !! tMatchID t = Some m ∧ id ∈ mTicketIDs m;
  w_match : ∀ mid m, Matches s !! mid = Some m → mID m = mid ∧ match_ok q m;
  w_consumed : ∀ mid m i id sub, Matches s !! mid = Some m → partAt m i = Some (qPartition q) →
                 mTicketIDs m !! i = Some id → mMembers m !! i = Some sub → consumed s m id sub;
  w_requests : ∀ r id, Requests s !! r = Some id → ∃ t, Tickets s !! id = Some t ∧ tRequestID t = r
}.

Lemma wf_empty q : wf q emptyState.
Proof.
  split; [split| | | |]; try done.
  - constructor.
  - intros id. split; [by intros ?%elem_of_nil|by intros (t & ? & _)].
  - intros sk id. split; [done|by intros (t & ? & _)].
Qed.

(** ** Leaving the queue *)

Definition leaveOne (upd : Ticket → Ticket) (s : queueState) (id : bytes) : queueState :=
  match Tickets s !! id with Some t => leaveQueue s id t (upd t) | None => s end.
Definition leaveAll (upd : Ticket → Ticket) (s : queueState) (ids : list bytes) : queueState := foldl (leaveOne upd) s ids.

(** [upd] resolves a ticket. *)
Definition resolves (upd : Ticket → Ticket) : Prop :=
  ∀ t, tID (upd t) = tID t ∧ tQueue (upd t) = tQueue t ∧ tSubject (upd t) = tSubject t ∧ tRequestID (upd t) = tRequestID t ∧
       tState (upd t) ≠ TicketWaiting.

Lemma removeFirst_filter x l : NoDup l → removeFirst x l = filter (λ y, y ≠ x) l.
Proof.
  induction l as [|y l IH]; [done|]. intros [Hy Hn]%NoDup_cons. cbn [removeFirst]. case_bool_decide as E.
  - subst. rewrite filter_cons_False by naive_solver. symmetry. apply filter_all. apply Forall_forall. intros z Hz ->. done.
  - rewrite filter_cons_True by done. by rewrite IH.
Qed.

Section Leave.
Context (upd : Ticket → Ticket) (Hupd : resolves upd) (q : Queue).

Lemma leave_ticket s id t id' :
  Tickets s !! id = Some t →
  Tickets (leaveOne upd s id) !! id' = if bool_decide (id' = id) then Some (upd t) else Tickets s !! id'.
Proof.
  intros Ht. unfold leaveOne. rewrite Ht. cbn. case_bool_decide as E; [subst; by rewrite lookup_insert_eq|by rewrite lookup_insert_ne].
Qed.

Lemma leave_core s id : core q s → id ∈ Waiting s → core q (leaveOne upd s id).
Proof.
  intros C Hin. apply (c_waiting _ _ C) in Hin as (t & Ht & Hw). destruct (Hupd t) as (Hid & Hq & Hs & _ & Hst).
  pose proof (leave_ticket s id t) as Hl. unfold leaveOne in *. rewrite Ht in *.
  split; cbn [leaveQueue removeWaiting set_SubjectTickets set_Waiting set_Tickets Waiting SubjectTickets].
  - intros id' t' Ht'. rewrite Hl in Ht' by done. case_bool_decide; [|by apply (c_id _ _ C)].
    simplify_eq. rewrite Hid, Hq. by apply (c_id _ _ C).
  - rewrite removeFirst_filter by apply (c_nodup _ _ C). apply NoDup_filter, (c_nodup _ _ C).
  - intros id'. rewrite removeFirst_filter, list_elem_of_filter, (c_waiting _ _ C) by apply (c_nodup _ _ C).
    rewrite Hl by done. case_bool_decide; [subst; naive_solver|naive_solver].
  - intros sk id'. rewrite lookup_delete_Some, (c_subject _ _ C), Hl by done. split.
    + intros (Hne & t' & Ht' & Hw' & <-). exists t'. rewrite bool_decide_eq_false_2; [done|]. intros ->. naive_solver.
    + intros (t' & Ht' & Hw' & <-). case_bool_decide as E; [naive_solver|]. split; [|by exists t'].
      intros Heq. apply E. assert (H1 : SubjectTickets s !! SubjectKey (tSubject t) = Some id) by (apply (c_subject _ _ C); by exists t).
      assert (H2 : SubjectTickets s !! SubjectKey (tSubject t) = Some id') by (apply (c_subject _ _ C); by exists t'). congruence.
Qed.

(** What [leaveAll] leaves. *)
Lemma leaveAll_spec ids : ∀ s, core q s → NoDup ids → (∀ id, id ∈ ids → id ∈ Waiting s) →
  core q (leaveAll upd s ids) ∧
  (∀ id, Tickets (leaveAll upd s ids) !! id = if bool_decide (id ∈ ids) then upd <$> Tickets s !! id else Tickets s !! id) ∧
  Waiting (leaveAll upd s ids) = filter (λ id, id ∉ ids) (Waiting s) ∧
  Matches (leaveAll upd s ids) = Matches s ∧ Requests (leaveAll upd s ids) = Requests s.
Proof.
  induction ids as [|id ids IH]; intros s C Hn Hin.
  - split_and!; try done. symmetry. apply filter_all. apply Forall_forall. intros x _. apply not_elem_of_nil.
  - apply NoDup_cons in Hn as [Hid Hn].
    pose proof (Hin id ltac:(left)) as Hw. pose proof Hw as (t & Ht & Hst)%(c_waiting _ _ C).
    assert (Hwait : Waiting (leaveOne upd s id) = filter (λ y, y ≠ id) (Waiting s)).
    { unfold leaveOne. rewrite Ht. cbn. apply removeFirst_filter, (c_nodup _ _ C). }
    destruct (IH (leaveOne upd s id)) as (C' & Htick & Hwt & Hm & Hr).
    + by apply leave_core.
    + done.
    + intros id' Hid'. rewrite Hwait, list_elem_of_filter. split; [by intros ->|]. apply Hin. by right.
    + cbn [leaveAll foldl] in *. fold (leaveAll upd (leaveOne upd s id) ids). split_and!; [done| | | |].
      * intros id'. rewrite Htick, (leave_ticket s id t) by done. rewrite (bool_decide_ext (id' ∈ id :: ids) (id' = id ∨ id' ∈ ids)) by apply elem_of_cons.
        destruct (decide (id' = id)) as [->|Hne].
        -- rewrite (bool_decide_eq_true_2 (id = id)), (bool_decide_eq_false_2 (id ∈ ids)), bool_decide_eq_true_2 by tauto. by rewrite Ht.
        -- rewrite (bool_decide_eq_false_2 (id' = id)) by done. by rewrite (bool_decide_ext (id' = id ∨ id' ∈ ids) (id' ∈ ids)) by tauto.
      * rewrite Hwt, Hwait, list_filter_filter. apply list_filter_iff. intros x. rewrite not_elem_of_cons. tauto.
      * rewrite Hm. unfold leaveOne. by rewrite Ht.
      * rewrite Hr. unfold leaveOne. by rewrite Ht.
Qed.

End Leave.

(** ** Expiring *)

Definition expireTicket (now : Z) (t : Ticket) : Ticket := resolved t TicketExpired (tMatchID t) (Unix now).

Lemma expireTicket_resolves now : resolves (expireTicket now).
Proof. intros t. by split_and!. Qed.

Definition expiredIn (s : queueState) (now : Z) (id : bytes) : Prop :=
  match Tickets s !! id with Some t => Expired t now = true | None => False end.
#[export] Instance expiredIn_dec s now id : Decision (expiredIn s now id).
Proof. unfold expiredIn. destruct (Tickets s !! id); apply _. Defined.

Lemma expireLoop_spec q ids : ∀ s now limit n, core q s → NoDup ids → (∀ id, id ∈ ids → id ∈ Waiting s) →
  let L := ztake (limit - n) (filter (expiredIn s now) ids) in
  expireLoop ids s now limit n = (leaveAll (expireTicket now) s L, n + zlen L).
Proof.
  induction ids as [|id ids IH]; intros s now limit n C Hn Hin.
  - cbn. unfold ztake. rewrite take_nil. cbn. by rewrite Z.add_0_r.
  - apply NoDup_cons in Hn as [Hid Hn]. cbn [expireLoop].
    pose proof (Hin id ltac:(left)) as Hw. pose proof Hw as (t & Ht & Hst)%(c_waiting _ _ C).
    assert (Hin' : ∀ id', id' ∈ ids → id' ∈ Waiting s) by (intros; apply Hin; by right).
    destruct (Z.leb_spec limit n) as [Hle|Hlt].
    { replace (ztake (limit - n) (filter (expiredIn s now) (id :: ids))) with (@nil bytes); [cbn; by rewrite Z.add_0_r|].
      unfold ztake. by replace (Z.to_nat (limit - n)) with 0%nat by lia. }
    rewrite Ht. rewrite (bool_decide_eq_true_2 (tState t = _)) by done. cbn [negb orb].
    destruct (Expired t now) eqn:Hexp; cbn [negb].
    + rewrite filter_cons_True by (unfold expiredIn; by rewrite Ht).
      set (s1 := leaveQueue s id t (resolved t TicketExpired (tMatchID t) (Unix now))).
      assert (Hs1 : s1 = leaveOne (expireTicket now) s id) by (unfold leaveOne; by rewrite Ht).
      assert (Hflt : filter (expiredIn s1 now) ids = filter (expiredIn s now) ids).
      { apply filter_ext_in. intros id' Hid'. unfold expiredIn. rewrite Hs1, (leave_ticket _ s id t) by done.
        rewrite bool_decide_eq_false_2; [done|]. by intros ->. }
      rewrite (IH s1 now limit (n + 1)); [|rewrite Hs1; by apply leave_core, Hw; try apply expireTicket_resolves|done|].
      * rewrite Hflt. replace (ztake (limit - n) (id :: filter (expiredIn s now) ids)) with (id :: ztake (limit - (n + 1)) (filter (expiredIn s now) ids)).
        -- cbn [leaveAll foldl]. rewrite Hs1, zlen_cons. f_equal. lia.
        -- unfold ztake. replace (Z.to_nat (limit - n)) with (S (Z.to_nat (limit - (n + 1)))) by lia. done.
      * intros id' Hid'. rewrite Hs1. unfold leaveOne. rewrite Ht. cbn. rewrite removeFirst_filter by apply (c_nodup _ _ C).
        apply list_elem_of_filter. split; [by intros ->|]. by apply Hin'.
    + rewrite filter_cons_False by (unfold expiredIn; rewrite Ht; by rewrite Hexp). by apply IH.
Qed.

(** ** Pruning *)

(** The tickets of [s] for which [f] holds are dropped. *)
Definition dropWhere (f : Ticket → bool) (s : queueState) : queueState :=
  set_Tickets (filter (λ x, f x.2 = false) (Tickets s)) s.

Lemma dropWhere_lookup f s id t : Tickets (dropWhere f s) !! id = Some t ↔ Tickets s !! id = Some t ∧ f t = false.
Proof. cbn. rewrite map_lookup_filter_Some. done. Qed.

Lemma dropWhere_twice f g s : dropWhere f (dropWhere g s) = dropWhere (λ t, f t || g t) s.
Proof.
  unfold dropWhere, set_Tickets; cbn. f_equal. apply map_eq. intros id. apply option_eq. intros t.
  rewrite !map_lookup_filter_Some. cbn. rewrite orb_false_iff. tauto.
Qed.

Lemma dropWhere_ext q f g s : core q s → (∀ id t, Tickets s !! id = Some t → f t = g t) → dropWhere f s = dropWhere g s.
Proof.
  intros C Hfg. unfold dropWhere. f_equal. apply map_filter_ext. intros id t Ht. cbn. by rewrite (Hfg id t Ht).
Qed.

Lemma dropWhere_none f s : (∀ id t, Tickets s !! id = Some t → f t = false) → dropWhere f s = s.
Proof.
  intros Hf. destruct s as [w ts ms st rq]. unfold dropWhere, set_Tickets; cbn in *. f_equal. apply map_filter_id. intros id t. apply Hf.
Qed.

(** Terminal tickets are in no other index. *)
Lemma dropWhere_core q f s : core q s → (∀ t, f t = true → terminal (tState t) = true) → core q (dropWhere f s).
Proof.
  intros C Hf. assert (Hw : ∀ t, tState t = TicketWaiting → f t = false).
  { intros t Ht. destruct (f t) eqn:E; [|done]. apply Hf in E. by rewrite Ht in E. }
  split.
  - intros id t [Ht _]%dropWhere_lookup. by apply (c_id _ _ C).
  - apply (c_nodup _ _ C).
  - intros id. cbn [dropWhere set_Tickets Waiting]. rewrite (c_waiting _ _ C). split; intros (t & Ht & Hst); exists t.
    + split; [|done]. apply dropWhere_lookup. split; [done|by apply Hw].
    + apply dropWhere_lookup in Ht as [? _]. done.
  - intros sk id. cbn [dropWhere set_Tickets SubjectTickets]. rewrite (c_subject _ _ C). split; intros (t & Ht & Hst & Hk); exists t.
    + split; [|done]. apply dropWhere_lookup. split; [done|by apply Hw].
    + apply dropWhere_lookup in Ht as [? _]. done.
Qed.

(** Dropping one resolved ticket. *)
Lemma drop_one q s id t : core q s → Tickets s !! id = Some t → terminal (tState t) = true →
  dropResolvedTicket s t = dropWhere (λ t', bool_decide (tID t' = id)) s ∧
  size (Tickets (dropResolvedTicket s t)) = (size (Tickets s) - 1)%nat ∧ (0 < size (Tickets s))%nat.
Proof.
  intros C Ht Hterm. destruct (c_id _ _ C id t Ht) as [Hid _]. unfold dropResolvedTicket. rewrite Hid.
  rewrite bool_decide_eq_false_2.
  - split_and!.
    + unfold dropWhere, set_Tickets. f_equal. apply map_eq. intros id'. apply option_eq. intros t'.
      rewrite lookup_delete_Some, map_lookup_filter_Some. cbn. rewrite bool_decide_eq_false. split.
      * intros [Hne Ht']. split; [done|]. destruct (c_id _ _ C id' t' Ht') as [<- _]. congruence.
      * intros [Ht' Hne]. split; [|done]. destruct (c_id _ _ C id' t' Ht') as [<- _]. congruence.
    + cbn. rewrite map_size_delete, Ht. lia.
    + apply Nat.neq_0_lt_0. intros E. apply map_size_empty_inv in E. rewrite E in Ht. done.
  - cbn. intros Hs. apply (c_subject _ _ C) in Hs as (t' & Ht' & Hw & _). rewrite Ht in Ht'. injection Ht' as <-. by rewrite Hw in Hterm.
Qed.

(** *** The members of one match *)

Definition inMatch (matchID : bytes) (t : Ticket) : bool :=
  bool_decide (tState t = TicketMatched) && bool_decide (tMatchID t = matchID).

Lemma inMatch_terminal mid t : inMatch mid t = true → terminal (tState t) = true.
Proof. unfold inMatch. intros [Ht%bool_decide_eq_true _]%andb_prop. by rewrite Ht. Qed.

(** [removed] counts what the maps lose. *)
Definition sizes (s : queueState) : Z := Z.of_nat (size (Tickets s)) + Z.of_nat (size (Matches s)).

Lemma pruneMember_step q mid id s n : core q s →
  ∃ n', pruneMember mid (s, n) id = (dropWhere (λ t, bool_decide (tID t = id) && inMatch mid t) s, n') ∧
    n' + sizes (dropWhere (λ t, bool_decide (tID t = id) && inMatch mid t) s) = n + sizes s.
Proof.
  intros C. unfold pruneMember; cbn [fst snd].
  assert (Hnone : (∀ t, Tickets s !! id = Some t → inMatch mid t = false) →
    dropWhere (λ t, bool_decide (tID t = id) && inMatch mid t) s = s).
  { intros Hf. apply dropWhere_none. intros id' t Ht. destruct (c_id _ _ C id' t Ht) as [<- _]. case_bool_decide; [|done]. subst. by apply Hf. }
  destruct (Tickets s !! id) as [t|] eqn:Ht; [|rewrite Hnone by done; by exists n].
  change (bool_decide _ && bool_decide _) with (inMatch mid t). destruct (inMatch mid t) eqn:Hm.
  - pose proof (inMatch_terminal mid t Hm) as Hterm. destruct (drop_one q s id t C Ht Hterm) as (He & Hsz & Hpos).
    assert (Hd : dropWhere (λ t, bool_decide (tID t = id) && inMatch mid t) s = dropResolvedTicket s t).
    { rewrite He. apply (dropWhere_ext q); [done|]. intros id' t' Ht'. case_bool_decide as Hi; [|done].
      destruct (c_id _ _ C id' t' Ht') as [Hid' _]. assert (t' = t) as -> by congruence. by rewrite Hm. }
    rewrite Hd. eexists. split; [done|]. unfold sizes. rewrite Hsz. assert (Hmm : Matches (dropResolvedTicket s t) = Matches s) by (by rewrite He). rewrite Hmm. lia.
  - rewrite Hnone by (intros t' [= <-]; done). by exists n.
Qed.

Lemma pruneMembers_spec q mid ids : ∀ s n, core q s →
  ∃ n', foldl (pruneMember mid) (s, n) ids = (dropWhere (λ t, bool_decide (tID t ∈ ids) && inMatch mid t) s, n') ∧
    n' + sizes (dropWhere (λ t, bool_decide (tID t ∈ ids) && inMatch mid t) s) = n + sizes s.
Proof.
  induction ids as [|id ids IH]; intros s n C.
  - rewrite dropWhere_none by (intros; by rewrite bool_decide_eq_false_2 by apply not_elem_of_nil). by exists n.
  - cbn [foldl]. destruct (pruneMember_step q mid id s n C) as (n1 & -> & H1).
    set (s1 := dropWhere (λ t, bool_decide (tID t = id) && inMatch mid t) s) in *.
    assert (C1 : core q s1) by (apply dropWhere_core; [done|]; intros t [_ ?]%andb_prop; by eapply inMatch_terminal).
    destruct (IH s1 n1 C1) as (n2 & -> & H2). unfold s1 in H1, H2 |- *. rewrite dropWhere_twice in H2 |- *.
    assert (He : dropWhere (λ t, bool_decide (tID t ∈ ids) && inMatch mid t || bool_decide (tID t = id) && inMatch mid t) s =
                 dropWhere (λ t, bool_decide (tID t ∈ id :: ids) && inMatch mid t) s).
    { apply (dropWhere_ext q); [done|]. intros id' t _. rewrite (bool_decide_ext (tID t ∈ id :: ids) (tID t = id ∨ tID t ∈ ids)) by apply elem_of_cons.
      rewrite bool_decide_or. destruct (bool_decide (tID t ∈ ids)), (bool_decide (tID t = id)), (inMatch mid t); done. }
    rewrite He in H2 |- *. exists n2. split; [done|]. lia.
Qed.

(** *** The expired matches *)

Definition deadMatch (cut : Z) (s : queueState) (mid : bytes) : bool :=
  match Matches s !! mid with Some m => mCreatedAtUnix m <=? cut | None => false end.

(** What the first loop leaves after visiting [o]. *)
Definition afterMatches (cut : Z) (s : queueState) (o : list bytes) : queueState :=
  set_Matches (filter (λ x, bool_decide (x.1 ∈ o) && (mCreatedAtUnix x.2 <=? cut) = false) (Matches s))
    (dropWhere (λ t, bool_decide (tState t = TicketMatched) && bool_decide (tMatchID t ∈ o) && deadMatch cut s (tMatchID t)) s).

(** Matched tickets are listed by their match. *)
Definition listed (s : queueState) : Prop :=
  ∀ id t, Tickets s !! id = Some t → tState t = TicketMatched → ∃ m, Matches s !! tMatchID t = Some m ∧ id ∈ mTicketIDs m.

Lemma queueState_eq s s' : Waiting s = Waiting s' → Tickets s = Tickets s' → Matches s = Matches s' →
  SubjectTickets s = SubjectTickets s' → Requests s = Requests s' → s = s'.
Proof. destruct s, s'; cbn; congruence. Qed.

Lemma afterMatches_core q cut s o : core q s → core q (afterMatches cut s o).
Proof.
  intros C. assert (C' : core q (dropWhere (λ t, bool_decide (tState t = TicketMatched) && bool_decide (tMatchID t ∈ o) && deadMatch cut s (tMatchID t)) s)).
  { apply dropWhere_core; [done|]. intros t [[Ht%bool_decide_eq_true _]%andb_prop _]%andb_prop. by rewrite Ht. }
  destruct C'. by split.
Qed.

Lemma afterMatches_ticket cut s o id t : Tickets (afterMatches cut s o) !! id = Some t ↔
  Tickets s !! id = Some t ∧ (tState t = TicketMatched → tMatchID t ∈ o → deadMatch cut s (tMatchID t) = false).
Proof.
  cbn [afterMatches set_Matches Tickets]. rewrite dropWhere_lookup, !andb_false_iff, !bool_decide_eq_false.
  destruct (decide (tState t = TicketMatched)), (decide (tMatchID t ∈ o)), (deadMatch cut s (tMatchID t)); naive_solver.
Qed.

Lemma afterMatches_match cut s o mid m : Matches (afterMatches cut s o) !! mid = Some m ↔
  Matches s !! mid = Some m ∧ (mid ∈ o → cut < mCreatedAtUnix m).
Proof.
  cbn [afterMatches set_Matches Matches]. rewrite map_lookup_filter_Some. cbn [fst snd]. rewrite andb_false_iff, bool_decide_eq_false, Z.leb_gt.
  destruct (decide (mid ∈ o)); naive_solver.
Qed.

(** Visiting one more match changes nothing, or removes it with its tickets. *)
Lemma afterMatches_skip q cut s o mid : core q s → listed s → (mid ∈ o ∨ deadMatch cut s mid = false) →
  afterMatches cut s (o ++ [mid]) = afterMatches cut s o.
Proof.
  intros C Hl Hs. assert (Ho : ∀ x, x ∈ o ++ [mid] ↔ x ∈ o ∨ x = mid) by (intros; rewrite elem_of_app, list_elem_of_singleton; done).
  apply queueState_eq; try done; apply map_eq; intros k; apply option_eq; intros x.
  - rewrite !afterMatches_ticket, Ho. split; intros [Ht Hx]; (split; [done|]); intros Hst; [tauto|].
    intros [?|Hm]; [by apply Hx|]. rewrite Hm in *. destruct Hs as [?|?]; [by apply Hx|done].
  - rewrite !afterMatches_match, Ho. split; intros [Ht Hx]; (split; [done|]); [tauto|].
    intros [?| ->]; [by apply Hx|]. destruct Hs as [?|Hd]; [by apply Hx|]. unfold deadMatch in Hd. rewrite Ht in Hd. lia.
Qed.

Lemma pruneMatches_spec q cut s o : core q s → listed s →
  ∃ n, pruneMatches o cut s = (afterMatches cut s o, n) ∧ n + sizes (afterMatches cut s o) = sizes s.
Proof.
  intros C Hl. unfold pruneMatches. induction o as [|mid o IH] using rev_ind.
  - assert (He : afterMatches cut s [] = s).
    { apply queueState_eq; try done; apply map_eq; intros k; apply option_eq; intros x.
      - rewrite afterMatches_ticket. split; [tauto|]. intros ?. split; [done|]. by intros _ ?%elem_of_nil.
      - rewrite afterMatches_match. split; [tauto|]. intros ?. split; [done|]. by intros ?%elem_of_nil. }
    rewrite He. by exists 0.
  - rewrite foldl_app. destruct IH as (n & -> & Hn). cbn [foldl]. unfold pruneMatch; cbn [fst snd].
    destruct (Matches (afterMatches cut s o) !! mid) as [m|] eqn:Hm.
    + pose proof Hm as [Hm0 Ho]%afterMatches_match. destruct (Z.ltb_spec cut (mCreatedAtUnix m)) as [Hlt|Hge].
      * rewrite (afterMatches_skip q); [by exists n|done|done|]. right. unfold deadMatch. rewrite Hm0. lia.
      * destruct (pruneMembers_spec q mid (mTicketIDs m) (afterMatches cut s o) n (afterMatches_core q cut s o C)) as (n1 & Hf & Hn1).
        rewrite Hf. cbn [fst snd]. set (s1 := dropWhere _ (afterMatches cut s o)) in *.
        assert (He : set_Matches (delete mid (Matches s1)) s1 = afterMatches cut s (o ++ [mid])).
        { apply queueState_eq; try done; apply map_eq; intros k; apply option_eq; intros x.
          - cbn [set_Matches Tickets]. unfold s1. rewrite dropWhere_lookup, !afterMatches_ticket, elem_of_app, list_elem_of_singleton.
            rewrite andb_false_iff, bool_decide_eq_false. unfold inMatch. rewrite andb_false_iff, !bool_decide_eq_false. split.
            + intros [[Ht Hd] Hor]. split; [done|]. intros Hst [Hin|Heq]; [by apply Hd|].
              destruct (Hl k x Ht Hst) as (m' & Hm' & Hk). assert (m' = m) as -> by congruence.
              destruct (c_id _ _ C k x Ht) as [Hid _]. rewrite <- Hid in Hk. naive_solver.
            + intros [Ht Hd]. split; [split; [done|]; intros; apply Hd; tauto|]. destruct (decide (tState x = TicketMatched)) as [Hst|]; [|tauto].
              right. right. intros Heq. specialize (Hd Hst ltac:(by right)). unfold deadMatch in Hd. rewrite Heq, Hm0 in Hd. lia.
          - cbn [set_Matches Matches]. rewrite lookup_delete_Some. change (Matches s1) with (Matches (afterMatches cut s o)).
            rewrite !afterMatches_match, elem_of_app, list_elem_of_singleton. split.
            + intros (Hne & Hx & Hc). split; [done|]. intros [?|?]; [by apply Hc|congruence].
            + intros [Hx Hc]. split_and!; [|done|tauto]. intros <-. assert (x = m) as -> by congruence. specialize (Hc ltac:(by right)). lia. }
        rewrite He. exists (n1 + 1). split; [done|]. rewrite <- He. unfold sizes in *. cbn [set_Matches Tickets Matches].
        change (Matches s1) with (Matches (afterMatches cut s o)) in *. rewrite map_size_delete, Hm.
        assert (0 < size (Matches (afterMatches cut s o)))%nat; [|lia].
        apply Nat.neq_0_lt_0. intros E. apply map_size_empty_inv in E. by rewrite E in Hm.
    + rewrite (afterMatches_skip q); [by exists n|done|done|].
      destruct (decide (mid ∈ o)); [by left|right]. unfold deadMatch. destruct (Matches s !! mid) as [m|] eqn:Hm0; [|done].
      exfalso. assert (Matches (afterMatches cut s o) !! mid = Some m); [|congruence]. by apply afterMatches_match.
Qed.

(** *** The other resolved tickets *)

(** What the second loop drops. *)
Definition lapsed (cut : Z) (s : queueState) (t : Ticket) : bool :=
  terminal (tState t) && (tResolvedAtUnix t <=? cut) &&
  negb (bool_decide (tState t = TicketMatched) && bool_decide (is_Some (Matches s !! tMatchID t))).

Definition afterTickets (cut : Z) (s : queueState) (o : list bytes) : queueState :=
  dropWhere (λ t, bool_decide (tID t ∈ o) && lapsed cut s t) s.

Lemma pruneTickets_spec q cut s o n : core q s →
  ∃ n', pruneTickets o cut (s, n) = (afterTickets cut s o, n') ∧ n' + sizes (afterTickets cut s o) = n + sizes s.
Proof.
  intros C. unfold pruneTickets. induction o as [|id o IH] using rev_ind.
  - unfold afterTickets. rewrite dropWhere_none by (intros; by rewrite bool_decide_eq_false_2 by apply not_elem_of_nil). by exists n.
  - rewrite foldl_app. destruct IH as (n1 & -> & Hn). cbn [foldl]. unfold pruneTicket; cbn [fst snd].
    set (s1 := afterTickets cut s o) in *. set (s' := afterTickets cut s (o ++ [id])).
    assert (C1 : core q s1) by (apply dropWhere_core; [done|]; unfold lapsed; intros t [_ [[? _]%andb_prop _]%andb_prop]%andb_prop; done).
    assert (Hskip : (∀ t, Tickets s !! id = Some t → id ∈ o ∨ lapsed cut s t = false) → s' = s1).
    { intros Hs. apply (dropWhere_ext q); [done|]. intros id' t Ht. destruct (c_id _ _ C id' t Ht) as [Hid _].
      rewrite (bool_decide_ext (tID t ∈ o ++ [id]) (tID t ∈ o ∨ tID t = id)) by (rewrite elem_of_app, list_elem_of_singleton; done).
      rewrite bool_decide_or. destruct (decide (tID t = id)) as [He|He].
      - rewrite (bool_decide_eq_true_2 (tID t = id)), orb_true_r by done. destruct (Hs t) as [Hin|Hl]; [by rewrite <- He, Hid| |].
        + by rewrite (bool_decide_eq_true_2 (tID t ∈ o)) by (by rewrite He).
        + by rewrite Hl, !andb_false_r.
      - by rewrite (bool_decide_eq_false_2 (tID t = id)), orb_false_r by done. }
    destruct (Tickets s1 !! id) as [t|] eqn:Ht.
    + pose proof Ht as [Ht0 Hd]%dropWhere_lookup.
      assert (Hl : lapsed cut s t = negb (negb (terminal (tState t)) || (cut <? tResolvedAtUnix t)) &&
        negb (bool_decide (tState t = TicketMatched) && bool_decide (is_Some (Matches s1 !! tMatchID t)))).
      { unfold lapsed. rewrite negb_orb, negb_involutive, Z.leb_antisym. done. }
      destruct (negb (terminal (tState t)) || _) eqn:E1; cbn [negb andb] in Hl.
      { rewrite Hskip by (intros t'; rewrite Ht0; intros [= <-]; by right). by exists n1. }
      destruct (bool_decide (tState t = TicketMatched) && _) eqn:E2; cbn [negb andb] in Hl.
      { rewrite Hskip by (intros t'; rewrite Ht0; intros [= <-]; by right). by exists n1. }
      apply orb_false_elim in E1 as [Hterm _]. apply negb_false_iff in Hterm.
      destruct (drop_one q s1 id t C1 Ht Hterm) as (He & Hsz & Hpos).
      assert (Hs' : dropResolvedTicket s1 t = s').
      { rewrite He. unfold s1, s', afterTickets. rewrite dropWhere_twice. apply (dropWhere_ext q); [done|]. intros id' t' Ht'.
        destruct (c_id _ _ C id' t' Ht') as [Hid _].
        rewrite (bool_decide_ext (tID t' ∈ o ++ [id]) (tID t' = id ∨ tID t' ∈ o)) by (rewrite elem_of_app, list_elem_of_singleton; tauto).
        rewrite bool_decide_or. destruct (bool_decide (tID t' = id)) eqn:Hi; [|done]. apply bool_decide_eq_true in Hi. cbn [andb orb].
        assert (t' = t) as -> by congruence. by rewrite Hl. }
      rewrite Hs'. eexists. split; [done|]. unfold sizes in *. rewrite <- Hs', Hsz.
      assert (Hmm : Matches (dropResolvedTicket s1 t) = Matches s1) by (by rewrite He). rewrite Hmm. lia.
    + rewrite Hskip; [by exists n1|]. intros t Ht0. destruct (decide (id ∈ o)) as [|Hid]; [by left|right].
      destruct (lapsed cut s t) eqn:Hl; [|done]. exfalso. assert (Tickets s1 !! id = Some t); [|congruence].
      apply dropWhere_lookup. split; [done|]. destruct (c_id _ _ C id t Ht0) as [-> _]. by rewrite bool_decide_eq_false_2.
Qed.

(** *** The request records *)

Lemma pruneRequests_spec s o :
  pruneRequests o s = set_Requests (filter (λ x, ¬ (x.1 ∈ o ∧ Tickets s !! x.2 = None)) (Requests s)) s.
Proof.
  unfold pruneRequests. induction o as [|r o IH] using rev_ind.
  - apply queueState_eq; try done. cbn. symmetry. apply map_filter_id. intros i x _ [?%elem_of_nil _]. done.
  - rewrite foldl_app, IH. cbn [foldl]. unfold pruneRequest.
    destruct (Requests (set_Requests _ s) !! r) as [id|] eqn:Hr; cbn [set_Requests Requests] in Hr.
    + apply map_lookup_filter_Some in Hr as [Hr Ho]. cbn in Ho. change (Tickets (set_Requests _ s)) with (Tickets s).
      case_bool_decide as Hn; apply queueState_eq; try done; apply map_eq; intros k; apply option_eq; intros x;
        cbn [set_Requests Requests]; rewrite ?lookup_delete_Some, !map_lookup_filter_Some; cbn; rewrite elem_of_app, list_elem_of_singleton.
      * split; [|naive_solver]. intros (Hne & Hx & Hk). split; [done|]. intros [[?|?] ?]; [by apply Hk|congruence].
      * split; [|naive_solver]. intros (Hx & Hk). split; [done|]. intros [[?| ->] ?]; [by apply Hk|congruence].
    + apply map_lookup_filter_None in Hr. apply queueState_eq; try done. apply map_eq. intros k. apply option_eq. intros x.
      cbn [set_Requests Requests]. rewrite !map_lookup_filter_Some. cbn. rewrite elem_of_app, list_elem_of_singleton.
      split; [|naive_solver]. intros (Hx & Hk). split; [done|]. intros [[?| ->] ?]; [by apply Hk|].
      destruct Hr as [Hr|Hr]; [congruence|]. by apply (Hr x Hx).
Qed.

(** ** What pruning leaves *)

Definition liveMatch (cut : Z) (m : Match) : bool := cut <? mCreatedAtUnix m.

(** A ticket stays while it waits, while its match stays, or until its own
    time is over. *)
Definition keptTicket (cut : Z) (s : queueState) (t : Ticket) : bool :=
  match tState t with
  | TicketWaiting => true
  | TicketMatched => match Matches s !! tMatchID t with Some m => liveMatch cut m | None => cut <? tResolvedAtUnix t end
  | _ => cut <? tResolvedAtUnix t
  end.

Definition prunedState (cut : Z) (s : queueState) : queueState :=
  let ts := filter (λ x, keptTicket cut s x.2 = true) (Tickets s) in
  mkQueueState (Waiting s) ts (filter (λ x, liveMatch cut x.2 = true) (Matches s)) (SubjectTickets s)
    (filter (λ x, is_Some (ts !! x.2)) (Requests s)).

(** The loops with any orders that visit every key. *)
Definition pruneInOrder (mo to ro : list bytes) (cut : Z) (s : queueState) : queueState * Z :=
  let acc := pruneTickets to cut (pruneMatches mo cut s) in
  (pruneRequests ro (fst acc), snd acc).

Lemma pruneInOrder_spec q mo to ro cut s :
  core q s → listed s →
  (∀ k, is_Some (Matches s !! k) → k ∈ mo) → (∀ k, is_Some (Tickets (fst (pruneMatches mo cut s)) !! k) → k ∈ to) →
  (∀ k, is_Some (Requests s !! k) → k ∈ ro) →
  pruneInOrder mo to ro cut s = (prunedState cut s, sizes s - sizes (prunedState cut s)).
Proof.
  intros C Hl Hmo Hto Hro. unfold pruneInOrder. destruct (pruneMatches_spec q cut s mo C Hl) as (n1 & Hm & Hn1). rewrite Hm in Hto |- *. cbn [fst] in Hto.
  pose proof (afterMatches_core q cut s mo C) as C1.
  destruct (pruneTickets_spec q cut (afterMatches cut s mo) to n1 C1) as (n2 & Ht & Hn2). rewrite Ht. cbn [fst snd].
  set (s2 := afterTickets cut (afterMatches cut s mo) to) in *.
  assert (Htick : Tickets s2 = Tickets (prunedState cut s)).
  { apply map_eq. intros id. apply option_eq. intros t. unfold s2, afterTickets. rewrite dropWhere_lookup, afterMatches_ticket.
    cbn [prunedState Tickets]. rewrite map_lookup_filter_Some. cbn [snd]. split.
    - intros [[Hid Hd] Hlp]. split; [done|]. rewrite andb_false_iff, bool_decide_eq_false in Hlp.
      assert (Hlap : lapsed cut (afterMatches cut s mo) t = false).
      { destruct Hlp as [Hno|?]; [|done]. exfalso. apply Hno. destruct (c_id _ _ C id t Hid) as [-> _]. apply Hto. exists t. by apply afterMatches_ticket. }
      unfold lapsed, keptTicket in *. destruct (tState t) eqn:Hst; cbn [terminal andb] in Hlap; try done.
      + destruct (Hl id t Hid Hst) as (m & Hmm & _). specialize (Hd eq_refl (Hmo _ ltac:(by exists m))). unfold deadMatch in Hd. rewrite Hmm in *. unfold liveMatch. lia.
      + cbn in Hlap. rewrite andb_true_r in Hlap. lia.
      + cbn in Hlap. rewrite andb_true_r in Hlap. lia.
    - intros [Hid Hk]. split; [split; [done|]|].
      + intros Hst Hin. unfold keptTicket in Hk. rewrite Hst in Hk. unfold deadMatch, liveMatch in *. destruct (Matches s !! tMatchID t); [lia|done].
      + apply andb_false_iff. right. unfold lapsed, keptTicket in *. destruct (tState t) eqn:Hst; cbn [terminal andb]; try done.
        * destruct (Hl id t Hid Hst) as (m & Hmm & _). rewrite Hmm in Hk. rewrite (bool_decide_eq_true_2 (is_Some _)); [by rewrite andb_false_r|].
          exists m. apply afterMatches_match. split; [done|]. intros _. unfold liveMatch in Hk. lia.
        * cbn. rewrite andb_true_r. lia.
        * cbn. rewrite andb_true_r. lia. }
  assert (Hmatch : Matches s2 = Matches (prunedState cut s)).
  { apply map_eq. intros k. apply option_eq. intros m. change (Matches s2) with (Matches (afterMatches cut s mo)). rewrite afterMatches_match.
    cbn [prunedState Matches]. rewrite map_lookup_filter_Some. cbn [snd]. unfold liveMatch. rewrite Z.ltb_lt. split; [|tauto].
    intros [Hk Hd]. split; [done|]. apply Hd, Hmo. by exists m. }
  f_equal.
  - rewrite pruneRequests_spec. apply queueState_eq; try done. cbn [set_Requests Requests prunedState]. change (Requests s2) with (Requests s).
    apply map_filter_ext. intros r id Hr. cbn [fst snd]. rewrite Htick. cbn [prunedState Tickets]. rewrite eq_None_not_Some. split.
    + intros Hn. destruct (decide (is_Some (filter (λ x : bytes * Ticket, keptTicket cut s x.2 = true) (Tickets s) !! id))); [done|].
      exfalso. apply Hn. split; [|done]. apply Hro. by exists id.
    + by intros ? [_ ?].
  - unfold sizes in *. rewrite <- Htick, <- Hmatch. lia.
Qed.

Lemma elem_of_keys {A} (m : gmap bytes A) k : k ∈ keys m ↔ is_Some (m !! k).
Proof.
  unfold keys. rewrite list_elem_of_fmap. split.
  - intros ([k' x] & -> & Hx%elem_of_map_to_list). by exists x.
  - intros [x Hx]. exists (k, x). split; [done|]. by apply elem_of_map_to_list.
Qed.

Lemma prune_spec q cfg s now : core q s → listed s →
  pruneResolvedLocked cfg s now = (prunedState (cutoff cfg now) s, sizes s - sizes (prunedState (cutoff cfg now) s)).
Proof.
  intros C Hl. set (cut := cutoff cfg now).
  rewrite <- (pruneInOrder_spec q (keys (Matches s)) (keys (Tickets (fst (pruneMatches (keys (Matches s)) cut s)))) (keys (Requests s)) cut s);
    try done; try (intros k ?; by apply elem_of_keys).
  unfold pruneResolvedLocked, pruneInOrder. fold cut.
  destruct (pruneMatches_spec q cut s (keys (Matches s)) C Hl) as (n1 & Hm & _). rewrite Hm. cbn [fst].
  destruct (pruneTickets_spec q cut (afterMatches cut s (keys (Matches s))) (keys (Tickets (afterMatches cut s (keys (Matches s))))) n1 (afterMatches_core q cut s _ C))
    as (n2 & Ht & _). by rewrite Ht.
Qed.

(** ** Expiring and pruning *)

Lemma leaveAll_wf q upd s ids :
  resolves upd → (∀ t, tState (upd t) ≠ TicketMatched) → wf q s → NoDup ids → (∀ id, id ∈ ids → id ∈ Waiting s) → wf q (leaveAll upd s ids).
Proof.
  intros Hupd Hm I Hn Hin. destruct (leaveAll_spec upd Hupd q ids s (w_core _ _ I) Hn Hin) as (C & Ht & Hw & Hms & Hr).
  assert (Hkeep : ∀ id t, Tickets s !! id = Some t → tState t = TicketMatched → Tickets (leaveAll upd s ids) !! id = Some t).
  { intros id t Hid Hst. rewrite Ht, bool_decide_eq_false_2; [done|].
    intros Hi. apply Hin, (c_waiting _ _ (w_core _ _ I)) in Hi as (t' & Ht' & Hst'). congruence. }
  split; [done| | | |].
  - intros id t Hid Hst. rewrite Ht in Hid. case_bool_decide; [|rewrite Hms; by apply (w_matched _ _ I)].
    apply fmap_Some in Hid as (t0 & _ & ->). by apply Hm in Hst.
  - rewrite Hms. apply (w_match _ _ I).
  - rewrite Hms. intros mid m i id sub Hmm Hp Hi Hs. destruct (w_consumed _ _ I mid m i id sub Hmm Hp Hi Hs) as (t & Hid & Hst & ?).
    exists t. split_and!; try done; [by apply Hkeep|tauto..].
  - rewrite Hr. intros r id Hr'. destruct (w_requests _ _ I r id Hr') as (t & Hid & Hrq). rewrite Ht, Hid.
    case_bool_decide; [|by exists t]. exists (upd t). split; [done|]. by destruct (Hupd t) as (_ & _ & _ & -> & _).
Qed.

Lemma kept_waiting cut s t : tState t = TicketWaiting → keptTicket cut s t = true.
Proof. unfold keptTicket. by intros ->. Qed.

Lemma pruned_ticket cut s id t : Tickets (prunedState cut s) !! id = Some t ↔ Tickets s !! id = Some t ∧ keptTicket cut s t = true.
Proof. cbn. by rewrite map_lookup_filter_Some. Qed.

Lemma pruned_match cut s mid m : Matches (prunedState cut s) !! mid = Some m ↔ Matches s !! mid = Some m ∧ cut < mCreatedAtUnix m.
Proof. cbn. rewrite map_lookup_filter_Some. cbn. unfold liveMatch. by rewrite Z.ltb_lt. Qed.

Lemma pruned_wf q cut s : wf q s → wf q (prunedState cut s).
Proof.
  intros I. pose proof (w_core _ _ I) as C. split.
  - split.
    + intros id t [Ht _]%pruned_ticket. by apply (c_id _ _ C).
    + apply (c_nodup _ _ C).
    + intros id. change (Waiting (prunedState cut s)) with (Waiting s). rewrite (c_waiting _ _ C). split; intros (t & Ht & Hst); exists t.
      * split; [|done]. apply pruned_ticket. split; [done|by apply kept_waiting].
      * apply pruned_ticket in Ht as [? _]. done.
    + intros sk id. change (SubjectTickets (prunedState cut s)) with (SubjectTickets s). rewrite (c_subject _ _ C). split; intros (t & Ht & Hst & Hk); exists t.
      * split; [|done]. apply pruned_ticket. split; [done|by apply kept_waiting].
      * apply pruned_ticket in Ht as [? _]. done.
  - intros id t [Ht Hk]%pruned_ticket Hst. destruct (w_matched _ _ I id t Ht Hst) as (m & Hm & Hin). exists m. split; [|done].
    apply pruned_match. split; [done|]. unfold keptTicket, liveMatch in Hk. rewrite Hst, Hm in Hk. lia.
  - intros mid m [Hm _]%pruned_match. by apply (w_match _ _ I).
  - intros mid m i id sub [Hm Hc]%pruned_match Hp Hi Hs. destruct (w_consumed _ _ I mid m i id sub Hm Hp Hi Hs) as (t & Ht & Hst & Hmid & Hsub).
    exists t. split_and!; try done. apply pruned_ticket. split; [done|]. unfold keptTicket, liveMatch. rewrite Hst, Hmid.
    destruct (w_match _ _ I mid m Hm) as [-> _]. rewrite Hm. lia.
  - intros r id Hr. change (Requests (prunedState cut s)) with (filter (λ x : bytes * bytes, is_Some (Tickets (prunedState cut s) !! x.2)) (Requests s)) in Hr.
    apply map_lookup_filter_Some in Hr as [Hr [t Ht]]. cbn in Ht. exists t. split; [done|].
    destruct (w_requests _ _ I r id Hr) as (t' & Ht' & Hrq). apply pruned_ticket in Ht as [Ht _]. congruence.
Qed.

Lemma wf_listed q s : wf q s → listed s.
Proof. intros I id t. apply (w_matched _ _ I). Qed.

(** The expired tickets of a state, in queue order. *)
Definition overdue (s : queueState) (now : Z) : list bytes := filter (expiredIn s now) (Waiting s).

Lemma overdue_ok q s now : core q s → NoDup (overdue s now) ∧ (∀ id, id ∈ overdue s now → id ∈ Waiting s).
Proof.
  intros C. split; [apply NoDup_filter, (c_nodup _ _ C)|]. unfold overdue. by intros id [_ ?]%list_elem_of_filter.
Qed.

Lemma expireLocked_eq q cfg s now : wf q s →
  expireLocked cfg s now = prunedState (cutoff cfg now) (leaveAll (expireTicket now) s (overdue s now)).
Proof.
  intros I. pose proof (w_core _ _ I) as C. destruct (overdue_ok q s now C) as [Hn Hin]. unfold expireLocked, expireLockedLimit.
  rewrite (expireLoop_spec q (Waiting s) s now _ 0 C (c_nodup _ _ C)) by done. cbn [fst].
  assert (Hall : ztake (zlen (Waiting s) - 0) (filter (expiredIn s now) (Waiting s)) = overdue s now).
  { apply ztake_all. rewrite Z.sub_0_r. unfold zlen. apply Nat2Z.inj_le, length_filter. }
  rewrite Hall.
  assert (I' : wf q (leaveAll (expireTicket now) s (overdue s now))) by (by apply leaveAll_wf; try apply expireTicket_resolves).
  rewrite (prune_spec q); [done|apply I'|by eapply wf_listed].
Qed.

(** What the start of a mutation leaves of a well-formed state. *)
Record refreshed (q : Queue) (cfg : Config) (now : Z) (s s' : queueState) : Prop := {
  rf_wf : wf q s';
  rf_ticket : ∀ id t', Tickets s' !! id = Some t' → ∃ t, Tickets s !! id = Some t ∧
                (t' = t ∨ tState t = TicketWaiting ∧ Expired t now = true ∧ t' = expireTicket now t);
  rf_waiting : ∀ id t, tState t = TicketWaiting → Tickets s' !! id = Some t ↔ Tickets s !! id = Some t ∧ Expired t now = false;
  rf_match : ∀ mid m, Matches s' !! mid = Some m ↔ Matches s !! mid = Some m ∧ cutoff cfg now < mCreatedAtUnix m;
  rf_order : Waiting s' = filter (λ id, ¬ expiredIn s now id) (Waiting s)
}.

Lemma expireLocked_refreshed q cfg s now : wf q s → refreshed q cfg now s (expireLocked cfg s now).
Proof.
  intros I. rewrite (expireLocked_eq q) by done. pose proof (w_core _ _ I) as C. destruct (overdue_ok q s now C) as [Hn Hin].
  pose proof (leaveAll_wf q _ s _ (expireTicket_resolves now) ltac:(done) I Hn Hin) as I'.
  destruct (leaveAll_spec _ (expireTicket_resolves now) q _ s C Hn Hin) as (C' & Ht & Hw & Hms & Hr).
  assert (Hov : ∀ id, id ∈ overdue s now ↔ ∃ t, Tickets s !! id = Some t ∧ Expired t now = true).
  { intros id. unfold overdue. rewrite list_elem_of_filter. unfold expiredIn. split.
    - intros [He _]. destruct (Tickets s !! id) as [t|]; [|done]. by exists t.
    - intros (t & Hid & He). rewrite Hid. split; [done|]. apply (c_waiting _ _ C). exists t. split; [done|].
      unfold Expired in He. by destruct (tState t). }
  split.
  - by apply pruned_wf.
  - intros id t' [Ht' _]%pruned_ticket. rewrite Ht in Ht'. case_bool_decide as Hi.
    + apply fmap_Some in Ht' as (t & Hid & ->). exists t. split; [done|]. right. apply Hov in Hi as (t1 & Ht1 & He).
      assert (t1 = t) as -> by congruence. split_and!; try done. unfold Expired in He. by destruct (tState t).
    + exists t'. split; [done|by left].
  - intros id t Hst. rewrite pruned_ticket, Ht. case_bool_decide as Hi.
    + apply Hov in Hi as (t1 & Ht1 & He). rewrite Ht1. cbn. split; [intros [[= <-] _]; done|]. intros [[= <-] ?]. congruence.
    + split; intros [Hid Hx]; (split; [done|]); [|by apply kept_waiting]. destruct (Expired t now) eqn:He; [|done].
      exfalso. apply Hi, Hov. by exists t.
  - intros mid m. by rewrite pruned_match, Hms.
  - cbn [prunedState Waiting]. rewrite Hw. apply filter_ext_in. intros id Hid. rewrite Hov. unfold expiredIn.
    apply (c_waiting _ _ C) in Hid as (t & Hid & _). rewrite Hid. naive_solver.
Qed.

(** ** Enqueueing *)

Lemma live_none q s sub : core q s → liveTicket s sub = None → SubjectTickets s !! SubjectKey sub = None.
Proof.
  intros C. unfold liveTicket. destruct (SubjectTickets s !! SubjectKey sub) as [id|] eqn:Hs; [|done].
  apply (c_subject _ _ C) in Hs as (t & -> & Hst & _). by rewrite Hst.
Qed.

Lemma add_wf q s t :
  wf q s → tQueue t = q → tState t = TicketWaiting → Tickets s !! tID t = None →
  SubjectTickets s !! SubjectKey (tSubject t) = None → wf q (addTicket s t).
Proof.
  intros I Hq Hst Hnew Hsub. pose proof (w_core _ _ I) as C.
  assert (Hnw : tID t ∉ Waiting s) by (rewrite (c_waiting _ _ C); naive_solver).
  split; [split| | | |]; cbn [addTicket Tickets Waiting SubjectTickets Matches Requests].
  - intros id t' [[<- <-]|[_ Ht']]%lookup_insert_Some; [done|by apply (c_id _ _ C)].
  - apply NoDup_app. split_and!; [apply (c_nodup _ _ C)| |apply NoDup_singleton]. intros x Hx ->%list_elem_of_singleton. done.
  - intros id. rewrite elem_of_snoc, (c_waiting _ _ C). split.
    + intros [(t' & Ht' & Hw)| ->]; [|exists t; by rewrite lookup_insert_eq]. exists t'. rewrite lookup_insert_ne; [done|]. intros E. congruence.
    + intros (t' & [[<- <-]|[_ Ht']]%lookup_insert_Some & Hw); [by right|]. left. by exists t'.
  - intros sk id. rewrite lookup_insert_Some, (c_subject _ _ C). split.
    + intros [[<- <-]|(Hne & t' & Ht' & Hw & Hk)]; [exists t; by rewrite lookup_insert_eq|].
      exists t'. rewrite lookup_insert_ne; [done|]. intros E. congruence.
    + intros (t' & [[<- <-]|[Hne Ht']]%lookup_insert_Some & Hw & <-); [by left|]. right. split; [|by exists t'].
      intros Hk. assert (SubjectTickets s !! SubjectKey (tSubject t) = Some id); [|congruence]. apply (c_subject _ _ C). by exists t'.
  - intros id t' [[<- <-]|[_ Ht']]%lookup_insert_Some Hm; [by rewrite Hst in Hm|by apply (w_matched _ _ I)].
  - apply (w_match _ _ I).
  - intros mid m i id sub Hm Hp Hi Hs. destruct (w_consumed _ _ I mid m i id sub Hm Hp Hi Hs) as (t' & Ht' & ?). exists t'.
    cbn [addTicket Tickets]. rewrite lookup_insert_ne; [done|]. intros E. congruence.
  - intros r id Hr. assert (Hr' : Requests s !! r = Some id ∨ tRequestID t = r ∧ tID t = id).
    { case_bool_decide; [by left|]. apply lookup_insert_Some in Hr as [?|[_ ?]]; [by right|by left]. }
    destruct Hr' as [Hr'|[<- <-]]; [|exists t; by rewrite lookup_insert_eq].
    destruct (w_requests _ _ I r id Hr') as (t' & Ht' & ?). exists t'. rewrite lookup_insert_ne; [done|]. intros E. congruence.
Qed.

(** ** Matching *)

Definition matchTicket (now : Z) (matchID : bytes) (t : Ticket) : Ticket := resolved t TicketMatched matchID (Unix now).

Lemma matchTicket_resolves now mid : resolves (matchTicket now mid).
Proof. intros t. by split_and!. Qed.

Lemma consume_all now mid s ids : foldl (consume now mid) s ids = leaveAll (matchTicket now mid) s ids.
Proof. done. Qed.

(** The tickets [ids] of this partition become members of the new match [m]. *)
Lemma match_wf q s now m ids :
  wf q s → NoDup ids → (∀ id, id ∈ ids → id ∈ Waiting s) → Matches s !! mID m = None → match_ok q m →
  (∀ id, id ∈ ids → id ∈ mTicketIDs m) →
  (∀ i id sub, partAt m i = Some (qPartition q) → mTicketIDs m !! i = Some id → mMembers m !! i = Some sub →
     id ∈ ids ∧ ∃ t, Tickets s !! id = Some t ∧ tSubject t = sub) →
  wf q (addMatch m (leaveAll (matchTicket now (mID m)) s ids)).
Proof.
  intros I Hn Hin Hnew Hok Hids Hmem. pose proof (w_core _ _ I) as C.
  destruct (leaveAll_spec _ (matchTicket_resolves now (mID m)) q ids s C Hn Hin) as (C' & Ht & Hw & Hms & Hr).
  assert (Hkeep : ∀ id t, Tickets s !! id = Some t → tState t = TicketMatched → Tickets (leaveAll (matchTicket now (mID m)) s ids) !! id = Some t).
  { intros id t Hid Hst. rewrite Ht, bool_decide_eq_false_2; [done|].
    intros Hi. apply Hin, (c_waiting _ _ C) in Hi as (t' & Ht' & Hst'). congruence. }
  split; cbn [addMatch set_Matches Tickets Matches Requests]; rewrite ?Hms.
  - destruct C'. by split.
  - intros id t Hid Hst. rewrite Ht in Hid. case_bool_decide as Hi.
    + apply fmap_Some in Hid as (t0 & _ & ->). exists m. cbn. rewrite lookup_insert_eq. split; [done|by apply Hids].
    + destruct (w_matched _ _ I id t Hid Hst) as (m' & Hm' & ?). exists m'. rewrite lookup_insert_ne; [done|]. intros E. congruence.
  - intros mid m' [[<- <-]|[_ Hm']]%lookup_insert_Some; [done|by apply (w_match _ _ I)].
  - intros mid m' i id sub [[<- <-]|[_ Hm']]%lookup_insert_Some Hp Hi Hs.
    + destruct (Hmem i id sub Hp Hi Hs) as (Hid & t & Htid & Hsub). exists (matchTicket now (mID m) t). cbn [addMatch set_Matches Tickets].
      rewrite Ht, bool_decide_eq_true_2 by done. rewrite Htid. by split_and!.
    + destruct (w_consumed _ _ I mid m' i id sub Hm' Hp Hi Hs) as (t & Hid & Hst & ?). exists t. split; [|tauto].
      cbn [addMatch set_Matches Tickets]. by apply Hkeep.
  - intros r id Hr'. cbn [addMatch set_Matches Requests] in Hr'. rewrite Hr in Hr'. destruct (w_requests _ _ I r id Hr') as (t & Hid & Hrq). rewrite Ht, Hid.
    case_bool_decide; [|by exists t]. by exists (matchTicket now (mID m) t).
Qed.
