(* ===== verification/MmRun.v ===== *)
(** * Runs of the matchmaking service

    Any sequence of operations on any queues, at any times of a clock that may
    jump either way; every operation draws a new id.  [committed] records the
    matches in the order in which they were formed.  Each operation replaces
    the states of the partitions it names by states reached from the old ones
    by expiry, retention and its own change ([moves]), and so keeps [ginv]. *)

From S2P Require Import Prelude Bytes GoStr VsRedis VsMemory MmTypes MmStore MmInv.

(** ** Worlds *)

Inductive MmOp : Type :=
| MmEnqueue (q : Queue) (sub : Subject) (requestID : bytes)
| MmCancel (q : Queue) (ticketID : bytes) (sub : Subject)
| MmCommit (q : Queue) (ticketIDs : list bytes)
| MmCommitAcross (refs : list TicketRef)
| MmSweep (q : Queue) (limit : Z).

Inductive Answer : Type := ATicket (t : Ticket) | AMatch (m : Match) | ACount (n : Z).

Definition answer {R : Type} (f : R → Answer) (x : store * result MatchErr R) : store * result MatchErr Answer :=
  (fst x, match snd x with Ok r => Ok (f r) | Err e => Err e end).

Definition exec (cfg : Config) (now : Z) (id : bytes) (op : MmOp) (items : store) : store * result MatchErr Answer :=
  match op with
  | MmEnqueue q sub requestID => answer ATicket (Enqueue cfg now id q sub requestID items)
  | MmCancel q ticketID sub => answer ATicket (Cancel cfg now q ticketID sub items)
  | MmCommit q ticketIDs => answer AMatch (Commit cfg now id q ticketIDs items)
  | MmCommitAcross refs => answer AMatch (CommitAcross cfg now id refs items)
  | MmSweep q limit => answer ACount (Sweep cfg now q limit items)
  end.

(** The queues an operation names hold machine integers. *)
Definition op_ok (op : MmOp) : Prop :=
  match op with
  | MmEnqueue q _ _ | MmCancel q _ _ | MmCommit q _ | MmSweep q _ => is_i64 (qFillAfterSeconds q)
  | MmCommitAcross refs => Forall (λ r, is_i64 (qFillAfterSeconds (rQueue r))) refs
  end.

Record MmWorld := mkMm { items : store; minted : gset bytes; committed : list Match }.

(** The match that [id] was drawn for, if the operation formed one. *)
Definition formed (id : bytes) (r : result MatchErr Answer) : list Match :=
  match r with Ok (AMatch m) => if bool_decide (mID m = id) then [m] else [] | _ => [] end.

Inductive mm_step (cfg : Config) (now : Z) (op : MmOp) : MmWorld → result MatchErr Answer → MmWorld → Prop :=
| mm_do id W : op_ok op → id ∉ minted W → id ≠ [] →
    mm_step cfg now op W (snd (exec cfg now id op (items W)))
      (mkMm (fst (exec cfg now id op (items W))) ({[ id ]} ∪ minted W) (committed W ++ formed id (snd (exec cfg now id op (items W))))).

Inductive mm_reachable (cfg : Config) : MmWorld → Prop :=
| mm_start : mm_reachable cfg (mkMm ∅ ∅ [])
| mm_next now op W r W' : mm_reachable cfg W → mm_step cfg now op W r W' → mm_reachable cfg W'.

(** ** The invariant *)

Definition oldState (its : store) (k : bytes) : queueState := memValue emptyState (its !! k).

Record ginv (W : MmWorld) : Prop := {
  gi_wf : ∀ k v, items W !! k = Some v → ∃ q, queue_ok q ∧ QueueKey q = k ∧ wf q (vValue v);
  gi_ticket : ∀ k v id t, items W !! k = Some v → Tickets (vValue v) !! id = Some t → id ∈ minted W;
  gi_match : ∀ k v mid m, items W !! k = Some v → Matches (vValue v) !! mid = Some m → mid ∈ minted W;
  gi_home : ∀ k k' v v' id t t', items W !! k = Some v → items W !! k' = Some v' →
              Tickets (vValue v) !! id = Some t → Tickets (vValue v') !! id = Some t' → k = k';
  gi_known : ∀ m id, m ∈ committed W → id ∈ mTicketIDs m → id ∈ minted W;
  gi_done : ∀ m id k v t, m ∈ committed W → id ∈ mTicketIDs m → items W !! k = Some v →
              Tickets (vValue v) !! id = Some t → tState t ≠ TicketWaiting;
  gi_once : NoDup (concat (mTicketIDs <$> committed W));
  gi_stored : ∀ k v mid m, items W !! k = Some v → Matches (vValue v) !! mid = Some m → m ∈ committed W;
  gi_named : [] ∉ minted W
}.

(** What one operation does to the store: [home] is the key where the id
    drawn may become a ticket, [news] are the tickets that it consumes, [ms]
    the matches that it forms. *)
Record change (cfg : Config) (now : Z) (id home : bytes) (news : list bytes) (ms : list Match) (its its' : store) : Prop := {
  ch_wf : ∀ k v, its' !! k = Some v → ∃ q, queue_ok q ∧ QueueKey q = k ∧ wf q (vValue v);
  ch_ticket : ∀ k v i t, its' !! k = Some v → Tickets (vValue v) !! i = Some t →
                (∃ v0 t0, its !! k = Some v0 ∧ Tickets (vValue v0) !! i = Some t0 ∧ (tState t = TicketWaiting → tState t0 = TicketWaiting ∧ i ∉ news)) ∨
                (i = id ∧ k = home);
  ch_match : ∀ k v mid m, its' !! k = Some v → Matches (vValue v) !! mid = Some m →
                (∃ v0, its !! k = Some v0 ∧ Matches (vValue v0) !! mid = Some m) ∨ (mid = id ∧ m ∈ ms);
  ch_keep : ∀ k mid m, Matches (oldState its k) !! mid = Some m → cutoff cfg now < mCreatedAtUnix m → Matches (oldState its' k) !! mid = Some m;
  ch_news : NoDup news ∧ ∀ i, i ∈ news → ∃ k v t, its !! k = Some v ∧ Tickets (vValue v) !! i = Some t ∧ tState t = TicketWaiting
}.

Lemma change_none cfg now id home ms its : (∀ k v, its !! k = Some v → ∃ q, queue_ok q ∧ QueueKey q = k ∧ wf q (vValue v)) → change cfg now id home [] ms its its.
Proof.
  intros Hw. split; [done| | |done|].
  - intros k v i t Hk Ht. left. exists v, t. split_and!; [done..|]. intros ?. split; [done|apply not_elem_of_nil].
  - intros k v mid m Hk Hm. left. by exists v.
  - split; [constructor|]. by intros i ?%elem_of_nil.
Qed.

Lemma ginv_change cfg now (W : MmWorld) id home news its' ms :
  ginv W → id ∉ minted W → id ≠ [] → change cfg now id home news ms (items W) its' → (ms = [] ∨ ∃ m, ms = [m] ∧ mTicketIDs m = news) →
  ginv (mkMm its' ({[ id ]} ∪ minted W) (committed W ++ ms)).
Proof.
  intros I Hid Hne Ch Hms.
  assert (Hms' : ∀ m i, m ∈ ms → i ∈ mTicketIDs m → i ∈ news).
  { intros m i Hm Hi. destruct Hms as [->|(m' & -> & <-)]; [by apply elem_of_nil in Hm|]. by apply list_elem_of_singleton in Hm as ->. }
  assert (Hnews : ∀ i, i ∈ news → i ∈ minted W ∧ ∀ m, m ∈ committed W → i ∉ mTicketIDs m).
  { intros i Hi. destruct (ch_news _ _ _ _ _ _ _ _ Ch) as [_ Hn]. destruct (Hn i Hi) as (k & v & t & Hk & Ht & Hst). split; [by eapply (gi_ticket W I)|].
    intros m Hm Hin. by eapply (gi_done W I m i k v t). }
  split; cbn [items minted committed].
  - apply (ch_wf _ _ _ _ _ _ _ _ Ch).
  - intros k v i t Hk Ht. destruct (ch_ticket _ _ _ _ _ _ _ _ Ch k v i t Hk Ht) as [(v0 & t0 & Hk0 & Ht0 & _)|[-> _]]; [|set_solver].
    pose proof (gi_ticket W I k v0 i t0 Hk0 Ht0). set_solver.
  - intros k v mid m Hk Hm. destruct (ch_match _ _ _ _ _ _ _ _ Ch k v mid m Hk Hm) as [(v0 & Hk0 & Hm0)|[-> _]]; [|set_solver].
    pose proof (gi_match W I k v0 mid m Hk0 Hm0). set_solver.
  - intros k k' v v' i t t' Hk Hk' Ht Ht'.
    destruct (ch_ticket _ _ _ _ _ _ _ _ Ch k v i t Hk Ht) as [(v0 & t0 & Hk0 & Ht0 & _)|[-> ->]],
      (ch_ticket _ _ _ _ _ _ _ _ Ch k' v' _ t' Hk' Ht') as [(v1 & t1 & Hk1 & Ht1 & _)|[Hi Hh]].
    + by eapply (gi_home W I k k' v0 v1 i t0 t1).
    + subst. exfalso. apply Hid. by eapply (gi_ticket W I).
    + exfalso. apply Hid. by eapply (gi_ticket W I).
    + done.
  - intros m i [Hm|Hm]%elem_of_app Hi.
    + pose proof (gi_known W I m i Hm Hi). set_solver.
    + destruct (Hnews i (Hms' m i Hm Hi)). set_solver.
  - intros m i k v t Hm Hi Hk Ht Hst.
    destruct (ch_ticket _ _ _ _ _ _ _ _ Ch k v i t Hk Ht) as [(v0 & t0 & Hk0 & Ht0 & Hw)|[-> _]].
    + destruct (Hw Hst) as [Hw0 Hnn]. apply elem_of_app in Hm as [Hm|Hm]; [by eapply (gi_done W I)|]. apply Hnn. by eapply Hms'.
    + apply elem_of_app in Hm as [Hm|Hm]; [apply Hid; by eapply (gi_known W I)|]. apply Hid. by apply (Hnews id (Hms' m id Hm Hi)).
  - rewrite fmap_app, concat_app. apply NoDup_app. split_and!; [apply (gi_once W I)| |].
    + intros i Hi Hi'. apply list_elem_of_In, in_concat in Hi as (l & Hl%list_elem_of_In & Hil%list_elem_of_In).
      apply list_elem_of_fmap in Hl as (m & -> & Hm).
      apply list_elem_of_In, in_concat in Hi' as (l' & Hl'%list_elem_of_In & Hil'%list_elem_of_In). apply list_elem_of_fmap in Hl' as (m' & -> & Hm').
      destruct (Hnews i (Hms' m' i Hm' Hil')) as [_ Hno]. by apply (Hno m).
    + destruct Hms as [->|(m & -> & <-)]; [constructor|]. cbn. rewrite app_nil_r. apply (ch_news _ _ _ _ _ _ _ _ Ch).
  - intros k v mid m Hk Hm. apply elem_of_app. destruct (ch_match _ _ _ _ _ _ _ _ Ch k v mid m Hk Hm) as [(v0 & Hk0 & Hm0)|[_ ?]]; [left|by right].
    by eapply (gi_stored W I).
  - pose proof (gi_named W I). set_solver.
Qed.

(** ** Updates *)

Lemma Update_eq {R : Type} items q (mutate : queueState → bool → result MatchErr (queueState * bool * R)) :
  Update items q mutate =
    match mutate (oldState items (QueueKey q)) (memFound (items !! QueueKey q)) with
    | Err e => (items, Err e)
    | Ok (s', save, r) => (if save then <[QueueKey q := mkVersioned s' (u64 (memVersion (items !! QueueKey q) + 1))]> items else items, Ok r)
    end.
Proof. unfold Update, memUpdate, oldState. destruct (mutate _ _) as [[[s' [|]] r]|e]; done. Qed.

Lemma foldl_memPut_other (l : list (bytes * Versioned queueState)) : ∀ its k, k ∉ l.*1 → foldl memPut its l !! k = its !! k.
Proof.
  induction l as [|x l IH]; intros its k Hk; [done|]. cbn in *. apply not_elem_of_cons in Hk as [Hx Hk]. rewrite IH by done.
  unfold memPut. by rewrite lookup_insert_ne.
Qed.

Lemma foldl_memPut_at (l : list (bytes * Versioned queueState)) : ∀ its k v, NoDup l.*1 → (k, v) ∈ l → foldl memPut its l !! k = Some v.
Proof.
  induction l as [|x l IH]; intros its k v Hn Hk; [by apply elem_of_nil in Hk|]. cbn in *. apply NoDup_cons in Hn as [Hx Hn].
  apply elem_of_cons in Hk as [<-|Hk]; [|by apply IH]. rewrite foldl_memPut_other by done. unfold memPut. apply lookup_insert_eq.
Qed.

(** What a mutation of several partitions is given. *)
Definition oldsOf (items : store) (qs : list Queue) : list queueState := map (λ q, oldState items (QueueKey q)) qs.
Definition foundsOf (items : store) (qs : list Queue) : list bool := map (λ q, memFound (items !! QueueKey q)) qs.

(** [UpdateAll] writes all of its keys or none. *)
Lemma UpdateAll_cases {R : Type} items qs (mutate : list queueState → list bool → result MatchErr (list queueState * bool * R)) its' r :
  NoDup (map QueueKey qs) → qs ≠ [] →
  (∀ s' x, mutate (oldsOf items qs) (foundsOf items qs) = Ok (s', true, x) → length s' = length qs) →
  UpdateAll items qs mutate = (its', r) →
  (its' = items ∧ ∀ x, r = Ok x → ∃ s', mutate (oldsOf items qs) (foundsOf items qs) = Ok (s', false, x)) ∨
  ∃ s' x, r = Ok x ∧ mutate (oldsOf items qs) (foundsOf items qs) = Ok (s', true, x) ∧
    (∀ k, k ∉ map QueueKey qs → its' !! k = items !! k) ∧
    (∀ j q s, qs !! j = Some q → s' !! j = Some s → vValue <$> its' !! QueueKey q = Some s).
Proof.
  intros Hn Hne Hlen. unfold UpdateAll, memUpdateAll, checkUpdateAll. rewrite (bool_decide_eq_true_2 _ Hn), andb_true_r.
  destruct (Z.eqb_spec (zlen (map QueueKey qs)) 0) as [Hz|_].
  { exfalso. destruct qs; [done|]. unfold zlen in Hz. cbn in Hz. lia. }
  cbn [negb]. rewrite !map_map.
  change (map (λ x, memValue emptyState (items !! QueueKey x)) qs) with (oldsOf items qs).
  change (map (λ x, memFound (items !! QueueKey x)) qs) with (foundsOf items qs).
  destruct (mutate (oldsOf items qs) (foundsOf items qs)) as [[[s' save] x]|e] eqn:Hm; [|intros [= <- <-]; left; by split].
  destruct save; cbn [negb fst]; [|intros [= <- <-]; left; split; [done|]; intros ? [= <-]; by exists s'].
  specialize (Hlen s' x eq_refl). unfold zlen at 1 2. rewrite Hlen, length_map, Z.eqb_refl. cbn [negb fst]. intros [= <- <-].
  right. exists s', x. split_and!; [done..| |].
  - intros k Hk. apply foldl_memPut_other. rewrite fst_zip; [done|]. rewrite length_zip_with, !length_map. lia.
  - intros j q s Hq Hs. rewrite (foldl_memPut_at _ items (QueueKey q) (mkVersioned s (u64 (memVersion (items !! QueueKey q) + 1)))); [done| |].
    + rewrite fst_zip; [done|]. rewrite length_zip_with, !length_map. lia.
    + apply list_elem_of_lookup. exists j. rewrite lookup_zip_with. change (map ?f) with (fmap (M:=list) f).
      rewrite list_lookup_fmap, Hq. cbn. rewrite lookup_zip_with, Hs. cbn. rewrite list_lookup_fmap, Hq. done.
Qed.

(** ** Moves *)

Section Moves.
Context (cfg : Config) (now : Z).

(** [s'] follows [s] in partition [q]: [news] leave the queue, [id] may be a
    new ticket, or the new match [ms]; no match within the retention is lost. *)
Record moves (q : Queue) (home : Prop) (id : bytes) (news : list bytes) (ms : list Match) (s s' : queueState) : Prop := {
  mv_wf : wf q s';
  mv_ticket : ∀ i t, Tickets s' !! i = Some t →
                (∃ t0, Tickets s !! i = Some t0 ∧ (tState t = TicketWaiting → tState t0 = TicketWaiting ∧ i ∉ news)) ∨ (i = id ∧ home);
  mv_match : ∀ mid m, Matches s' !! mid = Some m → Matches s !! mid = Some m ∨ (mid = id ∧ m ∈ ms);
  mv_keep : ∀ mid m, Matches s !! mid = Some m → cutoff cfg now < mCreatedAtUnix m → Matches s' !! mid = Some m
}.

Lemma moves_refreshed q s home id ms : wf q s → moves q home id [] ms s (expireLocked cfg s now).
Proof.
  intros I. pose proof (expireLocked_refreshed q cfg s now I) as F. split.
  - apply (rf_wf _ _ _ _ _ F).
  - intros i t Ht. left. destruct (rf_ticket _ _ _ _ _ F i t Ht) as (t0 & Ht0 & [->|(_ & _ & ->)]); exists t0; (split; [done|]); [|done].
    intros ?. split; [done|apply not_elem_of_nil].
  - intros mid m Hm%(rf_match _ _ _ _ _ F). left. tauto.
  - intros mid m Hm Hc. by apply (rf_match _ _ _ _ _ F).
Qed.

Lemma moves_trans q home id news ms s1 s2 s3 : moves q False id [] [] s1 s2 → moves q home id news ms s2 s3 → moves q home id news ms s1 s3.
Proof.
  intros A B. split.
  - apply (mv_wf _ _ _ _ _ _ _ B).
  - intros i t Ht. destruct (mv_ticket _ _ _ _ _ _ _ B i t Ht) as [(t1 & Ht1 & Hw)|?]; [|by right].
    destruct (mv_ticket _ _ _ _ _ _ _ A i t1 Ht1) as [(t0 & Ht0 & Hw')|[_ []]]. left. exists t0. split; [done|]. intros Hst.
    destruct (Hw Hst) as [Hst1 ?]. by destruct (Hw' Hst1).
  - intros mid m Hm. destruct (mv_match _ _ _ _ _ _ _ B mid m Hm) as [Hm1|]; [|by right]. left. by destruct (mv_match _ _ _ _ _ _ _ A mid m Hm1) as [?|[_ ?%elem_of_nil]].
  - intros mid m Hm Hc. apply (mv_keep _ _ _ _ _ _ _ B); [|done]. by apply (mv_keep _ _ _ _ _ _ _ A).
Qed.

Lemma moves_leave q upd home id ms s ids :
  resolves upd → (∀ t, tState (upd t) ≠ TicketMatched) → wf q s → NoDup ids → (∀ i, i ∈ ids → i ∈ Waiting s) → moves q home id [] ms s (leaveAll upd s ids).
Proof.
  intros Hu Hm I Hn Hin. destruct (leaveAll_spec upd Hu q ids s (w_core _ _ I) Hn Hin) as (_ & Ht & _ & Hms & _). split.
  - by apply leaveAll_wf.
  - intros i t Hi. left. rewrite Ht in Hi. case_bool_decide; [|exists t; split; [done|]; intros ?; split; [done|apply not_elem_of_nil]].
    apply fmap_Some in Hi as (t0 & Ht0 & ->). exists t0. split; [done|]. by intros ?%Hu.
  - intros mid m. rewrite Hms. by left.
  - intros mid m. by rewrite Hms.
Qed.

Lemma moves_pruned q home id ms s : wf q s → moves q home id [] ms s (prunedState (cutoff cfg now) s).
Proof.
  intros I. split.
  - by apply pruned_wf.
  - intros i t [Ht _]%pruned_ticket. left. exists t. split; [done|]. intros ?. split; [done|apply not_elem_of_nil].
  - intros mid m [Hm _]%pruned_match. by left.
  - intros mid m Hm Hc. by apply pruned_match.
Qed.

Lemma moves_add q id ms s t :
  wf q s → tID t = id → tQueue t = q → tState t = TicketWaiting → Tickets s !! id = None →
  SubjectTickets s !! SubjectKey (tSubject t) = None → moves q True id [] ms s (addTicket s t).
Proof.
  intros I <- Hq Hst Hnew Hsub. split.
  - by apply add_wf.
  - cbn. intros i t' [[<- <-]|[_ Ht]]%lookup_insert_Some; [by right|]. left. exists t'. split; [done|]. intros ?. split; [done|apply not_elem_of_nil].
  - cbn. intros mid m. by left.
  - done.
Qed.

Lemma moves_match q home s m ids news :
  wf q s → NoDup ids → (∀ i, i ∈ ids → i ∈ Waiting s) → Matches s !! mID m = None → match_ok q m →
  (∀ i, i ∈ ids → i ∈ mTicketIDs m) →
  (∀ i id sub, partAt m i = Some (qPartition q) → mTicketIDs m !! i = Some id → mMembers m !! i = Some sub →
     id ∈ ids ∧ ∃ t, Tickets s !! id = Some t ∧ tSubject t = sub) →
  (∀ i t, Tickets s !! i = Some t → i ∈ news → i ∈ ids) →
  moves q home (mID m) news [m] s (addMatch m (leaveAll (matchTicket now (mID m)) s ids)).
Proof.
  intros I Hn Hin Hnew Hok Hids Hmem Hnews.
  destruct (leaveAll_spec _ (matchTicket_resolves now (mID m)) q ids s (w_core _ _ I) Hn Hin) as (_ & Ht & _ & Hms & _). split.
  - by apply match_wf.
  - cbn. intros i t Hi. left. rewrite Ht in Hi. case_bool_decide as Hd.
    + apply fmap_Some in Hi as (t0 & Ht0 & ->). by exists t0.
    + exists t. split; [done|]. intros ?. split; [done|]. intros ?. eauto.
  - cbn. rewrite Hms. intros mid m' [[<- <-]|[_ ?]]%lookup_insert_Some; [right; split; [done|by left]|by left].
  - cbn. rewrite Hms. intros mid m' Hm _. rewrite lookup_insert_ne; [done|]. intros E. congruence.
Qed.

(** ** From moves to a change of the store *)

Lemma ginv_old W q : ginv W → queue_ok q → wf q (oldState (items W) (QueueKey q)).
Proof.
  intros I Hq. unfold oldState. destruct (items W !! QueueKey q) as [v|] eqn:Hv; [|apply wf_empty].
  destruct (gi_wf W I _ v Hv) as (q' & Hq' & Hk & Hw). by rewrite (QueueKey_inj q' q) in Hw by done.
Qed.

Lemma old_ticket W k i t : Tickets (oldState (items W) k) !! i = Some t → ∃ v, items W !! k = Some v ∧ Tickets (vValue v) !! i = Some t.
Proof. unfold oldState. destruct (items W !! k) as [v|]; [by exists v|done]. Qed.

Lemma moves_change W (qs : list Queue) its' id (home : Queue → Prop) hk news ms :
  ginv W → Forall queue_ok qs → (∀ q, home q → QueueKey q = hk) →
  (∀ k, k ∉ map QueueKey qs → its' !! k = items W !! k) →
  (∀ q, q ∈ qs → ∃ v, its' !! QueueKey q = Some v ∧ moves q (home q) id news ms (oldState (items W) (QueueKey q)) (vValue v)) →
  NoDup news → (∀ i, i ∈ news → ∃ q t, q ∈ qs ∧ Tickets (oldState (items W) (QueueKey q)) !! i = Some t ∧ tState t = TicketWaiting) →
  change cfg now id hk news ms (items W) its'.
Proof.
  intros I Hqs Hhome Hout Hin Hn Hnews. rewrite Forall_forall in Hqs.
  assert (Hk : ∀ k v, its' !! k = Some v → (∃ q, q ∈ qs ∧ k = QueueKey q ∧ moves q (home q) id news ms (oldState (items W) k) (vValue v)) ∨
            ((k ∉ map QueueKey qs) ∧ items W !! k = Some v)).
  { intros k v Hv. destruct (decide (k ∈ map QueueKey qs)) as [Hi|Hi]; [|right; by rewrite <- Hout].
    apply list_elem_of_fmap in Hi as (q & -> & Hq). left. exists q. destruct (Hin q Hq) as (v' & Hv' & M). by assert (v = v') as -> by congruence. }
  split.
  - intros k v Hv. destruct (Hk k v Hv) as [(q & Hq & -> & M)|[_ Hv0]]; [|by apply (gi_wf W I)]. exists q. split_and!; [by apply Hqs|done|apply M].
  - intros k v i t Hv Ht. destruct (Hk k v Hv) as [(q & Hq & -> & M)|[Hk0 Hv0]].
    + destruct (mv_ticket _ _ _ _ _ _ _ M i t Ht) as [(t0 & Ht0 & Hw)|[-> Hh]]; [|right; split; [done|]; by apply Hhome].
      apply old_ticket in Ht0 as (v0 & Hv0 & Ht0). left. by exists v0, t0.
    + left. exists v, t. split_and!; [done..|]. intros Hst. split; [done|]. intros Hi. destruct (Hnews i Hi) as (q & t0 & Hq & Ht0 & _).
      apply old_ticket in Ht0 as (v0 & Hv1 & Ht0). apply Hk0. rewrite (gi_home W I k _ v v0 i t t0 Hv0 Hv1 Ht Ht0). apply list_elem_of_fmap. by exists q.
  - intros k v mid m Hv Hm. destruct (Hk k v Hv) as [(q & Hq & -> & M)|[_ Hv0]]; [|left; by exists v].
    destruct (mv_match _ _ _ _ _ _ _ M mid m Hm) as [Hm0|]; [|by right]. left. unfold oldState in Hm0. destruct (items W !! QueueKey q) as [v0|] eqn:Hv0; [by exists v0|done].
  - intros k mid m Hm Hc. destruct (decide (k ∈ map QueueKey qs)) as [Hi|Hi].
    + apply list_elem_of_fmap in Hi as (q & -> & Hq). destruct (Hin q Hq) as (v & Hv & M). unfold oldState at 1. rewrite Hv. by apply (mv_keep _ _ _ _ _ _ _ M).
    + unfold oldState in *. by rewrite Hout.
  - split; [done|]. intros i Hi. destruct (Hnews i Hi) as (q & t & _ & Ht & Hst). apply old_ticket in Ht as (v & Hv & Ht). by exists (QueueKey q), v, t.
Qed.

(** One partition. *)
Lemma moves_update {R : Type} W q (mutate : queueState → bool → result MatchErr (queueState * bool * R)) id (home : Prop) news ms :
  ginv W → queue_ok q →
  (∀ s' r, mutate (oldState (items W) (QueueKey q)) (memFound (items W !! QueueKey q)) = Ok (s', true, r) →
     moves q home id news ms (oldState (items W) (QueueKey q)) s' ∧
     NoDup news ∧ ∀ i, i ∈ news → ∃ t, Tickets (oldState (items W) (QueueKey q)) !! i = Some t ∧ tState t = TicketWaiting) →
  (∃ s' r, mutate (oldState (items W) (QueueKey q)) (memFound (items W !! QueueKey q)) = Ok (s', true, r)) →
  change cfg now id (QueueKey q) news ms (items W) (fst (Update (items W) q mutate)).
Proof.
  intros I Hq Hm (s' & r & Hmut). destruct (Hm s' r Hmut) as (M & Hn & Hnews). rewrite Update_eq, Hmut. cbn [fst].
  apply (moves_change W [q] _ id (λ q', home ∧ q' = q) _ news ms); [done|by constructor| | | |done|].
  - by intros q' [_ ->].
  - cbn. intros k Hk%not_elem_of_cons. rewrite lookup_insert_ne by naive_solver. done.
  - intros q' ->%list_elem_of_singleton. eexists. split; [apply lookup_insert_eq|]. destruct M. split; [done| |done..]. naive_solver.
  - intros i Hi. destruct (Hnews i Hi) as (t & Ht & Hst). exists q, t. split_and!; [by left|done..].
Qed.

End Moves.

(** ** One operation *)

Section Steps.
Context (cfg : Config) (now : Z).

Definition step_ok (W : MmWorld) (id : bytes) (x : store * result MatchErr Answer) : Prop :=
  ∃ home news, change cfg now id home news (formed id (snd x)) (items W) (fst x) ∧
    (formed id (snd x) = [] ∨ ∃ m, formed id (snd x) = [m] ∧ mTicketIDs m = news).

(** What a mutation that is stored did, as one of [op_ok]'s steps. *)
Definition did (W : MmWorld) (id : bytes) (q : Queue) (s' : queueState) (a : Answer) : Prop :=
  ∃ (home : Prop) news, moves cfg now q home id news (formed id (Ok a)) (oldState (items W) (QueueKey q)) s' ∧ NoDup news ∧
    (∀ i, i ∈ news → ∃ t, Tickets (oldState (items W) (QueueKey q)) !! i = Some t ∧ tState t = TicketWaiting) ∧
    (formed id (Ok a) = [] ∨ ∃ m, formed id (Ok a) = [m] ∧ mTicketIDs m = news).

Lemma step_none W id r : ginv W → formed id r = [] → step_ok W id (items W, r).
Proof. intros I Hr. exists [], []. split; [apply change_none, (gi_wf W I)|by left]. Qed.

Lemma update_step {R : Type} W id q (f : R → Answer) (mutate : queueState → bool → result MatchErr (queueState * bool * R)) :
  ginv W → queue_ok q →
  (∀ s' save r, mutate (oldState (items W) (QueueKey q)) (memFound (items W !! QueueKey q)) = Ok (s', save, r) →
     if save : bool then did W id q s' (f r) else formed id (Ok (f r)) = []) →
  step_ok W id (answer f (Update (items W) q mutate)).
Proof.
  intros I Hq Hd. destruct (mutate (oldState (items W) (QueueKey q)) (memFound (items W !! QueueKey q))) as [[[s' [|]] r]|e] eqn:Hm.
  - destruct (Hd s' true r eq_refl) as (home & news & M & Hn & Hnews & Hf). exists (QueueKey q), news.
    assert (Hr : snd (Update (items W) q mutate) = Ok r) by (by rewrite Update_eq, Hm). unfold answer. cbn [fst snd]. rewrite Hr. split; [|done].
    eapply (moves_update cfg now W q mutate id home news _ I Hq); [|by exists s', r]. intros s'' r''. rewrite Hm. intros [= <- <-]. done.
  - specialize (Hd s' false r eq_refl). unfold answer. rewrite Update_eq, Hm. by apply step_none.
  - unfold answer. rewrite Update_eq, Hm. by apply step_none.
Qed.

Lemma did_moves W id q (home : Prop) s' a : moves cfg now q home id [] [] (oldState (items W) (QueueKey q)) s' → formed id (Ok a) = [] → did W id q s' a.
Proof.
  intros M Hf. exists home, []. rewrite Hf. split_and!; [done|constructor|by intros i ?%elem_of_nil|by left].
Qed.

Lemma fresh_ticket W id q : ginv W → queue_ok q → id ∉ minted W → Tickets (expireLocked cfg (oldState (items W) (QueueKey q)) now) !! id = None.
Proof.
  intros I Hq Hid. destruct (Tickets _ !! id) as [t|] eqn:Ht; [|done]. exfalso. apply Hid.
  destruct (rf_ticket _ _ _ _ _ (expireLocked_refreshed q cfg _ now (ginv_old W q I Hq)) id t Ht) as (t0 & Ht0 & _).
  apply old_ticket in Ht0 as (v & Hv & Ht0). by eapply (gi_ticket W I).
Qed.

Lemma old_match W q mid m : ginv W → Matches (oldState (items W) (QueueKey q)) !! mid = Some m → mid ∈ minted W.
Proof. intros I. unfold oldState. destruct (items W !! QueueKey q) as [v|] eqn:Hv; [|done]. cbn. by eapply (gi_match W I). Qed.

Lemma fresh_match W id q : ginv W → queue_ok q → id ∉ minted W → Matches (expireLocked cfg (oldState (items W) (QueueKey q)) now) !! id = None.
Proof.
  intros I Hq Hid. destruct (Matches _ !! id) as [m|] eqn:Hm; [|done]. exfalso. apply Hid.
  apply (rf_match _ _ _ _ _ (expireLocked_refreshed q cfg _ now (ginv_old W q I Hq))) in Hm as [Hm _]. by eapply old_match.
Qed.

Lemma validated q ttl : is_i64 (qFillAfterSeconds q) → validateQueueFor q ttl = Ok tt → queue_ok q.
Proof. unfold validateQueueFor, queue_ok. intros Hf. by destruct (QueueValidate q) as [[]|]. Qed.

Lemma enqueue_step W id q sub requestID : ginv W → id ∉ minted W → is_i64 (qFillAfterSeconds q) →
  step_ok W id (answer ATicket (Enqueue cfg now id q sub requestID (items W))).
Proof.
  intros I Hid Hf. unfold Enqueue. destruct (validateQueueFor q (TicketTTL cfg)) as [[]|] eqn:Hv; [|by apply step_none].
  destruct (SubjectValidate sub); [|by apply step_none]. pose proof (validated q _ Hf Hv) as Hq. apply update_step; [done..|].
  intros s' save t. unfold enqueueMutate. set (s := expireLocked cfg _ now).
  destruct (requested s requestID) as [t0|]; [destruct (negb _); [done|]; intros [= <- <- <-]; done|].
  destruct (liveTicket s sub) eqn:Hl; [done|]. destruct (_ <=? _); [done|]. intros [= <- <- <-].
  pose proof (moves_refreshed cfg now q _ False id [] (ginv_old W q I Hq)) as M. apply (did_moves W id q True); [|done].
  eapply moves_trans; [exact M|]. apply moves_add; try done.
  - apply M.
  - by apply fresh_ticket.
  - apply (live_none q); [apply (mv_wf _ _ _ _ _ _ _ _ _ M)|done].
Qed.

Lemma cancel_step W id q ticketID sub : ginv W → id ∉ minted W → is_i64 (qFillAfterSeconds q) →
  step_ok W id (answer ATicket (Cancel cfg now q ticketID sub (items W))).
Proof.
  intros I Hid Hf. unfold Cancel. destruct (QueueValidate q) as [[]|] eqn:Hv; [|by apply step_none].
  case_bool_decide; [by apply step_none|]. assert (Hq : queue_ok q) by (by split). apply update_step; [done..|].
  intros s' save t. unfold cancelMutate. destruct (negb _); [done|]. set (s := expireLocked cfg _ now).
  destruct (Tickets s !! ticketID) as [t0|] eqn:Ht; [|done]. destruct (negb _); [done|]. case_bool_decide as Hm; [done|].
  destruct (terminal (tState t0)) eqn:Hterm; [by intros [= <- <- <-]|]. intros [= <- <- <-].
  pose proof (moves_refreshed cfg now q _ False id [] (ginv_old W q I Hq)) as M. apply (did_moves W id q False); [|done].
  eapply moves_trans; [exact M|]. fold s in M |- *. set (upd t := resolved t TicketCancelled (tMatchID t) (Unix now)).
  assert (E : leaveQueue s ticketID t0 (upd t0) = leaveAll upd s [ticketID]) by (unfold leaveAll, leaveOne; cbn [foldl]; by rewrite Ht).
  change (leaveQueue s ticketID t0 _) with (leaveQueue s ticketID t0 (upd t0)). rewrite E.
  assert (I' : wf q s) by apply M. apply moves_leave; try done.
  - apply NoDup_singleton.
  - intros i ->%list_elem_of_singleton. apply (c_waiting _ _ (w_core _ _ I')). exists t0. split; [done|]. by destruct (tState t0).
Qed.

Lemma sweep_step W id q limit : ginv W → id ∉ minted W → is_i64 (qFillAfterSeconds q) →
  step_ok W id (answer ACount (Sweep cfg now q limit (items W))).
Proof.
  intros I Hid Hf. unfold Sweep. destruct (QueueValidate q) as [[]|] eqn:Hv; [|by apply step_none].
  destruct (negb (validateLimit limit)); [by apply step_none|]. assert (Hq : queue_ok q) by (by split). apply update_step; [done..|].
  intros s' save n. unfold sweepMutate. destruct (negb _); [by intros [= <- <- <-]|]. pose proof (ginv_old W q I Hq) as I0.
  set (s := oldState (items W) (QueueKey q)) in *. pose proof (w_core _ _ I0) as C. unfold expireLockedLimit.
  rewrite (expireLoop_spec q (Waiting s) s now limit 0 C (c_nodup _ _ C)) by done.
  set (L := ztake _ _). assert (HL : NoDup L ∧ ∀ i, i ∈ L → i ∈ Waiting s).
  { destruct (overdue_ok q s now C) as [Hn Hin]. unfold overdue in *. subst L. unfold ztake. split; [by eapply sublist_NoDup, sublist_take|].
    intros i Hi. apply Hin. by eapply subseteq_take. }
  destruct HL as [Hn Hin].
  pose proof (moves_leave cfg now q _ False id [] s L (expireTicket_resolves now) ltac:(done) I0 Hn Hin) as M. pose proof (mv_wf _ _ _ _ _ _ _ _ _ M) as I1.
  rewrite (prune_spec q) by (apply I1 || by eapply wf_listed). intros [= <- <- <-]. case_match; [|done].
  apply (did_moves W id q False); [|done]. eapply moves_trans; [exact M|]. by apply moves_pruned.
Qed.

End Steps.

(** ** The checks *)

(** The tickets that the checks found, in the order of the views. *)
Definition viewed (v : view) (t : Ticket) : Prop := vTicket v = Some t ∧ tQueue t = vQueue v ∧ tState t = TicketWaiting.
Definition oldestOf (o : Z) (ts : list Ticket) : Z := foldl (λ o t, Z.min o (tCreatedAtUnix t)) o ts.
Abbreviation skOf := (λ t, SubjectKey (tSubject t)).

Lemma checkViews_ok views : ∀ subjects members o members' o',
  checkViews views subjects members o = Ok (members', o') ↔
  ∃ ts, Forall2 viewed views ts ∧ NoDup (skOf <$> ts) ∧ (∀ k, k ∈ (skOf <$> ts) → k ∉ subjects) ∧
        members' = members ++ (tSubject <$> ts) ∧ o' = oldestOf o ts.
Proof.
  induction views as [|v views IH]; intros subjects members o members' o'; cbn [checkViews].
  - split.
    + intros [= -> ->]. exists []. split_and!; [constructor..| |by rewrite app_nil_r|done]. by intros k ?%elem_of_nil.
    + intros (ts & ->%Forall2_nil_inv_l & _ & _ & -> & ->). by rewrite app_nil_r.
  - split.
    + destruct (vTicket v) as [t|] eqn:Ht; [|done]. case_bool_decide as Hq; cbn [negb]; [|done]. case_bool_decide as Hst; cbn [negb]; [|done].
      case_bool_decide as Hs; [done|]. intros (ts & Hf & Hn & Hk & -> & ->)%IH. exists (t :: ts). split_and!.
      * constructor; [by split_and!|done].
      * cbn. apply NoDup_cons. split; [|done]. intros Hi. apply (Hk _ Hi). by left.
      * cbn. intros k [->|Hi]%elem_of_cons; [done|]. intros ?. apply (Hk _ Hi). by right.
      * cbn. by rewrite <- app_assoc.
      * done.
    + intros (ts & Hf & Hn & Hk & -> & ->). apply Forall2_cons_inv_l in Hf as (t & ts' & (Ht & Hq & Hst) & Hf & ->).
      cbn in Hn, Hk. apply NoDup_cons in Hn as [Hnt Hn]. rewrite Ht, (bool_decide_eq_true_2 _ Hq), (bool_decide_eq_true_2 _ Hst). cbn [negb].
      rewrite bool_decide_eq_false_2 by (apply Hk; left). apply IH. exists ts'. split_and!; try done.
      * intros k Hi [->|?]%elem_of_cons; [done|]. apply (Hk k); [by right|done].
      * cbn. by rewrite <- app_assoc.
Qed.

Lemma checkTicketSet_ok ids q : checkTicketSet ids q = Ok tt ↔ MinGroupSize q ≤ zlen ids ≤ qGroupSize q ∧ ([] ∉ ids) ∧ NoDup ids.
Proof.
  unfold checkTicketSet. destruct (Z.ltb_spec (zlen ids) (MinGroupSize q)), (Z.ltb_spec (qGroupSize q) (zlen ids)); cbn [orb]; try (split; [done|lia]).
  do 2 case_bool_decide; cbn [orb negb]; naive_solver.
Qed.

(** ** Several partitions *)

Lemma partitionsOf_fold refs : ∀ acc, NoDup acc →
  NoDup (foldl (λ acc r, if bool_decide (rQueue r ∈ acc) then acc else acc ++ [rQueue r]) acc refs) ∧
  ∀ q, q ∈ foldl (λ acc r, if bool_decide (rQueue r ∈ acc) then acc else acc ++ [rQueue r]) acc refs ↔ q ∈ acc ∨ q ∈ (rQueue <$> refs).
Proof.
  induction refs as [|r refs IH]; intros acc Hn; [split; [done|]; cbn; intros q; rewrite elem_of_nil; tauto|].
  cbn [foldl]. case_bool_decide as Hi.
  - destruct (IH acc Hn) as [Hn' Hq]. split; [done|]. intros q. rewrite Hq. cbn. rewrite elem_of_cons. naive_solver.
  - destruct (IH (acc ++ [rQueue r])) as [Hn' Hq].
    + apply NoDup_app. split_and!; [done| |apply NoDup_singleton]. by intros x Hx ->%list_elem_of_singleton.
    + split; [done|]. intros q. rewrite Hq, elem_of_app, list_elem_of_singleton. cbn. rewrite elem_of_cons. tauto.
Qed.

Lemma partitionsOf_spec refs : NoDup (partitionsOf refs) ∧ ∀ q, q ∈ partitionsOf refs ↔ q ∈ (rQueue <$> refs).
Proof.
  destruct (partitionsOf_fold refs [] (NoDup_nil_2)) as [Hn Hq]. split; [done|]. intros q. unfold partitionsOf. rewrite Hq, elem_of_nil. tauto.
Qed.

Lemma indexOf_lookup q l : q ∈ l → l !! indexOf q l = Some q.
Proof.
  induction l as [|x l IH]; [by intros ?%elem_of_nil|]. intros Hq. cbn. case_bool_decide as E; [by subst|].
  apply elem_of_cons in Hq as [->|Hq]; [done|]. cbn. by apply IH.
Qed.

Lemma indexOf_at q l j : NoDup l → l !! j = Some q → indexOf q l = j.
Proof.
  intros Hn Hj. eapply NoDup_lookup; [done| |done]. apply indexOf_lookup. by eapply list_elem_of_lookup_2.
Qed.

(** The tickets of the partition [q]. *)
Definition idsIn (q : Queue) (refs : list TicketRef) : list bytes := rTicketID <$> filter (λ r, rQueue r = q) refs.

Lemma consumeAcross_all now mid parts refs j q : NoDup parts → parts !! j = Some q → (∀ r, r ∈ refs → rQueue r ∈ parts) → ∀ states,
  foldl (consumeAcross now mid parts) states refs !! j = (λ s, leaveAll (matchTicket now mid) s (idsIn q refs)) <$> states !! j.
Proof.
  intros Hn Hj. induction refs as [|r refs IH]; intros Hin states; [cbn [foldl]; destruct (states !! j); reflexivity|].
  cbn [foldl]. rewrite IH by (intros; apply Hin; by right). unfold consumeAcross, idsIn.
  assert (Hr : parts !! indexOf (rQueue r) parts = Some (rQueue r)) by (apply indexOf_lookup, Hin; by left).
  destruct (decide (rQueue r = q)) as [E|E].
  - rewrite filter_cons_True by done. assert (Ej : indexOf (rQueue r) parts = j) by (apply indexOf_at; congruence).
    rewrite Ej, list_lookup_alter_eq. by destruct (states !! j).
  - rewrite filter_cons_False by done. rewrite list_lookup_alter_ne; [done|]. congruence.
Qed.

Lemma consumeAcross_length now mid parts refs : ∀ states, length (foldl (consumeAcross now mid parts) states refs) = length states.
Proof. induction refs as [|r refs IH]; intros states; [done|]. cbn. rewrite IH. apply length_alter. Qed.

Lemma checkRefs_ok logical refs : checkRefs logical refs = Ok tt ↔
  ∀ r, r ∈ refs → QueueValidate (rQueue r) = Ok tt ∧ SameLogicalQueue (rQueue r) logical = true.
Proof.
  induction refs as [|r refs IH]; [split; [by intros _ ? ?%elem_of_nil|done]|]. cbn [checkRefs]. split.
  - destruct (QueueValidate (rQueue r)) as [[]|] eqn:Hv; [|done]. destruct (SameLogicalQueue _ _) eqn:Hs; [|done]. cbn [negb]. rewrite IH.
    intros H r' [->|Hr]%elem_of_cons; [done|by apply H].
  - intros H. destruct (H r ltac:(left)) as [-> ->]. cbn [negb]. apply IH. intros r' Hr. apply H. by right.
Qed.

(** ** One partition as the special case *)

(** What the commit of [m] consumes of partition [q]. *)
Lemma commit_moves cfg now W q id home m (news ids : list bytes) :
  ginv W → queue_ok q → id ∉ minted W → mID m = id → match_ok q m →
  let s := expireLocked cfg (oldState (items W) (QueueKey q)) now in
  NoDup ids → (∀ i, i ∈ ids → ∃ t, Tickets s !! i = Some t ∧ tState t = TicketWaiting) →
  (∀ i, i ∈ ids → i ∈ mTicketIDs m) →
  (∀ i id sub, partAt m i = Some (qPartition q) → mTicketIDs m !! i = Some id → mMembers m !! i = Some sub →
     id ∈ ids ∧ ∃ t, Tickets s !! id = Some t ∧ tSubject t = sub) →
  (∀ i t, Tickets s !! i = Some t → i ∈ news → i ∈ ids) →
  moves cfg now q home id news [m] (oldState (items W) (QueueKey q)) (addMatch m (leaveAll (matchTicket now id) s ids)).
Proof.
  intros I Hq Hid <- Hok s Hn Hin Hids Hmem Hnews.
  pose proof (moves_refreshed cfg now q _ False (mID m) [] (ginv_old W q I Hq)) as M. eapply moves_trans; [exact M|].
  assert (I' : wf q s) by apply M. apply moves_match; try done.
  - intros i Hi. apply (c_waiting _ _ (w_core _ _ I')). by apply Hin.
  - by apply fresh_match.
Qed.

Lemma old_waiting W q cfg now i t : ginv W → queue_ok q → Tickets (expireLocked cfg (oldState (items W) (QueueKey q)) now) !! i = Some t →
  tState t = TicketWaiting → Tickets (oldState (items W) (QueueKey q)) !! i = Some t.
Proof.
  intros I Hq Ht Hst. apply (rf_waiting _ _ _ _ _ (expireLocked_refreshed q cfg _ now (ginv_old W q I Hq)) i t Hst) in Ht. tauto.
Qed.

(** ** The steps *)

Lemma replayOf_listed matches views m : replayOf matches views = Some m → ∃ mid, matches !! mid = Some m.
Proof.
  unfold replayOf. destruct views as [|v views]; [done|]. destruct (vTicket v) as [t|]; [|done]. destruct (_ && _); [|done].
  destruct (matches !! tMatchID t) as [m'|] eqn:Hm; [|done]. destruct (_ && _); [|done]. intros [= <-]. by exists (tMatchID t).
Qed.

Lemma formed_old W q id cfg now m mid : ginv W → queue_ok q → id ∉ minted W →
  Matches (expireLocked cfg (oldState (items W) (QueueKey q)) now) !! mid = Some m → formed id (Ok (AMatch m)) = [].
Proof.
  intros I Hq Hid Hm. pose proof (ginv_old W q I Hq) as I0.
  pose proof (expireLocked_refreshed q cfg _ now I0) as F. apply (rf_match _ _ _ _ _ F) in Hm as [Hm _].
  destruct (w_match _ _ I0 mid m Hm) as [<- _]. cbn. rewrite bool_decide_eq_false_2; [done|]. intros <-. apply Hid. by eapply old_match.
Qed.

Lemma formed_new id m : mID m = id → formed id (Ok (AMatch m)) = [m].
Proof. intros <-. cbn. by rewrite bool_decide_eq_true_2. Qed.

(** The [i]-th ticket of a view list that passed the checks. *)
Lemma viewed_at views ts i v : Forall2 viewed views ts → views !! i = Some v → ∃ t, ts !! i = Some t ∧ viewed v t.
Proof. intros Hf Hv. destruct (Forall2_lookup_l _ _ _ _ _ Hf Hv) as (t & ? & ?). by exists t. Qed.

Lemma commit_step cfg now W id q ticketIDs : ginv W → id ∉ minted W → is_i64 (qFillAfterSeconds q) →
  step_ok cfg now W id (answer AMatch (Commit cfg now id q ticketIDs (items W))).
Proof.
  intros I Hid Hf. unfold Commit. destruct (QueueValidate q) as [[]|] eqn:Hv; [|by apply step_none].
  destruct (checkTicketSet ticketIDs q) as [[]|] eqn:Hset; [|by apply step_none]. assert (Hq : queue_ok q) by (by split).
  apply checkTicketSet_ok in Hset as (Hsize & _ & Hn). apply update_step; [done..|].
  intros s' save m. unfold commitMutate. destruct (negb _); [done|]. set (s := expireLocked cfg _ now).
  destruct (replayOf _ _) as [prev|] eqn:Hrep.
  { intros [= <- <- <-]. apply replayOf_listed in Hrep as [mid Hmid]. by eapply formed_old. }
  destruct (checkViews _ _ _ _) as [[members oldest]|] eqn:Hch; [|done]. destruct (negb _); [done|]. intros [= <- <- <-].
  apply checkViews_ok in Hch as (ts & Hvs & Hsk & _ & -> & ->). rewrite app_nil_l. set (m := mkMatch _ _ _ _ _ _).
  assert (Hat : ∀ i id, ticketIDs !! i = Some id → ∃ t, ts !! i = Some t ∧ Tickets s !! id = Some t ∧ tState t = TicketWaiting).
  { intros i id' Hi. destruct (viewed_at _ ts i (mkView id' q (Tickets s !! id')) Hvs) as (t & Hti & Ht & _ & Hst).
    - unfold viewsOf. change (map ?f) with (fmap (M:=list) f). by rewrite list_lookup_fmap, Hi.
    - by exists t. }
  assert (Hw : ∀ i, i ∈ ticketIDs → ∃ t, Tickets s !! i = Some t ∧ tState t = TicketWaiting).
  { intros i [k Hi]%list_elem_of_lookup. destruct (Hat k i Hi) as (t & _ & ?). by exists t. }
  exists False, ticketIDs. rewrite (formed_new id m eq_refl). split_and!; [|done| |right; by exists m].
  - rewrite consume_all. apply commit_moves; try done.
    + split; try done; cbn.
      * by apply bool_decide_eq_true_2.
      * apply Forall2_length in Hvs. unfold viewsOf in Hvs. rewrite length_map in Hvs. by rewrite length_fmap.
      * by rewrite <- list_fmap_compose.
      * by left.
    + cbn. intros i id' sub _ Hi Hs. split; [by eapply list_elem_of_lookup_2|]. destruct (Hat i id' Hi) as (t & Hti & Ht & _). exists t. split; [done|].
      rewrite list_lookup_fmap, Hti in Hs. by injection Hs.
  - intros i Hi. destruct (Hw i Hi) as (t & Ht & Hst). exists t. split; [|done]. by eapply old_waiting.
Qed.

(** ** Across partitions *)

Section Across.
Context (cfg : Config) (now : Z) (id : bytes) (logical : Queue) (parts : list Queue) (refs : list TicketRef).
Context (W : MmWorld) (I : ginv W) (Hid : id ∉ minted W).
Context (Hparts : NoDup parts) (Hqs : Forall queue_ok parts) (Hin : ∀ q, q ∈ parts ↔ q ∈ (rQueue <$> refs)).
Context (Hsame : ∀ r, r ∈ refs → SameLogicalQueue (rQueue r) logical = true).
Context (Hsize : MinGroupSize logical ≤ zlen (map rTicketID refs) ≤ qGroupSize logical) (Hnd : NoDup (map rTicketID refs)).

Abbreviation olds := (oldsOf (items W) parts).
Definition freshStates : list queueState := map (λ s, expireLocked cfg s now) olds.
Abbreviation fresh q := (expireLocked cfg (oldState (items W) (QueueKey q)) now).

Lemma fresh_at j q : parts !! j = Some q → freshStates !! j = Some (fresh q).
Proof using. intros Hj. unfold freshStates, oldsOf. rewrite map_map. change (map ?f) with (fmap (M:=list) f). by rewrite list_lookup_fmap, Hj. Qed.

Lemma part_queue r : r ∈ refs → rQueue r ∈ parts.
Proof using Hin. intros Hr. apply Hin, list_elem_of_fmap. by exists r. Qed.

Lemma parts_ok q : q ∈ parts → queue_ok q.
Proof using Hqs. intros Hq. rewrite Forall_forall in Hqs. by apply Hqs. Qed.

Lemma keys_nodup : NoDup (map QueueKey parts).
Proof using Hparts Hqs.
  change (map QueueKey parts) with (QueueKey <$> parts). apply NoDup_fmap_2_strong; [|done].
  intros q q' Hq Hq' E. rewrite Forall_forall in Hqs. apply QueueKey_inj; auto.
Qed.

(** The view of a reference is its ticket in its own partition. *)
Lemma across_view i r : refs !! i = Some r →
  viewsAcross freshStates parts refs !! i = Some (mkView (rTicketID r) (rQueue r) (Tickets (fresh (rQueue r)) !! rTicketID r)).
Proof using Hin.
  intros Hi. unfold viewsAcross. change (map ?f refs) with (fmap (M:=list) f refs). rewrite list_lookup_fmap, Hi. cbn.
  assert (Hr : rQueue r ∈ parts) by (apply part_queue; by eapply list_elem_of_lookup_2). by rewrite (fresh_at _ _ (indexOf_lookup _ _ Hr)).
Qed.

Lemma idsIn_spec q i : i ∈ idsIn q refs ↔ ∃ r, r ∈ refs ∧ rQueue r = q ∧ rTicketID r = i.
Proof using.
  unfold idsIn. rewrite list_elem_of_fmap. setoid_rewrite list_elem_of_filter.
  split; [intros (r & -> & ? & ?); by exists r|intros (r & ? & <- & <-); by exists r].
Qed.

Lemma idsIn_nodup q : NoDup (idsIn q refs).
Proof using Hnd. unfold idsIn. eapply sublist_NoDup; [exact Hnd|]. apply fmap_sublist, sublist_filter. Qed.

(** The match that these tickets form. *)
Definition acrossMatch (ts : list Ticket) (queue : Queue) : Match :=
  mkMatch id queue (tSubject <$> ts) (map rTicketID refs) (map (λ r, qPartition (rQueue r)) refs) (Unix now).

Section Formed.
Context (ts : list Ticket) (Hvs : Forall2 viewed (viewsAcross freshStates parts refs) ts) (Hsk : NoDup (skOf <$> ts)).

Lemma across_at i r : refs !! i = Some r → ∃ t, ts !! i = Some t ∧ Tickets (fresh (rQueue r)) !! rTicketID r = Some t ∧ tState t = TicketWaiting.
Proof using Hvs Hin. intros Hi. destruct (viewed_at _ ts i _ Hvs (across_view i r Hi)) as (t & Hti & Ht & _ & Hst). by exists t. Qed.

Lemma across_ok q : q ∈ parts → match_ok q (acrossMatch ts logical).
Proof using Hvs Hsk Hin Hsame Hsize Hnd.
  intros Hq. apply Hin, list_elem_of_fmap in Hq as (r & -> & Hr). pose proof (Hsame r Hr) as Hs. apply SameLogicalQueue_spec in Hs as (E1 & E2 & E3 & E4).
  apply Forall2_length in Hvs. unfold viewsAcross in Hvs. rewrite length_map in Hvs. split; cbn [acrossMatch mQueue mTicketIDs mMembers mTicketPartitions].
  - unfold SameLogicalQueue. apply bool_decide_eq_true_2. congruence.
  - done.
  - by rewrite length_fmap, length_map.
  - by rewrite <- list_fmap_compose.
  - unfold MinGroupSize, Flexible in *. by rewrite E2, E3.
  - right. by rewrite !length_map.
Qed.

Lemma across_moves q : q ∈ parts →
  moves cfg now q False id (map rTicketID refs) [acrossMatch ts logical] (oldState (items W) (QueueKey q))
    (addMatch (acrossMatch ts logical) (leaveAll (matchTicket now id) (fresh q) (idsIn q refs))).
Proof using Hvs Hsk Hin Hsame Hsize Hnd I Hid Hqs.
  intros Hq. apply commit_moves; try done.
  - by apply parts_ok.
  - by apply across_ok.
  - apply idsIn_nodup.
  - intros i (r & Hr & <- & <-)%idsIn_spec. apply list_elem_of_lookup in Hr as [k Hk]. destruct (across_at k r Hk) as (t & _ & ?). by exists t.
  - intros i (r & Hr & <- & <-)%idsIn_spec. cbn. apply list_elem_of_fmap. by exists r.
  - cbn [acrossMatch partAt mTicketPartitions mTicketIDs mMembers]. intros i i' sub Hp Hi Hs.
    apply list_lookup_fmap_Some in Hi as (r & -> & Hr). assert (Hrefs : r ∈ refs) by (by eapply list_elem_of_lookup_2).
    assert (E : rQueue r = q).
    { unfold partAt in Hp. cbn [acrossMatch mTicketPartitions] in Hp. destruct refs as [|r0 l] eqn:El; [done|]. cbn [map] in Hp. rewrite <- El in *.
      change (qPartition (rQueue r0) :: map (λ r, qPartition (rQueue r)) l) with ((λ r, qPartition (rQueue r)) <$> (r0 :: l)) in Hp.
      rewrite <- El, list_lookup_fmap, Hr in Hp. injection Hp as Hp.
      apply Hin, list_elem_of_fmap in Hq as (r' & -> & Hr'). destruct (SameLogicalQueue_spec _ _ (Hsame r Hrefs)) as (? & ? & ? & ?).
      destruct (SameLogicalQueue_spec _ _ (Hsame r' Hr')) as (? & ? & ? & ?). destruct (rQueue r), (rQueue r'); cbn in *; congruence. }
    split; [apply idsIn_spec; by exists r|]. destruct (across_at i r Hr) as (t & Hti & Ht & _). exists t. rewrite <- E. split; [done|].
    rewrite list_lookup_fmap, Hti in Hs. by injection Hs.
  - cbn. intros i t Ht Hi. apply list_elem_of_fmap in Hi as (r & -> & Hr). apply idsIn_spec. exists r. split_and!; try done.
    apply list_elem_of_lookup in Hr as [k Hk]. destruct (across_at k r Hk) as (t' & _ & Ht' & _).
    assert (Hqr : queue_ok (rQueue r)) by (apply parts_ok, part_queue; by eapply list_elem_of_lookup_2).
    destruct (rf_ticket _ _ _ _ _ (expireLocked_refreshed q cfg _ now (ginv_old W q I (parts_ok q Hq))) _ t Ht) as (t0 & (v & Hv & Hv0)%old_ticket & _).
    destruct (rf_ticket _ _ _ _ _ (expireLocked_refreshed _ cfg _ now (ginv_old W _ I Hqr)) _ t' Ht') as (t1 & (v' & Hv' & Hv1)%old_ticket & _).
    symmetry. apply QueueKey_inj; [by apply parts_ok|done|]. by eapply (gi_home W I).
Qed.

End Formed.

(** What the mutation of several partitions can do. *)
Lemma across_cases s' save m :
  commitAcrossMutate cfg now id logical parts refs olds (foundsOf (items W) parts) = Ok (s', save, m) →
  (save = false ∧ replayOf (match freshStates with s :: _ => Matches s | [] => ∅ end) (viewsAcross freshStates parts refs) = Some m) ∨
  (save = true ∧ ∃ ts, Forall2 viewed (viewsAcross freshStates parts refs) ts ∧ NoDup (skOf <$> ts) ∧ m = acrossMatch ts logical ∧
     s' = map (addMatch m) (foldl (consumeAcross now id parts) freshStates refs)).
Proof using.
  unfold commitAcrossMutate. destruct (existsb negb _); [done|]. fold freshStates. destruct (replayOf _ _) as [prev|].
  { intros [= <- <- <-]. by left. }
  destruct (checkViews _ _ _ _) as [[members oldest]|] eqn:Hch; [|done]. destruct (negb _); [done|]. intros [= <- <- <-].
  apply checkViews_ok in Hch as (ts & Hvs & Hsk & _ & -> & ->). right. split; [done|]. by exists ts.
Qed.

Lemma across_step : parts ≠ [] → step_ok cfg now W id (answer AMatch (UpdateAll (items W) parts (commitAcrossMutate cfg now id logical parts refs))).
Proof using I Hid Hparts Hqs Hin Hsame Hsize Hnd.
  intros Hne. destruct (UpdateAll _ _ _) as [its' r] eqn:HU. unfold answer. cbn [fst snd].
  apply UpdateAll_cases in HU as [[-> Hr]|(s' & m & -> & Hm & Hout & Hput)]; [| |by apply keys_nodup|done|].
  - apply step_none; [done|]. destruct r as [m|e]; [|done]. destruct (Hr m eq_refl) as (s' & Hm). apply across_cases in Hm as [[_ Hrep]|[? _]]; [|done].
    apply replayOf_listed in Hrep as [mid Hmid]. destruct (lookup_lt_is_Some_2 parts 0) as [q Hq0]; [destruct parts; [done|cbn; lia]|].
    pose proof (list_elem_of_lookup_2 _ _ _ Hq0) as Hq. pose proof (fresh_at 0 q Hq0) as H0.
    destruct freshStates as [|s l']; [done|]. injection H0 as ->. by eapply formed_old; [|apply parts_ok| |].
  - apply across_cases in Hm as [[? _]|(_ & ts & Hvs & Hsk & -> & ->)]; [done|]. exists [], (map rTicketID refs). cbn [fst snd].
    rewrite formed_new by done. split; [|right; by exists (acrossMatch ts logical)].
    apply (moves_change cfg now W parts its' id (λ _, False) _); try done.
    + intros q Hq. pose proof (across_moves ts Hvs Hsk q Hq) as M. apply list_elem_of_lookup in Hq as [j Hj].
      specialize (Hput j q (addMatch (acrossMatch ts logical) (leaveAll (matchTicket now id) (fresh q) (idsIn q refs))) Hj).
      destruct (its' !! QueueKey q) as [v|]; [exists v; split; [done|]|]; (assert (Hv : map (addMatch (acrossMatch ts logical)) (foldl (consumeAcross now id parts) freshStates refs) !! j =
        Some (addMatch (acrossMatch ts logical) (leaveAll (matchTicket now id) (fresh q) (idsIn q refs))));
        [change (map ?f) with (fmap (M:=list) f); rewrite list_lookup_fmap, (consumeAcross_all now id parts refs j q), (fresh_at j q) by (done || apply part_queue); done|]).
      * specialize (Hput Hv). injection Hput as ->. done.
      * by specialize (Hput Hv).
    + intros i Hi. apply list_elem_of_fmap in Hi as (r & -> & Hr). pose proof (part_queue r Hr) as Hp.
      apply list_elem_of_lookup in Hr as [k Hk]. destruct (across_at ts Hvs k r Hk) as (t & _ & Ht & Hst).
      exists (rQueue r), t. split_and!; [done| |done]. apply (old_waiting W _ cfg now); [done|by apply parts_ok|done..].
  - intros s' m Hm. apply across_cases in Hm as [[? _]|(_ & ts & _ & _ & _ & ->)]; [done|].
    rewrite length_map, consumeAcross_length. unfold freshStates, oldsOf. by rewrite !length_map.
Qed.

End Across.

Lemma partitions_ready refs r0 : r0 ∈ refs → checkRefs (rQueue r0) refs = Ok tt → Forall (λ r, is_i64 (qFillAfterSeconds (rQueue r))) refs →
  NoDup (partitionsOf refs) ∧ Forall queue_ok (partitionsOf refs) ∧ partitionsOf refs ≠ [] ∧ (∀ q, q ∈ partitionsOf refs ↔ q ∈ (rQueue <$> refs)) ∧
  (∀ r, r ∈ refs → SameLogicalQueue (rQueue r) (rQueue r0) = true).
Proof.
  intros Hr0 Hc Hf. rewrite checkRefs_ok in Hc. rewrite Forall_forall in Hf. destruct (partitionsOf_spec refs) as [Hn Hin]. split_and!; [done| | |done|].
  - apply Forall_forall. intros q (r & -> & Hr)%Hin%list_elem_of_fmap. split; [by apply Hc|by apply Hf].
  - intros E. assert (H : rQueue r0 ∈ partitionsOf refs) by (apply Hin, list_elem_of_fmap; by exists r0). rewrite E in H. by apply elem_of_nil in H.
  - intros r Hr. by apply Hc.
Qed.

Lemma commitAcross_step cfg now W id refs : ginv W → id ∉ minted W → Forall (λ r, is_i64 (qFillAfterSeconds (rQueue r))) refs →
  step_ok cfg now W id (answer AMatch (CommitAcross cfg now id refs (items W))).
Proof.
  intros I Hid Hf. unfold CommitAcross. destruct refs as [|r0 refs0] eqn:Er; [by apply step_none|]. rewrite <- Er in *.
  destruct (checkRefs (rQueue r0) refs) as [[]|] eqn:Hc; [|by apply step_none].
  destruct (checkTicketSet (map rTicketID refs) (rQueue r0)) as [[]|] eqn:Hset; [|by apply step_none].
  apply checkTicketSet_ok in Hset as (Hsize & _ & Hnd).
  destruct (partitions_ready refs r0) as (Hn & Hqs & Hne & Hin & Hs); [rewrite Er; left|done..|].
  pose proof (across_step cfg now id (rQueue r0) (partitionsOf refs) refs W I Hid Hn Hqs Hin Hs Hsize Hnd Hne) as Hstep.
  destruct (partitionsOf refs) as [|q [|q' l]]; [done| |done]. apply Forall_cons in Hqs as [[_ Hq] _]. by apply commit_step.
Qed.
