(* ===== verification/MmSafe.v ===== *)
(** * What a run of matchmaking guarantees

    In every reachable world each ticket went into at most one match and every
    queue's state is well formed; a commit repeated within the retention
    answers the match it formed; a group that a policy chooses is accepted. *)

From Stdlib Require Import String.
From S2P Require Import Prelude Bytes GoStr VsRedis VsMemory MmTypes MmStore MmInv MmRun MmGrouping.

(** ** The invariant of a run *)

Lemma exec_step W id cfg now op : ginv W → id ∉ minted W → op_ok op → step_ok cfg now W id (exec cfg now id op (items W)).
Proof.
  intros I Hid Hok. destruct op; cbn [exec op_ok] in *;
    [by apply enqueue_step|by apply cancel_step|by apply commit_step|by apply commitAcross_step|by apply sweep_step].
Qed.

Lemma step_ginv cfg now op W r W' : ginv W → mm_step cfg now op W r W' → ginv W'.
Proof.
  intros I H. destruct H as [id W Hok Hid Hne]. destruct (exec_step W id cfg now op I Hid Hok) as (home & news & Ch & Hf). by eapply ginv_change.
Qed.

Lemma ginv_start : ginv (mkMm ∅ ∅ []).
Proof. split; cbn; try done; try set_solver. constructor. Qed.

Lemma reachable_ginv cfg W : mm_reachable cfg W → ginv W.
Proof. induction 1 as [|now op W r W' _ IH Hs]; [apply ginv_start|by eapply step_ginv]. Qed.

(** Two matches that share a ticket are one. *)
Lemma shared_ticket (ms : list Match) m m' i : NoDup (concat (mTicketIDs <$> ms)) → m ∈ ms → m' ∈ ms → i ∈ mTicketIDs m → i ∈ mTicketIDs m' → m = m'.
Proof.
  induction ms as [|m0 ms IH]; [by intros _ ?%elem_of_nil|]. cbn. intros (_ & Hno & Hn)%NoDup_app Hm Hm' Hi Hi'.
  assert (Hin : ∀ x, x ∈ ms → i ∈ mTicketIDs x → i ∈ concat (mTicketIDs <$> ms)).
  { intros x Hx Hix. apply list_elem_of_In, in_concat. exists (mTicketIDs x). rewrite <- !list_elem_of_In. split; [|done]. apply list_elem_of_fmap. by exists x. }
  apply elem_of_cons in Hm as [->|Hm], Hm' as [->|Hm']; [done| | |by apply IH].
  - exfalso. by eapply Hno, Hin.
  - exfalso. by eapply Hno, Hin.
Qed.

(** A run of three operations: two subjects queue, and are matched. *)
Definition mm_do_one (cfg : Config) (W : MmWorld) (x : Z * bytes * MmOp) : MmWorld :=
  let '(now, id, op) := x in
  let y := exec cfg now id op (items W) in mkMm (fst y) ({[ id ]} ∪ minted W) (committed W ++ formed id (snd y)).

Lemma do_one_step cfg W now id op r : op_ok op → id ∉ minted W → id ≠ [] → snd (exec cfg now id op (items W)) = r →
  mm_step cfg now op W r (mm_do_one cfg W (now, id, op)).
Proof. intros Hok Hid Hne <-. by apply (mm_do cfg now op id). Qed.

Lemma do_one_reachable cfg W now id op : mm_reachable cfg W → op_ok op → id ∉ minted W → id ≠ [] → mm_reachable cfg (mm_do_one cfg W (now, id, op)).
Proof. intros HW Hok Hid Hne. eapply mm_next; [done|]. by apply do_one_step. Qed.

Definition duelCfg : Config := mkConfig (60 * second) (600 * second).
Definition duel : Queue := mkQueue (str "duel"%string) 2 0 0 [].
Definition alice : Subject := mkSubject (str "p"%string) 1 1500 [].
Definition bob : Subject := mkSubject (str "p"%string) 2 1510 [].
Definition duelWaiting : MmWorld :=
  mm_do_one duelCfg (mm_do_one duelCfg (mkMm ∅ ∅ []) (10 * second, [1], MmEnqueue duel alice [])) (11 * second, [2], MmEnqueue duel bob []).
Definition duelMatched : MmWorld := mm_do_one duelCfg duelWaiting (12 * second, [3], MmCommit duel [[1]; [2]]).

Lemma duel_ok : queue_ok duel.
Proof. split; [reflexivity|unfold is_i64; cbn; lia]. Qed.

Lemma duelWaiting_reachable : mm_reachable duelCfg duelWaiting.
Proof. repeat (apply do_one_reachable; [|apply duel_ok|cbn [mm_do_one minted]; set_solver|done]). apply mm_start. Qed.

Lemma duelMatched_reachable : mm_reachable duelCfg duelMatched.
Proof. apply do_one_reachable; [apply duelWaiting_reachable|apply duel_ok|cbn [duelWaiting mm_do_one minted]; set_solver|done]. Qed.

Definition duelMatch : Match := mkMatch [3] duel [alice; bob] [[1]; [2]] [] 12.

Lemma duelMatched_committed : committed duelMatched = [duelMatch].
Proof. reflexivity. Qed.

(** The state that it leaves. *)
Definition duelTicket (id : bytes) (sub : Subject) (at_ : Z) : Ticket := mkTicket id duel sub TicketMatched [3] [] at_ (at_ + 60) 12.
Definition duelState : queueState :=
  mkQueueState [] (<[[1] := duelTicket [1] alice 10]> {[ [2] := duelTicket [2] bob 11 ]}) {[ [3] := duelMatch ]} ∅ ∅.

Lemma duelMatched_state : stateOf (items duelMatched) duel = Some duelState.
Proof. reflexivity. Qed.

(** ** Safety *)

(** C9. Whatever operations run in whatever order, on any partitions and at
    any clock readings, no ticket is consumed by two matches, and a stored
    ticket that says it was matched is listed by exactly one formed match, the
    one whose id it carries. *)
Theorem one_match_per_ticket (cfg : Config) (W : MmWorld) :
  mm_reachable cfg W →
  NoDup (concat (mTicketIDs <$> committed W)) ∧
  ∀ k v id t, items W !! k = Some v → Tickets (vValue v) !! id = Some t → tState t = TicketMatched →
    ∃ m, m ∈ committed W ∧ mID m = tMatchID t ∧ id ∈ mTicketIDs m ∧
         ∀ m', m' ∈ committed W → id ∈ mTicketIDs m' → m' = m.
Proof.
  intros I%reachable_ginv. split; [apply (gi_once W I)|]. intros k v id t Hk Ht Hst. destruct (gi_wf W I k v Hk) as (q & _ & _ & Hw).
  destruct (w_matched _ _ Hw id t Ht Hst) as (m & Hm & Hin). exists m. pose proof (gi_stored W I k v _ m Hk Hm) as Hc.
  split_and!; try done; [by apply (w_match _ _ Hw)|]. intros m' Hm' Hin'. by apply (shared_ticket (committed W) m' m id (gi_once W I)).
Qed.

Example one_match_per_ticket_witness :
  ∃ m, m ∈ committed duelMatched ∧ [2] ∈ mTicketIDs m ∧ ∀ m', m' ∈ committed duelMatched → [2] ∈ mTicketIDs m' → m' = m.
Proof.
  destruct (one_match_per_ticket duelCfg duelMatched duelMatched_reachable) as [_ H].
  destruct (H (QueueKey duel) (default (mkVersioned emptyState 0) (items duelMatched !! QueueKey duel)) [2]
    (mkTicket [2] duel bob TicketMatched [3] [] 11 71 12)) as (m & Hm & _ & Hin & Hu); [reflexivity..|].
  exists m. by split_and!.
Defined.

(** C22. The state of every partition stays well formed: the waiting list holds
    exactly the waiting tickets, once each; a subject has one live ticket; a
    match names as many distinct members as tickets, within the queue's sizes,
    and its tickets of this partition are stored as matched into it, by its
    members in order; request records name stored tickets. *)
Theorem queues_wellformed (cfg : Config) (W : MmWorld) :
  mm_reachable cfg W →
  ∀ q s, queue_ok q → stateOf (items W) q = Some s →
  NoDup (Waiting s) ∧ (∀ id, id ∈ Waiting s ↔ ∃ t, Tickets s !! id = Some t ∧ tState t = TicketWaiting) ∧
  (∀ id id' t t', Tickets s !! id = Some t → Tickets s !! id' = Some t' → tState t = TicketWaiting → tState t' = TicketWaiting →
     SubjectKey (tSubject t) = SubjectKey (tSubject t') → id = id') ∧
  (∀ mid m, Matches s !! mid = Some m → mID m = mid ∧ match_ok q m ∧
     ∀ i id sub, partAt m i = Some (qPartition q) → mTicketIDs m !! i = Some id → mMembers m !! i = Some sub → consumed s m id sub) ∧
  (∀ r id, Requests s !! r = Some id → ∃ t, Tickets s !! id = Some t ∧ tRequestID t = r).
Proof.
  intros I%reachable_ginv q s Hq Hs. unfold stateOf in Hs. apply fmap_Some in Hs as (v & Hv & ->).
  destruct (gi_wf W I _ v Hv) as (q' & Hq' & E & Hw). apply QueueKey_inj in E as ->; [|done..]. pose proof (w_core _ _ Hw) as C. split_and!.
  - apply (c_nodup _ _ C).
  - apply (c_waiting _ _ C).
  - intros id id' t t' Ht Ht' Hst Hst' E.
    assert (H1 : SubjectTickets (vValue v) !! SubjectKey (tSubject t) = Some id) by (apply (c_subject _ _ C); by exists t).
    assert (H2 : SubjectTickets (vValue v) !! SubjectKey (tSubject t) = Some id') by (apply (c_subject _ _ C); by exists t'). congruence.
  - intros mid m Hm. destruct (w_match _ _ Hw mid m Hm). split_and!; [done..|]. intros i id sub. by apply (w_consumed _ _ Hw mid).
  - apply (w_requests _ _ Hw).
Qed.

Example queues_wellformed_witness : consumed duelState duelMatch [2] bob.
Proof.
  destruct (queues_wellformed duelCfg duelMatched duelMatched_reachable duel duelState duel_ok duelMatched_state) as (_ & _ & _ & Hm & _).
  destruct (Hm [3] duelMatch eq_refl) as (_ & _ & Hc). by apply (Hc 1%nat).
Defined.

(** ** Retention *)

Lemma duelState_wf : wf duel duelState.
Proof.
  pose proof (ginv_old duelMatched duel (reachable_ginv _ _ duelMatched_reachable) duel_ok) as Hw.
  pose proof duelMatched_state as E. unfold stateOf in E. unfold oldState in Hw. destruct (items duelMatched !! QueueKey duel) as [v|]; [|done].
  by injection E as <-.
Qed.

(** What retention removes does not depend on the order in which Go visits
    the maps: in any order of the three loops the same state and the same
    count come out, waiting tickets stay, a resolved ticket stays exactly as
    long as its match if it has one and as its own retention otherwise, and a
    request record as long as its ticket. *)
Theorem prune_any_order (q : Queue) (cfg : Config) (now : Z) (s : queueState) (mo to ro : list bytes) :
  wf q s →
  mo ≡ₚ keys (Matches s) → to ≡ₚ keys (Tickets (fst (pruneMatches mo (cutoff cfg now) s))) → ro ≡ₚ keys (Requests s) →
  let s' := fst (pruneResolvedLocked cfg s now) in
  pruneInOrder mo to ro (cutoff cfg now) s = pruneResolvedLocked cfg s now ∧
  Waiting s' = Waiting s ∧
  (∀ mid m, Matches s' !! mid = Some m ↔ Matches s !! mid = Some m ∧ cutoff cfg now < mCreatedAtUnix m) ∧
  (∀ id t, Tickets s' !! id = Some t ↔ Tickets s !! id = Some t ∧
     match tState t with
     | TicketWaiting => True
     | TicketMatched => is_Some (Matches s' !! tMatchID t)
     | _ => cutoff cfg now < tResolvedAtUnix t
     end) ∧
  (∀ r id, Requests s' !! r = Some id ↔ Requests s !! r = Some id ∧ is_Some (Tickets s' !! id)).
Proof.
  intros Hw Hmo Hto Hro s'. pose proof (w_core _ _ Hw) as C. pose proof (wf_listed _ _ Hw) as Hl. subst s'. rewrite (prune_spec q) by done. cbn [fst].
  split_and!.
  - apply (pruneInOrder_spec q); try done; intros k Hk; [rewrite Hmo|rewrite Hto|rewrite Hro]; by apply elem_of_keys.
  - done.
  - apply pruned_match.
  - intros id t. rewrite pruned_ticket. split; intros [Ht Hx]; (split; [done|]); revert Hx; unfold keptTicket;
      destruct (tState t) eqn:Hst; rewrite ?Z.ltb_lt; try done; destruct (w_matched _ _ Hw id t Ht Hst) as (m & Hm & _); rewrite Hm; unfold liveMatch; rewrite Z.ltb_lt.
    + intros Hc. exists m. by apply pruned_match.
    + intros [m' [Hm' Hc]%pruned_match]. by assert (m' = m) as -> by congruence.
  - intros r id. cbn [prunedState Requests Tickets]. by rewrite map_lookup_filter_Some.
Qed.

Example prune_any_order_witness : pruneInOrder [[3]] [[2]; [1]] [] (cutoff duelCfg (13 * second)) duelState = pruneResolvedLocked duelCfg duelState (13 * second).
Proof.
  apply (prune_any_order duel duelCfg (13 * second) duelState [[3]] [[2]; [1]] []); [apply duelState_wf|reflexivity| |reflexivity].
  apply Permutation_swap.
Defined.

(** ** A commit is a commit across one partition *)

Lemma partitionsOf_one q ids : ids ≠ [] → partitionsOf (map (mkRef q) ids) = [q].
Proof.
  destruct ids as [|i ids]; [done|]. intros _. unfold partitionsOf. cbn [map foldl]. rewrite bool_decide_eq_false_2 by apply not_elem_of_nil. cbn [app rQueue].
  induction ids as [|j ids IH]; [done|]. cbn [map foldl rQueue]. by rewrite bool_decide_eq_true_2 by left.
Qed.

Lemma SameLogicalQueue_refl q : SameLogicalQueue q q = true.
Proof. by apply bool_decide_eq_true_2. Qed.

Lemma commit_is_across cfg now id q ids items : ids ≠ [] →
  Commit cfg now id q ids items = CommitAcross cfg now id (map (mkRef q) ids) items.
Proof.
  intros Hne. unfold CommitAcross. destruct (map (mkRef q) ids) as [|r0 l] eqn:El; [by destruct ids|]. rewrite <- El.
  assert (rQueue r0 = q) as -> by (destruct ids; [done|injection El as <- _; done]).
  assert (Hids : map rTicketID (map (mkRef q) ids) = ids) by (rewrite map_map; apply map_id). rewrite Hids, partitionsOf_one by done.
  destruct (QueueValidate q) as [[]|e] eqn:Hv.
  - assert (Hc : checkRefs q (map (mkRef q) ids) = Ok tt).
    { apply checkRefs_ok. intros r (i & -> & _)%list_elem_of_fmap. split; [done|apply SameLogicalQueue_refl]. }
    rewrite Hc. unfold Commit. rewrite Hv. by destruct (checkTicketSet ids q) as [[]|].
  - destruct ids as [|i ids]; [done|]. unfold Commit. cbn [map checkRefs rQueue]. by rewrite Hv.
Qed.

(** ** The match that a commit leaves *)

(** [m] is the match of the references [refs], kept in all of their partitions. *)
Record held (its : store) (m : Match) (refs : list TicketRef) : Prop := {
  hd_some : refs ≠ [];
  hd_ids : map rTicketID refs = mTicketIDs m;
  hd_part : ∀ i r, refs !! i = Some r → partAt m i = Some (qPartition (rQueue r));
  hd_queue : ∀ r, r ∈ refs → queue_ok (rQueue r) ∧ SameLogicalQueue (rQueue r) (mQueue m) = true;
  hd_at : ∀ r, r ∈ refs → Matches (oldState its (QueueKey (rQueue r))) !! mID m = Some m
}.

Lemma commit_formed W id cfg now q ids its' m : ginv W → id ∉ minted W → ids ≠ [] → is_i64 (qFillAfterSeconds q) →
  Commit cfg now id q ids (items W) = (its', Ok m) → mID m = id → held its' m (map (mkRef q) ids).
Proof.
  intros I Hid Hne Hf. unfold Commit. destruct (QueueValidate q) as [[]|] eqn:Hv; [|done]. destruct (checkTicketSet ids q) as [[]|]; [|done].
  assert (Hq : queue_ok q) by (by split). rewrite Update_eq. unfold commitMutate. destruct (negb _); [done|].
  destruct (replayOf _ _) as [prev|] eqn:Hrep.
  { intros [= <- <-] E. apply replayOf_listed in Hrep as [mid Hmid]. pose proof (formed_old W q id cfg now prev mid I Hq Hid Hmid) as Ho. by rewrite formed_new in Ho. }
  destruct (checkViews _ _ _ _) as [[members oldest]|] eqn:Hch; [|done]. destruct (negb _); [done|]. intros [= <- <-] _.
  split; cbn [mTicketIDs mID mQueue].
  - by destruct ids.
  - rewrite map_map. apply map_id.
  - intros i r (j & -> & _)%list_lookup_fmap_Some. done.
  - intros r (j & -> & _)%list_elem_of_fmap. split; [done|apply SameLogicalQueue_refl].
  - intros r (j & -> & _)%list_elem_of_fmap. cbn [rQueue]. unfold oldState at 1. rewrite lookup_insert_eq. cbn. apply lookup_insert_eq.
Qed.

Lemma across_formed W id cfg now logical parts refs its' m :
  ginv W → id ∉ minted W → NoDup parts → Forall queue_ok parts → parts ≠ [] → (∀ q, q ∈ parts ↔ q ∈ (rQueue <$> refs)) →
  (∀ r, r ∈ refs → SameLogicalQueue (rQueue r) logical = true) →
  UpdateAll (items W) parts (commitAcrossMutate cfg now id logical parts refs) = (its', Ok m) → mID m = id → held its' m refs.
Proof.
  intros I Hid Hn Hqs Hne Hin Hsame HU Hm.
  assert (Hpart : ∀ r, r ∈ refs → rQueue r ∈ parts) by (by apply part_queue).
  assert (Hok : ∀ q, q ∈ parts → queue_ok q) by (by apply parts_ok).
  apply UpdateAll_cases in HU as [[_ Hr]|(s' & x & [= <-] & Hmut & _ & Hput)]; [| |by apply keys_nodup|done|].
  - exfalso. destruct (Hr m eq_refl) as (s' & Hmut). apply across_cases in Hmut as [[_ Hrep]|[? _]]; [|done].
    apply replayOf_listed in Hrep as [mid Hmid]. destruct (lookup_lt_is_Some_2 parts 0) as [q Hq0]; [destruct parts; [done|cbn; lia]|].
    pose proof (list_elem_of_lookup_2 _ _ _ Hq0) as Hq. pose proof (fresh_at cfg now parts W 0 q Hq0) as H0.
    destruct (freshStates cfg now parts W); [done|]. injection H0 as ->.
    pose proof (formed_old W q id cfg now m mid I (Hok q Hq) Hid Hmid) as Ho. by rewrite formed_new in Ho.
  - apply across_cases in Hmut as [[? _]|(_ & ts & Hvs & Hsk & -> & ->)]; [done|]. split.
    + intros ->. destruct parts as [|q l]; [done|]. assert (Hq : q ∈ @nil Queue) by (apply Hin; left). by apply elem_of_nil in Hq.
    + done.
    + intros i r Hi. unfold partAt. cbn [acrossMatch mTicketPartitions]. destruct refs as [|r0 l] eqn:El; [done|]. cbn [map].
      change (((λ r, qPartition (rQueue r)) <$> (r0 :: l)) !! i = Some (qPartition (rQueue r))). by rewrite list_lookup_fmap, Hi.
    + intros r Hr. split; [by apply Hok, Hpart|by apply Hsame].
    + intros r Hr. pose proof (Hpart r Hr) as Hq. apply list_elem_of_lookup in Hq as [j Hj].
      specialize (Hput j (rQueue r) (addMatch (acrossMatch now id refs ts logical)
        (leaveAll (matchTicket now id) (expireLocked cfg (oldState (items W) (QueueKey (rQueue r))) now) (idsIn (rQueue r) refs))) Hj).
      change (map ?f) with (fmap (M:=list) f) in Hput. rewrite list_lookup_fmap, (consumeAcross_all now id parts refs j (rQueue r)), (fresh_at cfg now parts W j _ Hj) in Hput by done.
      specialize (Hput eq_refl). unfold oldState. destruct (its' !! QueueKey (rQueue r)) as [v|]; [|done]. injection Hput as Hv. cbn. rewrite Hv. apply lookup_insert_eq.
  - intros s' x Hx. apply across_cases in Hx as [[? _]|(_ & ts & _ & _ & _ & ->)]; [done|].
    rewrite length_map, consumeAcross_length. unfold freshStates, oldsOf. by rewrite !length_map.
Qed.

Lemma commitAcross_formed W id cfg now refs its' m : ginv W → id ∉ minted W → Forall (λ r, is_i64 (qFillAfterSeconds (rQueue r))) refs →
  CommitAcross cfg now id refs (items W) = (its', Ok m) → mID m = id → held its' m refs.
Proof.
  intros I Hid Hf. unfold CommitAcross. destruct refs as [|r0 refs0] eqn:Er; [done|]. rewrite <- Er in *.
  destruct (checkRefs (rQueue r0) refs) as [[]|] eqn:Hc; [|done].
  destruct (checkTicketSet (map rTicketID refs) (rQueue r0)) as [[]|] eqn:Hset; [|done].
  destruct (partitions_ready refs r0) as (Hn & Hqs & Hne & Hin & Hs); [rewrite Er; left|done..|].
  pose proof (across_formed W id cfg now (rQueue r0) (partitionsOf refs) refs its' m I Hid Hn Hqs Hne Hin Hs) as Hacross.
  destruct (partitionsOf refs) as [|q [|q' l]] eqn:Ep; [done| |done]. intros HC Hm. apply Forall_cons in Hqs as [[_ Hq] _].
  assert (Erefs : map (mkRef q) (map rTicketID refs) = refs).
  { rewrite map_map. rewrite <- (map_id refs) at 2. apply map_ext_in. intros r Hr%list_elem_of_In.
    assert (Hrq : rQueue r ∈ [q]) by (apply Hin, list_elem_of_fmap; by exists r). apply list_elem_of_singleton in Hrq as <-. by destruct r. }
  rewrite <- Erefs. eapply commit_formed; try done. by rewrite Er.
Qed.

(** ** Repeating it *)

Lemma replayOf_same matches views m :
  views ≠ [] → matches !! mID m = Some m → (∀ v, v ∈ views → matchedInto v (mID m) = true) → (vID <$> views) ≡ₚ mTicketIDs m →
  replayOf matches views = Some m.
Proof.
  intros Hne Hm Hall Hp. destruct views as [|v views]; [done|]. unfold replayOf.
  pose proof (Hall v ltac:(left)) as Hv. unfold matchedInto in Hv. destruct (vTicket v) as [t|] eqn:Ht; [|done].
  apply andb_prop in Hv as [[Hst Hid]%andb_prop Hq]. rewrite Hst, Hq. apply bool_decide_eq_true in Hid. rewrite Hid, Hm. cbn [andb].
  assert (Hlen : (zlen (mTicketIDs m) =? zlen (v :: views)) = true).
  { apply Z.eqb_eq. unfold zlen. apply Permutation_length in Hp. rewrite length_fmap in Hp. by rewrite Hp. }
  rewrite Hlen. cbn [andb]. replace (forallb _ _) with true; [done|]. symmetry. apply forallb_forall. intros id Hi%list_elem_of_In.
  rewrite <- Hp in Hi. apply list_elem_of_fmap in Hi as (w & -> & Hw). apply existsb_exists. exists w. split; [by apply list_elem_of_In|].
  by rewrite (bool_decide_eq_true_2 (vID w = vID w)), Hall.
Qed.

Section Repeat.
Context (W : MmWorld) (I : ginv W) (m : Match) (refs : list TicketRef) (H : held (items W) m refs).
Context (cfg : Config) (now : Z) (Hlive : cutoff cfg now < mCreatedAtUnix m).

Abbreviation fresh q := (expireLocked cfg (oldState (items W) (QueueKey q)) now).

Lemma held_fresh r : r ∈ refs → Matches (fresh (rQueue r)) !! mID m = Some m.
Proof using I H Hlive.
  intros Hr. destruct (hd_queue _ _ _ H r Hr) as [Hq _]. apply (rf_match _ _ _ _ _ (expireLocked_refreshed _ cfg _ now (ginv_old W _ I Hq))).
  split; [by apply (hd_at _ _ _ H)|done].
Qed.

Lemma held_matched r : r ∈ refs → matchedInto (mkView (rTicketID r) (rQueue r) (Tickets (fresh (rQueue r)) !! rTicketID r)) (mID m) = true.
Proof using I H Hlive.
  intros Hr. pose proof (held_fresh r Hr) as Hm. destruct (hd_queue _ _ _ H r Hr) as [Hq _].
  pose proof (rf_wf _ _ _ _ _ (expireLocked_refreshed _ cfg _ now (ginv_old W _ I Hq))) as Hw.
  apply list_elem_of_lookup in Hr as [i Hi]. destruct (w_match _ _ Hw _ m Hm) as [_ Hok].
  assert (Hid : mTicketIDs m !! i = Some (rTicketID r)).
  { rewrite <- (hd_ids _ _ _ H). change (map ?f) with (fmap (M:=list) f). by rewrite list_lookup_fmap, Hi. }
  destruct (lookup_lt_is_Some_2 (mMembers m) i) as [sub Hsub].
  { rewrite (mo_members _ _ Hok). by apply lookup_lt_Some in Hid. }
  destruct (w_consumed _ _ Hw _ m i _ sub Hm (hd_part _ _ _ H i r Hi) Hid Hsub) as (t & Ht & Hst & Hmid & _).
  destruct (c_id _ _ (w_core _ _ Hw) _ t Ht) as [_ Htq]. unfold matchedInto. cbn [vTicket vQueue]. rewrite Ht.
  by rewrite !bool_decide_eq_true_2.
Qed.

Lemma held_found r : r ∈ refs → memFound (items W !! QueueKey (rQueue r)) = true.
Proof using H. intros Hr. pose proof (hd_at _ _ _ H r Hr) as Hm. unfold oldState in Hm. by destruct (items W !! QueueKey (rQueue r)). Qed.

Lemma repeat_one id q ids : ids ≠ [] → map (mkRef q) ids ≡ₚ refs →
  Update (items W) q (commitMutate cfg now id q ids) = (items W, Ok m).
Proof using I H Hlive.
  intros Hne Hp. assert (Hin : ∀ i, i ∈ ids → mkRef q i ∈ refs) by (intros i Hi; rewrite <- Hp; apply list_elem_of_fmap; by exists i).
  destruct ids as [|i0 ids0] eqn:Ei; [done|]. rewrite <- Ei in *. assert (H0 : mkRef q i0 ∈ refs) by (apply Hin; rewrite Ei; left).
  rewrite Update_eq. unfold commitMutate. rewrite (held_found _ H0 : memFound (items W !! QueueKey q) = true). cbn [negb].
  rewrite (replayOf_same _ _ m); [done| |by apply (held_fresh _ H0)| |].
  - by rewrite Ei.
  - unfold viewsOf. intros v (i & -> & Hi)%list_elem_of_fmap. apply (held_matched _ (Hin i Hi)).
  - rewrite <- (hd_ids _ _ _ H). change (map ?f refs) with (f <$> refs). rewrite <- Hp. unfold viewsOf. rewrite <- !list_fmap_compose. done.
Qed.

Lemma repeat_across id logical refs' : refs' ≠ [] → refs' ≡ₚ refs → NoDup (map QueueKey (partitionsOf refs')) →
  UpdateAll (items W) (partitionsOf refs') (commitAcrossMutate cfg now id logical (partitionsOf refs') refs') = (items W, Ok m).
Proof using I H Hlive.
  intros Hne Hp Hkeys. destruct (partitionsOf_spec refs') as [Hn Hin]. set (parts := partitionsOf refs') in *.
  assert (Hpart : ∀ q, q ∈ parts → ∃ r, r ∈ refs ∧ rQueue r = q).
  { intros q (r & -> & Hr)%Hin%list_elem_of_fmap. exists r. by rewrite <- Hp. }
  destruct (lookup_lt_is_Some_2 parts 0) as [q Hq0].
  { destruct parts eqn:E; [|cbn; lia]. destruct refs' as [|r l]; [done|]. assert (Hr : rQueue r ∈ @nil Queue) by (apply Hin; left). by apply elem_of_nil in Hr. }
  pose proof (fresh_at cfg now parts W 0 q Hq0) as H0. destruct (Hpart q (list_elem_of_lookup_2 _ _ _ Hq0)) as (r0 & Hr0 & Erq).
  assert (Hmut : commitAcrossMutate cfg now id logical parts refs' (oldsOf (items W) parts) (foundsOf (items W) parts) = Ok (freshStates cfg now parts W, false, m)).
  { unfold commitAcrossMutate. replace (existsb negb _) with false.
    2:{ symmetry. apply not_true_iff_false. intros (b & Hb & Hf)%existsb_exists. apply in_map_iff in Hb as (q' & <- & Hq'%list_elem_of_In).
        destruct (Hpart q' Hq') as (r & Hr & <-). by rewrite (held_found r Hr) in Hf. }
    fold (freshStates cfg now parts W). rewrite (replayOf_same _ _ m); [done| | | |].
    - unfold viewsAcross. by destruct refs'.
    - destruct (freshStates cfg now parts W) as [|s l]; [done|]. injection H0 as ->. rewrite <- Erq. by apply held_fresh.
    - intros v [i Hv]%list_elem_of_lookup. destruct (refs' !! i) as [r|] eqn:Hi.
      + rewrite (across_view cfg now parts refs' W Hin i r Hi) in Hv. apply (inj Some) in Hv as <-. apply held_matched. rewrite <- Hp. by eapply list_elem_of_lookup_2.
      + unfold viewsAcross in Hv. change (map ?f refs') with (fmap (M:=list) f refs') in Hv. by rewrite list_lookup_fmap, Hi in Hv.
    - rewrite <- (hd_ids _ _ _ H). change (map rTicketID refs) with (rTicketID <$> refs). rewrite <- Hp. unfold viewsAcross.
      change (map ?f refs') with (fmap (M:=list) f refs'). by rewrite <- list_fmap_compose. }
  destruct (UpdateAll _ _ _) as [its' r] eqn:HU. unfold UpdateAll in HU. unfold oldsOf, foundsOf in Hmut.
  unfold memUpdateAll, checkUpdateAll in HU. rewrite (bool_decide_eq_true_2 _ Hkeys), andb_true_r, !map_map in HU.
  unfold oldState in Hmut. rewrite Hmut in HU. cbn [negb fst] in HU. by case_match; injection HU as <- <-.
Qed.

End Repeat.

Lemma repeat_commit W m refs cfg now refs' id : ginv W → held (items W) m refs → cutoff cfg now < mCreatedAtUnix m → refs' ≡ₚ refs →
  CommitAcross cfg now id refs' (items W) = (items W, Ok m).
Proof.
  intros I H Hlive Hp. destruct refs' as [|r0 l] eqn:Er; [apply Permutation_nil_l in Hp; by pose proof (hd_some _ _ _ H)|]. rewrite <- Er in *.
  assert (Hin : ∀ r, r ∈ refs' → r ∈ refs) by (intros r; by rewrite Hp). assert (Hr0 : r0 ∈ refs') by (rewrite Er; left).
  destruct (hd_queue _ _ _ H r0 (Hin r0 Hr0)) as [Hq0 Hs0].
  assert (Hc : checkRefs (rQueue r0) refs' = Ok tt).
  { apply checkRefs_ok. intros r Hr. destruct (hd_queue _ _ _ H r (Hin r Hr)) as [[Hv _] Hs]. split; [done|].
    apply SameLogicalQueue_spec in Hs as (? & ? & ? & ?). apply SameLogicalQueue_spec in Hs0 as (? & ? & ? & ?). apply bool_decide_eq_true_2. congruence. }
  assert (Hids : map rTicketID refs' ≡ₚ mTicketIDs m).
  { rewrite <- (hd_ids _ _ _ H). change (rTicketID <$> refs' ≡ₚ rTicketID <$> refs). by rewrite Hp. }
  pose proof (hd_at _ _ _ H r0 (Hin r0 Hr0)) as Hm. unfold oldState in Hm. destruct (items W !! QueueKey (rQueue r0)) as [v|] eqn:Hv; [|done]. cbn in Hm.
  pose proof (ginv_old W _ I Hq0) as Hw. unfold oldState in Hw. rewrite Hv in Hw. cbn in Hw. destruct (w_match _ _ Hw _ m Hm) as [_ Hok].
  assert (Hset : checkTicketSet (map rTicketID refs') (rQueue r0) = Ok tt).
  { apply checkTicketSet_ok. split_and!.
    - unfold zlen. rewrite (Permutation_length Hids). apply (mo_size _ _ Hok).
    - unfold zlen. rewrite (Permutation_length Hids). apply (mo_size _ _ Hok).
    - rewrite Hids. intros Hi. apply (gi_named W I). eapply (gi_known W I m); [|done]. by eapply (gi_stored W I).
    - rewrite Hids. apply (mo_ids _ _ Hok). }
  unfold CommitAcross. rewrite Er, <- Er, Hc, Hset.
  assert (Hf : Forall (λ r, is_i64 (qFillAfterSeconds (rQueue r))) refs').
  { apply Forall_forall. intros r Hr. by destruct (hd_queue _ _ _ H r (Hin r Hr)) as [[_ ?] _]. }
  destruct (partitions_ready refs' r0 Hr0 Hc Hf) as (Hn & Hqs & Hne & Hpin & _).
  pose proof (repeat_across W I m refs H cfg now Hlive id (rQueue r0) refs' ltac:(by rewrite Er) Hp (keys_nodup _ Hn Hqs)) as Hacross.
  destruct (partitionsOf refs') as [|q [|q' l']] eqn:Ep; [done| |done]. apply Forall_cons in Hqs as [[Hvq _] _]. unfold Commit. rewrite Hvq.
  assert (Eq : q = rQueue r0).
  { assert (Hq : rQueue r0 ∈ [q]) by (apply Hpin, list_elem_of_fmap; by exists r0). by apply list_elem_of_singleton in Hq. }
  rewrite Eq, Hset. apply repeat_one with refs; try done; [by rewrite Er|].
  rewrite map_map, <- Hp. rewrite <- (map_id refs') at 2. erewrite map_ext_in; [done|]. intros r Hr%list_elem_of_In.
  assert (Hrq : rQueue r ∈ [q]) by (apply Hpin, list_elem_of_fmap; by exists r). apply list_elem_of_singleton in Hrq. rewrite <- Eq, <- Hrq. by destruct r.
Qed.

(** ** Over a run *)

(** A commit of the references [refs]. *)
Definition mm_names (op : MmOp) (refs : list TicketRef) : Prop :=
  match op with
  | MmCommitAcross refs' => refs' = refs
  | MmCommit q ids => map (mkRef q) ids = refs
  | _ => False
  end.

(** Steps at clock readings that [m] outlives. *)
Inductive mm_within (cfg : Config) (m : Match) : MmWorld → MmWorld → Prop :=
| within_refl W : mm_within cfg m W W
| within_step W1 W2 W3 now op r : mm_within cfg m W1 W2 → mm_step cfg now op W2 r W3 → cutoff cfg now < mCreatedAtUnix m → mm_within cfg m W1 W3.

Lemma exec_names cfg now id op refs its : mm_names op refs → refs ≠ [] →
  exec cfg now id op its = answer AMatch (CommitAcross cfg now id refs its).
Proof.
  destruct op; cbn [mm_names exec]; try done; intros <- Hne; [|done]. f_equal. apply commit_is_across. by destruct ticketIDs.
Qed.

Lemma commit_nothing cfg now id q its its' m : Commit cfg now id q [] its ≠ (its', Ok m).
Proof.
  unfold Commit. destruct (QueueValidate q) as [[]|] eqn:Hv; [|done]. destruct (checkTicketSet [] q) as [[]|] eqn:Hs; [|done].
  apply checkTicketSet_ok in Hs as (Hs & _). change (zlen []) with 0 in Hs. unfold QueueValidate, MinGroupSize, Flexible in *. 
  repeat case_match; to_prop; simplify_eq; lia.
Qed.

Lemma step_held cfg now op refs W m W' : ginv W → mm_names op refs → mm_step cfg now op W (Ok (AMatch m)) W' →
  committed W' = committed W ++ [m] → held (items W') m refs.
Proof.
  intros I Hop Hs Hc. inversion Hs as [id W0 Hok Hid Hne]; subst. cbn [committed items] in *. apply app_inv_head in Hc.
  match goal with H : snd (exec _ _ _ _ _) = _ |- _ => rename H into Hr end. rewrite Hr in Hc.
  assert (Hm : mID m = id) by (cbn in Hc; by case_bool_decide).
  assert (Hrefs : refs ≠ []).
  { intros ->. destruct op; cbn [mm_names exec] in *; try done.
    - assert (ticketIDs = []) as -> by (by destruct ticketIDs). destruct (Commit _ _ _ _ _ _) as [its' [m'|]] eqn:HC; [|done].
      by apply (commit_nothing _ _ _ _ _ _ _ HC).
    - by subst. }
  rewrite (exec_names cfg now id op refs) in Hr |- * by done. unfold answer in *. cbn [fst snd] in *.
  destruct (CommitAcross _ _ _ _ _) as [its' [m'|]] eqn:HC; [|done]. cbn in Hr. injection Hr as ->. cbn [fst].
  eapply commitAcross_formed; try done. destruct op; cbn [mm_names op_ok] in *; try done; subst; try done.
  apply Forall_forall. intros r (i & -> & _)%list_elem_of_fmap. done.
Qed.

Lemma within_held cfg m W W' refs : mm_within cfg m W W' → ginv W → held (items W) m refs → ginv W' ∧ held (items W') m refs.
Proof.
  induction 1 as [|W1 W2 W3 now op r _ IH Hs Hlive]; intros I H; [done|]. destruct (IH I H) as [I2 H2]. split; [by eapply step_ginv|].
  inversion Hs as [id W0 Hok Hid Hne]; subst. cbn [items]. destruct (exec_step W2 id cfg now op I2 Hid Hok) as (home & news & Ch & _).
  destruct H2. split; try done. intros r Hr. apply (ch_keep _ _ _ _ _ _ _ _ Ch); [by apply hd_at0|done].
Qed.

(** C13. The set of tickets is the identity of a commit: after a commit, on one
    partition or across several, formed the match [m], a commit of the same
    tickets in any order answers [m], changes nothing and forms no match,
    whatever ran in between, as long as no clock reading reached the end of
    the match's retention. *)
Theorem commit_replay (cfg : Config) (W0 W1 W2 W3 : MmWorld) now op refs m now' op' refs' r :
  mm_reachable cfg W0 → mm_names op refs → mm_step cfg now op W0 (Ok (AMatch m)) W1 → committed W1 = committed W0 ++ [m] →
  mm_within cfg m W1 W2 → mm_names op' refs' → refs' ≡ₚ refs → cutoff cfg now' < mCreatedAtUnix m → mm_step cfg now' op' W2 r W3 →
  r = Ok (AMatch m) ∧ items W3 = items W2 ∧ committed W3 = committed W2.
Proof.
  intros I%reachable_ginv Hop Hs Hc Hwi Hop' Hp Hlive Hs'. pose proof (step_held cfg now op refs W0 m W1 I Hop Hs Hc) as H1.
  destruct (within_held cfg m W1 W2 refs Hwi (step_ginv cfg now op W0 _ W1 I Hs) H1) as [I2 H2].
  inversion Hs' as [id W Hok Hid Hne]; subst. assert (Hrefs : refs' ≠ []) by (intros ->; apply Permutation_nil_l in Hp; by pose proof (hd_some _ _ _ H2)).
  rewrite (exec_names cfg now' id op' refs') by done. rewrite (repeat_commit W2 m refs) by done. unfold answer. cbn [fst snd items committed].
  split_and!; [done..|]. cbn [formed]. rewrite bool_decide_eq_false_2; [by rewrite app_nil_r|]. intros E. apply Hid. rewrite <- E.
  destruct refs as [|r0 l]; [by pose proof (hd_some _ _ _ H2)|]. eapply (old_match W2 (rQueue r0)); [done|]. apply (hd_at _ _ _ H2). left.
Qed.

Example commit_replay_witness :
  snd (exec duelCfg (13 * second) [4] (MmCommit duel [[2]; [1]]) (items duelMatched)) = Ok (AMatch duelMatch).
Proof.
  apply (commit_replay duelCfg duelWaiting duelMatched duelMatched (mm_do_one duelCfg duelMatched (13 * second, [4], MmCommit duel [[2]; [1]]))
    (12 * second) (MmCommit duel [[1]; [2]]) [mkRef duel [1]; mkRef duel [2]] duelMatch (13 * second) (MmCommit duel [[2]; [1]]) [mkRef duel [2]; mkRef duel [1]]).
  - apply duelWaiting_reachable.
  - done.
  - apply do_one_step; [apply duel_ok|cbn [duelWaiting mm_do_one minted]; set_solver|done|reflexivity].
  - reflexivity.
  - constructor.
  - done.
  - apply Permutation_swap.
  - reflexivity.
  - apply do_one_step; [apply duel_ok|cbn [duelMatched duelWaiting mm_do_one minted]; set_solver|done|reflexivity].
Defined.

(** ** Candidates *)

Lemma liveWaiting_spec q now s : core q s →
  NoDup (tID <$> liveWaiting now s) ∧
  ∀ t, t ∈ liveWaiting now s → Tickets s !! tID t = Some t ∧ tState t = TicketWaiting ∧ Expired t now = false.
Proof.
  intros C. unfold liveWaiting. set (f := λ id, match Tickets s !! id with Some _ => _ | None => _ end).
  assert (Hf : ∀ id t, f id = Some t → tID t = id ∧ Tickets s !! id = Some t ∧ tState t = TicketWaiting ∧ Expired t now = false).
  { intros id t. unfold f. destruct (Tickets s !! id) as [t'|] eqn:Ht; [|done]. case_bool_decide; cbn [andb]; [|done].
    destruct (Expired t' now) eqn:He; [done|]. intros [= <-]. by destruct (c_id _ _ C id t' Ht). }
  split.
  - pose proof (c_nodup _ _ C) as Hn. induction (Waiting s) as [|id l IH]; [constructor|]. apply NoDup_cons in Hn as [Hid Hn]. cbn.
    destruct (f id) as [t|] eqn:Ht; [|by apply IH]. cbn. apply NoDup_cons. split; [|by apply IH].
    intros (t' & E & Ht')%list_elem_of_fmap. apply list_elem_of_omap in Ht' as (id' & Hid' & Ht'). apply Hf in Ht as [Ht _], Ht' as [Ht' _]. congruence.
  - intros t (id & _ & Ht)%list_elem_of_omap. apply Hf in Ht as (<- & ?). done.
Qed.

Lemma sublist_ztake {A} n (l : list A) : sublist (ztake n l) l.
Proof. apply sublist_take. Qed.

Lemma sublist_List_filter {A} (f : A → bool) (l : list A) : sublist (List.filter f l) l.
Proof. induction l as [|x l IH]; [constructor|]. cbn. destruct (f x); by constructor. Qed.

(** What [Candidates] answers in a reachable world. *)
Lemma candidates_spec W q now limit cands : ginv W → queue_ok q → Candidates now q limit (items W) = Ok cands →
  NoDup (tID <$> cands) ∧ ∀ t, t ∈ cands →
    Tickets (oldState (items W) (QueueKey q)) !! tID t = Some t ∧ tState t = TicketWaiting ∧ Expired t now = false ∧ tQueue t = q.
Proof.
  intros I Hq. unfold Candidates. destruct Hq as [Hv Hf]. rewrite Hv. destruct (negb _); [done|]. pose proof (w_core _ _ (ginv_old W q I (conj Hv Hf))) as C.
  unfold stateOf, oldState in *. destruct (items W !! QueueKey q) as [v|]; cbn in *; [|intros [= <-]; split; [constructor|by intros t ?%elem_of_nil]].
  destruct (liveWaiting_spec q now (vValue v) C) as [Hn Hl]. intros [= <-]. set (l := List.filter _ _).
  assert (Hs : sublist (ztake limit l) (liveWaiting now (vValue v))) by (etransitivity; [apply sublist_ztake|apply sublist_List_filter]).
  split; [eapply sublist_NoDup; [exact Hn|by apply fmap_sublist]|]. intros t Ht.
  assert (Hin : t ∈ l) by (by eapply subseteq_take).
  apply list_elem_of_In, filter_In in Hin as [Hin Hb]. apply bool_decide_eq_true in Hb. apply list_elem_of_In in Hin. destruct (Hl t Hin) as (? & ? & ?). done.
Qed.

(** ** Accepting a group *)

Lemma replayOf_waiting matches v t views : vTicket v = Some t → tState t = TicketWaiting → replayOf matches (v :: views) = None.
Proof. unfold replayOf. by intros -> ->. Qed.

Lemma commit_accepts W id cfg now q g : ginv W → queue_ok q → id ∉ minted W →
  g ≠ [] → NoDup (tID <$> g) →
  (∀ t, t ∈ g → Tickets (oldState (items W) (QueueKey q)) !! tID t = Some t ∧ tState t = TicketWaiting ∧ Expired t now = false ∧ tQueue t = q) →
  MinGroupSize q ≤ zlen g ≤ qGroupSize q → FormableSize q (zlen g) (waitedSeconds (oldestOf MaxInt64 g) (Unix now)) = zlen g →
  ∃ its', Commit cfg now id q (tID <$> g) (items W) = (its', Ok (mkMatch id q (tSubject <$> g) (tID <$> g) [] (Unix now))).
Proof.
  intros I Hq Hid Hne Hn Hg Hsize Hready. pose proof Hq as [Hv Hf].
  assert (Hlen : zlen (tID <$> g) = zlen g) by (unfold zlen; by rewrite length_fmap).
  unfold Commit. rewrite Hv. replace (checkTicketSet (tID <$> g) q) with (@Ok MatchErr unit tt).
  2:{ symmetry. apply checkTicketSet_ok. rewrite Hlen. split_and!; [lia..| |done]. intros (t & E & Ht)%list_elem_of_fmap.
      destruct (Hg t Ht) as ((v & Hv' & Htv)%old_ticket & _). apply (gi_named W I). rewrite E. by eapply (gi_ticket W I). }
  pose proof (expireLocked_refreshed q cfg _ now (ginv_old W q I Hq)) as F. set (s := expireLocked cfg _ now) in F.
  assert (Hs : ∀ t, t ∈ g → Tickets s !! tID t = Some t) by (intros t Ht; destruct (Hg t Ht) as (? & ? & ? & _); by apply (rf_waiting _ _ _ _ _ F)).
  assert (Hvs : Forall2 viewed (viewsOf s q (tID <$> g)) g).
  { unfold viewsOf. change (map ?f ?l) with (fmap (M:=list) f l). rewrite <- list_fmap_compose. apply Forall2_fmap_l, Forall_Forall2_diag, Forall_forall.
    intros t Ht. destruct (Hg t Ht) as (_ & ? & _ & ?). split_and!; [by apply Hs|done..]. }
  rewrite Update_eq. unfold commitMutate. fold s.
  replace (memFound (items W !! QueueKey q)) with true.
  2:{ destruct g as [|t g']; [done|]. destruct (Hg t ltac:(left)) as ((v & -> & _)%old_ticket & _). done. }
  cbn [negb]. replace (replayOf (Matches s) (viewsOf s q (tID <$> g))) with (@None Match).
  2:{ destruct g as [|t g']; [done|]. symmetry. apply (replayOf_waiting _ _ t); [by apply Hs; left|]. by apply Hg; left. }
  replace (checkViews _ [] [] MaxInt64) with (@Ok MatchErr _ (tSubject <$> g, oldestOf MaxInt64 g)).
  2:{ symmetry. apply checkViews_ok. exists g. split_and!; try done; [|by intros k _ ?%elem_of_nil]. apply NoDup_fmap_2_strong; [|by apply NoDup_fmap_1 in Hn].
      intros t t' Ht Ht' E. pose proof (w_core _ _ (rf_wf _ _ _ _ _ F)) as C.
      assert (H1 : SubjectTickets s !! SubjectKey (tSubject t) = Some (tID t)) by (apply (c_subject _ _ C); exists t; split_and!; [by apply Hs|by apply Hg|done]).
      assert (H2 : SubjectTickets s !! SubjectKey (tSubject t) = Some (tID t')) by (apply (c_subject _ _ C); exists t'; split_and!; [by apply Hs|by apply Hg|done]).
      pose proof (Hs t Ht). pose proof (Hs t' Ht'). congruence. }
  unfold checkGroupReady. rewrite Hlen, Hready, Z.eqb_refl. cbn [negb]. by eexists.
Qed.

(** ** Sizes and waiting times *)

Lemma oldestOf_le g : ∀ o, oldestOf o g ≤ o ∧ (∀ t, t ∈ g → oldestOf o g ≤ tCreatedAtUnix t) ∧ (oldestOf o g = o ∨ ∃ t, t ∈ g ∧ oldestOf o g = tCreatedAtUnix t).
Proof.
  induction g as [|t g IH]; intros o; cbn [oldestOf foldl].
  - split_and!; [lia|by intros t ?%elem_of_nil|by left].
  - fold (oldestOf (Z.min o (tCreatedAtUnix t)) g). destruct (IH (Z.min o (tCreatedAtUnix t))) as (H1 & H2 & H3). split_and!; [lia| |].
    + intros t' [->|Ht]%elem_of_cons; [lia|by apply H2].
    + destruct H3 as [->|(t' & Ht' & ->)]; [|right; exists t'; split; [by right|done]].
      destruct (Z.le_gt_cases o (tCreatedAtUnix t)); [left; lia|right; exists t; split; [by left|lia]].
Qed.

Lemma waitedSeconds_mono c o now : o ≤ c → is_i64 (now - o) → waitedSeconds c now ≤ waitedSeconds o now.
Proof.
  intros Hle Ho. unfold waitedSeconds. unfold is_i64 in Ho. destruct (Z.leb_spec now c), (Z.leb_spec now o); try lia.
  - rewrite i64_small by (unfold_int; lia). lia.
  - rewrite !i64_small by (unfold_int; lia). lia.
Qed.

(** The group taken from [l] for the wait of its member [a] is accepted for
    the wait of its oldest. *)
Lemma ready_group q now l a size : QueueValidate q = Ok tt → a ∈ l →
  (∀ t, t ∈ l → is_i64 (tCreatedAtUnix t) ∧ is_i64 (now - tCreatedAtUnix t)) →
  size = FormableSize q (zlen l) (waitedSeconds (tCreatedAtUnix a) now) → size ≠ 0 →
  let g := ztake size l in
  zlen g = size ∧ MinGroupSize q ≤ zlen g ≤ qGroupSize q ∧ FormableSize q (zlen g) (waitedSeconds (oldestOf MaxInt64 g) now) = zlen g.
Proof.
  intros Hv Ha Hr Hs Hnz g. assert (Hnz' : FormableSize q (zlen l) (waitedSeconds (tCreatedAtUnix a) now) ≠ 0) by congruence.
  destruct (FormableSize_range q _ _ Hv Hnz') as [Hsz Hle]. rewrite <- Hs in Hsz, Hle.
  assert (Hmin : 0 ≤ MinGroupSize q) by (unfold QueueValidate, MinGroupSize, Flexible in *; repeat case_match; to_prop; simplify_eq; lia).
  assert (Hg : zlen g = size) by (apply zlen_ztake; lia). split; [done|]. rewrite Hg. split; [done|].
  unfold FormableSize in Hs |- *. destruct (Z.leb_spec (qGroupSize q) (zlen l)) as [Hfull|Hpart]; [rewrite Hs, Z.leb_refl; done|].
  destruct (negb (Flexible q) || (zlen l <? qMinSize q)) eqn:Hm; [cbn [orb] in Hs; lia|]. cbn [orb] in Hs.
  destruct (Z.ltb_spec (waitedSeconds (tCreatedAtUnix a) now) (qFillAfterSeconds q)) as [|Hw]; [lia|].
  assert (Eg : g = l) by (apply ztake_all; lia). rewrite Eg. destruct (Z.leb_spec (qGroupSize q) size); [lia|].
  rewrite Hs, Hm. cbn [orb]. destruct (oldestOf_le l MaxInt64) as (H1 & H2 & H3).
  assert (Hio : is_i64 (now - oldestOf MaxInt64 l)).
  { destruct H3 as [E|(t & Ht & ->)]; [|by apply Hr]. destruct (Hr a Ha) as [Hia Hd]. specialize (H2 a Ha). unfold is_i64, MaxInt64 in *.
    assert (tCreatedAtUnix a = oldestOf (2^63 - 1) l) as <- by lia. done. }
  pose proof (waitedSeconds_mono (tCreatedAtUnix a) _ now (H2 a Ha) Hio). destruct (Z.ltb_spec (waitedSeconds (oldestOf MaxInt64 l) now) (qFillAfterSeconds q)); lia.
Qed.

Lemma window_nonneg g waited : 0 ≤ window g waited.
Proof.
  unfold window. pose proof (u64_range (InitialWindow g)). pose proof (u64_range (MaxWindow g)).
  repeat match goal with |- context [u64 ?x] => lazymatch x with InitialWindow _ => fail | MaxWindow _ => fail | _ => pose proof (u64_range x); generalize dependent (u64 x); intros end end.
  unfold MaxUint64. repeat case_match; unfold_int; lia.
Qed.

Lemma ScoreWindowGroup_inv sw now q cands g : ScoreWindowGroup sw (Some now) q cands = Ok (Some g) →
  ∃ a within size, a ∈ within ∧ sublist within cands ∧ size = FormableSize q (zlen within) (waitedSeconds (tCreatedAtUnix a) now) ∧ size ≠ 0 ∧
    g = ztake size (SliceStable (closer a) within).
Proof.
  unfold ScoreWindowGroup. destruct (QueueValidate q) as [[]|]; [|done]. destruct (_ || _); [done|]. destruct (_ <? _); [done|].
  destruct cands as [|a l] eqn:E; [done|]. rewrite <- E. set (win := window _ _). set (within := List.filter _ cands).
  destruct (Z.eqb_spec (FormableSize q (zlen within) (waitedSeconds (tCreatedAtUnix a) now)) 0) as [|Hnz]; [done|]. intros [= <-].
  exists a, within, (FormableSize q (zlen within) (waitedSeconds (tCreatedAtUnix a) now)). split_and!; try done.
  - apply list_elem_of_In, filter_In. split; [rewrite E; by left|]. unfold scoreDistance. rewrite Z.leb_refl, Z.sub_diag. change (u64 0) with 0.
    apply Z.leb_le, window_nonneg.
  - apply sublist_List_filter.
Qed.

Lemma FirstComeGroup_inv clock now q cands g : clock = None ∨ clock = Some now → FirstComeGroup clock q cands = Ok (Some g) → QueueValidate q = Ok tt →
  ∃ a size, a ∈ cands ∧ size = FormableSize q (zlen cands) (waitedSeconds (tCreatedAtUnix a) now) ∧ size ≠ 0 ∧ g = ztake size cands.
Proof.
  intros Hc. unfold FirstComeGroup. destruct (QueueValidate q) as [[]|] eqn:Hv; [|done]. intros HG _.
  assert (H2 : 2 ≤ qGroupSize q) by (unfold QueueValidate in Hv; repeat case_match; to_prop; simplify_eq; lia).
  destruct (negb (Flexible q)) eqn:Hf.
  - destruct (Z.ltb_spec (zlen cands) (qGroupSize q)); [done|]. injection HG as <-. destruct cands as [|a l]; [change (zlen []) with 0 in *; lia|].
    exists a, (qGroupSize q). split_and!; [by left| |lia|done]. unfold FormableSize. destruct (Z.leb_spec (qGroupSize q) (zlen (a :: l))); [done|lia].
  - destruct Hc as [->| ->]; [done|]. destruct cands as [|a l]; [done|]. cbn zeta in HG.
    destruct (Z.eqb_spec (FormableSize q (zlen (a :: l)) (waitedSeconds (tCreatedAtUnix a) now)) 0) as [|Hnz]; [done|]. injection HG as <-.
    exists a, (FormableSize q (zlen (a :: l)) (waitedSeconds (tCreatedAtUnix a) now)). split_and!; [by left|done..].
Qed.

(** C25. A policy and the store agree: in every reachable world, a group that
    first-come or score-window grouping chooses from the candidates of a
    partition is accepted by a commit at the same clock reading, full or short
    of the group size, and becomes a match of exactly those tickets and
    subjects in the policy's order. *)
Theorem group_accepted (cfg : Config) (W : MmWorld) (now : Z) (id : bytes) (q : Queue) (limit : Z) (cands g : list Ticket) :
  mm_reachable cfg W → queue_ok q → id ∉ minted W →
  Candidates now q limit (items W) = Ok cands →
  (∀ t, t ∈ cands → is_i64 (tCreatedAtUnix t) ∧ is_i64 (Unix now - tCreatedAtUnix t)) →
  (∃ clock, (clock = None ∨ clock = Some (Unix now)) ∧ FirstComeGroup clock q cands = Ok (Some g)) ∨
  (∃ sw, ScoreWindowGroup sw (Some (Unix now)) q cands = Ok (Some g)) →
  ∃ its', Commit cfg now id q (tID <$> g) (items W) = (its', Ok (mkMatch id q (tSubject <$> g) (tID <$> g) [] (Unix now))).
Proof.
  intros I%reachable_ginv Hq Hid Hc Hr HG. destruct (candidates_spec W q now limit cands I Hq Hc) as [Hn Hin].
  assert (Hpick : ∃ a l size, a ∈ l ∧ (∀ t, t ∈ l → t ∈ cands) ∧ NoDup (tID <$> l) ∧
    size = FormableSize q (zlen l) (waitedSeconds (tCreatedAtUnix a) (Unix now)) ∧ size ≠ 0 ∧ g = ztake size l).
  { destruct HG as [(clock & Hclock & HG)|(sw & HG)].
    - destruct (FirstComeGroup_inv clock (Unix now) q cands g Hclock HG (proj1 Hq)) as (a & size & ? & ? & ? & ?). by exists a, cands, size.
    - destruct (ScoreWindowGroup_inv sw (Unix now) q cands g HG) as (a & within & size & Ha & Hsub & Hs & Hnz & ->).
      pose proof (SliceStable_perm (closer a) within) as Hp. exists a, (SliceStable (closer a) within), size. split_and!; try done.
      + by rewrite Hp.
      + intros t. rewrite Hp. intros Ht. apply (sublist_subseteq _ _ Hsub), Ht.
      + rewrite Hp. eapply sublist_NoDup; [exact Hn|by apply fmap_sublist].
      + unfold zlen in *. by rewrite (Permutation_length Hp). }
  destruct Hpick as (a & l & size & Ha & Hl & Hnl & Hs & Hnz & ->).
  destruct (ready_group q (Unix now) l a size (proj1 Hq) Ha) as (Hg & Hsz & Hready); [by auto|done..|].
  apply commit_accepts; try done.
  - intros E. rewrite E in Hg. change (zlen []) with 0 in Hg. congruence.
  - eapply sublist_NoDup; [exact Hnl|]. apply fmap_sublist, sublist_ztake.
  - intros t Ht. apply Hin, Hl. by eapply subseteq_take.
Qed.

Example group_accepted_witness : ∃ its', Commit duelCfg (12 * second) [3] duel [[1]; [2]] (items duelWaiting) = (its', Ok duelMatch).
Proof.
  set (t1 := mkTicket [1] duel alice TicketWaiting [] [] 10 70 0). set (t2 := mkTicket [2] duel bob TicketWaiting [] [] 11 71 0).
  apply (group_accepted duelCfg duelWaiting (12 * second) [3] duel 10 [t1; t2] [t1; t2]).
  - apply duelWaiting_reachable.
  - apply duel_ok.
  - cbn [duelWaiting mm_do_one minted]. set_solver.
  - reflexivity.
  - intros t [->|[->|?%elem_of_nil]%elem_of_cons]%elem_of_cons; [..|done]; unfold is_i64; vm_compute; by split.
  - left. exists None. split; [by left|reflexivity].
Defined.

(** ** The score window *)

(** The distance of two scores, on integers that do not wrap. *)
Definition apart (a t : Ticket) : Z := Z.abs (sScore (tSubject t) - sScore (tSubject a)).

Lemma closer_spec a t t' : is_i64 (sScore (tSubject a)) → is_i64 (sScore (tSubject t)) → is_i64 (sScore (tSubject t')) →
  closer a t t' = true ↔ apart a t < apart a t' ∨ apart a t = apart a t' ∧ tCreatedAtUnix t < tCreatedAtUnix t'.
Proof.
  intros. unfold closer. rewrite !scoreDistance_abs by done. fold (apart a t) (apart a t').
  destruct (Z.eqb_spec (apart a t) (apart a t')); cbn [negb]; rewrite Z.ltb_lt; lia.
Qed.

Lemma closer_asym a x y : closer a x y = true → closer a y x = false.
Proof.
  unfold closer. generalize (scoreDistance (sScore (tSubject x)) (sScore (tSubject a))), (scoreDistance (sScore (tSubject y)) (sScore (tSubject a))). intros d e.
  destruct (Z.eqb_spec d e), (Z.eqb_spec e d); cbn [negb]; lia.
Qed.

Lemma closer_trans a x y z : closer a y x = false → closer a z y = false → closer a z x = false.
Proof.
  unfold closer. generalize (scoreDistance (sScore (tSubject x)) (sScore (tSubject a))), (scoreDistance (sScore (tSubject y)) (sScore (tSubject a))),
    (scoreDistance (sScore (tSubject z)) (sScore (tSubject a))). intros d e f.
  destruct (Z.eqb_spec e d), (Z.eqb_spec f e), (Z.eqb_spec f d); cbn [negb]; lia.
Qed.

(** C26. Score-window grouping means what its integers mean: on any scores and
    any non-negative window parameters, at the ends of their width too, the
    group holds only candidates within the widened window of the oldest one,
    the window saturating instead of wrapping, and no candidate left out of
    it within the window is nearer than one taken. *)
Theorem score_window_closest (sw : ScoreWindow) (now : Z) (q : Queue) (a : Ticket) (l g : list Ticket) :
  InitialWindow sw < 2^63 → WidenPerSecond sw < 2^63 → MaxWindow sw < 2^63 →
  (∀ t, t ∈ a :: l → is_i64 (sScore (tSubject t))) → is_i64 (now - tCreatedAtUnix a) →
  ScoreWindowGroup sw (Some now) q (a :: l) = Ok (Some g) →
  let win := windowAfter sw (Z.max 0 (now - tCreatedAtUnix a)) in
  (∀ t, t ∈ g → t ∈ a :: l ∧ apart a t ≤ win) ∧
  (∀ t t', t ∈ g → t' ∈ a :: l → apart a t' ≤ win → t' ∉ g → apart a t ≤ apart a t').
Proof.
  intros Hi Hw Hm Hsc Hd HG win. unfold ScoreWindowGroup in HG. destruct (QueueValidate q) as [[]|]; [|done].
  destruct (Z.ltb_spec (InitialWindow sw) 0), (Z.ltb_spec (WidenPerSecond sw) 0), (Z.ltb_spec (MaxWindow sw) 0); cbn [orb] in HG; try done.
  destruct (_ <? MinGroupSize q); [done|]. cbn zeta in HG.
  assert (Hwait : u64 (waitedSeconds (tCreatedAtUnix a) now) = Z.max 0 (now - tCreatedAtUnix a)).
  { unfold waitedSeconds. unfold is_i64 in Hd. destruct (Z.leb_spec now (tCreatedAtUnix a)); [by rewrite u64_small by (unfold_int; lia); lia|].
    rewrite i64_small, u64_small by (unfold_int; lia). lia. }
  rewrite Hwait, window_saturates in HG by (unfold is_i64 in Hd; lia). fold win in HG.
  set (within := List.filter _ _) in HG. assert (Ha : is_i64 (sScore (tSubject a))) by (apply Hsc; left).
  assert (Hin : ∀ t, t ∈ within ↔ t ∈ a :: l ∧ apart a t ≤ win).
  { intros t. rewrite list_elem_of_In. unfold within. rewrite filter_In, <- list_elem_of_In, Z.leb_le. split; intros [Ht ?]; (split; [done|]);
      rewrite scoreDistance_abs in * by (done || by apply Hsc); done. }
  destruct (FormableSize _ _ _ =? 0); [done|]. injection HG as <-. pose proof (SliceStable_perm (closer a) within) as Hp.
  assert (Hg : ∀ n t, t ∈ ztake n (SliceStable (closer a) within) → t ∈ within) by (intros n t Ht; rewrite <- Hp; by eapply subseteq_take).
  split; [intros t Ht; by eapply Hin, Hg|]. intros t t' Ht Ht' Hw' Hno. pose proof (proj1 (Hin t) (Hg _ t Ht)) as [Htl _].
  assert (Hb : closer a t' t = false).
  { eapply (ztake_before _ _ _ t t' (SliceStable_sorted (closer a) (closer_asym a) (closer_trans a) within)); [done| |done]. rewrite Hp. by apply Hin. }
  pose proof (closer_spec a t' t Ha (Hsc t' Ht') (Hsc t Htl)) as Hc. rewrite Hb in Hc. destruct (Z.le_gt_cases (apart a t) (apart a t')); [done|].
  exfalso. assert (false = true); [|done]. apply Hc. left. lia.
Qed.

Example score_window_closest_witness :
  let a := mkTicket [1] duel (mkSubject (str "p"%string) 1 (-2^63) []) TicketWaiting [] [] 10 70 0 in
  let b := mkTicket [2] duel (mkSubject (str "p"%string) 2 (2^63 - 1) []) TicketWaiting [] [] 10 70 0 in
  let c := mkTicket [3] duel (mkSubject (str "p"%string) 3 (5 - 2^63) []) TicketWaiting [] [] 10 70 0 in
  apart a c ≤ apart a b.
Proof.
  intros a b c. set (sw := mkScoreWindow (2^63 - 1) (2^63 - 1) 0).
  apply (score_window_closest sw 13 duel a [b; c] [a; c]); try done.
  - intros t [->|[->|[->|?%elem_of_nil]%elem_of_cons]%elem_of_cons]%elem_of_cons; [..|done]; unfold is_i64; cbn; lia.
  - right. left.
  - right. left.
  - intros [E|[E|?%elem_of_nil]%elem_of_cons]%elem_of_cons; [..|done]; by injection E.
Defined.
