(* ===== verification/MailBox.v ===== *)
(** * Mail: envelopes and one player's mailbox (service/mail/types.go, mailbox.go, broadcast.go)

    A mailbox is one versioned value; every operation of the service changes
    it by one function of the state, modelled here.  Times are Unix seconds.
    Loops over Go maps visit the keys in the order [mkeys], which no result
    depends on. *)

From S2P Require Import Prelude Bytes GoStr.

(** ** Errors and bounds *)

Inductive MailErr : Type :=
| ErrMailInvalid | ErrMailMissing | ErrBodyInvalid | ErrAudienceInvalid | ErrNotRecipient | ErrMailExpired | ErrNoAttachment
| ErrAlreadyClaimed | ErrClaimHeld | ErrClaimTokenWrong | ErrMailboxFull | ErrClaimHistoryFull | ErrBroadcastFull
| ErrRangeInvalid | ErrRequestInvalid | ErrMailConflict.
#[export] Instance MailErr_eq_dec : EqDecision MailErr.
Proof. solve_decision. Defined.

Definition MaxPageSize : Z := 100.
Definition DefaultPageSize : Z := 20.
Definition MaxMailboxEntries : Z := 200.
Definition MaxSettledClaims : Z := 200.
Definition MaxSubjectBytes : Z := 256.
Definition MaxBodyBytes : Z := 4096.
Definition MaxAttachmentBytes : Z := 4096.
Definition MaxRecipients : Z := 200.

(** ** Envelopes *)

Inductive Audience : Type := AudienceDirect | AudienceBroadcast | AudienceOther (name : bytes).
#[export] Instance Audience_eq_dec : EqDecision Audience.
Proof. solve_decision. Defined.

Record Envelope := mkEnvelope {
  eID : bytes; eAudience : Audience; eScope : bytes; eRecipients : list Z;
  eSubject : bytes; eBody : bytes; eAttachment : bytes; eSendRequestID : bytes;
  eCreatedAtUnix : Z; eExpiresAtUnix : Z
}.
#[export] Instance Envelope_eq_dec : EqDecision Envelope.
Proof. solve_decision. Defined.

Definition HasAttachment (e : Envelope) : bool := 0 <? zlen (eAttachment e).
Definition EnvelopeExpired (e : Envelope) (nowUnix : Z) : bool := (0 <? eExpiresAtUnix e) && (eExpiresAtUnix e <=? nowUnix).

Definition Addresses (e : Envelope) (playerID : Z) (scope : bytes) : bool :=
  match eAudience e with
  | AudienceBroadcast => bool_decide (eScope e = []) || bool_decide (eScope e = scope)
  | _ => existsb (λ r, r =? playerID) (eRecipients e)
  end.

Definition validateAudience (e : Envelope) : result MailErr unit :=
  match eAudience e with
  | AudienceDirect =>
      if zlen (eRecipients e) =? 0 then Err ErrAudienceInvalid
      else if MaxRecipients <? zlen (eRecipients e) then Err ErrAudienceInvalid
      else if existsb (λ r, r <=? 0) (eRecipients e) then Err ErrAudienceInvalid
      else Ok tt
  | AudienceBroadcast => if 0 <? zlen (eRecipients e) then Err ErrAudienceInvalid else Ok tt
  | AudienceOther _ => Err ErrAudienceInvalid
  end.

Definition EnvelopeValidate (e : Envelope) : result MailErr unit :=
  if bool_decide (TrimSpace (eID e) = []) then Err ErrMailInvalid
  else
    match validateAudience e with
    | Err x => Err x
    | Ok _ =>
        if bool_decide (TrimSpace (eSubject e) = []) then Err ErrBodyInvalid
        else if MaxSubjectBytes <? zlen (eSubject e) then Err ErrBodyInvalid
        else if MaxBodyBytes <? zlen (eBody e) then Err ErrBodyInvalid
        else if MaxAttachmentBytes <? zlen (eAttachment e) then Err ErrBodyInvalid
        else if eExpiresAtUnix e <=? 0 then Err ErrMailInvalid
        else if (0 <? eCreatedAtUnix e) && (eExpiresAtUnix e <=? eCreatedAtUnix e) then Err ErrMailInvalid
        else Ok tt
    end.

(** ** Entries and mailboxes *)

Inductive Status : Type := StatusUnread | StatusRead | StatusClaimed | StatusDeleted.
#[export] Instance Status_eq_dec : EqDecision Status.
Proof. solve_decision. Defined.

Record Entry := mkEntry {
  enMailID : bytes; enStatus : Status; enEnvelopeExpiresAtUnix : Z; enGlobalID : Z;
  enClaimToken : bytes; enClaimDeadlineUnix : Z; enClaimEnvelopeExpiresAtUnix : Z; enClaimAttempts : Z;
  enDeliveredAtUnix : Z; enUpdatedAtUnix : Z
}.
#[export] Instance Entry_eq_dec : EqDecision Entry.
Proof. solve_decision. Defined.

Record SettledClaim := mkSettled { scDeleted : bool; scToken : bytes; scSettledAtUnix : Z; scEnvelopeExpiresAtUnix : Z }.
#[export] Instance SettledClaim_eq_dec : EqDecision SettledClaim.
Proof. solve_decision. Defined.

Record BroadcastProfile := mkProfile { bpScopes : list bytes; bpRegisteredAtUnix : Z; bpAttributes : gmap bytes Z }.

Record Mailbox := mkMailbox {
  PlayerID : Z; Entries : gmap bytes Entry; Unread : Z; SettledClaims : gmap bytes SettledClaim; Evicted : Z;
  BroadcastWatermark : Z; Profile : option BroadcastProfile; UpdatedAtUnix : Z
}.
Definition emptyBox : Mailbox := mkMailbox 0 ∅ 0 ∅ 0 0 None 0.

Definition set_Entries x m := mkMailbox (PlayerID m) x (Unread m) (SettledClaims m) (Evicted m) (BroadcastWatermark m) (Profile m) (UpdatedAtUnix m).
Definition set_Unread x m := mkMailbox (PlayerID m) (Entries m) (i32 x) (SettledClaims m) (Evicted m) (BroadcastWatermark m) (Profile m) (UpdatedAtUnix m).
Definition set_SettledClaims x m := mkMailbox (PlayerID m) (Entries m) (Unread m) x (Evicted m) (BroadcastWatermark m) (Profile m) (UpdatedAtUnix m).
Definition set_Evicted x m := mkMailbox (PlayerID m) (Entries m) (Unread m) (SettledClaims m) (u64 x) (BroadcastWatermark m) (Profile m) (UpdatedAtUnix m).
Definition set_Watermark x m := mkMailbox (PlayerID m) (Entries m) (Unread m) (SettledClaims m) (Evicted m) x (Profile m) (UpdatedAtUnix m).
Definition set_Profile x m := mkMailbox (PlayerID m) (Entries m) (Unread m) (SettledClaims m) (Evicted m) (BroadcastWatermark m) x (UpdatedAtUnix m).
Definition set_UpdatedAt x m := mkMailbox (PlayerID m) (Entries m) (Unread m) (SettledClaims m) (Evicted m) (BroadcastWatermark m) (Profile m) x.

(** [init] *)
Definition boxInit (playerID : Z) (m : Mailbox) : Mailbox :=
  mkMailbox playerID (Entries m) (Unread m) (SettledClaims m) (Evicted m) (BroadcastWatermark m) (Profile m) (UpdatedAtUnix m).

Definition en_status s e := mkEntry (enMailID e) s (enEnvelopeExpiresAtUnix e) (enGlobalID e) (enClaimToken e) (enClaimDeadlineUnix e)
  (enClaimEnvelopeExpiresAtUnix e) (enClaimAttempts e) (enDeliveredAtUnix e) (enUpdatedAtUnix e).
Definition en_expiry x e := mkEntry (enMailID e) (enStatus e) x (enGlobalID e) (enClaimToken e) (enClaimDeadlineUnix e)
  (enClaimEnvelopeExpiresAtUnix e) (enClaimAttempts e) (enDeliveredAtUnix e) (enUpdatedAtUnix e).
Definition en_global x e := mkEntry (enMailID e) (enStatus e) (enEnvelopeExpiresAtUnix e) x (enClaimToken e) (enClaimDeadlineUnix e)
  (enClaimEnvelopeExpiresAtUnix e) (enClaimAttempts e) (enDeliveredAtUnix e) (enUpdatedAtUnix e).
Definition en_deadline x e := mkEntry (enMailID e) (enStatus e) (enEnvelopeExpiresAtUnix e) (enGlobalID e) (enClaimToken e) x
  (enClaimEnvelopeExpiresAtUnix e) (enClaimAttempts e) (enDeliveredAtUnix e) (enUpdatedAtUnix e).
Definition en_updated x e := mkEntry (enMailID e) (enStatus e) (enEnvelopeExpiresAtUnix e) (enGlobalID e) (enClaimToken e) (enClaimDeadlineUnix e)
  (enClaimEnvelopeExpiresAtUnix e) (enClaimAttempts e) (enDeliveredAtUnix e) x.

Definition mkeys {A} (m : gmap bytes A) : list bytes := (map_to_list m).*1.

(** ** Expiry of entries *)

(** One round of the loop; the flag is [changed]. *)
Definition expireEntry (nowUnix : Z) (acc : Mailbox * bool) (id : bytes) : Mailbox * bool :=
  match Entries (fst acc) !! id with
  | None => acc
  | Some entry =>
      if (enEnvelopeExpiresAtUnix entry <=? 0) || (nowUnix <? enEnvelopeExpiresAtUnix entry) then acc
      else if negb (bool_decide (enClaimToken entry = [])) && negb (bool_decide (enStatus entry = StatusClaimed)) then acc
      else
        let m := fst acc in
        let m := if bool_decide (enStatus entry = StatusUnread) then set_Unread (Unread m - 1) m else m in
        let m := set_Entries (delete id (Entries m)) m in
        (set_Evicted (Evicted m + 1) m, true)
  end.

Definition expireEntries (nowUnix : Z) (m : Mailbox) : Mailbox * bool :=
  let '(m, changed) := foldl (expireEntry nowUnix) (m, false) (mkeys (Entries m)) in
  (if changed : bool then set_UpdatedAt nowUnix m else m, changed).

(** ** Statuses *)

Definition claimable (e : Entry) (nowUnix : Z) : result MailErr unit :=
  match enStatus e with
  | StatusClaimed => Err ErrAlreadyClaimed
  | StatusDeleted => Err ErrMailMissing
  | _ => if negb (bool_decide (enClaimToken e = [])) && (nowUnix <? enClaimDeadlineUnix e) then Err ErrClaimHeld else Ok tt
  end.

Definition setStatus (mailID : bytes) (next : Status) (nowUnix : Z) (m : Mailbox) : Mailbox * option Entry * bool :=
  match Entries m !! mailID with
  | None => (m, None, false)
  | Some entry =>
      if bool_decide (enStatus entry = next) then (m, Some entry, false)
      else
        let m := if bool_decide (enStatus entry = StatusUnread) then set_Unread (Unread m - 1) m else m in
        let m := if bool_decide (next = StatusUnread) then set_Unread (Unread m + 1) m else m in
        let entry := en_updated nowUnix (en_status next entry) in
        (set_UpdatedAt nowUnix (set_Entries (<[mailID := entry]> (Entries m)) m), Some entry, true)
  end.

(** ** Delivery and retention *)

Definition newEntry (mailID : bytes) (nowUnix : Z) : Entry := mkEntry mailID StatusUnread 0 0 [] 0 0 0 nowUnix nowUnix.

(** [deliver]: the entry, and whether it was added. *)
Definition boxDeliver (mailID : bytes) (nowUnix : Z) (m : Mailbox) : Mailbox * Entry * bool :=
  match SettledClaims m !! mailID with
  | Some settled =>
      (m, mkEntry mailID (if scDeleted settled then StatusDeleted else StatusClaimed) 0 0 (scToken settled) 0 0 0
            (scSettledAtUnix settled) (scSettledAtUnix settled), false)
  | None =>
      match Entries m !! mailID with
      | Some existing => (m, existing, false)
      | None =>
          let entry := newEntry mailID nowUnix in
          let m := set_Entries (<[mailID := entry]> (Entries m)) m in
          (set_UpdatedAt nowUnix (set_Unread (Unread m + 1) m), entry, true)
      end
  end.

Definition evictSettledClaim (nowUnix : Z) (m : Mailbox) (mailID : bytes) : Mailbox :=
  match SettledClaims m !! mailID with
  | Some settled =>
      if (0 <? scEnvelopeExpiresAtUnix settled) && (scEnvelopeExpiresAtUnix settled <=? nowUnix)
      then set_SettledClaims (delete mailID (SettledClaims m)) m else m
  | None => m
  end.
Definition evictSettledClaims (nowUnix : Z) (m : Mailbox) : Mailbox := foldl (evictSettledClaim nowUnix) m (mkeys (SettledClaims m)).

Definition entryCount (m : Mailbox) : Z := Z.of_nat (size (Entries m)).
Definition settledCount (m : Mailbox) : Z := Z.of_nat (size (SettledClaims m)).

Definition evictableStatus (s : Status) : bool := match s with StatusDeleted | StatusClaimed => true | _ => false end.
Definition evictable (m : Mailbox) : list Entry := List.filter (λ e, evictableStatus (enStatus e)) (map_to_list (Entries m)).*2.
Definition olderEntry (a b : Entry) : bool :=
  if enUpdatedAtUnix a =? enUpdatedAtUnix b then str_lt (enMailID a) (enMailID b) else enUpdatedAtUnix a <? enUpdatedAtUnix b.

(** One round: the entry leaves, its claim or deletion is remembered. *)
Definition evictEntry (nowUnix : Z) (m : Mailbox) (entry : Entry) : Mailbox :=
  if entryCount m <=? MaxMailboxEntries then m
  else
    let m := set_Entries (delete (enMailID entry) (Entries m)) m in
    let m :=
      if negb (bool_decide (enClaimToken entry = [])) || bool_decide (enStatus entry = StatusDeleted) then
        let expires := if enClaimEnvelopeExpiresAtUnix entry =? 0 then enEnvelopeExpiresAtUnix entry else enClaimEnvelopeExpiresAtUnix entry in
        let settled := mkSettled (bool_decide (enStatus entry = StatusDeleted) && bool_decide (enClaimToken entry = []))
                         (enClaimToken entry) nowUnix expires in
        set_SettledClaims (<[enMailID entry := settled]> (SettledClaims m)) m
      else m in
    set_UpdatedAt nowUnix (set_Evicted (Evicted m + 1) m).

Definition evict (nowUnix : Z) (m : Mailbox) : Mailbox :=
  let m := evictSettledClaims nowUnix m in
  if entryCount m <=? MaxMailboxEntries then m
  else evictSettledClaims nowUnix (foldl (evictEntry nowUnix) m (SliceStable olderEntry (evictable m))).

Definition settledClaimsOverflow (m : Mailbox) : bool := MaxSettledClaims <? settledCount m.

Definition full (m : Mailbox) : bool :=
  if entryCount m <? MaxMailboxEntries then false
  else negb (existsb (λ e, evictableStatus (enStatus e)) (map_to_list (Entries m)).*2).

(** ** Broadcasts *)

Definition DefaultMaxActiveBroadcasts : Z := 1000.
Definition MaxProfileScopes : Z := 8.
Definition MaxProfileAttributes : Z := 16.
Definition MaxScopeBytes : Z := 128.

Definition badName (s : bytes) : bool := bool_decide (TrimSpace s = []) || (MaxScopeBytes <? zlen s).

Definition ProfileValidate (p : BroadcastProfile) : result MailErr unit :=
  if bpRegisteredAtUnix p <=? 0 then Err ErrRequestInvalid
  else if MaxProfileScopes <? zlen (bpScopes p) then Err ErrRequestInvalid
  else if existsb badName (bpScopes p) then Err ErrRequestInvalid
  else if MaxProfileAttributes <? Z.of_nat (size (bpAttributes p)) then Err ErrRequestInvalid
  else if existsb badName (mkeys (bpAttributes p)) then Err ErrRequestInvalid
  else Ok tt.

Definition covers (p : BroadcastProfile) (scope : bytes) : bool := bool_decide (scope = []) || bool_decide (scope ∈ bpScopes p).

Definition profile_equal (p q : BroadcastProfile) : bool :=
  (bpRegisteredAtUnix p =? bpRegisteredAtUnix q) && bool_decide (bpScopes p = bpScopes q) && bool_decide (bpAttributes p = bpAttributes q).

Record GlobalMail := mkGlobal { gmID : Z; gmMailID : bytes; gmScope : bytes; gmSentAtUnix : Z; gmExpiresAtUnix : Z; gmRevokedAtUnix : Z }.
#[export] Instance GlobalMail_eq_dec : EqDecision GlobalMail.
Proof. solve_decision. Defined.

Record BroadcastLedger := mkLedger { blHead : Z; blMails : list GlobalMail }.
Definition emptyLedger : BroadcastLedger := mkLedger 0 [].

Definition ledgerFind (l : BroadcastLedger) (mailID : bytes) : option GlobalMail := List.find (λ g, bool_decide (gmMailID g = mailID)) (blMails l).
Definition reclaimed (l : BroadcastLedger) (nowUnix : Z) : BroadcastLedger := mkLedger (blHead l) (List.filter (λ g, nowUnix <? gmExpiresAtUnix g) (blMails l)).

(** The closure of [Publish]. *)
Definition publishMutate (e : Envelope) (nowUnix maxActive : Z) (l : BroadcastLedger) : result MailErr (BroadcastLedger * bool * GlobalMail) :=
  match ledgerFind l (eID e) with
  | Some g => Ok (l, false, g)
  | None =>
      let next := reclaimed l nowUnix in
      if maxActive <=? zlen (blMails next) then Err ErrBroadcastFull
      else
        let head := u64 (blHead next + 1) in
        let sentAt := if eCreatedAtUnix e <=? 0 then nowUnix else eCreatedAtUnix e in
        let g := mkGlobal head (eID e) (eScope e) sentAt (eExpiresAtUnix e) 0 in
        Ok (mkLedger head (blMails next ++ [g]), true, g)
  end.

Definition Publish (e : Envelope) (nowUnix maxActive : Z) (l : BroadcastLedger) : BroadcastLedger * result MailErr GlobalMail :=
  match eAudience e with
  | AudienceBroadcast =>
      if bool_decide (TrimSpace (eID e) = []) then (l, Err ErrMailInvalid)
      else if EnvelopeExpired e nowUnix then (l, Err ErrMailExpired)
      else
        match publishMutate e nowUnix (if maxActive <=? 0 then DefaultMaxActiveBroadcasts else maxActive) l with
        | Err x => (l, Err x)
        | Ok (l', save, g) => (if save then l' else l, Ok g)
        end
  | _ => (l, Err ErrAudienceInvalid)
  end.

Definition revokeIn (mailID : bytes) (nowUnix : Z) (mails : list GlobalMail) : list GlobalMail :=
  match list_find (λ g, gmMailID g = mailID) mails with
  | Some (i, g) => <[i := mkGlobal (gmID g) (gmMailID g) (gmScope g) (gmSentAtUnix g) (gmExpiresAtUnix g) nowUnix]> mails
  | None => mails
  end.

(** [Revoke]: the ledger and whether it changed. *)
Definition Revoke (mailID : bytes) (nowUnix : Z) (l : BroadcastLedger) : BroadcastLedger * result MailErr bool :=
  if bool_decide (TrimSpace mailID = []) then (l, Err ErrMailInvalid)
  else
    match ledgerFind l mailID with
    | None => (l, Err ErrMailMissing)
    | Some g =>
        if gmExpiresAtUnix g <=? nowUnix then (l, Err ErrMailMissing)
        else if negb (gmRevokedAtUnix g =? 0) then (l, Ok false)
        else (mkLedger (blHead l) (revokeIn mailID nowUnix (blMails l)), Ok true)
    end.

(** The business predicate; [None] is nil. *)
Definition admits (Eligible : option (BroadcastProfile → GlobalMail → bool)) (p : BroadcastProfile) (g : GlobalMail) (nowUnix : Z) : bool :=
  if negb (gmRevokedAtUnix g =? 0) then false
  else if gmExpiresAtUnix g <=? nowUnix then false
  else if negb (covers p (gmScope g)) then false
  else if gmSentAtUnix g <=? bpRegisteredAtUnix p then false
  else match Eligible with Some f => f p g | None => true end.

(** One global mail of the loop is skipped, merged, or stops the merge. *)
Inductive MergeStep : Type := MergeSkip | MergeStop | MergeAdd (m : Mailbox) (added : bool).

Definition mergeOne (adm : GlobalMail → bool) (nowUnix : Z) (m : Mailbox) (g : GlobalMail) : MergeStep :=
  if (gmID g <=? BroadcastWatermark m) || negb (adm g) then MergeSkip
  else if bool_decide (is_Some (Entries m !! gmMailID g)) then MergeSkip
  else if bool_decide (is_Some (SettledClaims m !! gmMailID g)) then MergeSkip
  else if full m then MergeStop
  else
    let nearBound := MaxMailboxEntries <=? entryCount m in
    let '(m, entry, added) := boxDeliver (gmMailID g) nowUnix m in
    let entry := en_global (gmID g) (en_expiry (gmExpiresAtUnix g) entry) in
    let m := set_Entries (<[gmMailID g := entry]> (Entries m)) m in
    let m := if added : bool then evict nowUnix m else m in
    if nearBound && settledClaimsOverflow m then MergeStop else MergeAdd m added.

(** The loop: the mailbox, how many were merged, and the watermark it stops below. *)
Fixpoint mergeLoop (adm : GlobalMail → bool) (nowUnix : Z) (mails : list GlobalMail) (m : Mailbox) (merged : Z) : Mailbox * Z * option Z :=
  match mails with
  | [] => (m, merged, None)
  | g :: mails =>
      match mergeOne adm nowUnix m g with
      | MergeSkip => mergeLoop adm nowUnix mails m merged
      | MergeStop => (m, merged, Some (u64 (gmID g - 1)))
      | MergeAdd m added => mergeLoop adm nowUnix mails m (if added : bool then merged + 1 else merged)
      end
  end.

Definition mergeBroadcasts (l : BroadcastLedger) (adm : GlobalMail → bool) (nowUnix : Z) (m : Mailbox) : Mailbox * Z * bool :=
  if blHead l <=? BroadcastWatermark m then (m, 0, false)
  else
    let '(m, merged, stop) := mergeLoop adm nowUnix (blMails l) m 0 in
    let watermark := match stop with Some w => w | None => blHead l end in
    (if BroadcastWatermark m <? watermark then set_UpdatedAt nowUnix (set_Watermark watermark m) else m,
     merged, match stop with Some _ => true | None => false end).
