(* ===== verification/MailService.v ===== *)
(** * Mail: the service (service/mail/service.go, broadcast.go)

    One definition per operation; the closure that it hands to the versioned
    mailbox store is the definition [..Mutate].  The mailbox store is taken as
    its memory store ([VsMemory]). *)

From Stdlib Require Import String.
From S2P Require Import Prelude Bytes GoStr VsRedis VsMemory MailBox.

(** ** Stores *)

Abbreviation boxes := (gmap bytes (Versioned Mailbox)).
Abbreviation envelopes := (gmap bytes Envelope).

(** [Create] of the envelope store. *)
Definition CreateEnvelope (e : Envelope) (nowUnix : Z) (es : envelopes) : envelopes * result MailErr bool :=
  match EnvelopeValidate e with
  | Err x => (es, Err x)
  | Ok _ =>
      if eExpiresAtUnix e <=? nowUnix then (es, Err ErrMailExpired)
      else if bool_decide (is_Some (es !! eID e)) then (es, Ok false)
      else (<[eID e := e]> es, Ok true)
  end.

(** [KeyOf] of the mailbox store. *)
Definition boxKey (playerID : Z) : bytes := Itoa playerID.
Definition boxAt (bs : boxes) (playerID : Z) : Mailbox := memValue emptyBox (bs !! boxKey playerID).
Definition boxFound (bs : boxes) (playerID : Z) : bool := memFound (bs !! boxKey playerID).

(** [Mailboxes.Update]; the closure also returns the operation's result. *)
Definition UpdateBox {R : Type} (bs : boxes) (playerID : Z) (mutate : Mailbox → bool → result MailErr (Mailbox * bool * R)) : boxes * result MailErr R :=
  (fst (memUpdate emptyBox bs (boxKey playerID) (λ m f, match mutate m f with Ok (m', save, _) => Ok (m', save) | Err e => Err e end)),
   match mutate (boxAt bs playerID) (boxFound bs playerID) with Ok (_, _, r) => Ok r | Err e => Err e end).

(** ** Delivery *)

Definition deliverMutate (playerID : Z) (mailID : bytes) (nowUnix expiry : Z) (current : Mailbox) (found : bool) : result MailErr (Mailbox * bool * bool) :=
  let '(m, _) := expireEntries nowUnix (boxInit playerID current) in
  if (0 <? expiry) && (expiry <=? nowUnix) then Err ErrMailInvalid
  else
    let settled := bool_decide (is_Some (SettledClaims m !! mailID)) in
    let exists_ := bool_decide (is_Some (Entries m !! mailID)) in
    if negb exists_ && negb settled && full m then Err ErrMailboxFull
    else
      let '(m, _, added) := boxDeliver mailID nowUnix m in
      let m :=
        match Entries m !! mailID with
        | Some entry => if 0 <? expiry then set_Entries (<[mailID := en_expiry expiry entry]> (Entries m)) m else m
        | None => m
        end in
      let m := if added : bool then evict nowUnix m else m in
      if settledClaimsOverflow m then Err ErrClaimHistoryFull else Ok (m, added, added).

(** [deliver]; [clock] is read when the caller passes no time. *)
Definition deliver (clock : Z) (playerID : Z) (mailID : bytes) (nowUnix expiry : Z) (bs : boxes) : boxes * result MailErr bool :=
  if playerID <=? 0 then (bs, Err ErrRequestInvalid)
  else if bool_decide (TrimSpace mailID = []) then (bs, Err ErrMailInvalid)
  else
    let nowUnix := if nowUnix <=? 0 then clock else nowUnix in
    UpdateBox bs playerID (deliverMutate playerID mailID nowUnix expiry).

Definition Deliver (clock : Z) (playerID : Z) (mailID : bytes) (nowUnix : Z) (es : envelopes) (bs : boxes) : boxes * result MailErr bool :=
  if playerID <=? 0 then (bs, Err ErrRequestInvalid)
  else if bool_decide (TrimSpace mailID = []) then (bs, Err ErrMailInvalid)
  else
    match es !! mailID with
    | None => (bs, Err ErrMailMissing)
    | Some e => if EnvelopeExpired e nowUnix then (bs, Err ErrMailExpired) else deliver clock playerID mailID nowUnix (eExpiresAtUnix e) bs
    end.

(** ** Status changes *)

Definition transitionMutate (playerID : Z) (mailID : bytes) (nowUnix : Z) (next : Entry → Status) (current : Mailbox) (found : bool)
    : result MailErr (Mailbox * bool * Entry) :=
  if negb found then Err ErrMailMissing
  else
    let m := boxInit playerID current in
    match Entries m !! mailID with
    | None => Err ErrMailMissing
    | Some entry =>
        let '(m, updated, moved) := setStatus mailID (next entry) nowUnix m in
        Ok (m, moved, match updated with Some e => if moved : bool then e else entry | None => entry end)
    end.

Definition transition (nowUnix : Z) (playerID : Z) (mailID : bytes) (next : Entry → Status) (bs : boxes) : boxes * result MailErr Entry :=
  if playerID <=? 0 then (bs, Err ErrRequestInvalid)
  else if bool_decide (TrimSpace mailID = []) then (bs, Err ErrMailInvalid)
  else UpdateBox bs playerID (transitionMutate playerID mailID nowUnix next).

Definition MarkRead (nowUnix playerID : Z) (mailID : bytes) (bs : boxes) : boxes * result MailErr Entry :=
  transition nowUnix playerID mailID (λ e, if bool_decide (enStatus e = StatusUnread) then StatusRead else enStatus e) bs.

Definition DeleteMail (nowUnix playerID : Z) (mailID : bytes) (bs : boxes) : boxes * result MailErr Entry :=
  transition nowUnix playerID mailID (λ _, StatusDeleted) bs.

(** ** Claims *)

Record Claim := mkClaim { clMailID : bytes; clToken : bytes; clAttachment : bytes; clAttempts : Z; clDeadlineUnix : Z; clExpiresAtUnix : Z }.

(** [token] is what [NewClaimToken] would mint, [lease] the seconds of [ClaimLease]. *)
Definition reserveMutate (playerID : Z) (mailID token : bytes) (e : Envelope) (nowUnix lease : Z) (current : Mailbox) (found : bool)
    : result MailErr (Mailbox * bool * Claim) :=
  if negb found then Err ErrMailMissing
  else
    let m := boxInit playerID current in
    match Entries m !! mailID with
    | None =>
        match SettledClaims m !! mailID with
        | Some proof => if scDeleted proof then Err ErrMailMissing else Err ErrAlreadyClaimed
        | None => Err ErrMailMissing
        end
    | Some entry =>
        match claimable entry nowUnix with
        | Err x => Err x
        | Ok _ =>
            let reserved := if bool_decide (enClaimToken entry = []) then token else enClaimToken entry in
            if (enClaimAttempts entry <? 0) || (enClaimAttempts entry =? 2^31 - 1) then Err ErrRequestInvalid
            else
              let deadline := i64 (nowUnix + lease) in
              let attempts := i32 (enClaimAttempts entry + 1) in
              let entry' := mkEntry (enMailID entry) (enStatus entry) (enEnvelopeExpiresAtUnix entry) (enGlobalID entry) reserved deadline
                              (eExpiresAtUnix e) attempts (enDeliveredAtUnix entry) nowUnix in
              Ok (set_UpdatedAt nowUnix (set_Entries (<[mailID := entry']> (Entries m)) m), true,
                  mkClaim mailID reserved (eAttachment e) attempts deadline (eExpiresAtUnix e))
        end
    end.

Definition mergedBroadcast (playerID : Z) (e : Envelope) (bs : boxes) : bool :=
  match eAudience e with
  | AudienceBroadcast =>
      if negb (boxFound bs playerID) then false
      else
        match Entries (boxAt bs playerID) !! eID e with
        | Some entry => negb (enGlobalID entry =? 0)
        | None => bool_decide (is_Some (SettledClaims (boxAt bs playerID) !! eID e))
        end
  | _ => false
  end.

(** The checks on the envelope and the update of the mailbox. *)
Definition reserveChecked (token : bytes) (nowUnix lease : Z) (playerID : Z) (mailID : bytes) (e : Envelope) (bs : boxes) : boxes * result MailErr Claim :=
  if EnvelopeExpired e nowUnix then (bs, Err ErrMailExpired)
  else if negb (HasAttachment e) then (bs, Err ErrNoAttachment)
  else UpdateBox bs playerID (reserveMutate playerID mailID token e nowUnix lease).

Definition ReserveClaim (token : bytes) (nowUnix lease : Z) (playerID : Z) (mailID scope : bytes) (es : envelopes) (bs : boxes) : boxes * result MailErr Claim :=
  if playerID <=? 0 then (bs, Err ErrRequestInvalid)
  else
    match es !! mailID with
    | None => (bs, Err ErrMailMissing)
    | Some e =>
        if negb (Addresses e playerID scope) && negb (mergedBroadcast playerID e bs) then (bs, Err ErrNotRecipient)
        else reserveChecked token nowUnix lease playerID mailID e bs
    end.

Definition commitClaimMutate (playerID : Z) (mailID token : bytes) (nowUnix : Z) (current : Mailbox) (found : bool)
    : result MailErr (Mailbox * bool * Entry) :=
  if negb found then Err ErrMailMissing
  else
    let m := boxInit playerID current in
    match Entries m !! mailID with
    | None =>
        match SettledClaims m !! mailID with
        | Some settled =>
            if scDeleted settled then Err ErrMailMissing
            else if negb (bool_decide (scToken settled = token)) then Err ErrClaimTokenWrong
            else Ok (m, false, mkEntry mailID StatusClaimed 0 0 (scToken settled) 0 0 0 (scSettledAtUnix settled) (scSettledAtUnix settled))
        | None => Err ErrMailMissing
        end
    | Some entry =>
        if negb (bool_decide (enClaimToken entry = token)) then Err ErrClaimTokenWrong
        else
          match enStatus entry with
          | StatusClaimed => Ok (m, false, entry)
          | StatusDeleted => Err ErrMailMissing
          | _ =>
              let '(m, updated, _) := setStatus mailID StatusClaimed nowUnix m in
              let updated := en_deadline 0 (default entry updated) in
              Ok (set_Entries (<[mailID := updated]> (Entries m)) m, true, updated)
          end
    end.

Definition CommitClaim (nowUnix playerID : Z) (mailID token : bytes) (bs : boxes) : boxes * result MailErr Entry :=
  if bool_decide (TrimSpace token = []) then (bs, Err ErrRequestInvalid)
  else UpdateBox bs playerID (commitClaimMutate playerID mailID token nowUnix).

Definition cancelClaimMutate (playerID : Z) (mailID token : bytes) (attempts nowUnix : Z) (current : Mailbox) (found : bool)
    : result MailErr (Mailbox * bool * bool) :=
  if negb found then Ok (current, false, false)
  else
    let m := boxInit playerID current in
    match Entries m !! mailID with
    | None => Ok (m, false, false)
    | Some entry =>
        if negb (bool_decide (enClaimToken entry = token)) || negb (enClaimAttempts entry =? attempts) then Ok (m, false, false)
        else if bool_decide (enStatus entry = StatusClaimed) || (enClaimDeadlineUnix entry =? 0) then Ok (m, false, false)
        else
          let entry := en_updated nowUnix (en_deadline 0 entry) in
          Ok (set_UpdatedAt nowUnix (set_Entries (<[mailID := entry]> (Entries m)) m), true, true)
    end.

Definition CancelClaim (nowUnix playerID : Z) (mailID token : bytes) (attempts : Z) (bs : boxes) : boxes * result MailErr bool :=
  if bool_decide (TrimSpace token = []) || (attempts <=? 0) then (bs, Err ErrRequestInvalid)
  else UpdateBox bs playerID (cancelClaimMutate playerID mailID token attempts nowUnix).

(** ** Broadcasts that a mailbox pulls *)

(** The lazy strategy of the service; [None]: no lazy strategy. *)
Abbreviation lazy := (option (option (BroadcastProfile → GlobalMail → bool))).

(** The new profile, if there is one and it differs. *)
Definition recordProfile (profile : option BroadcastProfile) (nowUnix : Z) (m : Mailbox) : Mailbox * bool :=
  match profile with
  | None => (m, false)
  | Some p =>
      if match Profile m with Some q => profile_equal q p | None => false end then (m, false)
      else (set_UpdatedAt nowUnix (set_Profile (Some p) m), true)
  end.

(** The merge of [refreshMailbox], if there is anything to merge with. *)
Definition mergeInto (lz : lazy) (ledger : option BroadcastLedger) (nowUnix : Z) (m : Mailbox) : Mailbox * Z * bool :=
  match ledger, lz, Profile m with
  | Some l, Some Eligible, Some p => mergeBroadcasts l (λ g, admits Eligible p g nowUnix) nowUnix m
  | _, _, _ => (m, 0, false)
  end.

(** The result is the stored mailbox, the number merged and whether the merge stopped. *)
Definition refreshMutate (lz : lazy) (playerID : Z) (profile : option BroadcastProfile) (ledger : option BroadcastLedger) (nowUnix : Z)
    (current : Mailbox) (found : bool) : result MailErr (Mailbox * bool * (Mailbox * Z * bool)) :=
  if negb found && match profile with None => true | Some _ => false end then Ok (current, false, (current, 0, false))
  else
    let '(next, expired) := expireEntries nowUnix (boxInit playerID current) in
    let '(next, recorded) := recordProfile profile nowUnix next in
    let before := BroadcastWatermark next in
    let '(next, merged, stopped) := mergeInto lz ledger nowUnix next in
    let changed := expired || recorded || (0 <? merged) || negb (BroadcastWatermark next =? before) in
    Ok (next, changed, (if changed then next else current, merged, stopped)).

Definition refreshMailbox (lz : lazy) (playerID : Z) (profile : option BroadcastProfile) (ledger : option BroadcastLedger) (nowUnix : Z) (bs : boxes)
    : boxes * result MailErr (Mailbox * Z * bool) :=
  UpdateBox bs playerID (refreshMutate lz playerID profile ledger nowUnix).

Definition pendingBroadcasts (lz : lazy) (m : Mailbox) (ledger : BroadcastLedger) : option BroadcastLedger :=
  match lz, Profile m with
  | Some _, Some _ => if blHead ledger <=? BroadcastWatermark m then None else Some ledger
  | _, _ => None
  end.

(** ** Listing *)

Record Item := mkItem { itEnvelope : Envelope; itStatus : Status; itClaimable : bool; itGlobalID : Z }.
Record Page := mkPage { pgItems : list Item; pgNextCursor : bytes; pgUnread : Z; pgEvicted : Z }.

(** Newest first; the ids break ties. *)
Definition newerEntry (a b : Entry) : bool :=
  if enDeliveredAtUnix a =? enDeliveredAtUnix b then str_lt (enMailID b) (enMailID a) else enDeliveredAtUnix b <? enDeliveredAtUnix a.

Definition listed (m : Mailbox) : list Entry :=
  SliceStable newerEntry (List.filter (λ e, negb (bool_decide (enStatus e = StatusDeleted))) (map_to_list (Entries m)).*2).

Definition bar : Z := 124.
Definition encodeCursor (e : Entry) : bytes := Itoa (enDeliveredAtUnix e) ++ bar :: enMailID e.

(** The cursor's position comes at or after the entry. *)
Definition pastCursor (deliveredAt : Z) (mailID : bytes) (e : Entry) : bool :=
  if negb (enDeliveredAtUnix e =? deliveredAt) then enDeliveredAtUnix e <? deliveredAt else str_lt (enMailID e) mailID.

(** The index after the first entry with this id, or the end. *)
Fixpoint indexAfter (entries : list Entry) (cursor : bytes) : Z :=
  match entries with
  | [] => 0
  | e :: entries => if bool_decide (enMailID e = cursor) then 1 else 1 + indexAfter entries cursor
  end.

Definition resumeIndex (entries : list Entry) (cursor : bytes) : Z :=
  match (match CutByte cursor bar with
         | Some (rawAt, mailID) => match Atoi rawAt with Some at_ => Some (at_, mailID) | None => None end
         | None => None
         end) with
  | Some (deliveredAt, mailID) =>
      Search (zlen entries) (λ i, match entries !! Z.to_nat i with Some e => pastCursor deliveredAt mailID e | None => true end)
  | None => indexAfter entries cursor
  end.

Definition pageLimit (limit : Z) : Z := if limit =? 0 then DefaultPageSize else if MaxPageSize <? limit then MaxPageSize else limit.

(** The entries of one page, and the cursor of the next. *)
Definition window (m : Mailbox) (cursor : bytes) (limit : Z) : list Entry * bytes :=
  let entries := listed m in
  let start := if bool_decide (cursor = []) then 0 else resumeIndex entries cursor in
  if zlen entries <=? start then ([], [])
  else
    let end_ := Z.min (start + pageLimit limit) (zlen entries) in
    let win := ztake (end_ - start) (zdrop start entries) in
    (win, if end_ <? zlen entries then match last win with Some e => encodeCursor e | None => [] end else []).

Definition itemOf (es : envelopes) (nowUnix : Z) (e : Entry) : option Item :=
  match es !! enMailID e with
  | None => None
  | Some env =>
      if EnvelopeExpired env nowUnix then None
      else Some (mkItem env (enStatus e) (HasAttachment env && match claimable e nowUnix with Ok _ => true | Err _ => false end) (enGlobalID e))
  end.

(** [List]: [nowExpiry] and [nowUnix] are its two clock readings. *)
Definition ListMail (lz : lazy) (nowExpiry nowUnix : Z) (playerID : Z) (cursor : bytes) (limit : Z) (ledger : BroadcastLedger) (es : envelopes) (bs : boxes)
    : boxes * result MailErr Page :=
  if playerID <=? 0 then (bs, Err ErrRequestInvalid)
  else if limit <? 0 then (bs, Err ErrRangeInvalid)
  else if negb (boxFound bs playerID) then (bs, Ok (mkPage [] [] 0 0))
  else
    let m := boxAt bs playerID in
    let pending := pendingBroadcasts lz m ledger in
    let '(expired, changed) := expireEntries nowExpiry m in
    let '(bs, r) :=
      if changed || match pending with Some _ => true | None => false end then
        let x := refreshMailbox lz playerID None pending nowExpiry bs in
        (fst x, match snd x with Ok (updated, _, _) => Ok updated | Err e => Err e end)
      else (bs, Ok expired) in
    match r with
    | Err e => (bs, Err e)
    | Ok m =>
        let '(win, next) := window m cursor limit in
        (bs, Ok (mkPage (omap (itemOf es nowUnix) win) next (Unread m) (Evicted m)))
    end.

Record Summary := mkSummary { smPlayerID : Z; smUnread : Z; smEvicted : Z }.

Definition SummaryMail (lz : lazy) (nowUnix playerID : Z) (ledger : BroadcastLedger) (bs : boxes) : boxes * result MailErr Summary :=
  if playerID <=? 0 then (bs, Err ErrRequestInvalid)
  else if negb (boxFound bs playerID) then (bs, Ok (mkSummary playerID 0 0))
  else
    let m := boxAt bs playerID in
    match pendingBroadcasts lz m ledger with
    | None => (bs, Ok (mkSummary playerID (Unread m) (Evicted m)))
    | Some l =>
        let x := refreshMailbox lz playerID None (Some l) nowUnix bs in
        (fst x, match snd x with Ok (m, _, _) => Ok (mkSummary playerID (Unread m) (Evicted m)) | Err e => Err e end)
    end.

Definition PullBroadcasts (lz : lazy) (nowUnix playerID : Z) (profile : BroadcastProfile) (ledger : BroadcastLedger) (bs : boxes) : boxes * result MailErr Summary :=
  if playerID <=? 0 then (bs, Err ErrRequestInvalid)
  else
    match lz with
    | None => SummaryMail lz nowUnix playerID ledger bs
    | Some _ =>
        match ProfileValidate profile with
        | Err e => (bs, Err e)
        | Ok _ =>
            let x := refreshMailbox lz playerID (Some profile) (Some ledger) nowUnix bs in
            (fst x, match snd x with Ok (m, _, _) => Ok (mkSummary playerID (Unread m) (Evicted m)) | Err e => Err e end)
        end
    end.

Definition RevokeBroadcast (lz : lazy) (nowUnix : Z) (mailID : bytes) (ledger : BroadcastLedger) : BroadcastLedger * result MailErr bool :=
  match lz with None => (ledger, Err ErrRequestInvalid) | Some _ => Revoke mailID nowUnix ledger end.
