(* ===== verification/MailInv.v ===== *)
(** * Well-formed mailboxes, and what the operations do to them

    The unread count, the bounds and the separation of entries from settled
    claims.  Every saved mailbox is well-formed again; the mails other than
    the one an operation names change only by the [tide].  The broadcast
    ledger keeps growing ids and one record per mail. *)

From Stdlib Require Import String.
From S2P Require Import Prelude Bytes GoStr MailBox VsRedis VsMemory MailService.

(** ** Counting *)

Definition isUnread (e : Entry) : bool := bool_decide (enStatus e = StatusUnread).
Definition unreadCount (es : gmap bytes Entry) : Z := Z.of_nat (size (filter (λ x : bytes * Entry, isUnread x.2 = true) es)).

Lemma unread_delete es id e : es !! id = Some e → unreadCount es = unreadCount (delete id es) + (if isUnread e then 1 else 0).
Proof.
  intros H. unfold unreadCount. rewrite map_filter_delete. destruct (isUnread e) eqn:E.
  - rewrite map_size_delete_Some; [|exists e; by apply map_lookup_filter_Some]. assert (size (filter (λ x : bytes * Entry, isUnread x.2 = true) es) ≠ 0%nat); [|lia].
    intros Hz. apply map_size_empty_inv in Hz. assert (Hx : filter (λ x : bytes * Entry, isUnread x.2 = true) es !! id = Some e) by (by apply map_lookup_filter_Some).
    by rewrite Hz in Hx.
  - rewrite (delete_id (filter _ es)); [lia|]. apply map_lookup_filter_None. right. intros x Hx. assert (x = e) as -> by congruence. cbn. congruence.
Qed.

Lemma unread_insert es id e : unreadCount (<[id := e]> es) = unreadCount (delete id es) + (if isUnread e then 1 else 0).
Proof. rewrite (unread_delete (<[id := e]> es) id e) by apply lookup_insert_eq. by rewrite delete_insert_eq. Qed.

Lemma unread_bounds es : 0 ≤ unreadCount es ≤ Z.of_nat (size es).
Proof.
  unfold unreadCount. split; [lia|]. apply Nat2Z.inj_le, map_subseteq_size, map_filter_subseteq.
Qed.

(** ** Well-formed mailboxes *)

(** Everything but the bounds. *)
Record box_core (m : Mailbox) : Prop := {
  bc_id : ∀ id e, Entries m !! id = Some e → enMailID e = id;
  bc_unread : Unread m = unreadCount (Entries m);
  bc_apart : ∀ id, is_Some (Entries m !! id) → SettledClaims m !! id = None
}.

Record box_ok (m : Mailbox) : Prop := {
  bo_core : box_core m;
  bo_size : entryCount m ≤ MaxMailboxEntries;
  bo_settled : settledCount m ≤ MaxSettledClaims
}.

Lemma box_ok_empty : box_ok emptyBox.
Proof. split; [split|done..]; [done|done|]. by intros id [e ?]. Qed.

Lemma entries_small m : entryCount m ≤ MaxMailboxEntries + 1 → 0 ≤ unreadCount (Entries m) ≤ 201.
Proof. unfold entryCount, MaxMailboxEntries. pose proof (unread_bounds (Entries m)). lia. Qed.

Lemma count_delete m id e : Entries m !! id = Some e → entryCount (set_Entries (delete id (Entries m)) m) = entryCount m - 1.
Proof.
  intros H. unfold entryCount. cbn. rewrite map_size_delete_Some by (by exists e).
  assert (size (Entries m) ≠ 0%nat); [|lia]. intros Hz. apply map_size_empty_inv in Hz. by rewrite Hz in H.
Qed.

(** ** Expiry of entries *)

Definition lapsedEntry (nowUnix : Z) (e : Entry) : bool :=
  negb ((enEnvelopeExpiresAtUnix e <=? 0) || (nowUnix <? enEnvelopeExpiresAtUnix e)) &&
  negb (negb (bool_decide (enClaimToken e = [])) && negb (bool_decide (enStatus e = StatusClaimed))).

(** [m'] is [m] without some of its entries. *)
Record shrinks (keep : bytes → Entry → Prop) (m m' : Mailbox) : Prop := {
  sh_entry : ∀ id e, Entries m' !! id = Some e ↔ Entries m !! id = Some e ∧ keep id e;
  sh_core : box_core m → entryCount m ≤ MaxMailboxEntries + 1 → box_core m';
  sh_size : entryCount m' ≤ entryCount m;
  sh_rest : SettledClaims m' = SettledClaims m ∧ BroadcastWatermark m' = BroadcastWatermark m ∧ Profile m' = Profile m ∧ PlayerID m' = PlayerID m
}.

Lemma expireEntry_step nowUnix m ch id :
  match Entries m !! id with
  | Some e =>
      if lapsedEntry nowUnix e then
        ∃ m', expireEntry nowUnix (m, ch) id = (m', true) ∧ Entries m' = delete id (Entries m) ∧
          (box_core m → entryCount m ≤ MaxMailboxEntries + 1 → box_core m') ∧
          SettledClaims m' = SettledClaims m ∧ BroadcastWatermark m' = BroadcastWatermark m ∧ Profile m' = Profile m ∧ PlayerID m' = PlayerID m
      else expireEntry nowUnix (m, ch) id = (m, ch)
  | None => expireEntry nowUnix (m, ch) id = (m, ch)
  end.
Proof.
  unfold expireEntry, lapsedEntry. cbn [fst snd]. destruct (Entries m !! id) as [e|] eqn:He; [|done].
  destruct (_ || _); cbn [negb andb]; [done|]. destruct (negb _ && negb _); cbn [negb andb]; [done|].
  eexists. split; [reflexivity|]. cbn. split_and!; try by case_bool_decide.
  intros C Hs. pose proof (entries_small m Hs) as Hu. pose proof (unread_delete (Entries m) id e He) as Hd. unfold isUnread in Hd.
  pose proof (unread_bounds (delete id (Entries m))). split; cbn.
  - intros id' e'. case_bool_decide; cbn; intros [_ ?]%lookup_delete_Some; by apply (bc_id _ C).
  - pose proof (bc_unread _ C). case_bool_decide; cbn; [|lia]. rewrite i32_small; unfold_int; lia.
  - intros id' Hi. assert (is_Some (Entries m !! id')).
    { destruct Hi as [e' He']. case_bool_decide; cbn in He'; apply lookup_delete_Some in He' as [_ ?]; by exists e'. }
    case_bool_decide; cbn; by apply (bc_apart _ C).
Qed.

Lemma expireLoop_shrinks nowUnix ids : ∀ m ch, ∃ m' ch',
  foldl (expireEntry nowUnix) (m, ch) ids = (m', ch') ∧
  shrinks (λ id e, ¬ (id ∈ ids ∧ lapsedEntry nowUnix e = true)) m m' ∧ (ch' = false → m' = m ∧ ch = false).
Proof.
  induction ids as [|id ids IH]; intros m ch.
  - exists m, ch. split_and!; [done| |done]. split; [|done|done|done]. intros id e. rewrite elem_of_nil. tauto.
  - cbn [foldl]. pose proof (expireEntry_step nowUnix m ch id) as Hstep. destruct (Entries m !! id) as [e|] eqn:He.
    2:{ rewrite Hstep. destruct (IH m ch) as (m' & ch' & HF & [S1 S2 S3 S4] & Hch). exists m', ch'. split_and!; [done| |done]. split; [|done..].
        intros id' e'. rewrite S1, elem_of_cons. split; [|tauto]. intros [H1 H2]. split; [done|]. intros [[->|?] ?]; [congruence|tauto]. }
    destruct (lapsedEntry nowUnix e) eqn:Hl.
    + destruct Hstep as (m1 & -> & E1 & C1 & R1). destruct (IH m1 true) as (m' & ch' & HF & [S1 S2 S3 S4] & Hch). exists m', ch'. split_and!; [done| |].
      2:{ intros ->. by destruct (Hch eq_refl). }
      pose proof (count_delete m id e He) as Hc. assert (Hc1 : entryCount m1 = entryCount m - 1) by (rewrite <- Hc; unfold entryCount; by rewrite E1).
      split.
      * intros id' e'. rewrite S1, E1, lookup_delete_Some, elem_of_cons. split; [|naive_solver].
        intros [[Hne H1] H2]. split; [done|]. intros [[->|?] ?]; [done|tauto].
      * intros C Hs. apply S2; [by apply C1|lia].
      * lia.
      * destruct S4 as (-> & -> & -> & ->). done.
    + rewrite Hstep. destruct (IH m ch) as (m' & ch' & HF & [S1 S2 S3 S4] & Hch). exists m', ch'. split_and!; [done| |done]. split; [|done..].
      intros id' e'. rewrite S1, elem_of_cons. split; [|tauto]. intros [H1 H2]. split; [done|]. intros [[->|?] ?]; [congruence|tauto].
Qed.

Lemma elem_of_mkeys {A} (m : gmap bytes A) k : k ∈ mkeys m ↔ is_Some (m !! k).
Proof.
  unfold mkeys. rewrite list_elem_of_fmap. split.
  - intros ([k' x] & -> & Hx%elem_of_map_to_list). by exists x.
  - intros [x Hx]. exists (k, x). split; [done|]. by apply elem_of_map_to_list.
Qed.

Lemma expireEntries_shrinks nowUnix m : ∃ m' ch,
  expireEntries nowUnix m = (m', ch) ∧ shrinks (λ _ e, lapsedEntry nowUnix e = false) m m' ∧ (ch = false → m' = m).
Proof.
  unfold expireEntries. destruct (expireLoop_shrinks nowUnix (mkeys (Entries m)) m false) as (m' & ch & -> & [S1 S2 S3 S4] & Hch).
  exists (if ch then set_UpdatedAt nowUnix m' else m'), ch. split_and!; [done| |by intros ->; apply Hch].
  assert (S1' : ∀ id e, Entries m' !! id = Some e ↔ Entries m !! id = Some e ∧ lapsedEntry nowUnix e = false).
  { intros id e. rewrite S1, elem_of_mkeys. split; intros [H1 H2]; (split; [done|]); [|rewrite H2; naive_solver].
    destruct (lapsedEntry nowUnix e); [|done]. exfalso. apply H2. split; [by exists e|done]. }
  destruct ch; cbn; [|by split]. split; [done| |done|done]. intros C Hs. destruct (S2 C Hs). by split.
Qed.

(** ** Settled claims *)

Definition lapsedClaim (nowUnix : Z) (s : SettledClaim) : bool := (0 <? scEnvelopeExpiresAtUnix s) && (scEnvelopeExpiresAtUnix s <=? nowUnix).

(** What is left of a claim. *)
Definition unlapsed (nowUnix : Z) (s : option SettledClaim) : option SettledClaim := s ≫= λ x, if lapsedClaim nowUnix x then None else Some x.

Lemma unlapsed_twice nowUnix s : unlapsed nowUnix (unlapsed nowUnix s) = unlapsed nowUnix s.
Proof. destruct s as [x|]; cbn; [|done]. destruct (lapsedClaim nowUnix x) eqn:E; cbn; by rewrite ?E. Qed.

(** Everything but the settled claims. *)
Definition same_rest (m m' : Mailbox) : Prop :=
  Entries m' = Entries m ∧ Unread m' = Unread m ∧ PlayerID m' = PlayerID m ∧ BroadcastWatermark m' = BroadcastWatermark m ∧ Profile m' = Profile m.

Lemma evictSettledClaim_spec nowUnix m k :
  same_rest m (evictSettledClaim nowUnix m k) ∧
  ∀ id, SettledClaims (evictSettledClaim nowUnix m k) !! id = if decide (id = k) then unlapsed nowUnix (SettledClaims m !! id) else SettledClaims m !! id.
Proof.
  unfold evictSettledClaim. destruct (SettledClaims m !! k) as [x|] eqn:Hx.
  2:{ split; [done|]. intros id. case_decide as Hd; [|done]. by rewrite Hd, Hx. }
  fold (lapsedClaim nowUnix x). destruct (lapsedClaim nowUnix x) eqn:Hl; (split; [done|]); intros id; case_decide as Hd; cbn; try done.
  - rewrite Hd, Hx, lookup_delete_eq. cbn. by rewrite Hl.
  - by rewrite lookup_delete_ne by done.
  - rewrite Hd, Hx. cbn. by rewrite Hl.
Qed.

Lemma settledLoop_spec nowUnix ids : ∀ m,
  let m' := foldl (evictSettledClaim nowUnix) m ids in
  same_rest m m' ∧ ∀ id, SettledClaims m' !! id = if decide (id ∈ ids) then unlapsed nowUnix (SettledClaims m !! id) else SettledClaims m !! id.
Proof.
  induction ids as [|k ids IH]; intros m; cbn [foldl].
  - split; [done|]. intros id. case_decide as Hd; [by apply elem_of_nil in Hd|done].
  - destruct (IH (evictSettledClaim nowUnix m k)) as [(R1 & R2 & R3 & R4 & R5) S], (evictSettledClaim_spec nowUnix m k) as [(Q1 & Q2 & Q3 & Q4 & Q5) E]. split.
    + unfold same_rest. rewrite R1, R2, R3, R4, R5. by split_and!.
    + intros id. rewrite S, E. destruct (decide (id = k)) as [->|Hk]; [rewrite (decide_True (P:=k ∈ k :: ids)) by (by left); rewrite unlapsed_twice; by case_decide|].
      destruct (decide (id ∈ ids)); [rewrite decide_True by (by right)|rewrite decide_False by (by apply not_elem_of_cons)]; done.
Qed.

Lemma evictSettledClaims_spec nowUnix m :
  same_rest m (evictSettledClaims nowUnix m) ∧ ∀ id, SettledClaims (evictSettledClaims nowUnix m) !! id = unlapsed nowUnix (SettledClaims m !! id).
Proof.
  destruct (settledLoop_spec nowUnix (mkeys (SettledClaims m)) m) as [R S]. split; [exact R|]. intros id. unfold evictSettledClaims. rewrite S.
  case_decide as Hd; [done|]. destruct (SettledClaims m !! id) as [x|] eqn:Hx; [|done]. destruct Hd. apply elem_of_mkeys. by exists x.
Qed.

Lemma unlapsed_Some nowUnix s x : unlapsed nowUnix s = Some x → s = Some x ∧ lapsedClaim nowUnix x = false.
Proof. destruct s as [y|]; cbn; [|done]. destruct (lapsedClaim nowUnix y) eqn:E; [done|]. by intros [= <-]. Qed.

Lemma evictSettledClaims_core nowUnix m : box_core m → box_core (evictSettledClaims nowUnix m).
Proof.
  destruct (evictSettledClaims_spec nowUnix m) as [(R1 & R2 & _) S]. intros [C1 C2 C3]. split; rewrite ?R1, ?R2; [done..|].
  intros id Hi. by rewrite S, (C3 _ Hi).
Qed.

Lemma evictSettledClaims_count nowUnix m : settledCount (evictSettledClaims nowUnix m) ≤ settledCount m.
Proof.
  destruct (evictSettledClaims_spec nowUnix m) as [_ S]. unfold settledCount. apply Nat2Z.inj_le, map_subseteq_size, map_subseteq_spec.
  intros id s. rewrite S. intros [Hs _]%unlapsed_Some. done.
Qed.

(** ** Retention *)

(** What is remembered of an entry that leaves. *)
Definition settledOf (nowUnix : Z) (e : Entry) : option SettledClaim :=
  if negb (bool_decide (enClaimToken e = [])) || bool_decide (enStatus e = StatusDeleted) then
    Some (mkSettled (bool_decide (enStatus e = StatusDeleted) && bool_decide (enClaimToken e = [])) (enClaimToken e) nowUnix
            (if enClaimEnvelopeExpiresAtUnix e =? 0 then enEnvelopeExpiresAtUnix e else enClaimEnvelopeExpiresAtUnix e))
  else None.

Definition without (victim : option Entry) (es : gmap bytes Entry) : gmap bytes Entry :=
  match victim with Some e => delete (enMailID e) es | None => es end.
Definition remembered (nowUnix : Z) (victim : option Entry) (scs : gmap bytes SettledClaim) : gmap bytes SettledClaim :=
  match victim with
  | Some e => match settledOf nowUnix e with Some s => <[enMailID e := s]> scs | None => scs end
  | None => scs
  end.

(** [m'] is [m] after retention dropped [victim]. *)
Record evicts (nowUnix : Z) (victim : option Entry) (m m' : Mailbox) : Prop := {
  ev_entries : Entries m' = without victim (Entries m);
  ev_settled : ∀ id, SettledClaims m' !! id = unlapsed nowUnix (remembered nowUnix victim (SettledClaims m) !! id);
  ev_victim : ∀ e, victim = Some e → Entries m !! enMailID e = Some e ∧ evictableStatus (enStatus e) = true ∧ MaxMailboxEntries < entryCount m;
  ev_none : victim = None → entryCount m ≤ MaxMailboxEntries ∨ evictable m = [];
  ev_rest : Unread m' = Unread m ∧ PlayerID m' = PlayerID m ∧ BroadcastWatermark m' = BroadcastWatermark m ∧ Profile m' = Profile m
}.

Lemma evictEntry_eq nowUnix m e : MaxMailboxEntries < entryCount m →
  Entries (evictEntry nowUnix m e) = delete (enMailID e) (Entries m) ∧
  SettledClaims (evictEntry nowUnix m e) = remembered nowUnix (Some e) (SettledClaims m) ∧
  Unread (evictEntry nowUnix m e) = Unread m ∧ PlayerID (evictEntry nowUnix m e) = PlayerID m ∧
  BroadcastWatermark (evictEntry nowUnix m e) = BroadcastWatermark m ∧ Profile (evictEntry nowUnix m e) = Profile m.
Proof.
  intros Hc. unfold evictEntry, remembered, settledOf. destruct (Z.leb_spec (entryCount m) MaxMailboxEntries); [lia|].
  destruct (negb _ || _); done.
Qed.

Lemma evictEntry_id nowUnix m e : entryCount m ≤ MaxMailboxEntries → evictEntry nowUnix m e = m.
Proof. intros Hc. unfold evictEntry. destruct (Z.leb_spec (entryCount m) MaxMailboxEntries); [done|lia]. Qed.

Lemma evictLoop_id nowUnix es m : entryCount m ≤ MaxMailboxEntries → foldl (evictEntry nowUnix) m es = m.
Proof. intros Hc. induction es as [|e es IH]; cbn; [done|]. by rewrite evictEntry_id. Qed.

Lemma elem_of_evictable m e : e ∈ evictable m ↔ (∃ id, Entries m !! id = Some e) ∧ evictableStatus (enStatus e) = true.
Proof.
  unfold evictable. rewrite list_elem_of_In, filter_In, <- list_elem_of_In, list_elem_of_fmap. split.
  - intros [([id x] & -> & Hx%elem_of_map_to_list) H]. split; [by exists id|done].
  - intros [[id Hid] H]. split; [|done]. exists (id, e). split; [done|]. by apply elem_of_map_to_list.
Qed.

Lemma evict_spec nowUnix m : box_core m → entryCount m ≤ MaxMailboxEntries + 1 → ∃ victim, evicts nowUnix victim m (evict nowUnix m).
Proof.
  intros C Hc. unfold evict. destruct (evictSettledClaims_spec nowUnix m) as [(R1 & R2 & R3 & R4 & R5) S].
  set (m1 := evictSettledClaims nowUnix m) in *.
  assert (Hcount : entryCount m1 = entryCount m) by (unfold entryCount; by rewrite R1). rewrite Hcount.
  destruct (Z.leb_spec (entryCount m) MaxMailboxEntries) as [Hle|Hgt].
  { exists None. split; [by rewrite R1|done|done|by left|by split_and!]. }
  assert (Hev : evictable m1 = evictable m) by (unfold evictable; by rewrite R1). rewrite Hev.
  destruct (SliceStable olderEntry (evictable m)) as [|e es] eqn:Hsort; cbn [foldl].
  - destruct (evictSettledClaims_spec nowUnix m1) as [(Q1 & Q2 & Q3 & Q4 & Q5) S']. exists None. split; [by rewrite Q1|..|done| |].
    + intros id. by rewrite S', S, unlapsed_twice.
    + intros _. right. apply Permutation_nil. rewrite <- Hsort. apply SliceStable_perm.
    + rewrite Q2, Q3, Q4, Q5. by split_and!.
  - assert (He : e ∈ evictable m) by (rewrite <- SliceStable_perm, Hsort; by left). apply elem_of_evictable in He as [[id Hid] Hst].
    pose proof (bc_id _ C _ _ Hid) as Hname. rewrite <- Hname in Hid. clear Hname.
    destruct (evictEntry_eq nowUnix m1 e) as (E1 & E2 & E3 & E4 & E5 & E6); [lia|].
    rewrite evictLoop_id. 2:{ pose proof (count_delete m _ _ Hid) as Hd. unfold entryCount in *. rewrite E1, R1. cbn in Hd. lia. }
    destruct (evictSettledClaims_spec nowUnix (evictEntry nowUnix m1 e)) as [(Q1 & Q2 & Q3 & Q4 & Q5) S'].
    exists (Some e). split; [by rewrite Q1, E1, R1|..|done|].
    + intros k. rewrite S', E2. unfold remembered. destruct (settledOf nowUnix e) as [s|]; [|by rewrite S, unlapsed_twice].
      destruct (decide (k = enMailID e)) as [->|Hk]; [by rewrite !lookup_insert_eq|]. by rewrite !lookup_insert_ne, S, unlapsed_twice by done.
    + intros x [= <-]. by split_and!.
    + rewrite Q2, Q3, Q4, Q5, E3, E4, E5, E6. by split_and!.
Qed.

Lemma evictable_read e : evictableStatus (enStatus e) = true → isUnread e = false.
Proof. unfold isUnread. by destruct (enStatus e). Qed.

Lemma evicts_core nowUnix victim m m' : evicts nowUnix victim m m' → box_core m → box_core m'.
Proof.
  intros [E S V _ (U & _)] [C1 C2 C3]. destruct victim as [e|]; cbn [without remembered] in *.
  - destruct (V e eq_refl) as (He & Hst & _). split; rewrite ?E, ?U.
    + intros id e' [_ H]%lookup_delete_Some. by apply C1.
    + rewrite C2, (unread_delete (Entries m) _ e He), (evictable_read e Hst). lia.
    + intros id [e' [Hne H]%lookup_delete_Some]. rewrite S. assert (H' : SettledClaims m !! id = None) by (apply C3; by exists e').
      destruct (settledOf nowUnix e); [rewrite lookup_insert_ne by done|]; by rewrite H'.
  - split; rewrite ?E, ?U; [done..|]. intros id H. by rewrite S, (C3 _ H).
Qed.

Lemma evicts_settled_count nowUnix m m' : evicts nowUnix None m m' → settledCount m' ≤ settledCount m.
Proof.
  intros [_ S _ _ _]. unfold settledCount. apply Nat2Z.inj_le, map_subseteq_size, map_subseteq_spec. intros id s. rewrite S. intros [Hs _]%unlapsed_Some. done.
Qed.

(** ** What may happen to one mail while its player does nothing *)

Abbreviation slot := (option Entry * option SettledClaim)%type.
Definition slotOf (m : Mailbox) (id : bytes) : slot := (Entries m !! id, SettledClaims m !! id).

Inductive tide (arrives : Entry → Prop) (nowUnix : Z) : slot → slot → Prop :=
| TideExpire e : lapsedEntry nowUnix e = true → tide arrives nowUnix (Some e, None) (None, None)
| TideForget s : lapsedClaim nowUnix s = true → tide arrives nowUnix (None, Some s) (None, None)
| TideEvict e : evictableStatus (enStatus e) = true → tide arrives nowUnix (Some e, None) (None, unlapsed nowUnix (settledOf nowUnix e))
| TideArrive e : arrives e → tide arrives nowUnix (None, None) (Some e, None).

Definition nothing : Entry → Prop := λ _, False.

Lemma tide_mono (P Q : Entry → Prop) nowUnix s s' : (∀ e, P e → Q e) → tide P nowUnix s s' → tide Q nowUnix s s'.
Proof. intros H. destruct 1; [by constructor..|]. apply TideArrive. by apply H. Qed.

Lemma tides_mono (P Q : Entry → Prop) nowUnix s s' : (∀ e, P e → Q e) → rtc (tide P nowUnix) s s' → rtc (tide Q nowUnix) s s'.
Proof. intros H. induction 1; [constructor|]. eapply rtc_l; [by eapply tide_mono|done]. Qed.

(** A slot of a well-formed mailbox holds at most one of the two. *)
Lemma slot_cases m id : box_core m → (∃ e, slotOf m id = (Some e, None)) ∨ (∃ s, slotOf m id = (None, s)).
Proof.
  intros C. unfold slotOf. destruct (Entries m !! id) as [e|] eqn:He; [left|right; by eexists].
  exists e. by rewrite (bc_apart _ C) by (by exists e).
Qed.

Lemma unlapsed_tides P nowUnix s : rtc (tide P nowUnix) (None, s) (None, unlapsed nowUnix s).
Proof. destruct s as [x|]; cbn; [|constructor]. destruct (lapsedClaim nowUnix x) eqn:E; [|constructor]. apply rtc_once. by constructor. Qed.

Lemma evicts_tides P nowUnix victim m m' id : evicts nowUnix victim m m' → box_core m → rtc (tide P nowUnix) (slotOf m id) (slotOf m' id).
Proof.
  intros [E S V _ _] C. assert (Keep : Entries m' !! id = Entries m !! id → SettledClaims m' !! id = unlapsed nowUnix (SettledClaims m !! id) →
    rtc (tide P nowUnix) (slotOf m id) (slotOf m' id)).
  { intros E' S'. unfold slotOf. rewrite E', S'. destruct (Entries m !! id) as [e|] eqn:He; [|apply unlapsed_tides].
    rewrite (bc_apart _ C) by (by exists e). constructor. }
  rewrite E in Keep. specialize (S id). destruct victim as [e|]; cbn [without remembered] in *; [|by apply Keep].
  destruct (V e eq_refl) as (He & Hst & _). destruct (decide (id = enMailID e)) as [->|Hne].
  - unfold slotOf. rewrite E, S, He, lookup_delete_eq, (bc_apart _ C) by (by exists e). apply rtc_once.
    assert (Hs : unlapsed nowUnix (match settledOf nowUnix e with Some s => <[enMailID e := s]> (SettledClaims m) | None => SettledClaims m end !! enMailID e)
                 = unlapsed nowUnix (settledOf nowUnix e)); [|rewrite Hs; by constructor].
    destruct (settledOf nowUnix e); [by rewrite lookup_insert_eq|]. by rewrite (bc_apart _ C) by (by exists e).
  - apply Keep; [by rewrite lookup_delete_ne|]. rewrite S. destruct (settledOf nowUnix e); [by rewrite lookup_insert_ne|done].
Qed.

Lemma shrinks_tides P nowUnix m m' id : shrinks (λ _ e, lapsedEntry nowUnix e = false) m m' → box_core m → rtc (tide P nowUnix) (slotOf m id) (slotOf m' id).
Proof.
  intros [E _ _ (S & _)] C. unfold slotOf. rewrite S. destruct (Entries m !! id) as [e|] eqn:He.
  - rewrite (bc_apart _ C) by (by exists e). destruct (lapsedEntry nowUnix e) eqn:Hl.
    + assert (Entries m' !! id = None) as ->; [|apply rtc_once; by constructor].
      apply eq_None_not_Some. intros [e' [H1 H2]%E]. congruence.
    + assert (Entries m' !! id = Some e) as -> by (by apply E). constructor.
  - assert (Entries m' !! id = None) as ->; [|constructor]. apply eq_None_not_Some. intros [e' [H1 _]%E]. congruence.
Qed.

(** ** Arrivals *)

(** [e] is added to [m], and retention runs. *)
Record lands (nowUnix : Z) (e : Entry) (m m' : Mailbox) : Prop := {
  ld_core : box_core m';
  ld_size : entryCount m' ≤ MaxMailboxEntries;
  ld_settled : entryCount m < MaxMailboxEntries → settledCount m' ≤ settledCount m;
  ld_entry : Entries m' !! enMailID e = Some e;
  ld_kept : ∀ id x, Entries m !! id = Some x → evictableStatus (enStatus x) = false → Entries m' !! id = Some x;
  ld_other : ∀ id P, id ≠ enMailID e → rtc (tide P nowUnix) (slotOf m id) (slotOf m' id);
  ld_rest : PlayerID m' = PlayerID m ∧ BroadcastWatermark m' = BroadcastWatermark m ∧ Profile m' = Profile m
}.

Lemma full_spec m : full m = false → entryCount m < MaxMailboxEntries ∨ evictable m ≠ [].
Proof.
  unfold full. destruct (Z.ltb_spec (entryCount m) MaxMailboxEntries); [by left|]. intros Hf. right. intros Hn. unfold evictable in Hn.
  destruct (existsb _ _) eqn:E; [|done]. apply existsb_exists in E as (e & He & Hs). eapply in_nil. rewrite <- Hn. apply filter_In. by split.
Qed.

Lemma count_insert m id e : Entries m !! id = None → Z.of_nat (size (<[id := e]> (Entries m))) = entryCount m + 1.
Proof. intros H. unfold entryCount. rewrite map_size_insert_None by done. lia. Qed.

Lemma lands_evict nowUnix e m m2 :
  box_core m → entryCount m ≤ MaxMailboxEntries → full m = false → slotOf m (enMailID e) = (None, None) → enStatus e = StatusUnread →
  Entries m2 = <[enMailID e := e]> (Entries m) → Unread m2 = i32 (Unread m + 1) → SettledClaims m2 = SettledClaims m →
  PlayerID m2 = PlayerID m ∧ BroadcastWatermark m2 = BroadcastWatermark m ∧ Profile m2 = Profile m →
  lands nowUnix e m (evict nowUnix m2).
Proof.
  intros C Hc Hfull [= Hne Hns] Hst E2 U2 S2 (P2 & W2 & F2).
  assert (Hc2 : entryCount m2 = entryCount m + 1) by (unfold entryCount at 1; rewrite E2; by apply count_insert).
  assert (C2 : box_core m2).
  { split; rewrite ?E2, ?S2.
    - intros id x [[<- <-]|[_ H]]%lookup_insert_Some; [done|by apply C].
    - rewrite U2, (bc_unread _ C), unread_insert, delete_id by done. unfold isUnread. rewrite bool_decide_eq_true_2 by done.
      pose proof (entries_small m). rewrite i32_small; [done|]. unfold_int. unfold MaxMailboxEntries in *. lia.
    - intros id [x [[<- _]|[_ H]]%lookup_insert_Some]; [done|]. apply (bc_apart _ C). by exists x. }
  destruct (evict_spec nowUnix m2 C2) as [victim EV]; [lia|]. pose proof (evicts_core _ _ _ _ EV C2) as C'. pose proof EV as [E S V N (_ & R2 & R3 & R4)].
  assert (Hev : entryCount m < MaxMailboxEntries ∨ evictable m2 ≠ []).
  { destruct (full_spec m Hfull) as [?|Hx]; [by left|]. right. intros Hn. destruct (evictable m) as [|x xs] eqn:Hm; [done|].
    assert (Hx' : x ∈ evictable m) by (rewrite Hm; by left). apply elem_of_evictable in Hx' as [[id Hid] Hsx].
    assert (Hx2 : x ∈ evictable m2); [|rewrite Hn in Hx2; by apply elem_of_nil in Hx2]. apply elem_of_evictable. split; [|done]. exists id. rewrite E2.
    apply lookup_insert_Some. right. split; [|done]. intros <-. congruence. }
  split; [done|..|].
  - destruct victim as [x|].
    + destruct (V x eq_refl) as (Hx & _ & _). pose proof (count_delete m2 _ _ Hx) as Hd. unfold entryCount in *. rewrite E. cbn in Hd |- *. lia.
    + destruct (N eq_refl); [unfold entryCount; by rewrite E|]. destruct Hev; [|done]. unfold entryCount in *. rewrite E. cbn. lia.
  - intros Hlt. destruct victim as [x|]; [destruct (V x eq_refl) as (_ & _ & ?); lia|].
    apply evicts_settled_count in EV. unfold settledCount in *. by rewrite S2 in EV.
  - rewrite E. destruct victim as [x|]; cbn; [|by rewrite E2, lookup_insert_eq]. destruct (V x eq_refl) as (Hx & Hsx & _).
    rewrite lookup_delete_ne; [by rewrite E2, lookup_insert_eq|]. intros He. rewrite He, E2, lookup_insert_eq in Hx. injection Hx as <-. by rewrite Hst in Hsx.
  - intros id x Hx Hsx. assert (Hne' : id ≠ enMailID e) by (intros ->; congruence).
    assert (Hx2 : Entries m2 !! id = Some x) by (by rewrite E2, lookup_insert_ne). rewrite E. destruct victim as [y|]; cbn; [|done].
    destruct (V y eq_refl) as (Hy & Hsy & _). rewrite lookup_delete_ne; [done|]. intros He. rewrite He, Hx2 in Hy. injection Hy as ->. congruence.
  - intros id P Hid. rewrite <- (evicts_tides P nowUnix victim m2 _ id EV C2). unfold slotOf. rewrite E2, S2, lookup_insert_ne by done. constructor.
  - rewrite R2, R3, R4. by split_and!.
Qed.

Lemma full_init p m : full (boxInit p m) = full m.
Proof. done. Qed.
Lemma core_init p m : box_core m → box_core (boxInit p m).
Proof. by intros []. Qed.

(** ** Delivery *)

(** The entry that a mail arrives as. *)
Definition arrival (id : bytes) (nowUnix expires global : Z) : Entry := en_global global (en_expiry expires (newEntry id nowUnix)).

Lemma boxDeliver_added id nowUnix m m' e : boxDeliver id nowUnix m = (m', e, true) →
  slotOf m id = (None, None) ∧ e = newEntry id nowUnix ∧ m' = set_UpdatedAt nowUnix (set_Unread (Unread m + 1) (set_Entries (<[id := newEntry id nowUnix]> (Entries m)) m)).
Proof.
  unfold boxDeliver, slotOf. destruct (SettledClaims m !! id) eqn:Hs; [done|]. destruct (Entries m !! id) eqn:He; [done|].
  intros [= <- <-]. by split_and!.
Qed.

Lemma lands_tides nowUnix e m m' id : slotOf m (enMailID e) = (None, None) → lands nowUnix e m m' →
  rtc (tide (λ x, id = enMailID e ∧ x = e) nowUnix) (slotOf m id) (slotOf m' id).
Proof.
  intros Hn L. destruct (decide (id = enMailID e)) as [->|Hne]; [|by apply (ld_other _ _ _ _ L)].
  rewrite Hn. unfold slotOf. rewrite (ld_entry _ _ _ _ L), (bc_apart _ (ld_core _ _ _ _ L)) by (exists e; apply L). apply rtc_once. by constructor.
Qed.

Lemma overflow_settled m : settledClaimsOverflow m = false → settledCount m ≤ MaxSettledClaims.
Proof. unfold settledClaimsOverflow. destruct (Z.ltb_spec MaxSettledClaims (settledCount m)); [done|lia]. Qed.

(** The mailbox of player [p] after an operation, and what the operation left alone. *)
Record kept (p : Z) (m m' : Mailbox) : Prop := {
  kp_ok : box_ok m';
  kp_player : PlayerID m' = p;
  kp_watermark : BroadcastWatermark m' = BroadcastWatermark m
}.

Lemma deliver_effect p mailID nowUnix expiry m found m' r :
  box_ok m → deliverMutate p mailID nowUnix expiry m found = Ok (m', true, r) →
  kept p m m' ∧ (0 < expiry → nowUnix < expiry) ∧
  ∀ id, rtc (tide (λ x, id = mailID ∧ x = arrival mailID nowUnix (if 0 <? expiry then expiry else 0) 0) nowUnix) (slotOf m id) (slotOf m' id).
Proof.
  intros [C Hc Hs]. unfold deliverMutate. destruct (expireEntries_shrinks nowUnix (boxInit p m)) as (m1 & ch & -> & SH & _).
  assert (C1 : box_core m1) by (apply SH; [by apply core_init|unfold entryCount in *; cbn; lia]).
  assert (Hc1 : entryCount m1 ≤ MaxMailboxEntries) by (pose proof (sh_size _ _ _ SH); unfold entryCount in *; cbn in *; lia).
  destruct ((0 <? expiry) && (expiry <=? nowUnix)) eqn:Hexp; [done|]. destruct (negb _ && negb _ && full m1) eqn:Hfull; [done|].
  destruct (boxDeliver mailID nowUnix m1) as [[m2 e] added] eqn:HD. destruct (settledClaimsOverflow _) eqn:Hov; [done|]. intros [= <- Hadd _]. subst added.
  apply boxDeliver_added in HD as (Hslot & -> & ->). pose proof Hslot as [= H1 H2].
  assert (Hf : full m1 = false).
  { apply andb_false_iff in Hfull as [Hfull|]; [|done]. by rewrite H1, H2 in Hfull. }
  set (e := arrival mailID nowUnix (if 0 <? expiry then expiry else 0) 0).
  match type of Hov with settledClaimsOverflow ?x = _ => set (m3 := x) in * end.
  assert (L : lands nowUnix e m1 m3).
  { unfold m3. cbn. rewrite lookup_insert_eq. apply (lands_evict nowUnix e m1); try done; unfold e; destruct (0 <? expiry); try done; cbn.
    by rewrite insert_insert_eq. }
  pose proof (sh_rest _ _ _ SH) as (R1 & R2 & R3 & R4). pose proof (ld_rest _ _ _ _ L) as (Q1 & Q2 & Q3). split_and!.
  - split; [split; [apply L..|by apply overflow_settled]|by rewrite Q1, R4|by rewrite Q2, R2].
  - intros. apply andb_false_iff in Hexp as [Hx|Hx]; lia.
  - intros id. etrans; [by apply (shrinks_tides _ nowUnix (boxInit p m) m1 id SH), core_init|]. exact (lands_tides nowUnix e m1 _ id Hslot L).
Qed.

(** ** Merging broadcasts *)

Definition landed (nowUnix : Z) (g : GlobalMail) : Entry := arrival (gmMailID g) nowUnix (gmExpiresAtUnix g) (gmID g).
Definition known (m : Mailbox) (id : bytes) : Prop := is_Some (Entries m !! id) ∨ is_Some (SettledClaims m !! id).

(** The mails of the ledger that a merge considers. *)
Definition wanted (adm : GlobalMail → bool) (m : Mailbox) (g : GlobalMail) : Prop := BroadcastWatermark m < gmID g ∧ adm g = true.

Lemma unknown_slot m id : ¬ known m id → slotOf m id = (None, None).
Proof. unfold known, slotOf. intros H. destruct (Entries m !! id), (SettledClaims m !! id); (done || destruct H; eauto). Qed.

Lemma tide_unknown nowUnix s s' : tide nothing nowUnix s s' → s = (None, None) → False.
Proof. by destruct 1. Qed.

Lemma tides_unknown nowUnix s s' : rtc (tide nothing nowUnix) s s' → s = (None, None) → s' = (None, None).
Proof. induction 1; [done|]. intros ->. by destruct (tide_unknown _ _ _ H). Qed.

Lemma lands_known nowUnix e m m' id : lands nowUnix e m m' → known m' id → known m id ∨ id = enMailID e.
Proof.
  intros L K. destruct (decide (id = enMailID e)) as [->|Hne]; [by right|left].
  destruct (decide (known m id)) as [?|Hn]; [done|]. apply unknown_slot in Hn. pose proof (ld_other _ _ _ _ L id nothing Hne) as T.
  apply tides_unknown in T as [= T1 T2]; [|done]. destruct K as [K|K]; [rewrite T1 in K|rewrite T2 in K]; by destruct K.
Qed.

Lemma mergeOne_skip adm nowUnix m g : mergeOne adm nowUnix m g = MergeSkip → ¬ wanted adm m g ∨ known m (gmMailID g).
Proof.
  unfold mergeOne, wanted, known. destruct (_ || _) eqn:E1.
  { intros _. left. apply orb_true_iff in E1 as [E1%Z.leb_le|E1%negb_true_iff]; [lia|]. rewrite E1. naive_solver. }
  case_bool_decide; [tauto|]. case_bool_decide; [tauto|]. destruct (full m); [done|].
  destruct (boxDeliver _ _ _) as [[m1 e] a]. by destruct (_ && _).
Qed.

Lemma mergeOne_add adm nowUnix m g m' added : box_ok m → mergeOne adm nowUnix m g = MergeAdd m' added →
  added = true ∧ wanted adm m g ∧ slotOf m (gmMailID g) = (None, None) ∧ lands nowUnix (landed nowUnix g) m m' ∧ box_ok m'.
Proof.
  intros [C Hc Hs]. unfold mergeOne. destruct (_ || _) eqn:E1; [done|]. apply orb_false_iff in E1 as [E1%Z.leb_gt E2%negb_false_iff].
  case_bool_decide as He; [done|]. case_bool_decide as Hse; [done|]. destruct (full m) eqn:Hf; [done|].
  destruct (boxDeliver (gmMailID g) nowUnix m) as [[m1 e] a] eqn:HD. destruct (_ && _) eqn:Hov; [done|]. intros [= <- <-].
  assert (Hslot : slotOf m (gmMailID g) = (None, None)) by (apply unknown_slot; by intros [?|?]).
  assert (a = true) as -> by (pose proof Hslot as [= H1 H2]; unfold boxDeliver in HD; rewrite H1, H2 in HD; by injection HD).
  apply boxDeliver_added in HD as (_ & -> & ->).
  match type of Hov with _ && settledClaimsOverflow ?x = _ => set (m3 := x) in * end.
  assert (L : lands nowUnix (landed nowUnix g) m m3).
  { unfold m3. cbn. apply (lands_evict nowUnix _ m); try done. cbn. by rewrite insert_insert_eq. }
  split_and!; [done|by split|done|done|]. split; [apply L..|]. apply andb_false_iff in Hov as [Hn%Z.leb_gt|Ho%overflow_settled]; [|done].
  pose proof (ld_settled _ _ _ _ L Hn). lia.
Qed.

(** The mails below the place where a merge stopped. *)
Definition below (stop : option Z) (g : GlobalMail) : Prop := match stop with Some w => gmID g ≤ w | None => True end.

Definition mails_ok (mails : list GlobalMail) : Prop :=
  StronglySorted (λ a b, gmID a < gmID b) mails ∧ Forall (λ g, 0 < gmID g < 2^64) mails.

Definition by_merge (adm : GlobalMail → bool) (nowUnix : Z) (mails : list GlobalMail) (stop : option Z) (m : Mailbox) (id : bytes) (x : Entry) : Prop :=
  ∃ g, g ∈ mails ∧ wanted adm m g ∧ below stop g ∧ id = gmMailID g ∧ x = landed nowUnix g.

Record merged (adm : GlobalMail → bool) (nowUnix : Z) (mails : list GlobalMail) (stop : option Z) (m m' : Mailbox) : Prop := {
  mg_ok : box_ok m';
  mg_rest : PlayerID m' = PlayerID m ∧ BroadcastWatermark m' = BroadcastWatermark m ∧ Profile m' = Profile m;
  mg_tides : ∀ id, rtc (tide (by_merge adm nowUnix mails stop m id) nowUnix) (slotOf m id) (slotOf m' id);
  mg_kept : ∀ id x, Entries m !! id = Some x → evictableStatus (enStatus x) = false → Entries m' !! id = Some x;
  mg_done : ∀ g, g ∈ mails → wanted adm m g → below stop g →
    known m (gmMailID g) ∨ ∃ g', g' ∈ mails ∧ gmMailID g' = gmMailID g ∧ Entries m' !! gmMailID g = Some (landed nowUnix g');
  mg_stop : ∀ w, stop = Some w → ∃ g, g ∈ mails ∧ wanted adm m g ∧ w = gmID g - 1
}.

Lemma merged_refl adm nowUnix m : box_ok m → merged adm nowUnix [] None m m.
Proof. intros B. split; [done|done|intros; constructor|done| |done]. intros g Hg. by apply elem_of_nil in Hg. Qed.

Lemma merged_stop adm nowUnix g mails m : mails_ok (g :: mails) → box_ok m → wanted adm m g →
  merged adm nowUnix (g :: mails) (Some (u64 (gmID g - 1))) m m.
Proof.
  intros [Hs Hr] B W. apply StronglySorted_inv in Hs as [_ Hs]. apply Forall_cons in Hr as [Hg _]. rewrite u64_small by (unfold_int; lia).
  split; [done|done|intros; constructor|done| |].
  - intros g' [->|Hin]%elem_of_cons _ Hb; cbn in Hb; [lia|]. rewrite Forall_forall in Hs. specialize (Hs g' Hin). lia.
  - intros w [= <-]. exists g. split; [by left|]. by split.
Qed.

Lemma merged_skip adm nowUnix g mails stop m m' : ¬ wanted adm m g ∨ known m (gmMailID g) →
  merged adm nowUnix mails stop m m' → merged adm nowUnix (g :: mails) stop m m'.
Proof.
  intros Hskip [M1 M2 M3 M4 M5 M6]. split; [done|done| |done| |].
  - intros id. eapply tides_mono; [|apply M3]. intros x (g' & H1 & H2). exists g'. split; [by right|done].
  - intros g' [->|Hin]%elem_of_cons W Hb; [left; by destruct Hskip|]. destruct (M5 g' Hin W Hb) as [?|(g2 & H2 & H3)]; [by left|right].
    exists g2. split; [by right|done].
  - intros w Hw. destruct (M6 w Hw) as (g' & H1 & H2). exists g'. split; [by right|done].
Qed.

Lemma wanted_rest adm m m1 g : BroadcastWatermark m1 = BroadcastWatermark m → wanted adm m1 g ↔ wanted adm m g.
Proof. unfold wanted. by intros ->. Qed.

Lemma merged_add adm nowUnix g mails stop m m1 m' : mails_ok (g :: mails) → wanted adm m g → slotOf m (gmMailID g) = (None, None) →
  lands nowUnix (landed nowUnix g) m m1 → merged adm nowUnix mails stop m1 m' → merged adm nowUnix (g :: mails) stop m m'.
Proof.
  intros [Hs Hr] W Hn L [M1 M2 M3 M4 M5 M6]. pose proof (ld_rest _ _ _ _ L) as (R1 & R2 & R3).
  apply StronglySorted_inv in Hs as [_ Hs]. rewrite Forall_forall in Hs.
  assert (Hb : below stop g).
  { destruct stop as [w|]; [|done]. destruct (M6 w eq_refl) as (g' & Hin & _ & ->). specialize (Hs g' Hin). cbn. lia. }
  assert (Hland : Entries m' !! gmMailID g = Some (landed nowUnix g)) by (apply M4; [apply (ld_entry _ _ _ _ L)|done]).
  split; [done|..].
  - destruct M2 as (-> & -> & ->). done.
  - intros id. etrans.
    + eapply tides_mono; [|exact (lands_tides nowUnix (landed nowUnix g) m m1 id Hn L)]. intros x [-> ->]. exists g. split_and!; [by left|done..].
    + eapply tides_mono; [|apply M3]. intros x (g' & H1 & H2 & H3 & H4 & H5). exists g'. split_and!; [by right|by apply (wanted_rest _ m m1)|done..].
  - intros id x Hx Hsx. apply M4; [|done]. by apply (ld_kept _ _ _ _ L).
  - intros g' [->|Hin]%elem_of_cons W' Hb'; [right; exists g; split_and!; [by left|done|done]|].
    destruct (M5 g' Hin) as [K|(g2 & H2 & H3)]; [by apply (wanted_rest _ m m1)|done| |right; exists g2; split; [by right|done]].
    apply (lands_known _ _ _ _ _ L) in K as [K|K]; [by left|right]. exists g. split_and!; [by left|done|]. cbn in K. by rewrite K.
  - intros w Hw. destruct (M6 w Hw) as (g' & H1 & H2 & H3). exists g'. split_and!; [by right|by apply (wanted_rest _ m m1)|done].
Qed.

Lemma mergeOne_stop adm nowUnix m g : mergeOne adm nowUnix m g = MergeStop → wanted adm m g.
Proof.
  unfold mergeOne, wanted. destruct (_ || _) eqn:E1; [done|]. apply orb_false_iff in E1 as [E1%Z.leb_gt E2%negb_false_iff]. done.
Qed.

Lemma mergeLoop_merged adm nowUnix mails : mails_ok mails → ∀ m n m' n' stop, box_ok m →
  mergeLoop adm nowUnix mails m n = (m', n', stop) → merged adm nowUnix mails stop m m' ∧ n ≤ n'.
Proof.
  induction mails as [|g mails IH]; intros HM m n m' n' stop B E; cbn in E.
  { injection E as <- <- <-. split; [by apply merged_refl|lia]. }
  assert (HM' : mails_ok mails) by (destruct HM as [H1 H2]; split; [by apply StronglySorted_inv in H1 as []|by apply Forall_cons in H2 as []]).
  destruct (mergeOne adm nowUnix m g) as [| |m1 added] eqn:E1.
  - destruct (IH HM' _ _ _ _ _ B E) as [M ?]. split; [|done]. apply merged_skip; [by eapply mergeOne_skip|done].
  - injection E as <- <- <-. split; [|lia]. apply merged_stop; [done|done|by eapply mergeOne_stop].
  - destruct (mergeOne_add _ _ _ _ _ _ B E1) as (-> & W & Hn & L & B1). destruct (IH HM' _ _ _ _ _ B1 E) as [M ?].
    split; [by eapply merged_add|lia].
Qed.

Record ledger_ok (l : BroadcastLedger) : Prop := {
  lo_mails : mails_ok (blMails l);
  lo_head : ∀ g, g ∈ blMails l → gmID g ≤ blHead l;
  lo_ids : NoDup (map gmMailID (blMails l))
}.

(** What a merge with a ledger did to a mailbox. *)
Record merge_ok (adm : GlobalMail → bool) (nowUnix : Z) (l : BroadcastLedger) (m m' : Mailbox) : Prop := {
  mo_ok : box_ok m';
  mo_rest : PlayerID m' = PlayerID m ∧ Profile m' = Profile m;
  mo_watermark : BroadcastWatermark m ≤ BroadcastWatermark m' ≤ Z.max (BroadcastWatermark m) (blHead l);
  mo_tides : ∀ id, rtc (tide (by_merge adm nowUnix (blMails l) (Some (BroadcastWatermark m')) m id) nowUnix) (slotOf m id) (slotOf m' id);
  mo_kept : ∀ id x, Entries m !! id = Some x → evictableStatus (enStatus x) = false → Entries m' !! id = Some x;
  mo_done : ∀ g, g ∈ blMails l → wanted adm m g → gmID g ≤ BroadcastWatermark m' →
    known m (gmMailID g) ∨ Entries m' !! gmMailID g = Some (landed nowUnix g)
}.

Lemma merge_ok_refl adm nowUnix l m : box_ok m → merge_ok adm nowUnix l m m.
Proof. intros B. split; [done|done|lia|intros; constructor|done|]. intros g _ [W _] Hle. lia. Qed.

Lemma ledger_mail_eq l g g' : ledger_ok l → g ∈ blMails l → g' ∈ blMails l → gmMailID g' = gmMailID g → g' = g.
Proof.
  intros [_ _ N] [i Hi]%list_elem_of_lookup [j Hj]%list_elem_of_lookup E. change (map ?f) with (fmap (M:=list) f) in N.
  assert (j = i) as -> by (eapply (NoDup_lookup _ _ _ _ N); rewrite list_lookup_fmap; [rewrite Hj|rewrite Hi]; cbn; [reflexivity|by rewrite E]). congruence.
Qed.

(** The watermark moves on a mailbox whose mails were merged. *)
Lemma merge_ok_at adm nowUnix l stop m m1 m' : ledger_ok l → BroadcastWatermark m < blHead l → merged adm nowUnix (blMails l) stop m m1 →
  Entries m' = Entries m1 → Unread m' = Unread m1 → SettledClaims m' = SettledClaims m1 → PlayerID m' = PlayerID m1 → Profile m' = Profile m1 →
  BroadcastWatermark m' = default (blHead l) stop → merge_ok adm nowUnix l m m'.
Proof.
  intros LO Hlt [B1 (R1 & R2 & R3) M3 M4 M5 M6] E1 E2 E3 E4 E5 Ew. destruct B1 as [[C1 C2 C3] S1 S2].
  assert (Hw : BroadcastWatermark m ≤ BroadcastWatermark m' ≤ blHead l).
  { rewrite Ew. destruct stop as [w|]; cbn; [|lia]. destruct (M6 w eq_refl) as (g & Hin & [W _] & ->). pose proof (lo_head _ LO g Hin). lia. }
  assert (Hb : ∀ g, g ∈ blMails l → below stop g ↔ gmID g ≤ BroadcastWatermark m').
  { intros g Hin. rewrite Ew. destruct stop; cbn; [done|]. pose proof (lo_head _ LO g Hin). tauto. }
  assert (Hslot : ∀ id, slotOf m' id = slotOf m1 id) by (intros id; unfold slotOf; by rewrite E1, E3).
  split.
  - split; [split|..]; unfold entryCount, settledCount in *; rewrite ?E1, ?E2, ?E3; done.
  - rewrite E4, E5. done.
  - lia.
  - intros id. rewrite Hslot. eapply tides_mono; [|apply M3]. intros x (g & H1 & H2 & H3 & H4). exists g. split_and!; [done|done| |apply H4..]. by apply Hb.
  - intros id x Hx Hsx. rewrite E1. by apply M4.
  - intros g Hin W Hle. destruct (M5 g Hin W) as [?|(g' & Hin' & Eg & Hx)]; [by apply Hb|by left|right].
    rewrite E1, Hx. by rewrite (ledger_mail_eq l g g' LO).
Qed.

Lemma mergeBroadcasts_ok adm nowUnix l m m' n stopped : ledger_ok l → box_ok m → mergeBroadcasts l adm nowUnix m = (m', n, stopped) →
  merge_ok adm nowUnix l m m' ∧ 0 ≤ n ∧ (stopped = false → blHead l ≤ BroadcastWatermark m').
Proof.
  intros LO B. unfold mergeBroadcasts. destruct (Z.leb_spec (blHead l) (BroadcastWatermark m)) as [Hle|Hlt].
  { intros [= <- <- <-]. split_and!; [by apply merge_ok_refl|done|done]. }
  destruct (mergeLoop adm nowUnix (blMails l) m 0) as [[m1 n1] stop] eqn:E. intros [= <- <- <-].
  destruct (mergeLoop_merged _ _ _ (lo_mails _ LO) _ _ _ _ _ B E) as [M Hn]. pose proof M as [_ (_ & Rw & _) _ _ _ M6].
  change (match stop with Some w => w | None => blHead l end) with (default (blHead l) stop). rewrite Rw.
  destruct (Z.ltb_spec (BroadcastWatermark m) (default (blHead l) stop)) as [Hw|Hw].
  - split_and!; [by apply (merge_ok_at _ _ _ stop m m1)|done|]. by destruct stop.
  - assert (Hs : BroadcastWatermark m1 = default (blHead l) stop).
    { rewrite Rw. destruct stop as [w|]; cbn in *; [|lia]. destruct (M6 w eq_refl) as (g & _ & [W _] & ->). lia. }
    split_and!; [by apply (merge_ok_at _ _ _ stop m m1)|done|]. rewrite Hs. by destruct stop.
Qed.

(** ** Pulling broadcasts *)

(** What a refresh merges with. *)
Definition refreshAdmit (lz : lazy) (nowUnix : Z) (profile : option BroadcastProfile) (g : GlobalMail) : bool :=
  match lz, profile with Some Eligible, Some p => admits Eligible p g nowUnix | _, _ => false end.
Definition ledgerOf (ledger : option BroadcastLedger) : BroadcastLedger := default emptyLedger ledger.

Lemma mergeInto_ok lz ledger nowUnix m m' n stopped : ledger_ok (ledgerOf ledger) → box_ok m → mergeInto lz ledger nowUnix m = (m', n, stopped) →
  merge_ok (refreshAdmit lz nowUnix (Profile m)) nowUnix (ledgerOf ledger) m m' ∧
  (is_Some lz → is_Some (Profile m) → is_Some ledger → stopped = false → blHead (ledgerOf ledger) ≤ BroadcastWatermark m').
Proof.
  intros LO B. unfold mergeInto, refreshAdmit. destruct ledger as [l|]; cbn [ledgerOf default] in *.
  2:{ intros [= <- <- <-]. split; [by apply merge_ok_refl|]. by intros _ _ []. }
  destruct lz as [el|]; [|intros [= <- <- <-]; split; [by apply merge_ok_refl|by intros []]].
  destruct (Profile m) as [p|] eqn:Hp; [|intros [= <- <- <-]; split; [by apply merge_ok_refl|by intros _ []]].
  intros E. destruct (mergeBroadcasts_ok _ _ _ _ _ _ _ LO B E) as (M & _ & Hst). split; [exact M|by intros _ _ _].
Qed.

Lemma recordProfile_same profile nowUnix m m' ch : recordProfile profile nowUnix m = (m', ch) →
  Entries m' = Entries m ∧ Unread m' = Unread m ∧ SettledClaims m' = SettledClaims m ∧ PlayerID m' = PlayerID m ∧ BroadcastWatermark m' = BroadcastWatermark m ∧
  (ch = false → m' = m).
Proof. unfold recordProfile. destruct profile as [p|]; [|by intros [= <- <-]]. destruct (match Profile m with Some q => _ | None => _ end); by intros [= <- <-]. Qed.

(** A refresh: expiry, the new profile, then the merge. *)
Lemma refresh_effect lz p profile ledger nowUnix m found m' save r : ledger_ok (ledgerOf ledger) → box_ok m →
  refreshMutate lz p profile ledger nowUnix m found = Ok (m', save, r) → found || bool_decide (is_Some profile) = true →
  ∃ m1, box_ok m1 ∧ BroadcastWatermark m1 = BroadcastWatermark m ∧ PlayerID m1 = p ∧
    (∀ P id, rtc (tide P nowUnix) (slotOf m id) (slotOf m1 id)) ∧
    (∀ id x, Entries m1 !! id = Some x → Entries m !! id = Some x) ∧
    merge_ok (refreshAdmit lz nowUnix (Profile m')) nowUnix (ledgerOf ledger) m1 m' ∧
    (is_Some lz → is_Some (Profile m') → is_Some ledger → snd r = false → blHead (ledgerOf ledger) ≤ BroadcastWatermark m').
Proof.
  intros LO [C Hc Hs] E Hfound. unfold refreshMutate in E. destruct (negb found && _) eqn:E0.
  { exfalso. destruct found; [done|]. destruct profile; [done|]. cbn in Hfound. done. }
  destruct (expireEntries_shrinks nowUnix (boxInit p m)) as (m1 & ch & HE & SH & _). rewrite HE in E.
  assert (C1 : box_core m1) by (apply SH; [by apply core_init|unfold entryCount in *; cbn; lia]).
  pose proof (sh_size _ _ _ SH) as Hc1. pose proof (sh_rest _ _ _ SH) as (S1 & S2 & S3 & S4).
  destruct (recordProfile profile nowUnix m1) as [m2 recorded] eqn:HR. destruct (recordProfile_same _ _ _ _ _ HR) as (R1 & R2 & R3 & R4 & R5 & _).
  destruct (mergeInto lz ledger nowUnix m2) as [[m3 n] stopped] eqn:HM. injection E as <- _ <-.
  assert (B2 : box_ok m2).
  { destruct C1 as [A1 A2 A3]. split; [split; rewrite ?R1, ?R2, ?R3; done|..]; unfold entryCount, settledCount in *; rewrite ?R1, ?R3; [cbn in Hc1; lia|by rewrite S1]. }
  destruct (mergeInto_ok _ _ _ _ _ _ _ LO B2 HM) as [M Hfull]. pose proof (mo_rest _ _ _ _ _ M) as [_ HP].
  exists m2. rewrite HP. split_and!; [done|by rewrite R5, S2|by rewrite R4, S4| | |done|exact Hfull].
  - intros P id. unfold slotOf at 2. rewrite R1, R3. by apply (shrinks_tides P nowUnix (boxInit p m) m1 id SH), core_init.
  - intros id x. rewrite R1. intros Hx. by apply SH in Hx as [Hx _].
Qed.

(** The mailbox a refresh answers with. *)
Lemma refresh_answer lz p profile ledger nowUnix m found m' save r : ledger_ok (ledgerOf ledger) → box_ok m →
  refreshMutate lz p profile ledger nowUnix m found = Ok (m', save, r) → found || bool_decide (is_Some profile) = true →
  fst (fst r) = m' ∨ (fst (fst r) = m ∧ BroadcastWatermark m' = BroadcastWatermark m ∧ Profile m' = Profile m).
Proof.
  intros LO B E Hfound. unfold refreshMutate in E. destruct (negb found && _) eqn:E0.
  { exfalso. destruct found; [done|]. destruct profile; [done|]. cbn in Hfound. done. }
  destruct (expireEntries nowUnix (boxInit p m)) as [m1 ch] eqn:HE. destruct (recordProfile profile nowUnix m1) as [m2 recorded] eqn:HR.
  destruct (mergeInto lz ledger nowUnix m2) as [[m3 n] stopped] eqn:HM. injection E as <- <- <-. cbn [fst snd].
  destruct (ch || recorded || (0 <? n) || _) eqn:Hch; [by left|right].
  apply orb_false_iff in Hch as [[[-> ->]%orb_false_iff _]%orb_false_iff Hw%negb_false_iff%Z.eqb_eq]. split; [done|].
  destruct (expireEntries_shrinks nowUnix (boxInit p m)) as (x & ? & HE' & _ & Hx). rewrite HE in HE'. injection HE' as <- <-. specialize (Hx eq_refl).
  destruct (recordProfile_same _ _ _ _ _ HR) as (_ & _ & _ & _ & _ & Hr). specialize (Hr eq_refl). subst m2 m1. split; [exact Hw|].
  assert (B1 : box_ok (boxInit p m)) by (destruct B as [[] ? ?]; by split). destruct (mergeInto_ok _ _ _ _ _ _ _ LO B1 HM) as [M _].
  by destruct (mo_rest _ _ _ _ _ M) as [_ ->].
Qed.

(** ** Operations on one entry *)

(** [m'] is [m] with the entry [e] of one mail replaced by [e']. *)
Record touches (id : bytes) (e e' : Entry) (m m' : Mailbox) : Prop := {
  to_before : Entries m !! id = Some e;
  to_entries : Entries m' = <[id := e']> (Entries m);
  to_settled : SettledClaims m' = SettledClaims m;
  to_unread : Unread m' = i32 (Unread m - (if isUnread e then 1 else 0) + (if isUnread e' then 1 else 0));
  to_id : enMailID e' = enMailID e;
  to_watermark : BroadcastWatermark m' = BroadcastWatermark m
}.

Lemma unread_small m : box_ok m → is_i32 (Unread m - 1) ∧ is_i32 (Unread m).
Proof. intros [C Hc _]. rewrite (bc_unread _ C). pose proof (entries_small m). unfold_int. unfold MaxMailboxEntries in *. lia. Qed.

Lemma touches_ok id e e' m m' : touches id e e' m m' → box_ok m → box_ok m'.
Proof.
  intros [He E S U I _] B. pose proof (unread_small m B). destruct B as [[C1 C2 C3] S1 S2].
  assert (Hsz : size (Entries m') = size (Entries m)) by (rewrite E; apply map_size_insert_Some; by exists e).
  split; [split|..]; unfold entryCount, settledCount in *; rewrite ?S, ?Hsz; try done.
  - intros k x. rewrite E. intros [[<- <-]|[_ H']]%lookup_insert_Some; [by rewrite I, (C1 _ _ He)|by apply C1].
  - rewrite U, E, C2, unread_insert, (unread_delete (Entries m) id e He).
    pose proof (unread_bounds (delete id (Entries m))). pose proof (map_size_delete_Some id (Entries m) (ex_intro _ e He)).
    rewrite i32_small; [lia|]. unfold_int. unfold MaxMailboxEntries in *. destruct (isUnread e), (isUnread e'); lia.
  - intros k. rewrite E. intros [x [[<- _]|[_ H']]%lookup_insert_Some]; apply C3; [by exists e|by exists x].
Qed.

Lemma touches_slot id e e' m m' k : touches id e e' m m' → box_ok m →
  (k = id ∧ slotOf m k = (Some e, None) ∧ slotOf m' k = (Some e', None)) ∨ (k ≠ id ∧ slotOf m' k = slotOf m k).
Proof.
  intros [He E S _ _ _] [C _ _]. unfold slotOf. rewrite E, S. destruct (decide (k = id)) as [->|Hne]; [left|right].
  - rewrite He, lookup_insert_eq, (bc_apart _ C) by (by exists e). done.
  - by rewrite lookup_insert_ne.
Qed.

Lemma touches_kept id e e' p m m' : touches id e e' (boxInit p m) m' → PlayerID m' = p → box_ok m → touches id e e' m m' ∧ kept p m m'.
Proof. intros T Hp B. assert (T' : touches id e e' m m') by (destruct T; by split). split; [done|]. split; [by eapply touches_ok|done|apply T']. Qed.

Definition statusEntry (next : Status) (nowUnix : Z) (e : Entry) : Entry := en_updated nowUnix (en_status next e).

Lemma setStatus_touches id next nowUnix m e : Entries m !! id = Some e → enStatus e ≠ next → box_ok m →
  ∃ m', setStatus id next nowUnix m = (m', Some (statusEntry next nowUnix e), true) ∧ touches id e (statusEntry next nowUnix e) m m' ∧ PlayerID m' = PlayerID m.
Proof.
  intros He Hne B. destruct (unread_small m B). unfold setStatus. rewrite He, bool_decide_eq_false_2 by done. eexists. split; [reflexivity|].
  unfold statusEntry. split.
  - split; cbn [BroadcastWatermark SettledClaims set_UpdatedAt set_Entries]; try done; unfold isUnread; cbn [enStatus en_updated en_status];
      repeat case_bool_decide; try congruence; cbn; rewrite ?Z.sub_0_r, ?Z.add_0_r; rewrite ?i32_small by done; done.
  - repeat case_bool_decide; done.
Qed.

Lemma transition_effect p id nowUnix next m found m' r : box_ok m → transitionMutate p id nowUnix next m found = Ok (m', true, r) →
  ∃ e, next e ≠ enStatus e ∧ touches id e (statusEntry (next e) nowUnix e) m m' ∧ kept p m m'.
Proof.
  intros B. unfold transitionMutate. destruct found; [|done]. cbn [negb]. destruct (Entries (boxInit p m) !! id) as [e|] eqn:He; [|done].
  destruct (decide (enStatus e = next e)) as [Heq|Hne].
  { unfold setStatus. rewrite He, bool_decide_eq_true_2 by done. done. }
  assert (B' : box_ok (boxInit p m)) by (destruct B as [[] ? ?]; by split).
  destruct (setStatus_touches id (next e) nowUnix _ e He Hne B') as (m1 & -> & T & Hp). intros [= <- _]. exists e. split; [done|]. by apply touches_kept.
Qed.

(** The entry that a reservation leaves. *)
Definition reservedEntry (token : bytes) (expires deadline nowUnix : Z) (e : Entry) : Entry :=
  mkEntry (enMailID e) (enStatus e) (enEnvelopeExpiresAtUnix e) (enGlobalID e) (if bool_decide (enClaimToken e = []) then token else enClaimToken e) deadline
    expires (i32 (enClaimAttempts e + 1)) (enDeliveredAtUnix e) nowUnix.

Lemma claimable_open e nowUnix : claimable e nowUnix = Ok tt → evictableStatus (enStatus e) = false.
Proof. unfold claimable. by destruct (enStatus e). Qed.

Lemma reserve_effect p id token env nowUnix lease m found m' save c : box_ok m → reserveMutate p id token env nowUnix lease m found = Ok (m', save, c) →
  ∃ e, claimable e nowUnix = Ok tt ∧ touches id e (reservedEntry token (eExpiresAtUnix env) (i64 (nowUnix + lease)) nowUnix e) m m' ∧ kept p m m' ∧
    save = true ∧ clToken c = enClaimToken (reservedEntry token (eExpiresAtUnix env) (i64 (nowUnix + lease)) nowUnix e).
Proof.
  intros B. unfold reserveMutate. destruct found; [|done]. cbn [negb]. destruct (Entries (boxInit p m) !! id) as [e|] eqn:He.
  2:{ destruct (SettledClaims _ !! id) as [s|]; [|done]. by destruct (scDeleted s). }
  destruct (claimable e nowUnix) as [[]|] eqn:Hcl; [|done]. destruct (_ || _); [done|]. intros [= <- <- <-]. exists e. split; [done|].
  destruct (unread_small m B) as [_ Hu]. assert (T : ∀ x, touches id e (reservedEntry token (eExpiresAtUnix env) (i64 (nowUnix + lease)) nowUnix e) (boxInit p m)
    (set_UpdatedAt x (set_Entries (<[id := reservedEntry token (eExpiresAtUnix env) (i64 (nowUnix + lease)) nowUnix e]> (Entries m)) (boxInit p m)))).
  { intros x. split; cbn; try done. unfold isUnread. cbn. rewrite i32_small; [lia|]. replace (_ - _ + _) with (Unread m) by lia. done. }
  destruct (touches_kept _ _ _ _ _ _ (T nowUnix) eq_refl B) as [T' K]. by split_and!.
Qed.

(** The entry that a commit leaves. *)
Definition committedEntry (nowUnix : Z) (e : Entry) : Entry := en_deadline 0 (statusEntry StatusClaimed nowUnix e).

Lemma commit_effect p id token nowUnix m found m' r : box_ok m → commitClaimMutate p id token nowUnix m found = Ok (m', true, r) →
  ∃ e, enClaimToken e = token ∧ evictableStatus (enStatus e) = false ∧ touches id e (committedEntry nowUnix e) m m' ∧ kept p m m'.
Proof.
  intros B. unfold commitClaimMutate. destruct found; [|done]. cbn [negb]. destruct (Entries (boxInit p m) !! id) as [e|] eqn:He.
  2:{ destruct (SettledClaims _ !! id) as [s|]; [|done]. destruct (scDeleted s); [done|]. by destruct (negb _). }
  destruct (bool_decide_reflect (enClaimToken e = token)) as [Ht|]; [|done]. cbn [negb].
  assert (B' : box_ok (boxInit p m)) by (destruct B as [[] ? ?]; by split).
  destruct (evictableStatus (enStatus e)) eqn:Hst; [by destruct (enStatus e)|].
  assert (Hne : enStatus e ≠ StatusClaimed) by (intros Hx; by rewrite Hx in Hst).
  destruct (setStatus_touches id StatusClaimed nowUnix _ e He Hne B') as (m1 & HS & T & Hp). rewrite HS. cbn [default].
  intros E. assert (m' = set_Entries (<[id := committedEntry nowUnix e]> (Entries m1)) m1) as -> by (destruct (enStatus e); naive_solver).
  exists e. split; [done|]. split; [done|]. apply touches_kept; [|done|done]. destruct T as [T1 T2 T3 T4 T5 T6]. split; cbn; try done.
  by rewrite T2, insert_insert_eq.
Qed.

Definition cancelledEntry (nowUnix : Z) (e : Entry) : Entry := en_updated nowUnix (en_deadline 0 e).

Lemma cancel_effect p id token attempts nowUnix m found m' r : box_ok m → cancelClaimMutate p id token attempts nowUnix m found = Ok (m', true, r) →
  ∃ e, enClaimToken e = token ∧ enClaimAttempts e = attempts ∧ touches id e (cancelledEntry nowUnix e) m m' ∧ kept p m m'.
Proof.
  intros B. unfold cancelClaimMutate. destruct found; [|done]. cbn [negb]. destruct (Entries (boxInit p m) !! id) as [e|] eqn:He; [|done].
  destruct (bool_decide_reflect (enClaimToken e = token)) as [Ht|]; [|done]. destruct (Z.eqb_spec (enClaimAttempts e) attempts) as [Ha|]; [|done]. cbn [negb orb].
  destruct (_ || _); [done|]. intros [= <- _]. exists e. split; [done|]. split; [done|]. destruct (unread_small m B) as [_ Hu].
  apply touches_kept; [|done|done]. split; cbn; try done. unfold isUnread. cbn. rewrite i32_small; [lia|]. replace (_ - _ + _) with (Unread m) by lia. done.
Qed.

Lemma mails_ok_ids mails : mails_ok mails ↔ StronglySorted Z.lt (map gmID mails) ∧ Forall (λ i, 0 < i < 2^64) (map gmID mails).
Proof.
  unfold mails_ok. change (map gmID mails) with (gmID <$> mails). rewrite Forall_fmap. f_equiv; [|done]. induction mails as [|g mails IH]; cbn; [split; constructor|].
  split; intros H; apply StronglySorted_inv in H as [H1 H2]; (constructor; [by apply IH|]).
  - change (map gmID mails) with (gmID <$> mails). rewrite Forall_fmap. exact H2.
  - change (map gmID mails) with (gmID <$> mails) in H2. rewrite Forall_fmap in H2. exact H2.
Qed.

Lemma elem_of_reclaimed l nowUnix g : g ∈ blMails (reclaimed l nowUnix) → g ∈ blMails l.
Proof. cbn. rewrite !list_elem_of_In. by intros [? _]%filter_In. Qed.

Lemma list_filter_sublist {A} (f : A → bool) (l : list A) : List.filter f l `sublist_of` l.
Proof. induction l as [|x l IH]; cbn; [done|]. destruct (f x); by constructor. Qed.

Lemma sublist_Forall {A} (P : A → Prop) (l l' : list A) : l `sublist_of` l' → Forall P l' → Forall P l.
Proof. rewrite !Forall_forall. intros Hs H x Hx. by apply H, (sublist_subseteq _ _ Hs). Qed.

Lemma StronglySorted_sublist {A} (R : A → A → Prop) (l l' : list A) : l `sublist_of` l' → StronglySorted R l' → StronglySorted R l.
Proof.
  induction 1 as [|x l l' Hs IH|x l l' Hs IH]; [done|..]; intros [H1 H2]%StronglySorted_inv; [|by apply IH].
  constructor; [by apply IH|]. by eapply sublist_Forall.
Qed.

Lemma StronglySorted_snoc {A} (R : A → A → Prop) (l : list A) x : StronglySorted R l → Forall (λ y, R y x) l → StronglySorted R (l ++ [x]).
Proof.
  induction 1 as [|y l _ IH Hy]; intros HF; cbn; [by repeat constructor|]. apply Forall_cons in HF as [Hyx HF].
  constructor; [by apply IH|]. apply Forall_app. split; [done|by constructor].
Qed.

Lemma ledgerFind_None l id : ledgerFind l id = None → id ∉ map gmMailID (blMails l).
Proof.
  unfold ledgerFind. intros H (g & -> & Hg)%list_elem_of_fmap. apply list_elem_of_In in Hg. apply (List.find_none _ _ H) in Hg.
  by rewrite bool_decide_eq_false in Hg.
Qed.

Lemma ledgerFind_Some l id g : ledgerFind l id = Some g → g ∈ blMails l ∧ gmMailID g = id.
Proof. unfold ledgerFind. intros [H1 H2]%List.find_some. split; [by apply list_elem_of_In|by apply bool_decide_eq_true in H2]. Qed.

Definition published (e : Envelope) (nowUnix : Z) (l : BroadcastLedger) : GlobalMail :=
  mkGlobal (u64 (blHead l + 1)) (eID e) (eScope e) (if eCreatedAtUnix e <=? 0 then nowUnix else eCreatedAtUnix e) (eExpiresAtUnix e) 0.

(** A mail is recorded once; the second call answers with the record. *)
Lemma Publish_cases e nowUnix mx l :
  (∃ g, Publish e nowUnix mx l = (l, Ok g) ∧ ledgerFind l (eID e) = Some g) ∨
  (∃ x, Publish e nowUnix mx l = (l, Err x)) ∨
  (ledgerFind l (eID e) = None ∧ Publish e nowUnix mx l = (mkLedger (u64 (blHead l + 1)) (blMails (reclaimed l nowUnix) ++ [published e nowUnix l]), Ok (published e nowUnix l))).
Proof.
  unfold Publish, publishMutate. destruct (eAudience e); [by eauto| |by eauto]. case_bool_decide; [by eauto|]. destruct (EnvelopeExpired e nowUnix); [by eauto|].
  destruct (ledgerFind l (eID e)) as [g|] eqn:E; [by eauto|]. destruct (_ <=? zlen _); [by eauto|]. right. right. done.
Qed.

Lemma Publish_ledger e nowUnix mx l : ledger_ok l → 0 ≤ blHead l → blHead l + 1 < 2^64 →
  ledger_ok (fst (Publish e nowUnix mx l)) ∧ blHead l ≤ blHead (fst (Publish e nowUnix mx l)) ≤ blHead l + 1 ∧
  ∀ g, g ∈ blMails (fst (Publish e nowUnix mx l)) → g ∈ blMails l ∨ (gmMailID g = eID e ∧ gmExpiresAtUnix g = eExpiresAtUnix e).
Proof.
  intros LO H0 Hh. destruct (Publish_cases e nowUnix mx l) as [(g & -> & _)|[(x & ->)|(Hn & ->)]]; [split_and!; [done|cbn; lia..|by left]..|].
  pose proof LO as [[L1 L2] L3 L4]. cbn [fst blHead blMails]. rewrite u64_small by (unfold_int; lia).
  pose proof (list_filter_sublist (λ g, nowUnix <? gmExpiresAtUnix g) (blMails l)) as Hsub.
  assert (Hid : gmID (published e nowUnix l) = blHead l + 1) by (cbn; apply u64_small; unfold_int; lia).
  split_and!; [|lia..|].
  - split; cbn [blMails blHead].
    + split.
      * apply StronglySorted_snoc; [by eapply StronglySorted_sublist|]. apply Forall_forall. intros g Hg%elem_of_reclaimed. pose proof (L3 g Hg). rewrite Hid. lia.
      * apply Forall_app. split; [by eapply sublist_Forall|]. constructor; [rewrite Hid; lia|constructor].
    + intros g [Hg| ->]%elem_of_snoc; [apply elem_of_reclaimed in Hg; pose proof (L3 g Hg); lia|]. lia.
    + rewrite map_app. apply NoDup_app. split_and!.
      * eapply sublist_NoDup; [exact L4|]. by apply fmap_sublist.
      * intros id (g & -> & Hg%elem_of_reclaimed)%list_elem_of_fmap Hx%list_elem_of_singleton. apply ledgerFind_None in Hn. apply Hn.
        apply list_elem_of_fmap. exists g. split; [symmetry; exact Hx|done].
      * apply NoDup_singleton.
  - intros g [Hg| ->]%elem_of_snoc; [left; by apply elem_of_reclaimed in Hg|by right].
Qed.

Lemma list_map_insert_same {A B} (f : A → B) (l : list A) i x y : l !! i = Some x → f y = f x → map f (<[i := y]> l) = map f l.
Proof. intros Hi Hf. change (f <$> <[i := y]> l = f <$> l). rewrite list_fmap_insert, Hf. apply list_insert_id. by rewrite list_lookup_fmap, Hi. Qed.

Lemma revokeIn_same {B} (f : GlobalMail → B) id nowUnix mails : (∀ g x, f (mkGlobal (gmID g) (gmMailID g) (gmScope g) (gmSentAtUnix g) (gmExpiresAtUnix g) x) = f g) →
  map f (revokeIn id nowUnix mails) = map f mails.
Proof.
  intros Hf. unfold revokeIn. destruct (list_find _ mails) as [[i g]|] eqn:E; [|done]. apply list_find_Some in E as (Hi & _ & _).
  by apply (list_map_insert_same f mails i g).
Qed.

Lemma Revoke_cases id nowUnix l : fst (Revoke id nowUnix l) = l ∨ fst (Revoke id nowUnix l) = mkLedger (blHead l) (revokeIn id nowUnix (blMails l)).
Proof.
  unfold Revoke. case_bool_decide; [by left|]. destruct (ledgerFind l id) as [g|]; [|by left]. destruct (_ <=? _); [by left|]. destruct (negb _); [by left|by right].
Qed.

Lemma Revoke_ledger id nowUnix l : ledger_ok l →
  ledger_ok (fst (Revoke id nowUnix l)) ∧ blHead (fst (Revoke id nowUnix l)) = blHead l ∧
  ∀ g, g ∈ blMails (fst (Revoke id nowUnix l)) → ∃ g0, g0 ∈ blMails l ∧ gmMailID g0 = gmMailID g ∧ gmExpiresAtUnix g0 = gmExpiresAtUnix g.
Proof.
  intros LO. destruct (Revoke_cases id nowUnix l) as [-> | ->]; [split_and!; [done..|by eauto]|]. pose proof LO as [L1 L2 L3]. cbn [blHead blMails].
  assert (HE : ∀ {B} (f : GlobalMail → B) g, (∀ g x, f (mkGlobal (gmID g) (gmMailID g) (gmScope g) (gmSentAtUnix g) (gmExpiresAtUnix g) x) = f g) →
    g ∈ revokeIn id nowUnix (blMails l) → ∃ g0, g0 ∈ blMails l ∧ f g0 = f g).
  { intros B f g Hf Hg. apply (list_elem_of_fmap_2 f) in Hg. change (f <$> ?x) with (map f x) in Hg. rewrite revokeIn_same in Hg by done.
    apply list_elem_of_fmap in Hg as (g0 & E & Hg0). by exists g0. }
  split_and!; [|done|].
  - split; cbn [blMails blHead].
    + apply mails_ok_ids. rewrite revokeIn_same by done. by apply mails_ok_ids.
    + intros g Hg. destruct (HE _ gmID g) as (g0 & H1 & <-); [done..|]. by apply L2.
    + by rewrite revokeIn_same.
  - intros g Hg. destruct (HE _ (λ g, (gmMailID g, gmExpiresAtUnix g)) g) as (g0 & H1 & [= <- <-]); [done..|]. by exists g0.
Qed.
