(* ===== verification/MailClaim.v ===== *)
(** * Runs of the mail service: claim tokens and counts

    A run is a sequence of store accesses by any number of service instances,
    each with the clock reading of its own host.  [MailSys] keeps beside the
    stores what was handed out: the claim tokens issued and the commits that
    took effect.  In every run a mailbox has one claim token per mail while
    the mail can be claimed, and its counts are exact. *)

From Stdlib Require Import String.
From S2P Require Import Prelude Bytes GoStr VsRedis VsMemory MailBox MailService MailInv.

(** ** The state *)

(** (mailbox, mail, token) *)
Abbreviation grants := (list (bytes * bytes * bytes)).

Record MailSys := mkSys {
  msBoxes : boxes; msEnvelopes : envelopes;
  (** Every ledger there was, the newest first: a snapshot may be stale. *)
  msLedgers : list BroadcastLedger;
  msIssued : grants; msCommitted : grants;
  (** The highest clock reading so far. *)
  msClock : Z
}.
Definition startSys : MailSys := mkSys ∅ ∅ [emptyLedger] [] [] 0.

Inductive MailOp : Type :=
| OpStore (nowUnix : Z) (e : Envelope)
| OpPublish (nowUnix maxActive : Z) (mailID : bytes)
| OpRevoke (nowUnix : Z) (mailID : bytes)
| OpDeliver (clock nowUnix playerID : Z) (mailID : bytes)
| OpMarkRead (nowUnix playerID : Z) (mailID : bytes)
| OpDelete (nowUnix playerID : Z) (mailID : bytes)
| OpReserve (nowUnix playerID : Z) (mailID token : bytes)
| OpCommit (nowUnix playerID : Z) (mailID token : bytes)
| OpCancel (nowUnix playerID : Z) (mailID token : bytes) (attempts : Z)
| OpRefresh (nowUnix playerID : Z) (profile : option BroadcastProfile) (snapshot : option nat).

(** The clock readings of an access. *)
Definition opTime (op : MailOp) : Z :=
  match op with
  | OpStore n _ | OpPublish n _ _ | OpRevoke n _ | OpMarkRead n _ _ | OpDelete n _ _ | OpReserve n _ _ _ | OpCommit n _ _ _ | OpCancel n _ _ _ _ | OpRefresh n _ _ _ => n
  | OpDeliver c n _ _ => Z.max c n
  end.

Definition with_boxes (bs : boxes) (s : MailSys) : MailSys := mkSys bs (msEnvelopes s) (msLedgers s) (msIssued s) (msCommitted s) (msClock s).
Definition with_ledger (l : BroadcastLedger) (s : MailSys) : MailSys := mkSys (msBoxes s) (msEnvelopes s) (l :: msLedgers s) (msIssued s) (msCommitted s) (msClock s).
Definition ledgerNow (s : MailSys) : BroadcastLedger := hd emptyLedger (msLedgers s).

(** The commit changes the mailbox. *)
Definition commitsNow (nowUnix playerID : Z) (mailID token : bytes) (bs : boxes) : bool :=
  negb (bool_decide (TrimSpace token = [])) &&
  match commitClaimMutate playerID mailID token nowUnix (boxAt bs playerID) (boxFound bs playerID) with Ok (_, true, _) => true | _ => false end.

Definition mailExec (lz : lazy) (lease : Z) (op : MailOp) (s : MailSys) : MailSys :=
  let bs := msBoxes s in
  match op with
  | OpStore n e => mkSys bs (fst (CreateEnvelope e n (msEnvelopes s))) (msLedgers s) (msIssued s) (msCommitted s) (msClock s)
  | OpPublish n mx id => match msEnvelopes s !! id with Some e => with_ledger (fst (Publish e n mx (ledgerNow s))) s | None => s end
  | OpRevoke n id => with_ledger (fst (Revoke id n (ledgerNow s))) s
  | OpDeliver c n p id => with_boxes (fst (Deliver c p id n (msEnvelopes s) bs)) s
  | OpMarkRead n p id => with_boxes (fst (MarkRead n p id bs)) s
  | OpDelete n p id => with_boxes (fst (DeleteMail n p id bs)) s
  | OpReserve n p id token =>
      match msEnvelopes s !! id with
      | None => s
      | Some e =>
          let '(bs', r) := reserveChecked token n lease p id e bs in
          mkSys bs' (msEnvelopes s) (msLedgers s) (match r with Ok c => (boxKey p, id, clToken c) :: msIssued s | Err _ => msIssued s end) (msCommitted s) (msClock s)
      end
  | OpCommit n p id token =>
      mkSys (fst (CommitClaim n p id token bs)) (msEnvelopes s) (msLedgers s) (msIssued s)
        (if commitsNow n p id token bs then (boxKey p, id, token) :: msCommitted s else msCommitted s) (msClock s)
  | OpCancel n p id token attempts => with_boxes (fst (CancelClaim n p id token attempts bs)) s
  | OpRefresh n p profile snapshot =>
      with_boxes (fst (refreshMailbox lz p profile (snapshot ≫= λ i, msLedgers s !! i) n bs)) s
  end.

Definition tick (op : MailOp) (s : MailSys) : MailSys :=
  mkSys (msBoxes s) (msEnvelopes s) (msLedgers s) (msIssued s) (msCommitted s) (Z.max (msClock s) (opTime op)).
Definition mailRun (lz : lazy) (lease : Z) (ops : list MailOp) (s : MailSys) : MailSys := foldl (λ s op, mailExec lz lease op (tick op s)) s ops.

(** [NewClaimToken] mints a token that is not blank. *)
Definition mints (op : MailOp) : Prop := match op with OpReserve _ _ _ token => token ≠ [] | _ => True end.

(** ** What one mail of one mailbox says about the tokens handed out for it *)

(** [tok] is the token on record, [closed] whether the mail was claimed or deleted. *)
Record granted (tok : bytes) (closed : bool) (issued committed : list bytes) : Prop := {
  gr_issued : Forall (λ t, t = tok) issued;
  gr_committed : Forall (λ t, t = tok) committed;
  gr_none : tok = [] → issued = [] ∧ committed = [];
  gr_once : (length committed ≤ 1)%nat;
  gr_closed : committed ≠ [] → closed = true;
  gr_backed : committed ≠ [] → issued ≠ []
}.

Definition claim_ok (expires : Z) (s : slot) (issued committed : list bytes) : Prop :=
  match s with
  | (Some e, None) =>
      enEnvelopeExpiresAtUnix e = expires ∧ (enClaimEnvelopeExpiresAtUnix e = 0 ∨ enClaimEnvelopeExpiresAtUnix e = expires) ∧
      granted (enClaimToken e) (evictableStatus (enStatus e)) issued committed ∧ (enClaimToken e ≠ [] → issued ≠ [])
  | (None, Some c) => scEnvelopeExpiresAtUnix c = expires ∧ granted (scToken c) true issued committed
  | (None, None) => issued = [] ∧ committed = []
  | (Some _, Some _) => False
  end.

Lemma granted_closed tok c c' T C : (c = true → c' = true) → granted tok c T C → granted tok c' T C.
Proof. intros H []. split; auto. Qed.

Lemma granted_none tok c : granted tok c [] [].
Proof. by split; try constructor; cbn; auto with lia. Qed.

(** What arrives carries the expiry of its envelope and no claim. *)
Definition fresh_until (expires : Z) (e : Entry) : Prop := enEnvelopeExpiresAtUnix e = expires ∧ enClaimEnvelopeExpiresAtUnix e = 0 ∧ enClaimToken e = [].

Lemma tide_claim expires P nowUnix s s' T C : 0 < expires → nowUnix < expires → (∀ e, P e → fresh_until expires e) →
  tide P nowUnix s s' → claim_ok expires s T C → claim_ok expires s' T C.
Proof.
  intros H0 Hn HP. destruct 1 as [e Hl|c Hl|e He|e He]; cbn.
  - intros (H1 & _). unfold lapsedEntry in Hl. apply andb_true_iff in Hl as [Hl%negb_true_iff _]. apply orb_false_iff in Hl as [_ Hl]. lia.
  - intros [H1 _]. unfold lapsedClaim in Hl. lia.
  - intros (H1 & H2 & H3 & _). rewrite He in H3. unfold settledOf. destruct (_ || _) eqn:E; cbn.
    + set (x := if enClaimEnvelopeExpiresAtUnix e =? 0 then _ else _). assert (Hx : x = expires) by (unfold x; destruct (Z.eqb_spec (enClaimEnvelopeExpiresAtUnix e) 0); lia).
      unfold lapsedClaim. cbn. rewrite Hx. destruct (_ && _) eqn:E2; [lia|]. by split.
    + apply orb_false_iff in E as [E%negb_false_iff%bool_decide_eq_true _]. by apply (gr_none _ _ _ _ H3).
  - intros [-> ->]. destruct (HP e He) as (-> & -> & ->). split_and!; [done|by left|apply granted_none|done].
Qed.

Lemma tides_claim expires P nowUnix s s' T C : 0 < expires → nowUnix < expires → (∀ e, P e → fresh_until expires e) →
  rtc (tide P nowUnix) s s' → claim_ok expires s T C → claim_ok expires s' T C.
Proof. intros H0 Hn HP. induction 1 as [|s s1 s2 H1 _ IH]; [done|]. intros Hs. apply IH. by eapply tide_claim. Qed.

(** A mail that never arrived: the tide brings nothing. *)
Lemma tides_void P nowUnix s s' : (∀ e, ¬ P e) → rtc (tide P nowUnix) s s' → s = (None, None) → s' = (None, None).
Proof. intros HP H. apply (tides_unknown nowUnix). eapply tides_mono; [|exact H]. intros e He. by destruct (HP e). Qed.

(** ** Touching the entry *)

Lemma claim_status expires e next nowUnix T C : (evictableStatus (enStatus e) = true → evictableStatus next = true) →
  claim_ok expires (Some e, None) T C → claim_ok expires (Some (statusEntry next nowUnix e), None) T C.
Proof. intros H (H1 & H2 & H3 & H4). split_and!; [done..|by eapply granted_closed|done]. Qed.

Lemma claim_cancel expires e nowUnix T C : claim_ok expires (Some e, None) T C → claim_ok expires (Some (cancelledEntry nowUnix e), None) T C.
Proof. intros (H1 & H2 & H3 & H4). by split_and!. Qed.

Lemma claim_reserve expires e token deadline nowUnix T C : token ≠ [] → evictableStatus (enStatus e) = false →
  claim_ok expires (Some e, None) T C →
  claim_ok expires (Some (reservedEntry token expires deadline nowUnix e), None) (enClaimToken (reservedEntry token expires deadline nowUnix e) :: T) C.
Proof.
  intros Ht Hst (H1 & H2 & [G1 G2 G3 G4 G5 G6] & H4). rewrite Hst in G5. assert (C = []) as -> by (destruct C; [done|by discriminate G5]).
  split_and!; [done|by right| |done]. cbn. destruct (bool_decide_reflect (enClaimToken e = [])) as [E|E].
  - destruct (G3 E) as [-> _]. split; try done; by constructor.
  - split; try done; by constructor.
Qed.

Lemma claim_commit expires e nowUnix T C : enClaimToken e ≠ [] → evictableStatus (enStatus e) = false →
  claim_ok expires (Some e, None) T C → claim_ok expires (Some (committedEntry nowUnix e), None) T (enClaimToken e :: C).
Proof.
  intros Ht Hst (H1 & H2 & [G1 G2 G3 G4 G5 G6] & H4). rewrite Hst in G5. assert (C = []) as -> by (destruct C; [done|by discriminate G5]).
  split_and!; [done..| |done]. split; try done; cbn; [by constructor|by intros _; apply H4].
Qed.

(** ** The state of a run *)

Definition tokensOf (k id : bytes) (l : grants) : list bytes := omap (λ x, if bool_decide (x.1 = (k, id)) then Some x.2 else None) l.

Arguments tokensOf : simpl never.

Definition mailAt (bs : boxes) (k : bytes) : Mailbox := memValue emptyBox (bs !! k).

(** Before its envelope is stored nothing is known of a mail. *)
Definition slot_inv (env : option Envelope) (clock : Z) (s : slot) (issued committed : list bytes) : Prop :=
  match env with
  | None => s = (None, None) ∧ issued = [] ∧ committed = []
  | Some e => clock < eExpiresAtUnix e → claim_ok (eExpiresAtUnix e) s issued committed
  end.

Record mail_inv (n : Z) (s : MailSys) : Prop := {
  mi_box : ∀ k v, msBoxes s !! k = Some v → box_ok (vValue v) ∧ boxKey (PlayerID (vValue v)) = k ∧ 0 ≤ BroadcastWatermark (vValue v);
  mi_env : ∀ k e, msEnvelopes s !! k = Some e → eID e = k ∧ 0 < eExpiresAtUnix e;
  mi_ledger : ∀ l, l ∈ msLedgers s → ledger_ok l ∧ 0 ≤ blHead l ≤ n ∧
    ∀ g, g ∈ blMails l → ∃ e, msEnvelopes s !! gmMailID g = Some e ∧ eExpiresAtUnix e = gmExpiresAtUnix g;
  mi_slot : ∀ k id, slot_inv (msEnvelopes s !! id) (msClock s) (slotOf (mailAt (msBoxes s) k) id) (tokensOf k id (msIssued s)) (tokensOf k id (msCommitted s))
}.

Lemma slot_inv_clock env c c' s T C : c ≤ c' → slot_inv env c s T C → slot_inv env c' s T C.
Proof. intros Hc. destruct env as [e|]; cbn; [|done]. intros H Hlt. apply H. lia. Qed.

Lemma mail_inv_start : mail_inv 0 startSys.
Proof.
  split; cbn; [done|done|..].
  - intros l ->%list_elem_of_singleton. split_and!; [|done|done|].
    + split; [split; constructor|..|constructor]. intros g Hg. by apply elem_of_nil in Hg.
    + intros g Hg. by apply elem_of_nil in Hg.
  - intros k id. cbn. by rewrite lookup_empty.
Qed.

Lemma mail_inv_tick n op s : mail_inv n s → mail_inv n (tick op s).
Proof. intros [H1 H2 H3 H4]. split; [done..|]. intros k id. eapply slot_inv_clock; [|apply H4]. cbn. lia. Qed.

Lemma mail_inv_le n n' s : n ≤ n' → mail_inv n s → mail_inv n' s.
Proof. intros Hn [H1 H2 H3 H4]. split; [done..| |done]. intros l Hl. destruct (H3 l Hl) as (? & ? & ?). split_and!; [done|lia..|done]. Qed.

Lemma box_at_ok n s p : mail_inv n s → box_ok (boxAt (msBoxes s) p) ∧ 0 ≤ BroadcastWatermark (boxAt (msBoxes s) p).
Proof.
  intros I. unfold boxAt, memValue. destruct (msBoxes s !! boxKey p) as [v|] eqn:Hv; [|split; [apply box_ok_empty|done]].
  destruct (mi_box _ _ I _ _ Hv) as (? & _ & ?). done.
Qed.

Lemma updateBox_spec {R} bs p (mutate : Mailbox → bool → result MailErr (Mailbox * bool * R)) :
  match mutate (boxAt bs p) (boxFound bs p) with
  | Ok (m', true, r) => ∃ ver, UpdateBox bs p mutate = (<[boxKey p := mkVersioned m' ver]> bs, Ok r)
  | Ok (_, false, r) => UpdateBox bs p mutate = (bs, Ok r)
  | Err e => UpdateBox bs p mutate = (bs, Err e)
  end.
Proof.
  unfold UpdateBox, memUpdate. fold (boxAt bs p) (boxFound bs p). destruct (mutate _ _) as [[[m' [|]] r]|e]; [by eexists|done..].
Qed.

(** A mailbox is stored. *)
Lemma mail_inv_save n s p m' ver T C : mail_inv n s → box_ok m' → PlayerID m' = p → 0 ≤ BroadcastWatermark m' →
  (∀ id, slot_inv (msEnvelopes s !! id) (msClock s) (slotOf m' id) (tokensOf (boxKey p) id T) (tokensOf (boxKey p) id C)) →
  (∀ k id, k ≠ boxKey p → tokensOf k id T = tokensOf k id (msIssued s) ∧ tokensOf k id C = tokensOf k id (msCommitted s)) →
  mail_inv n (mkSys (<[boxKey p := mkVersioned m' ver]> (msBoxes s)) (msEnvelopes s) (msLedgers s) T C (msClock s)).
Proof.
  intros [H1 H2 H3 H4] B Hp Hw Hs Ho. split; cbn; [|done|done|].
  - intros k v [[<- <-]|[_ Hv]]%lookup_insert_Some; cbn; [by rewrite Hp|by apply H1].
  - intros k id. unfold mailAt. destruct (decide (k = boxKey p)) as [->|Hne]; [by rewrite lookup_insert_eq|].
    rewrite lookup_insert_ne by done. destruct (Ho k id Hne) as [-> ->]. apply H4.
Qed.

(** Nothing was handed out. *)
Lemma mail_inv_save_quiet n s p m' ver : mail_inv n s → box_ok m' → PlayerID m' = p → 0 ≤ BroadcastWatermark m' →
  (∀ id, slot_inv (msEnvelopes s !! id) (msClock s) (slotOf (boxAt (msBoxes s) p) id) (tokensOf (boxKey p) id (msIssued s)) (tokensOf (boxKey p) id (msCommitted s)) →
     slot_inv (msEnvelopes s !! id) (msClock s) (slotOf m' id) (tokensOf (boxKey p) id (msIssued s)) (tokensOf (boxKey p) id (msCommitted s))) →
  mail_inv n (with_boxes (<[boxKey p := mkVersioned m' ver]> (msBoxes s)) s).
Proof. intros I B Hp Hw Hs. apply mail_inv_save; [done..| |done]. intros id. apply Hs, (mi_slot _ _ I). Qed.

Lemma with_boxes_same s : with_boxes (msBoxes s) s = s.
Proof. by destruct s. Qed.

(** What may arrive while [env] is what is stored for the mail. *)
Definition expected (env : option Envelope) (P : Entry → Prop) : Prop :=
  match env with Some e => 0 < eExpiresAtUnix e ∧ ∀ x, P x → fresh_until (eExpiresAtUnix e) x | None => ∀ x, ¬ P x end.

Lemma slot_inv_tides env clock nowUnix P s s' T C : nowUnix ≤ clock → expected env P → rtc (tide P nowUnix) s s' → slot_inv env clock s T C → slot_inv env clock s' T C.
Proof.
  intros Hn HP Ht. destruct env as [e|]; cbn in *.
  - destruct HP as [H0 HP]. intros H Hlt. eapply (tides_claim _ P nowUnix); [done|lia|done..|]. by apply H.
  - intros (H1 & H2 & H3). split_and!; [|done..]. by apply (tides_void P nowUnix s).
Qed.

(** An operation on the entry of one mail. *)
Lemma slot_inv_touch env clock s e e' T C T' C' :
  (∀ X, claim_ok X (Some e, None) T C → claim_ok X (Some e', None) T' C') → s = (Some e, None) →
  slot_inv env clock s T C → slot_inv env clock (Some e', None) T' C'.
Proof. intros H ->. destruct env as [x|]; cbn; [|by intros ([=] & _)]. intros Hs Hlt. by apply H, Hs. Qed.

Lemma touch_quiet n s p id e e' m' ver : mail_inv n s → touches id e e' (boxAt (msBoxes s) p) m' → kept p (boxAt (msBoxes s) p) m' →
  (∀ X T C, claim_ok X (Some e, None) T C → claim_ok X (Some e', None) T C) →
  mail_inv n (with_boxes (<[boxKey p := mkVersioned m' ver]> (msBoxes s)) s).
Proof.
  intros I T [B Hp Hw] H. destruct (box_at_ok _ _ p I) as [B0 W0]. apply mail_inv_save_quiet; [done..|by rewrite Hw|].
  intros k. destruct (touches_slot _ _ _ _ _ k T B0) as [(-> & E1 & E2)|[_ ->]]; [|done]. rewrite E1, E2. apply (slot_inv_touch _ _ _ e); [by intros; apply H|done].
Qed.

Lemma exec_transition n s nowUnix p id next : mail_inv n s → (∀ e, next e ≠ enStatus e → evictableStatus (enStatus e) = true → evictableStatus (next e) = true) →
  mail_inv n (with_boxes (fst (transition nowUnix p id next (msBoxes s))) s).
Proof.
  intros I Hnext. unfold transition. destruct (p <=? 0); [cbn [fst]; by rewrite with_boxes_same|]. case_bool_decide; [cbn [fst]; by rewrite with_boxes_same|].
  pose proof (updateBox_spec (msBoxes s) p (transitionMutate p id nowUnix next)) as HU. destruct (box_at_ok _ _ p I) as [B0 W0].
  destruct (transitionMutate _ _ _ _ _ _) as [[[m' [|]] r]|e] eqn:E; [|rewrite HU; cbn [fst]; by rewrite with_boxes_same..].
  destruct HU as [ver ->]. destruct (transition_effect _ _ _ _ _ _ _ _ B0 E) as (e & Hne & T & K). eapply touch_quiet; [done..|].
  intros X T0 C0. apply claim_status. by apply Hnext.
Qed.

Lemma exec_cancel n s nowUnix p id token attempts : mail_inv n s → mail_inv n (with_boxes (fst (CancelClaim nowUnix p id token attempts (msBoxes s))) s).
Proof.
  intros I. unfold CancelClaim. destruct (_ || _); [cbn [fst]; by rewrite with_boxes_same|].
  pose proof (updateBox_spec (msBoxes s) p (cancelClaimMutate p id token attempts nowUnix)) as HU. destruct (box_at_ok _ _ p I) as [B0 W0].
  destruct (cancelClaimMutate _ _ _ _ _ _ _) as [[[m' [|]] r]|e] eqn:E; [|rewrite HU; cbn [fst]; by rewrite with_boxes_same..].
  destruct HU as [ver ->]. destruct (cancel_effect _ _ _ _ _ _ _ _ _ B0 E) as (e & _ & _ & T & K). eapply touch_quiet; [done..|].
  intros X T0 C0. apply claim_cancel.
Qed.

Lemma exec_deliver n s clock nowUnix p id : mail_inv n s → clock ≤ msClock s → nowUnix ≤ msClock s →
  mail_inv n (with_boxes (fst (Deliver clock p id nowUnix (msEnvelopes s) (msBoxes s))) s).
Proof.
  intros I Hc Hn. unfold Deliver, deliver. destruct (p <=? 0); [cbn [fst]; by rewrite with_boxes_same|]. case_bool_decide; [cbn [fst]; by rewrite with_boxes_same|].
  destruct (msEnvelopes s !! id) as [e|] eqn:He; [|cbn [fst]; by rewrite with_boxes_same]. destruct (EnvelopeExpired e nowUnix); [cbn [fst]; by rewrite with_boxes_same|].
  destruct (mi_env _ _ I _ _ He) as [_ H0]. set (now := if nowUnix <=? 0 then clock else nowUnix). assert (Hnow : now ≤ msClock s) by (unfold now; destruct (nowUnix <=? 0); lia).
  pose proof (updateBox_spec (msBoxes s) p (deliverMutate p id now (eExpiresAtUnix e))) as HU. destruct (box_at_ok _ _ p I) as [B0 W0].
  destruct (deliverMutate _ _ _ _ _ _) as [[[m' [|]] r]|x] eqn:E; [|rewrite HU; cbn [fst]; by rewrite with_boxes_same..].
  destruct HU as [ver ->]. destruct (deliver_effect _ _ _ _ _ _ _ _ B0 E) as ([B Hp Hw] & _ & T). apply mail_inv_save_quiet; [done..|by rewrite Hw|].
  intros k. apply (slot_inv_tides _ _ now _ _ _ _ _ Hnow) with (2 := T k). destruct (msEnvelopes s !! k) as [ek|] eqn:Ek; cbn.
  - destruct (mi_env _ _ I _ _ Ek) as [_ H1]. split; [done|]. intros x [-> ->]. assert (ek = e) as -> by congruence. unfold fresh_until. cbn.
    destruct (Z.ltb_spec 0 (eExpiresAtUnix e)); [done|lia].
  - intros x [-> _]. congruence.
Qed.

(** ** Handing out *)

Lemma tokensOf_cons k id k' id' t l : tokensOf k id ((k', id', t) :: l) = if decide (k = k' ∧ id = id') then t :: tokensOf k id l else tokensOf k id l.
Proof.
  unfold tokensOf. cbn. case_bool_decide as Hb; case_decide as Hd; try done; [|by destruct Hd as [-> ->]]. by destruct Hd; injection Hb.
Qed.

Lemma exec_reserve n lz lease s nowUnix p id token : mail_inv n s → token ≠ [] → mail_inv n (mailExec lz lease (OpReserve nowUnix p id token) s).
Proof.
  intros I Ht. cbn. destruct (msEnvelopes s !! id) as [e|] eqn:He; [|done]. unfold reserveChecked.
  destruct (EnvelopeExpired e nowUnix); [by destruct s|]. destruct (HasAttachment e); [|by destruct s]. cbn [negb].
  pose proof (updateBox_spec (msBoxes s) p (reserveMutate p id token e nowUnix lease)) as HU. destruct (box_at_ok _ _ p I) as [B0 W0].
  destruct (reserveMutate _ _ _ _ _ _ _ _) as [[[m' save] c]|x] eqn:E; [|rewrite HU; by destruct s].
  destruct (reserve_effect _ _ _ _ _ _ _ _ _ _ _ B0 E) as (en & Hcl & T & [B Hp Hw] & -> & Htok). destruct HU as [ver ->].
  apply mail_inv_save; [done..|by rewrite Hw| |].
  - intros k. rewrite tokensOf_cons. destruct (touches_slot _ _ _ _ _ k T B0) as [(-> & E1 & E2)|[Hne ->]].
    + rewrite decide_True by done. rewrite Htok, E2. pose proof (mi_slot _ _ I (boxKey p) id) as HS. rewrite He in *. cbn [slot_inv] in HS |- *.
      intros Hlt. apply claim_reserve; [done|by eapply claimable_open|]. specialize (HS Hlt). unfold mailAt in HS. unfold boxAt in E1. by rewrite E1 in HS.
    + rewrite decide_False by naive_solver. apply (mi_slot _ _ I).
  - intros k k' Hne. rewrite tokensOf_cons, decide_False by naive_solver. done.
Qed.

Lemma exec_commit n lz lease s nowUnix p id token : mail_inv n s → mail_inv n (mailExec lz lease (OpCommit nowUnix p id token) s).
Proof.
  intros I. cbn. unfold CommitClaim, commitsNow. case_bool_decide as Hblank; cbn [negb andb fst]; [by destruct s|].
  pose proof (updateBox_spec (msBoxes s) p (commitClaimMutate p id token nowUnix)) as HU. destruct (box_at_ok _ _ p I) as [B0 W0].
  destruct (commitClaimMutate _ _ _ _ _ _) as [[[m' [|]] r]|x] eqn:E; [|rewrite HU; by destruct s..].
  destruct (commit_effect _ _ _ _ _ _ _ _ B0 E) as (en & Htok & Hst & T & [B Hp Hw]). destruct HU as [ver ->].
  assert (Ht : token ≠ []) by (intros ->; by apply Hblank). apply mail_inv_save; [done..|by rewrite Hw| |].
  - intros k. rewrite tokensOf_cons. destruct (touches_slot _ _ _ _ _ k T B0) as [(-> & E1 & E2)|[Hne ->]].
    + rewrite decide_True by done. rewrite E2. apply (slot_inv_touch _ _ _ en _ (tokensOf (boxKey p) id (msIssued s)) (tokensOf (boxKey p) id (msCommitted s))) with (2 := E1); [|apply (mi_slot _ _ I)].
      intros X. rewrite <- Htok. apply claim_commit; [congruence|done].
    + rewrite decide_False by naive_solver. apply (mi_slot _ _ I).
  - intros k k' Hne. rewrite tokensOf_cons, decide_False by naive_solver. done.
Qed.

Lemma snapshot_ok n s snapshot : mail_inv n s → ledger_ok (ledgerOf (snapshot ≫= λ i, msLedgers s !! i)) ∧
  ∀ g, g ∈ blMails (ledgerOf (snapshot ≫= λ i, msLedgers s !! i)) → ∃ e, msEnvelopes s !! gmMailID g = Some e ∧ eExpiresAtUnix e = gmExpiresAtUnix g.
Proof.
  intros I. destruct (snapshot ≫= _) as [l|] eqn:E; cbn.
  - destruct snapshot as [i|]; [|done]. cbn in E. destruct (mi_ledger _ _ I l) as (? & _ & ?); [by eapply list_elem_of_lookup_2|done].
  - split; [split; [split; constructor|..|constructor]|]; intros g Hg; by apply elem_of_nil in Hg.
Qed.

Lemma expected_nothing n s k : mail_inv n s → expected (msEnvelopes s !! k) nothing.
Proof. intros I. destruct (msEnvelopes s !! k) as [e|] eqn:E; [|intros x []]. split; [by apply (mi_env _ _ I _ _ E)|intros x []]. Qed.

Lemma exec_refresh n lz lease s nowUnix p profile snapshot : mail_inv n s → nowUnix ≤ msClock s →
  mail_inv n (mailExec lz lease (OpRefresh nowUnix p profile snapshot) s).
Proof.
  intros I Hn. cbn [mailExec]. destruct (snapshot_ok _ _ snapshot I) as [LO LE]. set (ledger := snapshot ≫= _) in *. unfold refreshMailbox.
  pose proof (updateBox_spec (msBoxes s) p (refreshMutate lz p profile ledger nowUnix)) as HU. destruct (box_at_ok _ _ p I) as [B0 W0].
  destruct (refreshMutate _ _ _ _ _ _ _) as [[[m' [|]] r]|x] eqn:E; [|rewrite HU; cbn [fst]; by rewrite with_boxes_same..].
  destruct HU as [ver ->]. assert (Hf : boxFound (msBoxes s) p || bool_decide (is_Some profile) = true).
  { destruct (boxFound _ _) eqn:Ef; [done|]. destruct profile; [done|]. unfold refreshMutate in E. cbn in E. done. }
  destruct (refresh_effect _ _ _ _ _ _ _ _ _ _ LO B0 E Hf) as (m1 & B1 & Hw1 & Hp1 & T1 & _ & M & _).
  pose proof (mo_rest _ _ _ _ _ M) as [Hp2 _]. pose proof (mo_watermark _ _ _ _ _ M).
  apply mail_inv_save_quiet; [done|apply M|by rewrite Hp2|lia|]. intros k Hk.
  assert (Hk1 := slot_inv_tides _ _ nowUnix nothing _ _ _ _ Hn (expected_nothing _ _ k I) (T1 nothing k) Hk).
  eapply (slot_inv_tides _ _ nowUnix); [done| |apply (mo_tides _ _ _ _ _ M k)|exact Hk1].
  assert (HF : ∀ x, by_merge (refreshAdmit lz nowUnix (Profile m')) nowUnix (blMails (ledgerOf ledger)) (Some (BroadcastWatermark m')) m1 k x →
    ∃ e, msEnvelopes s !! k = Some e ∧ fresh_until (eExpiresAtUnix e) x).
  { intros x (g & Hin & _ & _ & -> & ->). destruct (LE g Hin) as (e & He & Hx). exists e. by rewrite Hx. }
  destruct (msEnvelopes s !! k) as [ek|] eqn:Ek; cbn.
  - split; [by apply (mi_env _ _ I _ _ Ek)|]. intros x Hx. destruct (HF x Hx) as (e & [= <-] & ?). done.
  - intros x Hx. by destruct (HF x Hx) as (e & ? & _).
Qed.

(** ** The invariant of a run *)

Lemma exec_store n lz lease s nowUnix e : mail_inv n s → mail_inv n (mailExec lz lease (OpStore nowUnix e) s).
Proof.
  intros I. cbn. unfold CreateEnvelope. destruct (EnvelopeValidate e) eqn:EV; [|by destruct s]. destruct (_ <=? nowUnix); [by destruct s|].
  case_bool_decide as Hex; [by destruct s|]. assert (Hn : msEnvelopes s !! eID e = None) by (by apply eq_None_not_Some).
  assert (H0 : 0 < eExpiresAtUnix e).
  { unfold EnvelopeValidate in EV. destruct (Z.leb_spec (eExpiresAtUnix e) 0); [|done]. repeat (case_match; try done). }
  destruct I as [H1 H2 H3 H4]. split; cbn [fst msBoxes msEnvelopes msLedgers msIssued msCommitted msClock]; [done|..].
  - intros k x [[<- <-]|[_ Hx]]%lookup_insert_Some; [done|by apply H2].
  - intros l Hl. destruct (H3 l Hl) as (L1 & L2 & L3). split_and!; [done|lia..|]. intros g Hg. destruct (L3 g Hg) as (x & Hx & Hexp).
    exists x. split; [|done]. rewrite lookup_insert_ne; [done|]. intros E. by rewrite <- E, Hn in Hx.
  - intros k id. specialize (H4 k id). destruct (decide (id = eID e)) as [->|Hne]; [|by rewrite lookup_insert_ne].
    rewrite lookup_insert_eq. rewrite Hn in H4. destruct H4 as (-> & -> & ->). by intros _.
Qed.

Lemma ledger_ok_empty : ledger_ok emptyLedger.
Proof. split; [split; constructor|..|constructor]. intros g Hg. by apply elem_of_nil in Hg. Qed.

Lemma ledgerNow_ok n s : 0 ≤ n → mail_inv n s → ledger_ok (ledgerNow s) ∧ 0 ≤ blHead (ledgerNow s) ≤ n ∧
  ∀ g, g ∈ blMails (ledgerNow s) → ∃ e, msEnvelopes s !! gmMailID g = Some e ∧ eExpiresAtUnix e = gmExpiresAtUnix g.
Proof.
  intros Hn I. unfold ledgerNow. destruct (msLedgers s) as [|l ls] eqn:E; cbn.
  - split_and!; [apply ledger_ok_empty|done|done|]. intros g Hg. by apply elem_of_nil in Hg.
  - apply (mi_ledger _ _ I). rewrite E. by left.
Qed.

Lemma mail_inv_ledger n s l : mail_inv n s → ledger_ok l → 0 ≤ blHead l ≤ n + 1 →
  (∀ g, g ∈ blMails l → ∃ e, msEnvelopes s !! gmMailID g = Some e ∧ eExpiresAtUnix e = gmExpiresAtUnix g) → mail_inv (n + 1) (with_ledger l s).
Proof.
  intros I L1 L2 L3. destruct (mail_inv_le n (n + 1) s ltac:(lia) I) as [H1 H2 H3 H4]. split; [done..| |done].
  intros l' [->|Hl]%elem_of_cons; [split; [done|by split]|by apply H3].
Qed.

Lemma exec_inv lz lease n op s : 0 ≤ n → n + 1 < 2^64 → mints op → mail_inv n s → mail_inv (n + 1) (mailExec lz lease op (tick op s)).
Proof.
  intros Hn Hlt Hm I0. pose proof (mail_inv_tick _ op _ I0) as I. assert (Hop : opTime op ≤ msClock (tick op s)) by (cbn; lia).
  set (s1 := tick op s) in *. clearbody s1. clear I0.
  assert (HI : mail_inv n (mailExec lz lease op s1) → mail_inv (n + 1) (mailExec lz lease op s1)) by (apply mail_inv_le; lia).
  destruct (ledgerNow_ok n s1 Hn I) as (L1 & L2 & L3).
  destruct op as [nw e|nw mx id|nw id|c nw p id|nw p id|nw p id|nw p id tk|nw p id tk|nw p id tk a|nw p pr sn]; cbn [opTime mints] in *.
  - apply HI. by apply exec_store.
  - cbn. destruct (msEnvelopes s1 !! id) as [e|] eqn:He; [|by apply (mail_inv_le n); [lia|]].
    destruct (Publish_ledger e nw mx (ledgerNow s1)) as (P1 & P2 & P3); [done|lia..|]. apply mail_inv_ledger; [done..|lia|].
    intros g Hg. destruct (P3 g Hg) as [Hin|[-> ->]]; [by apply L3|]. exists e. destruct (mi_env _ _ I _ _ He) as [-> _]. done.
  - cbn. destruct (Revoke_ledger id nw (ledgerNow s1) L1) as (P1 & P2 & P3). apply mail_inv_ledger; [done..|lia|].
    intros g Hg. destruct (P3 g Hg) as (g0 & Hin & <- & <-). by apply L3.
  - apply HI, exec_deliver; [done|lia..].
  - apply HI, exec_transition; [done|]. intros e. case_bool_decide as Hs; [|done]. by rewrite Hs.
  - apply HI, exec_transition; [done|done].
  - apply HI. by apply exec_reserve.
  - apply HI. by apply exec_commit.
  - apply HI. by apply exec_cancel.
  - apply HI. apply exec_refresh; [done|lia].
Qed.

Lemma mail_run_inv lz lease ops : ∀ n s, 0 ≤ n → n + Z.of_nat (length ops) < 2^64 → Forall mints ops → mail_inv n s →
  mail_inv (n + Z.of_nat (length ops)) (mailRun lz lease ops s).
Proof.
  induction ops as [|op ops IH]; intros n s Hn Hlt Hm I; cbn [length mailRun foldl]; [by rewrite Z.add_0_r|].
  apply Forall_cons in Hm as [Hm1 Hm]. cbn [length] in Hlt. replace (n + Z.of_nat (S (length ops))) with ((n + 1) + Z.of_nat (length ops)) by lia.
  apply IH; [lia|lia|done|]. apply exec_inv; [lia..|done|done].
Qed.

(** ** Claims and counts *)

Lemma elem_of_tokensOf k id t l : t ∈ tokensOf k id l ↔ (k, id, t) ∈ l.
Proof.
  unfold tokensOf. rewrite list_elem_of_omap. split.
  - intros ([[k' id'] t'] & Hin & E). cbn in E. case_bool_decide as Hb; [|done]. injection Hb as -> ->. by injection E as ->.
  - intros H. exists (k, id, t). split; [done|]. cbn. by rewrite bool_decide_eq_true_2.
Qed.

Lemma claim_ok_token expires s T C : claim_ok expires s T C → ∃ tok, (∀ t, t ∈ T → t = tok) ∧ (∀ t, t ∈ C → t = tok ∧ tok ∈ T) ∧ (length C ≤ 1)%nat.
Proof.
  assert (G : ∀ tok c, granted tok c T C → ∃ tok, (∀ t, t ∈ T → t = tok) ∧ (∀ t, t ∈ C → t = tok ∧ tok ∈ T) ∧ (length C ≤ 1)%nat).
  { intros tok c [G1 G2 _ G4 _ G6]. rewrite Forall_forall in G1, G2. exists tok. split_and!; [done| |done]. intros t Ht. split; [by apply G2|].
    destruct T as [|t' T]; [destruct G6; [by intros ->; apply elem_of_nil in Ht|done]|]. rewrite (G1 t') by (by left). by left. }
  destruct s as [[e|] [x|]]; cbn; [done|..].
  - intros (_ & _ & H & _). by eapply G.
  - intros [_ H]. by eapply G.
  - intros [-> ->]. exists []. split_and!; [|..|cbn; lia]; by intros t ?%elem_of_nil.
Qed.

(** C10. However the service instances interleave and however their calls are
    repeated, as long as no host's clock has reached a mail's expiry all claim
    tokens issued to one mailbox for that mail are the same token, at most one
    commit takes effect, and it carries a token that was issued. *)
Theorem claim_token_constant lz lease ops playerID mailID e :
  let s := mailRun lz lease ops startSys in
  Forall mints ops → Z.of_nat (length ops) < 2^64 → msEnvelopes s !! mailID = Some e → msClock s < eExpiresAtUnix e →
  ∃ token, (∀ t, (boxKey playerID, mailID, t) ∈ msIssued s → t = token) ∧
    (∀ t, (boxKey playerID, mailID, t) ∈ msCommitted s → t = token ∧ (boxKey playerID, mailID, token) ∈ msIssued s) ∧
    (length (tokensOf (boxKey playerID) mailID (msCommitted s)) ≤ 1)%nat.
Proof.
  intros s Hm Hl He Ht. pose proof (mail_run_inv lz lease ops 0 startSys ltac:(lia) Hl Hm mail_inv_start) as I.
  pose proof (mi_slot _ _ I (boxKey playerID) mailID) as HS. fold s in HS. rewrite He in HS. destruct (claim_ok_token _ _ _ _ (HS Ht)) as (tok & H1 & H2 & H3).
  exists tok. split_and!; [|..|done].
  - intros t Hin. by apply H1, elem_of_tokensOf.
  - intros t Hin. rewrite <- elem_of_tokensOf. by apply H2, elem_of_tokensOf.
Qed.

Definition exampleID : bytes := [97].
Definition exampleMail : Envelope := mkEnvelope exampleID AudienceDirect [] [7] [83] [] [1] [114] 100 5000.
Definition exampleOps : list MailOp :=
  [OpStore 100 exampleMail; OpDeliver 100 100 7 exampleID; OpReserve 110 7 exampleID [1; 1]; OpReserve 150 7 exampleID [2; 2]; OpCommit 151 7 exampleID [1; 1]; OpCommit 152 7 exampleID [1; 1]].

Lemma claim_token_constant_witness :
  ∃ token, (∀ t, (boxKey 7, exampleID, t) ∈ msIssued (mailRun None 30 exampleOps startSys) → t = token) ∧
    (∀ t, (boxKey 7, exampleID, t) ∈ msCommitted (mailRun None 30 exampleOps startSys) → t = token ∧ (boxKey 7, exampleID, token) ∈ msIssued (mailRun None 30 exampleOps startSys)) ∧
    (length (tokensOf (boxKey 7) exampleID (msCommitted (mailRun None 30 exampleOps startSys))) ≤ 1)%nat.
Proof. apply (claim_token_constant None 30 exampleOps 7 exampleID exampleMail); [repeat constructor; done|done|reflexivity|reflexivity]. Defined.

Example exampleOps_grants : msIssued (mailRun None 30 exampleOps startSys) = [([55], exampleID, [1; 1]); ([55], exampleID, [1; 1])] ∧
  msCommitted (mailRun None 30 exampleOps startSys) = [([55], exampleID, [1; 1])].
Proof. split; reflexivity. Qed.

(** C23. Whatever the clocks read, in every run each stored mailbox is its
    player's own, counts exactly its unread entries, keeps entries and settled
    claims within their bounds, and never holds both for one mail. *)
Theorem mailbox_accounts lz lease ops k v :
  let s := mailRun lz lease ops startSys in let m := vValue v in
  Forall mints ops → Z.of_nat (length ops) < 2^64 → msBoxes s !! k = Some v →
  k = boxKey (PlayerID m) ∧ Unread m = unreadCount (Entries m) ∧ entryCount m ≤ MaxMailboxEntries ∧ settledCount m ≤ MaxSettledClaims ∧
  (∀ id e, Entries m !! id = Some e → enMailID e = id ∧ SettledClaims m !! id = None).
Proof.
  intros s m Hm Hl Hv. pose proof (mail_run_inv lz lease ops 0 startSys ltac:(lia) Hl Hm mail_inv_start) as I.
  destruct (mi_box _ _ I _ _ Hv) as ([[C1 C2 C3] S1 S2] & Hk & _). split_and!; [by rewrite <- Hk|done..|].
  intros id e He. split; [by apply C1|apply C3; by exists e].
Qed.

Lemma present {A} (o : option A) : (match o with Some _ => true | None => false end) = true → is_Some o.
Proof. destruct o; [by eexists|done]. Qed.

Lemma mailbox_accounts_witness : ∃ v, msBoxes (mailRun None 30 exampleOps startSys) !! boxKey 7 = Some v ∧ Unread (vValue v) = unreadCount (Entries (vValue v)).
Proof.
  assert (H : is_Some (msBoxes (mailRun None 30 exampleOps startSys) !! boxKey 7)) by (apply present; vm_compute; reflexivity). destruct H as [v E].
  exists v. split; [exact E|].
  refine (proj1 (proj2 (mailbox_accounts None 30 exampleOps (boxKey 7) v _ _ E))); [repeat constructor; done|done].
Defined.

(** ** Two limits of the code *)

(** A host whose clock has reached the expiry drops the claimed entry; one whose
    clock has not then delivers the mail again, and a second token is issued. *)
Definition skewedOps : list MailOp :=
  exampleOps ++ [OpRefresh 5001 7 None None; OpDeliver 4000 4000 7 exampleID; OpReserve 4001 7 exampleID [2; 2]; OpCommit 4002 7 exampleID [2; 2]].

Example skewed_clocks_second_token : msCommitted (mailRun None 30 skewedOps startSys) = [([55], exampleID, [2; 2]); ([55], exampleID, [1; 1])].
Proof. vm_compute. reflexivity. Qed.

(** A mail deleted while reserved refuses its commit, until retention drops it. *)
Definition deletedEntry : Entry := mkEntry exampleID StatusDeleted 5000 0 [1; 1] 140 5000 1 100 120.
Definition holdingEntry : Mailbox := mkMailbox 7 {[exampleID := deletedEntry]} 0 ∅ 0 0 None 120.
Definition holdingClaim : Mailbox := mkMailbox 7 ∅ 0 (remembered 130 (Some deletedEntry) ∅) 1 0 None 130.

Example deleted_claim_after_eviction :
  commitClaimMutate 7 exampleID [1; 1] 131 holdingEntry true = Err ErrMailMissing ∧
  commitClaimMutate 7 exampleID [1; 1] 131 holdingClaim true = Ok (holdingClaim, false, mkEntry exampleID StatusClaimed 0 0 [1; 1] 0 0 0 130 130).
Proof. by split. Qed.
