(* ===== verification/MailOnce.v ===== *)
(** * Broadcasts: a pull is complete, and a global mail is merged once *)

From Stdlib Require Import String.
From S2P Require Import Prelude Bytes GoStr VsRedis VsMemory MailBox MailService MailInv MailClaim.

(** ** Global ids *)

(** The watermark only rises, and an entry with a global id was there before or comes from above the old watermark. *)
Definition follows (m m' : Mailbox) : Prop :=
  BroadcastWatermark m ≤ BroadcastWatermark m' ∧
  ∀ id e, Entries m' !! id = Some e → enGlobalID e ≠ 0 →
    (∃ e0, Entries m !! id = Some e0 ∧ enGlobalID e0 = enGlobalID e) ∨ BroadcastWatermark m < enGlobalID e ≤ BroadcastWatermark m'.

Lemma follows_refl m : follows m m.
Proof. split; [lia|]. intros id e He _. left. by exists e. Qed.

Lemma tides_entry P nowUnix s s' e : rtc (tide P nowUnix) s s' → fst s' = Some e → fst s = Some e ∨ P e.
Proof.
  induction 1 as [|s s1 s2 H _ IH]; [by left|]. intros He. destruct (IH He) as [H1|]; [|by right].
  destruct H; cbn in *; try done. injection H1 as ->. by right.
Qed.

Lemma follows_tides nowUnix P m m' : BroadcastWatermark m ≤ BroadcastWatermark m' → (∀ id, rtc (tide (P id) nowUnix) (slotOf m id) (slotOf m' id)) →
  (∀ id x, P id x → enGlobalID x = 0 ∨ BroadcastWatermark m < enGlobalID x ≤ BroadcastWatermark m') → follows m m'.
Proof.
  intros Hw T HP. split; [done|]. intros id e He Hne. destruct (tides_entry _ _ _ _ e (T id)) as [H|H]; [exact He| |].
  - left. exists e. split; [exact H|done].
  - right. by destruct (HP _ _ H).
Qed.

Lemma follows_touch id e e' m m' : touches id e e' m m' → enGlobalID e' = enGlobalID e → follows m m'.
Proof.
  intros [He E _ _ _ W] Hg. split; [lia|]. intros k x. rewrite E. intros [[<- <-]|[_ Hx]]%lookup_insert_Some _; left; [exists e; by rewrite Hg|by exists x].
Qed.

Definition box_follows (bs bs' : boxes) : Prop := ∀ k, follows (mailAt bs k) (mailAt bs' k).

Lemma box_follows_refl bs : box_follows bs bs.
Proof. intros k. apply follows_refl. Qed.

Lemma box_follows_save bs p m' ver : follows (boxAt bs p) m' → box_follows bs (<[boxKey p := mkVersioned m' ver]> bs).
Proof.
  intros H k. unfold mailAt. destruct (decide (k = boxKey p)) as [->|Hne]; [by rewrite lookup_insert_eq|]. rewrite lookup_insert_ne by done. apply follows_refl.
Qed.

(** An update whose saved mailboxes follow the old ones. *)
Lemma update_follows {R} bs p (mutate : Mailbox → bool → result MailErr (Mailbox * bool * R)) :
  (∀ m' r, mutate (boxAt bs p) (boxFound bs p) = Ok (m', true, r) → follows (boxAt bs p) m') → box_follows bs (fst (UpdateBox bs p mutate)).
Proof.
  intros H. pose proof (updateBox_spec bs p mutate) as HU. destruct (mutate _ _) as [[[m' [|]] r]|e]; [|rewrite HU; apply box_follows_refl..].
  destruct HU as [ver ->]. apply box_follows_save. by eapply H.
Qed.

Lemma transition_follows nowUnix p id next bs : box_ok (boxAt bs p) → box_follows bs (fst (transition nowUnix p id next bs)).
Proof.
  intros B. unfold transition. destruct (_ <=? 0); [apply box_follows_refl|]. case_bool_decide; [apply box_follows_refl|]. apply update_follows.
  intros m' r E. destruct (transition_effect _ _ _ _ _ _ _ _ B E) as (e & _ & T & _). by eapply follows_touch.
Qed.

Lemma deliver_follows clock p id nowUnix es bs : box_ok (boxAt bs p) → box_follows bs (fst (Deliver clock p id nowUnix es bs)).
Proof.
  intros B. unfold Deliver, deliver. destruct (_ <=? 0); [apply box_follows_refl|]. case_bool_decide; [apply box_follows_refl|].
  destruct (es !! id) as [e|]; [|apply box_follows_refl]. destruct (EnvelopeExpired _ _); [apply box_follows_refl|]. apply update_follows.
  intros m' r E. destruct (deliver_effect _ _ _ _ _ _ _ _ B E) as ([_ _ W] & _ & T). eapply follows_tides; [lia|exact T|]. intros k x [_ ->]. by left.
Qed.

Lemma refresh_follows lz p profile ledger nowUnix bs : ledger_ok (ledgerOf ledger) → box_ok (boxAt bs p) →
  box_follows bs (fst (refreshMailbox lz p profile ledger nowUnix bs)).
Proof.
  intros LO B. apply update_follows. intros m' r E. assert (Hf : boxFound bs p || bool_decide (is_Some profile) = true).
  { destruct (boxFound _ _) eqn:Ef; [done|]. destruct profile; [done|]. unfold refreshMutate in E. cbn in E. done. }
  destruct (refresh_effect _ _ _ _ _ _ _ _ _ _ LO B E Hf) as (m1 & B1 & Hw1 & _ & T1 & _ & M & _). pose proof (mo_watermark _ _ _ _ _ M).
  eapply (follows_tides nowUnix (λ id x, by_merge (refreshAdmit lz nowUnix (Profile m')) nowUnix (blMails (ledgerOf ledger)) (Some (BroadcastWatermark m')) m1 id x)); [lia|..].
  - intros id. etrans; [apply T1|]. apply (mo_tides _ _ _ _ _ M id).
  - intros id x (g & _ & [Hg _] & Hb & _ & ->). right. cbn in *. lia.
Qed.

Lemma exec_follows lz lease n op s : mail_inv n s → box_follows (msBoxes s) (msBoxes (mailExec lz lease op s)).
Proof.
  intros I. assert (B : ∀ p, box_ok (boxAt (msBoxes s) p)) by (intros p; by apply (box_at_ok n s p)).
  destruct op as [nw e|nw mx id|nw id|c nw p id|nw p id|nw p id|nw p id tk|nw p id tk|nw p id tk a|nw p pr sn]; cbn [mailExec msBoxes with_boxes with_ledger];
    try apply box_follows_refl; try (by apply transition_follows); [|by apply deliver_follows|..].
  - destruct (msEnvelopes s !! id); apply box_follows_refl.
  - destruct (msEnvelopes s !! id) as [e|]; [|apply box_follows_refl]. unfold reserveChecked. destruct (EnvelopeExpired _ _); [apply box_follows_refl|].
    destruct (HasAttachment e); [|apply box_follows_refl]. cbn [negb]. destruct (UpdateBox _ _ _) as [bs' r] eqn:E. cbn [msBoxes]. change bs' with (fst (bs', r)). rewrite <- E.
    apply update_follows. intros m' c Hr. destruct (reserve_effect _ _ _ _ _ _ _ _ _ _ _ (B p) Hr) as (e' & _ & T & _). by eapply follows_touch.
  - unfold CommitClaim. case_bool_decide; [apply box_follows_refl|]. apply update_follows. intros m' r Hr.
    destruct (commit_effect _ _ _ _ _ _ _ _ (B p) Hr) as (e' & _ & _ & T & _). by eapply follows_touch.
  - unfold CancelClaim. destruct (_ || _); [apply box_follows_refl|]. apply update_follows. intros m' r Hr.
    destruct (cancel_effect _ _ _ _ _ _ _ _ _ (B p) Hr) as (e' & _ & _ & T & _). by eapply follows_touch.
  - apply refresh_follows; [|apply B]. by apply (snapshot_ok n s sn).
Qed.

Lemma run_follows lz lease ops : ∀ n s k, 0 ≤ n → n + Z.of_nat (length ops) < 2^64 → Forall mints ops → mail_inv n s →
  BroadcastWatermark (mailAt (msBoxes s) k) ≤ BroadcastWatermark (mailAt (msBoxes (mailRun lz lease ops s)) k) ∧
  ∀ id e, Entries (mailAt (msBoxes (mailRun lz lease ops s)) k) !! id = Some e → 0 < enGlobalID e ≤ BroadcastWatermark (mailAt (msBoxes s) k) →
    ∃ e0, Entries (mailAt (msBoxes s) k) !! id = Some e0 ∧ enGlobalID e0 = enGlobalID e.
Proof.
  induction ops as [|op ops IH]; intros n s k Hn Hl Hm I; cbn [length mailRun foldl] in *; [split; [lia|intros id e He _; by exists e]|].
  apply Forall_cons in Hm as [Hm1 Hm]. assert (Hl1 : n + 1 < 2^64) by lia.
  pose proof (exec_inv lz lease n op s Hn Hl1 Hm1 I) as I1.
  destruct (exec_follows lz lease n op (tick op s) (mail_inv_tick _ _ _ I) k) as [F1 F2]. cbn [tick msBoxes] in F1, F2.
  destruct (IH (n + 1) _ k ltac:(lia) ltac:(lia) Hm I1) as [W G]. split; [etrans; [exact F1|exact W]|]. intros id e He Hg.
  destruct (G id e He) as (e1 & He1 & E1); [lia|]. destruct (F2 id e1 He1) as [(e0 & He0 & E0)|]; [lia| |lia]. exists e0. split; [done|congruence].
Qed.

Lemma mailRun_app lz lease ops ops' s : mailRun lz lease (ops ++ ops') s = mailRun lz lease ops' (mailRun lz lease ops s).
Proof. apply foldl_app. Qed.

(** C11. A global mail is merged into a mailbox at most once: whatever happens
    after a mailbox's watermark has reached a global id - stale snapshots,
    deletions, evictions, expiry, racing pulls - an entry with that id is one
    that was in the mailbox at that time, so a mail that was deleted or judged
    not the player's never comes (back). *)
Theorem broadcast_merged_once lz lease ops later k mailID e :
  let s := mailRun lz lease ops startSys in let s' := mailRun lz lease later s in
  Forall mints (ops ++ later) → Z.of_nat (length (ops ++ later)) < 2^64 →
  Entries (mailAt (msBoxes s') k) !! mailID = Some e → 0 < enGlobalID e ≤ BroadcastWatermark (mailAt (msBoxes s) k) →
  ∃ e0, Entries (mailAt (msBoxes s) k) !! mailID = Some e0 ∧ enGlobalID e0 = enGlobalID e.
Proof.
  intros s s' Hm Hl He Hg. apply Forall_app in Hm as [Hm1 Hm2]. rewrite length_app in Hl.
  assert (Hl1 : 0 + Z.of_nat (length ops) < 2^64) by lia.
  pose proof (mail_run_inv lz lease ops 0 startSys ltac:(lia) Hl1 Hm1 mail_inv_start) as I.
  apply (run_follows lz lease later (0 + Z.of_nat (length ops)) s k ltac:(lia) ltac:(lia) Hm2 I); done.
Qed.

Definition globalMail : Envelope := mkEnvelope exampleID AudienceBroadcast [] [] [83] [] [1] [114] 100 5000.
Definition pullOps : list MailOp := [OpStore 100 globalMail; OpPublish 100 0 exampleID; OpRefresh 120 7 (Some (mkProfile [] 50 ∅)) (Some 0%nat)].
Definition laterOps : list MailOp := [OpMarkRead 130 7 exampleID; OpRefresh 140 7 None (Some 0%nat)].

Lemma broadcast_merged_once_witness : ∃ e e0, enGlobalID e = 1 ∧
  Entries (mailAt (msBoxes (mailRun (Some None) 30 pullOps startSys)) (boxKey 7)) !! exampleID = Some e0 ∧ enGlobalID e0 = enGlobalID e.
Proof.
  assert (H : ∃ e, Entries (mailAt (msBoxes (mailRun (Some None) 30 laterOps (mailRun (Some None) 30 pullOps startSys))) (boxKey 7)) !! exampleID = Some e ∧ enGlobalID e = 1).
  { eexists. split; [vm_compute; reflexivity|reflexivity]. }
  destruct H as (e & He & Hg). exists e.
  assert (Hw : BroadcastWatermark (mailAt (msBoxes (mailRun (Some None) 30 pullOps startSys)) (boxKey 7)) = 1) by (vm_compute; reflexivity).
  destruct (broadcast_merged_once (Some None) 30 pullOps laterOps (boxKey 7) exampleID e) as (e0 & H1 & H2); [repeat constructor|done|exact He|rewrite Hg, Hw; lia|].
  exists e0. by split_and!.
Defined.

Lemma known_tides nowUnix m m' id : rtc (tide nothing nowUnix) (slotOf m id) (slotOf m' id) → known m' id → known m id.
Proof.
  intros T K. destruct (decide (known m id)) as [|Hn]; [done|]. apply unknown_slot in Hn. apply tides_unknown in T as [= T1 T2]; [|done].
  destruct K as [K|K]; [rewrite T1 in K|rewrite T2 in K]; by destruct K.
Qed.

(** C12. A pull is complete: every global mail that the player's profile admits
    and that the new watermark passed is in the mailbox as an unread entry with
    its own expiry, or was known to the mailbox before; and a pull that was not
    stopped by a full mailbox passes the whole ledger. *)
Theorem broadcast_pull_complete el lease ops p profile i l nowUnix m' merged stopped pr :
  let s := mailRun (Some el) lease ops startSys in
  Forall mints ops → Z.of_nat (length ops) < 2^64 → msLedgers s !! i = Some l →
  snd (refreshMailbox (Some el) p profile (Some l) nowUnix (msBoxes s)) = Ok (m', merged, stopped) → Profile m' = Some pr →
  (∀ g, g ∈ blMails l → admits el pr g nowUnix = true → BroadcastWatermark (boxAt (msBoxes s) p) < gmID g ≤ BroadcastWatermark m' →
    known (boxAt (msBoxes s) p) (gmMailID g) ∨ Entries m' !! gmMailID g = Some (landed nowUnix g)) ∧
  (stopped = false → blHead l ≤ BroadcastWatermark m').
Proof.
  intros s Hm Hl Hi HR Hpr. pose proof (mail_run_inv (Some el) lease ops 0 startSys ltac:(lia) Hl Hm mail_inv_start) as I. fold s in I.
  destruct (mi_ledger _ _ I l) as (LO & _); [by eapply list_elem_of_lookup_2|]. destruct (box_at_ok _ _ p I) as [B W0].
  unfold refreshMailbox, UpdateBox in HR. cbn [snd] in HR.
  destruct (refreshMutate (Some el) p profile (Some l) nowUnix _ _) as [[[m2 save] r]|] eqn:E; [|done]. injection HR as ->.
  destruct (boxFound (msBoxes s) p || bool_decide (is_Some profile)) eqn:Hf.
  2:{ apply orb_false_iff in Hf as [Hf Hp]. destruct profile; [done|]. unfold refreshMutate in E. rewrite Hf in E. cbn in E.
      injection E as _ _ <- _ _. unfold boxAt, boxFound, memValue in *. by destruct (msBoxes s !! boxKey p). }
  destruct (refresh_effect _ _ _ (Some l) _ _ _ _ _ _ LO B E Hf) as (m1 & B1 & Hw1 & _ & T1 & _ & M & Hfull). cbn [snd] in Hfull.
  assert (Hsame : BroadcastWatermark m' = BroadcastWatermark m2 ∧ Profile m' = Profile m2 ∧
    (BroadcastWatermark (boxAt (msBoxes s) p) < BroadcastWatermark m2 → m' = m2)).
  { destruct (refresh_answer _ _ _ (Some l) _ _ _ _ _ _ LO B E Hf) as [Ha|(Ha & W & P)]; cbn [fst] in Ha; subst; [done|]. rewrite W, P. split_and!; [done..|lia]. }
  destruct Hsame as (EW & EP & EM). rewrite EW. split.
  - intros g Hg Ha Hr. rewrite EM by lia. rewrite Hpr in EP. destruct (mo_done _ _ _ _ _ M g Hg) as [K|K].
    + split; [lia|]. unfold refreshAdmit. by rewrite <- EP.
    + lia.
    + left. by apply (known_tides nowUnix _ m1).
    + by right.
  - intros ->. apply Hfull; [by eexists|rewrite <- EP, Hpr; by eexists|by eexists|done].
Qed.

Lemma broadcast_pull_complete_witness : ∃ m' merged,
  snd (refreshMailbox (Some None) 7 (Some (mkProfile [] 50 ∅)) (Some (mkLedger 1 [published globalMail 100 emptyLedger])) 120
    (msBoxes (mailRun (Some None) 30 (take 2 pullOps) startSys))) = Ok (m', merged, false) ∧
  (known (boxAt (msBoxes (mailRun (Some None) 30 (take 2 pullOps) startSys)) 7) exampleID ∨
   Entries m' !! exampleID = Some (landed 120 (published globalMail 100 emptyLedger))).
Proof.
  assert (H : ∃ m' merged, snd (refreshMailbox (Some None) 7 (Some (mkProfile [] 50 ∅)) (Some (mkLedger 1 [published globalMail 100 emptyLedger])) 120
    (msBoxes (mailRun (Some None) 30 (take 2 pullOps) startSys))) = Ok (m', merged, false) ∧ Profile m' = Some (mkProfile [] 50 ∅) ∧ BroadcastWatermark m' = 1).
  { eexists _, _. split; [vm_compute; reflexivity|done]. }
  destruct H as (m' & merged & HR & HP & HW). exists m', merged. split; [exact HR|].
  refine (proj1 (broadcast_pull_complete None 30 (take 2 pullOps) 7 _ 0%nat _ 120 m' merged false _ _ _ _ HR HP) (published globalMail 100 emptyLedger) _ _ _);
    [repeat constructor|done|vm_compute; reflexivity|by left|done|]. rewrite HW. split; [vm_compute; reflexivity|done].
Defined.
