(* ===== verification/MailPage.v ===== *)
(** * Listing: the pages of a mailbox (service/mail/service.go: List, resumeIndex)

    A client asks for the first page and follows the cursors; between two
    pages the mailbox, the envelopes, the ledger and the clock may change. *)

From Stdlib Require Import String.
From S2P Require Import Prelude Bytes GoStr VsRedis VsMemory MailBox MailService MailInv MailClaim MailOnce.

(** ** The order of strings *)

Lemma str_lt_irrefl a : str_lt a a = false.
Proof. induction a as [|x a IH]; [done|]. cbn. by rewrite Z.ltb_irrefl, Z.eqb_refl. Qed.

Lemma str_lt_trans a : ∀ b c, str_lt a b = true → str_lt b c = true → str_lt a c = true.
Proof.
  induction a as [|x a IH]; intros [|y b] [|z c]; cbn; try done. intros H1 H2.
  apply orb_true_iff in H1, H2. apply orb_true_iff.
  destruct H1 as [H1|[H1 H1']%andb_true_iff], H2 as [H2|[H2 H2']%andb_true_iff]; [left; lia..|right]. apply andb_true_iff. split; [lia|by eapply IH].
Qed.

Lemma str_lt_total a : ∀ b, str_lt a b = false → str_lt b a = false → a = b.
Proof.
  induction a as [|x a IH]; intros [|y b]; cbn; try done. intros [H1 H2]%orb_false_iff [H3 H4]%orb_false_iff.
  assert (x = y) as -> by lia. rewrite Z.eqb_refl in H2, H4. f_equal. by apply IH.
Qed.

(** ** The order of a listing *)

Lemma newer_irrefl a : newerEntry a a = false.
Proof. unfold newerEntry. rewrite Z.eqb_refl. apply str_lt_irrefl. Qed.

Lemma newer_trans a b c : newerEntry a b = true → newerEntry b c = true → newerEntry a c = true.
Proof.
  unfold newerEntry. destruct (Z.eqb_spec (enDeliveredAtUnix a) (enDeliveredAtUnix b)) as [E1|E1], (Z.eqb_spec (enDeliveredAtUnix b) (enDeliveredAtUnix c)) as [E2|E2];
    destruct (Z.eqb_spec (enDeliveredAtUnix a) (enDeliveredAtUnix c)) as [E3|E3]; try lia. intros H1 H2. by eapply str_lt_trans.
Qed.

Lemma newer_total a b : newerEntry a b = false → newerEntry b a = false → enMailID a = enMailID b.
Proof.
  unfold newerEntry. rewrite (Z.eqb_sym (enDeliveredAtUnix b)). destruct (Z.eqb_spec (enDeliveredAtUnix a) (enDeliveredAtUnix b)); [|lia].
  intros H1 H2. by apply str_lt_total.
Qed.

Lemma newer_asym a b : newerEntry a b = true → newerEntry b a = false.
Proof. intros H. destruct (newerEntry b a) eqn:E; [|done]. pose proof (newer_trans _ _ _ H E) as Hx. by rewrite newer_irrefl in Hx. Qed.

Lemma newer_ntrans a b c : newerEntry b a = false → newerEntry c b = false → newerEntry c a = false.
Proof.
  intros H1 H2. destruct (newerEntry c a) eqn:E; [|done]. destruct (newerEntry a b) eqn:Eab.
  - pose proof (newer_trans _ _ _ E Eab). congruence.
  - unfold newerEntry in *. rewrite (Z.eqb_sym (enDeliveredAtUnix b)) in H1.
    destruct (Z.eqb_spec (enDeliveredAtUnix a) (enDeliveredAtUnix b)) as [E1|]; [|lia]. rewrite <- E1 in H2.
    pose proof (str_lt_total _ _ H1 Eab) as Hid. rewrite Hid in *. congruence.
Qed.

(** What is listed. *)
Definition shown (m : Mailbox) : list Entry := List.filter (λ e, negb (bool_decide (enStatus e = StatusDeleted))) (map_to_list (Entries m)).*2.

Lemma entries_ids m : box_core m → NoDup (map enMailID (map_to_list (Entries m)).*2).
Proof.
  intros C. change (map enMailID ?l) with (enMailID <$> l). rewrite <- list_fmap_compose.
  assert (E : (enMailID ∘ snd) <$> map_to_list (Entries m) = (map_to_list (Entries m)).*1).
  { apply list_fmap_ext. intros i [k e] Hi. cbn. apply (bc_id _ C). apply elem_of_map_to_list. by eapply list_elem_of_lookup_2. }
  rewrite E. apply NoDup_fst_map_to_list.
Qed.

Lemma shown_ids m : box_core m → NoDup (map enMailID (shown m)).
Proof.
  intros C. unfold shown. pose proof (entries_ids m C) as N. revert N. generalize (map_to_list (Entries m)).*2. intros l N.
  induction l as [|e l IH]; cbn; [constructor|]. cbn in N. apply NoDup_cons in N as [N1 N2]. destruct (negb _); cbn; [|by apply IH].
  apply NoDup_cons. split; [|by apply IH]. intros (x & Ex & Hx)%list_elem_of_fmap. apply N1. apply list_elem_of_In, filter_In in Hx as [Hx _].
  apply list_elem_of_fmap. exists x. split; [exact Ex|by apply list_elem_of_In].
Qed.

Lemma listed_sorted m : box_core m → StronglySorted (λ a b, newerEntry a b = true) (listed m).
Proof.
  intros C. unfold listed. fold (shown m). pose proof (SliceStable_sorted newerEntry newer_asym newer_ntrans (shown m)) as Hs.
  assert (N : NoDup (map enMailID (SliceStable newerEntry (shown m)))).
  { change (map enMailID ?l) with (enMailID <$> l). rewrite (SliceStable_perm newerEntry (shown m)). by apply shown_ids. }
  revert Hs N. generalize (SliceStable newerEntry (shown m)). intros l. induction 1 as [|e l Hs IH He]; intros N; [constructor|].
  cbn in N. apply NoDup_cons in N as [N1 N2]. constructor; [by apply IH|]. rewrite Forall_forall in He |- *. intros x Hx.
  destruct (newerEntry e x) eqn:E; [done|]. destruct N1. apply list_elem_of_fmap. exists x. split; [|done]. apply newer_total; [done|by apply He].
Qed.

(** ** Resuming *)

Lemma sorted_lookup {A} (R : A → A → Prop) l i j x y : StronglySorted R l → l !! i = Some x → l !! j = Some y → (i < j)%nat → R x y.
Proof.
  intros Hs. revert i j. induction Hs as [|z l Hs IH Hz]; intros [|i] [|j] Hx Hy Hij; cbn in *; try done; try lia.
  - injection Hx as ->. rewrite Forall_forall in Hz. apply Hz. by eapply list_elem_of_lookup_2.
  - eapply IH; [done|done|lia].
Qed.

Lemma bar_free n : bar ∉ Itoa n.
Proof.
  destruct (Z.ltb_spec n 0) as [Hn|Hn]; [|apply Itoa_no; [done|unfold bar; lia]]. unfold Itoa. rewrite (proj2 (Z.ltb_lt n 0) Hn).
  intros [H|H]%elem_of_cons; [done|]. assert (Hx : bar ∈ Itoa (- n)) by (unfold Itoa; destruct (Z.ltb_spec (- n) 0); [lia|done]).
  revert Hx. apply Itoa_no; [lia|unfold bar; lia].
Qed.

(** A delivery time is an int64. *)
Abbreviation is_time t := (- 2^63 ≤ t < 2^63).

Lemma Atoi_Itoa_signed n : is_time n → Atoi (Itoa n) = Some n.
Proof.
  intros Hn. destruct (Z.ltb_spec n 0) as [H0|H0]; [|apply Atoi_Itoa; lia].
  pose proof (parse_Itoa (- n)) as Hp. unfold Itoa in *. destruct (Z.ltb_spec (- n) 0); [lia|]. rewrite (proj2 (Z.ltb_lt n 0) H0). unfold Atoi.
  rewrite Hp by (split; lia). destruct (Z.leb_spec (- n) (2^63)); [f_equal; lia|lia].
Qed.

Lemma resumeIndex_cursor l c : is_time (enDeliveredAtUnix c) →
  resumeIndex l (encodeCursor c) = Search (zlen l) (λ i, match l !! Z.to_nat i with Some e => newerEntry c e | None => true end).
Proof.
  intros Hc. unfold resumeIndex, encodeCursor. rewrite CutByte_app by apply bar_free. rewrite Atoi_Itoa_signed by done.
  unfold Search. generalize (Z.to_nat (zlen l)). intros fuel. generalize 0, (zlen l). induction fuel as [|fuel IH]; intros i j; cbn; [done|].
  destruct (i <? j); [|done]. rewrite !IH. destruct (l !! Z.to_nat ((i + j) / 2)) as [e|]; [|done].
  assert (pastCursor (enDeliveredAtUnix c) (enMailID c) e = newerEntry c e) as ->; [|done].
  unfold pastCursor, newerEntry. rewrite (Z.eqb_sym (enDeliveredAtUnix c)). by destruct (_ =? _).
Qed.

(** The cursor of any entry, listed or gone, resumes after the entries that are not older than it. *)
Lemma resume_spec l c : StronglySorted (λ a b, newerEntry a b = true) l → is_time (enDeliveredAtUnix c) →
  let k := resumeIndex l (encodeCursor c) in
  0 ≤ k ≤ zlen l ∧ ∀ i e, l !! i = Some e → newerEntry c e = (k <=? Z.of_nat i).
Proof.
  intros Hs Hc k. unfold k. rewrite resumeIndex_cursor by done.
  set (f := λ i, match l !! Z.to_nat i with Some e => newerEntry c e | None => true end). destruct (Search_spec (zlen l) f (zlen_nonneg l)) as (H1 & H2 & H3).
  - intros a b Hab Hb Ha. unfold f in *. destruct (decide (a = b)) as [->|Hne]; [done|].
    destruct (l !! Z.to_nat b) as [eb|] eqn:Eb; [|done]. destruct (l !! Z.to_nat a) as [ea|] eqn:Ea.
    + eapply newer_trans; [exact Ha|]. apply (sorted_lookup (λ a b, newerEntry a b = true) l (Z.to_nat a) (Z.to_nat b)); [done..|lia].
    + apply lookup_ge_None in Ea. apply lookup_lt_Some in Eb. lia.
  - split; [done|]. intros i e Hi. assert (Hf : f (Z.of_nat i) = newerEntry c e) by (unfold f; by rewrite Nat2Z.id, Hi). rewrite <- Hf.
    apply lookup_lt_Some in Hi. destruct (Z.leb_spec (Search (zlen l) f) (Z.of_nat i)); [apply H3|apply H2]; unfold zlen in *; lia.
Qed.

Lemma drop_filter {A} (f : A → bool) (l : list A) : ∀ k, (∀ i e, l !! i = Some e → f e = (k <=? i)%nat) → drop k l = List.filter f l.
Proof.
  induction l as [|x l IH]; intros k H; [by destruct k|]. destruct k as [|k]; cbn.
  - rewrite (H 0%nat x eq_refl). cbn. f_equal. rewrite <- (IH 0%nat); [done|]. intros i e Hi. by apply (H (S i)).
  - rewrite (H 0%nat x eq_refl). cbn. apply IH. intros i e Hi. by apply (H (S i)).
Qed.

Lemma resume_filter l c : StronglySorted (λ a b, newerEntry a b = true) l → is_time (enDeliveredAtUnix c) →
  zdrop (resumeIndex l (encodeCursor c)) l = List.filter (newerEntry c) l.
Proof.
  intros Hs Hc. destruct (resume_spec l c Hs Hc) as [Hk H]. unfold zdrop. apply drop_filter. intros i e Hi. rewrite (H i e Hi).
  destruct (Z.leb_spec (resumeIndex l (encodeCursor c)) (Z.of_nat i)), (Nat.leb_spec (Z.to_nat (resumeIndex l (encodeCursor c))) i); (done || lia).
Qed.

(** ** One page *)

Definition times_ok (m : Mailbox) : Prop := ∀ id e, Entries m !! id = Some e → is_time (enDeliveredAtUnix e).

Lemma elem_of_listed m e : box_core m → e ∈ listed m ↔ Entries m !! enMailID e = Some e ∧ enStatus e ≠ StatusDeleted.
Proof.
  intros C. unfold listed. rewrite (SliceStable_perm newerEntry), list_elem_of_In, filter_In, <- list_elem_of_In, list_elem_of_fmap. split.
  - intros [([id x] & -> & Hx%elem_of_map_to_list) Hd]. cbn. rewrite (bc_id _ C _ _ Hx). split; [done|]. by apply negb_true_iff, bool_decide_eq_false in Hd.
  - intros [He Hd]. split; [|by apply negb_true_iff, bool_decide_eq_false]. exists (enMailID e, e). split; [done|]. by apply elem_of_map_to_list.
Qed.

Lemma encodeCursor_nonempty e : encodeCursor e ≠ [].
Proof. unfold encodeCursor. by destruct (Itoa _). Qed.

Lemma pageLimit_pos limit : 0 ≤ limit → 0 < pageLimit limit.
Proof. unfold pageLimit, DefaultPageSize, MaxPageSize. destruct (Z.eqb_spec limit 0); [lia|]. destruct (Z.ltb_spec 100 limit); lia. Qed.

(** A cursor stands for the entry it was made from; none is the first page's. *)
Definition cursorOf (cur : option Entry) : bytes := match cur with None => [] | Some c => encodeCursor c end.
Definition cur_ok (cur : option Entry) : Prop := match cur with None => True | Some c => is_time (enDeliveredAtUnix c) end.
Definition past (cur : option Entry) (e : Entry) : bool := match cur with None => true | Some c => newerEntry c e end.
(** The entries that are left for the page of a cursor. *)
Definition rest (cur : option Entry) (m : Mailbox) : list Entry := List.filter (past cur) (listed m).

Lemma filter_true {A} (l : list A) : List.filter (λ _, true) l = l.
Proof. induction l as [|x l IH]; cbn; by f_equal. Qed.

Lemma filter_sorted {A} (R : A → A → Prop) f (l : list A) : StronglySorted R l → StronglySorted R (List.filter f l).
Proof. apply StronglySorted_sublist, list_filter_sublist. Qed.

Lemma rest_start cur m : box_core m → cur_ok cur →
  let start := if bool_decide (cursorOf cur = []) then 0 else resumeIndex (listed m) (cursorOf cur) in 0 ≤ start ∧ zdrop start (listed m) = rest cur m.
Proof.
  intros C Hc. pose proof (listed_sorted m C) as Hs. unfold rest. destruct cur as [c|]; cbn [cursorOf past].
  - rewrite bool_decide_eq_false_2 by apply encodeCursor_nonempty. destruct (resume_spec _ c Hs Hc) as [Hk _]. split; [lia|]. by apply resume_filter.
  - split; [done|]. by rewrite filter_true.
Qed.

(** In a sorted list what follows the last entry of a prefix is the rest of the list. *)
Lemma sorted_after (l : list Entry) : ∀ k e, StronglySorted (λ a b, newerEntry a b = true) l → l !! k = Some e → List.filter (newerEntry e) l = drop (S k) l.
Proof.
  intros k e Hs He. symmetry. apply drop_filter. intros i x Hx. destruct (Nat.leb_spec (S k) i) as [Hi|Hi].
  - by apply (sorted_lookup (λ a b, newerEntry a b = true) l k i).
  - destruct (decide (i = k)) as [->|Hne]; [assert (x = e) as -> by congruence; apply newer_irrefl|].
    apply newer_asym. apply (sorted_lookup (λ a b, newerEntry a b = true) l i k); [done..|lia].
Qed.

Lemma filter_filter {A} (f g : A → bool) (l : list A) : (∀ x, g x = true → f x = true) → List.filter g (List.filter f l) = List.filter g l.
Proof.
  intros H. induction l as [|x l IH]; cbn; [done|]. destruct (f x) eqn:Hf; cbn; [by rewrite IH|].
  destruct (g x) eqn:Hg; [|done]. rewrite (H x Hg) in Hf. done.
Qed.

(** A page shows the first entries of the rest, and its cursor leaves what follows them. *)
Lemma window_rest m cur limit : box_core m → times_ok m → 0 ≤ limit → cur_ok cur →
  let '(win, next) := window m (cursorOf cur) limit in
  win = ztake (pageLimit limit) (rest cur m) ∧
  ((next = [] ∧ win = rest cur m) ∨
   ∃ c, next = cursorOf (Some c) ∧ cur_ok (Some c) ∧ c ∈ win ∧ past cur c = true ∧ rest (Some c) m = zdrop (pageLimit limit) (rest cur m) ∧ pageLimit limit < zlen (rest cur m)).
Proof.
  intros C T Hl Hc. pose proof (pageLimit_pos limit Hl) as Hp. destruct (rest_start cur m C Hc) as [H0 Hr]. unfold window.
  set (start := if bool_decide (cursorOf cur = []) then 0 else _) in *. pose proof (zlen_nonneg (listed m)) as Hn.
  destruct (Z.leb_spec (zlen (listed m)) start) as [Hle|Hlt].
  { rewrite <- Hr, zdrop_all by done. split; [unfold ztake; by rewrite take_nil|by left]. }
  assert (Hlen : zlen (rest cur m) = zlen (listed m) - start) by (rewrite <- Hr, zlen_zdrop; lia). rewrite Hr. split.
  - destruct (Z.min_spec (start + pageLimit limit) (zlen (listed m))) as [[? ->]|[? ->]]; [f_equal; lia|]. rewrite !ztake_all; [done|lia..].
  - destruct (Z.ltb_spec (Z.min (start + pageLimit limit) (zlen (listed m))) (zlen (listed m))) as [Hend|Hend]; [|left; split; [done|apply ztake_all; lia]]. right.
    rewrite Z.min_l by lia. replace (start + pageLimit limit - start) with (pageLimit limit) by lia.
    destruct (lookup_lt_is_Some_2 (rest cur m) (Z.to_nat (pageLimit limit - 1))) as [c Hcc]; [unfold zlen in *; lia|].
    assert (Hlast : last (ztake (pageLimit limit) (rest cur m)) = Some c).
    { rewrite last_lookup. unfold ztake. rewrite length_take. unfold zlen in *. rewrite lookup_take_lt by lia. rewrite <- Hcc. f_equal. lia. }
    rewrite Hlast. assert (Hin : c ∈ rest cur m) by (by eapply list_elem_of_lookup_2).
    unfold rest in Hin. apply list_elem_of_In, filter_In in Hin as [Hin Hpast]. apply list_elem_of_In, (elem_of_listed m c C) in Hin as [Hin _].
    exists c. split_and!; [done|by apply (T _ _ Hin)|by eapply last_Some_elem_of|done| |lia].
    unfold rest at 1. cbn [past]. rewrite <- (filter_filter (past cur) (newerEntry c)).
    + fold (rest cur m). rewrite (sorted_after _ (Z.to_nat (pageLimit limit - 1)) c); [unfold zdrop; f_equal; lia|by apply filter_sorted, listed_sorted|done].
    + intros x Hx. destruct cur as [c0|]; [|done]. cbn in *. by eapply newer_trans.
Qed.

(** ** A call of List *)

(** What a call meets: its two clock readings, the ledger, the envelopes and the mailboxes. *)
Record Call := mkCall { caExpiry : Z; caNow : Z; caLedger : BroadcastLedger; caEnvelopes : envelopes; caBoxes : boxes }.

(** A page, its call and the mailbox as the call left it. *)
Record Visit := mkVisit { viCall : Call; viBox : Mailbox; viPage : Page }.

Definition visit (lz : lazy) (playerID limit : Z) (cursor : bytes) (c : Call) : option Visit :=
  match ListMail lz (caExpiry c) (caNow c) playerID cursor limit (caLedger c) (caEnvelopes c) (caBoxes c) with
  | (bs, Ok page) => Some (mkVisit c (boxAt bs playerID) page)
  | (_, Err _) => None
  end.

(** The pages of a client that follows the cursors, one call each, and whether it reached a page without a cursor. *)
Fixpoint browse (lz : lazy) (playerID limit : Z) (cursor : bytes) (calls : list Call) : list Visit * bool :=
  match calls with
  | [] => ([], false)
  | c :: calls =>
      match visit lz playerID limit cursor c with
      | None => ([], false)
      | Some v =>
          if bool_decide (pgNextCursor (viPage v) = []) then ([v], true)
          else let '(vs, ended) := browse lz playerID limit (pgNextCursor (viPage v)) calls in (v :: vs, ended)
      end
  end.

(** A state of the stores: the invariants of the mailbox and the ledger, envelopes under their ids, times within an int64. *)
Record call_ok (playerID : Z) (c : Call) : Prop := {
  co_box : box_ok (boxAt (caBoxes c) playerID);
  co_times : times_ok (boxAt (caBoxes c) playerID);
  co_ledger : ledger_ok (caLedger c);
  co_names : ∀ id e, caEnvelopes c !! id = Some e → eID e = id;
  co_clock : is_time (caExpiry c)
}.

Lemma pending_ok lz m l : ledger_ok l → ledger_ok (ledgerOf (pendingBroadcasts lz m l)).
Proof. intros L. unfold pendingBroadcasts. destruct lz, (Profile m); try apply ledger_ok_empty. destruct (_ <=? _); [apply ledger_ok_empty|done]. Qed.

(** A refresh of a stored mailbox: the mailbox that it answers with is the stored one. *)
Lemma refresh_shown lz p ledger nowUnix bs : boxFound bs p = true → box_ok (boxAt bs p) → times_ok (boxAt bs p) → ledger_ok (ledgerOf ledger) → is_time nowUnix →
  ∃ n stopped, let x := refreshMailbox lz p None ledger nowUnix bs in
    snd x = Ok (boxAt (fst x) p, n, stopped) ∧ box_ok (boxAt (fst x) p) ∧ times_ok (boxAt (fst x) p).
Proof.
  intros Hf B T L Hn. unfold refreshMailbox.
  pose proof (updateBox_spec bs p (refreshMutate lz p None ledger nowUnix)) as HU. rewrite Hf in HU.
  destruct (refreshMutate lz p None ledger nowUnix (boxAt bs p) true) as [[[m' save] [[shown n] st]]|e] eqn:E.
  2:{ unfold refreshMutate in E. cbn in E. destruct (expireEntries _ _), (mergeInto _ _ _ _) as [[? ?] ?]. done. }
  destruct (refresh_effect _ _ _ _ _ _ _ _ _ _ L B E eq_refl) as (m1 & B1 & _ & _ & _ & Hsub & M & _).
  assert (T' : times_ok m').
  { intros id e He. destruct (tides_entry _ _ _ _ e (mo_tides _ _ _ _ _ M id) He) as [H|(g & _ & _ & _ & _ & ->)]; [|done]. by apply (T id), Hsub. }
  assert (Hshown : if save then shown = m' else shown = boxAt bs p).
  { unfold refreshMutate in E. cbn [negb andb] in E. destruct (expireEntries nowUnix _) as [? ?], (recordProfile _ _ _) as [? ?], (mergeInto _ _ _ _) as [[? ?] ?].
    injection E as <- <- <- _ _. by destruct (_ || _). }
  exists n, st. destruct save; [destruct HU as [ver ->]|rewrite HU]; cbn [fst snd]; rewrite Hshown; [|by split_and!].
  unfold boxAt at 1 2 3. rewrite lookup_insert_eq. cbn. split_and!; [done|apply M|done].
Qed.

Lemma window_empty cursor limit : window emptyBox cursor limit = ([], []).
Proof.
  unfold window. assert (resumeIndex (listed emptyBox) cursor = 0) as ->; [|by destruct (bool_decide _)].
  unfold resumeIndex. by destruct (match CutByte cursor bar with Some (rawAt, mailID) => _ | None => _ end) as [[? ?]|].
Qed.

(** The page of a call is the window of the mailbox that the call leaves, less what has no readable envelope. *)
Lemma visit_spec lz p limit cursor c : 0 < p → 0 ≤ limit → call_ok p c →
  ∃ v, visit lz p limit cursor c = Some v ∧ viCall v = c ∧ box_ok (viBox v) ∧ times_ok (viBox v) ∧
    pgItems (viPage v) = omap (itemOf (caEnvelopes c) (caNow c)) (fst (window (viBox v) cursor limit)) ∧ pgNextCursor (viPage v) = snd (window (viBox v) cursor limit).
Proof.
  intros Hp Hl [B T L N Hn]. unfold visit, ListMail. destruct (Z.leb_spec p 0); [lia|]. destruct (Z.ltb_spec limit 0); [lia|].
  destruct (boxFound (caBoxes c) p) eqn:Hf; cbn [negb].
  2:{ eexists. split; [done|]. cbn. assert (boxAt (caBoxes c) p = emptyBox) as ->.
      { unfold boxAt, boxFound, memValue in *. by destruct (caBoxes c !! boxKey p). }
      rewrite window_empty. by split_and!; [|apply box_ok_empty|..]. }
  destruct (expireEntries_shrinks (caExpiry c) (boxAt (caBoxes c) p)) as (m1 & ch & -> & _ & Hch).
  set (pending := pendingBroadcasts lz (boxAt (caBoxes c) p) (caLedger c)). destruct (ch || _) eqn:Hr.
  - destruct (refresh_shown lz p pending (caExpiry c) (caBoxes c) Hf B T (pending_ok _ _ _ L) Hn) as (n & st & HS & B' & T'). cbv zeta in HS, B', T'. cbv zeta. rewrite HS.
    set (bs' := fst (refreshMailbox _ _ _ _ _ _)) in *. destruct (window (boxAt bs' p) cursor limit) as [win next] eqn:EW. eexists. split; [reflexivity|]. cbn [viCall viBox viPage pgItems pgNextCursor]. rewrite EW. by split_and!.
  - apply orb_false_iff in Hr as [-> _]. rewrite (Hch eq_refl). destruct (window (boxAt (caBoxes c) p) cursor limit) as [win next] eqn:EW.
    eexists. split; [reflexivity|]. cbn [viCall viBox viPage pgItems pgNextCursor]. rewrite EW. by split_and!.
Qed.

(** ** Browsing *)

(** The mail [id], delivered at [t], is in the mailbox of a visit, not deleted, and its envelope is stored and not expired. *)
Definition present (id : bytes) (t : Z) (v : Visit) : Prop :=
  ∃ e it, Entries (viBox v) !! id = Some e ∧ enDeliveredAtUnix e = t ∧ enStatus e ≠ StatusDeleted ∧ itemOf (caEnvelopes (viCall v)) (caNow (viCall v)) e = Some it.

(** What the pages show, and of one mail. *)
Definition browsed (vs : list Visit) : list Item := concat (map (λ v, pgItems (viPage v)) vs).
Definition listings (id : bytes) (items : list Item) : list Item := List.filter (λ it, bool_decide (eID (itEnvelope it) = id)) items.

Lemma listings_app id l k : listings id (l ++ k) = listings id l ++ listings id k.
Proof. apply List.filter_app. Qed.

Lemma itemOf_named es nowUnix e it : (∀ id x, es !! id = Some x → eID x = id) → itemOf es nowUnix e = Some it → eID (itEnvelope it) = enMailID e.
Proof. intros N. unfold itemOf. destruct (es !! enMailID e) as [x|] eqn:E; [|done]. destruct (EnvelopeExpired x nowUnix); [done|]. intros [= <-]. by apply N. Qed.

Lemma page_listing es nowUnix id it e win : (∀ id x, es !! id = Some x → eID x = id) → enMailID e = id → itemOf es nowUnix e = Some it →
  NoDup win → (∀ x, x ∈ win → enMailID x = id → x = e) → listings id (omap (itemOf es nowUnix) win) = if decide (e ∈ win) then [it] else [].
Proof.
  intros N He Hit. induction win as [|x win IH]; intros ND Hx; [by rewrite decide_False by apply not_elem_of_nil|].
  apply NoDup_cons in ND as [Hn ND]. specialize (IH ND (λ y Hy, Hx y (list_elem_of_further _ _ _ Hy))). cbn [omap list_omap].
  assert (Hskip : x ≠ e → listings id (match itemOf es nowUnix x with Some y => y :: omap (itemOf es nowUnix) win | None => omap (itemOf es nowUnix) win end)
                          = listings id (omap (itemOf es nowUnix) win)).
  { intros Hne. destruct (itemOf es nowUnix x) as [y|] eqn:Ey; [|done]. unfold listings. cbn [List.filter].
    rewrite bool_decide_eq_false_2; [done|]. rewrite (itemOf_named _ _ _ _ N Ey). intros Hid. apply Hne, Hx; [by left|done]. }
  destruct (decide (x = e)) as [->|Hne].
  - rewrite Hit, decide_True by (by left). rewrite decide_False in IH by done. unfold listings in *. cbn [List.filter].
    rewrite bool_decide_eq_true_2 by (rewrite <- He; by eapply itemOf_named). by rewrite IH.
  - rewrite Hskip, IH by done. destruct (decide (e ∈ win)); [by rewrite decide_True by (by right)|]. rewrite decide_False; [done|].
    intros [->|?]%elem_of_cons; done.
Qed.

Lemma newer_position c e e' : enDeliveredAtUnix e = enDeliveredAtUnix e' → enMailID e = enMailID e' → newerEntry c e = newerEntry c e'.
Proof. unfold newerEntry. by intros -> ->. Qed.

Lemma past_position cur e e' : enDeliveredAtUnix e = enDeliveredAtUnix e' → enMailID e = enMailID e' → past cur e = past cur e'.
Proof. destruct cur; [apply newer_position|done]. Qed.

Lemma past_trans cur c e : past cur c = true → newerEntry c e = true → past cur e = true.
Proof. destruct cur as [c0|]; [|done]. cbn. by apply newer_trans. Qed.

Lemma rest_nodup cur m : box_core m → NoDup (rest cur m).
Proof.
  intros C. eapply sublist_NoDup; [|apply list_filter_sublist]. eapply NoDup_fmap_1 with (f := enMailID).
  unfold listed. fold (shown m). rewrite (SliceStable_perm newerEntry (shown m)). by apply shown_ids.
Qed.

Lemma elem_of_rest cur m e : box_core m → e ∈ rest cur m ↔ (Entries m !! enMailID e = Some e ∧ enStatus e ≠ StatusDeleted) ∧ past cur e = true.
Proof. intros C. unfold rest. rewrite list_elem_of_In, filter_In, <- list_elem_of_In, (elem_of_listed m e C). done. Qed.

(** A visit of a browse, and what is left after it. *)
Record stage (lz : lazy) (p limit : Z) (cur : option Entry) (c : Call) (v : Visit) (win : list Entry) (next : option Entry) : Prop := {
  sg_visit : visit lz p limit (cursorOf cur) c = Some v;
  sg_call : viCall v = c;
  sg_core : box_core (viBox v);
  sg_items : pgItems (viPage v) = omap (itemOf (caEnvelopes c) (caNow c)) win;
  sg_next : pgNextCursor (viPage v) = cursorOf next;
  sg_rest : rest cur (viBox v) = win ++ match next with Some _ => rest next (viBox v) | None => [] end;
  sg_cursor : ∀ x, next = Some x → cur_ok next ∧ past cur x = true ∧ x ∈ win ∧ zlen win = pageLimit limit ∧ pageLimit limit < zlen (rest cur (viBox v))
}.

Lemma stage_of lz p limit cur c : 0 < p → 0 ≤ limit → call_ok p c → cur_ok cur → ∃ v win next, stage lz p limit cur c v win next.
Proof.
  intros Hp Hl Hc Hcur. destruct (visit_spec lz p limit (cursorOf cur) c Hp Hl Hc) as (v & HV & Hv & [C _ _] & T & HI & HN).
  pose proof (window_rest (viBox v) cur limit C T Hl Hcur) as HW. destruct (window (viBox v) (cursorOf cur) limit) as [win next]. cbn [fst snd] in *.
  destruct HW as [Hwin [[-> Hall]|(x & -> & Hx & Hin & Hpast & Hrest & Hlt)]].
  - exists v, win, None. split; [done..|by rewrite app_nil_r|done].
  - exists v, win, (Some x). split; try done; [by rewrite Hwin, Hrest, ztake_zdrop|]. intros y [= <-]. split_and!; try done. rewrite Hwin, zlen_ztake; pose proof (pageLimit_pos limit Hl); lia.
Qed.

Lemma browse_step lz p limit cur c calls v win next : stage lz p limit cur c v win next →
  browse lz p limit (cursorOf cur) (c :: calls) =
    match next with None => ([v], true) | Some _ => let '(vs, ended) := browse lz p limit (cursorOf next) calls in (v :: vs, ended) end.
Proof.
  intros [V _ _ _ N _ _]. cbn [browse]. rewrite V, N. destruct next as [x|]; [|done]. by rewrite bool_decide_eq_false_2 by apply encodeCursor_nonempty.
Qed.

(** A mail that is there at every page is shown once, on the page of its position. *)
Lemma browse_shows lz p limit id t calls : ∀ cur vs, 0 < p → 0 ≤ limit → Forall (call_ok p) calls → cur_ok cur →
  browse lz p limit (cursorOf cur) calls = (vs, true) → Forall (present id t) vs →
  if past cur (newEntry id t) then
    ∃ v e it, v ∈ vs ∧ Entries (viBox v) !! id = Some e ∧ itemOf (caEnvelopes (viCall v)) (caNow (viCall v)) e = Some it ∧ listings id (browsed vs) = [it]
  else listings id (browsed vs) = [].
Proof.
  induction calls as [|c calls IH]; intros cur vs Hp Hl HC Hcur HB HP; [done|]. apply Forall_cons in HC as [Hc HC].
  destruct (stage_of lz p limit cur c Hp Hl Hc Hcur) as (v & win & next & SG). rewrite (browse_step _ _ _ _ _ _ _ _ _ SG) in HB.
  assert (Hvs : ∃ vs', vs = v :: vs' ∧ if next is Some _ then browse lz p limit (cursorOf next) calls = (vs', true) else vs' = []).
  { destruct next as [x|]; [|injection HB as <-; by eexists]. destruct (browse lz p limit (cursorOf (Some x)) calls) as [vs' en]. injection HB as <- ->. by eexists. }
  destruct Hvs as (vs' & -> & HB'). apply Forall_cons in HP as [(e & it & He & Ht & Hd & Hit) HP]. destruct SG as [_ Hv C HI _ HR HN]. rewrite Hv in Hit.
  pose proof (bc_id _ C _ _ He) as Hid. pose proof (rest_nodup cur _ C) as ND. rewrite HR in ND. apply NoDup_app in ND as (ND1 & ND2 & _).
  assert (Hpos : ∀ k, past k (newEntry id t) = past k e) by (intros k; by apply past_position). rewrite Hpos.
  assert (Hlist : listings id (browsed (v :: vs')) = (if decide (e ∈ win) then [it] else []) ++ listings id (browsed vs')).
  { unfold browsed. cbn [map concat]. rewrite listings_app, HI. f_equal. apply page_listing; [apply Hc|done|done|done|]. intros x Hx Hxid.
    assert (Hr : x ∈ rest cur (viBox v)) by (rewrite HR; by apply elem_of_app; left). apply (elem_of_rest cur _ x C) in Hr as [[Hx1 _] _]. rewrite Hxid in Hx1. congruence. }
  rewrite Hlist. clear Hlist. assert (Hnow : ∀ k, past k e = true ↔ e ∈ rest k (viBox v)) by (intros k; rewrite (elem_of_rest k _ e C), Hid; tauto).
  assert (Hfirst : e ∈ win → listings id (browsed vs') = [] → ∃ v0 e0 it0, v0 ∈ v :: vs' ∧ Entries (viBox v0) !! id = Some e0 ∧
    itemOf (caEnvelopes (viCall v0)) (caNow (viCall v0)) e0 = Some it0 ∧ (if decide (e ∈ win) then [it] else []) ++ listings id (browsed vs') = [it0]).
  { intros Hw Hnil. exists v, e, it. rewrite Hv, decide_True, Hnil by done. split_and!; [by left|done..]. }
  destruct next as [x|].
  - destruct (HN x eq_refl) as (Hx & Hpx & _). specialize (IH (Some x) vs' Hp Hl HC Hx HB' HP). rewrite Hpos in IH. destruct (past cur e) eqn:Hpast.
    + pose proof Hpast as Hin. apply Hnow in Hin. rewrite HR in Hin. destruct (past (Some x) e) eqn:Hnx.
      * assert (Hr : e ∈ rest (Some x) (viBox v)) by by apply Hnow. rewrite decide_False by (intros Hw; by apply (ND2 e Hw)).
        destruct IH as (v0 & e0 & it0 & H1 & H2 & H3 & H4). exists v0, e0, it0. split_and!; [by right|done..].
      * apply elem_of_app in Hin as [Hw|Hr]; [by apply Hfirst|]. apply Hnow in Hr. congruence.
    + destruct (past (Some x) e) eqn:Hnx; [by rewrite (past_trans cur x e Hpx Hnx) in Hpast|]. rewrite decide_False; [done|].
      intros Hw. assert (Hr : e ∈ rest cur (viBox v)) by (rewrite HR; by apply elem_of_app; left). apply Hnow in Hr. congruence.
  - subst vs'. rewrite app_nil_r in HR. destruct (past cur e) eqn:Hpast.
    + apply Hfirst; [|done]. rewrite <- HR. by apply Hnow.
    + rewrite decide_False; [done|]. rewrite <- HR. intros Hw. apply Hnow in Hw. congruence.
Qed.

(** What a list of visits shows, entry by entry. *)
Definition itemAt (x : Visit * Entry) : option Item := itemOf (caEnvelopes (viCall x.1)) (caNow (viCall x.1)) x.2.
Definition kept_in (vs : list Visit) (x : Visit * Entry) : Prop := x.1 ∈ vs ∧ Entries (viBox x.1) !! enMailID x.2 = Some x.2 ∧ enStatus x.2 ≠ StatusDeleted.

Lemma omap_visit v win : omap itemAt (map (pair v) win) = omap (itemOf (caEnvelopes (viCall v)) (caNow (viCall v))) win.
Proof. induction win as [|e win IH]; [done|]. cbn. unfold itemAt at 1. cbn. by rewrite IH. Qed.

Lemma kept_further v vs x : kept_in vs x → kept_in (v :: vs) x.
Proof. intros (H1 & H2). split; [by right|done]. Qed.

Lemma sorted_app {A} (R : A → A → Prop) (l k : list A) : StronglySorted R l → StronglySorted R k → (∀ x y, x ∈ l → y ∈ k → R x y) → StronglySorted R (l ++ k).
Proof.
  intros Hl Hk H. induction Hl as [|x l Hl IH Hx]; [done|]. cbn. constructor; [apply IH; intros; apply H; [by right|done]|].
  apply Forall_app. split; [done|]. apply Forall_forall. intros y Hy. apply H; [by left|done].
Qed.

Lemma app_sorted {A} (R : A → A → Prop) (l k : list A) : StronglySorted R (l ++ k) → StronglySorted R l.
Proof. apply StronglySorted_sublist, sublist_inserts_r. done. Qed.

Lemma sorted_map {A B} (f : A → B) (R : B → B → Prop) (l : list A) : StronglySorted R (map f l) → StronglySorted (λ x y, R (f x) (f y)) l.
Proof. induction l as [|x l IH]; cbn; [constructor|]. intros [H1 H2]%StronglySorted_inv. constructor; [by apply IH|]. exact (proj1 (List.Forall_map f _ l) H2). Qed.

(** The pages show entries of their mailboxes, newest first across all of them. *)
Lemma browse_trail lz p limit calls : ∀ cur vs ended, 0 < p → 0 ≤ limit → Forall (call_ok p) calls → cur_ok cur → browse lz p limit (cursorOf cur) calls = (vs, ended) →
  ∃ tr, browsed vs = omap itemAt tr ∧ Forall (kept_in vs) tr ∧ StronglySorted (λ x y, newerEntry x.2 y.2 = true) tr ∧ Forall (λ x, past cur x.2 = true) tr.
Proof.
  induction calls as [|c calls IH]; intros cur vs ended Hp Hl HC Hcur HB.
  { injection HB as <- <-. exists []. split_and!; [done|constructor..]. }
  apply Forall_cons in HC as [Hc HC]. destruct (stage_of lz p limit cur c Hp Hl Hc Hcur) as (v & win & next & SG). rewrite (browse_step _ _ _ _ _ _ _ _ _ SG) in HB.
  assert (Hvs : ∃ vs', vs = v :: vs' ∧ ∃ tr, browsed vs' = omap itemAt tr ∧ Forall (kept_in vs') tr ∧ StronglySorted (λ x y, newerEntry x.2 y.2 = true) tr ∧
    Forall (λ x : Visit * Entry, ∃ y, next = Some y ∧ newerEntry y x.2 = true) tr).
  { destruct next as [y|]; [|injection HB as <- <-; exists []; split; [done|]; exists []; split_and!; [done|constructor..]].
    destruct (browse lz p limit (cursorOf (Some y)) calls) as [vs' en] eqn:E. injection HB as <- <-. exists vs'. split; [done|].
    destruct (sg_cursor _ _ _ _ _ _ _ _ SG y eq_refl) as (Hy & _). destruct (IH (Some y) vs' en Hp Hl HC Hy E) as (tr & T1 & T2 & T3 & T4).
    exists tr. split_and!; [done..|]. eapply Forall_impl; [exact T4|]. intros x Hx. by exists y. }
  destruct Hvs as (vs' & -> & tr & T1 & T2 & T3 & T4). destruct SG as [_ Hv C HI _ HR HN]. exists (map (pair v) win ++ tr).
  assert (Hin : ∀ e, e ∈ win → e ∈ rest cur (viBox v)) by (intros e He; rewrite HR; by apply elem_of_app; left).
  rewrite Forall_forall in T4. split_and!.
  - unfold browsed in *. cbn [map concat]. by rewrite omap_app, omap_visit, T1, HI, Hv.
  - apply Forall_app. split; [|by eapply Forall_impl; [exact T2|apply kept_further]]. change (map (pair v) win) with (pair v <$> win). apply Forall_fmap, Forall_forall.
    intros e He. apply Hin, (elem_of_rest cur _ e C) in He as [He _]. split; [by left|done].
  - apply sorted_app; [|done|].
    + apply (sorted_map snd (λ a b, newerEntry a b = true)). rewrite map_map. cbn [snd]. rewrite map_id. apply (app_sorted _ _ (match next with Some _ => rest next (viBox v) | None => [] end)).
      rewrite <- HR. by apply filter_sorted, listed_sorted.
    + intros x z (e & -> & He)%list_elem_of_fmap Hz. cbn. destruct (T4 z Hz) as (y & -> & Hy). destruct (newerEntry e z.2) eqn:E; [done|].
      pose proof (rest_nodup cur _ C) as ND. rewrite HR in ND. apply NoDup_app in ND as (_ & ND & _). rewrite (newer_ntrans z.2 e y E) in Hy; [done|].
      destruct (newerEntry y e) eqn:E2; [|done]. destruct (ND e He). apply elem_of_rest; [done|]. split; [|done]. by apply Hin, (elem_of_rest cur _ e C) in He as [He _].
  - apply Forall_app. split.
    + change (map (pair v) win) with (pair v <$> win). apply Forall_fmap, Forall_forall. intros e He. by apply Hin, (elem_of_rest cur _ e C) in He as [_ He].
    + apply Forall_forall. intros x Hx. destruct (T4 x Hx) as (y & -> & Hy). destruct (HN y eq_refl) as (_ & Hpy & _). by eapply past_trans.
Qed.

(** Between two pages nothing arrives but mails that are newer than all that was listed. *)
Definition arrivals_newer (vs : list Visit) : Prop :=
  ∀ i v v' e', vs !! i = Some v → vs !! S i = Some v' → e' ∈ listed (viBox v') →
    (∃ e, e ∈ listed (viBox v) ∧ enMailID e = enMailID e' ∧ enDeliveredAtUnix e = enDeliveredAtUnix e') ∨ (∀ e, e ∈ listed (viBox v) → newerEntry e' e = true).

Lemma rest_shrinks v v' vs y : arrivals_newer (v :: v' :: vs) → box_core (viBox v) → box_core (viBox v') → y ∈ listed (viBox v) →
  zlen (rest (Some y) (viBox v')) ≤ zlen (rest (Some y) (viBox v)).
Proof.
  intros HA C C' Hy. unfold zlen. apply Nat2Z.inj_le. rewrite <- (length_map enMailID (rest (Some y) (viBox v'))), <- (length_map enMailID (rest (Some y) (viBox v))).
  apply submseteq_length, NoDup_submseteq.
  - change (map enMailID ?l) with (enMailID <$> l). eapply sublist_NoDup; [|apply fmap_sublist, list_filter_sublist].
    unfold listed. fold (shown (viBox v')). rewrite (SliceStable_perm newerEntry (shown (viBox v'))). by apply shown_ids.
  - intros id (e' & -> & He')%list_elem_of_fmap. unfold rest in He'. apply list_elem_of_In, filter_In in He' as [He' Hpast]. apply list_elem_of_In in He'.
    destruct (HA 0%nat v v' e' eq_refl eq_refl He') as [(e & He & Hid & Ht)|Hnew]; [|cbn [past] in Hpast; by rewrite (newer_asym _ _ (Hnew y Hy)) in Hpast].
    apply list_elem_of_fmap. exists e. split; [done|]. unfold rest. apply list_elem_of_In, filter_In. split; [by apply list_elem_of_In|].
    rewrite <- Hpast. by apply past_position.
Qed.

(** With as many calls as the mails need pages the browse reaches its end. *)
Lemma browse_ends lz p limit calls : ∀ cur vs ended, 0 < p → 0 ≤ limit → Forall (call_ok p) calls → cur_ok cur → browse lz p limit (cursorOf cur) calls = (vs, ended) →
  arrivals_newer vs → (∃ v, head vs = Some v ∧ zlen (rest cur (viBox v)) ≤ pageLimit limit * zlen calls) → ended = true.
Proof.
  induction calls as [|c calls IH]; intros cur vs ended Hp Hl HC Hcur HB HA (v0 & Hv0 & Hlen); [by injection HB as <- <-|].
  apply Forall_cons in HC as [Hc HC]. destruct (stage_of lz p limit cur c Hp Hl Hc Hcur) as (v & win & next & SG). rewrite (browse_step _ _ _ _ _ _ _ _ _ SG) in HB.
  destruct next as [y|]; [|by injection HB as <- <-]. destruct (browse lz p limit (cursorOf (Some y)) calls) as [vs' en] eqn:E. injection HB as <- <-.
  injection Hv0 as <-. destruct SG as [_ _ C _ _ HR HN]. destruct (HN y eq_refl) as (Hy & _ & Hin & Hwin & Hlt). rewrite zlen_cons in Hlen.
  destruct calls as [|c' calls]; [rewrite zlen_nil in Hlen; lia|]. pose proof HC as HC'. apply Forall_cons in HC' as [Hc' _].
  destruct (stage_of lz p limit (Some y) c' Hp Hl Hc' Hy) as (v' & win' & next' & SG').
  assert (Hvs : ∃ vs'', vs' = v' :: vs'').
  { rewrite (browse_step _ _ _ _ _ _ _ _ _ SG') in E. destruct next'; [|injection E as <- <-; by eexists]. destruct (browse _ _ _ _ calls). injection E as <- <-. by eexists. }
  destruct Hvs as (vs'' & ->). apply (IH (Some y) (v' :: vs'') en Hp Hl HC Hy E).
  - intros i. apply (HA (S i)).
  - exists v'. split; [done|]. assert (Hyl : y ∈ listed (viBox v)).
    { apply (elem_of_listed _ y C). assert (Hr : y ∈ rest cur (viBox v)) by (rewrite HR; by apply elem_of_app; left). by apply (elem_of_rest cur _ y C) in Hr as [Hr _]. }
    pose proof (rest_shrinks v v' vs'' y HA C (sg_core _ _ _ _ _ _ _ _ SG') Hyl). apply (f_equal zlen) in HR. rewrite zlen_app in HR. lia.
Qed.

(** The invariants of a run are what a call needs. *)
Lemma run_call_ok lz lease ops p c :
  let s := mailRun lz lease ops startSys in
  Forall mints ops → Z.of_nat (length ops) < 2^64 → caBoxes c = msBoxes s → caEnvelopes c = msEnvelopes s → caLedger c ∈ msLedgers s →
  times_ok (boxAt (msBoxes s) p) → is_time (caExpiry c) → call_ok p c.
Proof.
  intros s Hm Hl HB HE HL HT Ht. pose proof (mail_run_inv lz lease ops 0 startSys ltac:(lia) Hl Hm mail_inv_start) as I.
  split; rewrite ?HB, ?HE; [by eapply box_at_ok|done|by apply (mi_ledger _ _ I)|intros id e He; by apply (mi_env _ _ I) in He as [He _]|done].
Qed.

(** C24. A client lists a mailbox page by page through [List], following the
    cursors, while other calls may change the mailbox, the envelopes and the
    ledger between two pages.  When it has reached the page without a cursor,
    every mail that was in the mailbox at each page, not deleted, and whose
    envelope was stored and not expired was listed exactly once, even when the
    mail a cursor was made from left in between.  What the pages list are
    entries of their mailboxes that are not deleted and whose envelopes are
    stored and not expired, newest first from the first page to the last.  If
    the mails that arrive in between are newer than those listed, the last page
    is reached within as many calls as the mails need pages.  ([call_ok]: the
    mailbox and the ledger have the invariants that every run keeps, the
    envelopes are stored under their ids, and delivery times are int64 values;
    see [run_call_ok].  Reads of the stores that fail are not modelled.) *)
Theorem pages_complete lz p limit calls vs ended :
  0 < p → 0 ≤ limit → Forall (call_ok p) calls → browse lz p limit [] calls = (vs, ended) →
  (∀ id t, ended = true → Forall (present id t) vs →
    ∃ v e it, v ∈ vs ∧ Entries (viBox v) !! id = Some e ∧ itemOf (caEnvelopes (viCall v)) (caNow (viCall v)) e = Some it ∧ listings id (browsed vs) = [it]) ∧
  (∃ tr, browsed vs = omap itemAt tr ∧ Forall (kept_in vs) tr ∧ StronglySorted (λ x y, newerEntry x.2 y.2 = true) tr) ∧
  (∀ v, head vs = Some v → arrivals_newer vs → zlen (listed (viBox v)) ≤ pageLimit limit * zlen calls → ended = true).
Proof.
  intros Hp Hl HC HB. change [] with (cursorOf None) in HB. split_and!.
  - intros id t -> HP. exact (browse_shows lz p limit id t calls None vs Hp Hl HC I HB HP).
  - destruct (browse_trail lz p limit calls None vs ended Hp Hl HC I HB) as (tr & T1 & T2 & T3 & _). by exists tr.
  - intros v Hv HA Hlen. apply (browse_ends lz p limit calls None vs ended Hp Hl HC I HB HA). exists v. split; [done|].
    unfold rest. cbn [past]. by rewrite filter_true.
Qed.

(** Two mails, one on a page; the first is deleted for good before the second page. *)
Definition oneMail : Mailbox := mkMailbox 7 (<[[97] := newEntry [97] 100]> ∅) 1 ∅ 0 0 None 120.
Definition twoMails : Mailbox := mkMailbox 7 (<[[97] := newEntry [97] 100]> (<[[98] := newEntry [98] 120]> ∅)) 2 ∅ 0 0 None 120.
Definition lettersOf (id : bytes) : Envelope := mkEnvelope id AudienceDirect [] [7] [83] [] [] [114] 100 5000.
Definition letters : envelopes := <[[97] := lettersOf [97]]> (<[[98] := lettersOf [98]]> ∅).
Definition callAt (nowUnix : Z) (m : Mailbox) : Call := mkCall nowUnix nowUnix emptyLedger letters (<[boxKey 7 := mkVersioned m 1]> ∅).

Lemma callAt_ok nowUnix m : is_time nowUnix → (m = oneMail ∨ m = twoMails) → call_ok 7 (callAt nowUnix m).
Proof.
  intros Hn Hm. assert (HE : ∀ id e, Entries m !! id = Some e → e = newEntry id (if bool_decide (id = [97]) then 100 else 120)).
  { intros id e. destruct Hm as [-> | ->]; cbn [Entries oneMail twoMails]; intros [[<- <-]|[_ H]]%lookup_insert_Some; try done.
    apply lookup_insert_Some in H as [[<- <-]|[_ H]]; [done|by rewrite lookup_empty in H]. }
  assert (Hat : boxAt (caBoxes (callAt nowUnix m)) 7 = m) by (unfold boxAt; cbn; by rewrite lookup_insert_eq).
  split; rewrite ?Hat; [split; [split|..]|..|done].
  - by intros id e ->%HE.
  - by destruct Hm as [-> | ->]; vm_compute.
  - intros id _. by destruct Hm as [-> | ->].
  - by destruct Hm as [-> | ->]; vm_compute.
  - by destruct Hm as [-> | ->]; vm_compute.
  - intros id e ->%HE. cbn. by case_bool_decide.
  - apply ledger_ok_empty.
  - intros id e. cbn. unfold letters. intros [[<- <-]|[_ [[<- <-]|[_ H]]%lookup_insert_Some]]%lookup_insert_Some; [done|done|by rewrite lookup_empty in H].
Qed.

Definition twoPages : list Call := [callAt 130 twoMails; callAt 140 oneMail].

Lemma pages_complete_witness : ∃ v e it, v ∈ (browse None 7 1 [] twoPages).1 ∧ Entries (viBox v) !! [97] = Some e ∧
  itemOf (caEnvelopes (viCall v)) (caNow (viCall v)) e = Some it ∧ listings [97] (browsed (browse None 7 1 [] twoPages).1) = [it].
Proof.
  destruct (pages_complete None 7 1 twoPages (browse None 7 1 [] twoPages).1 (browse None 7 1 [] twoPages).2) as [H _].
  - lia.
  - lia.
  - constructor; [|constructor; [|constructor]]; (apply callAt_ok; [done|by auto]).
  - reflexivity.
  - apply (H [97] 100); [vm_compute; reflexivity|]. vm_compute. repeat constructor; (eexists; eexists; split_and!; [reflexivity|done|done|reflexivity]).
Defined.

Example twoPages_listed : browse None 7 1 [] twoPages =
  ([mkVisit (callAt 130 twoMails) twoMails (mkPage [mkItem (lettersOf [98]) StatusUnread false 0] (encodeCursor (newEntry [98] 120)) 2 0);
    mkVisit (callAt 140 oneMail) oneMail (mkPage [mkItem (lettersOf [97]) StatusUnread false 0] [] 1 0)], true).
Proof. vm_compute. reflexivity. Qed.
